(* ===== verification/_CoqProject ===== *)
-Q . S2P
Prelude.v
Bytes.v
Ordered.v
Text.v
Wire.v
Net.v
Overlay.v
Crypto.v
Serde.v
Pelt.v
StateValidation.v
Records.v
Governance.v
GovernanceCodec.v
GovernanceChain.v
GovernanceTools.v
GovernanceDemo.v
LocalFs.v
Destroy.v
Endpoint.v
Handshake.v
Authority.v
Rpc.v
Admission.v
TargetPolicy.v
NodeGovernance.v
Tombstone.v
Discovery.v
ProtectedState.v
Fangs.v
State.v
Terminal.v
Mutation.v
MutationSpec.v
MutationRuntime.v
Persistence.v
Restart.v
AdminDemo.v
ControlLimits.v
AutoSync.v
OpenFang.v
Frames.v
SessionEnd.v
QuicEnd.v
Conn.v
TlsIdentity.v
Session.v
SessionSpec.v
ClientSpec.v
Forward.v
SessionHonest.v
SessionDemo.v
ForwardDemo.v
Operator.v
OperatorSpec.v
Control.v
ControlSpec.v
SilverSpec.v
ControlDemo.v
Ctl.v
CtlSpec.v
CeremonySpec.v
CtlDemo.v
