(* ===== verification/Prelude.v ===== *)
(** * Werewolf Proxy: a verification of its core

    Werewolf Proxy is a peer-to-peer proxy. A node has a Pelt (an Ed25519
    identity), a Pack (the peers it trusts), a target policy (what each peer
    may reach), Fangs (forwarded connections over TCP or QUIC, to a peer,
    through a relay, or to the providers of a service), a Den (a private
    directory with all it must remember), and the head of a governance chain:
    statements signed by seven of ten offline key holders, which say who
    belongs to the network and when it dies. The crate [werewolf-core] has
    the data and the rules; [werewolfd] is the daemon around them;
    [werewolfctl] is the client of its control socket and the offline tool of
    the key holders.

    The development models what the code decides, keeps and sends: formats
    and validators, the governance chain, the gate of the sessions, both ends
    of every handshake and of the copying that follows, the relay and the
    choice of a provider, discovery, every administrative command, the files
    it leaves at every point where it can fail, start-up, death, and the
    client. Definitions have the names of the source where they are free, and
    execute; what interleaves is a step relation or has the interference as
    an argument.

    ** How the parts interact

    A connection is admitted ([Admission]), its OPEN is read ([Conn],
    [Handshake]) and checked against the Pack; the gate ([Authority]) gives a
    ticket and a leased session; the target is authorized ([TargetPolicy]),
    dialled and acknowledged ([Session]); then bytes are copied ([Frames],
    [SessionEnd], [QuicEnd]). A Fang is opened by a command ([OpenFang]), kept
    in the registry ([Fangs]), and makes one such session per local connection
    ([Forward]).

    An operator's command is made by the client ([Ctl]), passes the control
    endpoint ([Endpoint]) and the limits of a request ([ControlLimits]), and is
    dispatched ([Control]) to a mutation ([Mutation]), an open, or the
    operator's side of discovery ([Operator]). A mutation prepares a candidate
    from the live state ([State]), saves it ([ProtectedState], over the disk of
    [LocalFs]), and only then publishes it; a governance statement goes
    through the same path ([Governance], [NodeGovernance]). At the next start
    the Den is read back ([Persistence]), unless a Tombstone ([Tombstone]) says
    that the node died, in which case its destruction ([Destroy], [Terminal])
    is finished.

    ** Files

    In each file a module has the definitions, a module ending in [Spec] the
    theorems, and a module ending in [Demo] the witnesses; larger components
    have a file for each.

    The base.
    - [Prelude]: the result type and its monad, panics as errors, tactics,
      hints, lemmas on lists. [Bytes], [Ordered], [Text], [Wire], [Net]: the
      parts of the Rust standard library the sources use (fixed-size arrays
      and integers of a width; [Ord] with binary search, sorting and B-trees;
      UTF-8 text and numbers; byte readers; socket addresses).
    - [Crypto], [Serde]: Ed25519, BLAKE3, base64 and [serde_json] as classes.

    Data and rules ([werewolf-core]).
    - [Overlay]: [nodeid.rs], [peer.rs], [kbucket.rs], [routing.rs],
      [lookup.rs], [find_node.rs], [message.rs], [peer_store.rs].
    - [Pelt]: [pelt.rs]. [StateValidation]: [state_validation.rs], [pack.rs],
      [fang_profile.rs]. [Records]: [contact.rs], [service.rs],
      [published.rs], [route.rs]. [Tombstone]: [tombstone.rs].
    - [Governance], [GovernanceCodec], [GovernanceChain]: [governance.rs], its
      wire format, what [apply] guarantees. [GovernanceTools]:
      [governance/tool.rs] and [governance/check.rs]. [GovernanceDemo].
    - [LocalFs]: [local_fs/atomic.rs] and the checks of
      [local_fs/directory.rs], on a disk with system calls that fail and power
      that is cut; the class [Den], which is what the daemon relies on.
      [Destroy]: [local_fs/destroy.rs] and the class [DenWipe]. [Endpoint]:
      opening a directory, locks, and [werewolfd/src/control/socket.rs].

    Sessions ([werewolfd]).
    - [Handshake]: [handshake.rs]. [Rpc]: [handshake/rpc.rs]. [Authority]:
      [authority.rs]. [Admission]: [admission.rs], [policy.rs].
      [TargetPolicy]: [target_policy.rs]. [Discovery]: [discovery.rs].
    - [Conn]: the monad of a task that serves or opens a connection; streams,
      deadlines, [authority/writer.rs], the pin of [tls_identity.rs].
      [TlsIdentity]: the rest of [tls_identity.rs].
      [Session]: the handshakes of [transport/tcp_encrypted.rs],
      [transport/quic.rs], [quic_fang.rs] and the RPCs of [discovery.rs], at
      both ends. [SessionSpec], [ClientSpec], [SessionHonest], [SessionDemo].
    - [Frames], [SessionEnd]: the frames and the copying of
      [transport/tcp_encrypted.rs]. [QuicEnd]: the copying over QUIC, with
      the loop of the receiver's connection.
    - [Forward], [ForwardDemo]: [transport/relay.rs], [transport/failover.rs].
    - [Fangs]: [fang_registry.rs]. [OpenFang]: the open in [main.rs].

    Administration ([werewolfd]).
    - [State]: [state.rs], [protocol.rs]. [NodeGovernance]: [governance.rs].
      [ProtectedState]: [protected_state.rs]. [Terminal]: [terminal.rs].
    - [Mutation], [MutationSpec], [MutationRuntime]: [control/mutation.rs].
      [Persistence]: [persistence.rs] and the start in [main.rs]. [Restart].
      [AdminDemo].
    - [ControlLimits]: [control/limits.rs]. [Control], [ControlSpec],
      [SilverSpec], [ControlDemo]: [control.rs]. [AutoSync]: [auto_sync.rs] and
      [control/auto_sync.rs]. [Operator], [OperatorSpec]:
      [discovery/operator.rs].

    The client ([werewolfctl]).
    - [Ctl]: [main.rs], [governance.rs]. [CtlSpec], [CeremonySpec],
      [CtlDemo].

    ** What the theorems show

    - Governance ([GovChain]): no head changes without a quorum; death is
      terminal; a fork fences the node; revocation is permanent; each applied
      statement has the effect of an abstract network of sets (a refinement);
      [apply] never panics on a reachable head; one hash pins the history, up
      to an explicit collision; the wire format has one reading. A decision
      that seven holders make with the offline commands always gets through to
      the head of a node ([CeremonySpec]).
    - The gate: [Authority] keeps its limits and never revives a ticket;
      denial and the lock are final for the sessions they hit; [Admission]
      keeps its global and per-peer limits under every interleaving, leaks
      nothing, and accepts a QUIC open once; [TargetPolicy] grants a target
      exactly when each of its addresses is granted.
    - Sessions ([SessionSpec], [ClientSpec], [Honest]): whatever the other
      tasks do between any two steps, a receiver dials and acknowledges only
      for an authenticated, authorized sender whose lease is current, and
      answers an RPC only for a Pack member whose token bucket had a token; an
      initiator sends at most one OPEN, to the peer it selected; two honest
      ends agree on the key. A node's certificate is accepted exactly by the
      peers that selected its key ([TlsIdentitySpec]).
    - Bytes: a reader of frames delivers what the writer of its direction
      sealed, in order, and ends cleanly only between two frames; over TCP and
      QUIC nothing but a prefix is delivered, a clean end means that the source
      ended and all of it was delivered, so a failed end is not taken for one;
      two running ends can always finish, and over QUIC a receiver outlives
      the initiator's close. A relay can neither speak for the
      destination nor learn its session; a connection is served by one
      provider.
    - The Den: a write is atomic at every failing call and power cut; a commit
      of the protected state leaves the old generation or the new one; nothing
      is destroyed before a durable Tombstone, and an interrupted destruction
      is finished.
    - Administration: after any sequence of commands, whatever failed, a
      restart of a node in protected mode gives the state it had published,
      and Silver as it was last saved, unless the node reports degraded
      storage ([MutationSpec], [Restart]); the Pack obeys the governance; a
      revoked member is cut off although the save fails, and nothing changes
      when the denial cannot be recorded; a changed address closes what was
      built on the old one, or is kept from the node and the Den
      ([MutationRuntime]). Every line of a client is a sequence of
      administrative steps, refused or answered as its command says, and its
      success is on the disk ([ControlSpec]). Silver closes the node, is saved
      and stays until it is reset ([SilverSpec]); a Fang is opened only
      through its gates, and once closed no task of it runs on, under every
      interleaving with its tasks ([FangsSpec]).
    - The control endpoint: one daemon at a time owns a socket, nothing but a
      dead socket is removed, and after a crash the next daemon takes over.
      The daemon reads every request of the client as that command
      ([CtlSpec]).
    - Discovery: an answer is the longest part that fits; a sync applies what
      was offered and verifies, in order, or reports what stopped it; a lookup asks each of a bounded number of nodes
      once; the scheduler of automatic sync respects the switch and the
      operator.

    ** Where the code and its documents differ

    [bad_copy_hides]: of two copies of a statement, a bad one from the peer
    that answers first hides the good one. [unadmission_restarts_silver]: a
    save by an unadmitted node makes Silver permanent. [rotation_may_swap]: a
    rotation can exchange two keys. [tool_unhex_accepts_sign]: [+f] is read as
    a byte. [published_scope_gap]: an IPv6 target with a scope can be stored
    and not read.

    ** What is assumed

    Code outside the repository is a parameter, a class with its documented
    behaviour as laws where a theorem needs them, and an instance for the
    witnesses: [Crypto], [Base64], [Serde] and the classes of documents,
    [JsonText], [Aead] (ChaCha20-Poly1305), [Tls] (rustls, webpki), [Rcgen]
    (PKCS#8, rcgen), [X25519], [Semaphore] (tokio). Quinn's streams and rustls' [close_notify] are stated
    in [QuicEnd] and [SessionEnd]; the kernel's directories, sockets and locks
    in [LocalFs], [Destroy] and [Endpoint]. Clocks, random bytes, what peers
    and the resolver answer, how an await ends and what other tasks do in the
    meantime ([Conn.Env], [Control.Env]) are arguments, and the theorems hold
    for all of them unless they say otherwise.

    ** Bounds, fuel and errors

    Integers are [Z] with their width written out ([u64_add] wraps,
    [u64_checked_add] fails); counters that the code bounds are [nat]; the
    token bucket is binary64 ([SpecFloat]). A panic (index, [expect],
    overflow) is the error [Panicked], so its absence is a theorem. Fuel is
    always a bound that cannot be reached: the length of what is consumed
    where each turn takes at least a byte or halves a slice (UTF-8, binary
    search, [Conn.write_all], [Frames.read_all], [zero_loop]), twenty digits for
    a number of 64 bits, the longest offer of a sync ([walk_fuel]). [ROUNDS],
    [MAX_HOPS] and the limit of a line are the code's own. A schedule of a
    [select!] or of a join set is a finite list; theorems quantify over it.
    [endpoint_recovers] bounds a start by twelve system calls.

    ** Not modelled

    The accept loops, socket options and addresses of listeners (what a
    listener reports is an argument), the timing of [DRAIN] and of the other
    windows beyond their expiry, plain TCP, the wiring of tasks, signals and
    shutdown in [main.rs], [config.rs] and [cli.rs], [clap]'s parser, pretty
    printing, logging, wiping of memory, plain file I/O of the tools,
    laboratory binaries. These
    are I/O or belong to libraries; there is no decision in them beyond those
    the model has. *)

From Stdlib Require Export Strings.Byte.
From stdpp Require Export base list gmap numbers countable sorting.
From stdpp Require Export strings.

(** ** Scope, hint database and tactics *)

Declare Scope ww_scope.
Delimit Scope ww_scope with ww.

Create HintDb ww.

(** ** Results: [Result<A, E>] with the early-return operator [?] *)

Inductive result (E A : Type) : Type :=
| Ok (a : A)
| Err (e : E).
Arguments Ok {E A} a.
Arguments Err {E A} e.

#[export] Instance result_ret {E} : MRet (result E) := λ A a, Ok a.
#[export] Instance result_bind {E} : MBind (result E) := λ A B f m,
  match m with Ok a => f a | Err e => Err e end.
#[export] Instance result_fmap {E} : FMap (result E) := λ A B f m,
  match m with Ok a => Ok (f a) | Err e => Err e end.

(** [require b e] is the guard [if !b { return Err(e) }]. *)
Definition require {E} (b : bool) (e : E) : result E () :=
  if b then Ok () else Err e.

(** [Option::ok_or]. *)
Definition ok_or {E A} (o : option A) (e : E) : result E A :=
  match o with Some a => Ok a | None => Err e end.

(** [Result::map_err]. *)
Definition map_err {E F A} (f : E → F) (r : result E A) : result F A :=
  match r with Ok a => Ok a | Err e => Err (f e) end.

Definition is_ok {E A} (r : result E A) : bool :=
  match r with Ok _ => true | Err _ => false end.

(** [iter().map(f).collect::<Result<Vec<_>, _>>()]: stops at the first error. *)
Fixpoint try_map {E A B} (f : A → result E B) (l : list A) : result E (list B) :=
  match l with
  | [] => Ok []
  | x :: l => y ← f x; ys ← try_map f l; Ok (y :: ys)
  end.

(** [for x in l { f(acc, x)? }]: a loop over [l] that threads [acc]. *)
Fixpoint try_fold {E A B} (f : A → B → result E A) (acc : A) (l : list B) : result E A :=
  match l with
  | [] => Ok acc
  | x :: l => acc' ← f acc x; try_fold f acc' l
  end.

Lemma bind_Ok {E A B} (m : result E A) (f : A → result E B) b :
  m ≫= f = Ok b ↔ ∃ a, m = Ok a ∧ f a = Ok b.
Proof. destruct m; cbn; naive_solver. Qed.

Lemma bind_unit_Ok {E B} (m : result E ()) (n : result E B) b :
  (_ ← m; n) = Ok b ↔ m = Ok () ∧ n = Ok b.
Proof. destruct m as [[]|]; cbn; naive_solver. Qed.

Lemma require_Ok {E} (b : bool) (e : E) u : require b e = Ok u ↔ b = true.
Proof. destruct b, u; cbn; naive_solver. Qed.

Lemma ok_or_Ok {E A} (o : option A) (e : E) a : ok_or o e = Ok a ↔ o = Some a.
Proof. destruct o; cbn; naive_solver. Qed.

Lemma map_err_Ok {E F A} (f : E → F) (r : result E A) a :
  map_err f r = Ok a ↔ r = Ok a.
Proof. destruct r; cbn; naive_solver. Qed.

Lemma try_map_Ok {E A B} (f : A → result E B) l ys :
  try_map f l = Ok ys ↔ Forall2 (λ x y, f x = Ok y) l ys.
Proof.
  revert ys; induction l as [|x l IH]; intros ys; cbn [try_map].
  - split; [intros [= <-]; constructor | inversion 1; reflexivity].
  - rewrite bind_Ok. split.
    + intros (y & Hy & Hrest). apply bind_Ok in Hrest as (ys' & Hys & [= <-]).
      constructor; [done | by apply IH].
    + inversion 1 as [|? y ? ys' Hy Hys]; subst.
      exists y; split; [done|]. apply IH in Hys. by rewrite Hys.
Qed.

Lemma try_map_Err {E A B} (f : A → result E B) l e :
  try_map f l = Err e → ∃ x, x ∈ l ∧ f x = Err e.
Proof.
  induction l as [|x l IH]; cbn [try_map]; [done|].
  destruct (f x) as [y|e'] eqn:Hx; cbn; [|intros [= <-]; exists x; split; [by left|done]].
  destruct (try_map f l) as [ys|e'] eqn:Hl; cbn; [done|]. intros [= ->].
  destruct IH as (z & Hz & Hf); [done|]. exists z. split; [by right|done].
Qed.

Lemma Forall2_choice {A B} (R : A → B → Prop) l :
  (∀ x, x ∈ l → ∃ y, R x y) → ∃ k, Forall2 R l k.
Proof.
  induction l as [|x l IH]; intros Hl; [by exists []|].
  destruct (Hl x) as [y Hy]; [by left|]. destruct IH as [k Hk]; [set_solver|].
  exists (y :: k). by constructor.
Qed.

Lemma Forall2_elem_r {A B} (R : A → B → Prop) l k y :
  Forall2 R l k → y ∈ k → ∃ x, x ∈ l ∧ R x y.
Proof.
  intros Hf [i Hi]%list_elem_of_lookup. destruct (Forall2_lookup_r _ _ _ _ _ Hf Hi) as (x & Hx & HR).
  exists x. split; [by eapply list_elem_of_lookup_2|done].
Qed.

Lemma Forall2_perm {A B} (R : A → B → Prop) l l' k :
  l ≡ₚ l' → Forall2 R l k → ∃ k', Forall2 R l' k' ∧ k ≡ₚ k'.
Proof.
  intros Hp. revert k. induction Hp as [|x l l' Hp IH|x y l|l1 l2 l3 _ IH1 _ IH2]; intros k Hk.
  - by exists k.
  - apply Forall2_cons_inv_l in Hk as (y & k1 & Hy & Hk1 & ->).
    destruct (IH k1 Hk1) as (k' & Hk' & Hkp). exists (y :: k'). split; [by constructor|by rewrite Hkp].
  - apply Forall2_cons_inv_l in Hk as (a & k1 & Ha & Hk1 & ->).
    apply Forall2_cons_inv_l in Hk1 as (b & k2 & Hb & Hk2 & ->).
    exists (b :: a :: k2). split; [by repeat constructor|by constructor].
  - destruct (IH1 k Hk) as (k1 & Hk1 & Hp1). destruct (IH2 k1 Hk1) as (k2 & Hk2 & Hp2).
    exists k2. split; [done|by trans k1].
Qed.

(** ** Panics

    Where the source can panic (an index out of range, an [expect]), the
    model returns [Err Panicked]; an error the code returns is [Raised e]. *)

Inductive fault (E : Type) : Type :=
| Raised (e : E)
| Panicked.
Arguments Raised {E} e.
Arguments Panicked {E}.

Definition raise {E A} (e : E) : result (fault E) A := Err (Raised e).

(** [v[i]]. *)
Definition index {E A} (l : list A) (i : nat) : result (fault E) A :=
  ok_or (l !! i) Panicked.

(** A call whose errors are the caller's, inside code that may panic. *)
Definition lift {E A} (r : result E A) : result (fault E) A := map_err Raised r.

#[export] Hint Rewrite @bind_Ok @require_Ok @ok_or_Ok @map_err_Ok : ww.

(** Opens a hypothesis [... = Ok _] over binds, guards and conditionals. *)
Ltac ww_step :=
  match goal with
  | H : Ok _ = Ok _ |- _ => injection H as H
  | H : Ok _ = Err _ |- _ => discriminate H
  | H : Err _ = Ok _ |- _ => discriminate H
  | H : raise _ = Ok _ |- _ => discriminate H
  | H : (_ ≫= _) = Ok _ |- _ => apply bind_Ok in H as (? & ? & H)
  | H : require _ _ = Ok _ |- _ => apply require_Ok in H
  | H : ok_or _ _ = Ok _ |- _ => apply ok_or_Ok in H
  | H : map_err _ _ = Ok _ |- _ => apply map_err_Ok in H
  | H : (if ?b then _ else _) = Ok _ |- _ =>
      let Hb := fresh "Hb" in destruct b eqn:Hb; try discriminate H
  | H : match ?x with _ => _ end = Ok _ |- _ =>
      let Hx := fresh "Hx" in destruct x eqn:Hx; try discriminate H
  end.
Ltac ww_inv := repeat (ww_step; simplify_eq).

(** Reflects the boolean connectives of a hypothesis or goal into [Prop]. *)
Ltac bool_simpl :=
  repeat match goal with
  | H : (_ && _)%bool = true |- _ => apply andb_true_iff in H as [? ?]
  | H : (_ || _)%bool = false |- _ => apply orb_false_iff in H as [? ?]
  | H : negb _ = true |- _ => apply negb_true_iff in H
  | H : negb _ = false |- _ => apply negb_false_iff in H
  | H : bool_decide _ = true |- _ => apply bool_decide_eq_true in H
  | H : bool_decide _ = false |- _ => apply bool_decide_eq_false in H
  | H : (_ =? _)%nat = true |- _ => apply Nat.eqb_eq in H
  | H : (_ =? _)%nat = false |- _ => apply Nat.eqb_neq in H
  | H : (_ <? _)%nat = true |- _ => apply Nat.ltb_lt in H
  | H : (_ <? _)%nat = false |- _ => apply Nat.ltb_ge in H
  | H : (_ <=? _)%nat = true |- _ => apply Nat.leb_le in H
  | H : (_ <=? _)%nat = false |- _ => apply Nat.leb_gt in H
  | H : (_ =? _)%Z = true |- _ => apply Z.eqb_eq in H
  | H : (_ =? _)%Z = false |- _ => apply Z.eqb_neq in H
  | H : (_ <? _)%Z = true |- _ => apply Z.ltb_lt in H
  | H : (_ <? _)%Z = false |- _ => apply Z.ltb_ge in H
  | H : (_ <=? _)%Z = true |- _ => apply Z.leb_le in H
  | H : (_ <=? _)%Z = false |- _ => apply Z.leb_gt in H
  end.

Lemma lift_Ok {E A} (r : result E A) a : lift r = Ok a → r = Ok a.
Proof. apply map_err_Ok. Qed.

Lemma lift_not_panic {E A} (r : result E A) : lift r ≠ Err Panicked.
Proof. by destruct r. Qed.

Definition no_panic {E A} (r : result (fault E) A) : Prop := r ≠ Err Panicked.

Lemma no_panic_bind {E A B} (m : result (fault E) A) (f : A → result (fault E) B) :
  no_panic m → (∀ a, m = Ok a → no_panic (f a)) → no_panic (m ≫= f).
Proof. unfold no_panic. destruct m as [a|[e|]]; cbn; intros Hm Hf; [by apply Hf|done|done]. Qed.

Lemma no_panic_Ok {E A} (a : A) : no_panic (Ok (E:=fault E) a).
Proof. done. Qed.

Lemma no_panic_raise {E A} (e : E) : no_panic (A:=A) (raise e).
Proof. done. Qed.

Lemma no_panic_lift {E A} (r : result E A) : no_panic (lift r).
Proof. apply lift_not_panic. Qed.

Lemma no_panic_index {E A} (l : list A) i : (i < length l)%nat → no_panic (E:=E) (index l i).
Proof. intros [x Hx]%lookup_lt_is_Some_2. unfold no_panic, index. by rewrite Hx. Qed.

#[export] Hint Resolve no_panic_Ok no_panic_raise no_panic_lift : ww.
