(* ===== verification/Bytes.v ===== *)
(** * Bytes, fixed-size arrays and machine integers

    [u8] is [Byte.byte]; [u16] and [u64] are [Z] with their wrap-around
    written out; [Vec<u8>] and [&[u8]] are [list byte]; [[u8; N]] is
    [array N], a list of exactly [N] bytes. [be_bytes] and [be_value] are
    [to_be_bytes] and [from_be_bytes]. *)

From S2P Require Export Prelude.

Local Open Scope Z_scope.

(** ** [u8] *)

Definition byte_val (b : byte) : Z := Z.of_N (Byte.to_N b).

(** [z as u8]: truncation. *)
Definition byte_of (z : Z) : byte :=
  default x00 (Byte.of_N (Z.to_N (z `mod` 256))).

(** [b as usize]. *)
Definition byte_nat (b : byte) : nat := N.to_nat (Byte.to_N b).

#[export] Instance byte_eq_dec : EqDecision byte := Byte.byte_eq_dec.
#[export] Instance byte_inhabited : Inhabited byte := populate x00.

Lemma byte_val_range b : 0 ≤ byte_val b < 256.
Proof. unfold byte_val. pose proof (Byte.to_N_bounded b). lia. Qed.

Lemma byte_of_val b : byte_of (byte_val b) = b.
Proof.
  unfold byte_of. rewrite Z.mod_small by apply byte_val_range.
  unfold byte_val. rewrite N2Z.id, Byte.of_to_N. done.
Qed.

Lemma byte_val_of z : byte_val (byte_of z) = z `mod` 256.
Proof.
  unfold byte_of, byte_val.
  assert (0 ≤ z `mod` 256 < 256) as Hz by (apply Z.mod_pos_bound; lia).
  destruct (Byte.of_N (Z.to_N (z `mod` 256))) as [b|] eqn:Hb; simpl.
  - apply Byte.to_of_N in Hb. rewrite Hb. lia.
  - apply Byte.of_N_None_iff in Hb. lia.
Qed.

Lemma byte_val_inj a b : byte_val a = byte_val b → a = b.
Proof. intros H. by rewrite <-(byte_of_val a), H, byte_of_val. Qed.

Lemma byte_nat_val b : Z.of_nat (byte_nat b) = byte_val b.
Proof. unfold byte_nat, byte_val. lia. Qed.

Lemma byte_nat_of n : (n < 256)%nat → byte_nat (byte_of (Z.of_nat n)) = n.
Proof.
  intros. apply Nat2Z.inj. rewrite byte_nat_val, byte_val_of.
  apply Z.mod_small. lia.
Qed.

#[export] Instance byte_countable : Countable byte.
Proof.
  apply (inj_countable' byte_val byte_of). apply byte_of_val.
Defined.

(** [a ^ b] on [u8]. *)
Definition byte_xor (a b : byte) : byte := byte_of (Z.lxor (byte_val a) (byte_val b)).

(** ** Big-endian integers *)

Fixpoint be_value_from (acc : Z) (l : list byte) : Z :=
  match l with
  | [] => acc
  | b :: l => be_value_from (acc * 256 + byte_val b) l
  end.

(** [uN::from_be_bytes]. *)
Definition be_value (l : list byte) : Z := be_value_from 0 l.

(** [uN::to_be_bytes] for an [n]-byte integer. *)
Fixpoint be_bytes (n : nat) (z : Z) : list byte :=
  match n with
  | O => []
  | S n => byte_of (z `div` 256 ^ Z.of_nat n) :: be_bytes n z
  end.

Lemma length_be_bytes n z : length (be_bytes n z) = n.
Proof. induction n; simpl; congruence. Qed.

Lemma be_value_from_shift acc l :
  be_value_from acc l = acc * 256 ^ Z.of_nat (length l) + be_value l.
Proof.
  unfold be_value. revert acc. induction l as [|b l IH]; intros acc; simpl be_value_from.
  - simpl. lia.
  - rewrite IH, (IH (0 * 256 + byte_val b)). rewrite length_cons, Nat2Z.inj_succ, Z.pow_succ_r by lia.
    lia.
Qed.

Lemma be_value_cons b l :
  be_value (b :: l) = byte_val b * 256 ^ Z.of_nat (length l) + be_value l.
Proof.
  unfold be_value at 1. simpl be_value_from. rewrite be_value_from_shift. lia.
Qed.

Lemma be_value_range l : 0 ≤ be_value l < 256 ^ Z.of_nat (length l).
Proof.
  induction l as [|b l IH]; [unfold be_value; simpl; lia|].
  rewrite be_value_cons, length_cons, Nat2Z.inj_succ, Z.pow_succ_r by lia.
  pose proof (byte_val_range b). nia.
Qed.

Lemma be_value_bytes n z : be_value (be_bytes n z) = z `mod` 256 ^ Z.of_nat n.
Proof.
  induction n as [|n IH]; [by rewrite Z.mod_1_r|].
  simpl be_bytes. rewrite be_value_cons, length_be_bytes, IH, byte_val_of.
  rewrite Nat2Z.inj_succ, Z.pow_succ_r, (Z.mul_comm 256) by lia.
  rewrite Z.rem_mul_r by lia. lia.
Qed.

Lemma be_value_bytes_small n z :
  0 ≤ z < 256 ^ Z.of_nat n → be_value (be_bytes n z) = z.
Proof. intros. rewrite be_value_bytes. by apply Z.mod_small. Qed.

Lemma be_value_inj a b :
  length a = length b → be_value a = be_value b → a = b.
Proof.
  revert b. induction a as [|x a IH]; intros [|y b]; try done.
  intros [= Hlen]. rewrite !be_value_cons, Hlen. intros Heq.
  pose proof (be_value_range a). pose proof (be_value_range b).
  rewrite Hlen in *.
  assert (byte_val x = byte_val y) as Hxy by nia.
  f_equal; [by apply byte_val_inj | apply IH; [done|]]. rewrite Hxy in Heq. lia.
Qed.

Lemma be_bytes_value l : be_bytes (length l) (be_value l) = l.
Proof.
  apply be_value_inj; [apply length_be_bytes|].
  apply be_value_bytes_small, be_value_range.
Qed.

Arguments be_bytes : simpl never.

(** ** [u64] arithmetic *)

Definition u16_range (z : Z) : Prop := 0 ≤ z < 2 ^ 16.
Definition u64_range (z : Z) : Prop := 0 ≤ z < 2 ^ 64.
Definition U64_MAX : Z := 2 ^ 64 - 1.

(** [a + b] as the release build computes it, and [u64::wrapping_add]. *)
Definition u64_add (a b : Z) : Z := (a + b) `mod` 2 ^ 64.

(** [u64::checked_add]. *)
Definition u64_checked_add (a b : Z) : option Z :=
  if a + b <? 2 ^ 64 then Some (a + b) else None.

Lemma u64_checked_add_Some a b n : u64_checked_add a b = Some n ↔ a + b < 2 ^ 64 ∧ n = a + b.
Proof. unfold u64_checked_add. destruct (Z.ltb_spec (a + b) (2 ^ 64)); naive_solver lia. Qed.

Lemma u64_add_small a b : 0 ≤ a → 0 ≤ b → a + b < 2 ^ 64 → u64_add a b = a + b.
Proof. intros. apply Z.mod_small. lia. Qed.

(** ** [[u8; N]] *)

Record array (n : nat) : Type := Array {
  array_bytes : list byte;
  array_length_ok : Is_true (length array_bytes =? n)%nat
}.
Arguments Array {n} _ _.
Arguments array_bytes {n} _.

Lemma length_array {n} (a : array n) : length (array_bytes a) = n.
Proof. destruct a as [l Hl]; simpl. by apply Nat.eqb_eq, Is_true_true. Qed.

Lemma array_eq {n} (a b : array n) : array_bytes a = array_bytes b → a = b.
Proof.
  destruct a as [la Ha], b as [lb Hb]; simpl; intros ->.
  f_equal. apply proof_irrel.
Qed.

#[export] Instance array_eq_dec {n} : EqDecision (array n) := λ a b,
  match decide (array_bytes a = array_bytes b) with
  | left H => left (array_eq a b H)
  | right H => right (λ E, H (f_equal array_bytes E))
  end.

(** [<[u8; N]>::try_from(slice)]. *)
Definition to_array (n : nat) (l : list byte) : option (array n) :=
  match Sumbool.sumbool_of_bool (length l =? n)%nat with
  | left H => Some (Array l (Is_true_true_2 _ H))
  | right _ => None
  end.

Lemma to_array_Some n l a : to_array n l = Some a ↔ array_bytes a = l.
Proof.
  unfold to_array. destruct (Sumbool.sumbool_of_bool _) as [H|H].
  - split; [intros [= <-]; done | intros Ha; f_equal; by apply array_eq].
  - split; [done|]. intros <-. apply Nat.eqb_neq in H. by rewrite length_array in H.
Qed.

Lemma to_array_bytes {n} (a : array n) : to_array n (array_bytes a) = Some a.
Proof. by apply to_array_Some. Qed.

Lemma to_array_None n l : to_array n l = None ↔ length l ≠ n.
Proof.
  unfold to_array. destruct (Sumbool.sumbool_of_bool _) as [H|H]; split; try done.
  - intros Hn. destruct Hn. by apply Nat.eqb_eq.
  - intros _. by apply Nat.eqb_neq in H.
Qed.

(** [[b; N]]: every byte [b]. *)
Program Definition array_fill (n : nat) (b : byte) : array n := Array (replicate n b) _.
Next Obligation. intros. apply Is_true_true_2, Nat.eqb_eq, length_replicate. Qed.

#[export] Instance array_countable {n} : Countable (array n).
Proof.
  apply (inj_countable array_bytes (to_array n)). apply to_array_bytes.
Defined.

(** Element-wise combination of two arrays (a [zip] loop over both). *)
Program Definition array_zip_with {n} (f : byte → byte → byte) (a b : array n) : array n :=
  Array (zip_with f (array_bytes a) (array_bytes b)) _.
Next Obligation.
  intros. apply Is_true_true_2, Nat.eqb_eq. rewrite length_zip_with, !length_array. lia.
Qed.
