(* ===== verification/Ordered.v ===== *)
(** * Ordered data: [Ord], sorted vectors, [slice::binary_search], stable sort

    [OrdCmp] is Rust's [Ord] with its laws. [[u8; N]] compares
    lexicographically, which is the order of the big-endian values
    ([bytes_cmp_value]). [binary_search] is the loop of
    [core::slice::binary_search_by]; on a strictly increasing slice it
    finds an element exactly when it is there, and otherwise the insertion
    point that keeps the slice increasing. *)

From stdpp Require Export gmap.
From S2P Require Export Bytes.

(** ** [Ord] *)

Class OrdCmp (A : Type) : Type := {
  cmp : A → A → comparison;
  cmp_eq : ∀ a b, cmp a b = Eq ↔ a = b;
  cmp_opp : ∀ a b, cmp b a = CompOpp (cmp a b);
  cmp_trans : ∀ a b c, cmp a b = Lt → cmp b c = Lt → cmp a c = Lt
}.

Definition olt `{OrdCmp A} (a b : A) : Prop := cmp a b = Lt.

(** [a < b] and [a >= b] as the code tests them. *)
Definition oltb `{OrdCmp A} (a b : A) : bool :=
  match cmp a b with Lt => true | _ => false end.
Definition ogeb `{OrdCmp A} (a b : A) : bool := negb (oltb a b).

Section ord.
Context `{OrdCmp A}.
Implicit Types a b c x y : A.

Lemma oltb_olt a b : oltb a b = true ↔ olt a b.
Proof. unfold oltb, olt. destruct (cmp a b); naive_solver. Qed.

Lemma olt_irrefl a : ¬ olt a a.
Proof. unfold olt. assert (cmp a a = Eq) as -> by by apply cmp_eq. done. Qed.

#[export] Instance olt_trans : Transitive olt.
Proof. intros a b c. apply cmp_trans. Qed.

Lemma olt_trichotomy a b : olt a b ∨ a = b ∨ olt b a.
Proof.
  unfold olt. rewrite (cmp_opp a b). destruct (cmp a b) eqn:E; auto.
  right; left. by apply cmp_eq.
Qed.

Lemma olt_asym a b : olt a b → ¬ olt b a.
Proof. intros H1 H2. apply (olt_irrefl a). by trans b. Qed.

Lemma cmp_Gt a b : cmp a b = Gt ↔ olt b a.
Proof. unfold olt. rewrite (cmp_opp a b). destruct (cmp a b); naive_solver. Qed.
End ord.

(** ** Strictly increasing vectors *)

(** [l.windows(2).all(|p| f(p[0], p[1]))]. *)
Fixpoint windows2_all {A} (f : A → A → bool) (l : list A) : bool :=
  match l with
  | x :: (y :: _) as l' => f x y && windows2_all f l'
  | _ => true
  end.

(** [l.windows(2).any(|p| f(p[0], p[1]))]. *)
Fixpoint windows2_any {A} (f : A → A → bool) (l : list A) : bool :=
  match l with
  | x :: (y :: _) as l' => f x y || windows2_any f l'
  | _ => false
  end.

Notation increasing := (StronglySorted olt).

Section sorted.
Context `{OrdCmp A}.
Implicit Types l : list A.

Lemma windows2_any_all f l : windows2_any (λ a b, negb (f a b)) l = negb (windows2_all f l).
Proof.
  clear. induction l as [|x [|y l] IH]; [done|done|].
  cbn [windows2_any windows2_all] in *. rewrite IH, negb_andb. done.
Qed.

Lemma windows2_increasing l : windows2_all oltb l = true ↔ increasing l.
Proof.
  split.
  - intros Hl. apply Sorted_StronglySorted; [apply _|].
    induction l as [|x [|y l] IH]; [constructor | repeat constructor |].
    cbn [windows2_all] in Hl. apply andb_true_iff in Hl as [Hxy Hl].
    constructor; [by apply IH|]. constructor. by apply oltb_olt.
  - intros Hl. induction Hl as [|x l Hl IH Hx]; [done|].
    destruct l as [|y l]; [done|]. cbn [windows2_all].
    apply andb_true_iff. split; [|done]. inversion Hx; subst. by apply oltb_olt.
Qed.

Lemma windows2_not_increasing l : windows2_any ogeb l = false ↔ increasing l.
Proof.
  rewrite <-windows2_increasing. unfold ogeb. rewrite windows2_any_all.
  apply negb_false_iff.
Qed.

Lemma increasing_lookup l i j x y :
  increasing l → l !! i = Some x → l !! j = Some y → (i < j)%nat → olt x y.
Proof.
  intros Hs. revert i j. induction Hs as [|z l Hs IH Hz]; intros i j; [done|].
  destruct i as [|i], j as [|j]; try lia; cbn.
  - intros [= ->] Hy _. rewrite Forall_forall in Hz. apply Hz.
    apply list_elem_of_lookup. eauto.
  - intros Hx Hy ?. apply (IH i j); auto. lia.
Qed.

Lemma increasing_NoDup l : increasing l → NoDup l.
Proof.
  induction 1 as [|z l Hs IH Hz]; constructor; [|done].
  intros Hin. rewrite Forall_forall in Hz.
  apply (olt_irrefl z). by apply Hz.
Qed.
End sorted.

(** ** [binary_search] *)

(** The loop of [binary_search_by]: [base], [size] as in the library; the
    fuel is the slice's length, and [size] at least halves (rounded up)
    until it is 1, so it never runs out. *)
Fixpoint bs_loop `{OrdCmp A} (fuel : nat) (l : list A) (x : A) (base size : nat) : nat :=
  match fuel with
  | O => base
  | S fuel =>
      if (size <=? 1)%nat then base
      else
        let half := (size / 2)%nat in
        let mid := (base + half)%nat in
        let base' := match l !! mid with
                     | Some y => match cmp y x with Gt => base | _ => mid end
                     | None => base
                     end in
        bs_loop fuel l x base' (size - half)
  end.

(** [Ok i]: found at [i]; [Err i]: absent, to be inserted at [i]. *)
Definition binary_search `{OrdCmp A} (l : list A) (x : A) : result nat nat :=
  match l with
  | [] => Err 0%nat
  | _ =>
      let base := bs_loop (length l) l x 0 (length l) in
      match l !! base with
      | Some y => match cmp y x with
                  | Eq => Ok base
                  | Lt => Err (S base)
                  | Gt => Err base
                  end
      | None => Err base
      end
  end.

(** [Vec::insert] and [Vec::remove]. *)
Definition vec_insert {A} (at_ : nat) (x : A) (l : list A) : list A :=
  take at_ l ++ x :: drop at_ l.
Definition vec_remove {A} (at_ : nat) (l : list A) : list A :=
  take at_ l ++ drop (S at_) l.

Section binary_search.
Context `{OrdCmp A}.
Implicit Types l : list A.

(** What one iteration keeps: everything from [base + size] on is above
    [x], and nothing at [base] is, unless [base] is still 0. *)
Definition bs_inv l (x : A) (base size : nat) : Prop :=
  (1 ≤ size)%nat ∧ (base + size ≤ length l)%nat ∧
  (∀ i y, (base + size ≤ i)%nat → l !! i = Some y → olt x y) ∧
  (base = 0%nat ∨ ∀ y, l !! base = Some y → ¬ olt x y).

Lemma bs_loop_inv fuel l x base size :
  increasing l → (size ≤ S fuel)%nat → bs_inv l x base size →
  bs_inv l x (bs_loop fuel l x base size) 1.
Proof.
  intros Hs. revert base size. induction fuel as [|fuel IH]; intros base size Hf Hinv.
  { assert (size = 1%nat) as -> by (destruct Hinv; lia). done. }
  cbn [bs_loop]. destruct (size <=? 1)%nat eqn:Hsz; bool_simpl.
  { assert (size = 1%nat) as -> by (destruct Hinv; lia). done. }
  destruct Hinv as (_ & Hlen & Hhi & Hlo).
  pose proof (Nat.div_mod_eq size 2). pose proof (Nat.mod_upper_bound size 2).
  set (half := (size / 2)%nat) in *.
  destruct (lookup_lt_is_Some_2 l (base + half)) as [y Hy]; [lia|]. rewrite Hy.
  destruct (cmp y x) eqn:Hc; apply IH; try lia; (split_and!; [lia|lia| |]).
  1,3: intros i z Hi Hz; apply (Hhi i z); [lia|done].
  - right. intros z Hz. assert (z = y) as -> by congruence.
    apply cmp_eq in Hc as ->. apply olt_irrefl.
  - right. intros z Hz. assert (z = y) as -> by congruence.
    by apply olt_asym.
  - intros i z Hi Hz. apply cmp_Gt in Hc.
    destruct (decide (i = (base + half)%nat)) as [->|Hne].
    + by assert (z = y) as -> by congruence.
    + trans y; [done|]. apply (increasing_lookup l (base + half) i); auto. lia.
  - done.
Qed.

Lemma binary_search_spec l x :
  increasing l →
  match binary_search l x with
  | Ok i => l !! i = Some x
  | Err i => (i ≤ length l)%nat ∧
      (∀ j y, l !! j = Some y → (j < i)%nat → olt y x) ∧
      (∀ j y, l !! j = Some y → (i ≤ j)%nat → olt x y)
  end.
Proof.
  intros Hs. unfold binary_search. destruct l as [|h l']; [done|].
  set (l := h :: l') in *. set (base := bs_loop _ _ _ _ _).
  assert (bs_inv l x base 1) as (_ & Hlen & Hhi & Hlo).
  { apply bs_loop_inv; [done|lia|]. split_and!; [cbn; lia|lia| |by left].
    intros i y Hi Hy. apply lookup_lt_Some in Hy. lia. }
  destruct (lookup_lt_is_Some_2 l base) as [y Hy]; [lia|]. rewrite Hy.
  destruct (cmp y x) eqn:Hc.
  - apply cmp_eq in Hc as ->. done.
  - split_and!; [lia| |intros j z Hz Hj; apply (Hhi j z); [lia|done]].
    intros j z Hz Hj. destruct (decide (j = base)) as [->|]; [congruence|].
    trans y; [|done]. apply (increasing_lookup l j base); auto. lia.
  - apply cmp_Gt in Hc. destruct Hlo as [Hb|Hlo]; [|by destruct (Hlo y Hy)].
    split_and!; [lia|lia|]. intros j z Hz Hj.
    destruct (decide (j = base)) as [->|]; [by assert (z = y) as -> by congruence|].
    trans y; [done|]. apply (increasing_lookup l base j); auto. lia.
Qed.

Lemma binary_search_elem_of l x : increasing l → is_ok (binary_search l x) = true ↔ x ∈ l.
Proof.
  intros Hs. pose proof (binary_search_spec l x Hs) as Hspec.
  destruct (binary_search l x) as [i|i]; cbn.
  - split; [|done]. intros _. apply list_elem_of_lookup. eauto.
  - split; [done|]. intros [j Hj]%list_elem_of_lookup.
    destruct Hspec as (_ & Hlt & Hgt). destruct (decide (j < i)%nat).
    + by destruct (olt_irrefl x); eauto.
    + destruct (olt_irrefl x). apply (Hgt j); [done|lia].
Qed.

Lemma binary_search_Err_not_elem l x i : increasing l → binary_search l x = Err i → x ∉ l.
Proof.
  intros Hs Hb Hin. apply (binary_search_elem_of _ _ Hs) in Hin. by rewrite Hb in Hin.
Qed.

Lemma elem_of_vec_insert i x y l : y ∈ vec_insert i x l ↔ y = x ∨ y ∈ l.
Proof.
  unfold vec_insert. rewrite <-(take_drop i l) at 3. set_solver.
Qed.

Lemma length_vec_insert i x l : length (vec_insert i x l) = S (length l).
Proof.
  unfold vec_insert. rewrite <-(take_drop i l) at 3. rewrite !length_app. simpl. lia.
Qed.

Lemma vec_insert_increasing l x i :
  increasing l → binary_search l x = Err i → increasing (vec_insert i x l).
Proof.
  intros Hs Hb. pose proof (binary_search_spec l x Hs) as Hspec. rewrite Hb in Hspec.
  destruct Hspec as (Hi & Hlt & Hgt).
  assert (∀ y, y ∈ take i l → olt y x) as Ht.
  { intros y [j Hj]%list_elem_of_lookup. apply lookup_take_Some in Hj as [? ?]. eauto. }
  assert (∀ y, y ∈ drop i l → olt x y) as Hd.
  { intros y [j Hj]%list_elem_of_lookup. rewrite lookup_drop in Hj.
    apply (Hgt (i + j)%nat); [done|lia]. }
  rewrite <-(take_drop i l) in Hs. apply StronglySorted_app in Hs as (Hcross & Hs1 & Hs2).
  unfold vec_insert. apply StronglySorted_app_2; [|done|].
  - intros y z Hy [->|Hz]%elem_of_cons; eauto.
  - constructor; [done|]. apply Forall_forall. intros z Hz. auto.
Qed.

Lemma vec_remove_sublist i l : vec_remove i l `sublist_of` l.
Proof.
  unfold vec_remove. rewrite <-(take_drop i l) at 3. apply sublist_app; [done|].
  replace (S i) with (i + 1)%nat by lia.
  rewrite <-drop_drop. apply sublist_drop.
Qed.

Lemma increasing_sublist l1 l2 : l1 `sublist_of` l2 → increasing l2 → increasing l1.
Proof.
  induction 1 as [|x l1 l2 Hsub IH|x l1 l2 Hsub IH]; intros Hs; [done| |].
  - inversion Hs as [|? ? Hs' Hx]; subst. constructor; [auto|].
    rewrite Forall_forall in Hx |- *. intros y Hy. apply Hx.
    by eapply elem_of_sublist.
  - inversion Hs; subst; auto.
Qed.

Lemma elem_of_vec_remove l x i y :
  increasing l → l !! i = Some x → y ∈ vec_remove i l ↔ y ∈ l ∧ y ≠ x.
Proof.
  intros Hs Hi. pose proof (increasing_NoDup _ Hs) as Hnd.
  assert (l = take i l ++ x :: drop (S i) l) as Hl by by rewrite take_drop_middle.
  rewrite Hl in Hnd. apply NoDup_app in Hnd as (_ & Hd & Hnd).
  apply NoDup_cons in Hnd as [Hx _].
  assert (x ∉ take i l) as Hx' by set_solver.
  unfold vec_remove. rewrite Hl at 3. set_solver.
Qed.
End binary_search.

(** ** Stable sorting: [sort_by_key], [sort] and [dedup] *)

Section sort.
Context {A K : Type} (key : A → K) `{OrdCmp K}.

Fixpoint insert_by_key (x : A) (l : list A) : list A :=
  match l with
  | [] => [x]
  | y :: l' => match cmp (key x) (key y) with
               | Gt => y :: insert_by_key x l'
               | _ => x :: l
               end
  end.

(** The stable sort: inserting from the right, an element goes before the
    elements equal to it. *)
Definition sort_by_key (l : list A) : list A := foldr insert_by_key [] l.

Definition key_le (x y : A) : Prop := cmp (key x) (key y) ≠ Gt.

#[export] Instance key_le_trans : Transitive key_le.
Proof.
  intros x y z Hxy Hyz Hxz. unfold key_le in *. apply cmp_Gt in Hxz.
  destruct (cmp (key x) (key y)) eqn:E1; [|..|done].
  - apply cmp_eq in E1. rewrite E1 in Hxz. apply Hyz. by apply cmp_Gt.
  - apply Hyz. apply cmp_Gt. by trans (key x).
Qed.

Lemma insert_by_key_perm x l : insert_by_key x l ≡ₚ x :: l.
Proof.
  induction l as [|y l IH]; [done|]. cbn.
  destruct (cmp (key x) (key y)); [done|done|]. rewrite IH. constructor.
Qed.

Lemma sort_by_key_perm l : sort_by_key l ≡ₚ l.
Proof. induction l as [|x l IH]; [done|]. cbn. by rewrite insert_by_key_perm, IH. Qed.

Lemma insert_by_key_sorted x l :
  StronglySorted key_le l → StronglySorted key_le (insert_by_key x l).
Proof.
  induction 1 as [|y l Hs IH Hy]; [repeat constructor|]. cbn.
  destruct (cmp (key x) (key y)) eqn:Hc.
  1,2: assert (key_le x y) as Hxy by (unfold key_le; rewrite Hc; done);
    constructor; [by constructor|]; constructor; [done|];
    rewrite Forall_forall in Hy |- *; intros z Hz; trans y; auto.
  constructor; [done|]. rewrite insert_by_key_perm. constructor; [|done].
  unfold key_le. apply cmp_Gt in Hc. unfold olt in Hc. by rewrite Hc.
Qed.

Lemma sort_by_key_sorted l : StronglySorted key_le (sort_by_key l).
Proof. induction l; cbn; [constructor | by apply insert_by_key_sorted]. Qed.

Lemma key_le_antisym x y : key_le x y → key_le y x → key x = key y.
Proof.
  unfold key_le. intros Hxy Hyx.
  destruct (olt_trichotomy (key x) (key y)) as [Hl|[Hl|Hl]]; [|done|]; by apply cmp_Gt in Hl.
Qed.

Lemma increasing_key_le l : increasing (key <$> l) → StronglySorted key_le l.
Proof.
  induction l as [|x l IH]; [constructor|]. rewrite fmap_cons. inversion 1 as [|? ? Hl Hx]; subst.
  constructor; [by apply IH|]. apply Forall_forall. intros y Hy.
  rewrite Forall_forall in Hx. unfold key_le. rewrite cmp_Gt. apply olt_asym, Hx.
  apply list_elem_of_fmap. eauto.
Qed.

(** A list with strictly increasing keys is the sort of any permutation. *)
Lemma sort_by_key_unique l l' : l ≡ₚ l' → increasing (key <$> l) → sort_by_key l' = l.
Proof.
  intros Hp Hs. apply (StronglySorted_unique_strong key_le);
    [|apply sort_by_key_sorted|by apply increasing_key_le|by rewrite sort_by_key_perm].
  intros x y Hx Hy Hxy Hyx. rewrite sort_by_key_perm, <-Hp in Hx.
  pose proof (key_le_antisym x y Hxy Hyx) as Heq.
  apply list_elem_of_lookup in Hx as [i Hi], Hy as [j Hj].
  pose proof (proj1 (NoDup_alt _) (increasing_NoDup _ Hs) i j (key x)) as Hij.
  rewrite !list_lookup_fmap, Hi, Hj in Hij. cbn in Hij. rewrite Heq in Hij.
  specialize (Hij eq_refl eq_refl) as ->. congruence.
Qed.

Lemma equal_neighbours_dup `{EqDecision K} l :
  windows2_any (λ a b, bool_decide (key a = key b)) l = true → ¬ NoDup (key <$> l).
Proof.
  induction l as [|x [|y l] IH]; [done|done|]. cbn [windows2_any]. rewrite !fmap_cons.
  intros [Heq%bool_decide_eq_true|Hl]%orb_true_iff [Hx Hnd]%NoDup_cons.
  - apply Hx. rewrite Heq. by left.
  - by apply IH.
Qed.

(** The test for two equal neighbours, on a sorted list. *)
Lemma no_equal_neighbours `{EqDecision K} l :
  StronglySorted key_le l →
  windows2_any (λ a b, bool_decide (key a = key b)) l = false ↔ increasing (key <$> l).
Proof.
  intros Hs. rewrite <-windows2_increasing.
  induction Hs as [|x l Hs IH Hx]; [done|]. destruct l as [|y l]; [done|].
  cbn [windows2_any windows2_all fmap list_fmap] in *. rewrite orb_false_iff, andb_true_iff, IH.
  apply and_iff_compat_r. apply Forall_inv in Hx. rewrite bool_decide_eq_false, oltb_olt. split.
  - intros Hne. destruct (olt_trichotomy (key x) (key y)) as [?|[?|Hl]]; [done|done|].
    destruct Hx. by apply cmp_Gt.
  - intros Hlt Heq. rewrite Heq in Hlt. by apply olt_irrefl in Hlt.
Qed.

Lemma sort_by_key_NoDup `{EqDecision K} l : NoDup (key <$> l) → increasing (key <$> sort_by_key l).
Proof.
  intros Hnd. apply no_equal_neighbours; [apply sort_by_key_sorted|].
  apply not_true_iff_false. intros Hw%equal_neighbours_dup. by rewrite sort_by_key_perm in Hw.
Qed.
End sort.

(** [Vec::dedup]: drops an element equal to the one kept before it. *)
Fixpoint dedup `{EqDecision A} (l : list A) : list A :=
  match l with
  | x :: (y :: _) as l' => if decide (x = y) then dedup l' else x :: dedup l'
  | _ => l
  end.

Section dedup.
Context `{EqDecision A, OrdCmp A}.
Implicit Types l : list A.

Lemma dedup_cons x y l :
  dedup (x :: y :: l) = if decide (x = y) then dedup (y :: l) else x :: dedup (y :: l).
Proof. reflexivity. Qed.

Lemma elem_of_dedup x l : x ∈ dedup l ↔ x ∈ l.
Proof.
  induction l as [|y [|z l] IH]; [done|done|]. rewrite dedup_cons.
  destruct (decide (y = z)) as [->|]; [rewrite IH; set_solver|].
  rewrite !elem_of_cons, IH, elem_of_cons. done.
Qed.

Lemma sort_dedup_increasing l : increasing (dedup (sort_by_key id l)).
Proof.
  pose proof (sort_by_key_sorted id l) as Hs. revert Hs.
  generalize (sort_by_key id l). clear l. intros l Hs.
  induction l as [|y [|z l] IH]; [constructor|repeat constructor|].
  inversion Hs as [|? ? Hs' Hy]; subst. rewrite dedup_cons.
  destruct (decide (y = z)) as [->|Hne]; [auto|].
  constructor; [auto|]. apply Forall_forall. intros w Hw.
  rewrite elem_of_dedup in Hw.
  assert (olt y z) as Hyz.
  { apply Forall_inv in Hy. destruct (olt_trichotomy y z) as [?|[?|Hg]]; [done|done|].
    destruct Hy. by apply cmp_Gt. }
  apply elem_of_cons in Hw as [->|Hw]; [done|].
  inversion Hs' as [|? ? _ Hz]; subst. rewrite Forall_forall in Hz.
  apply Hz in Hw.
  destruct (olt_trichotomy z w) as [?|[->|Hg]]; [by trans z|done|].
  destruct Hw. by apply cmp_Gt.
Qed.
End dedup.

(** ** The instances the code uses *)

(** Lexicographic order on byte slices. *)
Fixpoint bytes_cmp (a b : list byte) : comparison :=
  match a, b with
  | [], [] => Eq
  | [], _ :: _ => Lt
  | _ :: _, [] => Gt
  | x :: a, y :: b =>
      match (byte_val x ?= byte_val y)%Z with Eq => bytes_cmp a b | c => c end
  end.

(** Big-endian byte arrays of one length compare in numeric order. *)
Lemma bytes_cmp_value a b :
  length a = length b → bytes_cmp a b = (be_value a ?= be_value b)%Z.
Proof.
  revert b. induction a as [|x a IH]; intros [|y b]; try done.
  intros [= Hlen]. cbn [bytes_cmp]. rewrite (IH b Hlen), !be_value_cons, Hlen.
  pose proof (be_value_range a). pose proof (be_value_range b). rewrite Hlen in *.
  destruct (Z.compare_spec (byte_val x) (byte_val y)) as [->|Hlt|Hgt].
  - destruct (Z.compare_spec (be_value a) (be_value b)); symmetry;
      [apply Z.compare_eq_iff|apply Z.compare_lt_iff|apply Z.compare_gt_iff]; lia.
  - symmetry. apply Z.compare_lt_iff. nia.
  - symmetry. apply Z.compare_gt_iff. nia.
Qed.

Lemma array_cmp_value {n} (a b : array n) :
  bytes_cmp (array_bytes a) (array_bytes b) =
  (be_value (array_bytes a) ?= be_value (array_bytes b))%Z.
Proof. apply bytes_cmp_value. by rewrite !length_array. Qed.

#[export] Program Instance array_ord {n} : OrdCmp (array n) := {|
  cmp a b := bytes_cmp (array_bytes a) (array_bytes b)
|}.
Next Obligation.
  intros n a b. cbv beta. rewrite array_cmp_value, Z.compare_eq_iff. split; [|by intros ->].
  intros Heq. apply array_eq, be_value_inj; [by rewrite !length_array|done].
Qed.
Next Obligation. intros n a b. cbv beta. rewrite !array_cmp_value. apply Z.compare_antisym. Qed.
Next Obligation.
  intros n a b c. cbv beta. rewrite !array_cmp_value, !Z.compare_lt_iff. apply Z.lt_trans.
Qed.

#[export] Program Instance Z_ord : OrdCmp Z := {| cmp := Z.compare |}.
Next Obligation. intros. apply Z.compare_eq_iff. Qed.
Next Obligation. intros. apply Z.compare_antisym. Qed.
Next Obligation. intros a b c. cbv beta. rewrite !Z.compare_lt_iff. apply Z.lt_trans. Qed.

#[export] Program Instance byte_ord : OrdCmp byte := {|
  cmp a b := (byte_val a ?= byte_val b)%Z
|}.
Next Obligation.
  intros. cbv beta. rewrite Z.compare_eq_iff. split; [apply byte_val_inj | by intros ->].
Qed.
Next Obligation. intros. apply Z.compare_antisym. Qed.
Next Obligation. intros a b c. cbv beta. rewrite !Z.compare_lt_iff. apply Z.lt_trans. Qed.

(** Slices and pairs compare lexicographically. *)
Fixpoint list_cmp `{OrdCmp A} (a b : list A) : comparison :=
  match a, b with
  | [], [] => Eq
  | [], _ :: _ => Lt
  | _ :: _, [] => Gt
  | x :: a, y :: b => match cmp x y with Eq => list_cmp a b | c => c end
  end.

#[export] Program Instance list_ord `{OrdCmp A} : OrdCmp (list A) := {| cmp := list_cmp |}.
Next Obligation.
  intros A HA a. induction a as [|x a IH]; intros [|y b]; cbn; try done.
  destruct (cmp x y) eqn:Hc; [|by split; [|intros [= -> ->]; rewrite (proj2 (cmp_eq y y) eq_refl) in Hc]..].
  apply cmp_eq in Hc as ->. rewrite IH. split; [by intros ->|by intros [= ->]].
Qed.
Next Obligation.
  intros A HA a. induction a as [|x a IH]; intros [|y b]; cbn; try done.
  rewrite (cmp_opp x y). destruct (cmp x y); cbn; [apply IH|done|done].
Qed.
Next Obligation.
  intros A HA a. induction a as [|x a IH]; intros [|y b] [|z c]; cbn; try done.
  destruct (cmp x y) eqn:Hxy; [apply cmp_eq in Hxy as ->| |done].
  - destruct (cmp y z); [apply IH|done|done].
  - intros _. destruct (cmp y z) eqn:Hyz; [apply cmp_eq in Hyz as ->; by rewrite Hxy| |done].
    by rewrite (cmp_trans _ _ _ Hxy Hyz).
Qed.

Definition prod_cmp `{OrdCmp A, OrdCmp B} (p q : A * B) : comparison :=
  match cmp p.1 q.1 with Eq => cmp p.2 q.2 | c => c end.

#[export] Program Instance prod_ord `{OrdCmp A, OrdCmp B} : OrdCmp (A * B) := {| cmp := prod_cmp |}.
Next Obligation.
  intros A HA B HB [a b] [a' b']. unfold prod_cmp; cbn. destruct (cmp a a') eqn:Hc.
  - apply cmp_eq in Hc as ->. rewrite (cmp_eq b b'). split; [by intros ->|by intros [= ->]].
  - split; [done|]. intros [= -> _]. by rewrite (proj2 (cmp_eq a' a') eq_refl) in Hc.
  - split; [done|]. intros [= -> _]. by rewrite (proj2 (cmp_eq a' a') eq_refl) in Hc.
Qed.
Next Obligation.
  intros A HA B HB [a b] [a' b']. unfold prod_cmp; cbn. rewrite (cmp_opp a a'). destruct (cmp a a'); cbn; [apply cmp_opp|done|done].
Qed.
Next Obligation.
  intros A HA B HB [a b] [a' b'] [a2 b2]. unfold prod_cmp; cbn. destruct (cmp a a') eqn:H1; [apply cmp_eq in H1 as ->| |done].
  - destruct (cmp a' a2); [apply cmp_trans|done|done].
  - intros _. destruct (cmp a' a2) eqn:H2; [apply cmp_eq in H2 as ->; by rewrite H1| |done].
    by rewrite (cmp_trans _ _ _ H1 H2).
Qed.

(** The order of a key that determines the value. *)
Program Definition inj_ord {A B} `{OrdCmp B} (f : A → B) (Hf : Inj (=) (=) f) : OrdCmp A := {|
  cmp a b := cmp (f a) (f b)
|}.
Next Obligation. intros A B HB f Hf a b. cbv beta. rewrite (cmp_eq (f a) (f b)). split; [apply Hf|by intros ->]. Qed.
Next Obligation. intros. apply cmp_opp. Qed.
Next Obligation. intros A B HB f Hf a b c. apply cmp_trans. Qed.

(** ** [BTreeSet] and [BTreeMap]

    Finite sets and maps; iteration is in the order of the elements or keys. *)

Section btree.
Context `{OrdCmp A} `{Countable A}.

Definition btree_iter (s : gset A) : list A := sort_by_key id (elements s).
Definition btree_entries {V} (m : gmap A V) : list (A * V) := sort_by_key fst (map_to_list m).

Lemma elem_of_btree_iter x s : x ∈ btree_iter s ↔ x ∈ s.
Proof. unfold btree_iter. rewrite sort_by_key_perm. apply elem_of_elements. Qed.

Lemma btree_iter_increasing s : increasing (btree_iter s).
Proof.
  rewrite <-(list_fmap_id (btree_iter s)). apply (sort_by_key_NoDup id).
  apply NoDup_fmap_2; [apply _|apply NoDup_elements].
Qed.

Lemma list_to_set_btree_iter s : list_to_set (btree_iter s) = s.
Proof. apply set_eq. intros x. by rewrite elem_of_list_to_set, elem_of_btree_iter. Qed.

Lemma btree_entries_perm {V} (m : gmap A V) : btree_entries m ≡ₚ map_to_list m.
Proof. apply sort_by_key_perm. Qed.

End btree.
