(* ===== verification/Text.v ===== *)
(** * Text: [str] and the standard-library functions the code calls on it

    A [str] is its UTF-8 bytes. [chars] decodes them (strict UTF-8: no
    overlong forms, no surrogates, nothing above U+10FFFF); [trim],
    [char::is_control] and [char::is_whitespace] work on the decoded
    characters, [len] is the number of bytes. Integer parsing follows
    [uN::from_str_radix]: an optional leading [+], then digits, with the
    overflow check. *)

From S2P Require Export Ordered.

Local Open Scope Z_scope.

Notation str := (list byte).

(** A literal of the source. *)
Definition lit (s : string) : str := String.list_byte_of_string s.

(** ** UTF-8 *)

Definition in_range (lo hi : Z) (z : Z) : bool := (lo <=? z) && (z <=? hi).

(** One character: its code point, its bytes and the rest. *)
Definition utf8_char (s : str) : option (Z * list byte * str) :=
  match s with
  | [] => None
  | b0 :: r0 =>
      let v0 := byte_val b0 in
      if v0 <? 128 then Some (v0, [b0], r0)
      else match r0 with
      | [] => None
      | b1 :: r1 =>
          let v1 := byte_val b1 in
          if in_range 0xC2 0xDF v0 then
            if in_range 0x80 0xBF v1
            then Some ((v0 - 0xC0) * 64 + (v1 - 0x80), [b0; b1], r1) else None
          else match r1 with
          | [] => None
          | b2 :: r2 =>
              let v2 := byte_val b2 in
              if in_range 0xE0 0xEF v0 then
                if in_range (if v0 =? 0xE0 then 0xA0 else 0x80)
                            (if v0 =? 0xED then 0x9F else 0xBF) v1
                   && in_range 0x80 0xBF v2
                then Some ((v0 - 0xE0) * 4096 + (v1 - 0x80) * 64 + (v2 - 0x80),
                           [b0; b1; b2], r2)
                else None
              else match r2 with
              | [] => None
              | b3 :: r3 =>
                  let v3 := byte_val b3 in
                  if in_range 0xF0 0xF4 v0
                     && in_range (if v0 =? 0xF0 then 0x90 else 0x80)
                                 (if v0 =? 0xF4 then 0x8F else 0xBF) v1
                     && in_range 0x80 0xBF v2 && in_range 0x80 0xBF v3
                  then Some ((v0 - 0xF0) * 262144 + (v1 - 0x80) * 4096
                             + (v2 - 0x80) * 64 + (v3 - 0x80), [b0; b1; b2; b3], r3)
                  else None
              end
          end
      end
  end.

Fixpoint utf8_chars (fuel : nat) (s : str) : option (list (Z * list byte)) :=
  match s, fuel with
  | [], _ => Some []
  | _ :: _, O => None
  | _ :: _, S fuel =>
      '(c, bs, rest) ← utf8_char s;
      cs ← utf8_chars fuel rest;
      Some ((c, bs) :: cs)
  end.

(** [str::from_utf8(bytes).is_ok()]. Each character takes a byte or more,
    so the length is enough fuel. *)
Definition utf8_valid (s : str) : bool := bool_decide (is_Some (utf8_chars (length s) s)).

Definition char_list (s : str) : list (Z * list byte) := default [] (utf8_chars (length s) s).

(** [s.chars()]. *)
Definition chars (s : str) : list Z := fst <$> char_list s.

(** [char::is_control]: the general category Cc. *)
Definition is_control (c : Z) : bool := in_range 0 0x1F c || in_range 0x7F 0x9F c.

(** [char::is_whitespace]: the White_Space property. *)
Definition is_whitespace (c : Z) : bool :=
  in_range 9 13 c || (c =? 32) || (c =? 0x85) || (c =? 0xA0) || (c =? 0x1680)
  || in_range 0x2000 0x200A c || (c =? 0x2028) || (c =? 0x2029) || (c =? 0x202F)
  || (c =? 0x205F) || (c =? 0x3000).

Fixpoint drop_while {A} (p : A → bool) (l : list A) : list A :=
  match l with
  | [] => []
  | x :: l' => if p x then drop_while p l' else l
  end.

(** [str::trim]. *)
Definition trim (s : str) : str :=
  let ws := λ c : Z * list byte, is_whitespace (fst c) in
  mjoin (snd <$> rev (drop_while ws (rev (drop_while ws (char_list s))))).

(** ** Searching and splitting *)

(** [s.strip_prefix(p)]. *)
Fixpoint strip_prefix (p s : str) : option str :=
  match p, s with
  | [], _ => Some s
  | x :: p, y :: s => if decide (x = y) then strip_prefix p s else None
  | _ :: _, [] => None
  end.

Definition starts_with (p s : str) : bool := bool_decide (is_Some (strip_prefix p s)).

(** [s.contains(c)] for an ASCII character. *)
Definition contains_byte (c : byte) (s : str) : bool := bool_decide (c ∈ s).

(** [s.rsplit_once(c)]: split at the last [c]. *)
Fixpoint rsplit_once (c : byte) (s : str) : option (str * str) :=
  match s with
  | [] => None
  | x :: s' =>
      match rsplit_once c s' with
      | Some (a, b) => Some (x :: a, b)
      | None => if decide (x = c) then Some ([], s') else None
      end
  end.

(** [s.split(c)]. *)
Fixpoint split_on (c : byte) (s : str) : list str :=
  match s with
  | [] => [[]]
  | x :: s' =>
      if decide (x = c) then [] :: split_on c s'
      else match split_on c s' with
           | [] => [[x]]
           | p :: ps => (x :: p) :: ps
           end
  end.

(** [parts.join(sep)]. *)
Fixpoint join (sep : str) (l : list str) : str :=
  match l with
  | [] => []
  | [x] => x
  | x :: l' => x ++ sep ++ join sep l'
  end.

(** [s.replace(from, to)], for a non-empty [from]: left to right, without
    overlaps. [skip] counts the bytes of a match still to be passed. *)
Fixpoint replace_from (from to : str) (skip : nat) (s : str) : str :=
  match s with
  | [] => []
  | x :: s' =>
      match skip with
      | S k => replace_from from to k s'
      | O => if starts_with from s
             then to ++ replace_from from to (length from - 1) s'
             else x :: replace_from from to 0 s'
      end
  end.
Definition str_replace (from to s : str) : str := replace_from from to 0 s.

(** ** Integers *)

(** [(b as char).to_digit(radix)]. *)
Definition to_digit (radix : Z) (b : byte) : option Z :=
  let v := byte_val b in
  let d := if in_range 48 57 v then v - 48
           else if in_range 97 122 v then v - 87
           else if in_range 65 90 v then v - 55
           else radix in
  if d <? radix then Some d else None.

Fixpoint parse_digits (radix max acc : Z) (s : str) : option Z :=
  match s with
  | [] => Some acc
  | b :: s =>
      d ← to_digit radix b;
      let acc' := acc * radix + d in
      if acc' <=? max then parse_digits radix max acc' s else None
  end.

(** [uN::from_str_radix(s, radix)] for the unsigned type whose largest value
    is [max]; [s.parse::<uN>()] is radix 10. A single leading [+] is
    accepted, a [-] is an invalid digit. *)
Definition from_str_radix (radix max : Z) (s : str) : option Z :=
  match s with
  | [] => None
  | [b] => if decide (b = x2b) then None
           else if decide (b = x2d) then None else parse_digits radix max 0 s
  | b :: s' => if decide (b = x2b) then parse_digits radix max 0 s'
               else parse_digits radix max 0 s
  end.

Definition parse_u16 (s : str) : option Z := from_str_radix 10 65535 s.

(** ** Hexadecimal *)

Definition hex_digit (upper : bool) (d : Z) : byte :=
  byte_of (if d <? 10 then 48 + d else if upper then 55 + d else 87 + d).

(** [format!("{b:02x}")] and [format!("{b:02X}")]. *)
Definition hex02 (upper : bool) (b : byte) : str :=
  [hex_digit upper (byte_val b `div` 16); hex_digit upper (byte_val b `mod` 16)].

(** [bytes.iter().map(|b| format!("{b:02x}")).collect()]. *)
Definition hex (bs : list byte) : str := mjoin (hex02 false <$> bs).

(** The [from_str_radix(&text[2*i..2*i+2], 16)] loop over whole pairs. *)
Fixpoint unhex_pairs (s : str) : option (list byte) :=
  match s with
  | [] => Some []
  | a :: b :: s' =>
      v ← from_str_radix 16 255 [a; b];
      rest ← unhex_pairs s';
      Some (byte_of v :: rest)
  | [_] => None
  end.

Definition is_ascii (s : str) : bool := forallb (λ b, byte_val b <? 128) s.

Definition is_ascii_digit (b : byte) : bool := in_range 48 57 (byte_val b).
Definition is_lower_hex (b : byte) : bool := is_ascii_digit b || in_range 97 102 (byte_val b).
Definition is_upper_hex (b : byte) : bool := is_ascii_digit b || in_range 65 70 (byte_val b).
Definition is_ascii_hexdigit (b : byte) : bool := is_lower_hex b || in_range 65 70 (byte_val b).

(** [u8::to_ascii_lowercase]. *)
Definition to_ascii_lowercase (b : byte) : byte :=
  if in_range 65 90 (byte_val b) then byte_of (byte_val b + 32) else b.

(** ** Lemmas *)

Lemma all_bytes (P : byte → bool) :
  forallb P (byte_of <$> seqZ 0 256) = true → ∀ b, P b = true.
Proof.
  intros H b. rewrite forallb_forall in H. apply H, list_elem_of_In.
  rewrite <-(byte_of_val b). apply list_elem_of_fmap. exists (byte_val b); split; [done|].
  apply elem_of_seqZ. pose proof (byte_val_range b). lia.
Qed.

Lemma unhex_hex02 b : from_str_radix 16 255 (hex02 false b) = Some (byte_val b).
Proof.
  assert (bool_decide (from_str_radix 16 255 (hex02 false b) = Some (byte_val b)) = true)
    as H; [|by apply bool_decide_eq_true in H].
  revert b. apply (all_bytes (λ b, bool_decide _)). vm_compute. reflexivity.
Qed.

Lemma hex_cons b bs :
  hex (b :: bs) = hex_digit false (byte_val b `div` 16)
    :: hex_digit false (byte_val b `mod` 16) :: hex bs.
Proof. reflexivity. Qed.

Lemma unhex_hex bs : unhex_pairs (hex bs) = Some bs.
Proof.
  induction bs as [|b bs IH]; [done|]. rewrite hex_cons. cbn [unhex_pairs].
  pose proof (unhex_hex02 b) as Hb. unfold hex02 in Hb. rewrite Hb, IH.
  cbn. by rewrite byte_of_val.
Qed.

Lemma length_hex bs : length (hex bs) = (2 * length bs)%nat.
Proof.
  induction bs as [|b bs IH]; [done|]. rewrite hex_cons. cbn [length]. rewrite IH. lia.
Qed.

Lemma hex_lower bs : forallb is_lower_hex (hex bs) = true.
Proof.
  induction bs as [|b bs IH]; [done|].
  change (hex (b :: bs)) with (hex02 false b ++ hex bs). rewrite forallb_app, IH, andb_true_r.
  revert b. apply (all_bytes (λ b, forallb is_lower_hex (hex02 false b))).
  vm_compute. reflexivity.
Qed.

Lemma lower_hex_ascii s : forallb is_lower_hex s = true → is_ascii s = true.
Proof.
  unfold is_ascii. rewrite !forallb_forall. intros H b Hb. specialize (H b Hb).
  unfold is_lower_hex, is_ascii_digit, in_range in H. lia.
Qed.

Lemma hex_inj a b : hex a = hex b → a = b.
Proof. intros H%(f_equal unhex_pairs). rewrite !unhex_hex in H. congruence. Qed.

(** A pair of digits parses, and prints back as itself up to case. *)
Lemma hex02_pair a b :
  is_ascii_hexdigit a = true → is_ascii_hexdigit b = true →
  ∃ v, from_str_radix 16 255 [a; b] = Some v ∧
    hex02 false (byte_of v) = to_ascii_lowercase <$> [a; b].
Proof.
  set (ok := λ a b, implb (is_ascii_hexdigit a && is_ascii_hexdigit b)
    (bool_decide (hex02 false <$> (byte_of <$> from_str_radix 16 255 [a; b])
                  = Some (to_ascii_lowercase <$> [a; b])))).
  assert (∀ a, forallb (ok a) (byte_of <$> seqZ 0 256) = true) as Hall.
  { apply (all_bytes (λ a, forallb (ok a) _)). vm_compute. reflexivity. }
  intros Ha Hb. pose proof (all_bytes _ (Hall a) b) as Hab. unfold ok in Hab.
  rewrite Ha, Hb in Hab. cbn [andb implb] in Hab. apply bool_decide_eq_true in Hab.
  destruct (from_str_radix 16 255 [a; b]) as [v|]; [|done]. exists v. split; [done|].
  exact (Some_inj _ _ Hab).
Qed.

(** [k] pairs of digits parse, and are the [hex] of what they parse to up to
    case. *)
Lemma hex_unhex k s :
  length s = (2 * k)%nat → forallb is_ascii_hexdigit s = true →
  ∃ bs, unhex_pairs s = Some bs ∧ hex bs = to_ascii_lowercase <$> s.
Proof.
  revert s. induction k as [|k IH]; intros s Hl Hs.
  { destruct s; [|done]. by exists []. }
  destruct s as [|a [|b s]]; [done|cbn in Hl; lia|]. cbn [forallb] in Hs.
  apply andb_true_iff in Hs as [Ha [Hb Hs]%andb_true_iff].
  destruct (IH s) as (bs & Hu & Hx); [cbn in Hl; lia|done|].
  destruct (hex02_pair a b Ha Hb) as (v & Hv & Hxv).
  exists (byte_of v :: bs). cbn [unhex_pairs]. rewrite Hv, Hu. split; [done|].
  change (hex (byte_of v :: bs)) with (hex02 false (byte_of v) ++ hex bs). by rewrite Hxv, Hx.
Qed.

Lemma lower_hex_hexdigit s : forallb is_lower_hex s = true → forallb is_ascii_hexdigit s = true.
Proof.
  rewrite !forallb_forall. intros H b Hb. unfold is_ascii_hexdigit. by rewrite (H b Hb).
Qed.

Lemma lower_hex_id s : forallb is_lower_hex s = true → to_ascii_lowercase <$> s = s.
Proof.
  induction s as [|b s IH]; [done|]. cbn [forallb]. intros [Hb Hs]%andb_true_iff.
  rewrite fmap_cons, IH by done. f_equal. unfold to_ascii_lowercase.
  unfold is_lower_hex, is_ascii_digit, in_range in *.
  destruct ((65 <=? byte_val b) && (byte_val b <=? 90)) eqn:E; [lia|done].
Qed.

Lemma length_unhex_pairs s bs : unhex_pairs s = Some bs → length s = (2 * length bs)%nat.
Proof.
  revert s. induction bs as [|x bs IH]; intros s Hu.
  all: destruct s as [|a [|b s]]; [done|done|]; cbn [unhex_pairs] in Hu.
  all: destruct (from_str_radix 16 255 [a; b]) as [v|] eqn:Hv; [|done].
  all: cbn in Hu; destruct (unhex_pairs s) as [rest|] eqn:Hr; [|done].
  all: cbn in Hu; simplify_eq; cbn [length]. rewrite (IH s) by done. lia.
Qed.

(** A strictly lowercase string of pairs is the [hex] of what it parses to. *)
Lemma hex_unhex_lower s bs :
  forallb is_lower_hex s = true → unhex_pairs s = Some bs → hex bs = s.
Proof.
  intros Hs Hu.
  destruct (hex_unhex (length bs) s) as (bs' & Hu' & Hx);
    [by apply length_unhex_pairs|by apply lower_hex_hexdigit|].
  rewrite lower_hex_id in Hx by done. congruence.
Qed.

Lemma rsplit_once_Some c s a b : rsplit_once c s = Some (a, b) → s = a ++ c :: b.
Proof.
  revert a b. induction s as [|x s IH]; intros a b; cbn [rsplit_once]; [done|].
  destruct (rsplit_once c s) as [[a' b']|].
  - intros [= <- <-]. cbn. f_equal. by apply IH.
  - case_decide as Hx; [|done]. by intros [= <- <-]; subst.
Qed.

Lemma strip_prefix_Some p s r : strip_prefix p s = Some r ↔ s = p ++ r.
Proof.
  revert s. induction p as [|x p IH]; intros s; cbn.
  { split; congruence. }
  destruct s as [|y s]; [done|]. case_decide as Hx.
  - rewrite IH. split; [intros ->; by subst|congruence].
  - split; [done|]. intros [= -> _]. done.
Qed.

Lemma join_cons sep x y l : join sep (x :: y :: l) = x ++ sep ++ join sep (y :: l).
Proof. reflexivity. Qed.

Lemma hex_without c s : is_lower_hex c = false → c ∉ hex s.
Proof.
  intros Hc Hin. pose proof (hex_lower s) as Hl. rewrite forallb_forall in Hl.
  specialize (Hl c ltac:(by apply list_elem_of_In)). congruence.
Qed.

Lemma split_on_cons c s : ∃ p ps, split_on c s = p :: ps.
Proof.
  destruct s as [|x s]; [by eexists _, _|]. cbn [split_on]. case_decide; [by eexists _, _|].
  destruct (split_on c s); by eexists _, _.
Qed.

Lemma join_split c s : join [c] (split_on c s) = s.
Proof.
  induction s as [|x s IH]; [done|]. cbn [split_on].
  destruct (split_on_cons c s) as (p & ps & Hs). rewrite Hs in *.
  case_decide as Hx; [by rewrite join_cons, IH; subst|].
  destruct ps as [|q ps]; [by rewrite <-IH|]. rewrite join_cons in *. by rewrite <-IH.
Qed.

Lemma split_on_none c s : c ∉ s → split_on c s = [s].
Proof.
  induction s as [|x s IH]; intros Hc; [done|]. cbn [split_on].
  rewrite decide_False by set_solver. by rewrite IH by set_solver.
Qed.

Lemma split_on_app c a b : c ∉ a → split_on c (a ++ c :: b) = a :: split_on c b.
Proof.
  induction a as [|x a IH]; intros Hc; cbn [app split_on]; [by rewrite decide_True|].
  rewrite decide_False by set_solver. by rewrite IH by set_solver.
Qed.

Lemma split_join c l : l ≠ [] → Forall (λ p, c ∉ p) l → split_on c (join [c] l) = l.
Proof.
  intros Hne Hl. induction Hl as [|x l Hx Hl IH]; [done|]. destruct l as [|y l].
  - by apply split_on_none.
  - rewrite join_cons. cbn [app]. rewrite split_on_app by done. by rewrite IH.
Qed.
