(* ===== verification/Wire.v ===== *)
(** * Wire formats: bounded readers over byte slices

    The [Reader] of [governance.rs] and [contact.rs]: a cursor over a
    slice, here a parser that returns the value read and the bytes left.
    [reads p bs v] says that [p] reads [v] from exactly [bs]; [exact_for p
    enc] says that whatever [p] accepts is the encoding of what it returns.
    Together they give the codecs' round trips. *)

From S2P Require Export Text.

Local Open Scope Z_scope.

Definition parser (E A : Type) : Type := list byte → result E (A * list byte).

#[export] Instance parser_ret {E} : MRet (parser E) := λ A a s, Ok (a, s).
#[export] Instance parser_bind {E} : MBind (parser E) := λ A B f p s,
  match p s with Ok (a, s') => f a s' | Err e => Err e end.

Definition p_fail {E A} (e : E) : parser E A := λ _, Err e.

(** [if !b { return Err(e) }] inside a decoder. *)
Definition p_require {E} (b : bool) (e : E) : parser E () :=
  if b then mret () else p_fail e.

(** [Reader::take]. *)
Definition p_take {E} (e : E) (n : nat) : parser E (list byte) := λ s,
  if (length s <? n)%nat then Err e else Ok (take n s, drop n s).

(** [Reader::array::<N>]; the conversion cannot fail after [take]. *)
Definition p_array {E} (e : E) (n : nat) : parser E (array n) := λ s,
  match p_take e n s with
  | Ok (l, rest) => match to_array n l with Some a => Ok (a, rest) | None => Err e end
  | Err e => Err e
  end.

(** An [n]-byte big-endian integer. *)
Definition p_be {E} (e : E) (n : nat) : parser E Z :=
  l ← p_take e n; mret (be_value l).

(** [Reader::u8]. *)
Definition p_u8 {E} (e : E) : parser E byte := λ s,
  match s with [] => Err e | b :: s' => Ok (b, s') end.

(** [(0..count).map(|_| p).collect::<Result<Vec<_>, _>>()]. *)
Fixpoint p_repeat {E A} (n : nat) (p : parser E A) : parser E (list A) :=
  match n with
  | O => mret []
  | S n => x ← p; xs ← p_repeat n p; mret (x :: xs)
  end.

(** Runs [p] on all of [s]; bytes left over are the error [e]. *)
Definition p_run {E A} (e : E) (p : parser E A) (s : list byte) : result E A :=
  '(a, rest) ← p s;
  match rest with [] => Ok a | _ => Err e end.

(** ** Round-trip reasoning *)

Definition reads {E A} (p : parser E A) (bs : list byte) (v : A) : Prop :=
  ∀ rest, p (bs ++ rest) = Ok (v, rest).

(** What [p] accepts is [enc v] for the value it returns, which satisfies [ok]. *)
Definition exact_for {E A} (p : parser E A) (enc : A → list byte) (ok : A → Prop) : Prop :=
  ∀ s v rest, p s = Ok (v, rest) → s = enc v ++ rest ∧ ok v.

Create HintDb wire.

Section reads.
Context {E : Type} (e : E).

Lemma reads_ret {A} (a : A) : reads (E:=E) (mret a) [] a.
Proof. done. Qed.

Lemma reads_bind {A B} (p : parser E A) (f : A → parser E B) b1 b2 v w :
  reads p b1 v → reads (f v) b2 w → reads (p ≫= f) (b1 ++ b2) w.
Proof.
  intros Hp Hf rest. unfold mbind, parser_bind. rewrite <-app_assoc, Hp. apply Hf.
Qed.

Lemma reads_bind_nil {A B} (p : parser E A) (f : A → parser E B) b v w :
  reads p [] v → reads (f v) b w → reads (p ≫= f) b w.
Proof. intros Hp. exact (reads_bind p f [] b v w Hp). Qed.

Lemma reads_take (l : list byte) : reads (p_take e (length l)) l l.
Proof.
  intros rest. unfold p_take. rewrite length_app, take_app_length, drop_app_length.
  assert ((length l + length rest <? length l)%nat = false) as -> by (apply Nat.ltb_ge; lia).
  done.
Qed.

Lemma reads_array {n} (a : array n) : reads (p_array e n) (array_bytes a) a.
Proof.
  intros rest. pose proof (reads_take (array_bytes a) rest) as H. rewrite length_array in H.
  unfold p_array. by rewrite H, to_array_bytes.
Qed.

Lemma reads_be n z : 0 ≤ z < 256 ^ Z.of_nat n → reads (p_be e n) (be_bytes n z) z.
Proof.
  intros Hz. rewrite <-(app_nil_r (be_bytes n z)). eapply reads_bind.
  - rewrite <-(length_be_bytes n z) at 1. apply reads_take.
  - rewrite be_value_bytes_small by done. apply reads_ret.
Qed.

Lemma reads_u8 b : reads (p_u8 e) [b] b.
Proof. done. Qed.

Lemma reads_require b : b = true → reads (p_require b e) [] ().
Proof. by intros ->. Qed.

Lemma reads_repeat {A} (p : parser E A) (enc : A → list byte) l n :
  length l = n → (∀ x, x ∈ l → reads p (enc x) x) → reads (p_repeat n p) (mjoin (enc <$> l)) l.
Proof.
  intros <-. induction l as [|x l IH]; intros H; [apply reads_ret|].
  change (mjoin (enc <$> x :: l)) with (enc x ++ mjoin (enc <$> l)). cbn [length p_repeat].
  eapply reads_bind; [apply H; set_solver|].
  rewrite <-(app_nil_r (mjoin _)). eapply reads_bind; [|apply reads_ret].
  apply IH. set_solver.
Qed.

Lemma reads_run {A} (p : parser E A) bs v : reads p bs v → p_run e p bs = Ok v.
Proof. intros Hp. unfold p_run. rewrite <-(app_nil_r bs). by rewrite Hp. Qed.

Lemma run_exact {A} (p : parser E A) enc ok bs v :
  exact_for p enc ok → p_run e p bs = Ok v → bs = enc v ∧ ok v.
Proof.
  intros Hp Hrun. unfold p_run in Hrun. apply bind_Ok in Hrun as ([a rest] & Ha & Hrun).
  destruct rest; [|done]. injection Hrun as ->. apply Hp in Ha. by rewrite app_nil_r in Ha.
Qed.

Lemma parser_bind_Ok {A B} (p : parser E A) (f : A → parser E B) s w rest :
  (p ≫= f) s = Ok (w, rest) ↔ ∃ a s', p s = Ok (a, s') ∧ f a s' = Ok (w, rest).
Proof. unfold mbind, parser_bind. destruct (p s) as [[a s']|]; naive_solver. Qed.

Lemma take_Ok n s l rest : p_take e n s = Ok (l, rest) ↔ s = l ++ rest ∧ length l = n.
Proof.
  unfold p_take. destruct (length s <? n)%nat eqn:Hn; bool_simpl; split.
  - done.
  - intros [-> Hl]. rewrite length_app in Hn. lia.
  - intros [= <- <-]. split; [by rewrite take_drop|rewrite length_take; lia].
  - intros [-> <-]. by rewrite take_app_length, drop_app_length.
Qed.

Lemma array_Ok n s (a : array n) rest : p_array e n s = Ok (a, rest) ↔ s = array_bytes a ++ rest.
Proof.
  unfold p_array. split.
  - destruct (p_take e n s) as [[l r]|] eqn:Ht; [|done]. apply take_Ok in Ht as [-> _].
    destruct (to_array n l) as [a'|] eqn:Ha; [|done]. apply to_array_Some in Ha.
    intros [= -> ->]. by rewrite Ha.
  - intros ->. apply reads_array.
Qed.

Lemma be_Ok n s z rest :
  p_be e n s = Ok (z, rest) ↔ s = be_bytes n z ++ rest ∧ 0 ≤ z < 256 ^ Z.of_nat n.
Proof.
  unfold p_be. rewrite parser_bind_Ok. split.
  - intros (l & s' & Hl & [= <- ->]). apply take_Ok in Hl as [-> <-].
    rewrite be_bytes_value. split; [done|apply be_value_range].
  - intros [-> Hz]. exists (be_bytes n z), rest. split.
    + apply take_Ok. by rewrite length_be_bytes.
    + by rewrite be_value_bytes_small.
Qed.

Lemma u8_Ok s b rest : p_u8 e s = Ok (b, rest) ↔ s = b :: rest.
Proof. destruct s; cbn; naive_solver. Qed.

Lemma repeat_exact {A} (p : parser E A) enc ok n :
  exact_for p enc ok →
  exact_for (p_repeat n p) (λ l, mjoin (enc <$> l)) (λ l, length l = n ∧ ∀ x, x ∈ l → ok x).
Proof.
  intros Hp. induction n as [|n IH]; intros s l rest; cbn [p_repeat].
  { intros [= <- <-]. split; [done|]. split; [done|]. intros x Hx. inversion Hx. }
  rewrite parser_bind_Ok. intros (x & s1 & Hx & Hrest). apply parser_bind_Ok in Hrest
    as (xs & s2 & Hxs & [= <- <-]). apply Hp in Hx as [-> Hok]. apply IH in Hxs as [-> [Hlen Hall]].
  change (mjoin (enc <$> x :: xs)) with (enc x ++ mjoin (enc <$> xs)).
  split; [by rewrite app_assoc|]. split; [cbn; congruence|]. set_solver.
Qed.
End reads.

Arguments p_take : simpl never.
Arguments p_array : simpl never.
Arguments p_be : simpl never.
Arguments p_u8 : simpl never.
Arguments p_run : simpl never.
Arguments p_repeat : simpl never.

(** Opens [(p ≫= f) s = Ok _] and the primitive readers in a hypothesis. *)
Ltac p_step :=
  match goal with
  | H : (_ ≫= _) _ = Ok (_, _) |- _ => apply parser_bind_Ok in H as (? & ? & ? & H)
  | H : mret _ _ = Ok _ |- _ => injection H as H
  | H : Ok _ = Ok _ |- _ => injection H as H
  | H : p_fail _ _ = Ok _ |- _ => discriminate H
  | H : p_require ?b _ _ = Ok _ |- _ =>
      let Hb := fresh "Hb" in unfold p_require in H; destruct b eqn:Hb; [|discriminate H]
  | H : p_take _ _ _ = Ok (_, _) |- _ => apply take_Ok in H as [? ?]
  | H : p_array _ _ _ = Ok (_, _) |- _ => apply array_Ok in H
  | H : p_be _ _ _ = Ok (_, _) |- _ => apply be_Ok in H as [? ?]
  | H : p_u8 _ _ = Ok (_, _) |- _ => apply u8_Ok in H
  end.
Ltac p_inv := repeat (p_step; simplify_eq).
