(* ===== verification/Net.v ===== *)
(** * Socket addresses of the standard library

    The parts of [core::net] the sources use: parsing a [SocketAddr] and an
    [IpAddr] from text, printing one, and the predicates on addresses. An
    address keeps the flow information out (text never carries it). *)

From S2P Require Export Wire.

Local Open Scope Z_scope.

Inductive IpAddr : Type :=
| V4 (octets : list Z)
| V6 (segments : list Z).

Record SocketAddr : Type := mkSocketAddr {
  sa_ip : IpAddr;
  sa_port : Z;
  sa_scope : Z
}.

#[export] Instance ip_addr_eq_dec : EqDecision IpAddr.
Proof. solve_decision. Defined.
#[export] Instance socket_addr_eq_dec : EqDecision SocketAddr.
Proof. solve_decision. Defined.
#[export] Instance ip_addr_countable : Countable IpAddr.
Proof.
  apply (inj_countable' (λ a, match a with V4 o => inl o | V6 s => inr s end)
    (λ x, match x with inl o => V4 o | inr s => V6 s end)). by intros [].
Defined.
#[export] Instance socket_addr_countable : Countable SocketAddr.
Proof.
  apply (inj_countable' (λ a, (sa_ip a, sa_port a, sa_scope a))
    (λ '(i, p, s), mkSocketAddr i p s)). by intros [].
Defined.

(** [Ord]: IPv4 before IPv6, then the address, the port and the scope. *)
Definition socket_key (a : SocketAddr) : Z * list Z * (Z * Z) :=
  (match a.(sa_ip) with V4 o => (0, o) | V6 s => (1, s) end, (a.(sa_port), a.(sa_scope))).
#[export] Instance socket_key_inj : Inj (=) (=) socket_key.
Proof. intros [[o|s] p c] [[o'|s'] p' c'] [= ]; by subst. Qed.
#[export] Instance socket_ord : OrdCmp SocketAddr := inj_ord socket_key socket_key_inj.

(** [Ipv6Addr::is_unicast_link_local]. *)
Definition is_unicast_link_local (segments : list Z) : bool :=
  match head segments with Some s => Z.land s 0xffc0 =? 0xfe80 | None => false end.

Definition is_unspecified (ip : IpAddr) : bool :=
  match ip with
  | V4 o => bool_decide (o = replicate 4 0)
  | V6 s => bool_decide (s = replicate 8 0)
  end.

Definition is_loopback (ip : IpAddr) : bool :=
  match ip with
  | V4 o => bool_decide (head o = Some 127)
  | V6 s => bool_decide (s = replicate 7 0 ++ [1])
  end.

(** ** Parsing *)

(** A reader: the value and the rest, or nothing with the input unread. *)
Notation reader A := (str → option (A * str)).

Definition read_given_char (c : byte) : reader () := λ s,
  match s with b :: s' => if decide (b = c) then Some ((), s') else None | [] => None end.

Fixpoint read_digits (radix : Z) (s : str) : list Z * str :=
  match s with
  | [] => ([], [])
  | b :: s' =>
      match to_digit radix b with
      | Some d => let '(ds, rest) := read_digits radix s' in (d :: ds, rest)
      | None => ([], s)
      end
  end.

Definition digits_value (radix : Z) (ds : list Z) : Z := foldl (λ acc d, acc * radix + d) 0 ds.

(** [read_number]: [max] is the largest value of the result type. *)
Definition read_number (radix : Z) (max_digits : option nat) (allow_zero_prefix : bool) (max : Z)
    : reader Z := λ s,
  let '(ds, rest) := read_digits radix s in
  let has_leading_zero := bool_decide (head s = Some x30) in
  if match max_digits with Some m => (m <? length ds)%nat | None => false end then None
  else if bool_decide (ds = []) then None
  else if negb allow_zero_prefix && has_leading_zero && (1 <? length ds)%nat then None
  else if digits_value radix ds <=? max then Some (digits_value radix ds, rest) else None.

(** [read_separator]: the separator precedes every element but the first. *)
Definition read_separator {A} (sep : byte) (index : nat) (inner : reader A) : reader A := λ s,
  match index with
  | O => inner s
  | S _ => match read_given_char sep s with Some (_, s') => inner s' | None => None end
  end.

Fixpoint read_octets (i count : nat) (s : str) : option (list Z * str) :=
  match count with
  | O => Some ([], s)
  | S count' =>
      match read_separator x2e i (read_number 10 (Some 3%nat) false 255) s with
      | Some (o, s') =>
          match read_octets (S i) count' s' with
          | Some (os, rest) => Some (o :: os, rest)
          | None => None
          end
      | None => None
      end
  end.

Definition read_ipv4_addr : reader (list Z) := read_octets 0 4.

(** [read_groups]: the groups read, whether the last two are an IPv4
    address, and the rest. [left] counts the slots from [i] on. *)
Fixpoint read_groups (i left : nat) (s : str) : list Z * bool * str :=
  match left with
  | O => ([], false, s)
  | S left' =>
      let v4 := match left' with
                | O => None
                | S _ => read_separator x3a i read_ipv4_addr s
                end in
      match v4 with
      | Some ([one; two; three; four], s') => ([one * 256 + two; three * 256 + four], true, s')
      | _ =>
          match read_separator x3a i (read_number 16 (Some 4%nat) true 65535) s with
          | Some (g, s') =>
              let '(gs, v4, rest) := read_groups (S i) left' s' in (g :: gs, v4, rest)
          | None => ([], false, s)
          end
      end
  end.

Definition read_ipv6_addr : reader (list Z) := λ s,
  let '(front, front_v4, s1) := read_groups 0 8 s in
  if (length front =? 8)%nat then Some (front, s1)
  else if (front_v4 : bool) then None
  else
    match read_given_char x3a s1 with
    | Some (_, s2) =>
        match read_given_char x3a s2 with
        | Some (_, s3) =>
            let '(back, _, s4) := read_groups 0 (8 - (length front + 1)) s3 in
            Some (front ++ replicate (8 - length front - length back) 0 ++ back, s4)
        | None => None
        end
    | None => None
    end.

Definition read_port : reader Z := λ s,
  match read_given_char x3a s with
  | Some (_, s') => read_number 10 None true 65535 s'
  | None => None
  end.

Definition read_scope_id : reader Z := λ s,
  match read_given_char x25 s with
  | Some (_, s') => read_number 10 None true (2 ^ 32 - 1) s'
  | None => None
  end.

Definition read_socket_addr_v4 : reader SocketAddr := λ s,
  match read_ipv4_addr s with
  | Some (ip, s1) =>
      match read_port s1 with
      | Some (port, s2) => Some (mkSocketAddr (V4 ip) port 0, s2)
      | None => None
      end
  | None => None
  end.

Definition read_socket_addr_v6 : reader SocketAddr := λ s,
  match read_given_char x5b s with
  | Some (_, s1) =>
      match read_ipv6_addr s1 with
      | Some (ip, s2) =>
          let '(scope, s3) := default (0, s2) (read_scope_id s2) in
          match read_given_char x5d s3 with
          | Some (_, s4) =>
              match read_port s4 with
              | Some (port, s5) => Some (mkSocketAddr (V6 ip) port scope, s5)
              | None => None
              end
          | None => None
          end
      | None => None
      end
  | None => None
  end.

(** [parse_with]: the whole text must be read. *)
Definition parse_with {A} (inner : reader A) (s : str) : option A :=
  match inner s with Some (a, []) => Some a | _ => None end.

(** [text.parse::<SocketAddr>()]. *)
Definition parse_socket_addr (s : str) : option SocketAddr :=
  parse_with (λ s, match read_socket_addr_v4 s with
                   | Some r => Some r
                   | None => read_socket_addr_v6 s
                   end) s.

(** [text.parse::<IpAddr>()]. *)
Definition parse_ip_addr (s : str) : option IpAddr :=
  parse_with (λ s, match read_ipv4_addr s with
                   | Some (ip, r) => Some (V4 ip, r)
                   | None => match read_ipv6_addr s with
                             | Some (ip, r) => Some (V6 ip, r)
                             | None => None
                             end
                   end) s.

(** ** Printing *)

(** [{}] and [{:x}] of an unsigned integer. *)
Fixpoint digits_of (fuel : nat) (radix z : Z) (acc : str) : str :=
  match fuel with
  | O => acc
  | S fuel =>
      let acc' := hex_digit false (z `mod` radix) :: acc in
      if z <? radix then acc' else digits_of fuel radix (z `div` radix) acc'
  end.
Definition show (radix z : Z) : str := digits_of 20 radix z [].

Definition show_ipv4 (o : list Z) : str := join (lit ".") (show 10 <$> o).

(** The first longest run of zero groups, as its start and length. *)
Fixpoint zero_span (i : nat) (current longest : nat * nat) (s : list Z) : nat * nat :=
  match s with
  | [] => longest
  | g :: s' =>
      if g =? 0 then
        let start := if (current.2 =? 0)%nat then i else current.1 in
        let current' := (start, S current.2) in
        zero_span (S i) current' (if (longest.2 <? current'.2)%nat then current' else longest) s'
      else zero_span (S i) (0%nat, 0%nat) longest s'
  end.

Definition show_groups (s : list Z) : str := join (lit ":") (show 16 <$> s).

Definition show_ipv6 (s : list Z) : str :=
  match s with
  | [0; 0; 0; 0; 0; 65535; a; b] =>
      lit "::ffff:" ++ show_ipv4 [a `div` 256; a `mod` 256; b `div` 256; b `mod` 256]
  | _ =>
      let '(start, len) := zero_span 0 (0%nat, 0%nat) (0%nat, 0%nat) s in
      if (1 <? len)%nat
      then show_groups (take start s) ++ lit "::" ++ show_groups (drop (start + len) s)
      else show_groups s
  end.

Definition show_ip (ip : IpAddr) : str :=
  match ip with V4 o => show_ipv4 o | V6 s => show_ipv6 s end.

(** [socket.to_string()]. *)
Definition show_socket_addr (a : SocketAddr) : str :=
  match a.(sa_ip) with
  | V4 o => show_ipv4 o ++ lit ":" ++ show 10 a.(sa_port)
  | V6 s =>
      lit "[" ++ show_ipv6 s
      ++ (if a.(sa_scope) =? 0 then [] else lit "%" ++ show 10 a.(sa_scope))
      ++ lit "]:" ++ show 10 a.(sa_port)
  end.

(** The printer and the parser on the forms the tests of [core::net] use. *)
Example net_examples :
  (show_socket_addr <$> parse_socket_addr (lit "203.0.113.7:9444")) = Some (lit "203.0.113.7:9444") ∧
  (show_socket_addr <$> parse_socket_addr (lit "[2001:DB8:0:0:0::1]:443")) = Some (lit "[2001:db8::1]:443") ∧
  (show_socket_addr <$> parse_socket_addr (lit "[fe80::1%7]:80")) = Some (lit "[fe80::1%7]:80") ∧
  (show_socket_addr <$> parse_socket_addr (lit "[::ffff:10.0.0.1]:80")) = Some (lit "[::ffff:10.0.0.1]:80") ∧
  (show_socket_addr <$> parse_socket_addr (lit "[1:0:0:2:0:0:0:3]:1")) = Some (lit "[1:0:0:2::3]:1") ∧
  parse_socket_addr (lit "010.0.0.1:80") = None ∧ parse_socket_addr (lit "example.com:80") = None ∧
  parse_socket_addr (lit "10.0.0.1:65536") = None ∧ parse_socket_addr (lit "[1::2::3]:80") = None ∧
  parse_socket_addr (lit "10.0.0.1:+80") = None.
Proof. vm_compute. split_and!; reflexivity. Qed.
