(* ===== verification/Overlay.v ===== *)
(** * The overlay: node IDs, peers, Kademlia buckets, the routing table,
    lookups and the peer store

    Sources: [werewolf-core/src/nodeid.rs], [peer.rs], [kbucket.rs],
    [routing.rs], [lookup.rs], [message.rs], [find_node.rs],
    [peer_store.rs]. SHA-256 (the [sha2] crate) is a parameter. An [f64] is
    its 64-bit pattern; the code only compares them, with [total_cmp].
    Indexing a [Vec] out of range panics: an operation that indexes returns
    [None] then. *)

From S2P Require Import Text.

Local Open Scope Z_scope.

Module Kademlia.

(** ** [nodeid.rs] *)

(** [NodeId([u8; 32])]. *)
Notation NodeId := (array 32).

Definition DOMAIN : list byte := lit "werewolf/node-id/v1" ++ [x00].

Section ids.
(** [Sha256::digest]. *)
Context (sha256 : list byte → array 32).

Definition from_name_address (name address : str) : NodeId :=
  sha256 (name ++ lit "|" ++ address).

Definition from_public_key (public_key : array 32) : NodeId :=
  sha256 (DOMAIN ++ array_bytes public_key).
End ids.

Definition xor_distance (self other : NodeId) : array 32 :=
  array_zip_with byte_xor self other.

Definition to_hex (self : NodeId) : str := hex (array_bytes self).

Inductive HexError : Type :=
| HexLength (len : nat)
| HexDigit
| HexByte.

Definition from_hex (text : str) : result HexError NodeId :=
  if negb (length text =? 64)%nat then Err (HexLength (length text))
  else if negb (forallb is_ascii_hexdigit text) then Err HexDigit
  else ok_or (unhex_pairs text ≫= to_array 32) HexByte.

(** [u8::leading_zeros]. *)
Definition leading_zeros (b : byte) : nat :=
  if byte_val b =? 0 then 8%nat else Z.to_nat (7 - Z.log2 (byte_val b)).

Fixpoint bucket_scan (i : nat) (dist : list byte) : nat :=
  match dist with
  | [] => 255%nat
  | b :: dist' =>
      if negb (byte_val b =? 0) then (i * 8 + leading_zeros b)%nat
      else bucket_scan (S i) dist'
  end.

Definition bucket_index (a b : NodeId) : nat :=
  bucket_scan 0 (array_bytes (xor_distance a b)).

(** ** [peer.rs] *)

(** An [f64] as its bits, an unsigned 64-bit integer. *)
Notation f64 := Z.

(** The key [f64::total_cmp] compares: the bits as [i64], all but the sign
    flipped when negative. *)
Definition f64_total_key (bits : f64) : Z :=
  let signed := if 2 ^ 63 <=? bits then bits - 2 ^ 64 else bits in
  if signed <? 0 then Z.lxor signed (2 ^ 63 - 1) else signed.

Record Peer : Type := mkPeer {
  id : NodeId;
  name : str;
  address : str;
  healthy : bool;
  reputation : f64;
  availability_pct : f64;
  latency_ms : option f64
}.

Definition peer_new (sha256 : list byte → array 32) (name address : str) : Peer :=
  {| id := from_name_address sha256 name address;
     name := name; address := address; healthy := false;
     reputation := 0; availability_pct := 0; latency_ms := None |}.

Definition with_health (self : Peer) (healthy : bool) (reputation availability_pct : f64)
    (latency_ms : option f64) : Peer :=
  {| id := self.(id); name := self.(name); address := self.(address);
     healthy := healthy; reputation := reputation;
     availability_pct := availability_pct; latency_ms := latency_ms |}.

(** ** [kbucket.rs] *)

Definition K : nat := 20.

Inductive InsertOutcome : Type :=
| Inserted
| Refreshed
| Full (oldest : Peer)
| LocalNode.

Record KBucket : Type := mkKBucket { peers : list Peer }.

Definition kbucket_new : KBucket := {| peers := [] |}.

(** [iter().position(|p| p.id == id)]. *)
Fixpoint position_id (i : NodeId) (l : list Peer) : option nat :=
  match l with
  | [] => None
  | p :: l' => if decide (p.(id) = i) then Some 0%nat else S <$> position_id i l'
  end.

(** [None] is the panic of [self.peers[0]] on an empty bucket. *)
Definition kbucket_insert (self : KBucket) (peer : Peer) : option (KBucket * InsertOutcome) :=
  match position_id peer.(id) self.(peers) with
  | Some pos => Some ({| peers := vec_remove pos self.(peers) ++ [peer] |}, Refreshed)
  | None =>
      if (K <=? length self.(peers))%nat then
        oldest ← self.(peers) !! 0%nat; Some (self, Full oldest)
      else Some ({| peers := self.(peers) ++ [peer] |}, Inserted)
  end.

Definition kbucket_remove (self : KBucket) (i : NodeId) : KBucket * option Peer :=
  match position_id i self.(peers) with
  | None => (self, None)
  | Some pos => ({| peers := vec_remove pos self.(peers) |}, self.(peers) !! pos)
  end.

Definition kbucket_replace (self : KBucket) (stale : NodeId) (peer : Peer)
    : option (KBucket * bool) :=
  match kbucket_remove self stale with
  | (_, None) => Some (self, false)
  | (removed, Some _) => '(self', _) ← kbucket_insert removed peer; Some (self', true)
  end.

Definition kbucket_contains (self : KBucket) (i : NodeId) : bool :=
  existsb (λ p, bool_decide (p.(id) = i)) self.(peers).

(** ** [routing.rs] *)

Record RoutingTable : Type := mkRoutingTable {
  local_id : NodeId;
  buckets : list KBucket
}.

Definition table_new (local_id : NodeId) : RoutingTable :=
  {| local_id := local_id; buckets := replicate 256 kbucket_new |}.

(** [None] is the panic of [self.buckets[idx]]. *)
Definition add_peer (self : RoutingTable) (peer : Peer)
    : option (RoutingTable * InsertOutcome) :=
  if decide (peer.(id) = self.(local_id)) then Some (self, LocalNode)
  else
    let idx := bucket_index self.(local_id) peer.(id) in
    bucket ← self.(buckets) !! idx;
    '(bucket', outcome) ← kbucket_insert bucket peer;
    Some ({| local_id := self.(local_id); buckets := <[idx := bucket']> self.(buckets) |},
          outcome).

Definition remove_peer (self : RoutingTable) (i : NodeId)
    : option (RoutingTable * option Peer) :=
  if decide (i = self.(local_id)) then Some (self, None)
  else
    let idx := bucket_index self.(local_id) i in
    bucket ← self.(buckets) !! idx;
    let '(bucket', removed) := kbucket_remove bucket i in
    Some ({| local_id := self.(local_id); buckets := <[idx := bucket']> self.(buckets) |},
          removed).

Definition all_peers (self : RoutingTable) : list Peer :=
  mjoin (peers <$> self.(buckets)).

Definition nearest (self : RoutingTable) (target : NodeId) (limit : nat) : list Peer :=
  take limit (sort_by_key (λ peer, xor_distance target peer.(id)) (all_peers self)).

Definition peer_count (self : RoutingTable) : nat :=
  sum_list_with (λ b, length b.(peers)) self.(buckets).

Definition healthy_peers (self : RoutingTable) : list Peer :=
  List.filter healthy (all_peers self).

(** ** [lookup.rs], [message.rs] and [find_node.rs] *)

Definition MAX_K : nat := 20.

Record LookupResult : Type := mkLookupResult {
  lr_target : NodeId;
  requested : nat;
  returned : nat;
  lr_peers : list Peer
}.

Definition lookup_nodes (table : RoutingTable) (target : NodeId) (k : nat) : LookupResult :=
  let found := nearest table target (k `min` MAX_K) in
  {| lr_target := target; requested := k; returned := length found; lr_peers := found |}.

Inductive Message : Type :=
| Ping (sender : NodeId)
| Pong (sender : NodeId)
| FindNode (sender target : NodeId) (k : nat)
| FindNodeResult (sender target : NodeId) (found : list Peer).

Definition handle_find_node (local : NodeId) (table : RoutingTable) (message : Message)
    : option Message :=
  match message with
  | FindNode _ target k =>
      Some (FindNodeResult local target (lookup_nodes table target k).(lr_peers))
  | _ => None
  end.

(** ** [peer_store.rs] *)

Record PeerStore : Type := mkPeerStore {
  ps_local_id : NodeId;
  ps_peers : list Peer
}.

Record PeerStoreSummary : Type := mkPeerStoreSummary {
  ps_peer_count : nat;
  healthy_count : nat;
  best_peer : option str;
  best_reputation : option f64
}.

Definition from_routing_table (table : RoutingTable) : PeerStore :=
  {| ps_local_id := table.(local_id); ps_peers := all_peers table |}.

Fixpoint add_all (table : RoutingTable) (l : list Peer) : option RoutingTable :=
  match l with
  | [] => Some table
  | peer :: l' => '(table', _) ← add_peer table peer; add_all table' l'
  end.

Definition into_routing_table (self : PeerStore) : option RoutingTable :=
  add_all (table_new self.(ps_local_id)) self.(ps_peers).

(** [max_by(|a, b| a.reputation.total_cmp(&b.reputation))]: the last of the
    greatest elements. *)
Definition max_by_reputation (l : list Peer) : option Peer :=
  foldl (λ best p,
    match best with
    | None => Some p
    | Some b => if f64_total_key b.(reputation) <=? f64_total_key p.(reputation)
                then Some p else Some b
    end) None l.

Definition summary (self : PeerStore) : PeerStoreSummary :=
  let best := max_by_reputation self.(ps_peers) in
  {| ps_peer_count := length self.(ps_peers);
     healthy_count := length (List.filter healthy self.(ps_peers));
     best_peer := name <$> best;
     best_reputation := reputation <$> best |}.

(** ** The XOR metric *)

Lemma byte_xor_val a b : byte_val (byte_xor a b) = Z.lxor (byte_val a) (byte_val b).
Proof.
  set (ok := λ a b, byte_val (byte_xor a b) =? Z.lxor (byte_val a) (byte_val b)).
  assert (∀ a, forallb (ok a) (byte_of <$> seqZ 0 256) = true) as Hall.
  { apply (all_bytes (λ a, forallb (ok a) _)). vm_compute. reflexivity. }
  apply Z.eqb_eq. exact (all_bytes _ (Hall a) b).
Qed.

Lemma byte_xor_comm a b : byte_xor a b = byte_xor b a.
Proof. apply byte_val_inj. by rewrite !byte_xor_val, Z.lxor_comm. Qed.

Lemma byte_xor_cancel a b : byte_xor a (byte_xor a b) = b.
Proof.
  apply byte_val_inj. by rewrite !byte_xor_val, <-Z.lxor_assoc, Z.lxor_nilpotent, Z.lxor_0_l.
Qed.

Lemma byte_xor_zero a b : byte_val (byte_xor a b) = 0 ↔ a = b.
Proof.
  rewrite byte_xor_val, Z.lxor_eq_0_iff. split; [apply byte_val_inj|by intros ->].
Qed.

Lemma xor_distance_comm a b : xor_distance a b = xor_distance b a.
Proof.
  apply array_eq. cbn. generalize (array_bytes a), (array_bytes b). induction l as [|x l IH]; intros [|y l']; cbn; try done.
  by rewrite byte_xor_comm, IH.
Qed.

Lemma xor_distance_cancel t a : xor_distance t (xor_distance t a) = a.
Proof.
  apply array_eq. cbn. assert (length (array_bytes t) = length (array_bytes a)) as Hlen
    by by rewrite !length_array.
  revert Hlen. generalize (array_bytes t), (array_bytes a).
  induction l as [|x l IH]; intros [|y l']; cbn; try done.
  intros [= Hlen]. by rewrite byte_xor_cancel, IH.
Qed.

Lemma xor_distance_inj t a b : xor_distance t a = xor_distance t b → a = b.
Proof. intros H. by rewrite <-(xor_distance_cancel t a), H, xor_distance_cancel. Qed.

(** ** Buckets *)

Lemma leading_zeros_le b : byte_val b ≠ 0 → (leading_zeros b ≤ 7)%nat.
Proof.
  intros Hb. unfold leading_zeros. destruct (byte_val b =? 0) eqn:E; [lia|].
  pose proof (Z.log2_nonneg (byte_val b)). lia.
Qed.

Lemma bucket_scan_bound i dist :
  (i + length dist ≤ 32)%nat → (bucket_scan i dist < 256)%nat.
Proof.
  revert i. induction dist as [|b dist IH]; intros i Hi; cbn [bucket_scan]; [lia|].
  cbn in Hi. destruct (byte_val b =? 0) eqn:E; cbn [negb]; [apply IH; lia|].
  apply Z.eqb_neq, leading_zeros_le in E. lia.
Qed.

Lemma bucket_index_bound a b : (bucket_index a b < 256)%nat.
Proof. apply bucket_scan_bound. rewrite length_array. lia. Qed.

(** What a bucket at [i] of the table of [local] holds. *)
Definition bucket_wf (local : NodeId) (i : nat) (b : KBucket) : Prop :=
  (length b.(peers) ≤ K)%nat ∧ NoDup (id <$> b.(peers)) ∧
  ∀ p, p ∈ b.(peers) → p.(id) ≠ local ∧ bucket_index local p.(id) = i.

Definition table_wf (t : RoutingTable) : Prop :=
  length t.(buckets) = 256%nat ∧
  ∀ i b, t.(buckets) !! i = Some b → bucket_wf t.(local_id) i b.

Lemma position_id_Some i l pos :
  position_id i l = Some pos →
  ∃ l1 p l2, l = l1 ++ p :: l2 ∧ length l1 = pos ∧ p.(id) = i.
Proof.
  revert pos. induction l as [|q l IH]; intros pos; cbn [position_id]; [done|].
  case_decide as Hq.
  - intros [= <-]. by exists [], q, l.
  - destruct (position_id i l) as [n|]; [|done]. intros [= <-].
    destruct (IH n eq_refl) as (l1 & p & l2 & -> & <- & Hp).
    by exists (q :: l1), p, l2.
Qed.

Lemma position_id_None i l : position_id i l = None ↔ i ∉ id <$> l.
Proof.
  induction l as [|q l IH]; cbn [position_id]; [set_solver|].
  case_decide as Hq; [set_solver|]. rewrite fmap_None, IH. set_solver.
Qed.

Lemma vec_remove_app {A} (l1 : list A) x l2 :
  vec_remove (length l1) (l1 ++ x :: l2) = l1 ++ l2.
Proof.
  unfold vec_remove. rewrite take_app_length.
  replace (S (length l1)) with (length (l1 ++ [x])) by (rewrite length_app; cbn; lia).
  change (x :: l2) with ([x] ++ l2). by rewrite app_assoc, drop_app_length.
Qed.

Lemma bucket_wf_remove local i b n :
  bucket_wf local i b → bucket_wf local i (kbucket_remove b n).1.
Proof.
  intros (Hlen & Hnd & Hp). unfold kbucket_remove.
  destruct (position_id n (peers b)) as [pos|] eqn:Hpos; [|done].
  apply position_id_Some in Hpos as (l1 & p & l2 & Hb & <- & _).
  rewrite Hb at 1. rewrite vec_remove_app. cbn [fst]. split_and!.
  - rewrite Hb, length_app in Hlen. cbn [peers length] in *. rewrite length_app. lia.
  - rewrite Hb in Hnd. cbn [peers]. rewrite fmap_app, ?fmap_cons in *. eapply sublist_NoDup; [exact Hnd|].
    apply sublist_app; [done|]. by apply sublist_cons.
  - intros q Hq. apply Hp. rewrite Hb. cbn in Hq. set_solver.
Qed.

Lemma kbucket_insert_wf local i b p :
  bucket_wf local i b → p.(id) ≠ local → bucket_index local p.(id) = i →
  ∃ b' o, kbucket_insert b p = Some (b', o) ∧ bucket_wf local i b'.
Proof.
  intros Hwf Hl Hi. unfold kbucket_insert.
  destruct (position_id (id p) (peers b)) as [pos|] eqn:Hpos.
  - apply position_id_Some in Hpos as (l1 & q & l2 & Hb & <- & Hq).
    destruct Hwf as (Hlen & Hnd & Hp). rewrite Hb in *.
    eexists _, _; split; [reflexivity|]. rewrite vec_remove_app.
    assert (l1 ++ q :: l2 ≡ₚ q :: (l1 ++ l2)) as Hperm by by rewrite Permutation_middle.
    split_and!; cbn.
    + rewrite !length_app in *. cbn [length] in *. lia.
    + rewrite fmap_app, Permutation_app_comm. cbn. rewrite <-Hq.
      rewrite Hperm in Hnd. done.
    + intros r [Hr| ->%list_elem_of_singleton]%elem_of_app; [|done].
      apply Hp. set_solver.
  - apply position_id_None in Hpos. pose proof Hwf as (Hlen & Hnd & Hp).
    destruct (K <=? length (peers b))%nat eqn:HK; bool_simpl.
    + destruct (peers b) as [|q l] eqn:Hb; [cbn in HK; unfold K in HK; lia|].
      eexists _, _; split; [reflexivity|done].
    + eexists _, _; split; [reflexivity|]. split_and!; cbn.
      * rewrite length_app. cbn. lia.
      * rewrite fmap_app, Permutation_app_comm. cbn. by constructor.
      * intros r [Hr| ->%list_elem_of_singleton]%elem_of_app; auto.
Qed.

(** ** The table *)

Lemma table_new_wf local : table_wf (table_new local).
Proof.
  split; [apply length_replicate|]. intros i b Hb.
  unfold table_new, buckets in Hb. apply lookup_replicate in Hb as [-> _].
  split_and!; [cbn; lia|constructor|intros p Hp; inversion Hp].
Qed.

Lemma table_wf_insert t i b :
  table_wf t → bucket_wf t.(local_id) i b →
  table_wf {| local_id := t.(local_id); buckets := <[i := b]> t.(buckets) |}.
Proof.
  intros [Hlen Ht] Hb. split; cbn; [by rewrite length_insert|].
  intros j c Hj. destruct (decide (i = j)) as [<-|Hne].
  - destruct (decide (i < length (buckets t))%nat).
    + rewrite list_lookup_insert_eq in Hj by done. congruence.
    + rewrite list_insert_ge in Hj by lia. by apply Ht.
  - rewrite list_lookup_insert_ne in Hj by done. by apply Ht.
Qed.

Lemma table_bucket t a : table_wf t → ∃ b, t.(buckets) !! bucket_index t.(local_id) a = Some b.
Proof.
  intros [Hlen _]. apply lookup_lt_is_Some_2. rewrite Hlen. apply bucket_index_bound.
Qed.

Lemma add_peer_wf t p :
  table_wf t → ∃ t' o, add_peer t p = Some (t', o) ∧ table_wf t' ∧ local_id t' = local_id t.
Proof.
  intros Ht. unfold add_peer. case_decide as Hp; [by eexists _, _|].
  destruct (table_bucket t p.(id) Ht) as [b Hb]. rewrite Hb. cbn [mbind option_bind].
  destruct (kbucket_insert_wf (local_id t) (bucket_index (local_id t) (id p)) b p)
    as (b' & o & -> & Hb'); [by apply Ht|done|done|].
  eexists _, _; split_and!; [reflexivity|by apply table_wf_insert|done].
Qed.

Lemma remove_peer_wf t i :
  table_wf t → ∃ t' o, remove_peer t i = Some (t', o) ∧ table_wf t' ∧ local_id t' = local_id t.
Proof.
  intros Ht. unfold remove_peer. case_decide as Hi; [by eexists _, _|].
  destruct (table_bucket t i Ht) as [b Hb]. rewrite Hb. cbn [mbind option_bind].
  pose proof (bucket_wf_remove (local_id t) (bucket_index (local_id t) i) b i) as Hw.
  destruct (kbucket_remove b i) as [b' o]. cbn in Hw.
  eexists _, _; split_and!; [reflexivity| |done]. apply table_wf_insert; [done|].
  apply Hw. by apply Ht.
Qed.

(** Lists whose elements know their position concatenate without duplicates. *)
Lemma NoDup_mjoin_indexed {A} (f : A → nat) (ls : list (list A)) k :
  (∀ i l, ls !! i = Some l → NoDup l ∧ ∀ x, x ∈ l → f x = (k + i)%nat) → NoDup (mjoin ls).
Proof.
  revert k. induction ls as [|l ls IH]; intros k H; [constructor|]. cbn.
  apply NoDup_app. split_and!.
  - by apply (H 0%nat l).
  - intros x Hx Hin. apply list_elem_of_join in Hin as (l' & Hx' & Hl').
    apply list_elem_of_lookup in Hl' as [j Hj].
    destruct (H 0%nat l eq_refl) as [_ H0]. destruct (H (S j) l' Hj) as [_ H1].
    specialize (H0 x Hx). specialize (H1 x Hx'). lia.
  - apply (IH (S k)). intros i l' Hl'. destruct (H (S i) l' Hl') as [Hnd Hf].
    split; [done|]. intros x Hx. rewrite (Hf x Hx). lia.
Qed.

Lemma fmap_mjoin {A B} (f : A → B) (ls : list (list A)) :
  f <$> mjoin ls = mjoin (fmap f <$> ls).
Proof.
  induction ls as [|l ls IH]; [done|].
  change (f <$> (l ++ mjoin ls) = (f <$> l) ++ mjoin (fmap f <$> ls)).
  by rewrite fmap_app, IH.
Qed.

Lemma all_peers_NoDup t : table_wf t → NoDup (id <$> all_peers t).
Proof.
  intros [_ Ht]. unfold all_peers.
  rewrite fmap_mjoin, <-list_fmap_compose.
  apply (NoDup_mjoin_indexed (bucket_index (local_id t)) _ 0).
  intros i l Hl. rewrite list_lookup_fmap in Hl.
  destruct (buckets t !! i) as [b|] eqn:Hb; [|done]. injection Hl as <-.
  destruct (Ht i b Hb) as (_ & Hnd & Hp). split; [done|].
  intros x (p & -> & Hin)%list_elem_of_fmap. by apply Hp.
Qed.

(** ** Nearest peers *)

Definition closer (target : NodeId) (p q : Peer) : Prop :=
  olt (xor_distance target p.(id)) (xor_distance target q.(id)).

Lemma sorted_closer target l :
  NoDup (id <$> l) →
  StronglySorted (key_le (λ p, xor_distance target (id p))) l → StronglySorted (closer target) l.
Proof.
  induction l as [|p l IH]; intros Hnd Hs; [constructor|].
  cbn in Hnd. apply NoDup_cons in Hnd as [Hp Hnd]. inversion Hs as [|? ? Hs' Hle]; subst.
  constructor; [auto|]. rewrite Forall_forall in Hle |- *. intros q Hq.
  specialize (Hle q Hq). unfold closer.
  destruct (olt_trichotomy (xor_distance target (id p)) (xor_distance target (id q)))
    as [?|[Heq|Hgt]]; [done| |].
  - apply xor_distance_inj in Heq. destruct Hp. rewrite Heq.
    apply list_elem_of_fmap. eauto.
  - destruct Hle. by apply cmp_Gt.
Qed.

Lemma nearest_sorted_all t target :
  table_wf t →
  StronglySorted (closer target)
    (sort_by_key (λ peer, xor_distance target peer.(id)) (all_peers t)).
Proof.
  intros Ht. apply sorted_closer; [|apply sort_by_key_sorted].
  rewrite sort_by_key_perm. by apply all_peers_NoDup.
Qed.

Lemma nearest_elem t target limit p : p ∈ nearest t target limit → p ∈ all_peers t.
Proof.
  intros Hp. unfold nearest in Hp.
  rewrite <-(sort_by_key_perm (λ peer, xor_distance target peer.(id)) (all_peers t)).
  rewrite <-(take_drop limit (sort_by_key _ _)). set_solver.
Qed.

Lemma length_nearest t target limit :
  length (nearest t target limit) = (limit `min` length (all_peers t))%nat.
Proof. unfold nearest. by rewrite length_take, sort_by_key_perm. Qed.

(** ** Reloading a saved table *)

Lemma add_all_app t l1 l2 :
  add_all t (l1 ++ l2) = add_all t l1 ≫= λ t', add_all t' l2.
Proof.
  revert t. induction l1 as [|p l1 IH]; intros t; [done|]. cbn.
  destruct (add_peer t p) as [[t' o]|]; cbn; [apply IH|done].
Qed.

(** Adding the peers of a bucket in order rebuilds it behind [pre]. *)
Lemma add_all_bucket local bs j pre l :
  bs !! j = Some {| peers := pre |} →
  bucket_wf local j {| peers := pre ++ l |} →
  add_all {| local_id := local; buckets := bs |} l =
  Some {| local_id := local; buckets := <[j := {| peers := pre ++ l |}]> bs |}.
Proof.
  revert bs pre. induction l as [|p l IH]; intros bs pre Hj Hwf.
  { rewrite app_nil_r in *. cbn. by rewrite list_insert_id. }
  pose proof Hwf as (Hlen & Hnd & Hp). cbn [peers] in Hlen, Hnd, Hp.
  destruct (Hp p) as [Hl Hi]; [set_solver|].
  cbn [add_all]. unfold add_peer. cbn [local_id buckets]. rewrite decide_False by done.
  rewrite Hi, Hj. cbn [mbind option_bind]. unfold kbucket_insert. cbn [peers].
  rewrite length_app in Hlen. cbn in Hlen.
  assert (position_id (id p) pre = None) as ->.
  { apply position_id_None. rewrite fmap_app in Hnd. apply NoDup_app in Hnd as (_ & Hd & _).
    intros Hin. apply (Hd _ Hin). cbn. set_solver. }
  assert ((K <=? length pre)%nat = false) as -> by (apply Nat.leb_gt; lia).
  cbn [mbind option_bind].
  assert (pre ++ p :: l = (pre ++ [p]) ++ l) as Hassoc by by rewrite <-app_assoc.
  rewrite (IH _ (pre ++ [p])).
  - by rewrite list_insert_insert_eq, <-Hassoc.
  - apply list_lookup_insert_eq. by eapply lookup_lt_Some.
  - by rewrite <-Hassoc.
Qed.

Lemma add_all_buckets local built todo :
  (∀ i b, (built ++ todo) !! i = Some b → bucket_wf local i b) →
  add_all {| local_id := local; buckets := built ++ replicate (length todo) kbucket_new |}
    (mjoin (peers <$> todo)) = Some {| local_id := local; buckets := built ++ todo |}.
Proof.
  revert built. induction todo as [|b todo IH]; intros built Hwf; [done|].
  change (mjoin (peers <$> b :: todo)) with (peers b ++ mjoin (peers <$> todo)).
  rewrite add_all_app. rewrite (add_all_bucket _ _ (length built) []).
  - cbn [mbind option_bind app]. destruct b as [l]. cbn [peers].
    rewrite insert_app_r_alt, Nat.sub_diag by lia. cbn [length replicate insert list_insert].
    specialize (IH (built ++ [{| peers := l |}])). rewrite <-!app_assoc in IH.
    by apply IH.
  - by rewrite lookup_app_r, Nat.sub_diag by lia.
  - cbn. destruct b as [l]. apply Hwf. by rewrite lookup_app_r, Nat.sub_diag by lia.
Qed.

(** ** Properties *)

(** The changes a caller can make to a routing table, and a sequence of them;
    [None] is an index panic. *)
Inductive table_op : Type :=
| OpAdd (p : Peer)
| OpRemove (i : NodeId).

Definition run_op (t : RoutingTable) (op : table_op) : option RoutingTable :=
  match op with
  | OpAdd p => fst <$> add_peer t p
  | OpRemove i => fst <$> remove_peer t i
  end.

Definition run_ops (t : RoutingTable) (ops : list table_op) : option RoutingTable :=
  foldl (λ acc op, acc ≫= λ t, run_op t op) (Some t) ops.

Lemma run_ops_wf ops t :
  table_wf t → ∃ t', run_ops t ops = Some t' ∧ table_wf t' ∧ local_id t' = local_id t.
Proof.
  unfold run_ops. revert t. induction ops as [|op ops IH]; intros t Ht; [by eexists|].
  cbn [foldl mbind option_bind].
  assert (∃ t1, run_op t op = Some t1 ∧ table_wf t1 ∧ local_id t1 = local_id t)
    as (t1 & -> & Ht1 & Hl1).
  { destruct op as [p|i]; cbn.
    - destruct (add_peer_wf t p Ht) as (t1 & o & -> & ? & ?). by eexists.
    - destruct (remove_peer_wf t i Ht) as (t1 & o & -> & ? & ?). by eexists. }
  destruct (IH t1 Ht1) as (t' & Hrun & Ht' & Hl'). eexists; split_and!; [done|done|congruence].
Qed.

(** Starting from [RoutingTable::new], every sequence of [add_peer] and
    [remove_peer] calls runs without an index panic and ends in a table with
    256 buckets in which every bucket holds at most [K] peers and every peer
    is stored once in the whole table, is not the local node, and sits in
    the bucket selected by [bucket_index]. *)
Theorem routing_table_invariant local ops :
  ∃ t, run_ops (table_new local) ops = Some t ∧ table_wf t ∧
    local_id t = local ∧ NoDup (id <$> all_peers t).
Proof.
  destruct (run_ops_wf ops (table_new local) (table_new_wf local)) as (t & Hrun & Ht & Hl).
  exists t. split_and!; [done|done|done|]. by apply all_peers_NoDup.
Qed.

(** On a well-formed table [nearest target limit] returns
    [min limit count] stored peers in strictly increasing XOR distance to
    the target, and every stored peer it leaves out is strictly farther than
    every peer it returns. *)
Theorem nearest_correct t target limit (Ht : table_wf t) :
  let found := nearest t target limit in
  length found = (limit `min` length (all_peers t))%nat ∧
  StronglySorted (closer target) found ∧
  (∀ p, p ∈ found → p ∈ all_peers t) ∧
  (∀ p q, p ∈ all_peers t → p ∉ found → q ∈ found → closer target q p).
Proof.
  cbn zeta. pose proof (nearest_sorted_all t target Ht) as Hs.
  split_and!; [apply length_nearest| |apply nearest_elem|].
  - unfold nearest. rewrite <-(take_drop limit (sort_by_key _ _)) in Hs.
    by eapply StronglySorted_app_1_l.
  - intros p q Hp Hnp Hq. unfold nearest in *.
    rewrite <-(sort_by_key_perm (λ peer, xor_distance target peer.(id)) (all_peers t)) in Hp.
    rewrite <-(take_drop limit (sort_by_key _ _)) in Hp, Hs.
    apply elem_of_app in Hp as [?|Hp]; [done|].
    by eapply StronglySorted_app_1_elem_of.
Qed.

(** Saving a well-formed routing table to a peer store and rebuilding it
    gives back exactly the same table, buckets and their order included. *)
Theorem peer_store_roundtrip t (Ht : table_wf t) :
  into_routing_table (from_routing_table t) = Some t.
Proof.
  destruct Ht as [Hlen Ht]. unfold into_routing_table, from_routing_table, table_new, all_peers.
  cbn [ps_local_id ps_peers]. rewrite <-Hlen.
  pose proof (add_all_buckets (local_id t) [] (buckets t) Ht) as H.
  cbn [app] in H. rewrite H. by destruct t.
Qed.

(** A [find_node] answer names at most [min k MAX_K] peers; any other
    message is not answered. *)
Theorem find_node_bounded local t m :
  match handle_find_node local t m with
  | Some (FindNodeResult sender target found) =>
      sender = local ∧ (length found ≤ MAX_K)%nat ∧
      ∃ s k, m = FindNode s target k ∧ found = nearest t target (k `min` MAX_K)
  | Some _ => False
  | None => ∀ s target k, m ≠ FindNode s target k
  end.
Proof.
  destruct m as [s|s|s target k|s target l]; cbn; try done.
  split_and!; [done| |by eexists _, _]. rewrite length_nearest. unfold MAX_K. lia.
Qed.

(** ** Identifiers *)

Lemma log2_be_cons b l :
  byte_val b ≠ 0 →
  Z.log2 (be_value (b :: l)) = Z.log2 (byte_val b) + 8 * Z.of_nat (length l).
Proof.
  intros Hb. rewrite be_value_cons. pose proof (be_value_range l) as Hl.
  pose proof (byte_val_range b) as Hr.
  replace (256 ^ Z.of_nat (length l)) with (2 ^ (8 * Z.of_nat (length l))) in *
    by (rewrite Z.pow_mul_r by lia; done).
  set (n := 8 * Z.of_nat (length l)) in *. assert (0 ≤ n) by lia.
  pose proof (Z.log2_spec (byte_val b) ltac:(lia)) as [H1 H2].
  pose proof (Z.log2_nonneg (byte_val b)).
  apply Z.log2_unique; [lia|]. rewrite Z.pow_add_r by lia.
  rewrite <-Z.add_succ_l, Z.pow_add_r by lia. nia.
Qed.

Lemma bucket_scan_log2 i dist :
  be_value dist ≠ 0 →
  Z.of_nat (bucket_scan i dist) =
    8 * Z.of_nat i + 8 * Z.of_nat (length dist) - 1 - Z.log2 (be_value dist).
Proof.
  revert i. induction dist as [|b dist IH]; intros i Hne; [done|]. cbn [bucket_scan length].
  destruct (Z.eqb_spec (byte_val b) 0) as [Hb|Hb]; cbn [negb].
  - rewrite be_value_cons, Hb in *. rewrite IH by lia. rewrite Z.mul_0_l, Z.add_0_l. lia.
  - rewrite log2_be_cons by done. unfold leading_zeros.
    destruct (Z.eqb_spec (byte_val b) 0); [done|].
    pose proof (byte_val_range b). pose proof (Z.log2_nonneg (byte_val b)).
    assert (Z.log2 (byte_val b) ≤ 7) by (apply (Z.log2_le_mono _ 255); lia). lia.
Qed.

Lemma zip_xor_zero l1 l2 :
  length l1 = length l2 → be_value (zip_with byte_xor l1 l2) = 0 ↔ l1 = l2.
Proof.
  revert l2. induction l1 as [|a l1 IH]; intros [|b l2]; try done. intros [= Hlen].
  specialize (IH l2 Hlen). cbn [zip_with]. rewrite be_value_cons.
  pose proof (be_value_range (zip_with byte_xor l1 l2)).
  pose proof (byte_val_range (byte_xor a b)). pose proof (byte_xor_zero a b) as Hz.
  assert (0 < 256 ^ Z.of_nat (length (zip_with byte_xor l1 l2))) by (apply Z.pow_pos_nonneg; lia).
  split.
  - intros Heq. f_equal; [apply Hz|apply IH]; nia.
  - intros [= -> ->]. rewrite (proj2 Hz), (proj2 IH) by done. lia.
Qed.

Lemma xor_distance_zero a b : be_value (array_bytes (xor_distance a b)) = 0 ↔ a = b.
Proof.
  cbn. rewrite zip_xor_zero by (by rewrite !length_array).
  split; [apply array_eq|by intros ->].
Qed.

Lemma bucket_scan_zero i dist : be_value dist = 0 → bucket_scan i dist = 255%nat.
Proof.
  revert i. induction dist as [|b dist IH]; intros i Hz; [done|]. cbn [bucket_scan].
  rewrite be_value_cons in Hz. pose proof (be_value_range dist). pose proof (byte_val_range b).
  assert (0 < 256 ^ Z.of_nat (length dist)) by (apply Z.pow_pos_nonneg; lia).
  assert (byte_val b = 0) as -> by nia. cbn [Z.eqb negb]. apply IH. nia.
Qed.

(** The bucket of a peer is the position of the highest bit in which its
    ID differs from the local one: bucket [i] holds the IDs at XOR distance
    [2^(255-i)] up to [2^(256-i)], and [bucket_index] of an ID with itself
    (which the table never asks for) is 255. The index is always below 256. *)
Theorem bucket_index_distance a b :
  (bucket_index a b < 256)%nat ∧
  let d := be_value (array_bytes (xor_distance a b)) in
  let i := Z.of_nat (bucket_index a b) in
  (a = b → i = 255) ∧ (a ≠ b → 2 ^ (255 - i) ≤ d < 2 ^ (256 - i)).
Proof.
  cbv zeta. destruct (decide (a = b)) as [Hab|Hab]; unfold bucket_index.
  - rewrite bucket_scan_zero by (by apply xor_distance_zero). split_and!; [lia|done|done].
  - rewrite <-xor_distance_zero in Hab. pose proof (bucket_scan_log2 0 _ Hab) as Hs.
    rewrite length_array in Hs. pose proof (be_value_range (array_bytes (xor_distance a b))).
    pose proof (Z.log2_nonneg (be_value (array_bytes (xor_distance a b)))).
    split_and!; [lia|by rewrite <-xor_distance_zero|]. intros _. rewrite Hs.
    pose proof (Z.log2_spec (be_value (array_bytes (xor_distance a b))) ltac:(lia)) as Hlog.
    replace (255 - _) with (Z.log2 (be_value (array_bytes (xor_distance a b)))) by lia.
    replace (256 - _) with (Z.succ (Z.log2 (be_value (array_bytes (xor_distance a b))))) by lia.
    done.
Qed.

(** [NodeId::from_hex] accepts exactly 64 hexadecimal digits of either
    case (a sign is not a digit), and the ID it returns prints, with
    [to_hex], as the same text in lower case: in particular it reads back
    every printed ID. *)
Theorem node_id_hex_exact text i :
  from_hex text = Ok i ↔
  forallb is_ascii_hexdigit text = true ∧ to_hex i = to_ascii_lowercase <$> text.
Proof.
  unfold from_hex, to_hex. split.
  - destruct (Nat.eqb_spec (length text) 64) as [Hl|]; [|done]. cbn [negb].
    destruct (forallb is_ascii_hexdigit text) eqn:Hd; [|done]. cbn [negb].
    destruct (hex_unhex 32 text Hl Hd) as (bs & -> & Hx). cbn.
    destruct (to_array 32 bs) as [j|] eqn:Hj; [|done]. intros [= <-].
    apply to_array_Some in Hj as ->. done.
  - intros [Hd Hx]. assert (length text = 64%nat) as Hl.
    { rewrite <-(length_fmap to_ascii_lowercase), <-Hx, length_hex, length_array. done. }
    rewrite Hl, Hd. cbn [Nat.eqb negb].
    destruct (hex_unhex 32 text Hl Hd) as (bs & -> & Hx'). rewrite <-Hx in Hx'.
    apply hex_inj in Hx' as ->. cbn. by rewrite to_array_bytes.
Qed.

(** ** A concrete table *)

Definition demo_id (b : byte) : NodeId := array_fill 32 b.
Definition demo_peer (b : byte) : Peer :=
  mkPeer (demo_id b) (lit "peer") (lit "198.51.100.7:443") true 0 0 None.
Definition demo_table : RoutingTable :=
  default (table_new (demo_id x00))
    (run_ops (table_new (demo_id x00)) (OpAdd ∘ demo_peer <$> [x01; x02; x03; x80; x81])).

Lemma demo_table_wf : table_wf demo_table.
Proof.
  unfold demo_table.
  destruct (run_ops_wf (OpAdd ∘ demo_peer <$> [x01; x02; x03; x80; x81]) (table_new (demo_id x00))
              (table_new_wf _)) as (t & -> & Ht & _). exact Ht.
Qed.

Lemma nearest_correct_witness :
  length (nearest demo_table (demo_id x02) 3) = 3%nat ∧
  StronglySorted (closer (demo_id x02)) (nearest demo_table (demo_id x02) 3).
Proof.
  destruct (nearest_correct demo_table (demo_id x02) 3 demo_table_wf) as (Hl & Hs & _).
  split; [|exact Hs]. rewrite Hl. vm_compute. reflexivity.
Defined.

Lemma peer_store_roundtrip_witness :
  into_routing_table (from_routing_table demo_table) = Some demo_table.
Proof. exact (peer_store_roundtrip demo_table demo_table_wf). Defined.

End Kademlia.
