(* ===== verification/Crypto.v ===== *)
(** * Interfaces of the cryptographic and encoding crates

    [blake3], [ed25519-dalek] and [base64] are not part of the repository:
    the code is modelled against these classes. [CryptoLaws] is the
    documented behaviour a theorem may ask for (an honest signature
    verifies); [Base64Laws] is that decoding inverts encoding. [Toy] is an
    instance of each that computes, for the witnesses. *)

From S2P Require Export Wire.

Local Open Scope Z_scope.

Notation Key := (array 32).
Notation Hash := (array 32).
Notation Sig := (array 64).

Class Crypto : Type := {
  (** [blake3::Hasher] over the concatenated updates. *)
  blake3 : list byte → Hash;
  (** [VerifyingKey::from_bytes(k).is_ok()]. *)
  key_valid : Key → bool;
  (** [VerifyingKey::is_weak]: small order. *)
  key_weak : Key → bool;
  (** [VerifyingKey::verify_strict] and [Verifier::verify]. *)
  verify_strict : Key → list byte → Sig → bool;
  verify_loose : Key → list byte → Sig → bool;
  (** [SigningKey::from_bytes(sk).verifying_key().to_bytes()]. *)
  sk_public : array 32 → Key;
  (** [SigningKey::from_bytes(sk).sign(message).to_bytes()]. *)
  sk_sign : array 32 → list byte → Sig
}.

Class CryptoLaws `{Crypto} : Prop := {
  sk_public_valid : ∀ sk, key_valid (sk_public sk) = true;
  sign_verifies : ∀ sk m, key_weak (sk_public sk) = false →
    verify_strict (sk_public sk) m (sk_sign sk m) = true;
  strict_loose : ∀ k m s, verify_strict k m s = true → verify_loose k m s = true
}.

Class Base64 : Type := {
  b64_encode : list byte → str;
  b64_decode : str → option (list byte)
}.

Class Base64Laws `{Base64} : Prop := {
  b64_decode_encode : ∀ l, b64_decode (b64_encode l) = Some l;
  (** Padded: four characters for every three bytes begun. *)
  b64_length : ∀ l, length (b64_encode l) = ((length l + 2) / 3 * 4)%nat
}.

Module Toy.

(** The first [n] bytes of [l], padded with zeros. *)
Program Definition toy_array (n : nat) (l : list byte) : array n :=
  Array (take n (l ++ replicate n x00)) _.
Next Obligation.
  intros. apply Is_true_true_2, Nat.eqb_eq. rewrite length_take, length_app, length_replicate. lia.
Qed.

(** The last 32 bytes, reversed. *)
Definition toy_hash (l : list byte) : Hash := toy_array 32 (rev l).

Definition toy_sign (sk : array 32) (m : list byte) : Sig :=
  toy_array 64 (array_bytes sk ++ array_bytes (toy_hash m)).

#[export] Instance toy_crypto : Crypto := {|
  blake3 := toy_hash;
  key_valid := λ _, true;
  key_weak := λ k, forallb (Byte.eqb x00) (array_bytes k);
  verify_strict := λ k m s, bool_decide (s = toy_sign k m);
  verify_loose := λ k m s, bool_decide (s = toy_sign k m);
  sk_public := λ sk, sk;
  sk_sign := toy_sign
|}.

#[export] Instance toy_crypto_laws : CryptoLaws.
Proof. split; [done| |done]. intros sk m _. by apply bool_decide_eq_true_2. Qed.

(** The bytes, filled up to the length of the real encoding; the last byte
    says how many of the last three were present. *)
Definition toy_b64_encode (l : list byte) : str :=
  match l with
  | [] => []
  | _ => l ++ replicate ((length l + 2) / 3 * 4 - length l - 1) x00
         ++ [byte_of (Z.of_nat (length l) `mod` 3)]
  end.

Definition toy_b64_decode (s : str) : option (list byte) :=
  match last s with
  | None => Some []
  | Some b =>
      let k := (length s / 4)%nat in
      Some (take (if byte_val b =? 0 then 3 * k else if byte_val b =? 1 then 3 * k - 2 else 3 * k - 1) s)
  end.

#[export] Instance toy_base64 : Base64 := {|
  b64_encode := toy_b64_encode;
  b64_decode := toy_b64_decode
|}.

Lemma toy_b64_length l : length (toy_b64_encode l) = ((length l + 2) / 3 * 4)%nat.
Proof.
  destruct l as [|x l]; [done|]. unfold toy_b64_encode. rewrite !length_app, length_replicate.
  assert (1 ≤ length (x :: l))%nat as Hn by (cbn; lia). revert Hn.
  generalize (length (x :: l)). intros n Hn. change (length [_]) with 1%nat. pose proof (Nat.div_mod_eq (n + 2) 3). pose proof (Nat.mod_upper_bound (n + 2) 3). lia.
Qed.

#[export] Instance toy_base64_laws : Base64Laws.
Proof.
  split; [|apply toy_b64_length]. intros l. cbn. unfold toy_b64_decode.
  destruct l as [|x l]; [done|]. pose proof (toy_b64_length (x :: l)) as Hl.
  rewrite Hl. unfold toy_b64_encode in *. set (n := length (x :: l)) in *.
  rewrite app_assoc, last_snoc. assert (1 ≤ n)%nat by (cbn; lia).
  pose proof (Nat.div_mod_eq (n + 2) 3). pose proof (Nat.mod_upper_bound (n + 2) 3).
  pose proof (Z.mod_pos_bound (Z.of_nat n) 3 ltac:(lia)) as Hpos.
  pose proof (Z.div_mod (Z.of_nat n) 3 ltac:(lia)) as Hdm.
  rewrite Nat.div_mul by lia. rewrite byte_val_of, (Z.mod_small (Z.of_nat n `mod` 3)) by lia.
  f_equal. rewrite <-app_assoc. set (k := ((n + 2) / 3)%nat) in *.
  transitivity (take n ((x :: l) ++ replicate (k * 4 - n - 1) x00 ++ [byte_of (Z.of_nat n `mod` 3)]));
    [f_equal|apply take_app_length].
  assert (Z.of_nat n `mod` 3 = 0 ∨ Z.of_nat n `mod` 3 = 1 ∨ Z.of_nat n `mod` 3 = 2) as [Hm|[Hm|Hm]] by lia;
    rewrite Hm; cbn [Z.eqb Pos.eqb]; lia.
Qed.

(** The key whose big-endian value is [z]. *)
Definition key_of (z : Z) : Key := toy_array 32 (be_bytes 32 z).

End Toy.
