(* ===== verification/Serde.v ===== *)
(** * JSON documents ([serde_json]) and files, as the tools use them

    [serde_json] is outside the repository: a document type has an encoder
    and a decoder ([Serde]) with the law that decoding what was encoded gives
    the value back ([SerdeLaws]); [to_vec] is [serde_json::to_vec] or
    [to_vec_pretty], whichever the code of that document calls. [Toy] has an instance for any countable
    type, which the witnesses use.

    Files are a finite map from paths to a mode and contents. Only the
    operations of the sources appear: creating a file that must not exist
    and reading one; an I/O failure of the disk itself is not modelled. *)

From stdpp Require Export gmap countable.
From S2P Require Export Crypto.

Local Open Scope Z_scope.

Class Serde (A : Type) : Type := {
  to_vec : A → list byte;
  from_slice : list byte → option A
}.

Class SerdeLaws (A : Type) `{Serde A} : Prop := {
  from_to_vec : ∀ a, from_slice (to_vec a) = Some a
}.

Module ToySerde.

Fixpoint pos_bytes (p : positive) : list byte :=
  match p with
  | xH => []
  | xO p => x00 :: pos_bytes p
  | xI p => x01 :: pos_bytes p
  end.

Fixpoint bytes_pos (l : list byte) : positive :=
  match l with
  | [] => xH
  | b :: l => if decide (b = x00) then xO (bytes_pos l) else xI (bytes_pos l)
  end.

Lemma bytes_pos_bytes p : bytes_pos (pos_bytes p) = p.
Proof. by induction p as [p IH|p IH|]; cbn; rewrite ?IH. Qed.

#[export] Instance toy_serde `{Countable A} : Serde A := {|
  to_vec a := pos_bytes (encode a);
  from_slice l := decode (bytes_pos l)
|}.

#[export] Instance toy_serde_laws `{Countable A} : SerdeLaws A.
Proof. split. intros a. cbn. by rewrite bytes_pos_bytes, decode_encode. Qed.

(** A compact encoding for a document given as a list of optional strings. *)
Fixpoint field_bytes (s : str) : list byte :=
  match s with [] => [x00] | b :: s => x01 :: b :: field_bytes s end.

Fixpoint take_field (l : list byte) : option (str * list byte) :=
  match l with
  | x00 :: r => Some ([], r)
  | x01 :: b :: r => match take_field r with Some (s, r') => Some (b :: s, r') | None => None end
  | _ => None
  end.

Fixpoint fields_bytes (l : list (option str)) : list byte :=
  match l with
  | [] => []
  | None :: l => x00 :: fields_bytes l
  | Some s :: l => x01 :: field_bytes s ++ fields_bytes l
  end.

Fixpoint take_fields (n : nat) (l : list byte) : option (list (option str)) :=
  match n, l with
  | O, [] => Some []
  | S n, x00 :: r => cons None <$> take_fields n r
  | S n, x01 :: r =>
      match take_field r with Some (s, r') => cons (Some s) <$> take_fields n r' | None => None end
  | _, _ => None
  end.

Lemma take_field_bytes s r : take_field (field_bytes s ++ r) = Some (s, r).
Proof. induction s as [|b s IH]; [done|]. cbn. by rewrite IH. Qed.

Lemma take_fields_bytes fs : take_fields (length fs) (fields_bytes fs) = Some fs.
Proof.
  induction fs as [|[s|] fs IH]; [done| |]; cbn; [rewrite take_field_bytes; cbn|]; by rewrite IH.
Qed.

(** A list of strings, one field after the other. *)
Definition many_bytes (l : list str) : list byte := mjoin (field_bytes <$> l).
Fixpoint take_many (fuel : nat) (l : list byte) : option (list str) :=
  match fuel, l with
  | _, [] => Some []
  | S fuel, _ => '(s, r) ← take_field l; cons s <$> take_many fuel r
  | O, _ => None
  end.
Lemma take_many_bytes l : ∀ fuel, (length l ≤ fuel)%nat → take_many fuel (many_bytes l) = Some l.
Proof.
  induction l as [|s l IH]; intros fuel Hf; [by destruct fuel|]. destruct fuel as [|fuel]; [cbn in Hf; lia|].
  change (many_bytes (s :: l)) with (field_bytes s ++ many_bytes l).
  assert (∃ b r, field_bytes s ++ many_bytes l = b :: r) as (b & r & E) by (destruct s; cbn; eauto).
  cbn [take_many]. rewrite E, <- E, take_field_bytes. cbn [mbind option_bind]. by rewrite IH by (cbn in Hf; lia).
Qed.
Definition many_back (l : list byte) : option (list str) := take_many (length l) l.
Lemma length_field_bytes s : length (field_bytes s) = (2 * length s + 1)%nat.
Proof. induction s; cbn [field_bytes length] in *; lia. Qed.
Lemma many_back_bytes l : many_back (many_bytes l) = Some l.
Proof.
  apply take_many_bytes. induction l as [|s l IH]; [done|]. change (many_bytes (s :: l)) with (field_bytes s ++ many_bytes l).
  rewrite length_app, length_field_bytes. cbn [length]. lia.
Qed.

Definition fields_serde {A} (n : nat) (to : A → list (option str)) (back : list (option str) → option A)
    : Serde A := {|
  to_vec a := fields_bytes (to a);
  from_slice l := fs ← take_fields n l; back fs
|}.

Lemma fields_serde_laws {A} n (to : A → list (option str)) back :
  (∀ a, length (to a) = n) → (∀ a, back (to a) = Some a) → SerdeLaws (H := fields_serde n to back) A.
Proof. intros Hn Ho. split. intros a. cbn. rewrite <-(Hn a), take_fields_bytes. cbn. apply Ho. Qed.

End ToySerde.

(** ** Files *)

Record File : Type := mkFile {
  f_mode : Z;
  f_bytes : list byte
}.
Notation Fs := (gmap str File).

Inductive FsError : Type :=
| AlreadyExists
| NotFound.

(** [OpenOptions::new().write(true).create_new(true).mode(mode)], then
    [write_all]: the mode is masked by the process's umask. *)
Definition create_new (umask : Z) (fs : Fs) (path : str) (bytes : list byte) (mode : Z)
    : result FsError Fs :=
  match fs !! path with
  | Some _ => Err AlreadyExists
  | None => Ok (<[path := mkFile (Z.land mode (Z.lnot umask)) bytes]> fs)
  end.

(** [fs::read], [fs::metadata]. *)
Definition read_file (fs : Fs) (path : str) : result FsError File :=
  ok_or (fs !! path) NotFound.

Lemma create_new_read umask fs path bytes mode fs' :
  create_new umask fs path bytes mode = Ok fs' →
  fs !! path = None ∧ read_file fs' path = Ok (mkFile (Z.land mode (Z.lnot umask)) bytes) ∧
  ∀ p, p ≠ path → fs' !! p = fs !! p.
Proof.
  unfold create_new, read_file. destruct (fs !! path) eqn:Hp; [done|]. intros [= <-].
  split_and!; [done|by rewrite lookup_insert_eq|]. intros p Hne. by rewrite lookup_insert_ne.
Qed.
