(* ===== verification/Pelt.v ===== *)
(** * Identities and fingerprints ([werewolf-core/src/pelt.rs], the fingerprint
      parser of [werewolfd/src/handshake.rs])

    A node's identity is an Ed25519 key pair in base64 and the fingerprint of
    the public key, [wwp1:] and the first eight bytes of its BLAKE3 hash in
    upper-case hexadecimal. Two parsers of fingerprints are proved to accept
    the same texts, those the printer produces. *)

From S2P Require Export Crypto.
From S2P Require Export Net.

Local Open Scope Z_scope.

Module Pelt.

Record PeltIdentity : Type := mkPeltIdentity {
  public_key_b64 : str;
  secret_key_b64 : str;
  fingerprint : str
}.

#[export] Instance pelt_identity_eq_dec : EqDecision PeltIdentity.
Proof. solve_decision. Defined.

Definition FINGERPRINT_PREFIX : str := lit "wwp1:".

Definition hexish (bytes : list byte) : str := join (lit "-") (hex02 true <$> bytes).

Inductive PeltError : Type :=
| Base64Text
| SecretLength
| PublicLength
| PublicKey
| SignatureLength
| SignatureMismatch.

Section pelt.
Context `{Crypto} `{Base64}.

Definition fingerprint_of_bytes (public : list byte) : str :=
  FINGERPRINT_PREFIX ++ hexish (take 8 (array_bytes (blake3 public))).

(** [generate_identity]; [secret] is the key [OsRng] generated. *)
Definition generate_identity (secret : array 32) : PeltIdentity :=
  let public := sk_public secret in
  mkPeltIdentity (b64_encode (array_bytes public)) (b64_encode (array_bytes secret))
    (fingerprint_of_bytes (array_bytes public)).

Definition sign_message (identity : PeltIdentity) (message : list byte) : result PeltError str :=
  secret_bytes ← ok_or (b64_decode identity.(secret_key_b64)) Base64Text;
  secret ← ok_or (to_array 32 secret_bytes) SecretLength;
  Ok (b64_encode (array_bytes (sk_sign secret message))).

Definition verify_message (public_key_b64 : str) (message : list byte) (signature_b64 : str)
    : result PeltError () :=
  public_bytes ← ok_or (b64_decode public_key_b64) Base64Text;
  public ← ok_or (to_array 32 public_bytes) PublicLength;
  _ ← require (key_valid public) PublicKey;
  sig_bytes ← ok_or (b64_decode signature_b64) Base64Text;
  sig ← ok_or (to_array 64 sig_bytes) SignatureLength;
  require (verify_loose public message sig) SignatureMismatch.

Definition fingerprint_from_public_key_b64 (public_key_b64 : str) : result PeltError str :=
  public ← ok_or (b64_decode public_key_b64) Base64Text;
  Ok (fingerprint_of_bytes public).

End pelt.

(** ** [handshake::fingerprint] *)

Definition upper_digit (b : byte) : option Z :=
  if is_ascii_digit b then Some (byte_val b - 48)
  else if in_range 65 70 (byte_val b) then Some (byte_val b - 65 + 10)
  else None.

(** The loop over [suffix.as_bytes().chunks(3).enumerate()], from chunk [i];
    a chunk is three bytes, or what is left. *)
Fixpoint fingerprint_loop (i : nat) (suffix : str) : option (list byte) :=
  match suffix with
  | [] => Some []
  | [_] => None
  | [a; b] =>
      if (i =? 7)%nat then
        x ← upper_digit a; y ← upper_digit b; Some [byte_of (x * 16 + y)]
      else None
  | a :: b :: sep :: rest =>
      if (i =? 7)%nat then None
      else if decide (sep = x2d) then
        x ← upper_digit a; y ← upper_digit b;
        bs ← fingerprint_loop (S i) rest;
        Some (byte_of (x * 16 + y) :: bs)
      else None
  end.

(** Every failure is the one error [rejected()]. *)
Definition parse_fingerprint (text : str) : option (array 8) :=
  suffix ← strip_prefix FINGERPRINT_PREFIX text;
  if (length suffix =? 23)%nat then fingerprint_loop 0 suffix ≫= to_array 8 else None.

(** The text of a fingerprint. *)
Definition show_fingerprint (p : array 8) : str := FINGERPRINT_PREFIX ++ hexish (array_bytes p).

(** ** Lemmas *)

Lemma upper_digit_Some b x :
  upper_digit b = Some x → 0 ≤ x < 16 ∧ hex_digit true x = b ∧ is_upper_hex b = true.
Proof.
  intros Hx.
  assert (match upper_digit b with
    | Some x => (0 <=? x) && (x <? 16) && bool_decide (hex_digit true x = b) && is_upper_hex b
    | None => true end = true) as Hall.
  { revert b Hx. intros b _. revert b.
    apply (all_bytes (λ b, match upper_digit b with Some x => _ | None => true end)).
    vm_compute. reflexivity. }
  rewrite Hx in Hall. bool_simpl. lia || done.
Qed.

Lemma hex02_upper b :
  ∃ a c, hex02 true b = [a; c] ∧ upper_digit a = Some (byte_val b `div` 16) ∧
    upper_digit c = Some (byte_val b `mod` 16).
Proof.
  eexists _, _. split; [reflexivity|].
  assert (bool_decide (upper_digit (hex_digit true (byte_val b `div` 16)) = Some (byte_val b `div` 16))
    && bool_decide (upper_digit (hex_digit true (byte_val b `mod` 16)) = Some (byte_val b `mod` 16))
    = true) as Hall.
  { revert b. apply (all_bytes (λ b, bool_decide _ && bool_decide _)). vm_compute. reflexivity. }
  by bool_simpl.
Qed.

Lemma upper_pair a b x y :
  upper_digit a = Some x → upper_digit b = Some y → hex02 true (byte_of (x * 16 + y)) = [a; b].
Proof.
  intros (Hx & <- & _)%upper_digit_Some (Hy & <- & _)%upper_digit_Some.
  unfold hex02. rewrite byte_val_of, (Z.mod_small (x * 16 + y)) by lia.
  rewrite Z.div_add_l, Z.div_small, Z.add_0_r by lia.
  rewrite Z.add_comm, Z.mod_add, Z.mod_small by lia. done.
Qed.

Lemma hexish_cons b c bs : hexish (b :: c :: bs) = hex02 true b ++ lit "-" ++ hexish (c :: bs).
Proof. reflexivity. Qed.

Lemma fingerprint_loop_exact k : ∀ i s bs, (i + S k = 8)%nat →
  (length s = 3 * k + 2)%nat ∧ fingerprint_loop i s = Some bs ↔
  s = hexish bs ∧ length bs = S k.
Proof.
  induction k as [|k IH]; intros i s bs Hi.
  - assert (i = 7%nat) as -> by lia. split.
    + intros [Hl Hf]. destruct s as [|a [|b [|c s]]]; cbn in Hl; try lia. cbn in Hf.
      destruct (upper_digit a) as [x|] eqn:Ha; [|done].
      destruct (upper_digit b) as [y|] eqn:Hb; [|done]. injection Hf as <-.
      split; [|done]. unfold hexish. cbn [fmap list_fmap join]. symmetry. by apply upper_pair.
    + intros [-> Hl]. destruct bs as [|b [|]]; [done| |done].
      destruct (hex02_upper b) as (x & y & Hx & Hxd & Hyd). unfold hexish. cbn [fmap list_fmap join].
      rewrite Hx. split; [done|]. cbn. rewrite Hxd, Hyd. cbn. do 2 f_equal.
      rewrite <-(byte_of_val b) at 3. f_equal. pose proof (Z.div_mod (byte_val b) 16). lia.
  - specialize (IH (S i)). split.
    + intros [Hl Hf]. destruct s as [|a [|b [|c s]]]; cbn [length] in Hl; try lia.
      cbn [fingerprint_loop] in Hf. rewrite (proj2 (Nat.eqb_neq i 7)) in Hf by lia.
      case_decide as Hc; [|done]. subst c.
      destruct (upper_digit a) as [x|] eqn:Ha; [|done].
      destruct (upper_digit b) as [y|] eqn:Hb; [|done]. cbn in Hf.
      destruct (fingerprint_loop (S i) s) as [bs'|] eqn:Hs; [|done]. injection Hf as <-.
      destruct (proj1 (IH s bs' ltac:(lia))) as [-> Hl']; [split; [lia|done]|].
      split; [|cbn; lia]. destruct bs' as [|b' bs']; [done|]. rewrite hexish_cons.
      by rewrite (upper_pair a b x y).
    + intros [-> Hl]. destruct bs as [|b [|c bs]]; [done|done|]. rewrite hexish_cons.
      destruct (hex02_upper b) as (x & y & Hx & Hxd & Hyd). rewrite Hx.
      destruct (proj2 (IH (hexish (c :: bs)) (c :: bs) ltac:(lia))) as [Hl' Hf'].
      { split; [done|cbn in *; lia]. }
      split; [rewrite !length_app, Hl'; cbn; lia|].
      change (([x; y] : list byte) ++ lit "-" ++ hexish (c :: bs)) with (x :: y :: x2d :: hexish (c :: bs)).
      cbn [fingerprint_loop]. rewrite (proj2 (Nat.eqb_neq i 7)) by lia.
      rewrite decide_True by done. rewrite Hxd, Hyd. cbn [mbind option_bind]. rewrite Hf'. cbn.
      do 2 f_equal. rewrite <-(byte_of_val b) at 3. f_equal. pose proof (Z.div_mod (byte_val b) 16). lia.
Qed.

Lemma parse_fingerprint_exact text p :
  parse_fingerprint text = Some p ↔ text = show_fingerprint p.
Proof.
  unfold parse_fingerprint, show_fingerprint. split.
  - destruct (strip_prefix _ text) as [s|] eqn:Hs; [|done]. cbn.
    apply strip_prefix_Some in Hs as ->.
    destruct (Nat.eqb_spec (length s) 23) as [Hl|]; [|done].
    destruct (fingerprint_loop 0 s) as [bs|] eqn:Hf; [|done]. cbn. intros <-%to_array_Some.
    destruct (proj1 (fingerprint_loop_exact 7 0 s _ eq_refl) (conj Hl Hf)) as [Hx _]. by rewrite Hx at 1.
  - intros ->. rewrite (proj2 (strip_prefix_Some _ _ _) eq_refl). cbn [mbind option_bind].
    destruct (proj2 (fingerprint_loop_exact 7 0 (hexish (array_bytes p)) (array_bytes p) eq_refl))
      as [Hl Hf]; [by rewrite length_array|].
    rewrite Hl. change (3 * 7 + 2 =? 23)%nat with true. cbv iota. rewrite Hf. cbn.
    by rewrite to_array_bytes.
Qed.

Section fingerprints.
Context `{Crypto}.

Lemma fingerprint_of_array public : ∃ p, fingerprint_of_bytes public = show_fingerprint p.
Proof.
  unfold fingerprint_of_bytes, show_fingerprint.
  destruct (to_array 8 (take 8 (array_bytes (blake3 public)))) as [p|] eqn:Hp.
  - apply to_array_Some in Hp. exists p. by rewrite Hp.
  - apply to_array_None in Hp. destruct Hp. by rewrite length_take, length_array.
Qed.

Lemma fingerprint_of_bytes_spec public :
  is_Some (parse_fingerprint (fingerprint_of_bytes public)) ∧ length (fingerprint_of_bytes public) = 28%nat.
Proof.
  destruct (fingerprint_of_array public) as [p ->]. split.
  - exists p. by apply parse_fingerprint_exact.
  - unfold show_fingerprint. rewrite length_app.
    destruct (proj2 (fingerprint_loop_exact 7 0 (hexish (array_bytes p)) (array_bytes p) eq_refl))
      as [-> _]; [by rewrite length_array|]. done.
Qed.

End fingerprints.

End Pelt.
