(* ===== verification/StateValidation.v ===== *)
(** * Validation of persistent state ([werewolf-core/src/state_validation.rs],
      and the records of [pack.rs] and [fang_profile.rs])

    The checks a document passes before it is stored and after it is read.
    Each check is a function of the source; each theorem says which documents
    it accepts. *)

From stdpp Require Import gmap.
From S2P Require Export Pelt.

Local Open Scope Z_scope.

Module StateValidation.
Import Pelt.

Inductive TrustLevel : Type := Stranger | Known | Packmate | Alpha.

Record PeerRecord : Type := mkPeerRecord {
  pr_name : str;
  pr_fingerprint : str;
  pr_address : str;
  trust : TrustLevel;
  pr_public_key_b64 : option str
}.

Record FangProfile : Type := mkFangProfile {
  fp_name : str;
  fp_peer : str;
  local : str;
  remote : str;
  transport : str
}.

(** The one error. *)
Inductive StateError : Type := Invalid.

Definition fingerprint (text : str) : bool :=
  match strip_prefix FINGERPRINT_PREFIX text with
  | None => false
  | Some h =>
      let parts := split_on x2d h in
      (length parts =? 8)%nat
      && forallb (λ p, (length p =? 2)%nat && forallb is_upper_hex p) parts
  end.

Definition name (text : str) : bool :=
  negb (bool_decide (text = [])) && (length text <=? 128)%nat
  && bool_decide (trim text = text) && negb (existsb is_control (chars text)).

Definition endpoint (text : str) : bool :=
  if bool_decide (text = []) || (512 <? length text)%nat
     || existsb is_whitespace (chars text) || existsb is_control (chars text)
  then false
  else match rsplit_once x3a text with
       | None => false
       | Some (host, port) =>
           negb (bool_decide (host = []))
           && match parse_u16 port with Some p => negb (p =? 0) | None => false end
       end.

(** [set.insert(x)]: whether [x] was new, and the set with it. *)
Definition set_insert {A} `{Countable A} (x : A) (s : gset A) : bool * gset A :=
  (negb (bool_decide (x ∈ s)), {[ x ]} ∪ s).

Section validation.
Context `{Crypto} `{Base64}.

Definition key (text : str) : result StateError (array 32) :=
  bytes ← ok_or (b64_decode text) Invalid;
  if bool_decide (b64_encode bytes = text) then ok_or (to_array 32 bytes) Invalid else Err Invalid.

Definition identity (i : PeltIdentity) : result StateError () :=
  public ← key i.(public_key_b64);
  decoded ← ok_or (b64_decode i.(secret_key_b64)) Invalid;
  _ ← require (bool_decide (b64_encode decoded = i.(secret_key_b64))) Invalid;
  secret ← ok_or (to_array 32 decoded) Invalid;
  if negb (bool_decide (sk_public secret = public)) || negb (fingerprint i.(Pelt.fingerprint))
  then Err Invalid
  else
    fp ← map_err (λ _, Invalid) (fingerprint_from_public_key_b64 i.(public_key_b64));
    require (bool_decide (fp = i.(Pelt.fingerprint))) Invalid.

(** The sets [pack] builds up. *)
Record Seen : Type := mkSeen {
  names : gset str;
  fingerprints : gset str;
  seen_keys : gset (array 32)
}.

Definition peer_address (address : str) : option str :=
  match strip_prefix (lit "tcp://") address with
  | Some a => Some a
  | None => strip_prefix (lit "quic://") address
  end.

(** One turn of the loop of [pack]. *)
Definition pack_peer (seen : Seen) (p : PeerRecord) : result StateError Seen :=
  address ← ok_or (peer_address p.(pr_address)) Invalid;
  let '(new_name, names') := set_insert p.(pr_name) seen.(names) in
  let '(new_fp, fps') := set_insert p.(pr_fingerprint) seen.(fingerprints) in
  if negb (name p.(pr_name)) || negb (fingerprint p.(pr_fingerprint)) || negb (endpoint address)
     || negb new_name || negb new_fp
  then Err Invalid
  else match p.(pr_public_key_b64) with
       | None => Ok (mkSeen names' fps' seen.(seen_keys))
       | Some public =>
           bytes ← key public;
           let '(new_key, keys') := set_insert bytes seen.(seen_keys) in
           if negb (key_valid bytes) || negb new_key then Err Invalid
           else
             fp ← map_err (λ _, Invalid) (fingerprint_from_public_key_b64 public);
             if bool_decide (fp = p.(pr_fingerprint)) then Ok (mkSeen names' fps' keys')
             else Err Invalid
       end.

Definition pack (peers : list PeerRecord) : result StateError () :=
  if (1024 <? length peers)%nat then Err Invalid
  else _ ← try_fold pack_peer (mkSeen ∅ ∅ ∅) peers; Ok ().

End validation.

Definition is_transport (t : str) : bool :=
  bool_decide (t = lit "quic") || bool_decide (t = lit "tcp") || bool_decide (t = lit "tcp-plain").

Definition profile_entry (seen : gset str) (p : FangProfile) : result StateError (gset str) :=
  let '(new_name, names') := set_insert p.(fp_name) seen in
  if negb (name p.(fp_name)) || negb new_name || negb (name p.(fp_peer))
     || negb (bool_decide (is_Some (parse_socket_addr p.(local))))
     || negb (endpoint p.(remote)) || negb (is_transport p.(transport))
  then Err Invalid else Ok names'.

Definition profile_document (ps : list FangProfile) : result StateError () :=
  if (512 <? length ps)%nat then Err Invalid
  else _ ← try_fold profile_entry ∅ ps; Ok ().

Definition profiles (ps : list FangProfile) (peers : list PeerRecord) : result StateError () :=
  _ ← profile_document ps;
  if existsb (λ p, negb (existsb (λ peer, bool_decide (peer.(pr_name) = p.(fp_peer))) peers)) ps
  then Err Invalid else Ok ().

Definition active_entry (ps : list FangProfile) (seen : gset str) (n : str)
    : result StateError (gset str) :=
  let '(new_name, names') := set_insert n seen in
  if negb new_name || negb (existsb (λ p, bool_decide (p.(fp_name) = n)) ps)
  then Err Invalid else Ok names'.

Definition active (act : list str) (ps : list FangProfile) : result StateError () :=
  if (512 <? length act)%nat then Err Invalid
  else _ ← try_fold (active_entry ps) ∅ act; Ok ().

End StateValidation.

Module StateValidationSpec.
Import Pelt StateValidation.

(** ** Fingerprints *)

Lemma upper_hex_digit b : is_upper_hex b = true → ∃ x, upper_digit b = Some x.
Proof.
  unfold is_upper_hex, upper_digit. destruct (is_ascii_digit b); [by eexists|]. cbn.
  destruct (in_range 65 70 (byte_val b)); [by eexists|done].
Qed.

Lemma upper_hex02 b : forallb is_upper_hex (hex02 true b) = true.
Proof.
  destruct (hex02_upper b) as (a & c & -> & Ha%upper_digit_Some & Hc%upper_digit_Some). cbn.
  destruct Ha as (_ & _ & ->), Hc as (_ & _ & ->). done.
Qed.

Lemma hex02_no_dash b : x2d ∉ hex02 true b.
Proof.
  intros Hin. pose proof (upper_hex02 b) as Hb. rewrite forallb_forall in Hb.
  apply list_elem_of_In, Hb in Hin. done.
Qed.

Lemma fingerprint_parts parts :
  forallb (λ p, (length p =? 2)%nat && forallb is_upper_hex p) parts = true ↔
  ∃ bs, parts = hex02 true <$> bs.
Proof.
  induction parts as [|p parts IH]; [split; [by exists []|done]|]. cbn [forallb].
  rewrite !andb_true_iff, IH. split.
  - intros [[Hl Hp] (bs & ->)]. destruct p as [|a [|b [|]]]; try done.
    cbn in Hp. rewrite andb_true_r in Hp. apply andb_true_iff in Hp as [Ha Hb].
    apply upper_hex_digit in Ha as [x Hx], Hb as [y Hy].
    exists (byte_of (x * 16 + y) :: bs). cbn [fmap list_fmap]. by rewrite (upper_pair a b x y).
  - intros ([|b bs] & Heq); [done|]. injection Heq as -> ->.
    split; [split; [done|apply upper_hex02]|by exists bs].
Qed.

Lemma fingerprint_exact text :
  StateValidation.fingerprint text = true ↔ ∃ p, text = show_fingerprint p.
Proof.
  unfold StateValidation.fingerprint, show_fingerprint. split.
  - destruct (strip_prefix _ text) as [s|] eqn:Hs; [|done].
    apply strip_prefix_Some in Hs as ->. rewrite andb_true_iff.
    intros [Hl%Nat.eqb_eq (bs & Hbs)%fingerprint_parts].
    rewrite Hbs, length_fmap in Hl.
    destruct (to_array 8 bs) as [p|] eqn:Hp; [|by apply to_array_None in Hp].
    apply to_array_Some in Hp. exists p. f_equal. rewrite Hp. unfold hexish.
    by rewrite <-Hbs, (join_split x2d).
  - intros [p ->]. rewrite (proj2 (strip_prefix_Some _ _ _) eq_refl). unfold hexish.
    rewrite (split_join x2d).
    + rewrite length_fmap, length_array. apply fingerprint_parts. by eexists.
    + intros Hnil%(f_equal length). by rewrite length_fmap, length_array in Hnil.
    + apply Forall_fmap, Forall_true. intros b. apply hex02_no_dash.
Qed.

(** The two fingerprint parsers agree, and read exactly what is printed.
    The validator of stored documents accepts a text if and only if the
    daemon's handshake parser returns eight bytes for it, and that is the
    case exactly for [wwp1:] followed by those bytes in upper-case
    hexadecimal pairs joined by dashes. *)
Theorem fingerprint_parsers_agree text :
  (StateValidation.fingerprint text = true ↔ is_Some (parse_fingerprint text)) ∧
  ∀ p, parse_fingerprint text = Some p ↔ text = show_fingerprint p.
Proof.
  split; [|apply parse_fingerprint_exact]. rewrite fingerprint_exact. unfold is_Some.
  by setoid_rewrite parse_fingerprint_exact.
Qed.

(** ** Loops that refuse a repeated key *)

Lemma try_fold_unique {A K E} `{Countable K} (f : gset K → A → result E (gset K)) (ok : A → Prop)
    (k : A → K) :
  (∀ s a s', f s a = Ok s' ↔ ok a ∧ k a ∉ s ∧ s' = {[ k a ]} ∪ s) →
  ∀ l s, (∃ s', try_fold f s l = Ok s') ↔
    Forall ok l ∧ NoDup (k <$> l) ∧ ∀ a, a ∈ l → k a ∉ s.
Proof.
  intros Hf l. induction l as [|a l IH]; intros s; cbn [try_fold].
  { split; [intros _|by eexists]. split_and!; [constructor|constructor|by intros ? ?%not_elem_of_nil]. }
  rewrite fmap_cons, NoDup_cons, Forall_cons. split.
  - intros (s' & (s1 & (Ha & Hs & ->)%Hf & Hl)%bind_Ok).
    destruct (proj1 (IH ({[k a]} ∪ s)) (ex_intro _ s' Hl)) as (Hok & Hnd & Hall).
    split_and!; [done|done| |done|].
    + intros (b & Hb & Hin)%list_elem_of_fmap. apply (Hall b Hin). rewrite Hb. set_solver.
    + intros b [->|Hb]%elem_of_cons; [done|]. specialize (Hall b Hb). set_solver.
  - intros ((Ha & Hok) & (Hna & Hnd) & Hall).
    destruct (proj2 (IH ({[k a]} ∪ s))) as [s' Hs'].
    { split_and!; [done|done|]. intros b Hb. apply not_elem_of_union. split.
      - intros Heq%elem_of_singleton. apply Hna. rewrite <-Heq. by apply list_elem_of_fmap_2.
      - apply Hall. by right. }
    exists s'. rewrite (proj2 (Hf s a ({[k a]} ∪ s))); [done|].
    split_and!; [done|apply Hall; by left|done].
Qed.

Lemma is_ok_then {E A} (m : result E A) : (_ ← m; Ok ()) = Ok () ↔ ∃ a, m = Ok a.
Proof. rewrite bind_Ok. naive_solver. Qed.

(** What [profile_document] asks of a profile. *)
Definition profile_ok (p : FangProfile) : Prop :=
  name p.(fp_name) = true ∧ name p.(fp_peer) = true ∧ is_Some (parse_socket_addr p.(local)) ∧
  endpoint p.(remote) = true ∧ is_transport p.(transport) = true.

Lemma profile_entry_Ok seen p seen' :
  profile_entry seen p = Ok seen' ↔
  profile_ok p ∧ p.(fp_name) ∉ seen ∧ seen' = {[ p.(fp_name) ]} ∪ seen.
Proof.
  unfold profile_entry, profile_ok. cbn [set_insert]. split.
  - destruct (_ || _) eqn:Hg; [done|]. bool_simpl. intros [= <-]. split_and!; done.
  - intros ((H1 & H2 & H3 & H4 & H5) & Hn & ->). rewrite H1, H2, H4, H5.
    rewrite (bool_decide_eq_true_2 _ H3), (bool_decide_eq_false_2 _ Hn). done.
Qed.

(** The stored profiles and the active list are accepted exactly when
    they are well formed: at most 512 profiles with distinct names, each
    with a valid name and peer, a literal local socket address, a valid
    remote endpoint and a known transport; [profiles] asks in addition that
    every profile's peer is a Pack member; [active] that the names are
    distinct, at most 512, and each names a stored profile. *)
Lemma profiles_exact ps peers act :
  (profile_document ps = Ok () ↔
     (length ps ≤ 512)%nat ∧ Forall profile_ok ps ∧ NoDup (fp_name <$> ps)) ∧
  (profiles ps peers = Ok () ↔
     profile_document ps = Ok () ∧ ∀ p, p ∈ ps → p.(fp_peer) ∈ pr_name <$> peers) ∧
  (active act ps = Ok () ↔
     (length act ≤ 512)%nat ∧ NoDup act ∧ ∀ n, n ∈ act → n ∈ fp_name <$> ps).
Proof.
  split_and!.
  - unfold profile_document. destruct (512 <? length ps)%nat eqn:Hl; bool_simpl; [split; [done|lia]|].
    rewrite is_ok_then, (try_fold_unique _ _ _ profile_entry_Ok). set_solver.
  - unfold profiles. destruct (profile_document ps) as [[]|]; cbn; [|naive_solver].
    destruct (existsb _ ps) eqn:He.
    + split; [done|]. intros [_ Hall]. apply existsb_exists in He as (p & Hp & Hn).
      apply list_elem_of_In in Hp. apply Hall, list_elem_of_fmap in Hp as (peer & Hname & Hpeer).
      apply negb_true_iff, not_true_iff_false in Hn. destruct Hn. apply existsb_exists.
      exists peer. split; [by apply list_elem_of_In|by apply bool_decide_eq_true_2].
    + split; [|done]. intros _. split; [done|]. intros p Hp.
      apply not_true_iff_false in He. apply dec_stable. intros Hno. apply He, existsb_exists.
      exists p. split; [by apply list_elem_of_In|]. apply negb_true_iff, not_true_iff_false.
      intros (peer & Hpeer & Heq%bool_decide_eq_true)%existsb_exists. apply Hno.
      rewrite <-Heq. apply list_elem_of_fmap_2. by apply list_elem_of_In.
  - unfold active. destruct (512 <? length act)%nat eqn:Hl; bool_simpl; [split; [done|lia]|].
    rewrite is_ok_then, (try_fold_unique _ (λ n, n ∈ fp_name <$> ps) id).
    + rewrite list_fmap_id, Forall_forall. set_solver.
    + intros s n s'. unfold active_entry. cbn [set_insert]. split.
      * destruct (_ || _) eqn:Hg; [done|]. bool_simpl. intros [= <-]. split_and!; [|done|done].
        match goal with Hx : existsb _ _ = true |- _ =>
          apply existsb_exists in Hx as (p & Hp & Heq%bool_decide_eq_true) end.
        rewrite <-Heq. apply list_elem_of_fmap_2. by apply list_elem_of_In.
      * intros ((p & -> & Hp)%list_elem_of_fmap & Hn & ->).
        rewrite (bool_decide_eq_false_2 _ Hn). cbn.
        assert (existsb (λ q, bool_decide (fp_name q = fp_name p)) ps = true) as ->; [|done].
        apply existsb_exists. exists p. split; [by apply list_elem_of_In|by apply bool_decide_eq_true_2].
Qed.

(** ** Identities *)

Section identity.
Context `{Crypto} `{Base64Laws}.

Lemma key_exact text k : key text = Ok k ↔ text = b64_encode (array_bytes k).
Proof.
  unfold key. split.
  - intros (bytes & Hd%ok_or_Ok & Hk)%bind_Ok. destruct (bool_decide _) eqn:He; [|done].
    bool_simpl. apply ok_or_Ok, to_array_Some in Hk. by rewrite Hk.
  - intros ->. rewrite b64_decode_encode. cbn. rewrite bool_decide_eq_true_2 by done.
    by rewrite to_array_bytes.
Qed.

(** A stored identity is valid exactly when it is one the node could
    have generated: [identity] accepts a document if and only if it is
    [generate_identity] of some secret, so the public key belongs to the
    secret, the fingerprint to the public key, and each field has one
    spelling. *)
Theorem identity_exact i : identity i = Ok () ↔ ∃ secret, i = generate_identity secret.
Proof.
  unfold identity. split.
  - intros Hi. ww_inv. match goal with Hk : key _ = Ok _ |- _ => apply key_exact in Hk as Hpub end.
    bool_simpl. destruct i as [pub sec fp]. cbn [public_key_b64 secret_key_b64 Pelt.fingerprint] in *.
    repeat match goal with
    | Ht : to_array _ _ = Some _ |- _ => apply to_array_Some in Ht
    end. subst. eexists. unfold generate_identity. f_equal.
    match goal with Hf : fingerprint_from_public_key_b64 _ = Ok _ |- _ =>
      unfold fingerprint_from_public_key_b64 in Hf; rewrite b64_decode_encode in Hf;
      cbn [ok_or mbind result_bind] in Hf; injection Hf as <- end. done.
  - intros [secret ->]. unfold generate_identity. cbn [public_key_b64 secret_key_b64 Pelt.fingerprint].
    rewrite (proj2 (key_exact _ (sk_public secret)) eq_refl). cbn [mbind result_bind].
    rewrite b64_decode_encode. cbn. rewrite bool_decide_eq_true_2 by done. cbn.
    rewrite to_array_bytes. cbn. rewrite bool_decide_eq_true_2 by done. cbn [negb orb].
    destruct (fingerprint_of_array (array_bytes (sk_public secret))) as [p Hp].
    rewrite (proj2 (fingerprint_exact _)) by eauto. cbn [negb].
    unfold fingerprint_from_public_key_b64. rewrite b64_decode_encode. cbn.
    by rewrite bool_decide_eq_true_2.
Qed.

(** What a generated identity signs, its public key verifies. *)
Theorem sign_verify_message `{!CryptoLaws} secret m :
  key_weak (sk_public secret) = false →
  ∃ sig, sign_message (generate_identity secret) m = Ok sig ∧
    verify_message (generate_identity secret).(public_key_b64) m sig = Ok ().
Proof.
  intros Hw. exists (b64_encode (array_bytes (sk_sign secret m))).
  unfold sign_message, verify_message, generate_identity. cbn [public_key_b64 secret_key_b64].
  rewrite !b64_decode_encode. cbn. rewrite !to_array_bytes. cbn. rewrite sk_public_valid.
  split; [done|]. cbn. by rewrite strict_loose by (by apply sign_verifies).
Qed.

(** ** The Pack *)

(** What [pack] asks of one record. *)
Definition peer_ok (p : PeerRecord) : Prop :=
  name p.(pr_name) = true ∧ StateValidation.fingerprint p.(pr_fingerprint) = true ∧
  (∃ address, peer_address p.(pr_address) = Some address ∧ endpoint address = true) ∧
  ∀ public, p.(pr_public_key_b64) = Some public →
    ∃ k, public = b64_encode (array_bytes k) ∧ key_valid k = true ∧
      p.(pr_fingerprint) = fingerprint_of_bytes (array_bytes k).

(** Each key seen has its fingerprint among those seen. *)
Definition seen_bound (seen : Seen) : Prop :=
  ∀ k, k ∈ seen.(seen_keys) → fingerprint_of_bytes (array_bytes k) ∈ seen.(fingerprints).

Lemma pack_peer_Ok seen p :
  seen_bound seen →
  (∃ seen', pack_peer seen p = Ok seen') ↔
  peer_ok p ∧ p.(pr_name) ∉ seen.(names) ∧ p.(pr_fingerprint) ∉ seen.(fingerprints).
Proof.
  intros Hb. unfold pack_peer, peer_ok. cbn [set_insert]. split.
  - intros (seen' & (address & Ha%ok_or_Ok & Hr)%bind_Ok).
    destruct (_ || _) eqn:Hg; [done|]. bool_simpl. split_and!; try done; [by exists address|].
    intros public Hp. rewrite Hp in Hr. apply bind_Ok in Hr as (k & Hk%key_exact & Hr).
    destruct (_ || _) eqn:Hg2 in Hr; [done|]. bool_simpl.
    exists k. subst public. unfold fingerprint_from_public_key_b64 in Hr.
    rewrite b64_decode_encode in Hr. cbn [ok_or mbind result_bind map_err] in Hr.
    destruct (bool_decide _) eqn:Hfp in Hr; [|done]. bool_simpl. done.
  - intros ((Hn & Hf & (address & Ha & He) & Hk) & Hnn & Hnf). rewrite Ha. cbn [ok_or mbind result_bind].
    rewrite Hn, Hf, He, (bool_decide_eq_false_2 _ Hnn), (bool_decide_eq_false_2 _ Hnf). cbn [negb orb].
    destruct (pr_public_key_b64 p) as [public|]; [|by eexists].
    destruct (Hk public eq_refl) as (k & -> & Hv & Hfp).
    rewrite (proj2 (key_exact _ k) eq_refl). cbn [mbind result_bind].
    rewrite Hv, bool_decide_eq_false_2 by (intros Hin%Hb; congruence). cbn [negb orb].
    unfold fingerprint_from_public_key_b64. rewrite b64_decode_encode.
    cbn [ok_or mbind result_bind map_err]. rewrite bool_decide_eq_true_2 by done. by eexists.
Qed.

Lemma pack_peer_seen seen p seen' :
  seen_bound seen → pack_peer seen p = Ok seen' →
  seen_bound seen' ∧ seen'.(names) = {[ p.(pr_name) ]} ∪ seen.(names) ∧
  seen'.(fingerprints) = {[ p.(pr_fingerprint) ]} ∪ seen.(fingerprints).
Proof.
  intros Hb Hr. unfold pack_peer in Hr. cbn [set_insert] in Hr.
  apply bind_Ok in Hr as (address & _ & Hr). destruct (_ || _); [done|].
  destruct (pr_public_key_b64 p) as [public|].
  - apply bind_Ok in Hr as (k & Hk%key_exact & Hr). destruct (_ || _); [done|]. subst public.
    unfold fingerprint_from_public_key_b64 in Hr. rewrite b64_decode_encode in Hr.
    cbn [ok_or mbind result_bind map_err] in Hr. destruct (bool_decide _) eqn:Hfp; [|done].
    bool_simpl. injection Hr as <-. split_and!; [|done|done].
    intros k' [->%elem_of_singleton|Hk']%elem_of_union; cbn [fingerprints]; [set_solver|].
    apply elem_of_union_r. by apply Hb.
  - injection Hr as <-. split_and!; [|done|done]. intros k Hk. cbn [fingerprints].
    apply elem_of_union_r. by apply Hb.
Qed.

Lemma pack_fold_Ok peers : ∀ seen, seen_bound seen →
  (∃ seen', try_fold pack_peer seen peers = Ok seen') ↔
  Forall peer_ok peers ∧ NoDup (pr_name <$> peers) ∧ NoDup (pr_fingerprint <$> peers) ∧
  ∀ p, p ∈ peers → p.(pr_name) ∉ seen.(names) ∧ p.(pr_fingerprint) ∉ seen.(fingerprints).
Proof.
  induction peers as [|p peers IH]; intros seen Hb; cbn [try_fold].
  { split; [intros _|by eexists]. 
    split_and!; [by apply Forall_nil|by apply NoDup_nil|by apply NoDup_nil|by intros ? ?%not_elem_of_nil]. }
  rewrite !fmap_cons, !NoDup_cons, Forall_cons. split.
  - intros (seen' & (seen1 & Hp & Hr)%bind_Ok).
    destruct (proj1 (pack_peer_Ok seen p Hb) (ex_intro _ _ Hp)) as (Hok & Hn & Hf).
    destruct (pack_peer_seen _ _ _ Hb Hp) as (Hb1 & Hn1 & Hf1).
    destruct (proj1 (IH seen1 Hb1) (ex_intro _ _ Hr)) as (Hall & Hnd & Hfd & Hfresh).
    rewrite Hn1, Hf1 in Hfresh. split_and!; try done.
    + intros (q & Hq & Hin)%list_elem_of_fmap. apply Hfresh in Hin as [Hin _]. set_solver.
    + intros (q & Hq & Hin)%list_elem_of_fmap. apply Hfresh in Hin as [_ Hin]. set_solver.
    + intros q [->|Hq]%elem_of_cons; [done|]. specialize (Hfresh q Hq). set_solver.
  - intros ((Hok & Hall) & (Hn & Hnd) & (Hf & Hfd) & Hfresh).
    destruct (proj2 (pack_peer_Ok seen p Hb)) as [seen1 Hp].
    { split; [done|]. apply Hfresh. by left. }
    destruct (pack_peer_seen _ _ _ Hb Hp) as (Hb1 & Hn1 & Hf1).
    destruct (proj2 (IH seen1 Hb1)) as [seen' Hr].
    { split_and!; try done. intros q Hq. rewrite Hn1, Hf1. destruct (Hfresh q) as [? ?]; [by right|].
      split; apply not_elem_of_union; (split; [|done]); intros Heq%elem_of_singleton;
        [apply Hn|apply Hf]; rewrite <-Heq; by apply list_elem_of_fmap_2. }
    exists seen'. by rewrite Hp.
Qed.

Lemma pack_iff peers :
  pack peers = Ok () ↔
  (length peers ≤ 1024)%nat ∧ Forall peer_ok peers ∧
  NoDup (pr_name <$> peers) ∧ NoDup (pr_fingerprint <$> peers).
Proof.
  unfold pack. destruct (1024 <? length peers)%nat eqn:Hl; bool_simpl; [split; [done|lia]|].
  rewrite is_ok_then, pack_fold_Ok by (by intros k Hk%not_elem_of_empty).
  cbn [names fingerprints]. set_solver.
Qed.

(** A Pack document is accepted exactly when it has at most 1024
    records, each well formed (name, fingerprint, a [tcp://] or [quic://]
    endpoint; a public key, if present, valid, in its one base64 spelling,
    and with that fingerprint), with distinct names and distinct
    fingerprints. Distinct keys follow: a key determines its fingerprint. *)
Theorem pack_exact peers :
  pack peers = Ok () ↔
  (length peers ≤ 1024)%nat ∧ Forall peer_ok peers ∧
  NoDup (pr_name <$> peers) ∧ NoDup (pr_fingerprint <$> peers).
Proof. apply pack_iff. Qed.

End identity.
End StateValidationSpec.

(** ** Concrete documents *)

Module StateValidationDemo.
Import Pelt StateValidation StateValidationSpec Toy.

Definition demo_identity : PeltIdentity := generate_identity (key_of 7).

Definition demo_peer : PeerRecord :=
  mkPeerRecord (lit "wolf") demo_identity.(Pelt.fingerprint) (lit "quic://198.51.100.7:4433") Packmate
    (Some demo_identity.(public_key_b64)).

Lemma identity_exact_witness : identity demo_identity = Ok ().
Proof. apply (identity_exact demo_identity). exists (key_of 7). reflexivity. Defined.

Lemma sign_verify_message_witness :
  ∃ sig, sign_message demo_identity (lit "howl") = Ok sig ∧
    verify_message demo_identity.(public_key_b64) (lit "howl") sig = Ok ().
Proof. apply (sign_verify_message (key_of 7) (lit "howl")). vm_compute. reflexivity. Defined.

Lemma pack_exact_witness : Forall peer_ok [demo_peer].
Proof. apply (pack_exact [demo_peer]). vm_compute. reflexivity. Defined.

End StateValidationDemo.
