(* ===== verification/Records.v ===== *)
(** * Records nodes exchange and store ([werewolf-core/src/contact.rs],
      [published.rs], [route.rs], [service.rs])

    Module [Contact]: signed contact records, their wire format, signing and
    verification. Module [Published]: published services and their wire
    format. Module [Route]: one-relay routes. Module [Service]: local service
    definitions. *)

From S2P Require Export Pelt.
From S2P Require Import Overlay.

Local Open Scope Z_scope.

(** [items.iter().enumerate()] with a per-item check and a test against the
    items before it. *)
Fixpoint check_each {A E} (check : A → result E ()) (same : A → A → bool) (dup : E)
    (before items : list A) : result E () :=
  match items with
  | [] => Ok ()
  | x :: items' =>
      _ ← check x;
      if existsb (λ y, same y x) before then Err dup
      else check_each check same dup (before ++ [x]) items'
  end.

(** The Stage23 name rules without control characters, shared by published
    services and routes. *)
Definition bad_name (limit : nat) (name : str) : bool :=
  bool_decide (name = []) || (limit <? length name)%nat || negb (bool_decide (name = trim name))
  || existsb is_control (chars name).

Module Contact.
Import Pelt.

Definition DOMAIN : list byte := lit "werewolf/contact/v1" ++ [x00].
Definition MAX_ADDRESSES : nat := 4.
Definition MAX_ADDRESS_LEN : nat := 256.
Definition MAX_LIFETIME_SECS : Z := 7 * 24 * 60 * 60.
Definition MAX_ENCODED_LEN : nat := 32 + 1 + MAX_ADDRESSES * (2 + MAX_ADDRESS_LEN) + 8 + 8 + 64.

Record ContactRecord : Type := mkContact {
  public_key : Key;
  addresses : list str;
  seq : Z;
  expires_at : Z;
  signature : Sig
}.

#[export] Instance contact_eq_dec : EqDecision ContactRecord.
Proof. solve_decision. Defined.

Inductive ContactError : Type :=
| AddressCount | Address | Lifetime | PublicKey | Signature | Malformed | Signing.

Definition address_encode (a : str) : list byte := be_bytes 2 (Z.of_nat (length a)) ++ a.

Definition body (r : ContactRecord) : list byte :=
  array_bytes r.(public_key) ++ [byte_of (Z.of_nat (length r.(addresses)))]
  ++ mjoin (address_encode <$> r.(addresses))
  ++ be_bytes 8 r.(seq) ++ be_bytes 8 r.(expires_at).

Definition signed_bytes (r : ContactRecord) : list byte := DOMAIN ++ body r.

Definition encode (r : ContactRecord) : list byte := body r ++ array_bytes r.(signature).

Definition address_parser : parser ContactError str :=
  len ← p_be Malformed 2;
  _ ← p_require (Z.to_nat len <=? MAX_ADDRESS_LEN)%nat Address;
  text ← p_take Malformed (Z.to_nat len);
  _ ← p_require (utf8_valid text) Address;
  mret text.

Definition contact_parser : parser ContactError ContactRecord :=
  public_key ← p_array Malformed 32;
  count ← p_u8 Malformed;
  _ ← p_require (negb ((byte_nat count =? 0)%nat || (MAX_ADDRESSES <? byte_nat count)%nat)) AddressCount;
  addresses ← p_repeat (byte_nat count) address_parser;
  seq ← p_be Malformed 8;
  expires_at ← p_be Malformed 8;
  signature ← p_array Malformed 64;
  mret (mkContact public_key addresses seq expires_at signature).

Definition decode (bytes : list byte) : result ContactError ContactRecord :=
  if (MAX_ENCODED_LEN <? length bytes)%nat then Err Malformed
  else p_run Malformed contact_parser bytes.

Definition valid_address (address : str) : bool :=
  if (MAX_ADDRESS_LEN <? length address)%nat then false
  else match match strip_prefix (lit "quic://") address with
             | Some e => Some e
             | None => strip_prefix (lit "tcp://") address
             end with
       | None => false
       | Some endpoint =>
           match parse_socket_addr endpoint with
           | Some socket => negb (socket.(sa_port) =? 0) && negb (is_unspecified socket.(sa_ip))
           | None => false
           end
       end.

Definition check_addresses (l : list str) : result ContactError () :=
  if bool_decide (l = []) || (MAX_ADDRESSES <? length l)%nat then Err AddressCount
  else if negb (forallb valid_address l) then Err Address
  else Ok ().

(** The subtraction is guarded, so it does not wrap. *)
Definition check_fields (r : ContactRecord) (now : Z) : result ContactError () :=
  _ ← check_addresses r.(addresses);
  if (r.(expires_at) <=? now) || (MAX_LIFETIME_SECS <? r.(expires_at) - now) then Err Lifetime
  else Ok ().

Definition supersedes (r older : ContactRecord) : bool :=
  bool_decide (r.(public_key) = older.(public_key)) && (older.(seq) <? r.(seq)).

Section contact.
(** [Sha256::digest]. *)
Context `{Crypto} `{Base64} (sha256 : list byte → array 32).

Definition sign (identity : PeltIdentity) (addresses : list str) (seq expires_at now : Z)
    : result ContactError ContactRecord :=
  public_key ← ok_or (b64_decode identity.(public_key_b64) ≫= to_array 32) PublicKey;
  let record := mkContact public_key addresses seq expires_at (array_fill 64 x00) in
  _ ← check_fields record now;
  text ← map_err (λ _, Signing) (sign_message identity (signed_bytes record));
  sig ← ok_or (b64_decode text ≫= to_array 64) Signing;
  Ok (mkContact public_key addresses seq expires_at sig).

Definition node_id (r : ContactRecord) : array 32 :=
  Overlay.Kademlia.from_public_key sha256 r.(public_key).

Definition verify (r : ContactRecord) (now : Z) : result ContactError (array 32) :=
  _ ← check_fields r now;
  _ ← require (key_valid r.(public_key)) PublicKey;
  _ ← require (verify_strict r.(public_key) (signed_bytes r) r.(signature)) Signature;
  Ok (node_id r).

End contact.
End Contact.

Module Service.

Inductive ServiceKind : Type := Tcp | Http | Https | Ssh.
#[export] Instance service_kind_eq_dec : EqDecision ServiceKind.
Proof. solve_decision. Defined.

Definition MAX_PROVIDERS : nat := 4.

Record ServiceProvider : Type := mkProvider {
  sp_peer : str;
  sp_target : str
}.

Record ServiceDefinition : Type := mkService {
  sd_name : str;
  sd_peer : str;
  sd_target : str;
  sd_kind : ServiceKind;
  fallbacks : list ServiceProvider
}.

Definition providers (s : ServiceDefinition) : list (str * str) :=
  (s.(sd_peer), s.(sd_target)) :: ((λ p, (p.(sp_peer), p.(sp_target))) <$> s.(fallbacks)).

(** The [io::Error]s, by message. *)
Inductive ServiceError : Type :=
| TooManyProviders | ProviderFields | ProviderTwice
| FieldsEmpty | FieldsCanonical | FieldLimit | DuplicateName.

Definition blank (t : str) : bool := bool_decide (trim t = []).
Definition untrimmed (t : str) : bool := negb (bool_decide (t = trim t)).

(** [items.iter().enumerate().any(|(i, x)| items[..i].contains(x))]. *)
Fixpoint any_repeat {A} `{EqDecision A} (before items : list A) : bool :=
  match items with
  | [] => false
  | x :: items' => bool_decide (x ∈ before) || any_repeat (before ++ [x]) items'
  end.

Definition bad_provider (p : ServiceProvider) : bool :=
  blank p.(sp_peer) || blank p.(sp_target) || untrimmed p.(sp_peer) || untrimmed p.(sp_target)
  || (128 <? length p.(sp_peer))%nat || (512 <? length p.(sp_target))%nat.

Definition validate_providers (s : ServiceDefinition) : result ServiceError () :=
  if (MAX_PROVIDERS <? length s.(fallbacks) + 1)%nat then Err TooManyProviders
  else if existsb bad_provider s.(fallbacks) then Err ProviderFields
  else if any_repeat [] (fst <$> providers s) then Err ProviderTwice
  else Ok ().

Definition validate_service (s : ServiceDefinition) : result ServiceError () :=
  _ ← validate_providers s;
  if blank s.(sd_name) || blank s.(sd_peer) || blank s.(sd_target) then Err FieldsEmpty
  else if untrimmed s.(sd_name) || untrimmed s.(sd_peer) || untrimmed s.(sd_target)
  then Err FieldsCanonical
  else if (128 <? length s.(sd_name))%nat || (128 <? length s.(sd_peer))%nat
          || (512 <? length s.(sd_target))%nat
  then Err FieldLimit
  else Ok ().

Definition validate_services (ss : list ServiceDefinition) : result ServiceError () :=
  _ ← try_map validate_service ss;
  if any_repeat [] (sd_name <$> ss) then Err DuplicateName else Ok ().

End Service.

Module Published.
Import Service.

Definition MAX_PUBLISHED : nat := 32.
Definition MAX_NAME_LEN : nat := 128.
Definition MAX_TARGET_LEN : nat := 47.
Definition MAX_ENCODED_LEN : nat := 1 + 2 + MAX_NAME_LEN + 2 + MAX_TARGET_LEN.

Record PublishedService : Type := mkPublished {
  ps_name : str;
  kind : ServiceKind;
  target : str
}.

Inductive PublishedError : Type := Name | Target | Duplicate | TooMany | Malformed.

Definition kind_code (k : ServiceKind) : byte :=
  match k with Tcp => x00 | Http => x01 | Https => x02 | Ssh => x03 end.

Definition kind_from_code (code : byte) : option ServiceKind :=
  if decide (code = x00) then Some Tcp
  else if decide (code = x01) then Some Http
  else if decide (code = x02) then Some Https
  else if decide (code = x03) then Some Ssh
  else None.

Definition check_name (name : str) : result PublishedError () :=
  if bad_name MAX_NAME_LEN name then Err Name else Ok ().

Definition check_target (t : str) : result PublishedError () :=
  socket ← ok_or (parse_socket_addr t) Target;
  if (socket.(sa_port) =? 0) || is_unspecified socket.(sa_ip)
     || negb (bool_decide (show_socket_addr socket = t))
  then Err Target else Ok ().

Definition check (s : PublishedService) : result PublishedError () :=
  _ ← check_name s.(ps_name);
  check_target s.(target).

Definition field_encode (f : str) : list byte := be_bytes 2 (Z.of_nat (length f)) ++ f.

Definition encode (s : PublishedService) : list byte :=
  [kind_code s.(kind)] ++ field_encode s.(ps_name) ++ field_encode s.(target).

(** The closure [field]. *)
Definition field (limit : nat) : parser PublishedError str :=
  len ← p_be Malformed 2;
  _ ← p_require (Z.to_nat len <=? limit)%nat Malformed;
  text ← p_take Malformed (Z.to_nat len);
  _ ← p_require (utf8_valid text) Malformed;
  mret text.

Definition p_some {E A} (e : E) (o : option A) : parser E A :=
  match o with Some a => mret a | None => p_fail e end.

Definition published_parser : parser PublishedError PublishedService :=
  code ← p_u8 Malformed;
  kind ← p_some Malformed (kind_from_code code);
  name ← field MAX_NAME_LEN;
  target ← field MAX_TARGET_LEN;
  mret (mkPublished name kind target).

Definition decode (bytes : list byte) : result PublishedError PublishedService :=
  if (MAX_ENCODED_LEN <? length bytes)%nat then Err Malformed
  else
    entry ← p_run Malformed published_parser bytes;
    _ ← check entry;
    Ok entry.

Definition validate_published (l : list PublishedService) : result PublishedError () :=
  if (MAX_PUBLISHED <? length l)%nat then Err TooMany
  else check_each check (λ a b, bool_decide (a.(ps_name) = b.(ps_name))) Duplicate [] l.

End Published.

Module Route.

Definition MAX_ROUTES : nat := 256.
Definition MAX_NAME_LEN : nat := 128.

Inductive RouteHop : Type := Quic | Tcp.
#[export] Instance route_hop_eq_dec : EqDecision RouteHop.
Proof. solve_decision. Defined.

Definition as_str (h : RouteHop) : str := match h with Quic => lit "quic" | Tcp => lit "tcp" end.

Definition hop_parse (t : str) : option RouteHop :=
  if decide (t = lit "quic") then Some Quic else if decide (t = lit "tcp") then Some Tcp else None.

Record Route : Type := mkRoute {
  r_peer : str;
  via : str;
  hop : RouteHop
}.

Inductive RouteError : Type := Name | SelfRelay | Chained | Duplicate | TooMany.

Definition check_name (name : str) : result RouteError () :=
  if bad_name MAX_NAME_LEN name then Err Name else Ok ().

Definition check (r : Route) : result RouteError () :=
  _ ← check_name r.(r_peer);
  _ ← check_name r.(via);
  if bool_decide (r.(r_peer) = r.(via)) then Err SelfRelay else Ok ().

Definition validate_routes (routes : list Route) : result RouteError () :=
  if (MAX_ROUTES <? length routes)%nat then Err TooMany
  else
    _ ← check_each check (λ a b, bool_decide (a.(r_peer) = b.(r_peer))) Duplicate [] routes;
    if existsb (λ r, existsb (λ other, bool_decide (other.(r_peer) = r.(via))) routes) routes
    then Err Chained else Ok ().

End Route.

(** ** What the checks and codecs guarantee *)

Module RecordsSpec.

Lemma check_each_exact {A E} (check : A → result E ()) (same : A → A → bool) (dup : E) {K}
    (k : A → K) :
  (∀ a b, same a b = true ↔ k a = k b) →
  ∀ items before, check_each check same dup before items = Ok () ↔
    Forall (λ x, check x = Ok ()) items ∧ NoDup (k <$> items) ∧
    ∀ x, x ∈ items → k x ∉ k <$> before.
Proof.
  intros Hsame items. induction items as [|x items IH]; intros before; cbn [check_each].
  { split; [intros _|done]. split_and!; [by apply Forall_nil|by apply NoDup_nil|by intros ? ?%not_elem_of_nil]. }
  assert (existsb (λ y, same y x) before = true ↔ k x ∈ k <$> before) as Hex.
  { rewrite existsb_exists, list_elem_of_fmap. setoid_rewrite Hsame. setoid_rewrite <-list_elem_of_In.
    naive_solver. }
  rewrite fmap_cons, Forall_cons, NoDup_cons, bind_Ok. split.
  - intros ([] & Hc & Hr). destruct (existsb _ before) eqn:He; [done|].
    assert (k x ∉ k <$> before) as Hnb by (by intros Hin%Hex).
    apply IH in Hr as (Hall & Hnd & Hb). rewrite fmap_app in Hb. split_and!; try done.
    + intros (y & Hy & Hin)%list_elem_of_fmap. apply (Hb y Hin). rewrite <-Hy. set_solver.
    + intros y [->|Hy]%elem_of_cons; [done|]. specialize (Hb y Hy). set_solver.
  - intros ((Hc & Hall) & (Hx & Hnd) & Hb). exists (). split; [done|].
    destruct (existsb _ before) eqn:He; [exfalso; apply (Hb x); [by left|by apply Hex]|]. clear Hex.
    apply IH. rewrite fmap_app. split_and!; [done|done|]. intros y Hy [Hin|Hin]%elem_of_app.
    + by apply (Hb y); [right|].
    + apply list_elem_of_singleton in Hin. apply Hx. rewrite <-Hin. by apply list_elem_of_fmap_2.
Qed.

Lemma any_repeat_NoDup {A} `{EqDecision A} (items before : list A) :
  Service.any_repeat before items = false ↔ NoDup items ∧ ∀ x, x ∈ items → x ∉ before.
Proof.
  revert before. induction items as [|x items IH]; intros before; cbn.
  { split; [intros _; split; [constructor|by intros ? ?%not_elem_of_nil]|done]. }
  rewrite orb_false_iff, bool_decide_eq_false, IH, NoDup_cons. set_solver.
Qed.

(** ** Contact records *)

Section contact.
Import Pelt Contact.

(** A record that fits the format. *)
Definition contact_ok (r : ContactRecord) : Prop :=
  (1 ≤ length r.(addresses) ≤ MAX_ADDRESSES)%nat ∧
  (∀ a, a ∈ r.(addresses) → (length a ≤ MAX_ADDRESS_LEN)%nat ∧ utf8_valid a = true) ∧
  u64_range r.(seq) ∧ u64_range r.(expires_at).

Lemma reads_address a :
  (length a ≤ MAX_ADDRESS_LEN)%nat → utf8_valid a = true → reads address_parser (address_encode a) a.
Proof.
  intros Hl Hu. unfold address_parser, address_encode.
  eapply reads_bind; [apply reads_be; unfold MAX_ADDRESS_LEN in Hl; lia|]. rewrite Nat2Z.id.
  eapply reads_bind_nil; [by apply reads_require, Nat.leb_le|].
  rewrite <-(app_nil_r a) at 2. eapply reads_bind; [apply reads_take|].
  eapply reads_bind_nil; [by apply reads_require|apply reads_ret].
Qed.

Lemma exact_address :
  exact_for address_parser address_encode (λ a, (length a ≤ MAX_ADDRESS_LEN)%nat ∧ utf8_valid a = true).
Proof.
  intros s a rest Hp. unfold address_parser in Hp. p_inv. unfold address_encode.
  rewrite <-app_assoc. bool_simpl.
  match goal with Hl : length _ = Z.to_nat _ |- _ => rewrite Hl, Z2Nat.id by lia end.
  split; [done|]. split; [lia|done].
Qed.

Lemma contact_count_ok n :
  (1 ≤ n ≤ MAX_ADDRESSES)%nat → negb ((n =? 0)%nat || (MAX_ADDRESSES <? n)%nat) = true.
Proof.
  intros. rewrite negb_true_iff, orb_false_iff, Nat.eqb_neq, Nat.ltb_ge. lia.
Qed.

Lemma reads_contact r : contact_ok r → reads contact_parser (encode r) r.
Proof.
  intros (Hc & Ha & Hs & He). destruct r as [pk addrs sq ex sig]. unfold encode, body, contact_parser.
  cbn [public_key addresses seq expires_at signature] in *. rewrite <-!app_assoc.
  eapply reads_bind; [apply reads_array|]. eapply (reads_bind _ _ [_]); [apply reads_u8|].
  rewrite byte_nat_of by (unfold MAX_ADDRESSES in Hc; lia).
  eapply reads_bind_nil; [by apply reads_require, contact_count_ok|].
  eapply reads_bind; [apply reads_repeat; [done|]; intros a [? ?]%Ha; by apply reads_address|].
  eapply (reads_bind _ _ (be_bytes 8 sq)); [apply reads_be; unfold u64_range in Hs; lia|].
  eapply (reads_bind _ _ (be_bytes 8 ex)); [apply reads_be; unfold u64_range in He; lia|].
  rewrite <-(app_nil_r (array_bytes sig)). eapply reads_bind; [apply reads_array|apply reads_ret].
Qed.

Lemma exact_contact : exact_for contact_parser encode contact_ok.
Proof.
  intros s r rest Hp. unfold contact_parser in Hp. p_inv.
  match goal with Hr : p_repeat _ _ _ = Ok _ |- _ =>
    apply (repeat_exact _ _ _ _ exact_address) in Hr as [-> [Hn Hall]] end.
  unfold encode, body, contact_ok. cbn [public_key addresses seq expires_at signature].
  rewrite Hn, byte_nat_val, byte_of_val. split; [by rewrite <-!app_assoc|].
  bool_simpl. unfold u64_range. split_and!; [lia|lia|done|lia..].
Qed.

Lemma length_addresses l :
  (∀ a, a ∈ l → (length a ≤ MAX_ADDRESS_LEN)%nat) →
  (length (mjoin (address_encode <$> l)) ≤ length l * (2 + MAX_ADDRESS_LEN))%nat.
Proof.
  induction l as [|a l IH]; intros Hl; [done|].
  change (mjoin (address_encode <$> a :: l)) with (address_encode a ++ mjoin (address_encode <$> l)).
  assert (length a ≤ MAX_ADDRESS_LEN)%nat by (apply Hl; by left).
  assert (length (mjoin (address_encode <$> l)) ≤ length l * (2 + MAX_ADDRESS_LEN))%nat
    by (apply IH; intros; apply Hl; by right).
  unfold address_encode at 1. rewrite !length_app, length_be_bytes. cbn [length]. lia.
Qed.

Lemma length_contact r : contact_ok r → (length (encode r) ≤ MAX_ENCODED_LEN)%nat.
Proof.
  intros (Hc & Ha & _). unfold encode, body, MAX_ENCODED_LEN.
  rewrite !length_app, !length_array, !length_be_bytes. cbn [length].
  pose proof (length_addresses r.(addresses) (λ a Hin, proj1 (Ha a Hin))) as Hl.
  assert (length r.(addresses) * (2 + MAX_ADDRESS_LEN) ≤ MAX_ADDRESSES * (2 + MAX_ADDRESS_LEN))%nat
    by (apply Nat.mul_le_mono_r; lia). lia.
Qed.

Lemma contact_decode_iff bytes r :
  decode bytes = Ok r ↔ encode r = bytes ∧ contact_ok r.
Proof.
  unfold decode. split.
  - destruct (MAX_ENCODED_LEN <? length bytes)%nat; [discriminate|].
    intros Hr. apply (run_exact _ _ _ _ _ _ exact_contact) in Hr as [-> Hok]. by split.
  - intros [<- Hok]. rewrite (proj2 (Nat.ltb_ge _ _) (length_contact r Hok)).
    apply reads_run. by apply reads_contact.
Qed.

(** The contact record codec is exact: [decode] returns [r] for [bytes]
    if and only if [bytes] is the encoding of [r] and [r] fits the format
    (1 to 4 addresses of at most 256 bytes of UTF-8, 64-bit fields). In
    particular every record that fits is within the size bound, and no
    accepted byte string has trailing bytes or a second reading. *)
Theorem contact_codec_exact bytes r :
  decode bytes = Ok r ↔ encode r = bytes ∧ contact_ok r.
Proof. apply contact_decode_iff. Qed.

Lemma body_signature pk l sq ex s1 s2 : body (mkContact pk l sq ex s1) = body (mkContact pk l sq ex s2).
Proof. reflexivity. Qed.

(** A node's own contact record verifies. For a generated identity with
    a usable key, [sign] succeeds exactly when the addresses are acceptable
    and the record expires within seven days from now; the record then
    names the identity's key, and [verify] accepts it, for the node ID of
    that key, at every clock reading at which it is unexpired and not valid
    for longer than seven days. *)
Theorem contact_sign_verify `{CryptoLaws} `{Base64Laws} sha256 secret l sq ex now :
  key_weak (sk_public secret) = false →
  let unsigned := mkContact (sk_public secret) l sq ex (array_fill 64 x00) in
  match sign (generate_identity secret) l sq ex now with
  | Ok r =>
      check_fields unsigned now = Ok () ∧ r.(public_key) = sk_public secret ∧
      r.(addresses) = l ∧ r.(seq) = sq ∧ r.(expires_at) = ex ∧
      ∀ later, later < ex → ex - later ≤ MAX_LIFETIME_SECS →
        verify sha256 r later = Ok (Overlay.Kademlia.from_public_key sha256 (sk_public secret))
  | Err e => check_fields unsigned now = Err e
  end.
Proof.
  intros Hw unsigned. unfold sign, generate_identity. cbn [public_key_b64 secret_key_b64].
  rewrite b64_decode_encode. cbn [mbind option_bind]. rewrite to_array_bytes.
  cbn [ok_or mbind result_bind]. fold unsigned. destruct (check_fields unsigned now) as [[]|e] eqn:Hc; [|done].
  cbn [mbind result_bind]. unfold sign_message. cbn [secret_key_b64].
  rewrite b64_decode_encode. cbn [ok_or mbind result_bind]. rewrite to_array_bytes.
  cbn [ok_or mbind result_bind map_err]. rewrite b64_decode_encode. cbn [mbind option_bind].
  rewrite to_array_bytes. cbn [ok_or mbind result_bind].
  split_and!; try done. intros later Hl Hmax. unfold verify.
  assert (check_addresses l = Ok ()) as Ha.
  { unfold check_fields, unsigned in Hc. cbn [addresses] in Hc.
    by apply bind_Ok in Hc as ([] & Ha & _). }
  unfold check_fields at 1. cbn [addresses expires_at]. rewrite Ha. cbn [mbind result_bind].
  rewrite (proj2 (Z.leb_gt _ _)), (proj2 (Z.ltb_ge _ _)) by lia. cbn [orb mbind result_bind public_key signature].
  rewrite sk_public_valid. cbn [require mbind result_bind].
  unfold signed_bytes. rewrite (body_signature _ _ _ _ _ (array_fill 64 x00)).
  fold unsigned. rewrite sign_verifies by done. done.
Qed.

(** Replacement of contact records is well founded: [supersedes] is
    irreflexive and transitive, relates only records of one key, and of two
    records of one key with different sequence numbers exactly one
    supersedes the other, so nodes that keep the superseding record agree
    whatever order the records reach them in. *)
Theorem supersedes_order a b c :
  supersedes a a = false ∧
  (supersedes a b = true → supersedes b c = true → supersedes a c = true) ∧
  (supersedes a b = true → a.(public_key) = b.(public_key) ∧ supersedes b a = false) ∧
  (a.(public_key) = b.(public_key) → a.(seq) ≠ b.(seq) → supersedes a b = negb (supersedes b a)).
Proof.
  unfold supersedes. split_and!.
  - rewrite Z.ltb_irrefl. apply andb_false_r.
  - intros Hab Hbc. bool_simpl. rewrite bool_decide_eq_true_2 by congruence. lia.
  - intros Hab. bool_simpl. split; [done|]. rewrite (proj2 (Z.ltb_ge _ _)) by lia. apply andb_false_r.
  - intros Hk Hs. rewrite !bool_decide_eq_true_2 by congruence. lia.
Qed.

End contact.
(** ** Published services *)

Section published.
Import Service Published.

Lemma kind_from_code_exact c k : kind_from_code c = Some k ↔ c = kind_code k.
Proof.
  unfold kind_from_code. split; [|by intros ->; destruct k].
  repeat case_decide; intros [= <-]; by subst.
Qed.

Lemma reads_field limit f :
  (length f ≤ limit)%nat → Z.of_nat limit < 65536 → utf8_valid f = true →
  reads (field limit) (field_encode f) f.
Proof.
  intros Hl Hlim Hu. unfold field, field_encode.
  eapply reads_bind; [apply reads_be; lia|]. rewrite Nat2Z.id.
  eapply reads_bind_nil; [by apply reads_require, Nat.leb_le|].
  rewrite <-(app_nil_r f) at 2. eapply reads_bind; [apply reads_take|].
  eapply reads_bind_nil; [by apply reads_require|apply reads_ret].
Qed.

Lemma exact_field limit :
  exact_for (field limit) field_encode (λ f, (length f ≤ limit)%nat ∧ utf8_valid f = true).
Proof.
  intros s f rest Hp. unfold field in Hp. p_inv. unfold field_encode. rewrite <-app_assoc. bool_simpl.
  match goal with Hl : length _ = Z.to_nat _ |- _ => rewrite Hl, Z2Nat.id by lia end.
  split; [done|]. split; [lia|done].
Qed.

(** An entry that fits the wire format. *)
Definition published_fits (s : PublishedService) : Prop :=
  (length s.(ps_name) ≤ MAX_NAME_LEN)%nat ∧ utf8_valid s.(ps_name) = true ∧
  (length s.(target) ≤ MAX_TARGET_LEN)%nat ∧ utf8_valid s.(target) = true.

Lemma reads_published s : published_fits s → reads published_parser (encode s) s.
Proof.
  intros (Hn & Hnu & Ht & Htu). destruct s as [n k t]. unfold published_parser, encode.
  cbn [ps_name kind target] in *.
  eapply reads_bind; [apply reads_u8|]. rewrite (proj2 (kind_from_code_exact _ k) eq_refl).
  eapply reads_bind_nil; [apply reads_ret|].
  eapply reads_bind; [apply reads_field; [done|unfold MAX_NAME_LEN; lia|done]|].
  rewrite <-(app_nil_r (field_encode t)).
  eapply reads_bind; [apply reads_field; [done|unfold MAX_TARGET_LEN; lia|done]|apply reads_ret].
Qed.

Lemma exact_published : exact_for published_parser encode published_fits.
Proof.
  intros s v rest Hp. unfold published_parser in Hp. p_inv.
  match goal with Hk : p_some _ ?o _ = Ok _ |- _ =>
    unfold p_some in Hk; destruct o as [k|] eqn:Hc; [|done] end.
  apply kind_from_code_exact in Hc as ->. p_inv.
  repeat match goal with Hf : field _ _ = Ok _ |- _ => apply exact_field in Hf as [-> [? ?]] end.
  split; [|done]. unfold encode. cbn [ps_name kind target]. by rewrite <-!app_assoc.
Qed.

Lemma length_published s : published_fits s → (length (encode s) ≤ MAX_ENCODED_LEN)%nat.
Proof.
  intros (Hn & _ & Ht & _). unfold encode, field_encode, MAX_ENCODED_LEN.
  rewrite !length_app, !length_be_bytes. cbn [length]. lia.
Qed.

Lemma published_decode_iff bytes s :
  decode bytes = Ok s ↔ encode s = bytes ∧ published_fits s ∧ check s = Ok ().
Proof.
  unfold decode. split.
  - destruct (MAX_ENCODED_LEN <? length bytes)%nat; [discriminate|].
    intros (e & He & Hc)%bind_Ok. apply bind_Ok in Hc as ([] & Hc & [= <-]).
    apply (run_exact _ _ _ _ _ _ exact_published) in He as [-> Hf]. done.
  - intros (<- & Hf & Hc). pose proof Hf as (Hn & _ & Ht & _).
    rewrite (proj2 (Nat.ltb_ge _ _)) by (by apply length_published).
    rewrite (reads_run _ _ _ s) by (by apply reads_published). cbn. by rewrite Hc.
Qed.

(** A published entry is decoded exactly from its encoding: [decode]
    returns [s] for [bytes] if and only if [bytes] encodes [s], [s] passes
    [check], and its target is at most 47 bytes. *)
Theorem published_codec_exact bytes s :
  decode bytes = Ok s ↔ encode s = bytes ∧ published_fits s ∧ check s = Ok ().
Proof. apply published_decode_iff. Qed.

Definition scoped_target : str := lit "[2001:db8:1111:2222:3333:4444:5555:6666%1]:65535".

(** An entry can pass [check] and not survive its own encoding. A
    canonical IPv6 target with a scope identifier is longer than
    [MAX_TARGET_LEN], which counts only the address and the port: the entry
    is accepted for publication, and a requester's [decode] of its encoding
    fails. *)
Theorem published_scope_gap :
  let s := mkPublished (lit "ssh") Ssh scoped_target in
  check s = Ok () ∧ (MAX_TARGET_LEN < length scoped_target)%nat ∧ decode (encode s) = Err Malformed.
Proof. vm_compute. split_and!; [reflexivity|lia|reflexivity]. Qed.

(** A published list is accepted exactly when it has at most 32 entries
    that each pass [check] and no two share a name. *)
Lemma validate_published_iff l :
  validate_published l = Ok () ↔
  (length l ≤ MAX_PUBLISHED)%nat ∧ Forall (λ s, check s = Ok ()) l ∧ NoDup (ps_name <$> l).
Proof.
  unfold validate_published. destruct (MAX_PUBLISHED <? length l)%nat eqn:Hl; bool_simpl; [split; [done|lia]|].
  rewrite (check_each_exact _ _ _ ps_name) by (intros; apply bool_decide_eq_true). set_solver.
Qed.

End published.

(** ** Routes *)

Section route.
Import Route.

(** A route list is accepted exactly when it has at most 256 routes,
    each with canonical names and a relay other than the peer, one route
    per peer, and no relay is itself reached through a relay: every route
    has exactly one relay. *)
Theorem validate_routes_exact routes :
  validate_routes routes = Ok () ↔
  (length routes ≤ MAX_ROUTES)%nat ∧ NoDup (r_peer <$> routes) ∧
  (∀ r, r ∈ routes → bad_name MAX_NAME_LEN r.(r_peer) = false ∧
     bad_name MAX_NAME_LEN r.(via) = false ∧ r.(r_peer) ≠ r.(via)) ∧
  (∀ r other, r ∈ routes → other ∈ routes → r.(via) ≠ other.(r_peer)).
Proof.
  unfold validate_routes. destruct (MAX_ROUTES <? length routes)%nat eqn:Hl; bool_simpl; [split; [done|lia]|].
  assert (∀ r, check r = Ok () ↔ bad_name MAX_NAME_LEN r.(r_peer) = false ∧
     bad_name MAX_NAME_LEN r.(via) = false ∧ r.(r_peer) ≠ r.(via)) as Hcheck.
  { intros r. unfold check, check_name.
    destruct (bad_name _ (r_peer r)), (bad_name _ (via r)); cbn; [naive_solver..|].
    case_bool_decide; naive_solver. }
  rewrite bind_unit_Ok, (check_each_exact _ _ _ r_peer), Forall_forall
    by (intros; apply bool_decide_eq_true).
  setoid_rewrite Hcheck. split.
  - intros ((Hall & Hnd & _) & Hc). split_and!; [lia|done|done|].
    destruct (existsb _ routes) eqn:He; [done|]. intros r o Hr Ho Heq.
    apply not_true_iff_false in He. apply He, existsb_exists. exists r. split; [by apply list_elem_of_In|].
    apply existsb_exists. exists o. split; [by apply list_elem_of_In|by apply bool_decide_eq_true_2].
  - intros (_ & Hnd & Hall & Hchain). split; [set_solver|].
    destruct (existsb _ routes) eqn:He; [|done].
    apply existsb_exists in He as (r & Hr%list_elem_of_In & He).
    apply existsb_exists in He as (o & Ho%list_elem_of_In & Heq%bool_decide_eq_true).
    by destruct (Hchain r o).
Qed.

End route.

(** ** Services *)

Section service.
Import Service.

(** A field with content, without surrounding white space, within [limit]. *)
Definition field_ok (limit : nat) (t : str) : Prop :=
  trim t ≠ [] ∧ t = trim t ∧ (length t ≤ limit)%nat.

Definition provider_ok (p : str * str) : Prop := field_ok 128 p.1 ∧ field_ok 512 p.2.

Lemma bad_provider_ok p : bad_provider p = false ↔ provider_ok (p.(sp_peer), p.(sp_target)).
Proof.
  unfold bad_provider, provider_ok, field_ok, blank, untrimmed. cbn [fst snd].
  rewrite !orb_false_iff, !bool_decide_eq_false, !negb_false_iff, !bool_decide_eq_true, !Nat.ltb_ge.
  naive_solver.
Qed.

Lemma validate_providers_exact s :
  validate_providers s = Ok () ↔
  (length (providers s) ≤ MAX_PROVIDERS)%nat ∧ Forall provider_ok (tail (providers s)) ∧
  NoDup (fst <$> providers s).
Proof.
  unfold validate_providers, providers at 2 3. cbn [length tl]. rewrite length_fmap, Forall_fmap.
  destruct (MAX_PROVIDERS <? _)%nat eqn:Hl; bool_simpl; [split; [done|lia]|].
  assert (existsb bad_provider (fallbacks s) = false ↔
    Forall (λ p, provider_ok (sp_peer p, sp_target p)) (fallbacks s)) as Hb.
  { rewrite Forall_forall. setoid_rewrite <-bad_provider_ok. split.
    - intros He p Hp. apply not_true_iff_false. intros Hbad. apply not_true_iff_false in He.
      apply He, existsb_exists. exists p. split; [by apply list_elem_of_In|done].
    - intros Hall. apply not_true_iff_false. intros (p & Hp%list_elem_of_In & Hbad)%existsb_exists.
      by rewrite Hall in Hbad. }
  destruct (existsb bad_provider (fallbacks s)) eqn:He.
  { split; [done|]. intros (_ & Hall & _). by apply Hb in Hall. }
  destruct (any_repeat [] (fst <$> providers s)) eqn:Hr.
  - split; [done|]. intros (_ & _ & Hnd). apply not_false_iff_true in Hr. destruct Hr.
    apply any_repeat_NoDup. split; [done|]. set_solver.
  - split; [|done]. intros _. apply any_repeat_NoDup in Hr as [Hnd _].
    split_and!; [lia|by apply Hb|done].
Qed.

Lemma three_checks {E} (b1 b2 b3 : bool) (e1 e2 e3 : E) :
  (if b1 then Err e1 else if b2 then Err e2 else if b3 then Err e3 else Ok ()) = Ok () ↔
  b1 = false ∧ b2 = false ∧ b3 = false.
Proof. destruct b1, b2, b3; naive_solver. Qed.

(** A service list is accepted exactly when every service has one to
    four providers (the first included) with canonical, non-blank, bounded
    peer and target, no provider peer twice, a canonical bounded name, and
    no two services share a name. *)
Theorem validate_services_exact ss :
  validate_services ss = Ok () ↔
  Forall (λ s, field_ok 128 s.(sd_name) ∧ Forall provider_ok (providers s) ∧
    (length (providers s) ≤ MAX_PROVIDERS)%nat ∧ NoDup (fst <$> providers s)) ss ∧
  NoDup (sd_name <$> ss).
Proof.
  assert (∀ s, validate_service s = Ok () ↔
    field_ok 128 s.(sd_name) ∧ Forall provider_ok (providers s) ∧
    (length (providers s) ≤ MAX_PROVIDERS)%nat ∧ NoDup (fst <$> providers s)) as Hone.
  { intros s. unfold validate_service. rewrite bind_unit_Ok.
    assert (Forall provider_ok (providers s) ↔
      (field_ok 128 s.(sd_peer) ∧ field_ok 512 s.(sd_target)) ∧ Forall provider_ok (tail (providers s)))
      as -> by (unfold providers; rewrite Forall_cons; done).
    assert ((if blank (sd_name s) || blank (sd_peer s) || blank (sd_target s) then Err FieldsEmpty
      else if untrimmed (sd_name s) || untrimmed (sd_peer s) || untrimmed (sd_target s) then Err FieldsCanonical
      else if (128 <? length (sd_name s))%nat || (128 <? length (sd_peer s))%nat
              || (512 <? length (sd_target s))%nat then Err FieldLimit else Ok ()) = Ok () ↔
      field_ok 128 s.(sd_name) ∧ field_ok 128 s.(sd_peer) ∧ field_ok 512 s.(sd_target)) as Hfields.
    { rewrite three_checks. unfold field_ok, blank, untrimmed.
      rewrite !orb_false_iff, !bool_decide_eq_false, !negb_false_iff, !bool_decide_eq_true, !Nat.ltb_ge.
      naive_solver. }
    rewrite Hfields, validate_providers_exact. naive_solver. }
  unfold validate_services. rewrite bind_Ok. split.
  - intros (us & Hus%try_map_Ok & Hr). destruct (any_repeat _ _) eqn:Hd; [done|].
    apply any_repeat_NoDup in Hd as [Hnd _]. split; [|done]. apply Forall_forall. intros s Hs.
    apply Hone. apply list_elem_of_lookup in Hs as [i Hi].
    destruct (Forall2_lookup_l _ _ _ _ _ Hus Hi) as ([] & _ & Hv). done.
  - intros [Hall Hnd]. exists (replicate (length ss) ()). split.
    + apply try_map_Ok. clear Hnd. induction Hall as [|s ss Hs Hall IH]; [constructor|].
      constructor; [by apply Hone|done].
    + rewrite (proj2 (any_repeat_NoDup (sd_name <$> ss) [])); [done|]. split; [done|set_solver].
Qed.

End service.

End RecordsSpec.

(** ** A concrete contact record *)

Module RecordsDemo.
Import Pelt Contact RecordsSpec Toy.

Definition demo_addresses : list str := [lit "quic://198.51.100.7:4433"].

Lemma contact_sign_verify_witness :
  match sign (generate_identity (key_of 7)) demo_addresses 1 1000 500 with
  | Ok r => r.(addresses) = demo_addresses ∧
      ∀ later, later < 1000 → 1000 - later ≤ MAX_LIFETIME_SECS →
        verify toy_hash r later = Ok (Overlay.Kademlia.from_public_key toy_hash (key_of 7))
  | Err _ => False
  end.
Proof.
  pose proof (contact_sign_verify toy_hash (key_of 7) demo_addresses 1 1000 500) as Hsv.
  specialize (Hsv ltac:(vm_compute; reflexivity)).
  destruct (sign _ _ _ _ _) as [r|e] eqn:Hs; [|vm_compute in Hs; discriminate Hs].
  destruct Hsv as (_ & _ & Ha & _ & _ & Hv). by split.
Defined.

End RecordsDemo.
