(* ===== verification/Governance.v ===== *)
(** * Governance statements and the chain head ([werewolf-core/src/governance.rs])

    [Body], [Core], [Statement], [Head], [Outcome] and [GovError] are the
    source's types; [statement_encode]/[statement_decode] the wire format;
    [apply] the verification and state transition, whole. The head moves by
    [gov_step]; [gov_reach] are the heads a node can hold. *)

From S2P Require Export Crypto.

Local Open Scope Z_scope.

Module Gov.

Definition VERSION : byte := x01.
Definition MAX_STATEMENT_LEN : nat := Z.to_nat (16 * 1024).
Definition KEY_COUNT : nat := 10.
Definition THRESHOLD : nat := 7.
Definition MAX_REVOKED_PER_STATEMENT : nat := 64.
Definition MAX_ROSTER : nat := Z.to_nat 1024.
Definition MAX_ADMITTED_PER_STATEMENT : nat := 64.

Definition SIGN_DOMAIN : list byte := lit "werewolfproxy/governance/v1/sign" ++ [x00].
Definition HASH_DOMAIN : list byte := lit "werewolfproxy/governance/v1/hash" ++ [x00].

Definition KIND_GENESIS : byte := x00.
Definition KIND_ROTATION : byte := x01.
Definition KIND_REVOCATION : byte := x02.
Definition KIND_ADMISSION : byte := x03.
Definition KIND_ACTIVATION : byte := x04.
Definition KIND_DEATH : byte := x05.

Inductive Body : Type :=
| Genesis (threshold : byte) (keys : list Key)
| Rotation (entries : list (byte * Key))
| Revocation (keys : list Key)
| Admission (keys : list Key)
| Activation
| Death.

Record Core : Type := mkCore {
  network_id : array 32;
  sequence : Z;
  previous : Hash;
  body : Body
}.

Record Statement : Type := mkStatement {
  core : Core;
  signatures : list (byte * Sig)
}.

Inductive GovError : Type :=
| TooLarge | Malformed | UnknownVersion | UnknownKind | BodyRule | Signatures
| WrongNetwork | NoGenesis | GenesisMismatch | OutOfOrder | PreviousMismatch
| Fork | Forked | Terminal.

#[export] Instance body_eq_dec : EqDecision Body.
Proof. solve_decision. Defined.
#[export] Instance core_eq_dec : EqDecision Core.
Proof. solve_decision. Defined.
#[export] Instance statement_eq_dec : EqDecision Statement.
Proof. solve_decision. Defined.

(** ** Encoding *)

Definition body_kind (b : Body) : byte :=
  match b with
  | Genesis _ _ => KIND_GENESIS
  | Rotation _ => KIND_ROTATION
  | Revocation _ => KIND_REVOCATION
  | Admission _ => KIND_ADMISSION
  | Activation => KIND_ACTIVATION
  | Death => KIND_DEATH
  end.

Definition entry_encode {n} (e : byte * array n) : list byte := e.1 :: array_bytes e.2.

(** [as u8] and [as u16] truncate, as [byte_of] and [be_bytes 2] do. *)
Definition body_encode (b : Body) : list byte :=
  match b with
  | Genesis threshold keys =>
      threshold :: byte_of (Z.of_nat (length keys)) :: mjoin (array_bytes <$> keys)
  | Rotation entries =>
      byte_of (Z.of_nat (length entries)) :: mjoin (entry_encode <$> entries)
  | Revocation keys | Admission keys =>
      be_bytes 2 (Z.of_nat (length keys)) ++ mjoin (array_bytes <$> keys)
  | Activation | Death => []
  end.

Definition p_entry {E} (e : E) (n : nat) : parser E (byte * array n) :=
  i ← p_u8 e; a ← p_array e n; mret (i, a).

Definition body_parser (kind : byte) : parser GovError Body :=
  if decide (kind = KIND_GENESIS) then
    threshold ← p_u8 Malformed;
    count ← p_u8 Malformed;
    keys ← p_repeat (byte_nat count) (p_array Malformed 32);
    mret (Genesis threshold keys)
  else if decide (kind = KIND_ROTATION) then
    count ← p_u8 Malformed;
    entries ← p_repeat (byte_nat count) (p_entry Malformed 32);
    mret (Rotation entries)
  else if decide (kind = KIND_REVOCATION ∨ kind = KIND_ADMISSION) then
    count ← p_be Malformed 2;
    keys ← p_repeat (Z.to_nat count) (p_array Malformed 32);
    mret (if decide (kind = KIND_REVOCATION) then Revocation keys else Admission keys)
  else if decide (kind = KIND_ACTIVATION) then mret Activation
  else if decide (kind = KIND_DEATH) then mret Death
  else p_fail UnknownKind.

Definition body_decode (kind : byte) (bytes : list byte) : result GovError Body :=
  p_run Malformed (body_parser kind) bytes.

Definition core_encode (c : Core) : list byte :=
  let body_bytes := body_encode c.(body) in
  [VERSION] ++ array_bytes c.(network_id) ++ be_bytes 8 c.(sequence)
  ++ array_bytes c.(previous) ++ [body_kind c.(body)]
  ++ be_bytes 2 (Z.of_nat (length body_bytes)) ++ body_bytes.

Definition statement_encode (s : Statement) : list byte :=
  core_encode s.(core) ++ [byte_of (Z.of_nat (length s.(signatures)))]
  ++ mjoin (entry_encode <$> s.(signatures)).

Arguments body_encode : simpl never.
Arguments core_encode : simpl never.
Arguments statement_encode : simpl never.

(** Runs a sub-decoder on an already taken slice. *)
Definition p_lift {E A} (r : result E A) : parser E A := λ s,
  match r with Ok a => Ok (a, s) | Err e => Err e end.
Arguments p_lift : simpl never.

Definition statement_parser : parser GovError Statement :=
  version ← p_u8 Malformed;
  _ ← p_require (bool_decide (version = VERSION)) UnknownVersion;
  network_id ← p_array Malformed 32;
  sequence ← p_be Malformed 8;
  previous ← p_array Malformed 32;
  kind ← p_u8 Malformed;
  body_len ← p_be Malformed 2;
  body_bytes ← p_take Malformed (Z.to_nat body_len);
  body ← p_lift (body_decode kind body_bytes);
  count ← p_u8 Malformed;
  signatures ← p_repeat (byte_nat count) (p_entry Malformed 64);
  mret {| core := {| network_id := network_id; sequence := sequence;
                     previous := previous; body := body |};
          signatures := signatures |}.

Definition statement_decode (bytes : list byte) : result GovError Statement :=
  if (MAX_STATEMENT_LEN <? length bytes)%nat then Err TooLarge
  else p_run Malformed statement_parser bytes.

(** ** The head *)

Record Head : Type := mkHead {
  h_network_id : array 32;
  h_sequence : Z;
  h_hash : Hash;
  h_threshold : byte;
  key_epochs : list (Z * list Key);
  revoked : list Key;
  applied : list Hash;
  forked : bool;
  roster : list Key;
  activated_at : option Z;
  dead_at : option Z
}.

Definition admits (head : Head) (own : Key) : bool :=
  negb (bool_decide (is_Some head.(activated_at)))
  || (is_ok (binary_search head.(roster) own) && negb (is_ok (binary_search head.(revoked) own))).

(** The [expect] of [keys] is a panic. *)
Definition keys {E} (head : Head) : result (fault E) (list Key) :=
  ok_or (snd <$> last head.(key_epochs)) Panicked.

Definition keys_before {E} (head : Head) (s : Z) : result (fault E) (list Key) :=
  ok_or (snd <$> List.find (λ e : Z * list Key, e.1 <? s) (rev head.(key_epochs))) Panicked.

Inductive Outcome : Type :=
| Applied (head : Head)
| AlreadyApplied
| ForkOutcome (head : Head).

#[export] Instance head_eq_dec : EqDecision Head.
Proof. solve_decision. Defined.

Section apply.
Context `{Crypto}.

Definition signing_input (c : Core) : list byte := SIGN_DOMAIN ++ core_encode c.
Definition core_hash (c : Core) : Hash := blake3 (HASH_DOMAIN ++ core_encode c).

(** [sign]: the offline signature of one key holder. *)
Definition sign (c : Core) (sk : array 32) : Sig := sk_sign sk (signing_input c).

(** ** Checks *)

Definition strong_key (key : Key) : result GovError Key :=
  if negb (key_valid key) then Err BodyRule
  else if key_weak key then Err BodyRule
  else Ok key.

(** The loop of [check_signatures]; [last] is the index accepted before. *)
Fixpoint check_signatures_loop (input : list byte) (ks : list Key) (last : option byte)
    (sigs : list (byte * Sig)) : result (fault GovError) () :=
  match sigs with
  | [] => Ok ()
  | (i, signature) :: sigs' =>
      if match last with Some l => ogeb l i | None => false end
         || (length ks <=? byte_nat i)%nat
      then raise Signatures
      else
        k ← index ks (byte_nat i);
        key ← lift (map_err (λ _, Signatures) (strong_key k));
        if verify_strict key input signature
        then check_signatures_loop input ks (Some i) sigs'
        else raise Signatures
  end.

Definition check_signatures (s : Statement) (ks : list Key) (threshold : nat)
    : result (fault GovError) () :=
  if (length s.(signatures) <? threshold)%nat || (length ks <? length s.(signatures))%nat
  then raise Signatures
  else check_signatures_loop (signing_input s.(core)) ks None s.(signatures).

(** [for (index, key) in keys.iter().enumerate() { if keys[..index].contains(key) ...}]. *)
Fixpoint repeats {A} `{EqDecision A} (seen l : list A) : bool :=
  match l with
  | [] => false
  | x :: l' => bool_decide (x ∈ seen) || repeats (seen ++ [x]) l'
  end.

Fixpoint check_genesis_loop (seen ks : list Key) : result GovError () :=
  match ks with
  | [] => Ok ()
  | k :: ks' =>
      _ ← strong_key k;
      if bool_decide (k ∈ seen) then Err BodyRule
      else check_genesis_loop (seen ++ [k]) ks'
  end.

Definition check_genesis (threshold : byte) (ks : list Key) : result GovError () :=
  if negb (byte_nat threshold =? THRESHOLD)%nat || negb (length ks =? KEY_COUNT)%nat
  then Err BodyRule
  else check_genesis_loop [] ks.

(** The replacement loop of [rotated]; [None] from the update is the
    panic of [keys[*index as usize] = *key]. *)
Fixpoint rotate_loop (ks : list Key) (last : option byte) (entries : list (byte * Key))
    : result (fault GovError) (list Key) :=
  match entries with
  | [] => Ok ks
  | (i, k) :: entries' =>
      if match last with Some l => ogeb l i | None => false end
         || (KEY_COUNT <=? byte_nat i)%nat
      then raise BodyRule
      else
        _ ← lift (strong_key k);
        _ ← index ks (byte_nat i);
        rotate_loop (<[byte_nat i := k]> ks) (Some i) entries'
  end.

Fixpoint rotate_same (current : list Key) (entries : list (byte * Key))
    : result (fault GovError) () :=
  match entries with
  | [] => Ok ()
  | (i, k) :: entries' =>
      old ← index current (byte_nat i);
      if decide (old = k) then raise BodyRule else rotate_same current entries'
  end.

Definition rotated (current : list Key) (entries : list (byte * Key))
    : result (fault GovError) (list Key) :=
  if bool_decide (entries = []) || (KEY_COUNT <? length entries)%nat then raise BodyRule
  else
    ks ← rotate_loop current None entries;
    if repeats [] ks then raise BodyRule
    else _ ← rotate_same current entries; Ok ks.

Fixpoint check_admission_loop (head : Head) (ks : list Key) : result GovError () :=
  match ks with
  | [] => Ok ()
  | k :: ks' =>
      _ ← strong_key k;
      if is_ok (binary_search head.(revoked) k) || is_ok (binary_search head.(roster) k)
      then Err BodyRule
      else check_admission_loop head ks'
  end.

Definition check_admission (head : Head) (ks : list Key) : result GovError () :=
  if bool_decide (ks = []) || (MAX_ADMITTED_PER_STATEMENT <? length ks)%nat then Err BodyRule
  else if windows2_any ogeb ks then Err BodyRule
  else
    _ ← check_admission_loop head ks;
    if (MAX_ROSTER <? length head.(roster) + length ks)%nat then Err BodyRule else Ok ().

Definition check_revocation (ks : list Key) : result GovError () :=
  if bool_decide (ks = []) || (MAX_REVOKED_PER_STATEMENT <? length ks)%nat then Err BodyRule
  else if windows2_any ogeb ks then Err BodyRule
  else if forallb key_valid ks then Ok () else Err BodyRule.

(** ** Application *)

(** One turn of the revocation loop: insert into [revoked], leave [roster]. *)
Definition revoke_key (rr : list Key * list Key) (k : Key) : list Key * list Key :=
  let '(rev, ros) := rr in
  (match binary_search rev k with Err at_ => vec_insert at_ k rev | Ok _ => rev end,
   match binary_search ros k with Ok at_ => vec_remove at_ ros | Err _ => ros end).

(** One turn of the admission loop; [expect_err] panics on a key found. *)
Definition admit_key (ros : list Key) (k : Key) : result (fault GovError) (list Key) :=
  match binary_search ros k with
  | Err at_ => Ok (vec_insert at_ k ros)
  | Ok _ => Err Panicked
  end.

(** The effect of the body on a clone of the head (the [match] of [apply]). *)
Definition apply_body (head : Head) (c : Core) : result (fault GovError) Head :=
  let 'mkHead n s h t ke rv ap fk ro act dead := head in
  match c.(body) with
  | Genesis _ _ => raise OutOfOrder
  | Rotation entries =>
      current ← keys head;
      ks ← rotated current entries;
      Ok (mkHead n s h t (ke ++ [(c.(sequence), ks)]) rv ap fk ro act dead)
  | Revocation ks =>
      _ ← lift (check_revocation ks);
      let '(rv', ro') := foldl revoke_key (rv, ro) ks in
      Ok (mkHead n s h t ke rv' ap fk ro' act dead)
  | Admission ks =>
      _ ← lift (check_admission head ks);
      ro' ← try_fold admit_key ro ks;
      Ok (mkHead n s h t ke rv ap fk ro' act dead)
  | Activation =>
      if bool_decide (is_Some act) then raise BodyRule
      else Ok (mkHead n s h t ke rv ap fk ro (Some c.(sequence)) dead)
  | Death => Ok (mkHead n s h t ke rv ap fk ro act (Some c.(sequence)))
  end.

(** [next.sequence = ..; next.hash = ..; next.applied.push(..)]. *)
Definition seal (next : Head) (c : Core) : Head :=
  let 'mkHead n _ _ t ke rv ap fk ro act dead := next in
  mkHead n c.(sequence) (core_hash c) t ke rv (ap ++ [core_hash c]) fk ro act dead.

Definition set_forked (head : Head) : Head :=
  let 'mkHead n s h t ke rv ap _ ro act dead := head in
  mkHead n s h t ke rv ap true ro act dead.

Definition apply_genesis (s : Statement) (expect_genesis : option Hash)
    : result (fault GovError) Outcome :=
  let c := s.(core) in
  match c.(body) with
  | Genesis threshold ks =>
      if negb (c.(sequence) =? 0) || negb (bool_decide (c.(previous) = array_fill 32 x00))
      then raise OutOfOrder
      else if negb (bool_decide (expect_genesis = Some (core_hash c)))
      then raise GenesisMismatch
      else
        _ ← lift (check_genesis threshold ks);
        _ ← check_signatures s ks (byte_nat threshold);
        Ok (Applied {|
          h_network_id := c.(network_id); h_sequence := 0; h_hash := core_hash c;
          h_threshold := threshold; key_epochs := [(0, ks)]; revoked := [];
          applied := [core_hash c]; forked := false; roster := [];
          activated_at := None; dead_at := None |})
  | _ => raise NoGenesis
  end.

Definition apply_known (head : Head) (s : Statement) : result (fault GovError) Outcome :=
  let c := s.(core) in
  recorded ← index head.(applied) (Z.to_nat c.(sequence));
  if decide (recorded = core_hash c) then Ok AlreadyApplied
  else if c.(sequence) =? 0 then raise GenesisMismatch
  else
    ks ← keys_before head c.(sequence);
    _ ← check_signatures s ks (byte_nat head.(h_threshold));
    Ok (ForkOutcome (set_forked head)).

Definition apply_next (head : Head) (s : Statement) : result (fault GovError) Outcome :=
  let c := s.(core) in
  if negb (c.(sequence) =? u64_add head.(h_sequence) 1) then raise OutOfOrder
  else if negb (bool_decide (c.(previous) = head.(h_hash))) then raise PreviousMismatch
  else
    ks ← keys head;
    _ ← check_signatures s ks (byte_nat head.(h_threshold));
    next ← apply_body head c;
    Ok (Applied (seal next c)).

Definition apply_dead (head : Head) (s : Statement) : result (fault GovError) Outcome :=
  let c := s.(core) in
  same ← (if c.(sequence) <=? head.(h_sequence) then
            recorded ← index head.(applied) (Z.to_nat c.(sequence));
            Ok (bool_decide (recorded = core_hash c)
                && bool_decide (c.(network_id) = head.(h_network_id)))
          else Ok false);
  if (same : bool) then Ok AlreadyApplied else raise Terminal.

Definition is_death (b : Body) : bool := match b with Death => true | _ => false end.

Definition apply (head : option Head) (s : Statement) (expect_genesis : option Hash)
    : result (fault GovError) Outcome :=
  let c := s.(core) in
  match head with
  | None => apply_genesis s expect_genesis
  | Some head =>
      if bool_decide (is_Some head.(dead_at)) then apply_dead head s
      else if head.(forked)
              && negb (is_death c.(body)
                       && (c.(sequence) =? u64_add head.(h_sequence) 1)
                       && bool_decide (c.(previous) = head.(h_hash)))
      then raise Forked
      else if negb (bool_decide (c.(network_id) = head.(h_network_id)))
      then raise WrongNetwork
      else if c.(sequence) <=? head.(h_sequence) then apply_known head s
      else apply_next head s
  end.

End apply.

End Gov.
