(* ===== verification/GovernanceCodec.v ===== *)
(** * The statement encoding is canonical

    [statement_decode] accepts a byte string exactly when it is the encoding
    of the statement it returns, and a statement within the format's limits
    decodes from its encoding. *)

From S2P Require Export Governance.

Local Open Scope Z_scope.

Module GovCodec.
Import Gov.

(** The counts the format can express. *)
Definition body_ok (b : Body) : Prop :=
  match b with
  | Genesis _ ks => (length ks < 256)%nat
  | Rotation es => (length es < 256)%nat
  | Revocation ks | Admission ks => Z.of_nat (length ks) < 2 ^ 16
  | Activation | Death => True
  end.

(** What a statement must satisfy to have an encoding. *)
Definition statement_ok (s : Statement) : Prop :=
  u64_range s.(core).(sequence) ∧ body_ok s.(core).(body) ∧
  u16_range (Z.of_nat (length (body_encode s.(core).(body)))) ∧
  (length s.(signatures) < 256)%nat ∧
  (length (statement_encode s) ≤ MAX_STATEMENT_LEN)%nat.

Lemma reads_entry {E n} (e : E) (x : byte * array n) : reads (p_entry e n) (entry_encode x) x.
Proof.
  destruct x as [i a]. unfold p_entry, entry_encode. cbn [fst snd].
  change (i :: array_bytes a) with ([i] ++ array_bytes a).
  eapply reads_bind; [apply reads_u8|].
  rewrite <-(app_nil_r (array_bytes a)). eapply reads_bind; [apply reads_array|apply reads_ret].
Qed.

Lemma exact_entry {E n} (e : E) : exact_for (p_entry e n) entry_encode (λ _, True).
Proof. intros s [i a] rest H. unfold p_entry in H. by p_inv. Qed.

Lemma exact_array {E n} (e : E) : exact_for (p_array e n) array_bytes (λ _, True).
Proof. intros s a rest H. by p_inv. Qed.

Lemma reads_keys (ks : list Key) n :
  length ks = n → reads (p_repeat n (p_array Malformed 32)) (mjoin (array_bytes <$> ks)) ks.
Proof. intros H. apply reads_repeat; [done|]. intros. apply reads_array. Qed.

Lemma reads_body b : body_ok b → reads (body_parser (body_kind b)) (body_encode b) b.
Proof.
  destruct b as [t ks|es|ks|ks| |]; cbn [body_ok]; intros Hok; unfold body_parser, body_encode; cbn.
  - change (?x :: ?y :: ?l) with ([x] ++ [y] ++ l).
    eapply reads_bind; [apply reads_u8|]. eapply reads_bind; [apply reads_u8|].
    rewrite byte_nat_of by done. rewrite <-(app_nil_r (mjoin _)).
    eapply reads_bind; [by apply reads_keys|apply reads_ret].
  - change (?y :: ?l) with ([y] ++ l). eapply reads_bind; [apply reads_u8|].
    rewrite byte_nat_of by done. rewrite <-(app_nil_r (mjoin _)).
    eapply reads_bind; [|apply reads_ret].
    apply reads_repeat; [done|]. intros. apply reads_entry.
  - eapply (reads_bind _ _ (be_bytes 2 _)); [apply reads_be; lia|]. rewrite Nat2Z.id, <-(app_nil_r (mjoin _)).
    eapply reads_bind; [by apply reads_keys|apply reads_ret].
  - eapply (reads_bind _ _ (be_bytes 2 _)); [apply reads_be; lia|]. rewrite Nat2Z.id, <-(app_nil_r (mjoin _)).
    eapply reads_bind; [by apply reads_keys|apply reads_ret].
  - apply reads_ret.
  - apply reads_ret.
Qed.

Lemma byte_nat_lt b : (byte_nat b < 256)%nat.
Proof. pose proof (byte_val_range b). pose proof (byte_nat_val b). lia. Qed.

Lemma byte_of_nat b : byte_of (Z.of_nat (byte_nat b)) = b.
Proof. by rewrite byte_nat_val, byte_of_val. Qed.

Lemma exact_body kind s b rest :
  body_parser kind s = Ok (b, rest) → s = body_encode b ++ rest ∧ body_ok b ∧ body_kind b = kind.
Proof.
  unfold body_parser. intros H.
  repeat case_decide; p_inv; subst;
    repeat match goal with
    | H : p_repeat _ (p_array _ _) _ = Ok _ |- _ =>
        apply (repeat_exact _ _ _ _ (exact_array _)) in H as [-> [? _]]
    | H : p_repeat _ (p_entry _ _) _ = Ok _ |- _ =>
        apply (repeat_exact _ _ _ _ (exact_entry _)) in H as [-> [? _]]
    end; unfold body_encode; cbn [body_ok body_kind].
  all: repeat match goal with
    | H : length _ = byte_nat _ |- _ => rewrite H; clear H
    | H : length _ = Z.to_nat _ |- _ => rewrite H; clear H
    end; rewrite ?byte_of_nat, ?Z2Nat.id by lia.
  all: split_and!; try done; try apply byte_nat_lt; try lia.
  all: try by rewrite <-?app_assoc.
  all: naive_solver.
Qed.

Lemma reads_lift {E A} (r : result E A) a : r = Ok a → reads (p_lift r) [] a.
Proof. by intros ->. Qed.

Lemma reads_statement s : statement_ok s → reads statement_parser (statement_encode s) s.
Proof.
  intros (Hseq & Hbody & Hlen & Hsigs & _).
  destruct s as [[nid sq prev b] sigs]. cbn in Hseq, Hbody, Hlen, Hsigs. unfold statement_parser, statement_encode, core_encode.
  cbn [core network_id sequence previous body signatures]. rewrite <-!app_assoc.
  eapply (reads_bind _ _ [_]); [apply reads_u8|].
  eapply reads_bind_nil; [by apply reads_require|].
  eapply reads_bind; [apply reads_array|].
  eapply (reads_bind _ _ (be_bytes 8 sq)); [apply reads_be; unfold u64_range in Hseq; lia|].
  eapply reads_bind; [apply reads_array|].
  eapply (reads_bind _ _ [_]); [apply reads_u8|].
  eapply (reads_bind _ _ (be_bytes 2 _)); [apply reads_be; unfold u16_range in Hlen; lia|].
  rewrite Nat2Z.id. eapply reads_bind; [apply reads_take|].
  eapply reads_bind_nil; [apply reads_lift, reads_run; by apply reads_body|].
  eapply (reads_bind _ _ [_]); [apply reads_u8|]. rewrite byte_nat_of by done.
  rewrite <-(app_nil_r (mjoin _)). eapply reads_bind; [|apply reads_ret].
  apply reads_repeat; [done|]. intros. apply reads_entry.
Qed.

Lemma lift_parser_Ok {E A} (r : result E A) s a rest :
  p_lift r s = Ok (a, rest) ↔ r = Ok a ∧ s = rest.
Proof. unfold p_lift. destruct r; cbn; naive_solver. Qed.

Lemma body_decode_exact kind bytes b :
  body_decode kind bytes = Ok b → bytes = body_encode b ∧ body_ok b ∧ body_kind b = kind.
Proof.
  unfold body_decode.
  apply (run_exact _ _ body_encode (λ b, body_ok b ∧ body_kind b = kind)).
  intros s v rest. apply exact_body.
Qed.

Lemma exact_statement :
  exact_for statement_parser statement_encode (λ s,
    u64_range s.(core).(sequence) ∧ body_ok s.(core).(body) ∧
    u16_range (Z.of_nat (length (body_encode s.(core).(body)))) ∧
    (length s.(signatures) < 256)%nat).
Proof.
  intros s v rest H. unfold statement_parser in H. p_inv.
  match goal with H : p_lift _ _ = Ok _ |- _ => apply lift_parser_Ok in H as [Hbody ->] end.
  apply body_decode_exact in Hbody as (-> & Hok & <-).
  match goal with H : p_repeat _ _ _ = Ok _ |- _ =>
    apply (repeat_exact _ _ _ _ (exact_entry _)) in H as [-> [Hn _]] end.
  apply bool_decide_eq_true in Hb as ->.
  unfold statement_encode, core_encode. cbn [core network_id sequence previous body signatures].
  match goal with H : length (body_encode _) = Z.to_nat _ |- _ => rewrite H end.
  rewrite Hn, byte_of_nat, Z2Nat.id by lia. split.
  - by rewrite <-!app_assoc.
  - unfold u64_range, u16_range. split_and!; [lia|lia|done|lia|lia|apply byte_nat_lt].
Qed.

#[local] Opaque MAX_STATEMENT_LEN.

Lemma decode_encode s : statement_ok s → statement_decode (statement_encode s) = Ok s.
Proof.
  intros Hok. unfold statement_decode. pose proof Hok as (_ & _ & _ & _ & Hlen).
  apply Nat.ltb_ge in Hlen. rewrite Hlen. apply reads_run. by apply reads_statement.
Qed.

Lemma decode_inv bytes s :
  statement_decode bytes = Ok s → statement_encode s = bytes ∧ statement_ok s.
Proof.
  unfold statement_decode. destruct (MAX_STATEMENT_LEN <? length bytes)%nat eqn:Hlen; [discriminate|].
  intros H. apply (run_exact _ _ _ _ _ _ exact_statement) in H as [-> (? & ? & ? & ?)].
  apply Nat.ltb_ge in Hlen. split; [reflexivity|]. split_and!; assumption.
Qed.

(** C31: decoding a governance statement is exactly the inverse of encoding:
    [Statement::decode bytes] returns [s] if and only if [bytes] is the
    encoding of [s] and [s] fits the format (sequence in 64 bits, counts in
    their length fields, at most 16 KiB). So every accepted byte string has
    one reading, every statement one encoding, and trailing, missing or
    over-long bytes are refused. *)
Theorem statement_codec_exact bytes s :
  statement_decode bytes = Ok s ↔ statement_encode s = bytes ∧ statement_ok s.
Proof. split; [apply decode_inv|]. intros [<- Hok]. by apply decode_encode. Qed.

End GovCodec.
