(* ===== verification/GovernanceChain.v ===== *)
(** * The governance chain: what [apply] guarantees

    [head_wf] is the structural invariant of a head; [gov_step] the
    transition a node makes when it persists what [apply] returned;
    [gov_reach] the heads a node can hold. The theorems: [apply] keeps the
    invariant and never panics, every change needs a quorum of the keys in
    force, death is terminal, a fork fences the node, revocation is
    permanent, and equal head hashes mean equal histories up to an explicit
    hash collision. *)

From S2P Require Export GovernanceCodec.

Local Open Scope Z_scope.

Module GovChain.
Import Gov.

Section chain.
Context `{Crypto}.

(** ** Quorums *)

Definition strong (k : Key) : Prop := key_valid k = true ∧ key_weak k = false.

(** At least [threshold] distinct indices of [ks], each with a strict
    signature of the statement's signing input under a strong key. *)
Definition quorum (s : Statement) (ks : list Key) (threshold : nat) : Prop :=
  (threshold ≤ length s.(signatures))%nat ∧ NoDup (fst <$> s.(signatures)) ∧
  ∀ i sig, (i, sig) ∈ s.(signatures) → ∃ k, ks !! byte_nat i = Some k ∧ strong k ∧
    verify_strict k (signing_input s.(core)) sig = true.

Lemma strong_key_Ok k k' : strong_key k = Ok k' ↔ k' = k ∧ strong k.
Proof.
  unfold strong_key, strong. destruct (key_valid k), (key_weak k); cbn; naive_solver.
Qed.

Definition after (last : option byte) (i : byte) : Prop :=
  match last with Some l => olt l i | None => True end.

Lemma order_guard last i n :
  match last with Some l => ogeb l i | None => false end || (n <=? byte_nat i)%nat = false
  ↔ after last i ∧ (byte_nat i < n)%nat.
Proof.
  rewrite orb_false_iff, Nat.leb_gt. destruct last as [l|]; cbn; [|naive_solver].
  unfold ogeb. rewrite negb_false_iff, oltb_olt. done.
Qed.

Lemma check_loop_Ok input ks last sigs :
  check_signatures_loop input ks last sigs = Ok () →
  increasing (fst <$> sigs) ∧ (∀ i, i ∈ fst <$> sigs → after last i) ∧
  ∀ i sig, (i, sig) ∈ sigs → ∃ k, ks !! byte_nat i = Some k ∧ strong k ∧
    verify_strict k input sig = true.
Proof.
  revert last. induction sigs as [|[i sig] sigs IH]; intros last; cbn [check_signatures_loop].
  { intros _. split_and!; [constructor|intros i Hi; inversion Hi|intros i s Hi; inversion Hi]. }
  destruct (_ || _) eqn:Hg; [done|]. apply order_guard in Hg as [Hafter Hi].
  intros Hl. ww_inv. apply lift_Ok, map_err_Ok, strong_key_Ok in H1 as [-> Hst].
  apply IH in Hl as (Hinc & Hall & Hver). unfold index in H0. apply ok_or_Ok in H0. split_and!.
  - cbn. constructor; [done|]. apply Forall_forall. intros j Hj. by apply (Hall j Hj).
  - intros j [->|Hj]%elem_of_cons; [done|]. destruct last as [l|]; [|done]. cbn in *.
    trans i; [done|]. by apply (Hall j).
  - intros j s [[= -> ->]|Hj]%elem_of_cons; [by eexists|by apply Hver].
Qed.

Lemma check_signatures_quorum s ks t : check_signatures s ks t = Ok () → quorum s ks t.
Proof.
  unfold check_signatures. destruct (_ || _) eqn:Hg; [done|]. bool_simpl.
  intros (Hinc & _ & Hver)%check_loop_Ok. split_and!; [done| |done].
  by apply increasing_NoDup.
Qed.

Lemma check_loop_complete input ks last sigs :
  increasing (fst <$> sigs) → (∀ i, i ∈ fst <$> sigs → after last i) →
  (∀ i sig, (i, sig) ∈ sigs → ∃ k, ks !! byte_nat i = Some k ∧ strong k ∧
    verify_strict k input sig = true) →
  check_signatures_loop input ks last sigs = Ok ().
Proof.
  revert last. induction sigs as [|[i sig] sigs IH]; intros last Hinc Hlast Hver; [done|].
  rewrite fmap_cons in Hinc, Hlast. cbn [fst] in *.
  inversion Hinc as [|? ? Hinc' Hi]; subst. rewrite Forall_forall in Hi. cbn [check_signatures_loop].
  destruct (Hver i sig) as (k & Hk & Hst & Hv); [by left|].
  rewrite (proj2 (order_guard last i (length ks))).
  2: { split; [apply Hlast; by left|by apply lookup_lt_Some in Hk]. }
  unfold index. rewrite Hk. cbn [ok_or mbind result_bind].
  rewrite (proj2 (strong_key_Ok k k) (conj eq_refl Hst)). cbn. rewrite Hv.
  apply IH; [done|done|]. intros j s Hj. apply Hver. by right.
Qed.

Lemma check_signatures_complete s ks t :
  increasing (fst <$> s.(signatures)) → quorum s ks t → (length s.(signatures) ≤ length ks)%nat →
  check_signatures s ks t = Ok ().
Proof.
  intros Hinc (Hlen & _ & Hver) Hmax. unfold check_signatures.
  rewrite (proj2 (Nat.ltb_ge _ _) Hlen), (proj2 (Nat.ltb_ge _ _) Hmax).
  by apply check_loop_complete.
Qed.

Lemma check_loop_no_panic input ks last sigs : no_panic (check_signatures_loop input ks last sigs).
Proof.
  revert last. induction sigs as [|[i sig] sigs IH]; intros last; cbn [check_signatures_loop]; [done|].
  destruct (_ || _) eqn:Hg; [done|]. apply order_guard in Hg as [_ Hi].
  apply no_panic_bind; [by apply no_panic_index|]. intros k _.
  apply no_panic_bind; [auto with ww|]. intros key _.
  destruct (verify_strict _ _ _); [apply IH|done].
Qed.

Lemma check_signatures_no_panic s ks t : no_panic (check_signatures s ks t).
Proof. unfold check_signatures. destruct (_ || _); [done|apply check_loop_no_panic]. Qed.

(** ** Key sets *)

Definition good_keys (ks : list Key) : Prop :=
  length ks = KEY_COUNT ∧ NoDup ks ∧ Forall strong ks.

Lemma repeats_NoDup {A} `{EqDecision A} (seen l : list A) :
  repeats seen l = false ↔ NoDup l ∧ ∀ x, x ∈ l → x ∉ seen.
Proof.
  revert seen. induction l as [|x l IH]; intros seen; cbn.
  { split; [|done]. intros _. split; [constructor|]. intros x Hx. inversion Hx. }
  rewrite orb_false_iff, bool_decide_eq_false, IH, NoDup_cons. set_solver.
Qed.

Lemma check_genesis_loop_Ok seen ks :
  check_genesis_loop seen ks = Ok () → NoDup ks ∧ (∀ k, k ∈ ks → k ∉ seen) ∧ Forall strong ks.
Proof.
  revert seen. induction ks as [|k ks IH]; intros seen; cbn [check_genesis_loop].
  { intros _. split_and!; [constructor| |constructor]. intros k Hk. inversion Hk. }
  intros Hl. ww_inv. apply strong_key_Ok in H0 as [-> Hst]. bool_simpl.
  apply IH in Hl as (Hnd & Hseen & Hall). split_and!.
  - constructor; [|done]. intros Hin. apply (Hseen k Hin). set_solver.
  - set_solver.
  - by constructor.
Qed.

Lemma check_genesis_good t ks :
  check_genesis t ks = Ok () → byte_nat t = THRESHOLD ∧ good_keys ks.
Proof.
  unfold check_genesis. destruct (_ || _) eqn:Hg; [done|]. bool_simpl.
  intros (Hnd & _ & Hst)%check_genesis_loop_Ok. done.
Qed.

Lemma rotate_loop_Ok ks last es ks' :
  rotate_loop ks last es = Ok ks' → length ks = KEY_COUNT → Forall strong ks →
  length ks' = KEY_COUNT ∧ Forall strong ks'.
Proof.
  revert ks last. induction es as [|[i k] es IH]; intros ks last; cbn [rotate_loop].
  { by intros [= ->]. }
  intros Hl Hlen Hst. ww_inv. apply lift_Ok, strong_key_Ok in H0 as [-> Hk].
  apply IH in Hl; [done|by rewrite length_insert|]. by apply Forall_insert.
Qed.

Lemma rotate_loop_no_panic ks last es : length ks = KEY_COUNT → no_panic (rotate_loop ks last es).
Proof.
  revert ks last. induction es as [|[i k] es IH]; intros ks last Hlen; cbn [rotate_loop]; [done|].
  destruct (_ || _) eqn:Hg; [done|]. apply order_guard in Hg as [_ Hi].
  apply no_panic_bind; [auto with ww|]. intros _ _.
  apply no_panic_bind; [apply no_panic_index; lia|]. intros _ _.
  apply IH. by rewrite length_insert.
Qed.

Lemma rotate_loop_index ks last es ks' i k :
  rotate_loop ks last es = Ok ks' → (i, k) ∈ es → (byte_nat i < KEY_COUNT)%nat.
Proof.
  revert ks last. induction es as [|[j k'] es IH]; intros ks last; cbn [rotate_loop].
  { intros _ Hin. inversion Hin. }
  intros Hl. ww_inv. apply order_guard in Hb as [_ Hj].
  intros [[= -> ->]|Hin]%elem_of_cons; [done|by eapply IH].
Qed.

Lemma rotate_same_no_panic current es :
  (∀ i k, (i, k) ∈ es → (byte_nat i < length current)%nat) → no_panic (rotate_same current es).
Proof.
  induction es as [|[i k] es IH]; intros Hi; cbn [rotate_same]; [done|].
  apply no_panic_bind; [apply no_panic_index, (Hi i k); set_solver|]. intros old _.
  case_decide; [done|]. apply IH. intros j k' Hj. apply (Hi j k'). set_solver.
Qed.

Lemma rotated_good current es ks : good_keys current → rotated current es = Ok ks → good_keys ks.
Proof.
  intros (Hlen & Hnd & Hst) Hr. unfold rotated in Hr. ww_inv.
  apply rotate_loop_Ok in H0 as [Hlen' Hst']; [|done|done].
  apply repeats_NoDup in Hb0 as [Hnd' _]. done.
Qed.

Lemma rotated_no_panic current es : length current = KEY_COUNT → no_panic (rotated current es).
Proof.
  intros Hlen. unfold rotated. destruct (_ || _); [done|].
  apply no_panic_bind; [by apply rotate_loop_no_panic|]. intros ks Hks.
  destruct (repeats [] ks); [done|]. apply no_panic_bind; [|done].
  apply rotate_same_no_panic. intros i k Hin. rewrite Hlen. by eapply rotate_loop_index.
Qed.

(** ** The invariant *)

Record head_wf (h : Head) : Prop := {
  hw_seq : u64_range h.(h_sequence);
  hw_threshold : byte_nat h.(h_threshold) = THRESHOLD;
  hw_applied : length h.(applied) = S (Z.to_nat h.(h_sequence));
  hw_last : last h.(applied) = Some h.(h_hash);
  hw_first : ∃ ks rest, h.(key_epochs) = (0, ks) :: rest;
  hw_epochs : StronglySorted (λ a b, a.1 < b.1) h.(key_epochs);
  hw_epoch : ∀ e, e ∈ h.(key_epochs) → e.1 ≤ h.(h_sequence) ∧ good_keys e.2;
  hw_revoked : increasing h.(revoked);
  hw_roster : increasing h.(roster);
  hw_roster_len : (length h.(roster) ≤ MAX_ROSTER)%nat;
  hw_disjoint : ∀ k, k ∈ h.(roster) → k ∉ h.(revoked);
  hw_activated : ∀ a, h.(activated_at) = Some a → a ≤ h.(h_sequence);
  hw_dead : ∀ d, h.(dead_at) = Some d → d = h.(h_sequence)
}.

Lemma keys_wf h : head_wf h →
  ∃ ks, keys (E:=GovError) h = Ok ks ∧ good_keys ks ∧
    ∃ e, last h.(key_epochs) = Some e ∧ ks = e.2.
Proof.
  intros Hw. destruct (hw_first _ Hw) as (ks0 & rest & Heq). unfold keys.
  destruct (last (key_epochs h)) as [e|] eqn:He.
  - exists e.2. split_and!; [done| |by exists e]. apply (hw_epoch _ Hw).
    by apply last_Some_elem_of.
  - apply last_None in He. by rewrite He in Heq.
Qed.

Lemma find_first_rev {A} (f : A → bool) x l : f x = true → ∃ y, List.find f (rev (x :: l)) = Some y.
Proof.
  intros Hx. destruct (List.find f (rev (x :: l))) as [y|] eqn:Hf; [by exists y|].
  pose proof (find_none _ _ Hf x) as Hn. rewrite Hn in Hx; [done|].
  apply in_rev. rewrite rev_involutive. by left.
Qed.

Lemma keys_before_wf h s : head_wf h → 0 < s →
  ∃ ks, keys_before (E:=GovError) h s = Ok ks ∧ good_keys ks ∧
    ∃ at_, (at_, ks) ∈ h.(key_epochs) ∧ at_ < s.
Proof.
  intros Hw Hs. destruct (hw_first _ Hw) as (ks0 & rest & Heq). unfold keys_before.
  destruct (find_first_rev (λ e : Z * list Key, e.1 <? s) (0, ks0) rest) as [[a ks] He].
  { cbn. lia. }
  rewrite Heq, He. apply find_some in He as [Hin Hlt]. cbn in Hlt.
  apply in_rev in Hin. apply list_elem_of_In in Hin. rewrite <-Heq in Hin.
  destruct (hw_epoch _ Hw _ Hin) as [_ Hgood].
  exists ks. split_and!; [done|done|exists a; split; [by rewrite <-Heq|lia]].
Qed.

(** ** The sorted-set updates *)

Lemma revoke_key_spec rv ro k :
  increasing rv → increasing ro →
  let '(rv', ro') := revoke_key (rv, ro) k in
  increasing rv' ∧ increasing ro' ∧ (∀ x, x ∈ rv' ↔ x = k ∨ x ∈ rv) ∧
  (∀ x, x ∈ ro' ↔ x ∈ ro ∧ x ≠ k) ∧ (length ro' ≤ length ro)%nat.
Proof.
  intros Hrv Hro. cbn.
  pose proof (binary_search_spec ro k Hro) as Sro. pose proof (binary_search_spec rv k Hrv) as Srv.
  pose proof (binary_search_Err_not_elem ro k) as Nro.
  split_and!.
  - destruct (binary_search rv k) eqn:Hb; [done|by apply vec_insert_increasing].
  - destruct (binary_search ro k) eqn:Hb; [|done].
    eapply increasing_sublist; [apply vec_remove_sublist|done].
  - intros x. destruct (binary_search rv k) as [i|i]; [|apply elem_of_vec_insert].
    assert (k ∈ rv) by (apply list_elem_of_lookup; eauto). naive_solver.
  - intros x. destruct (binary_search ro k) as [i|i]; [by apply elem_of_vec_remove|].
    specialize (Nro i Hro eq_refl). naive_solver.
  - destruct (binary_search ro k) as [i|i]; [|done].
    apply sublist_length, vec_remove_sublist.
Qed.

Lemma revoke_keys_spec ks rv ro :
  increasing rv → increasing ro →
  let '(rv', ro') := foldl revoke_key (rv, ro) ks in
  increasing rv' ∧ increasing ro' ∧ (∀ x, x ∈ rv' ↔ x ∈ ks ∨ x ∈ rv) ∧
  (∀ x, x ∈ ro' ↔ x ∈ ro ∧ x ∉ ks) ∧ (length ro' ≤ length ro)%nat.
Proof.
  revert rv ro. induction ks as [|k ks IH]; intros rv ro Hrv Hro.
  { cbn. split_and!; [done|done|set_solver|set_solver|done]. }
  pose proof (revoke_key_spec rv ro k Hrv Hro) as Hk. cbn [foldl].
  destruct (revoke_key (rv, ro) k) as [rv1 ro1]. destruct Hk as (Hrv1 & Hro1 & E1 & E2 & Hlen).
  specialize (IH rv1 ro1 Hrv1 Hro1). destruct (foldl revoke_key (rv1, ro1) ks) as [rv' ro'].
  destruct IH as (? & ? & E3 & E4 & ?). split_and!; [done|done| |  |lia].
  - intros x. rewrite E3, E1. set_solver.
  - intros x. rewrite E4, E2. set_solver.
Qed.

Lemma admit_keys_spec ks ro :
  increasing ro → NoDup ks → (∀ k, k ∈ ks → k ∉ ro) →
  ∃ ro', try_fold admit_key ro ks = Ok ro' ∧ increasing ro' ∧
    (∀ x, x ∈ ro' ↔ x ∈ ks ∨ x ∈ ro) ∧ length ro' = (length ro + length ks)%nat.
Proof.
  revert ro. induction ks as [|k ks IH]; intros ro Hro Hnd Hfresh.
  { exists ro. cbn. split_and!; [done|done|set_solver|lia]. }
  apply NoDup_cons in Hnd as [Hk Hnd]. cbn [try_fold].
  destruct (binary_search ro k) as [i|i] eqn:Hb.
  { assert (is_ok (binary_search ro k) = true) as Hin by by rewrite Hb.
    apply binary_search_elem_of in Hin; [|done]. by destruct (Hfresh k); [set_solver|]. }
  assert (admit_key ro k = Ok (vec_insert i k ro)) as -> by (unfold admit_key; by rewrite Hb).
  destruct (IH (vec_insert i k ro)) as (ro' & Hfold & Hinc & Hmem & Hlen).
  - by apply vec_insert_increasing.
  - done.
  - intros x Hx. rewrite elem_of_vec_insert. set_solver.
  - exists ro'. split_and!; [exact Hfold|done| |].
    + intros x. rewrite Hmem, elem_of_vec_insert. set_solver.
    + rewrite Hlen, length_vec_insert. cbn. lia.
Qed.

Lemma check_admission_loop_Ok h ks : head_wf h →
  check_admission_loop h ks = Ok () →
  ∀ k, k ∈ ks → strong k ∧ k ∉ h.(revoked) ∧ k ∉ h.(roster).
Proof.
  intros Hw. induction ks as [|k ks IH]; cbn [check_admission_loop].
  { intros _ k Hk. inversion Hk. }
  intros Hl. ww_inv. apply strong_key_Ok in H0 as [-> Hst]. bool_simpl.
  intros k' [->|Hk']%elem_of_cons; [|by apply IH]. split_and!; [done| |].
  - rewrite <-(binary_search_elem_of _ _ (hw_revoked _ Hw)). congruence.
  - rewrite <-(binary_search_elem_of _ _ (hw_roster _ Hw)). congruence.
Qed.

Lemma check_admission_Ok h ks : head_wf h →
  check_admission h ks = Ok () →
  increasing ks ∧ (length h.(roster) + length ks ≤ MAX_ROSTER)%nat ∧
  ∀ k, k ∈ ks → strong k ∧ k ∉ h.(revoked) ∧ k ∉ h.(roster).
Proof.
  intros Hw Hc. unfold check_admission in Hc. ww_inv. bool_simpl.
  destruct x. apply windows2_not_increasing in Hb0.
  split_and!; [done|done|by apply check_admission_loop_Ok].
Qed.

(** ** The abstract network a head stands for *)

Record Network : Type := mkNetwork {
  n_keys : list Key;
  n_revoked : gset Key;
  n_roster : gset Key;
  n_active : bool;
  n_dead : bool
}.

Definition abs (h : Head) : Network := {|
  n_keys := default [] (snd <$> last h.(key_epochs));
  n_revoked := list_to_set h.(revoked);
  n_roster := list_to_set h.(roster);
  n_active := bool_decide (is_Some h.(activated_at));
  n_dead := bool_decide (is_Some h.(dead_at))
|}.

(** Writing the rotated keys at their indices. *)
Definition put_keys (ks : list Key) (es : list (byte * Key)) : list Key :=
  foldl (λ ks e, <[byte_nat e.1 := e.2]> ks) ks es.
Arguments put_keys : simpl never.

(** What each kind of statement does to the network, as sets. *)
Inductive net_effect : Network → Body → Network → Prop :=
| eff_rotation n es :
    es ≠ [] → (∀ i k, (i, k) ∈ es → strong k ∧ (byte_nat i < KEY_COUNT)%nat) →
    NoDup (put_keys n.(n_keys) es) →
    net_effect n (Rotation es)
      (mkNetwork (put_keys n.(n_keys) es) n.(n_revoked) n.(n_roster) n.(n_active) n.(n_dead))
| eff_revocation n ks :
    ks ≠ [] → (length ks ≤ MAX_REVOKED_PER_STATEMENT)%nat →
    net_effect n (Revocation ks)
      (mkNetwork n.(n_keys) (list_to_set ks ∪ n.(n_revoked)) (n.(n_roster) ∖ list_to_set ks)
        n.(n_active) n.(n_dead))
| eff_admission n ks :
    ks ≠ [] → (∀ k, k ∈ ks → strong k ∧ k ∉ n.(n_revoked) ∧ k ∉ n.(n_roster)) →
    net_effect n (Admission ks)
      (mkNetwork n.(n_keys) n.(n_revoked) (list_to_set ks ∪ n.(n_roster)) n.(n_active) n.(n_dead))
| eff_activation n :
    n.(n_active) = false →
    net_effect n Activation (mkNetwork n.(n_keys) n.(n_revoked) n.(n_roster) true n.(n_dead))
| eff_death n :
    net_effect n Death (mkNetwork n.(n_keys) n.(n_revoked) n.(n_roster) n.(n_active) true).

Lemma rotate_loop_put ks last es ks' :
  rotate_loop ks last es = Ok ks' →
  ks' = put_keys ks es ∧ ∀ i k, (i, k) ∈ es → strong k ∧ (byte_nat i < KEY_COUNT)%nat.
Proof.
  revert ks last. induction es as [|[i k] es IH]; intros ks last; cbn [rotate_loop].
  { intros [= ->]. split; [done|]. intros i k Hin. inversion Hin. }
  intros Hl. ww_inv. apply order_guard in Hb as [_ Hi].
  apply lift_Ok, strong_key_Ok in H0 as [_ Hk]. apply IH in Hl as [-> Hall].
  split; [done|]. intros j k' [[= -> ->]|Hin]%elem_of_cons; [done|by apply Hall].
Qed.

(** The fields a statement's body never touches. *)
Definition same_frame (h next : Head) : Prop :=
  h_network_id next = h_network_id h ∧ h_sequence next = h_sequence h ∧
  h_threshold next = h_threshold h ∧ applied next = applied h ∧ forked next = forked h.

Lemma apply_body_no_panic h c : head_wf h → no_panic (apply_body h c).
Proof.
  intros Hw. destruct (keys_wf h Hw) as (ks0 & Hks0 & (Hlen & _) & _).
  unfold apply_body. destruct h as [n sq hh t ke rv ap fk ro act dead] eqn:Hh. rewrite <-Hh in *.
  destruct (body c) as [? ?|es|ks|ks| |]; auto with ww.
  - rewrite Hks0. apply no_panic_bind; [done|]. intros cur [= ->].
    apply no_panic_bind; [by apply rotated_no_panic|done].
  - apply no_panic_bind; [auto with ww|]. intros _ _. by destruct (foldl _ _ _).
  - apply no_panic_bind; [auto with ww|]. intros [] Hc. apply lift_Ok in Hc.
    apply (check_admission_Ok h ks Hw) in Hc as (Hinc & _ & Hall).
    destruct (admit_keys_spec ks ro) as (ro' & -> & _); [|by apply increasing_NoDup| |done].
    + pose proof (hw_roster _ Hw) as Hro. by rewrite Hh in Hro.
    + intros k Hk. destruct (Hall k Hk) as (_ & _ & Hr). by rewrite Hh in Hr.
  - by destruct (bool_decide _).
Qed.

Lemma apply_body_effect h c next :
  head_wf h → apply_body h c = Ok next →
  same_frame h next ∧ net_effect (abs h) (body c) (abs next).
Proof.
  intros Hw Ha. destruct (keys_wf h Hw) as (ks0 & Hks0 & _ & e0 & He0 & ->).
  pose proof (hw_revoked _ Hw) as Hrv. pose proof (hw_roster _ Hw) as Hro.
  unfold apply_body in Ha. destruct h as [n sq hh t ke rv ap fk ro act dead] eqn:Hh.
  rewrite <-Hh in Ha, Hw, Hks0. unfold abs; cbn [key_epochs revoked roster activated_at dead_at] in *.
  rewrite He0. destruct (body c) as [? ?|es|ks|ks| |]; try rewrite Hks0 in Ha; ww_inv.
  - match goal with Hr : rotated _ _ = Ok _ |- _ => unfold rotated in Hr end. ww_inv.
    match goal with Hr : rotate_loop _ _ _ = Ok _ |- _ =>
      apply rotate_loop_put in Hr as [-> Hall] end. bool_simpl.
    apply repeats_NoDup in Hb0 as [Hnd _]. split; [done|]. cbn. rewrite last_snoc. cbn.
    by apply (eff_rotation (mkNetwork e0.2 _ _ _ _)).
  - match goal with Hc : lift _ = Ok ?u |- _ => destruct u; apply lift_Ok in Hc;
      unfold check_revocation in Hc end. ww_inv. bool_simpl.
    pose proof (revoke_keys_spec ks rv ro Hrv Hro) as Hspec. rewrite Hx in Hspec.
    destruct Hspec as (_ & _ & E1 & E2 & _). split; [done|]. cbn. rewrite He0. cbn.
    assert (list_to_set l = (list_to_set ks ∪ list_to_set rv : gset Key)) as -> by set_solver.
    assert (list_to_set l0 = (list_to_set ro ∖ list_to_set ks : gset Key)) as -> by set_solver.
    by apply (eff_revocation (mkNetwork e0.2 (list_to_set rv) (list_to_set ro) _ _)).
  - match goal with Hc : lift _ = Ok ?u |- _ => destruct u; apply lift_Ok in Hc;
      pose proof Hc as Hne; apply (check_admission_Ok _ _ Hw) in Hc as (Hinc & _ & Hall) end.
    unfold check_admission in Hne. ww_inv. bool_simpl.
    cbn [revoked roster] in Hall.
    destruct (admit_keys_spec ks ro) as (ro' & Hf & _ & E1 & _);
      [done|by apply increasing_NoDup|naive_solver|].
    match goal with Hr : try_fold _ _ _ = Ok _ |- _ =>
      rewrite Hf in Hr; injection Hr as <- end. split; [done|]. cbn. rewrite He0. cbn.
    assert (list_to_set ro' = (list_to_set ks ∪ list_to_set ro : gset Key)) as -> by set_solver.
    apply (eff_admission (mkNetwork e0.2 (list_to_set rv) (list_to_set ro) _ _)); [done|].
    intros k Hk. destruct (Hall k Hk) as (? & ? & ?). cbn. rewrite !elem_of_list_to_set. done.
  - bool_simpl. split; [done|]. cbn. rewrite He0. cbn.
    destruct act; [by destruct Hb|]. by apply (eff_activation (mkNetwork e0.2 _ _ _ _)).
  - split; [done|]. cbn. rewrite He0. cbn. apply (eff_death (mkNetwork e0.2 _ _ _ _)).
Qed.

(** ** Preservation *)

(** What the admission loop leaves after [check_admission] passed. *)
Lemma admitted_wf h ks u ro' :
  head_wf h → lift (check_admission h ks) = Ok u → try_fold admit_key h.(roster) ks = Ok ro' →
  increasing ro' ∧ (length ro' ≤ MAX_ROSTER)%nat ∧ ∀ k, k ∈ ro' → k ∉ h.(revoked).
Proof.
  intros Hw Hc Hf. destruct u. apply lift_Ok in Hc.
  apply (check_admission_Ok _ _ Hw) in Hc as (Hinc & Hlen & Hall).
  destruct (admit_keys_spec ks h.(roster)) as (ro1 & Hf1 & Hro & Hmem & Hlen1);
    [apply (hw_roster _ Hw)|by apply increasing_NoDup|naive_solver|].
  assert (ro1 = ro') as -> by congruence. split_and!; [done|lia|].
  intros k [Hk|Hk]%Hmem; [by apply Hall|by apply (hw_disjoint _ Hw)].
Qed.

Lemma epochs_snoc (ke : list (Z * list Key)) s ks :
  StronglySorted (λ a b, a.1 < b.1) ke → (∀ e, e ∈ ke → e.1 < s) →
  StronglySorted (λ a b, a.1 < b.1) (ke ++ [(s, ks)]).
Proof.
  intros Hke Hs. apply StronglySorted_app_2; [|done|repeat constructor].
  intros a b Ha ->%list_elem_of_singleton. by apply Hs.
Qed.

Lemma seal_wf h c next :
  head_wf h → h.(dead_at) = None → c.(sequence) = h.(h_sequence) + 1 →
  u64_range c.(sequence) → apply_body h c = Ok next → head_wf (seal next c).
Proof.
  intros Hw Hdead Hseq Hr Ha. destruct (keys_wf h Hw) as (ks0 & Hks0 & Hgood & _).
  pose proof (hw_seq _ Hw) as [Hs0 _]. pose proof Hw as Hw'.
  destruct Hw' as [? Hthr Hap Hlast Hfirst Hep Hepk Hrv Hro Hrl Hdis Hact _].
  unfold apply_body in Ha. destruct h as [n sq hh t ke rv ap fk ro act dead] eqn:Hh.
  rewrite <-Hh in Ha, Hw, Hks0.
  cbn [h_network_id h_sequence h_hash h_threshold key_epochs revoked applied forked roster
    activated_at dead_at] in *. subst dead.
  assert (∀ e, e ∈ ke → e.1 ≤ c.(sequence) ∧ good_keys e.2) as Hepk'.
  { intros e He. destruct (Hepk e He). split; [lia|done]. }
  destruct (body c) as [? ?|es|ks|ks| |]; try rewrite Hks0 in Ha; ww_inv;
    unfold seal; constructor;
    cbn [h_network_id h_sequence h_hash h_threshold key_epochs revoked applied forked roster
      activated_at dead_at];
    try done; try (by rewrite last_snoc); try (rewrite length_app, Hap; cbn; lia);
    try (by intros a Ha; specialize (Hact a Ha); lia); try (by intros d [= <-]).
  - destruct Hfirst as (k0 & rest & ->). by eexists k0, _.
  - apply epochs_snoc; [done|]. intros e He. destruct (Hepk e He). lia.
  - intros e [He| ->%list_elem_of_singleton]%elem_of_app; [by apply Hepk'|].
    split; [cbn; lia|]. by eapply rotated_good.
  - pose proof (revoke_keys_spec ks rv ro Hrv Hro) as Hspec. rewrite Hx in Hspec. apply Hspec.
  - pose proof (revoke_keys_spec ks rv ro Hrv Hro) as Hspec. rewrite Hx in Hspec. apply Hspec.
  - pose proof (revoke_keys_spec ks rv ro Hrv Hro) as Hspec. rewrite Hx in Hspec.
    destruct Hspec as (_ & _ & _ & _ & ?). lia.
  - pose proof (revoke_keys_spec ks rv ro Hrv Hro) as Hspec. rewrite Hx in Hspec.
    destruct Hspec as (_ & _ & E1 & E2 & _). intros k Hk. set_solver.
  - by eapply (admitted_wf _ _ _ _ Hw).
  - by eapply (admitted_wf _ _ _ _ Hw).
  - by eapply (admitted_wf _ _ _ _ Hw).
Qed.

Lemma set_forked_wf h : head_wf h → head_wf (set_forked h).
Proof. destruct h. intros []. by constructor. Qed.

Lemma apply_genesis_wf s e h :
  apply_genesis s e = Ok (Applied h) → head_wf h ∧ h.(forked) = false.
Proof.
  unfold apply_genesis. intros Ha. ww_inv.
  destruct x. apply lift_Ok in H0. apply check_genesis_good in H0 as [Ht Hk].
  split; [|done]. constructor; cbn; try done.
  - by eexists _, _.
  - repeat constructor.
  - intros e' ->%list_elem_of_singleton. done.
  - constructor.
  - constructor.
  - lia.
  - intros k Hin. inversion Hin.
Qed.

(** The successor guard, with the wrap-around of [head.sequence + 1] excluded
    by [core.sequence > head.sequence]. *)
Lemma next_sequence a b :
  u64_range a → u64_range b → (a =? u64_add b 1) = true → (a <=? b) = false → a = b + 1.
Proof.
  unfold u64_range. intros Ha Hb Heq Hgt. bool_simpl. subst a.
  destruct (decide (b + 1 < 2 ^ 64)).
  - rewrite u64_add_small by lia. done.
  - assert (b = 2 ^ 64 - 1) as -> by lia. vm_compute in Hgt. done.
Qed.

(** Everything an [Applied] outcome on a live head establishes. *)
Lemma apply_next_inv h s h' :
  head_wf h → u64_range s.(core).(sequence) →
  (s.(core).(sequence) <=? h.(h_sequence)) = false →
  apply_next h s = Ok (Applied h') →
  s.(core).(sequence) = h.(h_sequence) + 1 ∧ s.(core).(previous) = h.(h_hash) ∧
  ∃ ks next, keys (E:=GovError) h = Ok ks ∧ good_keys ks ∧ quorum s ks THRESHOLD ∧
    apply_body h s.(core) = Ok next ∧ h' = seal next s.(core).
Proof.
  intros Hw Hr Hgt Ha. unfold apply_next in Ha. ww_inv. bool_simpl.
  destruct (keys_wf h Hw) as (ks & Hks & Hgood & _).
  assert (x = ks) as -> by congruence. destruct x0.
  match goal with Hq : check_signatures _ _ _ = Ok () |- _ =>
    apply check_signatures_quorum in Hq; rewrite (hw_threshold _ Hw) in Hq end.
  split_and!; [apply next_sequence; [done|apply (hw_seq _ Hw)|by apply Z.eqb_eq|by apply Z.leb_gt]
              |done|].
  by eexists ks, x1.
Qed.

(** The cases of [apply] on a head. *)
Lemma apply_cases h s e :
  apply (Some h) s e =
    if bool_decide (is_Some h.(dead_at)) then apply_dead h s
    else if h.(forked) && negb (is_death s.(core).(body)
              && (s.(core).(sequence) =? u64_add h.(h_sequence) 1)
              && bool_decide (s.(core).(previous) = h.(h_hash))) then raise Forked
    else if negb (bool_decide (s.(core).(network_id) = h.(h_network_id))) then raise WrongNetwork
    else if s.(core).(sequence) <=? h.(h_sequence) then apply_known h s
    else apply_next h s.
Proof. reflexivity. Qed.

Lemma apply_Applied h s e h' :
  apply (Some h) s e = Ok (Applied h') →
  h.(dead_at) = None ∧ (h.(forked) = true → body (core s) = Death) ∧
  s.(core).(network_id) = h.(h_network_id) ∧
  (s.(core).(sequence) <=? h.(h_sequence)) = false ∧ apply_next h s = Ok (Applied h').
Proof.
  rewrite apply_cases. intros Ha.
  destruct (bool_decide (is_Some (dead_at h))) eqn:Hd.
  { unfold apply_dead in Ha. ww_inv. }
  apply bool_decide_eq_false in Hd. rewrite <-eq_None_not_Some in Hd.
  ww_inv. { unfold apply_known in Ha. ww_inv. }
  apply negb_false_iff, bool_decide_eq_true in Hb0. split_and!; try done.
  intros Hf. rewrite Hf in Hb. cbn [andb] in Hb. bool_simpl. by destruct (body (core s)).
Qed.

Lemma apply_Fork h s e h' :
  apply (Some h) s e = Ok (ForkOutcome h') →
  h.(dead_at) = None ∧ h' = set_forked h ∧ s.(core).(network_id) = h.(h_network_id) ∧
  s.(core).(sequence) ≤ h.(h_sequence) ∧ s.(core).(sequence) ≠ 0 ∧
  (∃ recorded, h.(applied) !! Z.to_nat s.(core).(sequence) = Some recorded ∧
     recorded ≠ core_hash s.(core)) ∧
  ∃ ks, keys_before (E:=GovError) h s.(core).(sequence) = Ok ks ∧
    check_signatures s ks (byte_nat h.(h_threshold)) = Ok ().
Proof.
  rewrite apply_cases. intros Ha.
  destruct (bool_decide (is_Some (dead_at h))) eqn:Hd.
  { unfold apply_dead in Ha. ww_inv. }
  apply bool_decide_eq_false in Hd. rewrite <-eq_None_not_Some in Hd.
  ww_inv; [|unfold apply_next in Ha; ww_inv].
  unfold apply_known, index in Ha. ww_inv. bool_simpl.
  match goal with Hq : check_signatures _ _ _ = Ok ?u |- _ => destruct u end.
  split_and!; try done; [by eexists|by eexists].
Qed.

Lemma apply_genesis_no_panic s e : no_panic (apply_genesis s e).
Proof.
  unfold apply_genesis. destruct (body (core s)); auto with ww.
  destruct (_ || _); [done|]. destruct (negb _); [done|].
  apply no_panic_bind; [auto with ww|]. intros _ _.
  apply no_panic_bind; [apply check_signatures_no_panic|done].
Qed.

Lemma applied_index_no_panic h s :
  head_wf h → s ≤ h.(h_sequence) → no_panic (E:=GovError) (index h.(applied) (Z.to_nat s)).
Proof. intros Hw Hs. apply no_panic_index. rewrite (hw_applied _ Hw). lia. Qed.

Lemma apply_no_panic h s e :
  head_wf h → u64_range s.(core).(sequence) → no_panic (apply (Some h) s e).
Proof.
  intros Hw [Hs _]. rewrite apply_cases. destruct (bool_decide _).
  { unfold apply_dead. apply no_panic_bind; [|by intros []].
    destruct (_ <=? _) eqn:Hle; [|done]. bool_simpl.
    apply no_panic_bind; [by apply applied_index_no_panic|done]. }
  destruct (_ && _); [done|]. destruct (negb _); [done|].
  destruct (_ <=? _) eqn:Hle; bool_simpl.
  - unfold apply_known. apply no_panic_bind; [by apply applied_index_no_panic|]. intros r _.
    case_decide; [done|]. destruct (_ =? 0) eqn:Hz; [done|]. bool_simpl.
    destruct (keys_before_wf h (sequence (core s)) Hw) as (ks & -> & _); [lia|].
    apply no_panic_bind; [done|]. intros ks' _.
    apply no_panic_bind; [apply check_signatures_no_panic|done].
  - unfold apply_next. destruct (negb _); [done|]. destruct (negb _); [done|].
    destruct (keys_wf h Hw) as (ks & -> & _). apply no_panic_bind; [done|]. intros ks' _.
    apply no_panic_bind; [apply check_signatures_no_panic|]. intros _ _.
    apply no_panic_bind; [by apply apply_body_no_panic|done].
Qed.

Lemma apply_Applied_wf h s e h' :
  head_wf h → u64_range s.(core).(sequence) → apply (Some h) s e = Ok (Applied h') → head_wf h'.
Proof.
  intros Hw Hr Ha. apply apply_Applied in Ha as (Hd & _ & _ & Hgt & Hnext).
  apply apply_next_inv in Hnext as (Hseq & _ & ks & next & _ & _ & _ & Hbody & ->); [|done..].
  by apply (seal_wf h).
Qed.

(** ** Reachable heads *)

(** What a node persists: the head [apply] returned. *)
Definition new_head (o : Outcome) : option Head :=
  match o with Applied h | ForkOutcome h => Some h | AlreadyApplied => None end.

Inductive gov_reach : option Head → Prop :=
| reach_none : gov_reach None
| reach_step ho s e o h :
    gov_reach ho → u64_range s.(core).(sequence) →
    apply ho s e = Ok o → new_head o = Some h → gov_reach (Some h).

Lemma gov_reach_wf h : gov_reach (Some h) → head_wf h.
Proof.
  intros Hr. remember (Some h) as ho eqn:Hho. revert h Hho.
  induction Hr as [|ho s e o h1 Hr IH Hs Ha Hn]; intros h Hho; [done|]. injection Hho as ->.
  destruct ho as [h0|].
  - specialize (IH h0 eq_refl). destruct o as [h'| |h']; cbn in Hn; simplify_eq.
    + by eapply apply_Applied_wf.
    + apply apply_Fork in Ha as (_ & -> & _). by apply set_forked_wf.
  - destruct o as [h'| |h']; cbn in Hn; simplify_eq.
    + by apply apply_genesis_wf in Ha as [? _].
    + exfalso. clear -Ha. unfold apply, apply_genesis in Ha. ww_inv.
Qed.

(** C25: for every head a node can reach by persisting what [apply] returns,
    and every statement whose sequence fits in 64 bits, [apply] returns
    without an index or [expect] panic, and the head it returns satisfies
    the structural invariant: threshold 7; one recorded hash per applied
    sequence, the last being the head hash; key epochs starting at 0 and
    strictly increasing, each ten distinct strong keys; revoked and roster
    lists strictly increasing and disjoint, the roster within 1024;
    activation not in the future; death only at the head sequence. *)
Theorem apply_keeps_invariant ho s e :
  gov_reach ho → u64_range s.(core).(sequence) →
  no_panic (apply ho s e) ∧
  ∀ o h, apply ho s e = Ok o → new_head o = Some h → head_wf h.
Proof.
  intros Hr Hs. split.
  - destruct ho as [h|]; [apply apply_no_panic; [by apply gov_reach_wf|done]|].
    apply apply_genesis_no_panic.
  - intros o h Ha Hn. apply gov_reach_wf. by eapply reach_step.
Qed.

(** C1: no statement changes a node's governance head without a quorum. If
    [apply] on a reachable head returns a new head, then at least seven
    distinct indices of a set of ten distinct strong keys in force (the
    current ones for the next statement, those in force before the
    statement's own sequence for fork evidence) carry signatures of this
    statement's core that pass strict verification. *)
Theorem quorum_needed h s e o h' :
  gov_reach (Some h) → u64_range s.(core).(sequence) →
  apply (Some h) s e = Ok o → new_head o = Some h' →
  ∃ ks, good_keys ks ∧ quorum s ks THRESHOLD ∧
    match o with
    | Applied _ => keys (E:=GovError) h = Ok ks
    | _ => keys_before (E:=GovError) h s.(core).(sequence) = Ok ks
    end.
Proof.
  intros Hr Hs Ha Hn. apply gov_reach_wf in Hr. destruct o as [h1| |h1]; cbn in Hn; [|done|].
  - apply apply_Applied in Ha as (_ & _ & _ & Hgt & Hnext).
    apply apply_next_inv in Hnext as (_ & _ & ks & next & Hk & Hg & Hq & _); [|done..].
    by exists ks.
  - apply apply_Fork in Ha as (_ & _ & _ & _ & Hne & _ & ks & Hk & Hc).
    destruct (keys_before_wf h (sequence (core s)) Hr) as (ks' & Hk' & Hg & _).
    { destruct Hs. lia. }
    assert (ks' = ks) as -> by congruence. apply check_signatures_quorum in Hc.
    rewrite (hw_threshold _ Hr) in Hc. by exists ks.
Qed.

(** C7: on a reachable head, an applied statement is the next
    of the chain (same network, previous hash and sequence), records its
    hash, and changes the network the head stands for exactly as the
    set-level specification [net_effect] says: rotation overwrites keys by
    index, revocation adds to the revoked set and leaves the roster,
    admission adds to the roster only keys neither revoked nor admitted,
    activation and death set their flags. *)
Theorem apply_refines_network h s e h' :
  gov_reach (Some h) → u64_range s.(core).(sequence) →
  apply (Some h) s e = Ok (Applied h') →
  net_effect (abs h) s.(core).(body) (abs h') ∧
  h'.(h_sequence) = h.(h_sequence) + 1 ∧ s.(core).(previous) = h.(h_hash) ∧
  h'.(h_hash) = core_hash s.(core) ∧ h'.(applied) = h.(applied) ++ [core_hash s.(core)] ∧
  h'.(h_network_id) = h.(h_network_id) ∧ s.(core).(network_id) = h.(h_network_id).
Proof.
  intros Hr Hs Ha. apply gov_reach_wf in Hr. apply apply_Applied in Ha as (_ & _ & Hnet & Hgt & Hnext).
  apply apply_next_inv in Hnext as (Hseq & Hprev & ks & next & _ & _ & _ & Hbody & ->); [|done..].
  apply apply_body_effect in Hbody as ((Hn & Hsq & _ & Hap & _) & Heff); [|done].
  destruct next. cbn in *. subst. split_and!; done.
Qed.

(** C12: death is terminal. After a head records a death statement, no
    statement ever changes it again: [apply] reports a statement it has
    already applied (the death included) as such and refuses everything
    else with [Terminal]. *)
Theorem death_is_terminal h s e :
  gov_reach (Some h) → u64_range s.(core).(sequence) → is_Some h.(dead_at) →
  (apply (Some h) s e = Ok AlreadyApplied ∧ s.(core).(network_id) = h.(h_network_id) ∧
     h.(applied) !! Z.to_nat s.(core).(sequence) = Some (core_hash s.(core))) ∨
  apply (Some h) s e = raise Terminal.
Proof.
  intros Hr%gov_reach_wf [Hs _] Hd. rewrite apply_cases, bool_decide_eq_true_2 by done.
  unfold apply_dead. destruct (_ <=? _) eqn:Hle; [|by right]. bool_simpl.
  destruct (lookup_lt_is_Some_2 h.(applied) (Z.to_nat (sequence (core s)))) as [r Hl].
  { rewrite (hw_applied _ Hr). lia. }
  unfold index. rewrite Hl. cbn. do 2 case_bool_decide; cbn; subst; auto.
Qed.

(** A fork fences the node. On a forked, living head the only statement
    [apply] still accepts is a death that chains to that head; it keeps the
    fork flag, so no branch is ever chosen, and it reports nothing else, not
    even a statement applied before. (A head below the last 64-bit
    sequence: it records one hash per sequence.) *)
Theorem fork_fences h s e o :
  gov_reach (Some h) → u64_range s.(core).(sequence) → h.(h_sequence) < U64_MAX →
  h.(forked) = true → h.(dead_at) = None → apply (Some h) s e = Ok o →
  s.(core).(body) = Death ∧ s.(core).(previous) = h.(h_hash) ∧
  s.(core).(sequence) = h.(h_sequence) + 1 ∧
  ∃ h', o = Applied h' ∧ h'.(forked) = true ∧ h'.(dead_at) = Some (h.(h_sequence) + 1).
Proof.
  intros Hr Hs Hmax Hf Hd Ha. apply gov_reach_wf in Hr. unfold U64_MAX in Hmax.
  pose proof (hw_seq _ Hr) as [Hpos _]. revert Ha.
  rewrite apply_cases, Hd, Hf, u64_add_small by lia. cbn [andb].
  rewrite bool_decide_eq_false_2 by by intros [].
  destruct (negb _) eqn:Hg; [done|]. bool_simpl.
  assert (sequence (core s) <=? h_sequence h = false) as Hgt by (apply Z.leb_gt; lia).
  rewrite Hgt. destruct (negb _); [done|]. intros Ha.
  assert (body (core s) = Death) as Hbody by by destruct (body (core s)).
  split_and!; try done. destruct o as [h'| |h']; [|by unfold apply_next in Ha; ww_inv..].
  apply apply_next_inv in Ha as (_ & _ & ks & next & _ & _ & _ & Hb & ->); [|done..].
  unfold apply_body in Hb. destruct h. rewrite Hbody in Hb. ww_inv.
  eexists; split_and!; [done|done|]. cbn. by f_equal.
Qed.

(** ** Histories *)

(** [gov_steps h h']: from [h] the node reaches [h']. *)
Inductive gov_steps : Head → Head → Prop :=
| steps_refl h : gov_steps h h
| steps_next h s e o h1 h' :
    u64_range s.(core).(sequence) → apply (Some h) s e = Ok o → new_head o = Some h1 →
    gov_steps h1 h' → gov_steps h h'.

Lemma net_effect_mono n b n' :
  net_effect n b n' →
  n.(n_revoked) ⊆ n'.(n_revoked) ∧ (n.(n_active) = true → n'.(n_active) = true).
Proof. destruct 1; cbn; set_solver. Qed.

Lemma gov_step_revoked h s e o h1 :
  head_wf h → u64_range s.(core).(sequence) → apply (Some h) s e = Ok o → new_head o = Some h1 →
  head_wf h1 ∧ (∀ k, k ∈ h.(revoked) → k ∈ h1.(revoked)) ∧
  (is_Some h.(activated_at) → is_Some h1.(activated_at)).
Proof.
  intros Hw Hs Ha Hn. destruct o as [h'| |h']; cbn in Hn; simplify_eq.
  - pose proof (apply_Applied_wf _ _ _ _ Hw Hs Ha) as Hw1. split; [done|].
    apply apply_Applied in Ha as (_ & _ & _ & Hgt & Hnext).
    apply apply_next_inv in Hnext as (_ & _ & ks & next & _ & _ & _ & Hbody & ->); [|done..].
    apply apply_body_effect in Hbody as [_ Heff]; [|done].
    apply net_effect_mono in Heff as [Hrev Hact]. destruct h, next. cbn in *.
    split; [set_solver|]. intros Ha. apply (bool_decide_eq_true_1 _), Hact.
    by apply bool_decide_eq_true_2.
  - apply apply_Fork in Ha as (_ & -> & _). destruct h. split; [by apply set_forked_wf|done].
Qed.

Lemma gov_steps_revoked h h' :
  gov_steps h h' → head_wf h →
  head_wf h' ∧ (∀ k, k ∈ h.(revoked) → k ∈ h'.(revoked)) ∧
  (is_Some h.(activated_at) → is_Some h'.(activated_at)).
Proof.
  induction 1 as [|h s e o h1 h' Hs Ha Hn Hsteps IH]; intros Hw; [done|].
  destruct (gov_step_revoked _ _ _ _ _ Hw Hs Ha Hn) as (Hw1 & Hrev & Hact).
  destruct (IH Hw1) as (Hw' & Hrev' & Hact'). split_and!; auto.
Qed.

(** Revocation is permanent. A key revoked at a reachable head stays
    revoked and off the roster at every later head, and once the network is
    active no later head admits it. *)
Theorem revocation_is_permanent h h' k :
  gov_reach (Some h) → gov_steps h h' → k ∈ h.(revoked) →
  k ∈ h'.(revoked) ∧ k ∉ h'.(roster) ∧ (is_Some h'.(activated_at) → admits h' k = false).
Proof.
  intros Hr%gov_reach_wf Hsteps Hk.
  destruct (gov_steps_revoked _ _ Hsteps Hr) as (Hw' & Hrev & _).
  split_and!; [auto| |].
  - intros Hin. by apply (hw_disjoint _ Hw' k Hin), Hrev.
  - intros Hact. unfold admits. rewrite bool_decide_eq_true_2 by done. cbn.
    apply andb_false_iff. right. apply negb_false_iff.
    apply binary_search_elem_of; [apply (hw_revoked _ Hw')|auto].
Qed.

(** [built cs h]: [h] is the head after applying the cores [cs] in order,
    from genesis, without a fork. *)
Inductive built : list Core → Head → Prop :=
| built_genesis s e h :
    u64_range s.(core).(sequence) → apply None s e = Ok (Applied h) → built [s.(core)] h
| built_next cs h s e h' :
    built cs h → u64_range s.(core).(sequence) →
    apply (Some h) s e = Ok (Applied h') → built (cs ++ [s.(core)]) h'.

Lemma built_reach cs h : built cs h → gov_reach (Some h).
Proof.
  induction 1 as [s e h Hs Ha|cs h s e h' Hb IH Hs Ha].
  - by apply (reach_step None s e (Applied h) h); [constructor|..].
  - by apply (reach_step (Some h) s e (Applied h') h').
Qed.

Lemma apply_genesis_inv s e h :
  apply None s e = Ok (Applied h) →
  s.(core).(sequence) = 0 ∧ h.(h_hash) = core_hash s.(core) ∧
  ∃ t ks, s.(core).(body) = Genesis t ks ∧ length ks = KEY_COUNT ∧
    h = {| h_network_id := s.(core).(network_id); h_sequence := 0; h_hash := core_hash s.(core);
           h_threshold := t; key_epochs := [(0, ks)]; revoked := [];
           applied := [core_hash s.(core)]; forked := false; roster := [];
           activated_at := None; dead_at := None |}.
Proof.
  cbn [apply]. unfold apply_genesis. intros Ha. ww_inv. bool_simpl.
  match goal with Hc : lift _ = Ok ?u |- _ => destruct u; apply lift_Ok, check_genesis_good in Hc
    as (_ & Hlen & _) end.
  split_and!; [done|done|]. by eexists _, _.
Qed.

(** The cores [apply] accepts fit the format, so their encoding is injective. *)
Definition core_ok (c : Core) : Prop :=
  u64_range c.(sequence) ∧ GovCodec.body_ok c.(body) ∧
  (length (body_encode c.(body)) ≤ 2 + 64 * 33)%nat.

Lemma length_mjoin_const {A} (f : A → list byte) n l :
  (∀ x, length (f x) = n) → length (mjoin (f <$> l)) = (length l * n)%nat.
Proof.
  intros Hf. induction l as [|x l IH]; [done|].
  change (mjoin (f <$> x :: l)) with (f x ++ mjoin (f <$> l)).
  rewrite length_app, IH, Hf. cbn. lia.
Qed.

Lemma length_body_encode b :
  length (body_encode b) =
    match b with
    | Genesis _ ks => 2 + length ks * 32
    | Rotation es => 1 + length es * 33
    | Revocation ks | Admission ks => 2 + length ks * 32
    | Activation | Death => 0
    end%nat.
Proof.
  assert (∀ ks : list Key, length (mjoin (array_bytes <$> ks)) = (length ks * 32)%nat) as Hk.
  { intros. apply length_mjoin_const. intros. by rewrite length_array. }
  unfold body_encode. destruct b; cbn [length]; rewrite ?length_app, ?length_be_bytes, ?Hk; try done.
  rewrite (length_mjoin_const _ 33); [done|]. intros. unfold entry_encode. cbn. by rewrite length_array.
Qed.

Lemma core_ok_encode_inj c1 c2 :
  core_ok c1 → core_ok c2 → core_encode c1 = core_encode c2 → c1 = c2.
Proof.
  intros H1 H2 Heq.
  assert (∀ c, core_ok c → GovCodec.statement_ok (mkStatement c [])) as Hok.
  { intros c (Hs & Hb & Hl). split_and!; [done|done| |cbn; lia|].
    - cbn. unfold u16_range. lia.
    - unfold statement_encode, core_encode. cbn [core signatures].
      rewrite !length_app, !length_array, !length_be_bytes. cbn. unfold MAX_STATEMENT_LEN. lia. }
  assert (statement_encode (mkStatement c1 []) = statement_encode (mkStatement c2 [])) as Hse.
  { unfold statement_encode. cbn [core signatures]. by rewrite Heq. }
  pose proof (GovCodec.decode_encode _ (Hok c1 H1)) as D1.
  rewrite Hse, (GovCodec.decode_encode _ (Hok c2 H2)) in D1. congruence.
Qed.

Lemma apply_body_bounds h c next :
  apply_body h c = Ok next →
  GovCodec.body_ok c.(body) ∧ (length (body_encode c.(body)) ≤ 2 + 64 * 33)%nat.
Proof.
  unfold apply_body. destruct h. rewrite length_body_encode. intros Ha.
  destruct (body c) as [? ?|es|ks|ks| |]; ww_inv; cbn [GovCodec.body_ok]; try (split; [done|lia]).
  - match goal with Hr : rotated _ _ = Ok _ |- _ => unfold rotated in Hr end. ww_inv. bool_simpl.
    unfold KEY_COUNT in *. lia.
  - match goal with Hc : lift _ = Ok _ |- _ => apply lift_Ok in Hc;
      unfold check_revocation, MAX_REVOKED_PER_STATEMENT in Hc end. ww_inv. bool_simpl. lia.
  - match goal with Hc : lift _ = Ok _ |- _ => apply lift_Ok in Hc;
      unfold check_admission, MAX_ADMITTED_PER_STATEMENT in Hc end. ww_inv. bool_simpl. lia.
Qed.

Lemma built_core_ok cs h : built cs h → ∀ c, c ∈ cs → core_ok c.
Proof.
  induction 1 as [s e h Hs Ha|cs h s e h' Hb IH Hs Ha]; intros c Hc.
  - apply list_elem_of_singleton in Hc as ->.
    apply apply_genesis_inv in Ha as (_ & _ & t & ks & Hbody & Hlen & _).
    split_and!; [done|by rewrite Hbody; cbn; rewrite Hlen; unfold KEY_COUNT; lia|].
    rewrite length_body_encode, Hbody, Hlen. unfold KEY_COUNT. lia.
  - apply elem_of_app in Hc as [Hc| ->%list_elem_of_singleton]; [by apply IH|].
    apply built_reach, gov_reach_wf in Hb. apply apply_Applied in Ha as (_ & _ & _ & Hgt & Hnext).
    apply apply_next_inv in Hnext as (_ & _ & ks & next & _ & _ & _ & Hbody & _); [|done..].
    split; [done|]. by apply (apply_body_bounds h _ next).
Qed.

(** The last link of a history. *)
Lemma built_link cs h :
  built cs h →
  ∃ cs' c, cs = cs' ++ [c] ∧ h.(h_hash) = core_hash c ∧
    ((cs' = [] ∧ c.(sequence) = 0) ∨
     ∃ h0, built cs' h0 ∧ c.(previous) = h0.(h_hash) ∧ 0 < c.(sequence)).
Proof.
  destruct 1 as [s e h Hs Ha|cs h s e h' Hb Hs Ha].
  - apply apply_genesis_inv in Ha as (Hz & Hh & _). exists [], (core s). auto.
  - exists cs, (core s). split; [done|]. pose proof (built_reach _ _ Hb) as Hw.
    apply gov_reach_wf in Hw. apply apply_Applied in Ha as (_ & _ & _ & Hgt & Hnext).
    apply apply_next_inv in Hnext as (Hseq & Hprev & ks & next & _ & _ & _ & _ & ->); [|done..].
    split; [by destruct next|]. right. exists h. split_and!; [done|done|].
    pose proof (hw_seq _ Hw) as [? _]. lia.
Qed.

Lemma built_cons_inv cs c h :
  built (cs ++ [c]) h →
  (cs = [] ∧ ∃ s e, s.(core) = c ∧ apply None s e = Ok (Applied h)) ∨
  ∃ h0 s e, built cs h0 ∧ s.(core) = c ∧ u64_range c.(sequence) ∧ apply (Some h0) s e = Ok (Applied h).
Proof.
  remember (cs ++ [c]) as l eqn:Hl. destruct 1 as [s e h Hs Ha|cs0 h0 s e h Hb Hs Ha].
  - apply (app_inj_tail [] cs) in Hl as [<- <-]. left. eauto.
  - apply app_inj_tail in Hl as [-> <-]. right. eauto 8.
Qed.

Lemma built_not_nil h : ¬ built [] h.
Proof. intros (cs & c & Hnil & _)%built_link. by destruct cs. Qed.

(** The head is a function of the cores: signatures and pins leave no trace. *)
Lemma built_det cs h1 h2 : built cs h1 → built cs h2 → h1 = h2.
Proof.
  revert h1 h2. induction cs as [|c cs IH] using rev_ind; intros h1 h2 H1 H2.
  { by apply built_not_nil in H1. }
  apply built_cons_inv in H1 as [[Hn1 (s1 & e1 & <- & Ha1)]|(p1 & s1 & e1 & Hb1 & <- & Hs1 & Ha1)],
    H2 as [[Hn2 (s2 & e2 & Hc & Ha2)]|(p2 & s2 & e2 & Hb2 & Hc & Hs2 & Ha2)];
    try (subst cs; by exfalso; eapply built_not_nil).
  - apply apply_genesis_inv in Ha1 as (_ & _ & t1 & ks1 & Hbody1 & _ & ->).
    apply apply_genesis_inv in Ha2 as (_ & _ & t2 & ks2 & Hbody2 & _ & ->). congruence.
  - specialize (IH _ _ Hb1 Hb2) as ->. apply built_reach, gov_reach_wf in Hb2.
    apply apply_Applied in Ha1 as (_ & _ & _ & Hgt1 & Hn1).
    apply apply_Applied in Ha2 as (_ & _ & _ & Hgt2 & Hn2).
    apply apply_next_inv in Hn1 as (_ & _ & ks1 & next1 & _ & _ & _ & Hbody1 & ->); [|done..].
    apply apply_next_inv in Hn2 as (_ & _ & ks2 & next2 & _ & _ & _ & Hbody2 & ->);
      [|done|by rewrite Hc|done]. congruence.
Qed.

(** A collision of the hash function, as bytes. *)
Definition hash_collision : Prop := ∃ x y, x ≠ y ∧ blake3 x = blake3 y.

Lemma core_hash_inj c1 c2 :
  core_ok c1 → core_ok c2 → core_hash c1 = core_hash c2 → c1 = c2 ∨ hash_collision.
Proof.
  intros H1 H2 Heq. destruct (decide (c1 = c2)) as [|Hne]; [by left|]. right.
  exists (HASH_DOMAIN ++ core_encode c1), (HASH_DOMAIN ++ core_encode c2). split; [|done].
  intros Henc%app_inv_head. by apply Hne, core_ok_encode_inj.
Qed.

(** One hash pins the whole history. If two nodes built their heads from
    genesis and the head hashes agree, then either the nodes applied the
    same cores in the same order and hold identical heads (keys, revoked
    list, roster, activation and death included), or BLAKE3 has a collision
    between two concrete byte strings. *)
Theorem head_hash_pins_history cs1 cs2 h1 h2 :
  built cs1 h1 → built cs2 h2 → h1.(h_hash) = h2.(h_hash) →
  (cs1 = cs2 ∧ h1 = h2) ∨ hash_collision.
Proof.
  intros H1 H2 Heq. cut (cs1 = cs2 ∨ hash_collision).
  { intros [->|?]; [left|by right]. split; [done|]. by eapply built_det. }
  revert h1 cs2 h2 H1 H2 Heq. induction cs1 as [|c1 l1 IH] using rev_ind; intros h1 cs2 h2 H1 H2 Heq.
  { apply built_link in H1 as (? & ? & Hnil & _). by destruct x. }
  pose proof (built_core_ok _ _ H1 c1 ltac:(set_solver)) as Hok1.
  pose proof (built_core_ok _ _ H2) as Hok2.
  apply built_link in H1 as (l1' & c1' & [<- <-]%app_inj_tail & Hh1 & Hl1).
  apply built_link in H2 as (l2 & c2 & -> & Hh2 & Hl2).
  rewrite Hh1, Hh2 in Heq.
  destruct (core_hash_inj c1 c2 Hok1 (Hok2 c2 ltac:(set_solver)) Heq) as [<-|]; [|by right].
  destruct Hl1 as [[-> Hz1]|(p1 & Hp1 & Hprev1 & Hpos1)], Hl2 as [[-> Hz2]|(p2 & Hp2 & Hprev2 & Hpos2)];
    [by left|lia|lia|].
  destruct (IH p1 l2 p2 Hp1 Hp2 ltac:(congruence)) as [->|]; [by left|by right].
Qed.

Lemma byte_olt_nat i j : (byte_nat i < byte_nat j)%nat → olt i j.
Proof.
  unfold olt, byte_nat, cmp, byte_ord, byte_val. rewrite Z.compare_lt_iff. lia.
Qed.

Lemma NoDup_swap {A} (l : list A) i j x y :
  NoDup l → l !! i = Some x → l !! j = Some y → NoDup (<[j := x]> (<[i := y]> l)).
Proof.
  intros Hnd Hi Hj. destruct (decide (i = j)) as [->|Hij].
  { simplify_eq. by rewrite !(list_insert_id l) by done. }
  apply NoDup_alt. intros a b z Ha Hb.
  pose proof (λ i j x, proj1 (NoDup_alt l) Hnd i j x) as Hinj.
  apply list_lookup_insert_Some in Ha
    as [(<- & <- & _)|[Hja [(<- & <- & _)|[Hia Ha]]%list_lookup_insert_Some]];
    apply list_lookup_insert_Some in Hb
    as [(<- & ? & _)|[Hjb [(<- & ? & _)|[Hib Hb]]%list_lookup_insert_Some]]; naive_solver.
Qed.

(** The order of a rotation's entries can exchange two keys. [rotated]
    accepts the entries that put the key at index [i] into index [j] and the
    reverse, for any two indices [i < j] of ten distinct strong keys, so a
    rotation can carry a key it replaces: only replacing a key by itself is
    refused. *)
Theorem rotation_may_swap ks i j ki kj :
  good_keys ks → (byte_nat i < byte_nat j < KEY_COUNT)%nat →
  ks !! byte_nat i = Some ki → ks !! byte_nat j = Some kj →
  rotated ks [(i, kj); (j, ki)] = Ok (<[byte_nat j := ki]> (<[byte_nat i := kj]> ks)).
Proof.
  intros (Hlen & Hnd & Hst) Hij Hi Hj. unfold rotated.
  assert (strong ki) as [Hiv Hiw] by (eapply Forall_lookup_1; eauto).
  assert (strong kj) as [Hjv Hjw] by (eapply Forall_lookup_1; eauto).
  assert (ki ≠ kj) as Hne by (intros ->; pose proof (NoDup_lookup _ _ _ _ Hnd Hi Hj); lia).
  assert (strong_key ki = Ok ki ∧ strong_key kj = Ok kj) as [Hki Hkj]
    by (split; by apply strong_key_Ok).
  cbn [rotate_loop]. change (bool_decide ([(i, kj); (j, ki)] = []) || (KEY_COUNT <? length [(i, kj); (j, ki)])%nat) with false.
  cbv iota.
  rewrite (proj2 (order_guard None i KEY_COUNT)) by (split; [done|lia]).
  rewrite (proj2 (order_guard (Some i) j KEY_COUNT)) by (split; [cbn; apply byte_olt_nat; lia|lia]).
  rewrite Hki, Hkj. unfold index.
  rewrite Hi, list_lookup_insert_ne, Hj by lia. cbn.
  rewrite (proj2 (repeats_NoDup [] _)).
  2: { split; [|intros ???; set_solver]. by apply NoDup_swap. }
  unfold index. rewrite Hi, Hj. cbn. by rewrite !decide_False.
Qed.

End chain.
End GovChain.
