(* ===== verification/GovernanceTools.v ===== *)
(** * The offline governance tools ([werewolf-core/src/governance/tool.rs] and
      [check.rs])

    Module [GovTool]: key files, drafts, signature parts, [combine] and
    [replay]. Module [KeyCheck]: the key-check challenge, its answers and
    the verdict. The files the tools read and write are [Serde.Fs]; random
    bytes are arguments. *)

From S2P Require Export GovernanceChain.
From S2P Require Export Serde.

Local Open Scope Z_scope.

Module GovTool.
Import Gov.

Definition KEY_TYPE : str := lit "werewolf-governance-key".

Record KeyFile : Type := mkKeyFile {
  kf_version : byte;
  kf_type : str;
  public_b64 : str;
  secret_b64 : str
}.

Record Part : Type := mkPart {
  p_version : byte;
  p_hash : str;
  p_index : byte;
  p_signature : str
}.

#[export] Instance part_eq_dec : EqDecision Part.
Proof. solve_decision. Defined.
#[export] Instance part_countable : Countable Part.
Proof.
  apply (inj_countable' (λ p, (p_version p, p_hash p, p_index p, p_signature p))
    (λ '(v, h, i, s), mkPart v h i s)). by intros [].
Defined.
#[export] Instance key_file_eq_dec : EqDecision KeyFile.
Proof. solve_decision. Defined.
#[export] Instance key_file_countable : Countable KeyFile.
Proof.
  apply (inj_countable' (λ p, (kf_version p, kf_type p, public_b64 p, secret_b64 p))
    (λ '(v, h, i, s), mkKeyFile v h i s)). by intros [].
Defined.

(** The [io::Error]s of the tool, by message. *)
Inductive ToolError : Type :=
| GovFailed (e : GovError)
| HexLength
| HexDigits
| PublicKeyText
| Io (e : FsError)
| Json
| KeyReadableByOthers
| NotAKeyFile
| SecretEncoding
| SecretLength
| KeyMismatch
| IndexRange
| AnotherStatement (index : byte)
| SameIndex
| ChainForks
| EmptyChain.

(** [unhex::<N>]: the length, ASCII, then [from_str_radix] per pair. *)
Definition unhex (n : nat) (text : str) : result ToolError (array n) :=
  if negb (length text =? 2 * n)%nat || negb (is_ascii text) then Err HexLength
  else ok_or (unhex_pairs text ≫= to_array n) HexDigits.

(** Modes 0o600, 0o644 and the mask 0o077. *)
Definition MODE_PRIVATE : Z := 6 * 64.
Definition MODE_PUBLIC : Z := 6 * 64 + 4 * 8 + 4.
Definition MODE_OTHERS : Z := 7 * 8 + 7.

Section tool.
Context `{Crypto} `{Base64}.

Definition encode_b64 (bytes : list byte) : str := b64_encode bytes.

Definition public_key (b64 : str) : result ToolError Key :=
  ok_or (b64_decode b64 ≫= to_array 32) PublicKeyText.

Definition create (umask : Z) (fs : Fs) (path : str) (bytes : list byte) (mode : Z)
    : result ToolError Fs :=
  map_err Io (create_new umask fs path bytes mode).

(** [keygen]; [secret] is the key [OsRng] generated. *)
Definition keygen `{Serde KeyFile} (umask : Z) (secret : array 32) (fs : Fs) (path : str)
    : result ToolError (Fs * str) :=
  let public := b64_encode (array_bytes (sk_public secret)) in
  let file := mkKeyFile x01 KEY_TYPE public (b64_encode (array_bytes secret)) in
  fs' ← create umask fs path (to_vec file) MODE_PRIVATE;
  Ok (fs', public).

Definition read_key `{Serde KeyFile} (fs : Fs) (path : str) : result ToolError (array 32) :=
  meta ← map_err Io (read_file fs path);
  if negb (Z.land meta.(f_mode) MODE_OTHERS =? 0) then Err KeyReadableByOthers
  else
    file ← ok_or (from_slice meta.(f_bytes)) Json;
    if negb (bool_decide (file.(kf_version) = x01)) || negb (bool_decide (file.(kf_type) = KEY_TYPE))
    then Err NotAKeyFile
    else
      bytes ← ok_or (b64_decode file.(secret_b64)) SecretEncoding;
      secret ← ok_or (to_array 32 bytes) SecretLength;
      if negb (bool_decide (b64_encode (array_bytes (sk_public secret)) = file.(public_b64)))
      then Err KeyMismatch
      else Ok secret.

Definition read_statement (fs : Fs) (path : str) : result ToolError Statement :=
  file ← map_err Io (read_file fs path);
  map_err GovFailed (statement_decode file.(f_bytes)).

Definition write_statement (umask : Z) (fs : Fs) (path : str) (s : Statement)
    : result ToolError Fs :=
  create umask fs path (statement_encode s) MODE_PUBLIC.

Definition unsigned (c : Core) : Statement := mkStatement c [].

(** [draft_genesis]; [random] is what [OsRng] fills the network ID with. *)
Definition draft_genesis (ks : list Key) (network_id : option (array 32)) (random : array 32)
    : Statement :=
  unsigned (mkCore (default random network_id) 0 (array_fill 32 x00)
              (Genesis (byte_of (Z.of_nat THRESHOLD)) ks)).

Definition draft_body (b : Body) : Body :=
  match b with
  | Revocation ks => Revocation (dedup (sort_by_key id ks))
  | Admission ks => Admission (dedup (sort_by_key id ks))
  | Rotation entries => Rotation (sort_by_key fst entries)
  | genesis => genesis
  end.

Definition draft_after (previous : Statement) (b : Body) : Statement :=
  unsigned (mkCore previous.(core).(network_id) (u64_add previous.(core).(sequence) 1)
              (core_hash previous.(core)) (draft_body b)).

Definition sign_part `{Serde KeyFile} (draft : Statement) (fs : Fs) (key_path : str) (i : byte)
    : result ToolError Part :=
  if (KEY_COUNT <=? byte_nat i)%nat then Err IndexRange
  else
    key ← read_key fs key_path;
    Ok (mkPart x01 (hex (array_bytes (core_hash draft.(core)))) i
          (hex (array_bytes (sign draft.(core) key)))).

Definition write_part `{Serde Part} (umask : Z) (fs : Fs) (path : str) (part : Part)
    : result ToolError Fs :=
  create umask fs path (to_vec part) MODE_PUBLIC.

Definition read_part `{Serde Part} (fs : Fs) (path : str) : result ToolError Part :=
  file ← map_err Io (read_file fs path);
  ok_or (from_slice file.(f_bytes)) Json.

Definition part_signature (hash : str) (part : Part) : result ToolError (byte * Sig) :=
  if negb (bool_decide (part.(p_version) = x01)) || negb (bool_decide (part.(p_hash) = hash))
  then Err (AnotherStatement part.(p_index))
  else signature ← unhex 64 part.(p_signature); Ok (part.(p_index), signature).

Definition combine (draft : Statement) (parts : list Part) : result ToolError Statement :=
  let hash := hex (array_bytes (core_hash draft.(core))) in
  signatures ← try_map (part_signature hash) parts;
  let signatures := sort_by_key fst signatures in
  if windows2_any (λ a b, bool_decide (a.1 = b.1)) signatures then Err SameIndex
  else Ok (mkStatement draft.(core) signatures).

(** The loop of [replay]. *)
Fixpoint replay_loop (head : option Head) (chain : list Statement) (pin : Hash)
    : result (fault ToolError) (option Head) :=
  match chain with
  | [] => Ok head
  | s :: chain' =>
      match apply head s (Some pin) with
      | Ok (Applied next) => replay_loop (Some next) chain' pin
      | Ok AlreadyApplied => replay_loop head chain' pin
      | Ok (ForkOutcome _) => raise ChainForks
      | Err (Raised e) => raise (GovFailed e)
      | Err Panicked => Err Panicked
      end
  end.

Definition replay (chain : list Statement) (expect_genesis : Hash) : result (fault ToolError) Head :=
  head ← replay_loop None chain expect_genesis;
  ok_or head (Raised EmptyChain).

End tool.
End GovTool.

Module KeyCheck.
Import Gov.

Definition KEY_CHECK_DOMAIN : list byte := lit "werewolfproxy/governance/v1/key-check" ++ [x00].
Definition CHALLENGE_FORMAT : str := lit "werewolf-key-check".
Definition ANSWER_FORMAT : str := lit "werewolf-key-check-answer".

Record Challenge : Type := mkChallenge {
  c_format : str;
  c_version : byte;
  c_network_id : str;
  c_challenge : str
}.

Record Answer : Type := mkAnswer {
  a_format : str;
  a_version : byte;
  a_network_id : str;
  a_challenge : str;
  a_index : byte;
  a_signature : str
}.

Inductive Verdict : Type :=
| AtLeast7Usable
| Unverified.

Definition label (v : Verdict) : str :=
  match v with
  | AtLeast7Usable => lit "at_least_7_usable"
  | Unverified => lit "unverified"
  end.

Inductive CheckError : Type :=
| LowercaseHex
| NotAChallenge
| NotAnAnswer
| IndexRange
| AnotherNetwork
| AnotherChallenge
| IndicesDistinct
| BadGovernanceKey
| BadSignature.

(** Strict lowercase hex of exactly [n] bytes. *)
Definition unhex (n : nat) (text : str) : result CheckError (array n) :=
  if negb (length text =? 2 * n)%nat || negb (forallb is_lower_hex text) then Err LowercaseHex
  else ok_or (unhex_pairs text ≫= to_array n) LowercaseHex.

Definition input (network_id challenge : array 32) : list byte :=
  KEY_CHECK_DOMAIN ++ array_bytes network_id ++ array_bytes challenge.

(** [Challenge::new]; [random] is what [OsRng] gives. *)
Definition challenge_new (head : Head) (random : array 32) : Challenge :=
  mkChallenge CHALLENGE_FORMAT x01 (hex (array_bytes head.(h_network_id))) (hex (array_bytes random)).

Definition fields (self : Challenge) : result CheckError (array 32 * array 32) :=
  if negb (bool_decide (self.(c_format) = CHALLENGE_FORMAT))
     || negb (bool_decide (self.(c_version) = x01))
  then Err NotAChallenge
  else
    network_id ← unhex 32 self.(c_network_id);
    challenge ← unhex 32 self.(c_challenge);
    Ok (network_id, challenge).

Definition challenge_parse `{Serde Challenge} (bytes : list byte) : result CheckError Challenge :=
  challenge ← ok_or (from_slice bytes) NotAChallenge;
  _ ← fields challenge;
  Ok challenge.

Definition answer_parse `{Serde Answer} (bytes : list byte) : result CheckError Answer :=
  answer ← ok_or (from_slice bytes) NotAnAnswer;
  if negb (bool_decide (answer.(a_format) = ANSWER_FORMAT))
     || negb (bool_decide (answer.(a_version) = x01))
  then Err NotAnAnswer
  else
    _ ← unhex 32 answer.(a_network_id);
    _ ← unhex 32 answer.(a_challenge);
    _ ← unhex 64 answer.(a_signature);
    Ok answer.

Section check.
Context `{Crypto}.

Definition answer (self : Challenge) (key : array 32) (i : byte) : result CheckError Answer :=
  f ← fields self;
  if (KEY_COUNT <=? byte_nat i)%nat then Err IndexRange
  else Ok (mkAnswer ANSWER_FORMAT x01 self.(c_network_id) self.(c_challenge) i
             (hex (array_bytes (sk_sign key (input f.1 f.2))))).

(** One turn of the loop of [verify]. *)
Definition verify_answer (self : Challenge) (head : Head) (message : list byte)
    (indices : list byte) (a : Answer) : result (fault CheckError) (list byte) :=
  if negb (bool_decide (a.(a_format) = ANSWER_FORMAT)) || negb (bool_decide (a.(a_version) = x01))
     || negb (bool_decide (a.(a_network_id) = self.(c_network_id)))
     || negb (bool_decide (a.(a_challenge) = self.(c_challenge)))
  then raise AnotherChallenge
  else if (KEY_COUNT <=? byte_nat a.(a_index))%nat || bool_decide (a.(a_index) ∈ indices)
  then raise IndicesDistinct
  else
    ks ← keys head;
    key ← index ks (byte_nat a.(a_index));
    if negb (key_valid key) then raise BadGovernanceKey
    else
      signature ← lift (unhex 64 a.(a_signature));
      if verify_strict key message signature then Ok (indices ++ [a.(a_index)])
      else raise BadSignature.

Definition verify (self : Challenge) (head : Head) (answers : list Answer)
    : result (fault CheckError) (list byte * Verdict) :=
  f ← lift (fields self);
  if negb (bool_decide (f.1 = head.(h_network_id))) then raise AnotherNetwork
  else
    indices ← try_fold (verify_answer self head (input f.1 f.2)) [] answers;
    let indices := sort_by_key id indices in
    Ok (indices, if (THRESHOLD <=? length indices)%nat then AtLeast7Usable else Unverified).

End check.
End KeyCheck.

(** ** What the tools guarantee *)

Module GovToolSpec.
Import Gov GovChain GovTool.

Section tool.
Context `{Crypto} `{Base64}.

Lemma unhex_hex_array {n} (a : array n) : GovTool.unhex n (hex (array_bytes a)) = Ok a.
Proof.
  unfold GovTool.unhex. rewrite length_hex, length_array, Nat.eqb_refl.
  rewrite (lower_hex_ascii _ (hex_lower _)). cbn [negb orb].
  rewrite unhex_hex. cbn. by rewrite to_array_bytes.
Qed.

(** The parts [combine] accepts, with the signature each carries. *)
Definition parts_for (draft : Statement) (parts : list Part) (sigs : list (byte * Sig)) : Prop :=
  Forall2 (λ part sg, part_signature (hex (array_bytes (core_hash draft.(core)))) part = Ok sg)
    parts sigs.

Lemma combine_Ok draft parts s :
  combine draft parts = Ok s ↔
  ∃ sigs, parts_for draft parts sigs ∧ s.(core) = draft.(core) ∧
    s.(signatures) ≡ₚ sigs ∧ increasing (fst <$> s.(signatures)).
Proof.
  unfold combine. rewrite bind_Ok. split.
  - intros (sigs & Hsigs & Hs). exists sigs. split; [by apply try_map_Ok|].
    destruct (windows2_any _ _) eqn:Hw; [done|]. injection Hs as <-. cbn [core signatures].
    split_and!; [done|apply sort_by_key_perm|].
    by apply (no_equal_neighbours fst); [apply sort_by_key_sorted|].
  - intros (sigs & Hsigs & Hc & Hp & Hinc). exists sigs. split; [by apply try_map_Ok|].
    rewrite (sort_by_key_unique fst (signatures s) sigs Hp Hinc).
    rewrite (proj2 (no_equal_neighbours fst _ (increasing_key_le fst _ Hinc)) Hinc).
    by destruct s; cbn in *; subst.
Qed.

Lemma part_signature_errors hash part e :
  part_signature hash part = Err e → e ≠ SameIndex.
Proof.
  unfold part_signature, GovTool.unhex. destruct (_ || _); [by intros [= <-]|].
  destruct (_ || _); cbn; [by intros [= <-]|].
  destruct (unhex_pairs _ ≫= _); cbn; [done|by intros [= <-]].
Qed.

(** [combine] is exact. It returns a statement if and only if every part
    names this draft's hash (version 1) with a well-formed signature and no
    two parts have one index; the statement then has the draft's core and
    exactly the parts' signatures, in strictly increasing index order. The
    order the parts come in does not matter. *)
Theorem combine_exact draft parts :
  match combine draft parts with
  | Ok s => ∃ sigs, parts_for draft parts sigs ∧ s.(core) = draft.(core) ∧
      s.(signatures) ≡ₚ sigs ∧ increasing (fst <$> s.(signatures))
  | Err SameIndex => ∃ sigs, parts_for draft parts sigs ∧ ¬ NoDup (fst <$> sigs)
  | Err _ => ¬ ∃ sigs, parts_for draft parts sigs
  end ∧
  ∀ parts' s, parts ≡ₚ parts' → combine draft parts = Ok s → combine draft parts' = Ok s.
Proof.
  split.
  - destruct (combine draft parts) as [s|e] eqn:Hc; [by apply combine_Ok|].
    unfold combine in Hc. destruct (try_map _ parts) as [sigs|e'] eqn:Hm; cbn in Hc.
    + destruct (windows2_any _ _) eqn:Hw; [|done]. injection Hc as <-.
      exists sigs. split; [by apply try_map_Ok|].
      rewrite <-(sort_by_key_perm fst sigs). exact (equal_neighbours_dup fst _ Hw).
    + injection Hc as <-.
      assert (¬ ∃ sigs, parts_for draft parts sigs) as Hno.
      { intros (sigs & Hs%try_map_Ok). congruence. }
      apply try_map_Err in Hm as (part & _ & Hp%part_signature_errors). by destruct e'.
  - intros parts' s Hp (sigs & Hs & Hc & Hperm & Hinc)%combine_Ok.
    destruct (Forall2_perm _ _ _ _ Hp Hs) as (sigs' & Hs' & Hp').
    apply combine_Ok. exists sigs'. split_and!; [done|done|by rewrite Hperm|done].
Qed.

(** ** Honest holders *)

Lemma honest_signature `{!CryptoLaws} (ks : list Key) sks c i sk :
  ks = sk_public <$> sks → Forall strong ks → sks !! byte_nat i = Some sk →
  ∃ k, ks !! byte_nat i = Some k ∧ strong k ∧ verify_strict k (signing_input c) (sign c sk) = true.
Proof.
  intros -> Hst Hi. exists (sk_public sk). rewrite list_lookup_fmap, Hi. split; [done|].
  assert (strong (sk_public sk)) as Hk.
  { eapply Forall_lookup_1; [done|]. by rewrite list_lookup_fmap, Hi. }
  split; [done|]. apply sign_verifies. apply Hk.
Qed.

(** The part of a holder: the tool signed the draft with the key file of the
    holder of that index. *)
Definition honest_part `{Serde KeyFile} (sks : list (array 32)) (draft : Statement) (part : Part)
    : Prop :=
  ∃ fs path sk, read_key fs path = Ok sk ∧ sks !! byte_nat part.(p_index) = Some sk ∧
    sign_part draft fs path part.(p_index) = Ok part.

Lemma honest_part_signature `{Serde KeyFile} sks draft part :
  honest_part sks draft part →
  (byte_nat part.(p_index) < KEY_COUNT)%nat ∧
  ∃ sk, sks !! byte_nat part.(p_index) = Some sk ∧
    part_signature (hex (array_bytes (core_hash draft.(core)))) part
      = Ok (part.(p_index), sign draft.(core) sk).
Proof.
  intros (fs & path & sk & Hk & Hi & Hs). unfold sign_part in Hs.
  destruct (KEY_COUNT <=? _)%nat eqn:Hr; [done|]. apply Nat.leb_gt in Hr. split; [done|].
  rewrite Hk in Hs. cbn in Hs. injection Hs as Hpart. exists sk. split; [done|].
  rewrite <-Hpart at 1. unfold part_signature. cbn [p_version p_hash p_index p_signature].
  rewrite !bool_decide_eq_true_2 by done. cbn [negb orb]. rewrite unhex_hex_array.
  cbn. by rewrite <-Hpart.
Qed.

Lemma index_count (l : list byte) n :
  NoDup l → (∀ i, i ∈ l → (byte_nat i < n)%nat) → (length l ≤ n)%nat.
Proof.
  intros Hnd Hl. rewrite <-(length_fmap byte_nat l), <-(length_seq n 0).
  apply submseteq_length, NoDup_submseteq.
  - apply NoDup_fmap_2; [|done]. intros a b Hab. apply byte_val_inj.
    by rewrite <-!byte_nat_val, Hab.
  - intros i (x & -> & Hx)%list_elem_of_fmap. apply elem_of_seq. specialize (Hl x Hx). lia.
Qed.

(** The statement the tools make from a quorum of honest parts. *)
Lemma honest_combine `{!CryptoLaws} `{Serde KeyFile} ks sks draft parts :
  ks = sk_public <$> sks → good_keys ks →
  (∀ part, part ∈ parts → honest_part sks draft part) →
  NoDup (p_index <$> parts) → (THRESHOLD ≤ length parts)%nat →
  ∃ s, combine draft parts = Ok s ∧ s.(core) = draft.(core) ∧
    check_signatures s ks THRESHOLD = Ok ().
Proof.
  intros Hks (Hlen & _ & Hst) Hparts Hnd Hmin.
  destruct (Forall2_choice (λ part sg, sg.1 = part.(p_index) ∧
    part_signature (hex (array_bytes (core_hash draft.(core)))) part = Ok sg ∧
    ∃ sk, sks !! byte_nat sg.1 = Some sk ∧ sg.2 = sign draft.(core) sk) parts) as [sigs Hsigs].
  { intros part Hin. destruct (honest_part_signature _ _ _ (Hparts part Hin)) as (_ & sk & Hsk & Hsig).
    exists (p_index part, sign (core draft) sk). eauto. }
  assert (fst <$> sigs = p_index <$> parts) as Hfst.
  { clear -Hsigs. induction Hsigs as [|? ? ? ? [? _] _ IH]; [done|]. cbn. by f_equal. }
  rewrite <-Hfst in Hnd. pose proof (Forall2_length _ _ _ Hsigs) as Hl.
  exists (mkStatement draft.(core) (sort_by_key fst sigs)). split_and!; [|done|].
  - apply combine_Ok. exists sigs. split_and!; [|done|apply sort_by_key_perm|].
    + eapply Forall2_impl; [done|]. naive_solver.
    + exact (sort_by_key_NoDup fst _ Hnd).
  - assert (length (sort_by_key fst sigs) = length sigs) as Hls by (by rewrite sort_by_key_perm).
    apply check_signatures_complete; cbn [core signatures]; [exact (sort_by_key_NoDup fst _ Hnd)| |].
    + split_and!; [cbn; lia| |]; cbn [core signatures]; rewrite ?sort_by_key_perm; [done|].
      intros i sig Hi. rewrite sort_by_key_perm in Hi.
      destruct (Forall2_elem_r _ _ _ _ Hsigs Hi) as (part & _ & _ & _ & sk & Hsk & Hsg).
      cbn in Hsk, Hsg. rewrite Hsg. by eapply honest_signature.
    + rewrite Hls, <-(length_fmap fst), Hlen. apply index_count; [done|].
      intros i Hi. rewrite Hfst in Hi. apply list_elem_of_fmap in Hi as (part & -> & Hpart).
      exact (proj1 (honest_part_signature _ _ _ (Hparts _ Hpart))).
Qed.

(** Governance is live for honest holders. If the head is alive and
    unforked, the draft was made by [draft_after] from the statement at the
    head, and seven or more holders of keys in force signed it with
    [sign_part] under distinct indices, then [combine] succeeds, in whatever
    order the parts come, and [apply] accepts the result exactly when the
    body obeys its rule: it returns what [apply_body] decides, and refuses
    for no other reason. *)
Theorem honest_quorum_accepted `{!CryptoLaws} `{Serde KeyFile} h prev b sks parts e :
  gov_reach (Some h) → h.(dead_at) = None → h.(forked) = false → h.(h_sequence) < U64_MAX →
  core_hash prev.(core) = h.(h_hash) → prev.(core).(sequence) = h.(h_sequence) →
  prev.(core).(network_id) = h.(h_network_id) →
  keys (E:=GovError) h = Ok (sk_public <$> sks) →
  let draft := draft_after prev b in
  (∀ part, part ∈ parts → honest_part sks draft part) →
  NoDup (p_index <$> parts) → (THRESHOLD ≤ length parts)%nat →
  ∃ s, combine draft parts = Ok s ∧ s.(core) = draft.(core) ∧
    apply (Some h) s e = (next ← apply_body h draft.(core); Ok (Applied (seal next draft.(core)))).
Proof.
  intros Hw%gov_reach_wf Hd Hf Hmax Hhash Hseq Hnet Hkeys draft Hparts Hnd Hmin.
  destruct (keys_wf h Hw) as (ks & Hks & Hgood & _).
  assert (ks = sk_public <$> sks) as Heq by congruence.
  destruct (honest_combine ks sks draft parts Heq Hgood Hparts Hnd Hmin) as (s & Hc & Hcore & Hsig).
  exists s. split_and!; [done|done|]. destruct (hw_seq _ Hw) as [Hs0 _].
  assert (draft.(core).(network_id) = h.(h_network_id) ∧
    draft.(core).(sequence) = h.(h_sequence) + 1 ∧ draft.(core).(previous) = h.(h_hash))
    as (Hn & Hs & Hp).
  { cbn. rewrite Hnet, Hseq, Hhash, u64_add_small by (unfold U64_MAX in *; lia). done. }
  clearbody draft. rewrite apply_cases, Hd, Hf, Hcore, Hn, Hs.
  rewrite bool_decide_eq_false_2 by (intros [? ?]; done). cbn [andb].
  rewrite bool_decide_eq_true_2 by done. cbn [negb]. rewrite (proj2 (Z.leb_gt _ _)) by lia.
  unfold apply_next. rewrite Hcore, Hs, Hp, u64_add_small, Z.eqb_refl by (unfold U64_MAX in *; lia).
  rewrite bool_decide_eq_true_2 by done. cbn [negb].
  rewrite Hks. cbn [mbind result_bind]. rewrite (hw_threshold _ Hw), Hsig. done.
Qed.

(** ** Replaying a chain *)

Definition pinned (pin : Hash) (cs : list Core) : Prop :=
  ∃ c rest, cs = c :: rest ∧ core_hash c = pin.

Lemma apply_genesis_pin s pin h : apply None s (Some pin) = Ok (Applied h) → core_hash s.(core) = pin.
Proof.
  cbn [apply]. unfold apply_genesis. destruct (body (core s)); try done.
  destruct (_ || _); [done|]. destruct (negb _) eqn:Hp; [done|]. bool_simpl. congruence.
Qed.

Lemma replay_loop_built chain : ∀ cs h pin ho,
  (∀ s, s ∈ chain → u64_range s.(core).(sequence)) → built cs h → pinned pin cs →
  replay_loop (Some h) chain pin = Ok ho →
  ∃ h' cs', ho = Some h' ∧ built (cs ++ cs') h' ∧ cs' `sublist_of` (core <$> chain).
Proof.
  induction chain as [|s chain IH]; intros cs h pin ho Hfit Hb Hpin; cbn [replay_loop].
  { intros [= <-]. exists h, []. by rewrite app_nil_r. }
  destruct (apply (Some h) s (Some pin)) as [[h1| |h1]|[e|]] eqn:Ha; try done; intros Hr.
  - assert (built (cs ++ [core s]) h1) as Hb1.
    { eapply built_next; [done| |done]. apply Hfit. by left. }
    destruct (IH (cs ++ [core s]) h1 pin ho) as (h' & cs' & -> & Hb' & Hsub); [set_solver|done| |done|].
    { destruct Hpin as (c & rest & -> & Hc). by exists c, (rest ++ [core s]). }
    exists h', (core s :: cs'). split; [done|]. rewrite cons_middle, app_assoc. split; [done|].
    cbn. by apply sublist_skip.
  - destruct (IH cs h pin ho) as (h' & cs' & -> & Hb' & Hsub); [set_solver|done|done|done|].
    exists h', cs'. split_and!; [done|done|]. cbn. by apply sublist_cons.
Qed.

(** [replay] returns only heads with a complete history: the head it
    returns was built from a genesis whose hash is the pinned one by
    statements of the file, in their order (repeats skipped), each accepted
    by [apply] as the next; a chain with a fork, or any error, yields no
    head. [replay] does not panic. *)
Theorem replay_history chain pin :
  (∀ s, s ∈ chain → u64_range s.(core).(sequence)) →
  no_panic (replay chain pin) ∧
  ∀ h, replay chain pin = Ok h →
    ∃ cs, built cs h ∧ pinned pin cs ∧ cs `sublist_of` (core <$> chain).
Proof.
  intros Hfit. split.
  - unfold replay. apply no_panic_bind; [|intros [h|] _; done].
    cut (∀ ho, gov_reach ho → no_panic (replay_loop ho chain pin)); [intros Hn; apply Hn; constructor|].
    induction chain as [|s chain IH]; intros ho Hr; cbn [replay_loop]; [done|].
    assert (no_panic (apply ho s (Some pin))) as Hnp.
    { destruct ho as [h|]; [apply apply_no_panic; [by apply gov_reach_wf|]|apply apply_genesis_no_panic].
      apply Hfit; by left. }
    destruct (apply ho s (Some pin)) as [[h1| |h1]|[e|]] eqn:Ha; try done;
      (apply IH; [set_solver|]); [|done].
    eapply reach_step; [done| |done|done]. apply Hfit. by left.
  - intros h. unfold replay. destruct chain as [|s chain]; [done|]. cbn [replay_loop].
    destruct (apply None s (Some pin)) as [[h1| |h1]|[e|]] eqn:Ha; try done; intros Hr.
    + apply bind_Ok in Hr as (ho & Hl & Ho).
      assert (built [core s] h1) as Hb by (eapply built_genesis; [apply Hfit; by left|done]).
      assert (pinned pin [core s]) as Hp by (eexists _, []; split; [done|by eapply apply_genesis_pin]).
      destruct (replay_loop_built chain [core s] h1 pin ho) as (h' & cs' & -> & Hb' & Hsub);
        [set_solver|done|done|done|]. injection Ho as <-.
      exists (core s :: cs'). split_and!; [done|by eexists _, _; split; [|by eapply apply_genesis_pin]|].
      cbn. by apply sublist_skip.
    + exfalso. cbn [apply] in Ha. unfold apply_genesis in Ha. ww_inv.
Qed.

(** ** Key files *)

Lemma private_mode umask : Z.land (Z.land MODE_PRIVATE (Z.lnot umask)) MODE_OTHERS = 0.
Proof.
  rewrite <-Z.land_assoc, (Z.land_comm (Z.lnot umask)), Z.land_assoc.
  change (Z.land MODE_PRIVATE MODE_OTHERS) with 0. apply Z.land_0_l.
Qed.

Lemma read_key_file `{!Base64Laws} `{SerdeLaws KeyFile} fs path mode secret :
  fs !! path = Some (mkFile mode (to_vec (mkKeyFile x01 KEY_TYPE
    (b64_encode (array_bytes (sk_public secret))) (b64_encode (array_bytes secret))))) →
  Z.land mode MODE_OTHERS = 0 → read_key fs path = Ok secret.
Proof.
  intros Hf Hm. unfold read_key, read_file. rewrite Hf. cbn [map_err ok_or mbind result_bind f_mode f_bytes].
  rewrite Hm, from_to_vec. cbn. rewrite !bool_decide_eq_true_2 by done. cbn.
  rewrite b64_decode_encode. cbn. rewrite to_array_bytes. cbn.
  by rewrite bool_decide_eq_true_2.
Qed.

(** A generated key file works and is private. When [keygen] succeeds
    (under any umask) the path was free, no other file changed, [read_key]
    accepts the file and returns the secret generated, and the printed text
    is the public key of that secret for [public_key]. A key file any bit
    of whose mode is open to group or others is refused, whatever it
    holds. *)
Theorem keygen_read_key `{!Base64Laws} `{SerdeLaws KeyFile} umask secret fs path :
  (∀ fs' public, keygen umask secret fs path = Ok (fs', public) →
    fs !! path = None ∧ (∀ p, p ≠ path → fs' !! p = fs !! p) ∧
    read_key fs' path = Ok secret ∧ public_key public = Ok (sk_public secret)) ∧
  ∀ file, fs !! path = Some file → Z.land file.(f_mode) MODE_OTHERS ≠ 0 →
    read_key fs path = Err KeyReadableByOthers.
Proof.
  split.
  - intros fs' public. unfold keygen, create. intros Hk. ww_inv.
    match goal with Hc : create_new _ _ _ _ _ = Ok _ |- _ =>
      apply create_new_read in Hc as (Hnone & Hread & Hother) end.
    split_and!; [done|done| |].
    + eapply read_key_file; [|apply private_mode]. by apply ok_or_Ok in Hread.
    + unfold public_key. rewrite b64_decode_encode. cbn. by rewrite to_array_bytes.
  - intros file Hf Hm. unfold read_key, read_file. rewrite Hf. cbn.
    by rewrite (proj2 (Z.eqb_neq _ _) Hm).
Qed.

(** The offline tool's [unhex] reads more than hexadecimal. It accepts
    every text [hex] prints, but also texts in which a pair is a sign and
    one digit, which no printer produces and the key-check parser
    refuses. *)
Theorem tool_unhex_accepts_sign :
  GovTool.unhex 1 (lit "+f") = Ok (array_fill 1 x0f) ∧
  hex (array_bytes (array_fill 1 x0f)) ≠ lit "+f" ∧
  KeyCheck.unhex 1 (lit "+f") = Err KeyCheck.LowercaseHex ∧
  ∀ n (a : array n), GovTool.unhex n (hex (array_bytes a)) = Ok a.
Proof.
  split_and!.
  - unfold GovTool.unhex. cbn. apply ok_or_Ok. by apply to_array_Some.
  - done.
  - reflexivity.
  - intros n a. apply unhex_hex_array.
Qed.

End tool.
End GovToolSpec.

Module KeyCheckSpec.
Import Gov GovChain KeyCheck.

Section check.
Context `{Crypto}.

Lemma unhex_lower_exact n text (a : array n) :
  KeyCheck.unhex n text = Ok a ↔ text = hex (array_bytes a).
Proof.
  unfold KeyCheck.unhex. split.
  - destruct (_ || _) eqn:Hg; [done|]. bool_simpl. intros Hu%ok_or_Ok.
    destruct (unhex_pairs text) as [bs|] eqn:Hp; [|done]. cbn in Hu.
    apply to_array_Some in Hu as ->. symmetry. by apply hex_unhex_lower.
  - intros ->. rewrite length_hex, length_array, Nat.eqb_refl, hex_lower. cbn [negb orb].
    rewrite unhex_hex. cbn. by rewrite to_array_bytes.
Qed.

(** An answer [verify] counts: it is for this challenge, its index names a
    valid key in force, and its signature is that key's over the check's
    input. *)
Definition counted (self : Challenge) (h : Head) (message : list byte) (a : Answer) : Prop :=
  a.(a_format) = ANSWER_FORMAT ∧ a.(a_version) = x01 ∧
  a.(a_network_id) = self.(c_network_id) ∧ a.(a_challenge) = self.(c_challenge) ∧
  (byte_nat a.(a_index) < KEY_COUNT)%nat ∧
  ∃ ks k sig, keys (E:=CheckError) h = Ok ks ∧ ks !! byte_nat a.(a_index) = Some k ∧
    key_valid k = true ∧ a.(a_signature) = hex (array_bytes sig) ∧
    verify_strict k message sig = true.

Lemma verify_answer_Ok self h message ixs a ixs' :
  verify_answer self h message ixs a = Ok ixs' ↔
  counted self h message a ∧ a.(a_index) ∉ ixs ∧ ixs' = ixs ++ [a.(a_index)].
Proof.
  unfold verify_answer, counted. split.
  - destruct (_ || _) eqn:Hg; [done|]. bool_simpl.
    destruct ((KEY_COUNT <=? _)%nat || _) eqn:Hg2; [done|]. bool_simpl.
    intros (ks & Hks & (k & Hk & Hr)%bind_Ok)%bind_Ok. destruct (key_valid k) eqn:Hv; [|done].
    cbn [negb] in Hr. apply bind_Ok in Hr as (sig & Hsig%lift_Ok%unhex_lower_exact & Hr).
    destruct (verify_strict k message sig) eqn:Hver; [|done]. injection Hr as <-.
    apply ok_or_Ok in Hk. split_and!; eauto 12.
  - intros ((H1 & H2 & H3 & H4 & H5 & ks & k & sig & Hks & Hk & Hv & Hsig & Hver) & Hnin & ->).
    rewrite !bool_decide_eq_true_2 by done. cbn [negb orb].
    rewrite (proj2 (Nat.leb_gt _ _) H5), bool_decide_eq_false_2 by done. cbn [orb].
    rewrite Hks. cbn [mbind result_bind]. unfold index. rewrite Hk. cbn. rewrite Hv. cbn.
    rewrite (proj2 (unhex_lower_exact 64 _ sig) Hsig). cbn. by rewrite Hver.
Qed.

Lemma verify_fold_Ok self h message answers : ∀ ixs ixs',
  try_fold (verify_answer self h message) ixs answers = Ok ixs' ↔
  Forall (counted self h message) answers ∧ ixs' = ixs ++ (a_index <$> answers) ∧
  NoDup (a_index <$> answers) ∧ ∀ i, i ∈ a_index <$> answers → i ∉ ixs.
Proof.
  induction answers as [|a answers IH]; intros ixs ixs'; cbn [try_fold].
  { rewrite app_nil_r. split; [intros [= <-]|by intros (_ & -> & _)].
    split_and!; [constructor|done|constructor|by intros ? ?%not_elem_of_nil]. }
  rewrite bind_Ok, fmap_cons, NoDup_cons, Forall_cons. setoid_rewrite verify_answer_Ok.
  setoid_rewrite IH. split.
  - intros (ixs1 & (Ha & Hni & ->) & Hall & -> & Hnd & Hd).
    rewrite <-app_assoc. split_and!; [done|done|done|set_solver|done|set_solver].
  - intros ((Ha & Hall) & -> & (Hni & Hnd) & Hd). eexists. split; [split_and!; [done|set_solver|done]|].
    rewrite <-app_assoc. split_and!; [done|done|done|set_solver].
Qed.

(** The key check is exact. [verify] succeeds if and only if the
    challenge is well formed and for the head's network, every answer counts
    (this challenge, a valid key in force, a strict signature of that key
    over the check's input) and no index repeats; it then returns exactly
    the answered indices in increasing order, and the verdict
    [AtLeast7Usable] exactly when there are at least seven. *)
Theorem key_check_exact self h answers ixs v :
  verify self h answers = Ok (ixs, v) ↔
  ∃ n c, fields self = Ok (n, c) ∧ n = h.(h_network_id) ∧
    Forall (counted self h (input n c)) answers ∧ NoDup (a_index <$> answers) ∧
    ixs ≡ₚ (a_index <$> answers) ∧ increasing ixs ∧
    v = if (THRESHOLD <=? length answers)%nat then AtLeast7Usable else Unverified.
Proof.
  assert (∀ l : list byte, NoDup l → increasing (sort_by_key id l)) as Hinc.
  { intros l Hl. rewrite <-(list_fmap_id l) in Hl. apply (sort_by_key_NoDup id) in Hl.
    by rewrite list_fmap_id in Hl. }
  unfold verify. split.
  - intros ([n c] & Hf%lift_Ok & Hr)%bind_Ok. cbn [fst snd] in Hr.
    destruct (negb _) eqn:Hn; [done|]. bool_simpl.
    apply bind_Ok in Hr as (ixs0 & (Hall & -> & Hnd & _)%verify_fold_Ok & [= <- <-]).
    exists n, c. cbn [app]. split_and!; auto.
    + apply sort_by_key_perm.
    + by rewrite sort_by_key_perm, length_fmap.
  - intros (n & c & Hf & Hn & Hall & Hnd & Hp & Hi & ->). rewrite Hf. cbn [lift map_err mbind result_bind fst snd].
    rewrite bool_decide_eq_true_2 by done. cbn [negb].
    rewrite (proj2 (verify_fold_Ok self h (input n c) answers [] (a_index <$> answers)));
      [|split_and!; [done|done|done|set_solver]]. cbn [mbind result_bind].
    rewrite (sort_by_key_unique id ixs _ Hp) by (by rewrite list_fmap_id).
    by rewrite (Permutation_length Hp), length_fmap.
Qed.

(** A key-check signature is never a statement signature. The bytes a
    check signs differ from the bytes any statement's signature covers and
    from the bytes hashed for a statement's identity. *)
Theorem check_domain_separated n c co :
  input n c ≠ signing_input co ∧ input n c ≠ HASH_DOMAIN ++ core_encode co ∧
  signing_input co ≠ HASH_DOMAIN ++ core_encode co.
Proof.
  unfold input, signing_input.
  split_and!; intros Heq%(f_equal (take 30)); vm_compute in Heq; discriminate.
Qed.

End check.
End KeyCheckSpec.
