(* ===== verification/GovernanceDemo.v ===== *)
(** * A concrete governance chain, and the governance theorems applied to it

    Ten keys, seven of them signing; a genesis, an admission, its
    revocation, the activation and the death, and a competing statement. *)

From S2P Require Import GovernanceTools.

Local Open Scope Z_scope.


Module GovDemo.
Import Gov GovChain Toy.

Definition demo_keys : list Key := Toy.key_of <$> seqZ 1 10.

Definition signed (c : Core) : Statement :=
  mkStatement c ((λ i, (byte_of i, sign c (Toy.key_of (i + 1)))) <$> seqZ 0 7).

Definition demo_next (previous : Core) (b : Body) : Core :=
  mkCore previous.(network_id) (previous.(sequence) + 1) (core_hash previous) b.

Definition demo_genesis : Core :=
  mkCore (array_fill 32 x2a) 0 (array_fill 32 x00) (Genesis x07 demo_keys).
Definition demo_admission : Core := demo_next demo_genesis (Admission [Toy.key_of 100]).
Definition demo_revocation : Core := demo_next demo_admission (Revocation [Toy.key_of 100]).
Definition demo_activation : Core := demo_next demo_revocation Activation.
Definition demo_death : Core := demo_next demo_activation Death.
Definition demo_rival : Core := demo_next demo_genesis (Admission [Toy.key_of 101]).
Definition demo_death_early : Core := demo_next demo_admission Death.
Definition demo_pin : option Hash := Some (core_hash demo_genesis).

(** The heads after each statement, by evaluation. *)
Definition demo_start : Head :=
  mkHead (array_fill 32 x2a) 0 (core_hash demo_genesis) x07 [(0, demo_keys)] []
    [core_hash demo_genesis] false [] None None.

Definition outcome_of (ho : option Head) (c : Core) : Outcome :=
  match apply ho (signed c) demo_pin with Ok o => o | Err _ => AlreadyApplied end.
Definition head_of (ho : option Head) (c : Core) : Head :=
  default demo_start (new_head (outcome_of ho c)).

Definition demo_h0 : Head := head_of None demo_genesis.
Definition demo_h1 : Head := head_of (Some demo_h0) demo_admission.
Definition demo_h2 : Head := head_of (Some demo_h1) demo_revocation.
Definition demo_h3 : Head := head_of (Some demo_h2) demo_activation.
Definition demo_h4 : Head := head_of (Some demo_h3) demo_death.
Definition demo_forked : Head := head_of (Some demo_h1) demo_rival.
Definition demo_forked_dead : Head := head_of (Some demo_forked) demo_death_early.

(** The statement is accepted: as the next one, or as fork evidence. *)
Definition accepts (ho : option Head) (c : Core) : bool :=
  match apply ho (signed c) demo_pin with Ok (Applied _) => true | _ => false end.
Definition forks (ho : option Head) (c : Core) : bool :=
  match apply ho (signed c) demo_pin with Ok (ForkOutcome _) => true | _ => false end.

Lemma accepts_apply ho c :
  accepts ho c = true → apply ho (signed c) demo_pin = Ok (Applied (head_of ho c)).
Proof. unfold accepts, head_of, outcome_of. by destruct (apply _ _ _) as [[]|]. Qed.

Lemma forks_apply ho c :
  forks ho c = true → apply ho (signed c) demo_pin = Ok (ForkOutcome (head_of ho c)).
Proof. unfold forks, head_of, outcome_of. by destruct (apply _ _ _) as [[]|]. Qed.

Lemma demo_applies :
  apply None (signed demo_genesis) demo_pin = Ok (Applied demo_h0) ∧
  apply (Some demo_h0) (signed demo_admission) demo_pin = Ok (Applied demo_h1) ∧
  apply (Some demo_h1) (signed demo_revocation) demo_pin = Ok (Applied demo_h2) ∧
  apply (Some demo_h2) (signed demo_activation) demo_pin = Ok (Applied demo_h3) ∧
  apply (Some demo_h3) (signed demo_death) demo_pin = Ok (Applied demo_h4) ∧
  apply (Some demo_h1) (signed demo_rival) demo_pin = Ok (ForkOutcome demo_forked).
Proof.
  refine (conj (accepts_apply _ _ _) (conj (accepts_apply _ _ _) (conj (accepts_apply _ _ _)
    (conj (accepts_apply _ _ _) (conj (accepts_apply _ _ _) (forks_apply _ _ _))))));
    vm_compute; reflexivity.
Qed.

Local Ltac fits := unfold u64_range; split; vm_compute; congruence.

Lemma demo_built :
  built [demo_genesis] demo_h0 ∧ built [demo_genesis; demo_admission] demo_h1 ∧
  built [demo_genesis; demo_admission; demo_revocation] demo_h2 ∧
  built [demo_genesis; demo_admission; demo_revocation; demo_activation] demo_h3 ∧
  built [demo_genesis; demo_admission; demo_revocation; demo_activation; demo_death] demo_h4.
Proof.
  destruct demo_applies as (A0 & A1 & A2 & A3 & A4 & _).
  assert (built [demo_genesis] demo_h0) as H0.
  { refine (built_genesis (signed demo_genesis) demo_pin _ _ A0). fits. }
  assert (built [demo_genesis; demo_admission] demo_h1) as H1.
  { refine (built_next _ _ (signed demo_admission) demo_pin _ H0 _ A1). fits. }
  assert (built [demo_genesis; demo_admission; demo_revocation] demo_h2) as H2.
  { refine (built_next _ _ (signed demo_revocation) demo_pin _ H1 _ A2). fits. }
  assert (built [demo_genesis; demo_admission; demo_revocation; demo_activation] demo_h3) as H3.
  { refine (built_next _ _ (signed demo_activation) demo_pin _ H2 _ A3). fits. }
  refine (conj H0 (conj H1 (conj H2 (conj H3 _)))).
  refine (built_next _ _ (signed demo_death) demo_pin _ H3 _ A4). fits.
Qed.

Lemma demo_reach1 : gov_reach (Some demo_h1).
Proof. exact (built_reach _ _ (proj1 (proj2 demo_built))). Qed.
Lemma demo_reach2 : gov_reach (Some demo_h2).
Proof. exact (built_reach _ _ (proj1 (proj2 (proj2 demo_built)))). Qed.
Lemma demo_reach4 : gov_reach (Some demo_h4).
Proof. exact (built_reach _ _ (proj2 (proj2 (proj2 (proj2 demo_built))))). Qed.
Lemma demo_reach_forked : gov_reach (Some demo_forked).
Proof.
  destruct demo_applies as (_ & _ & _ & _ & _ & A).
  refine (reach_step _ (signed demo_rival) demo_pin _ _ demo_reach1 _ A eq_refl). fits.
Qed.

Lemma demo_apply_end :
  apply (Some demo_forked) (signed demo_death_early) demo_pin = Ok (Applied demo_forked_dead).
Proof. apply accepts_apply. vm_compute. reflexivity. Qed.

(** ** Witnesses *)

Lemma apply_keeps_invariant_witness :
  no_panic (apply (Some demo_h1) (signed demo_revocation) demo_pin) ∧ head_wf demo_h2.
Proof.
  destruct demo_applies as (_ & _ & A2 & _).
  pose proof (apply_keeps_invariant (Some demo_h1) (signed demo_revocation) demo_pin
    demo_reach1 ltac:(fits)) as [Hp Hw].
  exact (conj Hp (Hw _ _ A2 eq_refl)).
Defined.

Lemma quorum_needed_witness :
  ∃ ks, good_keys ks ∧ quorum (signed demo_rival) ks THRESHOLD ∧
    keys_before (E:=GovError) demo_h1 (signed demo_rival).(core).(sequence) = Ok ks.
Proof.
  destruct demo_applies as (_ & _ & _ & _ & _ & A).
  exact (quorum_needed demo_h1 (signed demo_rival) demo_pin (ForkOutcome demo_forked) demo_forked
           demo_reach1 ltac:(fits) A eq_refl).
Defined.

Lemma apply_refines_network_witness :
  net_effect (abs demo_h1) (signed demo_revocation).(core).(body) (abs demo_h2).
Proof.
  destruct demo_applies as (_ & _ & A2 & _).
  exact (proj1 (apply_refines_network demo_h1 (signed demo_revocation) demo_pin demo_h2
    demo_reach1 ltac:(fits) A2)).
Defined.

Lemma demo_dead : is_Some demo_h4.(dead_at).
Proof. exists 4. vm_compute. reflexivity. Qed.

Lemma death_is_terminal_witness :
  apply (Some demo_h4) (signed demo_rival) demo_pin = raise Terminal.
Proof.
  destruct (death_is_terminal demo_h4 (signed demo_rival) demo_pin demo_reach4 ltac:(fits) demo_dead)
    as [[Ha _]|Ha]; [|exact Ha]. vm_compute in Ha. discriminate.
Defined.

Lemma fork_fences_witness : (signed demo_death_early).(core).(body) = Death.
Proof.
  refine (proj1 (fork_fences demo_forked (signed demo_death_early) demo_pin
    (Applied demo_forked_dead) demo_reach_forked ltac:(fits) _ _ _ demo_apply_end));
    vm_compute; reflexivity.
Defined.

Lemma revocation_is_permanent_witness : key_of 100 ∈ demo_h3.(revoked) ∧ key_of 100 ∉ demo_h3.(roster).
Proof.
  assert (gov_steps demo_h2 demo_h3) as Hs.
  { destruct demo_applies as (_ & _ & _ & A3 & _).
    refine (steps_next _ (signed demo_activation) demo_pin _ _ _ _ A3 eq_refl (steps_refl _)). fits. }
  assert (key_of 100 ∈ demo_h2.(revoked)) as Hk.
  { apply (bool_decide_eq_true_1 _). vm_compute. reflexivity. }
  pose proof (revocation_is_permanent demo_h2 demo_h3 (key_of 100) demo_reach2 Hs Hk) as (H1 & H2 & _).
  exact (conj H1 H2).
Defined.

Lemma head_hash_pins_history_witness :
  let cs := [demo_genesis; demo_admission] in (cs = cs ∧ demo_h1 = demo_h1) ∨ hash_collision.
Proof.
  exact (head_hash_pins_history _ _ _ _ (proj1 (proj2 demo_built)) (proj1 (proj2 demo_built)) eq_refl).
Defined.

Lemma rotation_may_swap_witness :
  rotated demo_keys [(x00, key_of 2); (x01, key_of 1)]
  = Ok (<[1%nat := key_of 1]> (<[0%nat := key_of 2]> demo_keys)).
Proof.
  refine (rotation_may_swap demo_keys x00 x01 (key_of 1) (key_of 2) _ _ eq_refl eq_refl).
  - split_and!; [reflexivity| |].
    + apply (bool_decide_eq_true_1 _). vm_compute. reflexivity.
    + repeat constructor.
  - vm_compute. lia.
Defined.

(** ** The tools on the same chain *)

Import GovTool GovToolSpec ToySerde.

Definition demo_path : str := lit "holder.json".

Definition demo_key_fs (sk : array 32) : Fs :=
  {[ demo_path := mkFile MODE_PRIVATE (to_vec (mkKeyFile x01 KEY_TYPE
       (b64_encode (array_bytes (sk_public sk))) (b64_encode (array_bytes sk)))) ]}.

Lemma demo_read_key sk : read_key (demo_key_fs sk) demo_path = Ok sk.
Proof. eapply read_key_file; [apply lookup_singleton_eq|reflexivity]. Qed.

Definition demo_draft : Statement := draft_after (signed demo_admission) Activation.

Definition demo_part (i : Z) : Part :=
  mkPart x01 (hex (array_bytes (core_hash demo_draft.(core)))) (byte_of i)
    (hex (array_bytes (sign demo_draft.(core) (key_of (i + 1))))).

Lemma demo_part_honest i : 0 ≤ i < 10 → honest_part demo_keys demo_draft (demo_part i).
Proof.
  intros Hi. assert (byte_nat (byte_of i) = Z.to_nat i) as Hb.
  { rewrite <-(Z2Nat.id i) at 1 by lia. apply byte_nat_of. lia. }
  exists (demo_key_fs (key_of (i + 1))), demo_path, (key_of (i + 1)).
  cbn [p_index demo_part]. split_and!; [apply demo_read_key| |].
  - rewrite Hb. unfold demo_keys. rewrite list_lookup_fmap, lookup_seqZ_lt by lia.
    cbn. do 2 f_equal. lia.
  - unfold sign_part. rewrite (proj2 (Nat.leb_gt _ _)) by (rewrite Hb; unfold KEY_COUNT; lia).
    rewrite demo_read_key. reflexivity.
Qed.

Lemma honest_quorum_accepted_witness :
  ∃ s, combine demo_draft (demo_part <$> [6; 0; 3; 2; 9; 8; 5]) = Ok s ∧ s.(core) = demo_draft.(core).
Proof.
  destruct (honest_quorum_accepted demo_h1 (signed demo_admission) Activation demo_keys
    (demo_part <$> [6; 0; 3; 2; 9; 8; 5]) demo_pin demo_reach1) as (s & Hc & Hs & _);
    [vm_compute; reflexivity..| | | |].
  - intros part (i & -> & Hi)%list_elem_of_fmap. apply demo_part_honest.
    apply (bool_decide_eq_true_1 (0 ≤ i < 10)). revert i Hi. apply Forall_forall. repeat constructor.
  - apply (bool_decide_eq_true_1 _). vm_compute. reflexivity.
  - vm_compute. lia.
  - exists s. exact (conj Hc Hs).
Defined.

Lemma replay_history_witness :
  no_panic (replay [signed demo_genesis; signed demo_admission] (core_hash demo_genesis)) ∧
  is_ok (replay [signed demo_genesis; signed demo_admission] (core_hash demo_genesis)) = true.
Proof.
  split; [|vm_compute; reflexivity].
  refine (proj1 (replay_history [signed demo_genesis; signed demo_admission]
    (core_hash demo_genesis) _)).
  intros s [->|[->|Hs%not_elem_of_nil]%elem_of_cons]%elem_of_cons; [fits|fits|done].
Defined.

Lemma keygen_read_key_witness :
  ∃ fs' public, keygen 0 (key_of 7) ∅ demo_path = Ok (fs', public) ∧
    read_key fs' demo_path = Ok (key_of 7).
Proof.
  destruct (keygen_read_key 0 (key_of 7) ∅ demo_path) as [Hk _].
  destruct (keygen 0 (key_of 7) ∅ demo_path) as [[fs' public]|e] eqn:E.
  - exists fs', public. split; [reflexivity|]. apply (Hk fs' public eq_refl).
  - exfalso. unfold keygen, create, create_new in E. rewrite lookup_empty in E. discriminate E.
Defined.

End GovDemo.
