(* ===== verification/LocalFs.v ===== *)
(** * Atomic files in a private directory ([werewolf-core/src/local_fs])

    [Module LocalFs]: the checks of [directory.rs] on the directory and of
    [atomic.rs] on a file, [PrivateDirectory::read] and
    [PrivateDirectory::replace_with] with every system call that can fail.

    The disk is the directory as system calls see it ([live]) together with
    the states it went through since it was last synchronized ([pending]):
    after a power failure any of them may be found, and a file whose own
    contents were not synchronized may hold anything. [subs] has the contents
    of the directories below, by inode; a power failure may change them. Which system calls of
    a write fail is an oracle of the disk, indexed by the number of calls
    made so far; a process that is stopped at the n-th call is the oracle
    that fails from there on. *)

From stdpp Require Import gmap.
From S2P Require Export Serde.

Local Open Scope Z_scope.

Module LocalFs.

Inductive FileType : Type :=
| RegularFile
| Directory
| Symlink
| Fifo
| Socket
| CharacterDevice
| BlockDevice.

#[export] Instance file_type_eq_dec : EqDecision FileType.
Proof. solve_decision. Defined.

(** An entry of the directory: its [Stat] and its contents. *)
Record Node : Type := mkNode {
  n_type : FileType;
  n_uid : Z;
  n_gid : Z;
  n_mode : Z;
  n_nlink : Z;
  n_inode : Z * Z;
  n_data : list byte;
  n_synced : bool
}.

#[export] Instance node_eq_dec : EqDecision Node.
Proof. solve_decision. Defined.

Notation Dir := (gmap str Node).

Record Disk : Type := mkDisk {
  live : Dir;
  pending : list Dir;
  self_stat : Node;
  umask : Z;
  next_inode : Z * Z;
  sys : nat → option nat;
  calls : nat;
  unreadable : str → bool;
  entropy : nat → option (array 16);
  subs : gmap (Z * Z) Dir
}.

Record PrivateDirectory : Type := mkPrivate {
  uid : Z;
  gid : Z
}.

Inductive IoError : Type :=
| Unsafe
| Exists
| NoEntry
| SystemCall
| InvalidData
| Other.

Inductive CommitOutcome : Type :=
| NotCommitted (e : IoError)
| DurablyCommitted
| IndeterminateAfterRename (e : IoError).

Inductive Point : Type :=
| BeforeCreate
| AfterCreate
| MidWrite
| BeforeFileSync
| BeforeRename
| AfterRename
| AfterDirectorySync.

(** ** The system calls that change the disk *)

Definition set_live (d : Disk) (l : Dir) : Disk :=
  mkDisk l (d.(pending) ++ [d.(live)]) d.(self_stat) d.(umask) d.(next_inode) d.(sys) d.(calls)
    d.(unreadable) d.(entropy) d.(subs).
Definition count (d : Disk) : Disk :=
  mkDisk d.(live) d.(pending) d.(self_stat) d.(umask) d.(next_inode) d.(sys) (S d.(calls))
    d.(unreadable) d.(entropy) d.(subs).
Definition flushed (d : Disk) : Disk :=
  mkDisk d.(live) [] d.(self_stat) d.(umask) d.(next_inode) d.(sys) d.(calls) d.(unreadable) d.(entropy) d.(subs).
Definition take_inode (d : Disk) : Disk :=
  mkDisk d.(live) d.(pending) d.(self_stat) d.(umask) (d.(next_inode).1, d.(next_inode).2 + 1) d.(sys)
    d.(calls) d.(unreadable) d.(entropy) d.(subs).

(** A computation on the disk that can fail. *)
Definition fsm (A : Type) : Type := Disk → result IoError A * Disk.
#[export] Instance fsm_ret : MRet fsm := λ A a d, (Ok a, d).
#[export] Instance fsm_bind : MBind fsm := λ A B f m d,
  match m d with
  | (Ok a, d') => f a d'
  | (Err e, d') => (Err e, d')
  end.
Definition fail {A} (e : IoError) : fsm A := λ d, (Err e, d).
Definition guard (b : bool) (e : IoError) : fsm () := if b then mret () else fail e.
Definition pure {A} (r : result IoError A) : fsm A := λ d, (r, d).
Definition gets {A} (f : Disk → A) : fsm A := λ d, (Ok (f d), d).
Definition modify (f : Disk → Disk) : fsm () := λ d, (Ok (), f d).

(** A system call that may fail and has no effect of its own here. *)
Definition call : fsm () := λ d,
  (match d.(sys) d.(calls) with None => Ok () | Some _ => Err SystemCall end, count d).

(** ** Checks *)

Inductive Component : Type :=
| RootDir
| CurDir
| ParentDir
| Normal (s : str).

Definition component (s : str) : Component :=
  if bool_decide (s = lit "..") then ParentDir else Normal s.

(** [Path::components]: a leading [.] is kept, other [.] and empty parts
    are skipped. *)
Definition components (path : str) : list Component :=
  let parts := split_on x2f path in
  let rooted := match path with b :: _ => bool_decide (b = x2f) | [] => false end in
  (if rooted then [RootDir]
   else match parts with p :: _ => if bool_decide (p = lit ".") then [CurDir] else [] | [] => [] end)
  ++ (component <$> filter (λ p, p ≠ [] ∧ p ≠ lit ".") parts).

Definition name_ok (nm : str) : bool :=
  match components nm with [Normal _] => true | _ => false end.

(** The octal constants of the sources. *)
Definition O7777 : Z := 4095.
Definition O1000 : Z := 512.
Definition O700 : Z := 448.
Definition O600 : Z := 384.
Definition O022 : Z := 18.

Definition private (s : Node) (uid gid : Z) : bool :=
  bool_decide (s.(n_type) = Directory) && (s.(n_uid) =? uid) && (s.(n_gid) =? gid)
  && (Z.land s.(n_mode) O7777 =? O700).

(** A directory on the way to the leaf. *)
Definition ancestor (s : Node) (uid gid : Z) : bool :=
  bool_decide (s.(n_type) = Directory)
  && (let trusted_owner := (s.(n_uid) =? 0) || ((s.(n_uid) =? uid) && (s.(n_gid) =? gid)) in
      let sticky_root := (s.(n_uid) =? 0) && (s.(n_gid) =? 0) && negb (Z.land s.(n_mode) O1000 =? 0) in
      trusted_owner && ((Z.land s.(n_mode) O022 =? 0) || sticky_root)).

Section directory.
Variable self : PrivateDirectory.

Definition regular (s : Node) : bool :=
  bool_decide (s.(n_type) = RegularFile) && (s.(n_uid) =? self.(uid)) && (s.(n_gid) =? self.(gid))
  && (Z.land s.(n_mode) O7777 =? O600) && (s.(n_nlink) =? 1).

(** What [named_regular] answers on a directory, system calls apart. *)
Definition named (d : Disk) (nm : str) : result IoError (option (Z * Z)) :=
  _ ← require (name_ok nm) Unsafe;
  _ ← require (private d.(self_stat) self.(uid) self.(gid)) Unsafe;
  match d.(live) !! nm with
  | None => Ok None
  | Some s => _ ← require (regular s) Unsafe; Ok (Some s.(n_inode))
  end.

(** [named_regular]: [fstat] of the directory and [statat] of the name. *)
Definition named_regular (nm : str) : fsm (option (Z * Z)) :=
  _ ← call;
  r ← gets (λ d, named d nm);
  pure r.

(** [read]: the entry found is the one opened. *)
Definition read (d : Disk) (nm : str) (limit : nat) : result IoError (option (list byte)) :=
  expected ← named d nm;
  match expected, d.(live) !! nm with
  | Some _, Some s =>
      if d.(unreadable) nm then Err SystemCall
      else if (limit <? length s.(n_data))%nat then Err Unsafe
      else Ok (Some s.(n_data))
  | _, _ => Ok None
  end.

(** ** The atomic replacement *)

(** [openat] with [CREATE | EXCL]. *)
Definition create (temporary : str) : fsm Node :=
  _ ← call;
  old ← gets (λ d, d.(live) !! temporary);
  _ ← guard (bool_decide (old = None)) Exists;
  inode ← gets next_inode;
  mask ← gets umask;
  let node := mkNode RegularFile self.(uid) self.(gid) (Z.land O600 (Z.lnot mask)) 1 inode [] false in
  _ ← modify (λ d, set_live (take_inode d) (<[temporary := node]> d.(live)));
  mret node.

(** Appends to the file behind the descriptor, if the name still leads to
    it; a write that fails may have written a part. *)
Definition append (temporary : str) (inode : Z * Z) (more : list byte) (d : Disk) : Disk :=
  match d.(live) !! temporary with
  | Some n =>
      if decide (n.(n_inode) = inode)
      then set_live d (<[temporary := mkNode n.(n_type) n.(n_uid) n.(n_gid) n.(n_mode) n.(n_nlink)
             n.(n_inode) (n.(n_data) ++ more) false]> d.(live))
      else d
  | None => d
  end.
Definition write_all (temporary : str) (inode : Z * Z) (data : list byte) : fsm () := λ d,
  match d.(sys) d.(calls) with
  | None => (Ok (), append temporary inode data (count d))
  | Some k => (Err SystemCall, append temporary inode (take k data) (count d))
  end.

(** [fsync] of the file. *)
Definition sync_file (temporary : str) (inode : Z * Z) : fsm () :=
  _ ← call;
  modify (λ d, match d.(live) !! temporary with
    | Some n =>
        if decide (n.(n_inode) = inode)
        then set_live d (<[temporary := mkNode n.(n_type) n.(n_uid) n.(n_gid) n.(n_mode) n.(n_nlink)
               n.(n_inode) n.(n_data) true]> d.(live))
        else d
    | None => d
    end).

(** [renameat], with [NOREPLACE] when the name was free. *)
Definition rename (temporary nm : str) (noreplace : bool) : fsm () :=
  _ ← call;
  src ← gets (λ d, d.(live) !! temporary);
  dst ← gets (λ d, d.(live) !! nm);
  match src with
  | None => fail NoEntry
  | Some n =>
      _ ← guard (negb (noreplace && bool_decide (is_Some dst))) Exists;
      modify (λ d, set_live d (<[nm := n]> (delete temporary d.(live))))
  end.

Definition sync_directory : fsm () := _ ← call; modify flushed.

Definition unlink (temporary : str) : fsm () :=
  _ ← call; modify (λ d, set_live d (delete temporary d.(live))).

(** [point] is the hook of [replace_with]; [replace] passes one that does
    nothing. *)
Variable point : Point → fsm ().

(** The closure of [replace_with] from the creation of the temporary file to
    the checks before the rename. The two mutable variables are returned. *)
Definition prepare (nm : str) (data : list byte) (create_only : bool) (temporary : str)
    : fsm (option (Z * Z)) :=
  _ ← guard (name_ok temporary) Unsafe;
  _ ← guard (negb ((Z.to_nat (1024 * 1024) <? length data)%nat || bool_decide (nm = temporary))) Unsafe;
  before ← named_regular nm;
  _ ← guard (negb (create_only && bool_decide (is_Some before))) Exists;
  _ ← point BeforeCreate;
  mret before.

Definition fill (nm : str) (data : list byte) (temporary : str) (before : option (Z * Z)) (node : Node)
    : fsm () :=
  let inode := node.(n_inode) in
  _ ← point AfterCreate;
  let middle := (length data / 2)%nat in
  _ ← write_all temporary inode (take middle data);
  _ ← point MidWrite;
  _ ← write_all temporary inode (drop middle data);
  _ ← call;
  _ ← point BeforeFileSync;
  _ ← sync_file temporary inode;
  _ ← point BeforeRename;
  now ← named_regular nm;
  tmp ← named_regular temporary;
  _ ← guard (bool_decide (now = before) && bool_decide (tmp = Some inode)) Unsafe;
  rename temporary nm (bool_decide (before = None)).

Definition settle : fsm () :=
  _ ← point AfterRename;
  _ ← sync_directory;
  point AfterDirectorySync.

(** The clean-up of a temporary file that was created. *)
Definition cleanup (temporary : str) (inode : Z * Z) : fsm () :=
  found ← named_regular temporary;
  if decide (found = Some inode) then unlink temporary else mret ().

Definition replace_with (nm : str) (data : list byte) (create_only : bool) (temporary : str)
    (d : Disk) : CommitOutcome * Disk :=
  match (before ← prepare nm data create_only temporary; node ← create temporary; mret (before, node)) d with
  | (Err e, d1) => (NotCommitted e, d1)
  | (Ok (before, node), d1) =>
      match (_ ← call; guard (regular node) Unsafe : fsm ()) d1 with
      | (Err e, d2) => (NotCommitted e, d2)
      | (Ok _, d2) =>
          match fill nm data temporary before node d2 with
          | (Err e, d3) => (NotCommitted e, (cleanup temporary node.(n_inode) d3).2)
          | (Ok _, d3) =>
              match settle d3 with
              | (Ok _, d4) => (DurablyCommitted, d4)
              | (Err e, d4) => (IndeterminateAfterRename e, d4)
              end
          end
      end
  end.

End directory.

(** [replace]: the name of the temporary file is random. *)
Definition temporary_name (suffix : array 16) : str := lit ".state-" ++ hex (array_bytes suffix) ++ lit ".tmp".
Definition replace (self : PrivateDirectory) (nm : str) (data : list byte) (create_only : bool)
    (d : Disk) : CommitOutcome * Disk :=
  let d' := count d in
  match d.(entropy) d.(calls) with
  | None => (NotCommitted Other, d')
  | Some suffix => replace_with self (λ _, mret ()) nm data create_only (temporary_name suffix) d'
  end.

(** ** Power failure *)

(** What may be found in place of an entry. *)
Definition found (before after : option Node) : Prop :=
  match before, after with
  | None, None => True
  | Some n, Some n' =>
      if n.(n_synced) then n' = n
      else n' = mkNode n.(n_type) n.(n_uid) n.(n_gid) n.(n_mode) n.(n_nlink) n.(n_inode) n'.(n_data) true
  | _, _ => False
  end.

(** The states a restarted machine can find. *)
Definition crash (d d' : Disk) : Prop :=
  d'.(pending) = [] ∧ d'.(self_stat) = d.(self_stat) ∧
  ∃ dir, dir ∈ d.(pending) ++ [d.(live)] ∧ ∀ nm, found (dir !! nm) (d'.(live) !! nm).

End LocalFs.

(** ** What a replacement guarantees *)

Module LocalFsSpec.
Import LocalFs.

(** The states of the directory a power failure can leave. *)
Definition states (d : Disk) : list Dir := d.(pending) ++ [d.(live)].

(** What no write changes. *)
Definition static (d : Disk) := (d.(self_stat), d.(unreadable), d.(umask), d.(sys), d.(entropy)).

(** From [d] to [d'] nothing happened to the name [nm], nor could a power
    failure show anything about it that it could not show before. *)
Definition keeps (nm : str) (d d' : Disk) : Prop :=
  d'.(live) !! nm = d.(live) !! nm ∧ static d' = static d ∧
  ∀ dir, dir ∈ states d' → ∃ dir0, dir0 ∈ states d ∧ dir !! nm = dir0 !! nm.

#[export] Instance keeps_preorder nm : PreOrder (keeps nm).
Proof.
  split.
  - intros d. split_and!; [done|done|]. intros dir Hd. by exists dir.
  - intros d1 d2 d3 (L1 & S1 & P1) (L2 & S2 & P2). split_and!; [congruence|congruence|].
    intros dir (dir2 & Hd2 & ->)%P2. by apply P1.
Qed.

Lemma keeps_live nm d l : l !! nm = d.(live) !! nm → keeps nm d (set_live d l).
Proof.
  intros Hl. split_and!; [done|done|]. intros dir. unfold states. cbn. rewrite !elem_of_app, !list_elem_of_singleton.
  intros [[Hp| ->]| ->]; [exists dir; set_solver|exists (live d); set_solver|].
  exists (live d). split; [set_solver|done].
Qed.

Lemma keeps_count nm d : keeps nm d (count d).
Proof. split_and!; [done|done|]. intros dir Hd. by exists dir. Qed.
Lemma keeps_inode nm d : keeps nm d (take_inode d).
Proof. split_and!; [done|done|]. intros dir Hd. by exists dir. Qed.
Lemma keeps_flushed nm d : keeps nm d (flushed d).
Proof.
  split_and!; [done|done|]. intros dir. unfold states. cbn. rewrite list_elem_of_singleton. intros ->.
  exists (live d). split; [set_solver|done].
Qed.

(** A computation that never touches [nm]. *)
Definition keeping {A} (nm : str) (m : fsm A) : Prop := ∀ d, keeps nm d (m d).2.

Lemma keeping_bind {A B} nm (m : fsm A) (f : A → fsm B) :
  keeping nm m → (∀ a, keeping nm (f a)) → keeping nm (m ≫= f).
Proof.
  intros Hm Hf d. specialize (Hm d). unfold mbind, fsm_bind. destruct (m d) as [[a|e] d']; [|done].
  etransitivity; [exact Hm|apply Hf].
Qed.
Lemma keeping_ret {A} nm (a : A) : keeping nm (mret a).
Proof. intros d. reflexivity. Qed.
Lemma keeping_pure {A} nm (r : result IoError A) : keeping nm (pure r).
Proof. intros d. reflexivity. Qed.
Lemma keeping_gets {A} nm (f : Disk → A) : keeping nm (gets f).
Proof. intros d. reflexivity. Qed.
Lemma keeping_guard nm b e : keeping nm (guard b e).
Proof. intros d. destruct b; reflexivity. Qed.
Lemma keeping_fail {A} nm e : keeping nm (fail (A := A) e).
Proof. intros d. reflexivity. Qed.
Lemma keeping_call nm : keeping nm call.
Proof. intros d. apply keeps_count. Qed.
Lemma keeping_modify nm f : (∀ d, keeps nm d (f d)) → keeping nm (modify f).
Proof. intros Hf d. apply Hf. Qed.

#[export] Hint Resolve keeping_bind keeping_ret keeping_pure keeping_gets keeping_guard keeping_fail
  keeping_call keeping_modify keeps_count keeps_flushed : fs.

Section replace.
Variable self : PrivateDirectory.
Local Abbreviation idle := (λ _ : Point, mret () : fsm ()).

Lemma keeping_named nm tmp : keeping nm (named_regular self tmp).
Proof. unfold named_regular. eauto with fs. Qed.

Lemma keeping_create nm tmp : nm ≠ tmp → keeping nm (create self tmp).
Proof.
  intros Hne. unfold create. repeat (apply keeping_bind; [eauto with fs|intros]); [|eauto with fs].
  apply keeping_modify. intros d. etransitivity; [apply keeps_inode|].
  apply keeps_live. cbn. by rewrite lookup_insert_ne.
Qed.

Lemma keeps_append nm tmp inode more d : nm ≠ tmp → keeps nm d (append tmp inode more d).
Proof.
  intros Hne. unfold append. destruct (live d !! tmp) as [n|]; [|done].
  destruct (decide _); [|done]. apply keeps_live. by rewrite lookup_insert_ne.
Qed.

Lemma keeping_write nm tmp inode data : nm ≠ tmp → keeping nm (write_all tmp inode data).
Proof.
  intros Hne d. unfold write_all.
  destruct (sys d (calls d)); cbn; (etransitivity; [apply keeps_count|by apply keeps_append]).
Qed.

Lemma keeping_sync_file nm tmp inode : nm ≠ tmp → keeping nm (sync_file tmp inode).
Proof.
  intros Hne. apply keeping_bind; [eauto with fs|intros _]. apply keeping_modify. intros d.
  destruct (live d !! tmp) as [n|]; [|done]. destruct (decide _); [|done].
  apply keeps_live. by rewrite lookup_insert_ne.
Qed.

Lemma keeping_rename nm tmp target b : nm ≠ tmp → nm ≠ target → keeping nm (rename tmp target b).
Proof.
  intros Ht Hn. unfold rename. do 3 (apply keeping_bind; [eauto with fs|intros]).
  destruct a0 as [n|]; [|eauto with fs]. apply keeping_bind; [eauto with fs|intros _].
  apply keeping_modify. intros d. apply keeps_live. by rewrite lookup_insert_ne, lookup_delete_ne.
Qed.

Lemma keeping_cleanup nm tmp inode : nm ≠ tmp → keeping nm (cleanup self tmp inode).
Proof.
  intros Hne. apply keeping_bind; [apply keeping_named|intros f]. destruct (decide _); [|eauto with fs].
  apply keeping_bind; [eauto with fs|intros _]. apply keeping_modify. intros d.
  apply keeps_live. by rewrite lookup_delete_ne.
Qed.

#[local] Hint Resolve keeping_named keeping_create keeping_write keeping_sync_file keeping_rename
  keeping_cleanup : fs.

Lemma keeping_prepare nm target data c tmp : keeping nm (prepare self idle target data c tmp).
Proof. unfold prepare. repeat (apply keeping_bind; [eauto with fs|intros]). eauto with fs. Qed.

(** [fill] up to the rename. *)
Definition filled (nm : str) (data : list byte) (tmp : str) (before : option (Z * Z)) (node : Node) : fsm () :=
  _ ← write_all tmp (n_inode node) (take (length data / 2) data);
  _ ← write_all tmp (n_inode node) (drop (length data / 2) data);
  _ ← call;
  _ ← sync_file tmp (n_inode node);
  now ← named_regular self nm;
  temp ← named_regular self tmp;
  guard (bool_decide (now = before) && bool_decide (temp = Some (n_inode node))) Unsafe.

Lemma keeping_filled nm target data tmp before node :
  nm ≠ tmp → keeping nm (filled target data tmp before node).
Proof. intros Hne. unfold filled. repeat (apply keeping_bind; [eauto with fs|intros]). eauto with fs. Qed.

Lemma bind_run {A B} (m : fsm A) (f : A → fsm B) d :
  (m ≫= f) d = match m d with (Ok a, d') => f a d' | (Err e, d') => (Err e, d') end.
Proof. done. Qed.

Lemma fill_filled nm data tmp before node d :
  fill self idle nm data tmp before node d =
  (_ ← filled nm data tmp before node; rename tmp nm (bool_decide (before = None))) d.
Proof.
  unfold fill, filled. cbv [mbind fsm_bind mret fsm_ret]. cbv zeta beta.
  repeat match goal with
  | |- context [match ?x with (_, _) => _ end] =>
      lazymatch x with context [match _ with _ => _ end] => fail | _ => destruct x as [[?|?] ?]; try done end
  end.
Qed.
(** *** Runs that succeed *)

Lemma fsm_bind_Ok {A B} (m : fsm A) (f : A → fsm B) d b d' :
  (m ≫= f) d = (Ok b, d') ↔ ∃ a d1, m d = (Ok a, d1) ∧ f a d1 = (Ok b, d').
Proof. rewrite bind_run. destruct (m d) as [[a|e] d1]; naive_solver. Qed.

Lemma call_Ok d u d' : call d = (Ok u, d') → d' = count d.
Proof. unfold call. destruct (sys d (calls d)); naive_solver. Qed.

Lemma guard_Ok b e d u d' : guard b e d = (Ok u, d') → b = true ∧ d' = d.
Proof. destruct b; [by intros [= _ <-]|done]. Qed.

Lemma named_regular_Ok nm d r d' :
  named_regular self nm d = (Ok r, d') → d' = count d ∧ named self d nm = Ok r.
Proof.
  unfold named_regular. intros (u & d1 & Hc%call_Ok & H)%fsm_bind_Ok. subst d1.
  apply fsm_bind_Ok in H as (r' & d2 & [= <- <-] & [= Hr <-]). done.
Qed.

Definition with_data (n : Node) (data : list byte) (synced : bool) : Node :=
  mkNode n.(n_type) n.(n_uid) n.(n_gid) n.(n_mode) n.(n_nlink) n.(n_inode) data synced.

Lemma write_all_Ok tmp n data d u d' :
  d.(live) !! tmp = Some n → write_all tmp (n_inode n) data d = (Ok u, d') →
  d'.(live) !! tmp = Some (with_data n (n_data n ++ data) false).
Proof.
  intros Hn. unfold write_all. destruct (sys d (calls d)); [done|]. intros [= _ <-].
  unfold append. cbn. rewrite Hn, decide_True by done. cbn. by rewrite lookup_insert_eq.
Qed.

Lemma sync_file_Ok tmp n d u d' :
  d.(live) !! tmp = Some n → sync_file tmp (n_inode n) d = (Ok u, d') →
  d'.(live) !! tmp = Some (with_data n (n_data n) true).
Proof.
  intros Hn. unfold sync_file. intros (v & d1 & ->%call_Ok & H)%fsm_bind_Ok. injection H as _ <-.
  cbn. rewrite Hn, decide_True by done. cbn. by rewrite lookup_insert_eq.
Qed.

(** When everything before the rename succeeded the temporary file holds
    the data, synchronized. *)
Lemma filled_Ok nm data tmp before node d u d' :
  d.(live) !! tmp = Some node → node.(n_data) = [] → filled nm data tmp before node d = (Ok u, d') →
  d'.(live) !! tmp = Some (with_data node data true) ∧ named self d' nm = Ok before.
Proof.
  intros Hn He. unfold filled.
  intros (u1 & d1 & H1 & H)%fsm_bind_Ok. apply (write_all_Ok _ _ _ _ _ _ Hn) in H1.
  apply fsm_bind_Ok in H as (u2 & d2 & H2 & H).
  apply (write_all_Ok tmp (with_data node _ false) _ _ _ _ H1) in H2.
  apply fsm_bind_Ok in H as (u3 & d3 & ->%call_Ok & H).
  apply fsm_bind_Ok in H as (u4 & d4 & H4 & H).
  apply (sync_file_Ok tmp (with_data node _ false) (count d2) _ _ H2) in H4.
  apply fsm_bind_Ok in H as (now & d5 & [-> H5]%named_regular_Ok & H).
  apply fsm_bind_Ok in H as (temp & d6 & [-> H6]%named_regular_Ok & H).
  apply guard_Ok in H as [Hg ->]. bool_simpl. subst now. cbn [count live].
  split; [|exact H5]. rewrite H4. unfold with_data. cbn. rewrite He. cbn. by rewrite take_drop.
Qed.

Lemma rename_Ok tmp nm b n d u d' :
  d.(live) !! tmp = Some n → rename tmp nm b d = (Ok u, d') →
  d'.(live) = <[nm := n]> (delete tmp d.(live)) ∧ d'.(pending) = d.(pending) ++ [d.(live)] ∧
  static d' = static d.
Proof.
  intros Hn. unfold rename. intros (u1 & d1 & ->%call_Ok & H)%fsm_bind_Ok.
  apply fsm_bind_Ok in H as (src & d2 & [= <- <-] & H).
  apply fsm_bind_Ok in H as (dst & d3 & [= <- <-] & H). cbn [count live] in H. rewrite Hn in H.
  apply fsm_bind_Ok in H as (u4 & d4 & [_ ->]%guard_Ok & H). injection H as _ <-. done.
Qed.

Lemma create_Ok tmp d node d' :
  create self tmp d = (Ok node, d') → d'.(live) !! tmp = Some node ∧ node.(n_data) = [].
Proof.
  unfold create. intros (u1 & d1 & ->%call_Ok & H)%fsm_bind_Ok.
  apply fsm_bind_Ok in H as (old & d2 & [= <- <-] & H).
  apply fsm_bind_Ok in H as (u3 & d3 & [_ ->]%guard_Ok & H).
  apply fsm_bind_Ok in H as (i & d4 & [= <- <-] & H).
  apply fsm_bind_Ok in H as (m & d5 & [= <- <-] & H).
  apply fsm_bind_Ok in H as (u6 & d6 & [= _ <-] & [= <- <-]). cbn. by rewrite lookup_insert_eq.
Qed.

(** A file as a replacement leaves it. *)
Definition holds (data : list byte) (n : Node) : Prop :=
  regular self n = true ∧ n.(n_data) = data ∧ n.(n_synced) = true.

Lemma settle_spec d r d' :
  settle idle d = (r, d') →
  d'.(live) = d.(live) ∧ static d' = static d ∧
  match r with Ok _ => d'.(pending) = [] | Err _ => d'.(pending) = d.(pending) end.
Proof.
  unfold settle, sync_directory. cbv [mbind fsm_bind mret fsm_ret call modify].
  destruct (sys d (calls d)); intros [= <- <-]; done.
Qed.

(** What the disk says of the replaced name, by outcome. *)
Definition replaced (nm : str) (data : list byte) (o : CommitOutcome) (d d' : Disk) : Prop :=
  match o with
  | NotCommitted _ => keeps nm d d'
  | DurablyCommitted => d'.(pending) = [] ∧ ∃ n, d'.(live) !! nm = Some n ∧ holds data n
  | IndeterminateAfterRename _ => ∃ n, d'.(live) !! nm = Some n ∧ holds data n ∧
      ∀ dir, dir ∈ states d' → dir !! nm = Some n ∨ ∃ dir0, dir0 ∈ states d ∧ dir !! nm = dir0 !! nm
  end.

(** Every name but the two was left alone, and [nm] is as the outcome says. *)
Definition replaced_only (nm tmp : str) (data : list byte) (o : CommitOutcome) (d d' : Disk) : Prop :=
  static d' = static d ∧ (∀ m, m ≠ tmp → m ≠ nm → keeps m d d') ∧ replaced nm data o d d'.

Lemma untouched_replaced nm tmp data e d d' :
  nm ≠ tmp → (∀ m, m ≠ tmp → keeps m d d') → replaced_only nm tmp data (NotCommitted e) d d'.
Proof. intros Hne Hk. split_and!; [by apply (Hk nm)|auto|by apply Hk]. Qed.

(** From the temporary file in place to the outcome. *)
Definition finish (nm : str) (data : list byte) (tmp : str) (before : option (Z * Z)) (node : Node)
    (d : Disk) : CommitOutcome * Disk :=
  match fill self idle nm data tmp before node d with
  | (Err e, d1) => (NotCommitted e, (cleanup self tmp node.(n_inode) d1).2)
  | (Ok _, d1) =>
      match settle idle d1 with
      | (Ok _, d2) => (DurablyCommitted, d2)
      | (Err e, d2) => (IndeterminateAfterRename e, d2)
      end
  end.

Lemma fill_spec nm data tmp before node d r d' :
  fill self idle nm data tmp before node d = (r, d') → nm ≠ tmp →
  d.(live) !! tmp = Some node → node.(n_data) = [] →
  match r with
  | Err _ => ∀ m, m ≠ tmp → keeps m d d'
  | Ok _ => (∀ m, m ≠ tmp → m ≠ nm → keeps m d d') ∧
      d'.(live) !! nm = Some (with_data node data true) ∧ static d' = static d ∧
      ∀ dir, dir ∈ d'.(pending) → ∃ dir0, dir0 ∈ states d ∧ dir !! nm = dir0 !! nm
  end.
Proof.
  rewrite fill_filled, bind_run. intros Hf Hne Hn He.
  pose proof (λ m Hm, keeping_filled m nm data tmp before node Hm d) as K.
  destruct (filled nm data tmp before node d) as [[u|e] d1] eqn:Hfd; cbn in K; [|by simplify_eq].
  apply filled_Ok in Hfd as [Htmp _]; [|done|done].
  pose proof (λ m b Hm Hm', keeping_rename m tmp nm b Hm Hm' d1) as R.
  destruct r as [u'|e].
  - specialize (λ m Hm Hm', R m (bool_decide (before = None)) Hm Hm'). rewrite Hf in R. cbn in R.
    apply (rename_Ok _ _ _ _ _ _ _ Htmp) in Hf as (Hl & Hp & Hs).
    destruct (K nm Hne) as (_ & Ks & Kd). split_and!.
    + intros m Hm Hm'. etransitivity; [by apply K|by apply R].
    + by rewrite Hl, lookup_insert_eq.
    + congruence.
    + rewrite Hp. exact Kd.
  - intros m Hm. etransitivity; [by apply K|]. revert Hf. unfold rename.
    cbv [mbind fsm_bind call gets mret fsm_ret guard fail modify]. cbn [count live]. rewrite Htmp.
    destruct (sys d1 (calls d1)); [intros [= _ <-]; apply keeps_count|].
    destruct (negb _); intros [= _ <-]; apply keeps_count.
Qed.

Lemma finish_spec nm data tmp before node d o d' :
  finish nm data tmp before node d = (o, d') → nm ≠ tmp →
  d.(live) !! tmp = Some node → node.(n_data) = [] → regular self node = true →
  replaced_only nm tmp data o d d'.
Proof.
  unfold finish. intros Hf Hne Hn He Hreg.
  destruct (fill self idle nm data tmp before node d) as [[u|e] d1] eqn:Hfill;
    apply fill_spec in Hfill; try done.
  - destruct Hfill as (K & Hl & Hs & Hp).
    assert (holds data (with_data node data true)) as Hh by (split_and!; [exact Hreg|done|done]).
    destruct (settle idle d1) as [r d2] eqn:Hset. apply settle_spec in Hset as (Hl2 & Hs2 & Hp2).
    assert (∀ m, m ≠ tmp → m ≠ nm → keeps m d d2) as K2.
    { intros m Hm Hm'. etransitivity; [by apply K|]. split_and!; [by rewrite Hl2|done|].
      intros dir. unfold states. rewrite Hl2. destruct r; rewrite Hp2; [|by exists dir].
      cbn. rewrite list_elem_of_singleton. intros ->. exists (live d1). set_solver. }
    destruct r as [u'|e]; injection Hf as <- <-; (split_and!; [congruence|done|]).
    + split; [done|]. eexists. rewrite Hl2. done.
    + eexists. split_and!; [by rewrite Hl2|done|]. intros dir. unfold states.
      rewrite elem_of_app, list_elem_of_singleton, Hp2. intros [Hd| ->]; [right; by apply Hp|left; by rewrite Hl2].
  - simplify_eq. apply untouched_replaced; [done|]. intros m Hm.
    etransitivity; [by apply Hfill|by apply keeping_cleanup].
Qed.

Lemma replace_with_spec nm data c tmp d o d' :
  replace_with self idle nm data c tmp d = (o, d') → nm ≠ tmp → replaced_only nm tmp data o d d'.
Proof.
  intros Hr Hne. unfold replace_with in Hr.
  set (start := before ← prepare self idle nm data c tmp; node ← create self tmp; mret (before, node)) in Hr.
  assert (∀ m, m ≠ tmp → keeps m d (start d).2) as K.
  { intros m Hm. apply keeping_bind; [apply keeping_prepare|intros]. apply keeping_bind; eauto with fs. }
  destruct (start d) as [[[before node]|e] d1] eqn:H1; cbn in K; [|simplify_eq; by apply untouched_replaced].
  apply fsm_bind_Ok in H1 as (b' & d0 & _ & H1). apply fsm_bind_Ok in H1 as (n' & d0' & H1 & H1').
  injection H1' as -> -> ->. apply create_Ok in H1 as [Hlive Hempty].
  assert (∀ m, m ≠ tmp → keeps m d (count d1)) as K2
    by (intros m Hm; etransitivity; [by apply K|apply keeps_count]).
  rewrite bind_run in Hr. unfold call in Hr.
  destruct (sys d1 (calls d1)); [simplify_eq; by apply untouched_replaced|].
  destruct (regular self node) eqn:Hreg; cbn [guard mret fsm_ret fail] in Hr;
    [|simplify_eq; by apply untouched_replaced].
  apply finish_spec in Hr as (Hs & Hk & Hrep); try done.
  destruct (K2 nm Hne) as (L2 & S2 & P2). split_and!; [congruence| |].
  - intros m Hm Hm'. etransitivity; [by apply K2|by apply Hk].
  - destruct o as [e| |e]; cbn [replaced] in *.
    + etransitivity; [by apply K2|done].
    + done.
    + destruct Hrep as (n & Hn & Hh & Hall). exists n. split_and!; [done|done|].
      intros dir [?|(dir0 & Hd0 & ->)]%Hall; [by left|]. right. by apply P2.
Qed.

(** *** After a power failure *)

Definition file (d : Disk) (nm : str) : option (list byte) := n_data <$> d.(live) !! nm.

(** The contents of [nm] are [v], now and after a power failure. *)
Definition settled (d : Disk) (nm : str) (v : option (list byte)) : Prop :=
  file d nm = v ∧ ∀ d', crash d d' → file d' nm = v.

(** Any possible entry of one name is found by some restart. *)
Lemma crash_with d dir nm x :
  dir ∈ states d → found (dir !! nm) x → ∃ d', crash d d' ∧ d'.(live) !! nm = x.
Proof.
  intros Hd Hx. set (l := partial_alter (λ _, x) nm ((λ n, with_data n n.(n_data) true) <$> dir)).
  exists (mkDisk l [] d.(self_stat) d.(umask) d.(next_inode) d.(sys) d.(calls) d.(unreadable) d.(entropy) d.(subs)).
  split; [|by apply lookup_partial_alter_eq]. split_and!; [done|done|]. exists dir. split; [done|]. cbn.
  intros m. unfold l. destruct (decide (m = nm)) as [->|Hne]; [by rewrite lookup_partial_alter_eq|].
  rewrite lookup_partial_alter_ne, lookup_fmap by done. destruct (dir !! m) as [n|]; [|done].
  cbn. destruct n as [? ? ? ? ? ? ? []]; done.
Qed.

Lemma keeps_settled nm d d' v : keeps nm d d' → settled d nm v → settled d' nm v.
Proof.
  intros (Hl & _ & Hd) [Hf Hc]. split; [unfold file in *; by rewrite Hl|].
  intros d2 (_ & _ & dir & Hin & Hfound). destruct (Hd dir Hin) as (dir0 & Hin0 & Heq).
  specialize (Hfound nm). rewrite Heq in Hfound.
  destruct (crash_with d dir0 nm _ Hin0 Hfound) as (d3 & Hc3 & Hl3).
  apply Hc in Hc3. unfold file in *. by rewrite Hl3 in Hc3.
Qed.

Lemma holds_found data n x : holds data n → found (Some n) x → n_data <$> x = Some data.
Proof. intros (_ & Hd & Hs) Hf. destruct x as [n'|]; [|done]. cbn in Hf. rewrite Hs in Hf. by rewrite Hf, <-Hd. Qed.

Lemma replaced_settled nm data o d d' :
  replaced nm data o d d' →
  match o with
  | NotCommitted _ => file d' nm = file d nm ∧ ∀ v, settled d nm v → settled d' nm v
  | DurablyCommitted => settled d' nm (Some data)
  | IndeterminateAfterRename _ => file d' nm = Some data ∧
      ∀ v d2, settled d nm v → crash d' d2 → file d2 nm = v ∨ file d2 nm = Some data
  end.
Proof.
  destruct o as [e| |e]; cbn [replaced].
  - intros Hk. split; [unfold file; by rewrite (proj1 Hk)|]. intros v. by apply keeps_settled.
  - intros (Hp & n & Hn & Hh). unfold settled, file. rewrite Hn. cbn. split; [by rewrite (proj1 (proj2 Hh))|].
    intros d2 (_ & _ & dir & Hin & Hf). unfold states in Hin. rewrite Hp in Hin. cbn in Hin.
    apply list_elem_of_singleton in Hin as ->. specialize (Hf nm). rewrite Hn in Hf. by eapply holds_found.
  - intros (n & Hn & Hh & Hall). unfold file. rewrite Hn. cbn. split; [by rewrite (proj1 (proj2 Hh))|].
    intros v d2 Hs (_ & _ & dir & Hin & Hf). specialize (Hf nm).
    destruct (Hall dir Hin) as [Heq|(dir0 & Hin0 & Heq)]; rewrite Heq in Hf.
    + right. by eapply holds_found.
    + left. destruct (crash_with d dir0 nm _ Hin0 Hf) as (d3 & Hc3 & Hl3).
      apply Hs in Hc3. unfold file in Hc3. by rewrite Hl3 in Hc3.
Qed.

(** A name that is not one of [replace]'s temporary files. *)
Definition state_name (nm : str) : Prop := ∀ suffix, nm ≠ temporary_name suffix.

Lemma replace_spec nm data c d o d' :
  replace self nm data c d = (o, d') → state_name nm →
  static d' = static d ∧
  (∀ m, state_name m → m ≠ nm → keeps m d d') ∧ replaced nm data o d d'.
Proof.
  unfold replace. destruct (entropy d (calls d)) as [suffix|].
  - intros Hr Hn. apply replace_with_spec in Hr as (Hs & Hk & Hrep); [|done].
    split_and!; [done|intros m Hm Hm'; etransitivity; [apply keeps_count|by apply Hk]|].
    by destruct o.
  - intros [= <- <-] Hn. split_and!; [done|intros; apply keeps_count|apply keeps_count].
Qed.

(** Only the name itself and the temporary file of this call are touched. *)
Lemma replace_keeps nm data c d o d' m :
  replace self nm data c d = (o, d') → state_name nm → m ≠ nm →
  (∀ s, d.(entropy) d.(calls) = Some s → m ≠ temporary_name s) → keeps m d d'.
Proof.
  unfold replace. destruct (entropy d (calls d)) as [suffix|].
  - intros Hr Hn Hm Hs. apply replace_with_spec in Hr as (_ & Hk & _); [|done].
    etransitivity; [apply keeps_count|]. apply Hk; [by apply Hs|done].
  - intros [= <- <-] _ _ _. apply keeps_count.
Qed.

(** C8: a file is replaced entirely or not at all, whatever fails. For every
    choice of failing system calls (so for a process stopped at any point):
    when [replace] reports a durable commit the name has the new contents,
    now and after any power failure; when it reports that nothing was
    committed the name is as before in both; in between, a power failure
    shows the old or the complete new contents. All other state files are
    untouched. *)
Theorem replace_is_atomic nm data c d o d' v :
  replace self nm data c d = (o, d') → state_name nm → settled d nm v →
  (∀ m w, state_name m → m ≠ nm → settled d m w → settled d' m w) ∧
  match o with
  | DurablyCommitted => settled d' nm (Some data)
  | NotCommitted _ => settled d' nm v
  | IndeterminateAfterRename _ => file d' nm = Some data ∧
      ∀ d2, crash d' d2 → file d2 nm = v ∨ file d2 nm = Some data
  end.
Proof.
  intros Hr Hn Hs. apply replace_spec in Hr as (_ & Hk & Hrep); [|done]. split.
  - intros m w Hm Hm'. by apply keeps_settled, Hk.
  - apply replaced_settled in Hrep. destruct o; [by apply Hrep|done|].
    destruct Hrep as [Hf Hall]. split; [done|]. intros d2. by apply Hall.
Qed.

(** *** When nothing fails *)

Lemma temporary_ok suffix : name_ok (temporary_name suffix) = true.
Proof.
  assert (∃ s, temporary_name suffix = x2e :: x73 :: s ∧ x2f ∉ temporary_name suffix) as (s & Hs & Hno).
  { eexists. split; [reflexivity|]. unfold temporary_name. rewrite !not_elem_of_app. split_and!.
    - vm_compute. set_solver.
    - by apply hex_without.
    - vm_compute. set_solver. }
  unfold name_ok, components. rewrite split_on_none by done.
  rewrite filter_cons_True by (rewrite Hs; split; discriminate). rewrite filter_nil.
  rewrite Hs. cbn -[bool_decide]. unfold component.
  by rewrite !bool_decide_eq_false_2 by discriminate.
Qed.

(** [m] succeeds from [d], with a result and a state that satisfy [Q]. *)
Definition succeeds {A} (m : fsm A) (d : Disk) (Q : A → Disk → Prop) : Prop :=
  ∃ a d', m d = (Ok a, d') ∧ Q a d'.

Lemma succeeds_bind {A B} (m : fsm A) (f : A → fsm B) d Q :
  succeeds m d (λ a d', succeeds (f a) d' Q) → succeeds (m ≫= f) d Q.
Proof. intros (a & d1 & Hm & b & d2 & Hf & HQ). exists b, d2. split; [|done]. by rewrite bind_run, Hm. Qed.
Lemma succeeds_ret {A} (a : A) d (Q : A → Disk → Prop) : Q a d → succeeds (mret a) d Q.
Proof. intros HQ. by exists a, d. Qed.
Lemma succeeds_guard b e d Q : b = true → Q () d → succeeds (guard b e) d Q.
Proof. intros -> HQ. by exists (), d. Qed.
Lemma succeeds_gets {A} (f : Disk → A) d Q : Q (f d) d → succeeds (gets f) d Q.
Proof. intros HQ. by exists (f d), d. Qed.
Lemma succeeds_modify f d Q : Q () (f d) → succeeds (modify f) d Q.
Proof. intros HQ. by exists (), (f d). Qed.
Lemma succeeds_call d Q : d.(sys) d.(calls) = None → Q () (count d) → succeeds call d Q.
Proof. intros Hs HQ. exists (), (count d). split; [|done]. unfold call. by rewrite Hs. Qed.
Lemma succeeds_named nm d r Q :
  d.(sys) d.(calls) = None → named self d nm = Ok r → Q r (count d) → succeeds (named_regular self nm) d Q.
Proof.
  intros Hs Hr HQ. exists r, (count d). split; [|done]. unfold named_regular.
  cbv [mbind fsm_bind call gets pure]. by rewrite Hs, <-Hr.
Qed.
Lemma succeeds_write tmp n data d Q :
  d.(sys) d.(calls) = None → d.(live) !! tmp = Some n →
  Q () (set_live (count d) (<[tmp := with_data n (n_data n ++ data) false]> d.(live))) →
  succeeds (write_all tmp (n_inode n) data) d Q.
Proof.
  intros Hs Hn HQ. exists (), (append tmp (n_inode n) data (count d)). unfold write_all. rewrite Hs.
  split; [done|]. unfold append. cbn [count live]. rewrite Hn, decide_True by done. exact HQ.
Qed.
Lemma succeeds_sync tmp n d Q :
  d.(sys) d.(calls) = None → d.(live) !! tmp = Some n →
  Q () (set_live (count d) (<[tmp := with_data n (n_data n) true]> d.(live))) →
  succeeds (sync_file tmp (n_inode n)) d Q.
Proof.
  intros Hs Hn HQ. apply succeeds_bind, succeeds_call; [done|]. apply succeeds_modify.
  cbn [count live]. rewrite Hn, decide_True by done. exact HQ.
Qed.

Lemma named_present d nm n :
  name_ok nm = true → private d.(self_stat) self.(uid) self.(gid) = true → d.(live) !! nm = Some n →
  regular self n = true → named self d nm = Ok (Some n.(n_inode)).
Proof. intros Hn Hp Hl Hr. unfold named. rewrite Hn, Hp, Hl. cbn. by rewrite Hr. Qed.

Lemma prepare_succeeds nm data c tmp d before Q :
  (∀ n, d.(sys) n = None) → name_ok tmp = true → nm ≠ tmp →
  (length data ≤ Z.to_nat (1024 * 1024))%nat → named self d nm = Ok before →
  (c = true → before = None) → Q before (count d) →
  succeeds (prepare self idle nm data c tmp) d Q.
Proof.
  intros Hsys Ht Hne Hlen Hb Hc HQ. unfold prepare.
  apply succeeds_bind, succeeds_guard; [done|]. apply succeeds_bind, succeeds_guard.
  { apply negb_true_iff, orb_false_iff. split; [by apply Nat.ltb_ge|by apply bool_decide_eq_false_2]. }
  apply succeeds_bind, (succeeds_named _ _ before); [done|done|]. apply succeeds_bind, succeeds_guard.
  { destruct c; [|done]. by rewrite Hc. }
  by apply succeeds_bind, succeeds_ret, succeeds_ret.
Qed.

Lemma create_succeeds tmp d Q :
  (∀ n, d.(sys) n = None) → d.(live) !! tmp = None →
  (let node := mkNode RegularFile self.(uid) self.(gid) (Z.land O600 (Z.lnot d.(umask))) 1 d.(next_inode) [] false in
   Q node (set_live (take_inode (count d)) (<[tmp := node]> d.(live)))) →
  succeeds (create self tmp) d Q.
Proof.
  intros Hsys Ht HQ. unfold create. apply succeeds_bind, succeeds_call; [done|].
  apply succeeds_bind, succeeds_gets. apply succeeds_bind, succeeds_guard; [by apply bool_decide_eq_true_2|].
  apply succeeds_bind, succeeds_gets. apply succeeds_bind, succeeds_gets.
  by apply succeeds_bind, succeeds_modify, succeeds_ret.
Qed.

Lemma fill_succeeds nm data tmp before node d :
  (∀ n, d.(sys) n = None) → name_ok tmp = true → nm ≠ tmp → named self d nm = Ok before →
  d.(live) !! tmp = Some node → regular self node = true →
  succeeds (fill self idle nm data tmp before node) d
    (λ _ d', (∀ n, d'.(sys) n = None) ∧ d'.(live) !! tmp = None).
Proof.
  intros Hsys Ht Hne Hb Hn Hreg.
  assert (∀ l, l !! nm = d.(live) !! nm → ∀ d', live d' = l → self_stat d' = self_stat d →
    named self d' nm = Ok before) as Hnamed.
  { intros l Hl d' Hl' Hs'. revert Hb. unfold named. by rewrite Hl', Hs', Hl. }
  unfold fill. cbv zeta. apply succeeds_bind, succeeds_ret, succeeds_bind.
  apply succeeds_write; [apply Hsys|done|]. apply succeeds_bind, succeeds_ret, succeeds_bind.
  set (half := (length data / 2)%nat). set (n1 := with_data node (n_data node ++ take half data) false).
  apply (succeeds_write tmp n1); [apply Hsys|cbn; by rewrite lookup_insert_eq|].
  apply succeeds_bind, succeeds_call; [apply Hsys|]. apply succeeds_bind, succeeds_ret, succeeds_bind.
  apply (succeeds_sync tmp (with_data n1 (n_data n1 ++ drop half data) false)); [apply Hsys|cbn; by rewrite lookup_insert_eq|].
  apply succeeds_bind, succeeds_ret, succeeds_bind, (succeeds_named _ _ before); [apply Hsys| |].
  { eapply Hnamed; [|reflexivity|reflexivity]. cbn. by rewrite !lookup_insert_ne. }
  assert (private (self_stat d) self.(uid) self.(gid) = true) as Hp.
  { revert Hb. unfold named. by destruct (name_ok nm), (private _ _ _). }
  apply succeeds_bind. eapply succeeds_named; [apply Hsys|eapply named_present;
    [done|exact Hp|cbn; by rewrite lookup_insert_eq|exact Hreg]|].
  apply succeeds_bind, succeeds_guard; [by rewrite !bool_decide_eq_true_2|].
  unfold rename. apply succeeds_bind, succeeds_call; [apply Hsys|]. do 2 apply succeeds_bind, succeeds_gets.
  cbn [live count set_live]. rewrite lookup_insert_eq. apply succeeds_bind, succeeds_guard.
  { rewrite !lookup_insert_ne by done. revert Hb. unfold named. rewrite Hp.
    destruct (name_ok nm); [|done]. cbn. destruct (live d !! nm) as [n|]; cbn; [destruct (regular self n)|];
      intros [= <-]; [done|]. by rewrite bool_decide_eq_true_2. }
  apply succeeds_modify. split; [done|]. cbn. by rewrite lookup_insert_ne, lookup_delete_eq.
Qed.

Lemma replace_succeeds nm data c d suffix :
  (∀ n, d.(sys) n = None) → d.(entropy) d.(calls) = Some suffix → state_name nm →
  d.(live) !! temporary_name suffix = None → name_ok nm = true →
  private d.(self_stat) self.(uid) self.(gid) = true → Z.land O600 (Z.lnot d.(umask)) = O600 →
  (length data ≤ Z.to_nat (1024 * 1024))%nat →
  match d.(live) !! nm with Some n => regular self n = true ∧ c = false | None => True end →
  ∃ d', replace self nm data c d = (DurablyCommitted, d') ∧ file d' nm = Some data ∧
    d'.(live) !! temporary_name suffix = None.
Proof.
  intros Hsys Hent Hst Htmp Hnm Hpriv Hmask Hlen Hold.
  destruct (replace self nm data c d) as [o d'] eqn:Hr.
  assert (o = DurablyCommitted ∧ d'.(live) !! temporary_name suffix = None) as [-> Hgone].
  2: { exists d'. split; [done|]. split; [|done]. apply replace_spec in Hr as (_ & _ & Hrep); [|done].
       by apply replaced_settled in Hrep as [? _]. }
  assert (∃ before, named self d nm = Ok before ∧ (c = true → before = None)) as (before & Hb & Hc).
  { unfold named. rewrite Hnm, Hpriv. cbn. destruct (live d !! nm) as [n|]; [|by exists None].
    destruct Hold as [-> ->]. by eexists. }
  assert (nm ≠ temporary_name suffix) as Hne by apply Hst.
  revert Hr. unfold replace, replace_with. rewrite Hent. set (tmp := temporary_name suffix) in *.
  set (node := mkNode RegularFile self.(uid) self.(gid) (Z.land O600 (Z.lnot d.(umask))) 1 d.(next_inode) [] false).
  set (d1 := set_live (take_inode (count (count (count d)))) (<[tmp := node]> d.(live))).
  assert (succeeds (before ← prepare self idle nm data c tmp; node ← create self tmp; mret (before, node))
    (count d) (λ r d', r = (before, node) ∧ d' = d1)) as (r & d1' & -> & -> & ->).
  { apply succeeds_bind, (prepare_succeeds _ _ _ _ _ before); [done|apply temporary_ok|done..|].
    apply succeeds_bind, create_succeeds; [done|done|]. by apply succeeds_ret. }
  assert (regular self node = true) as Hreg.
  { unfold regular, node. cbn. rewrite Hmask, !Z.eqb_refl. reflexivity. }
  rewrite bind_run. unfold call. cbn [sys d1 set_live take_inode count]. rewrite Hsys, Hreg.
  cbn [guard mret fsm_ret].
  destruct (fill_succeeds nm data tmp before node (count d1)) as (u & d3 & -> & Hq & Hgone); try done.
  - apply temporary_ok.
  - revert Hb. unfold named. cbn. by rewrite lookup_insert_ne.
  - cbn. by rewrite lookup_insert_eq.
  - unfold settle, sync_directory. cbv [mbind fsm_bind mret fsm_ret call modify]. rewrite Hq. by intros [= <- <-].
Qed.

(** With no failing system call, a private directory, a usable name and
    at most 1 MiB of data, [replace] commits: it cannot be stuck or refuse a
    legitimate write. *)
Theorem replace_commits nm data c d suffix :
  (∀ n, d.(sys) n = None) → d.(entropy) d.(calls) = Some suffix → state_name nm →
  d.(live) !! temporary_name suffix = None → name_ok nm = true →
  private d.(self_stat) self.(uid) self.(gid) = true → Z.land O600 (Z.lnot d.(umask)) = O600 →
  (length data ≤ Z.to_nat (1024 * 1024))%nat →
  match d.(live) !! nm with Some n => regular self n = true ∧ c = false | None => True end →
  ∃ d', replace self nm data c d = (DurablyCommitted, d') ∧ file d' nm = Some data.
Proof.
  intros Hsys Hent Hst Htmp Hnm Hpriv Hmask Hlen Hold.
  destruct (replace_succeeds nm data c d suffix) as (d' & Hr & Hf & _); eauto.
Qed.

End replace.
End LocalFsSpec.

(** ** The storage the daemon relies on *)

(** A Den: reading and replacing files, what a power failure may leave, the
    contents of a name, and that reads of plain state files do not fail. *)
Class Den (D : Type) : Type := {
  den_read : D → str → nat → result LocalFs.IoError (option (list byte));
  den_replace : str → list byte → bool → D → LocalFs.CommitOutcome * D;
  den_crash : D → D → Prop;
  den_file : D → str → option (list byte);
  den_quiet : D → Prop
}.

(** A single path component that is not the name of a temporary file. *)
Definition plain (nm : str) : Prop := LocalFs.name_ok nm = true ∧ LocalFsSpec.state_name nm.

(** The contents of [nm] are [v], now and after a power failure. *)
Definition den_settled `{Den D} (d : D) (nm : str) (v : option (list byte)) : Prop :=
  den_file d nm = v ∧ ∀ d', den_crash d d' → den_file d' nm = v.

Class DenLaws (D : Type) `{Den D} : Prop := {
  den_read_file : ∀ d nm limit v, den_read d nm limit = Ok v → den_file d nm = v;
  den_read_limit : ∀ d nm limit b, den_read d nm limit = Ok (Some b) → (length b ≤ limit)%nat;
  den_read_quiet : ∀ d nm limit, den_quiet d → plain nm →
    (∀ b, den_file d nm = Some b → (length b ≤ limit)%nat) → den_read d nm limit = Ok (den_file d nm);
  den_replace_quiet : ∀ nm data c d o d', den_replace nm data c d = (o, d') → plain nm →
    den_quiet d → den_quiet d';
  den_replace_size : ∀ nm data c d d', den_replace nm data c d = (LocalFs.DurablyCommitted, d') →
    (length data ≤ Z.to_nat (1024 * 1024))%nat;
  den_replace_other : ∀ nm data c d o d' m, den_replace nm data c d = (o, d') → plain nm → plain m →
    m ≠ nm → den_file d' m = den_file d m ∧ ∀ v, den_settled d m v → den_settled d' m v;
  den_replace_not : ∀ nm data c d e d', den_replace nm data c d = (LocalFs.NotCommitted e, d') → plain nm →
    den_file d' nm = den_file d nm ∧ ∀ v, den_settled d nm v → den_settled d' nm v;
  den_replace_durable : ∀ nm data c d d', den_replace nm data c d = (LocalFs.DurablyCommitted, d') →
    plain nm → den_settled d' nm (Some data);
  den_replace_unknown : ∀ nm data c d e d', den_replace nm data c d = (LocalFs.IndeterminateAfterRename e, d') →
    plain nm → den_file d' nm = Some data ∧
    ∀ v d2, den_settled d nm v → den_crash d' d2 → den_file d2 nm = v ∨ den_file d2 nm = Some data;
  den_crash_settled : ∀ d d' nm v, den_crash d d' → den_file d' nm = v → den_settled d' nm v
}.

Section disk_den.
Import LocalFs LocalFsSpec.
Variable self : PrivateDirectory.

Definition disk_quiet (d : Disk) : Prop :=
  private d.(self_stat) self.(uid) self.(gid) = true ∧
  ∀ nm, plain nm → d.(unreadable) nm = false ∧ ∀ n, d.(live) !! nm = Some n → regular self n = true.

Definition disk_den : Den Disk := {|
  den_read := read self;
  den_replace := replace self;
  den_crash := crash;
  den_file := file;
  den_quiet := disk_quiet
|}.

Lemma read_inv d nm limit v : read self d nm limit = Ok v → file d nm = v.
Proof.
  unfold read, named, file. intros H. ww_inv; cbn; naive_solver.
Qed.

Lemma read_limit d nm limit b : read self d nm limit = Ok (Some b) → (length b ≤ limit)%nat.
Proof. unfold read, named. intros H. ww_inv. by bool_simpl. Qed.

(** What [read] hands over was safe to read. It returns contents only
    for a single-component name in a directory that is still private (mode
    0700, own user and group), from a regular file of mode 0600 with one
    link and the same owner, and never more than the limit. *)
Theorem read_is_safe d nm limit b :
  read self d nm limit = Ok (Some b) →
  name_ok nm = true ∧ private d.(self_stat) self.(uid) self.(gid) = true ∧ (length b ≤ limit)%nat ∧
  ∃ n, d.(live) !! nm = Some n ∧ regular self n = true ∧ n.(n_data) = b.
Proof.
  unfold read, named. intros H. ww_inv. bool_simpl. split_and!; [done|done|done|]. by eexists.
Qed.

Lemma read_quiet d nm limit :
  disk_quiet d → plain nm → (∀ b, file d nm = Some b → (length b ≤ limit)%nat) →
  read self d nm limit = Ok (file d nm).
Proof.
  intros [Hp Hq] Hn Hl. destruct (Hq nm Hn) as [Hr Hreg]. unfold read, named, file in *.
  rewrite (proj1 Hn), Hp. cbn [require mbind result_bind].
  destruct (live d !! nm) as [n|]; [|done]. rewrite (Hreg n) by done.
  cbn [require mbind result_bind fmap option_fmap option_map] in *.
  rewrite Hr. specialize (Hl _ eq_refl). destruct (Nat.ltb_spec limit (length (n_data n))); [lia|done].
Qed.

Lemma replace_quiet nm data c d o d' :
  replace self nm data c d = (o, d') → plain nm → disk_quiet d → disk_quiet d'.
Proof.
  intros Hr Hn [Hp Hq]. apply replace_spec in Hr as (Hs & Hk & Hrep); [|apply Hn].
  injection Hs as Hs Hu _ _ _. split; [by rewrite Hs|]. intros m Hm. rewrite Hu. split; [by apply Hq|].
  intros n Hl. destruct (decide (m = nm)) as [->|Hne].
  - destruct o; cbn in Hrep.
    + destruct Hrep as [Heq _]. rewrite Heq in Hl. by apply (Hq nm).
    + destruct Hrep as (_ & n' & Hn' & Hh & _). congruence.
    + destruct Hrep as (n' & Hn' & (Hh & _) & _). congruence.
  - destruct (Hk m) as (Heq & _); [apply Hm|done|]. rewrite Heq in Hl. by apply (Hq m).
Qed.

Lemma replace_size nm data c d d' :
  replace self nm data c d = (DurablyCommitted, d') → (length data ≤ Z.to_nat (1024 * 1024))%nat.
Proof.
  unfold replace, replace_with. destruct (entropy d (calls d)) as [suffix|]; [|done].
  unfold prepare. generalize (Z.to_nat (1024 * 1024)). intros limit.
  destruct (Nat.ltb_spec limit (length data)); [|done].
  cbv [mbind fsm_bind guard mret fsm_ret fail]. cbn [orb negb]. by destruct (name_ok _).
Qed.

#[export] Instance disk_den_laws : DenLaws (H := disk_den) Disk.
Proof.
  split; cbn.
  - apply read_inv.
  - apply read_limit.
  - apply read_quiet.
  - apply replace_quiet.
  - apply replace_size.
  - intros nm data c d o d' m Hr Hn Hm Hne. apply replace_spec in Hr as (_ & Hk & _); [|apply Hn].
    specialize (Hk m (proj2 Hm) Hne). split; [unfold file; by rewrite (proj1 Hk)|].
    intros v. by apply keeps_settled.
  - intros nm data c d e d' Hr Hn. apply replace_spec in Hr as (_ & _ & Hrep); [|apply Hn].
    by apply replaced_settled in Hrep.
  - intros nm data c d d' Hr Hn. apply replace_spec in Hr as (_ & _ & Hrep); [|apply Hn].
    by apply replaced_settled in Hrep.
  - intros nm data c d e d' Hr Hn. apply replace_spec in Hr as (_ & _ & Hrep); [|apply Hn].
    by apply replaced_settled in Hrep.
  - intros d d' nm v (Hp & _ & dir & _ & Hf) Hv. split; [done|].
    intros d2 (_ & _ & dir2 & Hin & Hf2). rewrite Hp in Hin. cbn in Hin.
    apply list_elem_of_singleton in Hin as ->. specialize (Hf nm). specialize (Hf2 nm).
    cbn in *. unfold file in *. subst v. destruct (dir !! nm) as [n0|], (live d' !! nm) as [n1|]; cbn in Hf; try done.
    + destruct (n_synced n0) eqn:Hs; subst n1 || (rewrite Hf in Hf2).
      * destruct (live d2 !! nm) as [n2|]; cbn in Hf2; [|done]. rewrite Hs in Hf2. by rewrite Hf2.
      * destruct (live d2 !! nm) as [n2|]; cbn in Hf2; [|done]. rewrite Hf2. by rewrite Hf.
    + by destruct (live d2 !! nm).
Qed.
End disk_den.

(** A Den that never fails. *)
Module ToyDen.
Import LocalFs.

(** Over 1 MiB. *)
Definition toy_over (data : list byte) : bool := 1024 * 1024 <? Z.of_nat (length data).
Lemma toy_over_spec data : toy_over data = false ↔ (length data ≤ Z.to_nat (1024 * 1024))%nat.
Proof. unfold toy_over. rewrite Z.ltb_ge. lia. Qed.
Definition toy_read (d : str → option (list byte)) (nm : str) (limit : nat) : result IoError (option (list byte)) :=
  match d nm with
  | Some b => if (limit <? length b)%nat then Err Unsafe else Ok (Some b)
  | None => Ok None
  end.
Definition toy_replace (nm : str) (data : list byte) (create_only : bool) (d : str → option (list byte))
    : CommitOutcome * (str → option (list byte)) :=
  if toy_over data then (NotCommitted Unsafe, d)
  else (DurablyCommitted, λ m, if decide (m = nm) then Some data else d m).
#[export] Instance toy_den : Den (str → option (list byte)) := {|
  den_read := toy_read;
  den_replace := toy_replace;
  den_crash d d' := d' = d;
  den_file d := d;
  den_quiet _ := True
|}.
#[export] Instance toy_den_laws : DenLaws (str → option (list byte)).
Proof.
  split; unfold den_settled; cbn [den_read den_replace den_crash den_file den_quiet toy_den];
    unfold toy_read, toy_replace.
  - intros d nm limit v Hr. destruct (d nm) as [b|]; [destruct (limit <? length b)%nat|]; by simplify_eq.
  - intros d nm limit b Hr. destruct (d nm) as [x|]; [|done].
    destruct (Nat.ltb_spec limit (length x)); by simplify_eq.
  - intros d nm limit _ _ Hl. destruct (d nm) as [x|]; [|done].
    destruct (Nat.ltb_spec limit (length x)); [|done]. specialize (Hl x eq_refl). lia.
  - done.
  - intros nm data c d d' Hr. apply toy_over_spec. by destruct (toy_over data).
  - intros nm data c d o d' m Hr _ _ Hne. destruct (toy_over data); simplify_eq; [naive_solver|].
    rewrite decide_False by done. split; [done|]. intros v [Hv _]. split; [done|]. intros d' ->. by rewrite decide_False.
  - intros nm data c d e d' Hr _. destruct (toy_over data); simplify_eq. naive_solver.
  - intros nm data c d d' Hr _. destruct (toy_over data); simplify_eq. rewrite decide_True by done.
    split; [done|]. intros d' ->. by rewrite decide_True.
  - intros nm data c d e d' Hr _. by destruct (toy_over data).
  - naive_solver.
Qed.

End ToyDen.

Module LocalFsDemo.
Import LocalFs LocalFsSpec.

Definition demo_self : PrivateDirectory := mkPrivate 1000 1000.
Definition demo_name : str := lit "state.json".
Definition demo_old : Node := mkNode RegularFile 1000 1000 O600 1 (1, 2) (lit "old") true.
(** A directory with one file; the oracle fails the given call. *)
Definition demo_disk (fails : nat → option nat) : Disk :=
  mkDisk {[demo_name := demo_old]} [] (mkNode Directory 1000 1000 O700 2 (1, 1) [] true) 18 (1, 3)
    fails 0 (λ _, false) (λ _, Some (Toy.toy_array 16 [])) ∅.

Lemma demo_state_name : state_name demo_name.
Proof. intros suffix. discriminate. Qed.

Lemma demo_settled fails : settled (demo_disk fails) demo_name (Some (lit "old")).
Proof.
  split; [reflexivity|]. intros d' (_ & _ & dir & Hin & Hf).
  change (dir ∈ [({[demo_name := demo_old]} : Dir)]) in Hin.
  apply list_elem_of_singleton in Hin as ->. specialize (Hf demo_name).
  rewrite lookup_singleton_eq in Hf. unfold file.
  destruct (live d' !! demo_name); [|done]. cbn in Hf. by subst.
Qed.

(** The directory synchronization is the twelfth call. *)
Lemma replace_is_atomic_witness :
  let '(o, d') := replace demo_self demo_name (lit "new") false
    (demo_disk (λ n, if decide (n = 11)%nat then Some 0%nat else None)) in
  (∃ e, o = IndeterminateAfterRename e) ∧
  ∀ d2, crash d' d2 → file d2 demo_name = Some (lit "old") ∨ file d2 demo_name = Some (lit "new").
Proof.
  destruct (replace _ _ _ _ _) as [o d'] eqn:Hr.
  pose proof (replace_is_atomic demo_self demo_name (lit "new") false _ o d' _ Hr demo_state_name
    (demo_settled _)) as [_ Ho].
  assert (match o with IndeterminateAfterRename _ => true | _ => false end = true) as Hi.
  { transitivity (match (replace demo_self demo_name (lit "new") false
      (demo_disk (λ n, if decide (n = 11)%nat then Some 0%nat else None))).1 with
      IndeterminateAfterRename _ => true | _ => false end); [by rewrite Hr|vm_compute; reflexivity]. }
  destruct o as [| |e]; try discriminate Hi. split; [by exists e|apply Ho].
Defined.

Lemma replace_commits_witness :
  ∃ d', replace demo_self demo_name (lit "new") false (demo_disk (λ _, None)) = (DurablyCommitted, d') ∧
    file d' demo_name = Some (lit "new").
Proof.
  apply (replace_commits demo_self demo_name (lit "new") false _ (Toy.toy_array 16 [])); try done.
  apply Nat.leb_le. vm_compute. reflexivity.
Defined.

Lemma read_is_safe_witness :
  read demo_self (demo_disk (λ _, None)) demo_name 3 = Ok (Some (lit "old")) ∧ (length (lit "old") ≤ 3)%nat.
Proof.
  assert (read demo_self (demo_disk (λ _, None)) demo_name 3 = Ok (Some (lit "old"))) as Hr
    by (vm_compute; reflexivity).
  split; [exact Hr|]. apply (read_is_safe _ _ _ _ _ Hr).
Defined.

End LocalFsDemo.
