(* ===== verification/Destroy.v ===== *)
(** * Destroying the entries of a Den ([werewolf-core/src/local_fs/destroy.rs])

    [Module Destroy]: overwriting, unlinking and emptying directories on the
    disk of LocalFs, every system call included; the check and the scrubbing
    of the lock file. [Class DenWipe] is what this promises to the code that
    destroys a Den, together with [DenWipeLaws]; the disk is an instance. *)

From stdpp Require Import gmap.
From S2P Require Export LocalFs.

Local Open Scope Z_scope.

Module Destroy.
Import LocalFs.

(** The length of [ZEROS]. *)
Definition CHUNK : nat := Z.to_nat (64 * 1024).

(** A directory: the Den itself, or one below it by its inode. *)
Notation Place := (option (Z * Z)).

Definition dir_at (d : Disk) (p : Place) : Dir :=
  match p with None => d.(live) | Some i => default ∅ (d.(subs) !! i) end.
Definition set_subs (m : gmap (Z * Z) Dir) (d : Disk) : Disk :=
  mkDisk d.(live) d.(pending) d.(self_stat) d.(umask) d.(next_inode) d.(sys) d.(calls) d.(unreadable)
    d.(entropy) m.
Definition set_entry (p : Place) (nm : str) (o : option Node) (d : Disk) : Disk :=
  let dir := partial_alter (λ _, o) nm (dir_at d p) in
  match p with None => set_live d dir | Some i => set_subs (<[i := dir]> d.(subs)) d end.

(** The names of a directory, in order ([openat] of "." and reading it). *)
Definition names (p : Place) : fsm (list str) :=
  _ ← call; _ ← call;
  gets (λ d, sort_by_key id (map_to_list (dir_at d p)).*1).

(** [statat] without following a symlink. *)
Definition statat (p : Place) (nm : str) : fsm (option Node) :=
  _ ← call; gets (λ d, dir_at d p !! nm).

(** Writes through a descriptor reach the entry while the name leads to the
    inode that was opened. *)
Definition through (p : Place) (nm : str) (inode : Z * Z) (f : Node → Node) (d : Disk) : Disk :=
  match dir_at d p !! nm with
  | Some n => if decide (n.(n_inode) = inode) then set_entry p nm (Some (f n)) d else d
  | None => d
  end.
Definition with_contents (data : list byte) (synced : bool) (n : Node) : Node :=
  mkNode n.(n_type) n.(n_uid) n.(n_gid) n.(n_mode) n.(n_nlink) n.(n_inode) data synced.

(** [k] zeros from [offset] on. *)
Definition zero_range (offset k : nat) (data : list byte) : list byte :=
  take offset data ++ replicate k x00 ++ drop (offset + k) data.

(** [write_all] of one chunk; one that fails may have written a part. *)
Definition write_zeros (p : Place) (nm : str) (inode : Z * Z) (offset k : nat) : fsm () := λ d,
  let put k := through p nm inode (λ n, with_contents (zero_range offset k n.(n_data)) false n) (count d) in
  match d.(sys) d.(calls) with
  | None => (Ok (), put k)
  | Some j => (Err SystemCall, put (Nat.min j k))
  end.

(** The [while left > 0] loop; each turn writes at least one byte. *)
Fixpoint zero_loop (fuel : nat) (p : Place) (nm : str) (inode : Z * Z) (offset left : nat) : fsm () :=
  match fuel with
  | O => mret ()
  | S fuel =>
      if (left =? 0)%nat then mret () else
      let chunk := Nat.min left CHUNK in
      _ ← write_zeros p nm inode offset chunk;
      zero_loop fuel p nm inode (offset + chunk)%nat (left - chunk)%nat
  end.

(** Regular, one link, the expected owner. *)
Definition eligible (owner : Z) (n : Node) : bool :=
  bool_decide (n.(n_type) = RegularFile) && (n.(n_nlink) =? 1) && (n.(n_uid) =? owner).

(** [n] is what the descriptor's [fstat] shows. *)
Definition overwrite_if_eligible (p : Place) (nm : str) (n : Node) (owner : Z) : fsm () :=
  _ ← call;
  if negb (eligible owner n) then mret () else
  _ ← zero_loop (length n.(n_data)) p nm n.(n_inode) 0 (length n.(n_data));
  _ ← call;
  modify (through p nm n.(n_inode) (λ m, with_contents m.(n_data) true m)).

Definition unlinkat (p : Place) (nm : str) : fsm () :=
  _ ← call;
  o ← gets (λ d, dir_at d p !! nm);
  match o with
  | None => mret ()
  | Some n => _ ← guard (bool_decide (n.(n_type) ≠ Directory)) Other; modify (set_entry p nm None)
  end.

(** [unlinkat] with [REMOVEDIR]: only an empty directory goes. *)
Definition rmdir (p : Place) (nm : str) : fsm () :=
  _ ← call;
  o ← gets (λ d, dir_at d p !! nm);
  match o with
  | None => mret ()
  | Some n =>
      empty ← gets (λ d, bool_decide (dir_at d (Some n.(n_inode)) = ∅));
      _ ← guard (bool_decide (n.(n_type) = Directory) && empty) SystemCall;
      modify (set_entry p nm None)
  end.

(** Opening for writing without following a symlink: what is there now, if
    it can be opened (a FIFO without a reader, a directory or a symlink
    cannot). *)
Definition open_write (p : Place) (nm : str) : fsm Node :=
  _ ← call;
  o ← gets (λ d, dir_at d p !! nm);
  match o with
  | None => fail NoEntry
  | Some n =>
      _ ← guard (bool_decide (n.(n_type) ∈ [RegularFile; CharacterDevice; BlockDevice])) SystemCall;
      mret n
  end.

(** A step whose failure is ignored. *)
Definition try {A} (m : fsm A) : fsm (option A) := λ d,
  match m d with (Ok a, d') => (Ok (Some a), d') | (Err _, d') => (Ok None, d') end.

Fixpoint for_each {A} (f : A → fsm ()) (l : list A) : fsm () :=
  match l with [] => mret () | x :: l => _ ← f x; for_each f l end.

Section destroy.
Variables (self : PrivateDirectory) (between : str → fsm ()).

(** [depth] bounds the nesting of directories. *)
Fixpoint destroy_in (depth : nat) (p : Place) (nm : str) : fsm () :=
  o ← statat p nm;
  match o with
  | None => mret ()
  | Some n =>
      match n.(n_type) with
      | Directory =>
          match depth with
          | O => fail Other
          | S depth =>
              _ ← call;
              children ← names (Some n.(n_inode));
              _ ← for_each (destroy_in depth (Some n.(n_inode))) children;
              _ ← call;
              rmdir p nm
          end
      | RegularFile =>
          _ ← between nm;
          opened ← try (open_write p nm);
          _ ← match opened with
              | Some m => overwrite_if_eligible p nm m self.(uid)
              | None => mret ()
              end;
          unlinkat p nm
      | _ => unlinkat p nm
      end
  end.

(** [Self::name] and [revalidate]. *)
Definition revalidate : fsm () :=
  _ ← call;
  ok ← gets (λ d, private d.(self_stat) self.(uid) self.(gid));
  guard ok Unsafe.

Definition entries : fsm (list str) := _ ← revalidate; names None.

Definition destroy_with (depth : nat) (nm : str) : fsm () :=
  _ ← guard (name_ok nm) Unsafe;
  _ ← revalidate;
  destroy_in depth None nm.

Definition inert (n : Node) : bool :=
  bool_decide (n.(n_type) = RegularFile) && bool_decide (n.(n_data) = []) && (Z.land n.(n_mode) O7777 =? O600)
  && (n.(n_uid) =? self.(uid)) && (n.(n_gid) =? self.(gid)) && (n.(n_nlink) =? 1).
Definition lock_is_inert (nm : str) : fsm bool :=
  _ ← guard (name_ok nm) Unsafe;
  _ ← revalidate;
  o ← statat None nm;
  mret (match o with Some n => inert n | None => true end).

Definition scrub_lock (nm : str) : fsm () :=
  _ ← guard (name_ok nm) Unsafe;
  _ ← revalidate;
  n ← open_write None nm;
  _ ← call;
  _ ← guard (eligible self.(uid) n) Other;
  _ ← call;
  _ ← overwrite_if_eligible None nm n self.(uid);
  _ ← call;
  _ ← modify (through None nm n.(n_inode) (with_contents [] false));
  _ ← call;
  _ ← modify (through None nm n.(n_inode) (λ m,
        mkNode m.(n_type) m.(n_uid) m.(n_gid) O600 m.(n_nlink) m.(n_inode) m.(n_data) m.(n_synced)));
  _ ← call;
  modify (through None nm n.(n_inode) (λ m, with_contents m.(n_data) true m)).

Definition sync : fsm () := sync_directory.

End destroy.

Definition destroy (self : PrivateDirectory) (depth : nat) (nm : str) : fsm () :=
  destroy_with self (λ _, mret ()) depth nm.

End Destroy.

(** ** What the code that destroys a Den relies on *)

Class DenWipe (D : Type) `{Den D} : Type := {
  den_entries : D → result LocalFs.IoError (list str) * D;
  den_destroy : str → D → result LocalFs.IoError () * D;
  den_inert : str → D → result LocalFs.IoError bool * D;
  den_scrub : str → D → result LocalFs.IoError () * D;
  den_sync : D → result LocalFs.IoError () * D;
  (** The name is absent or an inert lock file. *)
  den_lock_ok : D → str → Prop;
  (** From here on no system call fails and the Den is in order. *)
  den_calm : D → Prop
}.

(** The name [m] is as it was, now and after a power failure. *)
Definition den_same `{DenWipe D} (m : str) (d d' : D) : Prop :=
  den_file d' m = den_file d m ∧ (den_lock_ok d m → den_lock_ok d' m) ∧ ∀ v, den_settled d m v → den_settled d' m v.

Class DenWipeLaws (D : Type) `{DenWipe D} : Prop := {
  wipe_entries : ∀ d r d', den_entries d = (r, d') →
    (∀ m, den_same m d d') ∧ ∀ l, r = Ok l → NoDup l ∧ ∀ m, m ∈ l ↔ is_Some (den_file d m);
  wipe_destroy : ∀ nm d r d', den_destroy nm d = (r, d') →
    (∀ m, m ≠ nm → den_same m d d') ∧ (r = Ok () → den_file d' nm = None);
  wipe_inert : ∀ nm d r d', den_inert nm d = (r, d') →
    (∀ m, den_same m d d') ∧ (r = Ok true → den_lock_ok d' nm);
  wipe_scrub : ∀ nm d r d', den_scrub nm d = (r, d') → ∀ m, m ≠ nm → den_same m d d';
  wipe_sync : ∀ d r d', den_sync d = (r, d') → (∀ m, den_same m d d')
    ∧ (r = Ok () → ∀ m, den_file d m = None → den_settled d' m None);
  wipe_replace : ∀ nm data c d o d' m, den_replace nm data c d = (o, d') → plain nm → plain m → m ≠ nm →
    den_same m d d';
  calm_quiet : ∀ d, den_calm d → den_quiet d;
  calm_entries : ∀ d, den_calm d → ∃ l d', den_entries d = (Ok l, d') ∧ den_calm d';
  calm_destroy : ∀ nm d, den_calm d → plain nm ∨ is_Some (den_file d nm) →
    ∃ d', den_destroy nm d = (Ok (), d') ∧ den_calm d';
  calm_inert : ∀ nm d, den_calm d → plain nm →
    ∃ b d', den_inert nm d = (Ok b, d') ∧ den_calm d' ∧ (b = false → is_Some (den_file d nm))
      ∧ (den_lock_ok d nm → b = true);
  calm_scrub : ∀ nm d, den_calm d → plain nm → is_Some (den_file d nm) →
    ∃ d', den_scrub nm d = (Ok (), d') ∧ den_calm d' ∧ den_lock_ok d' nm ∧ is_Some (den_file d' nm);
  calm_sync : ∀ d, den_calm d → ∃ d', den_sync d = (Ok (), d') ∧ den_calm d';
  calm_replace : ∀ nm data d, den_calm d → plain nm → (length data ≤ Z.to_nat (1024 * 1024))%nat →
    ∃ d', den_replace nm data false d = (LocalFs.DurablyCommitted, d') ∧ den_calm d'
      ∧ ∀ m, m ≠ nm → den_file d m = None → den_file d' m = None
}.

Module DestroySpec.
Import LocalFs LocalFsSpec Destroy.

(** ** What is touched *)

Lemma keeps_sub m mp d : keeps m d (set_subs mp d).
Proof. split_and!; [done|done|]. intros dir Hd. by exists dir. Qed.

(** The entry [nm] of the place [p] is not the name [m] of the Den. *)
Definition elsewhere (m : str) (p : option (Z * Z)) (nm : str) : Prop := p = None → m ≠ nm.

Lemma keeps_entry m p nm o d : elsewhere m p nm → keeps m d (set_entry p nm o d).
Proof.
  intros He. unfold set_entry. destruct p as [i|]; [apply keeps_sub|].
  apply keeps_live. cbn. rewrite lookup_partial_alter_ne; [done|]. by apply not_eq_sym, He.
Qed.
Lemma keeps_through m p nm i f d : elsewhere m p nm → keeps m d (through p nm i f d).
Proof.
  intros He. unfold through. destruct (dir_at d p !! nm) as [n|]; [|done]. destruct (decide _); [|done].
  by apply keeps_entry.
Qed.

#[local] Hint Resolve keeping_bind keeping_ret keeping_pure keeping_gets keeping_guard keeping_fail
  keeping_call keeping_modify keeps_count keeps_flushed keeps_entry keeps_through : fs.

Lemma keeping_statat m p nm : keeping m (statat p nm).
Proof. unfold statat. eauto with fs. Qed.
Lemma keeping_names m p : keeping m (names p).
Proof. unfold names. eauto with fs. Qed.
Lemma keeping_zeros m p nm i o k : elsewhere m p nm → keeping m (write_zeros p nm i o k).
Proof.
  intros He d. unfold write_zeros. destruct (sys d (calls d)); cbn;
    (etransitivity; [apply keeps_count|by apply keeps_through]).
Qed.
Lemma keeping_zero_loop m fuel p nm i : ∀ o k, elsewhere m p nm → keeping m (zero_loop fuel p nm i o k).
Proof.
  induction fuel as [|fuel IH]; intros o k He; cbn [zero_loop]; [eauto with fs|].
  destruct (k =? 0)%nat; [eauto with fs|]. apply keeping_bind; [by apply keeping_zeros|]. intros _. by apply IH.
Qed.
Lemma keeping_overwrite m p nm n w : elsewhere m p nm → keeping m (overwrite_if_eligible p nm n w).
Proof.
  intros He. unfold overwrite_if_eligible. apply keeping_bind; [eauto with fs|intros _].
  destruct (negb _); [eauto with fs|]. apply keeping_bind; [by apply keeping_zero_loop|intros _].
  apply keeping_bind; eauto with fs.
Qed.
Lemma keeping_unlinkat m p nm : elsewhere m p nm → keeping m (unlinkat p nm).
Proof.
  intros He. unfold unlinkat. do 2 (apply keeping_bind; [eauto with fs|intros]).
  destruct a0; [|eauto with fs]. apply keeping_bind; eauto with fs.
Qed.
Lemma keeping_rmdir m p nm : elsewhere m p nm → keeping m (rmdir p nm).
Proof.
  intros He. unfold rmdir. do 2 (apply keeping_bind; [eauto with fs|intros]).
  destruct a0; [|eauto with fs]. do 2 (apply keeping_bind; [eauto with fs|intros]). eauto with fs.
Qed.
Lemma keeping_open_write m p nm : keeping m (open_write p nm).
Proof.
  unfold open_write. do 2 (apply keeping_bind; [eauto with fs|intros]).
  destruct a0; [|eauto with fs]. apply keeping_bind; eauto with fs.
Qed.
Lemma keeping_try {A} m (c : fsm A) : keeping m c → keeping m (try c).
Proof. intros K d. specialize (K d). unfold try. by destruct (c d) as [[] ?]. Qed.
Lemma keeping_for_each {A} m (f : A → fsm ()) l : (∀ x, keeping m (f x)) → keeping m (for_each f l).
Proof. intros K. induction l as [|x l IH]; cbn [for_each]; [eauto with fs|]. by apply keeping_bind. Qed.

#[local] Hint Resolve keeping_statat keeping_names keeping_overwrite keeping_unlinkat keeping_rmdir
  keeping_open_write keeping_try keeping_for_each : fs.

Section destroy.
Variables (self : PrivateDirectory).
Local Abbreviation idle := (λ _ : str, mret () : fsm ()).

Lemma keeping_destroy_in m depth : ∀ p nm, elsewhere m p nm → keeping m (destroy_in self idle depth p nm).
Proof.
  induction depth as [|depth IH]; intros p nm He; cbn [destroy_in];
    (apply keeping_bind; [eauto with fs|intros [n|]; [|eauto with fs]]); destruct (n_type n);
    try (by eauto with fs);
    try (apply keeping_bind; [eauto with fs|intros _]; apply keeping_bind; [eauto with fs|intros o];
         apply keeping_bind; [destruct o; eauto with fs|intros _]; by eauto with fs).
  do 2 (apply keeping_bind; [eauto with fs|intros]).
  apply keeping_bind; [apply keeping_for_each; intros x; by apply IH; intros|intros _].
  apply keeping_bind; eauto with fs.
Qed.

Lemma keeping_revalidate m : keeping m (revalidate self).
Proof. unfold revalidate. eauto with fs. Qed.
#[local] Hint Resolve keeping_revalidate keeping_destroy_in : fs.

Lemma keeping_destroy m depth nm : m ≠ nm → keeping m (destroy self depth nm).
Proof.
  intros Hne. unfold destroy, destroy_with. do 2 (apply keeping_bind; [eauto with fs|intros]).
  apply keeping_destroy_in. by intros _.
Qed.
Lemma keeping_entries m : keeping m (entries self).
Proof. unfold entries. eauto with fs. Qed.
Lemma keeping_inert m nm : keeping m (lock_is_inert self nm).
Proof. unfold lock_is_inert. repeat (apply keeping_bind; [eauto with fs|intros]). eauto with fs. Qed.
Lemma keeping_scrub m nm : m ≠ nm → keeping m (scrub_lock self nm).
Proof.
  intros Hne. unfold scrub_lock. assert (elsewhere m None nm) as He by (by intros _).
  repeat (apply keeping_bind; [eauto with fs|intros]). eauto with fs.
Qed.

(** ** What success means *)

Lemma set_entry_gone nm d : (set_entry None nm None d).(live) !! nm = None.
Proof. cbn. by rewrite lookup_partial_alter_eq. Qed.

Lemma unlinkat_Ok nm d u d' : unlinkat None nm d = (Ok u, d') → d'.(live) !! nm = None.
Proof.
  unfold unlinkat. intros (a & d1 & _ & Hr)%fsm_bind_Ok. apply fsm_bind_Ok in Hr as (o & d2 & Ho & Hr).
  injection Ho as <- ->. cbn [dir_at] in Hr. destruct (live d2 !! nm) as [n|] eqn:El.
  - apply fsm_bind_Ok in Hr as (b & d3 & Hg & Hr). apply guard_Ok in Hg as [_ ->].
    injection Hr as _ <-. apply set_entry_gone.
  - injection Hr as _ <-. done.
Qed.

Lemma rmdir_Ok nm d u d' : rmdir None nm d = (Ok u, d') → d'.(live) !! nm = None.
Proof.
  unfold rmdir. intros (a & d1 & _ & Hr)%fsm_bind_Ok. apply fsm_bind_Ok in Hr as (o & d2 & Ho & Hr).
  injection Ho as <- ->. cbn [dir_at] in Hr. destruct (live d2 !! nm) as [n|] eqn:El.
  - apply fsm_bind_Ok in Hr as (b & d3 & Hg & Hr). injection Hg as <- <-.
    apply fsm_bind_Ok in Hr as (c & d4 & Hg & Hr). apply guard_Ok in Hg as [_ ->].
    injection Hr as _ <-. apply set_entry_gone.
  - injection Hr as _ <-. done.
Qed.

Lemma destroy_in_Ok depth nm d u d' :
  destroy_in self idle depth None nm d = (Ok u, d') → d'.(live) !! nm = None.
Proof.
  destruct depth as [|depth]; cbn [destroy_in]; intros (o & d1 & Ho & Hr)%fsm_bind_Ok;
    unfold statat in Ho; apply fsm_bind_Ok in Ho as (a & d0 & _ & Ho); injection Ho as Ho ->; cbn [dir_at] in Ho;
    (destruct o as [n|]; [|by injection Hr as _ <-]); destruct (n_type n);
    try (exact (unlinkat_Ok _ _ _ _ Hr)); try discriminate Hr.
  1,2: do 3 apply fsm_bind_Ok in Hr as (? & ? & _ & Hr); by eapply unlinkat_Ok.
  do 4 apply fsm_bind_Ok in Hr as (? & ? & _ & Hr). by eapply rmdir_Ok.
Qed.

Lemma destroy_Ok depth nm d u d' : destroy self depth nm d = (Ok u, d') → d'.(live) !! nm = None.
Proof.
  unfold destroy, destroy_with. intros (? & ? & _ & Hr)%fsm_bind_Ok. apply fsm_bind_Ok in Hr as (? & ? & _ & Hr).
  by eapply destroy_in_Ok.
Qed.

Lemma entries_Ok d l d' : entries self d = (Ok l, d') → NoDup l ∧ ∀ m, m ∈ l ↔ is_Some (file d m).
Proof.
  unfold entries. intros (? & d1 & Hv & Hr)%fsm_bind_Ok.
  unfold names in Hr. apply fsm_bind_Ok in Hr as (? & d2 & Hc & Hr). apply call_Ok in Hc as ->.
  apply fsm_bind_Ok in Hr as (? & d3 & Hc & Hr). apply call_Ok in Hc as ->. injection Hr as <- _.
  cbn [dir_at count live]. split; [rewrite sort_by_key_perm; apply NoDup_fst_map_to_list|]. intros m.
  pose proof (keeping_revalidate m d) as (K & _ & _). rewrite Hv in K. cbn [snd] in K.
  rewrite sort_by_key_perm. unfold file. rewrite <- K.
  rewrite list_elem_of_fmap. split.
  - intros ((k & n) & -> & Hn%elem_of_map_to_list). cbn. by rewrite Hn.
  - destruct (live d1 !! m) as [n|] eqn:En; [|by intros [? ?]]. intros _. exists (m, n).
    split; [done|by apply elem_of_map_to_list].
Qed.

Definition lock_ok (d : Disk) (nm : str) : Prop :=
  match d.(live) !! nm with Some n => inert self n = true | None => True end.

Lemma inert_run nm d b d' : lock_is_inert self nm d = (Ok b, d') →
  b = match d.(live) !! nm with Some n => inert self n | None => true end ∧ d'.(live) = d.(live).
Proof.
  unfold lock_is_inert. intros (? & d1 & Hg & Hr)%fsm_bind_Ok. apply guard_Ok in Hg as [_ ->].
  apply fsm_bind_Ok in Hr as (? & d2 & Hv & Hr).
  assert (live d2 = live d) as L2.
  { unfold revalidate in Hv. apply fsm_bind_Ok in Hv as (? & ? & Hc & Hv). apply call_Ok in Hc as ->.
    apply fsm_bind_Ok in Hv as (? & ? & Hg & Hv). injection Hg as <- <-. by apply guard_Ok in Hv as [_ ->]. }
  apply fsm_bind_Ok in Hr as (o & d3 & Hs & Hr). unfold statat in Hs.
  apply fsm_bind_Ok in Hs as (? & d4 & Hc & Hs). apply call_Ok in Hc as ->. injection Hs as <- <-.
  injection Hr as <- <-. cbn [dir_at count live]. by rewrite L2.
Qed.

(** ** When nothing fails *)

(** Every system call succeeds and nothing is in the way. *)
Definition disk_calm (d : Disk) : Prop :=
  disk_quiet self d ∧ (∀ n, d.(sys) n = None) ∧ Z.land O600 (Z.lnot d.(umask)) = O600
  ∧ (∀ n, ∃ s, d.(entropy) n = Some s) ∧ (∀ n s, d.(entropy) n = Some s → d.(live) !! temporary_name s = None)
  ∧ ∀ nm n, d.(live) !! nm = Some n → name_ok nm = true ∧ n.(n_type) ≠ Directory.

(** Calm depends on the entries and on what no write changes. *)
Lemma calm_weaken d d' : static d' = static d →
  (∀ nm n, d'.(live) !! nm = Some n → d.(live) !! nm = Some n
     ∨ (∀ s, nm ≠ temporary_name s) ∧ name_ok nm = true ∧ regular self n = true) →
  disk_calm d → disk_calm d'.
Proof.
  intros Hs Hl ([Hp Hq] & Hsys & Hm & He & Ht & Hn). injection Hs as E1 E2 E3 E4 E5.
  unfold disk_calm, disk_quiet. rewrite E1, E2, E3, E4, E5. split_and!; try done.
  - intros nm Hnm. destruct (Hq nm Hnm) as [Hr Hreg]. split; [done|]. intros n [L|(_ & _ & L)]%Hl; auto.
  - intros k s Hs. destruct (live d' !! temporary_name s) as [n|] eqn:L; [|done].
    apply Hl in L as [L|(L & _)]; [by rewrite (Ht k s Hs) in L|by destruct (L s)].
  - intros nm n [L|(_ & L & R)]%Hl; [by apply Hn|]. split; [done|]. unfold regular in R. bool_simpl. congruence.
Qed.

Lemma keeping_static {A} (m : fsm A) x d r d' : keeping x m → m d = (r, d') → static d' = static d.
Proof. intros K E. specialize (K d). rewrite E in K. apply K. Qed.
Lemma keeping_live {A} (m : fsm A) x d r d' : keeping x m → m d = (r, d') → d'.(live) !! x = d.(live) !! x.
Proof. intros K E. specialize (K d). rewrite E in K. apply K. Qed.

Lemma replicate_app_plus {A} (x : A) a b l : replicate a x ++ replicate b x ++ l = replicate (a + b) x ++ l.
Proof. rewrite app_assoc. by rewrite replicate_add. Qed.

Lemma zero_loop_succeeds fuel nm n : ∀ offset left s d,
  (∀ k, d.(sys) k = None) → (left ≤ fuel)%nat → (offset + left = length n.(n_data))%nat →
  d.(live) !! nm = Some (with_contents (replicate offset x00 ++ drop offset n.(n_data)) s n) →
  succeeds (zero_loop fuel None nm n.(n_inode) offset left) d (λ _ d',
    (∀ k, d'.(sys) k = None) ∧
    ∃ s', d'.(live) !! nm = Some (with_contents (replicate (length n.(n_data)) x00) s' n)).
Proof.
  induction fuel as [|fuel IH]; intros offset left s d Hsys Hf Hlen Hl; cbn [zero_loop].
  { apply succeeds_ret. split; [done|]. assert (left = 0%nat) as -> by lia. exists s. rewrite Hl.
    rewrite drop_ge, app_nil_r by lia. by replace offset with (length (n_data n)) by lia. }
  destruct (Nat.eqb_spec left 0) as [->|Hne].
  { apply succeeds_ret. split; [done|]. exists s. rewrite Hl, drop_ge, app_nil_r by lia.
    by replace offset with (length (n_data n)) by lia. }
  set (chunk := Nat.min left CHUNK).
  assert (0 < chunk ≤ left)%nat as Hc by (unfold chunk, CHUNK; lia).
  apply succeeds_bind. eexists (), _. split; [unfold write_zeros; rewrite Hsys; reflexivity|].
  unfold through. cbn [dir_at count live]. rewrite Hl. cbn [n_inode with_contents]. rewrite decide_True by done.
  apply (IH _ _ false); [done|lia|lia|]. cbn [set_entry set_live live dir_at count].
  rewrite lookup_partial_alter_eq. unfold with_contents, zero_range. cbn [n_type n_uid n_gid n_mode n_nlink n_inode n_data].
  do 2 f_equal. rewrite take_app_length' by by rewrite length_replicate.
  rewrite drop_app_ge by (rewrite length_replicate; lia). rewrite length_replicate, drop_drop.
  rewrite replicate_app_plus. f_equal. f_equal. lia.
Qed.

Lemma overwrite_succeeds nm n w d : (∀ k, d.(sys) k = None) → d.(live) !! nm = Some n →
  succeeds (overwrite_if_eligible None nm n w) d (λ _ d', (∀ k, d'.(sys) k = None) ∧
    d'.(live) !! nm = Some (if eligible w n then with_contents (replicate (length n.(n_data)) x00) true n else n)).
Proof.
  intros Hsys Hl. unfold overwrite_if_eligible. apply succeeds_bind, succeeds_call; [done|].
  destruct (eligible w n); cbn [negb]; [|by apply succeeds_ret]. apply succeeds_bind.
  destruct (zero_loop_succeeds (length n.(n_data)) nm n 0 (length n.(n_data)) n.(n_synced) (count d))
    as (u & d1 & E & Hs1 & s' & L1); [done|lia|lia|cbn [count live]; rewrite Hl; by destruct n|].
  exists u, d1. split; [done|]. apply succeeds_bind, succeeds_call; [done|]. apply succeeds_modify.
  unfold through. cbn [dir_at count live]. rewrite L1. cbn [n_inode with_contents]. rewrite decide_True by done.
  split; [done|]. cbn [set_entry set_live live dir_at count]. by rewrite lookup_partial_alter_eq.
Qed.

Lemma unlinkat_succeeds nm n d Q : (∀ k, d.(sys) k = None) → d.(live) !! nm = Some n → n.(n_type) ≠ Directory →
  Q () (set_entry None nm None (count d)) → succeeds (unlinkat None nm) d Q.
Proof.
  intros Hsys Hl Ht HQ. unfold unlinkat. apply succeeds_bind, succeeds_call; [done|].
  apply succeeds_bind, succeeds_gets. cbn [dir_at count live]. rewrite Hl.
  apply succeeds_bind, succeeds_guard; [by apply bool_decide_eq_true_2|]. by apply succeeds_modify.
Qed.

Lemma revalidate_succeeds d Q : disk_calm d → Q () (count d) → succeeds (revalidate self) d Q.
Proof.
  intros ([Hp _] & Hsys & _) HQ. unfold revalidate. apply succeeds_bind, succeeds_call; [done|].
  apply succeeds_bind, succeeds_gets. by apply succeeds_guard.
Qed.

(** What is on disk just before the entry goes. *)
Definition wiped (n : Node) : Node :=
  if eligible self.(uid) n then with_contents (replicate (length n.(n_data)) x00) true n else n.

Lemma unlinked nm n d d1 : d.(live) !! nm = Some n → d1.(live) !! nm = Some (wiped n) →
  let d' := set_entry None nm None (count d1) in
  d'.(live) !! nm = None ∧ ∀ n', d.(live) !! nm = Some n' → ∃ dir, dir ∈ d'.(pending) ∧ dir !! nm = Some (wiped n').
Proof.
  intros Hl L1. split; [apply set_entry_gone|]. intros n' Hn'. rewrite Hl in Hn'. injection Hn' as <-.
  exists (live d1). split; [|done]. cbn. set_solver.
Qed.

Lemma destroy_in_succeeds depth nm d : (∀ k, d.(sys) k = None) →
  (∀ n, d.(live) !! nm = Some n → n.(n_type) ≠ Directory) →
  succeeds (destroy_in self idle depth None nm) d (λ _ d', d'.(live) !! nm = None ∧
    ∀ n, d.(live) !! nm = Some n → ∃ dir, dir ∈ d'.(pending) ∧ dir !! nm = Some (wiped n)).
Proof.
  intros Hsys Ht.
  assert (∀ n, d.(live) !! nm = Some n → n.(n_type) ≠ RegularFile → wiped n = n) as Hw.
  { intros n _ E. unfold wiped, eligible. by rewrite bool_decide_eq_false_2. }
  destruct depth as [|depth]; cbn [destroy_in]; unfold statat;
    apply succeeds_bind, succeeds_bind, succeeds_call; try done; apply succeeds_gets; cbn [dir_at count live];
    (destruct (live d !! nm) as [n|] eqn:Hl; [|by apply succeeds_ret]); specialize (Ht n eq_refl);
    specialize (Hw n eq_refl);
    (destruct (n_type n) eqn:En; [|done|by eapply unlinkat_succeeds; [done|exact Hl|congruence|];
       rewrite <- Hl; apply (unlinked nm n); [done|]; rewrite Hw by done..]).
  all: apply succeeds_bind, succeeds_ret, succeeds_bind; exists (Some n), (count (count d)); split;
    [unfold try, open_write; cbv [mbind fsm_bind call gets]; cbn [sys count calls dir_at live];
     rewrite Hsys, Hl, En; reflexivity|].
  all: apply succeeds_bind; destruct (overwrite_succeeds nm n self.(uid) (count (count d))) as (u & d1 & E & Hs1 & L1);
    [done|done|]; exists u, d1; split; [done|];
    (eapply unlinkat_succeeds; [done|exact L1|destruct (eligible _ n); cbn; congruence|]);
    rewrite <- Hl; by apply (unlinked nm n).
Qed.

Lemma destroy_succeeds depth nm d : (∀ k, d.(sys) k = None) → name_ok nm = true →
  private d.(self_stat) self.(uid) self.(gid) = true →
  (∀ n, d.(live) !! nm = Some n → n.(n_type) ≠ Directory) →
  succeeds (destroy self depth nm) d (λ _ d', d'.(live) !! nm = None ∧
    ∀ n, d.(live) !! nm = Some n → ∃ dir, dir ∈ d'.(pending) ∧ dir !! nm = Some (wiped n)).
Proof.
  intros Hsys Hn Hp Ht. unfold destroy, destroy_with. apply succeeds_bind, succeeds_guard; [done|].
  unfold revalidate. apply succeeds_bind, succeeds_bind, succeeds_call; [done|].
  apply succeeds_bind, succeeds_gets, succeeds_guard; [done|].
  by apply (destroy_in_succeeds depth nm (count d)).
Qed.

(** Destroying a file, when no system call fails: it succeeds, the name
    is gone, no other name of the Den is touched, and just before the unlink
    the file was on disk overwritten with as many zeros as it had bytes,
    and synchronized, if it was a regular file with one link and this owner;
    any other file was left as it was (a second link to it elsewhere keeps
    its contents). *)
Theorem destroy_overwrites_first depth nm n d :
  (∀ k, d.(sys) k = None) → name_ok nm = true → private d.(self_stat) self.(uid) self.(gid) = true →
  d.(live) !! nm = Some n → n.(n_type) ≠ Directory →
  ∃ d', destroy self depth nm d = (Ok (), d') ∧ d'.(live) !! nm = None
    ∧ (∀ m, m ≠ nm → keeps m d d')
    ∧ ∃ dir, dir ∈ d'.(pending) ∧ dir !! nm = Some (wiped n).
Proof.
  intros Hsys Hn Hp Hl Ht. destruct (destroy_succeeds depth nm d) as ([] & d' & E & G & W); try done.
  { intros n' Hn'. by rewrite Hl in Hn'; injection Hn' as <-. }
  exists d'. split; [done|]. split; [done|]. split; [|by apply W].
  intros m Hm. pose proof (keeping_destroy m depth nm Hm d) as K. by rewrite E in K.
Qed.

(** ** The disk as a Den that can be destroyed *)

Variable depth : nat.

Definition disk_wipe : DenWipe (H := disk_den self) Disk := {|
  den_entries := entries self;
  den_destroy := destroy self depth;
  den_inert := lock_is_inert self;
  den_scrub := scrub_lock self;
  den_sync := sync;
  den_lock_ok := lock_ok;
  den_calm := disk_calm
|}.

#[local] Existing Instance disk_wipe.

Lemma keeps_same m d d' : keeps m d d' → den_same (H := disk_den self) m d d'.
Proof.
  intros K. pose proof K as (L & _). split; [unfold den_file; cbn; unfold file; by rewrite L|].
  split; [unfold den_lock_ok; cbn; unfold lock_ok; by rewrite L|]. intros v. apply (keeps_settled m _ _ v K).
Qed.

Lemma keeping_same {A} m (c : fsm A) d r d' : keeping m c → c d = (r, d') → den_same (H := disk_den self) m d d'.
Proof. intros K E. specialize (K d). rewrite E in K. by apply keeps_same. Qed.

Lemma sync_settles d d' : sync d = (Ok (), d') → ∀ m, file d m = None → settled d' m None.
Proof.
  unfold sync, sync_directory. intros (? & d1 & Hc & Hr)%fsm_bind_Ok m Hm. apply call_Ok in Hc as ->.
  injection Hr as <-. split; [done|]. intros d2 (_ & _ & dir & Hin & Hf). cbn in Hin.
  apply list_elem_of_singleton in Hin as ->. specialize (Hf m). unfold file in *. cbn in Hf.
  destruct (live d !! m); [done|]. cbn in Hf. by destruct (live d2 !! m).
Qed.

(** A computation that only counts calls on a calm disk. *)
Lemma calm_kept {A} (c : fsm A) d r d' : (∀ m, keeping m c) → c d = (r, d') → disk_calm d → disk_calm d'.
Proof.
  intros K E. apply calm_weaken; [by apply (keeping_static c [] d r)|].
  intros nm n L. left. by rewrite <- (keeping_live c nm d r d' (K nm) E).
Qed.

Lemma entries_calm d : disk_calm d → ∃ l d', entries self d = (Ok l, d') ∧ disk_calm d'.
Proof.
  intros C. destruct (entries self d) as [r d'] eqn:E. pose proof C as (_ & Hsys & _).
  assert (succeeds (entries self) d (λ _ _, True)) as (l & d2 & E2 & _).
  { apply succeeds_bind, revalidate_succeeds; [done|]. unfold names.
    do 2 (apply succeeds_bind, succeeds_call; [apply Hsys|]). by apply succeeds_gets. }
  rewrite E in E2. injection E2 as -> ->. exists l, d2. split; [done|].
  by apply (calm_kept _ _ _ _ keeping_entries E).
Qed.

Lemma destroy_calm nm d : disk_calm d → plain nm ∨ is_Some (file d nm) →
  ∃ d', destroy self depth nm d = (Ok (), d') ∧ disk_calm d'.
Proof.
  intros C Hnm. pose proof C as ([Hp _] & Hsys & _ & _ & _ & Hn).
  assert (name_ok nm = true) as Ho.
  { destruct Hnm as [[? _]|[b Hb]]; [done|]. unfold file in Hb.
    destruct (live d !! nm) as [n|] eqn:L; [by apply (Hn nm n)|done]. }
  destruct (destroy_succeeds depth nm d Hsys Ho Hp) as ([] & d' & E & G & _); [intros n L; by apply (Hn nm)|].
  exists d'. split; [done|]. revert C. apply calm_weaken.
  - apply (keeping_static (destroy self depth nm) (nm ++ [x00]) d (Ok ())); [|done]. apply keeping_destroy.
    intros F%(f_equal length). rewrite length_app in F. cbn in F. lia.
  - intros m n L. left. destruct (decide (m = nm)) as [->|Hm]; [by rewrite G in L|].
    rewrite <- (keeping_live (destroy self depth nm) m d (Ok ()) d'); [done|by apply keeping_destroy|done].
Qed.

Lemma inert_calm nm d : disk_calm d → plain nm →
  ∃ b d', lock_is_inert self nm d = (Ok b, d') ∧ disk_calm d' ∧ (b = false → is_Some (file d nm))
    ∧ (lock_ok d nm → b = true).
Proof.
  intros C [Hn _]. destruct (lock_is_inert self nm d) as [r d'] eqn:E. pose proof C as (_ & Hsys & _).
  assert (succeeds (lock_is_inert self nm) d (λ _ _, True)) as (b & d2 & E2 & _).
  { apply succeeds_bind, succeeds_guard; [done|]. apply succeeds_bind, revalidate_succeeds; [done|].
    unfold statat. apply succeeds_bind, succeeds_bind, succeeds_call; [apply Hsys|]. apply succeeds_gets.
    by apply succeeds_ret. }
  rewrite E in E2. injection E2 as -> ->. exists b, d2. split; [done|].
  split; [by apply (calm_kept _ _ _ _ (λ m, keeping_inert m nm) E)|].
  apply inert_run in E as [-> _]. unfold lock_ok, file. destruct (live d !! nm); [|done].
  split; [eauto|done].
Qed.

Lemma scrub_calm nm d : disk_calm d → plain nm → is_Some (file d nm) →
  ∃ d', scrub_lock self nm d = (Ok (), d') ∧ disk_calm d' ∧ lock_ok d' nm ∧ is_Some (file d' nm).
Proof.
  intros C Hnm [b Hb]. pose proof C as ([Hp Hq] & Hsys & _). unfold file in Hb.
  destruct (live d !! nm) as [n|] eqn:L; [clear b Hb|done].
  assert (regular self n = true) as Hreg by by apply (Hq nm).
  assert (n.(n_type) = RegularFile ∧ eligible self.(uid) n = true ∧ n.(n_uid) = self.(uid) ∧ n.(n_gid) = self.(gid)
    ∧ n.(n_nlink) = 1) as (Ty & El & U & G & K).
  { unfold regular in Hreg. bool_simpl. unfold eligible. rewrite bool_decide_eq_true_2 by done.
    split_and!; try done; lia. }
  set (final := mkNode n.(n_type) n.(n_uid) n.(n_gid) O600 n.(n_nlink) n.(n_inode) [] true).
  assert (succeeds (scrub_lock self nm) d (λ _ d', d'.(live) !! nm = Some final)) as ([] & d' & E & Lf).
  { unfold scrub_lock. apply succeeds_bind, succeeds_guard; [apply Hnm|].
    apply succeeds_bind, revalidate_succeeds; [done|]. unfold open_write.
    apply succeeds_bind, succeeds_bind, succeeds_call; [apply Hsys|]. apply succeeds_bind, succeeds_gets.
    cbn [dir_at count live]. rewrite L. apply succeeds_bind, succeeds_guard; [by rewrite Ty|]. apply succeeds_ret.
    apply succeeds_bind, succeeds_call; [apply Hsys|]. apply succeeds_bind, succeeds_guard; [done|].
    apply succeeds_bind, succeeds_call; [apply Hsys|]. apply succeeds_bind.
    match goal with |- succeeds _ ?x _ => destruct (overwrite_succeeds nm n self.(uid) x) as (u & d1 & E & Hs1 & L1);
      [done|done|] end.
    exists u, d1. split; [done|]. rewrite El in L1.
    do 2 (apply succeeds_bind, succeeds_call; [apply Hs1|]; apply succeeds_bind, succeeds_modify;
      unfold through; cbn [dir_at count live set_entry set_live];
      rewrite ?L1, ?lookup_partial_alter_eq; cbn [n_inode with_contents]; rewrite decide_True by done).
    apply succeeds_bind, succeeds_call; [apply Hs1|]. apply succeeds_modify.
    unfold through. cbn [dir_at count live set_entry set_live]. rewrite lookup_partial_alter_eq.
    cbn [n_inode with_contents]. rewrite decide_True by done.
    cbn [dir_at count live set_entry set_live]. by rewrite lookup_partial_alter_eq. }
  assert (inert self final = true) as Hin.
  { unfold inert, final. cbn. rewrite Ty, U, G, K, !Z.eqb_refl. reflexivity. }
  exists d'. split; [done|]. split; [|unfold lock_ok, file; rewrite Lf; split; [done|eauto]].
  revert C. apply calm_weaken.
  - apply (keeping_static (scrub_lock self nm) (nm ++ [x00]) d (Ok ())); [|done]. apply keeping_scrub.
    intros F%(f_equal length). rewrite length_app in F. cbn in F. lia.
  - intros m x Lx. destruct (decide (m = nm)) as [->|Hm].
    + right. split_and!; [apply Hnm|apply Hnm|]. rewrite Lf in Lx. injection Lx as <-.
      unfold regular, final. cbn. rewrite Ty, U, G, K, !Z.eqb_refl. reflexivity.
    + left. rewrite <- (keeping_live (scrub_lock self nm) m d (Ok ()) d'); [done|by apply keeping_scrub|done].
Qed.

Lemma replace_calm nm data d : disk_calm d → plain nm → (length data ≤ Z.to_nat (1024 * 1024))%nat →
  ∃ d', replace self nm data false d = (DurablyCommitted, d') ∧ disk_calm d'
    ∧ ∀ m, m ≠ nm → file d m = None → file d' m = None.
Proof.
  intros C [Hn Hs] Hlen. pose proof C as ([Hp Hq] & Hsys & Hm & He & Ht & _).
  destruct (He d.(calls)) as [s Es].
  destruct (replace_succeeds self nm data false d s) as (d' & E & _ & G); try done.
  { by eapply Ht. }
  { destruct (live d !! nm) as [n|] eqn:L; [|done]. split; [|done]. by apply (Hq nm); [split|]. }
  assert (∀ m x, d'.(live) !! m = Some x → m ≠ nm → d.(live) !! m = Some x) as K.
  { intros m x Lx Hmn. destruct (decide (m = temporary_name s)) as [->|Hmt]; [by rewrite G in Lx|].
    destruct (replace_keeps self nm data false d _ d' m E Hs Hmn) as (L & _); [|by rewrite <- L].
    intros s' Es'. rewrite Es in Es'. by injection Es' as <-. }
  exists d'. split; [done|].
  pose proof (replace_spec self nm data false d _ d' E Hs) as (Hst & _ & _ & x & Lx & Hh & _).
  split.
  - revert C. apply calm_weaken; [done|]. intros m n L. destruct (decide (m = nm)) as [->|Hmn]; [|left; by apply K].
    right. rewrite Lx in L. injection L as <-. done.
  - intros m Hmn. unfold file. intros F. destruct (live d' !! m) as [n|] eqn:L; [|done].
    apply K in L; [|done]. by rewrite L in F.
Qed.

#[export] Instance disk_wipe_laws : DenWipeLaws (H := disk_den self) (H0 := disk_wipe) Disk.
Proof.
  split; cbn [den_entries den_destroy den_inert den_scrub den_sync den_lock_ok den_calm disk_wipe
    den_file den_replace den_quiet disk_den].
  - intros d r d' E. split; [intros m; eapply keeping_same; [apply keeping_entries|done]|].
    intros l ->. by eapply entries_Ok.
  - intros nm d r d' E. split; [intros m Hm; eapply keeping_same; [by apply keeping_destroy|done]|].
    intros ->. apply destroy_Ok in E. unfold file. by rewrite E.
  - intros nm d r d' E. split; [intros m; eapply keeping_same; [apply keeping_inert|done]|].
    intros ->. apply inert_run in E as [E L]. unfold lock_ok. rewrite L. by destruct (live d !! nm).
  - intros nm d r d' E m Hm. eapply keeping_same; [by apply keeping_scrub|done].
  - intros d r d' E. split; [|intros ->; by apply sync_settles].
    intros m. eapply keeping_same; [|exact E]. unfold sync, sync_directory. eauto with fs.
  - intros nm data c d o d' m E Hn Hm Hne. apply keeps_same.
    apply (replace_spec self nm data c d o d' E (proj2 Hn)); [apply Hm|done].
  - by intros d [? _].
  - apply entries_calm.
  - intros nm d C Hn. by apply destroy_calm.
  - apply inert_calm.
  - apply scrub_calm.
  - intros d C. pose proof C as (_ & Hsys & _).
    destruct (sync d) as [r d'] eqn:E.
    assert (succeeds sync d (λ _ _, True)) as ([] & d2 & E2 & _).
    { unfold sync, sync_directory. apply succeeds_bind, succeeds_call; [apply Hsys|]. by apply succeeds_modify. }
    rewrite E in E2. injection E2 as -> ->. exists d2. split; [done|]. revert C.
    apply (calm_kept sync d (Ok ())); [|exact E]. intros m. unfold sync, sync_directory. eauto with fs.
  - intros nm data d C Hn Hl. by apply replace_calm.
Qed.

End destroy.
End DestroySpec.

Module DestroyDemo.
Import LocalFs LocalFsSpec LocalFsDemo Destroy DestroySpec.

Lemma destroy_overwrites_first_witness :
  ∃ d', destroy demo_self 1 demo_name (demo_disk (λ _, None)) = (Ok (), d') ∧ d'.(live) !! demo_name = None
    ∧ ∃ dir n, dir ∈ d'.(pending) ∧ dir !! demo_name = Some n ∧ n.(n_data) = [x00; x00; x00].
Proof.
  destruct (destroy_overwrites_first demo_self 1 demo_name demo_old (demo_disk (λ _, None)))
    as (d' & E & G & _ & dir & I & L); try reflexivity; [discriminate|].
  exists d'. split; [exact E|]. split; [exact G|]. exists dir, (wiped demo_self demo_old).
  split; [exact I|]. split; [exact L|reflexivity].
Defined.

End DestroyDemo.
