(* ===== verification/Endpoint.v ===== *)
(** * The private directory and the control endpoint
      ([werewolf-core/src/local_fs/directory.rs] and [mod.rs],
      [werewolfd/src/control/socket.rs])

    [Module DirOpen]: [PrivateDirectory::open] on a tree of directories, and
    the default place of the socket. [Module Endpoint]: the lock file, the
    stale socket and the listener of the control endpoint, as the system
    calls that any number of daemons make in one directory, in any order,
    each of which may fail or be the last one its process makes.

    [Module DirOpenSpec], [Module EndpointSpec]: what an opened directory
    satisfies; one daemon at a time owns an endpoint, and no daemon removes
    anything but a dead socket; after a crash the next daemon takes over. *)

From stdpp Require Import gmap.
From S2P Require Export LocalFs.

Local Open Scope Z_scope.

(** ** Opening *)

Module DirOpen.
Import LocalFs.

(** The real and effective user and group of the process. *)
Record Creds : Type := mkCreds { euid : Z; egid : Z; ruid : Z; rgid : Z }.

Definition credentials (c : Creds) : result IoError (Z * Z) :=
  if negb (c.(euid) =? c.(ruid)) || negb (c.(egid) =? c.(rgid)) then Err Unsafe else Ok (c.(euid), c.(egid)).

(** The tree by absolute path; [openable] says whether the kernel lets the
    process open or create an entry, apart from its type. *)
Record Tree : Type := mkTree {
  nodes : gmap (list str) Node;
  tree_umask : Z;
  tree_inode : Z * Z;
  openable : list str → bool
}.

(** [openat] with [DIRECTORY | NOFOLLOW]. *)
Definition openat_directory (t : Tree) (path : list str) : result IoError Node :=
  if negb (t.(openable) path) then Err SystemCall
  else match t.(nodes) !! path with
       | None => Err NoEntry
       | Some n => if bool_decide (n.(n_type) = Directory) then Ok n else Err SystemCall
       end.

Definition O2000 : Z := 1024.

(** [mkdirat] with mode 0700: a parent with the set-group-ID bit gives its
    group and the bit to the new directory. *)
Definition mkdirat (t : Tree) (parent : Node) (path : list str) (uid gid : Z) : Tree :=
  let inherits := negb (Z.land parent.(n_mode) O2000 =? 0) in
  let mode := Z.land O700 (Z.lnot t.(tree_umask)) in
  let n := mkNode Directory uid (if inherits then parent.(n_gid) else gid)
             (if inherits then Z.lor mode O2000 else mode) 2 t.(tree_inode) [] false in
  mkTree (<[path := n]> t.(nodes)) t.(tree_umask) (t.(tree_inode).1, t.(tree_inode).2 + 1) t.(openable).

(** The loop of [open]: [fd] is the directory reached, at [path]. *)
Fixpoint walk (t : Tree) (fd : Node) (path parts : list str) (create_leaf : bool) (uid gid : Z)
    : result IoError (list str) * Tree :=
  match parts with
  | [] => (Ok path, t)
  | name :: rest =>
      let leaf := bool_decide (rest = []) in
      let next := path ++ [name] in
      let '(opened, t') :=
        match openat_directory t next with
        | Err NoEntry =>
            if leaf && create_leaf then
              let t' := mkdirat t fd next uid gid in (openat_directory t' next, t')
            else (Err NoEntry, t)
        | r => (r, t)
        end in
      match opened with
      | Err e => (Err e, t')
      | Ok n =>
          if (if leaf then private n uid gid else ancestor n uid gid)
          then walk t' n next rest create_leaf uid gid
          else (Err Unsafe, t')
      end
  end.

Definition normal (c : Component) : option str := match c with Normal s => Some s | _ => None end.

(** [open]: the absolute path of the directory with the credentials. *)
Definition open (c : Creds) (t : Tree) (path : str) (create_leaf : bool)
    : result IoError (PrivateDirectory * list str) * Tree :=
  match credentials c with
  | Err e => (Err e, t)
  | Ok (uid, gid) =>
      match components path with
      | RootDir :: first :: parts =>
          match mapM normal (first :: parts) with
          | None => (Err Unsafe, t)
          | Some names =>
              match openat_directory t [] with
              | Err e => (Err e, t)
              | Ok root =>
                  if negb (ancestor root uid gid) then (Err Unsafe, t)
                  else match walk t root [] names create_leaf uid gid with
                       | (Ok leaf, t') => (Ok (mkPrivate uid gid, leaf), t')
                       | (Err e, t') => (Err e, t')
                       end
              end
          end
      | _ => (Err Unsafe, t)
      end
  end.

(** [PathBuf::join]. *)
Definition path_join (base rest : str) : str :=
  match rest with
  | b :: _ =>
      if bool_decide (b = x2f) then rest
      else match last base with
           | None => rest
           | Some c => if bool_decide (c = x2f) then base ++ rest else base ++ lit "/" ++ rest
           end
  | [] => match last base with
          | None => []
          | Some c => if bool_decide (c = x2f) then base else base ++ lit "/"
          end
  end.

(** [default_control_socket]; [runtime] is [XDG_RUNTIME_DIR]. *)
Definition default_control_socket (c : Creds) (t : Tree) (runtime : option str) : result IoError str :=
  match runtime with
  | None => Err NoEntry
  | Some r => _ ← (open c t r false).1; Ok (path_join (path_join r (lit "werewolf")) (lit "control.sock"))
  end.

(** [lock]: [held] when another process holds the lock of the file. *)
Definition lock (self : PrivateDirectory) (held : bool) (nm : str) : fsm () :=
  _ ← guard (name_ok nm) Unsafe;
  _ ← call;
  ok ← gets (λ d, private d.(self_stat) self.(uid) self.(gid));
  _ ← guard ok Unsafe;
  old ← gets (λ d, d.(live) !! nm);
  node ← match old with
         | Some n => _ ← call; if bool_decide (n.(n_type) = RegularFile) then mret n else fail SystemCall
         | None => create self nm
         end;
  _ ← guard (regular self node) Unsafe;
  _ ← call;
  guard (negb held) SystemCall.

End DirOpen.

(** ** The control endpoint *)

Module Endpoint.
Import LocalFs.

(** [bind] splits the path of the socket. *)
Definition parent (socket : str) : option (list Component) :=
  match components socket with
  | [] | [RootDir] => None
  | parts => Some (removelast parts)
  end.
Definition file_name (socket : str) : option str :=
  match last (components socket) with Some (Normal n) => Some n | _ => None end.

Definition lock_name (name : str) : str := lit "." ++ name ++ lit ".lock".

(** Where a daemon is between two system calls of [bind] and [close], with
    the inodes it remembers: of its lock file, of the socket it found, of the
    socket it made. *)
Inductive Phase : Type :=
| Start
| Opened (lock : Z * Z)
| Validated (lock : Z * Z)
| Locked
| Found (inode : Z * Z)
| Refused (inode : Z * Z)
| Stale (inode : Z * Z)
| Free
| Bound (made : Z * Z)
| Listening (made : Z * Z)
| Restricting (made before : Z * Z)
| Chmodded (made before : Z * Z)
| Serving (made : Z * Z)
| Closing (made : Z * Z) (inode : option (Z * Z))
| Dropped (inode : option (Z * Z))
| Unlinking (inode : Z * Z)
| Unlocking
| Stopped.

#[export] Instance phase_eq_dec : EqDecision Phase.
Proof. solve_decision. Defined.

Record Daemon : Type := mkDaemon { name : str; mask : Z; phase : Phase }.

(** The directory, who holds the lock of a file and who listens on a socket,
    both by inode, and the daemons that run. *)
Record World : Type := mkWorld {
  dir : Dir;
  flocks : gmap (Z * Z) nat;
  listeners : gmap (Z * Z) nat;
  daemons : gmap nat Daemon
}.

Definition SOCKET_MODE : Z := 511.

Section endpoint.
(** The directory that [PrivateDirectory::open] pinned. *)
Variable self : PrivateDirectory.
Variable self_stat : Node.

(** [Self::name] and [revalidate]. *)
Definition usable (nm : str) : bool := name_ok nm && private self_stat self.(uid) self.(gid).

(** [validate_socket]. *)
Definition validate_socket (s : Node) : bool :=
  bool_decide (s.(n_type) = Socket) && (s.(n_uid) =? self.(uid)) && (s.(n_gid) =? self.(gid)) && (s.(n_nlink) =? 1).

(** [socket_stat]. *)
Definition socket_stat (d : Dir) (nm : str) : result IoError (option Node) :=
  _ ← require (usable nm) Unsafe;
  match d !! nm with
  | None => Ok None
  | Some s => _ ← require (validate_socket s) Unsafe; Ok (Some s)
  end.
Definition socket_inode (d : Dir) (nm : str) : result IoError (option (Z * Z)) :=
  socket_stat d nm ≫= λ s : option Node, Ok (n_inode <$> s).

(** [self.socket_inode(name)? == Some(inode)]. *)
Definition still (d : Dir) (nm : str) (inode : Z * Z) : bool :=
  match socket_inode d nm with Ok (Some i) => bool_decide (i = inode) | _ => false end.

(** The effects of the system calls. *)
Definition with_dir (f : Dir → Dir) (w : World) : World := mkWorld (f w.(dir)) w.(flocks) w.(listeners) w.(daemons).
Definition made (t : FileType) (mode : Z) (inode : Z * Z) : Node :=
  mkNode t self.(uid) self.(gid) mode 1 inode [] false.
Definition chmod (mode : Z) (n : Node) : Node :=
  mkNode n.(n_type) n.(n_uid) n.(n_gid) mode n.(n_nlink) n.(n_inode) n.(n_data) n.(n_synced).
Definition flock (inode : Z * Z) (p : nat) (w : World) : World :=
  mkWorld w.(dir) (<[inode := p]> w.(flocks)) w.(listeners) w.(daemons).
Definition listen (inode : Z * Z) (p : nat) (w : World) : World :=
  mkWorld w.(dir) w.(flocks) (<[inode := p]> w.(listeners)) w.(daemons).
Definition unlisten (inode : Z * Z) (w : World) : World :=
  mkWorld w.(dir) w.(flocks) (delete inode w.(listeners)) w.(daemons).
Definition unlocked (p : nat) (w : World) : World :=
  mkWorld w.(dir) (filter (λ x, x.2 ≠ p) w.(flocks)) w.(listeners) w.(daemons).
Definition set_phase (p : nat) (q : Daemon) (f : Phase) (w : World) : World :=
  mkWorld w.(dir) w.(flocks) w.(listeners) (<[p := mkDaemon q.(name) q.(mask) f]> w.(daemons)).

(** The next system call of [bind], when it succeeds and its checks pass;
    [inode] is what the kernel gives a file that the call creates. *)
Definition bind_call (inode : Z * Z) (p : nat) (q : Daemon) (w : World) : option World :=
  let nm := q.(name) in
  let to f w := Some (set_phase p q f w) in
  match q.(phase) with
  | Start =>
      if usable (lock_name nm) then
        match w.(dir) !! lock_name nm with
        | Some n => if decide (n.(n_type) = RegularFile) then to (Opened n.(n_inode)) w else None
        | None =>
            to (Opened inode)
               (with_dir <[lock_name nm := made RegularFile (Z.land O600 (Z.lnot q.(mask))) inode]> w)
        end
      else None
  | Opened lock =>
      match w.(dir) !! lock_name nm with
      | Some n => if decide (n.(n_inode) = lock ∧ regular self n = true) then to (Validated lock) w else None
      | None => None
      end
  | Validated lock =>
      match w.(flocks) !! lock with
      | None => to Locked (flock lock p w)
      | Some _ => None
      end
  | Locked =>
      match socket_inode w.(dir) nm with
      | Ok None => to Free w
      | Ok (Some i) => to (Found i) w
      | Err _ => None
      end
  | Found i =>
      match w.(dir) !! nm with
      | Some n => if decide (n.(n_type) = Socket ∧ w.(listeners) !! n.(n_inode) = None) then to (Refused i) w else None
      | None => None
      end
  | Refused i => if still w.(dir) nm i then to (Stale i) w else None
  | Stale i => if decide (is_Some (w.(dir) !! nm)) then to Free (with_dir (delete nm) w) else None
  | Free =>
      match w.(dir) !! nm with
      | None => to (Bound inode) (with_dir <[nm := made Socket (Z.land SOCKET_MODE (Z.lnot q.(mask))) inode]> w)
      | Some _ => None
      end
  | Bound i => to (Listening i) (listen i p w)
  | Listening i =>
      match socket_inode w.(dir) nm with
      | Ok (Some before) => to (Restricting i before) w
      | _ => None
      end
  | Restricting i before =>
      if decide (is_Some (w.(dir) !! nm)) then to (Chmodded i before) (with_dir (alter (chmod O600) nm) w) else None
  | Chmodded i before =>
      match socket_stat w.(dir) nm with
      | Ok (Some after) =>
          if negb (bool_decide (after.(n_inode) = before)) || negb (Z.land after.(n_mode) O7777 =? O600)
          then None else to (Serving i) w
      | _ => None
      end
  | _ => None
  end.

(** The next system call of [close]. *)
Definition close_call (p : nat) (q : Daemon) (w : World) : option World :=
  let nm := q.(name) in
  let to f w := Some (set_phase p q f w) in
  match q.(phase) with
  | Serving i =>
      match socket_inode w.(dir) nm with
      | Ok found => to (Closing i found) w
      | Err _ => None
      end
  | Closing i found => to (Dropped found) (unlisten i w)
  | Dropped None => to Unlocking w
  | Dropped (Some i) => if still w.(dir) nm i then to (Unlinking i) w else None
  | Unlinking i => if decide (is_Some (w.(dir) !! nm)) then to Unlocking (with_dir (delete nm) w) else None
  | Unlocking => to Stopped (unlocked p w)
  | _ => None
  end.

(** The next system call of [bind] and, once it serves, of [close]. *)
Definition advance (inode : Z * Z) (p : nat) (w : World) : option World :=
  q ← w.(daemons) !! p;
  match q.(phase) with
  | Serving _ | Closing _ _ | Dropped _ | Unlinking _ | Unlocking | Stopped => close_call p q w
  | _ => bind_call inode p q w
  end.

(** An inode that nothing refers to. *)
Definition fresh (inode : Z * Z) (w : World) : Prop :=
  (∀ nm n, w.(dir) !! nm = Some n → n.(n_inode) ≠ inode) ∧ w.(flocks) !! inode = None ∧ w.(listeners) !! inode = None.

(** A daemon that returns an error, is stopped or crashes: the kernel closes
    its descriptors. *)
Definition stop (p : nat) (w : World) : World :=
  mkWorld w.(dir) (filter (λ x, x.2 ≠ p) w.(flocks)) (filter (λ x, x.2 ≠ p) w.(listeners))
    (match w.(daemons) !! p with
     | Some q => <[p := mkDaemon q.(name) q.(mask) Stopped]> w.(daemons)
     | None => w.(daemons)
     end).

Inductive step : World → World → Prop :=
| step_start w p nm mask :
    w.(daemons) !! p = None →
    step w (mkWorld w.(dir) w.(flocks) w.(listeners) (<[p := mkDaemon nm mask Start]> w.(daemons)))
| step_advance w p inode w' : fresh inode w → advance inode p w = Some w' → step w w'
| step_stop w p : step w (stop p w).

(** No daemon runs; a file with one link has its inode under one name. *)
Definition quiet (w : World) : Prop := w.(flocks) = ∅ ∧ w.(listeners) = ∅ ∧ w.(daemons) = ∅.
Definition linked (d : Dir) : Prop :=
  ∀ a b n n', d !! a = Some n → d !! b = Some n' → n.(n_inode) = n'.(n_inode) → n.(n_nlink) = 1 → a = b.
Definition reachable (w : World) : Prop := ∃ w0, quiet w0 ∧ linked w0.(dir) ∧ rtc step w0 w.

(** [bind] undisturbed: at most [n] system calls. *)
Fixpoint run (n : nat) (inode : nat → Z * Z) (p : nat) (w : World) : World :=
  match n with
  | O => w
  | S n =>
      match w.(daemons) !! p with
      | Some (mkDaemon _ _ (Serving _)) => w
      | _ => match advance (inode n) p w with Some w' => run n inode p w' | None => stop p w end
      end
  end.

End endpoint.

(** [authorize_uid]: the credentials the kernel gives for a client. *)
Definition authorize_uid (peer : result IoError Z) (daemon : Z) : bool :=
  match peer with Ok uid => uid =? daemon | Err _ => false end.

End Endpoint.

(** ** What an opened directory satisfies *)

Module DirOpenSpec.
Import LocalFs DirOpen.

Lemma openat_directory_Ok t path n : openat_directory t path = Ok n → t.(nodes) !! path = Some n ∧ n.(n_type) = Directory.
Proof.
  unfold openat_directory. destruct (negb _); [done|]. destruct (t.(nodes) !! path) as [x|]; [|done].
  case_bool_decide; [|done]. by intros [= ->].
Qed.

(** The directories of a walk, from the first below [path] to the leaf. *)
Definition walked (t : Tree) (path parts : list str) (uid gid : Z) : Prop :=
  ∀ k, (k < length parts)%nat → ∃ n, t.(nodes) !! (path ++ take (S k) parts) = Some n ∧ n.(n_type) = Directory ∧
    (if (S k =? length parts)%nat then private n uid gid else ancestor n uid gid) = true.

Definition made_leaf (t t' : Tree) (leaf : list str) (create_leaf : bool) : Prop :=
  t' = t ∨ create_leaf = true ∧ t.(nodes) !! leaf = None ∧ ∃ n, t'.(nodes) = <[leaf := n]> t.(nodes).

Lemma walk_spec create_leaf uid gid parts : ∀ t fd path r t', walk t fd path parts create_leaf uid gid = (r, t') →
  made_leaf t t' (path ++ parts) create_leaf ∧ ∀ leaf, r = Ok leaf → leaf = path ++ parts ∧ walked t' path parts uid gid.
Proof.
  induction parts as [|nm rest IH]; intros t fd path r t'; cbn [walk].
  { intros [= <- <-]. rewrite app_nil_r. split; [by left|]. intros leaf [= <-]. split; [done|]. intros k Hk. cbn in Hk. lia. }
  case_bool_decide as Hrest.
  - subst rest. intros H.
    assert (∃ opened t1, made_leaf t t1 (path ++ [nm]) create_leaf ∧ (∀ n, opened = Ok n → openat_directory t1 (path ++ [nm]) = Ok n) ∧
      match opened with
      | Err e => (Err e, t1)
      | Ok n => if private n uid gid then walk t1 n (path ++ [nm]) [] create_leaf uid gid else (Err Unsafe, t1)
      end = (r, t')) as (opened & t1 & Hm & Ho & H').
    { destruct (openat_directory t (path ++ [nm])) as [n|e] eqn:E.
      - exists (Ok n), t. split; [by left|]. split; [|exact H]. by intros n' [= <-].
      - destruct e; try (match type of E with _ = Err ?e => exists (Err e), t end; split; [by left|]; split; [done|exact H]).
        destruct create_leaf; cbn [andb] in H.
        + eexists (openat_directory _ _), _. split; [|split; [|exact H]]; [|done]. right. split; [done|]. split; [|by eexists].
          unfold openat_directory in E. destruct (negb _); [done|]. destruct (_ !! _); [|done]. by case_bool_decide.
        + exists (Err NoEntry), t. split; [by left|]. by split. }
    clear H. destruct opened as [n|e]; [|injection H' as <- <-; split; [exact Hm|done]].
    destruct (private n uid gid) eqn:Hp; [|injection H' as <- <-; split; [exact Hm|done]].
    cbn [walk] in H'. injection H' as <- <-. split; [exact Hm|]. intros leaf [= <-]. split; [done|].
    intros k Hk. cbn in Hk. assert (k = O) as -> by lia. exists n. cbn. destruct (openat_directory_Ok _ _ _ (Ho n eq_refl)). done.
  - cbn [andb]. intros H. destruct (openat_directory t (path ++ [nm])) as [n|e] eqn:E.
    2: { assert ((r, t') = (Err e, t)) as [= -> ->] by (destruct e; by rewrite <- H). split; [by left|done]. }
    destruct (ancestor n uid gid) eqn:Ha; [|injection H as <- <-; split; [by left|done]].
    destruct (IH _ _ _ _ _ H) as [Hm Hw]. rewrite <- app_assoc in Hm, Hw. split; [exact Hm|].
    intros leaf Hl. destruct (Hw leaf Hl) as [-> Hk]. split; [done|]. intros [|k] Hlt.
    + destruct (openat_directory_Ok _ _ _ E) as [Hn Ht]. exists n. split; [|split; [done|]].
      * destruct Hm as [->|(_ & Hnone & y & Hy)]; [done|]. rewrite Hy, lookup_insert_ne; [done|].
        intros Heq%(inj (path ++.)). cbn in Heq. destruct rest; [done|discriminate].
      * cbn [length Nat.eqb]. destruct rest; [done|]. exact Ha.
    + cbn in Hlt. destruct (Hk k ltac:(lia)) as (x & Hx & Ht & Hp). exists x. rewrite <- app_assoc in Hx. done.
Qed.

(** What [open] returns is trusted: the process has one identity, the path
    is absolute with ordinary names only, no part of it is a symbolic link,
    every directory above the leaf belongs to root or the user and is
    writable by no other (or is root's with the sticky bit), the leaf is the
    user's with mode 0700 exactly. Whatever it returns, [open] changes
    nothing but, if asked, an absent leaf. *)
Theorem open_trusted c t path create_leaf r t' : open c t path create_leaf = (r, t') →
  (∃ leaf, made_leaf t t' leaf create_leaf) ∧
  ∀ d leaf, r = Ok (d, leaf) →
    c.(euid) = c.(ruid) ∧ c.(egid) = c.(rgid) ∧ d = mkPrivate c.(euid) c.(egid) ∧ leaf ≠ [] ∧
    components path = RootDir :: (Normal <$> leaf) ∧ made_leaf t t' leaf create_leaf ∧
    (∃ root, t.(nodes) !! [] = Some root ∧ ancestor root c.(euid) c.(egid) = true) ∧
    walked t' [] leaf c.(euid) c.(egid).
Proof.
  unfold open, credentials. destruct (_ || _) eqn:Hc; [by intros [= <- <-]; split; [exists []; left|]|]. bool_simpl.
  destruct (components path) as [|[| | |] [|first parts]] eqn:Hp; try (by intros [= <- <-]; split; [exists []; left|]).
  destruct (mapM normal (first :: parts)) as [names|] eqn:Hn; [|by intros [= <- <-]; split; [exists []; left|]].
  destruct (openat_directory t []) as [root|] eqn:Hr; [|by intros [= <- <-]; split; [exists []; left|]].
  destruct (ancestor root _ _) eqn:Ha; cbn [negb]; [|by intros [= <- <-]; split; [exists []; left|]].
  destruct (walk _ _ _ _ _ _ _) as [[leaf|e] t1] eqn:Hw; intros [= <- <-];
    destruct (walk_spec _ _ _ _ _ _ _ _ _ Hw) as [Hm Hs]; (split; [by eexists|]); [|done].
  intros d l [= <- <-]. destruct (Hs leaf eq_refl) as [-> Hwk]. cbn [app] in *. apply mapM_Some in Hn.
  split; [done|]. split; [done|]. split; [done|]. split; [by destruct (Forall2_cons_inv_l _ _ _ _ Hn) as (? & ? & ? & ? & ->)|].
  split; [|split; [done|split; [|done]]].
  - f_equal. clear -Hn. induction Hn as [|a b l l' Hab _ IH]; [done|]. cbn. rewrite <- IH. f_equal.
    destruct a; try done. by injection Hab as ->.
  - exists root. split; [|done]. by apply openat_directory_Ok in Hr as [? _].
Qed.

End DirOpenSpec.

Module EndpointSpec.
Import LocalFs Endpoint.

Definition holding (f : Phase) : bool :=
  match f with Start | Opened _ | Validated _ | Stopped => false | _ => true end.
Definition listening (f : Phase) : option (Z * Z) :=
  match f with
  | Listening i | Restricting i _ | Chmodded i _ | Serving i | Closing i _ => Some i
  | _ => None
  end.

(** What a daemon relies on about the socket under its name. *)
Inductive Want : Type := Any | Dead | Mine | Restricted.
Definition wants (f : Phase) : option ((Z * Z) * Want) :=
  match f with
  | Found i => Some (i, Any)
  | Refused i | Stale i | Bound i | Dropped (Some i) | Unlinking i => Some (i, Dead)
  | Listening i | Restricting i _ | Closing i _ => Some (i, Mine)
  | Chmodded i _ | Serving i => Some (i, Restricted)
  | _ => None
  end.
Definition coherent (f : Phase) : Prop :=
  match f with
  | Restricting i j | Chmodded i j => j = i
  | Closing i o => o = Some i
  | Dropped o => is_Some o
  | _ => True
  end.

(** A socket with one link. *)
Definition sock (n : Node) (i : Z * Z) : Prop := n.(n_type) = Socket ∧ n.(n_nlink) = 1 ∧ n.(n_inode) = i.
Definition meets (w : World) (p : nat) (n : Node) (i : Z * Z) (x : Want) : Prop :=
  match x with
  | Any => True
  | Dead => w.(listeners) !! i = None
  | Mine => w.(listeners) !! i = Some p
  | Restricted => w.(listeners) !! i = Some p ∧ Z.land n.(n_mode) O7777 = O600
  end.

Definition lock_file (w : World) (nm : str) (i : Z * Z) : Prop :=
  ∃ n, w.(dir) !! lock_name nm = Some n ∧ n.(n_type) = RegularFile ∧ n.(n_inode) = i.

Record claim (w : World) (p : nat) (nm : str) (f : Phase) : Prop := {
  c_opened : ∀ i, f = Opened i ∨ f = Validated i → lock_file w nm i;
  c_lock : holding f = true → ∃ i, lock_file w nm i ∧ w.(flocks) !! i = Some p;
  c_sock : ∀ i x, wants f = Some (i, x) → ∃ n, w.(dir) !! nm = Some n ∧ sock n i ∧ meets w p n i x;
  c_coherent : coherent f
}.

Record inv (w : World) : Prop := {
  i_linked : linked w.(dir);
  i_claim : ∀ p q, w.(daemons) !! p = Some q → claim w p q.(name) q.(phase);
  i_flock : ∀ i p, w.(flocks) !! i = Some p →
    ∃ q, w.(daemons) !! p = Some q ∧ holding q.(phase) = true ∧ lock_file w q.(name) i;
  i_listen : ∀ i p, w.(listeners) !! i = Some p →
    ∃ q, w.(daemons) !! p = Some q ∧ listening q.(phase) = Some i
}.

Lemma lock_name_inj : Inj (=) (=) lock_name.
Proof. intros a b H. unfold lock_name in H. by apply (inj (lit "." ++.)), (inj (.++ lit ".lock")) in H. Qed.

Lemma holder_unique w p p' nm f f' :
  claim w p nm f → claim w p' nm f' → holding f = true → holding f' = true → p = p'.
Proof.
  intros C C' (i & (n & Hn & _ & <-) & Hi)%(c_lock _ _ _ _ C) (j & (n' & Hn' & _ & <-) & Hj)%(c_lock _ _ _ _ C').
  congruence.
Qed.

Lemma wants_holding f i x : wants f = Some (i, x) → holding f = true.
Proof. by destruct f. Qed.
Lemma listening_wants f i : listening f = Some i → wants f = Some (i, Mine) ∨ wants f = Some (i, Restricted).
Proof. destruct f; try done; cbn; intros [= <-]; auto. Qed.

(** What a daemon relies on is kept by a change that keeps regular files,
    its lock, the socket under its name and who listens on it. *)
Lemma claim_frame w w' p nm f :
  claim w p nm f →
  (∀ m n, w.(dir) !! m = Some n → n.(n_type) = RegularFile → w'.(dir) !! m = Some n) →
  (∀ i, w.(flocks) !! i = Some p → w'.(flocks) !! i = Some p) →
  (∀ i x n, wants f = Some (i, x) → w.(dir) !! nm = Some n → sock n i →
     w'.(dir) !! nm = Some n ∧ w'.(listeners) !! i = w.(listeners) !! i) →
  claim w' p nm f.
Proof.
  intros [Ho Hl Hs Hc] Hreg Hf Hsock.
  assert (∀ i, lock_file w nm i → lock_file w' nm i) as Hlf.
  { intros i (n & Hn & Ht & Hi). exists n. eauto. }
  split; [eauto| |intros i x Hx|done].
  - intros H. destruct (Hl H) as (i & ? & ?). eauto.
  - destruct (Hs i x Hx) as (n & Hn & Hk & Hm). destruct (Hsock i x n Hx Hn Hk) as [Hn' Hl'].
    exists n. split; [done|]. split; [done|]. destruct x; cbn in *; by rewrite ?Hl'.
Qed.

(** A step of [p] keeps the invariant if it keeps what the others rely on
    and establishes what [p] relies on next. *)
Lemma inv_step w w' p q f :
  inv w → w.(daemons) !! p = Some q → w'.(daemons) = <[p := mkDaemon q.(name) q.(mask) f]> w.(daemons) →
  linked w'.(dir) →
  (∀ m n, w.(dir) !! m = Some n → n.(n_type) = RegularFile → w'.(dir) !! m = Some n) →
  (∀ i p', p' ≠ p → w.(flocks) !! i = Some p' ↔ w'.(flocks) !! i = Some p') →
  (∀ p' q' i x n, p' ≠ p → w.(daemons) !! p' = Some q' → wants q'.(phase) = Some (i, x) →
     w.(dir) !! q'.(name) = Some n → sock n i →
     w'.(dir) !! q'.(name) = Some n ∧ w'.(listeners) !! i = w.(listeners) !! i) →
  (∀ i p', p' ≠ p → w'.(listeners) !! i = Some p' → w.(listeners) !! i = Some p') →
  claim w' p q.(name) f →
  (∀ i, w'.(flocks) !! i = Some p → holding f = true ∧ lock_file w' q.(name) i) →
  (∀ i, w'.(listeners) !! i = Some p → listening f = Some i) →
  inv w'.
Proof.
  intros I Hq Hd Hlk Hreg Hfl Hsk Hli Hc Hfp Hlp. split; [done| | |].
  - intros p' q'. rewrite Hd. destruct (decide (p' = p)) as [->|Hne].
    + rewrite lookup_insert_eq. intros [= <-]. exact Hc.
    + rewrite lookup_insert_ne by done. intros Hq'. eapply claim_frame; [by apply (i_claim _ I)|done|intros i; by apply (Hfl i p')|].
      intros i x n. by apply (Hsk p' q').
  - intros i p' H. rewrite Hd. destruct (decide (p' = p)) as [->|Hne].
    + rewrite lookup_insert_eq. eexists. split; [done|]. by apply Hfp.
    + rewrite lookup_insert_ne by done. apply (Hfl i p' Hne) in H.
      destruct (i_flock _ I _ _ H) as (q' & ? & ? & n & Hn & Ht & Hi). exists q'. split; [done|]. split; [done|]. exists n. eauto.
  - intros i p' H. rewrite Hd. destruct (decide (p' = p)) as [->|Hne].
    + rewrite lookup_insert_eq. eexists. split; [done|]. by apply Hlp.
    + rewrite lookup_insert_ne by done. apply (i_listen _ I). by apply Hli.
Qed.

Lemma linked_insert d nm n :
  linked d → d !! nm = None → (∀ m x, d !! m = Some x → x.(n_inode) ≠ n.(n_inode)) → linked (<[nm := n]> d).
Proof.
  intros L Hn Hf a b x x'. rewrite !lookup_insert_Some. intros [[<- <-]|[Ha Hx]] [[<- <-]|[Hb Hx']] He Hk; try done.
  - by edestruct Hf.
  - by edestruct Hf.
  - eauto.
Qed.
Lemma linked_delete d nm : linked d → linked (delete nm d).
Proof. intros L a b x x' [_ Ha]%lookup_delete_Some [_ Hb]%lookup_delete_Some. eauto. Qed.
Lemma linked_chmod d nm mode : linked d → linked (alter (chmod mode) nm d).
Proof.
  intros L. assert (∀ m x, alter (chmod mode) nm d !! m = Some x →
    ∃ y, d !! m = Some y ∧ x.(n_inode) = y.(n_inode) ∧ x.(n_nlink) = y.(n_nlink)) as H.
  { intros m x. destruct (decide (nm = m)) as [<-|Hm].
    - rewrite lookup_alter_eq. destruct (d !! nm) as [y|]; [|done]. cbn. intros [= <-]. by exists y.
    - rewrite lookup_alter_ne by done. by exists x. }
  intros a b x x' (y & Hy & He & Hk)%H (y' & Hy' & He' & _)%H Hi H1. eapply L; eauto; congruence.
Qed.

(** A socket of [p] is under no other name that a daemon relies on. *)
Lemma own_socket w p q p' q' i x n i' x' n' :
  inv w → p' ≠ p → w.(daemons) !! p = Some q → w.(daemons) !! p' = Some q' →
  wants q.(phase) = Some (i, x) → w.(dir) !! q.(name) = Some n → sock n i →
  wants q'.(phase) = Some (i', x') → w.(dir) !! q'.(name) = Some n' → sock n' i' →
  q'.(name) ≠ q.(name) ∧ i' ≠ i.
Proof.
  intros I Hne Hq Hq' Hw Hn (_ & Hk & Hi) Hw' Hn' (_ & Hk' & Hi').
  assert (q'.(name) ≠ q.(name)) as Hnm.
  { intros E. apply Hne. pose proof (i_claim _ I _ _ Hq) as C. pose proof (i_claim _ I _ _ Hq') as C'. rewrite E in C'.
    eapply holder_unique; eauto using wants_holding. }
  split; [done|]. intros ->. apply Hnm. eapply (i_linked _ I); eauto. congruence.
Qed.

(** The kinds of system calls. One that only reads: *)
Lemma inv_read w p q f :
  inv w → w.(daemons) !! p = Some q → claim w p q.(name) f →
  (holding q.(phase) = true → holding f = true) → listening f = listening q.(phase) → inv (set_phase p q f w).
Proof.
  intros I Hq C Hh Hl. apply (inv_step w _ p q f I Hq); [reflexivity|..]; cbn; auto.
  - by apply (i_linked _ I).
  - eapply claim_frame; eauto.
  - intros i H. destruct (i_flock _ I _ _ H) as (q' & E & ? & ?). rewrite Hq in E. injection E as <-. auto.
  - intros i H. destruct (i_listen _ I _ _ H) as (q' & E & ?). rewrite Hq in E. injection E as <-. by rewrite Hl.
Qed.

(** One that creates a file under a free name: *)
Lemma inv_create w p q f nm n :
  inv w → w.(daemons) !! p = Some q → w.(dir) !! nm = None → fresh n.(n_inode) w →
  claim (with_dir <[nm := n]> w) p q.(name) f →
  (holding q.(phase) = true → holding f = true) → listening f = listening q.(phase) →
  inv (set_phase p q f (with_dir <[nm := n]> w)).
Proof.
  intros I Hq Hn (Hf & _ & _) C Hh Hl. assert (∀ m x, w.(dir) !! m = Some x → <[nm := n]> w.(dir) !! m = Some x) as Hk.
  { intros m x Hm. rewrite lookup_insert_ne; [done|]. by intros ->; congruence. }
  apply (inv_step w _ p q f I Hq); [reflexivity|..]; cbn; auto.
  - apply linked_insert; [by apply (i_linked _ I)|done|]. intros m x Hm E. by eapply Hf.
  - eapply claim_frame; eauto.
  - intros i H. destruct (i_flock _ I _ _ H) as (q' & E & ? & y & ? & ? & ?). rewrite Hq in E. injection E as <-.
    split; [auto|]. exists y. cbn. auto.
  - intros i H. destruct (i_listen _ I _ _ H) as (q' & E & ?). rewrite Hq in E. injection E as <-. by rewrite Hl.
Qed.

(** One that removes the dead socket of [p]: *)
Lemma inv_remove w p q i f :
  inv w → w.(daemons) !! p = Some q → wants q.(phase) = Some (i, Dead) → wants f = None → coherent f →
  holding f = true → listening f = None → inv (set_phase p q f (with_dir (delete q.(name)) w)).
Proof.
  intros I Hq Hw Hwf Hcf Hh Hl. pose proof (i_claim _ I _ _ Hq) as C.
  destruct (c_sock _ _ _ _ C _ _ Hw) as (n & Hn & Hs & Hm).
  assert (∀ m x, w.(dir) !! m = Some x → x.(n_type) = RegularFile → delete q.(name) w.(dir) !! m = Some x) as Hr.
  { intros m x Hx Ht. rewrite lookup_delete_ne; [done|]. intros <-. destruct Hs as [Hs _]. congruence. }
  assert (∀ j nm, lock_file w nm j → lock_file (set_phase p q f (with_dir (delete q.(name)) w)) nm j) as Hlf.
  { intros j nm (x & ? & ? & ?). exists x. cbn. auto. }
  apply (inv_step w _ p q f I Hq); [reflexivity|..]; cbn; auto.
  - apply linked_delete, (i_linked _ I).
  - intros p' q' i' x' n' Hne Hq' Hw' Hn' Hs'. split; [|done].
    destruct (own_socket w p q p' q' i Dead n i' x' n') as [? _]; try done. by rewrite lookup_delete_ne.
  - split; [by intros j [-> | ->]| |by rewrite Hwf|done]. intros _.
    destruct (c_lock _ _ _ _ C) as (j & Hj & Hfl); [by eapply wants_holding|]. exists j. auto.
  - intros j H. destruct (i_flock _ I _ _ H) as (q' & E & ? & ?). rewrite Hq in E. injection E as <-. auto.
  - intros j H. destruct (i_listen _ I _ _ H) as (q' & E & H'). rewrite Hq in E. injection E as <-.
    apply listening_wants in H' as [H'|H']; congruence.
Qed.

(** One that makes a daemon the listener of its new socket, or not: *)
Lemma inv_listen w p q i f :
  inv w → w.(daemons) !! p = Some q → q.(phase) = Bound i → f = Listening i → inv (set_phase p q f (listen i p w)).
Proof.
  intros I Hq Hf ->. pose proof (i_claim _ I _ _ Hq) as C.
  destruct (c_sock _ _ _ _ C i Dead) as (n & Hn & Hs & Hm); [by rewrite Hf|].
  apply (inv_step w _ p q (Listening i) I Hq); [reflexivity|..]; cbn; auto.
  - by apply (i_linked _ I).
  - intros p' q' i' x' n' Hne Hq' Hw' Hn' Hs'. split; [done|].
    destruct (own_socket w p q p' q' i Dead n i' x' n') as [_ ?]; try done; [by rewrite Hf|]. by rewrite lookup_insert_ne.
  - intros j p' Hne [[<- ->]|[_ ?]]%lookup_insert_Some; [by destruct Hne|done].
  - split; [by intros j [|]| |intros j x [= <- <-]|done].
    + intros _. destruct (c_lock _ _ _ _ C) as (j & Hj & Hfl); [by rewrite Hf|]. by exists j.
    + exists n. cbn. by rewrite lookup_insert_eq.
  - intros j H. destruct (i_flock _ I _ _ H) as (q' & E & ? & ?). rewrite Hq in E. by injection E as <-.
  - intros j [[<- _]|[_ H]]%lookup_insert_Some; [done|].
    destruct (i_listen _ I _ _ H) as (q' & E & H'). rewrite Hq in E. injection E as <-. by rewrite Hf in H'.
Qed.

(** One that takes the lock of its file: *)
Lemma inv_lock w p q i :
  inv w → w.(daemons) !! p = Some q → q.(phase) = Validated i → w.(flocks) !! i = None →
  inv (set_phase p q Locked (flock i p w)).
Proof.
  intros I Hq Hf Hi. pose proof (i_claim _ I _ _ Hq) as C.
  assert (lock_file w q.(name) i) as Hl by (apply (c_opened _ _ _ _ C); auto).
  apply (inv_step w _ p q Locked I Hq); [reflexivity|..]; cbn; auto.
  - by apply (i_linked _ I).
  - intros j p' Hne. rewrite lookup_insert_Some. split; [|naive_solver].
    intros H. right. split; [|done]. intros ->. congruence.
  - split; [by intros j [|]| |done|done]. intros _. exists i. cbn. by rewrite lookup_insert_eq.
  - intros j [[<- _]|[_ H]]%lookup_insert_Some; [done|].
    destruct (i_flock _ I _ _ H) as (q' & E & H' & _). rewrite Hq in E. injection E as <-. by rewrite Hf in H'.
  - intros j H. destruct (i_listen _ I _ _ H) as (q' & E & H'). rewrite Hq in E. injection E as <-. by rewrite Hf in H'.
Qed.

(** One that restricts its socket: *)
Lemma inv_restrict w p q i :
  inv w → w.(daemons) !! p = Some q → q.(phase) = Restricting i i →
  inv (set_phase p q (Chmodded i i) (with_dir (alter (chmod O600) q.(name)) w)).
Proof.
  intros I Hq Hf. pose proof (i_claim _ I _ _ Hq) as C.
  destruct (c_sock _ _ _ _ C i Mine) as (n & Hn & Hs & Hm); [by rewrite Hf|].
  assert (∀ m x, w.(dir) !! m = Some x → x.(n_type) = RegularFile → alter (chmod O600) q.(name) w.(dir) !! m = Some x) as Hr.
  { intros m x Hx Ht. rewrite lookup_alter_ne; [done|]. intros <-. destruct Hs as [Hs _]. congruence. }
  assert (∀ j nm, lock_file w nm j → lock_file (set_phase p q (Chmodded i i) (with_dir (alter (chmod O600) q.(name)) w)) nm j) as Hlf.
  { intros j nm (x & ? & ? & ?). exists x. cbn. auto. }
  apply (inv_step w _ p q (Chmodded i i) I Hq); [reflexivity|..]; cbn; auto.
  - apply linked_chmod, (i_linked _ I).
  - intros p' q' i' x' n' Hne Hq' Hw' Hn' Hs'. split; [|done].
    destruct (own_socket w p q p' q' i Mine n i' x' n') as [? _]; try done; [by rewrite Hf|]. by rewrite lookup_alter_ne.
  - split; [by intros j [|]| |intros j x [= <- <-]|done].
    + intros _. destruct (c_lock _ _ _ _ C) as (j & Hj & Hfl); [by rewrite Hf|]. exists j. auto.
    + exists (chmod O600 n). cbn. rewrite lookup_alter_eq, Hn. split; [done|]. split; [exact Hs|]. split; [exact Hm|done].
  - intros j H. destruct (i_flock _ I _ _ H) as (q' & E & ? & ?). rewrite Hq in E. injection E as <-. auto.
  - intros j H. destruct (i_listen _ I _ _ H) as (q' & E & H'). rewrite Hq in E. injection E as <-. by rewrite Hf in H'.
Qed.

(** One that drops its listener: *)
Lemma inv_drop w p q i o :
  inv w → w.(daemons) !! p = Some q → q.(phase) = Closing i o → inv (set_phase p q (Dropped o) (unlisten i w)).
Proof.
  intros I Hq Hf. pose proof (i_claim _ I _ _ Hq) as C.
  destruct (c_sock _ _ _ _ C i Mine) as (n & Hn & Hs & Hm); [by rewrite Hf|].
  pose proof (c_coherent _ _ _ _ C) as Hc. rewrite Hf in Hc. cbn in Hc. subst o.
  apply (inv_step w _ p q (Dropped (Some i)) I Hq); [reflexivity|..]; cbn; auto.
  - by apply (i_linked _ I).
  - intros p' q' i' x' n' Hne Hq' Hw' Hn' Hs'. split; [done|].
    destruct (own_socket w p q p' q' i Mine n i' x' n') as [_ ?]; try done; [by rewrite Hf|]. by rewrite lookup_delete_ne.
  - by intros j p' Hne [_ ?]%lookup_delete_Some.
  - split; [by intros j [|]| |intros j x [= <- <-]|by eexists].
    + intros _. destruct (c_lock _ _ _ _ C) as (j & Hj & Hfl); [by rewrite Hf|]. by exists j.
    + exists n. cbn. by rewrite lookup_delete_eq.
  - intros j H. destruct (i_flock _ I _ _ H) as (q' & E & ? & ?). rewrite Hq in E. by injection E as <-.
  - intros j [Hj H]%lookup_delete_Some. destruct (i_listen _ I _ _ H) as (q' & E & H'). rewrite Hq in E. injection E as <-.
    rewrite Hf in H'. cbn in H'. congruence.
Qed.

(** The end of a daemon. *)
Lemma inv_end w w' p q :
  inv w → w.(daemons) !! p = Some q → w'.(dir) = w.(dir) → w'.(daemons) = <[p := mkDaemon q.(name) q.(mask) Stopped]> w.(daemons) →
  (∀ i p', w'.(flocks) !! i = Some p' ↔ w.(flocks) !! i = Some p' ∧ p' ≠ p) →
  (∀ i p', w'.(listeners) !! i = Some p' ↔ w.(listeners) !! i = Some p' ∧ p' ≠ p) → inv w'.
Proof.
  intros I Hq Hd Hp Hfl Hli. apply (inv_step w w' p q Stopped I Hq Hp).
  - rewrite Hd. apply (i_linked _ I).
  - by rewrite Hd.
  - intros i p' Hne. rewrite Hfl. naive_solver.
  - intros p' q' i x n Hne Hq' Hw Hn Hs. rewrite Hd. split; [done|].
    destruct (c_sock _ _ _ _ (i_claim _ I _ _ Hq') _ _ Hw) as (n' & _ & _ & Hm). apply option_eq. intros r.
    rewrite Hli. split; [naive_solver|]. intros Hr. split; [done|]. intros ->.
    destruct (i_listen _ I _ _ Hr) as (q0 & E & Hl). rewrite Hq in E. injection E as <-.
    pose proof (listening_wants _ _ Hl) as Hw0.
    assert (∃ x0, wants q.(phase) = Some (i, x0)) as [x0 Hx0] by (destruct Hw0; eauto).
    destruct (c_sock _ _ _ _ (i_claim _ I _ _ Hq) _ _ Hx0) as (n0 & Hn0 & Hs0 & _).
    destruct (own_socket w p q p' q' i x0 n0 i x n) as [_ ?]; done.
  - intros i p' Hne. rewrite Hli. naive_solver.
  - split; [by intros i [|]|done|done|done].
  - intros i. rewrite Hfl. naive_solver.
  - intros i. rewrite Hli. naive_solver.
Qed.

Lemma filter_owner (m : gmap (Z * Z) nat) p i p' :
  filter (λ x, x.2 ≠ p) m !! i = Some p' ↔ m !! i = Some p' ∧ p' ≠ p.
Proof. by rewrite map_lookup_filter_Some. Qed.

Lemma stop_inv w p : inv w → inv (stop p w).
Proof.
  intros I. destruct (w.(daemons) !! p) as [q|] eqn:Hq.
  - eapply (inv_end w _ p q I Hq); cbn; [done|by rewrite Hq| |]; intros i p'; apply filter_owner.
  - destruct w as [d fl li ds]. unfold stop. cbn in *. rewrite Hq.
    assert (filter (λ x, x.2 ≠ p) fl = fl) as ->.
    { apply map_filter_id. intros i p' H E. cbn in E. subst p'. by destruct (i_flock _ I _ _ H) as (? & ? & _); simplify_eq/=. }
    assert (filter (λ x, x.2 ≠ p) li = li) as ->; [|done].
    apply map_filter_id. intros i p' H E. cbn in E. subst p'. by destruct (i_listen _ I _ _ H) as (? & ? & _); simplify_eq/=.
Qed.

Lemma spawn_inv w p nm mask :
  inv w → w.(daemons) !! p = None →
  inv (mkWorld w.(dir) w.(flocks) w.(listeners) (<[p := mkDaemon nm mask Start]> w.(daemons))).
Proof.
  intros I Hp. split; cbn; [by apply (i_linked _ I)| | |].
  - intros p' q' [[<- <-]|[Hne Hq']]%lookup_insert_Some; [split; [by intros i [|]|done|done|done]|].
    eapply claim_frame; [by apply (i_claim _ I)|..]; cbn; auto.
  - intros i p' H. destruct (i_flock _ I _ _ H) as (q' & ? & ? & ?). exists q'. rewrite lookup_insert_ne by congruence. done.
  - intros i p' H. destruct (i_listen _ I _ _ H) as (q' & ? & ?). exists q'. rewrite lookup_insert_ne by congruence. done.
Qed.

Section endpoint.
Context (self : PrivateDirectory) (self_stat : Node).

Lemma socket_stat_Some d nm o : socket_stat self self_stat d nm = Ok o →
  match o with
  | Some n => d !! nm = Some n ∧ sock n n.(n_inode) ∧ n.(n_uid) = self.(uid) ∧ n.(n_gid) = self.(gid)
  | None => d !! nm = None
  end.
Proof.
  unfold socket_stat. intros ([] & _ & H)%bind_Ok. destruct (d !! nm) as [s|]; [|by injection H as <-].
  apply bind_Ok in H as ([] & Hv%require_Ok & [= <-]). unfold validate_socket in Hv. bool_simpl. done.
Qed.
Lemma socket_inode_Some d nm o : socket_inode self self_stat d nm = Ok o →
  match o with
  | Some i => ∃ n, d !! nm = Some n ∧ sock n i ∧ n.(n_uid) = self.(uid) ∧ n.(n_gid) = self.(gid)
  | None => d !! nm = None
  end.
Proof.
  unfold socket_inode. intros (s & H%socket_stat_Some & [= <-])%bind_Ok. destruct s as [n|]; cbn; [|done]. by exists n.
Qed.
Lemma still_Some d nm i : still self self_stat d nm i = true → ∃ n, d !! nm = Some n ∧ sock n i.
Proof.
  unfold still. destruct (socket_inode _ _ d nm) as [[j|]|] eqn:E; try done.
  apply socket_inode_Some in E as (n & Hn & Hs & _). intros Hj. bool_simpl. exists n. by subst.
Qed.

(** Each system call that succeeds keeps the invariant. *)
Lemma advance_inv inode p w w' : inv w → fresh inode w → advance self self_stat inode p w = Some w' → inv w'.
Proof.
  intros I Hf. unfold advance, bind_call, close_call. destruct (w.(daemons) !! p) as [q|] eqn:Hq; [|done]. cbn [mbind option_bind].
  pose proof (i_claim _ I _ _ Hq) as C. destruct C as [Co Cl Cs Cc].
  destruct (q.(phase)) as [| i | i | | i | i | i | | i | i | i j | i j | i | i o | o | i | |] eqn:Hph; cbn [wants coherent holding] in *; cbv beta iota zeta.
  - (* Start *) destruct (usable _ _ _); [|done]. destruct (w.(dir) !! lock_name q.(name)) as [n|] eqn:Hn.
    + destruct (decide _) as [Ht|]; [|done]. intros [= <-]. apply inv_read; rewrite ?Hph; try done.
      split; [|done|done|done]. intros i [[= <-]|]; [by exists n|done].
    + intros [= <-]. apply inv_create; rewrite ?Hph; try done. split; [|done|done|done].
      intros i [[= <-]|]; [|done]. eexists. cbn. by rewrite lookup_insert_eq.
  - (* Opened *) destruct (w.(dir) !! lock_name q.(name)) as [n|] eqn:Hn; [|done]. destruct (decide _) as [[Hi Hr]|]; [|done].
    intros [= <-]. apply inv_read; rewrite ?Hph; try done. split; [|done|done|done].
    intros j [|[= <-]]; [done|]. apply Co. by left.
  - (* Validated *) destruct (w.(flocks) !! i) as [|] eqn:Hi; [done|]. intros [= <-]. by apply inv_lock.
  - (* Locked *) destruct (socket_inode _ _ _ _) as [[i|]|] eqn:E; [| |done]; intros [= <-]; apply inv_read; rewrite ?Hph; try done.
    + apply socket_inode_Some in E as (n & Hn & Hs & _). split; [by intros j [|]|done| |done]. intros j x [= <- <-]. by exists n.
    + split; [by intros j [|]|done|done|done].
  - (* Found *) destruct (Cs _ _ eq_refl) as (n & Hn & Hs & _). rewrite Hn. destruct (decide _) as [[Ht Hl]|]; [|done]. intros [= <-].
    apply inv_read; rewrite ?Hph; try done. split; [by intros j [|]|done| |done]. intros j x [= <- <-]. exists n.
    destruct Hs as (? & ? & <-). done.
  - (* Refused *) destruct (still _ _ _ _ _); [|done]. intros [= <-]. apply inv_read; rewrite ?Hph; try done.
    split; [by intros j [|]|done| |done]. exact Cs.
  - (* Stale *) destruct (decide _); [|done]. intros [= <-]. eapply inv_remove; rewrite ?Hph; try done.
  - (* Free *) destruct (w.(dir) !! q.(name)) as [|] eqn:Hn; [done|]. intros [= <-]. apply inv_create; rewrite ?Hph; try done.
    split; [by intros j [|]| | |done].
    + intros _. destruct (Cl eq_refl) as (i & (y & Hy & ?) & ?). exists i. split; [|done]. exists y.
      assert (q.(name) ≠ lock_name q.(name)) by congruence. change (dir (with_dir ?f w)) with (f w.(dir)).
      by rewrite lookup_insert_ne.
    + intros j x [= <- <-]. eexists. cbn. rewrite lookup_insert_eq. split; [done|]. split; [done|]. apply Hf.
  - (* Bound *) intros [= <-]. by apply inv_listen.
  - (* Listening *) destruct (Cs _ _ eq_refl) as (n & Hn & Hs & Hm).
    destruct (socket_inode _ _ _ _) as [[j|]|] eqn:E; [|done..]. apply socket_inode_Some in E as (n' & Hn' & Hs' & _).
    intros [= <-]. apply inv_read; rewrite ?Hph; try done. split; [by intros k [|]|done| |].
    + intros k x [= <- <-]. by exists n.
    + cbn. destruct Hs as (_ & _ & <-), Hs' as (_ & _ & <-). congruence.
  - (* Restricting *) destruct (decide _); [|done]. intros [= <-]. subst j. by apply inv_restrict.
  - (* Chmodded *) destruct (socket_stat _ _ _ _) as [[n'|]|]; try done. destruct (_ || _); [done|]. intros [= <-].
    apply inv_read; rewrite ?Hph; try done. split; [by intros k [|]|done| |done]. exact Cs.
  - (* Serving *) destruct (Cs _ _ eq_refl) as (n & Hn & Hs & Hm).
    destruct (socket_inode _ _ _ _) as [o|] eqn:E; [|done]. apply socket_inode_Some in E.
    assert (o = Some i) as ->.
    { destruct o as [j|]; [|congruence]. destruct E as (n' & Hn' & (_ & _ & <-) & _), Hs as (_ & _ & <-). congruence. }
    intros [= <-]. apply inv_read; rewrite ?Hph; try done. split; [by intros k [|]|done| |done].
    intros k x [= <- <-]. exists n. split; [done|]. split; [done|]. apply Hm.
  - (* Closing *) intros [= <-]. by apply inv_drop.
  - (* Dropped *) destruct o as [i|]; [|by destruct Cc]. destruct (still _ _ _ _ _); [|done]. intros [= <-].
    apply inv_read; rewrite ?Hph; try done. split; [by intros j [|]|done| |done]. exact Cs.
  - (* Unlinking *) destruct (decide _); [|done]. intros [= <-]. eapply inv_remove; rewrite ?Hph; try done.
  - (* Unlocking *) intros [= <-]. eapply (inv_end w _ p q); try done; intros j p'; [apply filter_owner|].
    cbn. split; [|by intros []]. intros H. split; [done|]. intros ->.
    destruct (i_listen _ I _ _ H) as (q' & E & H'). rewrite Hq in E. injection E as <-. by rewrite Hph in H'.
  - done.
Qed.

Lemma quiet_inv w : quiet w → linked w.(dir) → inv w.
Proof.
  intros (Hf & Hl & Hd) Hk. split; [done| | |]; [rewrite Hd|rewrite Hf|rewrite Hl]; by intros ??.
Qed.

Lemma endpoint_step_inv w w' : inv w → step self self_stat w w' → inv w'.
Proof.
  intros I H. destruct H; [by apply spawn_inv|by eapply advance_inv|by apply stop_inv].
Qed.

Lemma endpoint_inv w : reachable self self_stat w → inv w.
Proof.
  intros (w0 & Hq & Hl & H). pose proof (quiet_inv _ Hq Hl) as I. clear Hq Hl. induction H; eauto using endpoint_step_inv.
Qed.

(** ** Exclusion *)

(** What a system call does to the directory. *)
Lemma advance_dir inode p w w' : advance self self_stat inode p w = Some w' →
  w'.(dir) = w.(dir) ∨ (∃ nm n, w.(dir) !! nm = None ∧ w'.(dir) = <[nm := n]> w.(dir)) ∨
  ∃ q, w.(daemons) !! p = Some q ∧
    ((∃ i, wants q.(phase) = Some (i, Dead) ∧ w'.(dir) = delete q.(name) w.(dir)) ∨
     (∃ i x, wants q.(phase) = Some (i, x) ∧ w'.(dir) = alter (chmod O600) q.(name) w.(dir))).
Proof.
  unfold advance, bind_call, close_call. destruct (w.(daemons) !! p) as [q|] eqn:Hq; [|done]. cbn [mbind option_bind]. cbv zeta. intros Ha.
  destruct q.(phase) eqn:Hph; repeat (case_match; try done); try discriminate Ha; injection Ha as <-; cbn; eauto 10.
  - right. right. exists q. split; [done|]. left. eexists. by rewrite Hph.
  - right. right. exists q. split; [done|]. right. eexists _, Mine. by rewrite Hph.
  - right. right. exists q. split; [done|]. left. eexists. by rewrite Hph.
Qed.

Lemma step_dir w w' : inv w → step self self_stat w w' → ∀ nm n, w.(dir) !! nm = Some n →
  (w'.(dir) !! nm = None → n.(n_type) = Socket ∧ w.(listeners) !! n.(n_inode) = None) ∧
  (n.(n_type) = RegularFile → w'.(dir) !! nm = Some n).
Proof.
  intros I H nm n Hn. destruct H as [w p nm' mask Hp|w p inode w' Hf Ha|w p]; cbn; [by rewrite Hn| |by rewrite Hn].
  destruct (advance_dir _ _ _ _ Ha) as [->|[(m & x & Hm & ->)|(q & Hq & Hd)]]; [by rewrite Hn| |].
  { rewrite lookup_insert_ne by congruence. by rewrite Hn. }
  pose proof (i_claim _ I _ _ Hq) as C. destruct (decide (q.(name) = nm)) as [<-|Hne].
  - assert (∃ i x, wants q.(phase) = Some (i, x)) as (i & x & Hx) by (destruct Hd as [(? & ? & _)|(? & ? & ? & _)]; eauto).
    destruct (c_sock _ _ _ _ C _ _ Hx) as (n' & Hn' & (Ht & _ & Hi) & _). rewrite Hn in Hn'. injection Hn' as <-.
    split; [|congruence]. intros Hnone. split; [done|]. destruct Hd as [(j & Hj & _)|(j & y & _ & Hd)].
    + destruct (c_sock _ _ _ _ C _ _ Hj) as (n' & Hn' & (_ & _ & Hi') & Hm). rewrite Hn in Hn'. injection Hn' as <-. by rewrite Hi'.
    + rewrite Hd, lookup_alter_eq, Hn in Hnone. done.
  - destruct Hd as [(j & _ & ->)|(j & x & _ & ->)]; rewrite ?lookup_delete_ne, ?lookup_alter_ne by done; by rewrite Hn.
Qed.

(** C37: an endpoint has one owner. Whatever daemons start, fail, crash and
    close in a directory, in any interleaving of their system calls: of two
    daemons with one socket name only one is past taking the lock; the
    socket under the name of a daemon that serves is the one it made, with
    mode 0600, and it is the one listening on it; no step removes any entry
    but a socket on which nobody listens, and no step changes a regular
    file. *)
Theorem endpoint_exclusive w : reachable self self_stat w →
  (∀ p q p' q', w.(daemons) !! p = Some q → w.(daemons) !! p' = Some q' → q.(name) = q'.(name) →
     holding q.(phase) = true → holding q'.(phase) = true → p = p') ∧
  (∀ p q i, w.(daemons) !! p = Some q → q.(phase) = Serving i →
     w.(listeners) !! i = Some p ∧ ∃ n, w.(dir) !! q.(name) = Some n ∧ n.(n_type) = Socket ∧ n.(n_inode) = i ∧
       Z.land n.(n_mode) O7777 = O600) ∧
  ∀ w', step self self_stat w w' → ∀ nm n, w.(dir) !! nm = Some n →
    (w'.(dir) !! nm = None → n.(n_type) = Socket ∧ w.(listeners) !! n.(n_inode) = None) ∧
    (n.(n_type) = RegularFile → w'.(dir) !! nm = Some n).
Proof.
  intros I%endpoint_inv. split; [|split].
  - intros p q p' q' Hq Hq' Hnm Hh Hh'. pose proof (i_claim _ I _ _ Hq) as C. pose proof (i_claim _ I _ _ Hq') as C'.
    rewrite Hnm in C. by eapply holder_unique.
  - intros p q i Hq Hph. destruct (c_sock _ _ _ _ (i_claim _ I _ _ Hq) i Restricted) as (n & Hn & (Ht & _ & Hi) & Hl & Hm); [by rewrite Hph|].
    split; [done|]. by exists n.
  - intros w' Hs. by apply step_dir.
Qed.

(** ** Taking over *)

Section alone.
Context (p : nat) (nm : str) (mask : Z) (ds : gmap nat Daemon) (inode : nat → Z * Z).
Hypothesis (Hinj : Inj (=) (=) inode).

Notation at_phase d fl li f := (mkWorld d fl li (<[p := mkDaemon nm mask f]> ds)).

(** [k] calls of [run], with [n] more to come, get from [w] to [w']. *)
Definition leads (k n : nat) (w w' : World) : Prop :=
  run self self_stat (k + n) inode p w = run self self_stat n inode p w' ∧ rtc (step self self_stat) w w'.

Lemma leads_trans k k' n w1 w2 w3 : leads k (k' + n) w1 w2 → leads k' n w2 w3 → leads (k + k') n w1 w3.
Proof. intros [E S] [E' S']. split; [by rewrite <- Nat.add_assoc, E|by etrans]. Qed.

Lemma leads_call n d fl li f d' fl' li' f' :
  (∀ i, f ≠ Serving i) → fresh (inode n) (at_phase d fl li f) →
  advance self self_stat (inode n) p (at_phase d fl li f) =
    Some (mkWorld d' fl' li' (<[p := mkDaemon nm mask f']> (<[p := mkDaemon nm mask f]> ds))) →
  leads 1 n (at_phase d fl li f) (at_phase d' fl' li' f').
Proof.
  intros Hf Hi Ha. rewrite insert_insert_eq in Ha. split; [|apply rtc_once; by eapply step_advance].
  cbn [run daemons Nat.add]. rewrite lookup_insert_eq, Ha. by destruct f; try done; edestruct Hf.
Qed.

Definition own_files (d : Dir) : Prop :=
  (∀ n, d !! lock_name nm = Some n → regular self n = true) ∧ (∀ n, d !! nm = Some n → validate_socket self n = true).

(** Every inode that is still to be given is fresh. *)
Definition spare (n : nat) (d : Dir) (fl li : gmap (Z * Z) nat) : Prop :=
  ∀ k, (k < n)%nat → (∀ m x, d !! m = Some x → x.(n_inode) ≠ inode k) ∧ fl !! inode k = None ∧ li !! inode k = None.

Lemma spare_le n m d fl li : (m ≤ n)%nat → spare n d fl li → spare m d fl li.
Proof. intros Hm H k Hk. apply H. lia. Qed.
Lemma spare_dir n d d' fl li :
  (∀ m x, d' !! m = Some x → ∃ m' y, d !! m' = Some y ∧ x.(n_inode) = y.(n_inode)) → spare n d fl li → spare n d' fl li.
Proof. intros Hd H k Hk. destruct (H k Hk) as [Hf Hr]. split; [|done]. intros m x (m' & y & Hy & ->)%Hd. eauto. Qed.
Lemma spare_create n d fl li m x :
  x.(n_inode) = inode n → spare (S n) d fl li → spare n (<[m := x]> d) fl li.
Proof.
  intros Hx H k Hk. destruct (H k ltac:(lia)) as [Hf Hr]. split; [|done].
  intros m' y [[<- <-]|[_ Hy]]%lookup_insert_Some; [|by eapply Hf]. rewrite Hx. intros E%(inj inode). lia.
Qed.

Hypothesis (Hu : usable self self_stat nm = true) (Hul : usable self self_stat (lock_name nm) = true).
Hypothesis (Hmask : Z.land (Z.land O600 (Z.lnot mask)) O7777 = O600).

Ltac call := unfold advance, bind_call, close_call; cbn [daemons]; rewrite lookup_insert_eq; cbn [mbind option_bind phase name dir flocks listeners].

(** Taking the lock. *)
Lemma take_lock n d fl li : spare (3 + n) d fl li → own_files d →
  (∀ x, d !! lock_name nm = Some x → fl !! x.(n_inode) = None) →
  ∃ d' fl', leads 3 n (at_phase d fl li Start) (at_phase d' fl' li Locked) ∧ spare n d' fl' li ∧
    (∀ m, m ≠ lock_name nm → d' !! m = d !! m).
Proof.
  intros Hs Ho Hfl.
  assert (∃ d' x, d' !! lock_name nm = Some x ∧ regular self x = true ∧ fl !! x.(n_inode) = None ∧
    (∀ k, (k < 2 + n)%nat → inode k ≠ x.(n_inode)) ∧
    spare (2 + n) d' fl li ∧ (∀ m, m ≠ lock_name nm → d' !! m = d !! m) ∧
    leads 1 (2 + n) (at_phase d fl li Start) (at_phase d' fl li (Opened x.(n_inode)))) as
    (d' & x & Hx & Hr & Hxf & Hxk & Hs' & Hd' & L1).
  { destruct (d !! lock_name nm) as [x|] eqn:Hx.
    - exists d, x. pose proof (proj1 Ho x Hx) as Hr. split_and!; eauto; [|by eapply spare_le; [|done]; lia|].
      + intros k Hk. destruct (Hs k ltac:(lia)) as [Hf _]. intros E. by apply (Hf _ _ Hx).
      + apply leads_call; [done|apply Hs; lia|]. call. rewrite Hul, Hx. rewrite decide_True; [done|].
        unfold regular in Hr. by bool_simpl.
    - pose (x := made self RegularFile (Z.land O600 (Z.lnot mask)) (inode (2 + n)%nat)).
      exists (<[lock_name nm := x]> d), x. rewrite lookup_insert_eq. split_and!; [done| | | | | |].
      + unfold regular, x, made. cbn [n_type n_uid n_gid n_mode n_nlink]. by rewrite Hmask, !Z.eqb_refl.
      + apply Hs. lia.
      + intros k Hk E%(inj inode). lia.
      + by apply spare_create.
      + intros m Hm. by rewrite lookup_insert_ne.
      + apply leads_call; [done|apply Hs; lia|]. call. by rewrite Hul, Hx. }
  exists d', (<[x.(n_inode) := p]> fl). split; [|split; [|done]].
  - eapply (leads_trans 1 2 n); [exact L1|]. eapply (leads_trans 1 1 n); apply leads_call.
    + done.
    + apply Hs'. lia.
    + call. rewrite Hx. by rewrite decide_True.
    + done.
    + apply Hs'. lia.
    + call. by rewrite Hxf.
  - intros k Hk. destruct (Hs' k ltac:(lia)) as (? & ? & ?). split; [done|]. split; [|done].
    rewrite lookup_insert_ne; [done|]. intros E. by apply (Hxk k ltac:(lia)).
Qed.

(** The name is free, or has a dead socket that is removed. *)
Lemma free_name n d fl li : spare (4 + n) d fl li → (∀ x, d !! nm = Some x → validate_socket self x = true) →
  (∀ x, d !! nm = Some x → li !! x.(n_inode) = None) →
  ∃ k d', (k ≤ 4)%nat ∧ leads k (4 - k + n) (at_phase d fl li Locked) (at_phase d' fl li Free) ∧
    spare (4 - k + n) d' fl li ∧ d' !! nm = None.
Proof.
  intros Hs Ho Hli. destruct (d !! nm) as [x|] eqn:Hx.
  - pose proof (Ho x eq_refl) as Hv.
    assert (socket_inode self self_stat d nm = Ok (Some x.(n_inode))) as Hi.
    { unfold socket_inode, socket_stat. rewrite Hu, Hx. cbn. by rewrite Hv. }
    assert (still self self_stat d nm x.(n_inode) = true) as Hst.
    { unfold still. rewrite Hi. by apply bool_decide_eq_true_2. }
    assert (x.(n_type) = Socket) as Ht by (unfold validate_socket in Hv; by bool_simpl).
    exists 4%nat, (delete nm d). split; [done|]. split; [|split; [|by rewrite lookup_delete_eq]].
    + eapply (leads_trans 1 3 n _ (at_phase d fl li (Found x.(n_inode)))).
      { apply leads_call; [done|apply Hs; lia|]. call. by rewrite Hi. }
      eapply (leads_trans 1 2 n _ (at_phase d fl li (Refused x.(n_inode)))).
      { apply leads_call; [done|apply Hs; lia|]. call. rewrite Hx, decide_True; [done|]. eauto. }
      eapply (leads_trans 1 1 n _ (at_phase d fl li (Stale x.(n_inode)))).
      { apply leads_call; [done|apply Hs; lia|]. call. by rewrite Hst. }
      apply leads_call; [done|apply Hs; lia|]. call. by rewrite Hx, decide_True.
    + eapply spare_dir; [|eapply spare_le; [|exact Hs]; lia]. intros m y [_ Hy]%lookup_delete_Some. eauto.
  - exists 1%nat, d. split; [lia|]. split; [|split; [|done]].
    + apply leads_call; [done|apply Hs; cbn; lia|]. call. unfold socket_inode, socket_stat. by rewrite Hu, Hx.
    + eapply spare_le; [|exact Hs]. lia.
Qed.

(** Making, restricting and serving the socket. *)
Lemma make_socket n d fl li : spare (5 + n) d fl li → d !! nm = None →
  ∃ w i, leads 5 n (at_phase d fl li Free) w ∧ w.(daemons) !! p = Some (mkDaemon nm mask (Serving i)).
Proof.
  intros Hs Hn. set (i := inode (4 + n)%nat).
  set (x := made self Socket (Z.land SOCKET_MODE (Z.lnot mask)) i).
  set (d1 := <[nm := x]> d). set (li1 := <[i := p]> li). set (d2 := <[nm := chmod O600 x]> d).
  assert (d1 !! nm = Some x) as H1 by apply lookup_insert_eq.
  assert (d2 !! nm = Some (chmod O600 x)) as H2 by apply lookup_insert_eq.
  assert (alter (chmod O600) nm d1 = d2) as Hd2 by apply alter_insert_eq.
  assert (∀ y, validate_socket self (chmod y x) = true) as Hv.
  { intros y. unfold validate_socket. cbn. by rewrite !Z.eqb_refl. }
  assert (validate_socket self x = true) as Hvx by exact (Hv x.(n_mode)).
  assert (socket_inode self self_stat d1 nm = Ok (Some i)) as Hi.
  { unfold socket_inode, socket_stat. rewrite Hu, H1. cbn [mbind result_bind require]. by rewrite Hvx. }
  assert (spare (4 + n) d1 fl li) as Hs1 by by apply spare_create.
  assert (spare (4 + n) d1 fl li1) as Hs2.
  { intros k Hk. destruct (Hs1 k Hk) as (? & ? & ?). split; [done|]. split; [done|]. unfold li1.
    rewrite lookup_insert_ne; [done|]. intros E%(inj inode). lia. }
  assert (spare (4 + n) d2 fl li1) as Hs3.
  { eapply spare_dir; [|exact Hs2]. intros m y [[<- <-]|[? ?]]%lookup_insert_Some; [by exists nm, x|].
    exists m, y. unfold d1. by rewrite lookup_insert_ne. }
  exists (at_phase d2 fl li1 (Serving i)), i. split; [|cbn; by rewrite lookup_insert_eq].
  eapply (leads_trans 1 4 n _ (at_phase d1 fl li (Bound i))).
  { apply leads_call; [done|apply Hs; lia|]. call. by rewrite Hn. }
  eapply (leads_trans 1 3 n _ (at_phase d1 fl li1 (Listening i))).
  { apply leads_call; [done|apply Hs1; lia|]. by call. }
  eapply (leads_trans 1 2 n _ (at_phase d1 fl li1 (Restricting i i))).
  { apply leads_call; [done|apply Hs2; lia|]. call. by rewrite Hi. }
  eapply (leads_trans 1 1 n _ (at_phase d2 fl li1 (Chmodded i i))).
  { apply leads_call; [done|apply Hs2; lia|]. call. rewrite H1, decide_True by done. by rewrite <- Hd2. }
  apply leads_call; [done|apply Hs3; lia|]. call.
  assert (socket_stat self self_stat d2 nm = Ok (Some (chmod O600 x))) as ->.
  { unfold socket_stat. rewrite Hu, H2. cbn [mbind result_bind require]. by rewrite Hv. }
  by rewrite bool_decide_eq_true_2.
Qed.

End alone.

Lemma recovers w p nm mask inode : reachable self self_stat w → w.(daemons) !! p = None →
  (∀ r q, w.(daemons) !! r = Some q → q.(name) = nm → holding q.(phase) = false) →
  usable self self_stat nm = true → usable self self_stat (lock_name nm) = true →
  own_files nm w.(dir) → Z.land (Z.land O600 (Z.lnot mask)) O7777 = O600 →
  Inj (=) (=) inode → (∀ k, (k < 12)%nat → fresh (inode k) w) →
  let w0 := mkWorld w.(dir) w.(flocks) w.(listeners) (<[p := mkDaemon nm mask Start]> w.(daemons)) in
  let w1 := run self self_stat 12 inode p w0 in
  rtc (step self self_stat) w0 w1 ∧ ∃ i, w1.(daemons) !! p = Some (mkDaemon nm mask (Serving i)).
Proof.
  intros I%endpoint_inv _ Hfree Hu Hul Ho Hm Hinj Hfr w0 w1.
  destruct (take_lock p nm mask w.(daemons) inode Hinj Hul Hm 9 w.(dir) w.(flocks) w.(listeners)) as (d1 & fl1 & [E1 S1] & Hs1 & Hd1).
  { intros k Hk. by apply Hfr. } { done. }
  { intros x Hx. destruct (w.(flocks) !! x.(n_inode)) as [r|] eqn:Hr; [|done].
    destruct (i_flock _ I _ _ Hr) as (q & Hq & Hh & y & Hy & _ & Hi). exfalso.
    pose proof (proj1 Ho x Hx) as Hrx. unfold regular in Hrx. bool_simpl.
    assert (lock_name nm = lock_name q.(name)) as E%(inj lock_name) by (eapply (i_linked _ I); eauto).
    by rewrite (Hfree r q Hq (eq_sym E)) in Hh. }
  assert (nm ≠ lock_name nm) as Hne.
  { intros E. apply (f_equal length) in E. unfold lock_name in E. rewrite !length_app in E. cbn in E. lia. }
  destruct (free_name p nm mask w.(daemons) inode Hu 5 d1 fl1 w.(listeners)) as (k & d2 & Hk & [E2 S2] & Hs2 & Hn).
  { done. }
  { intros x. rewrite (Hd1 nm Hne). apply Ho. }
  { intros x. rewrite (Hd1 nm Hne). intros Hx. destruct (w.(listeners) !! x.(n_inode)) as [r|] eqn:Hr; [|done]. exfalso.
    destruct (i_listen _ I _ _ Hr) as (q & Hq & Hl).
    assert (∃ y, wants q.(phase) = Some (x.(n_inode), y)) as [y Hy] by (destruct (listening_wants _ _ Hl); eauto).
    destruct (c_sock _ _ _ _ (i_claim _ I _ _ Hq) _ _ Hy) as (n & Hn & (_ & Hk & Hi) & _).
    assert (q.(name) = nm) as E by (eapply (i_linked _ I); eauto).
    apply wants_holding in Hy. by rewrite (Hfree r q Hq E) in Hy. }
  destruct (make_socket p nm mask w.(daemons) inode Hinj Hu (4 - k) d2 fl1 w.(listeners)) as (w2 & i & [E3 S3] & Hw2).
  { by rewrite Nat.add_comm. } { done. }
  replace (k + (4 - k + 5))%nat with 9%nat in E2 by lia. replace (4 - k + 5)%nat with (5 + (4 - k))%nat in E2 by lia.
  assert (w1 = w2) as ->; [|split; [|by exists i]].
  { change w1 with (run self self_stat (3 + 9) inode p w0). unfold w0. etrans; [exact E1|]. rewrite E2, E3. clear -Hw2. destruct (4 - k)%nat; [done|].
    cbn [run]. by rewrite Hw2. }
  etrans; [exact S1|]. etrans; [exact S2|exact S3].
Qed.

(** C30: a crash is recovered from. In any reachable state in which no daemon
    owns a socket name (because the one that did crashed, or closed), a new
    daemon of that name gets to serve, undisturbed within twelve system
    calls, if the lock file and the socket that earlier daemons left are
    the user's own and the umask leaves the owner's bits. *)
Theorem endpoint_recovers w p nm mask inode : reachable self self_stat w → w.(daemons) !! p = None →
  (∀ r q, w.(daemons) !! r = Some q → q.(name) = nm → holding q.(phase) = false) →
  usable self self_stat nm = true → usable self self_stat (lock_name nm) = true →
  own_files nm w.(dir) → Z.land (Z.land O600 (Z.lnot mask)) O7777 = O600 →
  Inj (=) (=) inode → (∀ k, (k < 12)%nat → fresh (inode k) w) →
  let w0 := mkWorld w.(dir) w.(flocks) w.(listeners) (<[p := mkDaemon nm mask Start]> w.(daemons)) in
  let w1 := run self self_stat 12 inode p w0 in
  rtc (step self self_stat) w0 w1 ∧ ∃ i, w1.(daemons) !! p = Some (mkDaemon nm mask (Serving i)).
Proof. apply recovers. Qed.


End endpoint.
End EndpointSpec.

Module EndpointDemo.
Import LocalFs Endpoint EndpointSpec.

Definition self : PrivateDirectory := mkPrivate 1000 1000.
Definition self_stat : Node := mkNode Directory 1000 1000 O700 2 (1, 1) [] true.
Definition sock_name : str := lit "control.sock".

(** What a daemon that crashed left behind. *)
Definition left_over : World :=
  mkWorld (<[lock_name sock_name := mkNode RegularFile 1000 1000 O600 1 (1, 4) [] true]>
           {[sock_name := mkNode Socket 1000 1000 O600 1 (1, 5) [] true]}) ∅ ∅ ∅.
Definition inode (k : nat) : Z * Z := (1, 100 + Z.of_nat k).
Definition started : World :=
  mkWorld left_over.(dir) ∅ ∅ {[7%nat := mkDaemon sock_name 18 Start]}.
Definition serving : World := run self self_stat 12 inode 7 started.

Lemma left_over_dir (P : str → Node → Prop) :
  P (lock_name sock_name) (mkNode RegularFile 1000 1000 O600 1 (1, 4) [] true) →
  P sock_name (mkNode Socket 1000 1000 O600 1 (1, 5) [] true) → ∀ nm n, left_over.(dir) !! nm = Some n → P nm n.
Proof.
  unfold left_over. cbn [dir]. intros H1 H2 nm n [[<- <-]|[_ [<- <-]%lookup_singleton_Some]]%lookup_insert_Some; done.
Qed.

Lemma left_over_linked : linked left_over.(dir).
Proof.
  intros a b n n' Ha Hb. revert a n Ha. apply (left_over_dir (λ a n, _ → _ → a = b)).
  all: revert b n' Hb; apply (left_over_dir (λ b n', _ = n_inode n' → _ → _ = b)); cbn; congruence.
Qed.
Lemma left_over_reachable : reachable self self_stat left_over.
Proof. exists left_over. split; [done|]. split; [exact left_over_linked|done]. Qed.
Lemma left_over_own : own_files self sock_name left_over.(dir).
Proof. by split; intros n [= <-]. Qed.
#[export] Instance inode_inj : Inj (=) (=) inode.
Proof. intros a b [= H]. lia. Qed.
Lemma left_over_fresh k : fresh (inode k) left_over.
Proof.
  split; [|done]. apply (left_over_dir (λ _ n, n.(n_inode) ≠ inode k)); unfold inode; intros [= H]; lia.
Qed.

Lemma endpoint_recovers_witness : ∃ i, serving.(daemons) !! 7%nat = Some (mkDaemon sock_name 18 (Serving i)).
Proof.
  apply (λ H1 H2 H3 H4 H5 H6, proj2 (endpoint_recovers self self_stat left_over 7 sock_name 18 inode
    left_over_reachable H1 H2 H3 H4 left_over_own H5 inode_inj H6)); try reflexivity.
  - intros r q H. discriminate H.
  - intros k Hk. apply left_over_fresh.
Defined.

Lemma serving_reachable : reachable self self_stat serving.
Proof.
  exists left_over. split; [done|]. split; [exact left_over_linked|].
  eapply rtc_l; [apply (step_start _ _ left_over 7 sock_name 18); reflexivity|].
  apply (recovers self self_stat left_over 7 sock_name 18 inode left_over_reachable); try done.
  - exact left_over_own.
  - exact inode_inj.
  - intros k Hk. apply left_over_fresh.
Qed.

Lemma endpoint_exclusive_witness : serving.(listeners) !! inode 4 = Some 7%nat.
Proof.
  apply (proj1 (proj2 (endpoint_exclusive self self_stat serving serving_reachable)) 7%nat
           (mkDaemon sock_name 18 (Serving (inode 4)))); [vm_compute; reflexivity|reflexivity].
Defined.

End EndpointDemo.
