(* ===== verification/Handshake.v ===== *)
(** * The v3 handshake messages ([werewolfd/src/handshake.rs])

    Field parsers, the length-prefixed transcript, the OPEN and ACK messages
    of the TCP and QUIC handshakes with the transcripts that are signed, and
    the one-use challenge. [rejected()] is the only error; a transcript field
    of 4 GiB or more would be a panic. Random values and the clock are
    arguments; reading and writing messages on the stream is in Conn. *)

From S2P Require Export Pelt.

Local Open Scope Z_scope.

Module Handshake.
Import Pelt.

Definition TCP : str := lit "fang-tcp-v3".
Definition QUIC : str := lit "fang-quic-v3".
Definition SESSION : str := lit "fang-v3-secure".

Notation hs A := (result (fault ()) A).
Definition rejected {A} : hs A := raise ().
Definition h_require (b : bool) : hs () := if b then Ok () else rejected.
Definition h_some {A} (o : option A) : hs A := ok_or o (Raised ()).

(** ** Fields *)

Definition lower_digit (b : byte) : option Z :=
  if is_ascii_digit b then Some (byte_val b - 48)
  else if in_range 97 102 (byte_val b) then Some (byte_val b - 97 + 10)
  else None.

(** The loop over [text.as_bytes().as_chunks::<2>()]. *)
Fixpoint unhex_loop (text : str) : option (list byte) :=
  match text with
  | a :: b :: rest =>
      x ← lower_digit a; y ← lower_digit b;
      bs ← unhex_loop rest;
      Some (byte_of (x * 16 + y) :: bs)
  | _ => Some []
  end.

Definition unhex (n : nat) (text : str) : hs (array n) :=
  _ ← h_require (length text =? 2 * n)%nat;
  h_some (unhex_loop text ≫= to_array n).

Definition h_fingerprint (text : str) : hs (array 8) := h_some (parse_fingerprint text).

Definition remote (text : str) : hs () :=
  h_require (negb (bool_decide (text = [])) && (length text <=? 512)%nat
             && negb (existsb (λ c, is_whitespace c || is_control c) (chars text))).

Definition TRANSCRIPT_PREFIX : list byte := lit "WWP-HS" ++ [x00].

(** One field: its length in four bytes, then the field; a length that does
    not fit is the [expect] panic. *)
Definition transcript_field (field : list byte) : hs (list byte) :=
  if Z.of_nat (length field) <? 2 ^ 32
  then Ok (be_bytes 4 (Z.of_nat (length field)) ++ field) else Err Panicked.

Definition transcript (domain : str) (fields : list (list byte)) : hs (list byte) :=
  parts ← try_map transcript_field (domain :: fields);
  Ok (TRANSCRIPT_PREFIX ++ mjoin parts).

Section handshake.
Context `{Crypto} `{Base64}.

(** [binary::<N>]: the one base64 spelling of [n] bytes. *)
Definition binary (n : nat) (text : str) : hs (array n) :=
  _ ← h_require (length text =? (n + 2) / 3 * 4)%nat;
  bytes ← h_some (b64_decode text);
  value ← h_some (to_array n bytes);
  _ ← h_require (bool_decide (b64_encode (array_bytes value) = text));
  Ok value.

Definition verify (public : str) (message : list byte) (signature : str) : hs () :=
  _ ← binary 32 public;
  _ ← binary 64 signature;
  map_err (λ _, Raised ()) (verify_message public message signature).

Definition sign (identity : PeltIdentity) (message : list byte) : hs str :=
  map_err (λ _, Raised ()) (sign_message identity message).

Definition public_matches (public fp : str) : hs (array 32) :=
  bytes ← binary 32 public;
  text ← map_err (λ _, Raised ()) (fingerprint_from_public_key_b64 public);
  _ ← h_require (bool_decide (text = fp));
  Ok bytes.

(** ** The QUIC channel binding *)

(** [exporter] is the 32 bytes TLS exports for the connection. *)
Definition quic_binding (exporter : array 32) : array 32 :=
  blake3 (lit "werewolfproxy/fang-quic-v3/channel-binding" ++ [x00] ++ array_bytes exporter).

(** ** Messages *)

Record TcpChallenge : Type := mkTcpChallenge {
  tc_cmd : str;
  tc_protocol : str;
  tc_receiver_fingerprint : str;
  tc_challenge : str
}.

Record TcpOpen : Type := mkTcpOpen {
  to_cmd : str;
  to_protocol : str;
  to_sender_pubkey : str;
  to_sender_fingerprint : str;
  to_receiver_fingerprint : str;
  to_challenge : str;
  to_nonce : str;
  to_client_x25519 : str;
  to_remote : str;
  to_signature : str
}.

Record TcpAck : Type := mkTcpAck {
  ta_cmd : str;
  ta_ok : bool;
  ta_protocol : str;
  ta_session : str;
  ta_receiver_pubkey : str;
  ta_receiver_fingerprint : str;
  ta_sender_fingerprint : str;
  ta_challenge : str;
  ta_nonce : str;
  ta_client_x25519 : str;
  ta_server_x25519 : str;
  ta_remote : str;
  ta_signature : str
}.

Record QuicOpen : Type := mkQuicOpen {
  qo_cmd : str;
  qo_protocol : str;
  qo_sender_fingerprint : str;
  qo_receiver_fingerprint : str;
  qo_nonce : str;
  qo_remote : str;
  qo_signature : str
}.

Record QuicAck : Type := mkQuicAck {
  qa_cmd : str;
  qa_ok : bool;
  qa_protocol : str;
  qa_receiver_pubkey : str;
  qa_receiver_fingerprint : str;
  qa_sender_fingerprint : str;
  qa_nonce : str;
  qa_remote : str;
  qa_signature : str
}.

Definition challenge_validate (c : TcpChallenge) : hs () :=
  _ ← h_require (bool_decide (c.(tc_cmd) = lit "fang.tcp.challenge")
                 && bool_decide (c.(tc_protocol) = TCP));
  _ ← h_fingerprint c.(tc_receiver_fingerprint);
  _ ← unhex 32 c.(tc_challenge);
  Ok ().

Definition tcp_open_transcript (o : TcpOpen) : hs (list byte) :=
  _ ← h_require (bool_decide (o.(to_cmd) = lit "fang.pipe") && bool_decide (o.(to_protocol) = TCP));
  _ ← h_fingerprint o.(to_sender_fingerprint);
  _ ← h_fingerprint o.(to_receiver_fingerprint);
  _ ← remote o.(to_remote);
  sp ← public_matches o.(to_sender_pubkey) o.(to_sender_fingerprint);
  challenge ← unhex 32 o.(to_challenge);
  nonce ← unhex 16 o.(to_nonce);
  client ← binary 32 o.(to_client_x25519);
  transcript (lit "fang.tcp.open/v3")
    [TCP; o.(to_sender_fingerprint); array_bytes sp; o.(to_receiver_fingerprint);
     array_bytes challenge; array_bytes nonce; array_bytes client; o.(to_remote)].

(** [TcpOpen::new]; [nonce] is the random value. *)
Definition tcp_open_new (sender : PeltIdentity) (challenge : TcpChallenge) (rem : str)
    (client_key : array 32) (nonce : array 16) : hs TcpOpen :=
  _ ← challenge_validate challenge;
  let value sig := mkTcpOpen (lit "fang.pipe") TCP sender.(public_key_b64) sender.(fingerprint)
    challenge.(tc_receiver_fingerprint) challenge.(tc_challenge) (hex (array_bytes nonce))
    (b64_encode (array_bytes client_key)) rem sig in
  t ← tcp_open_transcript (value []);
  sig ← sign sender t;
  Ok (value sig).

Definition tcp_ack_transcript (a : TcpAck) (open : TcpOpen) (retained : list byte) : hs (list byte) :=
  _ ← h_require (bool_decide (a.(ta_cmd) = lit "fang.tcp.ack") && bool_decide (a.(ta_protocol) = TCP)
        && bool_decide (a.(ta_session) = SESSION) && a.(ta_ok)
        && bool_decide (a.(ta_receiver_fingerprint) = open.(to_receiver_fingerprint))
        && bool_decide (a.(ta_sender_fingerprint) = open.(to_sender_fingerprint))
        && bool_decide (a.(ta_challenge) = open.(to_challenge))
        && bool_decide (a.(ta_nonce) = open.(to_nonce))
        && bool_decide (a.(ta_remote) = open.(to_remote))
        && bool_decide (a.(ta_client_x25519) = open.(to_client_x25519)));
  rp ← public_matches a.(ta_receiver_pubkey) a.(ta_receiver_fingerprint);
  server ← binary 32 a.(ta_server_x25519);
  transcript (lit "fang.tcp.ack/v3")
    [TCP; [x01]; SESSION; retained; array_bytes rp; array_bytes server].

Definition tcp_ack_new (open : TcpOpen) (retained : list byte) (receiver : PeltIdentity)
    (server_key : array 32) : hs TcpAck :=
  let value sig := mkTcpAck (lit "fang.tcp.ack") true TCP SESSION receiver.(public_key_b64)
    receiver.(fingerprint) open.(to_sender_fingerprint) open.(to_challenge) open.(to_nonce)
    open.(to_client_x25519) (b64_encode (array_bytes server_key)) open.(to_remote) sig in
  t ← tcp_ack_transcript (value []) open retained;
  sig ← sign receiver t;
  Ok (value sig).

Definition quic_open_transcript (o : QuicOpen) (binding : array 32) : hs (list byte) :=
  _ ← h_require (bool_decide (o.(qo_cmd) = lit "fang.quic.open") && bool_decide (o.(qo_protocol) = QUIC));
  _ ← h_fingerprint o.(qo_sender_fingerprint);
  _ ← h_fingerprint o.(qo_receiver_fingerprint);
  _ ← remote o.(qo_remote);
  nonce ← unhex 16 o.(qo_nonce);
  transcript (lit "fang.quic.open/v3")
    [QUIC; o.(qo_sender_fingerprint); o.(qo_receiver_fingerprint); array_bytes nonce; o.(qo_remote);
     array_bytes binding].

Definition quic_open_new (sender : PeltIdentity) (receiver rem : str) (binding : array 32)
    (nonce : array 16) : hs QuicOpen :=
  let value sig := mkQuicOpen (lit "fang.quic.open") QUIC sender.(fingerprint) receiver
    (hex (array_bytes nonce)) rem sig in
  t ← quic_open_transcript (value []) binding;
  sig ← sign sender t;
  Ok (value sig).

Definition quic_ack_transcript (a : QuicAck) (open : QuicOpen) (retained : list byte) : hs (list byte) :=
  _ ← h_require (bool_decide (a.(qa_cmd) = lit "fang.quic.ack") && bool_decide (a.(qa_protocol) = QUIC)
        && a.(qa_ok)
        && bool_decide (a.(qa_receiver_fingerprint) = open.(qo_receiver_fingerprint))
        && bool_decide (a.(qa_sender_fingerprint) = open.(qo_sender_fingerprint))
        && bool_decide (a.(qa_nonce) = open.(qo_nonce))
        && bool_decide (a.(qa_remote) = open.(qo_remote)));
  rp ← public_matches a.(qa_receiver_pubkey) a.(qa_receiver_fingerprint);
  transcript (lit "fang.quic.ack/v3") [QUIC; [x01]; retained; array_bytes rp].

Definition quic_ack_new (open : QuicOpen) (retained : list byte) (receiver : PeltIdentity) : hs QuicAck :=
  let value sig := mkQuicAck (lit "fang.quic.ack") true QUIC receiver.(public_key_b64)
    receiver.(fingerprint) open.(qo_sender_fingerprint) open.(qo_nonce) open.(qo_remote) sig in
  t ← quic_ack_transcript (value []) open retained;
  sig ← sign receiver t;
  Ok (value sig).

(** ** The challenge of a TCP connection *)

Record TcpChallengeContext : Type := mkContext {
  message : TcpChallenge;
  receiver : PeltIdentity;
  deadline : Z;
  consumed : bool
}.

(** [Instant]s count nanoseconds. *)
Definition SECOND : Z := 1000000000.
Definition READ_WINDOW : Z := 5 * SECOND.

(** [TcpChallengeContext::new]; [random] is the challenge, [now] the clock. *)
Definition context_new (receiver : PeltIdentity) (random : array 32) (now : Z) : hs TcpChallengeContext :=
  let message := mkTcpChallenge (lit "fang.tcp.challenge") TCP receiver.(fingerprint)
    (hex (array_bytes random)) in
  _ ← challenge_validate message;
  _ ← public_matches receiver.(public_key_b64) receiver.(fingerprint);
  Ok (mkContext message receiver (now + READ_WINDOW) false).

Definition check_binding (c : TcpChallengeContext) (now : Z) (challenge receiver_fp : str) : hs () :=
  h_require (negb c.(consumed) && (now <? c.(deadline))
             && bool_decide (challenge = c.(message).(tc_challenge))
             && bool_decide (receiver_fp = c.(receiver).(fingerprint))).

Definition consume_binding (c : TcpChallengeContext) (now : Z) (challenge receiver_fp : str)
    : hs TcpChallengeContext :=
  _ ← check_binding c now challenge receiver_fp;
  Ok (mkContext c.(message) c.(receiver) c.(deadline) true).

Definition context_check (c : TcpChallengeContext) (now : Z) (open : TcpOpen) : hs () :=
  check_binding c now open.(to_challenge) open.(to_receiver_fingerprint).
Definition context_consume (c : TcpChallengeContext) (now : Z) (open : TcpOpen) : hs TcpChallengeContext :=
  consume_binding c now open.(to_challenge) open.(to_receiver_fingerprint).

End handshake.
End Handshake.

(** ** What the handshake guarantees *)

Module HandshakeSpec.
Import Pelt Handshake.

Lemma h_require_Ok b u : h_require b = Ok u ↔ b = true.
Proof. destruct b, u; cbn; naive_solver. Qed.

Lemma h_some_Ok {A} (o : option A) a : h_some o = Ok a ↔ o = Some a.
Proof. apply ok_or_Ok. Qed.

(** Opens a hypothesis [... = Ok _] over the handshake's binds and guards. *)
Ltac h_inv :=
  repeat match goal with
  | H : (_ ≫= _) = Ok _ |- _ => apply bind_Ok in H as (? & ? & H)
  | H : h_require _ = Ok _ |- _ => apply h_require_Ok in H
  | H : h_some _ = Ok _ |- _ => apply h_some_Ok in H
  | H : Ok _ = Ok _ |- _ => injection H as H; subst
  end.

(** *** Fields have one spelling *)

Lemma lower_digit_Some b x : lower_digit b = Some x → 0 ≤ x < 16 ∧ hex_digit false x = b.
Proof.
  intros Hx.
  assert (match lower_digit b with
    | Some x => (0 <=? x) && (x <? 16) && bool_decide (hex_digit false x = b)
    | None => true end = true) as Hall.
  { clear Hx. revert b. apply (all_bytes (λ b, match lower_digit b with Some x => _ | None => true end)).
    vm_compute. reflexivity. }
  rewrite Hx in Hall. bool_simpl. lia || done.
Qed.

Lemma lower_pair a b x y :
  lower_digit a = Some x → lower_digit b = Some y → hex02 false (byte_of (x * 16 + y)) = [a; b].
Proof.
  intros (Hx & <-)%lower_digit_Some (Hy & <-)%lower_digit_Some.
  unfold hex02. rewrite byte_val_of, (Z.mod_small (x * 16 + y)) by lia.
  rewrite Z.div_add_l, Z.div_small, Z.add_0_r by lia.
  rewrite Z.add_comm, Z.mod_add, Z.mod_small by lia. done.
Qed.

Lemma lower_hex02 b :
  lower_digit (hex_digit false (byte_val b `div` 16)) = Some (byte_val b `div` 16) ∧
  lower_digit (hex_digit false (byte_val b `mod` 16)) = Some (byte_val b `mod` 16).
Proof.
  assert (bool_decide (lower_digit (hex_digit false (byte_val b `div` 16)) = Some (byte_val b `div` 16))
    && bool_decide (lower_digit (hex_digit false (byte_val b `mod` 16)) = Some (byte_val b `mod` 16))
    = true) as Hall; [|by bool_simpl].
  revert b. apply (all_bytes (λ b, bool_decide _ && bool_decide _)). vm_compute. reflexivity.
Qed.

Lemma unhex_loop_hex bs : unhex_loop (hex bs) = Some bs.
Proof.
  induction bs as [|b bs IH]; [done|]. rewrite hex_cons. cbn [unhex_loop].
  destruct (lower_hex02 b) as [-> ->]. cbn. rewrite IH. cbn. do 2 f_equal.
  rewrite <-(byte_of_val b) at 3. f_equal. pose proof (Z.div_mod (byte_val b) 16). lia.
Qed.

Lemma unhex_loop_exact k : ∀ s bs, length s = (2 * k)%nat → unhex_loop s = Some bs → s = hex bs.
Proof.
  induction k as [|k IH]; intros s bs Hl Hu.
  { destruct s; [|done]. by injection Hu as <-. }
  destruct s as [|a [|b s]]; [done|cbn in Hl; lia|]. cbn [unhex_loop] in Hu.
  destruct (lower_digit a) as [x|] eqn:Ha; [|done]. destruct (lower_digit b) as [y|] eqn:Hb; [|done].
  cbn in Hu. destruct (unhex_loop s) as [bs'|] eqn:Hs; [|done]. injection Hu as <-.
  change (hex (byte_of (x * 16 + y) :: bs')) with (hex02 false (byte_of (x * 16 + y)) ++ hex bs').
  rewrite (lower_pair a b) by done. cbn. do 2 f_equal. apply IH; [cbn in Hl; lia|done].
Qed.

Lemma h_unhex_exact n text a : unhex n text = Ok a ↔ text = hex (array_bytes a).
Proof.
  unfold unhex. split.
  - intros Hu. h_inv. bool_simpl.
    destruct (unhex_loop text) as [bs|] eqn:Hs; [|done].
    match goal with Ht : Some bs ≫= _ = _ |- _ => cbn in Ht; apply to_array_Some in Ht as -> end.
    by eapply unhex_loop_exact.
  - intros ->. rewrite length_hex, length_array, Nat.eqb_refl. cbn.
    rewrite unhex_loop_hex. cbn. by rewrite to_array_bytes.
Qed.

(** *** Transcripts *)

Lemma field_inj f1 f2 r1 r2 :
  Z.of_nat (length f1) < 2 ^ 32 → Z.of_nat (length f2) < 2 ^ 32 →
  (be_bytes 4 (Z.of_nat (length f1)) ++ f1) ++ r1 = (be_bytes 4 (Z.of_nat (length f2)) ++ f2) ++ r2 →
  f1 = f2 ∧ r1 = r2.
Proof.
  intros H1 H2 Heq. rewrite <-!app_assoc in Heq.
  apply app_inj_1 in Heq as [Hlen Heq]; [|by rewrite !length_be_bytes].
  apply (f_equal be_value) in Hlen. rewrite !be_value_bytes_small in Hlen by (cbn; lia).
  apply app_inj_1 in Heq; [done|lia].
Qed.

Lemma transcript_field_Ok f p :
  transcript_field f = Ok p ↔
  Z.of_nat (length f) < 2 ^ 32 ∧ p = be_bytes 4 (Z.of_nat (length f)) ++ f.
Proof.
  unfold transcript_field. destruct (Z.ltb_spec (Z.of_nat (length f)) (2 ^ 32)); split.
  - by intros [= <-].
  - by intros [_ ->].
  - done.
  - lia.
Qed.

Lemma fields_inj fs1 : ∀ fs2 ps1 ps2,
  Forall2 (λ f p, transcript_field f = Ok p) fs1 ps1 →
  Forall2 (λ f p, transcript_field f = Ok p) fs2 ps2 →
  mjoin ps1 = mjoin ps2 → fs1 = fs2.
Proof.
  induction fs1 as [|f1 fs1 IH]; intros fs2 ps1 ps2 H1 H2 Heq.
  - apply Forall2_nil_inv_l in H1 as ->. destruct H2 as [|f2 p2 fs2 ps2 Hf2 H2]; [done|].
    apply transcript_field_Ok in Hf2 as [_ ->]. apply (f_equal length) in Heq. cbn in Heq.
    rewrite !length_app, length_be_bytes in Heq. lia.
  - apply Forall2_cons_inv_l in H1 as (p1 & ps1' & Hf1 & H1 & ->).
    destruct H2 as [|f2 p2 fs2 ps2 Hf2 H2].
    + apply transcript_field_Ok in Hf1 as [_ ->]. apply (f_equal length) in Heq. cbn in Heq.
      rewrite !length_app, length_be_bytes in Heq. lia.
    + apply transcript_field_Ok in Hf1 as [Hl1 ->], Hf2 as [Hl2 ->].
      cbn in Heq. apply field_inj in Heq as [-> Heq]; [|done|done]. f_equal. by eapply IH.
Qed.

Lemma transcript_inj d1 d2 fs1 fs2 t :
  transcript d1 fs1 = Ok t → transcript d2 fs2 = Ok t → d1 = d2 ∧ fs1 = fs2.
Proof.
  unfold transcript. intros (p1 & H1%try_map_Ok & [= <-])%bind_Ok (p2 & H2%try_map_Ok & Heq)%bind_Ok.
  injection Heq as Heq. apply (fields_inj _ _ _ _ H2 H1) in Heq. by injection Heq.
Qed.

Lemma transcript_total d fs :
  Forall (λ f : list byte, Z.of_nat (length f) < 2 ^ 32) (d :: fs) →
  ∃ t, transcript d fs = Ok t ∧ length t = (7 + sum_list_with (λ f : list byte, 4 + length f) (d :: fs))%nat.
Proof.
  intros Hall. unfold transcript.
  assert (∃ ps, try_map transcript_field (d :: fs) = Ok ps ∧
    length (mjoin ps) = sum_list_with (λ f : list byte, 4 + length f)%nat (d :: fs)) as (ps & -> & Hl).
  { induction Hall as [|f l Hf _ (ps & Hps & IH)]; [by exists []|]. cbn [try_map].
    rewrite (proj2 (transcript_field_Ok f _) (conj Hf eq_refl)), Hps. eexists. split; [done|].
    match goal with |- context [mjoin (?p :: ps)] => change (mjoin (p :: ps)) with (p ++ mjoin ps) end.
    rewrite !length_app, length_be_bytes, IH. cbn [sum_list_with]. lia. }
  eexists. split; [done|]. rewrite length_app, Hl. reflexivity.
Qed.

Section messages.
Context `{Crypto} `{Base64}.

Lemma binary_text n text a : binary n text = Ok a → text = b64_encode (array_bytes a).
Proof. unfold binary. intros Hb. h_inv. by bool_simpl. Qed.

Lemma public_matches_text public fp k :
  public_matches public fp = Ok k → public = b64_encode (array_bytes k).
Proof. unfold public_matches. intros Hb. h_inv. by eapply binary_text. Qed.

(** Everything an OPEN says but its signature. *)
Definition same_tcp_open (a b : TcpOpen) : Prop :=
  mkTcpOpen (to_cmd a) (to_protocol a) (to_sender_pubkey a) (to_sender_fingerprint a)
    (to_receiver_fingerprint a) (to_challenge a) (to_nonce a) (to_client_x25519 a) (to_remote a) [] =
  mkTcpOpen (to_cmd b) (to_protocol b) (to_sender_pubkey b) (to_sender_fingerprint b)
    (to_receiver_fingerprint b) (to_challenge b) (to_nonce b) (to_client_x25519 b) (to_remote b) [].

Lemma tcp_open_pins o1 o2 t :
  tcp_open_transcript o1 = Ok t → tcp_open_transcript o2 = Ok t → same_tcp_open o1 o2.
Proof.
  unfold tcp_open_transcript. intros H1 H2. h_inv. bool_simpl.
  match goal with
  | T1 : transcript _ _ = Ok t, T2 : transcript _ _ = Ok t |- _ =>
      destruct (transcript_inj _ _ _ _ _ T1 T2) as [_ Hf]
  end.
  injection Hf as Hsf Hsp Hrf Hch Hno Hcl Hre.
  repeat match goal with
  | Hu : unhex _ _ = Ok _ |- _ => apply h_unhex_exact in Hu
  | Hb : binary _ _ = Ok _ |- _ => apply binary_text in Hb
  | Hp : public_matches _ _ = Ok _ |- _ => apply public_matches_text in Hp
  end.
  unfold same_tcp_open. f_equal; congruence.
Qed.

(** A transcript says exactly what was signed. A transcript determines
    its domain and every field, so messages of different kinds never share
    one; and two TCP OPEN messages with one transcript agree on every field
    but the signature (sender, key, receiver, challenge, nonce, session key
    and target), since each field has a single accepted spelling. *)
Theorem transcript_binds d1 d2 fs1 fs2 t o1 o2 :
  (transcript d1 fs1 = Ok t → transcript d2 fs2 = Ok t → d1 = d2 ∧ fs1 = fs2) ∧
  (tcp_open_transcript o1 = Ok t → tcp_open_transcript o2 = Ok t → same_tcp_open o1 o2).
Proof. split; [apply transcript_inj|apply tcp_open_pins]. Qed.

(** The same for the QUIC OPEN, which also binds the TLS channel: equal
    transcripts mean equal messages (but the signature) and equal channel
    bindings, so the signature of an OPEN is for one connection. *)
Theorem quic_open_binds o1 o2 b1 b2 t :
  quic_open_transcript o1 b1 = Ok t → quic_open_transcript o2 b2 = Ok t →
  b1 = b2 ∧ qo_sender_fingerprint o1 = qo_sender_fingerprint o2 ∧
  qo_receiver_fingerprint o1 = qo_receiver_fingerprint o2 ∧
  qo_nonce o1 = qo_nonce o2 ∧ qo_remote o1 = qo_remote o2.
Proof.
  unfold quic_open_transcript. intros H1 H2. h_inv.
  match goal with
  | T1 : transcript _ _ = Ok t, T2 : transcript _ _ = Ok t |- _ =>
      destruct (transcript_inj _ _ _ _ _ T1 T2) as [_ Hf]
  end.
  injection Hf as Hsf Hrf Hno Hre Hbi.
  repeat match goal with Hu : unhex _ _ = Ok _ |- _ => apply h_unhex_exact in Hu end.
  split_and!; [by apply array_eq|congruence..].
Qed.

(** An acknowledgement answers one OPEN. If two TCP ACKs for two OPENs
    whose transcripts were retained have one transcript, then the OPENs
    agree on every field but the signature and the ACKs carry the same
    receiver key and session key; and no OPEN and no QUIC message has that
    transcript. *)
Theorem tcp_ack_binds a1 a2 o1 o2 r1 r2 t :
  tcp_open_transcript o1 = Ok r1 → tcp_open_transcript o2 = Ok r2 →
  tcp_ack_transcript a1 o1 r1 = Ok t → tcp_ack_transcript a2 o2 r2 = Ok t →
  r1 = r2 ∧ same_tcp_open o1 o2 ∧ ta_receiver_pubkey a1 = ta_receiver_pubkey a2 ∧
  ta_server_x25519 a1 = ta_server_x25519 a2 ∧
  (∀ o, tcp_open_transcript o ≠ Ok t) ∧ (∀ o b, quic_open_transcript o b ≠ Ok t) ∧
  (∀ a o r, quic_ack_transcript a o r ≠ Ok t).
Proof.
  intros O1 O2 H1 H2. unfold tcp_ack_transcript in H1, H2. h_inv.
  match goal with
  | T1 : transcript _ _ = Ok t, T2 : transcript _ _ = Ok t |- _ =>
      destruct (transcript_inj _ _ _ _ _ T1 T2) as [_ Hf]; rename T1 into HT
  end.
  injection Hf as Hr Hrp Hse.
  repeat match goal with
  | Hb : binary _ _ = Ok _ |- _ => apply binary_text in Hb
  | Hp : public_matches _ _ = Ok _ |- _ => apply public_matches_text in Hp
  end.
  split_and!; [done| |congruence|congruence| | |].
  - apply (tcp_open_pins o1 o2 r1); congruence.
  - intros o Ho. unfold tcp_open_transcript in Ho. h_inv.
    destruct (transcript_inj _ _ _ _ _ HT Ho) as [Hd _]. done.
  - intros o b Ho. unfold quic_open_transcript in Ho. h_inv.
    destruct (transcript_inj _ _ _ _ _ HT Ho) as [Hd _]. done.
  - intros a o r Ho. unfold quic_ack_transcript in Ho. h_inv.
    destruct (transcript_inj _ _ _ _ _ HT Ho) as [Hd _]. done.
Qed.

(** *** Honest parties complete the handshake *)

Section honest.
Context `{!CryptoLaws} `{!Base64Laws}.

Lemma binary_encode {n} (a : array n) : binary n (b64_encode (array_bytes a)) = Ok a.
Proof.
  unfold binary. rewrite b64_length, length_array, Nat.eqb_refl. cbn.
  rewrite b64_decode_encode. cbn. rewrite to_array_bytes. cbn. by rewrite bool_decide_eq_true_2.
Qed.

Lemma public_matches_own secret :
  public_matches (b64_encode (array_bytes (sk_public secret)))
    (fingerprint_of_bytes (array_bytes (sk_public secret))) = Ok (sk_public secret).
Proof.
  unfold public_matches. rewrite binary_encode. cbn [mbind result_bind].
  unfold fingerprint_from_public_key_b64. rewrite b64_decode_encode. cbn [ok_or mbind result_bind map_err].
  rewrite bool_decide_eq_true_2 by done. done.
Qed.

Lemma sign_own secret m : sign (generate_identity secret) m = Ok (b64_encode (array_bytes (sk_sign secret m))).
Proof.
  unfold sign, sign_message, generate_identity. cbn [secret_key_b64].
  rewrite b64_decode_encode. cbn. by rewrite to_array_bytes.
Qed.

Lemma verify_own secret m :
  key_weak (sk_public secret) = false →
  verify (b64_encode (array_bytes (sk_public secret))) m
    (b64_encode (array_bytes (sk_sign secret m))) = Ok ().
Proof.
  intros Hw. unfold verify. rewrite !binary_encode. cbn [mbind result_bind].
  unfold verify_message. rewrite !b64_decode_encode. cbn. rewrite !to_array_bytes. cbn.
  rewrite sk_public_valid. cbn. by rewrite strict_loose by (by apply sign_verifies).
Qed.

Lemma h_fingerprint_own public : ∃ a, h_fingerprint (fingerprint_of_bytes public) = Ok a.
Proof.
  destruct (fingerprint_of_bytes_spec public) as [[p Hp] _]. exists p. unfold h_fingerprint. by rewrite Hp.
Qed.

Lemma h_unhex_own {n} (a : array n) : unhex n (hex (array_bytes a)) = Ok a.
Proof. by apply h_unhex_exact. Qed.

Lemma length_own public : length (fingerprint_of_bytes public) = 28%nat.
Proof. apply fingerprint_of_bytes_spec. Qed.

Lemma context_new_own rsk random now :
  ∃ m, context_new (generate_identity rsk) random now =
    Ok (mkContext m (generate_identity rsk) (now + READ_WINDOW) false) ∧
    challenge_validate m = Ok () ∧ tc_challenge m = hex (array_bytes random) ∧
    tc_receiver_fingerprint m = fingerprint_of_bytes (array_bytes (sk_public rsk)).
Proof.
  set (m := mkTcpChallenge (lit "fang.tcp.challenge") TCP
    (fingerprint_of_bytes (array_bytes (sk_public rsk))) (hex (array_bytes random))).
  assert (challenge_validate m = Ok ()) as Hm.
  { unfold challenge_validate, m. cbn [tc_cmd tc_protocol tc_receiver_fingerprint tc_challenge].
    destruct (h_fingerprint_own (array_bytes (sk_public rsk))) as [a ->]. by rewrite h_unhex_own. }
  exists m. split_and!; [|done..]. unfold context_new.
  change (mkTcpChallenge _ _ _ _) with m. cbv zeta. rewrite Hm. cbn [mbind result_bind].
  cbn [Pelt.fingerprint public_key_b64 generate_identity]. by rewrite public_matches_own.
Qed.

Lemma remote_length rem : remote rem = Ok () → (length rem ≤ 512)%nat.
Proof. intros Hr%h_require_Ok. bool_simpl. lia. Qed.

(** The OPEN an honest sender builds has a transcript of at most 1000 bytes. *)
Lemma tcp_open_own ssk receiver_public challenge nonce client rem sig :
  remote rem = Ok () →
  ∃ t, (length t ≤ 1000)%nat ∧ tcp_open_transcript (mkTcpOpen (lit "fang.pipe") TCP
      (b64_encode (array_bytes (sk_public ssk))) (fingerprint_of_bytes (array_bytes (sk_public ssk)))
      (fingerprint_of_bytes receiver_public) (hex (array_bytes (n := 32) challenge))
      (hex (array_bytes (n := 16) nonce)) (b64_encode (array_bytes (n := 32) client)) rem sig) = Ok t.
Proof.
  intros Hr. pose proof (remote_length _ Hr). unfold tcp_open_transcript.
  cbn [to_cmd to_protocol to_sender_pubkey to_sender_fingerprint to_receiver_fingerprint to_challenge
       to_nonce to_client_x25519 to_remote].
  destruct (h_fingerprint_own (array_bytes (sk_public ssk))) as [a ->].
  destruct (h_fingerprint_own receiver_public) as [b ->].
  rewrite Hr, public_matches_own, !h_unhex_own, binary_encode.
  cbn [h_require bool_decide mbind result_bind].
  rewrite !bool_decide_eq_true_2 by done. cbn [h_require andb mbind result_bind].
  match goal with |- context [transcript ?d ?fs] => destruct (transcript_total d fs) as (t & Ht & Hl) end.
  { repeat constructor; rewrite ?length_own, ?length_array; try (cbn; lia). }
  exists t. split; [|done]. rewrite Hl. cbn [sum_list_with].
  rewrite !length_own, !length_array. cbn [length lit TCP String.list_byte_of_string]. cbn. lia.
Qed.

Lemma tcp_ack_own o retained rsk server sig :
  o.(to_receiver_fingerprint) = fingerprint_of_bytes (array_bytes (sk_public rsk)) →
  (length retained ≤ 1000)%nat →
  ∃ t, tcp_ack_transcript (mkTcpAck (lit "fang.tcp.ack") true TCP SESSION
      (b64_encode (array_bytes (sk_public rsk))) (fingerprint_of_bytes (array_bytes (sk_public rsk)))
      o.(to_sender_fingerprint) o.(to_challenge) o.(to_nonce) o.(to_client_x25519)
      (b64_encode (array_bytes (n := 32) server)) o.(to_remote) sig) o retained = Ok t.
Proof.
  intros Ho Hl. unfold tcp_ack_transcript.
  cbn [ta_cmd ta_ok ta_protocol ta_session ta_receiver_pubkey ta_receiver_fingerprint
       ta_sender_fingerprint ta_challenge ta_nonce ta_client_x25519 ta_server_x25519 ta_remote].
  rewrite !bool_decide_eq_true_2 by done. cbn [h_require andb mbind result_bind].
  rewrite public_matches_own, binary_encode. cbn [mbind result_bind].
  match goal with |- context [transcript ?d ?fs] => destruct (transcript_total d fs) as (t & Ht & _) end;
    [|by eexists].
  repeat constructor; rewrite ?length_array; try (cbn; lia).
Qed.

Lemma tcp_open_new_own ssk receiver_public m (random : array 32) nonce client rem :
  key_weak (sk_public ssk) = false → challenge_validate m = Ok () → remote rem = Ok () →
  tc_challenge m = hex (array_bytes random) →
  tc_receiver_fingerprint m = fingerprint_of_bytes receiver_public →
  ∃ o r, tcp_open_new (generate_identity ssk) m rem client nonce = Ok o ∧
    tcp_open_transcript o = Ok r ∧ (length r ≤ 1000)%nat ∧ o.(to_challenge) = hex (array_bytes random) ∧
    o.(to_receiver_fingerprint) = fingerprint_of_bytes receiver_public ∧
    verify o.(to_sender_pubkey) r o.(to_signature) = Ok ().
Proof.
  intros Hw Hm Hr Hc Hfp.
  destruct (tcp_open_own ssk receiver_public random nonce client rem [] Hr) as (r & Hl & HT).
  eexists _, r. split_and!.
  - unfold tcp_open_new. rewrite Hm. cbn [mbind result_bind]. rewrite Hc, Hfp.
    cbv zeta.
    cbn [public_key_b64 Pelt.fingerprint generate_identity]. rewrite HT.
    cbn [mbind result_bind]. rewrite sign_own. reflexivity.
  - exact HT.
  - done.
  - done.
  - done.
  - by apply verify_own.
Qed.

Lemma tcp_ack_new_own o r rsk server :
  key_weak (sk_public rsk) = false → (length r ≤ 1000)%nat →
  o.(to_receiver_fingerprint) = fingerprint_of_bytes (array_bytes (sk_public rsk)) →
  ∃ a t, tcp_ack_new o r (generate_identity rsk) server = Ok a ∧ tcp_ack_transcript a o r = Ok t ∧
    verify a.(ta_receiver_pubkey) t a.(ta_signature) = Ok ().
Proof.
  intros Hw Hl Ho. destruct (tcp_ack_own o r rsk server [] Ho Hl) as [t Ht].
  eexists _, t. split_and!.
  - unfold tcp_ack_new. cbv zeta.
    cbn [public_key_b64 Pelt.fingerprint generate_identity]. rewrite Ht. cbn [mbind result_bind]. rewrite sign_own. reflexivity.
  - exact Ht.
  - by apply verify_own.
Qed.

(** An honest TCP handshake completes. For every acceptable target, the
    receiver's context issues a challenge, the sender's OPEN for it is
    built, its transcript is the one that was signed and its signature
    verifies under the sender's key; the context accepts it before the
    deadline, and once it is consumed no OPEN passes again; the receiver's
    ACK is built, and parses against the same OPEN to the transcript its
    signature verifies. *)
Theorem tcp_handshake_honest ssk rsk rem random nonce client server now later :
  key_weak (sk_public ssk) = false → key_weak (sk_public rsk) = false →
  remote rem = Ok () → later < now + READ_WINDOW →
  ∃ ctx open retained ctx' ack t,
    context_new (generate_identity rsk) random now = Ok ctx ∧
    tcp_open_new (generate_identity ssk) ctx.(message) rem client nonce = Ok open ∧
    tcp_open_transcript open = Ok retained ∧
    verify open.(to_sender_pubkey) retained open.(to_signature) = Ok () ∧
    context_check ctx later open = Ok () ∧ context_consume ctx later open = Ok ctx' ∧
    (∀ again o, context_check ctx' again o = rejected) ∧
    tcp_ack_new open retained (generate_identity rsk) server = Ok ack ∧
    tcp_ack_transcript ack open retained = Ok t ∧
    verify ack.(ta_receiver_pubkey) t ack.(ta_signature) = Ok ().
Proof.
  intros Hws Hwr Hr Hlater. destruct (context_new_own rsk random now) as (m & Hctx & Hm & Hc & Hfp).
  destruct (tcp_open_new_own ssk (array_bytes (sk_public rsk)) m random nonce client rem)
    as (o & r & Ho & HT & Hl & Hch & Hrf & Hv); try done.
  destruct (tcp_ack_new_own o r rsk server) as (ack & t & Hack & Ht & Hva); try done.
  set (ctx' := mkContext m (generate_identity rsk) (now + READ_WINDOW) true).
  assert (context_check (mkContext m (generate_identity rsk) (now + READ_WINDOW) false) later o = Ok ()) as Hk.
  { unfold context_check, check_binding. cbn [consumed deadline message receiver].
    rewrite Hch, Hrf, Hc. cbn [negb andb generate_identity Pelt.fingerprint].
    rewrite (proj2 (Z.ltb_lt _ _) Hlater), !bool_decide_eq_true_2 by done. done. }
  eexists _, o, r, ctx', ack, t. split_and!; try done.
  unfold context_consume, consume_binding. unfold context_check in Hk. by rewrite Hk.
Qed.

End honest.

End messages.
End HandshakeSpec.

(** ** A concrete handshake *)

Module HandshakeDemo.
Import Pelt Handshake HandshakeSpec Toy.

Definition sender_key : array 32 := key_of 7.
Definition receiver_key : array 32 := key_of 9.
Definition demo_remote : str := lit "127.0.0.1:80".

Definition demo_run : hs (TcpOpen * list byte * TcpAck * list byte) :=
  ctx ← context_new (generate_identity receiver_key) (key_of 5) 100;
  open ← tcp_open_new (generate_identity sender_key) ctx.(message) demo_remote (key_of 3)
    (toy_array 16 (lit "nonce"));
  retained ← tcp_open_transcript open;
  ack ← tcp_ack_new open retained (generate_identity receiver_key) (key_of 4);
  t ← tcp_ack_transcript ack open retained;
  Ok (open, retained, ack, t).

Lemma quic_open_binds_witness : ∃ o t,
  quic_open_new (generate_identity sender_key) (Pelt.fingerprint (generate_identity receiver_key))
    demo_remote (key_of 5) (toy_array 16 (lit "nonce")) = Ok o ∧
  quic_open_transcript o (key_of 5) = Ok t ∧
  ∀ o' b, quic_open_transcript o' b = Ok t →
    key_of 5 = b ∧ qo_sender_fingerprint o = qo_sender_fingerprint o' ∧
    qo_receiver_fingerprint o = qo_receiver_fingerprint o' ∧
    qo_nonce o = qo_nonce o' ∧ qo_remote o = qo_remote o'.
Proof.
  eexists _, _. split; [vm_compute; reflexivity|]. split; [vm_compute; reflexivity|].
  intros o' b Ho'. eapply quic_open_binds; [|exact Ho']. vm_compute. reflexivity.
Defined.

Lemma tcp_ack_binds_witness :
  match demo_run with
  | Ok (o, r, a, t) =>
      tcp_open_transcript o = Ok r ∧ tcp_ack_transcript a o r = Ok t ∧
      ∀ a' o' r', tcp_open_transcript o' = Ok r' → tcp_ack_transcript a' o' r' = Ok t → r = r'
  | Err _ => False
  end.
Proof.
  destruct demo_run as [[[[o r] a] t]|] eqn:Hrun; [|vm_compute in Hrun; discriminate Hrun].
  unfold demo_run in Hrun. h_inv. simplify_eq. split_and!; [done|done|].
  intros a' o' r' Ho' Ha'. eapply tcp_ack_binds; eassumption.
Defined.

Lemma tcp_handshake_honest_witness :
  ∃ ctx open retained ctx' ack t,
    context_new (generate_identity receiver_key) (key_of 5) 100 = Ok ctx ∧
    tcp_open_new (generate_identity sender_key) ctx.(message) demo_remote (key_of 3)
      (toy_array 16 (lit "nonce")) = Ok open ∧
    tcp_open_transcript open = Ok retained ∧
    verify open.(to_sender_pubkey) retained open.(to_signature) = Ok () ∧
    context_check ctx 103 open = Ok () ∧ context_consume ctx 103 open = Ok ctx' ∧
    (∀ again o, context_check ctx' again o = rejected) ∧
    tcp_ack_new open retained (generate_identity receiver_key) (key_of 4) = Ok ack ∧
    tcp_ack_transcript ack open retained = Ok t ∧
    verify ack.(ta_receiver_pubkey) t ack.(ta_signature) = Ok ().
Proof. apply (tcp_handshake_honest sender_key receiver_key); vm_compute; reflexivity. Defined.

End HandshakeDemo.
