(* ===== verification/Authority.v ===== *)
(** * Runtime inbound authority ([werewolfd/src/authority.rs])

    The gate every authenticated session passes: tickets carry the peer's
    generation and the Silver epoch; [reserve] turns a ticket into a leased
    session entry within the quotas; [publish] and [submit] ask again, under
    the same lock, whether the ticket is still current; [deny_peer],
    [removed], [lock] and [open_after_durable] change who is current.

    An operation runs under the mutex, so it is one atomic step on the state
    [Authority]; it returns [None] when the code returns [rejected()], its
    one error. [poisoned] is the mutex's poison flag: a panic of the closure
    [submit] runs sets it, and every operation but the release of a lease
    then fails. Sessions' cancellation channels are the [cancel] flags; the
    asynchronous waiters on them are not modelled. *)

From stdpp Require Import gmap.
From S2P Require Export Pelt.

Local Open Scope Z_scope.

Module Authority.

Definition GLOBAL_SESSIONS : nat := Z.to_nat 1024.
Definition PEER_SESSIONS : nat := 64.
Definition CONNECTION_SESSIONS : nat := 64.
Definition PEER_GENERATIONS : nat := Z.to_nat 1024.

Notation Peer := (array 8).

Inductive PeerAuthority : Type := Authorized | RuntimeDeniedPendingDurability | Revoked.
#[export] Instance peer_authority_eq_dec : EqDecision PeerAuthority.
Proof. solve_decision. Defined.

Record Generation : Type := mkGeneration {
  number : Z;
  state : PeerAuthority
}.

Inductive Transport : Type :=
| Tcp
| Quic (connection : Z).
#[export] Instance transport_eq_dec : EqDecision Transport.
Proof. solve_decision. Defined.

Record AuthorityTicket : Type := mkTicket {
  t_peer : Peer;
  generation : Z;
  t_epoch : Z
}.

Record Entry : Type := mkEntry {
  e_ticket : AuthorityTicket;
  transport : Transport;
  active : bool;
  cancel : bool
}.

Record Gate : Type := mkGate {
  epoch : Z;
  locked : bool;
  next : Z;
  peers : gmap Peer Generation;
  sessions : gmap Z Entry
}.

Record Authority : Type := mkAuthority {
  gate : Gate;
  poisoned : bool;
  silver : Z
}.

Definition initial (locked : bool) : Authority :=
  mkAuthority (mkGate 1 locked 1 ∅ ∅) false 1.

(** ** Operations under the gate

    The state after the operation, and its result or [rejected()]. *)

Definition gated (A : Type) : Type := Gate → Gate * option A.

#[export] Instance gated_ret : MRet gated := λ A a g, (g, Some a).
#[export] Instance gated_bind : MBind gated := λ A B f m g,
  match m g with (g', Some a) => f a g' | (g', None) => (g', None) end.

Definition g_require (b : bool) : gated () := λ g, (g, if b then Some () else None).
Definition g_get : gated Gate := λ g, (g, Some g).
Definition g_put (g : Gate) : gated () := λ _, (g, Some ()).
Definition g_some {A} (o : option A) : gated A := λ g, (g, o).

(** [self.gate()?] and the operation behind it. *)
Definition locking {A} (m : gated A) (a : Authority) : Authority * option A :=
  if a.(poisoned) then (a, None)
  else let '(g, r) := m a.(gate) in (mkAuthority g false a.(silver), r).

Definition set_next (n : Z) (g : Gate) : Gate := mkGate g.(epoch) g.(locked) n g.(peers) g.(sessions).
Definition set_peers (p : gmap Peer Generation) (g : Gate) : Gate :=
  mkGate g.(epoch) g.(locked) g.(next) p g.(sessions).
Definition set_sessions (s : gmap Z Entry) (g : Gate) : Gate :=
  mkGate g.(epoch) g.(locked) g.(next) g.(peers) s.

Definition allocate : gated Z :=
  g ← g_get;
  n ← g_some (u64_checked_add g.(next) 1);
  _ ← g_put (set_next n g);
  mret g.(next).

Definition current (g : Gate) (t : AuthorityTicket) : bool :=
  negb g.(locked) && (g.(epoch) =? t.(t_epoch))
  && match g.(peers) !! t.(t_peer) with
     | Some gen => (gen.(number) =? t.(generation)) && bool_decide (gen.(state) = Authorized)
     | None => false
     end.

(** [gate.sessions.values().filter(p).count()]. *)
Definition count_sessions (p : Entry → bool) (m : gmap Z Entry) : nat :=
  size (filter (λ ke : Z * Entry, p ke.2 = true) m).

Definition is_locked (a : Authority) : bool :=
  default true (locking (g ← g_get; mret g.(locked)) a).2.

Definition connection : gated Z := allocate.

(** A new generation for a peer not in the map. *)
Definition enter_peer (peer : Peer) (st : PeerAuthority) : gated () :=
  g ← g_get;
  _ ← g_require (size g.(peers) <? PEER_GENERATIONS)%nat;
  n ← allocate;
  g ← g_get;
  g_put (set_peers (<[peer := mkGeneration n st]> g.(peers)) g).

Definition ticket (peer : Peer) : gated AuthorityTicket :=
  g ← g_get;
  _ ← g_require (negb g.(locked));
  _ ← (if bool_decide (is_Some (g.(peers) !! peer)) then mret () else enter_peer peer Authorized);
  g ← g_get;
  gen ← g_some (g.(peers) !! peer);
  _ ← g_require (bool_decide (gen.(state) = Authorized));
  mret (mkTicket peer gen.(number) g.(epoch)).

(** The lease is the session's ID. *)
Definition reserve (t : AuthorityTicket) (tr : Transport) : gated Z :=
  g ← g_get;
  _ ← g_require (current g t);
  _ ← g_require (size g.(sessions) <? GLOBAL_SESSIONS)%nat;
  _ ← g_require (count_sessions (λ e, bool_decide (e.(e_ticket).(t_peer) = t.(t_peer))) g.(sessions)
                 <? PEER_SESSIONS)%nat;
  _ ← match tr with
      | Quic _ => g_require (count_sessions (λ e, bool_decide (e.(transport) = tr)) g.(sessions)
                             <? CONNECTION_SESSIONS)%nat
      | Tcp => mret ()
      end;
  id ← allocate;
  g ← g_get;
  _ ← g_put (set_sessions (<[id := mkEntry t tr false false]> g.(sessions)) g);
  mret id.

(** [entry.cancel.send_replace(true)] for the entries [p] selects. *)
Definition cancel_sessions (p : Entry → bool) (m : gmap Z Entry) : gmap Z Entry :=
  (λ e, if p e then mkEntry e.(e_ticket) e.(transport) e.(active) true else e) <$> m.

Definition deny_peer (peer : Peer) : gated () :=
  g ← g_get;
  _ ← match g.(peers) !! peer with
      | None => enter_peer peer RuntimeDeniedPendingDurability
      | Some gen =>
          g_put (set_peers (<[peer := mkGeneration gen.(number) RuntimeDeniedPendingDurability]>
                              g.(peers)) g)
      end;
  g ← g_get;
  g_put (set_sessions
           (cancel_sessions (λ e, bool_decide (e.(e_ticket).(t_peer) = peer)) g.(sessions)) g).

Definition removed (peer : Peer) : gated () :=
  g ← g_get;
  _ ← g_require match g.(peers) !! peer with
                | Some gen => bool_decide (gen.(state) = RuntimeDeniedPendingDurability)
                | None => false
                end;
  g_put (set_peers (delete peer g.(peers)) g).

Definition peer_state (peer : Peer) (pack_member : bool) : gated PeerAuthority :=
  g ← g_get;
  mret match g.(peers) !! peer with
       | Some gen => gen.(state)
       | None => if pack_member then Authorized else Revoked
       end.

(** [lock] also publishes the epoch on [silver]; an exhausted counter stays
    at its largest value and the call fails, with the gate locked. *)
Definition lock_gate : gated Z :=
  g ← g_get;
  let advanced := u64_checked_add g.(epoch) 1 in
  let e := default U64_MAX advanced in
  _ ← g_put (mkGate e true g.(next) g.(peers) (cancel_sessions (λ _, true) g.(sessions)));
  _ ← g_require (bool_decide (is_Some advanced));
  mret e.

Definition lock (a : Authority) : Authority * option Z :=
  if a.(poisoned) then (a, None)
  else let '(g, r) := lock_gate a.(gate) in (mkAuthority g false g.(epoch), r).

Definition epoch_of : gated Z := g ← g_get; mret g.(epoch).

Definition open_after_durable (expected_epoch : Z) : gated () :=
  g ← g_get;
  _ ← g_require (g.(epoch) =? expected_epoch);
  e ← g_some (u64_checked_add g.(epoch) 1);
  g_put (mkGate e false g.(next) g.(peers) g.(sessions)).

Definition publish (id : Z) : gated () :=
  g ← g_get;
  e ← g_some (g.(sessions) !! id);
  _ ← g_require (current g e.(e_ticket));
  g_put (set_sessions (<[id := mkEntry e.(e_ticket) e.(transport) true e.(cancel)]> g.(sessions)) g).

(** [submit]: [poll] is the closure's result, [None] when it panics, which
    poisons the mutex. *)
Definition submit {T} (id : Z) (poll : option T) (a : Authority) : Authority * option T :=
  if a.(poisoned) then (a, None)
  else match a.(gate).(sessions) !! id with
       | None => (a, None)
       | Some e =>
           if current a.(gate) e.(e_ticket) then
             match poll with
             | Some x => (a, Some x)
             | None => (mkAuthority a.(gate) true a.(silver), None)
             end
           else (a, None)
       end.

(** The lease's [Drop]: the entry goes, the mutex poisoned or not. *)
Definition drop_lease (id : Z) (a : Authority) : Authority :=
  mkAuthority (set_sessions (delete id a.(gate).(sessions)) a.(gate)) a.(poisoned) a.(silver).

(** What [cancelled] waits for: a missing entry resolves at once. *)
Definition cancelled (id : Z) (a : Authority) : bool :=
  if a.(poisoned) then true
  else match a.(gate).(sessions) !! id with Some e => e.(cancel) | None => true end.

(** The condition [cleanup] waits for. *)
Definition cleaned (peer : option Peer) (a : Authority) : bool :=
  (count_sessions (λ e, match peer with
                        | Some p => bool_decide (p = e.(e_ticket).(t_peer))
                        | None => true
                        end) a.(gate).(sessions) =? 0)%nat.

(** The callers' entry points take the fingerprint's text. *)
Definition ticket_text (fingerprint : str) (a : Authority) : Authority * option AuthorityTicket :=
  match Pelt.parse_fingerprint fingerprint with Some p => locking (ticket p) a | None => (a, None) end.
Definition deny_peer_text (fingerprint : str) (a : Authority) : Authority * option () :=
  match Pelt.parse_fingerprint fingerprint with Some p => locking (deny_peer p) a | None => (a, None) end.
Definition removed_text (fingerprint : str) (a : Authority) : Authority * option () :=
  match Pelt.parse_fingerprint fingerprint with Some p => locking (removed p) a | None => (a, None) end.

End Authority.

(** ** The gate's invariant, and who is current *)

Module AuthoritySpec.
Import Authority.

(** *** Counting sessions *)

Lemma count_insert p m id e :
  m !! id = None →
  count_sessions p (<[id := e]> m) = (count_sessions p m + if p e then 1 else 0)%nat.
Proof.
  intros Hid. unfold count_sessions. destruct (p e) eqn:Hp.
  - rewrite map_filter_insert_True by done. rewrite map_size_insert_None; [lia|].
    apply map_lookup_filter_None. by left.
  - rewrite map_filter_insert_False by (cbn; congruence).
    rewrite delete_id by done. lia.
Qed.

Lemma count_delete p m id : (count_sessions p (delete id m) ≤ count_sessions p m)%nat.
Proof.
  unfold count_sessions. rewrite map_filter_delete. apply map_subseteq_size, delete_subseteq.
Qed.

Lemma count_update p m id e e' :
  m !! id = Some e → p e' = p e → count_sessions p (<[id := e']> m) = count_sessions p m.
Proof.
  intros He Hp. rewrite <-(insert_delete_id m id e He) at 2.
  rewrite <-insert_delete_eq, !count_insert by apply lookup_delete_eq. by rewrite Hp.
Qed.

Lemma count_fmap p f m : (∀ e, p (f e) = p e) → count_sessions p (f <$> m) = count_sessions p m.
Proof.
  intros Hp. unfold count_sessions. rewrite map_filter_fmap, map_size_fmap. f_equal.
  apply map_filter_ext. intros i e _. cbn. by rewrite Hp.
Qed.

Definition of_peer (p : Peer) (e : Entry) : bool := bool_decide (e.(e_ticket).(t_peer) = p).
Definition of_transport (t : Transport) (e : Entry) : bool := bool_decide (e.(transport) = t).

(** *** The invariant *)

Record gate_inv (g : Gate) : Prop := {
  gi_epoch : 1 ≤ g.(epoch) ≤ U64_MAX;
  gi_next : 1 ≤ g.(next) ≤ U64_MAX;
  gi_peers : (size g.(peers) ≤ PEER_GENERATIONS)%nat;
  gi_global : (size g.(sessions) ≤ GLOBAL_SESSIONS)%nat;
  gi_peer : ∀ p, (count_sessions (of_peer p) g.(sessions) ≤ PEER_SESSIONS)%nat;
  gi_connection : ∀ c, (count_sessions (of_transport (Quic c)) g.(sessions) ≤ CONNECTION_SESSIONS)%nat;
  gi_number : ∀ p gen, g.(peers) !! p = Some gen → gen.(number) < g.(next);
  gi_unique : ∀ p q gp gq, g.(peers) !! p = Some gp → g.(peers) !! q = Some gq →
    gp.(number) = gq.(number) → p = q;
  gi_session : ∀ id e, g.(sessions) !! id = Some e →
    id < g.(next) ∧ e.(e_ticket).(generation) < g.(next) ∧ e.(e_ticket).(t_epoch) ≤ g.(epoch);
  gi_locked : g.(locked) = true → ∀ id e, g.(sessions) !! id = Some e → e.(cancel) = true;
  gi_denied : ∀ id e, g.(sessions) !! id = Some e → g.(epoch) = e.(e_ticket).(t_epoch) →
    current g e.(e_ticket) = false → e.(cancel) = true
}.

Lemma initial_inv l : gate_inv (initial l).(gate).
Proof.
  split; cbn; try (intros; unfold U64_MAX; lia); try (intros; set_solver).
  all: try by intros *; rewrite lookup_empty.
  all: unfold count_sessions; intros; rewrite ?map_filter_empty, ?map_size_empty; lia.
Qed.

(** *** Each operation as one case analysis *)

#[local] Arguments u64_checked_add : simpl never.

Lemma checked_add_Some z n : u64_checked_add z 1 = Some n → n = z + 1 ∧ n ≤ U64_MAX.
Proof. unfold u64_checked_add, U64_MAX. case_match; [|done]. intros [= <-]. lia. Qed.

Lemma allocate_eq g :
  allocate g = match u64_checked_add g.(next) 1 with
               | Some n => (set_next n g, Some g.(next))
               | None => (g, None)
               end.
Proof. unfold allocate, mbind, gated_bind. cbn [g_get g_some g_put]. by destruct (u64_checked_add _ _). Qed.

Lemma enter_peer_eq p st g :
  enter_peer p st g =
    if (size g.(peers) <? PEER_GENERATIONS)%nat then
      match u64_checked_add g.(next) 1 with
      | Some n => (set_peers (<[p := mkGeneration g.(next) st]> g.(peers)) (set_next n g), Some ())
      | None => (g, None)
      end
    else (g, None).
Proof.
  unfold enter_peer, mbind, gated_bind at 1 2 3 4. cbn [g_get g_require].
  destruct (_ <? _)%nat; [|done]. rewrite allocate_eq. by destruct (u64_checked_add _ _).
Qed.

Lemma ticket_eq p g :
  ticket p g =
    if g.(locked) then (g, None)
    else match g.(peers) !! p with
         | Some gen =>
             (g, if bool_decide (gen.(state) = Authorized)
                 then Some (mkTicket p gen.(number) g.(epoch)) else None)
         | None =>
             match enter_peer p Authorized g with
             | (g', Some _) => (g', Some (mkTicket p g.(next) g.(epoch)))
             | (g', None) => (g', None)
             end
         end.
Proof.
  unfold ticket, mbind, gated_bind. cbn [g_get g_require]. destruct (locked g); [done|]. cbn [negb].
  destruct (g.(peers) !! p) as [gen|] eqn:Hp.
  - rewrite bool_decide_eq_true_2 by (by eexists). cbn. rewrite Hp. cbn.
    by destruct (bool_decide _).
  - rewrite bool_decide_eq_false_2 by (intros [? ?]; congruence). rewrite enter_peer_eq.
    destruct (_ <? _)%nat; [|done]. destruct (u64_checked_add _ _); [|done]. cbn.
    rewrite lookup_insert_eq. done.
Qed.

Definition quota_ok (g : Gate) (t : AuthorityTicket) (tr : Transport) : bool :=
  (size g.(sessions) <? GLOBAL_SESSIONS)%nat
  && (count_sessions (of_peer t.(t_peer)) g.(sessions) <? PEER_SESSIONS)%nat
  && match tr with
     | Quic _ => (count_sessions (of_transport tr) g.(sessions) <? CONNECTION_SESSIONS)%nat
     | Tcp => true
     end.

Lemma reserve_eq t tr g :
  reserve t tr g =
    if current g t && quota_ok g t tr then
      match u64_checked_add g.(next) 1 with
      | Some n =>
          (set_sessions (<[g.(next) := mkEntry t tr false false]> g.(sessions)) (set_next n g),
           Some g.(next))
      | None => (g, None)
      end
    else (g, None).
Proof.
  unfold reserve, quota_ok, mbind, gated_bind. cbn [g_get g_require].
  destruct (current g t); [|done]. cbn [andb].
  destruct (size (sessions g) <? GLOBAL_SESSIONS)%nat; [|done]. cbn [andb].
  change (count_sessions _ (sessions g)) with (count_sessions (of_peer (t_peer t)) (sessions g)) at 1.
  destruct (count_sessions (of_peer (t_peer t)) (sessions g) <? PEER_SESSIONS)%nat; [|done]. cbn [andb].
  destruct tr as [|c]; cbn [mret gated_ret]; [|unfold of_transport; cbn [g_require];
    destruct (_ <? _)%nat; [|done]]; rewrite allocate_eq; by destruct (u64_checked_add _ _).
Qed.

Lemma deny_peer_eq p g :
  deny_peer p g =
    let entered :=
      match g.(peers) !! p with
      | None => enter_peer p RuntimeDeniedPendingDurability g
      | Some gen => (set_peers (<[p := mkGeneration gen.(number) RuntimeDeniedPendingDurability]>
                                  g.(peers)) g, Some ())
      end in
    match entered with
    | (g', Some _) => (set_sessions (cancel_sessions (of_peer p) g'.(sessions)) g', Some ())
    | (g', None) => (g', None)
    end.
Proof.
  unfold deny_peer, mbind, gated_bind. cbn [g_get].
  destruct (g.(peers) !! p); [done|]. rewrite enter_peer_eq.
  destruct (_ <? _)%nat; [|done]. by destruct (u64_checked_add _ _).
Qed.

(** *** The invariant is kept *)

Ltac inv_fields Hi :=
  destruct Hi as [Hep Hnx Hpe Hgl Hpr Hcn Hnum Hun Hse Hlk Hdn]; split; cbn [epoch locked next peers sessions set_next set_peers set_sessions].

Lemma set_next_inv g n : gate_inv g → u64_checked_add g.(next) 1 = Some n → gate_inv (set_next n g).
Proof.
  intros Hi [-> Hmax]%checked_add_Some. inv_fields Hi; try done; try lia.
  - intros p gen Hp. specialize (Hnum p gen Hp). lia.
  - intros id e He. specialize (Hse id e He). lia.
Qed.

(** Whether a ticket is current depends on the epoch, the lock and its peer. *)
Lemma current_same g g' t :
  g'.(epoch) = g.(epoch) → g'.(locked) = g.(locked) →
  g'.(peers) !! t.(t_peer) = g.(peers) !! t.(t_peer) → current g' t = current g t.
Proof. unfold current. by intros -> -> ->. Qed.

Lemma current_true g t :
  current g t = true ↔ g.(locked) = false ∧ g.(epoch) = t.(t_epoch) ∧
    ∃ gen, g.(peers) !! t.(t_peer) = Some gen ∧ gen.(number) = t.(generation) ∧ gen.(state) = Authorized.
Proof.
  unfold current. rewrite !andb_true_iff, negb_true_iff, Z.eqb_eq. split.
  - intros [[? ?] Hm]. destruct (peers g !! t_peer t) as [gen|] eqn:Hp; [|done].
    bool_simpl. eauto 8.
  - intros (? & ? & gen & -> & Hn & Hs). rewrite Hn, Z.eqb_refl, bool_decide_eq_true_2 by done. done.
Qed.

Lemma enter_peer_inv g p st :
  gate_inv g → g.(peers) !! p = None → gate_inv (enter_peer p st g).1.
Proof.
  intros Hi Hp. rewrite enter_peer_eq. destruct (_ <? _)%nat eqn:Hsz; [|done].
  destruct (u64_checked_add _ _) as [n|] eqn:Hn; [|done]. cbn [fst]. bool_simpl.
  pose proof (set_next_inv g n Hi Hn) as Hi'. apply checked_add_Some in Hn as [-> Hmax].
  inv_fields Hi'; try done.
  - rewrite map_size_insert_None by done. lia.
  - intros q gen. rewrite lookup_insert_Some. intros [[<- <-]|[_ Hq]]; [cbn; lia|by apply (Hnum q)].
  - intros q r gq gr. rewrite !lookup_insert_Some.
    intros [[<- <-]|[Hpq Hq]] [[<- <-]|[Hpr' Hr]]; [done| | |by apply Hun]; cbn [number]; intros Heq.
    + pose proof (gi_number g Hi r gr Hr). lia.
    + pose proof (gi_number g Hi q gq Hq). lia.
  - intros id e He Hepoch Hcur. apply (Hdn id e He Hepoch).
    destruct (decide (t_peer (e_ticket e) = p)) as [<-|Hne].
    + apply not_true_iff_false. intros (_ & _ & gen & Hg & _)%current_true. cbn in Hg. congruence.
    + rewrite <-Hcur. symmetry. apply current_same; [done..|]. cbn. by rewrite lookup_insert_ne.
Qed.

Lemma reserve_inv g t tr : gate_inv g → gate_inv (reserve t tr g).1.
Proof.
  intros Hi. rewrite reserve_eq. destruct (_ && _) eqn:Hg; [|done].
  destruct (u64_checked_add _ _) as [n|] eqn:Hn; [|done]. cbn [fst].
  apply andb_true_iff in Hg as [Hcur Hq]. unfold quota_ok in Hq. bool_simpl.
  assert (sessions g !! next g = None) as Hfresh.
  { apply eq_None_not_Some. intros [e He]. pose proof (gi_session g Hi _ _ He). lia. }
  pose proof (proj1 (current_true g t) Hcur) as (Hl & Hep' & gen & Hgen & Hnum' & Hst).
  pose proof (gi_number g Hi _ _ Hgen).
  pose proof (set_next_inv g n Hi Hn) as Hi'. apply checked_add_Some in Hn as [-> Hmax].
  inv_fields Hi'; try done.
  - rewrite map_size_insert_None by done. lia.
  - intros p. rewrite count_insert by done. unfold of_peer at 2. cbn [e_ticket].
    case_bool_decide as Hp; [subst p; lia|]. specialize (Hpr p). cbn in Hpr. lia.
  - intros c. rewrite count_insert by done. unfold of_transport at 2. cbn [transport].
    case_bool_decide as Hc; [subst tr; bool_simpl; lia|]. specialize (Hcn c). cbn in Hcn. lia.
  - intros id e. rewrite lookup_insert_Some. intros [[<- <-]|[_ He]]; [cbn; lia|by apply Hse].
  - intros Hlt. cbn in Hlt. congruence.
  - intros id e. rewrite lookup_insert_Some. intros [[<- <-]|[_ He]] He' Hc; [|by apply (Hdn id e)].
    cbn [e_ticket] in Hc. rewrite (current_same g) in Hc by done. congruence.
Qed.

Lemma cancel_lookup f m id e :
  cancel_sessions f m !! id = Some e →
  ∃ e0, m !! id = Some e0 ∧ e.(e_ticket) = e0.(e_ticket) ∧ e.(transport) = e0.(transport) ∧
    e.(cancel) = f e0 || e0.(cancel).
Proof.
  unfold cancel_sessions. rewrite lookup_fmap_Some. intros (e0 & <- & He). exists e0.
  split; [done|]. by destruct (f e0).
Qed.

Lemma cancel_count p f m :
  (∀ e c, p (mkEntry e.(e_ticket) e.(transport) e.(active) c) = p e) →
  count_sessions p (cancel_sessions f m) = count_sessions p m.
Proof. intros Hp. apply count_fmap. intros e. destruct (f e); [apply Hp|done]. Qed.

Lemma cancel_inv g f e' l' :
  gate_inv g → g.(epoch) ≤ e' ≤ U64_MAX →
  (l' = true → g.(locked) = true ∨ ∀ e, f e = true) →
  (e' = g.(epoch) ∧ l' = g.(locked) ∨ ∀ e, f e = true) →
  gate_inv (mkGate e' l' g.(next) g.(peers) (cancel_sessions f g.(sessions))).
Proof.
  intros Hi He' Hl1 Hsame. inv_fields Hi; try done; try lia.
  - unfold cancel_sessions. by rewrite map_size_fmap.
  - intros p. by rewrite cancel_count.
  - intros c. by rewrite cancel_count.
  - intros id e (e0 & H0 & -> & _)%cancel_lookup. specialize (Hse id e0 H0). lia.
  - intros Hl id e (e0 & H0 & _ & _ & ->)%cancel_lookup.
    destruct (Hl1 Hl) as [Hgl'|Hall]; [|by rewrite Hall]. by rewrite (Hlk Hgl' id e0 H0), orb_true_r.
  - intros id e (e0 & H0 & Ht & _ & ->)%cancel_lookup Hee Hc. rewrite Ht in *.
    destruct Hsame as [[-> ->]|Hall]; [|by rewrite Hall].
    rewrite (Hdn id e0 H0 Hee), orb_true_r; [done|]. rewrite <-Hc. by apply current_same.
Qed.

Lemma deny_known_inv g p gen :
  gate_inv g → g.(peers) !! p = Some gen →
  gate_inv (set_sessions (cancel_sessions (of_peer p) g.(sessions))
    (set_peers (<[p := mkGeneration gen.(number) RuntimeDeniedPendingDurability]> g.(peers)) g)).
Proof.
  intros Hi Hp. inv_fields Hi; try done.
  - rewrite map_size_insert_Some by (by eexists). done.
  - unfold cancel_sessions. by rewrite map_size_fmap.
  - intros q. by rewrite cancel_count.
  - intros c. by rewrite cancel_count.
  - intros q gq. rewrite lookup_insert_Some. intros [[<- <-]|[_ Hq]]; [exact (Hnum p gen Hp)|by apply (Hnum q)].
  - intros q r gq gr. rewrite !lookup_insert_Some.
    intros [[<- <-]|[Hpq Hq]] [[<- <-]|[Hpr' Hr]]; cbn [number]; intros Heq;
      [done|by eapply Hun|by eapply Hun|by eapply Hun].
  - intros id e (e0 & H0 & -> & _)%cancel_lookup. by apply (Hse id e0).
  - intros Hl id e (e0 & H0 & _ & _ & ->)%cancel_lookup. by rewrite (Hlk Hl id e0 H0), orb_true_r.
  - intros id e (e0 & H0 & Ht & _ & ->)%cancel_lookup Hee Hc. rewrite Ht in *.
    unfold of_peer. case_bool_decide as Hpe'; [done|]. cbn [orb]. apply (Hdn id e0 H0 Hee).
    rewrite <-Hc. symmetry. apply current_same; [done..|]. cbn. by rewrite lookup_insert_ne.
Qed.

Lemma deny_peer_inv g p : gate_inv g → gate_inv (deny_peer p g).1.
Proof.
  intros Hi. rewrite deny_peer_eq. cbn zeta. destruct (g.(peers) !! p) as [gen|] eqn:Hp.
  { exact (deny_known_inv g p gen Hi Hp). }
  pose proof (enter_peer_inv g p RuntimeDeniedPendingDurability Hi Hp) as Hi'.
  destruct (enter_peer p _ g) as [g' [[]|]]; [|done]. cbn [fst] in *.
  apply (cancel_inv g' (of_peer p) (epoch g') (locked g')); auto.
  split; [lia|]. apply Hi'.
Qed.

Lemma ticket_inv g p : gate_inv g → gate_inv (ticket p g).1.
Proof.
  intros Hi. rewrite ticket_eq. destruct (locked g); [done|].
  destruct (g.(peers) !! p) as [gen|] eqn:Hp; [done|].
  pose proof (enter_peer_inv g p Authorized Hi Hp) as Hi'.
  by destruct (enter_peer p _ g) as [g' [[]|]].
Qed.

Lemma removed_inv g p : gate_inv g → gate_inv (removed p g).1.
Proof.
  intros Hi. unfold removed, mbind, gated_bind. cbn [g_get g_require].
  destruct (g.(peers) !! p) as [gen|] eqn:Hp; [|done].
  destruct (bool_decide _) eqn:Hst; [|done]. cbn [fst g_put]. bool_simpl.
  inv_fields Hi; try done.
  - etrans; [apply map_subseteq_size, delete_subseteq|done].
  - intros q gq [_ Hq]%lookup_delete_Some. by apply (Hnum q).
  - intros q r gq gr [_ Hq]%lookup_delete_Some [_ Hr]%lookup_delete_Some. by apply Hun.
  - intros id e He Hee Hc. apply (Hdn id e He Hee).
    destruct (decide (t_peer (e_ticket e) = p)) as [<-|Hne].
    + apply not_true_iff_false. intros (_ & _ & gen' & Hg & _ & Hs)%current_true. congruence.
    + rewrite <-Hc. symmetry. apply current_same; [done..|]. cbn. by rewrite lookup_delete_ne.
Qed.

Lemma lock_inv g : gate_inv g → gate_inv (lock_gate g).1.
Proof.
  intros Hi. unfold lock_gate, mbind, gated_bind. cbn [g_get g_put g_require].
  assert (gate_inv (mkGate (default U64_MAX (u64_checked_add (epoch g) 1)) true (next g) (peers g)
    (cancel_sessions (λ _, true) (sessions g)))) as Hi'.
  { apply (cancel_inv g (λ _, true)); [done| |by right|by right].
    pose proof (gi_epoch g Hi). destruct (u64_checked_add _ _) eqn:He; cbn; [|lia].
    apply checked_add_Some in He. lia. }
  by destruct (bool_decide _).
Qed.

Lemma open_inv g e : gate_inv g → gate_inv (open_after_durable e g).1.
Proof.
  intros Hi. unfold open_after_durable, mbind, gated_bind. cbn [g_get g_require g_some g_put].
  destruct (_ =? _); [|done]. destruct (u64_checked_add _ _) as [n|] eqn:Hn; [|done]. cbn [fst g_put].
  apply checked_add_Some in Hn as [-> Hmax]. inv_fields Hi; try done; try lia.
  - intros id e' He'. specialize (Hse id e' He'). lia.
  - intros id e' He' Hee. specialize (Hse id e' He'). lia.
Qed.

Lemma publish_inv g id : gate_inv g → gate_inv (publish id g).1.
Proof.
  intros Hi. unfold publish, mbind, gated_bind. cbn [g_get g_require g_some g_put].
  destruct (sessions g !! id) as [e|] eqn:He; [|done]. destruct (current g _) eqn:Hc; [|done]. cbn [fst g_put].
  inv_fields Hi; try done.
  - rewrite map_size_insert_Some by (by eexists). done.
  - intros p. by rewrite (count_update _ _ _ e).
  - intros c. by rewrite (count_update _ _ _ e).
  - intros i e'. rewrite lookup_insert_Some. intros [[<- <-]|[_ He']]; [by apply (Hse id e)|by apply (Hse i)].
  - intros Hl i e'. rewrite lookup_insert_Some. intros [[<- <-]|[_ He']]; [by apply (Hlk Hl id e)|by apply (Hlk Hl i)].
  - intros i e'. rewrite lookup_insert_Some. intros [[<- <-]|[_ He']] Hee Hcur; [|by apply (Hdn i e')].
    cbn in *. rewrite (current_same g) in Hcur by done. congruence.
Qed.

Lemma drop_inv g id : gate_inv g → gate_inv (set_sessions (delete id g.(sessions)) g).
Proof.
  intros Hi. inv_fields Hi; try done.
  - etrans; [apply map_subseteq_size, delete_subseteq|done].
  - intros p. etrans; [apply count_delete|done].
  - intros c. etrans; [apply count_delete|done].
  - intros i e [_ He]%lookup_delete_Some. by apply (Hse i).
  - intros Hl i e [_ He]%lookup_delete_Some. by apply (Hlk Hl i).
  - intros i e [_ He]%lookup_delete_Some. by apply (Hdn i).
Qed.

Lemma allocate_inv g : gate_inv g → gate_inv (allocate g).1.
Proof.
  intros Hi. rewrite allocate_eq. destruct (u64_checked_add _ _) eqn:Hn; [|done]. by apply set_next_inv.
Qed.

(** *** Runs *)

Inductive op : Type :=
| OpConnection
| OpTicket (p : Peer)
| OpReserve (t : AuthorityTicket) (tr : Transport)
| OpDeny (p : Peer)
| OpRemoved (p : Peer)
| OpLock
| OpOpen (e : Z)
| OpPublish (id : Z)
| OpSubmit (id : Z) (panics : bool)
| OpDrop (id : Z).

Definition run_op (a : Authority) (o : op) : Authority :=
  match o with
  | OpConnection => (locking connection a).1
  | OpTicket p => (locking (ticket p) a).1
  | OpReserve t tr => (locking (reserve t tr) a).1
  | OpDeny p => (locking (deny_peer p) a).1
  | OpRemoved p => (locking (removed p) a).1
  | OpLock => (lock a).1
  | OpOpen e => (locking (open_after_durable e) a).1
  | OpPublish id => (locking (publish id) a).1
  | OpSubmit id panics => (submit id (if panics then None else Some ()) a).1
  | OpDrop id => drop_lease id a
  end.

Definition run (a : Authority) (ops : list op) : Authority := foldl run_op a ops.

(** A fact about the gate alone that every operation under it keeps is kept
    by every run. *)
Lemma run_preserves (P : Gate → Prop) :
  (∀ g, P g → P (connection g).1) → (∀ p g, P g → P (ticket p g).1) →
  (∀ t tr g, P g → P (reserve t tr g).1) → (∀ p g, P g → P (deny_peer p g).1) →
  (∀ p g, P g → P (removed p g).1) → (∀ g, P g → P (lock_gate g).1) →
  (∀ e g, P g → P (open_after_durable e g).1) → (∀ id g, P g → P (publish id g).1) →
  (∀ id g, P g → P (set_sessions (delete id g.(sessions)) g)) →
  ∀ ops a, P a.(gate) → P (run a ops).(gate).
Proof.
  intros H1 H2 H3 H4 H5 H6 H7 H8 H9 ops.
  assert (∀ A (m : gated A) a, (∀ g, P g → P (m g).1) → P a.(gate) → P (locking m a).1.(gate)) as Hl.
  { intros A m a Hm Ha. unfold locking. destruct (poisoned a); [done|].
    specialize (Hm _ Ha). by destruct (m (gate a)). }
  induction ops as [|o ops IH]; intros a Ha; [done|]. apply IH.
  destruct o; cbn [run_op]; auto.
  - unfold lock. destruct (poisoned a); [done|]. specialize (H6 _ Ha). by destruct (lock_gate (gate a)).
  - unfold submit. destruct (poisoned a); [done|]. destruct (_ !! id); [|done].
    destruct (current _ _); [|done]. by destruct panics.
  - by apply H9.
Qed.

Lemma run_inv ops a : gate_inv a.(gate) → gate_inv (run a ops).(gate).
Proof.
  apply (run_preserves gate_inv); auto using allocate_inv, ticket_inv, reserve_inv, deny_peer_inv,
    removed_inv, lock_inv, open_inv, publish_inv, drop_inv.
Qed.

(** C10: the inbound gate keeps its limits and its bookkeeping. After any
    sequence of operations from either start there are at most 1024 peer
    generations and 1024 sessions, at most 64 sessions per peer and 64 per
    QUIC connection; every generation number and session ID is below the
    allocation counter and no two peers share a generation; while the gate
    is locked every session has been told to stop, and so has every session
    of the current epoch whose ticket is no longer current. *)
Theorem authority_invariant l ops : gate_inv (run (initial l) ops).(gate).
Proof. apply run_inv, initial_inv. Qed.

(** *** A ticket once stale stays stale *)

(** What was known of a ticket when it was issued, and that it has expired. *)
Definition stale (t : AuthorityTicket) (g : Gate) : Prop :=
  t.(t_epoch) ≤ g.(epoch) ≤ U64_MAX ∧ t.(generation) < g.(next) ∧ current g t = false.

Lemma stale_enter t p st g : stale t g → g.(peers) !! p = None → stale t (enter_peer p st g).1.
Proof.
  intros (He & Hg & Hc) Hp. rewrite enter_peer_eq. destruct (_ <? _)%nat; [|done].
  destruct (u64_checked_add _ _) as [n|] eqn:Hn; [|done]. apply checked_add_Some in Hn as [-> _].
  cbn [fst]. split_and!; [by apply He|by apply He|cbn; lia|].
  destruct (decide (t_peer t = p)) as [Heq|Hne].
  - apply not_true_iff_false. intros (_ & _ & gen & Hgen & Hnum & _)%current_true.
    cbn in Hgen. rewrite Heq, lookup_insert_eq in Hgen. injection Hgen as <-. cbn in Hnum. lia.
  - rewrite (current_same g); [done..|]. cbn. by rewrite lookup_insert_ne.
Qed.

Lemma stale_run t ops a : stale t a.(gate) → stale t (run a ops).(gate).
Proof.
  revert ops a. apply (run_preserves (stale t)).
  - intros g (He & Hg & Hc). unfold connection. rewrite allocate_eq.
    destruct (u64_checked_add _ _) eqn:Hn; [|done]. apply checked_add_Some in Hn as [-> _].
    cbn [fst]. split_and!; [by apply He|by apply He|cbn; lia|done].
  - intros p g Hs. rewrite ticket_eq. destruct (locked g); [done|].
    destruct (g.(peers) !! p) eqn:Hp; [done|]. pose proof (stale_enter t p Authorized g Hs Hp).
    by destruct (enter_peer p _ g) as [g' [[]|]].
  - intros t' tr g (He & Hg & Hc). rewrite reserve_eq. destruct (_ && _); [|done].
    destruct (u64_checked_add _ _) eqn:Hn; [|done]. apply checked_add_Some in Hn as [-> _].
    cbn [fst]. split_and!; [by apply He|by apply He|cbn; lia|done].
  - intros p g Hs. rewrite deny_peer_eq. cbn zeta. destruct (g.(peers) !! p) as [gen|] eqn:Hp.
    + destruct Hs as (He & Hg & Hc). split; [done|]. split; [done|].
      destruct (decide (t_peer t = p)) as [Heq|Hne].
      * apply not_true_iff_false. intros (_ & _ & gen' & Hgen & _ & Hst)%current_true.
        cbn in Hgen. rewrite Heq, lookup_insert_eq in Hgen. injection Hgen as <-. done.
      * rewrite <-Hc. apply current_same; [done..|]. cbn. by rewrite lookup_insert_ne.
    + pose proof (stale_enter t p RuntimeDeniedPendingDurability g Hs Hp) as Hs'.
      by destruct (enter_peer p _ g) as [g' [[]|]].
  - intros p g (He & Hg & Hc). unfold removed, mbind, gated_bind. cbn [g_get g_require].
    destruct (g.(peers) !! p) as [gen|] eqn:Hp; [|done]. destruct (bool_decide _); [|done].
    split; [done|]. split; [done|]. destruct (decide (t_peer t = p)) as [Heq|Hne].
    + apply not_true_iff_false. intros (_ & _ & gen' & Hgen & _)%current_true.
      cbn in Hgen. by rewrite Heq, lookup_delete_eq in Hgen.
    + rewrite <-Hc. apply current_same; [done..|]. cbn. by rewrite lookup_delete_ne.
  - intros g (He & Hg & Hc). unfold lock_gate, mbind, gated_bind. cbn [g_get g_put g_require].
    assert (t_epoch t ≤ default U64_MAX (u64_checked_add (epoch g) 1) ≤ U64_MAX).
    { destruct (u64_checked_add (epoch g) 1) eqn:Hn; cbn; [|lia]. apply checked_add_Some in Hn. lia. }
    destruct (bool_decide _); done.
  - intros e g (He & Hg & Hc). unfold open_after_durable, mbind, gated_bind.
    cbn [g_get g_require g_some g_put]. destruct (_ =? _); [|done].
    destruct (u64_checked_add _ _) eqn:Hn; [|done]. apply checked_add_Some in Hn as [-> Hm].
    split_and!; cbn [fst g_put epoch next]; [lia|lia|done|].
    apply not_true_iff_false. intros (_ & Heq & _)%current_true. cbn in Heq. lia.
  - intros id g (He & Hg & Hc). unfold publish, mbind, gated_bind. cbn [g_get g_require g_some g_put].
    destruct (sessions g !! id) as [e|]; [|done]. destruct (current g (e_ticket e)); [|done].
    cbn [fst g_put]. split; [done|]. split; [done|]. by rewrite <-Hc.
  - intros id g (He & Hg & Hc). split; [done|]. split; [done|]. by rewrite <-Hc.
Qed.

(** *** What an expired session can still do: nothing *)

(** Session IDs below [n] are the ones of [m], with the same tickets. *)
Definition no_reuse (n : Z) (m : gmap Z Entry) (g : Gate) : Prop :=
  n ≤ g.(next) ∧ ∀ id e, id < n → g.(sessions) !! id = Some e →
    ∃ e0, m !! id = Some e0 ∧ e.(e_ticket) = e0.(e_ticket).

Lemma no_reuse_enter n m p st g : no_reuse n m g → no_reuse n m (enter_peer p st g).1.
Proof.
  intros [Hn Hm]. rewrite enter_peer_eq. destruct (_ <? _)%nat; [|done].
  destruct (u64_checked_add _ _) eqn:Ha; [|done]. apply checked_add_Some in Ha as [-> _].
  split; [cbn; lia|done].
Qed.

Lemma no_reuse_run n m ops a : no_reuse n m a.(gate) → no_reuse n m (run a ops).(gate).
Proof.
  revert ops a. apply (run_preserves (no_reuse n m)).
  - intros g [Hn Hm]. unfold connection. rewrite allocate_eq.
    destruct (u64_checked_add _ _) eqn:Ha; [|done]. apply checked_add_Some in Ha as [-> _].
    split; [cbn; lia|done].
  - intros p g Hr. rewrite ticket_eq. destruct (locked g); [done|]. destruct (g.(peers) !! p); [done|].
    pose proof (no_reuse_enter n m p Authorized g Hr). by destruct (enter_peer p _ g) as [g' [[]|]].
  - intros t tr g [Hn Hm]. rewrite reserve_eq. destruct (_ && _); [|done].
    destruct (u64_checked_add _ _) eqn:Ha; [|done]. apply checked_add_Some in Ha as [-> _].
    split; [cbn; lia|]. cbn. intros id e Hid. rewrite lookup_insert_ne by lia. by apply Hm.
  - intros p g Hr. rewrite deny_peer_eq. cbn zeta.
    assert (∀ g', no_reuse n m g' → no_reuse n m (set_sessions (cancel_sessions (of_peer p) (sessions g')) g')).
    { intros g' [Hn Hm]. split; [done|]. intros id e Hid (e0 & H0 & -> & _)%cancel_lookup. by apply (Hm id). }
    destruct (g.(peers) !! p); [by apply H|].
    pose proof (no_reuse_enter n m p RuntimeDeniedPendingDurability g Hr).
    destruct (enter_peer p _ g) as [g' [[]|]]; [by apply H|done].
  - intros p g Hr. unfold removed, mbind, gated_bind. cbn [g_get g_require].
    by destruct (match g.(peers) !! p with Some _ => _ | None => _ end).
  - intros g [Hn Hm]. unfold lock_gate, mbind, gated_bind. cbn [g_get g_put g_require].
    destruct (bool_decide _); (split; [done|]); intros id e Hid (e0 & H0 & -> & _)%cancel_lookup;
      by apply (Hm id).
  - intros e g Hr. unfold open_after_durable, mbind, gated_bind. cbn [g_get g_require g_some g_put].
    destruct (_ =? _); [|done]. by destruct (u64_checked_add _ _).
  - intros id g [Hn Hm]. unfold publish, mbind, gated_bind. cbn [g_get g_require g_some g_put].
    destruct (sessions g !! id) as [e|] eqn:He; [|done]. destruct (current g _); [|done].
    split; [done|]. cbn. intros i e' Hi. rewrite lookup_insert_Some.
    intros [[<- <-]|[_ He']]; [by apply (Hm id e)|by apply (Hm i)].
  - intros id g [Hn Hm]. split; [done|]. cbn. intros i e Hi [_ He]%lookup_delete_Some. by apply (Hm i).
Qed.

(** The lease's gated actions are refused. *)
Definition fenced (id : Z) (a : Authority) : Prop :=
  (∀ T (poll : option T), (submit id poll a).2 = None) ∧ (locking (publish id) a).2 = None.

Lemma fenced_if a id :
  (∀ e, a.(gate).(sessions) !! id = Some e → current a.(gate) e.(e_ticket) = false) → fenced id a.
Proof.
  intros Hall. unfold fenced, submit, locking, publish, mbind, gated_bind. cbn [g_get g_some g_require].
  destruct (poisoned a); [done|]. destruct (sessions (gate a) !! id) as [e|] eqn:He; [|done].
  rewrite (Hall e eq_refl). done.
Qed.

Lemma stale_session_fenced a id e ops :
  gate_inv a.(gate) → a.(gate).(sessions) !! id = Some e → current a.(gate) e.(e_ticket) = false →
  fenced id (run a ops).
Proof.
  intros Hi He Hc. destruct (gi_session _ Hi _ _ He) as (Hid & Hgen & Hep).
  apply fenced_if. intros e' He'.
  destruct (no_reuse_run (next (gate a)) (sessions (gate a)) ops a) as [_ Hsame].
  { split; [done|]. intros i ei _ Hei. by exists ei. }
  destruct (Hsame id e' Hid He') as (e0 & H0 & ->). assert (e0 = e) as -> by congruence.
  apply (stale_run (e_ticket e) ops a). split_and!; [done| |done|done]. apply Hi.
Qed.

Lemma deny_gate g p g' :
  deny_peer p g = (g', Some ()) →
  (∀ id e, g.(sessions) !! id = Some e → t_peer e.(e_ticket) = p →
    ∃ e', g'.(sessions) !! id = Some e' ∧ e'.(e_ticket) = e.(e_ticket) ∧ e'.(cancel) = true) ∧
  (∀ id e, g.(sessions) !! id = Some e → t_peer e.(e_ticket) ≠ p → g'.(sessions) !! id = Some e) ∧
  (∀ t, t_peer t = p → current g' t = false) ∧
  (∀ t, t_peer t ≠ p → current g' t = current g t).
Proof.
  rewrite deny_peer_eq. cbn zeta.
  assert (∃ g1 gen, (match g.(peers) !! p with
      | None => enter_peer p RuntimeDeniedPendingDurability g
      | Some gen => (set_peers (<[p := mkGeneration gen.(number) RuntimeDeniedPendingDurability]>
          g.(peers)) g, Some ()) end = (g1, Some ()) → g1.(sessions) = g.(sessions) ∧
      g1.(epoch) = g.(epoch) ∧ g1.(locked) = g.(locked) ∧
      g1.(peers) = <[p := mkGeneration gen RuntimeDeniedPendingDurability]> g.(peers)) ∧
    (match g.(peers) !! p with
      | None => enter_peer p RuntimeDeniedPendingDurability g
      | Some gen => (set_peers (<[p := mkGeneration gen.(number) RuntimeDeniedPendingDurability]>
          g.(peers)) g, Some ()) end).1 = g1) as (g1 & gen & Hg1 & Heq).
  { destruct (g.(peers) !! p) as [gen|]; [eexists _, gen.(number); split; [|reflexivity]; by intros _|].
    rewrite enter_peer_eq. destruct (_ <? _)%nat; [|by exists g, 0].
    destruct (u64_checked_add _ _) as [n|]; [|by exists g, 0].
    eexists _, (next g). split; [|reflexivity]. by intros _. }
  destruct (match g.(peers) !! p with Some _ => _ | None => _ end) as [g2 [[]|]]; [|done].
  cbn in Heq. subst g2. destruct (Hg1 eq_refl) as (Hs & Hep & Hl & Hp). intros [= <-].
  cbn [sessions set_sessions]. rewrite Hs. split_and!.
  - intros id e He Hpe. unfold cancel_sessions. rewrite lookup_fmap, He. cbn.
    unfold of_peer. rewrite bool_decide_eq_true_2 by done. by eexists.
  - intros id e He Hpe. unfold cancel_sessions. rewrite lookup_fmap, He. cbn.
    unfold of_peer. by rewrite bool_decide_eq_false_2.
  - intros t Ht. apply not_true_iff_false. intros (_ & _ & gt & Hgt & _ & Hst)%current_true.
    cbn in Hgt. rewrite Hp, Ht, lookup_insert_eq in Hgt. injection Hgt as <-. done.
  - intros t Ht. apply current_same; cbn; [done|done|]. by rewrite Hp, lookup_insert_ne.
Qed.

(** Denying a peer stops its sessions for good. *)
Lemma deny_cuts a p a' :
  gate_inv a.(gate) → locking (deny_peer p) a = (a', Some ()) →
  (∀ id e, a.(gate).(sessions) !! id = Some e → t_peer e.(e_ticket) = p →
    cancelled id a' = true ∧ ∀ ops, fenced id (run a' ops)) ∧
  (∀ id e, a.(gate).(sessions) !! id = Some e → t_peer e.(e_ticket) ≠ p →
    a'.(gate).(sessions) !! id = Some e ∧
    current a'.(gate) e.(e_ticket) = current a.(gate) e.(e_ticket)).
Proof.
  intros Hi Hd. unfold locking in Hd. destruct (poisoned a); [done|].
  pose proof (deny_peer_inv _ p Hi) as Hi'.
  destruct (deny_peer p (gate a)) as [g' r] eqn:Hg. injection Hd as <- ->.
  apply deny_gate in Hg as (Hmine & Hother & Hno & Hsame). split.
  - intros id e He Hp. destruct (Hmine id e He Hp) as (e' & He' & Ht & Hc). split.
    + unfold cancelled. cbn [poisoned gate]. by rewrite He'.
    + intros ops. eapply stale_session_fenced; [done|done|]. apply Hno. by rewrite Ht.
  - intros id e He Hp. split; [by apply Hother|by apply Hsame].
Qed.

(** Publishing the removal changes no session. *)
Lemma removed_sessions p a : (locking (removed p) a).1.(gate).(sessions) = a.(gate).(sessions) ∧
  (locking (removed p) a).1.(poisoned) = a.(poisoned).
Proof.
  unfold locking. destruct (poisoned a) eqn:Hp; [done|].
  unfold removed, mbind, gated_bind, g_require, g_put, g_get. by destruct (match peers (gate a) !! p with Some _ => _ | None => _ end).
Qed.

(** C11: revoking a peer is final for its sessions, and touches no other. Once
    [deny_peer] succeeds, every session of that peer has been told to stop,
    and whatever happens afterwards (re-adding the peer, new tickets, Silver
    on and off) neither [submit] nor [publish] of such a session ever
    succeeds again; sessions of other peers keep their entry, and their
    tickets are current exactly as before. *)
Theorem deny_is_final l ops0 p a' :
  let a := run (initial l) ops0 in
  locking (deny_peer p) a = (a', Some ()) →
  (∀ id e, a.(gate).(sessions) !! id = Some e → t_peer e.(e_ticket) = p →
    cancelled id a' = true ∧ ∀ ops, fenced id (run a' ops)) ∧
  (∀ id e, a.(gate).(sessions) !! id = Some e → t_peer e.(e_ticket) ≠ p →
    a'.(gate).(sessions) !! id = Some e ∧
    current a'.(gate) e.(e_ticket) = current a.(gate) e.(e_ticket)).
Proof.
  intros a Hd. by apply deny_cuts; [apply run_inv, initial_inv|].
Qed.

Lemma epoch_run n ops a : n ≤ a.(gate).(epoch) ≤ U64_MAX → n ≤ (run a ops).(gate).(epoch) ≤ U64_MAX.
Proof.
  revert ops a. apply (run_preserves (λ g, n ≤ g.(epoch) ≤ U64_MAX)).
  - intros g Hg. unfold connection. rewrite allocate_eq. by destruct (u64_checked_add _ _).
  - intros p g Hg. rewrite ticket_eq. destruct (locked g); [done|]. destruct (g.(peers) !! p); [done|].
    rewrite enter_peer_eq. destruct (_ <? _)%nat; [|done]. by destruct (u64_checked_add _ _).
  - intros t tr g Hg. rewrite reserve_eq. destruct (_ && _); [|done]. by destruct (u64_checked_add _ _).
  - intros p g Hg. rewrite deny_peer_eq. cbn zeta. destruct (g.(peers) !! p); [done|].
    rewrite enter_peer_eq. destruct (_ <? _)%nat; [|done]. by destruct (u64_checked_add _ _).
  - intros p g Hg. unfold removed, mbind, gated_bind. cbn [g_get g_require].
    by destruct (match g.(peers) !! p with Some _ => _ | None => _ end).
  - intros g Hg. unfold lock_gate, mbind, gated_bind. cbn [g_get g_put g_require].
    assert (n ≤ default U64_MAX (u64_checked_add (epoch g) 1) ≤ U64_MAX); [|by destruct (bool_decide _)].
    destruct (u64_checked_add _ _) eqn:Hn; cbn; [apply checked_add_Some in Hn|]; lia.
  - intros e g Hg. unfold open_after_durable, mbind, gated_bind. cbn [g_get g_require g_some g_put].
    destruct (_ =? _); [|done]. destruct (u64_checked_add _ _) eqn:Hn; [|done].
    apply checked_add_Some in Hn. cbn. lia.
  - intros id g Hg. unfold publish, mbind, gated_bind. cbn [g_get g_require g_some g_put].
    destruct (sessions g !! id) as [e|]; [|done]. by destruct (current g _).
  - done.
Qed.

Lemma lock_cuts a a' r :
  gate_inv a.(gate) → a.(poisoned) = false → lock a = (a', r) →
  (∀ id, is_Some (a.(gate).(sessions) !! id) →
    cancelled id a' = true ∧ ∀ ops, fenced id (run a' ops)) ∧
  (∀ p, (locking (ticket p) a').2 = None) ∧
  (∀ e ops, e ≤ a.(gate).(epoch) → (locking (open_after_durable e) (run a' ops)).2 = None).
Proof.
  intros Hi Hp Hl.
  unfold lock in Hl. rewrite Hp in Hl. pose proof (lock_inv _ Hi) as Hi'.
  assert (epoch (gate a) ≤ epoch (lock_gate (gate a)).1 ≤ U64_MAX ∧
    (epoch (gate a) < epoch (lock_gate (gate a)).1 ∨ epoch (lock_gate (gate a)).1 = U64_MAX) ∧
    locked (lock_gate (gate a)).1 = true ∧
    sessions (lock_gate (gate a)).1 = cancel_sessions (λ _, true) (sessions (gate a))) as (Hep & Hgt & Hlk & Hs).
  { pose proof (gi_epoch _ Hi). unfold lock_gate, mbind, gated_bind. cbn [g_get g_put g_require].
    destruct (u64_checked_add _ _) eqn:Hn.
    - apply checked_add_Some in Hn. cbn. split; [lia|]. split; [lia|done].
    - cbn. split; [lia|]. split; [by right|done]. }
  destruct (lock_gate (gate a)) as [g' r'] eqn:Hg. cbn [fst] in *. injection Hl as <- <-.
  assert (∀ t, current g' t = false) as Hno.
  { intros t. apply not_true_iff_false. intros (Hf & _)%current_true. congruence. }
  split_and!.
  - intros id [e He]. unfold cancelled. cbn [poisoned gate].
    rewrite Hs. unfold cancel_sessions. rewrite lookup_fmap, He. cbn. split; [done|].
    intros ops. eapply (stale_session_fenced _ id); [done| |apply Hno]. cbn [gate].
    rewrite Hs. unfold cancel_sessions. by rewrite lookup_fmap, He.
  - intros p. unfold locking. cbn [poisoned gate]. rewrite ticket_eq, Hlk. done.
  - intros e ops He. pose proof (epoch_run (epoch g') ops (mkAuthority g' false (epoch g'))) as Hrun.
    cbn [gate] in Hrun. specialize (Hrun ltac:(lia)).
    set (b := run _ ops) in *. unfold locking. destruct (poisoned b); [done|].
    unfold open_after_durable, mbind, gated_bind. cbn [g_get g_require g_some g_put].
    destruct (Z.eqb_spec (epoch (gate b)) e) as [Heq|]; [|done].
    destruct (u64_checked_add _ _) eqn:Hn; [|done]. apply checked_add_Some in Hn. lia.
Qed.

(** Silver wins. After [lock] (even when its counter is exhausted and it
    reports failure) every session has been told to stop and never submits
    or publishes again, no ticket is issued while the gate stays locked, and
    no [open_after_durable] that carries an epoch read before this [lock]
    ever opens the gate, whatever runs in between. *)
Theorem lock_is_final l ops0 a' r :
  let a := run (initial l) ops0 in
  a.(poisoned) = false → lock a = (a', r) →
  (∀ id, is_Some (a.(gate).(sessions) !! id) →
    cancelled id a' = true ∧ ∀ ops, fenced id (run a' ops)) ∧
  (∀ p, (locking (ticket p) a').2 = None) ∧
  (∀ e ops, e ≤ a.(gate).(epoch) → (locking (open_after_durable e) (run a' ops)).2 = None).
Proof. intros a. apply lock_cuts, run_inv, initial_inv. Qed.

(** A ticket never comes back. Once a ticket the gate issued is not
    current (its peer was denied or removed, the epoch moved, or the gate is
    locked), no sequence of operations makes it current again: generations
    and epochs are never reused. *)
Theorem ticket_never_revives l ops0 p t ops1 ops2 :
  let a := run (initial l) ops0 in
  (locking (ticket p) a).2 = Some t →
  let b := run (locking (ticket p) a).1 ops1 in
  current b.(gate) t = false → current (run b ops2).(gate) t = false.
Proof.
  intros a Ht b Hb. pose proof (run_inv ops0 _ (initial_inv l)) as Hi. fold a in Hi.
  pose proof (run_inv (ops0 ++ [OpTicket p] ++ ops1) _ (initial_inv l)) as Hib.
  unfold run in Hib. rewrite !foldl_app in Hib. change (gate_inv (gate b)) in Hib.
  assert (t_epoch t ≤ epoch (gate (locking (ticket p) a).1) ∧
    generation t < next (gate (locking (ticket p) a).1)) as [Hte Htg].
  { unfold locking in *. destruct (poisoned a); [done|]. rewrite ticket_eq in *.
    destruct (locked (gate a)); [done|]. destruct (peers (gate a) !! p) as [gen|] eqn:Hp.
    - destruct (bool_decide _); [|done]. injection Ht as <-. cbn.
      pose proof (gi_number _ Hi _ _ Hp). lia.
    - rewrite enter_peer_eq in *. destruct (_ <? _)%nat; [|done].
      destruct (u64_checked_add _ _) eqn:Hn; [|done]. apply checked_add_Some in Hn as [-> _].
      injection Ht as <-. cbn. lia. }
  pose proof (epoch_run (t_epoch t) ops1 (locking (ticket p) a).1) as He.
  destruct (no_reuse_run (generation t + 1) (sessions (gate (locking (ticket p) a).1)) ops1
    (locking (ticket p) a).1) as [Hn _]; [split; [lia|]; intros id e _ ?; by exists e|].
  apply stale_run. fold b in He, Hn. split_and!; [| |lia|done].
  - apply He. split; [done|]. pose proof (run_inv (ops0 ++ [OpTicket p]) _ (initial_inv l)) as Hi1.
    unfold run in Hi1. rewrite foldl_app in Hi1. apply Hi1.
  - apply Hib.
Qed.

End AuthoritySpec.

(** ** A concrete run *)

Module AuthorityDemo.
Import Authority AuthoritySpec.

Definition wolf : Peer := array_fill 8 x01.
Definition fox : Peer := array_fill 8 x02.

(** Two peers, one session each: IDs 3 and 4. *)
Definition demo_ops : list op :=
  [OpTicket wolf; OpTicket fox; OpReserve (mkTicket wolf 1 1) Tcp; OpReserve (mkTicket fox 2 1) (Quic 9);
   OpPublish 3].

Definition demo_auth : Authority := run (initial false) demo_ops.

Definition demo_entry : Entry := mkEntry (mkTicket wolf 1 1) Tcp true false.

Lemma demo_session : demo_auth.(gate).(sessions) !! 3 = Some demo_entry.
Proof. reflexivity. Qed.

Lemma deny_is_final_witness :
  cancelled 3 (run_op demo_auth (OpDeny wolf)) = true ∧
  fenced 3 (run (run_op demo_auth (OpDeny wolf)) [OpRemoved wolf; OpTicket wolf]).
Proof.
  destruct (deny_is_final false demo_ops wolf (run_op demo_auth (OpDeny wolf)) eq_refl) as [Hd _].
  destruct (Hd 3 demo_entry demo_session eq_refl) as [Hc Hf]. split; [exact Hc|apply Hf].
Defined.

Lemma lock_is_final_witness :
  fenced 3 (run (run_op demo_auth OpLock) [OpOpen 2]) ∧
  (locking (open_after_durable 1) (run_op demo_auth OpLock)).2 = None.
Proof.
  destruct (lock_is_final false demo_ops (run_op demo_auth OpLock) (Some 2) eq_refl eq_refl)
    as (Hs & _ & Ho). split.
  - apply (Hs 3). exists demo_entry. apply demo_session.
  - apply (Ho 1 []). vm_compute. discriminate.
Defined.

Lemma ticket_never_revives_witness :
  current (run demo_auth [OpDeny wolf; OpRemoved wolf; OpTicket wolf]).(gate) (mkTicket wolf 1 1) = false.
Proof.
  apply (ticket_never_revives false [] wolf (mkTicket wolf 1 1)
    [OpTicket fox; OpReserve (mkTicket wolf 1 1) Tcp; OpReserve (mkTicket fox 2 1) (Quic 9);
     OpPublish 3; OpDeny wolf] [OpRemoved wolf; OpTicket wolf]); reflexivity.
Defined.

End AuthorityDemo.
