(* ===== verification/Rpc.v ===== *)
(** * RPC messages ([werewolfd/src/handshake/rpc.rs])

    The requests [ping], [find_node], [services] and [governance], the QUIC
    and TCP envelopes with the transcripts that are signed, the results, and
    what a requester accepts from a verified result. The nonce is an
    argument where the code draws it. *)

From stdpp Require Import gmap.
From S2P Require Export Handshake.
From S2P Require Export Records.
From S2P Require Export GovernanceChain.

Local Open Scope Z_scope.

Module Rpc.
Import Pelt Handshake.

Definition QUIC_RPC : str := lit "fang.quic.rpc".
Definition TCP_RPC : str := lit "fang.tcp.rpc".
Definition QUIC_RESULT : str := lit "fang.quic.rpc.result".
Definition TCP_RESULT : str := lit "fang.tcp.rpc.result".
Definition PING : str := lit "ping".
Definition FIND_NODE : str := lit "find_node".
Definition SERVICES : str := lit "services".
Definition GOVERNANCE : str := lit "governance".
Definition MAX_GOVERNANCE_K : Z := 4.
Definition RPC_MAX_K : Z := Z.of_nat Overlay.Kademlia.MAX_K.

Inductive RpcRequest : Type :=
| Ping
| FindNode (target : array 32) (k : byte)
| Services
| Governance (head : array 32) (k : byte).

#[export] Instance rpc_request_eq_dec : EqDecision RpcRequest.
Proof. solve_decision. Defined.

(** What a result's records carry. *)
Class RpcEntry (A : Type) : Type := entry_bytes : A → list byte.
#[export] Instance contact_entry : RpcEntry Contact.ContactRecord := Contact.encode.
#[export] Instance published_entry : RpcEntry Published.PublishedService := Published.encode.
#[export] Instance statement_entry : RpcEntry Gov.Statement := Gov.statement_encode.

Definition request_fields (r : RpcRequest) : str * str * byte :=
  match r with
  | Ping => (PING, [], x00)
  | FindNode target k => (FIND_NODE, hex (array_bytes target), k)
  | Services => (SERVICES, [], x00)
  | Governance head k => (GOVERNANCE, hex (array_bytes head), k)
  end.

(** The [match] of the code; the four names are different. *)
Definition request_parse (op target : str) (k : byte) : hs RpcRequest :=
  if bool_decide (op = PING) then
    _ ← h_require (bool_decide (target = []) && bool_decide (k = x00)); Ok Ping
  else if bool_decide (op = FIND_NODE) then
    _ ← h_require (in_range 1 RPC_MAX_K (byte_val k));
    t ← unhex 32 target; Ok (FindNode t k)
  else if bool_decide (op = SERVICES) then
    _ ← h_require (bool_decide (target = []) && bool_decide (k = x00)); Ok Services
  else if bool_decide (op = GOVERNANCE) then
    _ ← h_require (in_range 1 MAX_GOVERNANCE_K (byte_val k));
    h ← unhex 32 target; Ok (Governance h k)
  else rejected.

Definition max_records (r : RpcRequest) : nat :=
  match r with
  | Ping => 1
  | FindNode _ k | Governance _ k => byte_nat k
  | Services => Published.MAX_PUBLISHED
  end.

Definition target_bytes (r : RpcRequest) : list byte :=
  match r with
  | Ping | Services => []
  | FindNode t _ => array_bytes t
  | Governance h _ => array_bytes h
  end.

Definition request_k (r : RpcRequest) : byte := (request_fields r).2.

Record QuicRpc : Type := mkQuicRpc {
  qr_cmd : str;
  qr_protocol : str;
  qr_sender_fingerprint : str;
  qr_receiver_fingerprint : str;
  qr_nonce : str;
  qr_op : str;
  qr_target : str;
  qr_k : byte;
  qr_signature : str
}.

Record QuicRpcResult : Type := mkQuicRpcResult {
  qs_cmd : str;
  qs_ok : bool;
  qs_protocol : str;
  qs_receiver_pubkey : str;
  qs_receiver_fingerprint : str;
  qs_sender_fingerprint : str;
  qs_nonce : str;
  qs_op : str;
  qs_records : list str;
  qs_signature : str
}.

Record TcpRpc : Type := mkTcpRpc {
  tr_cmd : str;
  tr_protocol : str;
  tr_sender_pubkey : str;
  tr_sender_fingerprint : str;
  tr_receiver_fingerprint : str;
  tr_challenge : str;
  tr_nonce : str;
  tr_op : str;
  tr_target : str;
  tr_k : byte;
  tr_signature : str
}.

Record TcpRpcResult : Type := mkTcpRpcResult {
  ts_cmd : str;
  ts_ok : bool;
  ts_protocol : str;
  ts_receiver_pubkey : str;
  ts_receiver_fingerprint : str;
  ts_sender_fingerprint : str;
  ts_challenge : str;
  ts_nonce : str;
  ts_op : str;
  ts_records : list str;
  ts_signature : str
}.

Section rpc.
Context `{Crypto} `{Base64}.

(** *** Results in general *)

Definition record_text (text : str) : hs (list byte) :=
  bytes ← h_some (b64_decode text);
  _ ← h_require (bool_decide (b64_encode bytes = text));
  Ok bytes.
Definition record_bytes (records : list str) (max : nat) : hs (list (list byte)) :=
  _ ← h_require (length records <=? max)%nat;
  try_map record_text records.

Definition result_transcript (domain protocol : str) (retained : list byte) (receiver_pubkey : array 32)
    (records : list (list byte)) : hs (list byte) :=
  transcript domain
    ([protocol; [x01]; retained; array_bytes receiver_pubkey; [byte_of (Z.of_nat (length records))]]
     ++ records).

Definition accepted_records (sha256 : list byte → array 32) (raw : list (list byte)) (request : RpcRequest)
    (receiver_pubkey : array 32) (now : Z) : hs (list Contact.ContactRecord) :=
  _ ← h_require (match request with Ping | FindNode _ _ => true | _ => false end);
  Ok (filter (λ r : Contact.ContactRecord, is_ok (Contact.verify sha256 r now) = true ∧
                (request ≠ Ping ∨ r.(Contact.public_key) = receiver_pubkey))
        (omap (λ b, match Contact.decode b with Ok r => Some r | Err _ => None end) raw)).

Definition accepted_services (raw : list (list byte)) (request : RpcRequest)
    : hs (list Published.PublishedService) :=
  _ ← h_require (bool_decide (request = Services));
  entries ← try_map (λ b, map_err (λ _, Raised ()) (Published.decode b)) raw;
  _ ← map_err (λ _, Raised ()) (Published.validate_published entries);
  Ok entries.

(** The loop of [accepted_governance]. *)
Fixpoint chained (previous : array 32) (sequence : option Z) (l : list Gov.Statement) : hs () :=
  match l with
  | [] => Ok ()
  | s :: l' =>
      _ ← h_require (bool_decide (s.(Gov.core).(Gov.previous) = previous));
      _ ← match sequence with
          | Some last =>
              next ← h_some (u64_checked_add last 1);
              h_require (s.(Gov.core).(Gov.sequence) =? next)
          | None => Ok ()
          end;
      chained (Gov.core_hash s.(Gov.core)) (Some s.(Gov.core).(Gov.sequence)) l'
  end.

Definition accepted_governance (raw : list (list byte)) (request : RpcRequest) : hs (list Gov.Statement) :=
  match request with
  | Governance head _ =>
      statements ← try_map (λ b, map_err (λ _, Raised ()) (Gov.statement_decode b)) raw;
      _ ← chained head None statements;
      Ok statements
  | _ => rejected
  end.

(** *** QUIC *)

Definition quic_request (r : QuicRpc) : hs RpcRequest :=
  _ ← h_require (bool_decide (r.(qr_cmd) = QUIC_RPC) && bool_decide (r.(qr_protocol) = QUIC));
  request_parse r.(qr_op) r.(qr_target) r.(qr_k).

Definition quic_rpc_transcript (r : QuicRpc) (binding : array 32) : hs (list byte) :=
  request ← quic_request r;
  _ ← h_fingerprint r.(qr_sender_fingerprint);
  _ ← h_fingerprint r.(qr_receiver_fingerprint);
  nonce ← unhex 16 r.(qr_nonce);
  transcript (lit "fang.quic.rpc/v1")
    [QUIC; r.(qr_sender_fingerprint); r.(qr_receiver_fingerprint); array_bytes nonce; r.(qr_op);
     target_bytes request; [request_k request]; array_bytes binding].

Definition quic_rpc_new (sender : PeltIdentity) (receiver : str) (request : RpcRequest)
    (binding : array 32) (nonce : array 16) : hs QuicRpc :=
  let '(op, target, k) := request_fields request in
  let value sig := mkQuicRpc QUIC_RPC QUIC sender.(fingerprint) receiver (hex (array_bytes nonce))
    op target k sig in
  t ← quic_rpc_transcript (value []) binding;
  sig ← sign sender t;
  Ok (value sig).

Definition quic_result_transcript (s : QuicRpcResult) (rpc : QuicRpc) (retained : list byte)
    : hs (list byte * (list (list byte) * array 32)) :=
  _ ← h_require (bool_decide (s.(qs_cmd) = QUIC_RESULT) && bool_decide (s.(qs_protocol) = QUIC)
        && s.(qs_ok)
        && bool_decide (s.(qs_receiver_fingerprint) = rpc.(qr_receiver_fingerprint))
        && bool_decide (s.(qs_sender_fingerprint) = rpc.(qr_sender_fingerprint))
        && bool_decide (s.(qs_nonce) = rpc.(qr_nonce))
        && bool_decide (s.(qs_op) = rpc.(qr_op)));
  receiver ← public_matches s.(qs_receiver_pubkey) s.(qs_receiver_fingerprint);
  request ← quic_request rpc;
  raw ← record_bytes s.(qs_records) (max_records request);
  t ← result_transcript (lit "fang.quic.rpc.result/v1") QUIC retained receiver raw;
  Ok (t, (raw, receiver)).

Definition quic_result_new {R} `{RpcEntry R} (rpc : QuicRpc) (retained : list byte) (receiver : PeltIdentity)
    (records : list R) : hs QuicRpcResult :=
  let value sig := mkQuicRpcResult QUIC_RESULT true QUIC receiver.(public_key_b64) receiver.(fingerprint)
    rpc.(qr_sender_fingerprint) rpc.(qr_nonce) rpc.(qr_op) ((λ r, b64_encode (entry_bytes r)) <$> records)
    sig in
  '(t, _) ← quic_result_transcript (value []) rpc retained;
  sig ← sign receiver t;
  Ok (value sig).

(** The part the three verifications share. *)
Definition quic_result_checked (s : QuicRpcResult) (rpc : QuicRpc) (retained : list byte)
    : hs (list (list byte) * array 32 * RpcRequest) :=
  '(t, (raw, receiver)) ← quic_result_transcript s rpc retained;
  _ ← verify s.(qs_receiver_pubkey) t s.(qs_signature);
  request ← quic_request rpc;
  Ok (raw, receiver, request).

Definition quic_verify sha256 (s : QuicRpcResult) (rpc : QuicRpc) (retained : list byte) (now : Z)
    : hs (list Contact.ContactRecord) :=
  '(raw, receiver, request) ← quic_result_checked s rpc retained;
  accepted_records sha256 raw request receiver now.
Definition quic_verify_services (s : QuicRpcResult) (rpc : QuicRpc) (retained : list byte)
    : hs (list Published.PublishedService) :=
  '(raw, _, request) ← quic_result_checked s rpc retained;
  accepted_services raw request.
Definition quic_verify_governance (s : QuicRpcResult) (rpc : QuicRpc) (retained : list byte)
    : hs (list Gov.Statement) :=
  '(raw, _, request) ← quic_result_checked s rpc retained;
  accepted_governance raw request.

(** *** TCP *)

Definition tcp_request (r : TcpRpc) : hs RpcRequest :=
  _ ← h_require (bool_decide (r.(tr_cmd) = TCP_RPC) && bool_decide (r.(tr_protocol) = TCP));
  request_parse r.(tr_op) r.(tr_target) r.(tr_k).

Definition tcp_rpc_transcript (r : TcpRpc) : hs (list byte) :=
  request ← tcp_request r;
  _ ← h_fingerprint r.(tr_sender_fingerprint);
  _ ← h_fingerprint r.(tr_receiver_fingerprint);
  sp ← public_matches r.(tr_sender_pubkey) r.(tr_sender_fingerprint);
  challenge ← unhex 32 r.(tr_challenge);
  nonce ← unhex 16 r.(tr_nonce);
  transcript (lit "fang.tcp.rpc/v1")
    [TCP; r.(tr_sender_fingerprint); array_bytes sp; r.(tr_receiver_fingerprint);
     array_bytes challenge; array_bytes nonce; r.(tr_op); target_bytes request; [request_k request]].

Definition tcp_rpc_new (sender : PeltIdentity) (challenge : TcpChallenge) (request : RpcRequest)
    (nonce : array 16) : hs TcpRpc :=
  _ ← challenge_validate challenge;
  let '(op, target, k) := request_fields request in
  let value sig := mkTcpRpc TCP_RPC TCP sender.(public_key_b64) sender.(fingerprint)
    challenge.(tc_receiver_fingerprint) challenge.(tc_challenge) (hex (array_bytes nonce)) op target k sig in
  t ← tcp_rpc_transcript (value []);
  sig ← sign sender t;
  Ok (value sig).

Definition tcp_result_transcript (s : TcpRpcResult) (rpc : TcpRpc) (retained : list byte)
    : hs (list byte * (list (list byte) * array 32)) :=
  _ ← h_require (bool_decide (s.(ts_cmd) = TCP_RESULT) && bool_decide (s.(ts_protocol) = TCP)
        && s.(ts_ok)
        && bool_decide (s.(ts_receiver_fingerprint) = rpc.(tr_receiver_fingerprint))
        && bool_decide (s.(ts_sender_fingerprint) = rpc.(tr_sender_fingerprint))
        && bool_decide (s.(ts_challenge) = rpc.(tr_challenge))
        && bool_decide (s.(ts_nonce) = rpc.(tr_nonce))
        && bool_decide (s.(ts_op) = rpc.(tr_op)));
  receiver ← public_matches s.(ts_receiver_pubkey) s.(ts_receiver_fingerprint);
  request ← tcp_request rpc;
  raw ← record_bytes s.(ts_records) (max_records request);
  t ← result_transcript (lit "fang.tcp.rpc.result/v1") TCP retained receiver raw;
  Ok (t, (raw, receiver)).

Definition tcp_result_new {R} `{RpcEntry R} (rpc : TcpRpc) (retained : list byte) (receiver : PeltIdentity)
    (records : list R) : hs TcpRpcResult :=
  let value sig := mkTcpRpcResult TCP_RESULT true TCP receiver.(public_key_b64) receiver.(fingerprint)
    rpc.(tr_sender_fingerprint) rpc.(tr_challenge) rpc.(tr_nonce) rpc.(tr_op)
    ((λ r, b64_encode (entry_bytes r)) <$> records) sig in
  '(t, _) ← tcp_result_transcript (value []) rpc retained;
  sig ← sign receiver t;
  Ok (value sig).

Definition tcp_result_checked (s : TcpRpcResult) (rpc : TcpRpc) (retained : list byte)
    : hs (list (list byte) * array 32 * RpcRequest) :=
  '(t, (raw, receiver)) ← tcp_result_transcript s rpc retained;
  _ ← verify s.(ts_receiver_pubkey) t s.(ts_signature);
  request ← tcp_request rpc;
  Ok (raw, receiver, request).

Definition tcp_verify sha256 (s : TcpRpcResult) (rpc : TcpRpc) (retained : list byte) (now : Z)
    : hs (list Contact.ContactRecord) :=
  '(raw, receiver, request) ← tcp_result_checked s rpc retained;
  accepted_records sha256 raw request receiver now.
Definition tcp_verify_services (s : TcpRpcResult) (rpc : TcpRpc) (retained : list byte)
    : hs (list Published.PublishedService) :=
  '(raw, _, request) ← tcp_result_checked s rpc retained;
  accepted_services raw request.
Definition tcp_verify_governance (s : TcpRpcResult) (rpc : TcpRpc) (retained : list byte)
    : hs (list Gov.Statement) :=
  '(raw, _, request) ← tcp_result_checked s rpc retained;
  accepted_governance raw request.

Definition tcp_sender_key (rpc : TcpRpc) : hs (array 32) :=
  _ ← binary 32 rpc.(tr_sender_pubkey);
  public_matches rpc.(tr_sender_pubkey) rpc.(tr_sender_fingerprint).

End rpc.
End Rpc.

(** ** What the messages guarantee *)

Module RpcSpec.
Import Pelt Handshake Rpc HandshakeSpec.

(** The requests the wire can carry. *)
Definition request_ok (r : RpcRequest) : Prop :=
  match r with
  | Ping | Services => True
  | FindNode _ k => 1 ≤ byte_val k ≤ RPC_MAX_K
  | Governance _ k => 1 ≤ byte_val k ≤ MAX_GOVERNANCE_K
  end.

Lemma in_range_true a b x : in_range a b x = true ↔ a ≤ x ≤ b.
Proof. unfold in_range. rewrite andb_true_iff, !Z.leb_le. done. Qed.

Lemma request_parse_own r :
  request_ok r → request_parse (request_fields r).1.1 (request_fields r).1.2 (request_fields r).2 = Ok r.
Proof.
  destruct r as [|t k| |h k]; intros Hok; cbn [request_fields fst snd]; unfold request_parse.
  - done.
  - rewrite bool_decide_eq_false_2, bool_decide_eq_true_2 by done.
    rewrite (proj2 (in_range_true _ _ _) Hok), h_unhex_own. done.
  - done.
  - do 3 rewrite bool_decide_eq_false_2 by done. rewrite bool_decide_eq_true_2 by done.
    rewrite (proj2 (in_range_true _ _ _) Hok), h_unhex_own. done.
Qed.

Lemma request_parse_inv op target k r :
  request_parse op target k = Ok r → request_fields r = (op, target, k) ∧ request_ok r.
Proof.
  unfold request_parse. intros Hp.
  repeat match type of Hp with context [if ?b then _ else _] => destruct b eqn:? end; h_inv; bool_simpl;
    subst; try done;
    match goal with Hr : in_range _ _ _ = true, Hu : unhex _ _ = Ok _ |- _ =>
      apply in_range_true in Hr; apply h_unhex_exact in Hu as -> end; done.
Qed.

(** A request has one spelling on the wire. The three fields of an RPC
    parse to a request exactly when they are the fields that request is
    written with and its count is in range (1 to the lookup's [MAX_K] for
    [find_node], 1 to 4 for [governance], none for the others). *)
Theorem request_spelling op target k r :
  request_parse op target k = Ok r ↔ request_fields r = (op, target, k) ∧ request_ok r.
Proof.
  split; [apply request_parse_inv|]. intros [Hf Hok].
  pose proof (request_parse_own r Hok) as Hp. by rewrite Hf in Hp.
Qed.

(** *** Domains *)

(** [t] is a transcript of the given domain. *)
Definition in_domain (d : str) (t : list byte) : Prop := ∃ fs, transcript d fs = Ok t.

Lemma in_domain_one d1 d2 t : in_domain d1 t → in_domain d2 t → d1 = d2.
Proof. intros [fs1 H1] [fs2 H2]. by destruct (transcript_inj _ _ _ _ _ H1 H2). Qed.

Section messages.
Context `{Crypto} `{Base64}.

Lemma tcp_open_domain o t : tcp_open_transcript o = Ok t → in_domain (lit "fang.tcp.open/v3") t.
Proof. unfold tcp_open_transcript. intros. h_inv. by eexists. Qed.
Lemma quic_open_domain o b t : quic_open_transcript o b = Ok t → in_domain (lit "fang.quic.open/v3") t.
Proof. unfold quic_open_transcript. intros. h_inv. by eexists. Qed.
Lemma tcp_ack_domain a o r t : tcp_ack_transcript a o r = Ok t → in_domain (lit "fang.tcp.ack/v3") t.
Proof. unfold tcp_ack_transcript. intros. h_inv. by eexists. Qed.
Lemma quic_ack_domain a o r t : quic_ack_transcript a o r = Ok t → in_domain (lit "fang.quic.ack/v3") t.
Proof. unfold quic_ack_transcript. intros. h_inv. by eexists. Qed.
Lemma quic_rpc_domain r b t : quic_rpc_transcript r b = Ok t → in_domain (lit "fang.quic.rpc/v1") t.
Proof. unfold quic_rpc_transcript. intros. h_inv. by eexists. Qed.
Lemma tcp_rpc_domain r t : tcp_rpc_transcript r = Ok t → in_domain (lit "fang.tcp.rpc/v1") t.
Proof. unfold tcp_rpc_transcript. intros. h_inv. by eexists. Qed.
Lemma quic_result_domain s r l t x :
  quic_result_transcript s r l = Ok (t, x) → in_domain (lit "fang.quic.rpc.result/v1") t.
Proof. unfold quic_result_transcript. intros. h_inv. simplify_eq. by eexists. Qed.
Lemma tcp_result_domain s r l t x :
  tcp_result_transcript s r l = Ok (t, x) → in_domain (lit "fang.tcp.rpc.result/v1") t.
Proof. unfold tcp_result_transcript. intros. h_inv. simplify_eq. by eexists. Qed.

(** Two messages of different domains: their transcripts cannot be equal. *)
Ltac by_domain :=
  intros; try match goal with |- ¬ _ => intro end;
  repeat match goal with
  | Ht : tcp_open_transcript _ = Ok _ |- _ => apply tcp_open_domain in Ht
  | Ht : quic_open_transcript _ _ = Ok _ |- _ => apply quic_open_domain in Ht
  | Ht : tcp_ack_transcript _ _ _ = Ok _ |- _ => apply tcp_ack_domain in Ht
  | Ht : quic_ack_transcript _ _ _ = Ok _ |- _ => apply quic_ack_domain in Ht
  | Ht : quic_rpc_transcript _ _ = Ok _ |- _ => apply quic_rpc_domain in Ht
  | Ht : tcp_rpc_transcript _ = Ok _ |- _ => apply tcp_rpc_domain in Ht
  | Ht : quic_result_transcript _ _ _ = Ok _ |- _ => apply quic_result_domain in Ht
  | Ht : tcp_result_transcript _ _ _ = Ok _ |- _ => apply tcp_result_domain in Ht
  end;
  match goal with H1 : in_domain _ ?t, H2 : in_domain _ ?t |- _ =>
    by pose proof (in_domain_one _ _ _ H1 H2) end.

(** The session transcripts of the handshake. *)
Definition session_transcript (t : list byte) : Prop :=
  (∃ o, tcp_open_transcript o = Ok t) ∨ (∃ o b, quic_open_transcript o b = Ok t) ∨
  (∃ a o r, tcp_ack_transcript a o r = Ok t) ∨ (∃ a o r, quic_ack_transcript a o r = Ok t).

(** Everything a QUIC request says but its signature. *)
Definition same_quic_rpc (a b : QuicRpc) : Prop :=
  mkQuicRpc (qr_cmd a) (qr_protocol a) (qr_sender_fingerprint a) (qr_receiver_fingerprint a)
    (qr_nonce a) (qr_op a) (qr_target a) (qr_k a) [] =
  mkQuicRpc (qr_cmd b) (qr_protocol b) (qr_sender_fingerprint b) (qr_receiver_fingerprint b)
    (qr_nonce b) (qr_op b) (qr_target b) (qr_k b) [].
Definition same_tcp_rpc (a b : TcpRpc) : Prop :=
  mkTcpRpc (tr_cmd a) (tr_protocol a) (tr_sender_pubkey a) (tr_sender_fingerprint a)
    (tr_receiver_fingerprint a) (tr_challenge a) (tr_nonce a) (tr_op a) (tr_target a) (tr_k a) [] =
  mkTcpRpc (tr_cmd b) (tr_protocol b) (tr_sender_pubkey b) (tr_sender_fingerprint b)
    (tr_receiver_fingerprint b) (tr_challenge b) (tr_nonce b) (tr_op b) (tr_target b) (tr_k b) [].

(** The wire fields of a request follow from what is signed of it. *)
Lemma request_signed r1 r2 :
  (request_fields r1).1.1 = (request_fields r2).1.1 → target_bytes r1 = target_bytes r2 →
  request_k r1 = request_k r2 → request_fields r1 = request_fields r2.
Proof.
  unfold request_k. destruct r1, r2; cbn; intros Hop Ht Hk; try done; by rewrite Ht, Hk.
Qed.

Lemma quic_rpc_pins r1 r2 b1 b2 t :
  quic_rpc_transcript r1 b1 = Ok t → quic_rpc_transcript r2 b2 = Ok t →
  same_quic_rpc r1 r2 ∧ b1 = b2.
Proof.
  unfold quic_rpc_transcript, quic_request. intros H1 H2. h_inv. bool_simpl.
  match goal with
  | T1 : transcript _ _ = Ok t, T2 : transcript _ _ = Ok t |- _ =>
      destruct (transcript_inj _ _ _ _ _ T1 T2) as [_ Hf]
  end.
  injection Hf as Hs Hr Hn Ho Ht Hk Hb.
  repeat match goal with
  | Hu : unhex _ _ = Ok _ |- _ => apply h_unhex_exact in Hu
  | Hp : request_parse _ _ _ = Ok _ |- _ => apply request_parse_inv in Hp as [Hp _]
  end.
  match goal with F1 : request_fields ?x = (qr_op r1, _, _), F2 : request_fields ?y = (qr_op r2, _, _) |- _ =>
    assert (request_fields x = request_fields y) as Heq
      by (apply request_signed; [by rewrite F1, F2|done|done]); rewrite F1, F2 in Heq end.
  injection Heq as ? ? ?. split; [|by apply array_eq]. unfold same_quic_rpc. f_equal; congruence.
Qed.

Lemma tcp_rpc_pins r1 r2 t :
  tcp_rpc_transcript r1 = Ok t → tcp_rpc_transcript r2 = Ok t → same_tcp_rpc r1 r2.
Proof.
  unfold tcp_rpc_transcript, tcp_request. intros H1 H2. h_inv. bool_simpl.
  match goal with
  | T1 : transcript _ _ = Ok t, T2 : transcript _ _ = Ok t |- _ =>
      destruct (transcript_inj _ _ _ _ _ T1 T2) as [_ Hf]
  end.
  injection Hf as Hs Hsp Hr Hc Hn Ho Ht Hk.
  repeat match goal with
  | Hu : unhex _ _ = Ok _ |- _ => apply h_unhex_exact in Hu
  | Hp : public_matches _ _ = Ok _ |- _ => apply public_matches_text in Hp
  | Hp : request_parse _ _ _ = Ok _ |- _ => apply request_parse_inv in Hp as [Hp _]
  end.
  match goal with F1 : request_fields ?x = (tr_op r1, _, _), F2 : request_fields ?y = (tr_op r2, _, _) |- _ =>
    assert (request_fields x = request_fields y) as Heq
      by (apply request_signed; [by rewrite F1, F2|done|done]); rewrite F1, F2 in Heq end.
  injection Heq as ? ? ?. unfold same_tcp_rpc. f_equal; congruence.
Qed.

(** The signature of an RPC is for that RPC. Two requests of one
    transport with one transcript agree on every field but the signature
    (and, on QUIC, are for the same TLS channel); and no request shares its
    transcript with a request of the other transport or with an OPEN or an
    ACK, so a signed RPC can never be replayed as a session. *)
Theorem rpc_request_binds t :
  (∀ r1 r2 b1 b2, quic_rpc_transcript r1 b1 = Ok t → quic_rpc_transcript r2 b2 = Ok t →
     same_quic_rpc r1 r2 ∧ b1 = b2) ∧
  (∀ r1 r2, tcp_rpc_transcript r1 = Ok t → tcp_rpc_transcript r2 = Ok t → same_tcp_rpc r1 r2) ∧
  ¬ ((∃ r b, quic_rpc_transcript r b = Ok t) ∧ (∃ r, tcp_rpc_transcript r = Ok t)) ∧
  ¬ ((∃ r b, quic_rpc_transcript r b = Ok t) ∧ session_transcript t) ∧
  ¬ ((∃ r, tcp_rpc_transcript r = Ok t) ∧ session_transcript t).
Proof.
  unfold session_transcript. split_and!.
  - intros *. apply quic_rpc_pins.
  - intros *. apply tcp_rpc_pins.
  - intros ([? [? ?]] & [? ?]). by_domain.
  - intros ([? [? ?]] & Hs). destruct Hs as [(? & ?)|[(? & ? & ?)|[(? & ? & ? & ?)|(? & ? & ? & ?)]]]; by_domain.
  - intros ([? ?] & Hs). destruct Hs as [(? & ?)|[(? & ? & ?)|[(? & ? & ? & ?)|(? & ? & ? & ?)]]]; by_domain.
Qed.

(** *** Results *)

Lemma record_text_inv text bytes : record_text text = Ok bytes → text = b64_encode bytes.
Proof. unfold record_text. intros. h_inv. by bool_simpl. Qed.

Lemma record_bytes_inv records max raw :
  record_bytes records max = Ok raw → records = b64_encode <$> raw ∧ (length raw ≤ max)%nat.
Proof.
  unfold record_bytes. intros Hr. apply bind_Ok in Hr as (? & Hl%h_require_Ok & Hm%try_map_Ok).
  bool_simpl. rewrite <-(Forall2_length _ _ _ Hm). split; [|done].
  clear Hl. induction Hm as [|text b l raw Ht _ IH]; [done|]. cbn. f_equal; [by apply record_text_inv|done].
Qed.

Lemma result_transcript_inj d1 d2 p1 p2 r1 r2 k1 k2 raw1 raw2 t :
  result_transcript d1 p1 r1 k1 raw1 = Ok t → result_transcript d2 p2 r2 k2 raw2 = Ok t →
  d1 = d2 ∧ p1 = p2 ∧ r1 = r2 ∧ k1 = k2 ∧ raw1 = raw2.
Proof.
  unfold result_transcript. intros H1 H2. destruct (transcript_inj _ _ _ _ _ H1 H2) as [-> Hf].
  injection Hf as -> -> Hk _ ->. split_and!; try done. by apply array_eq.
Qed.

(** What the envelope checks of a result establish. *)
Lemma quic_result_inv s rpc retained t raw k :
  quic_result_transcript s rpc retained = Ok (t, (raw, k)) →
  s = mkQuicRpcResult QUIC_RESULT true QUIC (b64_encode (array_bytes k)) (qr_receiver_fingerprint rpc)
    (qr_sender_fingerprint rpc) (qr_nonce rpc) (qr_op rpc) (b64_encode <$> raw) (qs_signature s) ∧
  result_transcript (lit "fang.quic.rpc.result/v1") QUIC retained k raw = Ok t ∧
  ∃ request, quic_request rpc = Ok request ∧ (length raw ≤ max_records request)%nat.
Proof.
  unfold quic_result_transcript. intros Hs. h_inv. simplify_eq. bool_simpl.
  match goal with
  | Hr : record_bytes _ _ = Ok _, Hp : public_matches _ _ = Ok _, Hq : quic_request _ = Ok ?q |- _ =>
      apply record_bytes_inv in Hr as [Hr Hl]; apply public_matches_text in Hp;
      split_and!; [|done|by exists q]
  end.
  destruct s as [? [] ? ? ? ? ? ? ? ?]; cbn in *; by subst.
Qed.

Lemma tcp_result_inv s rpc retained t raw k :
  tcp_result_transcript s rpc retained = Ok (t, (raw, k)) →
  s = mkTcpRpcResult TCP_RESULT true TCP (b64_encode (array_bytes k)) (tr_receiver_fingerprint rpc)
    (tr_sender_fingerprint rpc) (tr_challenge rpc) (tr_nonce rpc) (tr_op rpc) (b64_encode <$> raw)
    (ts_signature s) ∧
  result_transcript (lit "fang.tcp.rpc.result/v1") TCP retained k raw = Ok t ∧
  ∃ request, tcp_request rpc = Ok request ∧ (length raw ≤ max_records request)%nat.
Proof.
  unfold tcp_result_transcript. intros Hs. h_inv. simplify_eq. bool_simpl.
  match goal with
  | Hr : record_bytes _ _ = Ok _, Hp : public_matches _ _ = Ok _, Hq : tcp_request _ = Ok ?q |- _ =>
      apply record_bytes_inv in Hr as [Hr Hl]; apply public_matches_text in Hp;
      split_and!; [|done|by exists q]
  end.
  destruct s as [? [] ? ? ? ? ? ? ? ? ?]; cbn in *; by subst.
Qed.

(** A signed result answers one request with one list of records. If
    two results, each for a request whose transcript was retained, have one
    transcript, then the requests agree on every field but the signature and
    were sent on the same TLS channel, and the results agree on every field
    but the signature, the records included; and that transcript is no
    session's, no request's and no TCP result's. *)
Theorem quic_result_binds s1 s2 r1 r2 b1 b2 q1 q2 x1 x2 t :
  quic_rpc_transcript r1 b1 = Ok q1 → quic_rpc_transcript r2 b2 = Ok q2 →
  quic_result_transcript s1 r1 q1 = Ok (t, x1) → quic_result_transcript s2 r2 q2 = Ok (t, x2) →
  same_quic_rpc r1 r2 ∧ b1 = b2 ∧ x1 = x2 ∧
  qs_records s1 = qs_records s2 ∧ qs_receiver_pubkey s1 = qs_receiver_pubkey s2 ∧
  ¬ session_transcript t ∧ (∀ r b, quic_rpc_transcript r b ≠ Ok t) ∧ (∀ r, tcp_rpc_transcript r ≠ Ok t) ∧
  (∀ s r q x, tcp_result_transcript s r q ≠ Ok (t, x)).
Proof.
  destruct x1 as [raw1 k1], x2 as [raw2 k2]. intros Q1 Q2 H1 H2.
  pose proof (quic_result_domain _ _ _ _ _ H1) as Hd.
  apply quic_result_inv in H1 as (E1 & T1 & _), H2 as (E2 & T2 & _).
  destruct (result_transcript_inj _ _ _ _ _ _ _ _ _ _ _ T1 T2) as (_ & _ & -> & -> & ->).
  destruct (quic_rpc_pins _ _ _ _ _ Q1 Q2) as [Hsame ->].
  rewrite E1, E2. unfold session_transcript. split_and!; try done; try by_domain.
  intros Hs. destruct Hs as [(? & ?)|[(? & ? & ?)|[(? & ? & ? & ?)|(? & ? & ? & ?)]]]; by_domain.
Qed.

(** *** What a requester accepts *)

(** The statements of a chain that starts after [head], as the governance
    log has them: each names its predecessor's hash, sequences by one. *)
Fixpoint chain_from (head : array 32) (l : list Gov.Statement) : Prop :=
  match l with
  | [] => True
  | s :: l' =>
      Gov.previous (Gov.core s) = head ∧ chain_from (Gov.core_hash (Gov.core s)) l' ∧
      match l' with
      | [] => True
      | s' :: _ => Gov.sequence (Gov.core s') = Gov.sequence (Gov.core s) + 1
      end
  end.

Lemma chained_inv l : ∀ head sq,
  chained head sq l = Ok () →
  chain_from head l ∧
  match sq, l with Some n, s :: _ => Gov.sequence (Gov.core s) = n + 1 | _, _ => True end.
Proof.
  induction l as [|s l IH]; intros head sq Hc; [by destruct sq|]. cbn [chained] in Hc. h_inv. bool_simpl.
  apply IH in Hc as [Hl Hn]. split.
  - split_and!; [done|done|]. by destruct l.
  - destruct sq as [n|]; [|done]. h_inv. bool_simpl.
    match goal with Hu : u64_checked_add _ _ = Some _ |- _ =>
      apply u64_checked_add_Some in Hu as [_ ->] end. done.
Qed.

Lemma chained_own l : ∀ head sq,
  Forall (λ s, u64_range (Gov.sequence (Gov.core s))) l → chain_from head l →
  match sq, l with Some n, s :: _ => Gov.sequence (Gov.core s) = n + 1 ∧ 0 ≤ n | _, _ => True end →
  chained head sq l = Ok ().
Proof.
  induction l as [|s l IH]; intros head sq Hr Hc Hn; [done|]. cbn [chained chain_from] in *.
  destruct Hc as (Hp & Hc & Hs). apply Forall_cons in Hr as [Hr Hrl].
  rewrite bool_decide_eq_true_2 by done. cbn [h_require mbind result_bind].
  assert (chained (Gov.core_hash (Gov.core s)) (Some (Gov.sequence (Gov.core s))) l = Ok ()) as Hrest.
  { apply IH; [done|done|]. destruct l; [done|]. unfold u64_range in Hr. lia. }
  destruct sq as [n|]; [|done]. destruct Hn as [Hn Hn0]. unfold u64_range in *.
  rewrite (proj2 (u64_checked_add_Some n 1 (n + 1))) by lia. cbn. rewrite <-Hn, Z.eqb_refl. done.
Qed.

Lemma accepted_governance_inv raw request l :
  accepted_governance raw request = Ok l →
  ∃ head k, request = Governance head k ∧ raw = Gov.statement_encode <$> l ∧
    Forall GovCodec.statement_ok l ∧ chain_from head l.
Proof.
  destruct request as [| | |head k]; [done..|]. cbn [accepted_governance]. intros Ha. h_inv.
  match goal with Hm : try_map _ _ = Ok _, Hc : chained _ _ _ = Ok ?u |- _ =>
    destruct u; apply chained_inv in Hc as [Hc _]; apply try_map_Ok in Hm; rename Hm into HF end.
  exists head, k. split_and!; [done| | |done].
  - clear -HF. induction HF as [|b s raw l Hb _ IH]; [done|]. cbn. rewrite IH. f_equal.
    apply map_err_Ok, GovCodec.decode_inv in Hb as [<- _]. done.
  - clear -HF. induction HF as [|b s raw l Hb _ IH]; constructor; [|done].
    by apply map_err_Ok, GovCodec.decode_inv in Hb as [_ ?].
Qed.

Lemma accepted_governance_own l head k :
  Forall GovCodec.statement_ok l → chain_from head l →
  accepted_governance (Gov.statement_encode <$> l) (Governance head k) = Ok l.
Proof.
  intros Hok Hc. cbn [accepted_governance]. rewrite (proj2 (try_map_Ok _ _ l)).
  - cbn [mbind result_bind]. rewrite (chained_own _ head None); [done| |done|done].
    apply (Forall_impl _ _ _ Hok). by intros s [? _].
  - clear Hc. induction Hok as [|s l Hs _ IH]; [constructor|]. rewrite fmap_cons. constructor; [|done].
    by rewrite GovCodec.decode_encode.
Qed.

Lemma quic_checked_inv s rpc retained raw k request :
  quic_result_checked s rpc retained = Ok (raw, k, request) →
  quic_request rpc = Ok request ∧ (length raw ≤ max_records request)%nat ∧
  qs_records s = b64_encode <$> raw ∧ qs_receiver_pubkey s = b64_encode (array_bytes k) ∧
  ∃ t, result_transcript (lit "fang.quic.rpc.result/v1") QUIC retained k raw = Ok t ∧
    verify (qs_receiver_pubkey s) t (qs_signature s) = Ok ().
Proof.
  unfold quic_result_checked. intros Hs. apply bind_Ok in Hs as ([t [raw' k']] & Ht & Hs).
  h_inv. simplify_eq. apply quic_result_inv in Ht as (Es & Ht & q & Hq & Hl).
  match goal with Hv : verify _ _ _ = Ok ?u |- _ => destruct u; rename Hv into Hver end.
  assert (q = request) as -> by congruence.
  split_and!; [done|done|by rewrite Es|by rewrite Es|by exists t].
Qed.

(** The statements a node takes from a peer's answer are a chain from
    its own head. Whatever the peer sends, [verify_governance] returns [l]
    only if the request was for governance, [l] holds at most the number
    asked for (at most four), every statement is one the codec accepts, the
    first names the requested head and each next names its predecessor with
    the next sequence number, the records on the wire are exactly their
    encodings, and the peer's key signed them together with the retained
    request. *)
Theorem governance_result_chains s rpc retained l :
  quic_verify_governance s rpc retained = Ok l →
  ∃ head k t, quic_request rpc = Ok (Governance head k) ∧ (length l ≤ byte_nat k)%nat ∧
    byte_val k ≤ MAX_GOVERNANCE_K ∧ Forall GovCodec.statement_ok l ∧ chain_from head l ∧
    qs_records s = (λ st, b64_encode (Gov.statement_encode st)) <$> l ∧
    (∃ key, result_transcript (lit "fang.quic.rpc.result/v1") QUIC retained key
       (Gov.statement_encode <$> l) = Ok t ∧ qs_receiver_pubkey s = b64_encode (array_bytes key)) ∧
    verify (qs_receiver_pubkey s) t (qs_signature s) = Ok ().
Proof.
  unfold quic_verify_governance. intros Hv. apply bind_Ok in Hv as ([[raw key] request] & Hc & Hv).
  apply quic_checked_inv in Hc as (Hq & Hl & Hr & Hp & t & Ht & Hver).
  apply accepted_governance_inv in Hv as (head & k & -> & -> & Hok & Hch).
  exists head, k, t. rewrite length_fmap in Hl. split_and!; try done.
  - unfold quic_request in Hq. h_inv. apply request_parse_inv in Hq as [_ Hk]. apply Hk.
  - by rewrite Hr, <-list_fmap_compose.
  - by exists key.
Qed.

Lemma accepted_records_inv sha256 raw request key now l :
  accepted_records sha256 raw request key now = Ok l →
  (request = Ping ∨ ∃ t k, request = FindNode t k) ∧ (length l ≤ length raw)%nat ∧
  ∀ r, r ∈ l → Contact.encode r ∈ raw ∧ (∃ id, Contact.verify sha256 r now = Ok id) ∧
    (request = Ping → Contact.public_key r = key).
Proof.
  unfold accepted_records. intros Ha. h_inv. split_and!.
  - destruct request; naive_solver.
  - etransitivity; [apply length_filter|]. clear. induction raw as [|b raw IH]; [done|].
    cbn. destruct (Contact.decode b); cbn; lia.
  - intros r ([Hv Hk] & (b & Hb & Hd)%list_elem_of_omap)%list_elem_of_filter.
    destruct (Contact.decode b) as [r'|] eqn:Hdec; simplify_eq.
    apply RecordsSpec.contact_decode_iff in Hdec as [<- _].
    split_and!; [done| |naive_solver]. destruct (Contact.verify sha256 r now) as [id|]; [by exists id|done].
Qed.

(** The contacts a node takes from a peer's answer were each signed by
    the node they name and are still valid. [verify] returns [l] only for a
    [ping] or a [find_node], with no more records than the request allows;
    each comes from a record of the result, passes [ContactRecord::verify]
    at the given time, and for a [ping] carries the key that signed the
    result. *)
Theorem contact_result_sound sha256 s rpc retained now l :
  quic_verify sha256 s rpc retained now = Ok l →
  ∃ request, quic_request rpc = Ok request ∧ (request = Ping ∨ ∃ t k, request = FindNode t k) ∧
    (length l ≤ max_records request)%nat ∧
    ∀ r, r ∈ l → b64_encode (Contact.encode r) ∈ qs_records s ∧ (∃ id, Contact.verify sha256 r now = Ok id) ∧
      (request = Ping → b64_encode (array_bytes (Contact.public_key r)) = qs_receiver_pubkey s).
Proof.
  unfold quic_verify. intros Hv. apply bind_Ok in Hv as ([[raw key] request] & Hc & Hv).
  apply quic_checked_inv in Hc as (Hq & Hl & Hr & Hp & _).
  apply accepted_records_inv in Hv as (Hreq & Hlen & Hall). exists request. split_and!; [done|done|lia|].
  intros r (Hin & Hver & Hk)%Hall. rewrite Hr, Hp. split_and!; [by apply list_elem_of_fmap_2|done|].
  intros ->. by rewrite Hk.
Qed.

(** *** Honest parties *)

Section honest.
Context `{!CryptoLaws} `{!Base64Laws}.

Lemma length_request r : (length (request_fields r).1.1 ≤ 10)%nat ∧ (length (target_bytes r) ≤ 32)%nat.
Proof. destruct r; cbn [request_fields fst target_bytes]; rewrite ?length_array; vm_compute; lia. Qed.

Lemma quic_rpc_own ssk receiver_public request nonce sig (binding : array 32) :
  request_ok request →
  let rpc := mkQuicRpc QUIC_RPC QUIC (fingerprint_of_bytes (array_bytes (sk_public ssk)))
    (fingerprint_of_bytes receiver_public) (hex (array_bytes (n := 16) nonce))
    (request_fields request).1.1 (request_fields request).1.2 (request_fields request).2 sig in
  quic_request rpc = Ok request ∧
  ∃ t, (length t ≤ 1000)%nat ∧ quic_rpc_transcript rpc binding = Ok t.
Proof.
  intros Hok rpc. assert (quic_request rpc = Ok request) as Hq by (by apply request_parse_own).
  split; [done|]. unfold quic_rpc_transcript. rewrite Hq.
  cbn [rpc qr_sender_fingerprint qr_receiver_fingerprint qr_nonce qr_op mbind result_bind].
  destruct (h_fingerprint_own (array_bytes (sk_public ssk))) as [a ->].
  destruct (h_fingerprint_own receiver_public) as [b ->].
  rewrite h_unhex_own. cbn [mbind result_bind]. destruct (length_request request) as [Ho Ht].
  match goal with |- context [transcript ?d ?fs] => destruct (transcript_total d fs) as (t & Htr & Hl) end.
  { repeat constructor; rewrite ?length_own, ?length_array; cbn [length]; first [lia|cbn; lia]. }
  exists t. split; [|done]. rewrite Hl. cbn [sum_list_with].
  rewrite !length_own, !length_array. change (length QUIC) with 12%nat.
  change (length (lit "fang.quic.rpc/v1")) with 16%nat. cbn [length]. lia.
Qed.

Lemma record_bytes_own raw max :
  (length raw ≤ max)%nat → record_bytes (b64_encode <$> raw) max = Ok raw.
Proof.
  intros Hl. unfold record_bytes. rewrite length_fmap, (proj2 (Nat.leb_le _ _)) by done.
  cbn [h_require mbind result_bind]. apply try_map_Ok. clear Hl.
  induction raw as [|b raw IH]; [constructor|]. rewrite fmap_cons. constructor; [|done].
  unfold record_text. rewrite b64_decode_encode. cbn. by rewrite bool_decide_eq_true_2.
Qed.

(** The result of an honest responder passes the requester's checks. *)
Lemma quic_result_own {R} `{RpcEntry R} rpc retained rsk request (records : list R) :
  quic_request rpc = Ok request →
  qr_receiver_fingerprint rpc = fingerprint_of_bytes (array_bytes (sk_public rsk)) →
  (length records ≤ max_records request)%nat → (length retained ≤ 1000)%nat →
  Forall (λ r, Z.of_nat (length (entry_bytes r)) < 2 ^ 32) records →
  key_weak (sk_public rsk) = false →
  ∃ s, quic_result_new rpc retained (generate_identity rsk) records = Ok s ∧
    quic_result_checked s rpc retained = Ok (entry_bytes <$> records, sk_public rsk, request).
Proof.
  intros Hq Hf Hl Hret Hsz Hw. set (raw := entry_bytes <$> records).
  assert (∃ t, result_transcript (lit "fang.quic.rpc.result/v1") QUIC retained (sk_public rsk) raw = Ok t)
    as [t Ht].
  { unfold result_transcript.
    match goal with |- context [transcript ?d ?fs] => destruct (transcript_total d fs) as (t & Htr & _) end;
      [|by exists t].
    repeat (constructor; [rewrite ?length_array; first [lia|cbn; lia]|]).
    by apply Forall_fmap. }
  set (value sig := mkQuicRpcResult QUIC_RESULT true QUIC (b64_encode (array_bytes (sk_public rsk)))
    (fingerprint_of_bytes (array_bytes (sk_public rsk))) (qr_sender_fingerprint rpc) (qr_nonce rpc)
    (qr_op rpc) ((λ r, b64_encode (entry_bytes r)) <$> records) sig).
  assert (∀ sig, quic_result_transcript (value sig) rpc retained = Ok (t, (raw, sk_public rsk))) as Hv.
  { intros sig. unfold quic_result_transcript, value.
    cbn [qs_cmd qs_ok qs_protocol qs_receiver_pubkey qs_receiver_fingerprint qs_sender_fingerprint qs_nonce
         qs_op qs_records].
    rewrite !bool_decide_eq_true_2 by done. cbn [h_require andb mbind result_bind].
    rewrite public_matches_own, Hq. cbn [mbind result_bind].
    change ((λ r, b64_encode (entry_bytes r)) <$> records) with (b64_encode ∘ entry_bytes <$> records).
    rewrite (list_fmap_compose entry_bytes b64_encode). fold raw.
    rewrite record_bytes_own by (unfold raw; by rewrite length_fmap). cbn [mbind result_bind]. by rewrite Ht. }
  exists (value (b64_encode (array_bytes (sk_sign rsk t)))). split.
  - unfold quic_result_new. cbn [generate_identity public_key_b64 Pelt.fingerprint]. fold value.
    change (mkQuicRpcResult _ _ _ _ _ _ _ _ _ []) with (value []). rewrite Hv. cbn [mbind result_bind].
    rewrite sign_own. done.
  - unfold quic_result_checked. rewrite Hv. cbn [mbind result_bind]. unfold value at 1 2.
    cbn [qs_receiver_pubkey qs_signature]. rewrite verify_own by done. by rewrite Hq.
Qed.

(** From a request to a checked result. *)
Lemma quic_rpc_exchange {R} `{RpcEntry R} ssk rsk binding nonce request (records : list R)
    (accept : QuicRpcResult → QuicRpc → list byte → hs (list R)) :
  request_ok request → (length records ≤ max_records request)%nat →
  Forall (λ r, Z.of_nat (length (entry_bytes r)) < 2 ^ 32) records →
  key_weak (sk_public rsk) = false →
  (∀ s rpc t, quic_result_checked s rpc t = Ok (entry_bytes <$> records, sk_public rsk, request) →
     accept s rpc t = Ok records) →
  ∃ rpc t s, quic_rpc_new (generate_identity ssk) (fingerprint_of_bytes (array_bytes (sk_public rsk)))
       request binding nonce = Ok rpc ∧
     quic_rpc_transcript rpc binding = Ok t ∧
     quic_result_new rpc t (generate_identity rsk) records = Ok s ∧ accept s rpc t = Ok records.
Proof.
  intros Hok Hl Hsz Hw Hacc.
  pose proof (λ sig, quic_rpc_own ssk (array_bytes (sk_public rsk)) request nonce sig binding Hok) as Hown.
  destruct (Hown []) as (_ & t0 & _ & Ht0).
  destruct (Hown (b64_encode (array_bytes (sk_sign ssk t0)))) as (Hq & t & Hlen & Ht).
  destruct (quic_result_own _ t rsk request records Hq) as (s & Hs & Hc); [done..|].
  eexists _, t, s. split_and!; [|done|done|by apply Hacc].
  unfold quic_rpc_new. destruct (request_fields request) as [[op target] k].
  cbn [generate_identity Pelt.fingerprint fst snd] in *. rewrite Ht0. cbn [mbind result_bind].
  by rewrite sign_own.
Qed.

Lemma accepted_services_own l :
  Published.validate_published l = Ok () → Forall RecordsSpec.published_fits l →
  accepted_services (Published.encode <$> l) Services = Ok l.
Proof.
  intros Hv Hf. unfold accepted_services. rewrite bool_decide_eq_true_2 by done.
  cbn [h_require mbind result_bind]. rewrite (proj2 (try_map_Ok _ _ l)); [cbn [mbind result_bind]; by rewrite Hv|].
  apply RecordsSpec.validate_published_iff in Hv as (_ & Hc & _).
  induction Hf as [|e l He _ IH]; [constructor|]. apply Forall_cons in Hc as [Hce Hc].
  rewrite fmap_cons. constructor; [|by apply IH].
  apply map_err_Ok, RecordsSpec.published_decode_iff. done.
Qed.

(** Honest nodes exchange governance statements and services. A request
    in range that an honest sender builds has a transcript; the responder
    that signs at most the requested number of well-formed statements which
    chain from the requested head produces a result, and verifying it
    against the retained request returns exactly those statements; likewise
    for a list of valid published entries. *)
Theorem quic_rpc_honest ssk rsk binding nonce head k l services :
  key_weak (sk_public rsk) = false →
  1 ≤ byte_val k ≤ MAX_GOVERNANCE_K → (length l ≤ byte_nat k)%nat →
  Forall GovCodec.statement_ok l → chain_from head l →
  Published.validate_published services = Ok () → Forall RecordsSpec.published_fits services →
  let receiver := fingerprint_of_bytes (array_bytes (sk_public rsk)) in
  (∃ rpc t s, quic_rpc_new (generate_identity ssk) receiver (Governance head k) binding nonce = Ok rpc ∧
     quic_rpc_transcript rpc binding = Ok t ∧
     quic_result_new rpc t (generate_identity rsk) l = Ok s ∧ quic_verify_governance s rpc t = Ok l) ∧
  (∃ rpc t s, quic_rpc_new (generate_identity ssk) receiver Services binding nonce = Ok rpc ∧
     quic_rpc_transcript rpc binding = Ok t ∧
     quic_result_new rpc t (generate_identity rsk) services = Ok s ∧
     quic_verify_services s rpc t = Ok services).
Proof.
  intros Hw Hk Hl Hok Hch Hsv Hfit receiver.
  split; [apply (quic_rpc_exchange _ _ _ _ (Governance head k) l quic_verify_governance)
         |apply (quic_rpc_exchange _ _ _ _ Services services quic_verify_services)]; try done.
  - apply (Forall_impl _ _ _ Hok). intros st (_ & _ & _ & _ & Hlen).
    unfold entry_bytes, statement_entry, Gov.MAX_STATEMENT_LEN in *. lia.
  - intros s rpc t Hc. unfold quic_verify_governance. rewrite Hc. by apply accepted_governance_own.
  - by apply RecordsSpec.validate_published_iff in Hsv as (? & _).
  - apply (Forall_impl _ _ _ Hfit). intros e He. unfold entry_bytes, published_entry.
    pose proof (RecordsSpec.length_published _ He).
    assert (Z.of_nat Published.MAX_ENCODED_LEN < 2 ^ 32) by (vm_compute; done). lia.
  - intros s rpc t Hc. unfold quic_verify_services. rewrite Hc. by apply accepted_services_own.
Qed.

End honest.

End messages.
End RpcSpec.

(** ** Instances *)

Module RpcDemo.
Import Pelt Handshake Rpc RpcSpec Toy HandshakeDemo.

Definition demo_first : Gov.Statement := Gov.mkStatement (Gov.mkCore (key_of 1) 5 (key_of 2) Gov.Activation) [].
Definition demo_second : Gov.Statement :=
  Gov.mkStatement (Gov.mkCore (key_of 1) 6 (Gov.core_hash (Gov.core demo_first)) Gov.Death) [].
Definition demo_statements : list Gov.Statement := [demo_first; demo_second].
Definition demo_services : list Published.PublishedService :=
  [Published.mkPublished (lit "ssh") Service.Ssh (lit "127.0.0.1:22")].
Definition demo_receiver : str := fingerprint_of_bytes (array_bytes (sk_public receiver_key)).
Definition demo_nonce : array 16 := toy_array 16 (lit "nonce").

Lemma demo_statements_ok : Forall GovCodec.statement_ok demo_statements.
Proof.
  unfold demo_statements. rewrite !Forall_cons. split_and!; [| |by apply Forall_nil];
    (split_and!; [by vm_compute|done|by vm_compute|by apply Nat.ltb_lt; vm_compute|
      by apply Nat.leb_le; vm_compute]).
Qed.

Lemma demo_chain : chain_from (key_of 2) demo_statements.
Proof. split_and!; [reflexivity|split_and!; [reflexivity|done|done]|reflexivity]. Qed.

Lemma quic_rpc_honest_witness :
  (∃ rpc t s, quic_rpc_new (generate_identity sender_key) demo_receiver (Governance (key_of 2) x02)
       (key_of 5) demo_nonce = Ok rpc ∧
     quic_rpc_transcript rpc (key_of 5) = Ok t ∧
     quic_result_new rpc t (generate_identity receiver_key) demo_statements = Ok s ∧
     quic_verify_governance s rpc t = Ok demo_statements) ∧
  (∃ rpc t s, quic_rpc_new (generate_identity sender_key) demo_receiver Services (key_of 5) demo_nonce = Ok rpc ∧
     quic_rpc_transcript rpc (key_of 5) = Ok t ∧
     quic_result_new rpc t (generate_identity receiver_key) demo_services = Ok s ∧
     quic_verify_services s rpc t = Ok demo_services).
Proof.
  apply (quic_rpc_honest sender_key receiver_key (key_of 5) demo_nonce).
  - vm_compute. reflexivity.
  - vm_compute. split; congruence.
  - vm_compute. lia.
  - apply demo_statements_ok.
  - apply demo_chain.
  - vm_compute. reflexivity.
  - apply Forall_singleton. split_and!; try reflexivity; by apply Nat.leb_le; vm_compute.
Defined.

(** One run: the request, its transcript and the signed result. *)
Definition demo_rpc {R} `{RpcEntry R} (request : RpcRequest) (records : list R)
    : hs (QuicRpc * list byte * QuicRpcResult) :=
  rpc ← quic_rpc_new (generate_identity sender_key) demo_receiver request (key_of 5) demo_nonce;
  t ← quic_rpc_transcript rpc (key_of 5);
  s ← quic_result_new rpc t (generate_identity receiver_key) records;
  Ok (rpc, t, s).

Lemma governance_result_chains_witness :
  match demo_rpc (Governance (key_of 2) x02) demo_statements with
  | Ok (rpc, t, s) => ∃ l, quic_verify_governance s rpc t = Ok l ∧ length l = 2%nat ∧
      ∃ head, chain_from head l
  | Err _ => False
  end.
Proof.
  destruct (demo_rpc _ _) as [[[rpc t] s]|] eqn:Hrun; [|vm_compute in Hrun; discriminate Hrun].
  destruct (quic_verify_governance s rpc t) as [l|] eqn:Hv.
  2: { vm_compute in Hrun. injection Hrun as <- <- <-. vm_compute in Hv. discriminate Hv. }
  exists l. split_and!; [done| |].
  - vm_compute in Hrun. injection Hrun as <- <- <-. vm_compute in Hv. by injection Hv as <-.
  - destruct (governance_result_chains s rpc t l Hv) as (head & _ & _ & _ & _ & _ & _ & Hc & _).
    by exists head.
Defined.

Definition demo_contact : Contact.ContactRecord :=
  match Contact.sign (generate_identity receiver_key) [lit "127.0.0.1:9000"] 1 200 100 with
  | Ok r => r
  | Err _ => Contact.mkContact (key_of 0) [] 0 0 (toy_array 64 [])
  end.

Lemma contact_result_sound_witness :
  match demo_rpc Ping [demo_contact] with
  | Ok (rpc, t, s) => ∃ l, quic_verify toy_hash s rpc t 150 = Ok l ∧ (length l ≤ 1)%nat
  | Err _ => False
  end.
Proof.
  destruct (demo_rpc _ _) as [[[rpc t] s]|] eqn:Hrun; [|vm_compute in Hrun; discriminate Hrun].
  destruct (quic_verify toy_hash s rpc t 150) as [l|] eqn:Hv.
  2: { vm_compute in Hrun. injection Hrun as <- <- <-. vm_compute in Hv. discriminate Hv. }
  exists l. split; [done|]. destruct (contact_result_sound _ _ _ _ _ _ Hv) as (q & Hq & _ & Hl & _).
  vm_compute in Hrun. injection Hrun as <- <- <-. vm_compute in Hq. by injection Hq as <-.
Defined.

Lemma quic_result_binds_witness :
  match demo_rpc Services demo_services with
  | Ok (rpc, q, s) => ∃ t x, quic_result_transcript s rpc q = Ok (t, x) ∧
      ∀ s' r' b' q' x', quic_rpc_transcript r' b' = Ok q' → quic_result_transcript s' r' q' = Ok (t, x') →
        qs_records s = qs_records s'
  | Err _ => False
  end.
Proof.
  destruct (demo_rpc _ _) as [[[rpc q] s]|] eqn:Hrun; [|vm_compute in Hrun; discriminate Hrun].
  destruct (quic_result_transcript s rpc q) as [[t x]|] eqn:Ht.
  2: { vm_compute in Hrun. injection Hrun as <- <- <-. vm_compute in Ht. discriminate Ht. }
  exists t, x. split; [done|]. intros s' r' b' q' x' Hq' Ht'. unfold demo_rpc in Hrun. HandshakeSpec.h_inv.
  simplify_eq. eapply (quic_result_binds s s' rpc r' _ _ q q'); eassumption.
Defined.

End RpcDemo.
