(* ===== verification/Admission.v ===== *)
(** * Admission of handshakes, and QUIC replay ([werewolfd/src/admission.rs])

    Three counting semaphores bound the handshakes, QUIC contexts and target
    connections of the process; two maps bound the authenticated handshakes
    and the target connections of one peer. The semaphore is tokio's, so it
    is a parameter, with what its documentation says as laws. A permit is
    given back in two steps (the peer's counter, then the semaphore), and a
    target permit is taken in two, so the components of an operation are
    separate definitions and the transition system interleaves them. *)

From stdpp Require Import gmap.
From S2P Require Export Handshake.

Local Open Scope nat_scope.

(** ** The semaphore (tokio) *)

Class Semaphore : Type := {
  sem : Type;
  sem_new : nat → sem;
  try_acquire : sem → option sem;
  release : sem → sem;
  available : sem → nat
}.

(** [try_acquire] takes a permit exactly when there is one; dropping a permit
    gives it back. *)
Class SemaphoreLaws `{Semaphore} : Prop := {
  available_new n : available (sem_new n) = n;
  acquire_some s s' : try_acquire s = Some s' → available s = S (available s');
  acquire_none s : try_acquire s = None ↔ available s = 0;
  available_release s : available (release s) = S (available s)
}.

(** A counter is a semaphore. *)
#[export] Instance counter_semaphore : Semaphore := {|
  sem := nat;
  sem_new := λ n, n;
  try_acquire := λ n, match n with O => None | S m => Some m end;
  release := S;
  available := λ n, n
|}.

#[export] Instance counter_semaphore_laws : SemaphoreLaws.
Proof.
  split; [done| | |done].
  - intros [|n] s'; [done|]. by intros [= <-].
  - intros [|n]; split; done.
Qed.

(** ** The standard library's mutex

    [poisoned] says that a holder panicked. *)

Record Mutex (A : Type) : Type := mkMutex { poisoned : bool; inner : A }.
Arguments mkMutex {_} _ _.
Arguments poisoned {_} _.
Arguments inner {_} _.

Module Admission.
Import Handshake.

Definition GLOBAL_HANDSHAKES : nat := 256.
Definition PEER_HANDSHAKES : nat := 16.
Definition QUIC_CONTEXTS : nat := 128.
Definition QUIC_OPENS : nat := 8.
Definition QUIC_RESERVATIONS : nat := 256.
Definition GLOBAL_TARGET_WORK : nat := 64.
Definition PEER_TARGET_WORK : nat := 8.

(** [lock().map_err(|_| rejected())]. *)
Definition lock_or_reject {A} (m : Mutex A) : hs A :=
  if m.(poisoned) then rejected else Ok m.(inner).

Notation counters := (gmap (array 8) nat).

(** One more for the peer, if it has fewer than [limit]. *)
Definition count_up (m : Mutex counters) (limit : nat) (key : array 8) : hs (Mutex counters) :=
  peers ← lock_or_reject m;
  let count := default 0 (peers !! key) in
  _ ← h_require (count <? limit);
  Ok (mkMutex false (<[key := S count]> peers)).

(** One less for the peer, in a [drop]: poisoning is ignored, and a counter
    at zero would be an overflow panic while the lock is held. *)
Definition count_down (m : Mutex counters) (key : array 8) : Mutex counters :=
  match m.(inner) !! key with
  | Some (S 0) => mkMutex m.(poisoned) (delete key m.(inner))
  | Some (S n) => mkMutex m.(poisoned) (<[key := n]> m.(inner))
  | Some 0 => mkMutex true m.(inner)
  | None => m
  end.

Section admission.
Context `{Semaphore}.

Record Admission : Type := mkAdmission {
  global : sem;
  contexts : sem;
  target_work : sem;
  peers : Mutex counters;
  target_peers : Mutex counters;
  peer_limit : nat
}.

Definition admission_default : Admission :=
  mkAdmission (sem_new GLOBAL_HANDSHAKES) (sem_new QUIC_CONTEXTS) (sem_new GLOBAL_TARGET_WORK)
    (mkMutex false ∅) (mkMutex false ∅) PEER_HANDSHAKES.

Definition set_global s (a : Admission) : Admission :=
  mkAdmission s a.(contexts) a.(target_work) a.(peers) a.(target_peers) a.(peer_limit).
Definition set_contexts s (a : Admission) : Admission :=
  mkAdmission a.(global) s a.(target_work) a.(peers) a.(target_peers) a.(peer_limit).
Definition set_target_work s (a : Admission) : Admission :=
  mkAdmission a.(global) a.(contexts) s a.(peers) a.(target_peers) a.(peer_limit).
Definition set_peers m (a : Admission) : Admission :=
  mkAdmission a.(global) a.(contexts) a.(target_work) m a.(target_peers) a.(peer_limit).
Definition set_target_peers m (a : Admission) : Admission :=
  mkAdmission a.(global) a.(contexts) a.(target_work) a.(peers) m a.(peer_limit).

(** What a permit holds beside its share of a semaphore. *)
Record HandshakePermit : Type := mkHandshakePermit { hp_peer : option (array 8) }.
Record TargetWorkPermit : Type := mkTargetWorkPermit { tp_peer : array 8 }.

Definition handshake (a : Admission) : hs (Admission * HandshakePermit) :=
  s ← h_some (try_acquire a.(global));
  Ok (set_global s a, mkHandshakePermit None).

Definition quic_context (a : Admission) : hs Admission :=
  s ← h_some (try_acquire a.(contexts));
  Ok (set_contexts s a).

(** [HandshakePermit::authenticated]. *)
Definition authenticated (a : Admission) (p : HandshakePermit) (fp : str)
    : hs (Admission * HandshakePermit) :=
  _ ← h_require (bool_decide (p.(hp_peer) = None));
  key ← h_fingerprint fp;
  m ← count_up a.(peers) a.(peer_limit) key;
  Ok (set_peers m a, mkHandshakePermit (Some key)).

(** [Admission::target_work] takes the global permit, then counts the peer;
    when that fails the global permit is dropped. *)
Definition target_acquire (a : Admission) : hs Admission :=
  s ← h_some (try_acquire a.(target_work));
  Ok (set_target_work s a).
Definition target_count (a : Admission) (peer : array 8) : hs (Admission * TargetWorkPermit) :=
  m ← count_up a.(target_peers) PEER_TARGET_WORK peer;
  Ok (set_target_peers m a, mkTargetWorkPermit peer).
Definition target_release (a : Admission) : Admission :=
  set_target_work (release a.(target_work)) a.

Definition admission_target_work (a : Admission) (peer : array 8)
    : Admission * hs TargetWorkPermit :=
  match target_acquire a with
  | Err e => (a, Err e)
  | Ok a1 =>
      match target_count a1 peer with
      | Ok (a2, p) => (a2, Ok p)
      | Err e => (target_release a1, Err e)
      end
  end.

(** [HandshakePermit::target_work]. *)
Definition target_ready (p : HandshakePermit) (fp : str) : hs (array 8) :=
  peer ← h_fingerprint fp;
  _ ← h_require (bool_decide (p.(hp_peer) = Some peer));
  Ok peer.
Definition permit_target_work (a : Admission) (p : HandshakePermit) (fp : str)
    : Admission * hs TargetWorkPermit :=
  match target_ready p fp with
  | Err e => (a, Err e)
  | Ok peer => admission_target_work a peer
  end.

(** The two halves of dropping a permit: its [drop], then its fields. *)
Definition handshake_uncount (a : Admission) (p : HandshakePermit) : Admission :=
  match p.(hp_peer) with
  | Some key => set_peers (count_down a.(peers) key) a
  | None => a
  end.
Definition global_release (a : Admission) : Admission := set_global (release a.(global)) a.
Definition drop_handshake (a : Admission) (p : HandshakePermit) : Admission :=
  global_release (handshake_uncount a p).

Definition target_uncount (a : Admission) (p : TargetWorkPermit) : Admission :=
  set_target_peers (count_down a.(target_peers) p.(tp_peer)) a.
Definition drop_target (a : Admission) (p : TargetWorkPermit) : Admission :=
  target_release (target_uncount a p).

Definition drop_context (a : Admission) : Admission := set_contexts (release a.(contexts)) a.

(** ** Replay of QUIC opens *)

Notation QuicReservation := (array 8 * array 16)%type.

Record QuicReplayV3 : Type := mkReplay {
  opens : sem;
  reservations : Mutex (gset QuicReservation);
  limit : nat
}.

Definition replay_default : QuicReplayV3 :=
  mkReplay (sem_new QUIC_OPENS) (mkMutex false ∅) QUIC_RESERVATIONS.

Definition replay_reserve (r : QuicReplayV3) (sender nonce : str) : hs QuicReplayV3 :=
  s ← h_fingerprint sender;
  n ← unhex 16 nonce;
  entries ← lock_or_reject r.(reservations);
  _ ← h_require ((size entries <? r.(limit)) && negb (bool_decide ((s, n) ∈ entries)));
  Ok (mkReplay r.(opens) (mkMutex false ({[ (s, n) ]} ∪ entries)) r.(limit)).

End admission.
End Admission.

(** ** The choice of transport ([werewolfd/src/policy.rs]) *)

Module Policy.

Inductive FangTransport : Type := Tcp (address : str) | Quic (address : str).
Inductive TransportPolicyError : Type := BadTcpAddress | BadQuicAddress.

Definition parse_fang_transport (address : str) : option FangTransport :=
  match strip_prefix (lit "tcp://") address with
  | Some rest => Some (Tcp rest)
  | None => match strip_prefix (lit "quic://") address with
            | Some rest => Some (Quic rest)
            | None => None
            end
  end.

Definition wants_tcp (requested : str) : bool :=
  bool_decide (requested = lit "tcp") || bool_decide (requested = lit "tcp-plain").

Definition select_peer_transport (requested peer_address : str)
    : result TransportPolicyError FangTransport :=
  if wants_tcp requested then
    match parse_fang_transport (str_replace (lit "quic://") (lit "tcp://") peer_address) with
    | Some (Tcp a) => Ok (Tcp a)
    | _ => Err BadTcpAddress
    end
  else
    match parse_fang_transport peer_address with
    | Some (Quic a) => Ok (Quic a)
    | _ => Err BadQuicAddress
    end.

Definition is_plain_tcp (requested : str) : bool := bool_decide (requested = lit "tcp-plain").

Definition requested_transport (value : option str) : str := trim (default (lit "quic") value).

End Policy.

(** ** What admission guarantees *)

Module AdmissionSpec.
Import Pelt Handshake HandshakeSpec Admission.

(** How often [k] is in [l]. *)
Definition tally (k : array 8) (l : list (array 8)) : nat := length (filter (eq k) l).

Lemma tally_cons k x l : tally k (x :: l) = (if decide (k = x) then 1 else 0) + tally k l.
Proof. unfold tally. rewrite filter_cons. by destruct (decide (k = x)). Qed.

Lemma tally_perm k l l' : l ≡ₚ l' → tally k l = tally k l'.
Proof. intros Hp. unfold tally. by rewrite Hp. Qed.

Lemma tally_length k l : tally k l ≤ length l.
Proof. apply length_filter. Qed.

(** The map counts the list: absent is zero, and no entry is at zero. *)
Definition counted (m : counters) (l : list (array 8)) : Prop :=
  ∀ k, m !! k = match tally k l with O => None | S n => Some (S n) end.

Lemma counted_perm m l l' : l ≡ₚ l' → counted m l → counted m l'.
Proof. intros Hp Hc k. rewrite (Hc k). by rewrite (tally_perm k l l' Hp). Qed.

Lemma counted_default m l k : counted m l → default 0 (m !! k) = tally k l.
Proof. intros Hc. rewrite (Hc k). by destruct (tally k l). Qed.

Lemma counted_nil : counted ∅ [].
Proof. intros k. by rewrite lookup_empty. Qed.

Lemma counted_nil_inv m : counted m [] → m = ∅.
Proof. intros Hc. apply map_eq. intros k. by rewrite (Hc k), lookup_empty. Qed.

Lemma counted_up m l k : counted m l → counted (<[k := S (tally k l)]> m) (k :: l).
Proof.
  intros Hc j. rewrite tally_cons. destruct (decide (j = k)) as [->|Hn].
  - by rewrite lookup_insert_eq.
  - by rewrite lookup_insert_ne, (Hc j) by done.
Qed.

Lemma counted_down m l k :
  counted m (k :: l) →
  ∃ m', count_down (mkMutex false m) k = mkMutex false m' ∧ counted m' l.
Proof.
  intros Hc. pose proof (Hc k) as Hk. rewrite tally_cons, decide_True in Hk by done.
  assert (∀ j, j ≠ k → m !! j = match tally j l with O => None | S n => Some (S n) end) as Hne.
  { intros j Hj. rewrite (Hc j), tally_cons, decide_False by done. done. }
  unfold count_down. cbn [inner poisoned]. rewrite Hk. cbn [Nat.add].
  destruct (tally k l) as [|n] eqn:Ht; eexists; (split; [reflexivity|]); intros j;
    (destruct (decide (j = k)) as [->|Hj]; [|by rewrite ?lookup_delete_ne, ?lookup_insert_ne, Hne by done]).
  - by rewrite lookup_delete_eq, Ht.
  - by rewrite lookup_insert_eq, Ht.
Qed.

Lemma count_up_exact m l lim k :
  counted m l →
  count_up (mkMutex false m) lim k =
    if tally k l <? lim then Ok (mkMutex false (<[k := S (tally k l)]> m)) else rejected.
Proof.
  intros Hc. unfold count_up, lock_or_reject. cbn [poisoned inner mbind result_bind].
  rewrite (counted_default m l k Hc). by destruct (tally k l <? lim).
Qed.

(** An element replaced, and an element removed, up to order. *)
Lemma insert_perm {A} (l : list A) i x y :
  l !! i = Some x → <[i := y]> l ≡ₚ y :: delete i l.
Proof.
  intros Hi. rewrite (insert_take_drop l i y) by (by eapply lookup_lt_Some).
  rewrite delete_take_drop. by rewrite Permutation_middle.
Qed.

(** *** The interleaving of operations

    Permits in use: live handshake permits; permits whose counter has been
    given back but not yet their share of the semaphore; and the same for
    target connections, where [tw_taken] has the shares acquired and not
    yet counted. *)

Section world.
Context `{SemaphoreLaws}.

Record World : Type := mkWorld {
  adm : Admission;
  hs_live : list HandshakePermit;
  hs_dropping : nat;
  tw_taken : list (array 8);
  tw_live : list TargetWorkPermit;
  tw_dropping : nat;
  ctx_live : nat
}.

Definition world_init : World := mkWorld admission_default [] 0 [] [] 0 0.

Inductive step : World → World → Prop :=
| step_handshake a a' p hl hd tt tl td cl :
    handshake a = Ok (a', p) →
    step (mkWorld a hl hd tt tl td cl) (mkWorld a' (p :: hl) hd tt tl td cl)
| step_authenticated a a' i p p' fp hl hd tt tl td cl :
    hl !! i = Some p → authenticated a p fp = Ok (a', p') →
    step (mkWorld a hl hd tt tl td cl) (mkWorld a' (<[i := p']> hl) hd tt tl td cl)
| step_uncount a i p hl hd tt tl td cl :
    hl !! i = Some p →
    step (mkWorld a hl hd tt tl td cl)
         (mkWorld (handshake_uncount a p) (delete i hl) (S hd) tt tl td cl)
| step_global_release a hl hd tt tl td cl :
    step (mkWorld a hl (S hd) tt tl td cl) (mkWorld (global_release a) hl hd tt tl td cl)
| step_target_acquire a a' i p fp peer hl hd tt tl td cl :
    hl !! i = Some p → target_ready p fp = Ok peer → target_acquire a = Ok a' →
    step (mkWorld a hl hd tt tl td cl) (mkWorld a' hl hd (peer :: tt) tl td cl)
| step_target_count a a' i peer p hl hd tt tl td cl :
    tt !! i = Some peer → target_count a peer = Ok (a', p) →
    step (mkWorld a hl hd tt tl td cl) (mkWorld a' hl hd (delete i tt) (p :: tl) td cl)
| step_target_refused a e i peer hl hd tt tl td cl :
    tt !! i = Some peer → target_count a peer = Err e →
    step (mkWorld a hl hd tt tl td cl) (mkWorld a hl hd (delete i tt) tl (S td) cl)
| step_target_uncount a i p hl hd tt tl td cl :
    tl !! i = Some p →
    step (mkWorld a hl hd tt tl td cl)
         (mkWorld (target_uncount a p) hl hd tt (delete i tl) (S td) cl)
| step_target_release a hl hd tt tl td cl :
    step (mkWorld a hl hd tt tl (S td) cl) (mkWorld (target_release a) hl hd tt tl td cl)
| step_context a a' hl hd tt tl td cl :
    quic_context a = Ok a' →
    step (mkWorld a hl hd tt tl td cl) (mkWorld a' hl hd tt tl td (S cl))
| step_drop_context a hl hd tt tl td cl :
    step (mkWorld a hl hd tt tl td (S cl)) (mkWorld (drop_context a) hl hd tt tl td cl).

Definition authenticated_peers (w : World) : list (array 8) := omap hp_peer w.(hs_live).
Definition connecting_peers (w : World) : list (array 8) := tp_peer <$> w.(tw_live).

(** Every share of every semaphore is free or held; the two maps count the
    live permits of each peer, within the peer's limits; no lock is poisoned. *)
Record world_inv (w : World) : Prop := {
  inv_global : available w.(adm).(global) + length w.(hs_live) + w.(hs_dropping) = GLOBAL_HANDSHAKES;
  inv_contexts : available w.(adm).(contexts) + w.(ctx_live) = QUIC_CONTEXTS;
  inv_target : available w.(adm).(target_work) + length w.(tw_taken) + length w.(tw_live)
               + w.(tw_dropping) = GLOBAL_TARGET_WORK;
  inv_limit : w.(adm).(peer_limit) = PEER_HANDSHAKES;
  inv_peers : ∃ m, w.(adm).(peers) = mkMutex false m ∧ counted m (authenticated_peers w);
  inv_target_peers : ∃ m, w.(adm).(target_peers) = mkMutex false m ∧ counted m (connecting_peers w);
  inv_peer_bound : ∀ k, tally k (authenticated_peers w) ≤ PEER_HANDSHAKES;
  inv_target_bound : ∀ k, tally k (connecting_peers w) ≤ PEER_TARGET_WORK
}.

Lemma world_init_inv : world_inv world_init.
Proof.
  split; cbn [adm global contexts target_work peers target_peers peer_limit world_init admission_default
    hs_live hs_dropping tw_taken tw_live tw_dropping ctx_live length]; rewrite ?available_new, ?Nat.add_0_r;
    try done; try (eexists; split; [done|apply counted_nil]).
  - intros k. apply Nat.le_0_l.
  - intros k. apply Nat.le_0_l.
Qed.

Lemma peers_new hl : omap hp_peer (mkHandshakePermit None :: hl) = omap hp_peer hl.
Proof. done. Qed.

Lemma peers_removed hl i p :
  hl !! i = Some p → omap hp_peer hl ≡ₚ option_list p.(hp_peer) ++ omap hp_peer (delete i hl).
Proof.
  intros Hi. rewrite (delete_Permutation hl i p Hi) at 1. cbn. by destruct (hp_peer p).
Qed.

Lemma peers_set hl i p p' :
  hl !! i = Some p →
  omap hp_peer (<[i := p']> hl) ≡ₚ option_list p'.(hp_peer) ++ omap hp_peer (delete i hl).
Proof.
  intros Hi. rewrite (insert_perm hl i p p' Hi). cbn. by destruct (hp_peer p').
Qed.

Lemma length_removed {A} (l : list A) i x : l !! i = Some x → length l = S (length (delete i l)).
Proof. intros Hi. by rewrite (delete_Permutation l i x Hi) at 1. Qed.

(** Reduces the projections of a world and of the setters. *)
Ltac w_cbn :=
  unfold authenticated_peers, connecting_peers, handshake_uncount, global_release, target_uncount,
    target_release, drop_context in *;
  cbn [adm hs_live hs_dropping tw_taken tw_live tw_dropping ctx_live global contexts target_work peers
       target_peers peer_limit set_global set_contexts set_target_work set_peers set_target_peers
       hp_peer tp_peer length] in *; rewrite ?peers_new, ?fmap_cons.

Ltac w_easy :=
  try done; try lia; try (by eexists; split).

Lemma authenticated_inv a a' i p p' fp hl hd tt tl td cl :
  hl !! i = Some p → authenticated a p fp = Ok (a', p') →
  world_inv (mkWorld a hl hd tt tl td cl) → world_inv (mkWorld a' (<[i := p']> hl) hd tt tl td cl).
Proof.
  intros Hi Ha [Hg Hc Ht Hlim (mp & Hp & Hcp) (mt & Htp & Hct) Hpb Htb]. w_cbn.
  unfold authenticated in Ha. h_inv. bool_simpl.
  match goal with Hn : hp_peer p = None |- _ => pose proof (peers_removed hl i p Hi) as Hrem; rewrite Hn in Hrem end.
  match goal with Hc : count_up _ _ ?k = Ok _ |- _ =>
    rename k into key; rewrite Hp, Hlim, (count_up_exact mp _ _ key Hcp) in Hc end.
  destruct (Nat.ltb_spec (tally key (omap hp_peer hl)) PEER_HANDSHAKES) as [Hlt|]; [|done].
  simplify_eq. cbn [option_list app] in Hrem.
  assert (omap hp_peer (<[i := mkHandshakePermit (Some key)]> hl) ≡ₚ key :: omap hp_peer hl) as Hset.
  { rewrite Hrem. apply (peers_set hl i p (mkHandshakePermit (Some key)) Hi). }
  split; w_cbn; rewrite ?length_insert; w_easy.
  - eexists. split; [done|]. eapply counted_perm; [symmetry; exact Hset|]. by apply counted_up.
  - intros k. rewrite (tally_perm _ _ _ Hset), tally_cons.
    destruct (decide (k = key)) as [->|]; [lia|apply Hpb].
Qed.

Lemma uncount_inv a i p hl hd tt tl td cl :
  hl !! i = Some p →
  world_inv (mkWorld a hl hd tt tl td cl) →
  world_inv (mkWorld (handshake_uncount a p) (delete i hl) (S hd) tt tl td cl).
Proof.
  intros Hi [Hg Hc Ht Hlim (mp & Hp & Hcp) (mt & Htp & Hct) Hpb Htb]. w_cbn.
  pose proof (length_removed hl i p Hi) as Hl. pose proof (peers_removed hl i p Hi) as Hrem.
  assert (∀ k, tally k (omap hp_peer (delete i hl)) ≤ PEER_HANDSHAKES) as Hb.
  { intros k. etransitivity; [|apply (Hpb k)]. rewrite (tally_perm k _ _ Hrem).
    unfold tally. rewrite filter_app, length_app. lia. }
  destruct (hp_peer p) as [key|]; split; w_cbn; w_easy.
  - rewrite Hp. apply counted_down. by eapply counted_perm.
  - eexists. split; [done|]. by eapply counted_perm.
Qed.

Lemma target_count_inv a a' i peer p hl hd tt tl td cl :
  tt !! i = Some peer → target_count a peer = Ok (a', p) →
  world_inv (mkWorld a hl hd tt tl td cl) → world_inv (mkWorld a' hl hd (delete i tt) (p :: tl) td cl).
Proof.
  intros Hi Ha [Hg Hc Ht Hlim (mp & Hp & Hcp) (mt & Htp & Hct) Hpb Htb]. w_cbn.
  pose proof (length_removed tt i peer Hi) as Hl. unfold target_count in Ha. h_inv.
  match goal with Hc : count_up _ _ _ = Ok _ |- _ => rewrite Htp, (count_up_exact mt _ _ peer Hct) in Hc end.
  destruct (Nat.ltb_spec (tally peer (tp_peer <$> tl)) PEER_TARGET_WORK) as [Hlt|]; [|done]. simplify_eq.
  split; w_cbn; w_easy.
  - eexists. split; [done|]. by apply counted_up.
  - intros k. rewrite tally_cons. cbn [tp_peer]. destruct (decide (k = peer)) as [->|]; [lia|apply Htb].
Qed.

Lemma target_uncount_inv a i p hl hd tt tl td cl :
  tl !! i = Some p →
  world_inv (mkWorld a hl hd tt tl td cl) →
  world_inv (mkWorld (target_uncount a p) hl hd tt (delete i tl) (S td) cl).
Proof.
  intros Hi [Hg Hc Ht Hlim (mp & Hp & Hcp) (mt & Htp & Hct) Hpb Htb]. w_cbn.
  pose proof (length_removed tl i p Hi) as Hl.
  assert (tp_peer <$> tl ≡ₚ tp_peer p :: (tp_peer <$> delete i tl)) as Hrem.
  { by rewrite (delete_Permutation tl i p Hi) at 1. }
  split; w_cbn; w_easy.
  - rewrite Htp. apply counted_down. by eapply counted_perm.
  - intros k. etransitivity; [|apply (Htb k)]. rewrite (tally_perm _ _ _ Hrem), tally_cons. lia.
Qed.

Lemma step_inv w w' : step w w' → world_inv w → world_inv w'.
Proof.
  destruct 1; eauto using authenticated_inv, uncount_inv, target_count_inv, target_uncount_inv;
    intros [Hg Hc Ht Hlim Hp Htp Hpb Htb]; w_cbn;
    unfold handshake, target_acquire, quic_context in *; h_inv; simplify_eq;
    try match goal with Ha : try_acquire _ = Some _ |- _ => apply acquire_some in Ha end;
    try match goal with Hi : _ !! _ = Some _ |- _ => apply length_removed in Hi end;
    split; w_cbn; rewrite ?available_release; w_easy.
Qed.

Lemma reachable_inv w : rtc step world_init w → world_inv w.
Proof.
  assert (∀ v w, rtc step v w → world_inv v → world_inv w) as Hgen.
  { induction 1; eauto using step_inv. }
  intros Hr. eapply Hgen; [done|]. apply world_init_inv.
Qed.

(** C28: admission keeps its bounds under every interleaving of its
    operations. In every reachable state at most 256 handshakes are admitted,
    at most 128 QUIC contexts and at most 64 target connections are in use,
    at most 16 handshakes and 8 target connections belong to one
    authenticated peer, no lock is ever poisoned by a counter that would
    fall below zero; and once every permit has been dropped all shares are
    free again and no counter is left behind. *)
Theorem admission_bounds w :
  rtc step world_init w →
  length w.(hs_live) ≤ 256 ∧ w.(ctx_live) ≤ 128 ∧ length w.(tw_taken) + length w.(tw_live) ≤ 64 ∧
  (∀ k, tally k (authenticated_peers w) ≤ 16 ∧ tally k (connecting_peers w) ≤ 8) ∧
  w.(adm).(peers).(poisoned) = false ∧ w.(adm).(target_peers).(poisoned) = false ∧
  (w = mkWorld w.(adm) [] 0 [] [] 0 0 →
   available w.(adm).(global) = 256 ∧ available w.(adm).(contexts) = 128 ∧
   available w.(adm).(target_work) = 64 ∧
   w.(adm).(peers).(inner) = ∅ ∧ w.(adm).(target_peers).(inner) = ∅).
Proof.
  intros [Hg Hc Ht Hlim (mp & Hp & Hcp) (mt & Htp & Hct) Hpb Htb]%reachable_inv.
  unfold GLOBAL_HANDSHAKES, QUIC_CONTEXTS, GLOBAL_TARGET_WORK in *.
  rewrite Hp, Htp. cbn [poisoned inner].
  split_and!; try lia; try done.
  intros Hw. unfold authenticated_peers, connecting_peers in *. rewrite Hw in Hg, Hc, Ht, Hcp, Hct.
  cbn in Hg, Hc, Ht, Hcp, Hct. split_and!; try lia; by apply counted_nil_inv.
Qed.

Lemma is_ok_fingerprint fp k : h_fingerprint fp = Ok k ↔ fp = show_fingerprint k.
Proof. unfold h_fingerprint. rewrite h_some_Ok. apply parse_fingerprint_exact. Qed.

Lemma h_err {A} (r : hs A) : (∀ a, r ≠ Ok a) → is_ok r = false.
Proof. destruct r; [naive_solver|done]. Qed.

Lemma authenticated_exact w p fp :
  world_inv w →
  is_ok (authenticated w.(adm) p fp) = true ↔
  p.(hp_peer) = None ∧ ∃ k, fp = show_fingerprint k ∧ tally k (authenticated_peers w) < 16.
Proof.
  intros [_ _ _ Hlim (mp & Hp & Hcp) _ _ _]. unfold authenticated. rewrite Hp, Hlim.
  destruct p as [[q|]]; cbn [hp_peer]; [split; [done|by intros [? _]]|].
  rewrite bool_decide_eq_true_2 by done. cbn [h_require mbind result_bind].
  destruct (h_fingerprint fp) as [k|e] eqn:Hk.
  - apply is_ok_fingerprint in Hk as ->. cbn [mbind result_bind]. rewrite (count_up_exact _ _ _ _ Hcp).
    unfold PEER_HANDSHAKES. destruct (Nat.ltb_spec (tally k (authenticated_peers w)) 16) as [Hlt|Hge];
      cbn [mbind result_bind is_ok rejected raise].
    + split; [intros _; split; [done|by exists k]|done].
    + split; [done|]. intros (_ & k' & Heq & Hlt).
      apply is_ok_fingerprint in Heq. rewrite (proj2 (is_ok_fingerprint _ k) eq_refl) in Heq.
      injection Heq as <-. lia.
  - split; [done|]. intros (_ & k & Heq & _). apply is_ok_fingerprint in Heq. congruence.
Qed.

Lemma target_work_exact w peer :
  world_inv w →
  match admission_target_work w.(adm) peer with
  | (a', Ok t) =>
      t = mkTargetWorkPermit peer ∧
      length w.(tw_taken) + length w.(tw_live) + w.(tw_dropping) < 64 ∧ tally peer (connecting_peers w) < 8
  | (a', Err _) =>
      ¬ (length w.(tw_taken) + length w.(tw_live) + w.(tw_dropping) < 64 ∧
         tally peer (connecting_peers w) < 8) ∧
      available a'.(target_work) = available w.(adm).(target_work) ∧
      a' = set_target_work a'.(target_work) w.(adm)
  end.
Proof.
  intros [_ _ Ht _ _ (mt & Htp & Hct) _ _]. unfold admission_target_work, target_acquire.
  unfold GLOBAL_TARGET_WORK in Ht.
  destruct (try_acquire (target_work (adm w))) as [s|] eqn:Ha; cbn [h_some ok_or mbind result_bind].
  - apply acquire_some in Ha. unfold target_count. cbn [target_peers set_target_work]. rewrite Htp.
    rewrite (count_up_exact _ _ _ _ Hct). unfold PEER_TARGET_WORK.
    destruct (Nat.ltb_spec (tally peer (connecting_peers w)) 8); cbn.
    + split_and!; [done|lia|done].
    + rewrite available_release. split_and!; [lia|lia|by destruct (adm w)].
  - apply acquire_none in Ha. split_and!; [lia|done|by destruct (adm w)].
Qed.

(** Admission refuses exactly at its limits. In every reachable state a
    handshake is admitted iff fewer than 256 shares are held;
    [authenticated] succeeds iff the permit is not yet authenticated, the
    text is a fingerprint, and the peer has fewer than 16 authenticated
    handshakes; and target work is given iff the permit is authenticated for
    that very fingerprint, fewer than 64 shares are held and the peer has
    fewer than 8. A refused request keeps nothing: the global share is back
    and the rest of the state is unchanged. *)
Theorem admission_exact w p fp :
  rtc step world_init w →
  (is_ok (handshake w.(adm)) = true ↔ length w.(hs_live) + w.(hs_dropping) < 256) ∧
  (is_ok (authenticated w.(adm) p fp) = true ↔
     p.(hp_peer) = None ∧ ∃ k, fp = show_fingerprint k ∧ tally k (authenticated_peers w) < 16) ∧
  let free k := length w.(tw_taken) + length w.(tw_live) + w.(tw_dropping) < 64 ∧
                tally k (connecting_peers w) < 8 in
  match permit_target_work w.(adm) p fp with
  | (_, Ok t) => p.(hp_peer) = Some t.(tp_peer) ∧ fp = show_fingerprint t.(tp_peer) ∧ free t.(tp_peer)
  | (a', Err _) =>
      (∀ k, p.(hp_peer) = Some k → fp = show_fingerprint k → ¬ free k) ∧
      available a'.(target_work) = available w.(adm).(target_work) ∧
      a' = set_target_work a'.(target_work) w.(adm)
  end.
Proof.
  intros Hr%reachable_inv. split_and!; [|by apply authenticated_exact|].
  - destruct Hr as [Hg _ _ _ _ _ _ _]. unfold GLOBAL_HANDSHAKES in Hg. unfold handshake.
    destruct (try_acquire (global (adm w))) as [s|] eqn:Ha; cbn.
    + apply acquire_some in Ha. split; [lia|done].
    + apply acquire_none in Ha. split; [done|lia].
  - unfold permit_target_work. cbv zeta.
    destruct (target_ready p fp) as [peer|e] eqn:Hp.
    + unfold target_ready in Hp. h_inv. bool_simpl.
      match goal with Hk : h_fingerprint fp = Ok _ |- _ => apply is_ok_fingerprint in Hk; subst fp end.
      pose proof (target_work_exact w peer Hr) as Ht.
      destruct (admission_target_work _ _) as [a' [t|e]]; [by destruct Ht as (-> & ? & ?)|].
      destruct Ht as (Hn & ? & ?). split_and!; [|done|done]. intros k Hk _. congruence.
    + split_and!; [|done|by destruct (adm w)]. intros k Hk ->. exfalso. unfold target_ready in Hp.
      rewrite (proj2 (is_ok_fingerprint _ k) eq_refl), Hk in Hp. cbn [mbind result_bind] in Hp.
      by rewrite bool_decide_eq_true_2 in Hp by done.
Qed.

(** *** Replay *)

(** The attempts of one connection, in order, and the pairs accepted. *)
Fixpoint reserve_all (r : QuicReplayV3) (attempts : list (str * str)) : QuicReplayV3 * list (str * str) :=
  match attempts with
  | [] => (r, [])
  | (s, n) :: rest =>
      match replay_reserve r s n with
      | Ok r' => let '(r'', acc) := reserve_all r' rest in (r'', (s, n) :: acc)
      | Err _ => reserve_all r rest
      end
  end.

Definition reserved_text (x : array 8 * array 16) : str * str :=
  (show_fingerprint x.1, hex (array_bytes x.2)).

(** The accepted pairs, read back, are the set. *)
Definition replay_inv (r : QuicReplayV3) (acc : list (str * str)) : Prop :=
  ∃ xs, r.(reservations) = mkMutex false (list_to_set xs) ∧ NoDup xs ∧ acc ≡ₚ reserved_text <$> xs ∧
    r.(limit) = 256 ∧ length xs ≤ 256.

Lemma reserved_text_inj : Inj (=) (=) reserved_text.
Proof.
  intros [a b] [a' b'] Heq.
  assert (show_fingerprint a = show_fingerprint a') as Ha by exact (f_equal fst Heq).
  assert (hex (array_bytes b) = hex (array_bytes b')) as Hb by exact (f_equal snd Heq).
  assert (Some a = Some a') as [= ->].
  { apply parse_fingerprint_exact in Ha. rewrite <-Ha. symmetry. by apply parse_fingerprint_exact. }
  assert (Ok (E := fault ()) b = Ok b') as [= ->]; [|done].
  { apply h_unhex_exact in Hb. rewrite <-Hb. symmetry. by apply h_unhex_exact. }
Qed.

Lemma replay_reserve_exact r acc s n :
  replay_inv r acc →
  match replay_reserve r s n with
  | Ok r' => (∃ x, (s, n) = reserved_text x) ∧ (s, n) ∉ acc ∧ length acc < 256 ∧ replay_inv r' ((s, n) :: acc)
  | Err _ => ¬ ((∃ x, (s, n) = reserved_text x) ∧ (s, n) ∉ acc ∧ length acc < 256)
  end.
Proof.
  intros (xs & Hr & Hnd & Hacc & Hlim & Hlen). unfold replay_reserve.
  destruct (h_fingerprint s) as [a|e] eqn:Hs; cbn [mbind result_bind];
    [apply is_ok_fingerprint in Hs as ->|].
  2:{ intros ([[a b] Heq] & _). apply (f_equal fst) in Heq. apply is_ok_fingerprint in Heq.
      cbn in Heq. by rewrite Heq in Hs. }
  destruct (unhex 16 n) as [b|e] eqn:Hn; cbn [mbind result_bind]; [apply h_unhex_exact in Hn as ->|].
  2:{ intros ([[a' b] Heq] & _). apply (f_equal snd) in Heq. apply h_unhex_exact in Heq.
      cbn in Heq. by rewrite Heq in Hn. }
  change (show_fingerprint a, hex (array_bytes b)) with (reserved_text (a, b)).
  rewrite Hr, Hlim. cbn [lock_or_reject poisoned inner mbind result_bind].
  assert (reserved_text (a, b) ∈ acc ↔ (a, b) ∈ xs) as Hin.
  { rewrite Hacc. pose proof reserved_text_inj. apply list_elem_of_fmap_inj. apply _. }
  assert (length acc = length xs) as Hl by (by rewrite Hacc, length_fmap).
  rewrite size_list_to_set by done.
  destruct (Nat.ltb_spec (length xs) 256); cbn [andb]; [|cbn; intros (_ & _ & ?); lia].
  case_bool_decide as Hx; rewrite elem_of_list_to_set in Hx; cbn; [naive_solver|].
  split_and!; [by eexists|by rewrite Hin|lia|].
  exists ((a, b) :: xs). split_and!; cbn; [done|by constructor|by rewrite Hacc|done|lia].
Qed.

Lemma reserve_all_inv attempts : ∀ r acc0, replay_inv r acc0 →
  let '(r', acc) := reserve_all r attempts in replay_inv r' (acc ++ acc0).
Proof.
  induction attempts as [|[s n] rest IH]; intros r acc0 Hr; [done|]. cbn [reserve_all].
  pose proof (replay_reserve_exact r acc0 s n Hr) as Hx. destruct (replay_reserve r s n) as [r'|e].
  - destruct Hx as (_ & _ & _ & Hr'). specialize (IH r' _ Hr').
    destruct (reserve_all r' rest) as [r'' acc]. destruct IH as (xs & H1 & H2 & H3 & H4 & H5).
    exists xs. split_and!; try done. rewrite <-H3. cbn. by rewrite Permutation_middle.
  - by apply IH.
Qed.

(** One QUIC connection accepts a sender and nonce once. After any
    attempts, the accepted ones are pairwise different and at most 256; and
    the next attempt is accepted exactly when its sender is a fingerprint
    and its nonce 32 lower-case hex digits, the pair was not accepted
    before, and fewer than 256 were. *)
Theorem quic_replay_once attempts s n :
  let '(r, acc) := reserve_all replay_default attempts in
  NoDup acc ∧ length acc ≤ 256 ∧
  (is_ok (replay_reserve r s n) = true ↔
     (∃ a b, s = show_fingerprint a ∧ n = hex (array_bytes (n := 16) b)) ∧ (s, n) ∉ acc ∧ length acc < 256).
Proof.
  pose proof (reserve_all_inv attempts replay_default []) as Hi.
  destruct (reserve_all replay_default attempts) as [r acc]. rewrite app_nil_r in Hi.
  destruct Hi as (xs & Hi).
  { exists []. split_and!; try done; [apply NoDup_nil_2|cbn; lia]. }
  pose proof (replay_reserve_exact r acc s n (ex_intro _ xs Hi)) as Hx.
  destruct Hi as (_ & Hnd & Hacc & _ & Hl). rewrite Hacc at 1 2. split_and!.
  - pose proof reserved_text_inj. by apply NoDup_fmap_2.
  - by rewrite length_fmap.
  - assert ((∃ x, (s, n) = reserved_text x) ↔
      ∃ a b, s = show_fingerprint a ∧ n = hex (array_bytes (n := 16) b)) as <-.
    { split; [|intros (a & b & -> & ->); by exists (a, b)].
      intros [[a b] Heq]. exists a, b. split; [exact (f_equal fst Heq)|exact (f_equal snd Heq)]. }
    destruct (replay_reserve r s n); cbn; naive_solver.
Qed.

End world.
End AdmissionSpec.

Module PolicySpec.
Import Policy.

Lemma replace_absent from to s :
  (∀ a b, s ≠ a ++ from ++ b) → replace_from from to 0 s = s.
Proof.
  induction s as [|x s IH]; intros Hab; [done|]. cbn [replace_from].
  unfold starts_with. rewrite bool_decide_eq_false_2.
  - f_equal. apply IH. intros a b ->. by apply (Hab (x :: a) b).
  - intros [rest Hs%strip_prefix_Some]. by apply (Hab [] rest).
Qed.

(** The transport is the one that was asked for. QUIC is chosen exactly
    when neither [tcp] nor [tcp-plain] was requested and the address is a
    [quic://] one, so a request for anything else is never answered over
    TCP; a request for TCP always gives TCP or an error, and an address of
    either scheme (without a second [quic://] inside) serves it. *)
Theorem transport_as_requested requested address r :
  (select_peer_transport requested address = Ok (Quic r) ↔
     wants_tcp requested = false ∧ address = lit "quic://" ++ r) ∧
  (select_peer_transport requested address = Ok (Tcp r) →
     wants_tcp requested = true) ∧
  ((∀ a b, r ≠ a ++ lit "quic://" ++ b) → wants_tcp requested = true →
     select_peer_transport requested (lit "tcp://" ++ r) = Ok (Tcp r) ∧
     select_peer_transport requested (lit "quic://" ++ r) = Ok (Tcp r)).
Proof.
  unfold select_peer_transport. split_and!.
  - destruct (wants_tcp requested).
    + split; [|by intros [? _]]. by destruct (parse_fang_transport _) as [[]|].
    + unfold parse_fang_transport. split.
      * destruct (strip_prefix (lit "tcp://") address); [done|].
        destruct (strip_prefix (lit "quic://") address) as [a|] eqn:Hq; [|done].
        intros [= ->]. split; [done|]. by apply strip_prefix_Some.
      * intros [_ ->]. reflexivity.
  - destruct (wants_tcp requested); [done|]. by destruct (parse_fang_transport _) as [[]|].
  - intros Hr ->. unfold str_replace. split.
    + cbn. by rewrite (replace_absent _ _ _ Hr).
    + cbn. by rewrite (replace_absent _ _ _ Hr).
Qed.

End PolicySpec.

(** ** A concrete run *)

Module AdmissionDemo.
Import Pelt Handshake Admission AdmissionSpec.

Definition demo_peer : array 8 := array_fill 8 x2a.

(** The state after one handshake was admitted and authenticated. *)
Definition demo_world : World :=
  mkWorld (mkAdmission (sem_new 255) (sem_new 128) (sem_new 64) (mkMutex false {[ demo_peer := 1 ]}) (mkMutex false ∅) 16)
    [mkHandshakePermit (Some demo_peer)] 0 [] [] 0 0.

Lemma demo_reachable : rtc step world_init demo_world.
Proof.
  unfold world_init. eapply rtc_l; [apply step_handshake; reflexivity|].
  eapply rtc_l; [|apply rtc_refl].
  apply (step_authenticated (set_global (sem_new 255) admission_default) demo_world.(adm) 0
    (mkHandshakePermit None) (mkHandshakePermit (Some demo_peer)) (show_fingerprint demo_peer)
    [mkHandshakePermit None] 0 [] [] 0 0); [done|].
  unfold authenticated. rewrite (proj2 (is_ok_fingerprint _ demo_peer) eq_refl). reflexivity.
Qed.

Lemma admission_bounds_witness : tally demo_peer (authenticated_peers demo_world) ≤ 16.
Proof. destruct (admission_bounds demo_world demo_reachable) as (_ & _ & _ & Hk & _). apply Hk. Defined.

Lemma admission_exact_witness :
  is_ok (handshake demo_world.(adm)) = true ∧
  is_ok (authenticated demo_world.(adm) (mkHandshakePermit None) (show_fingerprint demo_peer)) = true.
Proof.
  destruct (admission_exact demo_world (mkHandshakePermit None) (show_fingerprint demo_peer) demo_reachable)
    as (Hh & Ha & _).
  split; [apply Hh; cbn; lia|]. apply Ha. split; [done|]. exists demo_peer. split; [done|].
  vm_compute. lia.
Defined.

End AdmissionDemo.
