(* ===== verification/TargetPolicy.v ===== *)
(** * Which targets a peer may reach ([werewolfd/src/target_policy.rs])

    The policy document (the custom map visitor included), its canonical
    form, the two incremental changes, and the authorization of one target.
    [serde_json] is a parameter: it gives the fields of the document, with
    the entries of the [peers] object in their order, and prints a canonical
    document. The resolver is a function argument, as in
    [authorize_with_resolver]. *)

From stdpp Require Import gmap.
From S2P Require Export StateValidation.
From S2P Require Import Serde.

Local Open Scope Z_scope.

Module TargetPolicy.

Inductive TargetPolicy : Type :=
| Deny
| LegacyAllow
| Grants (grants : gmap str (gset SocketAddr))
| Invalid.

Record TargetGrant : Type := mkTargetGrant {
  address : IpAddr;
  port : Z
}.

Record PeerGrant : Type := mkPeerGrant { targets : list TargetGrant }.

Inductive Peers : Type :=
| Missing
| Present (peers : gmap str PeerGrant).

Record PolicyFile : Type := mkPolicyFile {
  mode : str;
  peers : Peers
}.

(** The document as [serde_json] hands it over: the entries of [peers] in
    the order of the text. *)
Record RawPolicy : Type := mkRawPolicy {
  raw_mode : str;
  raw_peers : option (list (str * PeerGrant))
}.

(** [CanonicalRuntimePolicy]: the entries of the [BTreeMap], in its order. *)
Record CanonicalPolicy : Type := mkCanonical {
  c_mode : str;
  c_peers : option (list (str * list TargetGrant))
}.

Inductive PolicyError : Type := InvalidDocument.

Definition fp_byte_ok (i : nat) (b : byte) : bool :=
  if (i mod 3 =? 2)%nat then bool_decide (b = x2d)
  else is_ascii_digit b || in_range 65 70 (byte_val b).

(** [suffix.bytes().enumerate().all(..)], from index [i]. *)
Fixpoint fp_bytes_ok (i : nat) (s : str) : bool :=
  match s with
  | [] => true
  | b :: s' => fp_byte_ok i b && fp_bytes_ok (S i) s'
  end.

Definition valid_fingerprint (fp : str) : bool :=
  match strip_prefix (lit "wwp1:") fp with
  | None => false
  | Some suffix => (length suffix =? 23)%nat && fp_bytes_ok 0 suffix
  end.

Definition supported_endpoint (e : SocketAddr) : bool :=
  negb (e.(sa_port) =? 0)
  && match e.(sa_ip) with
     | V4 _ => true
     | V6 s => (e.(sa_scope) =? 0) && negb (is_unicast_link_local s)
     end.

(** ** The document *)

(** [PeersVisitor::visit_map]. *)
Definition visit_entry (m : gmap str PeerGrant) (entry : str * PeerGrant)
    : result PolicyError (gmap str PeerGrant) :=
  if negb (valid_fingerprint entry.1) || bool_decide (is_Some (m !! entry.1))
  then Err InvalidDocument
  else Ok (<[entry.1 := entry.2]> m).
Definition visit_map (entries : list (str * PeerGrant)) : result PolicyError Peers :=
  m ← try_fold visit_entry ∅ entries;
  Ok (Present m).

(** The two loops of [policy_from_file]. *)
Definition add_target (endpoints : gset SocketAddr) (t : TargetGrant) : option (gset SocketAddr) :=
  let endpoint := mkSocketAddr t.(address) t.(port) 0 in
  if negb (supported_endpoint endpoint) || bool_decide (endpoint ∈ endpoints)
  then None else Some ({[ endpoint ]} ∪ endpoints).
Definition add_targets (ts : list TargetGrant) : option (gset SocketAddr) :=
  foldl (λ acc t, acc ≫= λ s, add_target s t) (Some ∅) ts.
Definition add_peer (grants : option (gmap str (gset SocketAddr))) (entry : str * PeerGrant)
    : option (gmap str (gset SocketAddr)) :=
  g ← grants;
  endpoints ← add_targets entry.2.(targets);
  Some (<[entry.1 := endpoints]> g).

Definition policy_from_file (f : PolicyFile) : TargetPolicy :=
  if bool_decide (f.(mode) = lit "legacy-allow") then
    match f.(peers) with Missing => LegacyAllow | Present _ => Invalid end
  else if bool_decide (f.(mode) = lit "deny-by-default") then
    match f.(peers) with
    | Present m =>
        match foldl add_peer (Some ∅) (btree_entries m) with
        | Some grants => Grants grants
        | None => Invalid
        end
    | Missing => Invalid
    end
  else Invalid.

Class PolicyJson : Type := {
  policy_from_str : str → option RawPolicy;
  policy_to_vec : CanonicalPolicy → list byte
}.

Section json.
Context `{PolicyJson}.

Definition parse_file (data : str) : result PolicyError PolicyFile :=
  raw ← ok_or (policy_from_str data) InvalidDocument;
  ps ← match raw.(raw_peers) with None => Ok Missing | Some entries => visit_map entries end;
  Ok (mkPolicyFile raw.(raw_mode) ps).

Definition parse (data : str) : TargetPolicy :=
  match parse_file data with
  | Ok f => policy_from_file f
  | Err _ => Invalid
  end.

(** [load]: [file] is what reading the path gave. *)
Inductive Read : Type := ReadText (data : str) | ReadNotFound | ReadFailed.
Definition load (file : Read) : TargetPolicy :=
  match file with
  | ReadText data => parse data
  | ReadNotFound => Deny
  | ReadFailed => Invalid
  end.

Definition canonical_targets (endpoints : gset SocketAddr) : list TargetGrant :=
  (λ e, mkTargetGrant e.(sa_ip) e.(sa_port)) <$> btree_iter endpoints.

Definition canonical_from_runtime (p : TargetPolicy) : result PolicyError (list byte) :=
  match p with
  | Deny => Ok (policy_to_vec (mkCanonical (lit "deny-by-default") (Some [])))
  | LegacyAllow => Ok (policy_to_vec (mkCanonical (lit "legacy-allow") None))
  | Grants g =>
      Ok (policy_to_vec (mkCanonical (lit "deny-by-default")
        (Some (btree_entries (canonical_targets <$> g)))))
  | Invalid => Err InvalidDocument
  end.

Definition is_invalid (p : TargetPolicy) : bool := match p with Invalid => true | _ => false end.

Definition canonicalize (data : str) : result PolicyError (list byte) :=
  f ← parse_file data;
  _ ← require (negb (is_invalid (policy_from_file f))) InvalidDocument;
  canonical_from_runtime (policy_from_file f).

Definition parse_canonical (data : list byte) : result PolicyError TargetPolicy :=
  _ ← require (utf8_valid data) InvalidDocument;
  canonical ← canonicalize data;
  _ ← require (bool_decide (canonical = data)) InvalidDocument;
  let policy := parse data in
  _ ← require (negb (is_invalid policy)) InvalidDocument;
  Ok policy.

End json.

(** ** Incremental changes *)

Definition allow_exact (p : TargetPolicy) (fp : str) (e : SocketAddr) : result PolicyError TargetPolicy :=
  if negb (valid_fingerprint fp) || negb (supported_endpoint e) then Err InvalidDocument
  else
    grants ← match p with
             | Deny => Ok ∅
             | Grants g => Ok g
             | LegacyAllow | Invalid => Err InvalidDocument
             end;
    Ok (Grants (<[fp := {[ e ]} ∪ default ∅ (grants !! fp)]> grants)).

Definition remove_exact (p : TargetPolicy) (fp : str) (e : SocketAddr) : result PolicyError TargetPolicy :=
  if negb (valid_fingerprint fp) || negb (supported_endpoint e) then Err InvalidDocument
  else
    grants ← match p with
             | Grants g => Ok g
             | Deny | LegacyAllow | Invalid => Err InvalidDocument
             end;
    targets ← ok_or (grants !! fp : option (gset SocketAddr)) InvalidDocument;
    _ ← require (bool_decide (e ∈ targets)) InvalidDocument;
    let rest := targets ∖ {[ e ]} in
    Ok (Grants (if bool_decide (rest = ∅) then delete fp grants else <[fp := rest]> grants)).

Definition grants_for_display (p : TargetPolicy) : list (str * list SocketAddr) :=
  match p with
  | Grants g => btree_entries (btree_iter <$> g)
  | _ => []
  end.

(** ** Authorization *)

Section authorize.
Variable resolver : str → Z → option (list SocketAddr).

Inductive Denied : Type := DENIED.

(** The endpoints a target names: a literal one, or what its host resolves to. *)
Definition target_endpoints (target : str) : result Denied (list SocketAddr) :=
  match parse_socket_addr target with
  | Some endpoint => Ok [endpoint]
  | None =>
      '(host, port_text) ← ok_or (rsplit_once x3a target) DENIED;
      p ← ok_or (parse_u16 port_text) DENIED;
      if bool_decide (host = [])
         || existsb (λ b, bool_decide (b ∈ [x3a; x5b; x5d])) host
         || existsb is_whitespace (chars host)
         || (p =? 0)
      then Err DENIED
      else ok_or (resolver host p) DENIED
  end.

Definition allows (p : TargetPolicy) (peer : str) (endpoints : gset SocketAddr) : bool :=
  match p with
  | LegacyAllow => true
  | Grants g => match g !! peer with
                | Some allowed => bool_decide (endpoints ⊆ allowed)
                | None => false
                end
  | Deny | Invalid => false
  end.

Definition authorize_with_resolver (p : TargetPolicy) (peer target : str)
    : result Denied (list SocketAddr) :=
  if match p with Deny | Invalid => true | _ => false end || contains_byte x25 target
  then Err DENIED
  else
    l ← target_endpoints target;
    let endpoints : gset SocketAddr := list_to_set l in
    if bool_decide (endpoints = ∅) || existsb (λ e, negb (supported_endpoint e)) (btree_iter endpoints)
    then Err DENIED
    else if allows p peer endpoints then Ok (btree_iter endpoints)
    else Err DENIED.

End authorize.
End TargetPolicy.

(** ** What the policy guarantees *)

Module TargetPolicySpec.
Import Pelt TargetPolicy.

(** *** The third reader of fingerprints *)

Lemma upper_digit_ok b :
  (is_ascii_digit b || in_range 65 70 (byte_val b)) = true ↔ is_Some (upper_digit b).
Proof.
  unfold upper_digit. destruct (is_ascii_digit b); [split; [by eexists|done]|].
  destruct (in_range 65 70 (byte_val b)); cbn; [split; [by eexists|done]|split; [done|by intros [? ?]]].
Qed.

Lemma fp_pair_ok i a b :
  (fp_byte_ok (3 * i) a && fp_byte_ok (S (3 * i)) b) = true ↔ is_Some (upper_digit a) ∧ is_Some (upper_digit b).
Proof.
  rewrite andb_true_iff, <-!upper_digit_ok. unfold fp_byte_ok.
  assert ((3 * i) mod 3 = 0)%nat as -> by (rewrite Nat.mul_comm; by apply Nat.Div0.mod_mul).
  assert (S (3 * i) mod 3 = 1)%nat as ->; [|done].
  replace (S (3 * i)) with (1 + i * 3)%nat by lia. by rewrite Nat.Div0.mod_add.
Qed.

Lemma fp_sep_ok i b : fp_byte_ok (S (S (3 * i))) b = true ↔ b = x2d.
Proof.
  unfold fp_byte_ok. replace (S (S (3 * i))) with (2 + i * 3)%nat by lia.
  rewrite Nat.Div0.mod_add. cbn. apply bool_decide_eq_true.
Qed.

Lemma fp_bytes_loop k : ∀ i s, (i + S k = 8)%nat → length s = (3 * k + 2)%nat →
  fp_bytes_ok (3 * i) s = true ↔ is_Some (fingerprint_loop i s).
Proof.
  induction k as [|k IH]; intros i s Hi Hl.
  - destruct s as [|a [|b [|? ?]]]; try done. assert (i = 7%nat) as -> by lia.
    change (fp_bytes_ok (3 * 7) [a; b]) with (fp_byte_ok (3 * 7) a && (fp_byte_ok (S (3 * 7)) b && true)).
    rewrite andb_true_r, fp_pair_ok. cbn. split.
    + intros [[x ->] [y ->]]. by eexists.
    + destruct (upper_digit a), (upper_digit b); by intros [? ?].
  - destruct s as [|a [|b [|sep s]]]; try (cbn in Hl; lia).
    change (fp_bytes_ok (3 * i) (a :: b :: sep :: s)) with
      (fp_byte_ok (3 * i) a && (fp_byte_ok (S (3 * i)) b &&
        (fp_byte_ok (S (S (3 * i))) sep && fp_bytes_ok (S (S (S (3 * i)))) s))).
    rewrite andb_assoc, !andb_true_iff, <-andb_true_iff, fp_pair_ok, fp_sep_ok.
    replace (S (S (S (3 * i)))) with (3 * S i)%nat by lia.
    rewrite (IH (S i) s) by (cbn in Hl; lia). cbn [fingerprint_loop].
    rewrite (proj2 (Nat.eqb_neq i 7)) by lia. destruct (decide (sep = x2d)) as [->|Hn].
    + split.
      * intros [[[x ->] [y ->]] [_ [bs Hbs]]]. cbn. rewrite Hbs. by eexists.
      * destruct (upper_digit a), (upper_digit b), (fingerprint_loop (S i) s); by intros [? ?].
    + split; [naive_solver|by intros [? ?]].
Qed.

Lemma valid_fingerprint_exact fp : valid_fingerprint fp = true ↔ is_Some (parse_fingerprint fp).
Proof.
  unfold valid_fingerprint, parse_fingerprint, FINGERPRINT_PREFIX.
  destruct (strip_prefix (lit "wwp1:") fp) as [s|]; [|split; [done|by intros [? ?]]]. cbn [mbind option_bind].
  destruct (Nat.eqb_spec (length s) 23) as [Hl|]; [|split; [done|by intros [? ?]]].
  cbn [andb]. rewrite (fp_bytes_loop 7 0 s eq_refl) by lia.
  pose proof (fingerprint_loop_exact 7 0 s) as Hex.
  split; [|destruct (fingerprint_loop 0 s); [by eexists|by intros [? ?]]].
  intros [bs Hbs]. rewrite Hbs. cbn [mbind option_bind].
  destruct (proj1 (Hex bs eq_refl) (conj Hl Hbs)) as [_ Hlen].
  destruct (to_array 8 bs) as [p|] eqn:Hp; [by eexists|].
  apply to_array_None in Hp. done.
Qed.

(** *** Authorization *)

(** The policy lets [peer] reach [e]. *)
Definition granted (p : TargetPolicy) (peer : str) (e : SocketAddr) : Prop :=
  match p with
  | LegacyAllow => True
  | Grants g => ∃ s, g !! peer = Some s ∧ e ∈ s
  | Deny | Invalid => False
  end.

Lemma allows_granted p peer (s : gset SocketAddr) :
  s ≠ ∅ → allows p peer s = true ↔ ∀ e, e ∈ s → granted p peer e.
Proof.
  intros Hne. apply set_choose_L in Hne as [x Hx].
  destruct p as [| |g|]; cbn [allows granted]; [|done| |].
  - split; [done|]. intros Hall. by destruct (Hall x Hx).
  - destruct (g !! peer) as [allowed|]; [rewrite bool_decide_eq_true|].
    + split; [intros Hs e He; exists allowed; split; [done|by apply Hs]|].
      intros Hall e He. by destruct (Hall e He) as (? & [= <-] & ?).
    + split; [done|]. intros Hall. by destruct (Hall x Hx) as (? & ? & _).
  - split; [done|]. intros Hall. by destruct (Hall x Hx).
Qed.

(** C24: authorization is exact. A target is authorized, with the addresses to
    connect to, exactly when the policy is in force (neither deny nor
    invalid), the text has no scope id, it names at least one address (the
    literal one, or every address its host resolves to), every address is
    supported, and the policy grants the peer every one of them. The result
    is those addresses, each once and in order: a host with one address
    outside the grant is refused as a whole. *)
Theorem authorize_exact resolver p peer target out :
  authorize_with_resolver resolver p peer target = Ok out ↔
  ∃ l, target_endpoints resolver target = Ok l ∧ x25 ∉ target ∧ l ≠ [] ∧
    out = btree_iter (list_to_set l) ∧ increasing out ∧ (∀ e, e ∈ out ↔ e ∈ l) ∧
    ∀ e, e ∈ l → supported_endpoint e = true ∧ granted p peer e.
Proof.
  assert (∀ l : list SocketAddr, (list_to_set l : gset SocketAddr) = ∅ ↔ l = []) as Hnil.
  { intros [|x l]; [done|]. split; [intros Hs; set_solver|done]. }
  assert (∀ l : list SocketAddr, (∀ e, e ∈ btree_iter (list_to_set l) ↔ e ∈ l)) as Hel.
  { intros l e. by rewrite elem_of_btree_iter, elem_of_list_to_set. }
  unfold authorize_with_resolver, contains_byte. split.
  - destruct (_ || _) eqn:Hg; [done|]. intros (l & Hl & Hout)%bind_Ok. cbv zeta in Hout.
    destruct (bool_decide _ || _) eqn:Hb in Hout; [done|]. bool_simpl. rewrite Hnil in *.
    destruct (allows _ _ _) eqn:Ha; [|done]. injection Hout as <-. exists l.
    split_and!; try done; [apply btree_iter_increasing|]. intros e He. split.
    + destruct (supported_endpoint e) eqn:Hs; [done|exfalso].
      match goal with Hx : existsb _ _ = false |- _ => apply not_true_iff_false in Hx; apply Hx end.
      apply existsb_exists. exists e. split; [by apply list_elem_of_In, Hel|by rewrite Hs].
    + apply allows_granted with (e := e) in Ha; [done|by rewrite Hnil|by apply elem_of_list_to_set].
  - intros (l & Hl & Hp & Hne & -> & _ & _ & Hall). rewrite (bool_decide_eq_false_2 (x25 ∈ target)) by done.
    destruct l as [|x l']; [done|]. pose proof (proj2 (Hall x ltac:(by left))) as Hgx.
    assert (match p with Deny | Invalid => true | _ => false end = false) as -> by (by destruct p).
    cbn [orb]. rewrite Hl. cbn [mbind result_bind]. cbv zeta.
    rewrite bool_decide_eq_false_2 by (by rewrite Hnil). cbn [orb].
    destruct (existsb _ _) eqn:Hx.
    + apply existsb_exists in Hx as (e & He%list_elem_of_In & Hs%negb_true_iff).
      destruct (Hall e (proj1 (Hel _ e) He)) as [Hs' _]. congruence.
    + assert (allows p peer (list_to_set (x :: l')) = true) as ->; [|done].
      apply allows_granted; [by rewrite Hnil|]. intros e He%elem_of_list_to_set. by apply Hall.
Qed.

(** *** The incremental changes *)

Definition in_grant (p : TargetPolicy) (peer : str) (e : SocketAddr) : Prop :=
  match p with Grants g => ∃ s, g !! peer = Some s ∧ e ∈ s | _ => False end.

Lemma in_some (s0 : gset SocketAddr) x : (∃ s, Some s0 = Some s ∧ x ∈ s) ↔ x ∈ s0.
Proof. split; [by intros (? & [= <-] & ?)|by eexists]. Qed.
Lemma in_none (x : SocketAddr) : (∃ s : gset SocketAddr, None = Some s ∧ x ∈ s) ↔ False.
Proof. split; [by intros (? & ? & _)|done]. Qed.

(** [policy allow] and [policy remove] change one grant. Allowing
    succeeds exactly for a fingerprint, a supported address and a policy of
    grants (or none yet), and then grants what was granted and that one
    pair; removing succeeds exactly when the pair is granted explicitly, and
    then grants everything but that pair. Neither narrows or converts a
    legacy policy. *)
Theorem grant_changes_exact p fp e :
  match allow_exact p fp e with
  | Ok p' => valid_fingerprint fp = true ∧ supported_endpoint e = true ∧
      ∀ q x, granted p' q x ↔ granted p q x ∨ (q = fp ∧ x = e)
  | Err _ => ¬ (valid_fingerprint fp = true ∧ supported_endpoint e = true) ∨ p = LegacyAllow ∨ p = Invalid
  end ∧
  match remove_exact p fp e with
  | Ok p' => in_grant p fp e ∧ ∀ q x, granted p' q x ↔ granted p q x ∧ ¬ (q = fp ∧ x = e)
  | Err _ => ¬ (valid_fingerprint fp = true ∧ supported_endpoint e = true ∧ in_grant p fp e)
  end.
Proof.
  unfold allow_exact, remove_exact.
  destruct (valid_fingerprint fp), (supported_endpoint e); cbn [negb orb]; try (split; naive_solver).
  assert (∀ (g : gmap str (gset SocketAddr)) q x,
    granted (Grants (<[fp := {[ e ]} ∪ default ∅ (g !! fp)]> g)) q x ↔
    granted (Grants g) q x ∨ (q = fp ∧ x = e)) as Hins.
  { intros g q x. cbn [granted]. destruct (decide (q = fp)) as [->|Hq].
    - rewrite lookup_insert_eq, in_some.
      destruct (g !! fp) as [s|]; cbn; rewrite ?in_some, ?in_none; set_solver.
    - rewrite lookup_insert_ne by done. naive_solver. }
  split.
  - destruct p as [| |g|]; cbn [mbind result_bind]; [|by right; left| |by right; right].
    + split_and!; [done|done|]. intros q x. rewrite Hins. cbn. setoid_rewrite lookup_empty. naive_solver.
    + split_and!; [done|done|]. apply Hins.
  - destruct p as [| |g|]; cbn [mbind result_bind]; [cbn; naive_solver..| |cbn; naive_solver].
    destruct (g !! fp) as [s|] eqn:Hs; cbn [ok_or mbind result_bind];
      [|intros (_ & _ & s' & Hs' & _); congruence].
    destruct (decide (e ∈ s)) as [He|He];
      [rewrite (bool_decide_eq_true_2 (e ∈ s) He)|rewrite (bool_decide_eq_false_2 (e ∈ s) He)];
      cbn [require mbind result_bind];
      [|intros (_ & _ & s' & Hs' & He'); by simplify_eq].
    split; [by exists s|]. intros q x. cbn [granted]. case_bool_decide as Hr.
    + destruct (decide (q = fp)) as [->|Hq].
      * rewrite lookup_delete_eq, Hs, in_some, in_none. set_solver.
      * rewrite lookup_delete_ne by done. naive_solver.
    + destruct (decide (q = fp)) as [->|Hq].
      * rewrite lookup_insert_eq, Hs, !in_some. set_solver.
      * rewrite lookup_insert_ne by done. naive_solver.
Qed.

(** *** The document *)

(** What the Rust types say of an address. *)
Definition addr_typed (e : SocketAddr) : Prop :=
  0 ≤ e.(sa_port) < 2 ^ 16 ∧
  match e.(sa_ip) with
  | V4 o => length o = 4%nat ∧ Forall (λ z, 0 ≤ z < 2 ^ 8) o ∧ e.(sa_scope) = 0
  | V6 s => length s = 8%nat ∧ Forall (λ z, 0 ≤ z < 2 ^ 16) s
  end.
Definition endpoint_of (t : TargetGrant) : SocketAddr := mkSocketAddr t.(address) t.(port) 0.
Definition grant_of (e : SocketAddr) : TargetGrant := mkTargetGrant e.(sa_ip) e.(sa_port).

Definition canonical_ok (c : CanonicalPolicy) : Prop :=
  is_ascii c.(c_mode) = true ∧
  ∀ l, c.(c_peers) = Some l → Forall (λ x, is_ascii x.1 = true ∧ Forall (λ t, addr_typed (endpoint_of t)) x.2) l.
Definition raw_entry (x : str * list TargetGrant) : str * PeerGrant := (x.1, mkPeerGrant x.2).
Definition raw_of (c : CanonicalPolicy) : RawPolicy :=
  mkRawPolicy c.(c_mode) (match c.(c_peers) with Some l => Some (raw_entry <$> l) | None => None end).

(** What the code relies on of [serde_json]: printing gives UTF-8 that reads
    back as the same fields, and addresses read have their types. *)
Class PolicyJsonLaws `{PolicyJson} : Prop := {
  policy_text c : canonical_ok c →
    utf8_valid (policy_to_vec c) = true ∧ policy_from_str (policy_to_vec c) = Some (raw_of c);
  policy_typed data raw entries x t : policy_from_str data = Some raw → raw.(raw_peers) = Some entries →
    x ∈ entries → t ∈ x.2.(targets) → addr_typed (endpoint_of t)
}.

Definition grants_wf (g : gmap str (gset SocketAddr)) : Prop :=
  ∀ fp s, g !! fp = Some s → valid_fingerprint fp = true ∧
    ∀ e, e ∈ s → supported_endpoint e = true ∧ addr_typed e.
Definition policy_wf (p : TargetPolicy) : Prop :=
  match p with Grants g => grants_wf g | _ => True end.

Lemma endpoint_of_grant e :
  supported_endpoint e = true → addr_typed e → endpoint_of (grant_of e) = e.
Proof.
  unfold supported_endpoint, addr_typed, endpoint_of. destruct e as [[o|s] p c]; cbn.
  - by intros _ (_ & _ & _ & ->).
  - intros Hs _. bool_simpl. by subst.
Qed.

Lemma add_targets_none ts : foldl (λ acc t, acc ≫= λ s, add_target s t) None ts = None.
Proof. by induction ts. Qed.

Lemma add_targets_from l : ∀ acc : gset SocketAddr,
  NoDup l → (∀ e, e ∈ l → e ∉ acc ∧ supported_endpoint e = true ∧ endpoint_of (grant_of e) = e) →
  foldl (λ acc t, acc ≫= λ s, add_target s t) (Some acc) (grant_of <$> l) = Some (list_to_set l ∪ acc).
Proof.
  induction l as [|e l IH]; intros acc Hnd Hall; [cbn; f_equal; set_solver|].
  apply NoDup_cons in Hnd as [Hni Hnd]. destruct (Hall e ltac:(by left)) as (Hn & Hs & He).
  cbn [fmap list_fmap foldl mbind option_bind]. unfold add_target.
  change (mkSocketAddr (address (grant_of e)) (port (grant_of e)) 0) with (endpoint_of (grant_of e)).
  cbv zeta. rewrite He, Hs, bool_decide_eq_false_2 by done. cbn [negb orb].
  change (list_fmap _ _ grant_of l) with (grant_of <$> l). rewrite IH; [f_equal; set_solver|done|].
  intros x Hx. destruct (Hall x ltac:(by right)) as (? & ? & ?). split_and!; [set_solver|done|done].
Qed.

Lemma add_targets_canonical s :
  (∀ e, e ∈ s → supported_endpoint e = true ∧ addr_typed e) → add_targets (canonical_targets s) = Some s.
Proof.
  intros Hall. unfold add_targets, canonical_targets.
  change (λ e : SocketAddr, _) with grant_of. rewrite add_targets_from.
  - by rewrite list_to_set_btree_iter, union_empty_r_L.
  - apply increasing_NoDup, btree_iter_increasing.
  - intros e He%elem_of_btree_iter. destruct (Hall e He). split_and!; [set_solver|done|by apply endpoint_of_grant].
Qed.

Lemma add_targets_inv ts : ∀ acc s : gset SocketAddr,
  foldl (λ acc t, acc ≫= λ s, add_target s t) (Some acc) ts = Some s →
  ∀ e, e ∈ s → e ∈ acc ∨ (supported_endpoint e = true ∧ ∃ t, t ∈ ts ∧ e = endpoint_of t).
Proof.
  induction ts as [|t ts IH]; intros acc s; cbn [foldl mbind option_bind]; [intros [= ->]; by left|].
  destruct (add_target acc t) as [acc'|] eqn:Ht; [|by rewrite add_targets_none]. intros Hf e He.
  apply (IH _ _ Hf) in He as [He|(Hs & t' & Ht' & ->)]; [|right; split; [done|exists t'; split; [by right|done]]].
  unfold add_target in Ht. destruct (_ || _) eqn:Hb; [done|]. bool_simpl. injection Ht as <-.
  apply elem_of_union in He as [->%elem_of_singleton|He]; [right|by left].
  split; [done|]. exists t. split; [by left|done].
Qed.

(** The loop over the peers, for entries whose targets all fit. *)
Lemma add_peers_from (f : str → gset SocketAddr) entries : ∀ g,
  NoDup entries.*1 → (∀ x, x ∈ entries → add_targets x.2.(targets) = Some (f x.1)) →
  foldl add_peer (Some g) entries = Some (list_to_map ((λ x, (x.1, f x.1)) <$> entries) ∪ g).
Proof.
  induction entries as [|x entries IH]; intros g Hnd Hall; [cbn; by rewrite (left_id_L ∅ (∪))|].
  rewrite fmap_cons in Hnd. apply NoDup_cons in Hnd as [Hni Hnd].
  cbn [foldl]. unfold add_peer at 2. cbn [mbind option_bind].
  rewrite (Hall x) by (by left). cbn [mbind option_bind]. rewrite IH; [|done|intros; apply Hall; by right].
  f_equal. rewrite fmap_cons. cbn [list_to_map foldr fst snd].
  assert ((list_to_map ((λ x, (x.1, f x.1)) <$> entries) : gmap str (gset SocketAddr)) !! x.1 = None) as Hn.
  { apply not_elem_of_list_to_map_1. by rewrite <-list_fmap_compose. }
  by rewrite <-insert_union_r, insert_union_l.
Qed.

Lemma add_peers_none entries : foldl add_peer None entries = None.
Proof. by induction entries. Qed.

Lemma add_peers_inv entries : ∀ g0 g,
  foldl add_peer (Some g0) entries = Some g →
  ∀ fp s, g !! fp = Some s → g0 !! fp = Some s ∨ ∃ x, x ∈ entries ∧ x.1 = fp ∧ add_targets x.2.(targets) = Some s.
Proof.
  induction entries as [|x entries IH]; intros g0 g; cbn [foldl]; [intros [= ->]; by left|].
  unfold add_peer at 2. cbn [mbind option_bind].
  destruct (add_targets (targets x.2)) as [s0|] eqn:Hs0; cbn [mbind option_bind]; [|by rewrite add_peers_none].
  intros Hf fp s Hs. apply (IH _ _ Hf) in Hs as [Hs|(y & Hy & Hfp & Hs)].
  - destruct (decide (x.1 = fp)) as [<-|Hne].
    + rewrite lookup_insert_eq in Hs. injection Hs as <-. right. exists x. split_and!; [by left|done|done].
    + rewrite lookup_insert_ne in Hs by done. by left.
  - right. exists y. split_and!; [by right|done|done].
Qed.

Lemma visit_entry_new m x :
  valid_fingerprint x.1 = true → m !! x.1 = None → visit_entry m x = Ok (<[x.1 := x.2]> m).
Proof.
  intros Hv Hn. unfold visit_entry. rewrite Hv, Hn. cbn [negb orb].
  by rewrite bool_decide_eq_false_2 by (by intros [? ?]).
Qed.

(** The visitor, for distinct valid keys. *)
Lemma visit_from entries : ∀ m,
  NoDup entries.*1 → (∀ x, x ∈ entries → valid_fingerprint x.1 = true ∧ m !! x.1 = None) →
  try_fold visit_entry m entries = Ok (list_to_map entries ∪ m).
Proof.
  induction entries as [|x entries IH]; intros m Hnd Hall; [cbn; by rewrite (left_id_L ∅ (∪))|].
  rewrite fmap_cons in Hnd. apply NoDup_cons in Hnd as [Hni Hnd].
  destruct (Hall x ltac:(by left)) as [Hv Hn]. cbn [try_fold]. rewrite visit_entry_new by done.
  cbn [mbind result_bind]. rewrite IH; [|done|].
  - f_equal. destruct x as [k v]. cbn [list_to_map foldr fst snd].
    rewrite <-insert_union_r, insert_union_l; [done|]. by apply not_elem_of_list_to_map_1.
  - intros y Hy. destruct (Hall y ltac:(by right)) as [Hvy Hny]. split; [done|].
    rewrite lookup_insert_ne; [done|]. intros Heq. apply Hni. rewrite Heq. by apply list_elem_of_fmap_2.
Qed.

Lemma visit_inv entries : ∀ m0 m,
  try_fold visit_entry m0 entries = Ok m →
  ∀ fp pg, m !! fp = Some pg → m0 !! fp = Some pg ∨ (valid_fingerprint fp = true ∧ (fp, pg) ∈ entries).
Proof.
  induction entries as [|[k v] entries IH]; intros m0 m; cbn [try_fold]; [intros [= ->]; by left|].
  intros (m1 & H1 & Hf)%bind_Ok fp pg Hl. unfold visit_entry in H1. cbn [fst snd] in H1.
  destruct (_ || _) eqn:Hb; [done|]. injection H1 as <-. bool_simpl.
  apply (IH _ _ Hf) in Hl as [Hl|[Hv Hin]]; [|right; split; [done|by right]].
  destruct (decide (k = fp)) as [->|Hne].
  - rewrite lookup_insert_eq in Hl. injection Hl as <-. right. split; [done|by left].
  - rewrite lookup_insert_ne in Hl by done. by left.
Qed.

Lemma valid_fingerprint_ascii fp : valid_fingerprint fp = true → is_ascii fp = true.
Proof.
  unfold valid_fingerprint. destruct (strip_prefix (lit "wwp1:") fp) as [s|] eqn:Hs; [|done].
  apply strip_prefix_Some in Hs as ->. intros [_ Hok]%andb_true_iff. unfold is_ascii.
  rewrite forallb_app. apply andb_true_iff. split; [reflexivity|]. revert Hok. generalize 0%nat.
  induction s as [|b s IH]; intros i; [done|]. cbn [fp_bytes_ok forallb]. intros [Hb Hs]%andb_true_iff.
  rewrite (IH _ Hs), andb_true_r. unfold fp_byte_ok, is_ascii_digit, in_range in Hb.
  destruct (_ =? _)%nat; [bool_simpl; by subst|lia].
Qed.

(** A policy without grants is written, and read back, as one with none. *)
Definition normal (p : TargetPolicy) : TargetPolicy :=
  match p with Deny => Grants ∅ | _ => p end.

Lemma normal_granted p q e : granted (normal p) q e ↔ granted p q e.
Proof. destruct p; [|done..]. cbn. rewrite lookup_empty. apply in_none. Qed.

Section document.
Context `{PolicyJsonLaws}.

Lemma canonical_entries_ok g :
  grants_wf g →
  canonical_ok (mkCanonical (lit "deny-by-default") (Some (btree_entries (canonical_targets <$> g)))).
Proof.
  intros Hg. split; [done|]. intros l [= <-]. apply Forall_forall. intros [fp ts] Hin.
  rewrite btree_entries_perm, elem_of_map_to_list, lookup_fmap_Some in Hin. destruct Hin as (s & <- & Hs).
  destruct (Hg _ _ Hs) as [Hv He]. split; [by apply valid_fingerprint_ascii|]. cbn [snd].
  unfold canonical_targets. apply Forall_fmap, Forall_forall. intros e Hin%elem_of_btree_iter.
  destruct (He e Hin) as [Hsup Hty]. cbn. change (addr_typed (endpoint_of (grant_of e))).
  by rewrite endpoint_of_grant.
Qed.

Lemma grants_read g :
  grants_wf g →
  (m ← visit_map (raw_entry <$> btree_entries (canonical_targets <$> g));
   Ok (policy_from_file (mkPolicyFile (lit "deny-by-default") m))) = Ok (Grants g).
Proof.
  intros Hg. set (entries := raw_entry <$> btree_entries (canonical_targets <$> g)).
  assert (NoDup entries.*1) as Hnd.
  { unfold entries. rewrite <-list_fmap_compose. unfold compose, raw_entry. cbn [fst].
    change (NoDup (btree_entries (canonical_targets <$> g)).*1). rewrite btree_entries_perm. apply NoDup_fst_map_to_list. }
  assert (∀ x, x ∈ entries ↔ ∃ s, g !! x.1 = Some s ∧ x.2 = mkPeerGrant (canonical_targets s)) as Hin.
  { intros [k pg]. unfold entries. rewrite list_elem_of_fmap. setoid_rewrite btree_entries_perm. split.
    - intros ([k' ts] & [= -> ->] & Hx). apply elem_of_map_to_list, lookup_fmap_Some in Hx as (s & <- & Hs).
      by exists s.
    - cbn [fst snd]. intros (s & Hs & ->). exists (k, canonical_targets s). split; [done|].
      apply elem_of_map_to_list, lookup_fmap_Some. by exists s. }
  unfold visit_map. rewrite visit_from; [|done|].
  2:{ intros x (s & Hs & _)%Hin. split; [by apply (Hg _ _ Hs)|apply lookup_empty]. }
  rewrite (right_id_L ∅ (∪)). cbn [mbind result_bind]. f_equal.
  unfold policy_from_file. cbn [mode peers]. change (bool_decide (lit "deny-by-default" = lit "legacy-allow")) with false.
  change (bool_decide (lit "deny-by-default" = lit "deny-by-default")) with true. cbv iota.
  rewrite (add_peers_from (λ k, default ∅ (g !! k))).
  - rewrite (right_id_L ∅ (∪)). f_equal. apply map_eq. intros k. apply option_eq. intros s.
    rewrite <-elem_of_list_to_map, list_elem_of_fmap.
    + setoid_rewrite btree_entries_perm. split.
      * intros ([k' pg] & [= -> ->] & Hx).
        apply elem_of_map_to_list, elem_of_list_to_map_2, Hin in Hx as (s' & Hs' & _).
        cbn [fst] in *. by rewrite Hs'.
      * intros Hs. exists (k, mkPeerGrant (canonical_targets s)). cbn [fst]. rewrite Hs. split; [done|].
        apply elem_of_map_to_list, elem_of_list_to_map; [done|]. apply Hin. by exists s.
    + rewrite <-list_fmap_compose. unfold compose. cbn [fst].
      change (NoDup (btree_entries (list_to_map entries : gmap str PeerGrant)).*1).
      rewrite btree_entries_perm. apply NoDup_fst_map_to_list.
  - rewrite btree_entries_perm. apply NoDup_fst_map_to_list.
  - intros x Hx. rewrite btree_entries_perm in Hx. destruct x as [k pg].
    apply elem_of_map_to_list, elem_of_list_to_map_2, Hin in Hx as (s & Hs & Hpg). cbn [fst snd] in *. subst pg.
    rewrite Hs. cbn. apply add_targets_canonical. apply (Hg _ _ Hs).
Qed.

(** Reading the canonical bytes of a well-formed policy. *)
Lemma read_own p bytes :
  policy_wf p → canonical_from_runtime p = Ok bytes →
  utf8_valid bytes = true ∧ ∃ f, parse_file bytes = Ok f ∧ policy_from_file f = normal p.
Proof.
  intros Hw Hc. destruct p as [| |g|]; cbn [canonical_from_runtime] in Hc; try done; injection Hc as <-.
  - destruct (policy_text (mkCanonical (lit "deny-by-default") (Some []))) as [Hu Hf].
    { split; [done|]. by intros l [= <-]. }
    split; [done|]. unfold parse_file. rewrite Hf. cbn. by eexists.
  - destruct (policy_text (mkCanonical (lit "legacy-allow") None)) as [Hu Hf]; [done|].
    split; [done|]. unfold parse_file. rewrite Hf. cbn. by eexists.
  - destruct (policy_text _ (canonical_entries_ok g Hw)) as [Hu Hf]. split; [done|].
    pose proof (grants_read g Hw) as (m & Hm & [= Hg])%bind_Ok.
    unfold parse_file. rewrite Hf. cbn [ok_or mbind result_bind raw_of raw_peers c_peers raw_mode c_mode].
    rewrite Hm. cbn [mbind result_bind]. by eexists.
Qed.

Lemma parse_canonical_own p bytes :
  policy_wf p → canonical_from_runtime p = Ok bytes → parse_canonical bytes = Ok (normal p).
Proof.
  intros Hw Hc. destruct (read_own p bytes Hw Hc) as (Hu & f & Hf & Hp).
  assert (canonical_from_runtime (normal p) = Ok bytes ∧ is_invalid (normal p) = false) as [Hn Hi].
  { destruct p; cbn in Hc |- *; try done. }
  unfold parse_canonical, canonicalize, parse. rewrite Hu, Hf. cbn [require mbind result_bind].
  rewrite Hp, Hi. cbn [negb require mbind result_bind]. rewrite Hn. cbn [mbind result_bind].
  by rewrite bool_decide_eq_true_2.
Qed.

Lemma parse_file_wf data f : parse_file data = Ok f → policy_wf (policy_from_file f).
Proof.
  unfold parse_file. intros (raw & Hraw%ok_or_Ok & (ps & Hps & [= <-])%bind_Ok)%bind_Ok.
  unfold policy_from_file. cbn [mode peers]. destruct (bool_decide _); [by destruct ps|].
  destruct (bool_decide _); [|done]. destruct ps as [|m]; [done|].
  destruct (raw_peers raw) as [entries|] eqn:He; [|done].
  unfold visit_map in Hps. apply bind_Ok in Hps as (m' & Hm & [= ->]).
  destruct (foldl add_peer (Some ∅) (btree_entries m)) as [g|] eqn:Hg; [|done].
  intros fp s Hs. apply (add_peers_inv _ _ _ Hg) in Hs as [Hs|([k pg] & Hin & Hk & Hts)]; [by rewrite lookup_empty in Hs|].
  cbn [fst snd] in *. subst k. rewrite btree_entries_perm, elem_of_map_to_list in Hin.
  apply (visit_inv _ _ _ Hm) in Hin as [Hn|[Hv Hin]]; [by rewrite lookup_empty in Hn|]. split; [done|].
  intros e He'. apply (add_targets_inv _ _ _ Hts) in He' as [?|(Hsup & t & Ht & ->)]; [set_solver|].
  split; [done|]. by eapply policy_typed.
Qed.

Lemma parse_canonical_inv data p :
  parse_canonical data = Ok p → policy_wf p ∧ normal p = p ∧ canonical_from_runtime p = Ok data.
Proof.
  unfold parse_canonical, canonicalize, parse. intros Hp. ww_inv. bool_simpl. subst.
  match goal with Hf : parse_file data = Ok _ |- _ => rewrite Hf end.
  split_and!; [by eapply parse_file_wf| |done].
  unfold policy_from_file. repeat case_match; done.
Qed.

(** The stored policy is canonical. [parse_canonical] accepts exactly
    the canonical bytes of a well-formed policy (fingerprints as peers,
    supported addresses), and returns it; every well-formed policy in force
    is written and read back, where no grants at all reads back as an empty
    set of grants; and what is read back grants the same targets. Whatever
    document [parse] accepts is well-formed, and so is what [allow_exact]
    and [remove_exact] make of a well-formed policy. *)
Theorem policy_document_exact p data fp e :
  (parse_canonical data = Ok p ↔ policy_wf p ∧ normal p = p ∧ canonical_from_runtime p = Ok data) ∧
  (policy_wf p → p ≠ Invalid →
     ∃ bytes, canonical_from_runtime p = Ok bytes ∧ parse_canonical bytes = Ok (normal p)) ∧
  (∀ q x, granted (normal p) q x ↔ granted p q x) ∧
  policy_wf (parse data) ∧
  (policy_wf p → addr_typed e →
     (∀ p', allow_exact p fp e = Ok p' → policy_wf p') ∧ (∀ p', remove_exact p fp e = Ok p' → policy_wf p')).
Proof.
  split_and!.
  - split; [apply parse_canonical_inv|]. intros (Hw & Hn & Hc). rewrite <-Hn. by apply parse_canonical_own.
  - intros Hw Hi. assert (∃ bytes, canonical_from_runtime p = Ok bytes) as [bytes Hc] by (destruct p; [by eexists..|done]).
    exists bytes. split; [done|]. by apply parse_canonical_own.
  - apply normal_granted.
  - unfold parse. destruct (parse_file data) eqn:Hf; [by eapply parse_file_wf|done].
  - intros Hw He. split; intros p' Hp'.
    + unfold allow_exact in Hp'. destruct (_ || _) eqn:Hb; [done|]. bool_simpl.
      apply bind_Ok in Hp' as (g & Hg & [= <-]).
      assert (grants_wf g) as Hgw by (destruct p; simplify_eq; [by intros ??; rewrite lookup_empty|done]).
      intros k s Hs. destruct (decide (k = fp)) as [->|Hne].
      * rewrite lookup_insert_eq in Hs. injection Hs as <-. split; [done|].
        intros x [->%elem_of_singleton|Hx]%elem_of_union; [done|].
        destruct (g !! fp) as [s|] eqn:Hfp; [by apply (Hgw _ _ Hfp)|set_solver].
      * rewrite lookup_insert_ne in Hs by done. by apply Hgw.
    + unfold remove_exact in Hp'. destruct (_ || _) eqn:Hb; [done|]. bool_simpl. ww_inv.
      cbn [policy_wf] in *. match goal with |- context [bool_decide ?P] => destruct (bool_decide P) end.
      * intros k s Hs. apply lookup_delete_Some in Hs as [_ Hs]. by apply Hw.
      * intros k s Hs. destruct (decide (k = fp)) as [->|Hne].
        -- rewrite lookup_insert_eq in Hs. injection Hs as <-. split; [done|].
           intros y [Hy _]%elem_of_difference. by eapply Hw.
        -- rewrite lookup_insert_ne in Hs by done. by apply Hw.
Qed.

End document.
End TargetPolicySpec.

(** ** A concrete policy *)

Module TargetPolicyDemo.
Import Pelt TargetPolicy TargetPolicySpec ToySerde.

#[export] Instance target_grant_eq_dec : EqDecision TargetGrant.
Proof. solve_decision. Defined.
#[export] Instance target_grant_countable : Countable TargetGrant.
Proof.
  apply (inj_countable' (λ t, (address t, port t)) (λ '(a, p), mkTargetGrant a p)). by intros [].
Defined.
#[export] Instance canonical_eq_dec : EqDecision CanonicalPolicy.
Proof. solve_decision. Defined.
#[export] Instance canonical_countable : Countable CanonicalPolicy.
Proof.
  apply (inj_countable' (λ c, (c_mode c, c_peers c)) (λ '(m, p), mkCanonical m p)). by intros [].
Defined.

(** Reads only documents whose addresses have their types. *)
Definition typed_grant (t : TargetGrant) : bool :=
  (0 <=? port t) && (port t <? 2 ^ 16)
  && match address t with
     | V4 o => (length o =? 4)%nat && forallb (λ z, (0 <=? z) && (z <? 2 ^ 8)) o
     | V6 s => (length s =? 8)%nat && forallb (λ z, (0 <=? z) && (z <? 2 ^ 16)) s
     end.
Definition typed_raw (r : RawPolicy) : bool :=
  match raw_peers r with
  | Some l => forallb (λ x : str * PeerGrant, forallb typed_grant (targets x.2)) l
  | None => true
  end.

Lemma typed_grant_ok t : typed_grant t = true ↔ addr_typed (endpoint_of t).
Proof.
  assert (∀ b l, forallb (λ z, (0 <=? z) && (z <? b)) l = true ↔ Forall (λ z, 0 ≤ z < b) l) as Hall.
  { intros b l. rewrite forallb_forall, Forall_forall. setoid_rewrite list_elem_of_In.
    split; intros Hx z Hz; specialize (Hx z Hz); lia. }
  unfold typed_grant, addr_typed, endpoint_of. cbn [sa_port sa_ip sa_scope].
  destruct (address t); rewrite !andb_true_iff, Hall, Nat.eqb_eq; split; intuition lia.
Qed.

#[export] Instance demo_json : PolicyJson := {|
  policy_from_str data :=
    c ← from_slice (A := CanonicalPolicy) data;
    if typed_raw (raw_of c) then Some (raw_of c) else None;
  policy_to_vec c := to_vec c
|}.

Lemma pos_bytes_utf8 p : utf8_valid (pos_bytes p) = true.
Proof.
  unfold utf8_valid. apply bool_decide_eq_true.
  induction p as [p [cs IH]|p [cs IH]|]; cbn [pos_bytes length utf8_chars]; [| |by eexists];
    cbn; rewrite IH; by eexists.
Qed.

#[export] Instance demo_json_laws : PolicyJsonLaws.
Proof.
  split.
  - intros c [_ Hok]. split; [apply pos_bytes_utf8|]. cbn [policy_from_str demo_json policy_to_vec].
    rewrite from_to_vec. cbn [mbind option_bind].
    assert (typed_raw (raw_of c) = true) as ->; [|done].
    unfold typed_raw, raw_of. cbn [raw_peers]. destruct (c_peers c) as [l|]; [|done].
    specialize (Hok l eq_refl). rewrite Forall_forall in Hok. apply forallb_forall.
    intros x Hx%list_elem_of_In. apply list_elem_of_fmap in Hx as (y & -> & Hy).
    destruct (Hok y Hy) as [_ Ht]. apply forallb_forall. intros t Ht'%list_elem_of_In.
    rewrite Forall_forall in Ht. by apply typed_grant_ok, Ht.
  - intros data raw entries x t Hr He Hx Ht. cbn in Hr.
    destruct (decode _) as [c|]; [|done]. cbn [mbind option_bind] in Hr.
    destruct (typed_raw (raw_of c)) eqn:Hty; [|done]. injection Hr as <-.
    unfold typed_raw in Hty. rewrite He in Hty. rewrite forallb_forall in Hty.
    specialize (Hty x ltac:(by apply list_elem_of_In)). rewrite forallb_forall in Hty.
    apply typed_grant_ok, Hty. by apply list_elem_of_In.
Qed.

Definition demo_fp : str := show_fingerprint (array_fill 8 x2a).
Definition demo_endpoint : SocketAddr := mkSocketAddr (V4 [127; 0; 0; 1]) 80 0.

Lemma policy_document_exact_witness :
  ∃ bytes, canonical_from_runtime LegacyAllow = Ok bytes ∧ parse_canonical bytes = Ok LegacyAllow.
Proof.
  destruct (policy_document_exact LegacyAllow [] demo_fp demo_endpoint) as (_ & Hw & _).
  apply Hw; done.
Defined.

End TargetPolicyDemo.
