(* ===== verification/NodeGovernance.v ===== *)
(** * Governance on the node ([werewolfd/src/governance.rs])

    The persisted form of the chain head: its JSON document, the structural
    check, the canonical bytes and the strict parse; and what a head says of
    this node and of a Pack member. [serde_json] is the parameter of
    [Serde]. The daemon state is represented by the two fields these
    functions read: the head and the node's Pelt. *)

From stdpp Require Import gmap.
From S2P Require Export GovernanceTools.
From S2P Require Import StateValidation GovernanceDemo.

Local Open Scope Z_scope.

Module NodeGovernance.
Import Gov GovTool Pelt StateValidation.

Record KeyEpoch : Type := mkKeyEpoch {
  set_at : Z;
  ke_keys : list str
}.

Record Document : Type := mkDocument {
  d_version : byte;
  d_network_id : str;
  d_sequence : Z;
  d_hash : str;
  d_threshold : byte;
  d_key_epochs : list KeyEpoch;
  d_revoked : list str;
  d_applied : list str;
  d_forked : bool;
  d_roster : list str;
  d_activated_at : option Z;
  d_dead_at : option Z
}.

Inductive DocError : Type := InvalidDocument.

(** The invariants the document relies on. [applied.len() as u64] and the
    addition wrap. *)
Definition check (head : Head) : result DocError () :=
  require
    ((byte_nat head.(h_threshold) =? THRESHOLD)%nat
     && (Z.of_nat (length head.(applied)) `mod` 2 ^ 64 =? u64_add head.(h_sequence) 1)
     && bool_decide (last head.(applied) = Some head.(h_hash))
     && match head.(key_epochs) with e :: _ => e.1 =? 0 | [] => false end
     && windows2_all (λ a b, a.1 <? b.1) head.(key_epochs)
     && match last head.(key_epochs) with Some e => e.1 <=? head.(h_sequence) | None => false end
     && forallb (λ e, (length e.2 =? KEY_COUNT)%nat && negb (repeats [] e.2)) head.(key_epochs)
     && windows2_all oltb head.(revoked)
     && (length head.(roster) <=? MAX_ROSTER)%nat
     && windows2_all oltb head.(roster)
     && forallb (λ key, negb (is_ok (binary_search head.(revoked) key))) head.(roster)
     && match head.(activated_at) with Some a => a <=? head.(h_sequence) | None => true end
     && match head.(dead_at) with Some a => a =? head.(h_sequence) | None => true end)
    InvalidDocument.

Definition hexes {n} (l : list (array n)) : list str := (λ k, hex (array_bytes k)) <$> l.

Definition document (head : Head) : Document := {|
  d_version := x01;
  d_network_id := hex (array_bytes head.(h_network_id));
  d_sequence := head.(h_sequence);
  d_hash := hex (array_bytes head.(h_hash));
  d_threshold := head.(h_threshold);
  d_key_epochs := (λ e, mkKeyEpoch e.1 (hexes e.2)) <$> head.(key_epochs);
  d_revoked := hexes head.(revoked);
  d_applied := hexes head.(applied);
  d_forked := head.(forked);
  d_roster := hexes head.(roster);
  d_activated_at := head.(activated_at);
  d_dead_at := head.(dead_at)
|}.

(** The closure [hex32], and the collection of its results. *)
Definition hex32 (text : str) : result DocError (array 32) :=
  map_err (λ _, InvalidDocument) (GovTool.unhex 32 text).

Definition epoch_of_document (epoch : KeyEpoch) : result DocError (Z * list Key) :=
  ks ← try_map hex32 epoch.(ke_keys);
  Ok (epoch.(set_at), ks).

Definition head_of_document (doc : Document) : result DocError Head :=
  network_id ← hex32 doc.(d_network_id);
  hash ← hex32 doc.(d_hash);
  key_epochs ← try_map epoch_of_document doc.(d_key_epochs);
  revoked ← try_map hex32 doc.(d_revoked);
  applied ← try_map hex32 doc.(d_applied);
  roster ← try_map hex32 doc.(d_roster);
  Ok (mkHead network_id doc.(d_sequence) hash doc.(d_threshold) key_epochs revoked applied
        doc.(d_forked) roster doc.(d_activated_at) doc.(d_dead_at)).

Section document.
Context `{Serde Document}.

Definition canonical (head : Head) : result DocError (list byte) :=
  _ ← check head;
  Ok (to_vec (document head)).

Definition parse (bytes : list byte) : result DocError Head :=
  doc ← ok_or (from_slice bytes) InvalidDocument;
  _ ← require (bool_decide (doc.(d_version) = x01)) InvalidDocument;
  head ← head_of_document doc;
  again ← canonical head;
  _ ← require (bool_decide (again = bytes)) InvalidDocument;
  Ok head.

End document.

(** ** Membership *)

Section membership.
Context `{Base64}.

Definition own_key (pelt : option PeltIdentity) : option Key :=
  match pelt with
  | Some p => match public_key p.(public_key_b64) with Ok k => Some k | Err _ => None end
  | None => None
  end.

Definition unadmitted (governance : option Head) (pelt : option PeltIdentity) : bool :=
  match governance, own_key pelt with
  | Some head, Some own => negb (admits head own)
  | Some head, None => bool_decide (is_Some head.(activated_at))
  | None, _ => false
  end.

Definition peer_key (peer : PeerRecord) : option Key :=
  match peer.(pr_public_key_b64) with
  | Some b64 => match public_key b64 with Ok k => Some k | Err _ => None end
  | None => None
  end.

Definition excludes (head : Head) (peer : PeerRecord) : bool :=
  match peer_key peer with
  | Some key =>
      is_ok (binary_search head.(revoked) key)
      || (bool_decide (is_Some head.(activated_at)) && negb (is_ok (binary_search head.(roster) key)))
  | None => bool_decide (is_Some head.(activated_at))
  end.

End membership.
End NodeGovernance.

(** ** What the persisted head guarantees *)

Module NodeGovernanceSpec.
Import Gov GovChain GovTool GovToolSpec Pelt StateValidation NodeGovernance.

Lemma windows2_epochs (l : list (Z * list Key)) :
  windows2_all (λ a b, a.1 <? b.1) l = true ↔ StronglySorted (λ a b, a.1 < b.1) l.
Proof.
  split.
  - intros Hl. apply Sorted_StronglySorted; [intros ???; lia|].
    induction l as [|x [|y l] IH]; [constructor|repeat constructor|].
    cbn [windows2_all] in Hl. bool_simpl. constructor; [by apply IH|]. constructor. lia.
  - induction 1 as [|x l Hs IH Hf]; [done|]. destruct l as [|y l]; [done|].
    apply Forall_cons in Hf as [Hxy _]. apply andb_true_iff. split; [by apply Z.ltb_lt|exact IH].
Qed.

(** In a sequence of increasing epochs the last one is the greatest. *)
Lemma epochs_last (l : list (Z * list Key)) e last_e :
  StronglySorted (λ a b, a.1 < b.1) l → last l = Some last_e → e ∈ l → e.1 ≤ last_e.1.
Proof.
  intros Hs. revert last_e. induction Hs as [|x l Hs IH Hf]; intros last_e Hl Hin; [by apply elem_of_nil in Hin|].
  rewrite last_cons in Hl. apply elem_of_cons in Hin as [->|Hin].
  - destruct (last l) as [z|] eqn:Hz; injection Hl as <-; [|lia].
    rewrite Forall_forall in Hf. specialize (Hf z ltac:(by apply last_Some_elem_of)). cbn in Hf. lia.
  - destruct (last l) as [z|] eqn:Hz; [injection Hl as <-; by apply IH|].
    apply last_None in Hz as ->. by apply elem_of_nil in Hin.
Qed.

Section wf.
Context `{Crypto}.

(** The keys of the document are strong; the check does not ask this again. *)
Definition strong_epochs (h : Head) : Prop := ∀ e, e ∈ h.(key_epochs) → Forall strong e.2.

Lemma epochs_check h :
  strong_epochs h →
  forallb (λ e : Z * list Key, (length e.2 =? KEY_COUNT)%nat && negb (repeats [] e.2)) h.(key_epochs) = true ↔
  ∀ e, e ∈ h.(key_epochs) → good_keys e.2.
Proof.
  intros Hst. rewrite forallb_forall. unfold good_keys. split; intros Hall e Hin.
  - specialize (Hall e ltac:(by apply list_elem_of_In)). bool_simpl.
    split_and!; [done| |by apply Hst]. by eapply (repeats_NoDup []).
  - specialize (Hall e ltac:(by apply list_elem_of_In)) as (Hl & Hnd & _).
    rewrite Hl, Nat.eqb_refl. cbn. apply negb_true_iff, repeats_NoDup. split; [done|].
    intros x _. apply not_elem_of_nil.
Qed.

Lemma disjoint_check rs vs :
  increasing vs →
  forallb (λ key : Key, negb (is_ok (binary_search vs key))) rs = true ↔ ∀ k, k ∈ rs → k ∉ vs.
Proof.
  intros Hinc. rewrite forallb_forall. split; intros Hall k Hin.
  - specialize (Hall k ltac:(by apply list_elem_of_In)). bool_simpl. intros Hk.
    apply (binary_search_elem_of _ _ Hinc) in Hk. congruence.
  - apply negb_true_iff. apply not_true_iff_false. rewrite (binary_search_elem_of _ _ Hinc).
    apply Hall. by apply list_elem_of_In.
Qed.

Lemma wf_check h : head_wf h → check h = Ok ().
Proof.
  intros Hw. unfold check.
  destruct (hw_first _ Hw) as (ks & rest & Heq).
  destruct (keys_wf h Hw) as (_ & _ & _ & e & Hlast & _).
  rewrite (hw_threshold _ Hw), (hw_applied _ Hw), (hw_last _ Hw), Hlast.
  rewrite (proj2 (windows2_epochs _) (hw_epochs _ Hw)).
  rewrite (proj2 (epochs_check h (λ e He, proj2 (proj2 (proj2 (hw_epoch _ Hw e He)))))
    (λ e He, proj2 (hw_epoch _ Hw e He))).
  rewrite (proj2 (windows2_increasing _) (hw_revoked _ Hw)).
  rewrite (proj2 (windows2_increasing _) (hw_roster _ Hw)).
  rewrite (proj2 (disjoint_check _ _ (hw_revoked _ Hw)) (hw_disjoint _ Hw)).
  rewrite (proj2 (Nat.leb_le _ _) (hw_roster_len _ Hw)).
  rewrite Nat.eqb_refl, bool_decide_eq_true_2 by done.
  pose proof (hw_seq _ Hw) as [Hge Hlt]. unfold u64_add.
  replace (Z.of_nat (S (Z.to_nat (h_sequence h)))) with (h_sequence h + 1) by lia. rewrite Z.eqb_refl.
  rewrite Heq. cbn [fst]. rewrite Z.eqb_refl.
  rewrite (proj2 (Z.leb_le e.1 (h_sequence h)))
    by (apply (hw_epoch _ Hw); by apply last_Some_elem_of).
  destruct (activated_at h) as [a|] eqn:Ha; [rewrite (proj2 (Z.leb_le a _)) by (by apply (hw_activated _ Hw))|];
    (destruct (dead_at h) as [d|] eqn:Hd; [rewrite (hw_dead _ Hw d Hd), Z.eqb_refl|]); done.
Qed.

Lemma check_wf h :
  u64_range h.(h_sequence) → Z.of_nat (length h.(applied)) < 2 ^ 64 → strong_epochs h →
  check h = Ok () → head_wf h.
Proof.
  intros Hs Hlen Hst Hc. unfold check in Hc. destruct (_ && _) eqn:Hb in Hc; [clear Hc|done]. bool_simpl.
  rewrite Z.mod_small in * by lia. unfold u64_add, u64_range in *.
  assert (length h.(applied) ≠ 0%nat) as Hnz.
  { destruct (applied h); [done|]. cbn; lia. }
  assert (h.(h_sequence) + 1 < 2 ^ 64) as Hsm.
  { destruct (decide (h.(h_sequence) + 1 = 2 ^ 64)) as [Hx|]; [|lia].
    match goal with H : _ = (h_sequence h + 1) `mod` _ |- _ => rewrite Hx, Z.mod_same in H by lia; lia end. }
  rewrite Z.mod_small in * by lia.
  assert (StronglySorted (λ a b, a.1 < b.1) h.(key_epochs)) as Hep by (by apply windows2_epochs).
  destruct (key_epochs h) as [|[z ks] rest] eqn:Hke; [done|]. rewrite <-Hke in *.
  destruct (last (key_epochs h)) as [le|] eqn:Hle; [|done].
  split; try done.
  - lia.
  - exists ks, rest. rewrite Hke. f_equal. f_equal. cbn in *. lia.
  - intros e He. split.
    + pose proof (epochs_last _ e le Hep Hle He). lia.
    + revert e He. by apply (epochs_check h Hst).
  - by apply windows2_increasing.
  - by apply windows2_increasing.
  - apply disjoint_check; [by apply windows2_increasing|done].
  - intros a Ha. rewrite Ha in *. lia.
  - intros d Hd. rewrite Hd in *. lia.
Qed.

Lemma hex32_hex (a : array 32) : hex32 (hex (array_bytes a)) = Ok a.
Proof. unfold hex32. by rewrite unhex_hex_array. Qed.

Lemma hex32_hexes (l : list (array 32)) : try_map hex32 (hexes l) = Ok l.
Proof.
  induction l as [|a l IH]; [done|]. change (hexes (a :: l)) with (hex (array_bytes a) :: hexes l).
  cbn [try_map]. rewrite hex32_hex. cbn [mbind result_bind]. by rewrite IH.
Qed.

Lemma epoch_own z ks : epoch_of_document (mkKeyEpoch z (hexes ks)) = Ok (z, ks).
Proof. unfold epoch_of_document. cbn [ke_keys set_at]. by rewrite hex32_hexes. Qed.

Lemma head_of_document_own h : head_of_document (document h) = Ok h.
Proof.
  unfold head_of_document, document. cbn [d_network_id d_hash d_key_epochs d_revoked d_applied d_roster
    d_sequence d_threshold d_forked d_activated_at d_dead_at].
  rewrite !hex32_hex, !hex32_hexes. cbn [mbind result_bind].
  assert (try_map epoch_of_document ((λ e, mkKeyEpoch e.1 (hexes e.2)) <$> key_epochs h) = Ok (key_epochs h)) as ->.
  { induction (key_epochs h) as [|[z ks] l IH]; [done|]. rewrite fmap_cons. cbn [try_map].
    rewrite epoch_own. cbn [mbind result_bind]. by rewrite IH. }
  cbn [mbind result_bind]. by destruct h.
Qed.

Section laws.
Context `{SerdeLaws Document}.

Lemma parse_canonical h bytes : canonical h = Ok bytes → parse bytes = Ok h.
Proof.
  intros Hc. unfold parse. pose proof Hc as Hc'. unfold canonical in Hc'.
  apply bind_Ok in Hc' as ([] & _ & [= <-]). rewrite from_to_vec. cbn [ok_or mbind result_bind].
  rewrite bool_decide_eq_true_2 by done. cbn [require mbind result_bind].
  rewrite head_of_document_own. cbn [mbind result_bind]. rewrite Hc. cbn [mbind result_bind].
  by rewrite bool_decide_eq_true_2.
Qed.

Lemma parse_inv h bytes : parse bytes = Ok h → canonical h = Ok bytes.
Proof.
  unfold parse. intros (doc & _ & Hp)%bind_Ok. apply bind_Ok in Hp as ([] & _ & Hp).
  apply bind_Ok in Hp as (h' & _ & Hp). apply bind_Ok in Hp as (again & Hc & Hp).
  apply bind_Ok in Hp as ([] & Hb & [= <-]). apply require_Ok in Hb. bool_simpl. by subst.
Qed.

(** The head survives a restart. Every head the chain can reach passes
    the document's check, so it is always written; the bytes parse to that
    very head; the bytes of a document are the only ones that parse to its
    head (so a damaged or reformatted document is refused); and for heads
    with strong keys the check is exactly the invariant of the chain. *)
Theorem head_persists h bytes :
  gov_reach (Some h) →
  (∃ b, canonical h = Ok b ∧ parse b = Ok h) ∧
  (∀ h', parse bytes = Ok h' ↔ canonical h' = Ok bytes) ∧
  (∀ h', u64_range h'.(h_sequence) → Z.of_nat (length h'.(applied)) < 2 ^ 64 → strong_epochs h' →
     check h' = Ok () ↔ head_wf h').
Proof.
  intros Hr%gov_reach_wf. split_and!.
  - eexists. assert (canonical h = Ok (to_vec (document h))) as Hc; [|split; [done|by apply parse_canonical]].
    unfold canonical. by rewrite wf_check.
  - intros h'. split; [apply parse_inv|apply parse_canonical].
  - intros h' Hs Hl Hst. split; [by apply check_wf|apply wf_check].
Qed.

End laws.

(** Membership follows the chain. For a reachable head, a Pack member is
    excluded exactly when its key is revoked, or membership is activated and
    the member's key is not on the roster (or the member has no usable
    key); and this node is unadmitted exactly when membership is activated
    and the node has no Pelt key on the roster. *)
Theorem membership_exact `{Base64} h peer pelt :
  gov_reach (Some h) →
  (excludes h peer = true ↔
     (∃ k, peer_key peer = Some k ∧ k ∈ h.(revoked)) ∨
     (is_Some h.(activated_at) ∧ ∀ k, peer_key peer = Some k → k ∉ h.(roster))) ∧
  (unadmitted (Some h) pelt = true ↔
     is_Some h.(activated_at) ∧ ∀ k, own_key pelt = Some k → k ∉ h.(roster)).
Proof.
  intros Hw%gov_reach_wf.
  pose proof (λ k, binary_search_elem_of _ k (hw_revoked _ Hw)) as Hrev.
  pose proof (λ k, binary_search_elem_of _ k (hw_roster _ Hw)) as Hros.
  pose proof (hw_disjoint _ Hw) as Hdis. split.
  - unfold excludes. destruct (peer_key peer) as [k|].
    + rewrite orb_true_iff, andb_true_iff, negb_true_iff, <-not_true_iff_false, Hrev, Hros, bool_decide_eq_true.
      split.
      * intros [Hk|[Ha Hk]]; [left; by exists k|right; split; [done|]]. by intros ? [= <-].
      * intros [(? & [= <-] & Hk)|[Ha Hk]]; [by left|right; split; [done|by apply Hk]].
    + rewrite bool_decide_eq_true. split; [by right|]. by intros [(? & ? & _)|[? _]].
  - unfold unadmitted. destruct (own_key pelt) as [k|].
    + unfold admits. rewrite negb_true_iff, <-not_true_iff_false, orb_true_iff, andb_true_iff, !negb_true_iff,
        <-(not_true_iff_false (is_ok _)), Hros, Hrev, bool_decide_eq_false.
      split.
      * intros Hn. split; [destruct (decide (is_Some (activated_at h))); [done|by destruct Hn; left]|].
        intros ? [= <-] Hk. destruct Hn. right. split; [done|by apply Hdis].
      * intros [Ha Hk] [Hn|[Hin _]]; [done|]. by apply (Hk k eq_refl).
    + rewrite bool_decide_eq_true. split; [by intros|by intros [? _]].
Qed.

End wf.
End NodeGovernanceSpec.

(** ** Concrete heads *)

Module NodeGovernanceDemo.
Import Gov GovChain GovDemo Pelt StateValidation NodeGovernance NodeGovernanceSpec Toy ToySerde.

#[export] Instance key_epoch_eq_dec : EqDecision KeyEpoch.
Proof. solve_decision. Defined.
#[export] Instance key_epoch_countable : Countable KeyEpoch.
Proof.
  apply (inj_countable' (λ e, (set_at e, ke_keys e)) (λ '(z, ks), mkKeyEpoch z ks)). by intros [].
Defined.
#[export] Instance document_eq_dec : EqDecision Document.
Proof. solve_decision. Defined.
#[export] Instance document_countable : Countable Document.
Proof.
  apply (inj_countable'
    (λ d, (d_version d, d_network_id d, d_sequence d, d_hash d, d_threshold d, d_key_epochs d,
           (d_revoked d, d_applied d, d_forked d, d_roster d, d_activated_at d, d_dead_at d)))
    (λ '(v, n, s, h, t, e, (r, a, f, ro, ac, de)), mkDocument v n s h t e r a f ro ac de)). by intros [].
Defined.

Lemma head_persists_witness : ∃ b, canonical demo_h1 = Ok b ∧ parse b = Ok demo_h1.
Proof. destruct (head_persists demo_h1 [] demo_reach1) as [Hb _]. exact Hb. Defined.

(** The member whose key the second statement admits and the third revokes. *)
Definition demo_member : PeerRecord :=
  mkPeerRecord (lit "wolf") [] [] Packmate (Some (b64_encode (array_bytes (key_of 100)))).

Lemma membership_exact_witness : excludes demo_h2 demo_member = true.
Proof.
  apply (proj2 (proj1 (membership_exact demo_h2 demo_member None demo_reach2))). left.
  exists (key_of 100). split.
  { unfold peer_key, GovTool.public_key. cbn [pr_public_key_b64 demo_member].
    rewrite b64_decode_encode. cbn [mbind option_bind]. by rewrite to_array_bytes. }
  assert (bool_decide (key_of 100 ∈ revoked demo_h2) = true) as Hb by (vm_compute; reflexivity).
  by apply bool_decide_eq_true in Hb.
Defined.

End NodeGovernanceDemo.
