(* ===== verification/Tombstone.v ===== *)
(** * The Tombstone of a destroyed Den ([werewolf-core/src/tombstone.rs])

    The validated value, its JSON document, the constructors, the canonical
    encoding and the strict parse. [serde_json] and base64 are parameters. *)

From stdpp Require Import gmap.
From S2P Require Export GovernanceChain.
From S2P Require Export Serde.

Local Open Scope Z_scope.

Module Tombstone.
Import Gov.

Definition MAX_LEN : nat := Z.to_nat (8 * 1024).
Definition FORMAT : str := lit "werewolf-tombstone".
Definition MAX_SOFTWARE_LEN : nat := 64.

Inductive Kind : Type := KDeath | KRetirement.
Inductive Destruction : Type := Incomplete | Complete.

Record Tombstone : Type := mkTombstone {
  t_kind : Kind;
  t_death : option Statement;
  t_destruction : Destruction;
  t_software : str
}.

Record Document : Type := mkDocument {
  format : str;
  version : byte;
  kind : str;
  network_id : option str;
  terminal_sequence : option Z;
  terminal_hash : option str;
  death_statement : option str;
  destruction : str;
  software : str
}.

Inductive TombstoneError : Type := InvalidTombstone.
Notation ts A := (result TombstoneError A).
Definition invalid {A} : ts A := Err InvalidTombstone.

Definition check_software (s : str) : ts () :=
  if bool_decide (s = []) || (MAX_SOFTWARE_LEN <? length s)%nat
     || negb (forallb (λ c, in_range 0x20 0x7e (byte_val c)) s)
  then invalid else Ok ().

Definition kind_text (k : Kind) : str :=
  match k with KDeath => lit "death" | KRetirement => lit "retirement" end.
Definition destruction_text (d : Destruction) : str :=
  match d with Incomplete => lit "incomplete" | Complete => lit "complete" end.

Section tombstone.
Context `{Crypto} `{Base64} `{Serde Document}.

Definition document (t : Tombstone) : Document :=
  let core := core <$> t.(t_death) in {|
    format := FORMAT;
    version := x01;
    kind := kind_text t.(t_kind);
    network_id := (λ c, hex (array_bytes c.(Gov.network_id))) <$> core;
    terminal_sequence := sequence <$> core;
    terminal_hash := (λ c, hex (array_bytes (core_hash c))) <$> core;
    death_statement := (λ s, b64_encode (statement_encode s)) <$> t.(t_death);
    destruction := destruction_text t.(t_destruction);
    software := t.(t_software)
  |}.

Definition encode (t : Tombstone) : ts (list byte) :=
  let bytes := to_vec (document t) in
  if (MAX_LEN <? length bytes)%nat then invalid else Ok bytes.

Definition death (s : Statement) (d : Destruction) (sw : str) : ts Tombstone :=
  _ ← require (is_death s.(core).(body)) InvalidTombstone;
  _ ← check_software sw;
  let t := mkTombstone KDeath (Some s) d sw in
  _ ← encode t;
  Ok t.

Definition retirement (d : Destruction) (sw : str) : ts Tombstone :=
  _ ← check_software sw;
  Ok (mkTombstone KRetirement None d sw).

Definition parse_destruction (text : str) : ts Destruction :=
  if bool_decide (text = lit "incomplete") then Ok Incomplete
  else if bool_decide (text = lit "complete") then Ok Complete
  else invalid.

Definition parse_death (doc : Document) (d : Destruction) : ts Tombstone :=
  encoded ← ok_or doc.(death_statement) InvalidTombstone;
  s ← ok_or (bytes ← b64_decode encoded;
             match statement_decode bytes with Ok s => Some s | Err _ => None end) InvalidTombstone;
  t ← death s d doc.(software);
  let expected := document t in
  _ ← require (bool_decide (doc.(network_id) = expected.(network_id))
               && bool_decide (doc.(terminal_sequence) = expected.(terminal_sequence))
               && bool_decide (doc.(terminal_hash) = expected.(terminal_hash))) InvalidTombstone;
  Ok t.

Definition parse_retirement (doc : Document) (d : Destruction) : ts Tombstone :=
  _ ← require (bool_decide (doc.(network_id) = None) && bool_decide (doc.(terminal_sequence) = None)
               && bool_decide (doc.(terminal_hash) = None) && bool_decide (doc.(death_statement) = None))
        InvalidTombstone;
  retirement d doc.(software).

Definition parse (bytes : list byte) : ts Tombstone :=
  _ ← require (length bytes <=? MAX_LEN)%nat InvalidTombstone;
  doc ← ok_or (from_slice bytes) InvalidTombstone;
  _ ← require (bool_decide (doc.(format) = FORMAT) && bool_decide (doc.(version) = x01)) InvalidTombstone;
  d ← parse_destruction doc.(destruction);
  t ← (if bool_decide (doc.(kind) = lit "death") then parse_death doc d
       else if bool_decide (doc.(kind) = lit "retirement") then parse_retirement doc d
       else invalid);
  again ← encode t;
  _ ← require (bool_decide (again = bytes)) InvalidTombstone;
  Ok t.

End tombstone.
End Tombstone.

(** ** What a Tombstone guarantees *)

Module TombstoneSpec.
Import Gov GovCodec Tombstone.

Section spec.
Context `{Crypto} `{Base64Laws} `{SerdeLaws Document}.

(** The values the constructors give: a death statement that fits the wire
    format for a death, no statement for a retirement. *)
Definition tombstone_wf (t : Tombstone) : Prop :=
  check_software t.(t_software) = Ok () ∧
  match t.(t_kind), t.(t_death) with
  | KDeath, Some s => s.(core).(body) = Death ∧ statement_ok s
  | KRetirement, None => True
  | _, _ => False
  end.

Lemma parse_destruction_text d : parse_destruction (destruction_text d) = Ok d.
Proof. by destruct d. Qed.

Lemma encode_Ok t bytes :
  encode t = Ok bytes ↔ bytes = to_vec (document t) ∧ (length bytes ≤ MAX_LEN)%nat.
Proof.
  unfold encode. cbv zeta. destruct (Nat.ltb_spec MAX_LEN (length (to_vec (document t)))); split.
  - done.
  - intros [-> ?]. lia.
  - by intros [= <-].
  - by intros [-> _].
Qed.

Lemma tombstone_parse_encode t bytes : tombstone_wf t → encode t = Ok bytes → parse bytes = Ok t.
Proof.
  intros [Hsw Hk] He. pose proof He as [Hb Hlen]%encode_Ok. unfold parse.
  rewrite (proj2 (Nat.leb_le _ _) Hlen), Hb, from_to_vec. cbn [require ok_or mbind result_bind].
  rewrite (bool_decide_eq_true_2 (format (document t) = FORMAT)) by done.
  rewrite (bool_decide_eq_true_2 (version (document t) = x01)) by done. cbn [require andb mbind result_bind].
  change (destruction (document t)) with (destruction_text (t_destruction t)).
  change (kind (document t)) with (kind_text (t_kind t)).
  rewrite parse_destruction_text. cbn [mbind result_bind].
  assert ((if bool_decide (kind_text (t_kind t) = lit "death") then parse_death (document t) (t_destruction t)
    else if bool_decide (kind_text (t_kind t) = lit "retirement") then parse_retirement (document t) (t_destruction t)
    else invalid) = Ok t) as ->.
  { destruct t as [k s d sw]. cbn [t_kind t_death t_software t_destruction] in *.
    destruct k, s as [s|]; try done; cbn [kind_text].
    - destruct Hk as [Hd Hok]. rewrite bool_decide_eq_true_2 by done.
      unfold parse_death. cbn [document death_statement t_death fmap option_fmap option_map ok_or mbind result_bind].
      rewrite b64_decode_encode. cbn [mbind option_bind]. rewrite decode_encode by done.
      cbn [ok_or mbind result_bind software document t_software]. unfold death. rewrite Hd. cbn [is_death].
      cbn [require mbind result_bind]. rewrite Hsw. cbn [mbind result_bind]. rewrite He.
      cbn [mbind result_bind]. rewrite !bool_decide_eq_true_2 by done. done.
    - unfold parse_retirement, retirement.
      cbn [document network_id terminal_sequence terminal_hash death_statement software t_death t_software
           fmap option_fmap option_map]. rewrite Hsw. done. }
  cbn [mbind result_bind]. rewrite He. cbn [mbind result_bind]. by rewrite bool_decide_eq_true_2.
Qed.

Lemma check_software_Ok sw u : check_software sw = Ok u → check_software sw = Ok ().
Proof. by destruct u. Qed.

Lemma tombstone_parse_inv bytes t : parse bytes = Ok t → tombstone_wf t ∧ encode t = Ok bytes.
Proof.
  unfold parse. intros Hp. ww_inv; bool_simpl; subst; (split; [|done]).
  - unfold parse_death, death in *. ww_inv.
    match goal with Ho : _ ≫= _ = Some ?s |- _ =>
      destruct (b64_decode _) as [b|]; [|done]; cbn in Ho; destruct (statement_decode b) as [s'|] eqn:Hd;
      [|done]; injection Ho as <- end.
    apply decode_inv in Hd as [_ Hok]. split; [by eapply check_software_Ok|]. cbn. split; [|done].
    match goal with Hx : is_death ?b = true |- _ => by destruct b end.
  - unfold parse_retirement, retirement in *. ww_inv. split; [by eapply check_software_Ok|done].
Qed.

(** A Tombstone has one encoding. [parse] returns a tombstone exactly for
    the canonical bytes of a well-formed one: a death carries a death
    statement that fits the wire format, and the network id, sequence and
    hash of that very statement; a retirement carries no chain data. Any
    other bytes (other spacing, order, or fields that disagree with the
    statement) are refused. *)
Theorem tombstone_exact bytes t :
  parse bytes = Ok t ↔ tombstone_wf t ∧ encode t = Ok bytes.
Proof. split; [apply tombstone_parse_inv|]. intros [? ?]. by apply tombstone_parse_encode. Qed.

(** The constructors give tombstones that can be read back. [death]
    succeeds exactly for a death statement and printable software name of at
    most 64 bytes whose encoding fits 8 KiB, [retirement] exactly for such a
    name; what they return, and it alone, has the arguments as its parts. *)
Theorem tombstone_constructors s d sw t :
  (death s d sw = Ok t ↔
     t = mkTombstone KDeath (Some s) d sw ∧ s.(core).(body) = Death ∧ check_software sw = Ok () ∧
     ∃ bytes, encode t = Ok bytes ∧ (statement_ok s → parse bytes = Ok t)) ∧
  (retirement d sw = Ok t ↔ t = mkTombstone KRetirement None d sw ∧ check_software sw = Ok ()) ∧
  (check_software sw = Ok () ↔
     sw ≠ [] ∧ (length sw ≤ 64)%nat ∧ Forall (λ c, 0x20 ≤ byte_val c ≤ 0x7e) sw).
Proof.
  split_and!.
  - split.
    + unfold death. intros Hd. ww_inv.
      match goal with Hs : check_software sw = Ok ?u |- _ => destruct u end.
      assert (body (core s) = Death) as Hb by (by destruct (body (core s))).
      split_and!; [done|done|done|]. eexists. split; [done|]. intros Hok. by apply tombstone_parse_encode.
    + intros (-> & Hb & Hs & bytes & He & _). unfold death. rewrite Hb, Hs. cbn. by rewrite He.
  - unfold retirement. split.
    + intros Hd. ww_inv. match goal with Hs : check_software sw = Ok ?u |- _ => destruct u end. done.
    + by intros [-> ->].
  - unfold check_software, MAX_SOFTWARE_LEN. destruct (_ || _) eqn:Hc.
    + split; [done|]. intros (Hne & Hl & Hf). exfalso.
      rewrite bool_decide_eq_false_2, (proj2 (Nat.ltb_ge _ _) Hl) in Hc by done. cbn [orb] in Hc.
      apply negb_true_iff, not_true_iff_false in Hc. apply Hc, forallb_forall. intros c Hin%list_elem_of_In.
      rewrite Forall_forall in Hf. specialize (Hf c Hin). unfold in_range. lia.
    + split; [intros _|done]. bool_simpl. split_and!; [done|done|].
      apply Forall_forall. intros c Hin%list_elem_of_In. rewrite forallb_forall in *.
      match goal with Hf : ∀ x, _ → in_range _ _ _ = true |- _ => specialize (Hf c Hin) end.
      unfold in_range in *. lia.
Qed.

End spec.
End TombstoneSpec.

(** ** A concrete Tombstone *)

Module TombstoneDemo.
Import Gov Tombstone TombstoneSpec Toy ToySerde.

Definition document_fields (d : Document) : list (option str) :=
  [Some (format d); Some [version d]; Some (kind d); network_id d;
   (λ z : Z, pos_bytes (countable.encode z)) <$> terminal_sequence d; terminal_hash d; death_statement d;
   Some (destruction d); Some (software d)].

Definition fields_document (l : list (option str)) : option Document :=
  match l with
  | [Some f; Some [v]; Some k; n; t; h; s; Some d; Some w] =>
      match t with
      | None => Some (mkDocument f v k n None h s d w)
      | Some b => z ← countable.decode (bytes_pos b); Some (mkDocument f v k n (Some z) h s d w)
      end
  | _ => None
  end.

#[export] Instance document_serde : Serde Document := fields_serde 9 document_fields fields_document.
#[export] Instance document_serde_laws : SerdeLaws Document.
Proof.
  apply fields_serde_laws; [done|]. intros [f v k n [z|] h s d w]; [|done]. cbn.
  by rewrite bytes_pos_bytes, decode_encode.
Qed.

Definition demo_grave : Tombstone := mkTombstone KRetirement None Complete (lit "werewolfd 0.30").

Lemma tombstone_exact_witness : ∃ bytes, Tombstone.encode demo_grave = Ok bytes ∧ parse bytes = Ok demo_grave.
Proof.
  eexists. split; [vm_compute; reflexivity|]. apply (tombstone_exact _ demo_grave).
  split; [split; [vm_compute; reflexivity|done]|vm_compute; reflexivity].
Defined.

Lemma tombstone_constructors_witness :
  retirement Complete (lit "werewolfd 0.30") = Ok demo_grave.
Proof.
  apply (proj1 (proj2 (tombstone_constructors (mkStatement (mkCore (key_of 1) 3 (key_of 2) Death) [])
    Complete (lit "werewolfd 0.30") demo_grave))). split; [done|vm_compute; reflexivity].
Defined.

End TombstoneDemo.
