(* ===== verification/Discovery.v ===== *)
(** * Discovery: contact records, the statement archive, visible services
    ([werewolfd/src/discovery.rs])

    [Module Discovery]: what a node answers to the read-only RPCs. [Contacts]
    is its own signed record and its cache of others; [governance_records]
    reads the archive of applied statements; [visible_services] filters the
    published services by the Target Policy. The token bucket is
    in Conn, the exchange of an RPC at both ends in Session. *)

From stdpp Require Import gmap.
From S2P Require Export LocalFs.
From S2P Require Export Rpc.
From S2P Require Export TargetPolicy.
From S2P Require Export StateValidation.

Local Open Scope Z_scope.

(** [bool] and [Reverse], as sort keys. *)
Definition bool_cmp (a b : bool) : comparison :=
  match a, b with false, true => Lt | true, false => Gt | _, _ => Eq end.
#[export] Program Instance bool_ord : OrdCmp bool := {| cmp := bool_cmp |}.
Next Obligation. intros [] []; naive_solver. Qed.
Next Obligation. by intros [] []. Qed.
Next Obligation. by intros [] [] []. Qed.

Record Reverse (A : Type) : Type := mkReverse { reversed : A }.
Arguments mkReverse {A} _.
Arguments reversed {A} _.
#[export] Program Instance reverse_ord `{OrdCmp A} : OrdCmp (Reverse A) :=
  {| cmp x y := cmp y.(reversed) x.(reversed) |}.
Next Obligation. intros A ? [x] [y]. cbn. rewrite cmp_eq. naive_solver. Qed.
Next Obligation. intros A ? [x] [y]. apply cmp_opp. Qed.
Next Obligation. intros A ? [x] [y] [z] H1 H2. cbn in *. by apply (cmp_trans _ y). Qed.

(** [u64::saturating_add]. *)
Definition u64_saturating_add (a b : Z) : Z := Z.min (a + b) (2 ^ 64 - 1).

Module Discovery.
Import Contact Pelt Handshake Rpc.
Import StateValidation (PeerRecord, pr_public_key_b64).

Definition RESIGN_MARGIN_SECS : Z := 24 * 60 * 60.
Definition CACHE_LIMIT : nat := 256.

Record Contacts : Type := mkContacts {
  advertised : list str;
  own : option ContactRecord;
  known : list ContactRecord
}.

Definition contacts_default : Contacts := mkContacts [] None [].

Section contacts.
Context `{Crypto} `{Base64} (sha256 : list byte → array 32).

Definition verified (now : Z) (r : ContactRecord) : bool := is_ok (Contact.verify sha256 r now).

Definition answer (self : Contacts) (request : RpcRequest) (requester : Key) (pack : list Key) (now : Z)
    : list ContactRecord :=
  match request with
  | Ping => filter (λ r, verified now r = true) (option_list self.(own))
  | FindNode target k =>
      let candidates := filter (λ r, r.(public_key) ≠ requester ∧ r.(public_key) ∈ pack) self.(known) in
      let sorted := sort_by_key (λ r, Overlay.Kademlia.xor_distance target (node_id sha256 r)) candidates in
      take (byte_nat k) (filter (λ r, verified now r = true) sorted)
  | Services | Governance _ _ => []
  end.

(** The record of [own] needs no new signature. *)
Definition is_current (self : Contacts) (now : Z) : bool :=
  match self.(own) with
  | Some r => bool_decide (r.(addresses) = self.(advertised)) && (now + RESIGN_MARGIN_SECS <? r.(expires_at))
              && verified now r
  | None => false
  end.
Definition refresh_own (self : Contacts) (identity : PeltIdentity) (now : Z) : Contacts :=
  if bool_decide (self.(advertised) = []) then mkContacts self.(advertised) None self.(known)
  else if is_current self now then self
  else
    let sq := match self.(own) with
              | Some r => Z.max now (u64_saturating_add r.(seq) 1)
              | None => now
              end in
    mkContacts self.(advertised)
      (match Contact.sign identity self.(advertised) sq (now + MAX_LIFETIME_SECS) now with
       | Ok r => Some r
       | Err _ => None
       end) self.(known).

(** The update of the first record kept with the same key, or a push. *)
Fixpoint merge (merged : list ContactRecord) (r : ContactRecord) : list ContactRecord :=
  match merged with
  | [] => [r]
  | kept :: rest =>
      if bool_decide (kept.(public_key) = r.(public_key))
      then (if supersedes r kept then r else kept) :: rest
      else kept :: merge rest r
  end.
Definition learn_step (own_key : Key) (now : Z) (merged : list ContactRecord) (r : ContactRecord)
    : list ContactRecord :=
  if bool_decide (r.(public_key) = own_key) || negb (verified now r) then merged else merge merged r.
Definition learn (self : Contacts) (records : list ContactRecord) (own_key : Key) (pack : list Key) (now : Z)
    : list ContactRecord :=
  let merged := foldl (learn_step own_key now) [] (self.(known) ++ records) in
  take CACHE_LIMIT
    (sort_by_key (λ r, (bool_decide (r.(public_key) ∉ pack), mkReverse r.(expires_at))) merged).

Definition pack_keys (peers : list PeerRecord) : list Key :=
  omap (λ k, match binary 32 k with Ok b => Some b | Err _ => None end) (omap pr_public_key_b64 peers).

End contacts.

(** [fit]: the line of [build] is measured by [size], which is the length of
    its JSON and the newline. *)
Section fit.
Context {A T : Type} (limit : nat) (build : list A → hs T) (size : T → nat).

Fixpoint fit_loop (n : nat) (records : list A) : hs T :=
  let shorter := match n with O => rejected | S n => fit_loop n (take n records) end in
  result ← build records;
  if (size result <=? limit)%nat then Ok result else shorter.
Definition fit (records : list A) : hs T := fit_loop (length records) records.
End fit.

(** ** The archive of applied statements *)

(** [{:08}]. *)
Definition pad8 (s : str) : str := replicate (8 - length s) x30 ++ s.
Definition governance_archive_name (sequence : Z) : str :=
  lit "governance_" ++ pad8 (show 10 sequence) ++ lit ".wwgov".

Section archive.
Context `{Crypto} `{Den D}.

(** One archive entry, if it is the statement of that sequence number. *)
Definition archived (head : Gov.Head) (den : D) (sequence : Z) : result (fault ()) (option Gov.Statement) :=
  match den_read den (governance_archive_name sequence) Gov.MAX_STATEMENT_LEN with
  | Ok (Some bytes) =>
      match Gov.statement_decode bytes with
      | Ok s =>
          expected ← index head.(Gov.applied) (Z.to_nat sequence);
          Ok (if bool_decide (Gov.core_hash s.(Gov.core) = expected) then Some s else None)
      | Err _ => Ok None
      end
  | _ => Ok None
  end.

(** The loop over the sequence numbers; it stops at [k] statements and at
    the first entry that is missing or not the one committed. *)
Fixpoint archive_loop (head : Gov.Head) (den : D) (k : nat) (sequences : list Z)
    : result (fault ()) (list Gov.Statement) :=
  match k, sequences with
  | S k, sequence :: rest =>
      found ← archived head den sequence;
      match found with
      | Some s => l ← archive_loop head den k rest; Ok (s :: l)
      | None => Ok []
      end
  | _, _ => Ok []
  end.

(** A panic of the blocking task gives the empty answer. *)
Definition governance_records (head : option Gov.Head) (den : option D) (head_hash : array 32) (k : byte)
    : list Gov.Statement :=
  match head, den with
  | Some head, Some den =>
      match list_find (λ h, h = head_hash) head.(Gov.applied) with
      | Some (position, _) =>
          let first := Z.of_nat position + 1 in
          match archive_loop head den (byte_nat k)
            ((λ i, first + Z.of_nat i) <$> List.seq 0 (Z.to_nat (head.(Gov.h_sequence) + 1 - first))) with
          | Ok l => l
          | Err _ => []
          end
      | None => []
      end
  | _, _ => []
  end.

End archive.

(** ** Services *)

(** DNS is a parameter; a published target is literal, so it is not asked. *)
Definition visible_services (resolver : str → Z → option (list SocketAddr)) (published : list Published.PublishedService)
    (policy : TargetPolicy.TargetPolicy) (requester : str) : list Published.PublishedService :=
  filter (λ e, is_Some (parse_socket_addr e.(Published.target)) ∧
               is_ok (TargetPolicy.authorize_with_resolver resolver policy requester e.(Published.target)) = true)
    published.

End Discovery.

Module DiscoverySpec.
Import Contact Pelt Handshake Rpc Discovery.
Import RpcSpec (chain_from, accepted_governance_own).
Import StateValidation (PeerRecord, pr_public_key_b64).

Section contacts.
Context `{Crypto} `{Base64} (sha256 : list byte → array 32).
Notation verified := (verified sha256).
Notation node_id := (node_id sha256).

(** ** Answers *)

Definition eligible (self : Contacts) (requester : Key) (pack : list Key) (now : Z) (r : ContactRecord) : Prop :=
  r ∈ self.(known) ∧ r.(public_key) ≠ requester ∧ r.(public_key) ∈ pack ∧ verified now r = true.

Lemma StronglySorted_filter {A} (R : A → A → Prop) (P : A → Prop) `{!∀ x, Decision (P x)} l :
  StronglySorted R l → StronglySorted R (filter P l).
Proof.
  induction 1 as [| x l S IH F]; [constructor |]. rewrite filter_cons.
  destruct (decide (P x)); [| done]. constructor; [done |]. rewrite Forall_forall in F |- *.
  intros y [_ I]%list_elem_of_filter. auto.
Qed.

(** The order of the answer. *)
Definition distance_le (target : array 32) (x y : ContactRecord) : Prop :=
  key_le (λ r, Overlay.Kademlia.xor_distance target (node_id r)) x y.

(** A FindNode answer holds only records of the node's own Pack members
    other than the requester, each verified again at the time of the answer,
    at most [k] of them, nearest to the target first; and no eligible record
    is left out unless [k] records at most as far are in the answer. Records
    of nodes outside the Pack are never relayed. *)
Theorem find_node_answer self target k requester pack now :
  let l := answer sha256 self (FindNode target k) requester pack now in
  (∀ r, r ∈ l → eligible self requester pack now r)
  ∧ (length l ≤ byte_nat k)%nat
  ∧ StronglySorted (distance_le target) l
  ∧ ∀ r, eligible self requester pack now r →
      r ∈ l ∨ (length l = byte_nat k ∧ ∀ x, x ∈ l → distance_le target x r).
Proof.
  cbn [answer]. set (cands := filter _ (known self)). set (s := sort_by_key _ cands).
  set (v := filter (λ r, verified now r = true) s).
  assert (StronglySorted (distance_le target) v) as S by apply StronglySorted_filter, sort_by_key_sorted.
  assert (∀ r, r ∈ v ↔ eligible self requester pack now r) as E.
  { intros r. subst v s cands. rewrite list_elem_of_filter, sort_by_key_perm, list_elem_of_filter.
    unfold eligible. tauto. }
  rewrite <- (take_drop (byte_nat k) v) in S.
  split; [| split; [rewrite length_take; lia | split; [by eapply StronglySorted_app_1_l |]]].
  - intros r I. apply E. by eapply elem_of_take in I as (i & I%list_elem_of_lookup_2 & _).
  - intros r I%E. rewrite <- (take_drop (byte_nat k) v), elem_of_app in I. destruct I as [I | I]; [by left | right].
    split.
    + rewrite length_take. apply list_elem_of_lookup in I as [i I]. apply lookup_lt_Some in I.
      rewrite length_drop in I. lia.
    + intros x J. by eapply StronglySorted_app_1_elem_of.
Qed.

(** ** The own record *)

Lemma sign_fields identity l sq ex now r : Contact.sign identity l sq ex now = Ok r →
  r.(addresses) = l ∧ r.(seq) = sq ∧ r.(expires_at) = ex ∧ ex > now.
Proof.
  unfold Contact.sign, check_fields. intros E. ww_inv. cbn. bool_simpl. repeat split; try done.
  all: cbn in *; lia.
Qed.

(** Refreshing the own record. With no advertised address there is none;
    otherwise a record it has carries the advertised addresses and is valid
    for more than a day (a new one, for a week). A record is only replaced by
    one with a higher sequence number, so peers that kept the old record
    accept the new one. *)
Theorem refresh_own_fresh self identity now :
  let self' := refresh_own sha256 self identity now in
  self'.(advertised) = self.(advertised) ∧ self'.(known) = self.(known)
  ∧ (self.(advertised) = [] → self'.(own) = None)
  ∧ (∀ r, self'.(own) = Some r →
      r.(addresses) = self.(advertised) ∧ now + RESIGN_MARGIN_SECS < r.(expires_at)
      ∧ (self'.(own) = self.(own) ∧ verified now r = true
         ∨ r.(expires_at) = now + MAX_LIFETIME_SECS
           ∧ ∀ old, self.(own) = Some old → old.(seq) < 2 ^ 64 - 1 → old.(seq) < r.(seq))).
Proof.
  unfold refresh_own. destruct (bool_decide_reflect (advertised self = [])) as [A | A]; [by cbn |].
  destruct (is_current sha256 self now) eqn:C.
  - do 3 (split; [done |]). intros r E. unfold is_current in C. rewrite E in C. bool_simpl.
    split; [done |]. split; [lia |]. by left.
  - cbn [advertised own known]. do 3 (split; [done |]). intros r E.
    destruct (Contact.sign _ _ _ _ _) as [r' |] eqn:S; [| done]. injection E as ->.
    apply sign_fields in S as (-> & -> & -> & _). split; [done |].
    split; [unfold RESIGN_MARGIN_SECS, MAX_LIFETIME_SECS; lia |]. right. split; [done |]. intros old -> L. unfold u64_saturating_add. lia.
Qed.

(** ** The cache *)

Lemma merge_keys l r : public_key <$> merge l r =
  if decide (r.(public_key) ∈ public_key <$> l) then public_key <$> l else (public_key <$> l) ++ [r.(public_key)].
Proof.
  induction l as [| x l IH]; [done |]. cbn [merge].
  destruct (bool_decide_reflect (public_key x = public_key r)) as [E | E].
  - rewrite decide_True by (cbn; rewrite E; by left). destruct (supersedes r x); cbn; by rewrite ?E.
  - cbn [fmap list_fmap]. rewrite IH.
    destruct (decide (public_key r ∈ public_key <$> l)) as [I | I], (decide (public_key r ∈ public_key x :: (public_key <$> l))) as [J | J];
      set_solver.
Qed.

Lemma merge_elem l r y : y ∈ merge l r → y = r ∨ y ∈ l.
Proof.
  induction l as [| x l IH]; cbn [merge]; [set_solver |].
  destruct (bool_decide (public_key x = public_key r)); [destruct (supersedes r x) |]; set_solver.
Qed.

Lemma merge_covers l r x : x = r ∨ x ∈ l →
  ∃ y, y ∈ merge l r ∧ y.(public_key) = x.(public_key) ∧ x.(seq) ≤ y.(seq).
Proof.
  induction l as [| z l IH]; intros I; cbn [merge].
  { destruct I as [-> | I]; [| by apply not_elem_of_nil in I]. exists r. split; [by left | split; [done | lia]]. }
  destruct (bool_decide_reflect (public_key z = public_key r)) as [E | E].
  - assert (∃ y, y ∈ (if supersedes r z then r else z) :: l ∧ public_key y = public_key r ∧ seq z ≤ seq y ∧ seq r ≤ seq y)
      as (y & Y1 & Y2 & Y3 & Y4).
    { destruct (supersedes r z) eqn:S; unfold supersedes in S.
      - apply andb_true_iff in S as [_ S]. apply Z.ltb_lt in S. exists r. split; [by left |]. split; [done | lia].
      - rewrite bool_decide_eq_true_2 in S by done. cbn in S. apply Z.ltb_ge in S.
        exists z. split; [by left |]. split; [done | lia]. }
    destruct I as [-> | [-> | I]%elem_of_cons]; [exists y; auto.. |]; [rewrite E; auto |].
    exists x. split; [by right | split; [done | lia]].
  - destruct I as [-> | [-> | I]%elem_of_cons].
    + destruct IH as (y & Y1 & Y2); [by left |]. exists y. split; [by right | done].
    + exists z. split; [by left | split; [done | lia]].
    + destruct IH as (y & Y1 & Y2); [by right |]. exists y. split; [by right | done].
Qed.

(** A record the cache may keep. *)
Definition keepable (own_key : Key) (now : Z) (r : ContactRecord) : Prop :=
  r.(public_key) ≠ own_key ∧ verified now r = true.

(** The cache [m] represents the keepable records of [l], newest first. *)
Record represents (own_key : Key) (now : Z) (l m : list ContactRecord) : Prop := mkRepresents {
  rp_keys : NoDup (public_key <$> m);
  rp_sound : ∀ r, r ∈ m → r ∈ l ∧ keepable own_key now r;
  rp_newest : ∀ r, r ∈ l → keepable own_key now r →
    ∃ y, y ∈ m ∧ y.(public_key) = r.(public_key) ∧ r.(seq) ≤ y.(seq)
}.

Lemma learn_step_represents own_key now l m r :
  represents own_key now l m → represents own_key now (l ++ [r]) (learn_step sha256 own_key now m r).
Proof.
  intros [K S N]. unfold learn_step.
  destruct (bool_decide_reflect (public_key r = own_key)) as [E | E]; cbn [orb].
  { split; [done | |].
    - intros y I. destruct (S y I). split; [set_solver | done].
    - intros y [I | ->%list_elem_of_singleton]%elem_of_app V; [by apply N | by destruct V]. }
  destruct (Discovery.verified sha256 now r) eqn:V; cbn [negb].
  - split.
    + rewrite merge_keys. destruct (decide _) as [I | I]; [done |]. apply NoDup_app.
      split; [done |]. split; [set_solver | apply NoDup_singleton].
    + intros y [-> | I]%merge_elem; [split; [set_solver | done] |]. destruct (S y I). split; [set_solver | done].
    + intros y I VY. apply elem_of_app in I as [I | ->%list_elem_of_singleton].
      * destruct (N y I VY) as (z & Z1 & Z2 & Z3). destruct (merge_covers m r z) as (w & W1 & W2 & W3); [by right |].
        exists w. split; [done |]. split; [congruence | lia].
      * apply merge_covers. by left.
  - split; [done | |].
    + intros y I. destruct (S y I). split; [set_solver | done].
    + intros y [I | ->%list_elem_of_singleton]%elem_of_app VY; [by apply N |]. destruct VY as [_ VY]. congruence.
Qed.

Lemma learn_fold_represents own_key now l :
  represents own_key now l (foldl (learn_step sha256 own_key now) [] l).
Proof.
  induction l as [| r l IH] using rev_ind; [split; [constructor | set_solver..] |].
  rewrite foldl_app. by apply learn_step_represents.
Qed.

(** Which of two records is evicted last. *)
Definition kept_before (pack : list Key) (x y : ContactRecord) : Prop :=
  (x.(public_key) ∈ pack ∧ y.(public_key) ∉ pack)
  ∨ ((x.(public_key) ∈ pack ↔ y.(public_key) ∈ pack) ∧ y.(expires_at) ≤ x.(expires_at)).

Lemma cache_key_order pack x y :
  key_le (λ r, (bool_decide (r.(public_key) ∉ pack), mkReverse r.(expires_at))) x y → kept_before pack x y.
Proof.
  unfold key_le, kept_before. cbn [cmp prod_ord prod_cmp fst snd bool_ord reverse_ord Z_ord reversed].
  destruct (decide (public_key x ∈ pack)) as [X | X], (decide (public_key y ∈ pack)) as [Y | Y];
    rewrite ?(bool_decide_eq_true_2 (_ ∉ pack)), ?(bool_decide_eq_false_2 (_ ∉ pack)) by tauto; cbn; intros C;
    try (left; done); try done; right; split; try tauto; destruct (Z.compare_spec (expires_at y) (expires_at x)); try lia; done.
Qed.

(** Merging records into the cache. The cache holds at most 256 records,
    one per key, none of its own key, each given or known before and verified
    now; for every keepable record given or known, either the cache has one
    of that key at least as new, or the cache is full and every record in it
    is one that eviction prefers: Pack members before others, later expiry
    first. *)
Theorem learn_exact self records own_key pack now :
  let l := learn sha256 self records own_key pack now in
  let input := self.(known) ++ records in
  (length l ≤ CACHE_LIMIT)%nat ∧ NoDup (public_key <$> l)
  ∧ (∀ r, r ∈ l → r ∈ input ∧ keepable own_key now r)
  ∧ StronglySorted (kept_before pack) l
  ∧ ∀ r, r ∈ input → keepable own_key now r →
      ∃ y, y.(public_key) = r.(public_key) ∧ r.(seq) ≤ y.(seq)
        ∧ (y ∈ l ∨ length l = CACHE_LIMIT ∧ ∀ x, x ∈ l → kept_before pack x y).
Proof.
  cbv zeta. unfold learn. set (m := foldl _ [] _).
  destruct (learn_fold_represents own_key now (known self ++ records)) as [K S N]. fold m in K, S, N.
  set (key := λ r : ContactRecord, (bool_decide (r.(public_key) ∉ pack), mkReverse r.(expires_at))).
  set (s := sort_by_key key m). assert (s ≡ₚ m) as P by apply sort_by_key_perm.
  assert (StronglySorted (kept_before pack) s) as SS.
  { pose proof (sort_by_key_sorted key m) as Q. fold s in Q. clearbody s. clear -Q.
    induction Q as [| x l Q IH F]; constructor; [done |]. eapply Forall_impl; [exact F |].
    intros y. apply cache_key_order. }
  rewrite <- (take_drop CACHE_LIMIT s) in SS, P.
  split; [rewrite length_take; lia |]. split; [| split; [| split; [by eapply StronglySorted_app_1_l |]]].
  - rewrite <- P, fmap_app in K. by apply NoDup_app in K as (? & _).
  - intros r I. apply S. rewrite <- P. apply elem_of_app. by left.
  - intros r I V. destruct (N r I V) as (y & Y1 & Y2 & Y3). exists y. split; [done |]. split; [done |].
    rewrite <- P, elem_of_app in Y1. destruct Y1 as [Y1 | Y1]; [by left | right]. split.
    + rewrite length_take. apply list_elem_of_lookup in Y1 as [i J]. apply lookup_lt_Some in J.
      rewrite length_drop in J. lia.
    + intros x J. by eapply StronglySorted_app_1_elem_of.
Qed.

End contacts.
(** ** [fit] *)

Section fit.
Context {A T : Type} (limit : nat) (build : list A → hs T) (size : T → nat).

Lemma fit_loop_spec n : ∀ records t, length records = n → fit_loop limit build size n records = Ok t →
  ∃ m, (m ≤ n)%nat ∧ build (take m records) = Ok t ∧ (size t ≤ limit)%nat
    ∧ ∀ j, (m < j ≤ n)%nat → ∃ u, build (take j records) = Ok u ∧ (limit < size u)%nat.
Proof.
  induction n as [| n IH]; intros records t L; cbn [fit_loop]; intros E;
    apply bind_Ok in E as (u & B & E); destruct (Nat.leb_spec (size u) limit) as [F | F].
  - injection E as ->. exists 0%nat. destruct records; [| done]. cbn. split; [lia |]. split; [done |]. split; [done | lia].
  - done.
  - injection E as ->. exists (S n). rewrite take_ge by lia. split; [lia |]. split; [done |]. split; [done | lia].
  - apply IH in E as (m & M1 & M2 & M3 & M4); [| rewrite length_take; lia].
    rewrite take_take, Nat.min_l in M2 by lia. exists m. split; [lia |]. split; [done |]. split; [done |].
    intros j J. destruct (decide (j = S n)) as [-> | N]; [exists u; by rewrite take_ge by lia |].
    destruct (M4 j) as (v & V1 & V2); [lia |]. rewrite take_take, Nat.min_l in V1 by lia. eauto.
Qed.

Lemma fit_loop_total n : ∀ records, length records = n →
  (∀ j, (j ≤ n)%nat → ∃ u, build (take j records) = Ok u) →
  (∀ u, build [] = Ok u → (size u ≤ limit)%nat) → ∃ t, fit_loop limit build size n records = Ok t.
Proof.
  induction n as [| n IH]; intros records L B Z; cbn [fit_loop].
  - destruct records; [| done]. destruct (B 0%nat) as [u U]; [lia |]. cbn in U. rewrite U. cbn.
    destruct (Nat.leb_spec (size u) limit) as [F | F]; [eauto |]. specialize (Z u U). lia.
  - destruct (B (S n)) as [u U]; [lia |]. rewrite take_ge in U by lia. rewrite U. cbn.
    destruct (size u <=? limit)%nat; [eauto |]. apply IH; [rewrite length_take; lia | | done].
    intros j J. rewrite take_take, Nat.min_l by lia. apply B. lia.
Qed.

(** C29: [fit] terminates with the longest prefix of the records whose line
    fits: what it returns was built from a prefix, fits the limit, and every
    longer prefix is over it; and if every prefix can be built and the empty
    one fits, it returns a result. *)
Theorem fit_longest_prefix (records : list A) :
  (∀ t, fit limit build size records = Ok t →
    ∃ m, (m ≤ length records)%nat ∧ build (take m records) = Ok t ∧ (size t ≤ limit)%nat
      ∧ ∀ j, (m < j ≤ length records)%nat → ∃ u, build (take j records) = Ok u ∧ (limit < size u)%nat)
  ∧ ((∀ j, (j ≤ length records)%nat → ∃ u, build (take j records) = Ok u) →
     (∀ u, build [] = Ok u → (size u ≤ limit)%nat) → ∃ t, fit limit build size records = Ok t).
Proof. split; [intros t; by apply fit_loop_spec | intros; by apply fit_loop_total]. Qed.

End fit.

(** ** The archive *)

Lemma digits_of_digit fuel z acc : 0 ≤ z → Forall (λ b, b ≠ x2f) acc → Forall (λ b, b ≠ x2f) (digits_of fuel 10 z acc).
Proof.
  revert z acc. induction fuel as [| fuel IH]; intros z acc Hz Ha; cbn [digits_of]; [done |].
  assert (hex_digit false (z `mod` 10) ≠ x2f) as D.
  { pose proof (Z.mod_pos_bound z 10 ltac:(lia)) as B. unfold hex_digit.
    destruct (Z.ltb_spec (z `mod` 10) 10); [| lia].
    intros E%(f_equal byte_val). rewrite byte_val_of, Z.mod_small in E by lia. change (byte_val x2f) with 47 in E. lia. }
  destruct (z <? 10); [by constructor |]. apply IH; [by apply Z.div_pos | by constructor].
Qed.

Lemma archive_name_plain n : 0 ≤ n → plain (governance_archive_name n).
Proof.
  intros Hn. unfold plain.
  assert (x2f ∉ governance_archive_name n) as Hno.
  { unfold governance_archive_name, pad8. rewrite !not_elem_of_app. split_and!.
    - vm_compute. set_solver.
    - rewrite elem_of_replicate. intros [? _]. done.
    - intros I. pose proof (digits_of_digit 20 n [] Hn (Forall_nil_2 _)) as F. rewrite Forall_forall in F.
      by apply (F _ I).
    - vm_compute. set_solver. }
  split; [| by intros suffix].
  unfold LocalFs.name_ok, LocalFs.components. rewrite split_on_none by done.
  rewrite filter_cons_True by (split; discriminate). rewrite filter_nil. cbn -[bool_decide governance_archive_name].
  change (governance_archive_name n) with (x67 :: (tail (governance_archive_name n))).
  unfold LocalFs.component. cbn [app]. by rewrite !bool_decide_eq_false_2 by discriminate.
Qed.

Section archive.
Context `{Crypto} `{DL : DenLaws D}.

Notation hash_of := (λ s, Gov.core_hash (Gov.core s)).

Lemma archived_Some head den n s : archived head den n = Ok (Some s) →
  den_file den (governance_archive_name n) = Some (Gov.statement_encode s)
  ∧ GovCodec.statement_ok s ∧ head.(Gov.applied) !! Z.to_nat n = Some (hash_of s).
Proof.
  unfold archived. destruct (den_read den _ _) as [[bytes |] |] eqn:R; [| done..].
  destruct (Gov.statement_decode bytes) as [s' |] eqn:E; [| done].
  intros (x & X & F)%bind_Ok. destruct (bool_decide_reflect (Gov.core_hash (Gov.core s') = x)) as [Y | Y]; [| done].
  injection F as ->. apply den_read_file in R. apply GovCodec.decode_inv in E as [<- O]. split; [done |].
  split; [done |]. unfold index in X. apply ok_or_Ok in X. by rewrite X, Y.
Qed.

Lemma archive_loop_sound head den k : ∀ sequences l, archive_loop head den k sequences = Ok l →
  (length l ≤ k)%nat ∧ ∀ i s, l !! i = Some s → ∃ n, sequences !! i = Some n ∧ archived head den n = Ok (Some s).
Proof.
  induction k as [| k IH]; intros [| n ns] l; cbn [archive_loop]; try (intros [= <-]; cbn; split; [lia | set_solver]).
  destruct (archived head den n) as [[s |] |] eqn:E; cbn [mbind result_bind]; [| intros [= <-]; cbn; split; [lia | set_solver] | done].
  intros (l' & L & F)%bind_Ok. injection F as <-. destruct (IH _ _ L) as [B P]. split; [cbn; lia |].
  intros [| i] t; cbn; [intros [= <-]; eauto | apply P].
Qed.

Lemma sequences_lookup first m i n :
  ((λ i, first + Z.of_nat i) <$> List.seq 0 m) !! i = Some n → n = first + Z.of_nat i ∧ (i < m)%nat.
Proof.
  rewrite list_lookup_fmap. intros (j & J & ->)%fmap_Some. apply lookup_lt_Some in J as L. rewrite length_seq in L.
  assert (List.seq 0 m !! i = Some (0 + i)%nat) as J' by (by apply lookup_seq_lt).
  rewrite J in J'. injection J' as ->. split; [lia | done].
Qed.

(** A governance answer is committed history only. Whatever the archive
    holds, the answer has at most [k] statements; if it has any, the
    requester's hash is one the head has applied, and the hashes of the
    statements are the ones the head applied right after it, in order, each
    the archived bytes of its sequence number: an uncommitted artefact is
    never served. *)
Theorem governance_answer_committed head den head_hash k :
  let l := governance_records (Some head) (Some den) head_hash k in
  (length l ≤ byte_nat k)%nat
  ∧ (l ≠ [] → ∃ pos, head.(Gov.applied) !! pos = Some head_hash
      ∧ (hash_of <$> l) = take (length l) (drop (S pos) head.(Gov.applied))
      ∧ ∀ i s, l !! i = Some s →
          den_file den (governance_archive_name (Z.of_nat (S pos + i))) = Some (Gov.statement_encode s)).
Proof.
  cbn [governance_records]. destruct (list_find _ _) as [[pos h] |] eqn:P; [| split; [cbn; lia | done]].
  destruct (archive_loop _ _ _ _) as [l |] eqn:E; [| split; [cbn; lia | done]].
  apply archive_loop_sound in E as [B LS]. split; [done |]. intros _.
  apply list_find_Some in P as (P & -> & _). exists pos. split; [done |].
  assert (∀ i s, l !! i = Some s →
    den_file den (governance_archive_name (Z.of_nat (S pos + i))) = Some (Gov.statement_encode s)
    ∧ Gov.applied head !! (S pos + i)%nat = Some (hash_of s)) as K.
  { intros i s I. destruct (LS i s I) as (n & N & A). apply sequences_lookup in N as [-> _].
    apply archived_Some in A as (A1 & _ & A2).
    replace (Z.of_nat pos + 1 + Z.of_nat i) with (Z.of_nat (S pos + i)) in * by lia.
    rewrite Nat2Z.id in A2. done. }
  split; [| intros i s I; by apply K].
  apply list_eq. intros i. rewrite list_lookup_fmap. destruct (l !! i) as [s |] eqn:I; cbn.
  - apply lookup_lt_Some in I as L. rewrite lookup_take_lt, lookup_drop by done. symmetry. by apply K.
  - apply lookup_ge_None in I. symmetry. apply lookup_take_ge. done.
Qed.

(** A statement archived for sequence number [n] and committed by [head]. *)
Definition committed (head : Gov.Head) (den : D) (n : Z) (s : Gov.Statement) : Prop :=
  GovCodec.statement_ok s ∧ den_file den (governance_archive_name n) = Some (Gov.statement_encode s)
  ∧ head.(Gov.applied) !! Z.to_nat n = Some (hash_of s).

Lemma archived_committed head den n s :
  den_quiet den → 0 ≤ n → committed head den n s → archived head den n = Ok (Some s).
Proof.
  intros Q N (O & F & A). unfold archived. rewrite den_read_quiet, F; [| done | by apply archive_name_plain |].
  - rewrite GovCodec.decode_encode by done. unfold index. rewrite A. cbn. by rewrite bool_decide_eq_true_2.
  - intros b. rewrite F. intros [= <-]. apply O.
Qed.

Lemma archive_loop_complete head den k : den_quiet den → ∀ ns ss,
  Forall2 (λ n s, 0 ≤ n ∧ committed head den n s) ns ss → archive_loop head den k ns = Ok (take k ss).
Proof.
  intros Q. induction k as [| k IH]; intros ns ss F; [by destruct ns |].
  destruct F as [| n s ns ss [N C] F]; [done |]. cbn [archive_loop take].
  rewrite (archived_committed _ _ _ s) by done. cbn [mbind result_bind]. by rewrite (IH ns ss F).
Qed.

(** Catching up works. If a node's archive still has the statements its
    head applied after the requester's hash and they chain, as committed
    ones do, then the node's answer is exactly the first [k] of them, and
    the requester's check of the answer accepts it. *)
Theorem governance_catch_up head den head_hash k pos ss :
  den_quiet den →
  head.(Gov.applied) !! pos = Some head_hash →
  (∀ j, (j < pos)%nat → head.(Gov.applied) !! j ≠ Some head_hash) →
  Z.of_nat (pos + length ss) = head.(Gov.h_sequence) →
  (∀ i s, ss !! i = Some s → committed head den (Z.of_nat (S pos + i)) s) →
  chain_from head_hash ss →
  let l := governance_records (Some head) (Some den) head_hash k in
  l = take (byte_nat k) ss
  ∧ accepted_governance (Gov.statement_encode <$> l) (Governance head_hash k) = Ok l.
Proof.
  intros Q P First N C Ch. cbn [governance_records].
  rewrite (proj2 (list_find_Some (λ h, h = head_hash) (Gov.applied head) pos head_hash)).
  2: { split; [done |]. split; [done |]. intros j y Y L ->. by apply (First j). }
  rewrite (archive_loop_complete head den (byte_nat k) Q _ ss).
  - split; [done |]. apply accepted_governance_own.
    + apply Forall_take, Forall_lookup. intros i s I. apply (C i s I).
    + clear -Ch. revert head_hash ss Ch. induction (byte_nat k) as [| n IH]; intros h [| s ss] Ch; cbn in *; [done.. |].
      destruct Ch as (A & B & D). split; [done |]. split; [by apply IH |]. destruct n, ss; cbn; done.
  - apply Forall2_lookup. intros i. rewrite list_lookup_fmap.
    destruct (ss !! i) as [s |] eqn:I.
    + apply lookup_lt_Some in I as L. rewrite lookup_seq_lt by lia. cbn. constructor.
      specialize (C i s I). replace (Z.of_nat pos + 1 + Z.of_nat i) with (Z.of_nat (S pos + i)) by lia.
      split; [lia | done].
    + apply lookup_ge_None in I. rewrite lookup_seq_ge by lia. constructor.
Qed.

End archive.

(** ** Services *)

(** A node shows a requester exactly the published services whose target
    is literal and which that requester may open now by the Target Policy,
    and asks no name server for it. *)
Theorem visible_services_exact resolver published policy requester e :
  e ∈ visible_services resolver published policy requester ↔
  e ∈ published ∧ ∃ a, parse_socket_addr e.(Published.target) = Some a
    ∧ ∀ resolver', is_ok (TargetPolicy.authorize_with_resolver resolver' policy requester e.(Published.target)) = true.
Proof.
  unfold visible_services. rewrite list_elem_of_filter.
  assert (∀ r r' a, parse_socket_addr e.(Published.target) = Some a →
    TargetPolicy.authorize_with_resolver r policy requester e.(Published.target)
    = TargetPolicy.authorize_with_resolver r' policy requester e.(Published.target)) as I.
  { intros r r' a E. unfold TargetPolicy.authorize_with_resolver, TargetPolicy.target_endpoints. by rewrite E. }
  split.
  - intros ([[a A] O] & M). split; [done |]. exists a. split; [done |]. intros r'. by rewrite (I r' resolver a A).
  - intros (M & a & A & O). split; [| done]. split; [by exists a | done].
Qed.

End DiscoverySpec.

Module DiscoveryDemo.
Import Contact Rpc RpcSpec Discovery DiscoverySpec Toy ToyDen RpcDemo.

(** A head that applied the two statements of [RpcDemo] after four others. *)
Definition demo_head : Gov.Head :=
  Gov.mkHead (key_of 1) 6 (Gov.core_hash (Gov.core demo_second)) x07 [] []
    ((key_of <$> [10; 11; 12; 13; 2]) ++ [Gov.core_hash (Gov.core demo_first); Gov.core_hash (Gov.core demo_second)])
    false [] (Some 5) (Some 6).
Definition demo_archive (nm : str) : option (list byte) :=
  if decide (nm = governance_archive_name 5) then Some (Gov.statement_encode demo_first)
  else if decide (nm = governance_archive_name 6) then Some (Gov.statement_encode demo_second)
  else None.

Lemma governance_catch_up_witness :
  governance_records (Some demo_head) (Some demo_archive) (key_of 2) x01 = [demo_first].
Proof.
  apply (governance_catch_up demo_head demo_archive (key_of 2) x01 4 demo_statements).
  - exact I.
  - reflexivity.
  - intros j Hj. do 4 (destruct j as [|j]; [apply (bool_decide_unpack (_ ≠ _)); vm_compute; exact I|]). lia.
  - reflexivity.
  - pose proof demo_statements_ok as Hok. rewrite Forall_lookup in Hok.
    intros [|[|i]] s Hs; [split; [by apply (Hok 0%nat)|]|split; [by apply (Hok 1%nat)|]|done];
      injection Hs as <-; split; reflexivity.
  - apply demo_chain.
Defined.

Lemma fit_longest_prefix_witness :
  ∃ t, fit 10 (λ l : list nat, Ok l) (@length nat) (List.seq 0 20) = Ok t.
Proof.
  apply (fit_longest_prefix 10 (λ l : list nat, Ok l) (@length nat) (List.seq 0 20)); [eauto|].
  intros u [= <-]. cbn. lia.
Defined.

End DiscoveryDemo.
