(* ===== verification/ProtectedState.v ===== *)
(** * The protected state of the Den ([werewolfd/src/protected_state.rs])

    Two slots hold complete generations of the policy state; a pointer file
    selects the active one and is replaced only after every document and the
    manifest of the other slot are durable. [Module ProtectedState] has the
    canonical documents, the commitments, [load], [migrate] and [commit]
    over a Den (any instance of the class [Den] of LocalFs). [serde_json]
    and BLAKE3 are parameters. *)

From stdpp Require Import gmap.
From S2P Require Export LocalFs.
From S2P Require Export Handshake.
From S2P Require Export StateValidation.
From S2P Require Export TargetPolicy.
From S2P Require Export NodeGovernance.

Local Open Scope Z_scope.

Module ProtectedState.
Import LocalFs Gov.
Import StateValidation (PeerRecord, FangProfile, pr_name, fp_name).

Definition SCHEMA : byte := x01.
Definition SCHEMA_GOVERNANCE : byte := x02.
Definition MODE_FILE : str := lit "security_state_manifest_mode.json".
Definition CURRENT_FILE : str := lit "security_state_current.json".
Definition MANIFEST_LIMIT : nat := Z.to_nat 4096.
Definition DOCUMENT_LIMIT : nat := Z.to_nat (1024 * 1024).

Inductive Slot : Type := SlotA | SlotB.
#[export] Instance slot_eq_dec : EqDecision Slot.
Proof. solve_decision. Defined.

Definition inactive (s : Slot) : Slot := match s with SlotA => SlotB | SlotB => SlotA end.
Definition slot_name (s : Slot) : str := match s with SlotA => lit "a" | SlotB => lit "b" end.

Record Mode : Type := mkMode { mo_schema : byte; mo_mode : str }.
Record Current : Type := mkCurrent { cu_schema : byte; cu_generation : Z; cu_slot : Slot }.
Record DocumentCommitments : Type := mkCommitments {
  dc_pack : str;
  dc_silver : str;
  dc_target_policy : str;
  dc_fangs : str;
  dc_active_fangs : str;
  dc_governance : option str
}.
Record Manifest : Type := mkManifest {
  ma_schema : byte;
  ma_generation : Z;
  ma_documents : DocumentCommitments;
  ma_state_commitment : str
}.
Record SilverDocument : Type := mkSilver { si_version : byte; si_mode : str }.

Record State : Type := mkState {
  silver_locked : bool;
  peers : list PeerRecord;
  target_policy : TargetPolicy.TargetPolicy;
  fang_profiles : list FangProfile;
  active_profiles : list str;
  governance : option Head
}.

Record Generation : Type := mkGeneration { number : Z; slot : Slot }.
#[export] Instance generation_eq_dec : EqDecision Generation.
Proof. solve_decision. Defined.

Inductive Load : Type :=
| Legacy
| Loaded (generation : Generation) (state : State).

Inductive Transaction : Type :=
| TDurablyCommitted (generation : Generation)
| TNotCommitted (e : IoError)
| TIndeterminate (e : IoError).

Record Documents : Type := mkDocuments {
  d_pack : list byte;
  d_silver : list byte;
  d_target_policy : list byte;
  d_fangs : list byte;
  d_active_fangs : list byte;
  d_governance : option (list byte)
}.

(** The JSON documents. *)
Class ProtectedJson : Type := {
  pj_peers :: Serde (list PeerRecord);
  pj_profiles :: Serde (list FangProfile);
  pj_names :: Serde (list str);
  pj_silver :: Serde SilverDocument;
  pj_mode :: Serde Mode;
  pj_current :: Serde Current;
  pj_manifest :: Serde Manifest;
  pj_governance :: Serde NodeGovernance.Document;
  pj_policy :: TargetPolicy.PolicyJson
}.

Notation io A := (result IoError A).
Definition invalid {A} : io A := Err InvalidData.

Definition name (s : Slot) (document : str) : str :=
  lit "security_state_" ++ slot_name s ++ lit "_" ++ document ++ lit ".json".

(** [sort_by] on the names; [sort] on strings. *)
Definition sorted_by {A} (f : A → str) (l : list A) : list A := sort_by_key f l.

Section state.
Context `{Crypto} `{Base64} `{ProtectedJson}.

(** A value whose JSON is exactly the bytes. *)
Definition exact {A} `{Serde A} (bytes : list byte) : io A :=
  value ← ok_or (from_slice bytes) InvalidData;
  _ ← require (bool_decide (to_vec value = bytes)) InvalidData;
  Ok value.

Definition invalid_as {E A} (r : result E A) : io A := map_err (λ _, InvalidData) r.

Definition canonical_pack (ps : list PeerRecord) : io (list byte) :=
  _ ← invalid_as (StateValidation.pack ps);
  Ok (to_vec (sorted_by pr_name ps)).
Definition parse_pack (bytes : list byte) : io (list PeerRecord) :=
  ps ← ok_or (from_slice bytes) InvalidData;
  again ← canonical_pack ps;
  _ ← require (bool_decide (again = bytes)) InvalidData;
  Ok ps.

Definition canonical_silver (locked : bool) : list byte :=
  to_vec (mkSilver x01 (if locked then lit "locked" else lit "open")).
Definition silver_mode (mode : str) : io bool :=
  if bool_decide (mode = lit "locked") then Ok true
  else if bool_decide (mode = lit "open") then Ok false
  else invalid.
Definition parse_silver (bytes : list byte) : io bool :=
  value ← exact bytes;
  _ ← require (bool_decide (value.(si_version) = x01)) InvalidData;
  silver_mode value.(si_mode).

Definition canonical_profiles (ps : list FangProfile) : io (list byte) :=
  _ ← invalid_as (StateValidation.profile_document ps);
  Ok (to_vec (sorted_by fp_name ps)).
Definition parse_profiles (bytes : list byte) : io (list FangProfile) :=
  ps ← ok_or (from_slice bytes) InvalidData;
  again ← canonical_profiles ps;
  _ ← require (bool_decide (again = bytes)) InvalidData;
  Ok ps.

Definition canonical_active (act : list str) (ps : list FangProfile) : io (list byte) :=
  _ ← invalid_as (StateValidation.active act ps);
  Ok (to_vec (sorted_by id act)).
Definition parse_active (bytes : list byte) (ps : list FangProfile) : io (list str) :=
  act ← ok_or (from_slice bytes) InvalidData;
  again ← canonical_active act ps;
  _ ← require (bool_decide (again = bytes)) InvalidData;
  Ok act.

(** [Option::map(f).transpose()]. *)
Definition transpose {E A B} (f : A → result E B) (o : option A) : result E (option B) :=
  match o with None => Ok None | Some a => b ← f a; Ok (Some b) end.

Definition documents (s : State) : io Documents :=
  pack ← canonical_pack s.(peers);
  tp ← invalid_as (TargetPolicy.canonical_from_runtime s.(target_policy));
  fangs ← canonical_profiles s.(fang_profiles);
  act ← canonical_active s.(active_profiles) s.(fang_profiles);
  gov ← transpose (λ h, invalid_as (NodeGovernance.canonical h)) s.(governance);
  Ok (mkDocuments pack (canonical_silver s.(silver_locked)) tp fangs act gov).

(** ** Commitments *)

Definition document_commitment (document : str) (contents : list byte) : array 32 :=
  blake3 (lit "werewolfproxy/state-manifest/v1/" ++ document ++ [x00] ++ lit "schema" ++ [x00]
          ++ [SCHEMA] ++ [x00] ++ contents).

Definition encode_digest (digest : array 32) : str := hex (array_bytes digest).

Definition decode_nibble (b : byte) : option Z :=
  if is_ascii_digit b then Some (byte_val b - 48)
  else if in_range 97 102 (byte_val b) then Some (byte_val b - 97 + 10)
  else None.

(** The loop over the pairs; [high << 4 | low]. *)
Fixpoint decode_pairs (value : str) : option (list byte) :=
  match value with
  | a :: b :: rest =>
      high ← decode_nibble a;
      low ← decode_nibble b;
      bs ← decode_pairs rest;
      Some (byte_of (Z.lor (Z.shiftl high 4) low) :: bs)
  | _ => Some []
  end.
Definition decode_digest (value : str) : io (array 32) :=
  _ ← require (length value =? 64)%nat InvalidData;
  ok_or (decode_pairs value ≫= to_array 32) InvalidData.

(** One [hasher.update] round of the loop of [state_commitment]. *)
Definition commit_entry (entry : str * str) : io (list byte) :=
  digest ← decode_digest entry.2;
  Ok (entry.1 ++ [x00] ++ array_bytes digest).

Definition state_commitment (schema : byte) (generation : Z) (c : DocumentCommitments) : io (array 32) :=
  parts ← try_map commit_entry
    ([(lit "pack", c.(dc_pack)); (lit "silver", c.(dc_silver)); (lit "target-policy", c.(dc_target_policy));
      (lit "fangs", c.(dc_fangs)); (lit "active-fangs", c.(dc_active_fangs))]
     ++ match c.(dc_governance) with Some d => [(lit "governance", d)] | None => [] end);
  Ok (blake3 (lit "werewolfproxy/state-manifest/v1/state" ++ [x00] ++ lit "schema" ++ [x00] ++ [schema]
              ++ [x00] ++ lit "generation" ++ [x00] ++ be_bytes 8 generation ++ mjoin parts)).

Definition manifest (generation : Z) (c : Documents) : io Manifest :=
  let commitment doc bytes := encode_digest (document_commitment doc bytes) in
  let docs := mkCommitments
    (commitment (lit "pack") c.(d_pack)) (commitment (lit "silver") c.(d_silver))
    (commitment (lit "target-policy") c.(d_target_policy)) (commitment (lit "fangs") c.(d_fangs))
    (commitment (lit "active-fangs") c.(d_active_fangs))
    (commitment (lit "governance") <$> c.(d_governance)) in
  let schema := if bool_decide (is_Some docs.(dc_governance)) then SCHEMA_GOVERNANCE else SCHEMA in
  sc ← state_commitment schema generation docs;
  Ok (mkManifest schema generation docs (encode_digest sc)).

Definition validate_manifest (value : Manifest) (g : Generation) (c : Documents) : io () :=
  _ ← require (value.(ma_generation) =? g.(number)) InvalidData;
  expected ← manifest g.(number) c;
  _ ← require (bool_decide (value.(ma_schema) = expected.(ma_schema))) InvalidData;
  let a := value.(ma_documents) in let b := expected.(ma_documents) in
  require (negb (bool_decide (a.(dc_pack) ≠ b.(dc_pack)) || bool_decide (a.(dc_silver) ≠ b.(dc_silver))
    || bool_decide (a.(dc_target_policy) ≠ b.(dc_target_policy)) || bool_decide (a.(dc_fangs) ≠ b.(dc_fangs))
    || bool_decide (a.(dc_active_fangs) ≠ b.(dc_active_fangs))
    || bool_decide (a.(dc_governance) ≠ b.(dc_governance))
    || bool_decide (value.(ma_state_commitment) ≠ expected.(ma_state_commitment)))) InvalidData.

Definition mode_bytes : list byte := to_vec (mkMode SCHEMA (lit "manifest")).
Definition current_bytes (g : Generation) : list byte := to_vec (mkCurrent SCHEMA g.(number) g.(slot)).

(** ** Loading *)

Definition slot_documents : list str :=
  [lit "pack"; lit "silver"; lit "target-policy"; lit "fangs"; lit "active-fangs"; lit "governance";
   lit "manifest"].

Context `{Den D}.

(** The nested loops that look for any file of a slot. *)
Definition require_absent (d : D) (nm : str) : io () :=
  found ← den_read d nm DOCUMENT_LIMIT;
  require (bool_decide (found = None)) InvalidData.
Definition no_slot_files (d : D) : io (list ()) :=
  try_map (require_absent d) ((name SlotA <$> slot_documents) ++ (name SlotB <$> slot_documents)).

Definition load_current (d : D) : io (option Generation) :=
  mode ← den_read d MODE_FILE MANIFEST_LIMIT;
  current ← den_read d CURRENT_FILE MANIFEST_LIMIT;
  match mode, current with
  | None, None => _ ← no_slot_files d; Ok None
  | Some mode, Some current =>
      mode ← exact mode;
      current ← exact current;
      _ ← require (bool_decide (mode.(mo_schema) = SCHEMA) && bool_decide (mode.(mo_mode) = lit "manifest")
                   && bool_decide (current.(cu_schema) = SCHEMA) && negb (current.(cu_generation) =? 0))
            InvalidData;
      Ok (Some (mkGeneration current.(cu_generation) current.(cu_slot)))
  | _, _ => invalid
  end.

Definition read_document (d : D) (nm : str) (limit : nat) : io (list byte) :=
  bytes ← den_read d nm limit;
  ok_or bytes InvalidData.

Definition read_slot (d : D) (s : Slot) : io (Documents * Manifest) :=
  pack ← read_document d (name s (lit "pack")) DOCUMENT_LIMIT;
  silver ← read_document d (name s (lit "silver")) DOCUMENT_LIMIT;
  tp ← read_document d (name s (lit "target-policy")) DOCUMENT_LIMIT;
  fangs ← read_document d (name s (lit "fangs")) DOCUMENT_LIMIT;
  act ← read_document d (name s (lit "active-fangs")) DOCUMENT_LIMIT;
  bytes ← read_document d (name s (lit "manifest")) MANIFEST_LIMIT;
  m ← exact bytes;
  gov ← match m.(ma_documents).(dc_governance) with
        | Some _ => g ← read_document d (name s (lit "governance")) DOCUMENT_LIMIT; Ok (Some g)
        | None => Ok None
        end;
  Ok (mkDocuments pack silver tp fangs act gov, m).

Definition parse_state (c : Documents) : io State :=
  locked ← parse_silver c.(d_silver);
  ps ← parse_pack c.(d_pack);
  tp ← invalid_as (TargetPolicy.parse_canonical c.(d_target_policy));
  fangs ← parse_profiles c.(d_fangs);
  fangs' ← parse_profiles c.(d_fangs);
  act ← parse_active c.(d_active_fangs) fangs';
  gov ← transpose (λ b, invalid_as (NodeGovernance.parse b)) c.(d_governance);
  Ok (mkState locked ps tp fangs act gov).

Definition load (d : D) : io Load :=
  current ← load_current d;
  match current with
  | None => Ok Legacy
  | Some g =>
      '(c, m) ← read_slot d g.(slot);
      _ ← validate_manifest m g c;
      s ← parse_state c;
      Ok (Loaded g s)
  end.

(** ** The flat files of older versions *)

Definition canonical_silver_from_legacy (bytes : list byte) : io (list byte) :=
  value ← ok_or (from_slice bytes) InvalidData;
  _ ← require (bool_decide (value.(si_version) = x01)) InvalidData;
  locked ← silver_mode value.(si_mode);
  Ok (canonical_silver locked).

Definition legacy_silver (d : D) : io bool :=
  found ← den_read d (lit "silver.json") MANIFEST_LIMIT;
  match found with
  | None => Ok true
  | Some bytes => b ← canonical_silver_from_legacy bytes; parse_silver b
  end.

(** A flat list: absent is empty, present must decode and pass the check. *)
Definition legacy_list {A} `{Serde (list A)} (d : D) (nm : str) (check : list A → io ()) : io (list A) :=
  found ← den_read d nm DOCUMENT_LIMIT;
  match found with
  | None => Ok []
  | Some bytes => l ← ok_or (from_slice bytes) InvalidData; _ ← check l; Ok l
  end.

Definition legacy_policy (d : D) : io TargetPolicy.TargetPolicy :=
  found ← den_read d (lit "target_policy.json") DOCUMENT_LIMIT;
  match found with
  | None => Ok TargetPolicy.Deny
  | Some bytes =>
      _ ← require (utf8_valid bytes) InvalidData;
      canonical ← invalid_as (TargetPolicy.canonicalize bytes);
      invalid_as (TargetPolicy.parse_canonical canonical)
  end.

Definition legacy_state (d : D) : io State :=
  locked ← legacy_silver d;
  ps ← legacy_list d (lit "pack.json") (λ l, invalid_as (StateValidation.pack l));
  tp ← legacy_policy d;
  fangs ← legacy_list d (lit "fangs.json") (λ l, invalid_as (StateValidation.profile_document l));
  act ← legacy_list d (lit "active_fangs.json") (λ l, invalid_as (StateValidation.active l fangs));
  Ok (mkState locked ps tp fangs act None).

(** ** Writing *)

Definition map_outcome (o : CommitOutcome) : result Transaction () :=
  match o with
  | DurablyCommitted => Ok ()
  | NotCommitted e => Err (TNotCommitted e)
  | IndeterminateAfterRename e => Err (TIndeterminate e)
  end.

Definition put (nm : str) (data : list byte) (create_only : bool) (d : D) : result Transaction () * D :=
  let '(o, d') := den_replace nm data create_only d in (map_outcome o, d').

(** Replacements in order, up to the first that is not durable. *)
Fixpoint put_all (files : list (str * list byte)) (d : D) : result Transaction () * D :=
  match files with
  | [] => (Ok (), d)
  | (nm, data) :: rest =>
      match put nm data false d with
      | (Ok _, d') => put_all rest d'
      | (Err t, d') => (Err t, d')
      end
  end.

Definition slot_files (s : Slot) (c : Documents) (m : Manifest) : list (str * list byte) :=
  [(name s (lit "pack"), c.(d_pack)); (name s (lit "silver"), c.(d_silver));
   (name s (lit "target-policy"), c.(d_target_policy)); (name s (lit "fangs"), c.(d_fangs));
   (name s (lit "active-fangs"), c.(d_active_fangs))]
  ++ match c.(d_governance) with Some b => [(name s (lit "governance"), b)] | None => [] end
  ++ [(name s (lit "manifest"), to_vec m)].

Definition write_slot (g : Generation) (s : State) (d : D) : result Transaction () * D :=
  match (c ← documents s; m ← manifest g.(number) c; Ok (c, m)) with
  | Err e => (Err (TNotCommitted e), d)
  | Ok (c, m) => put_all (slot_files g.(slot) c m) d
  end.

(** The last replacement: the pointer. *)
Definition point_to (g : Generation) (create_only : bool) (d : D) : Transaction * D :=
  let '(o, d') := den_replace CURRENT_FILE (current_bytes g) create_only d in
  (match o with
   | DurablyCommitted => TDurablyCommitted g
   | NotCommitted e => TNotCommitted e
   | IndeterminateAfterRename e => TIndeterminate e
   end, d').

Definition migrate (d : D) : Transaction * D :=
  match load_current d with
  | Ok (Some g) => (TDurablyCommitted g, d)
  | Err e => (TNotCommitted e, d)
  | Ok None =>
      match legacy_state d with
      | Err e => (TNotCommitted e, d)
      | Ok s =>
          let g := mkGeneration 1 SlotA in
          match write_slot g s d with
          | (Err t, d') => (t, d')
          | (Ok _, d') =>
              match put MODE_FILE mode_bytes true d' with
              | (Err t, d2) => (t, d2)
              | (Ok _, d2) => point_to g true d2
              end
          end
      end
  end.

Definition commit (current : Z) (s : State) (d : D) : Transaction * D :=
  match load_current d with
  | Ok (Some observed) =>
      if observed.(number) =? current then
        match u64_checked_add observed.(number) 1 with
        | None => (TNotCommitted Other, d)
        | Some n =>
            let next := mkGeneration n (inactive observed.(slot)) in
            match write_slot next s d with
            | (Err t, d') => (t, d')
            | (Ok _, d') => point_to next false d'
            end
        end
      else (TNotCommitted InvalidData, d)
  | Ok None => (TNotCommitted InvalidData, d)
  | Err e => (TNotCommitted e, d)
  end.

End state.
End ProtectedState.

(** ** What the documents guarantee *)

Module ProtectedStateSpec.
Import LocalFs Gov Handshake ProtectedState.
Import StateValidation (PeerRecord, FangProfile, pr_name, fp_name).

(** What the documents need of [serde_json]: decoding inverts encoding, and
    the three small documents fit the limit they are read with. *)
Class ProtectedJsonLaws `{Crypto} `{ProtectedJson} : Prop := {
  pjl_peers :: SerdeLaws (list PeerRecord);
  pjl_profiles :: SerdeLaws (list FangProfile);
  pjl_names :: SerdeLaws (list str);
  pjl_silver :: SerdeLaws SilverDocument;
  pjl_mode :: SerdeLaws Mode;
  pjl_manifest :: SerdeLaws Manifest;
  pjl_governance :: SerdeLaws NodeGovernance.Document;
  pjl_policy :: TargetPolicySpec.PolicyJsonLaws;
  current_round : ∀ c : Current, u64_range c.(cu_generation) → from_slice (to_vec c) = Some c;
  current_typed : ∀ bytes c, from_slice bytes = Some c → u64_range c.(cu_generation);
  mode_small : (length mode_bytes ≤ MANIFEST_LIMIT)%nat;
  current_small : ∀ g, u64_range g.(number) → (length (current_bytes g) ≤ MANIFEST_LIMIT)%nat;
  manifest_small : ∀ n c m, u64_range n → manifest n c = Ok m → (length (to_vec m) ≤ MANIFEST_LIMIT)%nat
}.

(** *** Digests *)

Lemma nibbles x y : 0 ≤ x < 16 → 0 ≤ y < 16 → Z.lor (Z.shiftl x 4) y = x * 16 + y.
Proof.
  intros Hx Hy.
  assert (forallb (λ x, forallb (λ y, Z.lor (Z.shiftl x 4) y =? x * 16 + y) (seqZ 0 16)) (seqZ 0 16) = true)
    as Hall by (vm_compute; reflexivity).
  rewrite forallb_forall in Hall. specialize (Hall x ltac:(apply list_elem_of_In, elem_of_seqZ; lia)).
  rewrite forallb_forall in Hall. specialize (Hall y ltac:(apply list_elem_of_In, elem_of_seqZ; lia)).
  by apply Z.eqb_eq.
Qed.

Lemma decode_pairs_loop : ∀ value, decode_pairs value = unhex_loop value.
Proof.
  fix IH 1. intros [|a [|b rest]]; [done|done|]. cbn [decode_pairs unhex_loop].
  change (decode_nibble ?c) with (lower_digit c). destruct (lower_digit a) as [x|] eqn:Ha; [|done].
  destruct (lower_digit b) as [y|] eqn:Hb; [|done]. cbn. rewrite (IH rest).
  apply HandshakeSpec.lower_digit_Some in Ha as [Ha _], Hb as [Hb _]. by rewrite nibbles.
Qed.

Lemma decode_digest_exact value a : decode_digest value = Ok a ↔ value = encode_digest a.
Proof.
  unfold decode_digest, encode_digest. rewrite decode_pairs_loop, <-HandshakeSpec.h_unhex_exact.
  unfold unhex, h_require, h_some. change (2 * 32)%nat with 64%nat.
  destruct (length value =? 64)%nat; cbn; [|done]. by rewrite !ok_or_Ok.
Qed.

Lemma decode_digest_own a : decode_digest (encode_digest a) = Ok a.
Proof. by apply decode_digest_exact. Qed.

Lemma encode_digest_inj a b : encode_digest a = encode_digest b → a = b.
Proof. unfold encode_digest. intros He%hex_inj. by apply array_eq. Qed.

(** *** The canonical documents *)

(** Sorting a list with distinct names: the sorted list is its own sort. *)
Lemma sorted_by_idem {A} (f : A → str) l : NoDup (f <$> l) → sorted_by f (sorted_by f l) = sorted_by f l.
Proof.
  intros Hnd. unfold sorted_by. apply sort_by_key_unique; [done|]. apply (sort_by_key_NoDup _ _ Hnd).
Qed.

(** A document of a slot, by its name. *)
Ltac solve_doc := by apply (bool_decide_unpack _); vm_compute.

Section documents.
Context `{!Crypto} `{!Base64} `{!Base64Laws} `{!ProtectedJson} `{!ProtectedJsonLaws}.

Lemma pack_sorted ps : StateValidation.pack ps = Ok () →
  StateValidation.pack (sorted_by pr_name ps) = Ok () ∧ NoDup (pr_name <$> ps).
Proof.
  intros Hp. apply StateValidationSpec.pack_iff in Hp as (Hl & Hf & Hn & Hfp). split; [|done].
  pose proof (sort_by_key_perm pr_name ps) as Hp. apply StateValidationSpec.pack_iff. unfold sorted_by.
  split_and!; [by rewrite (Permutation_length Hp)|by rewrite Hp..].
Qed.

Lemma parse_pack_own ps bytes : canonical_pack ps = Ok bytes → parse_pack bytes = Ok (sorted_by pr_name ps).
Proof.
  unfold canonical_pack. intros ([] & Hp & [= <-])%bind_Ok. apply map_err_Ok in Hp.
  apply pack_sorted in Hp as [Hs Hn]. unfold parse_pack. rewrite from_to_vec. cbn [ok_or mbind result_bind].
  unfold canonical_pack. rewrite Hs, sorted_by_idem by done. cbn [invalid_as map_err mbind result_bind].
  by rewrite bool_decide_eq_true_2.
Qed.

Lemma profiles_sorted ps : StateValidation.profile_document ps = Ok () →
  StateValidation.profile_document (sorted_by fp_name ps) = Ok () ∧ NoDup (fp_name <$> ps).
Proof.
  intros Hp. apply (proj1 (StateValidationSpec.profiles_exact ps [] [])) in Hp as (Hl & Hf & Hn). split; [|done].
  pose proof (sort_by_key_perm fp_name ps) as Hp. apply (proj1 (StateValidationSpec.profiles_exact _ [] [])).
  unfold sorted_by. split_and!; [by rewrite (Permutation_length Hp)|by rewrite Hp..].
Qed.

Lemma parse_profiles_own ps bytes :
  canonical_profiles ps = Ok bytes → parse_profiles bytes = Ok (sorted_by fp_name ps).
Proof.
  unfold canonical_profiles. intros ([] & Hp & [= <-])%bind_Ok. apply map_err_Ok in Hp.
  apply profiles_sorted in Hp as [Hs Hn]. unfold parse_profiles. rewrite from_to_vec.
  cbn [ok_or mbind result_bind]. unfold canonical_profiles.
  rewrite Hs, sorted_by_idem by done. cbn [invalid_as map_err mbind result_bind].
  by rewrite bool_decide_eq_true_2.
Qed.

Lemma parse_active_own act ps bytes :
  canonical_active act ps = Ok bytes →
  parse_active bytes (sorted_by fp_name ps) = Ok (sorted_by id act).
Proof.
  unfold canonical_active. intros ([] & Hp & [= <-])%bind_Ok. apply map_err_Ok in Hp.
  apply (proj2 (proj2 (StateValidationSpec.profiles_exact ps [] act))) in Hp as (Hl & Hn & Hin).
  unfold parse_active. rewrite from_to_vec. cbn [ok_or mbind result_bind]. unfold canonical_active.
  assert (StateValidation.active (sorted_by id act) (sorted_by fp_name ps) = Ok ()) as ->.
  { apply (proj2 (proj2 (StateValidationSpec.profiles_exact _ [] _))). unfold sorted_by. rewrite !sort_by_key_perm.
    split_and!; [done|done|]. intros n. rewrite !sort_by_key_perm. apply Hin. }
  rewrite sorted_by_idem by (by rewrite list_fmap_id). cbn [invalid_as map_err mbind result_bind].
  by rewrite bool_decide_eq_true_2.
Qed.

Lemma exact_own {A} `{SerdeLaws A} (a : A) : exact (to_vec a) = Ok a.
Proof. unfold exact. rewrite from_to_vec. cbn. by rewrite bool_decide_eq_true_2. Qed.

Lemma exact_inv {A} `{Serde A} bytes (a : A) : exact bytes = Ok a → bytes = to_vec a.
Proof. unfold exact. intros He. ww_inv. by bool_simpl. Qed.

Lemma exact_current g : u64_range g.(number) →
  exact (current_bytes g) = Ok (mkCurrent SCHEMA g.(number) g.(slot)).
Proof. intros Hr. unfold exact, current_bytes. rewrite current_round by done. cbn. by rewrite bool_decide_eq_true_2. Qed.

Lemma exact_typed bytes (c : Current) : exact bytes = Ok c → u64_range c.(cu_generation).
Proof. unfold exact. intros He. ww_inv. by eapply current_typed. Qed.

Lemma parse_silver_own locked : parse_silver (canonical_silver locked) = Ok locked.
Proof. unfold parse_silver, canonical_silver. rewrite exact_own. by destruct locked. Qed.

(** The state as it is read back: lists in the order of names, and [Deny]
    as the empty set of grants. *)
Definition stored (s : State) : State :=
  mkState s.(silver_locked) (sorted_by pr_name s.(peers)) (TargetPolicySpec.normal s.(target_policy))
    (sorted_by fp_name s.(fang_profiles)) (sorted_by id s.(active_profiles)) s.(governance).

Lemma documents_parse s c :
  TargetPolicySpec.policy_wf s.(target_policy) → documents s = Ok c → parse_state c = Ok (stored s).
Proof.
  intros Hw. unfold documents. intros (pack & Hpack & Hd)%bind_Ok.
  apply bind_Ok in Hd as (tp & Htp%map_err_Ok & Hd). apply bind_Ok in Hd as (fangs & Hfangs & Hd).
  apply bind_Ok in Hd as (act & Hact & Hd). apply bind_Ok in Hd as (gov & Hgov & [= <-]).
  unfold parse_state. cbn [d_silver d_pack d_target_policy d_fangs d_active_fangs d_governance].
  rewrite parse_silver_own. cbn [mbind result_bind]. rewrite (parse_pack_own _ _ Hpack).
  cbn [mbind result_bind]. rewrite (TargetPolicySpec.parse_canonical_own _ _ Hw Htp).
  cbn [invalid_as map_err mbind result_bind]. rewrite (parse_profiles_own _ _ Hfangs).
  cbn [mbind result_bind]. rewrite (parse_active_own _ _ _ Hact). cbn [mbind result_bind].
  assert (transpose (λ b, invalid_as (NodeGovernance.parse b)) gov = Ok s.(governance)) as ->; [|done].
  destruct (governance s) as [h|]; cbn in Hgov; [|by injection Hgov as <-].
  apply bind_Ok in Hgov as (b & Hb%map_err_Ok & [= <-]). cbn.
  by rewrite (NodeGovernanceSpec.parse_canonical _ _ Hb).
Qed.

(** *** Manifests *)

Lemma state_commitment_total schema n c :
  (∃ a b x y z g, c = mkCommitments (encode_digest a) (encode_digest b) (encode_digest x) (encode_digest y)
     (encode_digest z) (encode_digest <$> g)) →
  ∃ sc, state_commitment schema n c = Ok sc.
Proof.
  intros (a & b & x & y & z & g & ->). unfold state_commitment, commit_entry.
  destruct g; cbn [dc_pack dc_silver dc_target_policy dc_fangs dc_active_fangs dc_governance fmap option_fmap
    option_map app try_map fst snd]; rewrite !decode_digest_own; cbn; by eexists.
Qed.

Lemma manifest_total n c : ∃ m, manifest n c = Ok m.
Proof.
  unfold manifest.
  match goal with |- context [state_commitment ?sch n ?docs] =>
    destruct (state_commitment_total sch n docs) as [sc ->] end; [|by eexists].
  eexists _, _, _, _, _, (document_commitment (lit "governance") <$> c.(d_governance)).
  by destruct (d_governance c).
Qed.

Lemma manifest_generation n c m : manifest n c = Ok m → m.(ma_generation) = n.
Proof. unfold manifest. intros (sc & _ & [= <-])%bind_Ok. done. Qed.

Lemma validate_exact m g c : validate_manifest m g c = Ok () ↔ manifest g.(number) c = Ok m.
Proof.
  unfold validate_manifest. destruct (manifest_total g.(number) c) as [e He]. rewrite He.
  pose proof (manifest_generation _ _ _ He) as Hg. split.
  - intros Hv. ww_inv. bool_simpl. f_equal.
    repeat match goal with H : ¬ (_ ≠ _) |- _ => apply dec_stable in H end.
    match goal with |- ?e = m => destruct m as [? ? [] ?], e as [? ? [] ?] end. cbn in *. congruence.
  - intros Hem. injection Hem as ->. rewrite Hg, Z.eqb_refl. cbn [require mbind result_bind].
    rewrite (bool_decide_eq_true_2 (ma_schema m = ma_schema m)) by done. cbn [require mbind result_bind].
    by rewrite !bool_decide_eq_false_2 by (by intros []).
Qed.

(** *** Files *)

Context `{DL : DenLaws D}.

Notation files := (str → option (list byte)).

(** The documents of a slot and its manifest are these. *)
Definition slot_holds (F : files) (s : Slot) (c : Documents) (m : Manifest) : Prop :=
  F (name s (lit "pack")) = Some c.(d_pack) ∧ F (name s (lit "silver")) = Some c.(d_silver) ∧
  F (name s (lit "target-policy")) = Some c.(d_target_policy) ∧ F (name s (lit "fangs")) = Some c.(d_fangs) ∧
  F (name s (lit "active-fangs")) = Some c.(d_active_fangs) ∧ F (name s (lit "manifest")) = Some (to_vec m) ∧
  (∀ b, c.(d_governance) = Some b → F (name s (lit "governance")) = Some b).

(** The documents a state is made of can be read back. *)
Definition contents_fit (c : Documents) : Prop :=
  Forall (λ b : list byte, (length b ≤ DOCUMENT_LIMIT)%nat)
    ([c.(d_pack); c.(d_silver); c.(d_target_policy); c.(d_fangs); c.(d_active_fangs)]
     ++ option_list c.(d_governance)).

(** A complete generation is active. *)
Definition active_state (F : files) (g : Generation) (s : State) : Prop :=
  F MODE_FILE = Some mode_bytes ∧ F CURRENT_FILE = Some (current_bytes g) ∧
  (g.(number) ≠ 0 ∧ u64_range g.(number)) ∧
  ∃ c m, slot_holds F g.(slot) c m ∧ manifest g.(number) c = Ok m ∧ parse_state c = Ok s ∧ contents_fit c.

Lemma read_document_inv (d : D) nm limit b :
  read_document d nm limit = Ok b → den_file d nm = Some b ∧ (length b ≤ limit)%nat.
Proof.
  unfold read_document. intros ([x|] & Hr & Ho)%bind_Ok; [|done]. injection Ho as ->.
  split; [by apply den_read_file in Hr|by apply den_read_limit in Hr].
Qed.

Lemma manifest_governance n c m :
  manifest n c = Ok m → m.(ma_documents).(dc_governance) = None ↔ c.(d_governance) = None.
Proof.
  unfold manifest. intros (sc & _ & [= <-])%bind_Ok. cbn. by destruct (d_governance c).
Qed.

Lemma load_current_inv (d : D) g :
  load_current d = Ok (Some g) →
  den_file d MODE_FILE = Some mode_bytes ∧ den_file d CURRENT_FILE = Some (current_bytes g) ∧ g.(number) ≠ 0 ∧
  u64_range g.(number).
Proof.
  unfold load_current. intros (mode & Hm%den_read_file & HL)%bind_Ok.
  apply bind_Ok in HL as (cur & Hc%den_read_file & HL). rewrite Hm, Hc.
  destruct mode as [mode|], cur as [cur|]; [|done|done|by apply bind_Ok in HL as (? & _ & ?)].
  apply bind_Ok in HL as ([ms mm] & ->%exact_inv & HL).
  apply bind_Ok in HL as ([cs cg csl] & Hx & HL). pose proof (exact_typed _ _ Hx) as Ht.
  apply exact_inv in Hx as ->. apply bind_Ok in HL as ([] & Hg%require_Ok & [= <-]). cbn in Hg. bool_simpl.
  subst. split_and!; [done..|]. exact Ht.
Qed.

Lemma read_slot_inv (d : D) s c m :
  read_slot d s = Ok (c, m) → manifest m.(ma_generation) c = Ok m →
  slot_holds (den_file d) s c m.
Proof.
  unfold read_slot. intros Hr Hm.
  do 6 (let b := fresh "b" in let Hb := fresh "Hb" in apply bind_Ok in Hr as (b & Hb & Hr);
        apply read_document_inv in Hb as [Hb _]).
  apply bind_Ok in Hr as (m' & ->%exact_inv & Hr). apply bind_Ok in Hr as (gov & Hg & [= <- <-]).
  split_and!; try done. cbn [d_governance]. intros g ->. apply manifest_governance in Hm. cbn in Hm.
  destruct (dc_governance (ma_documents m')); [|by destruct Hm as [Hm _]; specialize (Hm eq_refl)].
  apply bind_Ok in Hg as (g' & Hg & [= ->]). by apply read_document_inv in Hg as [? _].
Qed.

Lemma read_slot_fits (d : D) s c m : read_slot d s = Ok (c, m) → contents_fit c.
Proof.
  unfold read_slot. intros Hr.
  do 6 (let b := fresh "b" in let Hb := fresh "Hb" in apply bind_Ok in Hr as (b & Hb & Hr);
        apply read_document_inv in Hb as [_ Hb]).
  apply bind_Ok in Hr as (m' & _ & Hr). apply bind_Ok in Hr as (gov & Hg & [= <- <-]).
  unfold contents_fit. cbn. repeat (constructor; [done|]).
  destruct (dc_governance (ma_documents m')); [|by injection Hg as <-].
  apply bind_Ok in Hg as (g' & Hg & [= <-]). apply read_document_inv in Hg as [_ Hg]. by constructor.
Qed.

Lemma load_inv (d : D) g s : load d = Ok (Loaded g s) → active_state (den_file d) g s.
Proof.
  unfold load. intros ([g'|] & Hc & HL)%bind_Ok; [|done].
  apply bind_Ok in HL as ([c m] & Hr & HL). apply bind_Ok in HL as ([] & Hv%validate_exact & HL).
  apply bind_Ok in HL as (s' & Hs & [= <- <-]). apply load_current_inv in Hc as (Hm & Hcur & Hn).
  pose proof (manifest_generation _ _ _ Hv) as Hg. pose proof (read_slot_fits _ _ _ _ Hr) as Hfit.
  split_and!; [done|done|apply Hn|apply Hn|]. exists c, m. split_and!; [|done|done|done].
  apply read_slot_inv; [done|by rewrite Hg].
Qed.

(** *** Loading what is there *)

Definition slot_names (s : Slot) : list str := name s <$> slot_documents.
Definition protected_names : list str := MODE_FILE :: CURRENT_FILE :: slot_names SlotA ++ slot_names SlotB.

Lemma protected_plain nm : nm ∈ protected_names → plain nm.
Proof.
  assert (forallb (λ nm, name_ok nm && bool_decide (head nm = Some x73)) protected_names = true) as Hall
    by (vm_compute; reflexivity).
  intros Hin. rewrite forallb_forall in Hall. specialize (Hall nm ltac:(by apply list_elem_of_In)).
  bool_simpl. split; [done|]. intros suffix ->. discriminate.
Qed.

Lemma slot_protected s doc : doc ∈ slot_documents → name s doc ∈ protected_names.
Proof.
  intros Hd. unfold protected_names. do 2 right. apply elem_of_app.
  destruct s; [left|right]; by apply list_elem_of_fmap_2.
Qed.
Lemma mode_protected : MODE_FILE ∈ protected_names.
Proof. by left. Qed.
Lemma current_protected : CURRENT_FILE ∈ protected_names.
Proof. right. by left. Qed.

Lemma protected_distinct :
  NoDup protected_names ∧ ∀ s, MODE_FILE ∉ slot_names s ∧ CURRENT_FILE ∉ slot_names s ∧
    NoDup (slot_names s) ∧ ∀ doc, doc ∈ slot_documents → name s doc ∉ slot_names (inactive s).
Proof.
  assert (NoDup protected_names) as Hnd by (apply (bool_decide_unpack _); vm_compute; reflexivity).
  split; [done|]. unfold protected_names in Hnd. rewrite !NoDup_cons, NoDup_app in Hnd.
  destruct Hnd as (Hm & Hc & Ha & Hd & Hb). rewrite elem_of_cons, elem_of_app in Hm. rewrite elem_of_app in Hc.
  intros s. assert (∀ doc, doc ∈ slot_documents → name s doc ∈ slot_names s) as Hin
    by (intros; by apply list_elem_of_fmap_2).
  destruct s; (split_and!; [tauto|tauto|done|]); intros doc Hdoc Hother; eapply Hd; eauto.
Qed.

Lemma read_document_quiet (d : D) nm limit b :
  den_quiet d → nm ∈ protected_names → den_file d nm = Some b → (length b ≤ limit)%nat →
  read_document d nm limit = Ok b.
Proof.
  intros Hq Hn Hf Hl. unfold read_document.
  rewrite den_read_quiet; [by rewrite Hf|done|by apply protected_plain|]. rewrite Hf. by intros ? [= <-].
Qed.

Lemma read_slot_quiet (d : D) g c m :
  den_quiet d → slot_holds (den_file d) g.(slot) c m → manifest g.(number) c = Ok m → contents_fit c →
  u64_range g.(number) → read_slot d g.(slot) = Ok (c, m).
Proof.
  intros Hq (Hp & Hs & Ht & Hf & Ha & Hm & Hg) Hman Hfit Hr.
  assert (∀ doc b, doc ∈ slot_documents → den_file d (name g.(slot) doc) = Some b →
    (length b ≤ DOCUMENT_LIMIT)%nat → read_document d (name g.(slot) doc) DOCUMENT_LIMIT = Ok b) as Hread
    by (intros; apply read_document_quiet; [done|by apply slot_protected|done|done]).
  unfold contents_fit in Hfit. rewrite Forall_app in Hfit. destruct Hfit as [Hfit Hgfit].
  repeat (apply Forall_cons in Hfit as [? Hfit]). unfold read_slot.
  rewrite (Hread (lit "pack") _ ltac:(solve_doc) Hp) by done. cbn [mbind result_bind].
  rewrite (Hread (lit "silver") _ ltac:(solve_doc) Hs) by done. cbn [mbind result_bind].
  rewrite (Hread (lit "target-policy") _ ltac:(solve_doc) Ht) by done. cbn [mbind result_bind].
  rewrite (Hread (lit "fangs") _ ltac:(solve_doc) Hf) by done. cbn [mbind result_bind].
  rewrite (Hread (lit "active-fangs") _ ltac:(solve_doc) Ha) by done. cbn [mbind result_bind].
  rewrite (read_document_quiet _ _ _ _ Hq (slot_protected _ (lit "manifest") ltac:(solve_doc)) Hm)
    by (by eapply manifest_small). cbn [mbind result_bind]. rewrite exact_own. cbn [mbind result_bind].
  pose proof (manifest_governance _ _ _ Hman) as Hgov.
  destruct (dc_governance (ma_documents m)); destruct c as [? ? ? ? ? [gb|]];
    cbn [d_pack d_silver d_target_policy d_fangs d_active_fangs d_governance option_list] in *.
  - rewrite (Hread (lit "governance") gb ltac:(solve_doc)) by first [by apply Hg|by apply Forall_cons in Hgfit as [? _]].
    done.
  - by destruct Hgov as [_ Hgov]; specialize (Hgov eq_refl).
  - by destruct Hgov as [Hgov _]; specialize (Hgov eq_refl).
  - done.
Qed.

Lemma load_active (d : D) g s :
  den_quiet d → active_state (den_file d) g s → load d = Ok (Loaded g s).
Proof.
  intros Hq (Hm & Hc & (Hn & Hr) & c & m & Hs & Hman & Hp & Hfit).
  assert (load_current d = Ok (Some g)) as Hcur.
  { unfold load_current.
    rewrite (den_read_quiet d MODE_FILE); [|done|apply protected_plain, mode_protected|].
    2: { rewrite Hm. intros b [= <-]. apply mode_small. }
    rewrite (den_read_quiet d CURRENT_FILE); [|done|apply protected_plain, current_protected|].
    2: { rewrite Hc. intros b [= <-]. by apply current_small. }
    rewrite Hm, Hc. cbn [mbind result_bind]. unfold mode_bytes. rewrite exact_own, exact_current by done.
    cbn [mbind result_bind mo_schema mo_mode cu_schema cu_generation]. rewrite !bool_decide_eq_true_2 by done.
    apply Z.eqb_neq in Hn. rewrite Hn. cbn. by destruct g. }
  unfold load. rewrite Hcur. cbn [mbind result_bind].
  rewrite (read_slot_quiet d g c m) by done. cbn [mbind result_bind].
  rewrite (proj2 (validate_exact m g c)) by done. cbn [mbind result_bind]. by rewrite Hp.
Qed.

(** A generation is active whatever happens to the rest of the Den. *)
Lemma active_agree F F' g s :
  active_state F g s → F' MODE_FILE = F MODE_FILE → F' CURRENT_FILE = F CURRENT_FILE →
  (∀ doc, doc ∈ slot_documents → F' (name g.(slot) doc) = F (name g.(slot) doc)) → active_state F' g s.
Proof.
  intros (Hm & Hc & Hn & c & m & (S1 & S2 & S3 & S4 & S5 & S6 & S7) & Hrest) Em Ec Ed.
  split_and!; [congruence|congruence|apply Hn|apply Hn|]. exists c, m. split; [|done].
  unfold slot_holds. rewrite !Ed by solve_doc. done.
Qed.

(** *** Writing *)

Definition untouched (nm : str) (d d' : D) : Prop :=
  den_file d' nm = den_file d nm ∧ ∀ v, den_settled d nm v → den_settled d' nm v.

Lemma untouched_trans nm d1 d2 d3 : untouched nm d1 d2 → untouched nm d2 d3 → untouched nm d1 d3.
Proof. intros [E1 S1] [E2 S2]. split; [congruence|]. intros v Hv. by apply S2, S1. Qed.

Lemma put_all_spec l : ∀ (d : D) r d',
  put_all l d = (r, d') → Forall plain (fst <$> l) → NoDup (fst <$> l) →
  (∀ nm, plain nm → nm ∉ fst <$> l → untouched nm d d') ∧
  (r = Ok () → ∀ nm b, (nm, b) ∈ l → den_settled d' nm (Some b) ∧ (length b ≤ DOCUMENT_LIMIT)%nat) ∧
  (∀ g, r ≠ Err (TDurablyCommitted g)).
Proof.
  induction l as [|[nm b] l IH]; intros d r d' Hput Hpl Hnd.
  { injection Hput as <- <-. split_and!; [done| |done]. intros _ nm b Hin. by apply elem_of_nil in Hin. }
  apply Forall_cons in Hpl as [Hnm Hpl]. apply NoDup_cons in Hnd as [Hnew Hnd].
  cbn [put_all] in Hput. unfold put in Hput. destruct (den_replace nm b false d) as [o d1] eqn:Ho.
  assert (∀ m, plain m → m ≠ nm → untouched m d d1) as Hone
    by (intros m Hm Hne; by apply (den_replace_other _ _ _ _ _ _ m Ho)).
  destruct o as [e| |e]; cbn [map_outcome] in Hput.
  - injection Hput as <- <-. split_and!; [|done|done]. intros m Hm [Hne _]%not_elem_of_cons. by apply Hone.
  - pose proof (den_replace_durable _ _ _ _ _ Ho Hnm) as Hdur.
    apply IH in Hput as (Hrest & Hok & Hno); [|done|done]. split_and!; [| |done].
    + intros m Hm [Hne Hin]%not_elem_of_cons. eapply untouched_trans; [by apply Hone|by apply Hrest].
    + intros -> m x [[= -> ->]|Hin]%elem_of_cons; [|by apply Hok].
      split; [by apply Hrest|by eapply den_replace_size].
  - injection Hput as <- <-. split_and!; [|done|done]. intros m Hm [Hne _]%not_elem_of_cons. by apply Hone.
Qed.

Lemma slot_files_names s c m : fst <$> slot_files s c m ⊆+ slot_names s.
Proof.
  unfold slot_files, slot_names, slot_documents. destruct (d_governance c); cbn; [done|].
  repeat constructor.
Qed.

Lemma slot_files_ok s c m : Forall plain (fst <$> slot_files s c m) ∧ NoDup (fst <$> slot_files s c m).
Proof.
  pose proof (slot_files_names s c m) as Hsub. split.
  - apply Forall_forall. intros nm Hin. apply protected_plain.
    pose proof (elem_of_submseteq _ _ _ Hin Hsub) as Hnm.
    apply list_elem_of_fmap in Hnm as (doc & -> & Hd). by apply slot_protected.
  - destruct (proj2 protected_distinct s) as (_ & _ & Hnd & _).
    apply submseteq_Permutation in Hsub as [k Hk]. rewrite Hk in Hnd. by apply NoDup_app in Hnd as [? _].
Qed.

Lemma slot_files_elem s c m nm : nm ∉ slot_names s → nm ∉ fst <$> slot_files s c m.
Proof. intros Hn Hin. apply Hn. exact (elem_of_submseteq _ _ _ Hin (slot_files_names s c m)). Qed.

(** An element written out in a list. *)
Ltac solve_in := cbn [app]; first [by left|right; solve_in].

Lemma write_slot_spec g st (d : D) r d' :
  write_slot g st d = (r, d') →
  (∀ nm, nm ∈ protected_names → nm ∉ slot_names g.(slot) → untouched nm d d') ∧
  (r = Ok () → ∃ c m, documents st = Ok c ∧ manifest g.(number) c = Ok m ∧ contents_fit c ∧
     ∀ F, (∀ doc v, doc ∈ slot_documents → den_settled d' (name g.(slot) doc) v → F (name g.(slot) doc) = v) →
       slot_holds F g.(slot) c m) ∧
  (∀ g', r ≠ Err (TDurablyCommitted g')).
Proof.
  unfold write_slot. destruct (documents st) as [c|e]; cbn [mbind result_bind]; [|by intros [= <- <-]].
  destruct (manifest_total g.(number) c) as [m Hm]. rewrite Hm. cbn [mbind result_bind]. intros Hput.
  destruct (slot_files_ok g.(slot) c m) as [Hpl Hnd].
  apply put_all_spec in Hput as (Hun & Hok & Hno); [|done|done]. split_and!; [| |done].
  - intros nm Hp Hn. apply Hun; [by apply protected_plain|]. by apply slot_files_elem.
  - intros Hr. specialize (Hok Hr). exists c, m. unfold slot_files in Hok. split_and!; [done|done| |].
    + apply Forall_app. split; [|destruct (d_governance c); cbn [option_list] in *];
        repeat (apply Forall_cons; split); try apply Forall_nil; try done; eapply Hok; solve_in.
    + intros F HF. split_and!;
        try (apply HF; [solve_doc|apply Hok; destruct (d_governance c); solve_in]).
      intros b Hb. apply HF; [solve_doc|]. apply Hok. rewrite Hb. solve_in.
Qed.


(** *** Generations *)

(** The Den a restarted daemon may find: as it is, or after a power failure. *)
Definition reopens (d d2 : D) : Prop := d2 = d ∨ den_crash d d2.

Lemma settled_reopens d d2 nm v : den_settled d nm v → reopens d d2 → den_file d2 nm = v.
Proof. intros [Hf Hc] [->|Hcr]; [done|by apply Hc]. Qed.

(** Nothing about the protected files is pending, as after a restart. *)
Definition quiesced (d : D) : Prop := ∀ nm, nm ∈ protected_names → den_settled d nm (den_file d nm).

Lemma point_to_spec g b (d : D) tx d' :
  point_to g b d = (tx, d') →
  (∀ nm, nm ∈ protected_names → nm ≠ CURRENT_FILE → untouched nm d d') ∧
  match tx with
  | TDurablyCommitted g' => g' = g ∧ den_settled d' CURRENT_FILE (Some (current_bytes g))
  | TNotCommitted _ => untouched CURRENT_FILE d d'
  | TIndeterminate _ => ∀ v d2, den_settled d CURRENT_FILE v → reopens d' d2 →
      den_file d2 CURRENT_FILE = v ∨ den_file d2 CURRENT_FILE = Some (current_bytes g)
  end.
Proof.
  unfold point_to. destruct (den_replace _ _ _ _) as [o d1] eqn:Ho. intros [= <- <-].
  pose proof (protected_plain _ current_protected) as Hpl. split.
  - intros nm Hn Hne. apply (den_replace_other _ _ _ _ _ _ nm Ho); [done|by apply protected_plain|done].
  - destruct o as [e| |e].
    + by apply (den_replace_not _ _ _ _ _ _ Ho).
    + split; [done|]. by apply (den_replace_durable _ _ _ _ _ Ho).
    + destruct (den_replace_unknown _ _ _ _ _ _ Ho Hpl) as [Hf Hall]. intros v d2 Hv [->|Hc]; [by right|].
      by apply Hall.
Qed.

(** The documents of the next generation are in place, in every reopened Den. *)
Definition written (g : Generation) (s : State) (d : D) : Prop :=
  u64_range g.(number) ∧ ∃ c m, documents s = Ok c ∧ manifest g.(number) c = Ok m ∧ contents_fit c ∧
    ∀ d2, reopens d d2 → slot_holds (den_file d2) g.(slot) c m.

(** The old generation's files are untouched. *)
Definition spared (g : Generation) (d d' : D) : Prop :=
  untouched MODE_FILE d d' ∧ ∀ doc, doc ∈ slot_documents → untouched (name g.(slot) doc) d d'.

Definition next_of (g : Generation) : Generation := mkGeneration (g.(number) + 1) (inactive g.(slot)).

Lemma commit_steps g s (d : D) tx d' :
  load_current d = Ok (Some g) → commit g.(number) s d = (tx, d') →
  spared g d d' ∧
  match tx with
  | TNotCommitted _ => untouched CURRENT_FILE d d'
  | TDurablyCommitted g' =>
      g' = next_of g ∧ den_settled d' CURRENT_FILE (Some (current_bytes (next_of g))) ∧ written (next_of g) s d'
  | TIndeterminate _ => untouched CURRENT_FILE d d' ∨
      written (next_of g) s d' ∧ ∀ v d2, den_settled d CURRENT_FILE v → reopens d' d2 →
        den_file d2 CURRENT_FILE = v ∨ den_file d2 CURRENT_FILE = Some (current_bytes (next_of g))
  end.
Proof.
  intros Hcur. pose proof (load_current_inv _ _ Hcur) as (_ & _ & _ & Hrange).
  destruct (proj2 protected_distinct g.(slot)) as (HmA & HcA & _ & Hother).
  destruct (proj2 protected_distinct (inactive g.(slot))) as (HmB & HcB & _ & _).
  unfold commit. rewrite Hcur, Z.eqb_refl.
  destruct (u64_checked_add (number g) 1) as [n|] eqn:Hadd; [|by intros [= <- <-]].
  apply u64_checked_add_Some in Hadd as [Hmax ->]. fold (next_of g).
  destruct (write_slot (next_of g) s d) as [r d1] eqn:Hwr. apply write_slot_spec in Hwr as (Hun & Hok & Hno).
  assert (untouched CURRENT_FILE d d1) as Uc by (apply Hun; [apply current_protected|done]).
  assert (spared g d d1) as [Um Ud].
  { split; [apply Hun; [apply mode_protected|done]|].
    intros doc Hdoc; apply Hun; [by apply slot_protected|by apply Hother]. }
  destruct r as [[]|t].
  2: { intros [= <- <-]. split; [done|]. destruct t; [by destruct (Hno generation)|done|by left]. }
  destruct (Hok eq_refl) as (c & m & Hdoc & Hman & Hfit & Hall).
  intros Hpt. apply point_to_spec in Hpt as [Hother' Htx].
  assert (spared g d d') as Hsp.
  { split; [eapply untouched_trans; [exact Um|]; apply Hother'; [apply mode_protected|done]|].
    intros doc Hd. eapply untouched_trans; [by apply Ud|]. apply Hother'; [by apply slot_protected|].
    intros Heq. apply HcA. rewrite <-Heq. by apply list_elem_of_fmap_2. }
  assert (written (next_of g) s d') as Hwritten.
  { split; [unfold u64_range in *; cbn; lia|]. exists c, m. split_and!; [done..|]. intros d2 Hre.
    apply Hall. intros doc v Hd Hv. eapply settled_reopens; [|done].
    apply Hother'; [by apply slot_protected| |done]. intros Heq. apply HcB. rewrite <-Heq.
    by apply list_elem_of_fmap_2. }
  split; [done|]. destruct tx as [g'|e|e].
  - destruct Htx as [-> Hs]. done.
  - eapply untouched_trans; [exact Uc|exact Htx].
  - right. split; [done|]. intros v d2 Hv Hre. apply Htx; [|done]. by apply Uc.
Qed.

(** The old generation survives whatever leaves its files alone. *)
Lemma old_survives (d d' d2 : D) g s :
  active_state (den_file d) g s → quiesced d → reopens d' d2 → spared g d d' → den_quiet d2 →
  den_file d2 CURRENT_FILE = den_file d CURRENT_FILE → load d2 = Ok (Loaded g s).
Proof.
  intros Ha Hq Hr [[_ Hm] Hd] Hquiet Hc. apply load_active; [done|]. apply (active_agree _ _ _ _ Ha); [|done|].
  - eapply settled_reopens; [|done]. apply Hm, Hq, mode_protected.
  - intros doc Hdoc. eapply settled_reopens; [|done]. by apply (Hd doc Hdoc), Hq, slot_protected.
Qed.

(** The new generation is there once the pointer names it. *)
Lemma new_loads (d2 : D) d' g s :
  written g s d' → reopens d' d2 → den_quiet d2 → g.(number) ≠ 0 →
  TargetPolicySpec.policy_wf s.(target_policy) → den_file d2 MODE_FILE = Some mode_bytes →
  den_file d2 CURRENT_FILE = Some (current_bytes g) → load d2 = Ok (Loaded g (stored s)).
Proof.
  intros (Hr & c & m & Hdoc & Hman & Hfit & Hall) Hre Hq Hn Hw Hmode Hcur.
  apply load_active; [done|]. split_and!; [done..|]. exists c, m.
  split_and!; [by apply Hall|done|by apply documents_parse|done].
Qed.

(** C4: committing the protected state is atomic across power failures. Let
    a generation be loaded from a settled Den, and commit a new state to it.
    Whatever fails, and whether the daemon goes on or the machine restarts
    after any of the writes: if the commit reported durable, the Den loads
    the next generation with the new state; if it reported that nothing was
    committed, the Den loads the old generation and state; if the outcome is
    unknown, one of the two. No mixture of documents is ever loaded and the
    Den is never left unloadable. *)
Theorem commit_crash_safe g s0 s1 (d : D) tx d' d2 :
  load d = Ok (Loaded g s0) → quiesced d → TargetPolicySpec.policy_wf s1.(target_policy) →
  commit g.(number) s1 d = (tx, d') → reopens d' d2 → den_quiet d2 →
  match tx with
  | TDurablyCommitted g' => g' = next_of g ∧ load d2 = Ok (Loaded (next_of g) (stored s1))
  | TNotCommitted _ => load d2 = Ok (Loaded g s0)
  | TIndeterminate _ => load d2 = Ok (Loaded g s0) ∨ load d2 = Ok (Loaded (next_of g) (stored s1))
  end.
Proof.
  intros Hl Hq Hw Hcommit Hre Hquiet.
  assert (load_current d = Ok (Some g)) as Hcur.
  { revert Hl. unfold load. intros ([g'|] & Hc & HL)%bind_Ok; [|done]. rewrite Hc. by ww_inv. }
  apply load_inv in Hl. pose proof Hl as (Hmode & Hptr & (Hn0 & Hrange) & _).
  apply commit_steps in Hcommit as [Hsp Htx]; [|done].
  assert (den_file d2 MODE_FILE = Some mode_bytes) as Hmode2.
  { eapply settled_reopens; [|done]. apply Hsp. rewrite <-Hmode. apply Hq, mode_protected. }
  assert (untouched CURRENT_FILE d d' → load d2 = Ok (Loaded g s0)) as Hold.
  { intros [_ Hc]. eapply old_survives; try done. eapply settled_reopens; [|done].
    apply Hc, Hq, current_protected. }
  assert (written (next_of g) s1 d' → den_file d2 CURRENT_FILE = Some (current_bytes (next_of g)) →
    load d2 = Ok (Loaded (next_of g) (stored s1))) as Hnew.
  { intros. eapply new_loads; try done. unfold u64_range in Hrange. cbn. lia. }
  destruct tx as [g'|e|e]; [|by apply Hold|].
  - destruct Htx as (-> & Hset & Hwr). split; [done|]. apply Hnew; [done|]. by eapply settled_reopens.
  - destruct Htx as [Hun|[Hwr Hboth]]; [left; by apply Hold|].
    destruct (Hboth _ d2 (Hq _ current_protected) Hre) as [Hc|Hc]; [left|right; by apply Hnew].
    by eapply old_survives.
Qed.


(** *** Legacy files and migration *)

Lemma load_current_none (d : D) : load_current d = Ok None →
  ∀ nm, nm ∈ protected_names → den_file d nm = None.
Proof.
  unfold load_current. intros (mode & Hm%den_read_file & HL)%bind_Ok.
  apply bind_Ok in HL as (cur & Hc%den_read_file & HL).
  destruct mode as [mode|], cur as [cur|]; [by ww_inv|done|done|].
  apply bind_Ok in HL as (l & Hl%try_map_Ok & _).
  intros nm [->|[->|Hin]%elem_of_cons]%elem_of_cons; [done|done|].
  apply list_elem_of_lookup in Hin as [i Hi]. destruct (Forall2_lookup_l _ _ _ _ _ Hl Hi) as (u & _ & Hu).
  unfold require_absent in Hu. apply bind_Ok in Hu as (f & Hf%den_read_file & Hu%require_Ok).
  bool_simpl. congruence.
Qed.

(** Deleting markers never downgrades a Den. [load] answers [Legacy]
    only if none of the sixteen protected files exists; as soon as one of
    them does, a load that succeeds is of a generation whose mode marker,
    pointer, documents and manifest all agree. *)
Theorem load_never_downgrades (d : D) l nm :
  load d = Ok l → nm ∈ protected_names → is_Some (den_file d nm) →
  ∃ g s, l = Loaded g s ∧ active_state (den_file d) g s.
Proof.
  intros Hl Hn [b Hb]. destruct l as [|g s].
  - exfalso. revert Hl. unfold load. intros ([g|] & Hc & HL)%bind_Ok; [by ww_inv|].
    rewrite (load_current_none _ Hc nm Hn) in Hb. discriminate.
  - exists g, s. split; [done|]. by apply load_inv.
Qed.

Lemma legacy_policy_wf (d : D) tp : legacy_policy d = Ok tp → TargetPolicySpec.policy_wf tp.
Proof.
  unfold legacy_policy. intros ([b|] & _ & HL)%bind_Ok; [|by injection HL as <-].
  apply bind_Ok in HL as ([] & _ & HL). apply bind_Ok in HL as (c & _ & Hp%map_err_Ok).
  by apply TargetPolicySpec.parse_canonical_inv in Hp as [? _].
Qed.

Lemma legacy_state_wf (d : D) s : legacy_state d = Ok s → TargetPolicySpec.policy_wf s.(target_policy).
Proof.
  unfold legacy_state. intros (? & _ & HL)%bind_Ok. apply bind_Ok in HL as (? & _ & HL).
  apply bind_Ok in HL as (tp & Htp & HL). apply bind_Ok in HL as (? & _ & HL).
  apply bind_Ok in HL as (? & _ & [= <-]). by eapply legacy_policy_wf.
Qed.

(** The first generation, in slot A. *)
Definition first : Generation := mkGeneration 1 SlotA.

Lemma migrate_steps s (d : D) tx d' :
  load_current d = Ok None → legacy_state d = Ok s → migrate d = (tx, d') →
  match tx with
  | TDurablyCommitted g => g = first ∧ written first s d' ∧
      den_settled d' MODE_FILE (Some mode_bytes) ∧ den_settled d' CURRENT_FILE (Some (current_bytes first))
  | _ => untouched CURRENT_FILE d d' ∨
      written first s d' ∧ den_settled d' MODE_FILE (Some mode_bytes) ∧
      ∀ v d2, den_settled d CURRENT_FILE v → reopens d' d2 →
        den_file d2 CURRENT_FILE = v ∨ den_file d2 CURRENT_FILE = Some (current_bytes first)
  end.
Proof.
  intros Hcur Hs. unfold migrate. rewrite Hcur, Hs. cbv zeta. fold first.
  destruct (proj2 protected_distinct SlotA) as (HmA & HcA & _).
  destruct (write_slot first s d) as [r d1] eqn:Hwr. apply write_slot_spec in Hwr as (Hun & Hok & Hno).
  assert (untouched CURRENT_FILE d d1) as Uc by (apply Hun; [apply current_protected|done]).
  destruct r as [[]|t].
  2: { intros [= <- <-]. destruct t; [by destruct (Hno generation)|by left|by left]. }
  destruct (Hok eq_refl) as (c & m & Hdoc & Hman & Hfit & Hall).
  unfold put. destruct (den_replace MODE_FILE mode_bytes true d1) as [o d2] eqn:Ho.
  pose proof (protected_plain _ mode_protected) as Hpm.
  assert (∀ nm, nm ∈ protected_names → nm ≠ MODE_FILE → untouched nm d1 d2) as U2.
  { intros nm Hn Hne. apply (den_replace_other _ _ _ _ _ _ nm Ho); [done|by apply protected_plain|done]. }
  assert (untouched CURRENT_FILE d d2) as Uc2.
  { eapply untouched_trans; [exact Uc|]. apply U2; [apply current_protected|discriminate]. }
  destruct o as [e| |e]; cbn [map_outcome]; [by intros [= <- <-]; left| |by intros [= <- <-]; left].
  pose proof (den_replace_durable _ _ _ _ _ Ho Hpm) as Hmode.
  intros Hpt. apply point_to_spec in Hpt as [U3 Htx].
  assert (den_settled d' MODE_FILE (Some mode_bytes)) as Hmode' by (by apply U3; [apply mode_protected|..]).
  assert (written first s d') as Hwritten.
  { split; [done|]. exists c, m. split_and!; [done..|]. intros d3 Hre. apply Hall. intros doc v Hd Hv.
    eapply settled_reopens; [|done]. assert (name SlotA doc ∈ slot_names SlotA) as Hin by (by apply list_elem_of_fmap_2).
    apply U3; [by apply slot_protected|intros Heq; apply HcA; by rewrite <-Heq|].
    by apply U2; [apply slot_protected|intros Heq; apply HmA; rewrite <-Heq|]. }
  destruct tx as [g|e|e].
  - by destruct Htx as [-> Hset].
  - left. eapply untouched_trans; [exact Uc2|exact Htx].
  - right. split_and!; [done|done|]. intros v d3 Hv Hre. apply Htx; [|done]. by apply Uc2.
Qed.

(** Migration is atomic and closes the door behind it. Migrating a Den
    of flat files either reports generation 1 as durable, and then every
    reopened Den loads exactly the legacy state as that generation; or it
    reports otherwise, and a reopened Den that loads at all loads generation
    1 with that state, or is still a legacy Den in which not one protected
    file was begun (a partly written one is refused, not downgraded). *)
Theorem migrate_crash_safe s (d : D) tx d' d2 :
  load d = Ok Legacy → legacy_state d = Ok s → quiesced d → migrate d = (tx, d') →
  reopens d' d2 → den_quiet d2 →
  match tx with
  | TDurablyCommitted g => g = first ∧ load d2 = Ok (Loaded first (stored s))
  | _ => ∀ l, load d2 = Ok l → l = Loaded first (stored s) ∨
           l = Legacy ∧ ∀ nm, nm ∈ protected_names → den_file d2 nm = None
  end.
Proof.
  intros Hl Hs Hq Hm Hre Hquiet. pose proof (legacy_state_wf _ _ Hs) as Hw.
  assert (load_current d = Ok None) as Hcur.
  { revert Hl. unfold load. intros ([g'|] & Hc & HL)%bind_Ok; [by ww_inv|done]. }
  assert (den_settled d CURRENT_FILE None) as Hnone.
  { rewrite <-(load_current_none _ Hcur _ current_protected). apply Hq, current_protected. }
  assert (den_file d2 CURRENT_FILE = None → ∀ l, load d2 = Ok l → l = Loaded first (stored s) ∨
    l = Legacy ∧ ∀ nm, nm ∈ protected_names → den_file d2 nm = None) as Hfail.
  { intros Hc l Hl2. right. destruct l as [|g' s'].
    - split; [done|]. apply load_current_none. revert Hl2. unfold load.
      intros ([g'|] & Hc' & HL)%bind_Ok; [by ww_inv|done].
    - apply load_inv in Hl2 as (_ & Hc' & _). congruence. }
  apply (migrate_steps s) in Hm; [|done|done].
  assert (written first s d' → den_settled d' MODE_FILE (Some mode_bytes) →
    den_file d2 CURRENT_FILE = Some (current_bytes first) → load d2 = Ok (Loaded first (stored s))) as Hnew.
  { intros Hwr Hmo Hc. eapply new_loads; try done. by eapply settled_reopens. }
  assert (untouched CURRENT_FILE d d' ∨ written first s d' ∧ den_settled d' MODE_FILE (Some mode_bytes) ∧
    (∀ v d2, den_settled d CURRENT_FILE v → reopens d' d2 →
      den_file d2 CURRENT_FILE = v ∨ den_file d2 CURRENT_FILE = Some (current_bytes first)) →
    ∀ l, load d2 = Ok l → l = Loaded first (stored s) ∨
      l = Legacy ∧ ∀ nm, nm ∈ protected_names → den_file d2 nm = None) as Hother.
  { intros [[_ Hu]|(Hwr & Hmo & Hboth)] l Hl2.
    - apply Hfail; [|done]. eapply settled_reopens; [|done]. by apply Hu.
    - destruct (Hboth None d2 Hnone Hre) as [Hc|Hc]; [by apply Hfail|left].
      specialize (Hnew Hwr Hmo Hc). congruence. }
  destruct tx as [g|e|e]; [|by apply Hother|by apply Hother].
  destruct Hm as (-> & Hwr & Hmo & Hc). split; [done|]. apply Hnew; [done|done|]. by eapply settled_reopens.
Qed.

(** *** Tampering and refusals *)

Lemma document_commitment_inj doc a b :
  document_commitment doc a = document_commitment doc b → a = b ∨ GovChain.hash_collision.
Proof.
  unfold document_commitment. intros Hh.
  match type of Hh with blake3 ?x = blake3 ?y => destruct (decide (x = y)) as [Heq|Hne]; [left|right; by exists x, y] end.
  by repeat apply app_inv_head in Heq.
Qed.

Lemma commitment_inj doc a b :
  encode_digest (document_commitment doc a) = encode_digest (document_commitment doc b) →
  a = b ∨ GovChain.hash_collision.
Proof. intros Hd%encode_digest_inj. by eapply document_commitment_inj. Qed.

Lemma manifest_inj n1 n2 c1 c2 m :
  manifest n1 c1 = Ok m → manifest n2 c2 = Ok m → (n1 = n2 ∧ c1 = c2) ∨ GovChain.hash_collision.
Proof.
  unfold manifest. intros (sc1 & _ & [= <-])%bind_Ok (sc2 & _ & Heq)%bind_Ok.
  injection Heq as _ -> Hp Hs Ht Hf Ha Hg _.
  apply commitment_inj in Hp as [Hp|]; [|by right]. apply commitment_inj in Hs as [Hs|]; [|by right].
  apply commitment_inj in Ht as [Ht|]; [|by right]. apply commitment_inj in Hf as [Hf|]; [|by right].
  apply commitment_inj in Ha as [Ha|]; [|by right].
  destruct c1 as [? ? ? ? ? [g1|]], c2 as [? ? ? ? ? [g2|]]; cbn in *; simplify_eq; [|by left].
  apply commitment_inj in Hg as [->|]; [by left|by right].
Qed.

(** A manifest pins the whole state. Two Dens that load and whose active
    manifests are the same file load the same generation number and the
    same state, documents restored from elsewhere included, unless two
    different inputs with one BLAKE3 hash are exhibited. *)
Theorem manifest_pins_state (d1 d2 : D) g1 g2 s1 s2 :
  load d1 = Ok (Loaded g1 s1) → load d2 = Ok (Loaded g2 s2) →
  den_file d1 (name g1.(slot) (lit "manifest")) = den_file d2 (name g2.(slot) (lit "manifest")) →
  (g1.(number) = g2.(number) ∧ s1 = s2) ∨ GovChain.hash_collision.
Proof.
  intros (_ & _ & _ & c1 & m1 & S1 & M1 & P1 & _)%load_inv (_ & _ & _ & c2 & m2 & S2 & M2 & P2 & _)%load_inv.
  destruct S1 as (_ & _ & _ & _ & _ & -> & _), S2 as (_ & _ & _ & _ & _ & -> & _). intros Hm.
  injection Hm as Hm. apply (f_equal (from_slice (A := Manifest))) in Hm. rewrite !from_to_vec in Hm. injection Hm as ->.
  destruct (manifest_inj _ _ _ _ _ M1 M2) as [[Hn ->]|]; [left|by right]. split; congruence.
Qed.

(** A commit is refused, and nothing is written, when the Den is not at
    the generation the caller saw, when there is none, or when the
    generation number would overflow 64 bits. *)
Theorem commit_refuses current s (d : D) :
  (∀ g, load_current d = Ok (Some g) → g.(number) ≠ current ∨ g.(number) + 1 = 2 ^ 64) →
  ∃ e, commit current s d = (TNotCommitted e, d).
Proof.
  intros Hg. unfold commit. destruct (load_current d) as [[g|]|e]; [|by eexists..].
  destruct (Z.eqb_spec (number g) current); [|by eexists].
  destruct (Hg g eq_refl) as [|Hmax]; [done|].
  destruct (u64_checked_add (number g) 1) as [n|] eqn:Ha; [|by eexists].
  apply u64_checked_add_Some in Ha as [Ha _]. lia.
Qed.

End documents.
End ProtectedStateSpec.

(** ** Instances *)

Module ProtectedStateDemo.
Import ToyDen.
Import LocalFs ProtectedState ProtectedStateSpec Toy ToySerde NodeGovernanceDemo TargetPolicyDemo.
Import StateValidation.

#[local] Instance trust_eq_dec : EqDecision TrustLevel.
Proof. solve_decision. Defined.
#[local] Instance trust_countable : Countable TrustLevel.
Proof.
  apply (inj_countable' (λ t, match t with Stranger => (true, true) | Known => (true, false)
      | Packmate => (false, true) | Alpha => (false, false) end)
    (λ '(a, b), if a then if b then Stranger else Known else if b then Packmate else Alpha)). by intros [].
Defined.
#[local] Instance peer_eq_dec : EqDecision PeerRecord.
Proof. solve_decision. Defined.
#[local] Instance peer_countable : Countable PeerRecord.
Proof.
  apply (inj_countable' (λ p, (pr_name p, pr_fingerprint p, pr_address p, trust p, pr_public_key_b64 p))
    (λ '(n, f, a, t, k), mkPeerRecord n f a t k)). by intros [].
Defined.
#[local] Instance profile_eq_dec : EqDecision FangProfile.
Proof. solve_decision. Defined.
#[local] Instance profile_countable : Countable FangProfile.
Proof.
  apply (inj_countable' (λ p, (fp_name p, fp_peer p, local p, remote p, transport p))
    (λ '(n, f, a, t, k), mkFangProfile n f a t k)). by intros [].
Defined.

(** A number as a field: eight bytes when it is a [u64]. *)
Definition number_field (z : Z) : str :=
  if decide (0 ≤ z < 2 ^ 64) then x00 :: be_bytes 8 z else x01 :: pos_bytes (encode z).
Definition number_back (s : str) : option Z :=
  match s with x00 :: r => Some (be_value r) | x01 :: r => decode (bytes_pos r) | _ => None end.
Lemma number_back_field z : number_back (number_field z) = Some z.
Proof.
  unfold number_field. destruct (decide _).
  - cbn [number_back]. by rewrite be_value_bytes_small.
  - cbn [number_back]. by rewrite bytes_pos_bytes, decode_encode.
Qed.

Definition silver_fields (s : SilverDocument) : list (option str) := [Some [si_version s]; Some (si_mode s)].
Definition silver_back (l : list (option str)) : option SilverDocument :=
  match l with [Some [v]; Some m] => Some (mkSilver v m) | _ => None end.
Definition mode_fields (s : Mode) : list (option str) := [Some [mo_schema s]; Some (mo_mode s)].
Definition mode_back (l : list (option str)) : option Mode :=
  match l with [Some [v]; Some m] => Some (mkMode v m) | _ => None end.
Definition current_fields (c : Current) : list (option str) :=
  [Some [cu_schema c]; Some (number_field (cu_generation c)); Some (slot_name (cu_slot c))].
Definition current_back (l : list (option str)) : option Current :=
  match l with
  | [Some [v]; Some n; Some s] =>
      z ← number_back n;
      if decide (0 ≤ z < 2 ^ 64)
      then Some (mkCurrent v z (if decide (s = lit "a") then SlotA else SlotB)) else None
  | _ => None
  end.
Definition manifest_fields (m : Manifest) : list (option str) :=
  let d := ma_documents m in
  [Some [ma_schema m]; Some (number_field (ma_generation m)); Some (dc_pack d); Some (dc_silver d);
   Some (dc_target_policy d); Some (dc_fangs d); Some (dc_active_fangs d); dc_governance d;
   Some (ma_state_commitment m)].
Definition manifest_back (l : list (option str)) : option Manifest :=
  match l with
  | [Some [v]; Some n; Some p; Some s; Some t; Some f; Some a; g; Some c] =>
      z ← number_back n; Some (mkManifest v z (mkCommitments p s t f a g) c)
  | _ => None
  end.

(** The document of the chain head. *)
Import NodeGovernance (Document, mkDocument, KeyEpoch, mkKeyEpoch, set_at, ke_keys).
Definition option_number (o : option Z) : option str := number_field <$> o.
Definition option_number_back (o : option str) : option (option Z) :=
  match o with Some s => Some <$> number_back s | None => Some None end.
Definition epoch_bytes (e : KeyEpoch) : str := many_bytes (number_field (set_at e) :: ke_keys e).
Definition epoch_back (s : str) : option KeyEpoch :=
  match many_back s with Some (n :: keys) => z ← number_back n; Some (mkKeyEpoch z keys) | _ => None end.
Definition document_fields (d : Document) : list (option str) :=
  [Some [NodeGovernance.d_version d]; Some (NodeGovernance.d_network_id d); Some (number_field (NodeGovernance.d_sequence d));
   Some (NodeGovernance.d_hash d); Some [NodeGovernance.d_threshold d];
   Some (many_bytes (epoch_bytes <$> NodeGovernance.d_key_epochs d)); Some (many_bytes (NodeGovernance.d_revoked d));
   Some (many_bytes (NodeGovernance.d_applied d)); Some [if NodeGovernance.d_forked d then x01 else x00];
   Some (many_bytes (NodeGovernance.d_roster d)); option_number (NodeGovernance.d_activated_at d);
   option_number (NodeGovernance.d_dead_at d)].
Definition document_back (l : list (option str)) : option Document :=
  match l with
  | [Some [v]; Some n; Some s; Some h; Some [t]; Some es; Some rv; Some ap; Some [f]; Some ro; ac; de] =>
      s ← number_back s; es ← many_back es; es ← mapM epoch_back es; rv ← many_back rv; ap ← many_back ap;
      ro ← many_back ro; ac ← option_number_back ac; de ← option_number_back de;
      Some (mkDocument v n s h t es rv ap (bool_decide (f = x01)) ro ac de)
  | _ => None
  end.
Lemma epoch_back_bytes e : epoch_back (epoch_bytes e) = Some e.
Proof. unfold epoch_back, epoch_bytes. rewrite many_back_bytes, number_back_field. by destruct e. Qed.
Lemma option_number_round o : option_number_back (option_number o) = Some o.
Proof. destruct o; [|done]. cbn [option_number fmap option_fmap option_map option_number_back]. by rewrite number_back_field. Qed.
Lemma document_round d : document_back (document_fields d) = Some d.
Proof.
  unfold document_back, document_fields. destruct d as [v n s h t es rv ap f ro ac de].
  cbn [NodeGovernance.d_version NodeGovernance.d_network_id NodeGovernance.d_sequence NodeGovernance.d_hash
    NodeGovernance.d_threshold NodeGovernance.d_key_epochs NodeGovernance.d_revoked NodeGovernance.d_applied
    NodeGovernance.d_forked NodeGovernance.d_roster NodeGovernance.d_activated_at NodeGovernance.d_dead_at].
  rewrite number_back_field, !many_back_bytes, !option_number_round. cbn [mbind option_bind].
  assert (mapM epoch_back (epoch_bytes <$> es) = Some es) as ->.
  { apply mapM_Some. induction es; constructor; [apply epoch_back_bytes|done]. }
  cbn [mbind option_bind]. by destruct f.
Qed.

#[local] Instance demo_protected : ProtectedJson := {|
  pj_governance := fields_serde 12 document_fields document_back;
  pj_silver := fields_serde 2 silver_fields silver_back;
  pj_mode := fields_serde 2 mode_fields mode_back;
  pj_current := fields_serde 3 current_fields current_back;
  pj_manifest := fields_serde 9 manifest_fields manifest_back;
  pj_policy := demo_json
|}.

Lemma length_fields_bytes l :
  length (fields_bytes l) = sum_list_with (λ f : option str, match f with Some s => 2 * length s + 2 | None => 1 end)%nat l.
Proof.
  induction l as [|[s|] l IH]; cbn [fields_bytes sum_list_with length]; [done| |lia].
  rewrite length_app, length_field_bytes, IH. lia.
Qed.

Lemma length_number z : u64_range z → length (number_field z) = 9%nat.
Proof. intros Hz. unfold number_field. rewrite decide_True by done. cbn [length]. by rewrite length_be_bytes. Qed.

Lemma length_digest a : length (encode_digest a) = 64%nat.
Proof. unfold encode_digest. by rewrite length_hex, length_array. Qed.

#[local] Instance demo_protected_laws : ProtectedJsonLaws.
Proof.
  split; try apply _.
  - apply fields_serde_laws; [done|]. by intros [].
  - apply fields_serde_laws; [done|]. by intros [].
  - apply fields_serde_laws; [done|]. intros [? ? [] ?]. cbn -[number_back number_field].
    by rewrite number_back_field.
  - apply fields_serde_laws; [done|apply document_round].
  - intros [v z s] Hz. cbn [to_vec from_slice pj_current demo_protected fields_serde].
    change 3%nat with (length (current_fields (mkCurrent v z s))). rewrite take_fields_bytes.
    cbn -[number_back number_field]. rewrite number_back_field. cbn.
    rewrite decide_True by done. by destruct s.
  - intros bytes c. cbn [from_slice pj_current demo_protected fields_serde].
    destruct (take_fields 3 bytes) as [l|]; [|done]. cbn [mbind option_bind]. unfold current_back.
    destruct l as [|[[|v [|]]|] [|[n|] [|[s|] [|]]]]; try done.
    destruct (number_back n) as [z|]; [|done]. cbn [mbind option_bind].
    destruct (decide (0 ≤ z < 2 ^ 64)) as [Hz|]; [|done]. intros Hc. injection Hc as <-. exact Hz.
  - apply Nat.leb_le. vm_compute. reflexivity.
  - intros g Hg. unfold current_bytes. cbn [to_vec pj_current demo_protected fields_serde].
    rewrite length_fields_bytes. unfold current_fields. cbn [sum_list_with cu_schema cu_generation cu_slot].
    rewrite length_number by done. assert (length (slot_name (slot g)) = 1%nat) as -> by (by destruct (slot g)).
    apply Nat.leb_le. vm_compute. reflexivity.
  - intros n c m Hn Hm. unfold manifest in Hm. apply bind_Ok in Hm as (sc & _ & [= <-]).
    cbn [to_vec pj_manifest demo_protected fields_serde]. rewrite length_fields_bytes. unfold manifest_fields.
    cbn [sum_list_with ma_documents ma_schema ma_generation ma_state_commitment dc_pack dc_silver
      dc_target_policy dc_fangs dc_active_fangs dc_governance].
    rewrite length_number, !length_digest by done.
    destruct (d_governance c); cbn [fmap option_fmap option_map]; rewrite ?length_digest;
      apply Nat.leb_le; vm_compute; reflexivity.
Qed.

Definition demo_empty : str → option (list byte) := λ _, None.
Definition demo_state : State := mkState true [] (TargetPolicy.Grants ∅) [] [] None.
Definition demo_open : State := mkState false [] TargetPolicy.LegacyAllow [] [] None.
Definition demo_den : str → option (list byte) := (migrate demo_empty).2.

Lemma demo_quiesced d : quiesced d.
Proof. intros nm _. split; [done|]. by intros d' ->. Qed.

Lemma demo_load : load demo_den = Ok (Loaded first demo_state).
Proof. vm_compute. reflexivity. Qed.

Definition demo_run : Transaction * (str → option (list byte)) := commit first.(number) demo_open demo_den.

Lemma demo_commit : demo_run.1 = TDurablyCommitted (next_of first).
Proof. vm_compute. reflexivity. Qed.

Lemma commit_crash_safe_witness : load demo_run.2 = Ok (Loaded (next_of first) (stored demo_open)).
Proof.
  pose proof demo_commit as Hc. destruct demo_run as [tx d'] eqn:Hrun. cbn [fst snd] in *. subst tx.
  pose proof (commit_crash_safe first demo_state demo_open demo_den (TDurablyCommitted (next_of first)) d' d')
    as Hsafe. apply (Hsafe demo_load (demo_quiesced _) I Hrun (or_introl eq_refl) I).
Defined.

Definition demo_legacy : State := mkState true [] TargetPolicy.Deny [] [] None.

Lemma demo_before : load demo_empty = Ok Legacy ∧ legacy_state demo_empty = Ok demo_legacy.
Proof. split; vm_compute; reflexivity. Qed.

Lemma demo_migrate : (migrate demo_empty).1 = TDurablyCommitted first.
Proof. vm_compute. reflexivity. Qed.

Lemma migrate_crash_safe_witness : load (migrate demo_empty).2 = Ok (Loaded first (stored demo_legacy)).
Proof.
  pose proof demo_migrate as Ht. destruct (migrate demo_empty) as [tx d'] eqn:Hrun. cbn [fst snd] in *. subst tx.
  pose proof (migrate_crash_safe demo_legacy demo_empty (TDurablyCommitted first) d' d') as Hsafe.
  apply (Hsafe (proj1 demo_before) (proj2 demo_before) (demo_quiesced _) Hrun (or_introl eq_refl) I).
Defined.

Lemma load_never_downgrades_witness : ∃ g s, Loaded first demo_state = Loaded g s.
Proof.
  destruct (load_never_downgrades demo_den _ MODE_FILE demo_load mode_protected) as (g & s & Heq & _).
  - vm_compute. by eexists.
  - by exists g, s.
Defined.

Lemma manifest_pins_state_witness : number first = number first ∧ demo_state = demo_state ∨ GovChain.hash_collision.
Proof. apply (manifest_pins_state demo_den demo_den first first _ _ demo_load demo_load eq_refl). Defined.

Lemma commit_refuses_witness : ∃ e, commit 5 demo_open demo_den = (TNotCommitted e, demo_den).
Proof.
  apply (commit_refuses 5 demo_open demo_den). intros g Hg.
  assert (load_current demo_den = Ok (Some first)) as Hf by (vm_compute; reflexivity).
  rewrite Hf in Hg. injection Hg as <-. by left.
Defined.

End ProtectedStateDemo.
