(* ===== verification/Fangs.v ===== *)
(** * The registry of open Fangs ([werewolfd/src/fang_registry.rs])

    A Fang has a listener task and a tracker of the child tasks its listener
    spawned. Handles and trackers are shared with the running tasks, so the
    model has one store of tasks and trackers ([Runtime]) that the registry
    and the tasks refer to by identity. [Module Fangs] has the operations;
    [Module FangsSpec] what closing a Fang guarantees, the join barrier of
    [quiesce] under any interleaving with the tasks included. *)

From stdpp Require Import gmap.
From S2P Require Export Text.

Local Open Scope nat_scope.

Module Fangs.

(** ** Tasks and trackers *)

(** [Aborted]: cancellation was requested and takes effect at the task's
    next suspension point. *)
Inductive TaskStatus : Type := Running | Aborted | Finished.
#[export] Instance task_status_eq_dec : EqDecision TaskStatus.
Proof. solve_decision. Defined.

Notation Task := nat (only parsing).
Notation FangCancellation := nat (only parsing).

Record ChildTasks : Type := mkChildTasks {
  accepting : bool;
  handles : list Task
}.

Definition children_default : ChildTasks := mkChildTasks true [].

(** [owner] records for which tracker a child was spawned. *)
Record Runtime : Type := mkRuntime {
  status : gmap Task TaskStatus;
  trackers : gmap FangCancellation ChildTasks;
  owner : gmap Task FangCancellation;
  next_task : Task
}.

Definition status_of (r : Runtime) (t : Task) : TaskStatus := default Finished (r.(status) !! t).
Definition tracker (r : Runtime) (c : FangCancellation) : ChildTasks :=
  default children_default (r.(trackers) !! c).
Definition is_finished (r : Runtime) (t : Task) : bool := bool_decide (status_of r t = Finished).

Definition set_tracker (c : FangCancellation) (x : ChildTasks) (r : Runtime) : Runtime :=
  mkRuntime r.(status) (<[c := x]> r.(trackers)) r.(owner) r.(next_task).

(** [JoinHandle::abort]: no effect on a finished task. *)
Definition abort (t : Task) (r : Runtime) : Runtime :=
  match r.(status) !! t with
  | Some Running => mkRuntime (<[t := Aborted]> r.(status)) r.(trackers) r.(owner) r.(next_task)
  | _ => r
  end.
Definition abort_all_of (ts : list Task) (r : Runtime) : Runtime := foldl (λ r t, abort t r) r ts.

(** [FangCancellation::spawn]. *)
Definition spawn (c : FangCancellation) (r : Runtime) : bool * Runtime :=
  let children := tracker r c in
  if children.(accepting) then
    let kept := filter (λ t, is_finished r t = false) children.(handles) in
    let t := r.(next_task) in
    (true, mkRuntime (<[t := Running]> r.(status)) (<[c := mkChildTasks true (kept ++ [t])]> r.(trackers))
             (<[t := c]> r.(owner)) (S t))
  else (false, r).

Definition close_admission (c : FangCancellation) (r : Runtime) : Runtime :=
  set_tracker c (mkChildTasks false (tracker r c).(handles)) r.

Definition take_children (c : FangCancellation) (r : Runtime) : list Task * Runtime :=
  ((tracker r c).(handles), set_tracker c (mkChildTasks (tracker r c).(accepting) []) r).

Definition abort_children (c : FangCancellation) (r : Runtime) : Runtime :=
  let '(ts, r') := take_children c (close_admission c r) in abort_all_of ts r'.

(** ** The registry *)

Inductive FangState : Type := Opening | Active | Closed.
#[export] Instance fang_state_eq_dec : EqDecision FangState.
Proof. solve_decision. Defined.

Record FangRecord : Type := mkFangRecord {
  f_id : str;
  f_peer : str;
  f_local : str;
  f_remote : str;
  f_state : FangState
}.

Record Started : Type := mkStarted {
  s_at : Z;
  s_transport : str;
  also_uses : list str
}.

Record FangRegistry : Type := mkRegistry {
  fangs : list FangRecord;
  tasks : gmap str Task;
  started : gmap str Started;
  cancellations : gmap str FangCancellation
}.

Definition registry_default : FangRegistry := mkRegistry [] ∅ ∅ ∅.

(** Owned after records were detached from the registry. *)
Record FangTermination : Type := mkTermination {
  listeners : list Task;
  t_cancellations : list FangCancellation;
  closed : nat
}.

Definition len (g : FangRegistry) : nat := length g.(fangs).
Definition is_empty (g : FangRegistry) : bool := bool_decide (g.(fangs) = []).
Definition has_active_local (g : FangRegistry) (l : str) : bool :=
  existsb (λ f, bool_decide (f.(f_local) = l) && bool_decide (f.(f_state) = Active)) g.(fangs).
Definition push (f : FangRecord) (g : FangRegistry) : FangRegistry :=
  mkRegistry (g.(fangs) ++ [f]) g.(tasks) g.(started) g.(cancellations).
Definition find_id (g : FangRegistry) (id : str) : option FangRecord :=
  snd <$> list_find (λ f, f.(f_id) = id) g.(fangs).
Definition retain_records (keep : FangRecord → bool) (g : FangRegistry) : FangRegistry :=
  mkRegistry (filter (λ f, keep f = true) g.(fangs)) g.(tasks) g.(started) g.(cancellations).

(** The condition of [ids_using_peer]. *)
Definition uses_peer (g : FangRegistry) (peer : str) (f : FangRecord) : bool :=
  bool_decide (f.(f_peer) = peer)
  || match g.(started) !! f.(f_id) with
     | Some s => existsb (λ p, bool_decide (p = peer)) s.(also_uses)
     | None => false
     end.
Definition ids_using_peer (g : FangRegistry) (peer : str) : list str :=
  f_id <$> filter (λ f, uses_peer g peer f = true) g.(fangs).

(** The state of registry and runtime together. *)
Notation World := (FangRegistry * Runtime)%type.

Definition drop_records (ids : list str) (g : FangRegistry) : FangRegistry :=
  mkRegistry (filter (λ f, f.(f_id) ∉ ids) g.(fangs)) g.(tasks) g.(started) g.(cancellations).

(** The entries of one Fang, its record apart. *)
Definition forget (id : str) (g : FangRegistry) : FangRegistry :=
  mkRegistry g.(fangs) (delete id g.(tasks)) (delete id g.(started)) (delete id g.(cancellations)).

(** One round of the loop of [terminate_ids]. *)
Definition terminate_one (w : World) (id : str) : World :=
  let '(g, r) := w in
  let r1 := match g.(tasks) !! id with Some t => abort t r | None => r end in
  let r2 := match g.(cancellations) !! id with Some c => abort_children c r1 | None => r1 end in
  (forget id g, r2).

Definition terminate_ids (ids : list str) (w : World) : nat * World :=
  let '(g, r) := foldl terminate_one w ids in
  (length ids, (drop_records ids g, r)).
Definition terminate_peer (peer : str) (w : World) : nat * World :=
  terminate_ids (ids_using_peer w.1 peer) w.

(** One round of the loop of [detach_ids]. *)
Definition detach_one (x : FangTermination * World) (id : str) : FangTermination * World :=
  let '(t, (g, r)) := x in
  let n := if existsb (λ f, bool_decide (f.(f_id) = id)) g.(fangs) then S t.(closed) else t.(closed) in
  let '(cs, r1) := match g.(cancellations) !! id with
                   | Some c => (t.(t_cancellations) ++ [c], close_admission c r)
                   | None => (t.(t_cancellations), r)
                   end in
  let ls := match g.(tasks) !! id with Some l => t.(listeners) ++ [l] | None => t.(listeners) end in
  (mkTermination ls cs n, (forget id g, r1)).
Definition detach_ids (ids : list str) (w : World) : FangTermination * World :=
  let '(t, (g, r)) := foldl detach_one (mkTermination [] [] 0, w) ids in
  (t, (drop_records ids g, r)).

Definition insert_task (id : str) (t : Task) (g : FangRegistry) : FangRegistry :=
  mkRegistry g.(fangs) (<[id := t]> g.(tasks)) g.(started) g.(cancellations).
Definition insert_started (id : str) (at_ : Z) (transport : str) (uses : list str) (g : FangRegistry)
    : FangRegistry :=
  mkRegistry g.(fangs) g.(tasks) (<[id := mkStarted at_ transport uses]> g.(started)) g.(cancellations).
Definition insert_cancellation (id : str) (c : FangCancellation) (g : FangRegistry) : FangRegistry :=
  mkRegistry g.(fangs) g.(tasks) g.(started) (<[id := c]> g.(cancellations)).
Definition remove_cancellation (id : str) (g : FangRegistry) : option FangCancellation * FangRegistry :=
  (g.(cancellations) !! id, mkRegistry g.(fangs) g.(tasks) g.(started) (delete id g.(cancellations))).
Definition remove_task (id : str) (g : FangRegistry) : option Task * FangRegistry :=
  (g.(tasks) !! id, mkRegistry g.(fangs) (delete id g.(tasks)) g.(started) g.(cancellations)).
Definition remove_started (id : str) (g : FangRegistry) : FangRegistry :=
  mkRegistry g.(fangs) g.(tasks) (delete id g.(started)) g.(cancellations).

(** In the iteration order of the [HashMap], which is unspecified. *)
Definition finished_ids (w : World) : list str :=
  fst <$> filter (λ x : str * Task, is_finished w.2 x.2 = true) (map_to_list w.1.(tasks)).
Definition remove_finished (dead : list str) (g : FangRegistry) : FangRegistry :=
  drop_records dead
    (foldl (λ g id, forget id g) g dead).

Definition started_at (g : FangRegistry) (id : str) : option Z := s_at <$> g.(started) !! id.
Definition transport_of (g : FangRegistry) (id : str) : option str := s_transport <$> g.(started) !! id.

Definition abort_all (w : World) : World :=
  let '(g, r) := w in
  let r1 := foldl (λ r x, abort_children x.2 r) r (map_to_list g.(cancellations)) in
  let r2 := foldl (λ r x, abort x.2 r) r1 (map_to_list g.(tasks)) in
  (mkRegistry g.(fangs) ∅ g.(started) ∅, r2).
Definition clear_started (g : FangRegistry) : FangRegistry :=
  mkRegistry g.(fangs) g.(tasks) ∅ g.(cancellations).
Definition clear_records (g : FangRegistry) : FangRegistry :=
  mkRegistry [] g.(tasks) g.(started) g.(cancellations).

(** ** [quiesce]: the awaiting of a detached bundle

    Its phases, one per await; between them any task may run. *)
Inductive Phase : Type :=
| AbortListeners
| JoinListeners (waiting : list Task)
| TakeChildren
| JoinChildren (waiting : list Task)
| Quiesced.

(** What the tasks may do at any time: a task that is not finished spawns a
    child through some tracker, or ends. *)
Inductive task_step : Runtime → Runtime → Prop :=
| step_spawn r t c : status_of r t ≠ Finished → task_step r (spawn c r).2
| step_finish r t : is_Some (r.(status) !! t) →
    task_step r (mkRuntime (<[t := Finished]> r.(status)) r.(trackers) r.(owner) r.(next_task)).

(** [take_children] of every tracker of the bundle, in order. *)
Fixpoint take_all (cs : list FangCancellation) (r : Runtime) : list Task * Runtime :=
  match cs with
  | [] => ([], r)
  | c :: cs =>
      let '(ts, r1) := take_children c r in
      let '(rest, r2) := take_all cs r1 in (ts ++ rest, r2)
  end.

Inductive quiesce_step (b : FangTermination) : Phase * Runtime → Phase * Runtime → Prop :=
| q_abort r :
    quiesce_step b (AbortListeners, r) (JoinListeners b.(listeners), abort_all_of b.(listeners) r)
| q_joined_listener r t l : status_of r t = Finished →
    quiesce_step b (JoinListeners (t :: l), r) (JoinListeners l, r)
| q_listeners r : quiesce_step b (JoinListeners [], r) (TakeChildren, r)
| q_take r ts r' : take_all b.(t_cancellations) r = (ts, r') →
    quiesce_step b (TakeChildren, r) (JoinChildren ts, abort_all_of ts r')
| q_joined_child r t l : status_of r t = Finished →
    quiesce_step b (JoinChildren (t :: l), r) (JoinChildren l, r)
| q_done r : quiesce_step b (JoinChildren [], r) (Quiesced, r)
| q_task p r r' : task_step r r' → quiesce_step b (p, r) (p, r').

(** The run of [quiesce] in which every cancelled task ends at once and no
    other task acts. *)
Definition end_all (ts : list Task) (r : Runtime) : Runtime :=
  foldl (λ r t, match r.(status) !! t with
                | Some _ => mkRuntime (<[t := Finished]> r.(status)) r.(trackers) r.(owner) r.(next_task)
                | None => r
                end) r ts.
Definition quiesce (b : FangTermination) (r : Runtime) : Runtime :=
  let r1 := end_all b.(listeners) (abort_all_of b.(listeners) r) in
  let '(ts, r2) := take_all b.(t_cancellations) r1 in
  end_all ts (abort_all_of ts r2).

End Fangs.

Module FangsSpec.
Import Fangs.

(** ** What an abort does to the runtime *)

Definition cancelled (s : TaskStatus) : TaskStatus := match s with Running => Aborted | _ => s end.

(** [r'] is [r] with every task of [ts] cancelled and no other task changed. *)
Definition cancels (ts : list Task) (r r' : Runtime) : Prop :=
  ∀ t, status_of r' t = if decide (t ∈ ts) then cancelled (status_of r t) else status_of r t.

Lemma cancelled_idem s : cancelled (cancelled s) = cancelled s.
Proof. by destruct s. Qed.
Lemma cancelled_stops s : cancelled s ≠ Running.
Proof. by destruct s. Qed.

Lemma cancels_nil r r' : r'.(status) = r.(status) → cancels [] r r'.
Proof. intros E t. rewrite decide_False by set_solver. unfold status_of. by rewrite E. Qed.

Lemma cancels_trans ts1 ts2 ts r r1 r2 :
  cancels ts1 r r1 → cancels ts2 r1 r2 → (∀ t, t ∈ ts ↔ t ∈ ts1 ∨ t ∈ ts2) → cancels ts r r2.
Proof.
  intros C1 C2 E t. rewrite C2, C1.
  destruct (decide (t ∈ ts1)), (decide (t ∈ ts2)), (decide (t ∈ ts)) as [I | I]; rewrite ?cancelled_idem; auto;
    rewrite E in I; tauto.
Qed.

Lemma abort_cancels t r : cancels [t] r (abort t r).
Proof.
  intros t'. unfold abort, status_of.
  destruct (decide (t' ∈ [t])) as [->%list_elem_of_singleton | N].
  - destruct (status r !! t) as [[] |] eqn:E; cbn; rewrite ?lookup_insert_eq, ?E; done.
  - rewrite list_elem_of_singleton in N.
    destruct (status r !! t) as [[] |]; cbn; rewrite ?lookup_insert_ne by congruence; done.
Qed.

Lemma abort_frame t r : (abort t r).(trackers) = r.(trackers) ∧ (abort t r).(owner) = r.(owner)
  ∧ (abort t r).(next_task) = r.(next_task).
Proof. unfold abort. by destruct (status r !! t) as [[] |]. Qed.

Lemma abort_all_of_cancels ts r : cancels ts r (abort_all_of ts r).
Proof.
  unfold abort_all_of. revert r. induction ts as [| t ts IH]; intros r; [by apply cancels_nil |].
  eapply cancels_trans; [apply abort_cancels | apply IH |]. set_solver.
Qed.

Lemma abort_all_of_frame ts r : (abort_all_of ts r).(trackers) = r.(trackers)
  ∧ (abort_all_of ts r).(owner) = r.(owner) ∧ (abort_all_of ts r).(next_task) = r.(next_task).
Proof.
  unfold abort_all_of. revert r. induction ts as [| t ts IH]; intros r; [done |]. cbn [foldl].
  destruct (IH (abort t r)) as (-> & -> & ->). apply abort_frame.
Qed.

Lemma tracker_set c x r c' : tracker (set_tracker c x r) c' = if decide (c' = c) then x else tracker r c'.
Proof.
  unfold tracker, set_tracker. cbn. destruct (decide (c' = c)) as [-> | N].
  - by rewrite lookup_insert_eq.
  - by rewrite lookup_insert_ne.
Qed.

Lemma tracker_same r r' c : r'.(trackers) = r.(trackers) → tracker r' c = tracker r c.
Proof. unfold tracker. by intros ->. Qed.

Lemma abort_children_spec c r :
  cancels (tracker r c).(handles) r (abort_children c r)
  ∧ (∀ c', tracker (abort_children c r) c' = if decide (c' = c) then mkChildTasks false [] else tracker r c')
  ∧ (abort_children c r).(owner) = r.(owner) ∧ (abort_children c r).(next_task) = r.(next_task).
Proof.
  unfold abort_children, take_children, close_admission. rewrite !tracker_set, !decide_True by done.
  cbn [handles accepting]. match goal with |- context [abort_all_of ?ts ?x] =>
    pose proof (abort_all_of_cancels ts x) as C; destruct (abort_all_of_frame ts x) as (T & O & N) end.
  split; [exact C |]. split; [| by rewrite O, N].
  intros c'. rewrite (tracker_same _ _ _ T), !tracker_set. by destruct (decide (c' = c)).
Qed.

(** ** [terminate_ids] *)

(** The trackers and the tasks that closing [ids] reaches. *)
Definition trackers_of (g : FangRegistry) (ids : list str) : list FangCancellation :=
  omap (λ id, g.(cancellations) !! id) ids.
Definition listeners_of (g : FangRegistry) (ids : list str) : list Task := omap (λ id, g.(tasks) !! id) ids.
Definition reached (g : FangRegistry) (r : Runtime) (ids : list str) : list Task :=
  listeners_of g ids ++ (trackers_of g ids ≫= λ c, (tracker r c).(handles)).

(** [g'] is [g] without its entries for [ids]. *)
Definition forgotten (ids : list str) (g g' : FangRegistry) : Prop :=
  ∀ id, g'.(tasks) !! id = (if decide (id ∈ ids) then None else g.(tasks) !! id)
      ∧ g'.(started) !! id = (if decide (id ∈ ids) then None else g.(started) !! id)
      ∧ g'.(cancellations) !! id = (if decide (id ∈ ids) then None else g.(cancellations) !! id).

Lemma lookup_delete_if {A} (m : gmap str A) i j ids :
  (if decide (j ∈ ids) then None else delete i m !! j) = if decide (j ∈ i :: ids) then None else m !! j.
Proof.
  destruct (decide (j ∈ ids)) as [I | I]; [by rewrite decide_True by by right |].
  destruct (decide (j = i)) as [-> | N].
  - rewrite lookup_delete_eq, decide_True by by left. done.
  - rewrite lookup_delete_ne, decide_False by set_solver. done.
Qed.

Lemma elem_trackers_of g ids c : c ∈ trackers_of g ids ↔ ∃ id, id ∈ ids ∧ g.(cancellations) !! id = Some c.
Proof. apply list_elem_of_omap. Qed.
Lemma elem_listeners_of g ids t : t ∈ listeners_of g ids ↔ ∃ id, id ∈ ids ∧ g.(tasks) !! id = Some t.
Proof. apply list_elem_of_omap. Qed.
Lemma elem_reached g r ids t : t ∈ reached g r ids ↔
  (∃ id, id ∈ ids ∧ g.(tasks) !! id = Some t)
  ∨ ∃ id c, id ∈ ids ∧ g.(cancellations) !! id = Some c ∧ t ∈ (tracker r c).(handles).
Proof.
  unfold reached. rewrite elem_of_app, elem_listeners_of, list_elem_of_bind. setoid_rewrite elem_trackers_of.
  naive_solver.
Qed.

Lemma trackers_of_cons g id ids c : c ∈ trackers_of g (id :: ids) ↔
  c ∈ trackers_of g [id] ∨ c ∈ trackers_of (forget id g) ids.
Proof.
  rewrite !elem_trackers_of. cbn. setoid_rewrite list_elem_of_singleton. setoid_rewrite elem_of_cons.
  setoid_rewrite lookup_delete_Some. split; [| naive_solver].
  intros (j & [-> | I] & L); [naive_solver |]. destruct (decide (id = j)) as [-> | N]; naive_solver.
Qed.
Lemma listeners_of_cons g id ids t : t ∈ listeners_of g (id :: ids) ↔
  t ∈ listeners_of g [id] ∨ t ∈ listeners_of (forget id g) ids.
Proof.
  rewrite !elem_listeners_of. cbn. setoid_rewrite list_elem_of_singleton. setoid_rewrite elem_of_cons.
  setoid_rewrite lookup_delete_Some. split; [| naive_solver].
  intros (j & [-> | I] & L); [naive_solver |]. destruct (decide (id = j)) as [-> | N]; naive_solver.
Qed.

Lemma forgotten_cons g g' id ids : forgotten ids (forget id g) g' → forgotten (id :: ids) g g'.
Proof. intros G j. destruct (G j) as (-> & -> & ->). cbn. by rewrite !lookup_delete_if. Qed.
Lemma forgotten_nil g : forgotten [] g g.
Proof. intros id. rewrite !decide_False by set_solver. done. Qed.

Lemma terminate_one_spec g r id : let w := terminate_one (g, r) id in
  w.1 = forget id g
  ∧ cancels (reached g r [id]) r w.2
  ∧ (∀ c, tracker w.2 c = if decide (c ∈ trackers_of g [id]) then mkChildTasks false [] else tracker r c).
Proof.
  cbn [terminate_one]. split; [done |]. cbn [snd].
  set (r1 := match g.(tasks) !! id with Some t => abort t r | None => r end).
  assert (cancels (listeners_of g [id]) r r1 ∧ r1.(trackers) = r.(trackers)) as [C1 T1].
  { subst r1. unfold listeners_of. cbn. destruct (tasks g !! id) as [t |]; [| by split; [apply cancels_nil |]].
    split; [apply abort_cancels | apply abort_frame]. }
  unfold reached, trackers_of. cbn [omap list_omap]. destruct (cancellations g !! id) as [c |]; cbn [mbind list_bind].
  - destruct (abort_children_spec c r1) as (C2 & T2 & _). rewrite (tracker_same _ _ _ T1) in C2.
    split; [eapply cancels_trans; [exact C1 | exact C2 |]; intros t; rewrite app_nil_r; set_solver |].
    intros c'. rewrite T2, (tracker_same _ _ _ T1).
    destruct (decide (c' = c)), (decide (c' ∈ [c])) as [I | I]; rewrite list_elem_of_singleton in I; done.
  - rewrite app_nil_r. split; [exact C1 |]. intros c'. rewrite decide_False by set_solver.
    by apply tracker_same.
Qed.

Lemma terminate_fold_spec ids g r : let w := foldl terminate_one (g, r) ids in
  w.1.(fangs) = g.(fangs) ∧ forgotten ids g w.1 ∧ cancels (reached g r ids) r w.2
  ∧ (∀ c, tracker w.2 c = if decide (c ∈ trackers_of g ids) then mkChildTasks false [] else tracker r c).
Proof.
  revert g r. induction ids as [| id ids IH]; intros g r; cbn [foldl].
  { split; [done |]. split; [| split; [by apply cancels_nil |]].
    - apply forgotten_nil.
    - intros c. rewrite decide_False by set_solver. done. }
  pose proof (terminate_one_spec g r id) as (E & C & T).
  destruct (terminate_one (g, r) id) as [g1 r1]. cbn [fst snd] in E, C, T. subst g1.
  specialize (IH (forget id g) r1).
  destruct IH as (F & G & C2 & T2). cbn [fangs] in F. split; [exact F |]. split; [| split].
  - by apply forgotten_cons.
  - eapply cancels_trans; [exact C | exact C2 |]. intros t. rewrite !elem_reached. cbn.
    setoid_rewrite list_elem_of_singleton. setoid_rewrite elem_of_cons. setoid_rewrite T.
    setoid_rewrite lookup_delete_Some. split.
    + intros [(j & [-> | I] & L) | (j & c & [-> | I] & L & J)]; [naive_solver | | naive_solver |].
      * destruct (decide (id = j)) as [-> | N]; naive_solver.
      * destruct (decide (c ∈ trackers_of g [id])) as [D | D].
        { apply elem_trackers_of in D as (k & ->%list_elem_of_singleton & K). left; right. eauto. }
        right; right. exists j, c. rewrite decide_False by done. repeat split; [done | | done..].
        intros ->. apply D, elem_trackers_of. exists j. set_solver.
    + intros [[(j & -> & L) | (j & c & -> & L & J)] | [(j & I & N & L) | (j & c & I & [N L] & J)]];
        [naive_solver.. |]. right. exists j, c. repeat split; [auto.. |].
      destruct (decide (c ∈ trackers_of g [id])); [by apply not_elem_of_nil in J | done].
  - intros c. rewrite T2, T. pose proof (trackers_of_cons g id ids c) as E.
    destruct (decide (c ∈ trackers_of g (id :: ids))), (decide (c ∈ trackers_of g [id])),
      (decide (c ∈ trackers_of (forget id g) ids)); tauto.
Qed.

(** No record that used the peer is left once its ids are dropped. *)
Lemma dropped_none peer g g1 :
  g1.(fangs) = g.(fangs) → forgotten (ids_using_peer g peer) g g1 →
  ids_using_peer (drop_records (ids_using_peer g peer) g1) peer = [].
Proof.
  intros F G. apply elem_of_nil_inv. intros i (f & _ & [U' I']%list_elem_of_filter)%list_elem_of_fmap.
  unfold drop_records in I'. cbn [fangs] in I'. rewrite F in I'. apply list_elem_of_filter in I' as [N I].
  revert U'. unfold uses_peer. cbn [started drop_records]. destruct (G f.(f_id)) as (_ & -> & _).
  rewrite decide_False by done. intros U. apply N, list_elem_of_fmap. exists f. split; [done |].
  by apply list_elem_of_filter.
Qed.

Lemma terminate_peer_none peer g r : ids_using_peer (terminate_peer peer (g, r)).2.1 peer = [].
Proof.
  unfold terminate_peer, terminate_ids. cbn [fst]. pose proof (terminate_fold_spec (ids_using_peer g peer) g r) as S.
  destruct (foldl terminate_one (g, r) _) as [g1 r1]. destruct S as (F & G & _). by apply dropped_none.
Qed.

(** [terminate_peer] closes exactly the Fangs that depend on the peer
    (as its target, its relay or a provider). No record that uses the peer
    is left and the others keep their order; the listener, the start entry
    and the tracker of each closed id are forgotten and those of the other
    ids untouched; every listener and every tracked child of a closed id is
    cancelled, its tracker accepts no child any more, and no other task or
    tracker changes. The count returned is the number of records removed. *)
Lemma terminate_peer_effect (peer : str) (g : FangRegistry) (r : Runtime) :
  let ids := ids_using_peer g peer in
  let '(n, (g', r')) := terminate_peer peer (g, r) in
  g'.(fangs) = filter (λ f, f.(f_id) ∉ ids) g.(fangs)
  ∧ ids_using_peer g' peer = []
  ∧ forgotten ids g g'
  ∧ cancels (reached g r ids) r r'
  ∧ (∀ c, c ∈ trackers_of g ids → spawn c r' = (false, r'))
  ∧ (∀ c, c ∉ trackers_of g ids → tracker r' c = tracker r c)
  ∧ n = length (filter (λ f, uses_peer g peer f = true) g.(fangs)).
Proof.
  intros ids. subst ids. unfold terminate_peer, terminate_ids. cbn [fst].
  set (ids := ids_using_peer g peer).
  pose proof (terminate_fold_spec ids g r) as S. destruct (foldl terminate_one (g, r) ids) as [g1 r1].
  cbn [fst snd] in S. destruct S as (F & G & C & T).
  split; [unfold drop_records; cbn [fangs]; by rewrite F |]. split; [| repeat split].
  - by apply dropped_none.
  - apply G.
  - apply G.
  - apply G.
  - exact C.
  - intros c I. unfold spawn. rewrite T, decide_True by done. done.
  - intros c I. by rewrite T, decide_False.
  - subst ids. unfold ids_using_peer. by rewrite length_fmap.
Qed.

(** ** The join barrier *)

(** Every unfinished child of the tracker has its handle in it. *)
Definition tracked (r : Runtime) (c : FangCancellation) : Prop :=
  Forall (λ t, t < r.(next_task)) (tracker r c).(handles)
  ∧ ∀ t, r.(owner) !! t = Some c → status_of r t ≠ Finished → t ∈ (tracker r c).(handles).

(** No child of the tracker runs outside [w]. *)
Definition held (r : Runtime) (w : list Task) (c : FangCancellation) : Prop :=
  ∀ t, r.(owner) !! t = Some c → status_of r t ≠ Finished → t ∈ w.

(** A task that cannot run user code past its next suspension point. *)
Definition stopping (r : Runtime) (t : Task) : Prop := t < r.(next_task) ∧ status_of r t ≠ Running.
Definition stopped (r : Runtime) (t : Task) : Prop := t < r.(next_task) ∧ status_of r t = Finished.

(** Where the bundle stands in each phase of [quiesce]. *)
Definition quiesce_inv (b : FangTermination) (x : Phase * Runtime) : Prop :=
  let '(p, r) := x in
  Forall (λ c, (tracker r c).(accepting) = false) b.(t_cancellations)
  ∧ Forall (λ t, t < r.(next_task)) b.(listeners)
  ∧ match p with
    | AbortListeners => Forall (tracked r) b.(t_cancellations)
    | JoinListeners w =>
        Forall (stopping r) w ∧ Forall (tracked r) b.(t_cancellations)
        ∧ ∀ t, t ∈ b.(listeners) → t ∈ w ∨ stopped r t
    | TakeChildren => Forall (tracked r) b.(t_cancellations) ∧ Forall (stopped r) b.(listeners)
    | JoinChildren w =>
        Forall (stopping r) w ∧ Forall (held r w) b.(t_cancellations)
        ∧ Forall (stopped r) b.(listeners)
    | Quiesced => Forall (held r []) b.(t_cancellations) ∧ Forall (stopped r) b.(listeners)
    end.

Lemma status_insert r t s t' tr ow n :
  status_of (mkRuntime (<[t := s]> r.(status)) tr ow n) t' = if decide (t' = t) then s else status_of r t'.
Proof.
  unfold status_of. cbn. destruct (decide (t' = t)) as [-> | N].
  - by rewrite lookup_insert_eq.
  - by rewrite lookup_insert_ne.
Qed.

Lemma spawn_closed c r : (tracker r c).(accepting) = false → spawn c r = (false, r).
Proof. unfold spawn. by intros ->. Qed.

(** A step of the tasks keeps what is said of a closed tracker, and never
    revives a task. *)
Record kept (r r' : Runtime) : Prop := mkKept {
  k_next : r.(next_task) ≤ r'.(next_task);
  k_stopping : ∀ t, t < r.(next_task) → status_of r t ≠ Running → status_of r' t ≠ Running;
  k_stopped : ∀ t, t < r.(next_task) → status_of r t = Finished → status_of r' t = Finished;
  k_closed : ∀ c, (tracker r c).(accepting) = false → (tracker r' c).(accepting) = false;
  k_tracked : ∀ c, tracked r c → tracked r' c;
  k_held : ∀ c w, (tracker r c).(accepting) = false → held r w c → held r' w c
}.

Lemma task_step_kept r r' : task_step r r' → kept r r'.
Proof.
  destruct 1 as [r t c S | r t S].
  - unfold spawn. destruct (accepting (tracker r c)) eqn:A; [| by constructor; auto].
    cbn [snd]. split; cbn [next_task].
    + lia.
    + intros u L. rewrite status_insert, decide_False by lia. done.
    + intros u L. rewrite status_insert, decide_False by lia. done.
    + intros c' B. unfold tracker in *. cbn [trackers]. destruct (decide (c' = c)) as [-> | N].
      * congruence.
      * by rewrite lookup_insert_ne.
    + intros c' [B K]. unfold tracked, tracker in *. cbn [next_task trackers owner].
      destruct (decide (c' = c)) as [-> | M]; [rewrite lookup_insert_eq | rewrite lookup_insert_ne by done];
        cbn [from_option id handles].
      * split.
        -- apply Forall_app. split; [| by apply Forall_singleton; lia].
           apply Forall_forall. intros u [_ I]%list_elem_of_filter. rewrite Forall_forall in B.
           specialize (B u I). cbn in B. lia.
        -- intros u. rewrite status_insert, elem_of_app, list_elem_of_filter.
           destruct (decide (u = next_task r)) as [-> | N]; [set_solver |].
           rewrite lookup_insert_ne by done. intros O U. left. split; [| by apply K].
           unfold is_finished. by apply bool_decide_eq_false.
      * split; [eapply Forall_impl; [exact B |]; cbn; lia |].
        intros u. rewrite status_insert. destruct (decide (u = next_task r)) as [-> | N].
        -- rewrite lookup_insert_eq. congruence.
        -- rewrite lookup_insert_ne by done. apply K.
    + intros c' w B K u. cbn [owner]. rewrite status_insert.
      destruct (decide (u = next_task r)) as [-> | N].
      * rewrite lookup_insert_eq. intros [= <-]. congruence.
      * rewrite lookup_insert_ne by done. apply K.
  - split; cbn [next_task]; [lia | | | done | |].
    + intros u L. rewrite status_insert. by destruct (decide (u = t)).
    + intros u L. rewrite status_insert. by destruct (decide (u = t)).
    + intros c [B K]. split; [exact B |]. intros u. rewrite status_insert.
      destruct (decide (u = t)); [done | apply K].
    + intros c w B K u. rewrite status_insert. destruct (decide (u = t)); [done | apply K].
Qed.

Lemma kept_stopping r r' t : kept r r' → stopping r t → stopping r' t.
Proof. intros K [L S]. split; [pose proof (k_next _ _ K); lia | by apply K]. Qed.
Lemma kept_stopped r r' t : kept r r' → stopped r t → stopped r' t.
Proof. intros K [L S]. split; [pose proof (k_next _ _ K); lia | by apply K]. Qed.

Lemma abort_all_of_kept ts r : kept r (abort_all_of ts r).
Proof.
  pose proof (abort_all_of_cancels ts r) as C. destruct (abort_all_of_frame ts r) as (T & O & N).
  assert (∀ t, status_of (abort_all_of ts r) t ≠ Finished → status_of r t ≠ Finished) as U.
  { intros t. rewrite C. destruct (decide (t ∈ ts)), (status_of r t); cbn; congruence. }
  split; unfold tracked, held, tracker in *; rewrite ?T, ?O, ?N; auto.
  - intros t _. rewrite C. destruct (decide (t ∈ ts)), (status_of r t); cbn; congruence.
  - intros t _. rewrite C. destruct (decide (t ∈ ts)), (status_of r t); cbn; congruence.
  - intros c [B K]. split; [exact B | auto].
Qed.

(** The phases that only wait keep the invariant. *)
Lemma kept_quiesce b p r r' : kept r r' → quiesce_inv b (p, r) → quiesce_inv b (p, r').
Proof.
  intros K (A & L & P). pose proof (k_next _ _ K).
  assert (∀ w, Forall (stopping r) w → Forall (stopping r') w) as KS.
  { intros w F. eapply Forall_impl; [exact F |]. intros t. by apply kept_stopping. }
  assert (∀ w, Forall (stopped r) w → Forall (stopped r') w) as KD.
  { intros w F. eapply Forall_impl; [exact F |]. intros t. by apply kept_stopped. }
  assert (∀ cs, Forall (tracked r) cs → Forall (tracked r') cs) as KT.
  { intros cs F. eapply Forall_impl; [exact F |]. intros c. apply K. }
  assert (∀ w, Forall (held r w) b.(t_cancellations) → Forall (held r' w) b.(t_cancellations)) as KH.
  { intros w F. rewrite Forall_forall in A, F |- *. intros c I. apply K; auto. }
  split; [eapply Forall_impl; [exact A |]; intros c; apply K |].
  split; [eapply Forall_impl; [exact L |]; cbn; lia |].
  destruct p; [by auto | | by destruct P; auto | |by destruct P; auto].
  - destruct P as (W & T & D). repeat split; auto. intros t I. destruct (D t I); [by left |].
    right. by eapply kept_stopped.
  - destruct P as (W & T & D). auto.
Qed.

Lemma take_all_spec cs r ts r' : take_all cs r = (ts, r') →
  r'.(status) = r.(status) ∧ r'.(owner) = r.(owner) ∧ r'.(next_task) = r.(next_task)
  ∧ (∀ c, (tracker r' c).(accepting) = (tracker r c).(accepting))
  ∧ (∀ t, t ∈ ts ↔ ∃ c, c ∈ cs ∧ t ∈ (tracker r c).(handles)).
Proof.
  revert r ts r'. induction cs as [| c cs IH]; intros r ts r'; cbn [take_all take_children].
  { intros [= <- <-]. set_solver. }
  destruct (take_all cs _) as [rest r2] eqn:E. intros [= <- <-]. apply IH in E as (-> & -> & -> & A & T).
  repeat split; auto.
  - intros c'. rewrite A, tracker_set. by destruct (decide (c' = c)) as [-> |].
  - intros [I | (c' & I & J)%T]%elem_of_app; [exists c; set_solver |].
    rewrite tracker_set in J. destruct (decide (c' = c)); cbn in J; [by apply not_elem_of_nil in J |].
    exists c'. set_solver.
  - intros (c' & [-> | I]%elem_of_cons & J); apply elem_of_app; [by left |].
    destruct (decide (c' = c)) as [-> | N]; [by left | right]. apply T. exists c'.
    by rewrite tracker_set, decide_False.
Qed.

Lemma quiesce_step_inv b x y : quiesce_step b x y → quiesce_inv b x → quiesce_inv b y.
Proof.
  destruct 1 as [r | r t l S | r | r ts r' E | r t l S | r | p r r' S]; intros I.
  - destruct (abort_all_of_frame b.(listeners) r) as (T & O & N).
    pose proof (kept_quiesce b AbortListeners _ _ (abort_all_of_kept b.(listeners) r) I) as (A & L & P).
    split; [done |]. split; [done |]. split; [| auto].
    apply Forall_forall. intros t J. split; [by rewrite Forall_forall in L; apply L |].
    rewrite abort_all_of_cancels, decide_True by done. apply cancelled_stops.
  - destruct I as (A & L & W & T & D). repeat split; auto.
    + by apply Forall_cons in W as [_ ?].
    + intros u J. destruct (D u J) as [[-> | K]%elem_of_cons | K]; auto. right. split; [| done].
      apply Forall_cons in W as [[? _] _]. done.
  - destruct I as (A & L & W & T & D). repeat split; auto. apply Forall_forall. intros t J.
    destruct (D t J) as [K | K]; [by apply not_elem_of_nil in K | done].
  - destruct I as (A & L & T & D). apply take_all_spec in E as (ES & EO & EN & EA & ET).
    assert (∀ t, status_of r' t = status_of r t) as SS by (intros t; unfold status_of; by rewrite ES).
    pose proof (abort_all_of_kept ts r') as K. rewrite Forall_forall in A, T.
    assert (∀ t, t ∈ ts → t < r'.(next_task)) as LT.
    { intros t (c & J & H)%ET. destruct (T c J) as [B _]. rewrite Forall_forall in B. rewrite EN. by apply B. }
    split; [apply Forall_forall; intros c J; apply K; rewrite EA; by apply A |].
    split; [eapply Forall_impl; [exact L |]; pose proof (k_next _ _ K); cbn; lia |].
    split; [| split].
    + apply Forall_forall. intros t J. split; [pose proof (k_next _ _ K); specialize (LT t J); lia |].
      rewrite abort_all_of_cancels, decide_True by done. apply cancelled_stops.
    + apply Forall_forall. intros c J. apply K; [rewrite EA; by apply A |].
      intros t O U. rewrite EO in O. rewrite SS in U. apply ET. exists c. split; [done |]. by apply (T c J).
    + eapply Forall_impl; [exact D |]. intros t [B F]. apply (kept_stopped _ _ _ K).
      split; [by rewrite EN | by rewrite SS].
  - destruct I as (A & L & W & T & D). apply Forall_cons in W as [_ W]. repeat split; auto.
    eapply Forall_impl; [exact T |]. intros c Hc u O U. destruct (elem_of_cons l u t) as [E _].
    destruct (E (Hc u O U)) as [-> | ?]; done.
  - destruct I as (A & L & W & T & D). done.
  - eapply kept_quiesce; [by apply task_step_kept | done].
Qed.

(** ** [detach_ids] *)

(** A detached bundle: what the registry had for [ids]. *)
Record detached (ids : list str) (g : FangRegistry) (r : Runtime)
    (t : FangTermination) (g' : FangRegistry) (r' : Runtime) : Prop := mkDetached {
  d_entries : forgotten ids g g';
  d_fangs : g'.(fangs) = g.(fangs);
  d_status : r'.(status) = r.(status);
  d_owner : r'.(owner) = r.(owner);
  d_next : r'.(next_task) = r.(next_task);
  d_handles : ∀ c, (tracker r' c).(handles) = (tracker r c).(handles);
  d_accepting : ∀ c, (tracker r' c).(accepting) =
    if decide (c ∈ trackers_of g ids) then false else (tracker r c).(accepting)
}.

Lemma close_admission_tracker c r c' : tracker (close_admission c r) c' =
  mkChildTasks (if decide (c' = c) then false else (tracker r c').(accepting)) (tracker r c').(handles).
Proof.
  unfold close_admission. rewrite tracker_set. destruct (decide (c' = c)) as [-> |]; [done |].
  by destruct (tracker r c').
Qed.

Lemma detach_fold_spec ids t g r : let '(t', (g', r')) := foldl detach_one (t, (g, r)) ids in
  detached ids g r t' g' r'
  ∧ (∀ c, c ∈ t'.(t_cancellations) ↔ c ∈ t.(t_cancellations) ∨ c ∈ trackers_of g ids)
  ∧ (∀ l, l ∈ t'.(listeners) ↔ l ∈ t.(listeners) ∨ l ∈ listeners_of g ids).
Proof.
  revert t g r. induction ids as [| id ids IH]; intros t g r; cbn [foldl].
  { split; [| set_solver]. split; [apply forgotten_nil | done..]. }
  destruct (detach_one (t, (g, r)) id) as [t1 [g1 r1]] eqn:E. cbn [detach_one] in E.
  assert (g1 = forget id g ∧ r1.(status) = r.(status) ∧ r1.(owner) = r.(owner) ∧ r1.(next_task) = r.(next_task)
    ∧ (∀ c, (tracker r1 c).(handles) = (tracker r c).(handles))
    ∧ (∀ c, (tracker r1 c).(accepting) = if decide (c ∈ trackers_of g [id]) then false else (tracker r c).(accepting))
    ∧ (∀ c, c ∈ t1.(t_cancellations) ↔ c ∈ t.(t_cancellations) ∨ c ∈ trackers_of g [id])
    ∧ (∀ l, l ∈ t1.(listeners) ↔ l ∈ t.(listeners) ∨ l ∈ listeners_of g [id])) as (-> & S & O & N & HH & A & C & L).
  { unfold trackers_of, listeners_of. cbn [omap list_omap].
    destruct (cancellations g !! id) as [c |] eqn:EC; injection E as <- <- <-; cbn [t_cancellations listeners].
    - split; [done |]. split; [done |]. split; [done |]. split; [done |]. split; [| split; [| split]].
      + intros c'. by rewrite close_admission_tracker.
      + intros c'. rewrite close_admission_tracker. cbn [accepting].
        destruct (decide (c' = c)), (decide (c' ∈ [c])) as [I | I]; rewrite list_elem_of_singleton in I; done.
      + set_solver.
      + destruct (tasks g !! id); set_solver.
    - do 6 (split; [done || (intros; rewrite ?decide_False by apply not_elem_of_nil; done) |]).
      destruct (tasks g !! id); set_solver. }
  specialize (IH t1 (forget id g) r1). destruct (foldl detach_one _ ids) as [t' [g' r']].
  destruct IH as ([D1 D2 D3 D4 D5 D6 D7] & D8 & D9). split; [split |].
  - by apply forgotten_cons.
  - done.
  - by rewrite D3.
  - by rewrite D4.
  - by rewrite D5.
  - intros c. by rewrite D6.
  - intros c. rewrite D7, A. pose proof (trackers_of_cons g id ids c) as E'.
    destruct (decide (c ∈ trackers_of g (id :: ids))), (decide (c ∈ trackers_of g [id])),
      (decide (c ∈ trackers_of (forget id g) ids)); first [done | tauto].
  - split; [intros c; rewrite D8, C, (trackers_of_cons g id ids); tauto | intros l; rewrite D9, L, (listeners_of_cons g id ids); tauto].
Qed.

Lemma detach_peer_none peer g r : ids_using_peer (detach_ids (ids_using_peer g peer) (g, r)).2.1 peer = [].
Proof.
  unfold detach_ids. pose proof (detach_fold_spec (ids_using_peer g peer) (mkTermination [] [] 0) g r) as S.
  destruct (foldl detach_one _ _) as [t1 [g1 r1]]. destruct S as ([D1 D2 _ _ _ _ _] & _). by apply dropped_none.
Qed.

(** A registry whose handles are live: tasks were spawned before, and
    every tracker still holds its unfinished children. *)
Definition registry_ok (g : FangRegistry) (r : Runtime) : Prop :=
  (∀ id t, g.(tasks) !! id = Some t → t < r.(next_task))
  ∧ (∀ id c, g.(cancellations) !! id = Some c → tracked r c).

Lemma detach_inv ids g r t g' r' :
  registry_ok g r → detach_ids ids (g, r) = (t, (g', r')) →
  quiesce_inv t (AbortListeners, r') ∧ (∀ c, c ∈ t.(t_cancellations) ↔ c ∈ trackers_of g ids)
  ∧ (∀ l, l ∈ t.(listeners) ↔ l ∈ listeners_of g ids).
Proof.
  intros [OT OC]. unfold detach_ids. pose proof (detach_fold_spec ids (mkTermination [] [] 0) g r) as S.
  destruct (foldl detach_one _ ids) as [t1 [g1 r1]]. destruct S as ([D1 D2 D3 D4 D5 D6 D7] & D8 & D9).
  intros [= -> <- ->]. cbn in D8, D9.
  assert (∀ c, c ∈ t_cancellations t ↔ c ∈ trackers_of g ids) as EC by (intros c; rewrite D8; set_solver).
  assert (∀ l, l ∈ listeners t ↔ l ∈ listeners_of g ids) as EL by (intros c; rewrite D9; set_solver).
  split; [| done]. split; [| split].
  - apply Forall_forall. intros c I. by rewrite D7, decide_True by by apply EC.
  - apply Forall_forall. intros l I. rewrite D5. apply EL, elem_listeners_of in I as (id & _ & E). eauto.
  - apply Forall_forall. intros c I. apply EC, elem_trackers_of in I as (id & _ & E).
    destruct (OC _ _ E) as [B K]. unfold tracked, status_of. by rewrite D3, D4, D5, D6.
Qed.

Lemma kept_steps r r' : rtc task_step r r' → kept r r'.
Proof.
  induction 1 as [r | r r1 r' S _ IH]; [by split |].
  apply task_step_kept in S. pose proof (k_next _ _ S). pose proof (k_next _ _ IH). split.
  - lia.
  - intros t L U. apply IH; [lia |]. by apply S.
  - intros t L U. apply IH; [lia |]. by apply S.
  - intros c U. by apply IH, S.
  - intros c U. by apply IH, S.
  - intros c w A U. apply IH; by apply S.
Qed.

Lemma quiesce_reach b x y : rtc (quiesce_step b) x y → quiesce_inv b x → quiesce_inv b y.
Proof. induction 1; eauto using quiesce_step_inv. Qed.

(** The join barrier. *)
Lemma barrier (ids : list str) g r b g' r1 r2 r3 :
  registry_ok g r →
  detach_ids ids (g, r) = (b, (g', r1)) →
  rtc (quiesce_step b) (AbortListeners, r1) (Quiesced, r2) →
  rtc task_step r2 r3 →
  (∀ t, t ∈ listeners_of g ids → status_of r3 t = Finished)
  ∧ (∀ t c, c ∈ trackers_of g ids → r3.(owner) !! t = Some c → status_of r3 t = Finished)
  ∧ (∀ c, c ∈ trackers_of g ids → spawn c r3 = (false, r3)).
Proof.
  intros OK D Q S. destruct (detach_inv _ _ _ _ _ _ OK D) as (I & EC & EL).
  pose proof (kept_quiesce b Quiesced _ _ (kept_steps _ _ S) (quiesce_reach _ _ _ Q I)) as (A & L & W & F).
  rewrite Forall_forall in A, W, F. repeat split.
  - intros t J%EL. by apply F.
  - intros t c J%EC O. destruct (decide (status_of r3 t = Finished)) as [E | U]; [done |].
    apply (W c J t O) in U. by apply not_elem_of_nil in U.
  - intros c J%EC. by apply spawn_closed, A.
Qed.

(** One task can always be brought to its end. *)
Lemma finish_one b p r t : ∃ r', rtc (quiesce_step b) (p, r) (p, r') ∧ status_of r' t = Finished.
Proof.
  destruct (status r !! t) as [s |] eqn:E.
  - eexists. split; [apply rtc_once, q_task, (step_finish r t); eauto |]. by rewrite status_insert, decide_True.
  - exists r. split; [done |]. unfold status_of. by rewrite E.
Qed.

Lemma end_all_steps b p ts : ∀ r, rtc (quiesce_step b) (p, r) (p, end_all ts r).
Proof.
  unfold end_all. induction ts as [| t ts IH]; intros r; [done |]. cbn [foldl].
  etrans; [| apply IH]. destruct (status r !! t) eqn:E; [| done]. apply rtc_once, q_task, step_finish. eauto.
Qed.

Lemma end_all_ends ts : ∀ r t, t ∈ ts ∨ status_of r t = Finished → status_of (end_all ts r) t = Finished.
Proof.
  unfold end_all. induction ts as [| u ts IH]; intros r t I; [set_solver |]. cbn [foldl]. apply IH.
  destruct (decide (t ∈ ts)) as [J | J]; [by left | right].
  destruct (status r !! u) eqn:E.
  - rewrite status_insert. destruct (decide (t = u)); [done |]. set_solver.
  - destruct I as [[-> | I]%elem_of_cons | I]; [| done..]. unfold status_of. by rewrite E.
Qed.

Lemma join_all b ts r : (∀ t, t ∈ ts → status_of r t = Finished) →
  rtc (quiesce_step b) (JoinListeners ts, r) (JoinListeners [], r)
  ∧ rtc (quiesce_step b) (JoinChildren ts, r) (JoinChildren [], r).
Proof.
  induction ts as [| t ts IH]; intros F; [done |]. destruct IH as [A B]; [set_solver |].
  split; (eapply rtc_l; [| done]); constructor; apply F; by left.
Qed.

(** The function is one of the runs. *)
Lemma quiesce_runs b r : rtc (quiesce_step b) (AbortListeners, r) (Quiesced, quiesce b r).
Proof.
  unfold quiesce. eapply rtc_l; [apply q_abort |]. etrans; [apply (end_all_steps _ _ b.(listeners)) |].
  etrans; [apply join_all; intros t I; apply end_all_ends; by left |]. eapply rtc_l; [apply q_listeners |].
  destruct (take_all _ _) as [ts r2] eqn:E. eapply rtc_l; [by apply q_take |].
  etrans; [apply (end_all_steps _ _ ts) |]. etrans; [apply join_all; intros t I; apply end_all_ends; by left |].
  apply rtc_once, q_done.
Qed.

Lemma join_listeners b w r : ∃ r', rtc (quiesce_step b) (JoinListeners w, r) (TakeChildren, r').
Proof.
  revert r. induction w as [| t w IH]; intros r; [exists r; apply rtc_once; constructor |].
  destruct (finish_one b (JoinListeners (t :: w)) r t) as (r1 & R & F). destruct (IH r1) as [r2 R2].
  exists r2. etrans; [exact R |]. eapply rtc_l; [by apply q_joined_listener | exact R2].
Qed.

Lemma join_children b w r : ∃ r', rtc (quiesce_step b) (JoinChildren w, r) (Quiesced, r').
Proof.
  revert r. induction w as [| t w IH]; intros r; [exists r; apply rtc_once; constructor |].
  destruct (finish_one b (JoinChildren (t :: w)) r t) as (r1 & R & F). destruct (IH r1) as [r2 R2].
  exists r2. etrans; [exact R |]. eapply rtc_l; [by apply q_joined_child | exact R2].
Qed.

Lemma quiesce_can_end b p r : ∃ r', rtc (quiesce_step b) (p, r) (Quiesced, r').
Proof.
  assert (∀ r, ∃ r', rtc (quiesce_step b) (TakeChildren, r) (Quiesced, r')) as T.
  { intros s. destruct (take_all b.(t_cancellations) s) as [ts s'] eqn:E.
    destruct (join_children b ts (abort_all_of ts s')) as [r2 R]. exists r2.
    eapply rtc_l; [by apply q_take | exact R]. }
  assert (∀ w r, ∃ r', rtc (quiesce_step b) (JoinListeners w, r) (Quiesced, r')) as J.
  { intros w s. destruct (join_listeners b w s) as [r1 R1]. destruct (T r1) as [r2 R2]. exists r2. by etrans. }
  destruct p; [| apply J | apply T | apply join_children | by exists r].
  destruct (J b.(listeners) (abort_all_of b.(listeners) r)) as [r2 R]. exists r2.
  eapply rtc_l; [apply q_abort | exact R].
Qed.

(** [quiesce] never waits for a task that it has not cancelled: whenever
    it waits, the task it waits for is stopping or finished, under any
    interleaving with the tasks; so it completes as soon as the cancelled
    tasks reach a suspension point, and from every state there is a run that
    completes it. *)
Theorem quiesce_waits_for_cancelled (ids : list str) g r b g' r1 p r2 :
  registry_ok g r →
  detach_ids ids (g, r) = (b, (g', r1)) →
  rtc (quiesce_step b) (AbortListeners, r1) (p, r2) →
  (∀ t w, p = JoinListeners (t :: w) ∨ p = JoinChildren (t :: w) → status_of r2 t ≠ Running)
  ∧ ∃ r3, rtc (quiesce_step b) (p, r2) (Quiesced, r3).
Proof.
  intros OK D Q. destruct (detach_inv _ _ _ _ _ _ OK D) as (I & EC & EL).
  pose proof (quiesce_reach _ _ _ Q I) as I2. split.
  - intros t w [-> | ->]; destruct I2 as (_ & _ & W & _); by apply Forall_cons in W as [[_ U] _].
  - apply quiesce_can_end.
Qed.

(** ** The registry is kept well formed by its own operations *)

(** What the daemon does with registry and runtime: the operations above,
    the tasks' own steps, a listener being spawned, and the aborts and takes
    on trackers that are no longer registered ([FangTermination]). *)
Inductive world_step : World → World → Prop :=
| ws_task g r r' : task_step r r' → world_step (g, r) (g, r')
| ws_listen g r :
    world_step (g, r)
      (g, mkRuntime (<[r.(next_task) := Running]> r.(status)) r.(trackers) r.(owner) (S r.(next_task)))
| ws_abort g r t : world_step (g, r) (g, abort t r)
| ws_abort_children g r c : (∀ id, g.(cancellations) !! id ≠ Some c) → world_step (g, r) (g, abort_children c r)
| ws_take g r c : (∀ id, g.(cancellations) !! id ≠ Some c) → (tracker r c).(accepting) = false →
    world_step (g, r) (g, (take_children c r).2)
| ws_push g r f : world_step (g, r) (push f g, r)
| ws_retain g r keep : world_step (g, r) (retain_records keep g, r)
| ws_insert_task g r id t : t < r.(next_task) → world_step (g, r) (insert_task id t g, r)
| ws_insert_started g r id at_ tr uses : world_step (g, r) (insert_started id at_ tr uses g, r)
| ws_insert_cancellation g r id c : (tracker r c).(accepting) = true →
    (∀ j, g.(cancellations) !! j ≠ Some c) → world_step (g, r) (insert_cancellation id c g, r)
| ws_remove_task g r id : world_step (g, r) ((remove_task id g).2, r)
| ws_remove_started g r id : world_step (g, r) (remove_started id g, r)
| ws_remove_cancellation g r id : world_step (g, r) ((remove_cancellation id g).2, r)
| ws_remove_finished g r : world_step (g, r) (remove_finished (finished_ids (g, r)) g, r)
| ws_terminate_peer g r peer : world_step (g, r) (terminate_peer peer (g, r)).2
| ws_terminate g r ids : world_step (g, r) (terminate_ids ids (g, r)).2
| ws_detach g r ids : world_step (g, r) (detach_ids ids (g, r)).2
| ws_shutdown g r : world_step (g, r)
    (clear_records (clear_started (abort_all (g, r)).1), (abort_all (g, r)).2).

(** The runtime alone: an open tracker holds its unfinished children. *)
Definition runtime_ok (r : Runtime) : Prop :=
  (∀ t c, r.(owner) !! t = Some c → t < r.(next_task))
  ∧ ∀ c, (tracker r c).(accepting) = true → tracked r c.

(** No two Fangs share a tracker. *)
Definition unshared (g : FangRegistry) : Prop :=
  ∀ i j c, g.(cancellations) !! i = Some c → g.(cancellations) !! j = Some c → i = j.

Definition world_ok (w : World) : Prop := registry_ok w.1 w.2 ∧ unshared w.1 ∧ runtime_ok w.2.

(** A registry with fewer entries. *)
Definition shrinks (g g' : FangRegistry) : Prop :=
  g'.(tasks) ⊆ g.(tasks) ∧ g'.(cancellations) ⊆ g.(cancellations).

Lemma shrinks_forgotten ids g g' : forgotten ids g g' → shrinks g g'.
Proof.
  intros G. split; apply map_subseteq_spec; intros i x; destruct (G i) as (E1 & _ & E3);
    [rewrite E1 | rewrite E3]; by destruct (decide (i ∈ ids)).
Qed.

Lemma shrinks_ok g g' r : shrinks g g' → registry_ok g r → registry_ok g' r.
Proof. intros [T C] [OT OC]. split; intros i x E; [eapply OT | eapply OC]; eapply lookup_weaken; eauto. Qed.
Lemma shrinks_unshared g g' : shrinks g g' → unshared g → unshared g'.
Proof. intros [_ C] U i j c E1 E2. eapply U; eapply lookup_weaken; eauto. Qed.

Lemma world_ok_shrinks g g' r : shrinks g g' → world_ok (g, r) → world_ok (g', r).
Proof. intros S (A & B & C). split; [by eapply shrinks_ok |]. split; [by eapply shrinks_unshared | done]. Qed.

(** Trackers other than [cs] are as before and no task was revived. *)
Record closes (cs : list FangCancellation) (r r' : Runtime) : Prop := mkCloses {
  c_owner : r'.(owner) = r.(owner);
  c_next : r'.(next_task) = r.(next_task);
  c_status : ∀ t, status_of r' t ≠ Finished → status_of r t ≠ Finished;
  c_open : ∀ c, (tracker r' c).(accepting) = true → c ∉ cs;
  c_other : ∀ c, c ∉ cs → tracker r' c = tracker r c
}.

Lemma closes_tracked cs r r' c : closes cs r r' → c ∉ cs → tracked r c → tracked r' c.
Proof.
  intros [O N S _ T] I [B K]. unfold tracked. rewrite O, N, T by done. split; [done |].
  intros t E U. auto.
Qed.

Lemma closes_runtime cs r r' : closes cs r r' → runtime_ok r → runtime_ok r'.
Proof.
  intros C [OW OA]. pose proof C as [O N S A T]. split; [by rewrite O, N |].
  intros c E. eapply closes_tracked; [done | by apply A |]. apply OA. by rewrite <- T by by apply A.
Qed.

(** Closing trackers and dropping every registration of them. *)
Lemma closes_world cs g g' r r' : shrinks g g' → (∀ id c, g'.(cancellations) !! id = Some c → c ∉ cs) →
  closes cs r r' → world_ok (g, r) → world_ok (g', r').
Proof.
  intros S D C ([OT OC] & U & R). pose proof (c_next _ _ _ C) as N. split; [split | split].
  - intros id t E. cbn in E |- *. rewrite N. eapply OT, lookup_weaken; [exact E | apply S].
  - intros id c E. cbn in E |- *. eapply closes_tracked; [done | by eapply D |].
    eapply OC, lookup_weaken; [exact E | apply S].
  - by eapply shrinks_unshared.
  - by eapply closes_runtime.
Qed.

Lemma cancels_alive ts r r' t : cancels ts r r' → status_of r' t ≠ Finished → status_of r t ≠ Finished.
Proof. intros C. rewrite C. destruct (decide (t ∈ ts)), (status_of r t); cbn; congruence. Qed.

Lemma abort_children_closes c r : closes [c] r (abort_children c r).
Proof.
  destruct (abort_children_spec c r) as (C & T & O & N). split; auto.
  - intros t. by eapply cancels_alive.
  - intros c'. rewrite T. destruct (decide (c' = c)) as [-> | M]; cbn; set_solver.
  - intros c'. rewrite T, list_elem_of_singleton. intros M. by rewrite decide_False.
Qed.

Lemma abort_closes t r : closes [] r (abort t r).
Proof.
  destruct (abort_frame t r) as (T & O & N). split; auto.
  - intros u. eapply cancels_alive, abort_cancels.
  - set_solver.
  - intros c _. by apply tracker_same.
Qed.

Lemma closes_trans cs1 cs2 cs r r1 r2 :
  closes cs1 r r1 → closes cs2 r1 r2 → (∀ c, c ∈ cs ↔ c ∈ cs1 ∨ c ∈ cs2) → closes cs r r2.
Proof.
  intros [O1 N1 S1 A1 T1] [O2 N2 S2 A2 T2] E. split.
  - congruence.
  - congruence.
  - auto.
  - intros c I. pose proof (A2 c I) as X. rewrite E. intros [J | J]; [| done].
    rewrite T2 in I by done. by apply (A1 c I).
  - intros c I. rewrite E in I. rewrite T2, T1; tauto.
Qed.

Lemma closes_refl r : closes [] r r.
Proof. split; set_solver. Qed.

Lemma terminate_one_closes g r id : closes (trackers_of g [id]) r (terminate_one (g, r) id).2.
Proof.
  cbn [terminate_one snd]. unfold trackers_of. cbn [omap list_omap].
  assert (closes [] r match tasks g !! id with Some t => abort t r | None => r end) as C.
  { destruct (tasks g !! id); [apply abort_closes | apply closes_refl]. }
  destruct (cancellations g !! id); [| done].
  eapply closes_trans; [exact C | apply abort_children_closes |]. set_solver.
Qed.

Lemma terminate_fold_closes ids g r : closes (trackers_of g ids) r (foldl terminate_one (g, r) ids).2.
Proof.
  revert g r. induction ids as [| id ids IH]; intros g r; [apply closes_refl |]. cbn [foldl].
  pose proof (terminate_one_closes g r id) as C. pose proof (terminate_one_spec g r id) as [E _].
  destruct (terminate_one (g, r) id) as [g1 r1]. cbn [fst snd] in *. subst g1.
  eapply closes_trans; [exact C | apply IH |]. apply trackers_of_cons.
Qed.

(** What is left registered after [ids] were forgotten shares no tracker with them. *)
Lemma forgotten_disjoint ids g g' : unshared g → forgotten ids g g' →
  ∀ id c, g'.(cancellations) !! id = Some c → c ∉ trackers_of g ids.
Proof.
  intros U G id c E (j & J & K)%elem_trackers_of. destruct (G id) as (_ & _ & F). rewrite F in E.
  destruct (decide (id ∈ ids)) as [I | I]; [done |]. by rewrite (U _ _ _ E K) in I.
Qed.

Lemma terminate_ids_ok ids g r : world_ok (g, r) → world_ok (terminate_ids ids (g, r)).2.
Proof.
  intros W. unfold terminate_ids. pose proof (terminate_fold_closes ids g r) as C.
  pose proof (terminate_fold_spec ids g r) as (_ & G & _). destruct (foldl terminate_one (g, r) ids) as [g1 r1].
  cbn [fst snd] in *. apply (closes_world (trackers_of g ids) g _ r); [| | done..].
  - by apply (shrinks_forgotten ids).
  - apply (forgotten_disjoint ids g g1); [apply W | done].
Qed.

Lemma detach_ids_ok ids g r : world_ok (g, r) → world_ok (detach_ids ids (g, r)).2.
Proof.
  intros W. unfold detach_ids. pose proof (detach_fold_spec ids (mkTermination [] [] 0) g r) as S.
  destruct (foldl detach_one _ ids) as [t1 [g1 r1]]. destruct S as ([D1 D2 D3 D4 D5 D6 D7] & _). cbn [snd].
  apply (closes_world (trackers_of g ids) g _ r); [by apply (shrinks_forgotten ids) | | | done].
  - apply (forgotten_disjoint ids g g1); [apply W | done].
  - split; [done | done | unfold status_of; by rewrite D3 | |].
    + intros c. rewrite D7. by destruct (decide _).
    + intros c I. specialize (D6 c). specialize (D7 c). rewrite decide_False in D7 by done.
      destruct (tracker r1 c), (tracker r c). cbn in *. congruence.
Qed.

Lemma forget_all_shrinks dead g : shrinks g (foldl (λ g id, forget id g) g dead).
Proof.
  revert g. induction dead as [| id dead IH]; intros g; [done |]. cbn [foldl].
  destruct (IH (forget id g)) as [T C]. split; [etrans; [exact T |] | etrans; [exact C |]]; apply delete_subseteq.
Qed.

Lemma shutdown_closes g r : closes (snd <$> map_to_list g.(cancellations)) r (abort_all (g, r)).2.
Proof.
  cbn [abort_all snd].
  assert (∀ l r, closes (snd <$> l) r (foldl (λ r (x : str * nat), abort_children x.2 r) r l)) as A.
  { induction l as [| x l IH]; intros s; [apply closes_refl |].
    eapply closes_trans; [apply abort_children_closes | apply IH | set_solver]. }
  assert (∀ l r, closes [] r (foldl (λ r (x : str * nat), abort x.2 r) r l)) as B.
  { induction l as [| x l IH]; intros s; [apply closes_refl |].
    eapply closes_trans; [apply abort_closes | apply IH | set_solver]. }
  eapply closes_trans; [apply A | apply B | set_solver].
Qed.

Lemma registry_ok_new : registry_ok registry_default (mkRuntime ∅ ∅ ∅ 0).
Proof. split; intros ? ? E; cbn in E; by rewrite lookup_empty in E. Qed.

Lemma registry_ok_steps g r r' : registry_ok g r → kept r r' → registry_ok g r'.
Proof.
  intros [OT OC] K. split; [intros id t E; apply OT in E; pose proof (k_next _ _ K); lia |].
  intros id c E. apply K. eauto.
Qed.

Lemma runtime_ok_kept r r' : task_step r r' → runtime_ok r → runtime_ok r'.
Proof.
  intros S [OW OA]. pose proof (task_step_kept _ _ S) as K. destruct S as [r t c S | r t S].
  - split.
    + unfold spawn. destruct (accepting (tracker r c)); [| done]. cbn. intros u c'.
      destruct (decide (u = next_task r)) as [-> | N]; [intros; lia |]. rewrite lookup_insert_ne by done.
      intros E%OW. lia.
    + intros c' A. apply K. apply OA. unfold spawn in A.
      destruct (accepting (tracker r c)) eqn:B; [| done]. unfold tracker in *. cbn in A.
      destruct (decide (c' = c)) as [-> | N]; [done |]. by rewrite lookup_insert_ne in A.
  - split; [done |]. intros c' A. by apply K, OA.
Qed.

Lemma listen_ok g r : world_ok (g, r) →
  world_ok (g, mkRuntime (<[r.(next_task) := Running]> r.(status)) r.(trackers) r.(owner) (S r.(next_task))).
Proof.
  intros ([OT OC] & U & OW & OA). cbn [fst snd] in *.
  assert (∀ c, tracked r c → tracked (mkRuntime (<[r.(next_task) := Running]> r.(status)) r.(trackers) r.(owner)
    (S r.(next_task))) c) as K.
  { intros c [B K]. split; [eapply Forall_impl; [exact B |]; cbn; lia |]. intros t E. cbn in E. specialize (OW t c E).
    rewrite status_insert, decide_False by lia. by apply K. }
  split; [split | split; [done | split]]; cbn.
  - intros id t E%OT. cbn in E. lia.
  - intros id c E. apply K. eauto.
  - intros t c E%OW. lia.
  - intros c A. by apply K, OA.
Qed.

Lemma world_step_ok w w' : world_step w w' → world_ok w → world_ok w'.
Proof.
  destruct 1 as [g r r' S | g r | g r t | g r c N | g r c N A | g r f | g r k | g r id t L | g r id a tr us
    | g r id c A N | g r id | g r id | g r id | g r | g r peer | g r ids | g r ids | g r];
    intros W; try (by apply (world_ok_shrinks g)).
  - destruct W as (O & U & R). split; [eapply registry_ok_steps; [done | by apply task_step_kept] |].
    split; [done | by eapply runtime_ok_kept].
  - by apply listen_ok.
  - apply (closes_world [] g _ r); [done | set_solver | apply abort_closes | done].
  - apply (closes_world [c] g _ r); [done | | apply abort_children_closes | done].
    intros id c' E ->%list_elem_of_singleton. by apply (N id).
  - apply (closes_world [c] g _ r); [done | | | done].
    + intros id c' E ->%list_elem_of_singleton. by apply (N id).
    + unfold take_children. cbn [snd]. split; [done | done | done | |]; intros c'; rewrite tracker_set.
      * destruct (decide (c' = c)) as [-> | M]; cbn; [congruence | set_solver].
      * rewrite list_elem_of_singleton. intros M. by rewrite decide_False.
  - destruct W as ([OT OC] & U & R). split; [split; [| done] | done]. cbn. intros j u.
    destruct (decide (j = id)) as [-> | M]; [rewrite lookup_insert_eq; by intros [= <-] |].
    rewrite lookup_insert_ne by done. apply OT.
  - destruct W as ([OT OC] & U & R). split; [split; [done |] | split; [| done]]; cbn.
    + intros j u. destruct (decide (j = id)) as [-> | M].
      * rewrite lookup_insert_eq. intros [= <-]. by apply R.
      * rewrite lookup_insert_ne by done. apply OC.
    + intros i j u. cbn. rewrite !lookup_insert_Some. naive_solver.
  - apply (world_ok_shrinks g); [| done]. split; [apply delete_subseteq | done].
  - apply (world_ok_shrinks g); [| done]. split; [done | apply delete_subseteq].
  - apply (world_ok_shrinks g); [| done]. apply forget_all_shrinks.
  - by apply terminate_ids_ok.
  - by apply terminate_ids_ok.
  - by apply detach_ids_ok.
  - apply (closes_world (snd <$> map_to_list g.(cancellations)) g _ r); [| | apply shutdown_closes | done].
    + split; apply map_empty_subseteq.
    + intros id c E. cbn in E. by rewrite lookup_empty in E.
Qed.

Definition world_new : World := (registry_default, mkRuntime ∅ ∅ ∅ 0).

Lemma world_new_ok : world_ok world_new.
Proof.
  split; [apply registry_ok_new |]. split; [intros i j c E; cbn in E; by rewrite lookup_empty in E |].
  split; [intros t c E; cbn in E; by rewrite lookup_empty in E |].
  intros c _. split; [done |]. intros t E. cbn in E. by rewrite lookup_empty in E.
Qed.

Lemma reached_ok w : rtc world_step world_new w → world_ok w.
Proof.
  intros R. assert (∀ x y, rtc world_step x y → world_ok x → world_ok y) as P
    by (induction 1; eauto using world_step_ok).
  apply (P _ _ R world_new_ok).
Qed.

(** What [terminate_ids] leaves of the Fangs it closes: none of their tasks
    runs on, whatever the tasks do from there. *)
Lemma terminate_stops ids g r n g' r' r3 :
  world_ok (g, r) → terminate_ids ids (g, r) = (n, (g', r')) → rtc task_step r' r3 →
  (∀ t, t ∈ listeners_of g ids → status_of r3 t ≠ Running)
  ∧ (∀ t c, c ∈ trackers_of g ids → r3.(owner) !! t = Some c → status_of r3 t ≠ Running)
  ∧ (∀ c, c ∈ trackers_of g ids → spawn c r3 = (false, r3)).
Proof.
  intros ([OT OC] & _ & _) D S. unfold terminate_ids in D.
  pose proof (terminate_fold_spec ids g r) as (_ & _ & C & T). pose proof (terminate_fold_closes ids g r) as L.
  destruct (foldl terminate_one (g, r) ids) as [g1 r1]. injection D as _ _ <-. cbn [fst snd] in *.
  pose proof (kept_steps _ _ S) as K. pose proof (c_next _ _ _ L) as N.
  assert (∀ t, t ∈ reached g r ids → t < r.(next_task) → status_of r3 t ≠ Running) as Q.
  { intros t I B. apply K; [by rewrite N |]. rewrite C, decide_True by done. apply cancelled_stops. }
  assert (∀ c, c ∈ trackers_of g ids → (tracker r1 c).(accepting) = false) as A by (intros c I; by rewrite T, decide_True).
  split; [| split].
  - intros t I. apply Q; [apply elem_reached; left; by apply elem_listeners_of |].
    apply elem_listeners_of in I as (id & _ & E). by apply (OT id).
  - intros t c I O. apply elem_trackers_of in I as (id & I & E). destruct (OC _ _ E) as [B H].
    assert (c ∈ trackers_of g ids) as I' by (apply elem_trackers_of; eauto).
    assert (held r1 (tracker r c).(handles) c) as H1.
    { intros u U F. rewrite (c_owner _ _ _ L) in U. apply H; [done |]. by apply (c_status _ _ _ L). }
    intros F. apply (k_held _ _ K c _ (A c I') H1 t) in O as J; [| by rewrite F].
    apply (Q t); [| rewrite Forall_forall in B; by apply B | done].
    apply elem_reached. right. eauto.
  - intros c I. apply spawn_closed. by apply (k_closed _ _ K), A.
Qed.

(** C27: a closed Fang is gone with all its tasks. In every state that the
    daemon can bring registry and runtime into: [terminate_ids] removes
    exactly the records and entries of the Fangs it is given and cancels
    exactly their listeners and tracked children; from then on, whatever the
    tasks still do, no listener or child of theirs runs on and none can be
    spawned. [detach_ids] removes the same, and when [quiesce] of what it
    returned has completed, in any interleaving with the tasks, all of them
    have ended for good; and it can complete. *)
Theorem fangs_close_for_good g r ids :
  rtc world_step world_new (g, r) →
  (∀ n g' r', terminate_ids ids (g, r) = (n, (g', r')) →
     g'.(fangs) = filter (λ f, f.(f_id) ∉ ids) g.(fangs) ∧ forgotten ids g g' ∧ cancels (reached g r ids) r r' ∧
     ∀ r3, rtc task_step r' r3 →
       (∀ t, t ∈ listeners_of g ids → status_of r3 t ≠ Running)
       ∧ (∀ t c, c ∈ trackers_of g ids → r3.(owner) !! t = Some c → status_of r3 t ≠ Running)
       ∧ (∀ c, c ∈ trackers_of g ids → spawn c r3 = (false, r3)))
  ∧ (∀ b g' r1, detach_ids ids (g, r) = (b, (g', r1)) →
     g'.(fangs) = filter (λ f, f.(f_id) ∉ ids) g.(fangs) ∧ forgotten ids g g' ∧
     (∃ r2, rtc (quiesce_step b) (AbortListeners, r1) (Quiesced, r2)) ∧
     ∀ r2 r3, rtc (quiesce_step b) (AbortListeners, r1) (Quiesced, r2) → rtc task_step r2 r3 →
       (∀ t, t ∈ listeners_of g ids → status_of r3 t = Finished)
       ∧ (∀ t c, c ∈ trackers_of g ids → r3.(owner) !! t = Some c → status_of r3 t = Finished)
       ∧ (∀ c, c ∈ trackers_of g ids → spawn c r3 = (false, r3))).
Proof.
  intros R. pose proof (reached_ok _ R) as W. split.
  - intros n g' r' D. split; [| split; [| split; [| intros r3; by apply (terminate_stops ids g r n g')]]];
      unfold terminate_ids in D; pose proof (terminate_fold_spec ids g r) as (F & G & C & _);
      destruct (foldl terminate_one (g, r) ids) as [g1 r1]; injection D as _ <- <-; [| exact G | exact C].
    cbn in *. by rewrite F.
  - intros b g' r1 D. split; [| split; [| split; [apply quiesce_can_end |]]].
    + unfold detach_ids in D. pose proof (detach_fold_spec ids (mkTermination [] [] 0) g r) as S.
      destruct (foldl detach_one _ ids) as [t1 [g1 r2]]. destruct S as ([_ D2 _ _ _ _ _] & _). injection D as _ <- _.
      cbn. by rewrite D2.
    + unfold detach_ids in D. pose proof (detach_fold_spec ids (mkTermination [] [] 0) g r) as S.
      destruct (foldl detach_one _ ids) as [t1 [g1 r2]]. destruct S as ([D1 _ _ _ _ _ _] & _). by injection D as _ <- _.
    + intros r2 r3 Q S. by apply (barrier ids g r b g' r1 r2 r3); [apply W | ..].
Qed.

Lemma cancels_quiet ts r r' t : cancels ts r r' → status_of r t ≠ Running → status_of r' t ≠ Running.
Proof. intros C. rewrite C. destruct (decide (t ∈ ts)), (status_of r t); cbn; congruence. Qed.

Lemma abort_children_fold (l : list (str * FangCancellation)) r t :
  status_of r t ≠ Running ∨ (∃ x, x ∈ l ∧ t ∈ (tracker r x.2).(handles)) →
  status_of (foldl (λ r x, abort_children x.2 r) r l) t ≠ Running.
Proof.
  revert r. induction l as [| x l IH]; intros r I; [destruct I as [I | (y & I & _)]; [done | set_solver] |].
  cbn [foldl]. apply IH. destruct (abort_children_spec x.2 r) as (C & T & _).
  destruct I as [I | (y & [-> | I]%elem_of_cons & J)]; [left; by eapply cancels_quiet | |].
  - left. rewrite C, decide_True by done. apply cancelled_stops.
  - destruct (decide (y.2 = x.2)) as [E | N].
    + left. rewrite C, decide_True by by rewrite <- E. apply cancelled_stops.
    + right. exists y. by rewrite T, decide_False.
Qed.

Lemma abort_fold (l : list (str * Task)) r t : status_of r t ≠ Running ∨ t ∈ l.*2 →
  status_of (foldl (λ r x, abort x.2 r) r l) t ≠ Running.
Proof.
  revert r. induction l as [| x l IH]; intros r I; [set_solver |]. cbn [foldl]. apply IH.
  destruct I as [I | I]; [left; eapply cancels_quiet; [apply abort_cancels | done] |].
  apply elem_of_cons in I as [-> | I]; [left | by right].
  rewrite abort_cancels, decide_True by by left. apply cancelled_stops.
Qed.

(** Panic shutdown: after [abort_all], [clear_started] and
    [clear_records] the registry is empty, every listener and every tracked
    child of every Fang is cancelled, and no tracker that was registered
    accepts a child. *)
Theorem shutdown_stops_all g r :
  let '(g1, r') := abort_all (g, r) in
  clear_records (clear_started g1) = registry_default
  ∧ (∀ id t, g.(tasks) !! id = Some t → status_of r' t ≠ Running)
  ∧ (∀ id c, g.(cancellations) !! id = Some c →
      spawn c r' = (false, r') ∧ ∀ t, t ∈ (tracker r c).(handles) → status_of r' t ≠ Running).
Proof.
  pose proof (shutdown_closes g r) as C. revert C. cbn [abort_all snd]. intros C. split; [done |]. split.
  - intros id t E. apply abort_fold. right. apply list_elem_of_fmap. exists (id, t).
    split; [done | by apply elem_of_map_to_list].
  - intros id c E. assert (c ∈ (snd <$> map_to_list g.(cancellations))) as I.
    { apply list_elem_of_fmap. exists (id, c). split; [done | by apply elem_of_map_to_list]. }
    split.
    + apply spawn_closed. destruct (accepting _) eqn:A; [| done]. by apply (c_open _ _ _ C) in A.
    + intros t J. apply abort_fold. left. apply abort_children_fold. right. exists (id, c).
      split; [by apply elem_of_map_to_list | done].
Qed.

End FangsSpec.

Module FangsDemo.
Import Fangs FangsSpec.

(** One Fang [a] with a running listener 0 and a running child 1; the
    listener spawns a second child before it is joined. *)
Definition demo_id : str := lit "a".
Definition demo_record : FangRecord := mkFangRecord demo_id (lit "wolf") (lit "127.0.0.1:1") (lit "10.0.0.1:2") Active.
Definition demo_steps : World :=
  let r0 := mkRuntime (<[0 := Running]> ∅) ∅ ∅ 1 in
  (insert_cancellation demo_id 7 (insert_task demo_id 0 (push demo_record registry_default)), (spawn 7 r0).2).

Lemma demo_world_reach : rtc world_step world_new demo_steps.
Proof.
  eapply rtc_l; [apply ws_listen |]. eapply rtc_l; [apply (ws_push _ _ demo_record) |].
  eapply rtc_l; [apply (ws_insert_task _ _ demo_id 0); cbn; lia |].
  eapply rtc_l; [apply (ws_insert_cancellation _ _ demo_id 7); [reflexivity |] |].
  { intros j E. cbn in E. by rewrite lookup_empty in E. }
  apply rtc_once. apply ws_task. apply (step_spawn _ 0 7). by vm_compute.
Qed.

Definition demo_detached := detach_ids [demo_id] demo_steps.
Definition demo_end : Runtime :=
  let r := abort_all_of [0] demo_detached.2.2 in
  let r := mkRuntime (<[0 := Finished]> r.(status)) r.(trackers) r.(owner) r.(next_task) in
  let r := abort_all_of [1] (take_all [7] r).2 in
  mkRuntime (<[1 := Finished]> r.(status)) r.(trackers) r.(owner) r.(next_task).

Lemma demo_quiesce : rtc (quiesce_step demo_detached.1) (AbortListeners, demo_detached.2.2) (Quiesced, demo_end).
Proof.
  eapply rtc_l; [apply q_abort |]. eapply rtc_l; [apply q_task, (step_finish _ 0); by eexists |].
  eapply rtc_l; [by apply q_joined_listener |]. eapply rtc_l; [apply q_listeners |].
  eapply rtc_l; [by apply q_take |]. eapply rtc_l; [apply q_task, (step_finish _ 1); by eexists |].
  eapply rtc_l; [by apply q_joined_child |]. apply rtc_once, q_done.
Qed.

Lemma demo_ok : registry_ok demo_steps.1 demo_steps.2.
Proof. apply (reached_ok _ demo_world_reach). Qed.

Definition demo_terminated := terminate_ids [demo_id] demo_steps.

(** Closing [a] at once cancels 0 and 1; detaching it ends both. *)
Lemma fangs_close_for_good_witness :
  status_of demo_steps.2 0 = Running ∧ status_of demo_steps.2 1 = Running ∧
  demo_steps.1.(fangs) = [demo_record] ∧ demo_terminated.2.1.(fangs) = [] ∧ status_of demo_terminated.2.2 0 ≠ Running ∧ status_of demo_terminated.2.2 1 ≠ Running ∧
  status_of demo_end 1 = Finished ∧ spawn 7 demo_end = (false, demo_end).
Proof.
  destruct (fangs_close_for_good demo_steps.1 demo_steps.2 [demo_id] demo_world_reach) as [T D].
  destruct (T demo_terminated.1 demo_terminated.2.1 demo_terminated.2.2 eq_refl) as (TF & _ & _ & T3).
  destruct (T3 _ (rtc_refl _ _)) as (TL & TC & _).
  destruct (D demo_detached.1 demo_detached.2.1 demo_detached.2.2 eq_refl) as (_ & _ & _ & D3).
  destruct (D3 _ _ demo_quiesce (rtc_refl _ _)) as (_ & DC & DS).
  split; [vm_compute; reflexivity|]. split; [vm_compute; reflexivity|]. split; [reflexivity|].
  split; [rewrite TF; vm_compute; reflexivity|]. split; [apply TL; vm_compute; by left|].
  split; [apply (TC 1 7); vm_compute; try reflexivity; by left|].
  split; [apply (DC 1 7); vm_compute; try reflexivity; by left|]. apply DS; vm_compute; by left.
Defined.

Lemma quiesce_waits_for_cancelled_witness :
  ∃ r3, rtc (quiesce_step demo_detached.1) (AbortListeners, demo_detached.2.2) (Quiesced, r3).
Proof.
  apply (quiesce_waits_for_cancelled [demo_id] demo_steps.1 demo_steps.2 demo_detached.1 demo_detached.2.1
    demo_detached.2.2); [exact demo_ok | reflexivity | apply rtc_refl].
Defined.

End FangsDemo.
