(* ===== verification/State.v ===== *)
(** * The state of the daemon ([werewolfd/src/state.rs])

    [Module State]: the control protocol's messages, the status, [DaemonState]
    and the writes of its fields. The fields that only carry runtime handles
    (admission, limiter, notifications, file paths) are left out; a Fang's
    tasks are in [l_runtime], which the registry refers to. [l_den] says
    whether a Den is open: the directory itself is the other half of a
    [World]. A runtime TLS identity is known by the Pelt it was made from. *)

From stdpp Require Import gmap.
From S2P Require Export Authority.
From S2P Require Export Discovery.
From S2P Require Export ProtectedState.
From S2P Require Export Fangs.

Local Open Scope Z_scope.

(** ** JSON values of the control socket *)

Inductive Json : Type :=
| JNull
| JBool (b : bool)
| JNum (z : Z)
| JStr (s : str)
| JArr (l : list Json)
| JObj (l : list (str * Json)).

(** [value[field]]: [Null] unless the value is an object with the field; the
    keys of an object are distinct. *)
Definition j_get (v : Json) (field : str) : Json :=
  match v with
  | JObj l => match list_find (λ x, x.1 = field) l with Some (_, x) => x.2 | None => JNull end
  | _ => JNull
  end.
Definition as_str (v : Json) : option str := match v with JStr s => Some s | _ => None end.
Definition as_array (v : Json) : option (list Json) := match v with JArr l => Some l | _ => None end.

Module State.
Import Pelt.

Record ControlRequest : Type := mkRequest {
  rq_id : str;
  rq_cmd : str;
  rq_args : Json
}.
Record ControlError : Type := mkControlError { ce_code : str; ce_message : str }.
Record ControlResponse : Type := mkResponse {
  rs_id : str;
  rs_ok : bool;
  rs_result : option Json;
  rs_error : option ControlError
}.
Definition response_ok (id : str) (result : Json) : ControlResponse := mkResponse id true (Some result) None.
Definition response_err (id code message : str) : ControlResponse :=
  mkResponse id false None (Some (mkControlError code message)).

Inductive WolfMode : Type := Human | Wolf | Silver.
Record Status : Type := mkStatus {
  mode : WolfMode;
  pelt_ready : bool;
  packmates : nat;
  active_fangs : nat;
  silver : str;
  hide : str
}.
Definition status_default : Status := mkStatus Human false 0 0 (lit "armed") (lit "light").

Record DaemonState : Type := mkDaemon {
  l_authority : Authority.Authority;
  l_degraded : bool;
  l_den : bool;
  l_peers : list StateValidation.PeerRecord;
  l_registry : Fangs.FangRegistry;
  l_runtime : Fangs.Runtime;
  l_profiles : list StateValidation.FangProfile;
  l_active : list str;
  l_services : list Service.ServiceDefinition;
  l_generation : option Z;
  l_status : Status;
  l_pelt : option PeltIdentity;
  l_tls : option PeltIdentity;
  l_tls_ready : bool;
  l_policy : TargetPolicy.TargetPolicy;
  l_published : list Published.PublishedService;
  l_governance : option Gov.Head;
  l_routes : list Route.Route;
  l_contacts : Discovery.Contacts;
  l_dying : bool;
  l_exit_requested : bool;
  l_auto_sync : bool
}.

(** ** Writing a field *)

Definition set_authority (v : Authority.Authority) (s : DaemonState) : DaemonState :=
  mkDaemon v s.(l_degraded) s.(l_den) s.(l_peers) s.(l_registry) s.(l_runtime) s.(l_profiles) s.(l_active)
    s.(l_services) s.(l_generation) s.(l_status) s.(l_pelt) s.(l_tls) s.(l_tls_ready) s.(l_policy)
    s.(l_published) s.(l_governance) s.(l_routes) s.(l_contacts) s.(l_dying) s.(l_exit_requested)
    s.(l_auto_sync).
Definition set_degraded (v : bool) (s : DaemonState) : DaemonState :=
  mkDaemon s.(l_authority) v s.(l_den) s.(l_peers) s.(l_registry) s.(l_runtime) s.(l_profiles) s.(l_active)
    s.(l_services) s.(l_generation) s.(l_status) s.(l_pelt) s.(l_tls) s.(l_tls_ready) s.(l_policy)
    s.(l_published) s.(l_governance) s.(l_routes) s.(l_contacts) s.(l_dying) s.(l_exit_requested)
    s.(l_auto_sync).
Definition set_den (v : bool) (s : DaemonState) : DaemonState :=
  mkDaemon s.(l_authority) s.(l_degraded) v s.(l_peers) s.(l_registry) s.(l_runtime) s.(l_profiles)
    s.(l_active) s.(l_services) s.(l_generation) s.(l_status) s.(l_pelt) s.(l_tls) s.(l_tls_ready)
    s.(l_policy) s.(l_published) s.(l_governance) s.(l_routes) s.(l_contacts) s.(l_dying) s.(l_exit_requested)
    s.(l_auto_sync).
Definition set_peers (v : list StateValidation.PeerRecord) (s : DaemonState) : DaemonState :=
  mkDaemon s.(l_authority) s.(l_degraded) s.(l_den) v s.(l_registry) s.(l_runtime) s.(l_profiles) s.(l_active)
    s.(l_services) s.(l_generation) s.(l_status) s.(l_pelt) s.(l_tls) s.(l_tls_ready) s.(l_policy)
    s.(l_published) s.(l_governance) s.(l_routes) s.(l_contacts) s.(l_dying) s.(l_exit_requested)
    s.(l_auto_sync).
Definition set_registry (v : Fangs.FangRegistry) (s : DaemonState) : DaemonState :=
  mkDaemon s.(l_authority) s.(l_degraded) s.(l_den) s.(l_peers) v s.(l_runtime) s.(l_profiles) s.(l_active)
    s.(l_services) s.(l_generation) s.(l_status) s.(l_pelt) s.(l_tls) s.(l_tls_ready) s.(l_policy)
    s.(l_published) s.(l_governance) s.(l_routes) s.(l_contacts) s.(l_dying) s.(l_exit_requested)
    s.(l_auto_sync).
Definition set_runtime (v : Fangs.Runtime) (s : DaemonState) : DaemonState :=
  mkDaemon s.(l_authority) s.(l_degraded) s.(l_den) s.(l_peers) s.(l_registry) v s.(l_profiles) s.(l_active)
    s.(l_services) s.(l_generation) s.(l_status) s.(l_pelt) s.(l_tls) s.(l_tls_ready) s.(l_policy)
    s.(l_published) s.(l_governance) s.(l_routes) s.(l_contacts) s.(l_dying) s.(l_exit_requested)
    s.(l_auto_sync).
Definition set_profiles (v : list StateValidation.FangProfile) (s : DaemonState) : DaemonState :=
  mkDaemon s.(l_authority) s.(l_degraded) s.(l_den) s.(l_peers) s.(l_registry) s.(l_runtime) v s.(l_active)
    s.(l_services) s.(l_generation) s.(l_status) s.(l_pelt) s.(l_tls) s.(l_tls_ready) s.(l_policy)
    s.(l_published) s.(l_governance) s.(l_routes) s.(l_contacts) s.(l_dying) s.(l_exit_requested)
    s.(l_auto_sync).
Definition set_active (v : list str) (s : DaemonState) : DaemonState :=
  mkDaemon s.(l_authority) s.(l_degraded) s.(l_den) s.(l_peers) s.(l_registry) s.(l_runtime) s.(l_profiles) v
    s.(l_services) s.(l_generation) s.(l_status) s.(l_pelt) s.(l_tls) s.(l_tls_ready) s.(l_policy)
    s.(l_published) s.(l_governance) s.(l_routes) s.(l_contacts) s.(l_dying) s.(l_exit_requested)
    s.(l_auto_sync).
Definition set_services (v : list Service.ServiceDefinition) (s : DaemonState) : DaemonState :=
  mkDaemon s.(l_authority) s.(l_degraded) s.(l_den) s.(l_peers) s.(l_registry) s.(l_runtime) s.(l_profiles)
    s.(l_active) v s.(l_generation) s.(l_status) s.(l_pelt) s.(l_tls) s.(l_tls_ready) s.(l_policy)
    s.(l_published) s.(l_governance) s.(l_routes) s.(l_contacts) s.(l_dying) s.(l_exit_requested)
    s.(l_auto_sync).
Definition set_generation (v : option Z) (s : DaemonState) : DaemonState :=
  mkDaemon s.(l_authority) s.(l_degraded) s.(l_den) s.(l_peers) s.(l_registry) s.(l_runtime) s.(l_profiles)
    s.(l_active) s.(l_services) v s.(l_status) s.(l_pelt) s.(l_tls) s.(l_tls_ready) s.(l_policy)
    s.(l_published) s.(l_governance) s.(l_routes) s.(l_contacts) s.(l_dying) s.(l_exit_requested)
    s.(l_auto_sync).
Definition set_status (v : Status) (s : DaemonState) : DaemonState :=
  mkDaemon s.(l_authority) s.(l_degraded) s.(l_den) s.(l_peers) s.(l_registry) s.(l_runtime) s.(l_profiles)
    s.(l_active) s.(l_services) s.(l_generation) v s.(l_pelt) s.(l_tls) s.(l_tls_ready) s.(l_policy)
    s.(l_published) s.(l_governance) s.(l_routes) s.(l_contacts) s.(l_dying) s.(l_exit_requested)
    s.(l_auto_sync).
Definition set_pelt (v : option PeltIdentity) (s : DaemonState) : DaemonState :=
  mkDaemon s.(l_authority) s.(l_degraded) s.(l_den) s.(l_peers) s.(l_registry) s.(l_runtime) s.(l_profiles)
    s.(l_active) s.(l_services) s.(l_generation) s.(l_status) v s.(l_tls) s.(l_tls_ready) s.(l_policy)
    s.(l_published) s.(l_governance) s.(l_routes) s.(l_contacts) s.(l_dying) s.(l_exit_requested)
    s.(l_auto_sync).
Definition set_tls (v : option PeltIdentity) (s : DaemonState) : DaemonState :=
  mkDaemon s.(l_authority) s.(l_degraded) s.(l_den) s.(l_peers) s.(l_registry) s.(l_runtime) s.(l_profiles)
    s.(l_active) s.(l_services) s.(l_generation) s.(l_status) s.(l_pelt) v s.(l_tls_ready) s.(l_policy)
    s.(l_published) s.(l_governance) s.(l_routes) s.(l_contacts) s.(l_dying) s.(l_exit_requested)
    s.(l_auto_sync).
Definition set_tls_ready (v : bool) (s : DaemonState) : DaemonState :=
  mkDaemon s.(l_authority) s.(l_degraded) s.(l_den) s.(l_peers) s.(l_registry) s.(l_runtime) s.(l_profiles)
    s.(l_active) s.(l_services) s.(l_generation) s.(l_status) s.(l_pelt) s.(l_tls) v s.(l_policy)
    s.(l_published) s.(l_governance) s.(l_routes) s.(l_contacts) s.(l_dying) s.(l_exit_requested)
    s.(l_auto_sync).
Definition set_policy (v : TargetPolicy.TargetPolicy) (s : DaemonState) : DaemonState :=
  mkDaemon s.(l_authority) s.(l_degraded) s.(l_den) s.(l_peers) s.(l_registry) s.(l_runtime) s.(l_profiles)
    s.(l_active) s.(l_services) s.(l_generation) s.(l_status) s.(l_pelt) s.(l_tls) s.(l_tls_ready) v
    s.(l_published) s.(l_governance) s.(l_routes) s.(l_contacts) s.(l_dying) s.(l_exit_requested)
    s.(l_auto_sync).
Definition set_published (v : list Published.PublishedService) (s : DaemonState) : DaemonState :=
  mkDaemon s.(l_authority) s.(l_degraded) s.(l_den) s.(l_peers) s.(l_registry) s.(l_runtime) s.(l_profiles)
    s.(l_active) s.(l_services) s.(l_generation) s.(l_status) s.(l_pelt) s.(l_tls) s.(l_tls_ready)
    s.(l_policy) v s.(l_governance) s.(l_routes) s.(l_contacts) s.(l_dying) s.(l_exit_requested)
    s.(l_auto_sync).
Definition set_governance (v : option Gov.Head) (s : DaemonState) : DaemonState :=
  mkDaemon s.(l_authority) s.(l_degraded) s.(l_den) s.(l_peers) s.(l_registry) s.(l_runtime) s.(l_profiles)
    s.(l_active) s.(l_services) s.(l_generation) s.(l_status) s.(l_pelt) s.(l_tls) s.(l_tls_ready)
    s.(l_policy) s.(l_published) v s.(l_routes) s.(l_contacts) s.(l_dying) s.(l_exit_requested)
    s.(l_auto_sync).
Definition set_routes (v : list Route.Route) (s : DaemonState) : DaemonState :=
  mkDaemon s.(l_authority) s.(l_degraded) s.(l_den) s.(l_peers) s.(l_registry) s.(l_runtime) s.(l_profiles)
    s.(l_active) s.(l_services) s.(l_generation) s.(l_status) s.(l_pelt) s.(l_tls) s.(l_tls_ready)
    s.(l_policy) s.(l_published) s.(l_governance) v s.(l_contacts) s.(l_dying) s.(l_exit_requested)
    s.(l_auto_sync).
Definition set_contacts (v : Discovery.Contacts) (s : DaemonState) : DaemonState :=
  mkDaemon s.(l_authority) s.(l_degraded) s.(l_den) s.(l_peers) s.(l_registry) s.(l_runtime) s.(l_profiles)
    s.(l_active) s.(l_services) s.(l_generation) s.(l_status) s.(l_pelt) s.(l_tls) s.(l_tls_ready)
    s.(l_policy) s.(l_published) s.(l_governance) s.(l_routes) v s.(l_dying) s.(l_exit_requested)
    s.(l_auto_sync).
Definition set_dying (v : bool) (s : DaemonState) : DaemonState :=
  mkDaemon s.(l_authority) s.(l_degraded) s.(l_den) s.(l_peers) s.(l_registry) s.(l_runtime) s.(l_profiles)
    s.(l_active) s.(l_services) s.(l_generation) s.(l_status) s.(l_pelt) s.(l_tls) s.(l_tls_ready)
    s.(l_policy) s.(l_published) s.(l_governance) s.(l_routes) s.(l_contacts) v s.(l_exit_requested)
    s.(l_auto_sync).
Definition set_exit_requested (v : bool) (s : DaemonState) : DaemonState :=
  mkDaemon s.(l_authority) s.(l_degraded) s.(l_den) s.(l_peers) s.(l_registry) s.(l_runtime) s.(l_profiles)
    s.(l_active) s.(l_services) s.(l_generation) s.(l_status) s.(l_pelt) s.(l_tls) s.(l_tls_ready)
    s.(l_policy) s.(l_published) s.(l_governance) s.(l_routes) s.(l_contacts) s.(l_dying) v s.(l_auto_sync).
Definition set_auto_sync (v : bool) (s : DaemonState) : DaemonState :=
  mkDaemon s.(l_authority) s.(l_degraded) s.(l_den) s.(l_peers) s.(l_registry) s.(l_runtime) s.(l_profiles)
    s.(l_active) s.(l_services) s.(l_generation) s.(l_status) s.(l_pelt) s.(l_tls) s.(l_tls_ready)
    s.(l_policy) s.(l_published) s.(l_governance) s.(l_routes) s.(l_contacts) s.(l_dying) s.(l_exit_requested)
    v.

Definition set_active_fangs (n : nat) (s : DaemonState) : DaemonState :=
  let t := s.(l_status) in
  set_status (mkStatus t.(mode) t.(pelt_ready) t.(packmates) n t.(silver) t.(hide)) s.
Definition set_mode (m : WolfMode) (s : DaemonState) : DaemonState :=
  let t := s.(l_status) in
  set_status (mkStatus m t.(pelt_ready) t.(packmates) t.(active_fangs) t.(silver) t.(hide)) s.
Definition set_pelt_ready (b : bool) (s : DaemonState) : DaemonState :=
  let t := s.(l_status) in
  set_status (mkStatus t.(mode) b t.(packmates) t.(active_fangs) t.(silver) t.(hide)) s.
Definition set_silver (v : str) (s : DaemonState) : DaemonState :=
  let t := s.(l_status) in
  set_status (mkStatus t.(mode) t.(pelt_ready) t.(packmates) t.(active_fangs) v t.(hide)) s.

(** [live.status.silver == "active"]. *)
Definition silver_active (s : DaemonState) : bool := bool_decide (s.(l_status).(silver) = lit "active").

(** ** The daemon and its Den *)

Record World (D : Type) : Type := mkWorld { live : DaemonState; disk : D }.
Arguments mkWorld {D} _ _.
Arguments live {D} _.
Arguments disk {D} _.

Definition on_live {D} (f : DaemonState → DaemonState) (w : World D) : World D := mkWorld (f w.(live)) w.(disk).
Definition on_disk {D} (d : D) (w : World D) : World D := mkWorld w.(live) d.

End State.
