(* ===== verification/Terminal.v ===== *)
(** * Death and retirement of a node ([werewolfd/src/terminal.rs])

    [Module Terminal]: destroying the Den after a durable Tombstone, the two
    checks at start-up, and the live node's [die] and [retire], over any Den
    that can be destroyed (class [DenWipe] of Destroy). [Module TerminalSpec]:
    nothing is destroyed before a Tombstone is durable, a Tombstone says
    "complete" only in an empty Den, and a destruction that was interrupted
    is finished at the next start. *)

From stdpp Require Import gmap.
From S2P Require Export Destroy.
From S2P Require Export Tombstone.
From S2P Require Export State.

Local Open Scope Z_scope.

Module Terminal.
Import LocalFs State Tombstone.

Definition EXIT_CODE : Z := 67.
Definition FILE_NAME : str := lit "tombstone.json".
Definition DEN_LOCK : str := lit ".den.lock".

(** [werewolfd] and the package version. *)
Definition software_name : str := lit "werewolfd 1.0.0-rc.2".

(** ** Computations on the Den *)

Definition dio (D A : Type) : Type := D → result IoError A * D.
#[export] Instance dio_ret {D} : MRet (dio D) := λ A a d, (Ok a, d).
#[export] Instance dio_bind {D} : MBind (dio D) := λ A B f m d,
  match m d with
  | (Ok a, d') => f a d'
  | (Err e, d') => (Err e, d')
  end.
Fixpoint each {D A} (f : A → dio D ()) (l : list A) : dio D () :=
  match l with [] => mret () | x :: l => _ ← f x; each f l end.

Section terminal.
Context `{Crypto} `{Base64} `{Serde Tombstone.Document} `{DenWipe D}.

Definition keep (nm : str) : bool := bool_decide (nm = FILE_NAME) || bool_decide (nm = DEN_LOCK).

(** The operations of the Den, in the monad. *)
Definition w_entries : dio D (list str) := den_entries.
Definition w_destroy (nm : str) : dio D () := den_destroy nm.
Definition w_inert (nm : str) : dio D bool := den_inert nm.
Definition w_scrub (nm : str) : dio D () := den_scrub nm.
Definition w_sync : dio D () := den_sync.

Definition destroy_den : dio D () :=
  _ ← w_destroy (lit "pelt.json");
  names ← w_entries;
  _ ← each w_destroy (filter (λ n, starts_with (lit "security_state_") n = true) names);
  rest ← w_entries;
  _ ← each w_destroy (filter (λ n, keep n = false) rest);
  ok ← w_inert DEN_LOCK;
  _ ← (if ok : bool then mret () else w_scrub DEN_LOCK);
  w_sync.

Definition den_is_clean : dio D bool :=
  names ← w_entries;
  let only_allowed := forallb keep names in
  if only_allowed && bool_decide (FILE_NAME ∈ names) then w_inert DEN_LOCK else mret false.

Definition write (t : Tombstone) (d : D) : CommitOutcome * D :=
  match Tombstone.encode t with
  | Ok bytes => den_replace FILE_NAME bytes false d
  | Err _ => (NotCommitted InvalidData, d)
  end.

Definition with_destruction (x : Destruction) (t : Tombstone) : Tombstone :=
  mkTombstone t.(t_kind) t.(t_death) x t.(t_software).

Definition finish (t : Tombstone) (d : D) : Destruction * D :=
  match destroy_den d with
  | (Err _, d1) => (Incomplete, d1)
  | (Ok _, d1) =>
      match den_is_clean d1 with
      | (Ok true, d2) =>
          let '(o, d3) := write (with_destruction Complete t) d2 in
          (match o with DurablyCommitted => Complete | _ => Incomplete end, d3)
      | (_, d2) => (Incomplete, d2)
      end
  end.

Definition label (x : Destruction) : str := destruction_text x.

Definition is_complete (x : Destruction) : bool := match x with Complete => true | Incomplete => false end.

(** Start-up, before any security state is loaded. *)
Definition at_startup (d : D) : result IoError (option str) * D :=
  match den_read d FILE_NAME (Tombstone.MAX_LEN + 1) with
  | Err e => (Err e, d)
  | Ok None => (Ok None, d)
  | Ok (Some bytes) =>
      match Tombstone.parse bytes with
      | Err _ => (Err InvalidData, d)
      | Ok found =>
          let kind := kind_text found.(t_kind) in
          let proceed d1 :=
            let '(x, d2) := finish (with_destruction Incomplete found) d1 in
            (Ok (Some (kind ++ lit " tombstone, destruction " ++ label x)), d2) in
          let mark d1 :=
            if is_complete found.(t_destruction) then
              match write (with_destruction Incomplete found) d1 with
              | (DurablyCommitted, d2) => proceed d2
              | (_, d2) =>
                  (Ok (Some (kind ++ lit " tombstone found next to other entries and could not be marked incomplete")), d2)
              end
            else proceed d1 in
          if is_complete found.(t_destruction) then
            match den_is_clean d with
            | (Err e, d1) => (Err e, d1)
            | (Ok true, d1) => (Ok (Some (kind ++ lit " tombstone, destruction complete")), d1)
            | (Ok false, d1) => mark d1
            end
          else mark d
      end
  end.

Definition archived_death (d : D) (head : Gov.Head) : result IoError Gov.Statement :=
  found ← den_read d (Discovery.governance_archive_name head.(Gov.h_sequence)) Gov.MAX_STATEMENT_LEN;
  bytes ← ok_or found InvalidData;
  s ← map_err (λ _, InvalidData) (Gov.statement_decode bytes);
  _ ← require (bool_decide (Gov.core_hash s.(Gov.core) = head.(Gov.h_hash)) && Gov.is_death s.(Gov.core).(Gov.body))
        InvalidData;
  Ok s.

(** The Tombstone write and what follows it. *)
Definition bury (t : Tombstone) (d : D) : option Destruction * D :=
  match write t d with
  | (DurablyCommitted, d1) => let '(x, d2) := finish t d1 in (Some x, d2)
  | (_, d1) => (None, d1)
  end.

Definition dead_head_at_startup (head : Gov.Head) (d : D) : result IoError str * D :=
  match archived_death d head with
  | Err e => (Err e, d)
  | Ok s =>
      match Tombstone.death s Incomplete software_name with
      | Err _ => (Err InvalidData, d)
      | Ok t =>
          match bury t d with
          | (None, d1) => (Ok (lit "death committed; tombstone not yet durable, retried at next start"), d1)
          | (Some x, d1) => (Ok (lit "death tombstone, destruction " ++ label x), d1)
          end
      end
  end.

(** ** The live node *)

Definition lock_node (s : DaemonState) : DaemonState :=
  let s1 := set_dying true s in
  let s2 := set_authority (Authority.lock s1.(l_authority)).1 s1 in
  let '(g, r) := Fangs.abort_all (s2.(l_registry), s2.(l_runtime)) in
  set_active_fangs 0 (set_runtime r (set_registry (Fangs.clear_records (Fangs.clear_started g)) s2)).

Definition request_exit (s : DaemonState) : DaemonState := set_exit_requested true s.

Definition die_reply (s : Gov.Statement) (x : Destruction) : Json :=
  JObj [(lit "status", JStr (lit "applied")); (lit "sequence", JNum s.(Gov.core).(Gov.sequence));
        (lit "hash", JStr (hex (array_bytes (Gov.core_hash s.(Gov.core)))));
        (lit "lifecycle", JStr (lit "dead")); (lit "destruction", JStr (label x))].

Definition die (s : Gov.Statement) (w : World D) : Json * World D :=
  let w1 := on_live lock_node w in
  let '(x, w2) :=
    if w1.(live).(l_den) then
      match Tombstone.death s Incomplete software_name with
      | Err _ => (Incomplete, w1)
      | Ok t => let '(o, d) := bury t w1.(disk) in (default Incomplete o, on_disk d w1)
      end
    else (Incomplete, w1) in
  (die_reply s x, on_live request_exit w2).

(** The inner half of a failed retirement: the node unlocks, unless Silver or
    local admission holds the lock. *)
Definition unlock_after_failure (s : DaemonState) : DaemonState :=
  let s1 := set_dying false s in
  if silver_active s1 || NodeGovernance.unadmitted s1.(l_governance) s1.(l_pelt) then s1
  else
    match Authority.locking Authority.epoch_of s1.(l_authority) with
    | (a, Some epoch) => set_authority (Authority.locking (Authority.open_after_durable epoch) a).1 s1
    | (a, None) => set_authority a s1
    end.

Definition retire (confirm : str) (w : World D) : result (str * str) Json * World D :=
  let save_failed m := Err (lit "RETIRE_SAVE_FAILED", m) in
  match w.(live).(l_pelt) with
  | None => (Err (lit "NO_PELT", lit "a Den without a Pelt holds no identity; remove it directly"), w)
  | Some pelt =>
      if negb (bool_decide (pelt.(Pelt.fingerprint) = confirm)) then
        (Err (lit "RETIRE_CONFIRM_MISMATCH", lit "--confirm must be this node's own Pelt fingerprint"), w)
      else if negb w.(live).(l_den) then (save_failed (lit "Den not initialized"), w)
      else
        let w1 := on_live (λ s, set_authority (Authority.lock s.(l_authority)).1 (set_dying true s)) w in
        match Tombstone.retirement Incomplete software_name with
        | Err _ => (save_failed (lit "cannot encode the tombstone"), w1)
        | Ok t =>
            match write t w1.(disk) with
            | (NotCommitted _, d) =>
                (save_failed (lit "the retirement tombstone was not written; nothing happened"),
                 on_live unlock_after_failure (on_disk d w1))
            | (IndeterminateAfterRename _, d) =>
                (save_failed (lit "the retirement tombstone write is indeterminate; the node stays locked and retirement resumes at the next start if the tombstone is present"),
                 on_live (set_degraded true) (on_disk d w1))
            | (DurablyCommitted, d) =>
                let w2 := on_live lock_node (on_disk d w1) in
                let '(x, d2) := finish t w2.(disk) in
                (Ok (JObj [(lit "status", JStr (lit "retired")); (lit "destruction", JStr (label x))]),
                 on_live request_exit (on_disk d2 w2))
            end
        end
  end.

Definition lifecycle (s : DaemonState) : Json :=
  let chain := match s.(l_governance) with
               | None => lit "none"
               | Some h => if bool_decide (is_Some h.(Gov.dead_at)) then lit "dead"
                           else if bool_decide (is_Some h.(Gov.activated_at)) then lit "active"
                           else lit "ceremony"
               end in
  JObj [(lit "chain", JStr chain); (lit "node", JStr (if s.(l_dying) then lit "dying" else lit "normal"))].

End terminal.
End Terminal.

Module TerminalSpec.
Import LocalFs State Tombstone TombstoneSpec Terminal.

Section terminal.
Context `{Crypto} `{Base64Laws} `{SerdeLaws Tombstone.Document} `{WL : DenWipeLaws D} `{!DenLaws D}.

Lemma tomb_plain : plain FILE_NAME.
Proof. split; [by vm_compute|by intros s]. Qed.
Lemma lock_plain : plain DEN_LOCK.
Proof. split; [by vm_compute|by intros s]. Qed.

#[export] Instance den_same_preorder m : PreOrder (den_same (D := D) m).
Proof.
  split; [done|]. intros d1 d2 d3 (A1 & B1 & C1) (A2 & B2 & C2). split; [congruence|]. split; auto.
Qed.

(** A computation that never touches [m]. *)
Definition saving {A} (m : str) (c : dio D A) : Prop := ∀ d, den_same m d (c d).2.

Lemma saving_bind {A B} m (c : dio D A) (f : A → dio D B) :
  saving m c → (∀ a, saving m (f a)) → saving m (c ≫= f).
Proof.
  intros Hc Hf d. specialize (Hc d). unfold mbind, dio_bind. destruct (c d) as [[a|e] d']; [|done].
  etransitivity; [exact Hc|apply Hf].
Qed.
Lemma saving_ret {A} m (a : A) : saving m (mret a).
Proof. intros d. reflexivity. Qed.
Lemma saving_entries m : saving m w_entries.
Proof. intros d. unfold w_entries. destruct (den_entries d) as [r d'] eqn:E. by apply wipe_entries in E as [? _]. Qed.
Lemma saving_destroy m nm : m ≠ nm → saving m (w_destroy nm).
Proof.
  intros Hne d. unfold w_destroy. destruct (den_destroy nm d) as [r d'] eqn:E. apply wipe_destroy in E as [K _]. by apply K.
Qed.
Lemma saving_inert m nm : saving m (w_inert nm).
Proof. intros d. unfold w_inert. destruct (den_inert nm d) as [r d'] eqn:E. by apply wipe_inert in E as [? _]. Qed.
Lemma saving_scrub m nm : m ≠ nm → saving m (w_scrub nm).
Proof.
  intros Hne d. unfold w_scrub. destruct (den_scrub nm d) as [r d'] eqn:E. by apply (wipe_scrub _ _ _ _ E).
Qed.
Lemma saving_sync m : saving m w_sync.
Proof. intros d. unfold w_sync. destruct (den_sync d) as [r d'] eqn:E. by apply wipe_sync in E as [? _]. Qed.
Lemma saving_each {A} m (f : A → dio D ()) l : (∀ x, x ∈ l → saving m (f x)) → saving m (each f l).
Proof.
  intros K. induction l as [|x l IH]; cbn [each]; [apply saving_ret|].
  apply saving_bind; [apply K; by left|intros _]. apply IH. intros y Hy. apply K. by right.
Qed.

Lemma dio_bind_Ok {A B} (c : dio D A) (f : A → dio D B) d b d' :
  (c ≫= f) d = (Ok b, d') → ∃ a d1, c d = (Ok a, d1) ∧ f a d1 = (Ok b, d').
Proof. unfold mbind, dio_bind. destruct (c d) as [[a|e] d1]; [eauto|done]. Qed.

(** ** Destroying never touches the Tombstone *)

Lemma starts_with_neq p s : starts_with p FILE_NAME = false → starts_with p s = true → FILE_NAME ≠ s.
Proof. intros N Y <-. congruence. Qed.

Lemma destroy_den_saves : saving FILE_NAME destroy_den.
Proof.
  unfold destroy_den. apply saving_bind; [by apply saving_destroy|intros _].
  apply saving_bind; [apply saving_entries|intros l1].
  apply saving_bind; [|intros _].
  { apply saving_each. intros x [Hx _]%list_elem_of_filter. apply saving_destroy.
    by apply (starts_with_neq (lit "security_state_")). }
  apply saving_bind; [apply saving_entries|intros l2].
  apply saving_bind; [|intros _].
  { apply saving_each. intros x [Hx _]%list_elem_of_filter. apply saving_destroy. intros <-. by vm_compute in Hx. }
  apply saving_bind; [apply saving_inert|intros ok].
  apply saving_bind; [destruct ok; [apply saving_ret|by apply saving_scrub]|intros _]. apply saving_sync.
Qed.

Lemma clean_saves m : saving m den_is_clean.
Proof.
  unfold den_is_clean. apply saving_bind; [apply saving_entries|intros l].
  destruct (_ && _); [apply saving_inert|apply saving_ret].
Qed.

(** ** What a clean Den is *)

(** Only the Tombstone and an inert lock file are left, for good. *)
Definition emptied (d : D) : Prop :=
  (∀ m, plain m → keep m = false → den_settled d m None) ∧ den_lock_ok d DEN_LOCK ∧ is_Some (den_file d FILE_NAME).

Lemma clean_Ok d d' : den_is_clean d = (Ok true, d') →
  (∀ m, keep m = false → den_file d m = None) ∧ den_lock_ok d' DEN_LOCK ∧ is_Some (den_file d FILE_NAME).
Proof.
  unfold den_is_clean. intros (l & d1 & El & Hr)%dio_bind_Ok. unfold w_entries in El.
  apply wipe_entries in El as [K L]. destruct (L l eq_refl) as [_ L']. clear L. rename L' into L.
  destruct (forallb keep l) eqn:Hf; [|done]. cbn [andb] in Hr.
  destruct (bool_decide_reflect (FILE_NAME ∈ l)) as [Hin|]; [|done].
  unfold w_inert in Hr. apply wipe_inert in Hr as [_ Hi]. split; [|split; [by apply Hi|by apply L]].
  intros m Hm. destruct (den_file d m) eqn:Em; [|done].
  assert (m ∈ l) as Hml by (apply L; eauto). rewrite forallb_forall in Hf.
  rewrite (Hf m) in Hm; [done|]. by apply list_elem_of_In.
Qed.

(** A destruction that ran to its end was synchronized after the last unlink. *)
Lemma destroy_den_synced d d' u : destroy_den d = (Ok u, d') → ∀ m, den_file d' m = None → den_settled d' m None.
Proof.
  unfold destroy_den. intros Hr. do 7 apply dio_bind_Ok in Hr as (? & ? & _ & Hr).
  unfold w_sync in Hr. destruct u. apply wipe_sync in Hr as [K S]. intros m Hm. apply S; [done|].
  destruct (K m) as [E _]. congruence.
Qed.

Lemma write_other t d o d' m : write t d = (o, d') → plain m → m ≠ FILE_NAME → den_same m d d'.
Proof.
  unfold write. destruct (Tombstone.encode t) as [bytes|]; [|by intros [= _ <-]].
  intros E Hm Hne. apply (wipe_replace _ _ _ _ _ _ _ E tomb_plain Hm Hne).
Qed.

Lemma complete_means_empty_sound t d d' :
  finish t d = (Complete, d') →
  emptied d' ∧ ∃ bytes, Tombstone.encode (with_destruction Complete t) = Ok bytes
    ∧ den_settled d' FILE_NAME (Some bytes).
Proof.
  unfold finish. destruct (destroy_den d) as [[u|] d1] eqn:E1; [|done].
  destruct (den_is_clean d1) as [[[]|] d2] eqn:E2; [|done..].
  destruct (write _ d2) as [o d3] eqn:E3. destruct o; [done| |done]. intros [= <-].
  pose proof (clean_Ok _ _ E2) as (Hgone & Hlock & _).
  assert (∀ m, den_same m d1 d2) as K by (intros m; pose proof (clean_saves m d1) as K; by rewrite E2 in K).
  assert (∃ bytes, Tombstone.encode (with_destruction Complete t) = Ok bytes ∧ den_settled d3 FILE_NAME (Some bytes))
    as (bytes & Eb & Hs).
  { unfold write in E3. destruct (Tombstone.encode _) as [bytes|] eqn:Eb; [|done]. exists bytes. split; [done|].
    by apply (den_replace_durable _ _ _ _ _ E3 tomb_plain). }
  split; [|eauto]. split_and!.
  - intros m Hm Hk. assert (m ≠ FILE_NAME) as Hne by (intros ->; by vm_compute in Hk).
    apply (write_other _ _ _ _ m E3 Hm Hne), (K m). apply (destroy_den_synced d d1 u E1). by apply Hgone.
  - by apply (write_other _ _ _ _ DEN_LOCK E3 lock_plain).
  - destruct Hs as [-> _]. eauto.
Qed.

(** "Destruction complete" is true. When the destruction reports
    completion, the Tombstone is on disk, durably, saying so; every other
    name of the Den is absent, now and after a power failure, except an inert
    lock file. *)
Theorem complete_means_empty t d d' :
  finish t d = (Complete, d') →
  emptied d' ∧ ∃ bytes, Tombstone.encode (with_destruction Complete t) = Ok bytes
    ∧ den_settled d' FILE_NAME (Some bytes).
Proof. apply complete_means_empty_sound. Qed.

(** ** No destruction without a Tombstone *)

Notation reopens := ProtectedStateSpec.reopens.

(** Nothing but the Tombstone was touched. *)
Definition spared (d d' : D) : Prop := ∀ m, plain m → m ≠ FILE_NAME → den_same m d d'.

(** The Tombstone [t] is on disk, now and after a power failure, whether
    marked complete or not. *)
Definition tombstoned (t : Tombstone) (d : D) : Prop :=
  ∀ d2, reopens d d2 → ∃ x bytes, Tombstone.encode (with_destruction x t) = Ok bytes ∧ den_file d2 FILE_NAME = Some bytes.

Lemma settled_tombstoned t x bytes d :
  Tombstone.encode (with_destruction x t) = Ok bytes → den_settled d FILE_NAME (Some bytes) → tombstoned t d.
Proof. intros E [F C] d2 [->|Hc]; exists x, bytes; auto. Qed.

Lemma with_twice x y t : with_destruction x (with_destruction y t) = with_destruction x t.
Proof. done. Qed.

Lemma write_tombstoned t x y b0 d o d' :
  Tombstone.encode (with_destruction x t) = Ok b0 → den_settled d FILE_NAME (Some b0) →
  write (with_destruction y t) d = (o, d') → tombstoned t d'.
Proof.
  intros E0 S0 Hw. unfold write in Hw. destruct (Tombstone.encode (with_destruction y t)) as [bytes|] eqn:E.
  2: { injection Hw as _ <-. by eapply settled_tombstoned. }
  destruct o as [e| |e].
  - apply den_replace_not in Hw as [_ K]; [|apply tomb_plain]. eapply settled_tombstoned; [exact E0|by apply K].
  - apply den_replace_durable in Hw; [|apply tomb_plain]. by eapply settled_tombstoned.
  - apply den_replace_unknown in Hw as [F C]; [|apply tomb_plain]. intros d2 [->|Hc]; [eauto|].
    destruct (C _ d2 S0 Hc) as [->| ->]; eauto.
Qed.

Lemma finish_tombstoned t x bytes d r d' :
  Tombstone.encode (with_destruction x t) = Ok bytes → den_settled d FILE_NAME (Some bytes) →
  finish t d = (r, d') → tombstoned t d'.
Proof.
  intros E S. unfold finish. pose proof (destroy_den_saves d) as (_ & _ & K1).
  destruct (destroy_den d) as [[u|] d1]; [|intros [= _ <-]; eapply settled_tombstoned; [exact E|by apply K1]].
  pose proof (clean_saves FILE_NAME d1) as (_ & _ & K2). cbn [snd] in K1.
  destruct (den_is_clean d1) as [[[]|] d2]; cbn [snd] in K2;
    try (intros [= _ <-]; eapply settled_tombstoned; [exact E|by apply K2, K1]).
  destruct (write _ d2) as [o d3] eqn:E3. intros [= _ <-].
  eapply write_tombstoned; [exact E|by apply K2, K1|exact E3].
Qed.

Lemma encode_with x t bytes : Tombstone.encode t = Ok bytes → t.(t_destruction) = x →
  Tombstone.encode (with_destruction x t) = Ok bytes.
Proof. intros E <-. by destruct t. Qed.

Lemma bury_safe t d o d' : bury t d = (o, d') →
  match o with None => spared d d' | Some _ => tombstoned t d' end.
Proof.
  unfold bury. destruct (write t d) as [w d1] eqn:Ew.
  assert (spared d d1) as Sp by (intros m Hm Hne; by eapply write_other).
  destruct w; [by intros [= <- <-]| |by intros [= <- <-]].
  destruct (finish t d1) as [x d2] eqn:Ef. intros [= <- <-]. unfold write in Ew.
  destruct (Tombstone.encode t) as [bytes|] eqn:E; [|done]. apply den_replace_durable in Ew; [|apply tomb_plain].
  eapply finish_tombstoned; [by eapply encode_with|exact Ew|exact Ef].
Qed.

Lemma spared_refl d : spared d d.
Proof. by intros m _ _. Qed.

(** C23: no destruction without a Tombstone. Whatever system calls fail and
    wherever the process stops in retirement, in death, or in the start-up of
    a node with a dead head: either no file but the Tombstone was touched, or
    a Tombstone of the right kind (for a death, with that statement) is on
    disk, and any power failure after that still leaves one. *)
Theorem no_destruction_without_tombstone confirm s head w :
  (let d' := (retire confirm w).2.(disk) in
   spared w.(disk) d' ∨ ∃ t, t.(t_kind) = KRetirement ∧ tombstoned t d')
  ∧ (let d' := (die s w).2.(disk) in
     spared w.(disk) d' ∨ ∃ t, t.(t_kind) = KDeath ∧ t.(t_death) = Some s ∧ tombstoned t d')
  ∧ (let d' := (dead_head_at_startup head w.(disk)).2 in
     spared w.(disk) d' ∨ ∃ t s', t.(t_kind) = KDeath ∧ t.(t_death) = Some s'
       ∧ Gov.core_hash s'.(Gov.core) = head.(Gov.h_hash) ∧ tombstoned t d').
Proof.
  split_and!.
  - unfold retire. destruct (l_pelt (live w)) as [pelt|]; [|left; apply spared_refl].
    destruct (negb _); [left; apply spared_refl|]. destruct (negb _); [left; apply spared_refl|].
    destruct (retirement Incomplete software_name) as [t|] eqn:Et; [|left; apply spared_refl].
    assert (t.(t_kind) = KRetirement) as Hk by (unfold retirement in Et; ww_inv; done).
    pose proof (bury_safe t (disk w)) as B. unfold bury in B. cbn [disk on_live].
    destruct (write t (disk w)) as [[] d1]; cbn [snd fst disk on_live on_disk];
      try (left; by apply (B None d1)).
    destruct (finish t d1) as [x d2]. right. exists t. split; [done|]. by apply (B (Some x) d2).
  - unfold die. cbn [on_live live disk]. destruct (l_den _); [|left; apply spared_refl].
    destruct (death s Incomplete software_name) as [t|] eqn:Et; [|left; apply spared_refl].
    assert (t.(t_kind) = KDeath ∧ t.(t_death) = Some s) as Hk by (unfold death in Et; ww_inv; done).
    destruct (bury t (disk w)) as [o d1] eqn:B. apply bury_safe in B. cbn.
    destruct o as [x|]; [right|by left]. exists t. split; [apply Hk|]. split; [apply Hk|done].
  - unfold dead_head_at_startup. destruct (archived_death (disk w) head) as [s'|] eqn:Ea; [|left; apply spared_refl].
    destruct (death s' Incomplete software_name) as [t|] eqn:Et; [|left; apply spared_refl].
    assert (t.(t_kind) = KDeath ∧ t.(t_death) = Some s') as [Hk1 Hk2] by (unfold death in Et; ww_inv; done).
    destruct (bury t (disk w)) as [o d1] eqn:B. apply bury_safe in B. destruct o as [x|]; cbn; [right|by left].
    exists t, s'. split; [done|]. split; [done|]. split; [|done].
    unfold archived_death in Ea. ww_inv. by bool_simpl.
Qed.

(** ** An interrupted destruction is finished *)

Lemma each_destroy_calm l : ∀ d, den_calm d → NoDup l → (∀ x, x ∈ l → plain x ∨ is_Some (den_file d x)) →
  ∃ d', each w_destroy l d = (Ok (), d') ∧ den_calm d'
    ∧ (∀ x, x ∈ l → den_file d' x = None) ∧ (∀ m, m ∉ l → den_same m d d').
Proof.
  induction l as [|x l IH]; intros d C ND Hl; cbn [each].
  { exists d. split; [done|]. split; [done|]. split; [set_solver|done]. }
  apply NoDup_cons in ND as [Hx ND].
  destruct (calm_destroy x d C) as (d1 & E1 & C1); [apply Hl; by left|].
  pose proof (wipe_destroy _ _ _ _ E1) as [K1 G1].
  destruct (IH d1 C1 ND) as (d2 & E2 & C2 & G2 & K2).
  { intros y Hy. destruct (Hl y) as [?|Hs]; [by right|by left|]. right.
    destruct (K1 y) as [-> _]; [intros ->; done|done]. }
  exists d2. split; [|split; [done|split]].
  - unfold mbind, dio_bind, w_destroy at 1. rewrite E1. exact E2.
  - intros y [->|Hy]%elem_of_cons; [|by apply G2]. destruct (K2 x Hx) as [-> _]. by apply G1.
  - intros m Hm. etransitivity; [apply K1; set_solver|apply K2; set_solver].
Qed.

(** The two listings of [destroy_den]. *)
Lemma sweep_calm (P : str → Prop) `{!∀ x, Decision (P x)} d : den_calm d →
  ∃ d', (names ← w_entries; each w_destroy (filter P names)) d = (Ok (), d') ∧ den_calm d'
    ∧ (∀ m, P m → den_file d' m = None) ∧ (∀ m, ¬ P m → den_same m d d')
    ∧ (∀ m, den_file d m = None → den_file d' m = None).
Proof.
  intros C. destruct (calm_entries d C) as (l & d1 & E1 & C1). pose proof (wipe_entries _ _ _ E1) as [K1 L].
  destruct (L l eq_refl) as [ND I].
  destruct (each_destroy_calm (filter P l) d1 C1) as (d2 & E2 & C2 & G2 & K2).
  { by apply NoDup_filter. }
  { intros x [_ Hx]%list_elem_of_filter. right. destruct (K1 x) as [-> _]. by apply I. }
  exists d2. split; [unfold mbind, dio_bind, w_entries; by rewrite E1|]. split; [done|].
  assert (∀ m, den_file d m = None → den_file d2 m = None) as Gone.
  { intros m Hm. destruct (K2 m) as [-> _]; [|destruct (K1 m) as [-> _]; done].
    intros [_ Hx]%list_elem_of_filter. apply I in Hx as [? ?]. congruence. }
  split_and!; [| |done].
  - intros m Hm. destruct (den_file d m) eqn:Em; [|by apply Gone]. apply G2, list_elem_of_filter.
    split; [done|]. apply I. eauto.
  - intros m Hm. etransitivity; [apply K1|apply K2]. rewrite list_elem_of_filter. tauto.
Qed.

Lemma dio_bind_run {A B} (c : dio D A) (f : A → dio D B) d :
  (c ≫= f) d = match c d with (Ok a, d') => f a d' | (Err e, d') => (Err e, d') end.
Proof. done. Qed.

Lemma dio_bind_assoc {A B C} (c : dio D A) (f : A → dio D B) (g : B → dio D C) d :
  (a ← c; b ← f a; g b) d = (b ← (a ← c; f a); g b) d.
Proof. rewrite !dio_bind_run. by destruct (c d) as [[a|] d']. Qed.

Lemma destroy_den_calm d : den_calm d → is_Some (den_file d FILE_NAME) →
  ∃ d', destroy_den d = (Ok (), d') ∧ den_calm d' ∧ (∀ m, keep m = false → den_file d' m = None)
    ∧ den_lock_ok d' DEN_LOCK ∧ is_Some (den_file d' FILE_NAME).
Proof.
  intros C Ht. pose proof (destroy_den_saves d) as (Kt & _ & _). unfold destroy_den in *.
  destruct (calm_destroy (lit "pelt.json") d C) as (d1 & E1 & C1); [left; split; [by vm_compute|by intros ?]|].
  rewrite dio_bind_run in Kt |- *. unfold w_destroy at 1 in Kt. unfold w_destroy at 1. rewrite E1 in Kt |- *.
  destruct (sweep_calm (λ n, starts_with (lit "security_state_") n = true) d1 C1) as (d2 & E2 & C2 & _ & _ & _).
  rewrite dio_bind_assoc, dio_bind_run, E2 in Kt |- *.
  destruct (sweep_calm (λ n, keep n = false) d2 C2) as (d3 & E3 & C3 & G3 & K3 & _).
  rewrite dio_bind_assoc, dio_bind_run, E3 in Kt |- *.
  destruct (calm_inert DEN_LOCK d3 C3 lock_plain) as (b & d4 & E4 & C4 & Hb & _).
  pose proof (wipe_inert _ _ _ _ E4) as [K4 L4].
  rewrite dio_bind_run in Kt |- *. unfold w_inert in Kt |- *. rewrite E4 in Kt |- *.
  assert (∃ d5, (if b : bool then mret () else w_scrub DEN_LOCK) d4 = (Ok (), d5) ∧ den_calm d5
    ∧ den_lock_ok d5 DEN_LOCK ∧ ∀ m, m ≠ DEN_LOCK → den_same m d4 d5) as (d5 & E5 & C5 & L5 & K5).
  { destruct b; [exists d4; split; [done|]; split; [done|]; split; [by apply L4|done]|].
    destruct (calm_scrub DEN_LOCK d4 C4 lock_plain) as (d5 & E5 & C5 & L5 & _).
    { destruct (K4 DEN_LOCK) as [-> _]. by apply Hb. }
    exists d5. split; [done|]. split; [done|]. split; [done|]. intros m Hm. by apply (wipe_scrub _ _ _ _ E5). }
  rewrite dio_bind_run, E5 in Kt |- *. destruct (calm_sync d5 C5) as (d6 & E6 & C6).
  unfold w_sync in Kt |- *. rewrite E6 in Kt |- *. cbn [snd] in Kt. pose proof (wipe_sync _ _ _ E6) as [K6 _].
  exists d6. split; [done|]. split; [done|]. split_and!.
  - intros m Hm. assert (m ≠ DEN_LOCK) as Hne by (intros ->; by vm_compute in Hm).
    destruct (K6 m) as [-> _]. destruct (K5 m Hne) as [-> _]. destruct (K4 m) as [-> _]. by apply G3.
  - by apply (K6 DEN_LOCK).
  - by rewrite Kt.
Qed.

Lemma clean_calm d : den_calm d → (∀ m, keep m = false → den_file d m = None) → den_lock_ok d DEN_LOCK →
  is_Some (den_file d FILE_NAME) → ∃ d', den_is_clean d = (Ok true, d') ∧ den_calm d'.
Proof.
  intros C G L T. unfold den_is_clean. destruct (calm_entries d C) as (l & d1 & E1 & C1).
  pose proof (wipe_entries _ _ _ E1) as [K1 I]. destruct (I l eq_refl) as [_ Il].
  rewrite dio_bind_run. unfold w_entries. rewrite E1.
  assert (forallb keep l = true) as ->.
  { apply forallb_forall. intros x Hx%list_elem_of_In. apply Il in Hx as [b Hx].
    destruct (keep x) eqn:Ek; [done|]. by rewrite (G x Ek) in Hx. }
  rewrite bool_decide_eq_true_2 by by apply Il. cbn [andb]. unfold w_inert.
  destruct (calm_inert DEN_LOCK d1 C1 lock_plain) as (b & d2 & E2 & C2 & _ & Hb).
  rewrite Hb in E2 by by apply (K1 DEN_LOCK). eauto.
Qed.

Lemma write_calm t bytes d : den_calm d → Tombstone.encode t = Ok bytes →
  ∃ d', write t d = (DurablyCommitted, d') ∧ den_calm d' ∧ den_file d' FILE_NAME = Some bytes.
Proof.
  intros C E. unfold write. rewrite E. apply encode_Ok in E as [_ Hl].
  destruct (calm_replace FILE_NAME bytes d C tomb_plain) as (d' & E & C' & _).
  { etransitivity; [exact Hl|]. apply Nat.leb_le. vm_compute. reflexivity. }
  exists d'. split; [done|]. split; [done|]. by apply den_replace_durable in E as [? _]; [|apply tomb_plain].
Qed.

Lemma finish_calm t bytes d : den_calm d → is_Some (den_file d FILE_NAME) →
  Tombstone.encode (with_destruction Complete t) = Ok bytes → ∃ d', finish t d = (Complete, d').
Proof.
  intros C T E. unfold finish. destruct (destroy_den_calm d C T) as (d1 & -> & C1 & G1 & L1 & T1).
  destruct (clean_calm d1 C1 G1 L1 T1) as (d2 & -> & C2).
  destruct (write_calm _ bytes d2 C2 E) as (d3 & -> & _). eauto.
Qed.

(** A Den that was just opened: what is seen is on disk. *)
Definition booted (d : D) : Prop := ∀ m, den_settled d m (den_file d m).

Lemma startup_finishes t bytes bi bc d :
  booted d → den_calm d → den_file d FILE_NAME = Some bytes → Tombstone.parse bytes = Ok t →
  Tombstone.encode (with_destruction Incomplete t) = Ok bi → Tombstone.encode (with_destruction Complete t) = Ok bc →
  ∃ d', at_startup d = (Ok (Some (kind_text t.(t_kind) ++ lit " tombstone, destruction complete")), d') ∧ emptied d'.
Proof.
  intros Bo C F P Ei Ec. unfold at_startup.
  rewrite (den_read_quiet d FILE_NAME), F by (first [by apply calm_quiet|apply tomb_plain|
    intros b Hb; rewrite F in Hb; injection Hb as <-; apply tombstone_parse_inv in P as [_ P];
    apply encode_Ok in P as [_ Hl]; lia]).
  rewrite P.
  assert (∀ d1, den_calm d1 → is_Some (den_file d1 FILE_NAME) →
    ∃ d', finish (with_destruction Incomplete t) d1 = (Complete, d') ∧ emptied d') as Fin.
  { intros d1 C1 T1. destruct (finish_calm (with_destruction Incomplete t) bc d1) as (d' & Ef); [done..|].
    exists d'. split; [done|]. by destruct (complete_means_empty_sound _ _ _ Ef). }
  destruct (is_complete (t_destruction t)) eqn:Hc.
  - pose proof (clean_saves FILE_NAME d) as (K & _ & _).
    destruct (den_is_clean d) as [[[]|] d1] eqn:Ecl.
    + exists d1. split; [done|]. pose proof (clean_Ok _ _ Ecl) as (G & L & T).
      assert (∀ m, den_same m d d1) as Ks by (intros m; pose proof (clean_saves m d) as Km; by rewrite Ecl in Km).
      split_and!; [|done|by destruct (Ks FILE_NAME) as [-> _]].
      intros m Hm Hk. apply (Ks m). rewrite <- (G m Hk). apply Bo.
    + cbn [snd] in K.
      assert (den_calm d1) as C1.
      { unfold den_is_clean in Ecl. destruct (calm_entries d C) as (l & dx & Ex & Cx).
        rewrite dio_bind_run in Ecl. unfold w_entries in Ecl. rewrite Ex in Ecl.
        destruct (_ && _); [|by injection Ecl as <-].
        unfold w_inert in Ecl. destruct (calm_inert DEN_LOCK dx Cx lock_plain) as (b & dy & Ey & Cy & _).
        rewrite Ey in Ecl. by injection Ecl as _ <-. }
      destruct (write_calm _ bi d1 C1 Ei) as (d2 & -> & C2 & F2).
      destruct (Fin d2 C2) as (d3 & -> & Em); [eauto|]. by exists d3.
    + exfalso. unfold den_is_clean in Ecl. destruct (calm_entries d C) as (l & dx & Ex & Cx).
      rewrite dio_bind_run in Ecl. unfold w_entries in Ecl. rewrite Ex in Ecl.
      destruct (_ && _); [|done].
      unfold w_inert in Ecl. destruct (calm_inert DEN_LOCK dx Cx lock_plain) as (b & dy & Ey & Cy & _).
      by rewrite Ey in Ecl.
  - destruct (Fin d C) as (d3 & -> & Em); [eauto|]. by exists d3.
Qed.

(** C22: an interrupted destruction is finished at the next start. Once the
    Tombstone was durable, whatever failed in the destruction and whenever
    power failed: a start on a Den whose system calls work again reports the
    destruction complete, and nothing but the Tombstone and an inert lock
    file is left, durably. *)
Theorem interrupted_destruction_resumes t bi bc x d d1 d2 :
  tombstone_wf t →
  Tombstone.encode (with_destruction Incomplete t) = Ok bi →
  Tombstone.encode (with_destruction Complete t) = Ok bc →
  bury t d = (Some x, d1) → den_crash d1 d2 → den_calm d2 →
  ∃ d3, at_startup d2 = (Ok (Some (kind_text t.(t_kind) ++ lit " tombstone, destruction complete")), d3)
    ∧ emptied d3.
Proof.
  intros W Ei Ec Hb Hc C. apply bury_safe in Hb. destruct (Hb d2) as (y & bytes & Ey & F); [by right|].
  apply (startup_finishes (with_destruction y t) bytes bi bc); try done.
  - intros m. by apply (den_crash_settled d1).
  - apply tombstone_parse_encode; [|done]. destruct W as [W1 W2]. by split.
Qed.

(** Start-up goes on only without a Tombstone file. *)
Lemma at_startup_None d d1 : at_startup d = (Ok None, d1) → den_file d FILE_NAME = None ∧ d1 = d.
Proof.
  unfold at_startup.
  destruct (den_read d FILE_NAME _) as [[bytes|]|] eqn:E; [|intros [= <-]; by apply den_read_file in E|done].
  destruct (Tombstone.parse bytes) as [t|]; [|done].
  assert (∀ d1 d2, (let '(x, d2) := finish (with_destruction Incomplete t) d1 in
    (Ok (Some (kind_text t.(t_kind) ++ lit " tombstone, destruction " ++ label x)), d2))
    ≠ (Ok (E := IoError) None, d2)) as N by (intros ? ?; by destruct (finish _ _)).
  destruct (is_complete (t_destruction t)); [|by intros ?%N].
  destruct (den_is_clean d) as [[[]|] d2]; [done| |done].
  destruct (write _ d2) as [[] d3]; [done|by intros ?%N|done].
Qed.

(** A Tombstone is never overlooked. Start-up goes on to load the node's
    state only if there is no Tombstone file; a file that is there but is
    not a Tombstone, or cannot be read, stops the start with an error and
    changes nothing. *)
Theorem startup_never_overlooks_tombstone d :
  ((at_startup d).1 = Ok None → den_file d FILE_NAME = None ∧ (at_startup d).2 = d)
  ∧ (∀ bytes, den_file d FILE_NAME = Some bytes → Tombstone.parse bytes = Err InvalidTombstone →
      ∃ e, at_startup d = (Err e, d)).
Proof.
  split.
  - destruct (at_startup d) as [r d1] eqn:E. cbn [fst snd]. intros ->. by apply at_startup_None in E.
  - intros bytes F P. unfold at_startup. destruct (den_read d FILE_NAME _) as [[b|]|] eqn:E; [| |eauto].
    + apply den_read_file in E. rewrite F in E. injection E as ->. rewrite P. eauto.
    + apply den_read_file in E. congruence.
Qed.

End terminal.
End TerminalSpec.

(** A Den whose deletions fail until the power is cycled. *)
Module ToyWipe.
Import LocalFs.

Record ToyDisk : Type := mkToy { files : gmap str (list byte); broken : bool }.

Import ToyDen (toy_over, toy_over_spec).
#[export] Instance toy_disk : Den ToyDisk := {|
  den_read d nm limit := match d.(files) !! nm with
    | Some b => if (limit <? length b)%nat then Err Unsafe else Ok (Some b)
    | None => Ok None
    end;
  den_replace nm data c d := if toy_over data then (NotCommitted Unsafe, d)
    else (DurablyCommitted, mkToy (<[nm := data]> d.(files)) d.(broken));
  den_crash d d' := d' = mkToy d.(files) false;
  den_file d nm := d.(files) !! nm;
  den_quiet _ := True
|}.

Definition unless_broken {A} (a : A) (d d' : ToyDisk) : result IoError A * ToyDisk :=
  if d.(broken) then (Err SystemCall, d) else (Ok a, d').
#[export] Instance toy_wipe : DenWipe ToyDisk := {|
  den_entries d := unless_broken (map_to_list d.(files)).*1 d d;
  den_destroy nm d := unless_broken () d (mkToy (delete nm d.(files)) false);
  den_inert nm d := unless_broken (match d.(files) !! nm with Some b => bool_decide (b = []) | None => true end) d d;
  den_scrub nm d := unless_broken () d (mkToy (<[nm := []]> d.(files)) false);
  den_sync d := unless_broken () d d;
  den_lock_ok d nm := d.(files) !! nm = None ∨ d.(files) !! nm = Some [];
  den_calm d := d.(broken) = false
|}.

#[export] Instance toy_disk_laws : DenLaws ToyDisk.
Proof.
  split; unfold den_settled; cbn [den_read den_replace den_crash den_file den_quiet toy_disk].
  - intros d nm limit v E. destruct (files d !! nm) as [b|]; [destruct (limit <? length b)%nat|]; by simplify_eq.
  - intros d nm limit b. destruct (files d !! nm) as [x|]; [|done].
    destruct (Nat.ltb_spec limit (length x)); [done|]. by intros [= <-].
  - intros d nm limit _ _ Hl. destruct (files d !! nm) as [x|]; [|done]. specialize (Hl x eq_refl).
    destruct (Nat.ltb_spec limit (length x)); [lia|done].
  - done.
  - intros nm data c d d' E. apply toy_over_spec. by destruct (toy_over data).
  - intros nm data c d o d' m E _ _ Hne. destruct (toy_over data); injection E as _ <-; [done|]. cbn.
    rewrite lookup_insert_ne by done. split; [done|]. intros v [Hv _]. split; [done|]. intros d2 ->. cbn.
    by rewrite lookup_insert_ne.
  - intros nm data c d e d' E _. destruct (toy_over data); [|done]. by injection E as _ <-.
  - intros nm data c d d' E _. destruct (toy_over data); [done|]. injection E as <-. cbn. rewrite lookup_insert_eq.
    split; [done|]. intros d2 ->. cbn. by rewrite lookup_insert_eq.
  - intros nm data c d e d' E _. by destruct (toy_over data).
  - intros d d' nm v -> E. split; [done|]. by intros d2 ->.
Qed.

Lemma toy_same m d d' : d'.(files) !! m = d.(files) !! m → den_same m d d'.
Proof.
  intros E. split; [done|]. split; [cbn; by rewrite E|]. intros v [F C]. cbn in *. split; [cbn; congruence|].
  intros d2 E2. cbn in E2. subst d2. cbn. congruence.
Qed.

#[export] Instance toy_wipe_laws : DenWipeLaws ToyDisk.
Proof.
  split; cbn [den_read den_replace den_crash den_file den_quiet toy_disk den_entries den_destroy den_inert
    den_scrub den_sync den_lock_ok den_calm toy_wipe]; unfold unless_broken.
  - intros d r d'. destruct (broken d); intros [= <- <-]; (split; [by intros m; apply toy_same|]); [done|].
    intros l [= <-]. split; [apply NoDup_fst_map_to_list|]. intros m. rewrite list_elem_of_fmap. split.
    + intros ((k & b) & -> & Hb%elem_of_map_to_list). cbn. by rewrite Hb.
    + intros [b Hb]. exists (m, b). split; [done|by apply elem_of_map_to_list].
  - intros nm d r d'. destruct (broken d); intros [= <- <-]; (split; [intros m Hm; apply toy_same; cbn|]);
      [done|done|by rewrite lookup_delete_ne|]. intros _. cbn. by rewrite lookup_delete_eq.
  - intros nm d r d'. destruct (broken d); intros [= <- <-]; (split; [by intros m; apply toy_same|]); [done|].
    destruct (files d !! nm) as [b|]; [|by left]. destruct (bool_decide_reflect (b = [])) as [->|]; [by right|done].
  - intros nm d r d'. destruct (broken d); intros [= <- <-] m Hm; apply toy_same; [done|]. cbn.
    by rewrite lookup_insert_ne.
  - intros d r d'. destruct (broken d); intros [= <- <-]; (split; [by intros m; apply toy_same|]); [done|].
    intros _ m Hm. split; [done|]. by intros d2 ->.
  - intros nm data c d o d' m E _ _ Hne. apply toy_same. destruct (toy_over data); injection E as _ <-; [done|].
    cbn. by rewrite lookup_insert_ne.
  - done.
  - intros d C. rewrite C. eauto.
  - intros nm d C _. rewrite C. eauto.
  - intros nm d C _. rewrite C. eexists _, d. split; [done|]. split; [done|].
    destruct (files d !! nm) as [b|]; [|done]. split; [eauto|]. intros [?|[= ->]]; [done|].
    by apply bool_decide_eq_true_2.
  - intros nm d C _ _. rewrite C. eexists. split; [done|]. split; [done|]. cbn. rewrite lookup_insert_eq.
    split; [by right|eauto].
  - intros d C. rewrite C. eauto.
  - intros nm data d C _ Hl%toy_over_spec. rewrite Hl. eexists. split; [done|]. split; [done|].
    intros m Hm. cbn. by rewrite lookup_insert_ne.
Qed.

End ToyWipe.

Module TerminalDemo.
Import LocalFs State Tombstone TombstoneSpec TombstoneDemo Terminal TerminalSpec Toy ToyWipe.

Definition demo_tomb : Tombstone := mkTombstone KRetirement None Incomplete software_name.
(** A Den with a Pelt and a stray temporary file, whose deletions fail. *)
Definition demo_disk : ToyDisk :=
  mkToy (<[lit "pelt.json" := lit "secret"]> (<[lit ".state-00.tmp" := lit "x"]> (<[DEN_LOCK := []]> ∅))) true.
Definition demo_cut : ToyDisk := mkToy (bury demo_tomb demo_disk).2.(files) false.

Lemma demo_tomb_wf : tombstone_wf demo_tomb.
Proof. split; [vm_compute; reflexivity|exact I]. Qed.

Lemma interrupted_destruction_resumes_witness :
  ∃ d1, bury demo_tomb demo_disk = (Some Incomplete, d1) ∧
  ∃ d3, at_startup (mkToy d1.(files) false) = (Ok (Some (lit "retirement tombstone, destruction complete")), d3)
    ∧ emptied d3.
Proof.
  destruct (Tombstone.encode (with_destruction Incomplete demo_tomb)) as [bi|] eqn:Ei; [|vm_compute in Ei; discriminate Ei].
  destruct (Tombstone.encode (with_destruction Complete demo_tomb)) as [bc|] eqn:Ec; [|vm_compute in Ec; discriminate Ec].
  destruct (bury demo_tomb demo_disk) as [o d1] eqn:Hb.
  assert (o = Some Incomplete) as -> by (transitivity (bury demo_tomb demo_disk).1; [by rewrite Hb|vm_compute; reflexivity]).
  exists d1. split; [reflexivity|].
  exact (interrupted_destruction_resumes demo_tomb bi bc Incomplete demo_disk d1 (mkToy d1.(files) false)
    demo_tomb_wf Ei Ec Hb eq_refl eq_refl).
Defined.

Lemma complete_means_empty_witness :
  ∃ d', finish demo_tomb demo_cut = (Complete, d') ∧ emptied d'.
Proof.
  destruct (finish demo_tomb demo_cut) as [x d'] eqn:E.
  assert (x = Complete) as -> by (transitivity (finish demo_tomb demo_cut).1; [by rewrite E|vm_compute; reflexivity]).
  exists d'. split; [reflexivity|]. apply (complete_means_empty _ _ _ E).
Defined.

End TerminalDemo.
