(* ===== verification/Mutation.v ===== *)
(** * Control mutations ([werewolfd/src/control/mutation.rs])

    [Module Mutation]: every administrative change of a node. A candidate is
    prepared from the live state, persisted, and only then published. The
    mutation coordinator runs one mutation at a time and no other task writes
    the fields a mutation publishes, so a mutation is a function on a
    [World]; a mutation that returns early is an [Err] of the handler monad.

    Parameters: [serde_json]; the fresh secret of [generate_identity]; the
    TLS library's verdict on a Pelt; SHA-256; the clock; whether the
    sessions of a denied peer ended within the cleanup window. *)

From stdpp Require Import gmap.
From S2P Require Export Terminal.
From S2P Require Export GovernanceTools Admission.

Local Open Scope Z_scope.

Module Mutation.
Import LocalFs State Pelt.
Import StateValidation (PeerRecord, mkPeerRecord, pr_name, pr_fingerprint, pr_address, trust,
  pr_public_key_b64, FangProfile, mkFangProfile, fp_name, fp_peer).
Notation io A := (result IoError A).
#[export] Existing Instances ProtectedState.pj_peers ProtectedState.pj_profiles ProtectedState.pj_names
  ProtectedState.pj_silver ProtectedState.pj_mode ProtectedState.pj_current ProtectedState.pj_manifest
  ProtectedState.pj_governance ProtectedState.pj_policy Service.service_kind_eq_dec.

(** ** Requests and replies *)

Definition handled : list str :=
  [lit "pelt.init"; lit "pack.add"; lit "pack.set_address"; lit "pack.revoke"; lit "pack.remove";
   lit "target.policy.set"; lit "target.allow"; lit "target.remove"; lit "fang.profile.add";
   lit "fang.profile.remove"; lit "service.add"; lit "service.remove"; lit "service.publish";
   lit "service.unpublish"; lit "service.provider.add"; lit "service.provider.remove"; lit "governance.apply";
   lit "governance.sync_apply"; lit "den.retire"; lit "governance.auto_sync"; lit "route.set";
   lit "route.remove"; lit "discover.advertise"; lit "state.manifest.migrate"].
Definition handles (command : str) : bool := bool_decide (command ∈ handled).

Definition error (id code : str) : ControlResponse := response_err id code (lit "local state mutation rejected").

Definition service_kind (kind : str) : option Service.ServiceKind :=
  if bool_decide (kind = lit "tcp") then Some Service.Tcp
  else if bool_decide (kind = lit "http") then Some Service.Http
  else if bool_decide (kind = lit "https") then Some Service.Https
  else if bool_decide (kind = lit "ssh") then Some Service.Ssh
  else None.

Definition arg (req : ControlRequest) (field : str) : str :=
  trim (default [] (as_str (j_get req.(rq_args) field))).
Definition is_cmd (req : ControlRequest) (c : str) : bool := bool_decide (req.(rq_cmd) = c).

Definition num (n : nat) : Json := JNum (Z.of_nat n).

(** ** The handler monad *)

Definition em (D E A : Type) : Type := World D → result E A * World D.
#[export] Instance em_ret {D E} : MRet (em D E) := λ A a w, (Ok a, w).
#[export] Instance em_bind {D E} : MBind (em D E) := λ A B f m w,
  match m w with
  | (Ok a, w') => f a w'
  | (Err r, w') => (Err r, w')
  end.
Notation hm D A := (em D ControlResponse A).
(** [return r]. *)
Definition leave {D E A} (r : E) : em D E A := λ w, (Err r, w).
Definition leave_if {D E} (b : bool) (r : E) : em D E () := if b then leave r else mret ().
Definition get {D E A} (f : DaemonState → A) : em D E A := λ w, (Ok (f w.(live)), w).
Definition upd {D E} (f : DaemonState → DaemonState) : em D E () := λ w, (Ok (), on_live f w).
(** A computation that answers with a value of its own. *)
Definition run {D E A} (m : World D → A * World D) : em D E A := λ w, let '(a, w') := m w in (Ok a, w').
(** [let Some(x) = o else { return r }] and the like. *)
Definition or_leave {D E A} (o : option A) (r : E) : em D E A :=
  match o with Some a => mret a | None => leave r end.
Definition ok_or_leave {D E F A} (x : result F A) (r : E) : em D E A :=
  match x with Ok a => mret a | Err _ => leave r end.
(** The body of [handle]: the response, returned early or not. *)
Definition answer {D} (m : hm D ControlResponse) (w : World D) : ControlResponse * World D :=
  match m w with (Ok r, w') | (Err r, w') => (r, w') end.

(** ** Persistence *)

(** [discovery::operator::AdvertiseFile]. *)
Record AdvertiseFile : Type := mkAdvertise { ad_version : byte; ad_addresses : list str }.

(** [discovery::operator::CacheFile]: the records are base64 text. *)
Record CacheFile : Type := mkCache { ca_version : byte; ca_records : list str }.

Class MutationJson : Type := {
  mj_protected :: ProtectedState.ProtectedJson;
  mj_pelt :: Serde PeltIdentity;
  mj_services :: Serde (list Service.ServiceDefinition);
  mj_published :: Serde (list Published.PublishedService);
  mj_routes :: Serde (list Route.Route);
  mj_advertise :: Serde AdvertiseFile;
  mj_cache :: Serde CacheFile
}.

Definition AUTO_SYNC_FILE : str := lit "auto_sync.json".
Definition PUBLISHED_FILE : str := lit "published.json".
Definition ROUTES_FILE : str := lit "routes.json".
Definition ADVERTISE_FILE : str := lit "advertise.json".
Definition CACHE_FILE : str := lit "contacts.json".

(** [auto_sync::encode]. *)
Definition auto_sync_encode (enabled : bool) : list byte :=
  [x7b] ++ [x22] ++ lit "version" ++ [x22] ++ lit ":1," ++ [x22] ++ lit "enabled" ++ [x22] ++ lit ":"
  ++ (if enabled then lit "true" else lit "false") ++ [x7d].

Section mutation.
Context `{Crypto} `{Base64} `{MutationJson} `{Serde Tombstone.Document} `{DenWipe D}.

Definition finish_outcome (o : CommitOutcome) (w : World D) : io () * World D :=
  match o with
  | DurablyCommitted => (Ok (), w)
  | NotCommitted e => (Err e, w)
  | IndeterminateAfterRename e => (Err e, on_live (set_degraded true) w)
  end.

Definition durable_bytes (file : str) (bytes : list byte) (create_only : bool) (w : World D) : io () * World D :=
  if w.(live).(l_den) then
    let '(o, d) := den_replace file bytes create_only w.(disk) in finish_outcome o (on_disk d w)
  else (Err Other, w).
Definition durable {T} `{Serde T} (file : str) (candidate : T) (create_only : bool) (w : World D)
    : io () * World D :=
  durable_bytes file (to_vec candidate) create_only w.

Definition persist_discovery_cache (cache : CacheFile) (w : World D) : io () * World D :=
  durable CACHE_FILE cache false w.

Definition protected_from_live (s : DaemonState) : ProtectedState.State :=
  ProtectedState.mkState (Authority.is_locked s.(l_authority)) s.(l_peers) s.(l_policy) s.(l_profiles)
    s.(l_active) s.(l_governance).

Definition with_peers (l : list PeerRecord) (p : ProtectedState.State) : ProtectedState.State :=
  ProtectedState.mkState p.(ProtectedState.silver_locked) l p.(ProtectedState.target_policy)
    p.(ProtectedState.fang_profiles) p.(ProtectedState.active_profiles) p.(ProtectedState.governance).
Definition with_policy (v : TargetPolicy.TargetPolicy) (p : ProtectedState.State) : ProtectedState.State :=
  ProtectedState.mkState p.(ProtectedState.silver_locked) p.(ProtectedState.peers) v
    p.(ProtectedState.fang_profiles) p.(ProtectedState.active_profiles) p.(ProtectedState.governance).
Definition with_profiles (v : list FangProfile) (p : ProtectedState.State) : ProtectedState.State :=
  ProtectedState.mkState p.(ProtectedState.silver_locked) p.(ProtectedState.peers) p.(ProtectedState.target_policy)
    v p.(ProtectedState.active_profiles) p.(ProtectedState.governance).
Definition with_active (v : list str) (p : ProtectedState.State) : ProtectedState.State :=
  ProtectedState.mkState p.(ProtectedState.silver_locked) p.(ProtectedState.peers) p.(ProtectedState.target_policy)
    p.(ProtectedState.fang_profiles) v p.(ProtectedState.governance).
Definition with_silver (v : bool) (p : ProtectedState.State) : ProtectedState.State :=
  ProtectedState.mkState v p.(ProtectedState.peers) p.(ProtectedState.target_policy)
    p.(ProtectedState.fang_profiles) p.(ProtectedState.active_profiles) p.(ProtectedState.governance).
Definition with_governance (v : option Gov.Head) (p : ProtectedState.State) : ProtectedState.State :=
  ProtectedState.mkState p.(ProtectedState.silver_locked) p.(ProtectedState.peers) p.(ProtectedState.target_policy)
    p.(ProtectedState.fang_profiles) p.(ProtectedState.active_profiles) v.

Definition commit_protected (generation : Z) (candidate : ProtectedState.State) (w : World D) : io Z * World D :=
  if w.(live).(l_den) then
    match ProtectedState.commit generation candidate w.(disk) with
    | (ProtectedState.TDurablyCommitted next, d) =>
        (Ok next.(ProtectedState.number),
         on_live (set_generation (Some next.(ProtectedState.number))) (on_disk d w))
    | (ProtectedState.TNotCommitted e, d) => (Err e, on_disk d w)
    | (ProtectedState.TIndeterminate e, d) => (Err e, on_live (set_degraded true) (on_disk d w))
    end
  else (Err Other, w).

(** [.map(|_| ())]. *)
Definition unit_of {A} (x : io A * World D) : io () * World D :=
  (match x.1 with Ok _ => Ok () | Err e => Err e end, x.2).

Definition persist_protected_or_legacy {T} `{Serde T} (generation : option Z) (candidate : ProtectedState.State)
    (legacy_file : str) (legacy_value : T) (w : World D) : io () * World D :=
  match generation with
  | Some g => unit_of (commit_protected g candidate w)
  | None => durable legacy_file legacy_value false w
  end.

Definition persist_silver (locked : bool) (w : World D) : io () * World D :=
  let candidate := with_silver locked (protected_from_live w.(live)) in
  match w.(live).(l_generation) with
  | Some g => unit_of (commit_protected g candidate w)
  | None =>
      durable_bytes (lit "silver.json")
        ([x7b] ++ [x22] ++ lit "version" ++ [x22] ++ lit ":1," ++ [x22] ++ lit "mode" ++ [x22] ++ lit ":" ++ [x22]
         ++ (if locked then lit "locked" else lit "open") ++ [x22; x7d]) false w
  end.

Definition persist_active (candidate : list str) (w : World D) : io () * World D :=
  if w.(live).(l_degraded) then (Err Other, w)
  else match StateValidation.active candidate w.(live).(l_profiles) with
  | Err _ => (Err InvalidData, w)
  | Ok _ =>
      match persist_protected_or_legacy w.(live).(l_generation)
              (with_active candidate (protected_from_live w.(live))) (lit "active_fangs.json") candidate w with
      | (Ok _, w') => (Ok (), on_live (set_active candidate) w')
      | (Err e, w') => (Err e, w')
      end
  end.

(** A failed save returns the response. *)
Definition saved {E} (m : World D → io () * World D) (r : E) : em D E () := λ w,
  match m w with (Ok _, w') => (Ok (), w') | (Err _, w') => (Err r, w') end.

(** ** The Pelt, the manifest, the switch of automatic sync *)

Definition auto_sync_cmd (req : ControlRequest) : hm D ControlResponse :=
  let st := as_str (j_get req.(rq_args) (lit "state")) in
  enabled ← or_leave (if bool_decide (st = Some (lit "on")) then Some true
                      else if bool_decide (st = Some (lit "off")) then Some false else None)
              (error req.(rq_id) (lit "AUTO_SYNC_INVALID"));
  _ ← saved (durable_bytes AUTO_SYNC_FILE (auto_sync_encode enabled) false)
        (error req.(rq_id) (lit "AUTO_SYNC_SAVE_FAILED"));
  _ ← upd (set_auto_sync enabled);
  mret (response_ok req.(rq_id) (JObj [(lit "enabled", JBool enabled); (lit "status", JStr (lit "saved"))])).

Variables (secret : array 32) (tls_ok : PeltIdentity → bool) (home : str).

(** A Den that is open and whose Tombstone is not known to be absent. *)
Definition tombstone_found (w : World D) : bool :=
  w.(live).(l_den) &&
  match den_read w.(disk) Terminal.FILE_NAME (Tombstone.MAX_LEN + 1) with Ok None => false | _ => true end.

Definition pelt_init (req : ControlRequest) : hm D ControlResponse :=
  pelt ← get l_pelt;
  _ ← leave_if (bool_decide (is_Some pelt)) (error req.(rq_id) (lit "ALREADY_INITIALIZED"));
  found ← run (λ w, (tombstone_found w, w));
  _ ← leave_if found (error req.(rq_id) (lit "LIFECYCLE_TOMBSTONE"));
  let identity := generate_identity secret in
  _ ← ok_or_leave (StateValidation.identity identity) (error req.(rq_id) (lit "PELT_INVALID"));
  _ ← leave_if (negb (tls_ok identity)) (error req.(rq_id) (lit "PELT_TLS_INVALID"));
  _ ← saved (durable (lit "pelt.json") identity true) (error req.(rq_id) (lit "PELT_SAVE_FAILED"));
  _ ← upd (λ s, set_tls_ready true (set_pelt_ready true (set_tls (Some identity) (set_pelt (Some identity) s))));
  mret (response_ok req.(rq_id) (JObj [(lit "fingerprint", JStr identity.(fingerprint));
                                      (lit "saved_to", JStr (home ++ lit "/pelt.json"))])).

Definition manifest_migrate (req : ControlRequest) : hm D ControlResponse :=
  g ← get l_generation;
  _ ← leave_if (bool_decide (is_Some g)) (error req.(rq_id) (lit "MANIFEST_ALREADY_ENABLED"));
  den ← get l_den;
  _ ← leave_if (negb den) (error req.(rq_id) (lit "MANIFEST_MIGRATION_FAILED"));
  outcome ← run (λ w, let '(o, d) := ProtectedState.migrate w.(disk) in (o, on_disk d w));
  match outcome with
  | ProtectedState.TDurablyCommitted g =>
      _ ← upd (set_generation (Some g.(ProtectedState.number)));
      mret (response_ok req.(rq_id) (JObj [(lit "generation", JNum g.(ProtectedState.number))]))
  | ProtectedState.TNotCommitted _ => leave (error req.(rq_id) (lit "MANIFEST_MIGRATION_FAILED"))
  | ProtectedState.TIndeterminate _ =>
      _ ← upd (set_degraded true);
      leave (error req.(rq_id) (lit "MANIFEST_MIGRATION_INDETERMINATE"))
  end.

(** ** Target policy *)

Definition target_candidate (req : ControlRequest) : hm D TargetPolicy.TargetPolicy :=
  let invalid := error req.(rq_id) (lit "TARGET_POLICY_INVALID") in
  if is_cmd req (lit "target.policy.set") then
    canonical ← ok_or_leave (TargetPolicy.canonicalize (arg req (lit "document"))) invalid;
    ok_or_leave (TargetPolicy.parse_canonical canonical) invalid
  else
    let peer := arg req (lit "peer") in
    target ← or_leave (parse_socket_addr (arg req (lit "target"))) (error req.(rq_id) (lit "TARGET_INVALID"));
    peers ← get l_peers;
    current ← get l_policy;
    fp ← or_leave ((λ x, pr_fingerprint x.2) <$>
                   list_find (λ r : PeerRecord, pr_name r = peer ∨ pr_fingerprint r = peer) peers)
           (error req.(rq_id) (lit "PACK_NOT_FOUND"));
    let result := if is_cmd req (lit "target.allow") then TargetPolicy.allow_exact current fp target
                  else TargetPolicy.remove_exact current fp target in
    ok_or_leave result
      (error req.(rq_id) (if is_cmd req (lit "target.remove") then lit "TARGET_NOT_FOUND"
                          else lit "TARGET_POLICY_INVALID")).

Definition target_cmd (req : ControlRequest) : hm D ControlResponse :=
  parsed ← target_candidate req;
  canonical ← ok_or_leave (TargetPolicy.canonical_from_runtime parsed)
                (error req.(rq_id) (lit "TARGET_POLICY_INVALID"));
  s ← get id;
  _ ← saved (λ w, match s.(l_generation) with
                  | Some g => unit_of (commit_protected g (with_policy parsed (protected_from_live s)) w)
                  | None => durable_bytes (lit "target_policy.json") canonical false w
                  end) (error req.(rq_id) (lit "TARGET_POLICY_SAVE_FAILED"));
  _ ← upd (set_policy parsed);
  mret (response_ok req.(rq_id) (JObj [(lit "status",
    JStr (if is_cmd req (lit "target.allow") then lit "target_allowed"
          else if is_cmd req (lit "target.remove") then lit "target_removed"
          else lit "target_policy_updated"))])).

(** ** Services *)

Definition service_cmd (req : ControlRequest) : hm D ControlResponse :=
  let err code := error req.(rq_id) code in
  services ← get l_services;
  let name := arg req (lit "name") in
  _ ← leave_if (bool_decide (name = [])) (err (lit "SERVICE_INVALID"));
  '(candidate, status) ←
    (if is_cmd req (lit "service.add") then
       _ ← leave_if (existsb (λ s, bool_decide (s.(Service.sd_name) = name)) services) (err (lit "SERVICE_EXISTS"));
       kind ← or_leave (service_kind (arg req (lit "kind"))) (err (lit "SERVICE_INVALID"));
       mret (services ++ [Service.mkService name (arg req (lit "peer")) (arg req (lit "target")) kind []],
             lit "added")
     else
       let candidate := filter (λ s, s.(Service.sd_name) ≠ name) services in
       _ ← leave_if (length candidate =? length services)%nat (err (lit "SERVICE_NOT_FOUND"));
       mret (candidate, lit "removed"));
  _ ← ok_or_leave (Service.validate_services candidate) (err (lit "SERVICE_INVALID"));
  _ ← saved (durable (lit "services.json") candidate false) (err (lit "SERVICE_SAVE_FAILED"));
  _ ← upd (set_services candidate);
  mret (response_ok req.(rq_id) (JObj [(lit "status", JStr status); (lit "name", JStr name);
                                      (lit "services", num (length candidate))])).

Definition publish_cmd (req : ControlRequest) : hm D ControlResponse :=
  let err code := error req.(rq_id) code in
  published ← get l_published;
  let name := arg req (lit "name") in
  _ ← leave_if (bool_decide (name = [])) (err (lit "SERVICE_INVALID"));
  '(candidate, status) ←
    (if is_cmd req (lit "service.publish") then
       _ ← leave_if (existsb (λ s, bool_decide (s.(Published.ps_name) = name)) published) (err (lit "SERVICE_EXISTS"));
       kind ← or_leave (service_kind (arg req (lit "kind"))) (err (lit "SERVICE_INVALID"));
       mret (published ++ [Published.mkPublished name kind (arg req (lit "target"))], lit "published")
     else
       let candidate := filter (λ s, s.(Published.ps_name) ≠ name) published in
       _ ← leave_if (length candidate =? length published)%nat (err (lit "SERVICE_NOT_FOUND"));
       mret (candidate, lit "unpublished"));
  _ ← ok_or_leave (Published.validate_published candidate) (err (lit "SERVICE_INVALID"));
  _ ← saved (durable PUBLISHED_FILE candidate false) (err (lit "SERVICE_SAVE_FAILED"));
  _ ← upd (set_published candidate);
  mret (response_ok req.(rq_id) (JObj [(lit "status", JStr status); (lit "name", JStr name);
                                      (lit "published", num (length candidate))])).

(** The change of one service's providers. *)
Definition provider_change (req : ControlRequest) (service : Service.ServiceDefinition)
    : result ControlResponse (Service.ServiceDefinition * str) :=
  let err code := error req.(rq_id) code in
  let peer := arg req (lit "peer") in
  if is_cmd req (lit "service.provider.add") then
    let kind := arg req (lit "kind") in
    if negb (bool_decide (kind = [])) && negb (bool_decide (service_kind kind = Some service.(Service.sd_kind)))
    then Err (err (lit "SERVICE_INVALID"))
    else Ok (Service.mkService service.(Service.sd_name) service.(Service.sd_peer) service.(Service.sd_target)
               service.(Service.sd_kind)
               (service.(Service.fallbacks) ++ [Service.mkProvider peer (arg req (lit "target"))]),
             lit "provider_added")
  else if bool_decide (service.(Service.sd_peer) = peer) then
    match service.(Service.fallbacks) with
    | [] => Err (err (lit "SERVICE_INVALID"))
    | next :: rest =>
        Ok (Service.mkService service.(Service.sd_name) next.(Service.sp_peer) next.(Service.sp_target)
              service.(Service.sd_kind) rest, lit "provider_removed")
    end
  else
    let rest := filter (λ p, p.(Service.sp_peer) ≠ peer) service.(Service.fallbacks) in
    if (length rest =? length service.(Service.fallbacks))%nat then Err (err (lit "SERVICE_NOT_FOUND"))
    else Ok (Service.mkService service.(Service.sd_name) service.(Service.sd_peer) service.(Service.sd_target)
               service.(Service.sd_kind) rest, lit "provider_removed").

Definition provider_cmd (req : ControlRequest) : hm D ControlResponse :=
  let err code := error req.(rq_id) code in
  services ← get l_services;
  let name := arg req (lit "name") in
  '(i, service) ← or_leave (list_find (λ s, s.(Service.sd_name) = name) services) (err (lit "SERVICE_NOT_FOUND"));
  '(service', status) ← (λ w, (provider_change req service, w));
  let candidate := <[i := service']> services in
  _ ← ok_or_leave (Service.validate_services candidate) (err (lit "SERVICE_INVALID"));
  _ ← saved (durable (lit "services.json") candidate false) (err (lit "SERVICE_SAVE_FAILED"));
  _ ← upd (set_services candidate);
  mret (response_ok req.(rq_id) (JObj [(lit "status", JStr status); (lit "name", JStr name);
    (lit "peer", JStr (arg req (lit "peer")));
    (lit "providers", num (length service'.(Service.fallbacks) + 1))])).

(** ** Routes *)

Definition route_cmd (req : ControlRequest) : hm D ControlResponse :=
  let err code := error req.(rq_id) code in
  routes ← get l_routes;
  peers ← get l_peers;
  let peer := arg req (lit "peer") in
  '(candidate, status) ←
    (if is_cmd req (lit "route.set") then
       let via := arg req (lit "via") in
       let hop := arg req (lit "hop") in
       hop ← or_leave (if bool_decide (hop = []) then Some Route.Quic else Route.hop_parse hop)
               (err (lit "ROUTE_INVALID"));
       _ ← leave_if (negb (forallb (λ name, existsb (λ m, bool_decide (pr_name m = name)) peers) [peer; via]))
             (err (lit "ROUTE_INVALID"));
       let route := Route.mkRoute peer via hop in
       mret match list_find (λ r, r.(Route.r_peer) = peer) routes with
            | Some (i, _) => (<[i := route]> routes, lit "updated")
            | None => (routes ++ [route], lit "set")
            end
     else
       let candidate := filter (λ r, r.(Route.r_peer) ≠ peer) routes in
       _ ← leave_if (length candidate =? length routes)%nat (err (lit "ROUTE_NOT_FOUND"));
       mret (candidate, lit "removed"));
  _ ← ok_or_leave (Route.validate_routes candidate) (err (lit "ROUTE_INVALID"));
  _ ← saved (durable ROUTES_FILE candidate false) (err (lit "ROUTE_SAVE_FAILED"));
  _ ← upd (set_routes candidate);
  mret (response_ok req.(rq_id) (JObj [(lit "status", JStr status); (lit "peer", JStr peer);
                                      (lit "routes", num (length candidate))])).

(** ** Advertising *)

Variables (sha256 : list byte → array 32) (now : Z).

(** [operator::view]. *)
Definition view (r : Contact.ContactRecord) (peers : list PeerRecord) : Json :=
  let key := b64_encode (array_bytes r.(Contact.public_key)) in
  let opt (o : option str) := match o with Some s => JStr s | None => JNull end in
  JObj [(lit "node_id", JStr (hex (array_bytes (Contact.node_id sha256 r)))); (lit "public_key_b64", JStr key);
        (lit "fingerprint", opt match fingerprint_from_public_key_b64 key with Ok f => Some f | Err _ => None end);
        (lit "addresses", JArr (JStr <$> r.(Contact.addresses))); (lit "seq", JNum r.(Contact.seq));
        (lit "expires_at", JNum r.(Contact.expires_at));
        (lit "pack_name", opt ((λ x, pr_name x.2) <$> list_find (λ p, pr_public_key_b64 p = Some key) peers))].

Definition advertise_cmd (req : ControlRequest) : hm D ControlResponse :=
  let addresses := filter (λ a, a ≠ []) (trim <$> split_on x2c (arg req (lit "addresses"))) in
  _ ← leave_if (negb (bool_decide (addresses = [])) && negb (is_ok (Contact.check_addresses addresses)))
        (error req.(rq_id) (lit "DISCOVER_ADDRESS_INVALID"));
  _ ← saved (durable ADVERTISE_FILE (mkAdvertise x01 addresses) false)
        (error req.(rq_id) (lit "DISCOVER_SAVE_FAILED"));
  _ ← upd (λ s, set_contacts (Discovery.mkContacts addresses s.(l_contacts).(Discovery.own)
                                s.(l_contacts).(Discovery.known)) s);
  _ ← upd (λ s, match s.(l_pelt) with
                | Some pelt => set_contacts (Discovery.refresh_own sha256 s.(l_contacts) pelt now) s
                | None => s
                end);
  s ← get id;
  mret (response_ok req.(rq_id) (JObj [(lit "advertised", JArr (JStr <$> addresses));
    (lit "record", match s.(l_contacts).(Discovery.own) with Some r => view r s.(l_peers) | None => JNull end)])).

(** ** Governance statements *)

(** The messages of [GovError]. *)
Definition gov_text (e : Gov.GovError) : str :=
  match e with
  | Gov.TooLarge => lit "statement exceeds 16384 bytes"
  | Gov.Malformed => lit "statement encoding is malformed"
  | Gov.UnknownVersion => lit "unknown statement version"
  | Gov.UnknownKind => lit "unknown statement kind"
  | Gov.BodyRule => lit "statement body violates its rules"
  | Gov.Signatures => lit "not enough valid, distinct, ordered signatures"
  | Gov.WrongNetwork => lit "statement belongs to another network"
  | Gov.NoGenesis => lit "no genesis applied yet"
  | Gov.GenesisMismatch => lit "genesis does not match the expected hash"
  | Gov.OutOfOrder => lit "statement is not the next in the chain"
  | Gov.PreviousMismatch => lit "statement does not follow the current head"
  | Gov.Fork => lit "a validly signed statement conflicts with an applied one"
  | Gov.Forked => lit "governance is fenced after a fork"
  | Gov.Terminal => lit "the network is dead: nothing follows a death statement"
  end.
Definition fault_text (e : fault Gov.GovError) : str :=
  match e with Raised e => gov_text e | Panicked => lit "panicked" end.

Notation gm A := (em D (str * str) A).

(** A commit whose success publishes a head, and whose failure is ignored. *)
Definition fence (generation : Z) (fenced : Gov.Head) : gm () := λ w,
  match commit_protected generation (with_governance (Some fenced) (protected_from_live w.(live))) w with
  | (Ok _, w') => (Ok (), on_live (set_governance (Some fenced)) w')
  | (Err _, w') => (Ok (), w')
  end.

Definition admits_own (own : option Key) (h : Gov.Head) : bool :=
  match own with Some key => Gov.admits h key | None => bool_decide (h.(Gov.activated_at) = None) end.

(** The loop that denies the members a statement removes; it stops at the
    first that cannot be denied. *)
Fixpoint deny_all (l : list PeerRecord) (closed : nat) (s : DaemonState) : option nat * DaemonState :=
  match l with
  | [] => (Some closed, s)
  | peer :: rest =>
      match Authority.deny_peer_text (pr_fingerprint peer) s.(l_authority) with
      | (a, None) => (None, set_authority a s)
      | (a, Some _) =>
          let s1 := set_authority a s in
          let '(n, (g, r)) := Fangs.terminate_peer (pr_name peer) (s1.(l_registry), s1.(l_runtime)) in
          deny_all rest (closed + n) (set_runtime r (set_registry g s1))
      end
  end.
(** The loop that publishes their removal. *)
Fixpoint remove_all (l : list PeerRecord) (s : DaemonState) : bool * DaemonState :=
  match l with
  | [] => (true, s)
  | peer :: rest =>
      match Authority.removed_text (pr_fingerprint peer) s.(l_authority) with
      | (a, None) => (false, set_degraded true (set_authority a s))
      | (a, Some _) => remove_all rest (set_authority a s)
      end
  end.

(** Becoming unadmitted: the gate is locked and every Fang closed. *)
Definition fence_node (s : DaemonState) : option nat * DaemonState :=
  match Authority.lock s.(l_authority) with
  | (a, None) => (None, set_authority a s)
  | (a, Some _) =>
      let s1 := set_authority a s in
      let '(g, r) := Fangs.abort_all (s1.(l_registry), s1.(l_runtime)) in
      (Some (Fangs.len s1.(l_registry)),
       set_runtime r (set_registry (Fangs.clear_records (Fangs.clear_started g)) s1))
  end.

(** Whether the sessions of a denied peer end within the window. *)
Variable cleanup_ok : str → bool.

Definition archive_statement (sequence : Z) (s : Gov.Statement) (w : World D) : bool * World D :=
  if w.(live).(l_den) then
    let '(o, d) := den_replace (Discovery.governance_archive_name sequence) (Gov.statement_encode s) false w.(disk) in
    (match o with DurablyCommitted => true | _ => false end, on_disk d w)
  else (false, w).

(** The part under the lock before the commit: the fence, the denials, the
    count and the epoch. *)
Definition deny_step (fences : bool) (revoked : list PeerRecord) (s : DaemonState)
    : option (nat * option Z) * DaemonState :=
  let '(o, s1) := if fences then fence_node s else (Some 0%nat, s) in
  match o with
  | None => (None, s1)
  | Some n =>
      match deny_all revoked n s1 with
      | (None, s2) => (None, s2)
      | (Some closed, s2) =>
          let s3 := set_active_fangs (Fangs.len s2.(l_registry)) s2 in
          let '(a, e) := Authority.locking Authority.epoch_of s3.(l_authority) in
          (Some (closed, e), set_authority a s3)
      end
  end.

Definition unavailable : str * str := (lit "AUTHORITY_UNAVAILABLE", lit "runtime authority unavailable").

Definition apply_statement (s : Gov.Statement) (expect : option Hash) : gm Json :=
  head ← get l_governance;
  generation ← get l_generation;
  peers ← get l_peers;
  generation ← or_leave generation (lit "GOVERNANCE_NEEDS_MANIFEST",
    lit "governance requires the protected manifest; run state manifest-migrate");
  match Gov.apply head s expect with
  | Ok Gov.AlreadyApplied =>
      mret (JObj [(lit "status", JStr (lit "already_applied")); (lit "sequence", JNum s.(Gov.core).(Gov.sequence))])
  | Ok (Gov.ForkOutcome fenced) =>
      _ ← fence generation fenced;
      leave (lit "GOVERNANCE_FORK", lit "a validly signed statement conflicts with applied sequence "
             ++ show 10 s.(Gov.core).(Gov.sequence) ++ lit "; governance is fenced")
  | Err (Raised Gov.Forked) => leave (lit "GOVERNANCE_FORKED", gov_text Gov.Forked)
  | Err e => leave (lit "GOVERNANCE_REJECTED", fault_text e)
  | Ok (Gov.Applied next) =>
      archived ← run (archive_statement next.(Gov.h_sequence) s);
      _ ← leave_if (negb archived) (lit "GOVERNANCE_SAVE_FAILED", lit "the statement could not be archived");
      let revoked := filter (λ p, NodeGovernance.excludes next p = true) peers in
      own ← get (λ l, NodeGovernance.own_key l.(l_pelt));
      let was_admitted := match head with Some h => admits_own own h | None => true end in
      let now_admitted := admits_own own next in
      let candidate := filter (λ p, pr_name p ∉ (pr_name <$> revoked)) peers in
      denied ← run (λ w, let '(o, l) := deny_step (was_admitted && negb now_admitted) revoked w.(live) in
                         (o, mkWorld l w.(disk)));
      '(closed, reopen_epoch) ← or_leave denied unavailable;
      _ ← saved (λ w, unit_of (commit_protected generation
                   (with_governance (Some next) (with_peers candidate (protected_from_live w.(live)))) w))
            (if bool_decide (revoked = []) then lit "GOVERNANCE_SAVE_FAILED"
             else lit "GOVERNANCE_SAVE_FAILED_RUNTIME_DENIED", lit "the governance head was not saved");
      _ ← upd (λ l, set_governance (Some next) (set_peers candidate l));
      published ← run (λ w, let '(b, l) := remove_all revoked w.(live) in (b, mkWorld l w.(disk)));
      _ ← leave_if (negb published)
            (lit "AUTHORITY_PUBLICATION_FAILED", lit "saved, but runtime authority could not be published");
      _ ← leave_if (negb (forallb (λ p, cleanup_ok (pr_fingerprint p)) revoked))
            (lit "AUTHORITY_CLEANUP_TIMEOUT", lit "saved; authority cleanup timed out");
      if bool_decide (is_Some next.(Gov.dead_at)) then run (Terminal.die s)
      else
        _ ← (if negb was_admitted && now_admitted then
               upd (λ l, if silver_active l then l
                         else match reopen_epoch with
                              | Some e => set_authority (Authority.locking (Authority.open_after_durable e) l.(l_authority)).1 l
                              | None => l
                              end)
             else mret ());
        mret (JObj [(lit "status", JStr (lit "applied")); (lit "sequence", JNum next.(Gov.h_sequence));
          (lit "hash", JStr (hex (array_bytes next.(Gov.h_hash))));
          (lit "revoked_members", JArr ((λ p, JStr (pr_name p)) <$> revoked));
          (lit "closed_fangs", num closed); (lit "admitted", JBool now_admitted)])
  end.

(** The response of a governance command that failed. *)
Definition rejecting {A} (req : ControlRequest) (m : gm A) : hm D A := λ w,
  match m w with
  | (Ok a, w') => (Ok a, w')
  | (Err (code, message), w') => (Err (response_err req.(rq_id) code message), w')
  end.

Definition apply_governance (req : ControlRequest) : hm D ControlResponse :=
  let reject code message := response_err req.(rq_id) code message in
  bytes ← or_leave (b64_decode (arg req (lit "statement")))
            (reject (lit "GOVERNANCE_INVALID") (lit "statement is not base64"));
  s ← match Gov.statement_decode bytes with
      | Ok s => mret s
      | Err e => leave (reject (lit "GOVERNANCE_INVALID") (gov_text e))
      end;
  let h := arg req (lit "expect_hash") in
  expect ← (if bool_decide (h = []) then mret None
            else hash ← ok_or_leave (GovTool.unhex 32 h)
                   (reject (lit "GOVERNANCE_INVALID") (lit "expect_hash is not 64 hex digits"));
                 mret (Some hash));
  result ← rejecting req (apply_statement s expect);
  mret (response_ok req.(rq_id) result).

Definition record_conflict (two : list Gov.Statement) (w : World D) : (str * str) * World D :=
  let stale := (lit "GOVERNANCE_REJECTED", lit "conflict no longer applies") in
  match w.(live).(l_governance), w.(live).(l_generation), two with
  | Some head, Some generation, [a; b] =>
      let valid s := match Gov.apply (Some head) s None with Ok (Gov.Applied _) => true | _ => false end in
      if bool_decide (Gov.core_hash a.(Gov.core) = Gov.core_hash b.(Gov.core)) || negb (valid a) || negb (valid b)
      then (stale, w)
      else
        let fenced := Gov.set_forked head in
        ((lit "GOVERNANCE_FORK", lit "peers offered two different valid statements for sequence "
          ++ show 10 a.(Gov.core).(Gov.sequence) ++ lit "; governance is fenced"),
         (fence generation fenced w).2)
  | _, _, _ => (stale, w)
  end.

(** The loop of [apply_sync]: it stops at the first statement that does not
    apply. *)
Fixpoint sync_loop (l : list Gov.Statement) (applied : list Json) (w : World D)
    : (list Json * option (str * str)) * World D :=
  match l with
  | [] => ((applied, None), w)
  | s :: rest =>
      match apply_statement s None w with
      | (Ok result, w') => sync_loop rest (applied ++ [result]) w'
      | (Err stop, w') => ((applied, Some stop), w')
      end
  end.

Definition sync_decode (v : Json) : option Gov.Statement :=
  text ← as_str v;
  bytes ← b64_decode text;
  match Gov.statement_decode bytes with Ok s => Some s | Err _ => None end.

Definition stopped_json (stop : str * str) : Json :=
  JObj [(lit "code", JStr stop.1); (lit "message", JStr stop.2)].

Definition apply_sync (req : ControlRequest) : hm D ControlResponse :=
  let peers := j_get req.(rq_args) (lit "peers") in
  let conflict := (λ l : list Json, omap sync_decode l) <$> as_array (j_get req.(rq_args) (lit "conflict")) in
  statements ← or_leave (match as_array (j_get req.(rq_args) (lit "statements")) with
                         | Some l => mapM sync_decode l
                         | None => Some []
                         end)
                 (response_err req.(rq_id) (lit "GOVERNANCE_INVALID") (lit "malformed sync request"));
  '(applied, stop) ← run (sync_loop statements []);
  let base := [(lit "peers", peers); (lit "applied", JArr applied)] in
  let reply stop := response_ok req.(rq_id) (JObj (base ++ [(lit "stopped", stopped_json stop)])) in
  match stop with
  | Some stop => mret (reply stop)
  | None =>
      match conflict with
      | Some two => stop ← run (record_conflict two); mret (reply stop)
      | None => mret (response_ok req.(rq_id) (JObj base))
      end
  end.

(** ** The Pack *)

Definition publish_invalidated_runtime (candidate_active affected : list str) (s : DaemonState)
    : Fangs.FangTermination * DaemonState :=
  let s1 := set_active candidate_active s in
  let '(t, (g, r)) := Fangs.detach_ids affected (s1.(l_registry), s1.(l_runtime)) in
  let s2 := set_runtime r (set_registry g s1) in
  (t, if (t.(Fangs.closed) =? 0)%nat then s2
      else let s3 := set_active_fangs (Fangs.len s2.(l_registry)) s2 in
           if Fangs.is_empty s3.(l_registry) then set_mode Human s3 else s3).

(** Publishing and then awaiting the bundle. *)
Definition invalidate (candidate_active affected : list str) (w : World D) : nat * World D :=
  let '(t, s) := publish_invalidated_runtime candidate_active affected w.(live) in
  (t.(Fangs.closed), mkWorld (set_runtime (Fangs.quiesce t s.(l_runtime)) s) w.(disk)).
Definition if_degraded (f : World D → World D) (w : World D) : World D :=
  if w.(live).(l_degraded) then f w else w.

(** The profiles and the Fangs that depend on the peer. *)
Definition depends_on (s : DaemonState) (peer profile_peer : str) : bool :=
  bool_decide (profile_peer = peer)
  || existsb (λ r, bool_decide (r.(Route.r_peer) = profile_peer) && bool_decide (r.(Route.via) = peer)) s.(l_routes).
Definition active_without (s : DaemonState) (peer : str) : list str :=
  filter (λ n, existsb (λ p, bool_decide (fp_name p = n) && depends_on s peer (fp_peer p)) s.(l_profiles) = false)
    s.(l_active).

Definition apply_pack_address_change (peer : str) (candidate : list PeerRecord) (changed : bool)
    (generation : option Z) (w : World D) : io nat * World D :=
  let s := w.(live) in
  let old_active := s.(l_active) in
  let new_active := if changed then active_without s peer else old_active in
  let affected := if changed then Fangs.ids_using_peer s.(l_registry) peer else [] in
  let invalid w := (invalidate new_active affected w).2 in
  match StateValidation.active new_active s.(l_profiles) with
  | Err _ => (Err InvalidData, w)
  | Ok _ =>
      let publish w := let '(n, w') := invalidate new_active affected (on_live (set_peers candidate) w) in (Ok n, w') in
      match generation with
      | Some g =>
          match commit_protected g (with_active new_active (with_peers candidate (protected_from_live s))) w with
          | (Err e, w1) => (Err e, if_degraded invalid w1)
          | (Ok _, w1) => publish w1
          end
      | None =>
          let '(first, w1) := if bool_decide (new_active = old_active) then (Ok (), w)
                              else durable (lit "active_fangs.json") new_active false w in
          match first with
          | Err e => (Err e, if_degraded invalid w1)
          | Ok _ =>
              match durable (lit "pack.json") candidate false w1 with
              | (Ok _, w2) => publish w2
              | (Err e, w2) =>
                  (Err e,
                   if w2.(live).(l_degraded) then invalid w2
                   else match durable (lit "active_fangs.json") old_active false w2 with
                        | (Ok _, w3) => w3
                        | (Err _, w3) => invalid (on_live (set_degraded true) w3)
                        end)
              end
          end
      end
  end.

(** What governance says about a key: revoked, or off an activated roster. *)
Definition governance_verdict (head : option Gov.Head) (key : option Key) : bool * bool :=
  match head, key with
  | Some h, Some k =>
      (is_ok (binary_search h.(Gov.revoked) k),
       bool_decide (is_Some h.(Gov.activated_at)) && negb (is_ok (binary_search h.(Gov.roster) k)))
  | _, _ => (false, false)
  end.

Definition set_address (a : str) (p : PeerRecord) : PeerRecord :=
  mkPeerRecord (pr_name p) (pr_fingerprint p) a (trust p) (pr_public_key_b64 p).

(** The candidate Pack of a command, whether an address changed, the status. *)
Definition pack_candidate (req : ControlRequest) (name : str) (peers : list PeerRecord)
    : hm D (list PeerRecord * bool * str) :=
  let err code := error req.(rq_id) code in
  if is_cmd req (lit "pack.add") then
    let key64 := arg req (lit "public_key_b64") in
    let fp := arg req (lit "fingerprint") in
    _ ← leave_if (bool_decide (key64 = [])
                  || negb match fingerprint_from_public_key_b64 key64 with
                          | Ok f => bool_decide (f = fp)
                          | Err _ => false
                          end) (err (lit "PACK_PUBLIC_KEY_INVALID"));
    let key := match GovTool.public_key key64 with Ok k => Some k | Err _ => None end in
    head ← get l_governance;
    let '(revoked, off_roster) := governance_verdict head key in
    _ ← leave_if revoked (response_err req.(rq_id) (lit "PACK_REVOKED_BY_NETWORK")
                            (lit "this key was revoked by a governance statement"));
    _ ← leave_if off_roster (response_err req.(rq_id) (lit "PACK_NOT_ON_ROSTER")
                               (lit "this key is not on the activated network's roster"));
    mret (peers ++ [mkPeerRecord name fp (arg req (lit "address")) StateValidation.Packmate (Some key64)],
          false, lit "added")
  else if is_cmd req (lit "pack.set_address") then
    '(i, p) ← or_leave (list_find (λ p, pr_name p = name) peers) (err (lit "PACK_NOT_FOUND"));
    let address := arg req (lit "address") in
    mret (<[i := set_address address p]> peers, negb (bool_decide (pr_address p = address)), lit "address_updated")
  else if is_cmd req (lit "pack.remove") || is_cmd req (lit "pack.revoke") then
    let candidate := filter (λ p, pr_name p ≠ name) peers in
    _ ← leave_if (length candidate =? length peers)%nat (err (lit "PACK_NOT_FOUND"));
    mret (candidate, false, if is_cmd req (lit "pack.revoke") then lit "revoked" else lit "removed")
  else leave (err (lit "UNKNOWN_CMD")).

Definition pack_reply (req : ControlRequest) (status name : str) (closed packmates : nat) : ControlResponse :=
  response_ok req.(rq_id) (JObj [(lit "status", JStr status); (lit "name", JStr name); (lit "peer", JStr name);
    (lit "address", j_get req.(rq_args) (lit "address")); (lit "closed_fangs", num closed);
    (lit "packmates", num packmates)]).

(** The runtime denial that comes before the file system. *)
Definition deny_member (name : str) (fp : option str) (s : DaemonState) : option nat * DaemonState :=
  match fp with
  | None => (Some 0%nat, s)
  | Some peer =>
      match Authority.deny_peer_text peer s.(l_authority) with
      | (a, None) => (None, set_authority a s)
      | (a, Some _) =>
          let s1 := set_authority a s in
          let '(n, (g, r)) := Fangs.terminate_peer name (s1.(l_registry), s1.(l_runtime)) in
          let s2 := set_runtime r (set_registry g s1) in
          (Some n, set_active_fangs (Fangs.len s2.(l_registry)) s2)
      end
  end.

Definition pack_cmd (req : ControlRequest) : hm D ControlResponse :=
  let err code := error req.(rq_id) code in
  peers ← get l_peers;
  generation ← get l_generation;
  let name := arg req (lit "name") in
  let revoked := if is_cmd req (lit "pack.remove") || is_cmd req (lit "pack.revoke")
                 then (λ x, pr_fingerprint x.2) <$> list_find (λ p, pr_name p = name) peers else None in
  '(candidate, changed, status) ← pack_candidate req name peers;
  _ ← ok_or_leave (StateValidation.pack candidate) (err (lit "PACK_INVALID"));
  if is_cmd req (lit "pack.set_address") then
    r ← run (apply_pack_address_change name candidate changed generation);
    closed ← ok_or_leave r (err (lit "PACK_SAVE_FAILED"));
    packmates ← get (λ s, length s.(l_peers));
    mret (pack_reply req status name closed packmates)
  else
    denied ← run (λ w, let '(o, s) := deny_member name revoked w.(live) in (o, mkWorld s w.(disk)));
    closed ← or_leave denied (err (lit "AUTHORITY_UNAVAILABLE"));
    _ ← saved (λ w, match generation with
                    | Some g => unit_of (commit_protected g (with_peers candidate (protected_from_live w.(live))) w)
                    | None => durable (lit "pack.json") candidate false w
                    end)
          (err (if bool_decide (is_Some revoked) then lit "PACK_SAVE_FAILED_RUNTIME_DENIED" else lit "PACK_SAVE_FAILED"));
    _ ← upd (set_peers candidate);
    published ← run (λ w, match revoked with
      | None => (true, w)
      | Some peer =>
          match Authority.removed_text peer w.(live).(l_authority) with
          | (a, None) => (false, on_live (λ s, set_degraded true (set_authority a s)) w)
          | (a, Some _) => (true, on_live (set_authority a) w)
          end
      end);
    _ ← leave_if (negb published) (err (lit "AUTHORITY_PUBLICATION_FAILED"));
    _ ← leave_if match revoked with Some peer => negb (cleanup_ok peer) | None => false end
          (err (lit "AUTHORITY_CLEANUP_TIMEOUT"));
    mret (pack_reply req status name closed (length candidate)).

(** ** Profiles *)

Definition profile_cmd (req : ControlRequest) : hm D ControlResponse :=
  let err code := error req.(rq_id) code in
  profiles ← get l_profiles;
  peers ← get l_peers;
  generation ← get l_generation;
  let name := arg req (lit "name") in
  active ← get l_active;
  _ ← leave_if (is_cmd req (lit "fang.profile.remove") && bool_decide (name ∈ active)) (err (lit "FANG_PROFILE_ACTIVE"));
  '(candidate, status) ←
    (if is_cmd req (lit "fang.profile.add") then
       _ ← leave_if (negb (existsb (λ p, bool_decide (pr_name p = arg req (lit "peer"))) peers))
             (err (lit "FANG_UNKNOWN_PEER"));
       mret (profiles ++ [mkFangProfile name (arg req (lit "peer")) (arg req (lit "local")) (arg req (lit "remote"))
               (Policy.requested_transport (as_str (j_get req.(rq_args) (lit "transport"))))], lit "profile_added")
     else
       let candidate := filter (λ p, fp_name p ≠ name) profiles in
       _ ← leave_if (length candidate =? length profiles)%nat (err (lit "FANG_PROFILE_NOT_FOUND"));
       mret (candidate, lit "profile_removed"));
  _ ← ok_or_leave (StateValidation.profile_document candidate) (err (lit "FANG_PROFILE_INVALID"));
  _ ← saved (λ w, match generation with
                  | Some g => unit_of (commit_protected g (with_profiles candidate (protected_from_live w.(live))) w)
                  | None => durable (lit "fangs.json") candidate false w
                  end) (err (lit "FANG_PROFILE_SAVE_FAILED"));
  _ ← upd (set_profiles candidate);
  mret (response_ok req.(rq_id) (JObj [(lit "status", JStr status); (lit "name", JStr name);
                                      (lit "profiles", num (length candidate))])).

(** ** [handle] *)

Definition one_of (req : ControlRequest) (l : list str) : bool := bool_decide (req.(rq_cmd) ∈ l).

Definition retire_cmd (req : ControlRequest) : hm D ControlResponse := λ w,
  match Terminal.retire (default [] (as_str (j_get req.(rq_args) (lit "confirm")))) w with
  | (Ok result, w') => (Ok (response_ok req.(rq_id) result), w')
  | (Err (code, message), w') => (Err (response_err req.(rq_id) code message), w')
  end.

Definition dispatch (req : ControlRequest) : hm D ControlResponse :=
  if is_cmd req (lit "den.retire") then retire_cmd req
  else if is_cmd req (lit "governance.auto_sync") then auto_sync_cmd req
  else if is_cmd req (lit "pelt.init") then pelt_init req
  else if is_cmd req (lit "state.manifest.migrate") then manifest_migrate req
  else if one_of req [lit "target.policy.set"; lit "target.allow"; lit "target.remove"] then target_cmd req
  else if one_of req [lit "service.add"; lit "service.remove"] then service_cmd req
  else if one_of req [lit "service.publish"; lit "service.unpublish"] then publish_cmd req
  else if one_of req [lit "service.provider.add"; lit "service.provider.remove"] then provider_cmd req
  else if one_of req [lit "route.set"; lit "route.remove"] then route_cmd req
  else if is_cmd req (lit "discover.advertise") then advertise_cmd req
  else if is_cmd req (lit "governance.apply") then apply_governance req
  else if is_cmd req (lit "governance.sync_apply") then apply_sync req
  else if starts_with (lit "pack.") req.(rq_cmd) then pack_cmd req
  else profile_cmd req.

Definition handle (req : ControlRequest) (w : World D) : ControlResponse * World D := answer (dispatch req) w.

End mutation.
End Mutation.
