(* ===== verification/MutationSpec.v ===== *)
(** * What the control mutations keep ([werewolfd/src/control/mutation.rs])

    [Module MutationSpec]: in protected mode the Den always holds what the
    node has published: after any sequence of mutations, whatever failed, a
    restart loads the live Pack, target policy, Fang profiles and governance
    head, unless the node reports degraded storage or is shutting down. Then
    the denials that come before a save and outlive its failure, and what a
    revoked key, a Tombstone and a changed address forbid. *)

From stdpp Require Import gmap.
From S2P Require Export Mutation.

Local Open Scope Z_scope.

(** ** Addresses as parsed *)

Module AddressSpec.
Import TargetPolicySpec.

Lemma digits_nonneg radix ds : 0 ≤ radix → Forall (λ d, 0 ≤ d) ds → 0 ≤ digits_value radix ds.
Proof.
  intros Hr Hf. unfold digits_value.
  assert (∀ acc, 0 ≤ acc → 0 ≤ foldl (λ acc d, acc * radix + d) acc ds) as Hall; [|by apply Hall].
  induction Hf as [|d ds Hd Hf IH]; intros acc Ha; [done|]. cbn. apply IH. nia.
Qed.

Lemma read_digits_nonneg radix s : Forall (λ d, 0 ≤ d) (read_digits radix s).1.
Proof.
  induction s as [|b s IH]; cbn [read_digits]; [constructor|].
  destruct (to_digit radix b) as [d|] eqn:Hd; [|constructor].
  destruct (read_digits radix s) as [ds rest]. cbn in *. constructor; [|done].
  unfold to_digit, in_range in Hd.
  repeat match type of Hd with context [if ?b then _ else _] => destruct b eqn:? end; simplify_eq; lia.
Qed.

Lemma read_number_range radix md az mx s v rest :
  0 ≤ radix → read_number radix md az mx s = Some (v, rest) → 0 ≤ v ≤ mx.
Proof.
  intros Hr. unfold read_number. pose proof (read_digits_nonneg radix s) as Hn.
  destruct (read_digits radix s) as [ds r]. cbn [fst] in Hn.
  destruct (match md with Some _ => _ | None => _ end); [done|]. destruct (bool_decide _); [done|].
  destruct (_ && _ && _); [done|]. destruct (Z.leb_spec (digits_value radix ds) mx); [|done].
  intros [= <- <-]. split; [by apply digits_nonneg|done].
Qed.

Lemma read_separator_inv {A} sep i (inner : reader A) s r :
  read_separator sep i inner s = Some r → ∃ s', inner s' = Some r.
Proof.
  unfold read_separator. destruct i; [eauto|]. destruct (read_given_char sep s) as [[? s']|]; [eauto|done].
Qed.

Lemma read_octets_typed count : ∀ i s os rest, read_octets i count s = Some (os, rest) →
  length os = count ∧ Forall (λ z, 0 ≤ z < 2 ^ 8) os.
Proof.
  induction count as [|n IH]; intros i s os rest Hr; cbn [read_octets] in Hr; [by injection Hr as <- <-|].
  destruct (read_separator _ _ _ _) as [[o s']|] eqn:Ho; [|done].
  destruct (read_octets (S i) n s') as [[os' r']|] eqn:E; [|done]. injection Hr as <- <-.
  apply IH in E as [<- Hf]. apply read_separator_inv in Ho as (s1 & Ho).
  apply read_number_range in Ho; [|lia]. split; [done|]. constructor; [lia|done].
Qed.

Lemma read_groups_typed left : ∀ i s gs v4 rest, read_groups i left s = (gs, v4, rest) →
  (length gs ≤ left)%nat ∧ Forall (λ z, 0 ≤ z < 2 ^ 16) gs.
Proof.
  induction left as [|n IH]; intros i s gs v4 rest Hr; cbn [read_groups] in Hr; [by injection Hr as <- <- <-|].
  assert (∀ x, match read_separator x3a i (read_number 16 (Some 4%nat) true 65535) s with
    | Some (g, s') => let '(gs, v4, rest) := read_groups (S i) n s' in (g :: gs, v4, rest)
    | None => ([], false, s)
    end = x → (length x.1.1 ≤ S n)%nat ∧ Forall (λ z, 0 ≤ z < 2 ^ 16) x.1.1) as Hplain.
  { intros x <-. clear Hr. destruct (read_separator _ _ (read_number _ _ _ _) _) as [[g s']|] eqn:Hg; [|cbn [fst length]; split; [apply Nat.le_0_l|constructor]].
    destruct (read_groups (S i) n s') as [[gs' v'] r'] eqn:E. apply IH in E as [Hlen Hf]. cbn [fst length]. split; [lia|].
    apply read_separator_inv in Hg as (s1 & Hg). apply read_number_range in Hg; [|lia]. constructor; [lia|done]. }
  destruct n as [|n]; [by apply Hplain in Hr|].
  destruct (read_separator x3a i read_ipv4_addr s) as [[os s']|] eqn:Hv; [|by apply Hplain in Hr].
  apply read_separator_inv in Hv as (s1 & Hv). apply read_octets_typed in Hv as [Hl Hf].
  destruct os as [|a [|b [|c [|d [|]]]]]; cbn in Hl; try lia. injection Hr as <- <- <-.
  repeat (apply Forall_cons in Hf as [? Hf]). split; [cbn; lia|]. repeat constructor; lia.
Qed.

Lemma read_ipv6_typed s gs rest : read_ipv6_addr s = Some (gs, rest) →
  length gs = 8%nat ∧ Forall (λ z, 0 ≤ z < 2 ^ 16) gs.
Proof.
  unfold read_ipv6_addr. destruct (read_groups 0 8 s) as [[front v4] s1] eqn:Ef.
  apply read_groups_typed in Ef as [Hl Hf].
  destruct (Nat.eqb_spec (length front) 8) as [Hlen|Hne]; [by intros [= <- <-]|]. destruct v4; [done|].
  destruct (read_given_char _ s1) as [[[] s2]|]; [|done]. destruct (read_given_char _ s2) as [[[] s3]|]; [|done].
  destruct (read_groups 0 _ s3) as [[back v'] s4] eqn:Eb. apply read_groups_typed in Eb as [Hl' Hf'].
  intros [= <- <-]. rewrite !length_app, length_replicate. split; [lia|].
  apply Forall_app. split; [done|]. apply Forall_app. split; [|done]. apply Forall_replicate. lia.
Qed.

Lemma read_port_typed s p rest : read_port s = Some (p, rest) → 0 ≤ p < 2 ^ 16.
Proof.
  unfold read_port. destruct (read_given_char _ s) as [[[] s']|]; [|done]. intros Hp%read_number_range; lia.
Qed.

(** An address read from text has the types of the Rust fields. *)
Lemma parse_socket_addr_typed s e : parse_socket_addr s = Some e → addr_typed e.
Proof.
  unfold parse_socket_addr, parse_with, addr_typed.
  destruct (read_socket_addr_v4 s) as [[a r]|] eqn:E4.
  - destruct r; [|done]. intros [= <-]. revert E4. unfold read_socket_addr_v4.
    destruct (read_ipv4_addr s) as [[os s1]|] eqn:Ho; [|done]. apply read_octets_typed in Ho as [? ?].
    destruct (read_port s1) as [[p s2]|] eqn:Hp; [|done]. apply read_port_typed in Hp.
    intros [= <- _]. by cbn.
  - clear E4. destruct (read_socket_addr_v6 s) as [[a r]|] eqn:E6; [|done]. destruct r; [|done]. intros [= <-].
    revert E6. unfold read_socket_addr_v6. destruct (read_given_char _ s) as [[[] s1]|]; [|done].
    destruct (read_ipv6_addr s1) as [[gs s2]|] eqn:Hg; [|done]. apply read_ipv6_typed in Hg as [? ?].
    destruct (default _ _) as [scope s3]. destruct (read_given_char _ s3) as [[[] s4]|]; [|done].
    destruct (read_port s4) as [[p s5]|] eqn:Hp; [|done]. apply read_port_typed in Hp. intros [= <- _]. by cbn.
Qed.

Import TargetPolicy.

Lemma allow_exact_wf p fp e p' : policy_wf p → addr_typed e → allow_exact p fp e = Ok p' → policy_wf p'.
Proof.
  unfold allow_exact. intros Hw He. destruct (valid_fingerprint fp) eqn:Hfp, (supported_endpoint e) eqn:Hs;
    cbn [negb orb]; try done.
  assert (∀ g, grants_wf g → grants_wf (<[fp := {[ e ]} ∪ default ∅ (g !! fp)]> g)) as Hins.
  { intros g Hg q s. destruct (decide (q = fp)) as [->|Hq]; [|rewrite lookup_insert_ne by done; apply Hg].
    rewrite lookup_insert_eq. intros [= <-]. split; [done|]. intros x [->%elem_of_singleton|Hx]%elem_of_union; [done|].
    destruct (g !! fp) as [s|] eqn:Hl; [|by apply not_elem_of_empty in Hx]. by apply (Hg _ _ Hl). }
  destruct p as [| |g|]; cbn [mbind result_bind]; try done; intros [= <-]; apply Hins; [|done].
  intros q s. by rewrite lookup_empty.
Qed.

Lemma remove_exact_wf p fp e p' : policy_wf p → remove_exact p fp e = Ok p' → policy_wf p'.
Proof.
  unfold remove_exact. intros Hw. destruct (negb _ || negb _); [done|].
  destruct p as [| |g|]; cbn [mbind result_bind]; try done.
  destruct (g !! fp) as [ts|] eqn:Hl; cbn [ok_or mbind result_bind]; [|done].
  destruct (bool_decide (e ∈ ts)); cbn [require mbind result_bind]; [|done]. intros [= <-] q s.
  destruct (bool_decide _).
  - destruct (decide (q = fp)) as [->|Hq]; [by rewrite lookup_delete_eq|rewrite lookup_delete_ne by done; apply Hw].
  - destruct (decide (q = fp)) as [->|Hq]; [|rewrite lookup_insert_ne by done; apply Hw].
    rewrite lookup_insert_eq. intros [= <-]. destruct (Hw _ _ Hl) as [Hf Ht]. split; [done|].
    intros x [Hx _]%elem_of_difference. by apply Ht.
Qed.

End AddressSpec.

(** ** Triples on the handler monad *)

Module Triple.
Import LocalFs State Mutation.

(** [ok P m Q]: from [P], [m] ends in [Q], or returns early with the
    invariant [I]. *)
Section triple.
Context {D : Type} {I : World D → Prop}.

Definition ok {E A} (P : World D → Prop) (m : em D E A) (Q : A → World D → Prop) : Prop :=
  ∀ w, P w → match m w with (Ok a, w') => Q a w' | (Err _, w') => I w' end.
Definition keeps {E A} (m : em D E A) : Prop := ok I m (λ _, I).

Lemma ok_bind {E A B} P (m : em D E A) Q (f : A → em D E B) R :
  ok P m Q → (∀ a, ok (Q a) (f a) R) → ok P (m ≫= f) R.
Proof.
  intros Hm Hf w Hw. unfold mbind, em_bind. specialize (Hm w Hw). destruct (m w) as [[a|e] w']; [|done].
  by apply Hf.
Qed.
Lemma ok_weaken {E A} (P P' : World D → Prop) (m : em D E A) (Q Q' : A → World D → Prop) :
  ok P m Q → (∀ w, P' w → P w) → (∀ a w, Q a w → Q' a w) → ok P' m Q'.
Proof. intros Hm HP HQ w Hw. specialize (Hm w (HP w Hw)). destruct (m w) as [[a|e] w']; auto. Qed.
Lemma ok_pure {E A} (P : World D → Prop) (φ : Prop) (m : em D E A) Q : (φ → ok P m Q) → ok (λ w, P w ∧ φ) m Q.
Proof. intros K w [Hw Hφ]. by apply K. Qed.
Lemma ok_ret {E A} (P : World D → Prop) (a : A) Q : (∀ w, P w → Q a w) → ok P (mret a : em D E A) Q.
Proof. intros K w Hw. by apply K. Qed.
Lemma ok_leave {E A} (P : World D → Prop) (r : E) (Q : A → World D → Prop) :
  (∀ w, P w → I w) → ok P (leave r) Q.
Proof. intros K w Hw. by apply K. Qed.
Lemma ok_get {E A} P (f : DaemonState → A) : ok P (get f : em D E A) (λ a w, P w ∧ a = f w.(live)).
Proof. by intros w Hw. Qed.
Lemma ok_upd {E} (P Q : World D → Prop) f : (∀ w, P w → Q (on_live f w)) → ok P (upd f : em D E ()) (λ _, Q).
Proof. intros K w Hw. by apply K. Qed.
Lemma ok_run {E A} (P : World D → Prop) (m : World D → A * World D) Q :
  (∀ w, P w → Q (m w).1 (m w).2) → ok P (run m : em D E A) Q.
Proof. intros K w Hw. unfold run. specialize (K w Hw). by destruct (m w). Qed.
Lemma ok_leave_if {E} (P : World D → Prop) b (r : E) :
  (∀ w, P w → I w) → ok P (leave_if b r) (λ _ w, P w ∧ b = false).
Proof. intros K. unfold leave_if. destruct b; [by apply ok_leave|by apply ok_ret]. Qed.
Lemma ok_some {E A} (P : World D → Prop) (o : option A) (r : E) :
  (∀ w, P w → I w) → ok P (or_leave o r) (λ a w, P w ∧ o = Some a).
Proof. intros K. unfold or_leave. destruct o; [by apply ok_ret|by apply ok_leave]. Qed.
Lemma ok_ok_or {E F A} (P : World D → Prop) (x : result F A) (r : E) :
  (∀ w, P w → I w) → ok P (ok_or_leave x r) (λ a w, P w ∧ x = Ok a).
Proof. intros K. unfold ok_or_leave. destruct x; [by apply ok_ret|by apply ok_leave]. Qed.
Lemma ok_saved {E} (P Q : World D → Prop) m (r : E) :
  (∀ w, P w → match m w with (Ok _, w') => Q w' | (Err _, w') => I w' end) → ok P (saved m r) (λ _, Q).
Proof. intros K w Hw. unfold saved. specialize (K w Hw). by destruct (m w) as [[[]|e] w']. Qed.

(** One step of a handler whose state is still tracked. *)
Lemma k_bind {E A B} (m : em D E A) (f : A → em D E B) : keeps m → (∀ a, keeps (f a)) → keeps (m ≫= f).
Proof. apply ok_bind. Qed.
Lemma ok_then {E A B} P (m : em D E A) (f : A → em D E B) :
  ok P m (λ _, I) → (∀ a, keeps (f a)) → ok P (m ≫= f) (λ _, I).
Proof. apply ok_bind. Qed.
Lemma k_ret {E A} (a : A) : keeps (mret a : em D E A).
Proof. by apply ok_ret. Qed.
Lemma k_leave {E A} (r : E) : keeps (leave r : em D E A).
Proof. by apply ok_leave. Qed.
Lemma k_get {E A} (f : DaemonState → A) : keeps (get f : em D E A).
Proof. by intros w Hw. Qed.
Lemma k_leave_if {E} b (r : E) : keeps (leave_if b r : em D E ()).
Proof. intros w Hw. by destruct b. Qed.
Lemma k_or {E A} (o : option A) (r : E) : keeps (or_leave o r : em D E A).
Proof. intros w Hw. by destruct o. Qed.
Lemma k_ok_or {E F A} (x : result F A) (r : E) : keeps (ok_or_leave x r : em D E A).
Proof. intros w Hw. by destruct x. Qed.
Lemma k_run {E A} (m : World D → A * World D) : (∀ w, I w → I (m w).2) → keeps (run m : em D E A).
Proof. intros K. by apply ok_run with (Q := λ _, I). Qed.
Lemma k_upd {E} f : (∀ w, I w → I (on_live f w)) → keeps (upd f : em D E ()).
Proof. intros K. by apply ok_upd. Qed.
Lemma k_saved {E} m (r : E) : (∀ w, I w → I (m w).2) → keeps (saved m r).
Proof. intros K. apply ok_saved. intros w Hw. specialize (K w Hw). by destruct (m w) as [[[]|e] w']. Qed.
End triple.
#[global] Arguments ok {D} I {E A} P m Q.
#[global] Arguments keeps {D} I {E A} m.

(** One step of a handler that keeps the invariant, for each form of step. *)
Ltac keep_step :=
  lazymatch goal with
  | |- keeps _ (_ ≫= _) => apply k_bind; [|intros ?]
  | |- keeps _ (mret _) => apply k_ret
  | |- keeps _ (leave _) => apply k_leave
  | |- keeps _ (get _) => apply k_get
  | |- keeps _ (leave_if _ _) => apply k_leave_if
  | |- keeps _ (or_leave _ _) => apply k_or
  | |- keeps _ (ok_or_leave _ _) => apply k_ok_or
  | |- keeps _ (let '(_, _) := ?x in _) => destruct x
  | |- keeps _ (if ?b then _ else _) => destruct b
  | |- keeps _ (match ?x with _ => _ end) => destruct x
  end.

End Triple.

(** ** The Den holds what is published *)

Module MutationSpec.
Import LocalFs State ProtectedState ProtectedStateSpec TargetPolicySpec AddressSpec Mutation Triple.
Import StateValidation (PeerRecord, pr_name, pr_fingerprint, pr_address, pr_public_key_b64, FangProfile, fp_name, fp_peer).

Section spec.
Context `{!Crypto} `{!Base64} `{!Base64Laws} `{!MutationJson} `{!ProtectedJsonLaws} `{!Serde Tombstone.Document}.
Context `{DL : DenLaws D} `{!DenWipe D}.

(** *** Durable generations *)

Lemma settled_iff (d : D) nm v : den_settled d nm v ↔ ∀ d2, reopens d d2 → den_file d2 nm = v.
Proof.
  split; [intros Hs d2; by apply settled_reopens|]. intros Hall. split; [by apply Hall; left|].
  intros d' Hc. by apply Hall; right.
Qed.

(** Generation [g] holds [s], now and after a power failure. *)
Definition durable_gen (g : Generation) (s : ProtectedState.State) (d : D) : Prop :=
  (g.(number) ≠ 0 ∧ u64_range g.(number)) ∧
  ∃ c m, manifest g.(number) c = Ok m ∧ parse_state c = Ok s ∧ contents_fit c ∧
    ∀ d2, reopens d d2 → den_file d2 MODE_FILE = Some mode_bytes ∧
      den_file d2 CURRENT_FILE = Some (current_bytes g) ∧ slot_holds (den_file d2) g.(slot) c m.

Lemma durable_gen_load g s (d d2 : D) :
  durable_gen g s d → reopens d d2 → den_quiet d2 → load d2 = Ok (Loaded g s).
Proof.
  intros (Hn & c & m & Hm & Hp & Hf & Hall) Hr Hq. apply load_active; [done|].
  destruct (Hall d2 Hr) as (A & B & C). split_and!; try apply Hn; try done. by exists c, m.
Qed.

(** Every protected file of the generation keeps its contents. *)
Lemma durable_gen_frame g s (d d' : D) :
  durable_gen g s d → spared g d d' → untouched CURRENT_FILE d d' → durable_gen g s d'.
Proof.
  intros (Hn & c & m & Hm & Hp & Hf & Hall) [Hmode Hdocs] Hcur. split; [done|]. exists c, m.
  split_and!; [done..|]. intros d2 Hr.
  assert (∀ nm v, untouched nm d d' → (∀ d3, reopens d d3 → den_file d3 nm = v) → den_file d2 nm = v) as K.
  { intros nm v [_ Hu] Hv. eapply settled_reopens; [|done]. by apply Hu, settled_iff. }
  unfold slot_holds in *.
  split_and!; try (apply K; [first [done|apply Hdocs; solve_doc]|by intros d3 Hre3; apply (Hall d3 Hre3)]).
  intros b Hb. apply K; [apply Hdocs; solve_doc|]. intros d3 Hre3. by apply (Hall d3 Hre3).
Qed.

Lemma durable_gen_current g s (d : D) : durable_gen g s d →
  match load_current d with Ok (Some g') => g' = g | Ok None => False | Err _ => True end.
Proof.
  intros (Hn & c & m & _ & _ & _ & Hall). destruct (Hall d) as (Hmode & Hcur & _); [by left|].
  destruct (load_current d) as [[g'|]|] eqn:El; [| |done].
  - apply load_current_inv in El as (_ & Hc & _ & Hr). rewrite Hcur in Hc. injection Hc as Hc.
    pose proof (exact_current g (proj2 Hn)) as E1. pose proof (exact_current g' Hr) as E2.
    rewrite <- Hc, E1 in E2. injection E2 as Hnum Hslot. destruct g, g'. cbn in *. congruence.
  - unfold load_current in El. apply bind_Ok in El as (mode & Hm%den_read_file & El).
    apply bind_Ok in El as (cur & Hc%den_read_file & El). rewrite Hmode in Hm. rewrite Hcur in Hc. subst.
    by ww_inv.
Qed.

(** Committing to a durable generation. *)
Lemma durable_gen_commit g s0 s (d : D) tx d' :
  durable_gen g s0 d → policy_wf s.(target_policy) → commit g.(number) s d = (tx, d') →
  match tx with
  | TDurablyCommitted g' => g' = next_of g ∧ durable_gen (next_of g) (stored s) d'
  | TNotCommitted _ => durable_gen g s0 d'
  | TIndeterminate _ => True
  end.
Proof.
  intros Hg Hw Hc. pose proof (durable_gen_current _ _ _ Hg) as Hcur.
  destruct (load_current d) as [[g'|]|e] eqn:El; [subst g'| |]; [|done|].
  2: { unfold commit in Hc. rewrite El in Hc. by injection Hc as <- <-. }
  destruct (commit_steps _ _ _ _ _ El Hc) as [Hsp Htx]. destruct tx as [g'| |]; [|by eapply durable_gen_frame|done].
  destruct Htx as (-> & Hset & Hr & c & m & Hdoc & Hman & Hfit & Hall). split; [done|]. split.
  - split; [|done]. destruct Hg as [[_ Hg] _]. unfold u64_range in *. cbn in *. lia.
  - exists c, m. split_and!; [done|by apply documents_parse|done|]. intros d2 Hr2. split_and!.
    + eapply settled_reopens; [|done]. apply Hsp. apply settled_iff. intros d3 Hre3.
      destruct Hg as (_ & ? & ? & _ & _ & _ & Hg). by apply (Hg d3 Hre3).
    + by eapply settled_reopens.
    + by apply Hall.
Qed.

Lemma durable_gen_replace g s nm data c (d : D) o d' :
  durable_gen g s d → den_replace nm data c d = (o, d') → plain nm → nm ∉ protected_names → durable_gen g s d'.
Proof.
  intros Hg Hr Hp Hn.
  assert (∀ m, m ∈ protected_names → untouched m d d') as K.
  { intros m Hm. apply (den_replace_other _ _ _ _ _ _ m Hr); [done|by apply protected_plain|].
    by intros ->. }
  eapply durable_gen_frame; [done|split; [apply K, mode_protected|intros doc Hd; by apply K, slot_protected]|].
  apply K, current_protected.
Qed.

(** *** The live state and the Den *)

(** What a mutation may not lose sight of: everything the invariant reads. *)
Definition core (s : DaemonState) :=
  (s.(l_degraded), s.(l_exit_requested), s.(l_den), s.(l_generation),
   (s.(l_peers), s.(l_policy), s.(l_profiles), s.(l_active), s.(l_governance))).

(** Everything of the state that is kept in the Den. *)
Definition persistent (s : DaemonState) :=
  (core s, (s.(l_services), s.(l_published), s.(l_routes), s.(l_contacts).(Discovery.advertised), s.(l_auto_sync),
            s.(l_pelt))).

Definition stopped (s : DaemonState) : Prop := s.(l_degraded) = true ∨ s.(l_exit_requested) = true.

(** The Den holds, durably and as the live generation, the published state;
    Silver aside, which the authority holds. *)
Definition mirrors (w : World D) : Prop :=
  policy_wf w.(live).(l_policy) ∧
  ∃ g b, w.(live).(l_generation) = Some g.(number) ∧
    durable_gen g (stored (with_silver b (protected_from_live w.(live)))) w.(disk).

Definition tracks (w : World D) : Prop := stopped w.(live) ∨ mirrors w.

Lemma mirrors_core w s d : core s = core w.(live) → d = w.(disk) → mirrors w → mirrors (mkWorld s d).
Proof.
  intros Hc -> (Hw & g & b & Hg & Hd). injection Hc as Ed Ee En Eg Ep Et Ef Ea Ev. unfold mirrors. cbn [live disk].
  rewrite Et. split; [done|]. exists g, b. rewrite Eg. split; [done|].
  unfold protected_from_live, stored, with_silver in *. cbn in *. by rewrite Ep, Et, Ef, Ea, Ev.
Qed.

Lemma tracks_core w s : core s = core w.(live) → tracks w → tracks (mkWorld s w.(disk)).
Proof.
  intros Hc [Hs|Hm]; [left|right; by eapply mirrors_core]. injection Hc as Ed Ee _ _ _ _ _ _ _.
  unfold stopped in *. cbn. by rewrite Ed, Ee.
Qed.

(** *** Steps that keep [tracks] *)

Notation ok := (Triple.ok tracks).
Notation keeps := (Triple.keeps tracks).

Lemma t_upd {E} f : (∀ s, core (f s) = core s) → keeps (upd f : em D E ()).
Proof. intros K. apply k_upd. intros w Hw. by apply tracks_core. Qed.
Ltac track_step := first [keep_step | apply t_upd; by intros []].

(** *** Writing files that are not of the protected state *)

(** A name the protected state does not use. *)
Definition apart (nm : str) : Prop := plain nm ∧ nm ∉ protected_names.

Lemma tracks_replace nm data c w o d :
  apart nm → den_replace nm data c w.(disk) = (o, d) → tracks w → tracks (on_disk d w).
Proof.
  intros [Hp Hn] Hr [Hs|(Hw & g & b & Hg & Hd)]; [by left|right]. split; [done|]. exists g, b.
  split; [done|]. by eapply durable_gen_replace.
Qed.

Lemma tracks_degraded w : tracks (on_live (set_degraded true) w).
Proof. by left; left. Qed.

Lemma durable_bytes_tracks nm bytes c w : apart nm → tracks w → tracks (durable_bytes nm bytes c w).2.
Proof.
  intros Ha Hw. unfold durable_bytes. destruct (l_den _); [|done].
  destruct (den_replace nm bytes c (disk w)) as [o d] eqn:Hr. pose proof (tracks_replace _ _ _ _ _ _ Ha Hr Hw) as K.
  destruct o; cbn [finish_outcome snd]; [done|done|apply tracks_degraded].
Qed.


Lemma k_durable {E T} `{Serde T} nm (x : T) c (r : E) : apart nm → keeps (saved (durable nm x c) r).
Proof. intros Ha. apply k_saved. intros w. by apply durable_bytes_tracks. Qed.

(** Names written out. *)
Lemma apart_literal nm :
  name_ok nm && negb (bool_decide (head nm = Some x2e)) && negb (bool_decide (nm ∈ protected_names)) = true → apart nm.
Proof.
  intros Hb. bool_simpl. split; [split; [done|]|done]. intros suffix ->.
  match goal with Hd : _ ≠ Some x2e |- _ => by apply Hd end.
Qed.
Ltac solve_apart := apply apart_literal; vm_compute; reflexivity.

Lemma auto_sync_keeps req : keeps (auto_sync_cmd req).
Proof.
  unfold auto_sync_cmd. repeat track_step. apply k_saved. intros w. apply durable_bytes_tracks. solve_apart.
Qed.
Lemma pelt_init_keeps secret tls_ok home req : keeps (pelt_init secret tls_ok home req).
Proof. unfold pelt_init. repeat track_step; [by apply k_run|apply k_durable; solve_apart]. Qed.
Lemma service_keeps req : keeps (service_cmd req).
Proof. unfold service_cmd. cbn zeta. repeat track_step; apply k_durable; solve_apart. Qed.
Lemma publish_keeps req : keeps (publish_cmd req).
Proof. unfold publish_cmd. cbn zeta. repeat track_step; apply k_durable; solve_apart. Qed.
Lemma provider_keeps req : keeps (provider_cmd req).
Proof.
  unfold provider_cmd. cbn zeta. repeat track_step; [|apply k_durable; solve_apart].
  intros w Hw. by destruct (provider_change req _) as [[]|].
Qed.
Lemma route_keeps req : keeps (route_cmd req).
Proof. unfold route_cmd. cbn zeta. repeat track_step; apply k_durable; solve_apart. Qed.
Lemma advertise_keeps sha256 now req : keeps (advertise_cmd sha256 now req).
Proof.
  unfold advertise_cmd. cbn zeta. repeat track_step.
  - apply k_durable; solve_apart.
  - apply t_upd. intros s. by destruct (l_pelt s).
Qed.

(** *** Commits of the protected state *)

(** What is published after a commit: [f] writes what the candidate holds. *)
Definition publishes (f : DaemonState → DaemonState) (c : ProtectedState.State) (s : DaemonState) : Prop :=
  (∀ k, (f (set_generation k s)).(l_generation) = k) ∧
  (∀ k, stored (with_silver c.(silver_locked) (protected_from_live (f (set_generation k s)))) = stored c) ∧
  (∀ s', s'.(l_degraded) = true → (f s').(l_degraded) = true) ∧
  (∀ s', s'.(l_exit_requested) = true → (f s').(l_exit_requested) = true).

Lemma stopped_publishes f c s : publishes f c s → ∀ s', stopped s' → stopped (f s').
Proof. intros (_ & _ & A & B) s' [Hs|Hs]; [left|right]; auto. Qed.

Lemma commit_stopped n c w : stopped w.(live) → stopped (commit_protected n c w).2.(live).
Proof.
  intros Hs. unfold commit_protected. destruct (l_den _); [|done].
  destruct (commit n c (disk w)) as [[]]; cbn; [done|done|by left].
Qed.

Lemma commit_tracks n c f w :
  tracks w → w.(live).(l_generation) = Some n → (policy_wf w.(live).(l_policy) → policy_wf c.(target_policy)) →
  publishes f c w.(live) →
  match commit_protected n c w with (Ok _, w') => tracks (on_live f w') | (Err _, w') => tracks w' end.
Proof.
  intros [Hs|Hm] Hn Hw Hf.
  { pose proof (commit_stopped n c w Hs) as K. destruct (commit_protected n c w) as [[k|e] w']; [|by left].
    left. by apply (stopped_publishes _ _ _ Hf). }
  destruct Hm as (Hwf & g & b & Hg & Hd). rewrite Hg in Hn. injection Hn as <-.
  unfold commit_protected. destruct (l_den _); [|by right; split; [done|exists g, b]].
  destruct (commit _ c (disk w)) as [tx d'] eqn:Hc.
  pose proof (durable_gen_commit _ _ _ _ _ _ Hd (Hw Hwf) Hc) as Htx. destruct tx as [g'| |].
  - destruct Htx as [-> Hnew]. right. destruct Hf as (Hgen & Hst & _).
    specialize (Hgen (Some (number (next_of g)))). specialize (Hst (Some (number (next_of g)))).
    unfold mirrors. cbn [on_live on_disk live disk].
    split; [|exists (next_of g), (silver_locked c); split; [done|by rewrite Hst]].
    apply (f_equal (λ s, target_policy s)) in Hst. cbn [target_policy stored with_silver protected_from_live] in Hst.
    apply Hw in Hwf. destruct (l_policy (f _)), (target_policy c); cbn in *; simplify_eq; done.
  - right. split; [done|]. by exists g, b.
  - apply tracks_degraded.
Qed.

(** A save that chooses between the protected state and a flat file. *)
Lemma persist_tracks gen c f w (legacy : World D → result IoError () * World D) :
  tracks w → w.(live).(l_generation) = gen → (policy_wf w.(live).(l_policy) → policy_wf c.(target_policy)) →
  publishes f c w.(live) → (stopped w.(live) → stopped (legacy w).2.(live)) →
  match (match gen with Some g => unit_of (commit_protected g c w) | None => legacy w end) with
  | (Ok _, w') => tracks (on_live f w')
  | (Err _, w') => tracks w'
  end.
Proof.
  intros Ht Hg Hw Hf Hl. destruct gen as [n|].
  - pose proof (commit_tracks n c f w Ht Hg Hw Hf) as K. unfold unit_of. by destruct (commit_protected n c w) as [[]].
  - assert (stopped w.(live)) as Hs.
    { destruct Ht as [?|(_ & g & b & Hg' & _)]; [done|congruence]. }
    specialize (Hl Hs). destruct (legacy w) as [[] w']; [|by left]. left. by apply (stopped_publishes _ _ _ Hf).
Qed.

Lemma durable_bytes_stopped nm bytes c w : stopped w.(live) → stopped (durable_bytes nm bytes c w).2.(live).
Proof.
  intros Hs. unfold durable_bytes. destruct (l_den _); [|done].
  destruct (den_replace _ _ _ _) as [[] d]; cbn; [done|done|by left].
Qed.
Lemma durable_stopped {T} `{Serde T} nm (x : T) c w : stopped w.(live) → stopped (durable nm x c w).2.(live).
Proof. apply durable_bytes_stopped. Qed.

Lemma publishes_policy v s : publishes (set_policy v) (with_policy v (protected_from_live s)) s.
Proof. by split_and!. Qed.
Lemma publishes_peers v s : publishes (set_peers v) (with_peers v (protected_from_live s)) s.
Proof. by split_and!. Qed.
Lemma publishes_profiles v s : publishes (set_profiles v) (with_profiles v (protected_from_live s)) s.
Proof. by split_and!. Qed.
Lemma publishes_active v s : publishes (set_active v) (with_active v (protected_from_live s)) s.
Proof. by split_and!. Qed.
Lemma publishes_governance v s : publishes (set_governance v) (with_governance v (protected_from_live s)) s.
Proof. by split_and!. Qed.

(** **** Silver, active profiles *)

Lemma on_live_id (w : World D) : on_live id w = w.
Proof. by destruct w. Qed.

Lemma persist_silver_tracks locked w : tracks w → tracks (persist_silver locked w).2.
Proof.
  intros Hw. unfold persist_silver. cbn zeta.
  match goal with |- tracks (match _ with Some n => _ | None => ?m w end).2 =>
    pose proof (persist_tracks (l_generation (live w)) (with_silver locked (protected_from_live w.(live))) id w m Hw
      eq_refl (λ Hp, Hp) ltac:(by split_and!) (durable_bytes_stopped _ _ _ _)) as K end.
  destruct (match _ with Some n => _ | None => _ end) as [[] w']; [|done]. by rewrite on_live_id in K.
Qed.

(** A save of Silver that succeeds is durable, with that flag. *)
Lemma persist_silver_durable locked w w' : tracks w → ¬ stopped w'.(live) → persist_silver locked w = (Ok (), w') →
  ∃ g, w'.(live).(l_generation) = Some g.(number) ∧
    durable_gen g (stored (with_silver locked (protected_from_live w'.(live)))) w'.(disk).
Proof.
  intros Ht Hns. unfold persist_silver. cbn zeta. destruct (l_generation (live w)) as [n|] eqn:Hn.
  2: { intros E. destruct Ht as [Hs|(_ & g & b & Hg & _)]; [|congruence]. destruct Hns.
       pose proof (λ bytes, durable_bytes_stopped (lit "silver.json") bytes false w Hs) as K.
       match type of E with durable_bytes _ ?bytes _ _ = _ => specialize (K bytes) end. by rewrite E in K. }
  unfold commit_protected, unit_of. destruct (l_den _); [|done]. destruct (commit _ _ _) as [tx d'] eqn:Hc.
  destruct tx as [g'| |]; [|done..]. intros [= <-]. destruct Ht as [Hs|(Hwf & g & b & Hg & Hd)]; [by destruct Hns|].
  rewrite Hg in Hn. injection Hn as <-.
  pose proof (durable_gen_commit _ _ _ _ _ _ Hd (Hwf : policy_wf (target_policy (with_silver locked (protected_from_live w.(live))))) Hc) as [-> K].
  by exists (next_of g).
Qed.

Lemma persist_active_tracks candidate w : tracks w → tracks (persist_active candidate w).2.
Proof.
  intros Hw. unfold persist_active, persist_protected_or_legacy. destruct (l_degraded _); [done|].
  destruct (StateValidation.active _ _); [|done].
  pose proof (persist_tracks (l_generation (live w)) (with_active candidate (protected_from_live w.(live))) _ w
    (durable (lit "active_fangs.json") candidate false) Hw eq_refl (λ Hp, Hp)
    (publishes_active candidate _) (durable_stopped _ _ _ _)) as K.
  by destruct (match _ with Some n => _ | None => _ end) as [[] w'].
Qed.

(** **** Target policy *)

Lemma target_candidate_ok req :
  ok tracks (target_candidate req)
    (λ v w, tracks w ∧ (policy_wf w.(live).(l_policy) → policy_wf v)).
Proof.
  unfold target_candidate. cbn zeta. destruct (is_cmd _ _).
  - eapply ok_bind; [by apply ok_ok_or|]. intros canonical. cbn beta.
    eapply ok_weaken; [by apply ok_ok_or|by intros w [? _]|]. intros v w [Hw Hp]. split; [done|]. intros _.
    by apply parse_canonical_inv in Hp as [? _].
  - eapply ok_bind; [by apply ok_some|]. intros target. cbn beta.
    eapply ok_bind; [apply ok_get|]. intros peers. cbn beta.
    eapply ok_bind; [apply ok_get|]. intros current. cbn beta.
    eapply ok_bind; [apply ok_some; by intros w [[[? _] _] _]|]. intros fp. cbn beta.
    eapply ok_weaken; [apply ok_ok_or|exact (λ _ Hp, Hp)|]; [by intros w [[[[? _] _] _] _]|].
    intros v w [[[[[Hw Ht] _] ->] _] Hr]. split; [done|]. intros Hwf.
    apply parse_socket_addr_typed in Ht. destruct (is_cmd req (lit "target.allow")).
    + by eapply allow_exact_wf.
    + by eapply remove_exact_wf.
Qed.

Lemma target_keeps req : keeps (target_cmd req).
Proof.
  unfold target_cmd. eapply ok_bind; [apply target_candidate_ok|]. intros v. cbn beta.
  eapply ok_bind; [apply ok_ok_or; by intros w [? _]|]. intros canonical. cbn beta.
  eapply ok_bind; [apply ok_get|]. intros s. cbn beta.
  apply (ok_bind _ _ (λ _ w, tracks (on_live (set_policy v) w))).
  - apply ok_saved. intros w [[[Hw Hwf] _] Hs]. cbn [id] in Hs. rewrite Hs.
    apply (persist_tracks (l_generation (live w)) (with_policy v (protected_from_live w.(live))) _ w
      (durable_bytes (lit "target_policy.json") canonical false)
      Hw eq_refl Hwf (publishes_policy v _)). apply durable_bytes_stopped.
  - intros _. apply ok_then; [by apply (ok_upd _ tracks)|]. intros _. apply k_ret.
Qed.

(** **** Profiles *)

Lemma ok_if {E A} (P : World D → Prop) b (m1 m2 : em D E A) Q : ok P m1 Q → ok P m2 Q → ok P (if b : bool then m1 else m2) Q.
Proof. by destruct b. Qed.

(** The generation is still the one that was read. *)
Definition at_gen (gen : option Z) (w : World D) : Prop := tracks w ∧ w.(live).(l_generation) = gen.

Lemma at_gen_tracks gen w : at_gen gen w → tracks w.
Proof. by intros [? _]. Qed.

Lemma profile_keeps req : keeps (profile_cmd req).
Proof.
  unfold profile_cmd. cbn zeta. apply k_bind; [apply k_get|]. intros profiles.
  apply k_bind; [apply k_get|]. intros peers.
  eapply ok_bind; [apply ok_get|]. intros gen. cbn beta.
  apply (ok_bind _ _ (λ _, at_gen gen)); [by intros w [Hw ->]|]. intros active.
  apply (ok_bind _ _ (λ _, at_gen gen)).
  { eapply ok_weaken; [apply ok_leave_if, at_gen_tracks|done|by intros ? w [? _]]. }
  intros _. apply (ok_bind _ _ (λ _, at_gen gen)).
  { apply ok_if; (eapply ok_bind; [apply ok_leave_if, at_gen_tracks|]); intros ?; apply ok_ret; by intros w [? _]. }
  intros [candidate status]. apply (ok_bind _ _ (λ _, at_gen gen)).
  { eapply ok_weaken; [apply ok_ok_or, at_gen_tracks|done|by intros ? w [? _]]. }
  intros _. apply (ok_bind _ _ (λ _ w, tracks (on_live (set_profiles candidate) w))).
  - apply ok_saved. intros w [Hw Hg].
    apply (persist_tracks gen (with_profiles candidate (protected_from_live w.(live))) _ w
      (durable (lit "fangs.json") candidate false) Hw Hg (λ Hp, Hp) (publishes_profiles _ _)). apply durable_stopped.
  - intros _. apply ok_then; [by apply (ok_upd _ tracks)|]. intros _. apply k_ret.
Qed.

(** **** The Pack *)

Lemma core_deny_member name fp s : core (deny_member name fp s).2 = core s.
Proof.
  unfold deny_member. destruct fp as [peer|]; [|done]. destruct (Authority.deny_peer_text _ _) as [a [[]|]]; [|done].
  by destruct (Fangs.terminate_peer _ _) as [n [g r]].
Qed.

Lemma core_invalidated active ids s :
  (publish_invalidated_runtime active ids s).2.(l_generation) = s.(l_generation) ∧
  core (publish_invalidated_runtime active ids s).2 = core (set_active active s).
Proof.
  unfold publish_invalidated_runtime. destruct (Fangs.detach_ids _ _) as [t [g r]].
  destruct (_ =? 0)%nat; [done|]. cbn zeta. by destruct (Fangs.is_empty _).
Qed.
Lemma core_invalidate active ids (w : World D) :
  core (invalidate active ids w).2.(live) = core (set_active active w.(live)) ∧ (invalidate active ids w).2.(disk) = w.(disk).
Proof.
  unfold invalidate. destruct (publish_invalidated_runtime _ _ _) as [t s] eqn:E.
  pose proof (core_invalidated active ids w.(live)) as [_ K]. rewrite E in K. by cbn in *.
Qed.

Lemma stopped_core s s' : core s' = core s → stopped s → stopped s'.
Proof. intros [= Ed Ee _ _ _ _ _ _ _]. unfold stopped. by rewrite Ed, Ee. Qed.

Lemma if_degraded_invalid active ids w : tracks w → tracks (if_degraded (λ w, (invalidate active ids w).2) w).
Proof.
  intros Hw. unfold if_degraded. destruct (l_degraded (live w)) eqn:Hd; [|done]. left.
  destruct (core_invalidate active ids w) as [K _]. eapply stopped_core; [exact K|]. by left.
Qed.

Lemma address_change_tracks peer candidate changed gen w :
  tracks w → w.(live).(l_generation) = gen → tracks (apply_pack_address_change peer candidate changed gen w).2.
Proof.
  intros Hw Hg. unfold apply_pack_address_change. cbn zeta.
  set (act := if changed then _ else _). set (ids := if changed then _ else _).
  destruct (StateValidation.active _ _); [|done].
  assert (∀ w, tracks (on_live (λ s, set_active act (set_peers candidate s)) w) →
    tracks (let '(n, w') := invalidate act ids (on_live (set_peers candidate) w) in (Ok (E := IoError) n, w')).2) as Hpub.
  { intros w1 K. pose proof (core_invalidate act ids (on_live (set_peers candidate) w1)) as [C Ed].
    destruct (invalidate _ _ _) as [n w']. cbn [snd] in *. destruct w' as [s' d']. cbn in C, Ed. subst d'.
    by apply (tracks_core (on_live (λ s, set_active act (set_peers candidate s)) w1)). }
  destruct gen as [g|].
  - pose proof (commit_tracks g (with_active act (with_peers candidate (protected_from_live w.(live))))
      (λ s, set_active act (set_peers candidate s)) w Hw Hg (λ Hp, Hp)) as K.
    specialize (K ltac:(by split_and!)). destruct (commit_protected _ _ w) as [[]]; [by apply Hpub|by apply if_degraded_invalid].
  - assert (stopped w.(live)) as Hs.
    { destruct Hw as [?|(_ & g & b & Hg' & _)]; [done|congruence]. }
    assert (∀ w, stopped w.(live) → tracks (invalidate act ids w).2) as Hinv.
    { intros w1 S1. left. destruct (core_invalidate act ids w1) as [K _]. by eapply stopped_core. }
    destruct (if bool_decide _ then _ else _) as [first w1] eqn:E1.
    assert (stopped w1.(live)) as S1.
    { destruct (bool_decide _); [by injection E1 as _ <-|].
      pose proof (durable_stopped (lit "active_fangs.json") act false w Hs) as K. by rewrite E1 in K. }
    destruct first; [|by apply if_degraded_invalid; left].
    pose proof (durable_stopped (lit "pack.json") candidate false w1 S1) as S2.
    destruct (durable (lit "pack.json") candidate false w1) as [[] w2]; [by apply Hpub; left|]. cbn [snd] in *.
    destruct (l_degraded (live w2)); [by apply Hinv|].
    pose proof (durable_stopped (lit "active_fangs.json") (l_active (live w)) false w2 S2) as S3.
    destruct (durable _ _ _ w2) as [[] w3]; [by left|]. apply Hinv. by left.
Qed.

(** Steps that only read. *)
Lemma g_get gen {E A} (f : DaemonState → A) : ok (at_gen gen) (get f : em D E A) (λ _, at_gen gen).
Proof. by intros w Hw. Qed.
Lemma g_leave_if gen {E} b (r : E) : ok (at_gen gen) (leave_if b r) (λ _, at_gen gen).
Proof. intros w Hw. destruct b; [by apply at_gen_tracks in Hw|done]. Qed.
Lemma g_or gen {E A} (o : option A) (r : E) : ok (at_gen gen) (or_leave o r) (λ _, at_gen gen).
Proof. intros w Hw. destruct o; [done|by apply at_gen_tracks in Hw]. Qed.
Lemma g_ok_or gen {E F A} (x : result F A) (r : E) : ok (at_gen gen) (ok_or_leave x r) (λ _, at_gen gen).
Proof. intros w Hw. destruct x; [done|by apply at_gen_tracks in Hw]. Qed.
Ltac read_step :=
  lazymatch goal with
  | |- Triple.ok _ _ (_ ≫= _) (λ _, at_gen ?g) => apply (ok_bind _ _ (λ _, at_gen g)); [|intros ?]
  | |- Triple.ok _ _ (mret _) _ => by apply ok_ret
  | |- Triple.ok _ _ (leave _) _ => apply ok_leave, at_gen_tracks
  | |- Triple.ok _ _ (get _) _ => apply g_get
  | |- Triple.ok _ _ (leave_if _ _) _ => apply g_leave_if
  | |- Triple.ok _ _ (or_leave _ _) _ => apply g_or
  | |- Triple.ok _ _ (ok_or_leave _ _) _ => apply g_ok_or
  | |- Triple.ok _ _ (let '(_, _) := ?x in _) _ => destruct x
  | |- Triple.ok _ _ (if ?b then _ else _) _ => destruct b
  end.

Lemma pack_candidate_ok gen req name peers : ok (at_gen gen) (pack_candidate req name peers) (λ _, at_gen gen).
Proof. unfold pack_candidate. cbn zeta. repeat read_step. Qed.

Lemma pack_keeps cleanup_ok req : keeps (pack_cmd cleanup_ok req).
Proof.
  unfold pack_cmd. cbn zeta. apply k_bind; [apply k_get|]. intros peers.
  apply (ok_bind _ _ at_gen); [by intros w Hw|]. intros gen.
  set (revoked := if _ || _ then _ else None).
  apply (ok_bind _ _ (λ _, at_gen gen)); [apply pack_candidate_ok|]. intros [[candidate changed] status].
  apply (ok_bind _ _ (λ _, at_gen gen)); [apply g_ok_or|]. intros _.
  destruct (is_cmd req (lit "pack.set_address")).
  { apply ok_then; [apply ok_run with (Q := λ _, tracks)|].
    - intros w [Hw Hg]. by apply address_change_tracks.
    - intros x. repeat track_step. }
  apply (ok_bind _ _ (λ _, at_gen gen)).
  { apply ok_run with (Q := λ _, at_gen gen). intros w [Hw Hg].
    pose proof (core_deny_member (arg req (lit "name")) revoked w.(live)) as C.
    destruct (deny_member _ _ _) as [o s]. cbn [snd] in *. split; [by apply tracks_core|].
    injection C as _ _ _ C _ _ _ _ _. cbn. congruence. }
  intros denied. apply (ok_bind _ _ (λ _, at_gen gen)); [apply g_or|]. intros closed.
  apply (ok_bind _ _ (λ _ w, tracks (on_live (set_peers candidate) w))).
  { apply ok_saved. intros w [Hw Hg].
    apply (persist_tracks gen (with_peers candidate (protected_from_live w.(live))) _ w
      (durable (lit "pack.json") candidate false) Hw Hg (λ Hp, Hp) (publishes_peers _ _)). apply durable_stopped. }
  intros _. apply ok_then; [by apply (ok_upd _ tracks)|]. intros _.
  apply k_bind; [apply k_run|intros b; repeat track_step].
  intros w Hw. destruct revoked as [peer|]; [|done].
  destruct (Authority.removed_text peer _) as [a [[]|]]; [by apply (tracks_core w)|apply tracks_degraded].
Qed.

(** **** Governance *)

Lemma fence_keeps g h : ok (at_gen (Some g)) (fence g h : em D (str * str) ()) (λ _, tracks).
Proof.
  intros w [Hw Hg]. unfold fence.
  pose proof (commit_tracks g (with_governance (Some h) (protected_from_live w.(live))) (set_governance (Some h)) w
    Hw Hg (λ Hp, Hp) (publishes_governance _ _)) as K.
  by destruct (commit_protected _ _ _) as [[]].
Qed.

Lemma protected_head nm : nm ∈ protected_names → head nm = Some x73.
Proof.
  assert (forallb (λ nm, bool_decide (head nm = Some x73)) protected_names = true) as Hall by (vm_compute; reflexivity).
  intros Hin%list_elem_of_In. rewrite forallb_forall in Hall. apply Hall in Hin. by bool_simpl.
Qed.

Lemma archive_apart n : 0 ≤ n → apart (Discovery.governance_archive_name n).
Proof. intros Hn. split; [by apply DiscoverySpec.archive_name_plain|]. by intros ?%protected_head. Qed.

Lemma archive_statement_tracks n st w : 0 ≤ n → tracks w → tracks (archive_statement n st w).2.
Proof.
  intros Hn Hw. unfold archive_statement. destruct (l_den _); [|done].
  destruct (den_replace _ _ _ _) as [o d] eqn:Hr. cbn [snd]. eapply tracks_replace; [by apply archive_apart|done|done].
Qed.
Lemma archive_statement_live n st w : (archive_statement n st w).2.(live) = w.(live).
Proof. unfold archive_statement. destruct (l_den _); [|done]. by destruct (den_replace _ _ _ _). Qed.

Lemma applied_sequence h s e next :
  0 ≤ s.(Gov.core).(Gov.sequence) → Gov.apply h s e = Ok (Gov.Applied next) → 0 ≤ next.(Gov.h_sequence).
Proof.
  intros Hs Ha. destruct h as [h|].
  - apply GovChain.apply_Applied in Ha as (_ & _ & _ & _ & Ha). unfold Gov.apply_next in Ha. ww_inv.
    by match goal with |- 0 ≤ Gov.h_sequence (Gov.seal ?n _) => destruct n end.
  - apply GovChain.apply_genesis_inv in Ha as (_ & _ & t & ks & _ & _ & ->). done.
Qed.

Lemma core_deny_all l : ∀ n s, core (deny_all l n s).2 = core s.
Proof.
  induction l as [|p l IH]; intros n s; [done|]. cbn [deny_all].
  destruct (Authority.deny_peer_text _ _) as [a [[]|]]; [|done].
  destruct (Fangs.terminate_peer _ _) as [k [g r]]. by rewrite IH.
Qed.
Lemma core_fence_node s : core (fence_node s).2 = core s.
Proof.
  unfold fence_node. destruct (Authority.lock _) as [a [e|]]; [|done]. by destruct (Fangs.abort_all _).
Qed.
Lemma core_deny_step b l s : core (deny_step b l s).2 = core s.
Proof.
  unfold deny_step.
  assert (core (if b then fence_node s else (Some 0%nat, s)).2 = core s) as C by (destruct b; [apply core_fence_node|done]).
  destruct (if b then _ else _) as [[n|] s1]; [|done]. pose proof (core_deny_all l n s1) as C2.
  destruct (deny_all l n s1) as [[k|] s2]; cbn [snd] in *; [|congruence].
  destruct (Authority.locking _ _) as [a e]. cbn [snd]. change (core (set_authority a _)) with (core s2). congruence.
Qed.
Lemma remove_all_tracks l : ∀ s (d : D), tracks (mkWorld s d) → tracks (mkWorld (remove_all l s).2 d).
Proof.
  induction l as [|p l IH]; intros s d Hw; [done|]. cbn [remove_all].
  destruct (Authority.removed_text _ _) as [a [[]|]]; [|by left; left].
  apply IH. by apply (tracks_core (mkWorld s d)).
Qed.

Lemma die_stops s w : stopped (Terminal.die s w).2.(live).
Proof. unfold Terminal.die. destruct (if l_den _ then _ else _) as [x w2]. by right. Qed.

(** The part of [apply_statement] after the archive. *)
Lemma governance_publishes next candidate s :
  publishes (λ l, set_governance (Some next) (set_peers candidate l))
    (with_governance (Some next) (with_peers candidate (protected_from_live s))) s.
Proof. by split_and!. Qed.

Lemma apply_statement_keeps cleanup_ok s e : 0 ≤ s.(Gov.core).(Gov.sequence) → keeps (apply_statement cleanup_ok s e).
Proof.
  intros Hs. unfold apply_statement. apply k_bind; [apply k_get|]. intros head.
  apply (ok_bind _ _ at_gen); [by intros w Hw|]. intros gen.
  apply (ok_bind _ _ (λ _, at_gen gen)); [apply g_get|]. intros peers.
  apply (ok_bind _ _ (λ g w, at_gen gen w ∧ gen = Some g)); [apply ok_some, at_gen_tracks|]. intros g.
  apply (ok_weaken (at_gen (Some g)) _ _ (λ _, tracks) _); [|by intros w [? ->]|done].
  destruct (Gov.apply head s e) as [[next| |fenced]|err] eqn:Ha; [| | |].
  2: { apply ok_ret, at_gen_tracks. }
  2: { apply ok_then; [apply fence_keeps|intros _; apply k_leave]. }
  2: { destruct err as [[]|]; apply ok_leave, at_gen_tracks. }
  apply applied_sequence in Ha; [|done].
  apply (ok_bind _ _ (λ _, at_gen (Some g))).
  { apply ok_run with (Q := λ _, at_gen (Some g)). intros w [Hw Hg].
    split; [by apply archive_statement_tracks|by rewrite archive_statement_live]. }
  intros archived. apply (ok_bind _ _ (λ _, at_gen (Some g))); [apply g_leave_if|]. intros _. cbn zeta.
  set (revoked := filter _ peers). set (candidate := filter _ peers).
  apply (ok_bind _ _ (λ _, at_gen (Some g))); [apply g_get|]. intros own.
  set (was := match head with Some h => _ | None => true end).
  apply (ok_bind _ _ (λ _, at_gen (Some g))).
  { apply ok_run with (Q := λ _, at_gen (Some g)). intros w [Hw Hg].
    pose proof (core_deny_step (was && negb (admits_own own next)) revoked w.(live)) as C.
    destruct (deny_step _ _ _) as [o l]. cbn [snd] in *. split; [by apply tracks_core|].
    injection C as _ _ _ C _ _ _ _ _. cbn. congruence. }
  intros denied. apply (ok_bind _ _ (λ _, at_gen (Some g))); [apply g_or|]. intros [closed reopen].
  apply (ok_bind _ _ (λ _ w, tracks (on_live (λ l, set_governance (Some next) (set_peers candidate l)) w))).
  { apply ok_saved. intros w [Hw Hg].
    pose proof (commit_tracks g (with_governance (Some next) (with_peers candidate (protected_from_live w.(live)))) _ w
      Hw Hg (λ Hp, Hp) (governance_publishes next candidate _)) as K.
    unfold unit_of. by destruct (commit_protected _ _ w) as [[]]. }
  intros _. apply ok_then; [by apply (ok_upd _ tracks)|]. intros _.
  apply k_bind; [apply k_run|intros published].
  { intros [l d] Hw. pose proof (remove_all_tracks revoked l d Hw) as K. cbn [live disk].
    by destruct (remove_all revoked l). }
  repeat track_step.
  - apply k_run. intros w _. left. apply die_stops.
  - apply t_upd. intros l. by destruct (silver_active l), reopen.
Qed.

Lemma decode_sequence bytes s : Gov.statement_decode bytes = Ok s → 0 ≤ s.(Gov.core).(Gov.sequence).
Proof. intros [_ [Hr _]]%GovCodec.decode_inv. by destruct Hr. Qed.

Lemma apply_governance_keeps cleanup_ok req : keeps (apply_governance cleanup_ok req).
Proof.
  unfold apply_governance. cbn zeta. apply k_bind; [apply k_or|]. intros bytes.
  apply (ok_bind _ _ (λ s w, tracks w ∧ 0 ≤ s.(Gov.core).(Gov.sequence))).
  { destruct (Gov.statement_decode bytes) as [s|] eqn:Hd; [apply ok_ret|by apply ok_leave].
    intros w Hw. split; [done|by eapply decode_sequence]. }
  intros s. apply ok_pure. intros Hs.
  apply k_bind; [repeat track_step|]. intros expect. apply k_bind; [|intros result; apply k_ret].
  intros w Hw. unfold rejecting. pose proof (apply_statement_keeps cleanup_ok s expect Hs w Hw) as K.
  by destruct (apply_statement _ _ _ w) as [[a|[c m]] w'].
Qed.

Lemma record_conflict_tracks two w : tracks w → tracks (record_conflict two w).2.
Proof.
  intros Hw. unfold record_conflict. cbn zeta.
  destruct (l_governance _) as [h|]; [|done]. destruct (l_generation (live w)) as [g|] eqn:Hg; [|done].
  destruct two as [|a [|b [|]]]; try done. destruct (_ || _ || _); [done|]. cbn [snd].
  pose proof (fence_keeps g (Gov.set_forked h) w (conj Hw Hg)) as K. by destruct (fence _ _ w) as [[]].
Qed.

Lemma sync_loop_tracks cleanup_ok l : Forall (λ s, 0 ≤ s.(Gov.core).(Gov.sequence)) l →
  ∀ applied w, tracks w → tracks (sync_loop cleanup_ok l applied w).2.
Proof.
  induction 1 as [|s l Hs Hl IH]; intros applied w Hw; [done|]. cbn [sync_loop].
  pose proof (apply_statement_keeps cleanup_ok s None Hs w Hw) as K.
  destruct (apply_statement _ _ _ w) as [[r|stop] w']; [by apply IH|done].
Qed.

Lemma sync_sequences v l :
  match as_array v with Some l => mapM sync_decode l | None => Some [] end = Some l →
  Forall (λ s, 0 ≤ s.(Gov.core).(Gov.sequence)) l.
Proof.
  intros Hl. destruct (as_array v) as [js|]; [|by injection Hl as <-]. apply mapM_Some in Hl.
  apply Forall_forall. intros s [i Hi]%list_elem_of_lookup. destruct (Forall2_lookup_r _ _ _ _ _ Hl Hi) as (x & _ & Hv).
  revert Hv. unfold sync_decode. destruct (as_str x) as [text|]; [|done]. cbn.
  destruct (b64_decode text) as [bytes|]; [|done]. cbn. destruct (Gov.statement_decode bytes) eqn:Hd; [|done].
  intros [= ->]. by eapply decode_sequence.
Qed.

Lemma apply_sync_keeps cleanup_ok req : keeps (apply_sync cleanup_ok req).
Proof.
  unfold apply_sync. cbn zeta.
  apply (ok_bind _ _ (λ l w, tracks w ∧ Forall (λ s, 0 ≤ s.(Gov.core).(Gov.sequence)) l)).
  { eapply ok_weaken; [by apply ok_some|done|]. intros l w [Hw Hl]. split; [done|by eapply sync_sequences]. }
  intros l. apply ok_pure. intros Hl. apply k_bind.
  - apply k_run. by apply sync_loop_tracks.
  - intros [applied stop]. repeat track_step. apply k_run. apply record_conflict_tracks.
Qed.

(** **** The rest, and the whole handler *)

Lemma migrate_keeps req : keeps (manifest_migrate req).
Proof.
  unfold manifest_migrate. apply (ok_bind _ _ at_gen); [by intros w Hw|]. intros gen.
  apply (ok_bind _ _ (λ _ w, stopped w.(live))).
  { intros w [Hw Hg]. unfold leave_if. destruct (bool_decide_reflect (is_Some gen)) as [|Hn]; [done|].
    destruct Hw as [Hs|(_ & g & b & Hg' & _)]; [done|]. rewrite Hg in Hg'. subst gen. by destruct Hn. }
  intros _. apply (ok_bind _ _ (λ _ w, stopped w.(live))); [by intros w Hw|]. intros den.
  apply (ok_bind _ _ (λ _ w, stopped w.(live))).
  { eapply ok_weaken; [apply (ok_leave_if (λ w, stopped w.(live))); intros w Hw; by left|done|by intros ? w [? _]]. }
  intros _. apply (ok_bind _ _ (λ _ w, stopped w.(live))).
  { apply ok_run with (Q := λ _ w, stopped w.(live)). intros w Hw. by destruct (migrate (disk w)). }
  intros [g|e|e].
  - apply ok_then; [apply ok_upd; intros w Hw; by left|intros _; apply k_ret].
  - apply ok_leave. intros w Hw. by left.
  - apply ok_then; [apply ok_upd; intros w _; apply tracks_degraded|intros _; apply k_leave].
Qed.

Lemma retire_tracks confirm w : tracks w → tracks (Terminal.retire confirm w).2.
Proof.
  intros Hw. unfold Terminal.retire. destruct (l_pelt _) as [pelt|]; [|done].
  destruct (negb (bool_decide _)); [done|]. destruct (negb (l_den _)); [done|]. cbn zeta.
  set (w1 := on_live _ w). assert (tracks w1) as Hw1 by (by apply (tracks_core w)).
  destruct (Tombstone.retirement _ _) as [t|]; [|done].
  destruct (Terminal.write t (disk w1)) as [o d] eqn:Ho.
  assert (tracks (on_disk d w1)) as Hd.
  { revert Ho. unfold Terminal.write. destruct (Tombstone.encode t) as [bytes|]; [|by intros [= _ <-]].
    intros Ho. eapply tracks_replace; [|done|done]. solve_apart. }
  destruct o as [e| |e]; cbn [snd].
  - apply (tracks_core (on_disk d w1)); [|done]. unfold Terminal.unlock_after_failure. cbn zeta.
    destruct (_ || _); [done|]. by destruct (Authority.locking _ _) as [a [epoch|]].
  - destruct (Terminal.finish _ _) as [x d2]. left. by right.
  - apply tracks_degraded.
Qed.

Section handle.
Context (secret : array 32) (tls_ok : Pelt.PeltIdentity → bool) (home : str) (sha256 : list byte → array 32)
  (now : Z) (cleanup_ok : str → bool).

Lemma dispatch_keeps req : keeps (dispatch secret tls_ok home sha256 now cleanup_ok req).
Proof.
  unfold dispatch.
  repeat match goal with |- Triple.keeps _ (if ?b then _ else _) => destruct b end;
    eauto using auto_sync_keeps, pelt_init_keeps, migrate_keeps, target_keeps, service_keeps, publish_keeps,
      provider_keeps, route_keeps, advertise_keeps, apply_governance_keeps, apply_sync_keeps, pack_keeps, profile_keeps.
  intros w Hw. unfold retire_cmd.
  pose proof (retire_tracks (default [] (as_str (j_get req.(rq_args) (lit "confirm")))) w Hw) as K.
  by destruct (Terminal.retire _ w) as [[r|[c m]] w'].
Qed.

Lemma handle_tracks req w : tracks w → tracks (handle secret tls_ok home sha256 now cleanup_ok req w).2.
Proof.
  intros Hw. unfold handle, answer. pose proof (dispatch_keeps req w Hw) as K. by destruct (dispatch _ _ _ _ _ _ _ w) as [[]].
Qed.
End handle.

(** *** The daemon's life between two starts *)

(** A mutation from the control socket, the durable part of Silver and of
    starting or stopping a profile, a failure after which the node reports
    degraded storage, and whatever leaves the published state and the Den
    alone: sessions, Fangs, RPC, status. *)
Inductive admin (tls_ok : Pelt.PeltIdentity → bool) (sha256 : list byte → array 32) : World D → World D → Prop :=
| A_command secret home now cleanup_ok req w :
    admin tls_ok sha256 w (handle secret tls_ok home sha256 now cleanup_ok req w).2
| A_silver locked w : admin tls_ok sha256 w (persist_silver locked w).2
| A_active candidate w : admin tls_ok sha256 w (persist_active candidate w).2
| A_cache cache w : admin tls_ok sha256 w (persist_discovery_cache cache w).2
| A_degrade w : admin tls_ok sha256 w (on_live (set_degraded true) w)
| A_other w s : persistent s = persistent w.(live) → admin tls_ok sha256 w (mkWorld s w.(disk)).

Lemma admin_tracks tls_ok sha256 w w' : rtc (admin tls_ok sha256) w w' → tracks w → tracks w'.
Proof.
  induction 1 as [|w1 w2 w3 Hs _ IH]; [done|]. intros Hw. apply IH. destruct Hs.
  - by apply handle_tracks.
  - by apply persist_silver_tracks.
  - by apply persist_active_tracks.
  - apply durable_bytes_tracks; [solve_apart|done].
  - apply tracks_degraded.
  - apply tracks_core; [|done]. match goal with Hp : persistent _ = _ |- _ => exact (f_equal fst Hp) end.
Qed.

(** What is loaded is in the stored order. *)
Lemma parse_sorted {A} `{SerdeLaws (list A)} (f : A → str) (check : list A → io ()) bytes l :
  (l ← ok_or (from_slice bytes) InvalidData;
   again ← (_ ← check l; Ok (to_vec (sorted_by f l)));
   _ ← require (bool_decide (again = bytes)) InvalidData; Ok l) = Ok l → sorted_by f l = l.
Proof.
  intros Hp. ww_inv. bool_simpl. subst bytes.
  match goal with Hf : from_slice (to_vec _) = Some l |- _ => rewrite from_to_vec in Hf; by injection Hf end.
Qed.

Lemma parse_state_stored c s : parse_state c = Ok s → stored s = s ∧ policy_wf s.(target_policy).
Proof.
  unfold parse_state. intros (locked & _ & Hp)%bind_Ok. apply bind_Ok in Hp as (ps & Hps & Hp).
  apply bind_Ok in Hp as (tp & Htp & Hp). apply bind_Ok in Hp as (fangs & Hfangs & Hp).
  apply bind_Ok in Hp as (fangs' & _ & Hp). apply bind_Ok in Hp as (act & Hact & Hp).
  apply bind_Ok in Hp as (gov & _ & [= <-]). apply map_err_Ok, parse_canonical_inv in Htp as (Hwf & Hn & _).
  split; [|done]. unfold stored.
  cbn [silver_locked ProtectedState.peers target_policy fang_profiles active_profiles ProtectedState.governance].
  rewrite (parse_sorted pr_name _ _ _ Hps), (parse_sorted fp_name _ _ _ Hfangs), (parse_sorted id _ _ _ Hact).
  by rewrite Hn.
Qed.

Lemma load_durable (d : D) g s : load d = Ok (Loaded g s) → quiesced d →
  durable_gen g s d ∧ stored s = s ∧ policy_wf s.(target_policy).
Proof.
  intros Hl Hq. apply load_inv in Hl as (Hmode & Hcur & Hn & c & m & Hslot & Hm & Hp & Hf).
  split; [|by eapply parse_state_stored]. split; [done|]. exists c, m. split_and!; [done..|]. intros d2 Hr.
  assert (∀ nm v, nm ∈ protected_names → den_file d nm = v → den_file d2 nm = v) as K.
  { intros nm v Hnm Hv. eapply settled_reopens; [|done]. rewrite <- Hv. by apply Hq. }
  split_and!; [apply K; [apply mode_protected|done]|apply K; [apply current_protected|done]|].
  destruct Hslot as (A & B & C & E & F & G & I).
  split_and!; try (apply K; [apply slot_protected; solve_doc|done]).
  intros b Hb. apply K; [apply slot_protected; solve_doc|by apply I].
Qed.

(** A restart finds what the node had published. Start a node in
    protected mode from a settled Den, and run it through any sequence of
    administrative commands, Silver changes and profile starts, whatever the
    Den's file system refuses on the way: as long as the node does not
    report degraded storage and is not exiting, the Den loads, also after a
    power failure, the live generation with exactly the live Pack, target
    policy, Fang profiles, active profiles and governance head. *)
Theorem restart_loads_published tls_ok sha256 g s w w' d2 :
  load w.(disk) = Ok (Loaded g s) → quiesced w.(disk) →
  w.(live).(l_generation) = Some g.(number) → with_silver s.(silver_locked) (protected_from_live w.(live)) = s →
  rtc (admin tls_ok sha256) w w' →
  stopped w'.(live) ∨
  ∃ g' b, w'.(live).(l_generation) = Some g'.(number) ∧
    (reopens w'.(disk) d2 → den_quiet d2 →
     load d2 = Ok (Loaded g' (stored (with_silver b (protected_from_live w'.(live)))))).
Proof.
  intros Hl Hq Hg Hs Hr. destruct (load_durable _ _ _ Hl Hq) as (Hd & Hst & Hw).
  assert (tracks w) as Hw0.
  { right. split; [by rewrite <- Hs in Hw|]. exists g, s.(silver_locked). by rewrite Hs, Hst. }
  apply (admin_tracks _ _ _ _ Hr) in Hw0 as [?|(_ & g' & b & Hg' & Hd')]; [by left|right].
  exists g', b. split; [done|]. intros. by eapply durable_gen_load.
Qed.

End spec.

(** ** The Pack and governance *)

Section obeys.
Context `{!Crypto} `{!Base64} `{!Base64Laws} `{!MutationJson} `{!Serde Tombstone.Document} `{!Den D} `{!DenWipe D}.

(** No member of the Pack is excluded by the head. *)
Definition fits (h : option Gov.Head) (l : list PeerRecord) : Prop :=
  ∀ head p, h = Some head → p ∈ l → NodeGovernance.excludes head p = false.
Definition obeys (w : World D) : Prop := fits w.(live).(l_governance) w.(live).(l_peers).

Definition pair_of (s : DaemonState) := (s.(l_peers), s.(l_governance)).

Notation ok := (Triple.ok obeys).
Notation keeps := (Triple.keeps obeys).

Lemma obeys_same (w w' : World D) : pair_of w'.(live) = pair_of w.(live) → obeys w → obeys w'.
Proof. unfold pair_of, obeys. by intros [= -> ->]. Qed.

(** The saves leave both alone. *)
Lemma pair_finish o (w : World D) : pair_of (finish_outcome o w).2.(live) = pair_of w.(live).
Proof. by destruct o. Qed.
Lemma pair_durable_bytes nm bytes c (w : World D) : pair_of (durable_bytes nm bytes c w).2.(live) = pair_of w.(live).
Proof.
  unfold durable_bytes. destruct (l_den _); [|done]. destruct (den_replace _ _ _ _). by rewrite pair_finish.
Qed.
Lemma pair_durable {T} `{Serde T} nm (x : T) c (w : World D) : pair_of (durable nm x c w).2.(live) = pair_of w.(live).
Proof. apply pair_durable_bytes. Qed.
Lemma pair_commit g c (w : World D) : pair_of (commit_protected g c w).2.(live) = pair_of w.(live).
Proof. unfold commit_protected. destruct (l_den _); [|done]. by destruct (commit _ _ _) as [[]]. Qed.
Lemma pair_save gen c legacy (w : World D) :
  (pair_of (legacy w).2.(live) = pair_of w.(live)) →
  pair_of (match gen with Some g => unit_of (commit_protected g c w) | None => legacy w end).2.(live) = pair_of w.(live).
Proof. intros K. destruct gen; [apply pair_commit|done]. Qed.

Lemma o_upd {E} f : (∀ s, pair_of (f s) = pair_of s) → keeps (upd f : em D E ()).
Proof. intros K. apply k_upd. intros w. apply obeys_same, K. Qed.
Lemma o_saved {E} m (r : E) : (∀ w, pair_of (m w).2.(live) = pair_of w.(live)) → keeps (saved m r).
Proof. intros K. apply k_saved. intros w. apply obeys_same, K. Qed.
Lemma o_run {E A} (m : World D → A * World D) : (∀ w, pair_of (m w).2.(live) = pair_of w.(live)) → keeps (run m : em D E A).
Proof. intros K. apply k_run. intros w. apply obeys_same, K. Qed.
Ltac obey_step := first
  [ keep_step | apply o_upd; by intros [] | apply o_saved; intros; apply pair_durable
  | apply o_saved; intros; apply pair_durable_bytes ].

Lemma target_obeys req : keeps (target_cmd (D := D) req).
Proof.
  unfold target_cmd, target_candidate. cbn zeta. repeat obey_step; apply o_saved; intros w; apply pair_save, pair_durable_bytes.
Qed.
Lemma profile_obeys req : keeps (profile_cmd (D := D) req).
Proof.
  unfold profile_cmd. cbn zeta. repeat obey_step; apply o_saved; intros w; apply pair_save, pair_durable.
Qed.
Lemma advertise_obeys sha256 now req : keeps (advertise_cmd (D := D) sha256 now req).
Proof. unfold advertise_cmd. cbn zeta. repeat obey_step. apply o_upd. intros s. by destruct (l_pelt s). Qed.
Lemma plain_obeys secret tls_ok home req :
  keeps (auto_sync_cmd (D := D) req) ∧ keeps (pelt_init (D := D) secret tls_ok home req) ∧
  keeps (service_cmd (D := D) req) ∧ keeps (publish_cmd (D := D) req) ∧ keeps (provider_cmd (D := D) req) ∧
  keeps (route_cmd (D := D) req) ∧ keeps (manifest_migrate (D := D) req).
Proof.
  unfold auto_sync_cmd, pelt_init, service_cmd, publish_cmd, provider_cmd, route_cmd, manifest_migrate. cbn zeta.
  split_and!; repeat obey_step; try (apply o_run; intros w; by destruct (migrate (disk w))); try (by apply o_run).
  intros w Hw. by destruct (provider_change req _) as [[]|].
Qed.

(** *** Members *)

Lemma excludes_key h p q : pr_public_key_b64 p = pr_public_key_b64 q → NodeGovernance.excludes h p = NodeGovernance.excludes h q.
Proof. unfold NodeGovernance.excludes, NodeGovernance.peer_key. by intros ->. Qed.

Lemma excludes_forked h p : NodeGovernance.excludes (Gov.set_forked h) p = NodeGovernance.excludes h p.
Proof. by destruct h. Qed.

(** A key that was added passed the same test. *)
Lemma verdict_excludes h k p :
  NodeGovernance.peer_key p = Some k → governance_verdict (Some h) (Some k) = (false, false) →
  NodeGovernance.excludes h p = false.
Proof. unfold NodeGovernance.excludes. intros -> [= -> ->]. done. Qed.

(** The Pack is the one that was read. *)
Definition at_peers (peers : list PeerRecord) (w : World D) : Prop := obeys w ∧ w.(live).(l_peers) = peers.
Lemma at_peers_obeys peers w : at_peers peers w → obeys w.
Proof. by intros [? _]. Qed.

(** A candidate that is a valid Pack fits the head. *)
Definition candidate_ok (candidate : list PeerRecord) (w : World D) : Prop :=
  StateValidation.pack candidate = Ok () → fits w.(live).(l_governance) candidate.

Lemma added_fits h (peers : list PeerRecord) name fp key64 address :
  fits h peers →
  governance_verdict h (match GovTool.public_key key64 with Ok k => Some k | Err _ => None end) = (false, false) →
  let candidate := peers ++ [StateValidation.mkPeerRecord name fp address StateValidation.Packmate (Some key64)] in
  StateValidation.pack candidate = Ok () → fits h candidate.
Proof.
  intros Hf Hv candidate (_ & Hok & _)%StateValidationSpec.pack_iff head p -> Hin.
  apply elem_of_app in Hin as [Hin| ->%list_elem_of_singleton]; [by eapply Hf|].
  apply Forall_app in Hok as [_ [Hok _]%Forall_cons]. destruct Hok as (_ & _ & _ & Hkey).
  destruct (Hkey key64 eq_refl) as (k & -> & _). unfold GovTool.public_key in Hv.
  rewrite b64_decode_encode in Hv. cbn [mbind option_bind] in Hv. rewrite to_array_bytes in Hv. cbn [ok_or] in Hv.
  eapply verdict_excludes; [|exact Hv]. unfold NodeGovernance.peer_key, GovTool.public_key. cbn.
  rewrite b64_decode_encode. cbn. by rewrite to_array_bytes.
Qed.

Lemma moved_fits h (peers : list PeerRecord) i p address :
  peers !! i = Some p → fits h peers → fits h (<[i := set_address address p]> peers).
Proof.
  intros Hi Hf head q -> Hq. apply list_elem_of_lookup in Hq as [j Hj].
  destruct (decide (i = j)) as [<-|Hne].
  - rewrite list_lookup_insert_eq in Hj by (by eapply lookup_lt_Some). injection Hj as <-.
    rewrite (excludes_key _ _ p) by done. eapply Hf; [done|]. by eapply list_elem_of_lookup_2.
  - rewrite list_lookup_insert_ne in Hj by done. eapply Hf; [done|]. by eapply list_elem_of_lookup_2.
Qed.

Lemma pack_candidate_fits req name peers :
  ok (at_peers peers) (pack_candidate req name peers) (λ x w, at_peers peers w ∧ candidate_ok x.1.1 w).
Proof.
  unfold pack_candidate. cbn zeta. destruct (is_cmd _ _).
  { eapply ok_bind; [apply ok_leave_if, at_peers_obeys|]. intros []. cbn beta.
    eapply ok_bind; [apply ok_get|]. intros head. cbn beta.
    destruct (governance_verdict head _) as [revoked off] eqn:Hv.
    eapply ok_bind; [apply ok_leave_if; by intros w [[[? _] _] _]|]. intros []. cbn beta.
    eapply ok_bind; [apply ok_leave_if; by intros w [[[[? _] _] _] _]|]. intros []. cbn beta.
    apply ok_ret. intros w [[[[[Ho Hp] _] Hh] ->] ->]. split; [done|]. cbn [fst]. subst head.
    intros Hok. eapply added_fits; [|done|done]. by rewrite <- Hp. }
  destruct (is_cmd _ _).
  { eapply ok_bind; [apply ok_some, at_peers_obeys|]. intros [i p]. cbn beta. apply ok_ret.
    intros w [[Ho Hp] [Hi _]%list_find_Some]. split; [done|]. intros _. apply moved_fits; [done|]. by rewrite <- Hp. }
  destruct (_ || _); [|apply ok_leave, at_peers_obeys].
  eapply ok_bind; [apply ok_leave_if, at_peers_obeys|]. intros []. cbn beta. apply ok_ret.
  intros w [[Ho Hp] _]. split; [done|]. intros _ head q Hh [_ Hq]%list_elem_of_filter. eapply Ho; [done|by rewrite Hp].
Qed.

Lemma pair_core s s' : core s = core s' → pair_of s = pair_of s'.
Proof. unfold pair_of. intros [= _ _ _ _ -> _ _ _ ->]. done. Qed.

Lemma pair_invalidate act ids (w : World D) : pair_of (invalidate act ids w).2.(live) = pair_of w.(live).
Proof. destruct (core_invalidate act ids w) as [K _]. by apply pair_core in K. Qed.

Lemma address_change_obeys peer candidate changed gen (w : World D) :
  obeys w → fits w.(live).(l_governance) candidate → obeys (apply_pack_address_change peer candidate changed gen w).2.
Proof.
  intros Hw Hc. unfold apply_pack_address_change. cbn zeta.
  set (act := if changed then _ else _). set (ids := if changed then _ else _).
  destruct (StateValidation.active _ _); [|done].
  assert (∀ w1 w2 : World D, pair_of w1.(live) = pair_of w.(live) → pair_of w2.(live) = pair_of w1.(live) →
    pair_of w2.(live) = pair_of w.(live)) as Tr by congruence.
  assert (∀ w1 : World D, pair_of w1.(live) = pair_of w.(live) → obeys w1) as Old by (intros w1 E; by eapply obeys_same).
  assert (∀ w1 : World D, pair_of w1.(live) = pair_of w.(live) → obeys (invalidate act ids w1).2) as Inv
    by (intros w1 E; apply Old; by rewrite pair_invalidate).
  assert (∀ w1 : World D, pair_of w1.(live) = pair_of w.(live) → obeys (if_degraded (λ w, (invalidate act ids w).2) w1)) as Deg
    by (intros w1 E; unfold if_degraded; destruct (l_degraded (live w1)); auto).
  assert (∀ w1 : World D, pair_of w1.(live) = pair_of w.(live) →
    obeys (let '(n, w') := invalidate act ids (on_live (set_peers candidate) w1) in (Ok (E := IoError) n, w')).2) as Pub.
  { intros w1 E. pose proof (pair_invalidate act ids (on_live (set_peers candidate) w1)) as K.
    destruct (invalidate _ _ _) as [n w']. cbn [snd] in *. unfold obeys, pair_of in *. cbn in K.
    injection K as -> ->. injection E as _ ->. done. }
  destruct gen as [g|].
  - match goal with |- context [commit_protected g ?c w] => pose proof (pair_commit g c w) as E;
      destruct (commit_protected g c w) as [[]] end; [apply Pub|apply Deg]; exact E.
  - destruct (if bool_decide _ then _ else _) as [first w1] eqn:E1.
    assert (pair_of w1.(live) = pair_of w.(live)) as P1.
    { destruct (bool_decide _); [by injection E1 as _ <-|].
      pose proof (pair_durable (lit "active_fangs.json") act false w) as K. by rewrite E1 in K. }
    destruct first; [|by apply Deg].
    pose proof (pair_durable (lit "pack.json") candidate false w1) as P2.
    destruct (durable (lit "pack.json") candidate false w1) as [[] w2]; [apply Pub; by eapply Tr|]. cbn [snd] in *.
    destruct (l_degraded (live w2)); [apply Inv; by eapply Tr|].
    pose proof (pair_durable (lit "active_fangs.json") (l_active (live w)) false w2) as P3.
    destruct (durable _ _ _ w2) as [[] w3]; cbn [snd] in *; [apply Old; congruence|apply Inv; change (pair_of w3.(live) = pair_of w.(live)); congruence].
Qed.

Lemma pack_obeys cleanup_ok req : keeps (pack_cmd (D := D) cleanup_ok req).
Proof.
  unfold pack_cmd. cbn zeta. apply (ok_bind _ _ at_peers); [by intros w Hw|]. intros peers.
  apply (ok_bind _ _ (λ _, at_peers peers)); [by intros w Hw|]. intros gen.
  set (revoked := if _ || _ then _ else None).
  apply (ok_bind _ _ (λ x w, at_peers peers w ∧ candidate_ok x.1.1 w)); [apply pack_candidate_fits|].
  intros [[candidate changed] status]. cbn [fst].
  apply (ok_bind _ _ (λ _ w, obeys w ∧ fits w.(live).(l_governance) candidate)).
  { eapply ok_weaken; [apply (ok_ok_or (λ w, at_peers peers w ∧ candidate_ok candidate w)); by intros w [[? _] _]|done|].
    intros [] w [[[Ho _] Hc] Hok]. split; [done|by apply Hc]. }
  intros _. destruct (is_cmd req (lit "pack.set_address")).
  { apply ok_then; [apply ok_run with (Q := λ _, obeys)|].
    - intros w [Hw Hc]. by apply address_change_obeys.
    - intros x. repeat obey_step. }
  assert (∀ w w' : World D, pair_of w'.(live) = pair_of w.(live) →
    obeys w ∧ fits w.(live).(l_governance) candidate → obeys w' ∧ fits w'.(live).(l_governance) candidate) as Same.
  { unfold pair_of, obeys. intros w w' [= -> ->]. done. }
  apply (ok_bind _ _ (λ _ w, obeys w ∧ fits w.(live).(l_governance) candidate)).
  { apply ok_run with (Q := λ _ w, obeys w ∧ fits w.(live).(l_governance) candidate). intros w. apply Same.
    pose proof (core_deny_member (arg req (lit "name")) revoked w.(live)) as C.
    destruct (deny_member _ _ _) as [o s]. by apply pair_core. }
  intros denied. apply (ok_bind _ _ (λ _ w, obeys w ∧ fits w.(live).(l_governance) candidate)).
  { eapply ok_weaken; [apply (ok_some (λ w, obeys w ∧ fits w.(live).(l_governance) candidate)); by intros w [? _]|done|
      by intros ? w [? _]]. }
  intros closed. apply (ok_bind _ _ (λ _ w, obeys w ∧ fits w.(live).(l_governance) candidate)).
  { apply ok_saved. intros w Hw.
    match goal with |- match ?x with _ => _ end => assert (pair_of x.2.(live) = pair_of w.(live)) as E end.
    { destruct gen; [apply pair_commit|apply pair_durable]. }
    apply (Same _ _ E) in Hw. destruct (match gen with Some _ => _ | None => _ end) as [[] w']; [done|by destruct Hw]. }
  intros _. apply ok_then; [apply ok_upd; by intros w [_ Hc]|]. intros _.
  apply k_bind; [apply o_run|intros b; repeat obey_step].
  intros w. destruct revoked as [peer|]; [|done]. by destruct (Authority.removed_text peer _) as [a [[]|]].
Qed.

(** *** Statements *)

Lemma fork_inv h s e f : Gov.apply h s e = Ok (Gov.ForkOutcome f) → ∃ h0, h = Some h0 ∧ f = Gov.set_forked h0.
Proof.
  destruct h as [h0|]; cbn [Gov.apply].
  - intros Ha. exists h0. split; [done|]. unfold Gov.apply_dead, Gov.apply_known, Gov.apply_next in Ha. by ww_inv.
  - unfold Gov.apply_genesis. intros Ha. by ww_inv.
Qed.

(** Members whose names were not removed are not excluded. *)
Lemma swept_fits next (peers : list PeerRecord) :
  fits (Some next)
    (filter (λ p, pr_name p ∉ (pr_name <$> filter (λ p, NodeGovernance.excludes next p = true) peers)) peers).
Proof.
  intros head p [= <-] [Hn Hp]%list_elem_of_filter. destruct (NodeGovernance.excludes next p) eqn:He; [|done].
  destruct Hn. apply list_elem_of_fmap_2. by apply list_elem_of_filter.
Qed.

Lemma pair_archive n st (w : World D) : pair_of (archive_statement n st w).2.(live) = pair_of w.(live).
Proof. by rewrite archive_statement_live. Qed.

Lemma pair_remove_all l : ∀ s, pair_of (remove_all l s).2 = pair_of s.
Proof.
  induction l as [|p l IH]; intros s; [done|]. cbn [remove_all].
  destruct (Authority.removed_text _ _) as [a [[]|]]; [by rewrite IH|done].
Qed.

Lemma pair_lock_node s : pair_of (Terminal.lock_node s) = pair_of s.
Proof. unfold Terminal.lock_node. cbn zeta. by destruct (Fangs.abort_all _). Qed.
Lemma pair_die s (w : World D) : pair_of (Terminal.die s w).2.(live) = pair_of w.(live).
Proof.
  unfold Terminal.die. cbn zeta. rewrite <- (pair_lock_node w.(live)).
  destruct (l_den _); [|done]. destruct (Tombstone.death _ _ _) as [t|]; [|done].
  by destruct (Terminal.bury _ _).
Qed.
Lemma pair_retire confirm (w : World D) : pair_of (Terminal.retire confirm w).2.(live) = pair_of w.(live).
Proof.
  unfold Terminal.retire. destruct (l_pelt _) as [pelt|]; [|done]. destruct (negb (bool_decide _)); [done|].
  destruct (negb (l_den _)); [done|]. cbn zeta. destruct (Tombstone.retirement _ _) as [t|]; [|done].
  destruct (Terminal.write t _) as [[e| |e] d]; [|cbn [on_disk on_live disk live]|done].
  - cbn [snd on_live on_disk live]. unfold Terminal.unlock_after_failure. cbn zeta.
    destruct (_ || _); [done|]. by destruct (Authority.locking _ _) as [a [epoch|]].
  - match goal with |- context [Terminal.finish t ?x] => destruct (Terminal.finish t x) end.
    cbn [snd on_live on_disk live]. change (pair_of (Terminal.request_exit ?s)) with (pair_of s). by rewrite pair_lock_node.
Qed.

Lemma fence_obeys g h h0 : 
  ok (λ w : World D, obeys w ∧ w.(live).(l_governance) = Some h0) (fence g h : em D (str * str) ()) (λ _ w, h = Gov.set_forked h0 → obeys w).
Proof.
  intros w [Hw Hg]. unfold fence.
  match goal with |- context [commit_protected g ?c w] => pose proof (pair_commit g c w) as E;
    destruct (commit_protected g c w) as [[] w'] end; cbn [snd] in E; intros ->; unfold pair_of in E; injection E as Ep Eg.
  - intros head p [= <-] Hp. rewrite excludes_forked. eapply Hw; [done|]. cbn in Hp. by rewrite <- Ep.
  - unfold obeys. by rewrite Ep, Eg.
Qed.

Lemma apply_statement_obeys cleanup_ok s e : keeps (apply_statement (D := D) cleanup_ok s e).
Proof.
  unfold apply_statement. apply (ok_bind _ _ (λ h w, obeys w ∧ w.(live).(l_governance) = h)); [by intros w Hw|]. intros head.
  set (P := λ w : World D, obeys w ∧ w.(live).(l_governance) = head).
  assert (∀ w, P w → obeys w) as HP by (by intros w [? _]).
  apply (ok_bind _ _ (λ _, P)); [by intros w Hw|]. intros gen.
  apply (ok_bind _ _ (λ peers w, P w ∧ w.(live).(l_peers) = peers)); [by intros w Hw|]. intros peers.
  eapply (ok_weaken P _ _ (λ _, obeys)); [|by intros w [? _]|done].
  apply (ok_bind _ _ (λ _, P)); [eapply ok_weaken; [by apply ok_some|done|by intros ? w [? _]]|]. intros g.
  destruct (Gov.apply head s e) as [[next| |fenced]|err] eqn:Ha; [| | |].
  2: { by apply ok_ret. }
  2: { apply fork_inv in Ha as (h0 & -> & ->).
       apply ok_then; [eapply ok_weaken; [apply fence_obeys|done|]; by intros [] w K; apply K|intros _; apply k_leave]. }
  2: { destruct err as [[]|]; by apply ok_leave. }
  apply (ok_weaken obeys _ _ (λ _, obeys) _); [|done|done].
  apply k_bind; [apply o_run; intros w; apply pair_archive|]. intros archived. apply k_bind; [apply k_leave_if|intros _].
  cbn zeta. set (revoked := filter _ peers). apply k_bind; [apply k_get|]. intros own.
  set (was := match head with Some h => _ | None => true end).
  apply k_bind; [apply o_run|].
  { intros w. pose proof (core_deny_step (was && negb (admits_own own next)) revoked w.(live)) as C.
    destruct (deny_step _ _ _) as [o l]. by apply pair_core. }
  intros denied. apply k_bind; [apply k_or|]. intros [closed reopen].
  apply k_bind; [apply o_saved; intros w; apply pair_commit|]. intros _.
  apply k_bind; [apply k_upd; intros w _; apply swept_fits|]. intros _.
  apply k_bind; [apply o_run|intros published].
  { intros w. pose proof (pair_remove_all revoked w.(live)) as K. by destruct (remove_all revoked (live w)). }
  repeat obey_step.
  - apply o_run. apply pair_die.
  - apply o_upd. intros l. by destruct (silver_active l), reopen.
Qed.

Lemma apply_governance_obeys cleanup_ok req : keeps (apply_governance (D := D) cleanup_ok req).
Proof.
  unfold apply_governance. cbn zeta. repeat obey_step. intros w Hw. unfold rejecting.
  match goal with |- context [apply_statement cleanup_ok ?s ?e w] =>
    pose proof (apply_statement_obeys cleanup_ok s e w Hw) as K; by destruct (apply_statement cleanup_ok s e w) as [[?|[? ?]] ?] end.
Qed.

Lemma record_conflict_obeys two (w : World D) : obeys w → obeys (record_conflict two w).2.
Proof.
  intros Hw. unfold record_conflict. cbn zeta.
  destruct (l_governance _) as [h|] eqn:Hh; [|done]. destruct (l_generation (live w)) as [g|] eqn:Hg; [|done].
  destruct two as [|a [|b [|]]]; try done. destruct (_ || _ || _); [done|]. cbn [snd].
  pose proof (fence_obeys g (Gov.set_forked h) h w (conj Hw Hh)) as K. destruct (fence _ _ w) as [[] w']; [by apply K|done].
Qed.

Lemma sync_loop_obeys cleanup_ok l : ∀ applied (w : World D), obeys w → obeys (sync_loop cleanup_ok l applied w).2.
Proof.
  induction l as [|s l IH]; intros applied w Hw; [done|]. cbn [sync_loop].
  pose proof (apply_statement_obeys cleanup_ok s None w Hw) as K.
  destruct (apply_statement _ _ _ w) as [[r|stop] w']; [by apply IH|done].
Qed.

Lemma dispatch_obeys secret tls_ok home sha256 now cleanup_ok req :
  keeps (dispatch (D := D) secret tls_ok home sha256 now cleanup_ok req).
Proof.
  destruct (plain_obeys secret tls_ok home req) as (A & B & C & E & F & G & I). unfold dispatch.
  repeat match goal with |- Triple.keeps _ (if ?b then _ else _) => destruct b end;
    eauto using target_obeys, advertise_obeys, apply_governance_obeys, pack_obeys, profile_obeys.
  - intros w Hw. unfold retire_cmd.
    pose proof (pair_retire (default [] (as_str (j_get req.(rq_args) (lit "confirm")))) w) as K.
    destruct (Terminal.retire _ w) as [[r|[c m]] w']; by eapply obeys_same.
  - unfold apply_sync. cbn zeta. repeat obey_step; apply k_run;
      [apply sync_loop_obeys|apply record_conflict_obeys].
Qed.

Lemma admin_obeys tls_ok sha256 (w w' : World D) : rtc (admin tls_ok sha256) w w' → obeys w → obeys w'.
Proof.
  induction 1 as [|w1 w2 w3 Hs _ IH]; [done|]. intros Hw. apply IH. destruct Hs.
  - unfold handle, answer.
    match goal with |- context [dispatch ?a ?b ?c ?d ?e ?f ?g w] =>
      pose proof (dispatch_obeys a b c d e f g w Hw) as K; by destruct (dispatch a b c d e f g w) as [[]] end.
  - eapply obeys_same; [|done]. unfold persist_silver. apply pair_save, pair_durable_bytes.
  - unfold persist_active, persist_protected_or_legacy. destruct (l_degraded _); [done|].
    destruct (StateValidation.active _ _); [|done].
    pose proof (pair_save (l_generation (live w)) (with_active candidate (protected_from_live w.(live)))
      (durable (lit "active_fangs.json") candidate false) w (pair_durable _ _ _ _)) as E.
    destruct (match l_generation (live w) with Some _ => _ | None => _ end) as [[] w']; by eapply obeys_same.
  - eapply obeys_same; [|done]. apply pair_durable.
  - done.
  - eapply obeys_same; [|done]. apply pair_core. match goal with Hp : persistent _ = _ |- _ => exact (f_equal fst Hp) end.
Qed.

(** C5: the Pack never holds a member the network excluded. If no member is
    excluded by the governance head, then after any sequence of commands,
    Silver changes and profile starts none is: a statement that revokes keys
    or activates the roster takes the members it excludes out of the Pack in
    the same step that publishes it, an address change keeps the member's
    key, and a key the network revoked, or one that is not on the activated
    roster, cannot be added, nor one whose text hides its 32 bytes. *)
Theorem pack_obeys_governance tls_ok sha256 (w w' : World D) : rtc (admin tls_ok sha256) w w' → obeys w → obeys w'.
Proof. apply admin_obeys. Qed.

End obeys.
End MutationSpec.
