(* ===== verification/MutationRuntime.v ===== *)
(** * Mutations and the running node ([werewolfd/src/control/mutation.rs])

    [Module MutationRuntime]: what a mutation does to sessions and Fangs,
    whether or not its save succeeds: a removed member is cut off before the
    file system is touched and stays cut off, a changed address closes what
    was built on the old one, a node that is no longer admitted is fenced. *)

From stdpp Require Import gmap.
From S2P Require Export MutationSpec.

Local Open Scope Z_scope.

Module MutationRuntime.
Import LocalFs State Mutation Triple MutationSpec.
Import StateValidation (PeerRecord, pr_name, pr_fingerprint, pr_address, pr_public_key_b64, FangProfile, fp_name, fp_peer).

Section runtime.
Context `{!Crypto} `{!Base64} `{!Base64Laws} `{!MutationJson} `{!Serde Tombstone.Document} `{!Den D} `{!DenWipe D}.
Context (secret : array 32) (tls_ok : Pelt.PeltIdentity → bool) (home : str) (sha256 : list byte → array 32)
  (now : Z) (cleanup_ok : str → bool).

Notation handle := (handle (D := D) secret tls_ok home sha256 now cleanup_ok).
Notation dispatch := (dispatch (D := D) secret tls_ok home sha256 now cleanup_ok).

(** *** Reading the handlers *)

Lemma dispatch_pack req :
  req.(rq_cmd) ∈ [lit "pack.add"; lit "pack.set_address"; lit "pack.remove"; lit "pack.revoke"] →
  dispatch req = pack_cmd cleanup_ok req.
Proof.
  destruct req as [id cmd args]. cbn [rq_cmd].
  repeat (intros [->|Hc]%elem_of_cons; [reflexivity|revert Hc]). by intros ?%elem_of_nil.
Qed.

Lemma removal_shrinks (name : str) (l : list PeerRecord) i p :
  list_find (λ p, pr_name p = name) l = Some (i, p) →
  (length (filter (λ p, pr_name p ≠ name) l) =? length l)%nat = false.
Proof.
  intros (Hi & Hp & _)%list_find_Some. apply Nat.eqb_neq.
  assert (p ∈ l) as [l1 [l2 ->]]%list_elem_of_split by (by eapply list_elem_of_lookup_2).
  rewrite filter_app, filter_cons_False by (by intros []). rewrite !length_app. cbn.
  pose proof (length_filter (λ p, pr_name p ≠ name) l1). pose proof (length_filter (λ p, pr_name p ≠ name) l2). lia.
Qed.

(** The command as one expression, for a member that is in the Pack. *)
Definition removal (req : ControlRequest) (fp : str) (w : World D) : ControlResponse * World D :=
  let name := arg req (lit "name") in
  let candidate := filter (λ p, pr_name p ≠ name) w.(live).(l_peers) in
  let '(o, s) := deny_member name (Some fp) w.(live) in
  match o with
  | None => (error req.(rq_id) (lit "AUTHORITY_UNAVAILABLE"), mkWorld s w.(disk))
  | Some closed =>
      let w1 := mkWorld s w.(disk) in
      match (match w.(live).(l_generation) with
             | Some g => unit_of (commit_protected g (with_peers candidate (protected_from_live w1.(live))) w1)
             | None => durable (lit "pack.json") candidate false w1
             end) with
      | (Err _, w2) => (error req.(rq_id) (lit "PACK_SAVE_FAILED_RUNTIME_DENIED"), w2)
      | (Ok _, w2) =>
          let w3 := on_live (set_peers candidate) w2 in
          match Authority.removed_text fp w3.(live).(l_authority) with
          | (a, None) => (error req.(rq_id) (lit "AUTHORITY_PUBLICATION_FAILED"),
                          on_live (λ s, set_degraded true (set_authority a s)) w3)
          | (a, Some _) =>
              (if cleanup_ok fp
               then pack_reply req (if is_cmd req (lit "pack.revoke") then lit "revoked" else lit "removed") name closed
                      (length candidate)
               else error req.(rq_id) (lit "AUTHORITY_CLEANUP_TIMEOUT"), on_live (set_authority a) w3)
          end
      end
  end.

Lemma handle_removal req w i p :
  req.(rq_cmd) ∈ [lit "pack.remove"; lit "pack.revoke"] →
  list_find (λ p, pr_name p = arg req (lit "name")) w.(live).(l_peers) = Some (i, p) →
  StateValidation.pack (filter (λ p, pr_name p ≠ arg req (lit "name")) w.(live).(l_peers)) = Ok () →
  handle req w = removal req (pr_fingerprint p) w.
Proof.
  intros Hcmd Hf Hv. unfold Mutation.handle, answer. rewrite dispatch_pack by set_solver.
  assert (is_cmd req (lit "pack.add") = false ∧ is_cmd req (lit "pack.set_address") = false ∧
    is_cmd req (lit "pack.remove") || is_cmd req (lit "pack.revoke") = true) as (E1 & E2 & E3).
  { unfold is_cmd. apply elem_of_cons in Hcmd as [->|[->|[]%elem_of_nil]%elem_of_cons]; by vm_compute. }
  unfold pack_cmd, pack_candidate, removal. rewrite E1, E2, E3. cbn zeta.
  unfold mbind, em_bind, get, run, leave_if. rewrite (removal_shrinks _ _ _ _ Hf), Hf.
  cbn [fmap option_fmap option_map snd mret em_ret]. rewrite Hv. cbn [ok_or_leave mret em_ret].
  destruct (deny_member _ _ (live w)) as [[closed|] s]; cbn [or_leave mret em_ret leave]; [|done].
  unfold saved. destruct (match l_generation (live w) with Some _ => _ | None => _ end) as [[[]|e] w2]; [|done].
  unfold upd. cbn [on_live live].
  destruct (Authority.removed_text _ _) as [a [[]|]]; cbn [negb leave mret em_ret]; [|done].
  by destruct (cleanup_ok (pr_fingerprint p)).
Qed.

(** *** Removing a member *)

(** What the saves never touch. *)
Definition run_of (s : DaemonState) := (s.(l_authority), s.(l_registry), s.(l_runtime)).

Lemma run_durable {T} `{Serde T} nm (x : T) c (w : World D) : run_of (durable nm x c w).2.(live) = run_of w.(live).
Proof.
  unfold durable, durable_bytes. destruct (l_den _); [|done]. by destruct (den_replace _ _ _ _) as [[] d].
Qed.
Lemma run_commit g c (w : World D) : run_of (commit_protected g c w).2.(live) = run_of w.(live).
Proof. unfold commit_protected. destruct (l_den _); [|done]. by destruct (ProtectedState.commit _ _ _) as [[]]. Qed.
Lemma run_save {T} `{Serde T} gen c nm (x : T) (w : World D) :
  run_of (match gen with Some g => unit_of (commit_protected g c w) | None => durable nm x false w end).2.(live)
  = run_of w.(live).
Proof. destruct gen; [apply run_commit|apply run_durable]. Qed.

(** Cut off: the sessions of [k] that were there are told to stop and can
    never act again. *)
Definition cut_off (k : array 8) (a a' : Authority.Authority) : Prop :=
  ∀ id e, a.(Authority.gate).(Authority.sessions) !! id = Some e → Authority.t_peer e.(Authority.e_ticket) = k →
    Authority.cancelled id a' = true ∧ ∀ ops, AuthoritySpec.fenced id (AuthoritySpec.run a' ops).

(** The Fangs of the member are closed: none is left in the registry, the
    listener and the children of each are told to stop, and no child is
    spawned for them any more. *)
Definition shut (name : str) (s s' : DaemonState) : Prop :=
  let ids := Fangs.ids_using_peer s.(l_registry) name in
  Fangs.ids_using_peer s'.(l_registry) name = [] ∧
  (∀ t, t ∈ FangsSpec.reached s.(l_registry) s.(l_runtime) ids → Fangs.status_of s'.(l_runtime) t ≠ Fangs.Running) ∧
  (∀ c, c ∈ FangsSpec.trackers_of s.(l_registry) ids → Fangs.spawn c s'.(l_runtime) = (false, s'.(l_runtime))).

(** A denial that cannot be recorded leaves the authority as it was. *)
Lemma deny_fails peer a a' : Authority.locking (Authority.deny_peer peer) a = (a', None) → a' = a.
Proof.
  unfold Authority.locking. destruct a as [g p v]. cbn [Authority.poisoned Authority.gate Authority.silver].
  destruct p; [by intros [= <-]|]. destruct (Authority.deny_peer peer g) as [g' o] eqn:E. intros [= <- ->].
  revert E. unfold Authority.deny_peer, mbind, Authority.gated_bind, Authority.g_get, Authority.g_put.
  destruct (Authority.peers g !! peer) as [x|]; [done|].
  unfold Authority.enter_peer, Authority.allocate, mbind, Authority.gated_bind, Authority.g_get, Authority.g_put,
    Authority.g_some, Authority.g_require. destruct (_ <? _)%nat; [|by intros [= <-]].
  destruct (u64_checked_add (Authority.next g) 1); [done|by intros [= <-]].
Qed.

Lemma deny_member_fails name fp k s s' :
  Pelt.parse_fingerprint fp = Some k → deny_member name (Some fp) s = (None, s') → s' = s.
Proof.
  intros Hk. unfold deny_member, Authority.deny_peer_text. rewrite Hk.
  destruct (Authority.locking _ _) as [a' [[]|]] eqn:Ha.
  - cbn zeta. by destruct (Fangs.terminate_peer _ _) as [m [g r]].
  - intros [= <-]. apply deny_fails in Ha as ->. by destruct s.
Qed.

Lemma deny_member_cuts name fp k s n s' :
  Pelt.parse_fingerprint fp = Some k → AuthoritySpec.gate_inv s.(l_authority).(Authority.gate) →
  deny_member name (Some fp) s = (Some n, s') →
  cut_off k s.(l_authority) s'.(l_authority) ∧ shut name s s'.
Proof.
  intros Hk Hi. unfold deny_member, Authority.deny_peer_text. rewrite Hk.
  destruct (Authority.locking _ _) as [a' [[]|]] eqn:Ha; [|done]. cbn zeta.
  pose proof (FangsSpec.terminate_peer_effect name (l_registry s) (l_runtime s)) as K. cbn [l_registry l_runtime set_authority].
  destruct (Fangs.terminate_peer name _) as [m [g r]]. intros [= <- <-]. split.
  2: { destruct K as (_ & K1 & _ & K2 & K3 & _). split_and!; [exact K1| |exact K3]. intros t Ht. cbn. rewrite K2, decide_True by done.
       apply FangsSpec.cancelled_stops. }
  destruct (AuthoritySpec.deny_cuts _ _ _ Hi Ha) as [Hcut _]. exact Hcut.
Qed.

Lemma removed_cut fp k a a' : Pelt.parse_fingerprint fp = Some k → cut_off k a a' →
  cut_off k a (Authority.removed_text fp a').1.
Proof.
  intros Hk Hcut id e He Hp. destruct (Hcut id e He Hp) as [Hc Hf]. unfold Authority.removed_text. rewrite Hk. split.
  - destruct (AuthoritySpec.removed_sessions k a') as [Es Ep]. revert Hc. unfold Authority.cancelled. by rewrite Es, Ep.
  - intros ops. exact (Hf (AuthoritySpec.OpRemoved k :: ops)).
Qed.

(** C6: a removed member is cut off first and stays cut off, saved or not.
    [pack.remove] and [pack.revoke] of a member, on a node whose authority
    works: either the authority cannot record the denial, and the command
    fails with the whole node and the Den as they were; or, whatever the file
    system does and whatever is answered, every session of that member has
    been told to stop and none of them ever passes the gate again, no Fang
    that uses the member is left, the listener and every child of each of
    those Fangs are told to stop and none is spawned any more, and if the
    command succeeds the member is out of the Pack. *)
Theorem revocation_outlives_failed_save req w i p k :
  req.(rq_cmd) ∈ [lit "pack.remove"; lit "pack.revoke"] →
  list_find (λ p, pr_name p = arg req (lit "name")) w.(live).(l_peers) = Some (i, p) →
  StateValidation.pack (filter (λ p, pr_name p ≠ arg req (lit "name")) w.(live).(l_peers)) = Ok () →
  Pelt.parse_fingerprint (pr_fingerprint p) = Some k →
  AuthoritySpec.gate_inv w.(live).(l_authority).(Authority.gate) →
  let '(r, w') := handle req w in
  (r = error req.(rq_id) (lit "AUTHORITY_UNAVAILABLE") ∧ w' = w) ∨
  (cut_off k w.(live).(l_authority) w'.(live).(l_authority) ∧
   shut (arg req (lit "name")) w.(live) w'.(live) ∧
   (r.(rs_ok) = true → arg req (lit "name") ∉ pr_name <$> w'.(live).(l_peers))).
Proof.
  intros Hcmd Hf Hv Hk Hi. rewrite (handle_removal req w i p Hcmd Hf Hv). unfold removal. cbn zeta.
  destruct (deny_member _ _ (live w)) as [[closed|] s] eqn:Hd.
  2: { left. split; [done|]. apply (deny_member_fails _ _ _ _ _ Hk) in Hd as ->. by destruct w. }
  destruct (deny_member_cuts _ _ _ _ _ _ Hk Hi Hd) as [Hcut Hids].
  match goal with |- context [unit_of (commit_protected _ ?c _)] =>
    pose proof (run_save (l_generation (live w)) c (lit "pack.json")
      (filter (λ p, pr_name p ≠ arg req (lit "name")) (l_peers (live w))) (mkWorld s w.(disk))) as R end.
  destruct (match l_generation (live w) with Some _ => _ | None => _ end) as [[[]|e] w2]; cbn [snd live] in R;
    injection R as Ra Rr Rt.
  2: { right. unfold shut. by rewrite Ra, Rr, Rt. }
  cbn [on_live live l_authority set_peers]. rewrite Ra.
  pose proof (removed_cut _ _ _ _ Hk Hcut) as Hrem.
  destruct (Authority.removed_text _ _) as [a [[]|]]; cbn [fst] in Hrem; right; unfold shut; cbn; rewrite Rr, Rt;
    (split; [done|split; [done|]]).
  - intros _ (q & Hq & [Hn _]%list_elem_of_filter)%list_elem_of_fmap. by apply Hn.
  - done.
Qed.

(** *** Changing a member's address *)

(** What was built on the old address is gone: no active profile reaches the
    peer or goes through it, no Fang uses it, and every listener and child
    of a Fang that did has ended. *)
Definition let_go (name : str) (s s' : DaemonState) : Prop :=
  s'.(l_active) = active_without s name ∧
  Fangs.ids_using_peer s'.(l_registry) name = [] ∧
  (FangsSpec.registry_ok s.(l_registry) s.(l_runtime) →
   let ids := Fangs.ids_using_peer s.(l_registry) name in
   (∀ t, t ∈ FangsSpec.listeners_of s.(l_registry) ids → Fangs.status_of s'.(l_runtime) t = Fangs.Finished) ∧
   (∀ c t, c ∈ FangsSpec.trackers_of s.(l_registry) ids → s'.(l_runtime).(Fangs.owner) !! t = Some c →
      Fangs.status_of s'.(l_runtime) t = Fangs.Finished)).

Lemma invalidate_lets_go name s (w : World D) : run_of w.(live) = run_of s →
  let_go name s (invalidate (active_without s name) (Fangs.ids_using_peer s.(l_registry) name) w).2.(live).
Proof.
  intros R. injection R as _ Rg Rr. unfold invalidate, publish_invalidated_runtime.
  cbn [l_registry l_runtime set_active]. rewrite Rg, Rr.
  pose proof (FangsSpec.detach_peer_none name s.(l_registry) s.(l_runtime)) as Hnone.
  destruct (Fangs.detach_ids _ _) as [t [g r]] eqn:Hd. cbn [snd fst] in Hnone. cbn zeta.
  match goal with |- context [if (?n =? 0)%nat then ?a else ?b] => set (s2 := if (n =? 0)%nat then a else b) end.
  assert (s2.(l_active) = active_without s name ∧ s2.(l_registry) = g ∧ s2.(l_runtime) = r) as (Ea & Eg & Er).
  { subst s2. destruct (_ =? 0)%nat; [done|]. by destruct (Fangs.is_empty _). }
  cbn [snd live]. unfold let_go. cbn [l_active l_registry l_runtime set_runtime]. rewrite Ea, Eg, Er.
  split; [done|]. split; [done|]. intros Hok.
  destruct (FangsSpec.detach_inv _ _ _ _ _ _ Hok Hd) as (Hq & Hc & Hl).
  pose proof (FangsSpec.quiesce_reach _ _ _ (FangsSpec.quiesce_runs t r) Hq) as (_ & _ & Hheld & Hstop).
  rewrite Forall_forall in Hheld, Hstop. split.
  - intros x Hx%Hl%Hstop. by destruct Hx.
  - intros c x Hx%Hc Ho. destruct (Fangs.status_of (Fangs.quiesce t r) x) eqn:Hs; [| |done];
      (assert (x ∈ []) as []%elem_of_nil by (apply (Hheld c Hx x Ho); by rewrite Hs)).
Qed.

Lemma live_durable {T} `{Serde T} nm (x : T) c (w : World D) :
  (durable nm x c w).2.(live) = w.(live) ∨
  (∃ e, (durable nm x c w).1 = Err e) ∧ (durable nm x c w).2.(live) = set_degraded true w.(live).
Proof.
  unfold durable, durable_bytes. destruct (l_den _); [|by left].
  destruct (den_replace _ _ _ _) as [[] d]; cbn; eauto.
Qed.
Lemma live_commit g c (w : World D) e : (commit_protected g c w).1 = Err e →
  (commit_protected g c w).2.(live) = w.(live) ∨ (commit_protected g c w).2.(live) = set_degraded true w.(live).
Proof.
  unfold commit_protected. destruct (l_den _); [|by left].
  destruct (ProtectedState.commit _ _ _) as [[]]; cbn; auto. discriminate.
Qed.

(** What the file system makes of an address change, by itself: the change is
    durable; nothing of it is kept; or it is not known what is kept. *)
Inductive SaveOutcome : Type := Durable | Kept | Unknown.

Definition replace_in (s : DaemonState) (nm : str) (bytes : list byte) (d : D) : CommitOutcome * D :=
  if s.(l_den) then den_replace nm bytes false d else (NotCommitted Other, d).

Definition address_outcome (s : DaemonState) (name : str) (candidate : list PeerRecord) (d : D) : SaveOutcome :=
  let act := active_without s name in
  if negb (is_ok (StateValidation.pack candidate)) || negb (is_ok (StateValidation.active act s.(l_profiles))) then Kept
  else match s.(l_generation) with
  | Some g =>
      if s.(l_den) then
        match (ProtectedState.commit g (with_active act (with_peers candidate (protected_from_live s))) d).1 with
        | ProtectedState.TDurablyCommitted _ => Durable
        | ProtectedState.TNotCommitted _ => Kept
        | ProtectedState.TIndeterminate _ => Unknown
        end
      else Kept
  | None =>
      let '(o1, d1) := if bool_decide (act = s.(l_active)) then (DurablyCommitted, d)
                       else replace_in s (lit "active_fangs.json") (to_vec act) d in
      match o1 with
      | NotCommitted _ => Kept
      | IndeterminateAfterRename _ => Unknown
      | DurablyCommitted =>
          let '(o2, d2) := replace_in s (lit "pack.json") (to_vec candidate) d1 in
          match o2 with
          | DurablyCommitted => Durable
          | IndeterminateAfterRename _ => Unknown
          | NotCommitted _ =>
              match (replace_in s (lit "active_fangs.json") (to_vec s.(l_active)) d2).1 with
              | DurablyCommitted => Kept
              | _ => Unknown
              end
          end
      end
  end.

(** What the live node makes of each. *)
Definition address_result (o : SaveOutcome) (name : str) (candidate : list PeerRecord) (ok : bool)
    (s s' : DaemonState) : Prop :=
  match o with
  | Durable => ok = true ∧ s'.(l_peers) = candidate ∧ let_go name s s'
  | Kept => ok = false ∧ s' = s
  | Unknown => ok = false ∧ s'.(l_degraded) = true ∧ let_go name s s'
  end.

Lemma durable_outcome {T} `{Serde T} nm (x : T) (w : World D) :
  durable nm x false w =
  let '(o, d) := replace_in w.(live) nm (to_vec x) w.(disk) in finish_outcome o (mkWorld w.(live) d).
Proof. unfold durable, durable_bytes, replace_in. destruct (l_den _); [done|]. by destruct w. Qed.

Lemma invalidate_closes name s (w : World D) : run_of w.(live) = run_of s →
  let w' := (invalidate (active_without s name) (Fangs.ids_using_peer s.(l_registry) name) w).2 in
  let_go name s w'.(live) ∧ l_degraded w'.(live) = l_degraded w.(live) ∧ l_peers w'.(live) = l_peers w.(live).
Proof.
  intros R. split; [by apply invalidate_lets_go|].
  destruct (core_invalidate (active_without s name) (Fangs.ids_using_peer s.(l_registry) name) w) as [C _].
  injection C as -> _ _ _ -> _ _ _ _. done.
Qed.

(** How an address change ends, by the outcome of its save. *)
Lemma address_change_ends name candidate w :
  w.(live).(l_degraded) = false → StateValidation.pack candidate = Ok () →
  let '(r, w') := apply_pack_address_change name candidate true w.(live).(l_generation) w in
  address_result (address_outcome w.(live) name candidate w.(disk)) name candidate (is_ok r) w.(live) w'.(live).
Proof.
  intros Hdeg Hpack. unfold apply_pack_address_change, address_outcome. cbn zeta. rewrite Hpack. cbn [is_ok negb orb].
  set (act := active_without _ _). set (ids := Fangs.ids_using_peer _ _).
  destruct (StateValidation.active act _); cbn [is_ok negb]; [|done].
  assert (∀ w1 : World D, run_of w1.(live) = run_of w.(live) →
    let '(r, w') := (let '(n, w') := invalidate act ids (on_live (set_peers candidate) w1) in (Ok (E := IoError) n, w')) in
    address_result Durable name candidate (is_ok r) w.(live) w'.(live)) as Pub.
  { intros w1 R. destruct (invalidate_closes name w.(live) (on_live (set_peers candidate) w1) R) as (K1 & _ & K2).
    fold act ids in K1, K2. destruct (invalidate act ids _) as [n w']. by split_and!. }
  assert (∀ d : D, address_result Unknown name candidate false w.(live)
    (invalidate act ids (mkWorld (set_degraded true w.(live)) d)).2.(live)) as Lost.
  { intros d. destruct (invalidate_closes name w.(live) (mkWorld (set_degraded true w.(live)) d) eq_refl) as (K1 & K2 & _).
    by split_and!. }
  destruct (l_generation (live w)) as [g|].
  - unfold commit_protected, if_degraded. destruct (l_den (live w)); [|by rewrite Hdeg].
    destruct (ProtectedState.commit g _ _) as [[n|e|e] d]; cbn [fst on_disk on_live live disk l_degraded set_degraded].
    + by apply Pub.
    + by rewrite Hdeg.
    + apply Lost.
  - unfold if_degraded. rewrite durable_outcome.
    assert ((if bool_decide (act = l_active (live w)) then (Ok (), w)
             else let '(o, d) := replace_in (live w) (lit "active_fangs.json") (to_vec act) (disk w) in
                  finish_outcome o (mkWorld w.(live) d))
      = (let '(o, d) := if bool_decide (act = l_active (live w)) then (DurablyCommitted, disk w)
                        else replace_in (live w) (lit "active_fangs.json") (to_vec act) (disk w) in
         finish_outcome o (mkWorld w.(live) d))) as ->.
    { destruct (bool_decide _); [|done]. by destruct w. }
    destruct (if bool_decide _ then _ else _) as [[e| |e] d1]; cbn [finish_outcome on_live live disk l_degraded set_degraded];
      [by rewrite Hdeg| |apply Lost].
    rewrite durable_outcome. cbn [live disk].
    destruct (replace_in (live w) (lit "pack.json") (to_vec candidate) d1) as [[e| |e] d2];
      cbn [finish_outcome on_live live disk l_degraded set_degraded]; [|by apply Pub|apply Lost].
    rewrite Hdeg, durable_outcome. cbn [live disk].
    destruct (replace_in (live w) (lit "active_fangs.json") (to_vec (l_active (live w))) d2) as [[e'| |e'] d3];
      cbn [finish_outcome fst on_live live disk]; [apply Lost|done|apply Lost].
Qed.


End runtime.
End MutationRuntime.
