(* ===== verification/Persistence.v ===== *)
(** * Start-up from the Den ([werewolfd/src/persistence.rs], [main.rs])

    [Module Persistence]: reading every persistent document back into a
    [DaemonState], and the part of [run] in [main.rs] up to the running
    state: the Tombstone check, the load, the dead head, the TLS identity.
    Also the parsers the load uses ([discovery/operator.rs],
    [auto_sync.rs]). *)

From stdpp Require Import gmap.
From S2P Require Export MutationSpec.

Local Open Scope Z_scope.

Module Persistence.
Import LocalFs State Pelt Mutation.
Import ProtectedState (SilverDocument, si_version, si_mode, mkState).
Notation io A := (result IoError A).

(** ** Documents *)

Section parsers.
Context `{Crypto} `{Base64} `{MutationJson}.

Definition invalid {A} : io A := Err InvalidData.
Definition checked {E} (r : result E ()) : io () := map_err (λ _, InvalidData) r.

Definition parse_advertise (data : list byte) : io (list str) :=
  file ← ok_or (from_slice data) InvalidData;
  _ ← require (bool_decide (file.(ad_version) = x01)) InvalidData;
  _ ← (if bool_decide (file.(ad_addresses) = []) then Ok ()
       else checked (Contact.check_addresses file.(ad_addresses)));
  Ok file.(ad_addresses).

Definition parse_published (data : list byte) : io (list Published.PublishedService) :=
  services ← ok_or (from_slice data) InvalidData;
  _ ← checked (Published.validate_published services);
  Ok services.

Definition parse_routes (data : list byte) : io (list Route.Route) :=
  routes ← ok_or (from_slice data) InvalidData;
  _ ← checked (Route.validate_routes routes);
  Ok routes.

Variable sha256 : list byte → array 32.

(** The cache is a hint: what is malformed or expired is left out. *)
Definition parse_cache (data : list byte) (now : Z) : list Contact.ContactRecord :=
  match from_slice data with
  | None => []
  | Some file =>
      if bool_decide (file.(ca_version) = x01) then
        let record text :=
          bytes ← b64_decode text;
          r ← match Contact.decode bytes with Ok r => Some r | Err _ => None end;
          if is_ok (Contact.verify sha256 r now) then Some r else None in
        Discovery.learn sha256 (Discovery.mkContacts [] None []) (omap record file.(ca_records))
          (array_fill 32 x00) [] now
      else []
  end.
Definition cache_file (records : list Contact.ContactRecord) : CacheFile :=
  mkCache x01 ((λ r, b64_encode (Contact.encode r)) <$> records).

Definition auto_sync_parse (bytes : list byte) : io bool :=
  if bool_decide (bytes = auto_sync_encode true) then Ok true
  else if bool_decide (bytes = auto_sync_encode false) then Ok false
  else invalid.

End parsers.

(** ** The state *)

Definition daemon_default : DaemonState :=
  mkDaemon (Authority.initial false) false false [] Fangs.registry_default
    (Fangs.mkRuntime ∅ ∅ ∅ 0%nat) [] [] [] None status_default None None false TargetPolicy.Deny [] None []
    (Discovery.mkContacts [] None []) false false true.

Section startup.
Context `{Crypto} `{Base64} `{MutationJson} `{Serde Tombstone.Document} `{DenWipe D}.
Variables (sha256 : list byte → array 32) (now : Z) (tls_ok : PeltIdentity → bool).

Definition apply_protected_state (s : DaemonState) (p : ProtectedState.State) (generation : option Z) : DaemonState :=
  let locked := p.(ProtectedState.silver_locked) in
  set_generation generation
    (set_governance p.(ProtectedState.governance)
      (set_active p.(ProtectedState.active_profiles)
        (set_profiles p.(ProtectedState.fang_profiles)
          (set_peers p.(ProtectedState.peers)
            (set_policy p.(ProtectedState.target_policy)
              (set_mode (if locked then Silver else Human)
                (set_silver (if locked then lit "active" else lit "armed")
                  (set_authority (Authority.initial locked) s)))))))).

(** A document that may be absent. *)
Definition optional {A} (d : D) (file : str) (limit : nat) (absent : A) (parse : list byte → io A) : io A :=
  found ← den_read d file limit;
  match found with None => Ok absent | Some data => parse data end.
(** A list that must decode and pass its check. *)
Definition decoded {A} `{Serde A} (check : A → io ()) (data : list byte) : io A :=
  v ← ok_or (from_slice data) InvalidData;
  _ ← check v;
  Ok v.

Definition MIB : nat := ProtectedState.DOCUMENT_LIMIT.

Definition parse_silver_file (data : list byte) : io bool :=
  value ← ok_or (from_slice data) InvalidData;
  _ ← require (bool_decide (value.(si_version) = x01)) InvalidData;
  if bool_decide (value.(si_mode) = lit "locked") then Ok true
  else if bool_decide (value.(si_mode) = lit "open") then Ok false
  else invalid.

(** The flat files of a Den without a manifest. *)
Definition legacy_startup (d : D) : io ProtectedState.State :=
  locked ← optional d (lit "silver.json") 1024%nat true parse_silver_file;
  policy ← optional d (lit "target_policy.json") MIB TargetPolicy.Deny
             (λ data, Ok (if utf8_valid data then TargetPolicy.parse data else TargetPolicy.Invalid));
  peers ← optional d (lit "pack.json") MIB [] (decoded (λ l, checked (StateValidation.pack l)));
  profiles ← optional d (lit "fangs.json") MIB [] (decoded (λ l, checked (StateValidation.profile_document l)));
  active ← optional d (lit "active_fangs.json") MIB [] (decoded (λ l, checked (StateValidation.active l profiles)));
  Ok (mkState locked peers policy profiles active None).

(** The checks of a head that is not dead: no excluded member, and an
    unadmitted node starts locked. *)
Definition check_governance (s : DaemonState) : io DaemonState :=
  match s.(l_governance) with
  | None => Ok s
  | Some head =>
      if bool_decide (is_Some head.(Gov.dead_at)) then Ok s
      else if existsb (NodeGovernance.excludes head) s.(l_peers) then invalid
      else if NodeGovernance.unadmitted s.(l_governance) s.(l_pelt)
      then Ok (set_authority (Authority.initial true) s)
      else Ok s
  end.

Definition load_startup_state (d : D) (s : DaemonState) : io DaemonState :=
  loaded ← ProtectedState.load d;
  s ← match loaded with
      | ProtectedState.Loaded g p => Ok (apply_protected_state s p (Some g.(ProtectedState.number)))
      | ProtectedState.Legacy => p ← legacy_startup d; Ok (apply_protected_state s p None)
      end;
  services ← optional d (lit "services.json") MIB [] (decoded (λ l, checked (Service.validate_services l)));
  published ← optional d PUBLISHED_FILE MIB [] parse_published;
  routes ← optional d ROUTES_FILE MIB [] parse_routes;
  advertised ← optional d ADVERTISE_FILE (Z.to_nat 4096) [] parse_advertise;
  known ← optional d CACHE_FILE MIB [] (λ data, Ok (parse_cache sha256 data now));
  enabled ← optional d AUTO_SYNC_FILE 64%nat true auto_sync_parse;
  pelt ← optional d (lit "pelt.json") (Z.to_nat 4096) None
           (λ data, p ← decoded (λ p, checked (StateValidation.identity p)) data; Ok (Some p));
  let s1 := set_auto_sync enabled
              (set_contacts (Discovery.mkContacts advertised s.(l_contacts).(Discovery.own) known)
                (set_routes routes (set_published published (set_services services s)))) in
  check_governance (match pelt with
                    | Some p => set_pelt_ready true (set_pelt (Some p) s1)
                    | None => s1
                    end).

(** ** [run] up to the running state *)

Inductive ExitClass : Type := Configuration | SecurityState | AlreadyRunning | Listener | RuntimeClass | TombstoneClass.
Definition exit_code (c : ExitClass) : Z :=
  match c with
  | Configuration => 64
  | SecurityState => 65
  | AlreadyRunning => 66
  | Listener => 69
  | RuntimeClass => 70
  | TombstoneClass => Terminal.EXIT_CODE
  end.

(** [initialize_runtime_tls_identity]: the certificate stands for its Pelt. *)
Definition initialize_runtime_tls_identity (s : DaemonState) : option DaemonState :=
  match s.(l_pelt) with
  | None => Some (set_tls None s)
  | Some p => if tls_ok p then Some (set_tls_ready true (set_tls (Some p) s)) else None
  end.

(** The head, if it is dead. *)
Definition dead_head (s : DaemonState) : option Gov.Head :=
  head ← s.(l_governance);
  if bool_decide (is_Some head.(Gov.dead_at)) then Some head else None.

Definition start (d : D) : result ExitClass DaemonState * D :=
  match Terminal.at_startup d with
  | (Err _, d1) => (Err SecurityState, d1)
  | (Ok (Some _), d1) => (Err TombstoneClass, d1)
  | (Ok None, d1) =>
      match load_startup_state d1 daemon_default with
      | Err _ => (Err SecurityState, d1)
      | Ok s =>
          match dead_head s with
          | Some head =>
              match Terminal.dead_head_at_startup head d1 with
              | (Err _, d2) => (Err SecurityState, d2)
              | (Ok _, d2) => (Err TombstoneClass, d2)
              end
          | None =>
              match initialize_runtime_tls_identity (set_den true s) with
              | Some s => (Ok s, d1)
              | None => (Err SecurityState, d1)
              end
          end
      end
  end.

End startup.
End Persistence.
