(* ===== verification/Restart.v ===== *)
(** * A restart restores the node

    [Module Restart]: the flat files of the Den beside the protected state
    (services, published services, routes, advertised addresses, the switch
    of automatic sync, the Pelt) hold what the node has published, like the
    protected state in MutationSpec; together with the checks at start-up a
    node that was administered in any way and then stopped, by a power
    failure too, starts again with the same administrative state. *)

From stdpp Require Import gmap.
From S2P Require Export Persistence.

Local Open Scope Z_scope.

Module Restart.
Import LocalFs State Pelt ProtectedState ProtectedStateSpec TargetPolicySpec Mutation Triple MutationSpec Persistence.
Import StateValidation (PeerRecord, pr_name, fp_name).

(** What the flat documents need of [serde_json]: decoding inverts encoding,
    and the two documents read with a small limit fit it. *)
Class StartJsonLaws `{Crypto} `{Base64} `{MutationJson} : Prop := {
  sjl_services :: SerdeLaws (list Service.ServiceDefinition);
  sjl_published :: SerdeLaws (list Published.PublishedService);
  sjl_routes :: SerdeLaws (list Route.Route);
  sjl_advertise :: SerdeLaws AdvertiseFile;
  sjl_pelt :: SerdeLaws PeltIdentity;
  advertise_small : ∀ a, a = [] ∨ Contact.check_addresses a = Ok () →
    (length (to_vec (mkAdvertise x01 a)) ≤ Z.to_nat 4096)%nat;
  pelt_small : ∀ p, StateValidation.identity p = Ok () → (length (to_vec p) ≤ Z.to_nat 4096)%nat
}.

Section restart.
Context `{!Crypto} `{!Base64} `{!Base64Laws} `{!MutationJson} `{!ProtectedJsonLaws} `{!StartJsonLaws} `{!Serde Tombstone.Document}.
Context `{DL : DenLaws D} `{!DenWipe D}.

(** *** One document *)

Definition flat_names : list str :=
  [lit "services.json"; PUBLISHED_FILE; ROUTES_FILE; ADVERTISE_FILE; CACHE_FILE; AUTO_SYNC_FILE; lit "pelt.json";
   Terminal.FILE_NAME].

(** What the contents of a file say: absent is [absent], and what is there
    is within the limit and parses. *)
Definition good {A} (limit : nat) (absent : A) (parse : list byte → io A) (v : A) (o : option (list byte)) : Prop :=
  match o with
  | None => v = absent
  | Some data => (length data ≤ limit)%nat ∧ parse data = Ok v
  end.

Definition parse_services : list byte → io (list Service.ServiceDefinition) :=
  decoded (λ l, checked (Service.validate_services l)).
Definition parse_pelt : list byte → io (option PeltIdentity) :=
  λ data, p ← decoded (λ p, checked (StateValidation.identity p)) data; Ok (Some p).

(** The contents [o] of the file [nm] are what the live state says. *)
Record reads (s : DaemonState) (nm : str) (o : option (list byte)) : Prop := {
  rd_services : nm = lit "services.json" → good MIB [] parse_services s.(l_services) o;
  rd_published : nm = PUBLISHED_FILE → good MIB [] parse_published s.(l_published) o;
  rd_routes : nm = ROUTES_FILE → good MIB [] parse_routes s.(l_routes) o;
  rd_advertise : nm = ADVERTISE_FILE → good (Z.to_nat 4096) [] parse_advertise s.(l_contacts).(Discovery.advertised) o;
  rd_cache : nm = CACHE_FILE → good MIB () (λ _, Ok ()) () o;
  rd_auto_sync : nm = AUTO_SYNC_FILE → good 64%nat true auto_sync_parse s.(l_auto_sync) o;
  rd_pelt : nm = lit "pelt.json" → good (Z.to_nat 4096) None parse_pelt s.(l_pelt) o;
  rd_tombstone : nm = Terminal.FILE_NAME → o = None
}.

Definition flat (s : DaemonState) (d : D) : Prop :=
  ∀ nm, nm ∈ flat_names → ∃ o, den_settled d nm o ∧ reads s nm o.

Lemma flat_plain nm : nm ∈ flat_names → plain nm.
Proof.
  assert (forallb (λ nm, name_ok nm && negb (bool_decide (head nm = Some x2e))) flat_names = true) as Hall
    by (vm_compute; reflexivity).
  intros Hin%list_elem_of_In. rewrite forallb_forall in Hall. apply Hall in Hin. bool_simpl.
  split; [done|]. intros suffix ->. match goal with Hd : _ ≠ Some x2e |- _ => by apply Hd end.
Qed.

Lemma flat_apart nm : nm ∈ flat_names → nm ∉ protected_names.
Proof.
  assert (forallb (λ nm, negb (bool_decide (nm ∈ protected_names))) flat_names = true) as Hall by (vm_compute; reflexivity).
  intros Hin%list_elem_of_In. rewrite forallb_forall in Hall. apply Hall in Hin. by bool_simpl.
Qed.

(** *** The live state and the flat files *)

Variable tls_ok : PeltIdentity → bool.

Definition fcore (s : DaemonState) :=
  (s.(l_degraded), s.(l_exit_requested), s.(l_services), s.(l_published), s.(l_routes),
   s.(l_contacts).(Discovery.advertised), s.(l_auto_sync), s.(l_pelt)).

(** The Pelt has a certificate, too. *)
Definition flatw (w : World D) : Prop :=
  flat w.(live) w.(disk) ∧ ∀ p, w.(live).(l_pelt) = Some p → tls_ok p = true.
Definition ftracks (w : World D) : Prop := stopped w.(live) ∨ flatw w.

Notation ok := (Triple.ok ftracks).
Notation keeps := (Triple.keeps ftracks).

Lemma reads_core s s' nm o : fcore s' = fcore s → reads s nm o → reads s' nm o.
Proof. intros [= _ _ E1 E2 E3 E4 E5 E6] []. split; rewrite ?E1, ?E2, ?E3, ?E4, ?E5, ?E6; done. Qed.

Lemma ftracks_frame w s d :
  fcore s = fcore w.(live) → (∀ nm, nm ∈ flat_names → untouched nm w.(disk) d) → ftracks w → ftracks (mkWorld s d).
Proof.
  intros Hc Hu [Hs|[Hf Ht]]; pose proof Hc as Hc'; injection Hc' as Ed Ee _ _ _ _ _ Ep.
  - left. unfold stopped in *. cbn. by rewrite Ed, Ee.
  - right. split; [|cbn; by rewrite Ep]. intros nm Hn. destruct (Hf nm Hn) as (o & Hs & Hr). exists o.
    split; [by apply (Hu nm Hn)|by eapply reads_core].
Qed.
Lemma ftracks_core w s : fcore s = fcore w.(live) → ftracks w → ftracks (mkWorld s w.(disk)).
Proof. intros Hc. apply ftracks_frame; [done|]. by intros nm _. Qed.
Lemma f_upd {E} f : (∀ s, fcore (f s) = fcore s) → keeps (upd f : em D E ()).
Proof. intros K. apply k_upd. intros w. apply ftracks_core, K. Qed.
Ltac flat_step := first [keep_step | apply f_upd; by intros []].

(** Writes elsewhere. *)
Definition away (nm : str) : Prop := plain nm ∧ nm ∉ flat_names.
Lemma away_literal nm :
  name_ok nm && negb (bool_decide (head nm = Some x2e)) && negb (bool_decide (nm ∈ flat_names)) = true → away nm.
Proof.
  intros Hb. bool_simpl. split; [split; [done|]|done]. intros suffix ->.
  match goal with Hd : _ ≠ Some x2e |- _ => by apply Hd end.
Qed.
Ltac solve_away := apply away_literal; vm_compute; reflexivity.

Lemma replace_away nm data c (d : D) o d' : away nm → den_replace nm data c d = (o, d') →
  ∀ m, m ∈ flat_names → untouched m d d'.
Proof.
  intros [Hp Hn] Hr m Hm. apply (den_replace_other _ _ _ _ _ _ m Hr); [done|by apply flat_plain|]. by intros ->.
Qed.

Lemma durable_away nm bytes c w : away nm → ftracks w → ftracks (durable_bytes nm bytes c w).2.
Proof.
  intros Ha Hw. unfold durable_bytes. destruct (l_den _); [|done].
  destruct (den_replace nm bytes c (disk w)) as [o d] eqn:Hr. pose proof (replace_away _ _ _ _ _ _ Ha Hr) as K.
  destruct o; cbn [finish_outcome snd]; [by eapply ftracks_frame|by eapply ftracks_frame|by left; left].
Qed.

(** Writing the file of a field, then the field. *)
Lemma durable_flat nm bytes c f w :
  nm ∈ flat_names → ftracks w →
  (∀ s, (length bytes ≤ MIB)%nat → reads (f s) nm (Some bytes)) →
  (∀ s m o, m ≠ nm → reads s m o → reads (f s) m o) →
  (∀ s, stopped s → stopped (f s)) →
  (∀ s, (∀ p, s.(l_pelt) = Some p → tls_ok p = true) → ∀ p, (f s).(l_pelt) = Some p → tls_ok p = true) →
  match durable_bytes nm bytes c w with (Ok _, w') => ftracks (on_live f w') | (Err _, w') => ftracks w' end.
Proof.
  intros Hn Hw Hnew Hold Hst Htls. pose proof (flat_plain _ Hn) as Hp.
  assert (stopped w.(live) → match durable_bytes nm bytes c w with
    | (Ok _, w') => ftracks (on_live f w') | (Err _, w') => ftracks w' end) as Stop.
  { intros Hs. pose proof (durable_bytes_stopped nm bytes c w Hs) as K.
    destruct (durable_bytes nm bytes c w) as [[] w']; left; [by apply Hst|done]. }
  destruct Hw as [Hs|[Hf Ht]]; [by apply Stop|]. clear Stop.
  unfold durable_bytes. destruct (l_den _); [|by right].
  destruct (den_replace nm bytes c (disk w)) as [o d] eqn:Hr.
  assert (∀ m, m ∈ flat_names → m ≠ nm → untouched m w.(disk) d) as Ho.
  { intros m Hm Hne. apply (den_replace_other _ _ _ _ _ _ m Hr); [done|by apply flat_plain|done]. }
  destruct o as [e| |e]; cbn [finish_outcome snd].
  - right. split; [|done]. intros m Hm. destruct (Hf m Hm) as (x & Hx & Hrd). exists x. split; [|done].
    destruct (decide (m = nm)) as [->|Hne]; [|by apply Ho]. by apply (den_replace_not _ _ _ _ _ _ Hr).
  - right. split; [|by apply Htls]. intros m Hm. destruct (decide (m = nm)) as [->|Hne].
    + exists (Some bytes). split; [by apply (den_replace_durable _ _ _ _ _ Hr)|]. apply Hnew.
      by apply (den_replace_size _ _ _ _ _ Hr).
    + destruct (Hf m Hm) as (x & Hx & Hrd). exists x. split; [by apply Ho|by apply Hold].
  - by left; left.
Qed.

(** *** The protected state writes only its own files *)

Lemma untouched_refl nm (d : D) : untouched nm d d.
Proof. by split. Qed.

Lemma write_slot_away nm g st (d : D) : plain nm → nm ∉ protected_names → untouched nm d (write_slot g st d).2.
Proof.
  intros Hp Hn. unfold write_slot. destruct (documents st) as [c|e]; cbn [mbind result_bind]; [|apply untouched_refl].
  destruct (manifest (number g) c) as [m|e]; cbn [mbind result_bind]; [|apply untouched_refl].
  destruct (put_all (slot_files (slot g) c m) d) as [r d'] eqn:Hput.
  destruct (slot_files_ok (slot g) c m) as [Hpl Hnd]. destruct (put_all_spec _ _ _ _ Hput Hpl Hnd) as (K & _).
  apply K; [done|]. apply slot_files_elem. intros Hin. apply Hn.
  apply list_elem_of_fmap in Hin as (doc & -> & Hd). by apply slot_protected.
Qed.

Lemma point_to_away nm g b (d : D) : plain nm → nm ∉ protected_names → untouched nm d (point_to g b d).2.
Proof.
  intros Hp Hn. unfold point_to. destruct (den_replace _ _ _ _) as [o d'] eqn:Hr.
  apply (den_replace_other _ _ _ _ _ _ nm Hr); [apply protected_plain, current_protected|done|].
  intros ->. apply Hn, current_protected.
Qed.

Lemma commit_away nm n c (d : D) : plain nm → nm ∉ protected_names → untouched nm d (commit n c d).2.
Proof.
  intros Hp Hn. unfold commit. destruct (load_current d) as [[g|]|e]; [|apply untouched_refl..].
  destruct (_ =? _); [|apply untouched_refl]. destruct (u64_checked_add _ _) as [k|]; [|apply untouched_refl].
  pose proof (write_slot_away nm (mkGeneration k (inactive (slot g))) c d Hp Hn) as K.
  destruct (write_slot _ c d) as [[[]|t] d1]; [|done]. eapply untouched_trans; [done|]. by apply point_to_away.
Qed.

Lemma migrate_away nm (d : D) : plain nm → nm ∉ protected_names → untouched nm d (migrate d).2.
Proof.
  intros Hp Hn. unfold migrate. destruct (load_current d) as [[g|]|e]; [apply untouched_refl| |apply untouched_refl].
  destruct (legacy_state d) as [s|]; [|apply untouched_refl].
  pose proof (write_slot_away nm (mkGeneration 1 SlotA) s d Hp Hn) as K.
  destruct (write_slot _ s d) as [[[]|t] d1]; [|done]. unfold put.
  destruct (den_replace MODE_FILE _ _ d1) as [o d2] eqn:Hr.
  assert (untouched nm d d2) as K2.
  { eapply untouched_trans; [done|]. apply (den_replace_other _ _ _ _ _ _ nm Hr);
      [apply protected_plain, mode_protected|done|]. intros ->. apply Hn, mode_protected. }
  destruct (map_outcome o) as [[]|t]; [|done]. eapply untouched_trans; [done|]. by apply point_to_away.
Qed.

Lemma commit_ftracks n c w : ftracks w → ftracks (commit_protected n c w).2.
Proof.
  intros Hw. unfold commit_protected. destruct (l_den _); [|done].
  assert (∀ nm, nm ∈ flat_names → untouched nm w.(disk) (commit n c w.(disk)).2) as K.
  { intros nm Hn. apply commit_away; [by apply flat_plain|by apply flat_apart]. }
  destruct (commit n c (disk w)) as [[g|e|e] d]; cbn [snd] in *;
    [apply (ftracks_frame w); [done|exact K|done]..|by left; left].
Qed.

Lemma save_ftracks gen c nm bytes create w : away nm → ftracks w →
  ftracks (match gen with Some g => unit_of (commit_protected g c w) | None => durable_bytes nm bytes create w end).2.
Proof. intros Ha Hw. destruct gen; [by apply commit_ftracks|by apply durable_away]. Qed.

(** *** The commands *)

Lemma good_decoded {A} `{SerdeLaws (list A)} (check : list A → io ()) (v : list A) limit :
  check v = Ok () → (length (to_vec v) ≤ limit)%nat → good limit [] (decoded check) v (Some (to_vec v)).
Proof. intros Hc Hl. split; [done|]. unfold decoded. rewrite from_to_vec. cbn. by rewrite Hc. Qed.

(** A name of a flat file. *)
Ltac solve_flat := by apply (bool_decide_unpack _); vm_compute.
(** The file of a field, once written, reads as the field. *)
Ltac solve_reads := split; intros Hnm; try (vm_compute in Hnm; discriminate Hnm).
(** The other files still read as their fields. *)
Ltac solve_others := intros ? ? ? Hne []; split; intros Hnm; auto; by destruct (Hne Hnm).

Lemma service_saves candidate w :
  Service.validate_services candidate = Ok () → ftracks w →
  match durable (lit "services.json") candidate false w with
  | (Ok _, w') => ftracks (on_live (set_services candidate) w') | (Err _, w') => ftracks w' end.
Proof.
  intros Hv Hw. apply durable_flat; [solve_flat|done| | |done|done].
  - intros s Hl. solve_reads. apply good_decoded; [by rewrite Hv|done].
  - solve_others.
Qed.

(** Save, publish, answer. *)
Lemma save_tail {E A} (m : World D → result IoError () * World D) f (r : E) (a : A) :
  (∀ w, ftracks w → match m w with (Ok _, w') => ftracks (on_live f w') | (Err _, w') => ftracks w' end) →
  keeps (_ ← saved m r; _ ← upd f; mret a).
Proof.
  intros K. apply (ok_bind _ _ (λ _ w, ftracks (on_live f w))); [by apply ok_saved|].
  intros _. apply ok_then; [by apply ok_upd|]. intros _. apply k_ret.
Qed.
(** After a check. *)
Lemma check_tail {E A F} (x : result F ()) (r : E) (m : em D E A) : (x = Ok () → keeps m) → keeps (_ ← ok_or_leave x r; m).
Proof. intros K. apply ok_bind with (Q := λ a w, ftracks w ∧ x = Ok a); [by apply ok_ok_or|]. intros []. by apply ok_pure. Qed.

Lemma publish_saves candidate w :
  Published.validate_published candidate = Ok () → ftracks w →
  match durable PUBLISHED_FILE candidate false w with
  | (Ok _, w') => ftracks (on_live (set_published candidate) w') | (Err _, w') => ftracks w' end.
Proof.
  intros Hv Hw. apply durable_flat; [solve_flat|done| | |done|done].
  - intros s Hl. solve_reads. split; [done|]. unfold parse_published. rewrite from_to_vec. cbn. by rewrite Hv.
  - solve_others.
Qed.
Lemma route_saves candidate w :
  Route.validate_routes candidate = Ok () → ftracks w →
  match durable ROUTES_FILE candidate false w with
  | (Ok _, w') => ftracks (on_live (set_routes candidate) w') | (Err _, w') => ftracks w' end.
Proof.
  intros Hv Hw. apply durable_flat; [solve_flat|done| | |done|done].
  - intros s Hl. solve_reads. split; [done|]. unfold parse_routes. rewrite from_to_vec. cbn. by rewrite Hv.
  - solve_others.
Qed.

Lemma service_flat req : keeps (service_cmd (D := D) req).
Proof.
  unfold service_cmd. cbn zeta. apply k_bind; [apply k_get|]. intros services. apply k_bind; [apply k_leave_if|intros _].
  apply k_bind; [repeat flat_step|]. intros [candidate status]. apply check_tail. intros Hv.
  apply save_tail. intros w. by apply service_saves.
Qed.
Lemma publish_flat req : keeps (publish_cmd (D := D) req).
Proof.
  unfold publish_cmd. cbn zeta. apply k_bind; [apply k_get|]. intros services. apply k_bind; [apply k_leave_if|intros _].
  apply k_bind; [repeat flat_step|]. intros [candidate status]. apply check_tail. intros Hv.
  apply save_tail. intros w. by apply publish_saves.
Qed.
Lemma provider_flat req : keeps (provider_cmd (D := D) req).
Proof.
  unfold provider_cmd. cbn zeta. apply k_bind; [apply k_get|]. intros services.
  apply k_bind; [apply k_or|]. intros [i service]. apply k_bind.
  { intros w Hw. by destruct (provider_change req service) as [[]|]. }
  intros [service' status]. apply check_tail. intros Hv. apply save_tail. intros w. by apply service_saves.
Qed.
Lemma route_flat req : keeps (route_cmd (D := D) req).
Proof.
  unfold route_cmd. cbn zeta. apply k_bind; [apply k_get|]. intros routes. apply k_bind; [apply k_get|]. intros peers.
  apply k_bind; [repeat flat_step|]. intros [candidate status]. apply check_tail. intros Hv.
  apply save_tail. intros w. by apply route_saves.
Qed.

Lemma auto_sync_saves enabled w : ftracks w →
  match durable_bytes AUTO_SYNC_FILE (auto_sync_encode enabled) false w with
  | (Ok _, w') => ftracks (on_live (set_auto_sync enabled) w') | (Err _, w') => ftracks w' end.
Proof.
  intros Hw. apply durable_flat; [solve_flat|done| | |done|done].
  - intros s Hl. solve_reads. split; [destruct enabled; vm_compute; lia|]. by destruct enabled.
  - solve_others.
Qed.
Lemma auto_sync_flat req : keeps (auto_sync_cmd (D := D) req).
Proof.
  unfold auto_sync_cmd. apply k_bind; [apply k_or|]. intros enabled. apply save_tail. intros w. apply auto_sync_saves.
Qed.

Lemma pelt_saves p w : StateValidation.identity p = Ok () → tls_ok p = true → ftracks w →
  match durable (lit "pelt.json") p true w with
  | (Ok _, w') => ftracks (on_live (λ s, set_tls_ready true (set_pelt_ready true (set_tls (Some p) (set_pelt (Some p) s)))) w')
  | (Err _, w') => ftracks w' end.
Proof.
  intros Hv Ht Hw. apply durable_flat; [solve_flat|done| | |done|].
  - intros s Hl. solve_reads. split; [by apply pelt_small|]. unfold parse_pelt, decoded. rewrite from_to_vec. cbn. by rewrite Hv.
  - solve_others.
  - by intros s _ q [= <-].
Qed.
Lemma pelt_init_flat secret home req : keeps (pelt_init (D := D) secret tls_ok home req).
Proof.
  unfold pelt_init. apply k_bind; [apply k_get|]. intros pelt. apply k_bind; [apply k_leave_if|intros _].
  apply k_bind; [by apply k_run|]. intros found. apply k_bind; [apply k_leave_if|intros _].
  apply check_tail. intros Hv. apply ok_bind with (Q := λ _ w, ftracks w ∧ negb (tls_ok (generate_identity secret)) = false).
  { by apply ok_leave_if. }
  intros _. apply ok_pure. intros Ht%negb_false_iff. apply save_tail. intros w. by apply pelt_saves.
Qed.

Lemma refresh_advertised sha256 c pelt now : (Discovery.refresh_own sha256 c pelt now).(Discovery.advertised) = c.(Discovery.advertised).
Proof. unfold Discovery.refresh_own. destruct (bool_decide _); [done|]. by destruct (Discovery.is_current _ _). Qed.

Lemma advertise_flat sha256 now req : keeps (advertise_cmd (D := D) sha256 now req).
Proof.
  unfold advertise_cmd. cbn zeta. set (addresses := filter _ _).
  apply ok_bind with (Q := λ _ w, ftracks w ∧
    negb (bool_decide (addresses = [])) && negb (is_ok (Contact.check_addresses addresses)) = false); [by apply ok_leave_if|].
  intros _. apply ok_pure. intros Hv.
  assert (addresses = [] ∨ Contact.check_addresses addresses = Ok ()) as Hok.
  { destruct (bool_decide_reflect (addresses = [])); [by left|right]. cbn in Hv.
    by destruct (Contact.check_addresses addresses) as [[]|]. }
  apply (ok_bind _ _ (λ _ w, ftracks (on_live (λ s, set_contacts (Discovery.mkContacts addresses
    s.(l_contacts).(Discovery.own) s.(l_contacts).(Discovery.known)) s) w))).
  { apply ok_saved. intros w Hw. apply durable_flat; [solve_flat|done| | |done|done].
    - intros s Hl. solve_reads. split; [by apply advertise_small|]. unfold parse_advertise. rewrite from_to_vec. cbn.
      destruct Hok as [->|Hok]; [done|]. rewrite Hok. by destruct (bool_decide _).
    - solve_others. }
  intros _. apply ok_then; [by apply ok_upd|]. intros _. apply k_bind; [apply f_upd|intros _; repeat flat_step].
  intros s. destruct (l_pelt s) as [p|]; [|done]. unfold fcore. cbn. by rewrite refresh_advertised.
Qed.

(** Commands about the protected state. *)
Lemma f_saved {E} m (r : E) : (∀ w, ftracks w → ftracks (m w).2) → keeps (saved m r).
Proof. apply k_saved. Qed.

Lemma target_flat req : keeps (target_cmd (D := D) req).
Proof.
  unfold target_cmd, target_candidate. cbn zeta.
  repeat flat_step; apply f_saved; intros w Hw; apply save_ftracks; [solve_away|done].
Qed.
Lemma profile_flat req : keeps (profile_cmd (D := D) req).
Proof.
  unfold profile_cmd, durable. cbn zeta.
  repeat flat_step; apply f_saved; intros w Hw; apply save_ftracks; [solve_away|done].
Qed.
Lemma migrate_flat req : keeps (manifest_migrate (D := D) req).
Proof.
  unfold manifest_migrate. repeat flat_step; [|apply k_upd; intros w _; by left; left].
  apply k_run. intros w Hw.
  assert (∀ nm, nm ∈ flat_names → untouched nm w.(disk) (migrate w.(disk)).2) as K.
  { intros nm Hn. apply migrate_away; [by apply flat_plain|by apply flat_apart]. }
  destruct (migrate (disk w)) as [o d]. by apply (ftracks_frame w).
Qed.

Lemma fcore_deny_member name fp s : fcore (deny_member name fp s).2 = fcore s.
Proof.
  unfold deny_member. destruct fp as [peer|]; [|done]. destruct (Authority.deny_peer_text _ _) as [a [[]|]]; [|done].
  by destruct (Fangs.terminate_peer _ _) as [n [g r]].
Qed.
Lemma fcore_invalidate act ids (w : World D) :
  fcore (invalidate act ids w).2.(live) = fcore w.(live) ∧ (invalidate act ids w).2.(disk) = w.(disk).
Proof.
  unfold invalidate, publish_invalidated_runtime. destruct (Fangs.detach_ids _ _) as [t [g r]]. cbn zeta.
  destruct (_ =? 0)%nat; [done|]. by destruct (Fangs.is_empty _).
Qed.
Lemma invalidate_ftracks act ids w : ftracks w → ftracks (invalidate act ids w).2.
Proof.
  intros Hw. destruct (fcore_invalidate act ids w) as [C Ed]. destruct (invalidate act ids w) as [n [s d]].
  cbn in *. subst d. by apply ftracks_core.
Qed.

Lemma address_change_flat peer candidate changed gen w :
  ftracks w → ftracks (apply_pack_address_change peer candidate changed gen w).2.
Proof.
  intros Hw. unfold apply_pack_address_change. cbn zeta.
  set (act := if changed then _ else _). set (ids := if changed then _ else _).
  destruct (StateValidation.active _ _); [|done].
  assert (∀ w, ftracks w →
    ftracks (let '(n, w') := invalidate act ids (on_live (set_peers candidate) w) in (Ok (E := IoError) n, w')).2) as Pub.
  { intros w1 K. pose proof (invalidate_ftracks act ids (on_live (set_peers candidate) w1)) as I.
    destruct (invalidate _ _ _) as [n w']. apply I. by apply (ftracks_core w1). }
  assert (∀ w, ftracks w → ftracks (if_degraded (λ w, (invalidate act ids w).2) w)) as Deg.
  { intros w1 K. unfold if_degraded. destruct (l_degraded _); [by apply invalidate_ftracks|done]. }
  destruct gen as [g|].
  - match goal with |- context [commit_protected g ?c w] => pose proof (commit_ftracks g c w Hw) as K;
      destruct (commit_protected g c w) as [[]] end; [by apply Pub|by apply Deg].
  - destruct (if bool_decide _ then _ else _) as [first w1] eqn:E1.
    assert (ftracks w1) as S1.
    { destruct (bool_decide _); [by injection E1 as _ <-|].
      pose proof (durable_away (lit "active_fangs.json") (to_vec act) false w ltac:(solve_away) Hw) as K.
      unfold durable in E1. by rewrite E1 in K. }
    destruct first; [|by apply Deg]. unfold durable.
    pose proof (durable_away (lit "pack.json") (to_vec candidate) false w1 ltac:(solve_away) S1) as S2.
    destruct (durable_bytes (lit "pack.json") _ false w1) as [[] w2]; [by apply Pub|]. cbn [snd] in *.
    destruct (l_degraded (live w2)); [by apply invalidate_ftracks|].
    pose proof (durable_away (lit "active_fangs.json") (to_vec (l_active (live w))) false w2 ltac:(solve_away) S2) as S3.
    destruct (durable_bytes _ _ _ w2) as [[] w3]; [done|]. apply invalidate_ftracks. by left; left.
Qed.

Lemma pack_flat cleanup_ok req : keeps (pack_cmd (D := D) cleanup_ok req).
Proof.
  unfold pack_cmd, pack_candidate. cbn zeta. apply k_bind; [apply k_get|]. intros peers.
  apply k_bind; [apply k_get|]. intros gen. set (revoked := if _ || _ then _ else None).
  apply k_bind; [repeat flat_step|]. intros [[candidate changed] status].
  apply k_bind; [apply k_ok_or|intros _]. destruct (is_cmd req (lit "pack.set_address")).
  { apply k_bind; [apply k_run; intros w; apply address_change_flat|]. intros x. repeat flat_step. }
  repeat flat_step; apply k_run || apply f_saved; intros w Hw.
  - pose proof (fcore_deny_member (arg req (lit "name")) revoked w.(live)) as C.
    destruct (deny_member _ _ _) as [o s]. by apply ftracks_core.
  - unfold durable. apply save_ftracks; [solve_away|done].
  - destruct revoked as [peer|]; [|done].
    destruct (Authority.removed_text peer _) as [? [[]|]]; [by apply (ftracks_core w)|by left; left].
Qed.

(** Governance. *)
Lemma archive_away n : 0 ≤ n → away (Discovery.governance_archive_name n).
Proof.
  intros Hn. split; [by apply DiscoverySpec.archive_name_plain|]. intros Hin.
  assert (forallb (λ nm, negb (bool_decide (head nm = Some x67))) flat_names = true) as Hall by (vm_compute; reflexivity).
  rewrite forallb_forall in Hall. apply list_elem_of_In, Hall in Hin. by bool_simpl.
Qed.

Lemma fcore_deny_all l : ∀ n s, fcore (deny_all l n s).2 = fcore s.
Proof.
  induction l as [|p l IH]; intros n s; [done|]. cbn [deny_all].
  destruct (Authority.deny_peer_text _ _) as [a [[]|]]; [|done].
  destruct (Fangs.terminate_peer _ _) as [k [g r]]. by rewrite IH.
Qed.
Lemma fcore_deny_step b l s : fcore (deny_step b l s).2 = fcore s.
Proof.
  unfold deny_step.
  assert (fcore (if b then fence_node s else (Some 0%nat, s)).2 = fcore s) as C.
  { destruct b; [|done]. unfold fence_node. destruct (Authority.lock _) as [a [e|]]; [|done]. by destruct (Fangs.abort_all _). }
  destruct (if b then _ else _) as [[n|] s1]; [|done]. pose proof (fcore_deny_all l n s1) as C2.
  destruct (deny_all l n s1) as [[k|] s2]; cbn [snd] in *; [|congruence].
  destruct (Authority.locking _ _) as [a e]. cbn [snd]. change (fcore (set_authority a _)) with (fcore s2). congruence.
Qed.
Lemma remove_all_flat l : ∀ s (d : D), ftracks (mkWorld s d) → ftracks (mkWorld (remove_all l s).2 d).
Proof.
  induction l as [|p l IH]; intros s d Hw; [done|]. cbn [remove_all].
  destruct (Authority.removed_text _ _) as [a [[]|]]; [|by left; left].
  apply IH. by apply (ftracks_core (mkWorld s d)).
Qed.

Lemma fence_flat g h : keeps (fence g h : em D (str * str) ()).
Proof.
  intros w Hw. unfold fence.
  match goal with |- context [commit_protected g ?c w] => pose proof (commit_ftracks g c w Hw) as K;
    destruct (commit_protected g c w) as [[] w'] end; [by apply (ftracks_core w')|done].
Qed.

Lemma archive_flat n st w : 0 ≤ n → ftracks w → ftracks (archive_statement n st w).2.
Proof.
  intros Hn Hw. unfold archive_statement. destruct (l_den _); [|done].
  destruct (den_replace _ _ _ _) as [o d] eqn:Hr. cbn [snd]. apply (ftracks_frame w); [done| |done].
  eapply replace_away; [by apply archive_away|done].
Qed.

Lemma apply_statement_flat cleanup_ok s e : 0 ≤ s.(Gov.core).(Gov.sequence) → keeps (apply_statement (D := D) cleanup_ok s e).
Proof.
  intros Hs. unfold apply_statement. apply k_bind; [apply k_get|]. intros head.
  apply k_bind; [apply k_get|]. intros gen. apply k_bind; [apply k_get|]. intros peers.
  apply k_bind; [apply k_or|]. intros g.
  destruct (Gov.apply head s e) as [[next| |fenced]|err] eqn:Ha; [| | |destruct err as [[]|]; apply k_leave].
  2: { apply k_ret. }
  2: { apply k_bind; [apply fence_flat|intros _; apply k_leave]. }
  apply applied_sequence in Ha; [|done]. cbn zeta.
  apply k_bind; [apply k_run; intros w; by apply archive_flat|]. intros archived. apply k_bind; [apply k_leave_if|intros _].
  set (revoked := filter _ peers). apply k_bind; [apply k_get|]. intros own.
  apply k_bind; [apply k_run|].
  { intros w Hw. match goal with |- context [deny_step ?b revoked w.(live)] => pose proof (fcore_deny_step b revoked w.(live)) as C;
      destruct (deny_step b revoked w.(live)) as [o l] end. by apply ftracks_core. }
  intros denied. apply k_bind; [apply k_or|]. intros [closed reopen].
  apply k_bind; [apply f_saved; intros w; apply commit_ftracks|]. intros _.
  apply k_bind; [apply f_upd; by intros []|]. intros _.
  apply k_bind; [apply k_run|intros published].
  { intros [l d] Hw. pose proof (remove_all_flat revoked l d Hw) as K. cbn [live disk]. by destruct (remove_all revoked l). }
  repeat flat_step.
  - apply k_run. intros w _. left. apply die_stops.
  - apply f_upd. intros l. by destruct (silver_active l), reopen.
Qed.

Lemma apply_governance_flat cleanup_ok req : keeps (apply_governance (D := D) cleanup_ok req).
Proof.
  unfold apply_governance. cbn zeta. apply k_bind; [apply k_or|]. intros bytes.
  apply (ok_bind _ _ (λ s w, ftracks w ∧ 0 ≤ s.(Gov.core).(Gov.sequence))).
  { destruct (Gov.statement_decode bytes) as [s|] eqn:Hd; [apply ok_ret|by apply ok_leave].
    intros w Hw. split; [done|by eapply decode_sequence]. }
  intros s. apply ok_pure. intros Hs. apply k_bind; [repeat flat_step|]. intros expect.
  apply k_bind; [|intros result; apply k_ret].
  intros w Hw. unfold rejecting. pose proof (apply_statement_flat cleanup_ok s expect Hs w Hw) as K.
  by destruct (apply_statement _ _ _ w) as [[a|[c m]] w'].
Qed.

Lemma apply_sync_flat cleanup_ok req : keeps (apply_sync (D := D) cleanup_ok req).
Proof.
  unfold apply_sync. cbn zeta.
  apply (ok_bind _ _ (λ l w, ftracks w ∧ Forall (λ s, 0 ≤ s.(Gov.core).(Gov.sequence)) l)).
  { eapply ok_weaken; [by apply ok_some|done|]. intros l w [Hw Hl]. split; [done|by eapply sync_sequences]. }
  intros l. apply ok_pure. intros Hl. apply k_bind.
  - apply k_run. intros w. generalize (@nil Json) as applied. revert w.
    induction Hl as [|s l Hs Hl IH]; intros w applied Hw; [done|]. cbn [sync_loop].
    pose proof (apply_statement_flat cleanup_ok s None Hs w Hw) as K.
    destruct (apply_statement _ _ _ w) as [[r|stop] w']; [by apply IH|done].
  - intros [applied stop]. repeat flat_step. apply k_run. intros w Hw. unfold record_conflict. cbn zeta.
    destruct (l_governance _) as [h|]; [|done]. destruct (l_generation (live w)) as [g|]; [|done].
    match goal with |- context [match ?x with _ => _ end] => is_var x; destruct x as [|? [|? [|]]] end; try done.
    destruct (_ || _ || _); [done|]. cbn [snd].
    pose proof (fence_flat g (Gov.set_forked h) w Hw) as K. by destruct (fence _ _ w) as [[]].
Qed.

Lemma retire_flat confirm w : ftracks w → ftracks (Terminal.retire confirm w).2.
Proof.
  intros Hw. unfold Terminal.retire. destruct (l_pelt _) as [pelt|]; [|done].
  destruct (negb (bool_decide _)); [done|]. destruct (negb (l_den _)); [done|]. cbn zeta.
  set (w1 := on_live _ w). assert (ftracks w1) as Hw1 by (by apply (ftracks_core w)).
  destruct (Tombstone.retirement _ _) as [t|]; [|done].
  destruct (Terminal.write t (disk w1)) as [o d] eqn:Ho.
  destruct o as [e| |e]; cbn [snd].
  - assert (ftracks (on_disk d w1)) as Hd.
    { revert Ho. unfold Terminal.write. destruct (Tombstone.encode t) as [bytes|]; [|by intros [= _ <-]].
      intros Hr. apply (ftracks_frame w1); [done| |done]. intros nm Hn.
      destruct (decide (nm = Terminal.FILE_NAME)) as [->|Hne].
      - apply (den_replace_not _ _ _ _ _ _ Hr). by apply flat_plain.
      - apply (den_replace_other _ _ _ _ _ _ nm Hr); [apply flat_plain; solve_flat|by apply flat_plain|done]. }
    apply (ftracks_core (on_disk d w1)); [|done]. unfold Terminal.unlock_after_failure. cbn zeta.
    destruct (_ || _); [done|]. by destruct (Authority.locking _ _) as [a [epoch|]].
  - destruct (Terminal.finish _ _) as [x d2]. left. by right.
  - by left; left.
Qed.

Lemma dispatch_flat secret home sha256 now cleanup_ok req :
  keeps (dispatch (D := D) secret tls_ok home sha256 now cleanup_ok req).
Proof.
  unfold dispatch.
  repeat match goal with |- Triple.keeps _ (if ?b then _ else _) => destruct b end;
    eauto using auto_sync_flat, pelt_init_flat, migrate_flat, target_flat, service_flat, publish_flat,
      provider_flat, route_flat, advertise_flat, apply_governance_flat, apply_sync_flat, pack_flat, profile_flat.
  intros w Hw. unfold retire_cmd.
  pose proof (retire_flat (default [] (as_str (j_get req.(rq_args) (lit "confirm")))) w Hw) as K.
  by destruct (Terminal.retire _ w) as [[r|[c m]] w'].
Qed.

Lemma cache_saves cache w : ftracks w → ftracks (persist_discovery_cache cache w).2.
Proof.
  intros Hw. pose proof (durable_flat CACHE_FILE (to_vec cache) false id w ltac:(solve_flat) Hw) as K.
  unfold persist_discovery_cache, durable.
  destruct (durable_bytes CACHE_FILE _ false w) as [[] w']; [rewrite on_live_id in K|]; apply K; try done.
  all: by intros s Hl; solve_reads.
Qed.

Lemma admin_ftracks sha256 w w' : rtc (admin tls_ok sha256) w w' → ftracks w → ftracks w'.
Proof.
  induction 1 as [|w1 w2 w3 Hs _ IH]; [done|]. intros Hw. apply IH. destruct Hs.
  - unfold handle, answer.
    match goal with |- context [dispatch ?a ?b ?c ?d ?e ?f ?g w] =>
      pose proof (dispatch_flat a c d e f g w Hw) as K; by destruct (dispatch a b c d e f g w) as [[]] end.
  - unfold persist_silver. apply save_ftracks; [solve_away|done].
  - unfold persist_active, persist_protected_or_legacy, durable. destruct (l_degraded _); [done|].
    destruct (StateValidation.active _ _); [|done].
    pose proof (save_ftracks (l_generation (live w)) (with_active candidate (protected_from_live w.(live)))
      (lit "active_fangs.json") (to_vec candidate) false w ltac:(solve_away) Hw) as K.
    destruct (match l_generation (live w) with Some _ => _ | None => _ end) as [[] w']; [by apply (ftracks_core w')|done].
  - by apply cache_saves.
  - by left; left.
  - apply ftracks_core; [|done]. match goal with Hp : persistent _ = _ |- _ => injection Hp end. intros. unfold fcore. congruence.
Qed.

(** *** Start-up *)

Lemma optional_inv {A} (d : D) nm limit (absent : A) parse v :
  optional d nm limit absent parse = Ok v → good limit absent parse v (den_file d nm).
Proof.
  unfold optional. intros (o & Hr & Ho)%bind_Ok. pose proof Hr as Hf. apply den_read_file in Hf. rewrite Hf.
  destruct o as [data|]; [|by injection Ho]. by apply den_read_limit in Hr.
Qed.

Lemma optional_good {A} (d : D) nm limit (absent : A) parse v :
  good limit absent parse v (den_file d nm) → plain nm → den_quiet d → optional d nm limit absent parse = Ok v.
Proof.
  intros Hg Hp Hq. unfold optional.
  rewrite (den_read_quiet d nm) by (try done; intros b Hb; by rewrite Hb in Hg; destruct Hg).
  cbn [mbind result_bind]. destruct (den_file d nm) as [data|]; [by destruct Hg|]. cbn in Hg. by subst.
Qed.

Lemma check_governance_inv x s : check_governance x = Ok s →
  fcore s = fcore x ∧ core s = core x ∧
  ∀ h, x.(l_governance) = Some h → h.(Gov.dead_at) = None → fits x.(l_governance) x.(l_peers).
Proof.
  unfold check_governance. destruct (l_governance x) as [h|] eqn:Hh; [|by intros [= ->]].
  destruct (bool_decide_reflect (is_Some (Gov.dead_at h))) as [Hd|Hd].
  { intros [= ->]. split_and!; [done..|]. intros ? [= <-] Hn. rewrite Hn in Hd. by destruct Hd. }
  destruct (existsb _ _) eqn:He; [done|].
  assert (∀ h', Some h = Some h' → Gov.dead_at h' = None → fits (Some h) (l_peers x)) as Hf.
  { intros _ _ _ head p [= <-] Hp. destruct (NodeGovernance.excludes h p) eqn:Hx; [|done].
    rewrite <- not_true_iff_false, existsb_exists in He. destruct He. exists p. by rewrite <- list_elem_of_In. }
  destruct (NodeGovernance.unadmitted _ _); intros [= <-]; by split_and!.
Qed.

Lemma load_startup_flat sha256 now (d : D) s0 s :
  load_startup_state sha256 now d s0 = Ok s → s0.(l_pelt) = None → (∀ m, den_settled d m (den_file d m)) →
  den_file d Terminal.FILE_NAME = None → flat s d.
Proof.
  unfold load_startup_state. intros (loaded & _ & HL)%bind_Ok Hp0 Hb Ht.
  apply bind_Ok in HL as (s1 & Hs1 & HL).
  assert (l_pelt s1 = None) as Hp1.
  { destruct loaded; [apply bind_Ok in Hs1 as (p & _ & [= <-])|injection Hs1 as <-]; done. }
  apply bind_Ok in HL as (services & Hse & HL). apply bind_Ok in HL as (published & Hpu & HL).
  apply bind_Ok in HL as (routes & Hro & HL). apply bind_Ok in HL as (advertised & Had & HL).
  apply bind_Ok in HL as (known & Hkn & HL). apply bind_Ok in HL as (enabled & Hen & HL).
  apply bind_Ok in HL as (pelt & Hpe & HL). apply check_governance_inv in HL as (Hc & _).
  apply optional_inv in Hse, Hpu, Hro, Had, Hkn, Hen, Hpe.
  intros nm Hn. exists (den_file d nm). split; [apply Hb|]. eapply reads_core; [exact Hc|].
  split; intros ->; cbn [l_services l_published l_routes l_contacts l_auto_sync l_pelt];
    try (by destruct pelt; [|cbn; rewrite Hp1]); try (by destruct pelt).
  destruct (den_file d CACHE_FILE) as [data|]; [|done]. destruct Hkn as [Hl _]. by split.
Qed.

Lemma load_startup_protected sha256 now (d : D) s0 s n :
  load_startup_state sha256 now d s0 = Ok s → s.(l_generation) = Some n →
  ∃ g p, load d = Ok (Loaded g p) ∧ n = g.(number) ∧
    with_silver p.(silver_locked) (protected_from_live s) = p ∧
    (∀ h, s.(l_governance) = Some h → h.(Gov.dead_at) = None → fits s.(l_governance) s.(l_peers)) ∧
    s.(l_degraded) = s0.(l_degraded) ∧ s.(l_exit_requested) = s0.(l_exit_requested).
Proof.
  unfold load_startup_state. intros (loaded & Hld & HL)%bind_Ok Hn.
  apply bind_Ok in HL as (s1 & Hs1 & HL). do 6 (apply bind_Ok in HL as (? & _ & HL)).
  apply bind_Ok in HL as (pelt & _ & HL). apply check_governance_inv in HL as (_ & Hc & Hf).
  assert (core s = core s1) as Hc1 by (rewrite Hc; by destruct pelt).
  assert (l_governance s = l_governance s1 ∧ l_peers s = l_peers s1) as [Eg Ep].
  { injection Hc1 as _ _ _ _ ? _ _ _ ?. done. }
  destruct loaded as [|g p].
  { apply bind_Ok in Hs1 as (p & _ & [= <-]). injection Hc1 as _ _ _ Hg _ _ _ _ _. by rewrite Hn in Hg. }
  injection Hs1 as <-. exists g, p. split; [done|].
  injection Hc1 as Ed Ee _ Hg E1 E2 E3 E4 E5. cbn in *. rewrite Hn in Hg. injection Hg as ->. split_and!; [done| | |done|done].
  - destruct p. cbn in *. unfold with_silver, protected_from_live. cbn. by rewrite E1, E2, E3, E4, E5.
  - rewrite Eg, Ep. intros h Hh Hd. destruct pelt; eapply Hf; done.
Qed.

(** The administrative state of [s] that a start with [s2] shows; lists of
    the protected state come back in the order of names. *)
Record restored (s s2 : DaemonState) : Prop := {
  rs_peers : s2.(l_peers) = sorted_by pr_name s.(l_peers);
  rs_policy : s2.(l_policy) = normal s.(l_policy);
  rs_profiles : s2.(l_profiles) = sorted_by fp_name s.(l_profiles);
  rs_active : s2.(l_active) = sorted_by id s.(l_active);
  rs_governance : s2.(l_governance) = s.(l_governance);
  rs_generation : s2.(l_generation) = s.(l_generation);
  rs_services : s2.(l_services) = s.(l_services);
  rs_published : s2.(l_published) = s.(l_published);
  rs_routes : s2.(l_routes) = s.(l_routes);
  rs_advertised : s2.(l_contacts).(Discovery.advertised) = s.(l_contacts).(Discovery.advertised);
  rs_auto_sync : s2.(l_auto_sync) = s.(l_auto_sync);
  rs_pelt : s2.(l_pelt) = s.(l_pelt)
}.

Lemma fits_sorted h l : fits h l → fits h (sorted_by pr_name l).
Proof.
  intros Hf head p Hh Hp. eapply Hf; [done|]. unfold sorted_by in Hp. by rewrite sort_by_key_perm in Hp.
Qed.

Lemma check_governance_ok x :
  (∀ h, x.(l_governance) = Some h → h.(Gov.dead_at) = None) → fits x.(l_governance) x.(l_peers) →
  ∃ s, check_governance x = Ok s ∧ fcore s = fcore x ∧ core s = core x ∧ s.(l_status) = x.(l_status) ∧
    (x.(l_authority).(Authority.poisoned) = false →
     Authority.is_locked s.(l_authority) = Authority.is_locked x.(l_authority) || NodeGovernance.unadmitted s.(l_governance) s.(l_pelt)).
Proof.
  intros Hd Hf. unfold check_governance. destruct (l_governance x) as [h|] eqn:Hh.
  2: { exists x. split_and!; [done..|]. intros _. rewrite Hh. by rewrite orb_false_r. }
  rewrite (Hd h eq_refl), bool_decide_eq_false_2 by (by intros []).
  assert (existsb (NodeGovernance.excludes h) (l_peers x) = false) as ->.
  { rewrite <- not_true_iff_false, existsb_exists. intros (p & Hp & Hx). rewrite <- list_elem_of_In in Hp.
    by rewrite (Hf h p eq_refl Hp) in Hx. }
  destruct (NodeGovernance.unadmitted _ _) eqn:Hu; eexists; (split_and!; [done..|]); intros _; cbn; rewrite Hh, Hu;
    [by rewrite orb_true_r|by rewrite orb_false_r].
Qed.

(** Silver as the saved flag says; the gate is also locked for a node that
    is not admitted. *)
Record silver_restored (locked : bool) (s2 : DaemonState) : Prop := {
  sr_silver : s2.(l_status).(silver) = if locked then lit "active" else lit "armed";
  sr_mode : s2.(l_status).(mode) = if locked then Silver else Human;
  sr_gate : Authority.is_locked s2.(l_authority) = locked || NodeGovernance.unadmitted s2.(l_governance) s2.(l_pelt)
}.

Lemma load_startup_ok sha256 now (d : D) w g b :
  den_quiet d → load d = Ok (Loaded g (stored (with_silver b (protected_from_live w)))) →
  (∀ nm, nm ∈ flat_names → reads w nm (den_file d nm)) → w.(l_generation) = Some g.(number) →
  (∀ h, w.(l_governance) = Some h → h.(Gov.dead_at) = None) → fits w.(l_governance) w.(l_peers) →
  ∃ s, load_startup_state sha256 now d daemon_default = Ok s ∧ restored w s ∧ silver_restored b s.
Proof.
  intros Hq Hl Hr Hg Hd Hf. unfold load_startup_state. rewrite Hl. cbn [mbind result_bind].
  assert (∀ nm, nm ∈ flat_names → plain nm) as Hp by apply flat_plain.
  pose proof (rd_services _ _ _ (Hr (lit "services.json") ltac:(solve_flat)) eq_refl) as R1.
  pose proof (rd_published _ _ _ (Hr PUBLISHED_FILE ltac:(solve_flat)) eq_refl) as R2.
  pose proof (rd_routes _ _ _ (Hr ROUTES_FILE ltac:(solve_flat)) eq_refl) as R3.
  pose proof (rd_advertise _ _ _ (Hr ADVERTISE_FILE ltac:(solve_flat)) eq_refl) as R4.
  pose proof (rd_cache _ _ _ (Hr CACHE_FILE ltac:(solve_flat)) eq_refl) as R5.
  pose proof (rd_auto_sync _ _ _ (Hr AUTO_SYNC_FILE ltac:(solve_flat)) eq_refl) as R6.
  pose proof (rd_pelt _ _ _ (Hr (lit "pelt.json") ltac:(solve_flat)) eq_refl) as R7.
  apply optional_good in R1, R2, R3, R4, R6, R7; try done; try (apply Hp; solve_flat).
  unfold parse_services in R1. unfold parse_pelt in R7.
  rewrite R1. cbn [mbind result_bind]. rewrite R2. cbn [mbind result_bind]. rewrite R3. cbn [mbind result_bind].
  rewrite R4. cbn [mbind result_bind].
  destruct (optional d CACHE_FILE MIB [] _) as [known|e] eqn:Hk.
  2: { exfalso. revert Hk. unfold optional.
       rewrite (den_read_quiet d CACHE_FILE); [|done|apply Hp; solve_flat|intros x Hx; rewrite Hx in R5; by destruct R5].
       cbn [mbind result_bind]. by destruct (den_file d CACHE_FILE). }
  cbn [mbind result_bind]. rewrite R6. cbn [mbind result_bind]. rewrite R7. cbn [mbind result_bind].
  match goal with |- ∃ s, check_governance ?x = Ok s ∧ _ => destruct (check_governance_ok x) as (s & Hs & Hc & Hc' & Hst & Hlk) end.
  { by destruct (l_pelt w). }
  { destruct (l_pelt w); by apply fits_sorted. }
  exists s. split; [done|].
  assert (silver_restored b s) as Hsil.
  { split.
    - rewrite Hst. by destruct (l_pelt w).
    - rewrite Hst. by destruct (l_pelt w).
    - rewrite Hlk by (by destruct (l_pelt w)). by destruct (l_pelt w), b. }
  split; [|done].
  destruct (l_pelt w) eqn:Hpw; injection Hc as _ _ E1 E2 E3 E4 E5 E6; injection Hc' as _ _ _ E7 E8 E9 E10 E11 E12;
    split; cbn in *; congruence.
Qed.

Lemma start_inv sha256 now (d : D) s d1 :
  start sha256 now tls_ok d = (Ok s, d1) →
  d1 = d ∧ den_file d Terminal.FILE_NAME = None ∧
  ∃ s0, load_startup_state sha256 now d daemon_default = Ok s0 ∧ dead_head s0 = None ∧
    initialize_runtime_tls_identity tls_ok (set_den true s0) = Some s.
Proof.
  unfold start. destruct (Terminal.at_startup d) as [[[m|]|e] d0] eqn:Ha; [done| |done].
  apply TerminalSpec.at_startup_None in Ha as [Hn ->].
  destruct (load_startup_state _ _ d _) as [s0|] eqn:Hl; [|done]. destruct (dead_head s0) as [h|] eqn:Hd.
  { by destruct (Terminal.dead_head_at_startup h d) as [[] ?]. }
  destruct (initialize_runtime_tls_identity _ _) as [s'|] eqn:Hi; [|done]. intros [= <- <-]. eauto 6.
Qed.

Lemma dead_head_None s : dead_head s = None ↔ ∀ h, s.(l_governance) = Some h → h.(Gov.dead_at) = None.
Proof.
  unfold dead_head. destruct (l_governance s) as [h|]; cbn; [|done].
  case_bool_decide as Hb; split; [done| |by intros _ ? [= <-]; apply eq_None_not_Some|done].
  intros Hn. rewrite (Hn h eq_refl) in Hb. by destruct Hb.
Qed.

(** A started node satisfies the three invariants. *)
Lemma started_ok sha256 now (d : D) s d1 :
  start sha256 now tls_ok d = (Ok s, d1) → is_Some s.(l_generation) → (∀ m, den_settled d m (den_file d m)) →
  tracks (mkWorld s d1) ∧ ftracks (mkWorld s d1) ∧ obeys (mkWorld s d1).
Proof.
  intros (-> & Ht & s0 & Hl & Hd & Hi)%start_inv [n Hn] Hb.
  assert (core s = core (set_den true s0) ∧ fcore s = fcore s0 ∧ ∀ p, s.(l_pelt) = Some p → tls_ok p = true) as (Hc & Hfc & Htls).
  { revert Hi. unfold initialize_runtime_tls_identity. cbn [l_pelt set_den]. destruct (l_pelt s0) as [p|] eqn:Hp.
    - destruct (tls_ok p) eqn:Hok; [|done]. intros [= <-]. cbn. rewrite Hp. split_and!; [done..|]. by intros ? [= <-].
    - intros [= <-]. cbn. by rewrite Hp. }
  assert (l_generation s0 = Some n) as Hn0. { injection Hc as _ _ _ <- _ _ _ _ _. done. }
  destruct (load_startup_protected _ _ _ _ _ _ Hl Hn0) as (g & p & Hld & -> & Hst & Hfit & _).
  assert (quiesced d) as Hq by (by intros nm _; apply Hb).
  destruct (load_durable _ _ _ Hld Hq) as (Hdur & Hsp & Hw).
  assert (protected_from_live s = with_silver (Authority.is_locked s.(l_authority)) p) as Hps.
  { injection Hc as _ _ _ _ E1 E2 E3 E4 E5. rewrite <- Hst. unfold protected_from_live, with_silver. cbn in *.
    by rewrite E1, E2, E3, E4, E5. }
  split_and!.
  - right. split; [cbn; by injection Hc as _ _ _ _ _ -> _ _ _; rewrite <- Hst in Hw|].
    exists g, p.(silver_locked). split; [done|]. cbn [live disk]. rewrite Hps. cbn.
    replace (with_silver _ _) with p by (by destruct p). by rewrite Hsp.
  - right. split; [|done]. intros nm Hnm. cbn [live disk].
    destruct (load_startup_flat _ _ _ _ _ Hl eq_refl Hb Ht nm Hnm) as (o & Ho & Hr). exists o.
    split; [done|]. by eapply reads_core.
  - unfold obeys. cbn [live]. injection Hc as _ _ _ _ -> _ _ _ ->. cbn [l_governance l_peers set_den].
    destruct (l_governance s0) as [h|] eqn:Hh; [|by intros ? ? ?]. eapply Hfit; [done|].
    by apply (proj1 (dead_head_None s0) Hd).
Qed.

(** The Den of a node that was administered: what a restart needs of it. *)
Lemma administered_den sha256 now (d : D) s d1 w d2 g b :
  start sha256 now tls_ok d = (Ok s, d1) → is_Some s.(l_generation) → (∀ m, den_settled d m (den_file d m)) →
  rtc (admin tls_ok sha256) (mkWorld s d1) w → ¬ stopped w.(live) →
  (∀ h, w.(live).(l_governance) = Some h → h.(Gov.dead_at) = None) →
  w.(live).(l_generation) = Some g.(number) →
  durable_gen g (stored (with_silver b (protected_from_live w.(live)))) w.(disk) →
  reopens w.(disk) d2 → den_quiet d2 →
  ∀ now', ∃ s2, start sha256 now' tls_ok d2 = (Ok s2, d2) ∧ restored w.(live) s2 ∧ silver_restored b s2.
Proof.
  intros Hs Hn Hb Hr Hns Hd Hg Hdur Hre Hq now'. destruct (started_ok _ _ _ _ _ Hs Hn Hb) as (_ & Hf & Ho).
  apply (admin_ftracks _ _ _ Hr) in Hf as [?|[Hf Htls]]; [done|].
  apply (admin_obeys _ _ _ _ Hr) in Ho.
  assert (∀ nm, nm ∈ flat_names → reads w.(live) nm (den_file d2 nm)) as Hrd.
  { intros nm Hnm. destruct (Hf nm Hnm) as (o & Hset & Hrds). by rewrite (settled_reopens _ _ _ _ Hset Hre). }
  destruct (load_startup_ok sha256 now' d2 w.(live) g b) as (s0 & Hl & Hres & Hsil);
    [done|by eapply durable_gen_load|done|done|done|done|].
  assert (den_file d2 Terminal.FILE_NAME = None) as Htomb by (by apply (rd_tombstone _ _ _ (Hrd Terminal.FILE_NAME ltac:(solve_flat)))).
  assert (Terminal.at_startup d2 = (Ok None, d2)) as Hst.
  { unfold Terminal.at_startup. rewrite (den_read_quiet d2 Terminal.FILE_NAME);
      [by rewrite Htomb|done|apply flat_plain; solve_flat|by rewrite Htomb]. }
  unfold start. rewrite Hst, Hl. rewrite (proj2 (dead_head_None s0)) by (by rewrite (rs_governance _ _ Hres)).
  unfold initialize_runtime_tls_identity. cbn [l_pelt set_den].
  destruct (l_pelt s0) as [p|] eqn:Hp.
  - rewrite Htls by (by rewrite <- (rs_pelt _ _ Hres)). eexists. split; [done|]. by destruct Hres, Hsil; split; split.
  - eexists. split; [done|]. by destruct Hres, Hsil; split; split.
Qed.


End restart.
End Restart.
