(* ===== verification/AdminDemo.v ===== *)
(** * Concrete nodes for the theorems on administration

    A JSON for the documents of the node, a Den that has just been migrated,
    a node started from it, and the witnesses of MutationSpec,
    MutationRuntime and Restart. *)

From stdpp Require Import gmap.
From S2P Require Export Restart.
From S2P Require Export MutationRuntime.
From S2P Require Import GovernanceDemo.

Local Open Scope Z_scope.

(** ** JSON *)

Module AdminJson.
Import LocalFs State Pelt Mutation Persistence Restart Toy ToySerde.

#[local] Instance kind_countable : Countable Service.ServiceKind.
Proof.
  apply (inj_countable' (λ k, match k with Service.Tcp => (true, true) | Service.Http => (true, false)
      | Service.Https => (false, true) | Service.Ssh => (false, false) end)
    (λ '(a, b), if a : bool then if b : bool then Service.Tcp else Service.Http
                else if b : bool then Service.Https else Service.Ssh)). by intros [].
Defined.
#[local] Instance provider_eq_dec : EqDecision Service.ServiceProvider.
Proof. solve_decision. Defined.
#[local] Instance provider_countable : Countable Service.ServiceProvider.
Proof.
  apply (inj_countable' (λ p, (Service.sp_peer p, Service.sp_target p)) (λ '(p, t), Service.mkProvider p t)). by intros [].
Defined.
#[local] Instance service_eq_dec : EqDecision Service.ServiceDefinition.
Proof. solve_decision. Defined.
#[local] Instance service_countable : Countable Service.ServiceDefinition.
Proof.
  apply (inj_countable' (λ s, (Service.sd_name s, Service.sd_peer s, Service.sd_target s, Service.sd_kind s, Service.fallbacks s))
    (λ '(n, p, t, k, f), Service.mkService n p t k f)). by intros [].
Defined.
#[local] Instance published_eq_dec : EqDecision Published.PublishedService.
Proof. solve_decision. Defined.
#[local] Instance published_countable : Countable Published.PublishedService.
Proof.
  apply (inj_countable' (λ s, (Published.ps_name s, Published.kind s, Published.target s))
    (λ '(n, k, t), Published.mkPublished n k t)). by intros [].
Defined.
#[local] Instance hop_eq_dec : EqDecision Route.RouteHop.
Proof. solve_decision. Defined.
#[local] Instance hop_countable : Countable Route.RouteHop.
Proof.
  apply (inj_countable' (λ h, match h with Route.Quic => true | Route.Tcp => false end)
    (λ b, if b : bool then Route.Quic else Route.Tcp)). by intros [].
Defined.
#[local] Instance route_eq_dec : EqDecision Route.Route.
Proof. solve_decision. Defined.
#[local] Instance route_countable : Countable Route.Route.
Proof.
  apply (inj_countable' (λ r, (Route.r_peer r, Route.via r, Route.hop r)) (λ '(p, v, h), Route.mkRoute p v h)). by intros [].
Defined.
#[local] Instance cache_eq_dec : EqDecision CacheFile.
Proof. solve_decision. Defined.
#[local] Instance cache_countable : Countable CacheFile.
Proof. apply (inj_countable' (λ c, (ca_version c, ca_records c)) (λ '(v, r), mkCache v r)). by intros []. Defined.

Definition pelt_fields (p : PeltIdentity) : list (option str) :=
  [Some (public_key_b64 p); Some (secret_key_b64 p); Some (fingerprint p)].
Definition pelt_back (l : list (option str)) : option PeltIdentity :=
  match l with [Some a; Some b; Some c] => Some (mkPeltIdentity a b c) | _ => None end.

(** The advertised addresses, one field after the other. *)
Lemma length_many l : length (many_bytes l) = sum_list_with (λ s : str, 2 * length s + 1)%nat l.
Proof.
  induction l as [|s l IH]; [done|]. change (many_bytes (s :: l)) with (field_bytes s ++ many_bytes l).
  rewrite length_app, length_field_bytes, IH. done.
Qed.
Lemma fields_count l : (length l ≤ length (many_bytes l))%nat.
Proof. rewrite length_many. induction l as [|s l IH]; cbn [length sum_list_with] in *; lia. Qed.

#[export] Instance advertise_serde : Serde AdvertiseFile := {|
  to_vec a := ad_version a :: many_bytes (ad_addresses a);
  from_slice l := match l with [] => None | v :: r => mkAdvertise v <$> take_many (length r) r end
|}.

#[export] Existing Instances ProtectedStateDemo.demo_protected ProtectedStateDemo.demo_protected_laws.

#[export] Instance admin_json : MutationJson := {|
  mj_protected := ProtectedStateDemo.demo_protected;
  mj_pelt := fields_serde 3 pelt_fields pelt_back
|}.

Lemma sum_le {A} (f : A → nat) n l : Forall (λ x, f x ≤ n)%nat l → (sum_list_with f l ≤ length l * n)%nat.
Proof. induction 1; cbn [sum_list_with length] in *; lia. Qed.

Lemma advertise_bound a : a = [] ∨ Contact.check_addresses a = Ok () →
  (length a ≤ 4)%nat ∧ Forall (λ s : str, length s ≤ 256)%nat a.
Proof.
  intros [->|Ha]; [by split; [cbn; lia|]|]. revert Ha. unfold Contact.check_addresses.
  destruct (bool_decide (a = []) || _)%bool eqn:Hb; [done|]. destruct (forallb _ a) eqn:Hv; [|done]. intros _.
  apply orb_false_iff in Hb as [_ Hn%Nat.ltb_ge]. split; [exact Hn|]. apply Forall_forall. intros s Hs%list_elem_of_In.
  rewrite forallb_forall in Hv. apply Hv in Hs. unfold Contact.valid_address in Hs.
  destruct (Nat.ltb_spec Contact.MAX_ADDRESS_LEN (length s)) as [|Hl]; [done|exact Hl].
Qed.

Lemma key_text t b : StateValidation.key t = Ok b → length t = 44%nat.
Proof.
  unfold StateValidation.key. intros (bytes & _ & Hk)%bind_Ok. case_bool_decide as Hb; [|done].
  destruct (to_array 32 bytes) eqn:Ha; [|done]. rewrite <- Hb. cbn [b64_encode]. rewrite toy_b64_length.
  apply to_array_Some in Ha as <-. by rewrite length_array.
Qed.

Lemma identity_text p : StateValidation.identity p = Ok () →
  length (public_key_b64 p) = 44%nat ∧ length (secret_key_b64 p) = 44%nat ∧ length (fingerprint p) = 28%nat.
Proof.
  unfold StateValidation.identity. intros (public & Hk%key_text & Hi)%bind_Ok. apply bind_Ok in Hi as (decoded & Hd & Hi).
  apply bind_Ok in Hi as ([] & Hb & Hi). apply bind_Ok in Hi as (secret & Hs & Hi).
  split; [done|]. split.
  - apply (key_text _ secret). unfold StateValidation.key. rewrite Hd. cbn [mbind result_bind].
    destruct (bool_decide (b64_encode decoded = secret_key_b64 p)); [exact Hs|discriminate].
  - destruct (_ || _)%bool; [done|]. apply bind_Ok in Hi as (fp & Hf & Hi). clear Hb.
    revert Hi. case_bool_decide as Hfp; [|discriminate]. intros _. rewrite <- Hfp. revert Hf.
    unfold fingerprint_from_public_key_b64. destruct (b64_decode (public_key_b64 p)) as [t|]; [|discriminate].
    cbn [ok_or mbind result_bind map_err]. intros Hf. injection Hf as <-.
    apply fingerprint_of_bytes_spec.
Qed.

#[export] Instance admin_json_laws : StartJsonLaws.
Proof.
  split; try apply _.
  - split. intros [v l]. cbn [to_vec from_slice admin_json mj_advertise advertise_serde ad_version ad_addresses]. rewrite take_many_bytes; [done|apply fields_count].
  - apply fields_serde_laws; [done|]. by intros [].
  - intros a Ha%advertise_bound. destruct Ha as [Hn Hf].
    cbn [to_vec admin_json mj_advertise advertise_serde length ad_addresses]. rewrite length_many.
    assert (sum_list_with (λ s : str, 2 * length s + 1)%nat a ≤ length a * 513)%nat as Hs.
    { apply sum_le. eapply Forall_impl; [exact Hf|]. cbn. lia. }
    lia.
  - intros p (Hp & Hs & Hf)%identity_text. cbn [to_vec admin_json mj_pelt fields_serde].
    rewrite ProtectedStateDemo.length_fields_bytes. unfold pelt_fields. cbn [sum_list_with]. lia.
Qed.

End AdminJson.

(** ** A node *)

Module AdminDemo.
Import LocalFs State Pelt ProtectedState Mutation MutationSpec MutationRuntime Persistence Restart.
Import Toy ToyWipe AdminJson TombstoneDemo.

Definition demo_sha (l : list byte) : array 32 := array_fill 32 x00.
Definition demo_tls (p : PeltIdentity) : bool := true.

(** A Den that has just been migrated, and the node started from it. *)
Definition demo_den : ToyDisk := (migrate (mkToy ∅ false)).2.
Definition demo_live : DaemonState :=
  match start demo_sha 0 demo_tls demo_den with (Ok s, _) => s | _ => daemon_default end.
Lemma demo_start : start demo_sha 0 demo_tls demo_den = (Ok demo_live, demo_den).
Proof.
  assert (is_ok (start demo_sha 0 demo_tls demo_den).1 = true) as Hok by (vm_compute; reflexivity).
  unfold demo_live. destruct (start demo_sha 0 demo_tls demo_den) as [[s|] d1] eqn:Hs; [|discriminate Hok].
  apply start_inv in Hs as [-> _]. reflexivity.
Qed.
Lemma toy_settled (d : ToyDisk) m : den_settled d m (den_file d m).
Proof. split; [done|]. by intros d' ->. Qed.

Definition command (req : ControlRequest) (w : World ToyDisk) : ControlResponse * World ToyDisk :=
  handle (array_fill 32 x01) demo_tls (lit "/home/wolf") demo_sha 0 (λ _, true) req w.

(** Silver is opened, a commit of the protected state, and automatic sync is
    switched off. *)
Definition sync_off : ControlRequest :=
  mkRequest (lit "1") (lit "governance.auto_sync") (JObj [(lit "state", JStr (lit "off"))]).
Definition demo_opened : World ToyDisk := (persist_silver false (mkWorld demo_live demo_den)).2.
Definition demo_world : World ToyDisk := (command sync_off demo_opened).2.

Lemma demo_admin : rtc (admin demo_tls demo_sha) (mkWorld demo_live demo_den) demo_world.
Proof.
  apply (rtc_l _ _ demo_opened); [exact (A_silver demo_tls demo_sha false (mkWorld demo_live demo_den))|]. apply rtc_once.
  exact (A_command demo_tls demo_sha (array_fill 32 x01) (lit "/home/wolf") 0 (λ _, true) sync_off demo_opened).
Qed.

Lemma demo_shape :
  l_generation demo_live = Some 1 ∧ l_generation (live demo_world) = Some 2 ∧ l_auto_sync (live demo_world) = false ∧
  l_degraded (live demo_world) = false ∧ l_exit_requested (live demo_world) = false ∧
  l_governance (live demo_world) = None.
Proof. by vm_compute. Qed.

(** Then Silver is saved as locked. *)
Definition demo_silver : World ToyDisk := (persist_silver true demo_world).2.
Lemma demo_silver_shape :
  (persist_silver true demo_world).1 = Ok () ∧ l_generation (live demo_silver) = Some 3 ∧
  l_auto_sync (live demo_silver) = false ∧ l_degraded (live demo_silver) = false ∧
  l_exit_requested (live demo_silver) = false ∧ l_governance (live demo_silver) = None.
Proof. by vm_compute. Qed.


(** A node whose network admitted key 100, with that key in its Pack; then
    the statement that revokes the key is applied. *)
Definition member_key : Key := Toy.key_of 100.
Definition member : StateValidation.PeerRecord :=
  StateValidation.mkPeerRecord (lit "fox") (fingerprint_of_bytes (array_bytes member_key)) (lit "tcp://a:1")
    StateValidation.Packmate (Some (b64_encode (array_bytes member_key))).
Definition member_world : World ToyDisk :=
  mkWorld (set_governance (Some GovDemo.demo_h1) (set_peers [member] demo_live)) demo_den.
Definition revoke_member : ControlRequest :=
  mkRequest (lit "1") (lit "governance.apply")
    (JObj [(lit "statement", JStr (b64_encode (Gov.statement_encode (GovDemo.signed GovDemo.demo_revocation))))]).
Definition revoked_world : World ToyDisk := (command revoke_member member_world).2.
Definition rejoin_member : ControlRequest :=
  mkRequest (lit "2") (lit "pack.add") (JObj [(lit "name", JStr (lit "fox")); (lit "fingerprint", JStr member.(StateValidation.pr_fingerprint));
    (lit "address", JStr (lit "tcp://a:1")); (lit "public_key_b64", JStr (b64_encode (array_bytes member_key)))]).
Definition rejoined_world : World ToyDisk := (command rejoin_member revoked_world).2.

Lemma member_admin : rtc (admin demo_tls demo_sha) member_world rejoined_world.
Proof.
  apply (rtc_l _ _ revoked_world);
    [exact (A_command demo_tls demo_sha (array_fill 32 x01) (lit "/home/wolf") 0 (λ _, true) revoke_member member_world)|].
  apply rtc_once. exact (A_command demo_tls demo_sha (array_fill 32 x01) (lit "/home/wolf") 0 (λ _, true) rejoin_member revoked_world).
Qed.
Lemma member_obeys : obeys member_world.
Proof.
  assert (NodeGovernance.excludes GovDemo.demo_h1 member = false) as E by (vm_compute; reflexivity).
  intros head p Hh Hp. change (p ∈ [member]) in Hp. apply list_elem_of_singleton in Hp as ->.
  change (Some GovDemo.demo_h1 = Some head) in Hh. apply (inj Some) in Hh as <-. exact E.
Qed.

(** The member was in the Pack, the new head excludes it, and neither the
    statement nor the attempt to add it again leaves it there. *)
Lemma pack_obeys_governance_witness :
  member_world.(live).(l_peers) = [member] ∧ obeys member_world ∧
  NodeGovernance.excludes (default GovDemo.demo_h1 rejoined_world.(live).(l_governance)) member = true ∧
  is_Some rejoined_world.(live).(l_governance) ∧ rs_ok (command revoke_member member_world).1 = true ∧
  obeys rejoined_world ∧ member ∉ rejoined_world.(live).(l_peers).
Proof.
  pose proof (pack_obeys_governance demo_tls demo_sha _ _ member_admin member_obeys) as Ho.
  assert (NodeGovernance.excludes (default GovDemo.demo_h1 rejoined_world.(live).(l_governance)) member = true) as Hx
    by (vm_compute; reflexivity).
  assert (bool_decide (is_Some rejoined_world.(live).(l_governance)) = true) as Hg%bool_decide_eq_true by (vm_compute; reflexivity).
  split; [vm_compute; reflexivity|]. split; [exact member_obeys|]. split; [exact Hx|]. split; [exact Hg|].
  split; [vm_compute; reflexivity|]. split; [exact Ho|].
  intros Hm. destruct Hg as [h Hh]. rewrite Hh in Hx. change (NodeGovernance.excludes h member = true) in Hx.
  rewrite (Ho h member Hh Hm) in Hx. discriminate Hx.
Defined.

(** A member with a session and a Fang (a listener and a child), on a node
    whose Den is closed: every save fails. *)
Definition wolf_fp : str := fingerprint_of_bytes (array_bytes (array_fill 32 x61)).
Definition wolf_key : array 8 := default (array_fill 8 x00) (parse_fingerprint wolf_fp).
Definition wolf : StateValidation.PeerRecord :=
  StateValidation.mkPeerRecord (lit "wolf") wolf_fp (lit "tcp://a:1") StateValidation.Packmate None.
Definition wolf_gate : Authority.Authority :=
  AuthoritySpec.run (Authority.initial false)
    [AuthoritySpec.OpTicket wolf_key; AuthoritySpec.OpReserve (Authority.mkTicket wolf_key 1 1) Authority.Tcp;
     AuthoritySpec.OpPublish 2].
Definition wolf_live : DaemonState :=
  set_authority wolf_gate (set_runtime FangsDemo.demo_steps.2 (set_registry FangsDemo.demo_steps.1
    (set_peers [wolf] daemon_default))).
Definition closed_world : World ToyDisk := mkWorld wolf_live demo_den.
Definition named (cmd : str) (rest : list (str * Json)) : ControlRequest :=
  mkRequest (lit "1") cmd (JObj ((lit "name", JStr (lit "wolf")) :: rest)).

(** The session is cut off, the listener and the child are told to stop, and
    the Pack is as it was, since the save failed. *)
Lemma revocation_outlives_failed_save_witness :
  let w' := (command (named (lit "pack.revoke") []) closed_world).2 in
  (Authority.cancelled 2 wolf_gate = false ∧ Fangs.ids_using_peer (l_registry wolf_live) (lit "wolf") = [FangsDemo.demo_id] ∧
   Fangs.status_of (l_runtime wolf_live) 1 = Fangs.Running) ∧
  w'.(live).(l_peers) = [wolf] ∧ Authority.cancelled 2 w'.(live).(l_authority) = true ∧
  AuthoritySpec.fenced 2 w'.(live).(l_authority) ∧ Fangs.ids_using_peer (l_registry w'.(live)) (lit "wolf") = [] ∧
  Fangs.status_of (l_runtime w'.(live)) 0 ≠ Fangs.Running ∧ Fangs.status_of (l_runtime w'.(live)) 1 ≠ Fangs.Running.
Proof.
  assert (parse_fingerprint wolf_fp = Some wolf_key) as Hk by (vm_compute; reflexivity).
  pose proof (revocation_outlives_failed_save (array_fill 32 x01) demo_tls (lit "/home/wolf") demo_sha 0 (λ _, true)
    (named (lit "pack.revoke") []) closed_world 0 wolf wolf_key
    ltac:(apply (bool_decide_unpack _); vm_compute; exact I) ltac:(by vm_compute) ltac:(by vm_compute) Hk
    (AuthoritySpec.run_inv _ _ (AuthoritySpec.initial_inv _))) as Hr.
  unfold command. cbn zeta. split; [split; [vm_compute; reflexivity|]; split; vm_compute; reflexivity|].
  assert (rs_error (handle (array_fill 32 x01) demo_tls (lit "/home/wolf") demo_sha 0 (λ _, true)
    (named (lit "pack.revoke") []) closed_world).1 = Some (mkControlError (lit "PACK_SAVE_FAILED_RUNTIME_DENIED")
      (lit "local state mutation rejected"))) as Hf by by vm_compute.
  assert (l_peers (live (handle (array_fill 32 x01) demo_tls (lit "/home/wolf") demo_sha 0 (λ _, true)
    (named (lit "pack.revoke") []) closed_world).2) = [wolf]) as Hp by by vm_compute.
  destruct (handle _ _ _ _ _ _ (named _ _) closed_world) as [r w']. cbn [fst snd] in *. split; [exact Hp|].
  destruct Hr as [[-> _]|(Hc & (Hn & Ht & _) & _)]; [discriminate Hf|].
  destruct (Hc 2 (Authority.mkEntry (Authority.mkTicket wolf_key 1 1) Authority.Tcp true false) eq_refl eq_refl) as [Hcan Hfen].
  split; [exact Hcan|]. split; [exact (Hfen [])|]. split; [exact Hn|]. split; apply Ht; vm_compute; [by left|right; by left].
Defined.

Definition move_wolf : ControlRequest :=
  named (lit "pack.set_address") [(lit "address", JStr (lit "quic://a:1"))].
Definition moved_wolf : list StateValidation.PeerRecord := [set_address (lit "quic://a:1") wolf].


(** A node with a Pelt on a Den whose deletions fail. *)
Definition retiring : World ToyDisk :=
  mkWorld (set_pelt (Some (generate_identity (array_fill 32 x01))) (set_den true daemon_default)) TerminalDemo.demo_disk.

Lemma no_destruction_without_tombstone_witness :
  let d' := (Terminal.retire (fingerprint (generate_identity (array_fill 32 x01))) retiring).2.(disk) in
  is_Some (den_file d' Terminal.FILE_NAME) ∧
  (TerminalSpec.spared retiring.(disk) d' ∨ ∃ t, t.(Tombstone.t_kind) = Tombstone.KRetirement ∧ TerminalSpec.tombstoned t d').
Proof.
  split; [vm_compute; by eexists|].
  exact (proj1 (TerminalSpec.no_destruction_without_tombstone (fingerprint (generate_identity (array_fill 32 x01)))
    RpcDemo.demo_first DiscoveryDemo.demo_head retiring)).
Defined.

End AdminDemo.
