(* ===== verification/ControlLimits.v ===== *)
(** * The limits of the control socket ([werewolfd/src/control/limits.rs])

    [Module ControlLimits]: reading a request line, the strict parse of a
    request, the cap on a response, the admission of mutations and the list
    of commands that mutate. Deadlines are left out: a read that is late is
    an error like a rejected one. [serde_json]'s reading of a text is the
    parameter [json_tree]: the members of an object in the order of the text,
    repetitions included; of a number it matters only that it is one.

    [Module ControlLimitsSpec]: the line read does not depend on how the
    bytes arrive; what a parsed request satisfies; at most one mutation runs. *)

From stdpp Require Import gmap.
From S2P Require Export State.

Local Open Scope Z_scope.

Module ControlLimits.
Import State.

Definition CLIENTS : nat := 16.
Definition REQUESTS : nat := 32.
Definition REQUEST_BYTES : Z := 16 * 1024.
Definition RESPONSE_BYTES : Z := 1024 * 1024.

Notation len l := (Z.of_nat (length l)).

(** ** Reading a line *)

Definition NEWLINE : byte := x0a.

(** [bytes.iter().position(|b| *b == b'\n').map_or(bytes.len(), |i| i + 1)]. *)
Definition line_count (bytes : list byte) : nat :=
  match list_find (λ b, b = NEWLINE) bytes with Some (i, _) => S i | None => length bytes end.

(** The reader is what its successive [fill_buf]s give; nothing is left when
    one is empty. The result comes with the bytes that were not consumed. *)
Fixpoint read_before (line : list byte) (reader : list (list byte))
    : result () (option (list byte)) * list (list byte) :=
  match reader with
  | [] | [] :: _ => (if bool_decide (line = []) then Ok None else Err (), reader)
  | bytes :: rest =>
      let count := line_count bytes in
      if REQUEST_BYTES <? len line + Z.of_nat count then (Err (), reader)
      else
        let line' := line ++ take count bytes in
        if bool_decide (last line' = Some NEWLINE) then
          (Ok (Some line'), if (count =? length bytes)%nat then rest else drop count bytes :: rest)
        else if len line' =? REQUEST_BYTES then (Err (), rest)
        else read_before line' rest
  end.

Definition read_request (reader : list (list byte)) : result () (option (list byte)) * list (list byte) :=
  read_before [] reader.

(** ** Parsing *)

Inductive Rejected : Type := rejected.

Definition MAX_DEPTH : nat := 16.

(** The lexical scan: bracket depth, inside a string, after a backslash. *)
Record Scan : Type := mkScan { depth : nat; quoted : bool; escaped : bool }.
Definition scan_start : Scan := mkScan 0 false false.
Definition scan_byte (s : Scan) (b : byte) : result Rejected Scan :=
  if s.(quoted) then
    Ok (if s.(escaped) then mkScan s.(depth) true false
        else if bool_decide (b = x5c) then mkScan s.(depth) true true
        else if bool_decide (b = x22) then mkScan s.(depth) false false
        else s)
  else if bool_decide (b = x22) then Ok (mkScan s.(depth) true s.(escaped))
  else if bool_decide (b = x7b) || bool_decide (b = x5b) then
    if (MAX_DEPTH <? S s.(depth))%nat then Err rejected else Ok (mkScan (S s.(depth)) false s.(escaped))
  else if bool_decide (b = x7d) || bool_decide (b = x5d) then
    match s.(depth) with O => Err rejected | S n => Ok (mkScan n false s.(escaped)) end
  else Ok s.

(** [Unique]: no object repeats a key. *)
Definition visit_map (visit : Json → option Json) : list (str * Json) → list (str * Json) → option (list (str * Json)) :=
  fix go out l :=
    match l with
    | [] => Some out
    | (k, x) :: l' =>
        if bool_decide (k ∈ out.*1) then None
        else match visit x with Some y => go (out ++ [(k, y)]) l' | None => None end
    end.
Definition visit_seq (visit : Json → option Json) : list Json → list Json → option (list Json) :=
  fix go out l :=
    match l with
    | [] => Some out
    | x :: l' => match visit x with Some y => go (out ++ [y]) l' | None => None end
    end.
Fixpoint unique (v : Json) : option Json :=
  match v with
  | JObj l => JObj <$> visit_map unique [] l
  | JArr l => JArr <$> visit_seq unique [] l
  | _ => Some v
  end.

Definition as_object (v : Json) : option (list (str * Json)) := match v with JObj l => Some l | _ => None end.

(** [serde_json::from_value::<ControlRequest>]. *)
Definition request_of (l : list (str * Json)) : option ControlRequest :=
  id ← as_str (j_get (JObj l) (lit "id"));
  cmd ← as_str (j_get (JObj l) (lit "cmd"));
  Some (mkRequest id cmd (j_get (JObj l) (lit "args"))).

Definition allowed (cmd : str) : list str :=
  let cmd_is c := bool_decide (cmd = lit c) in
  if cmd_is "pack.add" then [lit "name"; lit "fingerprint"; lit "address"; lit "public_key_b64"]
  else if cmd_is "pack.set_address" then [lit "name"; lit "address"]
  else if cmd_is "service.add" then [lit "name"; lit "peer"; lit "target"; lit "kind"]
  else if cmd_is "service.publish" then [lit "name"; lit "target"; lit "kind"]
  else if cmd_is "service.add_from" then [lit "name"; lit "peer"; lit "transport"]
  else if cmd_is "service.provider.add" then [lit "name"; lit "peer"; lit "target"; lit "kind"]
  else if cmd_is "service.provider.add_from" then [lit "name"; lit "peer"; lit "transport"]
  else if cmd_is "service.provider.remove" then [lit "name"; lit "peer"]
  else if cmd_is "discover.services" then [lit "peer"; lit "transport"]
  else if cmd_is "route.set" then [lit "peer"; lit "via"; lit "hop"]
  else if cmd_is "governance.apply" then [lit "statement"; lit "expect_hash"]
  else if cmd_is "governance.sync" then [lit "peer"; lit "transport"]
  else if cmd_is "den.retire" then [lit "confirm"]
  else if cmd_is "governance.auto_sync" then [lit "state"]
  else if cmd_is "route.remove" then [lit "peer"]
  else if cmd_is "pack.remove" || cmd_is "pack.revoke" || cmd_is "service.remove" || cmd_is "service.unpublish" || cmd_is "service.show"
       || cmd_is "fang.profile.remove" || cmd_is "fang.open_profile" || cmd_is "fang.deactivate_profile" then [lit "name"]
  else if cmd_is "fang.open" then [lit "peer"; lit "local"; lit "remote"; lit "transport"]
  else if cmd_is "service.connect" then [lit "name"; lit "local"; lit "transport"]
  else if cmd_is "fang.profile.add" then [lit "name"; lit "peer"; lit "local"; lit "remote"; lit "transport"]
  else if cmd_is "fang.close" then [lit "fang_id"]
  else if cmd_is "target.policy.set" then [lit "document"]
  else if cmd_is "target.allow" || cmd_is "target.remove" then [lit "peer"; lit "target"]
  else if cmd_is "discover.advertise" then [lit "addresses"]
  else if cmd_is "discover.refresh" then [lit "transport"]
  else if cmd_is "discover.find" then [lit "target"; lit "transport"]
  else [].

Definition limit (key : str) : Z :=
  let key_is k := bool_decide (key = lit k) in
  if key_is "name" || key_is "peer" || key_is "via" then 128
  else if key_is "local" || key_is "remote" || key_is "address" || key_is "public_key_b64" || key_is "target" then 512
  else if key_is "document" then 12 * 1024
  else if key_is "statement" then 12 * 1024
  else if key_is "addresses" then 4 * 257
  else 128.

Definition check_arg (cmd : str) (kv : str * Json) : bool :=
  bool_decide (kv.1 ∈ allowed cmd)
  && match as_str kv.2 with Some value => len value <=? limit kv.1 | None => false end.

Section parse.
Variable json_tree : list byte → option Json.

Definition parse (line : list byte) : result Rejected ControlRequest :=
  _ ← require (len line <=? REQUEST_BYTES) rejected;
  _ ← try_fold scan_byte scan_start line;
  tree ← ok_or (json_tree line) rejected;
  value ← ok_or (unique tree) rejected;
  object ← ok_or (as_object value) rejected;
  _ ← require (forallb (λ k, bool_decide (k ∈ [lit "id"; lit "cmd"; lit "args"])) object.*1) rejected;
  _ ← require match list_find (λ x, x.1 = lit "args") object with
              | Some (_, x) => bool_decide (is_Some (as_object x.2))
              | None => true
              end rejected;
  request ← ok_or (request_of object) rejected;
  _ ← require (negb ((128 <? len request.(rq_id)) || bool_decide (request.(rq_cmd) = [])
                     || (64 <? len request.(rq_cmd)) || negb (is_ascii request.(rq_cmd)))) rejected;
  let request := match request.(rq_args) with
                 | JNull => mkRequest request.(rq_id) request.(rq_cmd) (JObj [])
                 | _ => request
                 end in
  args ← ok_or (as_object request.(rq_args)) rejected;
  _ ← require (forallb (check_arg request.(rq_cmd)) args) rejected;
  Ok request.

End parse.

(** ** Responses *)

(** [Capped]: one [write] of the serializer. *)
Definition capped_write (out : list byte) (bytes : list byte) : result Rejected (list byte) :=
  if RESPONSE_BYTES <=? len out + len bytes then Err rejected else Ok (out ++ bytes).

(** The line of a response that is serialized in [pieces]. *)
Definition response_line (pieces : list (list byte)) : result Rejected (list byte) :=
  out ← try_fold capped_write [] pieces;
  Ok (out ++ [NEWLINE]).

(** ** Admission of mutations *)

(** Whether a mutation holds the one active permit, and who waits for it, in
    order, each with one of the pending permits. *)
Record Mutations : Type := mkMutations { running : option nat; waiting : list nat }.
Definition mutations_default : Mutations := mkMutations None [].
Definition PENDING : nat := 8.

Inductive Admit : Type := Running | Waiting | Refused.

(** [Mutations::admit], up to the point where it waits. *)
Definition admit_mutation (id : nat) (m : Mutations) : Admit * Mutations :=
  match m.(running) with
  | None => (Running, mkMutations (Some id) m.(waiting))
  | Some _ =>
      if (length m.(waiting) <? PENDING)%nat then (Waiting, mkMutations m.(running) (m.(waiting) ++ [id]))
      else (Refused, m)
  end.
(** The end of a mutation: the semaphore is fair, the permit goes to the
    first that waits. *)
Definition finish (m : Mutations) : Mutations :=
  match m.(waiting) with [] => mkMutations None [] | id :: rest => mkMutations (Some id) rest end.
(** A wait that runs into the admission window, or whose client is gone. *)
Definition stop_waiting (id : nat) (m : Mutations) : Mutations :=
  mkMutations m.(running) (filter (λ x, x ≠ id) m.(waiting)).

Definition mutating : list str :=
  [lit "pelt.init"; lit "pack.add"; lit "pack.set_address"; lit "pack.revoke"; lit "pack.remove";
   lit "target.policy.set"; lit "target.allow"; lit "target.remove"; lit "service.add"; lit "service.remove";
   lit "service.publish"; lit "service.unpublish"; lit "service.provider.add"; lit "service.provider.remove";
   lit "governance.apply"; lit "governance.sync_apply"; lit "den.retire"; lit "governance.auto_sync";
   lit "route.set"; lit "route.remove"; lit "discover.advertise"; lit "state.manifest.migrate"; lit "fang.open";
   lit "service.connect"; lit "fang.profile.add"; lit "fang.profile.remove"; lit "fang.open_profile";
   lit "fang.deactivate_profile"; lit "fang.close"; lit "silver.trigger"; lit "silver.reset"; lit "fang.cleanup"].
Definition mutates (cmd : str) : bool := bool_decide (cmd ∈ mutating).

End ControlLimits.

Module ControlLimitsSpec.
Import State ControlLimits.

(** ** Reading *)

(** The first line of a text and what follows it, if it is within the limit. *)
Definition first_line (s : list byte) : option (list byte * list byte) :=
  match list_find (λ b, b = NEWLINE) s with
  | Some (i, _) => if Z.of_nat (S i) <=? REQUEST_BYTES then Some (take (S i) s, drop (S i) s) else None
  | None => None
  end.

Lemma find_app_r (l k : list byte) :
  NEWLINE ∉ l → list_find (λ b, b = NEWLINE) (l ++ k) = prod_map (Nat.add (length l)) id <$> list_find (λ b, b = NEWLINE) k.
Proof.
  intros Hl. rewrite list_find_app_r; [|apply list_find_None, Forall_forall; by intros x Hx ->].
  destruct (list_find _ k) as [[i b]|]; [|done]. cbn. by rewrite Nat.add_comm.
Qed.

Lemma find_app_l (l k : list byte) i b :
  list_find (λ b, b = NEWLINE) l = Some (i, b) → list_find (λ b, b = NEWLINE) (l ++ k) = Some (i, b).
Proof. intros E. erewrite list_find_app_l; eauto. Qed.

Lemma find_None_not_elem (l : list byte) : list_find (λ b, b = NEWLINE) l = None ↔ NEWLINE ∉ l.
Proof.
  rewrite list_find_None, Forall_forall. split; [|by intros ? x ? ->]. intros Hl Hin. by apply (Hl _ Hin).
Qed.

Lemma last_not_elem (l : list byte) b : b ∉ l → last l ≠ Some b.
Proof. intros Hn Hl. apply Hn. apply last_Some in Hl as [l' ->]. set_solver. Qed.

Lemma read_before_spec reader : ∀ line,
  NEWLINE ∉ line → len line < REQUEST_BYTES → Forall (λ c, c ≠ []) reader →
  let s := line ++ mjoin reader in
  match first_line s with
  | Some (l, rest) => (read_before line reader).1 = Ok (Some l) ∧ mjoin (read_before line reader).2 = rest
  | None => (read_before line reader).1 = if bool_decide (s = []) then Ok None else Err ()
  end.
Proof.
  induction reader as [|bytes rest IH]; intros line Hn Hlen Hne s.
  { subst s. cbn [mjoin list_join]. rewrite app_nil_r. unfold first_line.
    rewrite (proj2 (find_None_not_elem line) Hn). done. }
  apply Forall_cons in Hne as [Hb Hne]. subst s. cbn [mjoin list_join]. destruct bytes as [|b0 bs]; [done|].
  cbn [read_before]. set (bytes := b0 :: bs) in *.
  unfold first_line. rewrite (find_app_r line) by done. unfold line_count.
  destruct (list_find (λ b, b = NEWLINE) bytes) as [[i x]|] eqn:Hf.
  - rewrite (find_app_l _ _ _ _ Hf). cbn [fmap option_fmap option_map prod_map fst snd].
    pose proof (proj1 (list_find_Some _ _ _ _) Hf) as (Hi & -> & _).
    pose proof (lookup_lt_Some _ _ _ Hi) as Hlt.
    destruct (Z.ltb_spec REQUEST_BYTES (len line + Z.of_nat (S i))) as [Hbig|Hsmall].
    { destruct (Z.leb_spec (Z.of_nat (S (length line + i))) REQUEST_BYTES); [lia|].
      rewrite bool_decide_eq_false_2; [done|]. intros E. apply app_eq_nil in E as [_ E]. by apply app_eq_nil in E as [? _]. }
    destruct (Z.leb_spec (Z.of_nat (S (length line + i))) REQUEST_BYTES); [|lia].
    rewrite bool_decide_eq_true_2.
    2: { rewrite (take_S_r _ _ NEWLINE) by done. by rewrite app_assoc, last_snoc. }
    cbn [fst snd]. replace (S (length line + i)) with (length line + S i)%nat by lia.
    rewrite take_app_add, drop_app_add, take_app_le, drop_app_le by lia. split; [done|].
    destruct (Nat.eqb_spec (S i) (length bytes)) as [E|E]; [|done]. by rewrite E, drop_all.
  - apply find_None_not_elem in Hf. rewrite take_ge by done.
    rewrite (find_app_r bytes) by done.
    assert (NEWLINE ∉ line ++ bytes) as Hn' by set_solver.
    destruct (Z.ltb_spec REQUEST_BYTES (len line + len bytes)) as [Hbig|Hsmall].
    { assert ((line ++ bytes ++ mjoin rest) ≠ []) as Hnn.
      { intros E. apply app_eq_nil in E as [_ E]. by apply app_eq_nil in E as [? _]. }
      destruct (list_find _ (mjoin rest)) as [[j y]|]; cbn [fmap option_fmap option_map prod_map fst snd].
      - destruct (Z.leb_spec (Z.of_nat (S (length line + (length bytes + j)))) REQUEST_BYTES); [lia|].
        by rewrite bool_decide_eq_false_2.
      - by rewrite bool_decide_eq_false_2. }
    rewrite bool_decide_eq_false_2 by (by apply last_not_elem).
    destruct (Z.eqb_spec (len (line ++ bytes)) REQUEST_BYTES) as [E|E]; rewrite length_app in E.
    { assert ((line ++ bytes ++ mjoin rest) ≠ []) as Hnn.
      { intros E'. apply app_eq_nil in E' as [_ E']. by apply app_eq_nil in E' as [? _]. }
      destruct (list_find _ (mjoin rest)) as [[j y]|]; cbn [fmap option_fmap option_map prod_map fst snd].
      - destruct (Z.leb_spec (Z.of_nat (S (length line + (length bytes + j)))) REQUEST_BYTES); [lia|].
        by rewrite bool_decide_eq_false_2.
      - by rewrite bool_decide_eq_false_2. }
    specialize (IH (line ++ bytes) Hn' ltac:(rewrite length_app; lia) Hne). cbn zeta in IH.
    unfold first_line in IH. rewrite <- app_assoc, (find_app_r line), (find_app_r bytes) in IH by set_solver.
    exact IH.
Qed.

(** Reading a request does not depend on how its bytes arrive. However
    the text on the socket is cut into reads, [read_request] returns exactly
    its first line when that is at most 16 KiB with its newline, and leaves
    exactly the rest; with no complete line within the limit it fails, except
    that an empty text is the clean end. *)
Theorem read_request_exact reader : Forall (λ c, c ≠ []) reader →
  match first_line (mjoin reader) with
  | Some (l, rest) => (read_request reader).1 = Ok (Some l) ∧ mjoin (read_request reader).2 = rest
  | None => (read_request reader).1 = if bool_decide (mjoin reader = []) then Ok None else Err ()
  end.
Proof. intros Hne. apply (read_before_spec reader [] ltac:(set_solver) eq_refl Hne). Qed.

(** ** Parsing *)

Lemma visit_map_spec f l : ∀ out r, visit_map f out l = Some r → NoDup out.*1 →
  NoDup r.*1 ∧ ∀ k x, (k, x) ∈ r → (k, x) ∈ out ∨ ∃ y, f y = Some x.
Proof.
  induction l as [|[k x] l IH]; intros out r; cbn [visit_map].
  - intros [= <-] Hn. eauto.
  - case_bool_decide as Hk; [done|]. destruct (f x) as [y|] eqn:Hy; [|done]. intros Hr Hn.
    apply IH in Hr as [Hn' Hr].
    + split; [done|]. intros k' x' [Hin|]%Hr; [|by right].
      apply elem_of_app in Hin as [|Hin]; [by left|]. apply list_elem_of_singleton in Hin as [= -> ->]. eauto.
    + rewrite fmap_app. apply NoDup_app. split; [done|]. split; [|apply NoDup_singleton].
      intros z Hz Hz'%list_elem_of_singleton. cbn in Hz'. by subst.
Qed.

Lemma unique_obj v l : unique v = Some (JObj l) →
  NoDup l.*1 ∧ ∀ k x, (k, x) ∈ l → ∃ y, unique y = Some x.
Proof.
  destruct v as [| | | |l0|l0]; try done; cbn [unique].
  - by destruct (visit_seq unique [] l0).
  - destruct (visit_map unique [] l0) as [r|] eqn:Hr; [|done]. cbn. intros [= <-].
    apply visit_map_spec in Hr as [Hn Hr]; [|constructor]. split; [done|].
    intros k x [Hin|]%Hr; [by apply elem_of_nil in Hin|done].
Qed.

Lemma j_get_elem l field v : j_get (JObj l) field = v → v ≠ JNull → (field, v) ∈ l.
Proof.
  cbn [j_get]. destruct (list_find _ l) as [[i [k x]]|] eqn:Hf; [|congruence].
  apply list_find_Some in Hf as (Hi & Hk & _). cbn in *. intros -> _. subst. by eapply list_elem_of_lookup_2.
Qed.

Lemma scan_depth s b s' : scan_byte s b = Ok s' → (s.(depth) ≤ MAX_DEPTH)%nat → (s'.(depth) ≤ MAX_DEPTH)%nat.
Proof.
  unfold scan_byte. destruct (quoted s).
  - intros [= <-]. by repeat case_match.
  - repeat case_match; intros [= <-] Hd; cbn; try done; [|lia]. bool_simpl. lia.
Qed.

Lemma scan_prefixes line : ∀ s s', try_fold scan_byte s line = Ok s' → (s.(depth) ≤ MAX_DEPTH)%nat →
  ∀ n, ∃ t, try_fold scan_byte s (take n line) = Ok t ∧ (t.(depth) ≤ MAX_DEPTH)%nat.
Proof.
  induction line as [|b line IH]; intros s s' Hf Hd n.
  { rewrite take_nil. by exists s. }
  cbn [try_fold] in Hf. apply bind_Ok in Hf as (s1 & Hb & Hf). destruct n as [|n]; [by exists s|].
  cbn [take try_fold]. rewrite Hb. cbn [mbind result_bind]. eapply IH; [done|by eapply scan_depth].
Qed.

(** What the control socket hands to the node is bounded. A request that
    parses came from at most 16 KiB in which at every point at most 16
    brackets outside strings are open; its id is at most 128 bytes, its
    command between 1 and 64 ASCII characters; its arguments are an object
    without repeated keys, every key is one the command takes, and every
    value is a string within the limit of its key. *)
Theorem parse_bounds json_tree line req : parse json_tree line = Ok req →
  len line ≤ REQUEST_BYTES ∧
  (∀ n, ∃ t, try_fold scan_byte scan_start (take n line) = Ok t ∧ (t.(depth) ≤ MAX_DEPTH)%nat) ∧
  len req.(rq_id) ≤ 128 ∧ 1 ≤ len req.(rq_cmd) ≤ 64 ∧ is_ascii req.(rq_cmd) = true ∧
  ∃ args, req.(rq_args) = JObj args ∧ NoDup args.*1 ∧
    ∀ k v, (k, v) ∈ args → k ∈ allowed req.(rq_cmd) ∧ ∃ s, v = JStr s ∧ len s ≤ limit k.
Proof.
  unfold parse. intros ([] & Hlen%require_Ok & Hp)%bind_Ok. apply bind_Ok in Hp as (s & Hscan & Hp).
  apply bind_Ok in Hp as (tree & _ & Hp). apply bind_Ok in Hp as (value & Hu%ok_or_Ok & Hp).
  apply bind_Ok in Hp as (object & Ho%ok_or_Ok & Hp). apply bind_Ok in Hp as ([] & _ & Hp).
  apply bind_Ok in Hp as ([] & _ & Hp). apply bind_Ok in Hp as (r & Hr%ok_or_Ok & Hp).
  apply bind_Ok in Hp as ([] & Hb%require_Ok & Hp). bool_simpl.
  destruct value as [| | | | |l]; try done. injection Ho as <-. apply unique_obj in Hu as [Hnd Hsub].
  assert (r.(rq_args) = j_get (JObj l) (lit "args")) as Ha.
  { revert Hr. unfold request_of. destruct (as_str (j_get _ (lit "id"))); [|discriminate].
    destruct (as_str (j_get _ (lit "cmd"))); [|discriminate]. cbn [mbind option_bind]. intros Hr. by injection Hr as <-. }
  apply bind_Ok in Hp as (args & Hargs%ok_or_Ok & Hp). apply bind_Ok in Hp as ([] & Hchk%require_Ok & [= <-]).
  set (r' := match r.(rq_args) with JNull => _ | _ => _ end) in *.
  assert (r'.(rq_id) = r.(rq_id) ∧ r'.(rq_cmd) = r.(rq_cmd)) as [-> Hc] by (subst r'; by destruct (rq_args r)).
  rewrite Hc in *. split; [done|]. split; [by eapply scan_prefixes; [done|cbn; lia]|]. split; [done|].
  split; [destruct (rq_cmd r); [done|cbn [length] in *; lia]|]. split; [done|].
  exists args. destruct r'.(rq_args) as [| | | | |a] eqn:Hr'; try done. injection Hargs as ->. split; [done|].
  rewrite forallb_forall in Hchk. split.
  - subst r'. destruct (rq_args r) as [| | | | |a'] eqn:Hra; cbn in Hr'; try congruence; [injection Hr' as <-; constructor|].
    rewrite Hra in Hr'. injection Hr' as ->. symmetry in Ha. apply j_get_elem in Ha; [|done].
    apply Hsub in Ha as [y Hy]. by apply unique_obj in Hy as [].
  - intros k v Hin%list_elem_of_In. apply Hchk in Hin. unfold check_arg in Hin. cbn [fst snd] in Hin.
    apply andb_true_iff in Hin as [Hk Hv]. bool_simpl. split; [done|]. destruct v as [| | |str| |]; try done.
    exists str. split; [done|]. cbn in Hv. by bool_simpl.
Qed.

(** ** Responses *)

Lemma capped_all pieces : ∀ out, pieces ≠ [] →
  try_fold capped_write out pieces =
    if RESPONSE_BYTES <=? len out + len (mjoin pieces) then Err rejected else Ok (out ++ mjoin pieces).
Proof.
  induction pieces as [|p ps IH]; [done|]. intros out _. cbn [try_fold]. change (mjoin (p :: ps)) with (p ++ mjoin ps).
  assert (capped_write out p = if RESPONSE_BYTES <=? len out + len p then Err rejected else Ok (out ++ p)) as -> by done.
  rewrite length_app. destruct (Z.leb_spec RESPONSE_BYTES (len out + len p)).
  { destruct (Z.leb_spec RESPONSE_BYTES (len out + Z.of_nat (length p + length (mjoin ps)))); [done|lia]. }
  cbn [mbind result_bind]. destruct ps as [|q ps'].
  - change (mjoin []) with (@nil byte). cbn [try_fold length]. rewrite app_nil_r.
    destruct (Z.leb_spec RESPONSE_BYTES (len out + Z.of_nat (length p + 0))); [lia|done].
  - rewrite IH by done. rewrite length_app, <- app_assoc.
    replace (Z.of_nat (length out + length p) + len (mjoin (q :: ps')))
      with (len out + Z.of_nat (length p + length (mjoin (q :: ps')))) by lia. done.
Qed.

(** A response is sent whole and below the limit, or not at all. *)
Lemma response_capped pieces l : pieces ≠ [] →
  response_line pieces = Ok l ↔ len (mjoin pieces) < RESPONSE_BYTES ∧ l = mjoin pieces ++ [NEWLINE].
Proof.
  intros Hne. unfold response_line. rewrite capped_all by done. change (len (@nil byte)) with 0.
  destruct (Z.leb_spec RESPONSE_BYTES (0 + len (mjoin pieces))); cbn [mbind result_bind].
  - split; [intros Hx; discriminate Hx|lia].
  - split; [intros [= <-]; split; [lia|done]|]. by intros [_ ->].
Qed.

(** ** Admission *)

Inductive admission_step : Mutations → Mutations → Prop :=
| ad_admit id m : admission_step m (admit_mutation id m).2
| ad_finish m : is_Some m.(running) → admission_step m (finish m)
| ad_stop id m : admission_step m (stop_waiting id m).

(** Mutations run one at a time and the queue is bounded. In every state
    of the admission at most eight requests wait and none waits while no
    mutation runs; a request is refused exactly when one runs and eight wait,
    runs at once exactly when none does, and the end of a mutation hands over
    to the request that waited longest. *)
Theorem admission_serial m : rtc admission_step mutations_default m →
  (length m.(waiting) ≤ PENDING)%nat ∧ (m.(running) = None → m.(waiting) = []) ∧
  (∀ id, ((admit_mutation id m).1 = Refused ↔ is_Some m.(running) ∧ length m.(waiting) = PENDING) ∧
         ((admit_mutation id m).1 = Running ↔ m.(running) = None)) ∧
  (finish m).(running) = head m.(waiting) ∧ (finish m).(waiting) = tail m.(waiting).
Proof.
  intros Hr. assert ((length m.(waiting) ≤ PENDING)%nat ∧ (m.(running) = None → m.(waiting) = [])) as [Hl Hi].
  { pattern m. revert m Hr. apply rtc_ind_r; [by split; [cbn; lia|]|]. intros x y _ Hs [IHl IHi]. destruct Hs as [id x|x Hx|id x].
    - unfold admit_mutation. destruct (running x) eqn:Hx; [|rewrite (IHi eq_refl); by split; [cbn; lia|]]. destruct (Nat.ltb_spec (length (waiting x)) PENDING); cbn [snd waiting running];
        [rewrite length_app; split; [cbn [length]; lia|done]|split; [done|congruence]].
    - unfold finish. destruct (waiting x); cbn [waiting running length] in *; split; try done; lia.
    - cbn. split; [etransitivity; [apply length_filter|done]|]. intros E. by rewrite IHi. }
  split; [done|]. split; [done|]. split.
  - intros id. unfold admit_mutation. destruct (running m) as [r|]; cbn [fst].
    + assert (is_Some (Some r)) by eauto.
      destruct (Nat.ltb_spec (length (waiting m)) PENDING); cbn [fst]; split; split; try done; [intros [_ ?]; lia|].
      intros _. split; [done|lia].
    + split; split; try done. by intros [[? ?] _].
  - unfold finish. by destruct (waiting m).
Qed.

End ControlLimitsSpec.

Module ControlLimitsDemo.
Import State ControlLimits ControlLimitsSpec.

(** A line in two reads, and the beginning of the next. *)
Definition demo_reads : list (list byte) := [lit "sta"; lit "tus" ++ [NEWLINE] ++ lit "x"].

Lemma read_request_exact_witness : (read_request demo_reads).1 = Ok (Some (lit "status" ++ [NEWLINE])).
Proof. apply (read_request_exact demo_reads). repeat constructor; done. Defined.

Definition demo_tree (l : list byte) : option Json :=
  Some (JObj [(lit "id", JStr (lit "1")); (lit "cmd", JStr (lit "service.show"));
              (lit "args", JObj [(lit "name", JStr (lit "web"))])]).
Definition demo_request : ControlRequest :=
  mkRequest (lit "1") (lit "service.show") (JObj [(lit "name", JStr (lit "web"))]).

Lemma parse_bounds_witness : len (rq_cmd demo_request) ≤ 64.
Proof. apply (parse_bounds demo_tree (lit "{}") demo_request). vm_compute. reflexivity. Defined.

Lemma admission_serial_witness : (admit_mutation 2 (admit_mutation 1 mutations_default).2).1 = Waiting ∧
  (finish (admit_mutation 1 mutations_default).2).(running) = None.
Proof.
  split; [reflexivity|]. apply (admission_serial (admit_mutation 1 mutations_default).2). apply rtc_once. constructor.
Defined.

End ControlLimitsDemo.
