(* ===== verification/AutoSync.v ===== *)
(** * Automatic sync ([werewolfd/src/auto_sync.rs], [control/auto_sync.rs])

    [Module AutoSync]: the conditions under which a node syncs by itself, the
    delays, what an operator command does to a run, and the scheduler as a
    step relation: its task, the operator and the network act in any order
    between its awaits. Times are milliseconds; a random word is an argument
    of the delay it is drawn for. The switch itself is [l_auto_sync] of the
    daemon's state. The laboratory delays of a test build are left out.

    [Module AutoSyncSpec]: what the scheduler guarantees of a run. *)

From stdpp Require Import gmap.
From S2P Require Export State.
From S2P Require Export NodeGovernance.

Local Open Scope Z_scope.

Module AutoSync.
Import State.

Inductive Phase : Type := Ineligible | Waiting | Resolving | Applying.
#[export] Instance phase_eq_dec : EqDecision Phase.
Proof. solve_decision. Defined.

Definition phase_name (p : Phase) : str :=
  match p with
  | Ineligible => lit "ineligible"
  | Waiting => lit "waiting"
  | Resolving => lit "resolving"
  | Applying => lit "applying"
  end.

Record LastRun : Type := mkLastRun {
  lr_started : Z;
  lr_outcome : str;
  lr_applied : Json;
  lr_peers : Json;
  lr_stopped : option str
}.

Record Runtime : Type := mkRuntime {
  phase : Phase;
  next_due : option Z;
  last_run : option LastRun;
  (** The network task of a resolving run. *)
  resolving : option nat;
  cancelled : bool
}.
Definition runtime_default : Runtime := mkRuntime Ineligible None None None false.

(** [preempt]: whether a run was cancelled, and the task that is aborted. *)
Definition preempt (r : Runtime) : bool * option nat * Runtime :=
  if bool_decide (r.(phase) = Resolving)
  then (true, r.(resolving), mkRuntime r.(phase) r.(next_due) r.(last_run) None true)
  else (false, None, r).

Section eligibility.
Context `{Crypto} `{Base64}.

Definition ineligible_reason (s : DaemonState) : option str :=
  if bool_decide (s.(l_pelt) = None) then Some (lit "no_pelt")
  else if negb s.(l_status).(pelt_ready) then Some (lit "not_ready")
  else match s.(l_governance) with
  | None => Some (lit "no_genesis")
  | Some head =>
      if bool_decide (head.(Gov.activated_at) = None) then Some (lit "not_activated")
      else if bool_decide (is_Some head.(Gov.dead_at)) then Some (lit "dead")
      else if head.(Gov.forked) then Some (lit "forked")
      else if NodeGovernance.unadmitted s.(l_governance) s.(l_pelt) then Some (lit "unadmitted")
      else if negb s.(l_auto_sync) then Some (lit "switched_off")
      else if match s.(l_status).(mode) with Silver => true | _ => false end then Some (lit "silver")
      else if s.(l_dying) then Some (lit "dying")
      else if s.(l_degraded) then Some (lit "storage_degraded")
      else None
  end.
Definition eligible (s : DaemonState) : bool := bool_decide (ineligible_reason s = None).

(** [u64] arithmetic: both bounds and the span are small. *)
Definition uniform (low_ms high_ms random : Z) : Z := low_ms + random mod (high_ms - low_ms + 1).
Definition first_delay (random : Z) : Z := uniform 5000 30000 random.
Definition interval (random : Z) : Z := uniform 450000 1350000 random.

(** [status]; [saturating_duration_since] is never negative. *)
Definition since (a b : Z) : Z := Z.max 0 (a - b).
Definition opt_json {A} (f : A → Json) (o : option A) : Json := match o with Some a => f a | None => JNull end.
Definition status (s : DaemonState) (r : Runtime) (now : Z) : Json :=
  let reason := ineligible_reason s in
  let due := if bool_decide (r.(phase) = Waiting) then r.(next_due) else None in
  JObj [(lit "enabled", JBool s.(l_auto_sync)); (lit "eligible", JBool (bool_decide (reason = None)));
    (lit "ineligible_reason", opt_json JStr reason); (lit "phase", JStr (phase_name r.(phase)));
    (lit "next_due_in_secs", opt_json (λ d, JNum (since d now / 1000)) due);
    (lit "last_run", opt_json (λ run, JObj ([(lit "started_secs_ago", JNum (since now run.(lr_started) / 1000));
       (lit "outcome", JStr run.(lr_outcome)); (lit "applied", run.(lr_applied)); (lit "peers", run.(lr_peers))]
       ++ match run.(lr_stopped) with Some code => [(lit "stopped", JStr code)] | None => [] end)) r.(last_run))].

(** ** The scheduler *)

Definition last (started : Z) (outcome : str) (peers : Json) : LastRun := mkLastRun started outcome (JArr []) peers None.
Definition stopped_run (started : Z) (peers : Json) (code : str) : LastRun :=
  mkLastRun started (lit "stopped") (JArr []) peers (Some code).

(** [outcome]: the reply of [governance.sync_apply]. *)
Definition outcome (started : Z) (peers : Json) (response : ControlResponse) : LastRun :=
  match response.(rs_result) with
  | None => mkLastRun started (lit "stopped") (JArr []) peers (ce_code <$> response.(rs_error))
  | Some result =>
      match as_str (j_get (j_get result (lit "stopped")) (lit "code")) with
      | Some code => mkLastRun started (if bool_decide (code = lit "GOVERNANCE_FORK") then lit "fork" else lit "stopped")
                       (j_get result (lit "applied")) peers (Some code)
      | None => mkLastRun started (lit "applied") (j_get result (lit "applied")) peers None
      end
  end.

(** How the network phase ended: the task was aborted, refused with a code,
    or has a request to apply. *)
Inductive Joined : Type := Aborted | RefusedWith (code : str) | Resolved (apply : ControlRequest).

Definition nothing_to_apply (apply : ControlRequest) : bool :=
  match as_array (j_get apply.(rq_args) (lit "statements")) with None | Some [] => true | Some _ => false end
  && match j_get apply.(rq_args) (lit "conflict") with JNull => true | _ => false end.

(** Where the task is. *)
Inductive Point : Type :=
| Evaluate
| Asleep (due : option Z)
| Running (started : Z)
| Admitting (started : Z) (apply : ControlRequest)
| Submitted (started : Z) (peers : Json)
| Done (run : LastRun).

Record Sched : Type := mkSched {
  sc_state : DaemonState;
  sc_runtime : Runtime;
  sc_was_eligible : bool;
  sc_point : Point
}.

Definition evaluate (now random : Z) (x : Sched) : Sched :=
  let ok := eligible x.(sc_state) in
  let r := x.(sc_runtime) in
  let r' := if negb ok then mkRuntime Ineligible None r.(last_run) r.(resolving) r.(cancelled)
            else if negb x.(sc_was_eligible)
            then mkRuntime Waiting (Some (now + first_delay random)) r.(last_run) r.(resolving) r.(cancelled)
            else r in
  mkSched x.(sc_state) r' ok (Asleep r'.(next_due)).

(** The timer fired: a run starts unless the node became ineligible. *)
Definition fire (now : Z) (task : nat) (x : Sched) : Sched :=
  let r := x.(sc_runtime) in
  if eligible x.(sc_state)
  then mkSched x.(sc_state) (mkRuntime Resolving r.(next_due) r.(last_run) (Some task) false) x.(sc_was_eligible) (Running now)
  else mkSched x.(sc_state) r x.(sc_was_eligible) Evaluate.

(** A mutation during a run: an ineligible node cancels it. *)
Definition poked (x : Sched) : Sched :=
  if eligible x.(sc_state) then x
  else mkSched x.(sc_state) (preempt x.(sc_runtime)).2 x.(sc_was_eligible) x.(sc_point).

Definition join_run (started : Z) (j : Joined) (x : Sched) : Sched :=
  let r := x.(sc_runtime) in
  let r1 := mkRuntime r.(phase) r.(next_due) r.(last_run) None false in
  let ends run := mkSched x.(sc_state) r1 x.(sc_was_eligible) (Done run) in
  if r.(cancelled) then ends (last started (lit "cancelled") (JArr []))
  else match j with
  | Aborted => ends (last started (lit "cancelled") (JArr []))
  | RefusedWith code =>
      ends (if bool_decide (code = lit "DISCOVER_BUSY") then last started (lit "skipped_busy") (JArr [])
            else stopped_run started (JArr []) code)
  | Resolved apply =>
      if nothing_to_apply apply then ends (last started (lit "nothing_new") (j_get apply.(rq_args) (lit "peers")))
      else mkSched x.(sc_state) (mkRuntime Applying r1.(next_due) r1.(last_run) r1.(resolving) r1.(cancelled))
             x.(sc_was_eligible) (Admitting started apply)
  end.

Definition complete (now random : Z) (run : LastRun) (x : Sched) : Sched :=
  mkSched x.(sc_state) (mkRuntime Waiting (Some (now + interval random)) (Some run) None false) x.(sc_was_eligible) Evaluate.

(** The steps of the scheduler, of the daemon ([st_daemon]: anything outside
    the scheduler changes the state and, when it is a mutation, pokes) and
    of the operator ([st_preempt]). The label is the request submitted. *)
Inductive sched_step : Sched → option ControlRequest → Sched → Prop :=
| st_evaluate now random x : x.(sc_point) = Evaluate → sched_step x None (evaluate now random x)
| st_wake due x : x.(sc_point) = Asleep due →
    sched_step x None (mkSched x.(sc_state) x.(sc_runtime) x.(sc_was_eligible) Evaluate)
| st_fire now due task x : x.(sc_point) = Asleep (Some due) → due ≤ now → sched_step x None (fire now task x)
| st_poked started x : x.(sc_point) = Running started → sched_step x None (poked x)
| st_joined started j x : x.(sc_point) = Running started → sched_step x None (join_run started j x)
| st_refused started apply x : x.(sc_point) = Admitting started apply →
    sched_step x None (mkSched x.(sc_state) x.(sc_runtime) x.(sc_was_eligible)
      (Done (stopped_run started (j_get apply.(rq_args) (lit "peers")) (lit "CONTROL_BUSY"))))
| st_submit started apply x : x.(sc_point) = Admitting started apply →
    sched_step x (Some apply) (mkSched x.(sc_state) x.(sc_runtime) x.(sc_was_eligible)
      (Submitted started (j_get apply.(rq_args) (lit "peers"))))
| st_response started peers response x : x.(sc_point) = Submitted started peers →
    sched_step x None (mkSched x.(sc_state) x.(sc_runtime) x.(sc_was_eligible) (Done (outcome started peers response)))
| st_no_response started peers x : x.(sc_point) = Submitted started peers →
    sched_step x None (mkSched x.(sc_state) x.(sc_runtime) x.(sc_was_eligible)
      (Done (stopped_run started peers (lit "CANCELLED"))))
| st_complete now random run x : x.(sc_point) = Done run → sched_step x None (complete now random run x)
| st_preempt x : sched_step x None (mkSched x.(sc_state) (preempt x.(sc_runtime)).2 x.(sc_was_eligible) x.(sc_point))
| st_daemon s x : sched_step x None (mkSched s x.(sc_runtime) x.(sc_was_eligible) x.(sc_point)).

Definition sched_start (s : DaemonState) : Sched := mkSched s runtime_default false Evaluate.

End eligibility.
End AutoSync.

Module AutoSyncSpec.
Import State AutoSync.

Section scheduler.
Context `{Crypto} `{Base64}.

(** The runtime record at each point of the task. *)
Definition sched_inv (x : Sched) : Prop :=
  match x.(sc_point) with
  | Evaluate | Asleep _ => x.(sc_runtime).(phase) ≠ Resolving ∧ x.(sc_runtime).(cancelled) = false
  | Running _ => x.(sc_runtime).(phase) = Resolving
  | Admitting _ apply => x.(sc_runtime).(phase) = Applying ∧ nothing_to_apply apply = false
  | Submitted _ _ => x.(sc_runtime).(phase) = Applying
  | Done _ => True
  end.

Definition sched_steps (x y : Sched) : Prop := rtc (λ x y, ∃ l, sched_step x l y) x y.

Lemma preempt_other r : r.(phase) ≠ Resolving → preempt r = (false, None, r).
Proof. intros Hp. unfold preempt. by rewrite bool_decide_eq_false_2. Qed.

Lemma preempt_phase r : (preempt r).2.(phase) = r.(phase).
Proof. unfold preempt. by case_bool_decide. Qed.

Lemma sched_inv_preempt x :
  sched_inv x → sched_inv (mkSched x.(sc_state) (preempt x.(sc_runtime)).2 x.(sc_was_eligible) x.(sc_point)).
Proof.
  unfold sched_inv. destruct x as [s r e p]; cbn [sc_point sc_runtime]. destruct p; intros Hi.
  1,2: destruct Hi as [Hp Hc]; by rewrite preempt_other.
  - by rewrite preempt_phase.
  - by rewrite preempt_phase.
  - by rewrite preempt_phase.
  - done.
Qed.

Lemma sched_inv_step x l y : sched_inv x → sched_step x l y → sched_inv y.
Proof.
  intros Hi Hs. destruct Hs as [now rnd x Hp|due x Hp|now due task x Hp Hd|started x Hp|started j x Hp
    |started ap x Hp|started ap x Hp|started peers resp x Hp|started peers x Hp|now rnd run x Hp|x|s x];
    unfold sched_inv in Hi; try rewrite Hp in Hi.
  - unfold sched_inv, evaluate. cbn. destruct Hi as [Hph Hc]. destruct (eligible _); cbn; [|done].
    by destruct (sc_was_eligible x).
  - unfold sched_inv. by cbn.
  - unfold sched_inv, fire. destruct (eligible _); cbn; [done|exact Hi].
  - unfold poked. destruct (eligible _); [by unfold sched_inv; rewrite Hp|].
    apply sched_inv_preempt. unfold sched_inv. by rewrite Hp.
  - unfold sched_inv, join_run. destruct (cancelled _); [done|]. destruct j as [|code|ap]; [done|done|].
    destruct (nothing_to_apply ap) eqn:Hn; [done|]. by cbn.
  - done.
  - unfold sched_inv. cbn. by destruct Hi.
  - done.
  - done.
  - done.
  - by apply sched_inv_preempt.
  - unfold sched_inv. cbn. exact Hi.
Qed.

Lemma sched_reachable s x : sched_steps (sched_start s) x → sched_inv x.
Proof.
  intros Hr. pattern x. revert x Hr. apply rtc_ind_r; [done|].
  intros x y _ [l Hs] Hi. by eapply sched_inv_step.
Qed.

Lemma uniform_range low high random : low ≤ high → low ≤ uniform low high random ≤ high.
Proof. intros Hl. unfold uniform. pose proof (Z.mod_pos_bound random (high - low + 1)). lia. Qed.

(** An automatic sync runs only when it may and yields to the operator.
    In every reachable state of the scheduler, whatever the node, the
    network and the operator do: a run begins only on an eligible node (its
    Pelt ready, its network activated, alive, not forked and admitting it,
    the switch on, no Silver, not dying, storage sound); a run that was
    cancelled submits nothing and ends as cancelled; what is submitted has
    something to apply, and from then on an operator's preemption leaves the
    run alone; and after a run the next one is due no sooner than seven and
    a half minutes and no later than 22.5 minutes after its end. *)
Theorem sync_run_guarded s x l y :
  sched_steps (sched_start s) x → sched_step x l y →
  (∀ started, y.(sc_point) = Running started → x.(sc_point) ≠ Running started →
     ineligible_reason y.(sc_state) = None ∧ y.(sc_runtime).(cancelled) = false) ∧
  (∀ started, x.(sc_point) = Running started → x.(sc_runtime).(cancelled) = true →
     l = None ∧ (y.(sc_point) = Running started ∧ y.(sc_runtime).(cancelled) = true ∨
                 y.(sc_point) = Done (last started (lit "cancelled") (JArr [])))) ∧
  (∀ apply, l = Some apply → nothing_to_apply apply = false ∧
     preempt x.(sc_runtime) = (false, None, x.(sc_runtime)) ∧ preempt y.(sc_runtime) = (false, None, y.(sc_runtime))) ∧
  (∀ now random run, y = complete now random run x →
     ∃ due, y.(sc_runtime).(next_due) = Some due ∧ now + 450000 ≤ due ≤ now + 1350000).
Proof.
  intros Hr%sched_reachable Hs. split_and!.
  - intros started Hy Hx. destruct Hs as [now rnd x Hp|due x Hp|now due task x Hp Hd|st x Hp|st j x Hp
      |st ap x Hp|st ap x Hp|st peers resp x Hp|st peers x Hp|now rnd run x Hp|x|s' x]; try done.
    + unfold fire, eligible in *. case_bool_decide as He; [|done]. by cbn.
    + unfold poked in Hy. destruct (eligible _); cbn in Hy; by rewrite Hy in Hx.
    + unfold join_run in Hy. destruct (cancelled _); [done|]. destruct j as [| |ap]; [done|done|].
      by destruct (nothing_to_apply ap).
  - intros started Hx Hc. destruct Hs as [now rnd x Hp|due x Hp|now due task x Hp Hd|st x Hp|st j x Hp
      |st ap x Hp|st ap x Hp|st peers resp x Hp|st peers x Hp|now rnd run x Hp|x|s' x]; try congruence; (split; [done|]).
    + left. unfold poked, preempt. destruct (eligible _); [done|]. cbn. rewrite Hx. by case_bool_decide.
    + right. unfold join_run. rewrite Hc. rewrite Hx in Hp. by injection Hp as ->.
    + left. cbn. split; [done|]. unfold preempt. by case_bool_decide.
    + by left.
  - intros apply ->. inversion Hs as [| | | | | |started ap x0 Hp| | | | |]; subst. unfold sched_inv in Hr.
    rewrite Hp in Hr. destruct Hr as [Hph Hn]. split; [done|]. cbn. rewrite preempt_other by congruence. done.
  - intros now random run ->. exists (now + interval random). split; [done|].
    pose proof (uniform_range 450000 1350000 random ltac:(lia)). unfold interval. lia.
Qed.

End scheduler.
End AutoSyncSpec.
