(* ===== verification/OpenFang.v ===== *)
(** * Opening a Fang ([werewolfd/src/main.rs], [transport/relay.rs],
      [transport/failover.rs])

    [Module OpenFang]: the gates of an open, the resolution of a route and of
    the providers of a service against the Pack, the name of a Fang, and its
    publication in the registry. The listener's sockets are not modelled:
    what a listener reports before it is ready is an argument of the open, as
    are the clock and the random bytes. The arm QUIC_FANG_FAILED has no case:
    [open_quic_fang] spawns its listener and returns [Ok] on every path. What
    an open guarantees is in ControlSpec. *)

From stdpp Require Import gmap.
From S2P Require Export Mutation.

Local Open Scope Z_scope.

Module OpenFang.
Import LocalFs State Pelt Mutation Policy.
Import StateValidation (PeerRecord, pr_name, pr_fingerprint, pr_address, pr_public_key_b64).

Record ExpectedPeerIdentity : Type := mkExpected {
  ex_fingerprint : str;
  ex_public_key_b64 : option str
}.
Definition expected_of (p : PeerRecord) : ExpectedPeerIdentity := mkExpected (pr_fingerprint p) (pr_public_key_b64 p).

(** ** Routes *)

Record Routed : Type := mkRouted {
  rt_via : str;
  rt_hop : Route.RouteHop;
  relay_address : str;
  rt_relay : ExpectedPeerIdentity;
  destination : SocketAddr
}.

Definition describe (r : Routed) : str :=
  lit "tcp via " ++ r.(rt_via) ++ lit " (" ++ Route.as_str r.(rt_hop) ++ lit ")".

(** An error: its code and its message. *)
Notation refusal := (str * str)%type.

Definition relay_resolve (route : Route.Route) (dest : PeerRecord) (peers : list PeerRecord) (requested : str)
    : result refusal Routed :=
  if is_plain_tcp requested
  then Err (lit "FANG_ROUTE_INVALID", lit "plain TCP is never carried through a relay")
  else
    relay ← ok_or (snd <$> list_find (λ p, pr_name p = route.(Route.via)) peers)
              (lit "FANG_ROUTE_INVALID", lit "relay " ++ route.(Route.via) ++ lit " is not a Pack member");
    relay_address ← match select_peer_transport (Route.as_str route.(Route.hop)) (pr_address relay) with
                    | Ok (Quic a) | Ok (Tcp a) => Ok a
                    | Err _ => Err (lit "FANG_ROUTE_INVALID", lit "relay " ++ route.(Route.via) ++ lit " has no usable "
                                    ++ Route.as_str route.(Route.hop) ++ lit " address")
                    end;
    dst ← ok_or (match select_peer_transport (lit "tcp") (pr_address dest) with
                 | Ok (Tcp a) => parse_socket_addr a
                 | _ => None
                 end) (lit "FANG_BAD_TCP_ADDRESS", lit "a routed peer needs a literal tcp:// IP:port address");
    Ok (mkRouted route.(Route.via) route.(Route.hop) relay_address (expected_of relay) dst).

(** ** Providers *)

Inductive Path : Type :=
| PQuic (address : SocketAddr)
| PTcp (address : str)
| PRouted (routed : Routed).

Record Provider : Type := mkProvider {
  pv_peer : str;
  pv_remote : str;
  pv_expected : ExpectedPeerIdentity;
  pv_path : Path
}.

Definition provider_uses (p : Provider) : list str :=
  match p.(pv_path) with PRouted r => [p.(pv_peer); r.(rt_via)] | _ => [p.(pv_peer)] end.

Definition resolve_provider (peers : list PeerRecord) (routes : list Route.Route) (requested : str)
    (x : str * str) : result refusal Provider :=
  let '(peer, remote) := x in
  record ← ok_or (snd <$> list_find (λ p, pr_name p = peer) peers)
             (lit "FANG_UNKNOWN_PEER", lit "Unknown peer: " ++ peer);
  path ← match snd <$> list_find (λ r, r.(Route.r_peer) = peer) routes with
         | Some route => r ← relay_resolve route record peers requested; Ok (PRouted r)
         | None =>
             match select_peer_transport requested (pr_address record) with
             | Ok (Quic a) => addr ← ok_or (parse_socket_addr a)
                                       (lit "FANG_BAD_QUIC_ADDRESS", peer ++ lit ": QUIC address invalid");
                              Ok (PQuic addr)
             | Ok (Tcp a) => Ok (PTcp a)
             | Err _ => Err (lit "FANG_BAD_ADDRESS", peer ++ lit " has no usable " ++ requested ++ lit " address")
             end
         end;
  Ok (mkProvider peer remote (expected_of record) path).

Definition failover_resolve (service : Service.ServiceDefinition) (peers : list PeerRecord)
    (routes : list Route.Route) (requested : str) : result refusal (list Provider) :=
  if is_plain_tcp requested then Err (lit "FANG_INVALID", lit "plain TCP is not used with service fallbacks")
  else try_map (resolve_provider peers routes requested) (Service.providers service).

(** ** The name of a Fang *)

(** What the environment decides for one open: the clock, the random bytes,
    the child tracker of the new Fang, what the listener reports, and whether
    it still waits when it is released. *)
Inductive Ready : Type := Listening | ListenerFailed (message : str) | ListenerGone.
Record Opening : Type := mkOpening {
  o_nanos : Z;
  o_random : array 16;
  o_instant : Z;
  o_tracker : nat;
  o_ready : Ready;
  o_released : bool
}.

Section open.
Context `{Crypto} `{Base64} `{MutationJson} `{Serde Tombstone.Document} `{DenWipe D}.

(** [{:02x?}] of an array. *)
Definition debug_hex (bs : list byte) : str := [x5b] ++ join (lit ", ") (hex02 false <$> bs) ++ [x5d].

Definition generate_fang_id (o : Opening) (peer local remote : str) (existing_count : nat) : str :=
  let seed := join (lit "|") [show 10 o.(o_nanos); show 10 (Z.of_nat existing_count); peer; local; remote;
                              debug_hex (array_bytes o.(o_random))] in
  lit "fang_" ++ take 16 (hex (array_bytes (blake3 seed))).

(** ** Publication *)

(** [tokio::spawn] of the listener. *)
Definition spawn_listener (w : World D) : nat * World D :=
  let r := w.(live).(l_runtime) in
  (r.(Fangs.next_task),
   on_live (set_runtime (Fangs.mkRuntime (<[r.(Fangs.next_task) := Fangs.Running]> r.(Fangs.status))
     r.(Fangs.trackers) r.(Fangs.owner) (S r.(Fangs.next_task)))) w).

Definition abort_listener (t : nat) (w : World D) : World D :=
  on_live (λ s, set_runtime (Fangs.abort t s.(l_runtime)) s) w.

(** The listener is spawned and reports; one that fails is aborted. *)
Definition listen (id : str) (o : Opening) : hm D nat :=
  handle ← run spawn_listener;
  match o.(o_ready) with
  | Listening => mret handle
  | ListenerFailed message =>
      _ ← run (λ w, ((), abort_listener handle w));
      leave (response_err id (lit "FANG_LISTENER_FAILED") message)
  | ListenerGone =>
      _ ← run (λ w, ((), abort_listener handle w));
      leave (response_err id (lit "FANG_LISTENER_FAILED") (lit "Fang listener stopped before becoming ready"))
  end.

(** The record and its entries, under one lock. *)
Definition publish_fang (o : Opening) (fang : Fangs.FangRecord) (handle : nat) (transport : str) (uses : list str)
    (s : DaemonState) : DaemonState :=
  let id := fang.(Fangs.f_id) in
  let g := Fangs.insert_started id o.(o_instant) transport uses
             (Fangs.insert_cancellation id o.(o_tracker)
               (Fangs.insert_task id handle (Fangs.push fang s.(l_registry)))) in
  set_mode Wolf (set_active_fangs (Fangs.len g) (set_registry g s)).

Definition release (id : str) (o : Opening) : hm D () :=
  if o.(o_released) then mret ()
  else
    _ ← upd (set_degraded true);
    leave (response_err id (lit "STORAGE_DEGRADED") (lit "activation publication failed")).

Definition persist_activation (activation : option str) (w : World D) : result IoError () * World D :=
  match activation with
  | None => (Ok (), w)
  | Some name =>
      let active := w.(live).(l_active) in
      persist_active (if bool_decide (name ∈ active) then active else active ++ [name]) w
  end.

(** ** The gates every open passes first *)

Definition open_gates (id : str) : hm D () :=
  s ← get (D := D) (E := ControlResponse) (λ s, s);
  _ ← leave_if match s.(l_status).(mode) with Silver => true | _ => false end
        (response_err id (lit "SILVER_ACTIVE") (lit "Silver mode is active. Fang open rejected."));
  leave_if (NodeGovernance.unadmitted s.(l_governance) s.(l_pelt))
    (response_err id (lit "GOVERNANCE_UNADMITTED") (lit "this node is not admitted to its activated network")).

Definition local_free (id local : str) : hm D () :=
  busy ← get (D := D) (E := ControlResponse) (λ s, Fangs.has_active_local s.(l_registry) local);
  leave_if busy (response_err id (lit "FANG_ALREADY_ACTIVE") (lit "Fang already active on local address: " ++ local)).

(** The open of a Fang that is ready: persisted as active if it is one of a
    profile, then published and released. *)
Definition activate (id : str) (o : Opening) (activation : option str) (handle : nat) (fang : Fangs.FangRecord)
    (transport : str) (uses : list str) : hm D () :=
  saved ← run (persist_activation activation);
  _ ← match saved with
      | Ok _ => mret ()
      | Err _ =>
          _ ← run (λ w, ((), abort_listener handle w));
          leave (response_err id (lit "ACTIVE_SAVE_FAILED") (lit "activation rejected"))
      end;
  _ ← upd (publish_fang o fang handle transport uses);
  release id o.

Definition open_fang_with_profile (o : Opening) (id peer local remote transport : str) (activation : option str)
    : hm D ControlResponse :=
  _ ← open_gates id;
  _ ← leave_if (bool_decide (peer = []) || bool_decide (local = []) || bool_decide (remote = []))
        (response_err id (lit "FANG_INVALID") (lit "peer, local and remote are required"));
  _ ← local_free id local;
  s ← get (λ s, s);
  record ← or_leave (snd <$> list_find (λ p, pr_name p = peer) s.(l_peers))
             (response_err id (lit "FANG_UNKNOWN_PEER") (lit "Unknown peer: " ++ peer));
  _ ← or_leave s.(l_pelt) (response_err id (lit "NO_PELT") (lit "No local Pelt identity exists"));
  routed ← match snd <$> list_find (λ r, r.(Route.r_peer) = peer) s.(l_routes) with
           | None => mret None
           | Some route =>
               match relay_resolve route record s.(l_peers) transport with
               | Ok r => mret (Some r)
               | Err (code, message) => leave (response_err id code message)
               end
           end;
  let fang_id := generate_fang_id o peer local remote (Fangs.len s.(l_registry)) in
  let fang := Fangs.mkFangRecord fang_id peer local remote Fangs.Active in
  let shown (t : str) (rest : list (str * Json)) := response_ok id (JObj ([(lit "fang_id", JStr fang_id);
    (lit "peer", JStr peer); (lit "local", JStr local); (lit "remote", JStr remote); (lit "state", JStr (lit "active"));
    (lit "transport", JStr t)] ++ rest)) in
  match routed, select_peer_transport transport (pr_address record) with
  | None, Ok (Quic a) =>
      handle ← listen id o;
      _ ← activate id o activation handle fang (lit "quic") [];
      mret (shown (lit "quic") [(lit "quic_server", JStr a)])
  | None, Err BadTcpAddress => leave (response_err id (lit "FANG_BAD_TCP_ADDRESS") (lit "Peer TCP address invalid"))
  | None, Err BadQuicAddress => leave (response_err id (lit "FANG_BAD_QUIC_ADDRESS") (lit "Peer QUIC address invalid"))
  | None, Ok (Tcp a) =>
      handle ← listen id o;
      _ ← activate id o activation handle fang transport [];
      mret (shown transport [(lit "peer_addr", JStr a); (lit "via", JNull)])
  | Some r, _ =>
      handle ← listen id o;
      _ ← activate id o activation handle fang (describe r) [r.(rt_via)];
      mret (shown (describe r) [(lit "peer_addr", JStr (show_socket_addr r.(destination))); (lit "via", JStr r.(rt_via))])
  end.

Definition open_fang_from_parts (o : Opening) (id peer local remote transport : str) : hm D ControlResponse :=
  open_fang_with_profile o id peer local remote transport None.

Definition open_provider_fang (o : Opening) (id : str) (service : Service.ServiceDefinition) (local transport : str)
    : hm D ControlResponse :=
  _ ← open_gates id;
  _ ← leave_if (bool_decide (local = [])) (response_err id (lit "FANG_INVALID") (lit "local is required"));
  _ ← local_free id local;
  s ← get (λ s, s);
  _ ← or_leave s.(l_pelt) (response_err id (lit "NO_PELT") (lit "No local Pelt identity exists"));
  providers ← match failover_resolve service s.(l_peers) s.(l_routes) transport with
              | Ok l => mret l
              | Err (code, message) => leave (response_err id code message)
              end;
  let also_uses := mjoin (provider_uses <$> providers) in
  let order := pv_peer <$> providers in
  let fang_id := generate_fang_id o service.(Service.sd_peer) local service.(Service.sd_target) (Fangs.len s.(l_registry)) in
  let fang := Fangs.mkFangRecord fang_id service.(Service.sd_peer) local service.(Service.sd_target) Fangs.Active in
  let shown := lit "providers: " ++ join (lit ", ") order in
  handle ← listen id o;
  _ ← activate id o None handle fang shown also_uses;
  mret (response_ok id (JObj [(lit "fang_id", JStr fang_id); (lit "service", JStr service.(Service.sd_name));
    (lit "local", JStr local); (lit "state", JStr (lit "active")); (lit "transport", JStr shown);
    (lit "providers", JArr (JStr <$> order))])).

End open.
End OpenFang.
