(* ===== verification/Frames.v ===== *)
(** * The frames of an encrypted TCP session
      ([werewolfd/src/transport/tcp_encrypted.rs])

    [Module Frames]: the nonce, the padded and sealed frame of a chunk and
    the reader of one frame. [Module FramesSpec]: what is written is read
    back, what an attacker can make a reader deliver, and what the size of a
    frame tells. The copying loops over these frames are in SessionEnd.

    ChaCha20-Poly1305 is a parameter ([Aead]), and so is the random word of a
    frame. A reader is what will still come and whether it ends without TLS
    [close_notify]; how the bytes arrive does not matter to [read_exact]. *)

From stdpp Require Import gmap.
From S2P Require Export Crypto.

Local Open Scope Z_scope.

(** ** ChaCha20-Poly1305 *)

Class Aead : Type := {
  seal : array 32 → array 12 → list byte → option (list byte);
  unseal : array 32 → array 12 → list byte → option (list byte)
}.

(** A message that is not of many gigabytes is sealed, into its bytes and a
    tag of 16; and only what the cipher makes of a text opens as it. *)
Class AeadLaws `{Aead} : Prop := {
  seal_some k n p : Z.of_nat (length p) < 2 ^ 32 → is_Some (seal k n p);
  seal_length k n p c : seal k n p = Some c → length c = (length p + 16)%nat;
  unseal_seal k n p c : unseal k n c = Some p ↔ seal k n p = Some c
}.

Module Frames.

Notation len l := (Z.of_nat (length l)).

Definition MIN_FRAME_SIZE : Z := 768.
Definition MAX_FRAME_SIZE : Z := 2048.
Definition STEP : Z := 128.
Definition MAX_CIPHERTEXT : Z := 4096.

Inductive FrameError : Type :=
| ExceedsHideLimit | EncryptFailed | FrameTooLarge | DecryptFailed | BadFrame | BadPlaintextLength
| EndOfFile.

Program Definition make_nonce (direction : byte) (counter : Z) : array 12 :=
  Array (direction :: replicate 3 x00 ++ be_bytes 8 counter) _.
Next Obligation. intros. cbn [length app]. by rewrite length_app, length_replicate, length_be_bytes. Qed.

(** The length of the padded text; [random] is one [OsRng.next_u32]. *)
Definition frame_size (plaintext : list byte) (random : Z) : Z :=
  let min_bucket := Z.max (len plaintext + 2) MIN_FRAME_SIZE in
  let buckets := (MAX_FRAME_SIZE - min_bucket) / STEP + 1 in
  let random_bucket := if 1 <? buckets then random mod buckets else 0 in
  min_bucket + random_bucket * STEP.

(** [resize] to a length that is at least the one before. *)
Definition padded (plaintext : list byte) (random : Z) : list byte :=
  be_bytes 2 (len plaintext) ++ plaintext
  ++ replicate (Z.to_nat (frame_size plaintext random) - (2 + length plaintext)) x00.

Definition unpad (text : list byte) : result FrameError (list byte) :=
  if len text <? 2 then Err BadFrame
  else
    let real_len := be_value (take 2 text) in
    if len text - 2 <? real_len then Err BadPlaintextLength
    else Ok (take (Z.to_nat real_len) (drop 2 text)).

Record Reader : Type := mkReader { incoming : list byte; broken : bool }.

Definition read_exact (n : nat) (r : Reader) : result FrameError (list byte * Reader) :=
  if (length r.(incoming) <? n)%nat then Err EndOfFile
  else Ok (take n r.(incoming), mkReader (drop n r.(incoming)) r.(broken)).

Section frames.
Context `{Aead} (key : array 32) (direction : byte).

(** The result, and the counter after it. *)
Definition write_encrypted_frame (counter random : Z) (plaintext : list byte) : result FrameError (list byte) * Z :=
  if MAX_FRAME_SIZE - 2 <? len plaintext then (Err ExceedsHideLimit, counter)
  else
    (match seal key (make_nonce direction counter) (padded plaintext random) with
     | Some ciphertext => Ok (be_bytes 4 (len ciphertext) ++ ciphertext)
     | None => Err EncryptFailed
     end, u64_add counter 1).

(** The length and the ciphertext of the next frame; nothing at a clean end. *)
Definition read_ciphertext (r : Reader) : result FrameError (option (list byte * Reader)) :=
  match r.(incoming) with
  | [] => if r.(broken) then Err EndOfFile else Ok None
  | _ =>
      '(prefix, r1) ← read_exact 4 r;
      if MAX_CIPHERTEXT <? be_value prefix then Err FrameTooLarge
      else x ← read_exact (Z.to_nat (be_value prefix)) r1; Ok (Some x)
  end.

Definition read_frame_or_end (counter : Z) (r : Reader) : result FrameError (option (list byte * Reader)) * Z :=
  match read_ciphertext r with
  | Err e => (Err e, counter)
  | Ok None => (Ok None, counter)
  | Ok (Some (ciphertext, r')) =>
      (text ← ok_or (unseal key (make_nonce direction counter) ciphertext) DecryptFailed;
       plaintext ← unpad text;
       Ok (Some (plaintext, r')), u64_add counter 1)
  end.

(** What a reader delivers of a stream: the chunks before its end or its
    first error. Every frame takes at least one byte. *)
Fixpoint read_all (fuel : nat) (counter : Z) (r : Reader) : list (list byte) * result FrameError () :=
  match fuel with
  | O => ([], Err EndOfFile)
  | S fuel =>
      match read_frame_or_end counter r with
      | (Err e, _) => ([], Err e)
      | (Ok None, _) => ([], Ok ())
      | (Ok (Some (plaintext, r')), counter') =>
          let '(rest, how) := read_all fuel counter' r' in (plaintext :: rest, how)
      end
  end.
Definition read_stream (counter : Z) (r : Reader) : list (list byte) * result FrameError () :=
  read_all (S (length r.(incoming))) counter r.

(** What a writer makes of chunks: each with its random word. *)
Fixpoint write_all (counter : Z) (chunks : list (list byte * Z)) : result FrameError (list byte) * Z :=
  match chunks with
  | [] => (Ok [], counter)
  | (plaintext, random) :: rest =>
      match write_encrypted_frame counter random plaintext with
      | (Err e, counter') => (Err e, counter')
      | (Ok frame, counter') =>
          let '(r, counter'') := write_all counter' rest in ((λ l, frame ++ l) <$> r, counter'')
      end
  end.

End frames.
End Frames.

Module FramesSpec.
Import Frames.

Lemma length_make_nonce d c : array_bytes (make_nonce d c) = d :: replicate 3 x00 ++ be_bytes 8 c.
Proof. done. Qed.

Lemma make_nonce_inj d1 d2 c1 c2 :
  u64_range c1 → u64_range c2 → make_nonce d1 c1 = make_nonce d2 c2 → d1 = d2 ∧ c1 = c2.
Proof.
  intros R1 R2 E. apply (f_equal array_bytes) in E. rewrite !length_make_nonce in E.
  split; [by apply (f_equal head) in E; injection E|]. apply (f_equal (λ l, be_value (drop 4 l))) in E.
  change (be_value (be_bytes 8 c1) = be_value (be_bytes 8 c2)) in E.
  rewrite !be_value_bytes_small in E; [done| |]; unfold u64_range in *; cbn; lia.
Qed.

(** ** Sizes *)

(** The sizes a chunk can have. *)
Lemma frame_size_spec p random : len p ≤ MAX_FRAME_SIZE - 2 →
  let m := Z.max (len p + 2) MIN_FRAME_SIZE in
  ∃ j, 0 ≤ j ≤ (MAX_FRAME_SIZE - m) / STEP ∧ frame_size p random = m + STEP * j.
Proof.
  unfold frame_size, MAX_FRAME_SIZE, MIN_FRAME_SIZE, STEP. intros Hp. cbn zeta.
  set (m := Z.max (len p + 2) 768). assert (768 ≤ m ≤ 2048) as Hm by lia.
  assert (0 ≤ (2048 - m) / 128) by (apply Z.div_pos; lia).
  destruct (Z.ltb_spec 1 ((2048 - m) / 128 + 1)) as [Hb|Hb].
  - exists (random mod ((2048 - m) / 128 + 1)). split; [|lia].
    pose proof (Z.mod_pos_bound random ((2048 - m) / 128 + 1)). lia.
  - exists 0. lia.
Qed.

Lemma frame_size_bounds p random : len p ≤ MAX_FRAME_SIZE - 2 →
  len p + 2 ≤ frame_size p random ≤ MAX_FRAME_SIZE ∧ MIN_FRAME_SIZE ≤ frame_size p random.
Proof.
  intros Hp. destruct (frame_size_spec p random Hp) as (j & Hj & ->). unfold MAX_FRAME_SIZE, MIN_FRAME_SIZE, STEP in *.
  pose proof (Z.mul_div_le (2048 - Z.max (len p + 2) 768) 128). lia.
Qed.

Lemma length_padded p random : len p ≤ MAX_FRAME_SIZE - 2 → len (padded p random) = frame_size p random.
Proof.
  intros Hp. destruct (frame_size_bounds p random Hp) as [[H1 H2] _].
  unfold padded. rewrite !length_app, length_be_bytes, length_replicate. lia.
Qed.

Lemma unpad_padded p random : len p ≤ MAX_FRAME_SIZE - 2 → unpad (padded p random) = Ok p.
Proof.
  intros Hp. pose proof (length_padded p random Hp) as Hl. pose proof (frame_size_bounds p random Hp) as Hb.
  unfold unpad. rewrite Hl. unfold MAX_FRAME_SIZE, MIN_FRAME_SIZE in *.
  destruct (Z.ltb_spec (frame_size p random) 2); [lia|]. unfold padded.
  rewrite take_app_length', drop_app_length' by (by rewrite length_be_bytes).
  rewrite be_value_bytes_small by (cbn; lia).
  destruct (Z.ltb_spec (frame_size p random - 2) (len p)); [lia|].
  by rewrite Nat2Z.id, take_app_length.
Qed.

Section frames.
Context `{AeadLaws} (key : array 32) (d : byte).
Notation write := (write_encrypted_frame key d).
Notation read := (read_frame_or_end key d).

(** ** One frame *)

(** [frame] carries [p] with the nonce of [counter]. *)
Definition frame_of (counter : Z) (p frame : list byte) : Prop :=
  ∃ random c, len p ≤ MAX_FRAME_SIZE - 2 ∧ seal key (make_nonce d counter) (padded p random) = Some c ∧
    frame = be_bytes 4 (len c) ++ c.

Lemma write_Ok counter random p frame counter' :
  write counter random p = (Ok frame, counter') → frame_of counter p frame ∧ counter' = u64_add counter 1.
Proof.
  unfold write_encrypted_frame. destruct (Z.ltb_spec (MAX_FRAME_SIZE - 2) (len p)) as [Hl|Hl]; [done|].
  destruct (seal _ _ _) as [c|] eqn:Hc; [|done]. intros [= <- <-]. split; [|done]. by exists random, c.
Qed.

Lemma write_total counter random p : len p ≤ MAX_FRAME_SIZE - 2 →
  ∃ frame, write counter random p = (Ok frame, u64_add counter 1) ∧ frame_of counter p frame.
Proof.
  intros Hl. unfold write_encrypted_frame. destruct (Z.ltb_spec (MAX_FRAME_SIZE - 2) (len p)); [lia|].
  destruct (seal_some key (make_nonce d counter) (padded p random)) as [c Hc].
  { rewrite (length_padded p random) by done. pose proof (frame_size_bounds p random Hl). unfold MAX_FRAME_SIZE in *. lia. }
  rewrite Hc. eexists. split; [done|]. by exists random, c.
Qed.

Lemma length_frame counter p frame : frame_of counter p frame →
  ∃ random, len frame = 4 + 16 + frame_size p random.
Proof.
  intros (random & c & Hp & Hc & ->). exists random. apply seal_length in Hc.
  rewrite length_app, length_be_bytes. pose proof (length_padded p random Hp). lia.
Qed.

Lemma read_ciphertext_app c rest b : 0 < len c ≤ MAX_CIPHERTEXT →
  read_ciphertext (mkReader (be_bytes 4 (len c) ++ c ++ rest) b) = Ok (Some (c, mkReader rest b)).
Proof.
  intros Hc. unfold read_ciphertext. cbn [incoming].
  destruct (be_bytes 4 (len c) ++ c ++ rest) eqn:E.
  { apply (f_equal length) in E. rewrite length_app, length_be_bytes in E. cbn in E. lia. }
  rewrite <- E. clear E. unfold read_exact. cbn [incoming].
  destruct (Nat.ltb_spec (length (be_bytes 4 (len c) ++ c ++ rest)) 4) as [Hl|_].
  { rewrite length_app, length_be_bytes in Hl. lia. }
  cbn [mbind result_bind]. rewrite take_app_length', drop_app_length' by (by rewrite length_be_bytes).
  unfold MAX_CIPHERTEXT in *. rewrite be_value_bytes_small by (cbn; lia).
  destruct (Z.ltb_spec 4096 (len c)); [lia|]. cbn [incoming]. rewrite Nat2Z.id.
  destruct (Nat.ltb_spec (length (c ++ rest)) (length c)) as [Hl|_]; [rewrite length_app in Hl; lia|].
  cbn. by rewrite take_app_length, drop_app_length.
Qed.

(** A frame is read as what it carries, whatever follows. *)
Lemma read_frame counter p frame rest b : frame_of counter p frame →
  read counter (mkReader (frame ++ rest) b) = (Ok (Some (p, mkReader rest b)), u64_add counter 1).
Proof.
  intros (random & c & Hp & Hc & ->). unfold read_frame_or_end. rewrite <- app_assoc, read_ciphertext_app.
  2: { apply seal_length in Hc. pose proof (length_padded p random Hp). pose proof (frame_size_bounds p random Hp).
       unfold MAX_CIPHERTEXT, MAX_FRAME_SIZE, MIN_FRAME_SIZE in *. lia. }
  rewrite (proj2 (unseal_seal _ _ _ _) Hc). cbn [ok_or mbind result_bind]. by rewrite unpad_padded.
Qed.

Lemma read_exact_short n r : (length r.(incoming) < n)%nat → read_exact n r = Err EndOfFile.
Proof. intros Hl. unfold read_exact. by destruct (Nat.ltb_spec (length (incoming r)) n); [|lia]. Qed.
Lemma read_exact_long n r : (n ≤ length r.(incoming))%nat →
  read_exact n r = Ok (take n r.(incoming), mkReader (drop n r.(incoming)) r.(broken)).
Proof. intros Hl. unfold read_exact. by destruct (Nat.ltb_spec (length (incoming r)) n); [lia|]. Qed.

Lemma read_exact_Ok n r x r' : read_exact n r = Ok (x, r') →
  r.(incoming) = x ++ r'.(incoming) ∧ length x = n ∧ r'.(broken) = r.(broken).
Proof.
  unfold read_exact. destruct (Nat.ltb_spec (length (incoming r)) n); [done|]. intros [= <- <-]. cbn.
  by rewrite take_drop, length_take_le.
Qed.

Lemma read_ciphertext_Ok r c r' : read_ciphertext r = Ok (Some (c, r')) →
  r.(incoming) = be_bytes 4 (len c) ++ c ++ r'.(incoming) ∧ r'.(broken) = r.(broken).
Proof.
  unfold read_ciphertext. destruct (incoming r) as [|b0 l] eqn:Hr; [by destruct (broken r)|]. rewrite <- Hr.
  intros ([prefix r1] & H1 & H2)%bind_Ok. destruct (Z.ltb_spec MAX_CIPHERTEXT (be_value prefix)); [done|].
  apply bind_Ok in H2 as ([x r2] & H2 & [= -> ->]). apply read_exact_Ok in H1 as (E1 & L1 & B1), H2 as (E2 & L2 & B2).
  pose proof (be_value_range prefix). rewrite E1, E2. split; [|congruence]. f_equal.
  assert (len c = be_value prefix) as -> by lia. rewrite <- L1. symmetry. apply be_bytes_value.
Qed.

(** What is read was sealed, with this nonce. *)
Lemma read_Some counter r p r' counter' : read counter r = (Ok (Some (p, r')), counter') →
  counter' = u64_add counter 1 ∧ ∃ c text, r.(incoming) = be_bytes 4 (len c) ++ c ++ r'.(incoming) ∧
    r'.(broken) = r.(broken) ∧ unseal key (make_nonce d counter) c = Some text ∧ unpad text = Ok p.
Proof.
  unfold read_frame_or_end. destruct (read_ciphertext r) as [[[c r1]|]|e] eqn:Hc; [|done|done].
  intros [= Hr <-]. split; [done|]. apply read_ciphertext_Ok in Hc as [Hi Hb].
  apply bind_Ok in Hr as (text & Hu & Hr). apply ok_or_Ok in Hu. apply bind_Ok in Hr as (p' & Hp & [= <- <-]).
  by exists c, text.
Qed.

Lemma read_None counter r counter' : read counter r = (Ok None, counter') →
  r.(incoming) = [] ∧ r.(broken) = false ∧ counter' = counter.
Proof.
  unfold read_frame_or_end. destruct (read_ciphertext r) as [[[c r1]|]|e] eqn:Hc; try done.
  - intros [= Hr _]. by apply bind_Ok in Hr as (? & _ & (? & _ & [=])%bind_Ok).
  - intros [= <-]. unfold read_ciphertext in Hc. destruct (incoming r); [by destruct (broken r)|].
    apply bind_Ok in Hc as ([] & _ & Hc). destruct (_ <? _); [done|]. by apply bind_Ok in Hc as (? & _ & [=]).
Qed.

(** ** Streams of frames *)

(** [bytes] is one frame after the other, counting from [counter] up to the
    last argument. *)
Inductive framed : Z → list (list byte) → list byte → Z → Prop :=
| framed_nil counter : framed counter [] [] counter
| framed_cons counter p ps frame bytes counter' :
    frame_of counter p frame → framed (u64_add counter 1) ps bytes counter' →
    framed counter (p :: ps) (frame ++ bytes) counter'.

Lemma write_all_framed chunks : ∀ counter bytes counter',
  write_all key d counter chunks = (Ok bytes, counter') → framed counter chunks.*1 bytes counter'.
Proof.
  induction chunks as [|[p random] chunks IH]; intros counter bytes counter'; cbn [write_all].
  - intros [= <- <-]. constructor.
  - destruct (write counter random p) as [[frame|] c1] eqn:Hw; [|done]. apply write_Ok in Hw as [Hf ->].
    destruct (write_all key d _ chunks) as [[l|] c2] eqn:Ha; [|done]. intros [= <- <-]. constructor; [done|].
    by eapply IH.
Qed.

Lemma framed_nonempty counter p frame : frame_of counter p frame → (20 < length frame)%nat.
Proof.
  intros Hf. destruct (length_frame _ _ _ Hf) as [random Hl]. destruct Hf as (r & c & Hp & _).
  pose proof (frame_size_bounds p random Hp). unfold MIN_FRAME_SIZE in *. lia.
Qed.

Lemma read_all_framed ps : ∀ counter bytes b fuel counter', framed counter ps bytes counter' → (length bytes < fuel)%nat →
  read_all key d fuel counter (mkReader bytes b) = (ps, if b then Err EndOfFile else Ok ()).
Proof.
  induction ps as [|p ps IH]; intros counter bytes b [|fuel] counter' Hf Hl; [lia| |lia|]; inversion Hf; subst; cbn [read_all].
  - unfold read_frame_or_end, read_ciphertext. cbn. by destruct b.
  - erewrite read_frame by done. erewrite IH; [done|done|].
    pose proof (framed_nonempty _ _ _ ltac:(done)). rewrite length_app in Hl. lia.
Qed.

Lemma framed_snoc counter ps bytes counter' p frame :
  framed counter ps bytes counter' → frame_of counter' p frame →
  framed counter (ps ++ [p]) (bytes ++ frame) (u64_add counter' 1).
Proof.
  intros Hf Hp. induction Hf as [counter|counter q ps f bytes counter' Hq Hf IH]; cbn [app].
  - rewrite <- (app_nil_r frame). constructor; [done|constructor].
  - rewrite <- app_assoc. constructor; auto.
Qed.

(** The part of a stream of frames that arrived before it was cut: its first
    frame is whole, or reading fails. *)
Lemma read_cut counter p frame bytes w : frame_of counter p frame → w `prefix_of` frame ++ bytes →
  (∃ w', w = frame ++ w' ∧ w' `prefix_of` bytes) ∨ read counter (mkReader w true) = (Err EndOfFile, counter).
Proof.
  intros Hf [k Hk]. destruct (decide (length frame ≤ length w)%nat) as [Hl|Hl].
  - left. exists (drop (length frame) w).
    assert (take (length frame) w = frame) as E.
    { apply (f_equal (take (length frame))) in Hk. by rewrite take_app_length, take_app_le in Hk by done. }
    split; [transitivity (take (length frame) w ++ drop (length frame) w); [by rewrite take_drop|by rewrite E]|]. exists k. rewrite <- (take_drop (length frame) w), E, <- app_assoc in Hk.
    by apply app_inv_head in Hk.
  - right. destruct Hf as (random & c & Hp & Hc & ->). rewrite length_app, length_be_bytes in Hl.
    unfold read_frame_or_end, read_ciphertext. cbn [incoming broken]. destruct w as [|b w]; [done|].
    set (w' := b :: w) in *. destruct (decide (length w' < 4)%nat) as [H4|H4]; [by rewrite read_exact_short|].
    rewrite read_exact_long by (cbn [incoming]; lia). cbn [mbind result_bind incoming broken]. rewrite <- app_assoc in Hk.
    assert (take 4 w' = be_bytes 4 (len c)) as ->.
    { apply (f_equal (take 4)) in Hk. rewrite take_app_length' in Hk by (by rewrite length_be_bytes).
      by rewrite take_app_le in Hk by lia. }
    apply seal_length in Hc. pose proof (length_padded p random Hp). pose proof (frame_size_bounds p random Hp).
    unfold MAX_CIPHERTEXT, MAX_FRAME_SIZE, MIN_FRAME_SIZE in *.
    rewrite be_value_bytes_small by (cbn; lia). destruct (Z.ltb_spec 4096 (len c)); [lia|].
    rewrite read_exact_short; [done|]. cbn [incoming]. rewrite length_drop, Nat2Z.id. lia.
Qed.

(** ** What an attacker can make a reader deliver *)

(** What a writer of chunks gives to [seal], in order. *)
Fixpoint seals (direction : byte) (counter : Z) (chunks : list (list byte * Z)) : list (array 12 * list byte) :=
  match chunks with
  | [] => []
  | (plaintext, random) :: rest =>
      (make_nonce direction counter, padded plaintext random) :: seals direction (u64_add counter 1) rest
  end.

(** What opens with the nonce of a counter is what the writer of the chunks
    sealed with it. *)
Definition opened (counter : Z) (chunks : list (list byte * Z)) (bytes : list byte) : Prop :=
  ∀ (i : nat) before c after text, (i ≤ length chunks)%nat → bytes = before ++ c ++ after →
    unseal key (make_nonce d (u64_add counter (Z.of_nat i))) c = Some text →
    ∃ p random, chunks !! i = Some (p, random) ∧ text = padded p random.

Lemma u64_add_add a b c : u64_add (u64_add a b) c = u64_add a (b + c).
Proof. unfold u64_add. rewrite Zplus_mod_idemp_l. f_equal. lia. Qed.

Lemma write_all_cons counter p random rest wire :
  (write_all key d counter ((p, random) :: rest)).1 = Ok wire →
  len p ≤ MAX_FRAME_SIZE - 2 ∧ ∃ wire', (write_all key d (u64_add counter 1) rest).1 = Ok wire'.
Proof.
  cbn [write_all]. destruct (write counter random p) as [[f|] c1] eqn:Hw; [|done].
  apply write_Ok in Hw as [(? & ? & Hl & _) ->]. split; [done|].
  destruct (write_all _ _ _ _) as [[w|] ?]; [by exists w|done].
Qed.

Lemma read_all_opened fuel : ∀ counter r chunks wire,
  (write_all key d counter chunks).1 = Ok wire → opened counter chunks r.(incoming) → u64_range counter →
  let '(delivered, how) := read_all key d fuel counter r in
  delivered `prefix_of` chunks.*1 ∧
  ∃ frames rest, (write_all key d counter (take (length delivered) chunks)).1 = Ok frames ∧
    r.(incoming) = frames ++ rest ∧ (how = Ok () → r.(broken) = false ∧ rest = []).
Proof.
  induction fuel as [|fuel IH]; intros counter r chunks wire Hw Ho Hc; cbn [read_all].
  { split; [apply prefix_nil|]. by exists [], (incoming r). }
  destruct (read counter r) as [[[[p r']|]|e] counter'] eqn:Hr.
  2: { apply read_None in Hr as (Hi & Hb & _). split; [apply prefix_nil|]. by exists [], []. }
  2: { split; [apply prefix_nil|]. by exists [], (incoming r). }
  apply read_Some in Hr as (-> & c & text & Hi & Hb & Ht & Hp).
  destruct (Ho 0%nat (be_bytes 4 (len c)) c (incoming r') text) as (p0 & random & Hp0 & ->); [lia|done| |].
  { unfold u64_add. rewrite Z.add_0_r, Z.mod_small by (unfold u64_range in Hc; lia). done. }
  destruct chunks as [|x chunks]; [done|]. injection Hp0 as ->.
  apply write_all_cons in Hw as (Hl & wire' & Hw). rewrite unpad_padded in Hp by done. injection Hp as ->.
  specialize (IH (u64_add counter 1) r' chunks wire' Hw).
  destruct (read_all key d fuel (u64_add counter 1) r') as [rest how].
  destruct IH as (Hpre & frames & tail & Hfr & Hin & Hend).
  - intros i a c' z text' Hi' Hs Hu. rewrite u64_add_add in Hu.
    destruct (Ho (S i) (be_bytes 4 (len c) ++ c ++ a) c' z text') as (p' & r'' & Hps & Hpt).
    + cbn. lia.
    + by rewrite Hi, Hs, <- !app_assoc.
    + by replace (Z.of_nat (S i)) with (1 + Z.of_nat i) by lia.
    + eauto.
  - unfold u64_range, u64_add. apply Z.mod_pos_bound. lia.
  - split; [by apply prefix_cons|]. exists ((be_bytes 4 (len c) ++ c) ++ frames), tail. split_and!.
    + cbn [length firstn write_all]. unfold write_encrypted_frame.
      destruct (Z.ltb_spec (MAX_FRAME_SIZE - 2) (len p)); [lia|]. apply unseal_seal in Ht. rewrite Ht.
      destruct (write_all key d (u64_add counter 1) (take (length rest) chunks)) as [w c2]. cbn in Hfr |- *. by rewrite Hfr.
    + by rewrite Hi, Hin, !app_assoc.
    + by rewrite <- Hb.
Qed.

Lemma seals_elem d' chunks : ∀ counter n text, u64_range counter → (n, text) ∈ seals d' counter chunks →
  ∃ (i : nat) p random, chunks !! i = Some (p, random) ∧ n = make_nonce d' (u64_add counter (Z.of_nat i)) ∧
    text = padded p random.
Proof.
  induction chunks as [|[p random] chunks IH]; intros counter n text Hc; cbn [seals]; [by intros ?%elem_of_nil|].
  intros [E|E]%elem_of_cons.
  - injection E as -> ->. exists 0%nat, p, random. split_and!; [done| |done].
    unfold u64_add. rewrite Z.add_0_r, Z.mod_small; [done|]. unfold u64_range in Hc. lia.
  - destruct (IH (u64_add counter 1) n text) as (i & q & r & ? & -> & ->); [|done|].
    { unfold u64_range, u64_add. apply Z.mod_pos_bound. lia. }
    exists (S i), q, r. split_and!; [done| |done]. rewrite u64_add_add. do 2 f_equal. lia.
Qed.

(** The nonces tell the directions and the counters apart. *)
Lemma log_opened d' mine theirs bytes : d' ≠ d → Z.of_nat (length mine) < 2 ^ 64 →
  (∀ before c after n text, bytes = before ++ c ++ after → unseal key n c = Some text →
     (n, text) ∈ seals d 0 mine ++ seals d' 0 theirs) →
  opened 0 mine bytes.
Proof.
  intros Hd Hl Hlog i before c after text Hi Hb Hu.
  assert (u64_range 0) as Hz by (unfold u64_range; lia).
  assert (∀ a, u64_range (u64_add 0 a)) as Hrange by (intros a; unfold u64_range, u64_add; apply Z.mod_pos_bound; lia).
  destruct (proj1 (elem_of_app _ _ _) (Hlog _ _ _ _ _ Hb Hu)) as [E|E];
    apply seals_elem in E as (j & p & random & Hj & Hn & ->); [|done|..|done].
  - apply make_nonce_inj in Hn as [_ Hij]; [|done..]. unfold u64_add in Hij.
    pose proof (lookup_lt_Some _ _ _ Hj). rewrite !Z.mod_small in Hij by lia.
    assert (i = j) as -> by lia. eauto.
  - apply make_nonce_inj in Hn as [? _]; [by destruct Hd|done..].
Qed.

(** Frames are exact. Any chunks of at most 2046 bytes are written, from
    any counter, and a reader of that stream delivers exactly these chunks,
    in order and none more; then it reports a clean end if the stream ended
    with [close_notify] and an error if it did not. *)
Theorem frames_roundtrip counter chunks b : Forall (λ x, len x.1 ≤ MAX_FRAME_SIZE - 2) chunks →
  ∃ bytes counter', write_all key d counter chunks = (Ok bytes, counter') ∧
    read_stream key d counter (mkReader bytes b) = (chunks.*1, if b then Err EndOfFile else Ok ()).
Proof.
  intros Hc. assert (∃ bytes counter', write_all key d counter chunks = (Ok bytes, counter')) as (bytes & c' & Hw).
  { revert counter. induction Hc as [|[p random] chunks Hp Hc IH]; intros counter; cbn [write_all]; [eauto|].
    destruct (write_total counter random p Hp) as (f & -> & _). destruct (IH (u64_add counter 1)) as (bytes & c' & ->).
    cbn. eauto. }
  exists bytes, c'. split; [done|]. eapply read_all_framed; [by eapply write_all_framed|cbn; lia].
Qed.

(** C21: what a session delivers was sent, in order. Two writers use the key
    of a session, one per direction, for less than 2^64 chunks; let an
    attacker put any bytes into the stream, where nothing but what these two
    sealed opens, each with the nonce it was sealed with. Then the reader
    delivers a prefix of the chunks written in its direction: nothing is
    changed, reordered, repeated, taken from the other direction or delivered
    after a gap. What it consumed are the very frames of these chunks, and it
    reports a clean end only when the stream ended with [close_notify] right
    after the last of them, at the boundary of a frame. *)
Theorem frames_unforged d' mine theirs wire stream b :
  d' ≠ d → Z.of_nat (length mine) < 2 ^ 64 → (write_all key d 0 mine).1 = Ok wire →
  (∀ before c after n text, stream = before ++ c ++ after → unseal key n c = Some text →
     (n, text) ∈ seals d 0 mine ++ seals d' 0 theirs) →
  let '(delivered, how) := read_stream key d 0 (mkReader stream b) in
  delivered `prefix_of` mine.*1 ∧
  ∃ frames rest, (write_all key d 0 (take (length delivered) mine)).1 = Ok frames ∧ stream = frames ++ rest ∧
    (how = Ok () → b = false ∧ rest = []).
Proof.
  intros Hd Hl Hw Hlog. eapply (read_all_opened _ 0 (mkReader stream b) mine wire Hw); [by eapply log_opened|].
  unfold u64_range. lia.
Qed.

(** What the size of a frame tells. A frame is of 788 to 2068 bytes, far
    within the reader's limit, and its size is a function of the length of
    the chunk and the random word; every chunk of at most 766 bytes has the
    same eleven possible sizes; a longer one shows its length modulo 128. *)
Theorem frame_size_exact counter counter' random p frame : write counter random p = (Ok frame, counter') →
  788 ≤ len frame ≤ 2068 ∧ len frame - 4 ≤ MAX_CIPHERTEXT ∧
  (∀ k' d' c' q frame' c'', write_encrypted_frame k' d' c' random q = (Ok frame', c'') → length q = length p →
     length frame' = length frame) ∧
  (len p ≤ 766 → ∃ j, 0 ≤ j ≤ 10 ∧ len frame = 788 + 128 * j) ∧
  (766 < len p → (len frame - 20) mod 128 = (len p + 2) mod 128).
Proof.
  intros Hw. assert (∀ k' d' c' q f c'', write_encrypted_frame k' d' c' random q = (Ok f, c'') →
    len q ≤ MAX_FRAME_SIZE - 2 ∧ len f = 20 + frame_size q random) as Hs.
  { intros k' d' c' q f c''. unfold write_encrypted_frame. destruct (Z.ltb_spec (MAX_FRAME_SIZE - 2) (len q)) as [|Hq]; [done|].
    destruct (seal _ _ _) as [c|] eqn:Hc; [|done]. intros E. split; [done|].
    assert (f = be_bytes 4 (len c) ++ c) as -> by congruence. apply seal_length in Hc.
    rewrite length_app, length_be_bytes. pose proof (length_padded q random Hq). lia. }
  destruct (Hs _ _ _ _ _ _ Hw) as [Hp Hf]. pose proof (frame_size_bounds p random Hp) as Hb.
  destruct (frame_size_spec p random Hp) as (j & Hj & Hz). unfold MAX_FRAME_SIZE, MIN_FRAME_SIZE, MAX_CIPHERTEXT, STEP in *.
  split; [lia|]. split; [lia|]. split.
  - intros k' d' c' q f c'' Hq Hl. destruct (Hs _ _ _ _ _ _ Hq) as [_ Hf']. enough (len f = len frame) by lia.
    rewrite Hf, Hf'. unfold frame_size. by rewrite Hl.
  - split; intros Hl.
    + rewrite Z.max_r in Hj, Hz by lia. change ((2048 - 768) / 128) with 10 in Hj. exists j. lia.
    + rewrite Z.max_l in Hz by lia. replace (len frame - 20) with (len p + 2 + j * 128) by lia. apply Z.mod_add. lia.
Qed.

End frames.
End FramesSpec.

(** ** A cipher that computes, for the witnesses *)

Module ToyAead.

(** The text, then the nonce, and its length added to the end of the key. *)
Definition tag (k : array 32) (n : array 12) (p : list byte) : list byte :=
  array_bytes n ++ be_bytes 4 (Z.of_nat (length p) + be_value (drop 28 (array_bytes k))).
Definition toy_unseal (k : array 32) (n : array 12) (c : list byte) : option (list byte) :=
  let p := take (length c - 16) c in if bool_decide (c = p ++ tag k n p) then Some p else None.
#[export] Instance toy_aead : Aead := {| seal k n p := Some (p ++ tag k n p); unseal := toy_unseal |}.

Lemma length_tag k n p : length (tag k n p) = 16%nat.
Proof. unfold tag. by rewrite length_app, length_be_bytes, length_array. Qed.

#[export] Instance toy_aead_laws : AeadLaws.
Proof.
  split.
  - intros k n p _. by eexists.
  - cbn. intros k n p c E. injection E as <-. by rewrite length_app, length_tag.
  - intros k n p c. cbn. unfold toy_unseal. cbn zeta. split.
    + case_bool_decide as Hc; [|done]. intros [= <-]. by f_equal.
    + intros [= <-]. rewrite length_app, length_tag, Nat.add_sub, take_app_length. by rewrite bool_decide_eq_true_2.
Qed.

(** Where a text of this cipher can end in some bytes, it is given by them. *)
Definition ends_at (k : array 32) (bytes : list byte) (e : nat) : option (list byte * list byte) :=
  let head := take e bytes in
  let size := be_value (drop (e - 4) head) - be_value (drop 28 (array_bytes k)) in
  if (0 <=? size) && (size + 16 <=? Z.of_nat e)
  then Some (take 12 (drop (e - 16) head), take (Z.to_nat size) (drop (e - 16 - Z.to_nat size) head))
  else None.
Definition log_holds (k : array 32) (log : list (list byte * list byte)) (bytes : list byte) : bool :=
  forallb (λ e, match ends_at k bytes e with
                | Some x => existsb (λ y, bool_decide (x = y)) log
                | None => true
                end) (seq 0 (S (length bytes))).

Lemma ends_at_sealed k before text n after :
  let K := be_value (drop 28 (array_bytes k)) in
  let bytes := before ++ (text ++ tag k n text) ++ after in
  0 ≤ K → Z.of_nat (length text) + K < 2 ^ 32 →
  ends_at k bytes (length before + length text + 16) = Some (array_bytes n, text).
Proof.
  cbn zeta. intros HK Hl. unfold ends_at. cbn zeta.
  rewrite app_assoc, take_app_length' by (rewrite !length_app, length_tag; lia).
  assert (drop (length before + length text + 16 - 4) (before ++ text ++ tag k n text) =
    be_bytes 4 (Z.of_nat (length text) + be_value (drop 28 (array_bytes k)))) as ->.
  { unfold tag. rewrite !app_assoc. apply drop_app_length'. rewrite !length_app, length_array. lia. }
  rewrite be_value_bytes_small by (cbn; lia).
  rewrite Z.add_simpl_r, Nat2Z.id, (proj2 (Z.leb_le 0 _)) by lia. cbn [andb].
  destruct (Z.leb_spec (Z.of_nat (length text) + 16) (Z.of_nat (length before + length text + 16))); [|lia].
  do 2 f_equal.
  - rewrite (app_assoc before), drop_app_length' by (rewrite length_app; lia). unfold tag.
    by rewrite take_app_length' by (by rewrite length_array).
  - rewrite drop_app_length' by lia. by rewrite take_app_length.
Qed.

Lemma log_holds_sound k log bytes : log_holds k log bytes = true →
  0 ≤ be_value (drop 28 (array_bytes k)) → Z.of_nat (length bytes) + be_value (drop 28 (array_bytes k)) < 2 ^ 32 →
  ∀ before c after n text, bytes = before ++ c ++ after → unseal k n c = Some text → (array_bytes n, text) ∈ log.
Proof.
  intros Hlog HK Hl before c after n text -> Hu. apply unseal_seal in Hu. injection Hu as <-.
  rewrite !length_app, length_tag in Hl.
  unfold log_holds in Hlog. rewrite forallb_forall in Hlog.
  specialize (Hlog (length before + length text + 16)%nat). rewrite ends_at_sealed in Hlog by lia.
  destruct (proj1 (existsb_exists _ _) (Hlog ltac:(rewrite in_seq, !length_app, length_tag; lia))) as (y & Hy & E).
  apply bool_decide_eq_true in E as ->. by apply list_elem_of_In.
Qed.

End ToyAead.

Module FramesDemo.
Import Frames FramesSpec ToyAead.

Definition demo_key : array 32 := array_fill 32 x07.
Definition demo_chunks : list (list byte * Z) := [(lit "GET /", 3); (lit "bye", 0)].

Lemma frames_roundtrip_witness : ∃ bytes counter', write_all demo_key x00 0 demo_chunks = (Ok bytes, counter') ∧
  read_stream demo_key x00 0 (mkReader bytes false) = ([lit "GET /"; lit "bye"], Ok ()).
Proof. apply (frames_roundtrip demo_key x00 0 demo_chunks false). repeat constructor; by apply Z.leb_le. Defined.

Definition demo_answer : list (list byte * Z) := [(lit "hello", 1)].
Definition demo_frames (chunks : list (list byte * Z)) : list byte :=
  match (write_all demo_key x00 0 chunks).1 with Ok w => w | Err _ => [] end.
(** The attacker sends the first frame twice. *)
Definition replayed : list byte := demo_frames (take 1 demo_chunks) ++ demo_frames (take 1 demo_chunks).
Definition demo_log : list (list byte * list byte) :=
  (λ x, (array_bytes x.1, x.2)) <$> (seals x00 0 demo_chunks ++ seals x01 0 demo_answer).

Lemma demo_log_ok : log_holds demo_key demo_log replayed = true.
Proof. vm_compute. reflexivity. Qed.

Lemma frames_unforged_witness :
  read_stream demo_key x00 0 (mkReader replayed false) = ([lit "GET /"], Err DecryptFailed) ∧
  [lit "GET /"] `prefix_of` demo_chunks.*1 ∧
  ∃ frames rest, (write_all demo_key x00 0 (take 1 demo_chunks)).1 = Ok frames ∧ replayed = frames ++ rest.
Proof.
  assert (read_stream demo_key x00 0 (mkReader replayed false) = ([lit "GET /"], Err DecryptFailed)) as Hr
    by (vm_compute; reflexivity).
  assert (∃ wire, (write_all demo_key x00 0 demo_chunks).1 = Ok wire) as [wire Hw].
  { destruct ((write_all demo_key x00 0 demo_chunks).1) eqn:E; [eauto|]. vm_compute in E. discriminate E. }
  assert (x01 ≠ x00) as Hd by discriminate.
  assert (Z.of_nat (length demo_chunks) < 2 ^ 64) as Hl by reflexivity.
  pose proof (frames_unforged demo_key x00 x01 demo_chunks demo_answer wire replayed false Hd Hl Hw) as Hthm.
  rewrite Hr in Hthm. cbn [length] in Hthm. destruct Hthm as (Hp & frames & rest & Hf & Hs & _).
  - intros before c after n text Hb Hu.
    assert ((array_bytes n, text) ∈ demo_log) as Hin.
    { eapply log_holds_sound; [apply demo_log_ok| | |exact Hb|exact Hu]; vm_compute; [discriminate|reflexivity]. }
    apply list_elem_of_fmap in Hin as ([n' t'] & E & Hin). injection E as E1 E2.
    assert (n = n') as -> by (by apply array_eq). by subst.
  - split; [done|]. split; [done|]. eauto.
Defined.

Lemma frame_size_exact_witness : ∃ frame counter', write_encrypted_frame demo_key x00 0 3 (lit "GET /") = (Ok frame, counter') ∧
  788 ≤ Z.of_nat (length frame) ≤ 2068.
Proof.
  eexists _, _. split; [reflexivity|].
  exact (proj1 (frame_size_exact demo_key x00 0 _ 3 (lit "GET /") _ eq_refl)).
Defined.

End FramesDemo.
