(* ===== verification/SessionEnd.v ===== *)
(** * Copying over an encrypted TCP session, and how it ends
      ([werewolfd/src/transport/tcp_encrypted.rs])

    [Module Copy]: [secure_copy_client_side] and [secure_copy_server_side] as
    the steps of one system. Each direction is a [Flow]: what its source gave,
    the bytes on the way, what its sink was given and how it was closed. At
    each end the two directions advance in any order; the network can cut a
    direction anywhere, and either end can fail at any moment (its sockets,
    the authority's cancellation). TLS around the session is rustls: bytes
    arrive unchanged and in order until the cut, and [close_notify] is told
    from a broken connection. A failed end resets its socket
    ([arm_reset_on_close]).

    [Module SessionEnd]: nothing is delivered but a prefix, a clean end means
    that everything was, and two running ends can always finish. *)

From stdpp Require Import gmap.
From S2P Require Export Frames.

Local Open Scope Z_scope.

Module Copy.
Import Frames.

Inductive Ending : Type := Fin | Rst.
#[export] Instance ending_eq_dec : EqDecision Ending.
Proof. solve_decision. Defined.

Record Flow : Type := mkFlow {
  sent : list byte;
  w_counter : Z;
  (** The writing loop read the end of its source and shut the wire down. *)
  w_done : bool;
  wire : list byte;
  wire_end : option Ending;
  r_counter : Z;
  got : list byte;
  sink : option Ending
}.
Definition flow_start : Flow := mkFlow [] 0 false [] None 0 [] None.

(** A side that is dropped without [close_notify]. *)
Definition drop_wire (f : Flow) : Flow :=
  mkFlow f.(sent) f.(w_counter) f.(w_done) f.(wire)
    match f.(wire_end) with None => Some Rst | e => e end f.(r_counter) f.(got) f.(sink).
Definition reset_sink (f : Flow) : Flow :=
  mkFlow f.(sent) f.(w_counter) f.(w_done) f.(wire) f.(wire_end) f.(r_counter) f.(got)
    match f.(sink) with None => Some Rst | e => e end.
(** The network loses the connection: the first [n] bytes may still arrive. *)
Definition cut_wire (n : nat) (f : Flow) : Flow :=
  mkFlow f.(sent) f.(w_counter) f.(w_done) (take n f.(wire)) (Some Rst) f.(r_counter) f.(got) f.(sink).

Definition BUFFER : nat := Z.to_nat 1400.

Section copy.
Context `{Aead} (key : array 32).

(** One turn of a writing loop: a read that gave [buf], and its frame. What
    is written to a connection that is lost goes nowhere. *)
Definition write_turn (direction : byte) (random : Z) (buf : list byte) (f : Flow) : result FrameError Flow :=
  match write_encrypted_frame key direction f.(w_counter) random buf with
  | (Ok frame, counter) =>
      Ok (mkFlow (f.(sent) ++ buf) counter f.(w_done)
            (if bool_decide (f.(wire_end) = Some Rst) then f.(wire) else f.(wire) ++ frame)
            f.(wire_end) f.(r_counter) f.(got) f.(sink))
  | (Err e, _) => Err e
  end.

(** The source ended: [shutdown] sends [close_notify]. *)
Definition shutdown_wire (f : Flow) : Flow :=
  mkFlow f.(sent) f.(w_counter) true f.(wire) match f.(wire_end) with None => Some Fin | e => e end
    f.(r_counter) f.(got) f.(sink).

(** One turn of a reading loop: nothing while it waits for more bytes; a
    chunk written to the sink, and more to come; or the clean end, and the
    sink shut down. *)
Definition read_turn (direction : byte) (f : Flow) : option (result FrameError (Flow * bool)) :=
  match read_frame_or_end key direction f.(r_counter) (mkReader f.(wire) (negb (bool_decide (f.(wire_end) = Some Fin)))) with
  | (Ok (Some (plaintext, r)), counter) =>
      Some (Ok (mkFlow f.(sent) f.(w_counter) f.(w_done) r.(incoming) f.(wire_end) counter
                  (f.(got) ++ plaintext) f.(sink), true))
  | (Ok None, counter) =>
      Some (Ok (mkFlow f.(sent) f.(w_counter) f.(w_done) f.(wire) f.(wire_end) counter f.(got) (Some Fin), false))
  | (Err EndOfFile, _) => if bool_decide (f.(wire_end) = None) then None else Some (Err EndOfFile)
  | (Err e, _) => Some (Err e)
  end.

(** A write to the sink that failed after [n] bytes of the chunk. *)
Definition partly (n : nat) (f f' : Flow) : Flow :=
  mkFlow f'.(sent) f'.(w_counter) f'.(w_done) f'.(wire) f'.(wire_end) f'.(r_counter)
    (f.(got) ++ take n (drop (length f.(got)) f'.(got))) f'.(sink).

Inductive Outcome : Type := Running | Finished | Failed.

(** [up] goes from the application to the target, [down] back. *)
Record Session : Type := mkSession { up : Flow; down : Flow; client : Outcome; server : Outcome }.
Definition session_start : Session := mkSession flow_start flow_start Running Running.

Definition client_failed (x : Session) : Session :=
  mkSession (drop_wire x.(up)) (reset_sink x.(down)) Failed x.(server).
Definition server_failed (x : Session) : Session :=
  mkSession (reset_sink x.(up)) (drop_wire x.(down)) x.(client) Failed.

(** [try_join!]: the server's end is reached when both loops ended. *)
Definition joined (u d : Flow) : Outcome :=
  if bool_decide (u.(sink) = Some Fin) && d.(w_done) then Finished else Running.

Definition TO_SERVER : byte := x00.
Definition TO_CLIENT : byte := x01.

Inductive session_step : Session → Session → Prop :=
| client_read x random buf u : x.(client) = Running → x.(up).(w_done) = false →
    buf ≠ [] → (length buf ≤ BUFFER)%nat → write_turn TO_SERVER random buf x.(up) = Ok u →
    session_step x (mkSession u x.(down) Running x.(server))
| client_eof x : x.(client) = Running → x.(up).(w_done) = false →
    session_step x (mkSession (shutdown_wire x.(up)) x.(down) Running x.(server))
| client_frame x d : x.(client) = Running → read_turn TO_CLIENT x.(down) = Some (Ok (d, true)) →
    session_step x (mkSession x.(up) d Running x.(server))
| client_end x d : x.(client) = Running → read_turn TO_CLIENT x.(down) = Some (Ok (d, false)) →
    (** [select!]: the end of the download ends the session. *)
    session_step x (mkSession (drop_wire x.(up)) d Finished x.(server))
| client_partly x n d : x.(client) = Running → read_turn TO_CLIENT x.(down) = Some (Ok (d, true)) →
    session_step x (client_failed (mkSession x.(up) (partly n x.(down) d) Running x.(server)))
| client_fails x : x.(client) = Running → session_step x (client_failed x)
| server_read x random buf d : x.(server) = Running → x.(down).(w_done) = false →
    buf ≠ [] → (length buf ≤ BUFFER)%nat → write_turn TO_CLIENT random buf x.(down) = Ok d →
    session_step x (mkSession x.(up) d x.(client) Running)
| server_eof x : x.(server) = Running → x.(down).(w_done) = false →
    session_step x (mkSession x.(up) (shutdown_wire x.(down)) x.(client) (joined x.(up) (shutdown_wire x.(down))))
| server_frame x u : x.(server) = Running → x.(up).(sink) = None → read_turn TO_SERVER x.(up) = Some (Ok (u, true)) →
    session_step x (mkSession u x.(down) x.(client) Running)
| server_end x u : x.(server) = Running → x.(up).(sink) = None → read_turn TO_SERVER x.(up) = Some (Ok (u, false)) →
    session_step x (mkSession u x.(down) x.(client) (joined u x.(down)))
| server_partly x n u : x.(server) = Running → x.(up).(sink) = None → read_turn TO_SERVER x.(up) = Some (Ok (u, true)) →
    session_step x (server_failed (mkSession (partly n x.(up) u) x.(down) x.(client) Running))
| server_fails x : x.(server) = Running → session_step x (server_failed x)
| cut_up x n : session_step x (mkSession (cut_wire n x.(up)) x.(down) x.(client) x.(server))
| cut_down x n : session_step x (mkSession x.(up) (cut_wire n x.(down)) x.(client) x.(server)).

End copy.
End Copy.

Module SessionEnd.
Import Frames FramesSpec Copy.

Section session.
Context `{AeadLaws} (key : array 32).

(** ** One direction *)

(** [ps] are the chunks written and not yet read. *)
Record pending (d : byte) (f : Flow) (ps : list (list byte)) (bytes : list byte) : Prop := {
  pe_framed : framed key d f.(r_counter) ps bytes f.(w_counter);
  pe_sent : f.(sent) = f.(got) ++ mjoin ps;
  pe_wire : match f.(wire_end) with Some Rst => f.(wire) `prefix_of` bytes | _ => f.(wire) = bytes end
}.

Record flow_inv (d : byte) (f : Flow) : Prop := {
  fi_prefix : f.(got) `prefix_of` f.(sent);
  fi_fin : f.(sink) = Some Fin → f.(got) = f.(sent) ∧ f.(w_done) = true;
  fi_close : f.(wire_end) = Some Fin → f.(w_done) = true;
  fi_done : f.(w_done) = true → f.(wire_end) ≠ None;
  fi_open : f.(sink) = None → ∃ ps bytes, pending d f ps bytes
}.

Lemma flow_start_inv d : flow_inv d flow_start.
Proof.
  split; [by apply prefix_nil|done|done|done|]. intros _. exists [], []. by split; [constructor| |].
Qed.

Lemma drop_wire_inv d f : flow_inv d f → flow_inv d (drop_wire f).
Proof.
  intros [Hp Hf Hc Hd Ho]. split; cbn; [done|done| | |].
  - destruct (wire_end f) as [[]|]; by auto.
  - by destruct (wire_end f) as [[]|].
  - intros Hs. destruct (Ho Hs) as (ps & bytes & [Hfr Hse Hw]). exists ps, bytes. split; [done|done|]. cbn.
    destruct (wire_end f) as [[]|]; cbn in *; [done|done|by rewrite Hw].
Qed.

Lemma reset_sink_inv d f : flow_inv d f → flow_inv d (reset_sink f).
Proof.
  intros [Hp Hf Hc Hd Ho]. split; cbn; [done| |done|done|]; destruct (sink f) as [[]|]; cbn; auto; done.
Qed.

Lemma cut_wire_inv d n f : flow_inv d f → flow_inv d (cut_wire n f).
Proof.
  intros [Hp Hf Hc Hd Ho]. split; cbn; [done|done|done|done|].
  intros Hs. destruct (Ho Hs) as (ps & bytes & [Hfr Hse Hw]). exists ps, bytes. split; [done|done|]. cbn.
  trans (wire f); [apply prefix_take|]. destruct (wire_end f) as [[]|]; [by rewrite Hw|done|by rewrite Hw].
Qed.

Lemma shutdown_wire_inv d f : flow_inv d f → flow_inv d (shutdown_wire f).
Proof.
  intros [Hp Hf Hc Hd Ho]. split; cbn; [done|naive_solver|done|by destruct (wire_end f) as [[]|]|].
  intros Hs. destruct (Ho Hs) as (ps & bytes & [Hfr Hse Hw]). exists ps, bytes. split; [done|done|]. cbn.
  by destruct (wire_end f) as [[]|].
Qed.

Lemma write_turn_inv d random buf f f' :
  flow_inv d f → f.(w_done) = false → write_turn key d random buf f = Ok f' → flow_inv d f'.
Proof.
  intros [Hp Hf Hc Hd Ho] Hnd. unfold write_turn. destruct (write_encrypted_frame key d _ _ _) as [[frame|] c] eqn:Hw; [|done].
  intros [= <-]. apply write_Ok in Hw as [Hfr ->]. split; cbn.
  - by apply prefix_app_r.
  - intros Hs. destruct (Hf Hs) as [_ ?]. congruence.
  - intros Hs. specialize (Hc Hs). congruence.
  - congruence.
  - intros Hs. destruct (Ho Hs) as (ps & bytes & [Hframed Hse Hwi]). exists (ps ++ [buf]), (bytes ++ frame). split; cbn.
    + by apply framed_snoc.
    + rewrite Hse, <- app_assoc. f_equal. rewrite join_app. cbn. by rewrite app_nil_r.
    + destruct (wire_end f) as [[]|]; cbn; [by rewrite Hwi|by apply prefix_app_r|by rewrite Hwi].
Qed.

(** What a reading turn finds. *)
Lemma read_turn_cases d f ps bytes : pending d f ps bytes → (f.(wire_end) = Some Fin → f.(w_done) = true) →
  match read_turn key d f with
  | None => f.(wire_end) = None ∧ ps = []
  | Some (Err _) => f.(wire_end) = Some Rst
  | Some (Ok (f', true)) => ∃ p ps' frame bytes', ps = p :: ps' ∧ bytes = frame ++ bytes' ∧ pending d f' ps' bytes' ∧
      f'.(got) = f.(got) ++ p ∧ f'.(sent) = f.(sent) ∧ f'.(w_done) = f.(w_done) ∧ f'.(wire_end) = f.(wire_end) ∧
      f'.(sink) = f.(sink)
  | Some (Ok (f', false)) => ps = [] ∧ f.(wire_end) = Some Fin ∧ f' = mkFlow f.(sent) f.(w_counter) f.(w_done) f.(wire)
      f.(wire_end) f.(r_counter) f.(got) (Some Fin)
  end.
Proof.
  intros [Hfr Hse Hw] Hc. unfold read_turn. remember (r_counter f) as rc eqn:Hrc.
  remember (w_counter f) as wc eqn:Hwc. destruct Hfr as [counter|counter p ps frame bytes c' Hp Hfr].
  - assert (wire f = []) as Hwire by (destruct (wire_end f) as [[]|]; [done|by apply prefix_nil_inv|done]).
    rewrite Hwire. unfold read_frame_or_end, read_ciphertext. cbn [incoming broken].
    destruct (wire_end f) as [[]|] eqn:He; cbn; [|done|done]. by split_and!.
  - assert (wire_end f = Some Rst ∧ wire f `prefix_of` frame ++ bytes ∨ wire_end f ≠ Some Rst ∧ wire f = frame ++ bytes) as [[He Hw']|[He Hw']]
      by (destruct (wire_end f) as [[]|]; auto).
    + rewrite He. change (bool_decide (Some Rst = Some Fin)) with false. cbn [negb]. destruct (read_cut key d counter p frame bytes (wire f) Hp Hw') as [(w' & -> & Hpre)|Hr].
      * rewrite (read_frame key d counter p frame w' _ Hp). cbn [incoming].
        exists p, ps, frame, bytes. split_and!; try done. split; cbn; [done| |].
        -- rewrite Hse. cbn. by rewrite app_assoc.
        -- done.
      * cbn in Hr |- *. by rewrite Hr.
    + rewrite Hw', (read_frame key d counter p frame bytes _ Hp). cbn [incoming].
      exists p, ps, frame, bytes. split_and!; try done. split; cbn; [done| |].
      * rewrite Hse. cbn. by rewrite app_assoc.
      * by destruct (wire_end f) as [[]|].
Qed.

Lemma read_turn_inv d f f' more : flow_inv d f → f.(sink) = None → read_turn key d f = Some (Ok (f', more)) →
  flow_inv d f' ∧ (more = false → f'.(sink) = Some Fin) ∧ (more = true → f'.(sink) = None) ∧
  f'.(w_done) = f.(w_done) ∧ f.(got) `prefix_of` f'.(got) ∧ f'.(sent) = f.(sent).
Proof.
  intros [Hp Hf Hc Hd Ho] Hs Hr. destruct (Ho Hs) as (ps & bytes & Hpe). pose proof (read_turn_cases d f ps bytes Hpe Hc) as Hx.
  rewrite Hr in Hx. destruct more.
  - destruct Hx as (p & ps' & frame & bytes' & -> & -> & Hpe' & Hg & Hse & Hwd & Hwe & Hsi).
    split; [|split_and!; try done; [congruence|rewrite Hg; by apply prefix_app_r]]. split.
    + rewrite (pe_sent _ _ _ _ Hpe'). by apply prefix_app_r.
    + congruence.
    + by rewrite Hwe, Hwd.
    + by rewrite Hwe, Hwd.
    + eauto.
  - destruct Hx as (-> & He & ->). pose proof (pe_sent _ _ _ _ Hpe) as Hse. cbn in Hse. rewrite app_nil_r in Hse.
    split; [|by split_and!]. split; cbn; [done|by auto|done|by rewrite He|done].
Qed.

Lemma partly_inv d n f f' : flow_inv d f → f.(sink) = None → read_turn key d f = Some (Ok (f', true)) →
  flow_inv d (reset_sink (partly n f f')).
Proof.
  intros Hi Hs Hr. destruct (read_turn_inv d f f' true Hi Hs Hr) as ([Hp Hf Hc Hd Ho] & _ & Ht & _ & [k Hg] & Hse).
  split; cbn; rewrite ?Ht by done; try done. etrans; [|apply Hp]. rewrite Hg, drop_app_length. apply prefix_app, prefix_take.
Qed.

(** ** Both directions *)

Record session_inv (x : Session) : Prop := {
  si_up : flow_inv TO_SERVER x.(up);
  si_down : flow_inv TO_CLIENT x.(down);
  si_client : x.(client) = Running → x.(down).(sink) = None;
  si_finished : x.(client) = Finished → x.(down).(sink) = Some Fin;
  si_server : x.(server) = Finished → x.(up).(sink) = Some Fin ∧ x.(down).(w_done) = true;
  si_running : x.(server) = Running → x.(up).(sink) ≠ Some Rst ∧ ¬ (x.(up).(sink) = Some Fin ∧ x.(down).(w_done) = true)
}.

Lemma joined_inv u d : (joined u d = Finished → u.(sink) = Some Fin ∧ d.(w_done) = true) ∧
  (joined u d = Running → u.(sink) ≠ Some Rst → ¬ (u.(sink) = Some Fin ∧ d.(w_done) = true)).
Proof.
  unfold joined. case_bool_decide as Hs; [|by split; [|intros _ _ [? _]]]. destruct (w_done d); [done|].
  split; [done|]. by intros _ _ [_ ?].
Qed.

Lemma session_inv_step x y : session_inv x → session_step key x y → session_inv y.
Proof.
  intros [Hu Hd Hc Hf Hs Hr] Hstep.
  destruct Hstep as [x rnd buf u Hc1 Hw Hb Hl Ht|x Hc1 Hw|x d Hc1 Ht|x d Hc1 Ht|x n d Hc1 Ht|x Hc1
    |x rnd buf d Hs1 Hw Hb Hl Ht|x Hs1 Hw|x u Hs1 Hk Ht|x u Hs1 Hk Ht|x n u Hs1 Hk Ht|x Hs1|x n|x n].
  - pose proof (write_turn_inv _ _ _ _ _ Hu Hw Ht) as Hu'. unfold write_turn in Ht.
    destruct (write_encrypted_frame _ _ _ _ _) as [[] ?]; [|done]. injection Ht as <-. split; cbn; auto; done.
  - pose proof (shutdown_wire_inv _ _ Hu). split; cbn; auto; done.
  - destruct (read_turn_inv _ _ _ _ Hd (Hc Hc1) Ht) as (Hd' & _ & Ho & Hwd & _). split; cbn; rewrite ?Hwd; auto; done.
  - destruct (read_turn_inv _ _ _ _ Hd (Hc Hc1) Ht) as (Hd' & Ho & _ & Hwd & _). pose proof (drop_wire_inv _ _ Hu).
    split; cbn; rewrite ?Hwd; auto; done.
  - pose proof (partly_inv _ n _ _ Hd (Hc Hc1) Ht) as Hd'.
    destruct (read_turn_inv _ _ _ _ Hd (Hc Hc1) Ht) as (_ & _ & _ & Hwd & _). pose proof (drop_wire_inv _ _ Hu).
    split; cbn; rewrite ?Hwd; auto; done.
  - pose proof (drop_wire_inv _ _ Hu). pose proof (reset_sink_inv _ _ Hd). split; cbn; auto; done.
  - pose proof (write_turn_inv _ _ _ _ _ Hd Hw Ht) as Hd'. unfold write_turn in Ht.
    destruct (write_encrypted_frame _ _ _ _ _) as [[] ?]; [|done]. injection Ht as <-. split; cbn; auto; done.
  - pose proof (shutdown_wire_inv _ _ Hd) as Hd'. destruct (joined_inv (up x) (shutdown_wire (down x))) as [J1 J2].
    destruct (Hr Hs1) as [Hr1 _]. split; cbn; auto; done.
  - destruct (read_turn_inv _ _ _ _ Hu Hk Ht) as (Hu' & _ & Ho & _). split; cbn; auto; try done.
    intros _. rewrite Ho by done. by split; [|intros [? _]].
  - destruct (read_turn_inv _ _ _ _ Hu Hk Ht) as (Hu' & Ho & _). specialize (Ho eq_refl).
    destruct (joined_inv u (down x)) as [J1 J2]. split; cbn; auto. intros Hj. rewrite Ho. split; [done|].
    intros Hb. apply (J2 Hj); [by rewrite Ho|]. by rewrite Ho.
  - pose proof (partly_inv _ n _ _ Hu Hk Ht) as Hu'. pose proof (drop_wire_inv _ _ Hd). split; cbn; auto; done.
  - pose proof (reset_sink_inv _ _ Hu). pose proof (drop_wire_inv _ _ Hd). split; cbn; auto; done.
  - pose proof (cut_wire_inv _ n _ Hu). split; cbn; auto; done.
  - pose proof (cut_wire_inv _ n _ Hd). split; cbn; auto; done.
Qed.

Lemma session_reachable x : rtc (session_step key) session_start x → session_inv x.
Proof.
  revert x. apply rtc_ind_r; [|intros x y _ Hs Hi; by eapply session_inv_step].
  split; cbn; try done; try apply flow_start_inv. by intros _; split; [|intros [? _]].
Qed.

(** C18: a clean end means everything arrived. In every reachable state of a
    session, whatever order its two ends advance in, wherever the network
    cuts it and whenever an end fails or is cancelled: the target was given
    a prefix of what the application sent and the application a prefix of
    what the target sent; a socket is closed cleanly only after all of its
    direction was delivered and its source had ended, so that a cut transfer
    is never taken for a complete one; and an end that finished had its
    download, or at the server both directions, complete. *)
Theorem clean_end_is_complete x : rtc (session_step key) session_start x →
  x.(up).(got) `prefix_of` x.(up).(sent) ∧ x.(down).(got) `prefix_of` x.(down).(sent) ∧
  (x.(up).(sink) = Some Fin → x.(up).(got) = x.(up).(sent) ∧ x.(up).(w_done) = true) ∧
  (x.(down).(sink) = Some Fin → x.(down).(got) = x.(down).(sent) ∧ x.(down).(w_done) = true) ∧
  (x.(client) = Finished → x.(down).(got) = x.(down).(sent)) ∧
  (x.(server) = Finished → x.(up).(got) = x.(up).(sent) ∧ x.(down).(w_done) = true).
Proof.
  intros [Hu Hd Hc Hf Hs _]%session_reachable. destruct Hu as [Pu Fu _ _ _], Hd as [Pd Fd _ _ _]. split_and!; auto.
  - intros E. by apply Fd, Hf.
  - intros E. destruct (Hs E) as [K W]. split; [by apply Fu|done].
Qed.

(** ** Finishing *)

(** What is on the way is read to the clean end. *)
Lemma drain d ps : ∀ f bytes, pending d f ps bytes → f.(wire_end) = Some Fin → f.(w_done) = true → f.(sink) = None →
  ∃ f1 f2, rtc (λ g g', g.(sink) = None ∧ read_turn key d g = Some (Ok (g', true))) f f1 ∧ f1.(sink) = None ∧
    read_turn key d f1 = Some (Ok (f2, false)) ∧ f2.(got) = f.(sent) ∧ f2.(sent) = f.(sent) ∧ f2.(sink) = Some Fin ∧
    f1.(w_done) = true ∧ f2.(w_done) = true ∧ f1.(wire_end) = Some Fin.
Proof.
  induction ps as [|p ps IH]; intros f bytes Hp He Hw Hs; pose proof (read_turn_cases d f _ _ Hp (λ _, Hw)) as Hx;
    destruct (read_turn key d f) as [[[f' []]|e]|] eqn:Hr; try (by destruct Hx as (? & ? & ? & ? & [=] & _)); try congruence;
    try (by destruct Hx as [? ?]; congruence); try (by destruct Hx).
  - destruct Hx as (_ & _ & Hf'). exists f, f'. pose proof (pe_sent _ _ _ _ Hp) as Hse. cbn in Hse. rewrite app_nil_r in Hse.
    rewrite Hf'. split_and!; try done. by rewrite <- Hf'.
  - destruct Hx as (p' & ps' & fr & bytes' & [= -> ->] & -> & Hp' & Hg & Hse & Hwd & Hwe & Hsi).
    destruct (IH f' bytes' Hp') as (f1 & f2 & Hrtc & Hrest); [congruence..|].
    exists f1, f2. split; [by eapply rtc_l|]. by rewrite Hse in Hrest.
Qed.

Notation steps := (rtc (session_step key)).
Notation reads d := (rtc (λ g g', g.(sink) = None ∧ read_turn key d g = Some (Ok (g', true)))).

Lemma up_reads u u' : reads TO_SERVER u u' → ∀ dn c, steps (mkSession u dn c Running) (mkSession u' dn c Running).
Proof.
  induction 1 as [u|u u1 u' [Hs Hr] _ IH]; intros dn c; [done|]. eapply rtc_l; [|apply IH].
  by apply (server_frame key (mkSession u dn c Running)).
Qed.
Lemma down_reads dn dn' : reads TO_CLIENT dn dn' → ∀ u sv, steps (mkSession u dn Running sv) (mkSession u dn' Running sv).
Proof.
  induction 1 as [dn|dn d1 dn' [Hs Hr] _ IH]; intros u sv; [done|]. eapply rtc_l; [|apply IH].
  by apply (client_frame key (mkSession u dn Running sv)).
Qed.

(** The source of a direction that still runs can end. *)
Lemma close_up u dn sv : flow_inv TO_SERVER u → u.(wire_end) ≠ Some Rst → ∃ u',
  steps (mkSession u dn Running sv) (mkSession u' dn Running sv) ∧ u'.(w_done) = true ∧ u'.(wire_end) = Some Fin ∧
  u'.(sent) = u.(sent) ∧ u'.(got) = u.(got) ∧ u'.(sink) = u.(sink).
Proof.
  intros Hi He. destruct (w_done u) eqn:Hw.
  - exists u. pose proof (fi_done _ _ Hi Hw). destruct (wire_end u) as [[]|]; by split_and!.
  - exists (shutdown_wire u). split; [by apply rtc_once, (client_eof key (mkSession u dn Running sv))|].
    cbn. destruct (wire_end u) as [[]|]; by split_and!.
Qed.

(** The server reads what is on the way and ends its upload. *)
Lemma finish_up u dn : flow_inv TO_SERVER u → u.(w_done) = true → u.(wire_end) = Some Fin → u.(sink) ≠ Some Rst →
  (u.(sink) = Some Fin → dn.(w_done) = false) → ∃ u' sv,
  steps (mkSession u dn Running Running) (mkSession u' dn Running sv) ∧ u'.(sink) = Some Fin ∧ u'.(got) = u.(sent) ∧
  sv = joined u' dn.
Proof.
  intros Hi Hw He Hs Hj. destruct (sink u) as [[]|] eqn:Hk; [|done|].
  - exists u, Running. split; [done|]. split; [done|]. split; [by apply (fi_fin _ _ Hi)|].
    unfold joined. by rewrite Hk, Hj.
  - destruct (fi_open _ _ Hi Hk) as (ps & bytes & Hp). destruct (drain _ _ _ _ Hp He Hw Hk) as
      (f1 & f2 & Hr & Hk1 & Hend & Hg & _ & Hk2 & _). exists f2, (joined f2 dn). split; [|by split_and!].
    eapply rtc_r; [by apply up_reads|]. by apply (server_end key (mkSession f1 dn Running Running)).
Qed.

(** C19: a session can always finish. In every reachable state in which both
    ends still run and the network has not cut the connection, whatever has
    been read and written so far, the session can go on to an end where both
    ends have finished, the target was given all that the application sent
    and the application all that the target sent: no order of the two
    directions at the two ends blocks it. *)
Theorem session_can_finish x : rtc (session_step key) session_start x →
  x.(client) = Running → x.(server) = Running → x.(up).(wire_end) ≠ Some Rst → x.(down).(wire_end) ≠ Some Rst →
  ∃ y, rtc (session_step key) x y ∧ y.(client) = Finished ∧ y.(server) = Finished ∧
    y.(up).(got) = x.(up).(sent) ∧ y.(down).(got) = x.(down).(sent).
Proof.
  intros Hr Hc Hs Hu Hd. destruct (session_reachable x Hr) as [Iu Id Ic _ _ Is]. specialize (Ic Hc). destruct (Is Hs) as [Is1 Is2].
  destruct x as [u dn c sv]. cbn in *. subst c sv.
  destruct (close_up u dn Running Iu Hu) as (u1 & R1 & W1 & E1 & S1 & _ & K1).
  assert (flow_inv TO_SERVER u1) as Iu1 by (apply (si_up (mkSession u1 dn Running Running)), session_reachable; by etrans).
  destruct (finish_up u1 dn Iu1 W1 E1) as (u2 & sv & R2 & K2 & G2 & Hsv); [congruence| |].
  { intros K. destruct (w_done dn) eqn:Hw; [|done]. exfalso. apply Is2. by rewrite <- K1. }
  assert (∃ d1, steps (mkSession u2 dn Running sv) (mkSession u2 d1 Running Finished) ∧ d1.(w_done) = true ∧
    d1.(wire_end) = Some Fin ∧ d1.(sent) = dn.(sent) ∧ d1.(sink) = None ∧ flow_inv TO_CLIENT d1) as (d1 & R3 & W3 & E3 & S3 & K3 & I3).
  { destruct (w_done dn) eqn:Hw.
    - exists dn. unfold joined in Hsv. rewrite K2, Hw in Hsv. cbn in Hsv. subst sv. pose proof (fi_done _ _ Id Hw).
      split; [done|]. split; [done|]. split; [by destruct (wire_end dn) as [[]|]|done].
    - exists (shutdown_wire dn). unfold joined in Hsv. rewrite K2, Hw in Hsv. cbn in Hsv. subst sv. split.
      + apply rtc_once. pose proof (server_eof key (mkSession u2 dn Running Running) eq_refl Hw) as K. cbn in K.
        unfold joined in K. rewrite K2 in K. exact K.
      + pose proof (shutdown_wire_inv _ _ Id). cbn. pose proof (fi_close _ _ Id). destruct (wire_end dn) as [[]|]; by split_and!. }
  destruct (fi_open _ _ I3 K3) as (ps & bytes & Hp). destruct (drain _ _ _ _ Hp E3 W3 K3) as
    (f1 & f2 & R4 & _ & Hend & Hg & _). exists (mkSession (drop_wire u2) f2 Finished Finished). split_and!; try done; cbn; try congruence.
  etrans; [exact R1|]. etrans; [exact R2|]. etrans; [exact R3|]. eapply rtc_r; [by apply down_reads|].
  by apply (client_end key (mkSession u2 f1 Running Finished)).
Qed.
End session.
End SessionEnd.

Module SessionEndDemo.
Import Frames FramesSpec ToyAead FramesDemo Copy SessionEnd.

(** The application sent two chunks; the server has read the first. *)
Lemma demo_run : ∃ x, rtc (session_step demo_key) session_start x ∧ x.(client) = Running ∧ x.(server) = Running ∧
  x.(up).(wire_end) = None ∧ x.(down).(wire_end) = None ∧ x.(up).(sent) = lit "GET /bye" ∧ x.(up).(got) = lit "GET /" ∧
  x.(down).(sent) = [].
Proof.
  eexists. split.
  { eapply rtc_l; [eapply (client_read demo_key session_start 3 (lit "GET /")); [done|done|done|apply Nat.leb_le; reflexivity|reflexivity]|].
    eapply rtc_l; [eapply (client_read demo_key _ 0 (lit "bye")); [done|done|done|apply Nat.leb_le; reflexivity|reflexivity]|].
    eapply rtc_once. eapply server_frame; [done|done|vm_compute; reflexivity]. }
  by split_and!.
Qed.

Lemma clean_end_is_complete_witness : ∃ x, rtc (session_step demo_key) session_start x ∧
  x.(up).(got) = lit "GET /" ∧ x.(up).(got) `prefix_of` x.(up).(sent).
Proof.
  destruct demo_run as (x & Hr & _ & _ & _ & _ & _ & Hg & _). exists x. split; [done|]. split; [done|].
  exact (proj1 (clean_end_is_complete demo_key x Hr)).
Defined.

Lemma session_can_finish_witness : ∃ y, rtc (session_step demo_key) session_start y ∧ y.(client) = Finished ∧
  y.(server) = Finished ∧ y.(up).(got) = lit "GET /bye".
Proof.
  destruct demo_run as (x & Hr & Hc & Hs & Hu & Hd & Hse & _).
  destruct (session_can_finish demo_key x Hr Hc Hs) as (y & Hy & Hyc & Hys & Hg & _); [by rewrite Hu|by rewrite Hd|].
  exists y. split; [by etrans|]. split; [done|]. split; [done|]. by rewrite Hg.
Defined.

End SessionEndDemo.
