(* ===== verification/QuicEnd.v ===== *)
(** * Copying over a QUIC session, and how it ends
      ([werewolfd/src/quic_fang.rs], [transport/quic.rs])

    [Module QuicCopy]: [proxy_streams] of the initiator, the copying of the
    receiver and the loop of its connection as the steps of one system. Each
    direction is a [Stream]: what its writer gave to QUIC, whether it had read
    the end of its source, whether it finished or reset the stream, how much
    has arrived at the other node, and what the sink there was given. Quinn
    delivers a stream in order, reports its end only after all of a finished
    stream, lets a reader have what arrived before the connection closed, and
    resolves [stopped()] to [None] when all of the stream has arrived; what is
    on the way when a stream is reset, or the connection closed, may still
    arrive until the other node learns of that. The initiator closes the
    connection when it is done, in any way, with code 0; the receiver's loop
    drains its sessions after that code and aborts them after any other end.

    [Module QuicEnd]: nothing but a prefix is delivered, a clean end means
    that its source had ended and everything was delivered, a failed end is
    never seen as a clean one, and an initiator that ended cleanly left the
    receiver all it needs to finish, which the receiver's loop lets it do. *)

From stdpp Require Import gmap.
From S2P Require Export SessionEnd.

Local Open Scope Z_scope.

Module QuicCopy.
Import Copy.

Record Stream : Type := mkStream {
  q_sent : list byte;
  (** The writer read the end of its source. *)
  q_eof : bool;
  q_fin : bool;
  q_reset : bool;
  q_arrived : nat;
  (** The end of the stream has arrived. *)
  q_whole : bool;
  (** Nothing more arrives. *)
  q_lost : bool;
  q_got : list byte;
  q_sink : option Ending
}.
Definition stream_start : Stream := mkStream [] false false false 0 false false [] None.

Definition write_stream (buf : list byte) (s : Stream) : Stream :=
  mkStream (s.(q_sent) ++ buf) s.(q_eof) s.(q_fin) s.(q_reset) s.(q_arrived) s.(q_whole) s.(q_lost) s.(q_got) s.(q_sink).
Definition read_eof (s : Stream) : Stream :=
  mkStream s.(q_sent) true s.(q_fin) s.(q_reset) s.(q_arrived) s.(q_whole) s.(q_lost) s.(q_got) s.(q_sink).
(** [finish()], [shutdown()] of the stream. *)
Definition finish_stream (s : Stream) : Stream :=
  mkStream s.(q_sent) s.(q_eof) true s.(q_reset) s.(q_arrived) s.(q_whole) s.(q_lost) s.(q_got) s.(q_sink).
(** [reset()] of the stream. *)
Definition reset_stream (s : Stream) : Stream :=
  mkStream s.(q_sent) s.(q_eof) s.(q_fin) true s.(q_arrived) s.(q_whole) s.(q_lost) s.(q_got) s.(q_sink).
Definition arrive (n : nat) (s : Stream) : Stream :=
  mkStream s.(q_sent) s.(q_eof) s.(q_fin) s.(q_reset) (s.(q_arrived) + n) s.(q_whole) s.(q_lost) s.(q_got) s.(q_sink).
Definition arrive_end (s : Stream) : Stream :=
  mkStream s.(q_sent) s.(q_eof) s.(q_fin) s.(q_reset) s.(q_arrived) true s.(q_lost) s.(q_got) s.(q_sink).
Definition lose (s : Stream) : Stream :=
  mkStream s.(q_sent) s.(q_eof) s.(q_fin) s.(q_reset) s.(q_arrived) s.(q_whole) true s.(q_got) s.(q_sink).

(** [copy]: some of what arrived and was not yet read goes to the sink. *)
Definition deliver (n : nat) (s : Stream) : Stream :=
  mkStream s.(q_sent) s.(q_eof) s.(q_fin) s.(q_reset) s.(q_arrived) s.(q_whole) s.(q_lost)
    (s.(q_got) ++ take n (drop (length s.(q_got)) (take s.(q_arrived) s.(q_sent)))) s.(q_sink).
(** The stream was read to its end: the sink is shut down. *)
Definition at_end (s : Stream) : bool := s.(q_whole) && (length s.(q_got) =? s.(q_arrived))%nat.
Definition shut (s : Stream) : Stream :=
  mkStream s.(q_sent) s.(q_eof) s.(q_fin) s.(q_reset) s.(q_arrived) s.(q_whole) s.(q_lost) s.(q_got) (Some Fin).
(** A socket that is armed is closed. *)
Definition close_armed (s : Stream) : Stream :=
  mkStream s.(q_sent) s.(q_eof) s.(q_fin) s.(q_reset) s.(q_arrived) s.(q_whole) s.(q_lost) s.(q_got)
    match s.(q_sink) with None => Some Rst | e => e end.

(** The connection: open, closed by the initiator's application with a code,
    or ended in another way (lost, closed by the receiver). *)
Inductive Link : Type := Open | Closed (code : Z) | Lost.
(** The loop of the receiver's connection: it serves, it waits for its tasks
    after the close, it aborted them. *)
Inductive Loop : Type := Serving | Draining | Ended.

(** [q_up] goes from the application to the target. *)
Record Quic : Type := mkQuic {
  q_up : Stream; q_down : Stream; q_client : Outcome; q_server : Outcome; q_link : Link; q_loop : Loop
}.
Definition quic_start : Quic := mkQuic stream_start stream_start Running Running Open Serving.

Definition with_up (u : Stream) (x : Quic) : Quic :=
  mkQuic u x.(q_down) x.(q_client) x.(q_server) x.(q_link) x.(q_loop).
Definition with_down (d : Stream) (x : Quic) : Quic :=
  mkQuic x.(q_up) d x.(q_client) x.(q_server) x.(q_link) x.(q_loop).

(** [drop] of [AbortiveSend] and of the armed socket. *)
Definition initiator_failed (x : Quic) : Quic :=
  mkQuic (reset_stream x.(q_up)) (close_armed x.(q_down)) Failed x.(q_server) x.(q_link) x.(q_loop).
Definition initiator_finished (x : Quic) : Quic :=
  mkQuic x.(q_up) x.(q_down) Finished x.(q_server) x.(q_link) x.(q_loop).
(** [drop] of [CloseClientConnection]: the code is 0. *)
Definition close_connection (x : Quic) : Quic :=
  mkQuic x.(q_up) (lose x.(q_down)) x.(q_client) x.(q_server) (Closed 0) x.(q_loop).
(** The receiver's session failed, or was cancelled: [reset] and [stop]. *)
Definition receiver_failed (x : Quic) : Quic :=
  mkQuic (lose (close_armed x.(q_up))) (reset_stream x.(q_down)) x.(q_client) Failed x.(q_link) x.(q_loop).
(** [try_join!] at the receiver. *)
Definition receiver_joined (x : Quic) : Quic :=
  mkQuic x.(q_up) x.(q_down) x.(q_client)
    (if bool_decide (x.(q_up).(q_sink) = Some Fin) && x.(q_down).(q_fin) then Finished else Running) x.(q_link) x.(q_loop).

(** [abort_all] and the end of the loop. A task that still ran is dropped,
    after the connection has ended: its stream sends nothing more. *)
Definition abort_all (x : Quic) : Quic :=
  match x.(q_server) with
  | Running => mkQuic (lose (close_armed x.(q_up))) (lose x.(q_down)) x.(q_client) Failed x.(q_link) Ended
  | o => mkQuic (lose x.(q_up)) (lose x.(q_down)) x.(q_client) o x.(q_link) Ended
  end.
(** [closed()]: whether the tasks are waited for. *)
Definition drains (l : Link) : bool := match l with Closed code => code =? 0 | _ => false end.
Definition sees_close (x : Quic) : Quic :=
  if drains x.(q_link)
  then mkQuic (lose x.(q_up)) x.(q_down) x.(q_client) x.(q_server) x.(q_link) Draining
  else abort_all x.
(** Silver, or a limit: the receiver closes the connection with an error. *)
Definition receiver_closes (x : Quic) : Quic :=
  abort_all (mkQuic x.(q_up) x.(q_down) x.(q_client) x.(q_server) Lost x.(q_loop)).

Inductive quic_step : Quic → Quic → Prop :=
| initiator_reads x buf : x.(q_client) = Running → x.(q_up).(q_fin) = false →
    quic_step x (with_up (write_stream buf x.(q_up)) x)
| initiator_eof x : x.(q_client) = Running → x.(q_up).(q_fin) = false →
    quic_step x (with_up (finish_stream (read_eof x.(q_up))) x)
| initiator_writes x n : x.(q_client) = Running → x.(q_down).(q_sink) = None →
    quic_step x (with_down (deliver n x.(q_down)) x)
| initiator_shuts x : x.(q_client) = Running → x.(q_down).(q_sink) = None → at_end x.(q_down) = true →
    quic_step x (with_down (shut x.(q_down)) x)
| initiator_done x : x.(q_client) = Running → x.(q_up).(q_fin) = true → x.(q_down).(q_sink) = Some Fin →
    (** [stopped()] is [Ok(None)]. *)
    x.(q_up).(q_whole) = true →
    quic_step x (initiator_finished x)
| initiator_fails x : x.(q_client) = Running → quic_step x (initiator_failed x)
| initiator_closes x : x.(q_client) ≠ Running → x.(q_link) = Open → quic_step x (close_connection x)
| receiver_reads x buf : x.(q_server) = Running → x.(q_down).(q_fin) = false →
    quic_step x (with_down (write_stream buf x.(q_down)) x)
| receiver_eof x : x.(q_server) = Running → x.(q_down).(q_fin) = false →
    quic_step x (receiver_joined (with_down (finish_stream (read_eof x.(q_down))) x))
| receiver_writes x n : x.(q_server) = Running → x.(q_up).(q_sink) = None →
    quic_step x (with_up (deliver n x.(q_up)) x)
| receiver_shuts x : x.(q_server) = Running → x.(q_up).(q_sink) = None → at_end x.(q_up) = true →
    quic_step x (receiver_joined (with_up (shut x.(q_up)) x))
| receiver_fails x : x.(q_server) = Running → quic_step x (receiver_failed x)
| loop_sees_close x : x.(q_loop) = Serving → x.(q_link) ≠ Open → quic_step x (sees_close x)
| loop_closes x : x.(q_loop) = Serving → x.(q_link) = Open → quic_step x (receiver_closes x)
| drain_window_over x : x.(q_loop) = Draining → quic_step x (abort_all x)
| up_arrives x n : x.(q_up).(q_lost) = false → (x.(q_up).(q_arrived) + n ≤ length x.(q_up).(q_sent))%nat →
    quic_step x (with_up (arrive n x.(q_up)) x)
| down_arrives x n : x.(q_down).(q_lost) = false → (x.(q_down).(q_arrived) + n ≤ length x.(q_down).(q_sent))%nat →
    quic_step x (with_down (arrive n x.(q_down)) x)
| up_ends x : x.(q_up).(q_lost) = false → x.(q_up).(q_fin) = true → x.(q_up).(q_arrived) = length x.(q_up).(q_sent) →
    quic_step x (with_up (arrive_end x.(q_up)) x)
| down_ends x : x.(q_down).(q_lost) = false → x.(q_down).(q_fin) = true →
    x.(q_down).(q_arrived) = length x.(q_down).(q_sent) →
    quic_step x (with_down (arrive_end x.(q_down)) x)
| up_reset x : x.(q_up).(q_reset) = true → quic_step x (with_up (lose x.(q_up)) x)
| down_reset x : x.(q_down).(q_reset) = true → quic_step x (with_down (lose x.(q_down)) x)
| connection_lost x : x.(q_link) = Open →
    quic_step x (mkQuic (lose x.(q_up)) (lose x.(q_down)) x.(q_client) x.(q_server) Lost x.(q_loop)).

(** The loop has noticed that the connection ended. *)
Definition close_seen (x : Quic) : Quic := match x.(q_loop) with Serving => sees_close x | _ => x end.

End QuicCopy.

Module QuicEnd.
Import Copy QuicCopy.

(** ** One direction *)

Record stream_wf (s : Stream) : Prop := {
  sw_arrived : (s.(q_arrived) ≤ length s.(q_sent))%nat;
  sw_got : s.(q_got) `prefix_of` take s.(q_arrived) s.(q_sent);
  sw_fin : s.(q_fin) = true → s.(q_eof) = true;
  sw_whole : s.(q_whole) = true → s.(q_fin) = true ∧ s.(q_arrived) = length s.(q_sent);
  sw_sink : s.(q_sink) = Some Fin → s.(q_whole) = true ∧ s.(q_got) = s.(q_sent)
}.

Lemma start_wf : stream_wf stream_start.
Proof. by split. Qed.

Lemma write_wf buf s : s.(q_fin) = false → stream_wf s → stream_wf (write_stream buf s).
Proof.
  intros Hf [Ha Hg Hfi Hw Hs]. split; cbn.
  - rewrite length_app. lia.
  - by rewrite take_app_le.
  - done.
  - intros E. destruct (Hw E). congruence.
  - intros E. destruct (Hs E) as [E' _]. destruct (Hw E'). congruence.
Qed.
Lemma finish_wf s : stream_wf s → stream_wf (finish_stream (read_eof s)).
Proof. intros [Ha Hg Hfi Hw Hs]. split; cbn; try done. intros E. by destruct (Hw E). Qed.
Lemma arrive_wf n s : (s.(q_arrived) + n ≤ length s.(q_sent))%nat → stream_wf s → stream_wf (arrive n s).
Proof.
  intros Hn [Ha Hg Hfi Hw Hs]. split; cbn; [done| |done| |done].
  - etrans; [done|]. rewrite <-(take_take_drop (q_sent s) (q_arrived s) n). by eexists.
  - intros E. destruct (Hw E). split; [done|lia].
Qed.
Lemma arrive_end_wf s : s.(q_fin) = true → s.(q_arrived) = length s.(q_sent) → stream_wf s → stream_wf (arrive_end s).
Proof. intros Hf Hl [Ha Hg Hfi Hw Hs]. split; cbn; [done..|]. intros E. split; [done|by apply Hs]. Qed.
Lemma lose_wf s : stream_wf s → stream_wf (lose s).
Proof. by intros []. Qed.
Lemma reset_stream_wf s : stream_wf s → stream_wf (reset_stream s).
Proof. by intros []. Qed.
Lemma close_armed_wf s : stream_wf s → stream_wf (close_armed s).
Proof. intros [Ha Hg Hfi Hw Hs]. split; cbn; [done..|]. by destruct (q_sink s) as [[]|]. Qed.

Lemma prefix_deliver n (got l : list byte) : got `prefix_of` l → got ++ take n (drop (length got) l) `prefix_of` l.
Proof. intros [k ->]. rewrite drop_app_length. apply prefix_app, prefix_take. Qed.
Lemma deliver_wf n s : s.(q_sink) = None → stream_wf s → stream_wf (deliver n s).
Proof. intros Hn [Ha Hg Hfi Hw Hs]. split; cbn; [done|by apply prefix_deliver|done..|congruence]. Qed.

(** At the end of the stream everything was delivered. *)
Lemma at_end_complete s : stream_wf s → at_end s = true → s.(q_whole) = true ∧ s.(q_got) = s.(q_sent).
Proof.
  intros [Ha Hg Hfi Hw Hs] [Hwh Hl%Nat.eqb_eq]%andb_prop. split; [done|]. destruct (Hw Hwh) as [_ He].
  rewrite He, firstn_all in Hg. destruct Hg as [k Hk]. rewrite Hk in He |- *. rewrite length_app in He.
  destruct k; [by rewrite app_nil_r|cbn in He; lia].
Qed.
Lemma shut_wf s : at_end s = true → stream_wf s → stream_wf (shut s).
Proof. intros He Hwf. pose proof (at_end_complete s Hwf He). destruct Hwf. by split. Qed.

(** All that arrived can be delivered. *)
Lemma deliver_all s : stream_wf s → s.(q_whole) = true → let s' := deliver (length s.(q_sent)) s in
  s'.(q_got) = s.(q_sent) ∧ at_end s' = true.
Proof.
  intros [Ha Hg Hfi Hw Hs] Hwh. destruct (Hw Hwh) as [_ He]. cbn zeta.
  assert ((deliver (length (q_sent s)) s).(q_got) = q_sent s) as Hgot.
  { unfold deliver. cbn. rewrite He, firstn_all in *. destruct Hg as [k Hk]. rewrite Hk at 2.
    rewrite drop_app_length, take_ge; [done|]. rewrite Hk, length_app. lia. }
  split; [done|]. unfold at_end. rewrite Hgot. cbn. rewrite Hwh, He. apply Nat.eqb_refl.
Qed.

Lemma stream_complete s : stream_wf s →
  s.(q_got) `prefix_of` s.(q_sent) ∧ (s.(q_sink) = Some Fin → s.(q_got) = s.(q_sent) ∧ s.(q_eof) = true).
Proof.
  intros [Ha Hg Hfi Hw Hs]. split; [etrans; [done|apply prefix_take]|].
  intros [E ->]%Hs. split; [done|]. by apply Hfi, Hw.
Qed.

(** ** The session *)

Record quic_inv (x : Quic) : Prop := {
  qi_up : stream_wf x.(q_up);
  qi_down : stream_wf x.(q_down);
  qi_client : x.(q_client) = Finished → x.(q_up).(q_whole) = true ∧ x.(q_down).(q_sink) = Some Fin;
  qi_server : x.(q_server) = Finished → x.(q_up).(q_sink) = Some Fin ∧ x.(q_down).(q_fin) = true;
  qi_running : x.(q_server) = Running →
    x.(q_up).(q_sink) ≠ Some Rst ∧ ¬ (x.(q_up).(q_sink) = Some Fin ∧ x.(q_down).(q_fin) = true);
  qi_left : x.(q_client) ≠ Running → x.(q_down).(q_sink) ≠ None;
  qi_closed : x.(q_server) ≠ Running → x.(q_up).(q_sink) ≠ None;
  qi_link : match x.(q_link) with Closed code => code = 0 ∧ x.(q_client) ≠ Running | _ => True end;
  qi_loop : match x.(q_loop) with
            | Serving => True
            | Draining => x.(q_link) = Closed 0
            | Ended => x.(q_server) ≠ Running
            end
}.

Lemma armed_closed s : (close_armed s).(q_sink) ≠ None.
Proof. cbn. by destruct (q_sink s). Qed.

#[local] Hint Resolve write_wf finish_wf arrive_wf arrive_end_wf lose_wf reset_stream_wf close_armed_wf deliver_wf
  shut_wf armed_closed : quic.

Lemma receiver_joined_inv x : x.(q_up).(q_sink) ≠ Some Rst → x.(q_server) = Running →
  stream_wf x.(q_up) → stream_wf x.(q_down) →
  (x.(q_client) = Finished → x.(q_up).(q_whole) = true ∧ x.(q_down).(q_sink) = Some Fin) →
  (x.(q_client) ≠ Running → x.(q_down).(q_sink) ≠ None) →
  match x.(q_link) with Closed code => code = 0 ∧ x.(q_client) ≠ Running | _ => True end →
  match x.(q_loop) with Serving => True | Draining => x.(q_link) = Closed 0 | Ended => x.(q_server) ≠ Running end →
  quic_inv (receiver_joined x).
Proof.
  intros Hr Hs Hu Hd Hc Hl Hk Ho.
  assert (match x.(q_loop) with Ended => False | _ => True end) as Hne by (destruct (q_loop x); auto).
  unfold receiver_joined. case_bool_decide as E; cbn [andb]; [destruct (q_fin (q_down x)) eqn:Ef|]; split;
    cbn; rewrite ?E, ?Ef; try done; try (by destruct (q_loop x)); naive_solver.
Qed.

Lemma abort_all_inv x : quic_inv x → quic_inv (abort_all x).
Proof.
  intros [Hu Hd Hc Hf Hr Hl Ho Hk Hlo]. unfold abort_all.
  destruct (q_server x) eqn:Es; split; cbn; try done; auto with quic; try (intros _; apply Ho; congruence).
  intros _. by destruct (q_sink (q_up x)).
Qed.

(** A change of one direction that neither opens nor closes anything. *)
Lemma with_up_inv u x : quic_inv x → stream_wf u → (x.(q_up).(q_whole) = true → u.(q_whole) = true) →
  u.(q_sink) = x.(q_up).(q_sink) → quic_inv (with_up u x).
Proof.
  intros [Hu Hd Hc Hf Hr Hl Ho Hk Hlo] Hw Hwh Hs. split; cbn; rewrite ?Hs; try done.
  intros E. destruct (Hc E). auto.
Qed.
Lemma with_down_inv d x : quic_inv x → stream_wf d → (x.(q_server) = Running → d.(q_fin) = x.(q_down).(q_fin)) →
  (x.(q_down).(q_fin) = true → d.(q_fin) = true) →
  (x.(q_client) ≠ Running → d.(q_sink) = x.(q_down).(q_sink)) → quic_inv (with_down d x).
Proof.
  intros [Hu Hd Hc Hf Hr Hl Ho Hk Hlo] Hw Hfin Hmono Hs. split; cbn; try done.
  - intros E. rewrite Hs by congruence. auto.
  - intros E. destruct (Hf E). auto.
  - intros E. rewrite Hfin by done. auto.
  - intros E. rewrite Hs by done. auto.
Qed.

Lemma lose_both_inv x l : quic_inv x → (l = Lost ∧ x.(q_link) = Open ∨ l = Closed 0 ∧ x.(q_client) ≠ Running ∧ x.(q_link) = Open) →
  quic_inv (mkQuic (lose x.(q_up)) (lose x.(q_down)) x.(q_client) x.(q_server) l x.(q_loop)) ∧
  quic_inv (mkQuic x.(q_up) (lose x.(q_down)) x.(q_client) x.(q_server) l x.(q_loop)).
Proof.
  intros [Hu Hd Hc Hf Hr Hl Ho Hk Hlo] Hcase.
  assert (match l with Closed code => code = 0 ∧ x.(q_client) ≠ Running | _ => True end ∧
    match x.(q_loop) with Serving => True | Draining => l = Closed 0 | Ended => x.(q_server) ≠ Running end) as [? ?].
  { destruct Hcase as [[-> E]|(-> & ? & E)]; rewrite E in Hlo; (split; [done|]); by destruct (q_loop x). }
  split; split; cbn; auto with quic.
Qed.

Lemma quic_inv_step x y : quic_step x y → quic_inv x → quic_inv y.
Proof.
  intros Hs Hi. pose proof Hi as [Hu Hd Hc Hf Hr Hl Ho Hk Hlo].
  destruct Hs as [x buf E F|x E F|x n E F|x E F G|x E F G W|x E|x E F|x buf E F|x E F|x n E F|x E F G|x E
    |x E F|x E F|x E|x n E F|x n E F|x E F G|x E F G|x E|x E|x E].
  - by apply with_up_inv; auto with quic.
  - by apply with_up_inv; auto with quic.
  - by apply with_down_inv; auto with quic.
  - by apply with_down_inv; auto with quic.
  - split; cbn; try done; [congruence|]. revert Hk. destruct (q_link x); [done| |done]. intros [_ Hn]. by destruct Hn.
  - split; cbn; auto with quic; try done; [intros _; by destruct (q_sink (q_down x))|].
    revert Hk. destruct (q_link x); [done| |done]. intros [_ Hn]. by destruct Hn.
  - by apply lose_both_inv; [|right].
  - by apply with_down_inv; auto with quic.
  - apply receiver_joined_inv; cbn; auto with quic. by apply Hr.
  - by apply with_up_inv; auto with quic.
  - apply receiver_joined_inv; cbn; auto with quic.
  - split; cbn; auto with quic; try done; [intros _; by destruct (q_sink (q_up x))|]. by destruct (q_loop x).
  - unfold sees_close. destruct (drains (q_link x)) eqn:Ed; [|by apply abort_all_inv].
    split; cbn; auto with quic. destruct (q_link x); [done| |done]. cbn in Ed. apply Z.eqb_eq in Ed. by subst.
  - apply abort_all_inv. split; cbn; auto. by rewrite E.
  - by apply abort_all_inv.
  - by apply with_up_inv; auto with quic.
  - by apply with_down_inv; auto with quic.
  - by apply with_up_inv; auto with quic.
  - by apply with_down_inv; auto with quic.
  - by apply with_up_inv; auto with quic.
  - by apply with_down_inv; auto with quic.
  - by apply lose_both_inv; [|left].
Qed.

Lemma quic_reachable x : rtc quic_step quic_start x → quic_inv x.
Proof.
  revert x. apply rtc_ind_r; [|intros x y _ Hs Hi; by eapply quic_inv_step].
  split; cbn; try done; try apply start_wf. by intros _; split; [|intros [? _]].
Qed.

(** The receiver reads what arrived and shuts the target down, when the
    connection is closed too. *)
Lemma receiver_drains x : stream_wf x.(q_up) → x.(q_up).(q_whole) = true → x.(q_up).(q_sink) = None →
  x.(q_down).(q_fin) = true → x.(q_server) = Running →
  ∃ y, rtc quic_step x y ∧ y.(q_server) = Finished ∧ y.(q_up).(q_got) = x.(q_up).(q_sent) ∧
    y.(q_up).(q_sink) = Some Fin ∧ y.(q_loop) = x.(q_loop).
Proof.
  intros Hu Hw Hs Hd Hr. destruct (deliver_all _ Hu Hw) as [Hg He]. set (u := deliver (length (q_sent (q_up x))) (q_up x)) in *.
  exists (receiver_joined (with_up (shut u) x)). split.
  - eapply rtc_l; [by apply (receiver_writes x (length (q_sent (q_up x))))|]. apply rtc_once.
    exact (receiver_shuts (with_up u x) Hr Hs He).
  - unfold receiver_joined. cbn. by rewrite Hd.
Qed.

(** C20: a QUIC session never shows a cut transfer as complete. In every
    reachable state, whatever order the two ends and the receiver's loop
    advance in and whenever an end fails, is cancelled or the connection is
    lost: each sink was given a prefix of what its writer sent, and is closed
    cleanly only after all of it, when the writer had read the end of its
    source (an end that failed before is never taken for a clean one); an
    end that is over has closed its socket, cleanly or with a reset. An
    initiator that ended cleanly had its download complete and its upload at
    the receiver's node, and a receiver that did had both complete. The
    connection the initiator then closes does not take that away: once the
    receiver's loop has seen the close, a receiver that still ran runs, and
    it can give the target all of the upload and finish. *)
Theorem quic_end_is_complete x : rtc quic_step quic_start x →
  x.(q_up).(q_got) `prefix_of` x.(q_up).(q_sent) ∧ x.(q_down).(q_got) `prefix_of` x.(q_down).(q_sent) ∧
  (x.(q_up).(q_sink) = Some Fin → x.(q_up).(q_got) = x.(q_up).(q_sent) ∧ x.(q_up).(q_eof) = true) ∧
  (x.(q_down).(q_sink) = Some Fin → x.(q_down).(q_got) = x.(q_down).(q_sent) ∧ x.(q_down).(q_eof) = true) ∧
  (x.(q_client) ≠ Running → x.(q_down).(q_sink) = Some Fin ∨ x.(q_down).(q_sink) = Some Rst) ∧
  (x.(q_server) ≠ Running → x.(q_up).(q_sink) = Some Fin ∨ x.(q_up).(q_sink) = Some Rst) ∧
  (x.(q_client) = Finished → x.(q_down).(q_sink) = Some Fin ∧ x.(q_up).(q_eof) = true ∧
     x.(q_up).(q_arrived) = length x.(q_up).(q_sent)) ∧
  (x.(q_server) = Finished → x.(q_up).(q_sink) = Some Fin ∧ x.(q_down).(q_eof) = true) ∧
  (x.(q_client) = Finished → x.(q_server) = Running → (∃ code, x.(q_link) = Closed code) →
     ∃ y, rtc quic_step (close_seen x) y ∧ y.(q_loop) = Draining ∧ y.(q_server) = Finished ∧
       y.(q_up).(q_sink) = Some Fin ∧ y.(q_up).(q_got) = x.(q_up).(q_sent)).
Proof.
  intros [Hu Hd Hc Hf Hr Hl Ho Hk Hlo]%quic_reachable.
  destruct (stream_complete _ Hu) as [Pu Fu], (stream_complete _ Hd) as [Pd Fd]. split_and!; [done..| | | | |].
  - intros E. specialize (Hl E). destruct (q_sink (q_down x)) as [[]|]; [by left|by right|done].
  - intros E. specialize (Ho E). destruct (q_sink (q_up x)) as [[]|]; [by left|by right|done].
  - intros E. destruct (Hc E) as [Hw Hs]. destruct (sw_whole _ Hu Hw) as [Hfi ?]. split_and!; [done| |done].
    by apply (sw_fin _ Hu).
  - intros E. destruct (Hf E). split; [done|]. by apply (sw_fin _ Hd).
  - intros E Es [code El]. rewrite El in Hk. destruct Hk as [-> _], (Hc E) as [Hw Hk], (Hr Es) as [Hr1 Hr2].
    destruct (sw_sink _ Hd Hk) as [Hdw _]. destruct (sw_whole _ Hd Hdw) as [Hfin _].
    assert (q_sink (q_up x) = None) as Hn by (destruct (q_sink (q_up x)) as [[]|]; [by destruct Hr2|done..]).
    assert (∃ u, close_seen x = mkQuic u x.(q_down) x.(q_client) x.(q_server) x.(q_link) Draining ∧ stream_wf u ∧
      u.(q_whole) = true ∧ u.(q_sink) = None ∧ u.(q_sent) = x.(q_up).(q_sent)) as (u & -> & Hu' & Hw' & Hs' & <-).
    { unfold close_seen, sees_close. rewrite El. cbn [drains Z.eqb]. destruct (q_loop x) eqn:Elo.
      - exists (lose (q_up x)). split_and!; auto with quic.
      - exists (q_up x). split_and!; auto. rewrite <-El, <-Elo. by destruct x.
      - congruence. }
    destruct (receiver_drains (mkQuic u (q_down x) (q_client x) (q_server x) (q_link x) Draining)) as (y & Hy & ? & ? & ? & ?);
      [done..|]. exists y. auto.
Qed.

End QuicEnd.

Module QuicEndDemo.
Import Copy QuicCopy QuicEnd.

(** The application sends and ends; the target ends without an answer; the
    initiator closes before the receiver has read anything, and the
    receiver's loop sees that. *)
Lemma quic_end_is_complete_witness : ∃ x, rtc quic_step quic_start x ∧ x.(q_client) = Finished ∧ x.(q_link) = Closed 0 ∧
  x.(q_up).(q_got) = [] ∧
  ∃ y, rtc quic_step (close_seen x) y ∧ y.(q_loop) = Draining ∧ y.(q_server) = Finished ∧ y.(q_up).(q_got) = lit "GET /".
Proof.
  assert (∃ x, rtc quic_step quic_start x ∧ x.(q_client) = Finished ∧ x.(q_server) = Running ∧ x.(q_link) = Closed 0 ∧
    x.(q_up).(q_got) = [] ∧ x.(q_up).(q_sent) = lit "GET /") as (x & Hx & Hc & Hs & Hk & Hg & Hsent).
  { eexists. split.
    - eapply rtc_l; [by apply (initiator_reads _ (lit "GET /"))|].
      eapply rtc_l; [by apply initiator_eof|]. eapply rtc_l; [by apply (up_arrives _ 5)|].
      eapply rtc_l; [by apply up_ends|]. eapply rtc_l; [by apply receiver_eof|].
      eapply rtc_l; [by apply down_ends|]. eapply rtc_l; [by apply initiator_shuts|].
      eapply rtc_l; [by apply initiator_done|]. eapply rtc_l; [by apply initiator_closes|]. apply rtc_refl.
    - repeat split. }
  destruct (quic_end_is_complete x Hx) as (_ & _ & _ & _ & _ & _ & _ & _ & Hdrain).
  destruct (Hdrain Hc Hs) as (y & Hy & Hl & Hf & _ & Hall); [by eexists|]. exists x. rewrite Hsent in Hall. eauto 12.
Defined.

End QuicEndDemo.
