(* ===== verification/Conn.v ===== *)
(** * What a connection does to the node
      ([werewolfd/src/discovery.rs], [handshake.rs], [authority/writer.rs],
      [tls_identity.rs])

    [Module Limiter]: the token bucket of the RPCs of one peer, in binary64.
    [Module TlsPin]: the one key a TLS client trusts.
    [Module Conn]: a monad for the task that serves a connection or opens
    one. The node is shared: before each step of the task the other tasks and
    threads may have changed it ([others]). What the rest of the world does
    at a step is in [Env] as well: the clocks, how an await ends, how many
    bytes a write takes, random bytes, the answers of DNS, of the target and
    of TLS. A task keeps, beside the node, its stream and what it holds, a
    trace of what is seen outside: the states it locked, the targets it
    dialled and the bytes it wrote, the last two with the gate they passed.

    Parameters: rustls and webpki ([Tls]), serde_json ([HandshakeJson]),
    x25519-dalek ([X25519]). *)

From Stdlib Require Import SpecFloat.
From stdpp Require Import gmap.
From S2P Require Export Admission.
From S2P Require Export Mutation.

Local Open Scope Z_scope.

(** ** Binary64 *)

Notation f64 := spec_float.
Definition f64_add : f64 → f64 → f64 := SFadd 53 1024.
Definition f64_sub : f64 → f64 → f64 := SFsub 53 1024.
Definition f64_mul : f64 → f64 → f64 := SFmul 53 1024.
Definition f64_div : f64 → f64 → f64 := SFdiv 53 1024.
(** An integer [as f64], rounded to nearest. *)
Definition f64_of (z : Z) : f64 := binary_normalize 53 1024 z 0 false.
(** [f64::min]. *)
Definition f64_min (a b : f64) : f64 :=
  match a, b with
  | S754_nan, _ => b
  | _, S754_nan => a
  | _, _ => if SFltb b a then b else a
  end.

Module Limiter.

Definition RPC_BURST : f64 := f64_of 16.
Definition RPC_REFILL_PER_SECOND : f64 := f64_of 4.

(** Tokens, and when they were counted, in nanoseconds. *)
Notation RpcLimiter := (gmap str (f64 * Z)).

Definition NANOS_PER_SEC : Z := 1000000000.
(** [Duration::as_secs_f64]. *)
Definition as_secs_f64 (nanos : Z) : f64 :=
  f64_add (f64_of (nanos / NANOS_PER_SEC)) (f64_div (f64_of (nanos mod NANOS_PER_SEC)) (f64_of NANOS_PER_SEC)).

Definition allow_at (fingerprint : str) (now : Z) (buckets : RpcLimiter) : bool * RpcLimiter :=
  let '(tokens, last) := default (RPC_BURST, now) (buckets !! fingerprint) in
  let elapsed := as_secs_f64 (Z.max 0 (now - last)) in
  let tokens := f64_min (f64_add tokens (f64_mul elapsed RPC_REFILL_PER_SECOND)) RPC_BURST in
  if SFleb (f64_of 1) tokens
  then (true, <[fingerprint := (f64_sub tokens (f64_of 1), now)]> buckets)
  else (false, <[fingerprint := (tokens, now)]> buckets).

End Limiter.

(** ** rustls and webpki *)

Class Tls : Type := {
  (** The SubjectPublicKeyInfo of an Ed25519 key in DER. *)
  spki_der : Key → list byte;
  (** The SubjectPublicKeyInfo of a certificate that parses. *)
  cert_spki : list byte → option (list byte)
}.
Class TlsLaws `{Tls} : Prop := { spki_der_inj : Inj eq eq spki_der }.

Module TlsPin.
Import StateValidation (PeerRecord, pr_public_key_b64).

Inductive TlsIdentityError : Type :=
| MissingPeerPublicKey | InvalidPeerPublicKey | InvalidPeltIdentity | CertificateGeneration
| PeltCertificateInvariantMismatch | MalformedCertificate | SpkiMismatch | TlsConfiguration.

Section pin.
Context `{Crypto} `{Base64} `{Tls}.

Definition canonical_spki (public : Key) : result TlsIdentityError (list byte) :=
  if key_valid public then Ok (spki_der public) else Err InvalidPeerPublicKey.
Definition canonical_spki_from_public_key_b64 (public_key_b64 : str) : result TlsIdentityError (list byte) :=
  decoded ← ok_or (b64_decode public_key_b64) InvalidPeerPublicKey;
  public ← ok_or (to_array 32 decoded) InvalidPeerPublicKey;
  if bool_decide (b64_encode (array_bytes public) = public_key_b64) then canonical_spki public
  else Err InvalidPeerPublicKey.
Definition expected_spki_for_peer (peer : PeerRecord) : result TlsIdentityError (list byte) :=
  public_key ← ok_or (pr_public_key_b64 peer) MissingPeerPublicKey;
  canonical_spki_from_public_key_b64 public_key.

Definition leaf_spki (certificate : list byte) : result TlsIdentityError (list byte) :=
  ok_or (cert_spki certificate) MalformedCertificate.
Definition require_leaf_spki (certificate expected : list byte) : result TlsIdentityError () :=
  spki ← leaf_spki certificate;
  if bool_decide (spki = expected) then Ok () else Err SpkiMismatch.

(** [ExactPeerSpkiVerifier::verify_server_cert], which no other part of a
    chain, name or time enters. *)
Definition verify_server_cert (expected_spki certificate : list byte) : bool :=
  is_ok (require_leaf_spki certificate expected_spki).

(** A client's configuration is the key it pins. *)
Definition client_config_for_selected_peer_key (public_key_b64 : option str) : result TlsIdentityError (list byte) :=
  public_key ← ok_or public_key_b64 MissingPeerPublicKey;
  canonical_spki_from_public_key_b64 public_key.

End pin.
End TlsPin.

(** ** serde_json on the handshake's messages, and x25519-dalek *)

Class HandshakeJson : Type := {
  hj_challenge :: Serde Handshake.TcpChallenge;
  hj_tcp_open :: Serde Handshake.TcpOpen;
  hj_tcp_ack :: Serde Handshake.TcpAck;
  hj_quic_open :: Serde Handshake.QuicOpen;
  hj_quic_ack :: Serde Handshake.QuicAck;
  hj_tcp_rpc :: Serde Rpc.TcpRpc;
  hj_quic_rpc :: Serde Rpc.QuicRpc;
  hj_tcp_result :: Serde Rpc.TcpRpcResult;
  hj_quic_result :: Serde Rpc.QuicRpcResult;
  (** The string under ["cmd"] of a line that is a JSON value. *)
  json_cmd : list byte → option str
}.

(** What an honest TCP handshake relies on: a line, its newline included,
    reads back; compact JSON has no newline; the command is the field; and
    the messages fit their limits. *)
Class HandshakeJsonLaws `{HandshakeJson, Crypto, Base64} : Prop := {
  hj_challenge_back : ∀ m : Handshake.TcpChallenge, from_slice (to_vec m ++ [x0a]) = Some m;
  hj_open_back : ∀ o : Handshake.TcpOpen, from_slice (to_vec o ++ [x0a]) = Some o;
  hj_ack_back : ∀ a : Handshake.TcpAck, from_slice (to_vec a ++ [x0a]) = Some a;
  hj_challenge_line : ∀ m : Handshake.TcpChallenge, x0a ∉ to_vec m;
  hj_open_line : ∀ o : Handshake.TcpOpen, x0a ∉ to_vec o;
  hj_ack_line : ∀ a : Handshake.TcpAck, x0a ∉ to_vec a;
  hj_open_cmd : ∀ o : Handshake.TcpOpen, json_cmd (to_vec o ++ [x0a]) = Some (Handshake.to_cmd o);
  hj_challenge_fits : ∀ m, Handshake.challenge_validate m = Ok () → (length (to_vec m) < 512)%nat;
  hj_open_fits : ∀ o t, Handshake.tcp_open_transcript o = Ok t → length (Handshake.to_signature o) = 88%nat →
    (Z.of_nat (length (to_vec o)) < 4096);
  hj_ack_fits : ∀ a o r t, Handshake.tcp_open_transcript o = Ok r → Handshake.tcp_ack_transcript a o r = Ok t →
    length (Handshake.ta_signature a) = 88%nat → (Z.of_nat (length (to_vec a)) < 4096)
}.

Class X25519 : Type := {
  (** [PublicKey::from(&secret)] and [secret.diffie_hellman(&public)]. *)
  x_public : array 32 → array 32;
  x_shared : array 32 → array 32 → array 32
}.
(** A public key made from a secret is not a low-order point. *)
Class X25519Laws `{X25519} : Prop := {
  x_agree : ∀ a b, x_shared a (x_public b) = x_shared b (x_public a);
  x_nonzero : ∀ a b, x_shared a (x_public b) ≠ array_fill 32 x00
}.

Module Conn.
Import Pelt Handshake Admission State.

Definition MESSAGE_LIMIT : nat := Z.to_nat 4096.
Definition CHALLENGE_LIMIT : nat := Z.to_nat 512.
Definition RESULT_LIMIT : nat := Z.to_nat (32 * 1024).
Definition WRITE_WINDOW : Z := SECOND.
Definition SERVER_WINDOW : Z := 11 * SECOND.
Definition CLIENT_WINDOW : Z := 15 * SECOND.
Definition LF : byte := x0a.

(** How an await ends: its future is ready; it is not ready by the deadline;
    the I/O fails; the task's owner drops it (its window, Silver, a closed
    connection). *)
Inductive Wake : Type := Done | Late | Failed | Dropped.
(** How TLS with a server ends: with its certificate and the bytes it will
    send; with an alert; by the transport. *)
Inductive TlsEnd : Type := TlsUp (certificate input : list byte) | TlsAlert | TlsBroken.

Inductive Event : Type :=
| Locked (s : DaemonState)
(** A sender's bucket counted: the time, the buckets before and after. *)
| Counted (fingerprint : str) (now : Z) (before after : gmap str (f64 * Z))
| Dialled (a : Authority.Authority) (lease : Z) (targets : list SocketAddr)
| Wrote (gate : option (Authority.Authority * Z)) (bytes : list byte).

Section conn.
Context {D : Type} `{Semaphore}.

Record Node : Type := mkNode {
  n_world : World D;
  n_admission : Admission;
  n_replay : QuicReplayV3;
  n_limiter : gmap str (f64 * Z)
}.

Record Env : Type := mkEnv {
  others : nat → Node → Node;
  clock : nat → Z;
  unix : nat → Z;
  wake : nat → Wake;
  takes : nat → nat;
  draws : nat → ∀ n, option (array n);
  resolves : nat → str → Z → option (list SocketAddr);
  (** The pending polls of a connect, and whether it succeeds. *)
  connects : nat → nat * bool;
  tls : nat → TlsEnd;
  exporter : nat → array 32
}.

(** [t_lease] is the gate installed on the stream's writer, [t_watch] the
    lease whose [cancelled()] a [select!] polls first, [t_count] the bytes
    read through a [CountingReader]. *)
Record Task : Type := mkTask {
  t_node : Node;
  t_turn : nat;
  t_lease : option Z;
  t_watch : option Z;
  t_permit : HandshakePermit;
  t_in : list byte;
  t_count : nat;
  t_trace : list Event
}.

Definition authority (c : Task) : Authority.Authority := c.(t_node).(n_world).(live).(l_authority).

Definition set_node (n : Node) (c : Task) : Task :=
  mkTask n c.(t_turn) c.(t_lease) c.(t_watch) c.(t_permit) c.(t_in) c.(t_count) c.(t_trace).
Definition set_lease (l : option Z) (c : Task) : Task :=
  mkTask c.(t_node) c.(t_turn) l c.(t_watch) c.(t_permit) c.(t_in) c.(t_count) c.(t_trace).
Definition set_watch (l : option Z) (c : Task) : Task :=
  mkTask c.(t_node) c.(t_turn) c.(t_lease) l c.(t_permit) c.(t_in) c.(t_count) c.(t_trace).
Definition set_permit (p : HandshakePermit) (c : Task) : Task :=
  mkTask c.(t_node) c.(t_turn) c.(t_lease) c.(t_watch) p c.(t_in) c.(t_count) c.(t_trace).
Definition set_stream (input : list byte) (count : nat) (c : Task) : Task :=
  mkTask c.(t_node) c.(t_turn) c.(t_lease) c.(t_watch) c.(t_permit) input count c.(t_trace).
Definition emit (e : Event) (c : Task) : Task :=
  mkTask c.(t_node) c.(t_turn) c.(t_lease) c.(t_watch) c.(t_permit) c.(t_in) c.(t_count) (e :: c.(t_trace)).

Definition node_live (f : DaemonState → DaemonState) (n : Node) : Node :=
  mkNode (on_live f n.(n_world)) n.(n_admission) n.(n_replay) n.(n_limiter).
Definition node_authority (a : Authority.Authority) : Node → Node := node_live (set_authority a).
Definition node_admission (a : Admission) (n : Node) : Node :=
  mkNode n.(n_world) a n.(n_replay) n.(n_limiter).
Definition node_replay (r : QuicReplayV3) (n : Node) : Node :=
  mkNode n.(n_world) n.(n_admission) r n.(n_limiter).
Definition node_limiter (l : gmap str (f64 * Z)) (n : Node) : Node :=
  mkNode n.(n_world) n.(n_admission) n.(n_replay) l.

(** ** The monad

    [Err Panicked] ends the task, by a panic or because it was dropped. *)

Definition conn (E A : Type) : Type := Task → result E A * Task.
#[export] Instance conn_ret {E} : MRet (conn E) := λ A a c, (Ok a, c).
#[export] Instance conn_bind {E} : MBind (conn E) := λ A B f m c,
  match m c with (Ok a, c') => f a c' | (Err e, c') => (Err e, c') end.
Notation io A := (conn (fault ()) A).

Definition act {E A} (f : Task → result E A * Task) : conn E A := f.
Definition of_hs {E A} (r : result E A) : conn E A := λ c, (r, c).
Definition get {E A} (f : Task → A) : conn E A := λ c, (Ok (f c), c).
Definition upd {E} (f : Task → Task) : conn E () := λ c, (Ok (), f c).
Definition ensure (b : Task → bool) : conn (fault ()) () := λ c, (h_require (b c), c).
Definition failing {E F A} (f : E → F) (m : conn E A) : conn F A := λ c,
  let '(r, c') := m c in (map_err f r, c').
(** A value with a destructor, which runs when the task is dropped too. *)
Definition finally {E A} (drop : Task → Task) (m : conn E A) : conn E A := λ c,
  let '(r, c') := m c in (r, drop c').

(** Whether the watched lease's [cancelled()] is ready. *)
Definition watched_stop (c : Task) : bool :=
  match c.(t_watch) with Some id => Authority.cancelled id (authority c) | None => false end.

Section env.
Variable env : Env.

(** One step: the others first. *)
Definition turn {E} : conn E nat := λ c,
  (Ok c.(t_turn), mkTask (env.(others) c.(t_turn) c.(t_node)) (S c.(t_turn)) c.(t_lease) c.(t_watch)
                    c.(t_permit) c.(t_in) c.(t_count) c.(t_trace)).

Definition now {E} : conn E Z := t ← turn; mret (env.(clock) t).
Definition unix_now {E} : conn E Z := t ← turn; mret (env.(unix) t).
Definition draw (n : nat) : io (array n) := t ← turn; of_hs (h_some (env.(draws) t n)).

(** An await under [timeout_at(deadline)], and under the [select!] that
    polls [cancelled()] first. *)
Definition await (deadline : option Z) : io nat :=
  t ← turn;
  _ ← ensure (λ c, negb (watched_stop c));
  match env.(wake) t with
  | Done => mret t
  | Late => match deadline with
            | Some d => if d <=? env.(clock) t then of_hs rejected else mret t
            | None => mret t
            end
  | Failed => of_hs rejected
  | Dropped => of_hs (Err Panicked)
  end.

(** A system call. *)
Definition syscall : io () :=
  t ← turn; match env.(wake) t with Failed => of_hs rejected | _ => mret () end.

(** ** The shared node *)

Definition on_authority {A} (f : Authority.Authority → Authority.Authority * option A) : io A :=
  _ ← turn;
  act (λ c, let '(a, r) := f (authority c) in (h_some r, set_node (node_authority a c.(t_node)) c)).

Definition on_admission {A} (f : Admission → Admission * hs A) : io A :=
  _ ← turn;
  act (λ c, let '(a, r) := f c.(t_node).(n_admission) in (r, set_node (node_admission a c.(t_node)) c)).

Definition on_replay (f : QuicReplayV3 → hs QuicReplayV3) : io () :=
  _ ← turn;
  act (λ c, match f c.(t_node).(n_replay) with
       | Ok r => (Ok (), set_node (node_replay r c.(t_node)) c)
       | Err e => (Err e, c)
       end).

Definition limiter_allow (fingerprint : str) : io () :=
  t ← turn;
  act (λ c, let before := c.(t_node).(n_limiter) in
       let '(allowed, l) := Limiter.allow_at fingerprint (env.(clock) t) before in
       (h_require allowed, emit (Counted fingerprint (env.(clock) t) before l) (set_node (node_limiter l c.(t_node)) c))).

(** [state.lock().await], and what is done under the lock. *)
Definition lock_state {A} (f : DaemonState → hs (A * DaemonState)) : io A :=
  _ ← await None;
  act (λ c, let s := c.(t_node).(n_world).(live) in
       match f s with
       | Ok (a, s') => (Ok a, emit (Locked s) (set_node (node_live (λ _, s') c.(t_node)) c))
       | Err e => (Err e, emit (Locked s) c)
       end).
Definition read_state {A} (f : DaemonState → hs A) : io A :=
  lock_state (λ s, a ← f s; Ok (a, s)).

(** ** The permits *)

Definition permit_authenticated (fp : str) : io () :=
  p ← get t_permit;
  p' ← on_admission (λ a, match authenticated a p fp with
                          | Ok (a', p') => (a', Ok p')
                          | Err e => (a, Err e)
                          end);
  upd (set_permit p').

Definition permit_target (fp : str) : io TargetWorkPermit :=
  p ← get t_permit; on_admission (λ a, permit_target_work a p fp).

Definition others_step (c : Task) : Task := (turn (E := ()) c).2.
Definition drop_target_work (w : TargetWorkPermit) (c : Task) : Task :=
  let c := others_step c in set_node (node_admission (drop_target c.(t_node).(n_admission) w) c.(t_node)) c.
Definition drop_permit (c : Task) : Task :=
  let c := others_step c in
  set_node (node_admission (drop_handshake c.(t_node).(n_admission) c.(t_permit)) c.(t_node)) c.
Definition drop_lease (id : Z) (c : Task) : Task :=
  let c := others_step c in set_node (node_authority (Authority.drop_lease id (authority c)) c.(t_node)) c.

(** The [select!] whose first branch is [lease.cancelled()]. *)
Definition watching {A} (id : Z) (m : io A) : io A :=
  _ ← upd (set_watch (Some id)); finally (set_watch None) m.

(** [AuthorityTcpStream::authorize], [AuthorityWriter::new]. *)
Definition authorize_stream (id : Z) : io () :=
  l ← get t_lease;
  _ ← of_hs (h_require (bool_decide (l = None)));
  upd (set_lease (Some id)).
Definition authority_writer (id : Z) : io () := upd (set_lease (Some id)).

(** ** The stream *)

Definition read_byte (counting : bool) (deadline : Z) : io byte :=
  _ ← await (Some deadline);
  act (λ c, match c.(t_in) with
       | [] => (rejected, c)
       | b :: rest => (Ok b, set_stream rest (if counting then S c.(t_count) else c.(t_count)) c)
       end).

(** One line of at most [n] bytes, its LF included. *)
Fixpoint read_line (counting : bool) (n : nat) (deadline : Z) : io (list byte) :=
  match n with
  | O => of_hs rejected
  | S n =>
      b ← read_byte counting deadline;
      if bool_decide (b = LF) then mret [b]
      else rest ← read_line counting n deadline; mret (b :: rest)
  end.

(** The poll of a write through the stream's writer: bytes taken. With TLS
    between, the bytes are those whose ciphertext is submitted. *)
Definition poll_write (data : list byte) : io nat :=
  t ← turn;
  act (λ c, let n := Nat.min (env.(takes) t) (length data) in
       match c.(t_lease) with
       | None => (Ok n, emit (Wrote None (take n data)) c)
       | Some id =>
           let '(a, r) := Authority.submit id (Some n) (authority c) in
           match r with
           | Some n => (Ok n, emit (Wrote (Some (authority c, id)) (take n data)) c)
           | None => (rejected, c)
           end
       end).

(** [write_all]: a poll that takes nothing is an error, so the data's
    length is fuel enough. *)
Fixpoint write_all (fuel : nat) (deadline : Z) (data : list byte) : io () :=
  match data, fuel with
  | [], _ => mret ()
  | _, O => of_hs rejected
  | _, S fuel =>
      _ ← await (Some deadline);
      n ← poll_write data;
      if (n =? 0)%nat then of_hs rejected else write_all fuel deadline (drop n data)
  end.

(** ** [handshake.rs] on the stream *)

Definition parse {A} `{Serde A} (line : list byte) : hs A := h_some (from_slice line).
Definition command `{HandshakeJson} (line : list byte) : hs str := h_some (json_cmd line).
Definition hs_read {A} `{Serde A} (counting : bool) (limit : nat) (deadline : Z) : io A :=
  line ← read_line counting limit deadline; of_hs (parse line).

Definition hs_write {A} `{Serde A} (value : A) (limit : nat) (deadline : Z) : io () :=
  let data := to_vec value ++ [LF] in
  _ ← of_hs (h_require (length data <=? limit)%nat);
  t ← now;
  write_all (length data) (Z.min deadline (t + WRITE_WINDOW)) data.

(** ** The target *)

(** One poll of the connect under the gate. *)
Definition connect_step (id : Z) (targets : list SocketAddr) : io () :=
  _ ← turn;
  act (λ c, let '(_, r) := Authority.submit id (Some tt) (authority c) in
       match r with
       | Some _ => (Ok (), emit (Dialled (authority c) id targets) c)
       | None => (rejected, c)
       end).

Fixpoint connect_polls (pending : nat) (id : Z) (targets : list SocketAddr) (deadline : Z) : io () :=
  _ ← connect_step id targets;
  match pending with
  | O => mret ()
  | S pending => _ ← await (Some deadline); connect_polls pending id targets deadline
  end.

(** [SessionLease::connect_poll]: the caller's [select!] already polls
    [cancelled()] first at every await. *)
Definition connect_poll (id : Z) (targets : list SocketAddr) (deadline : Z) : io () :=
  t ← turn;
  let '(pending, ok) := env.(connects) t in
  _ ← connect_polls pending id targets deadline;
  of_hs (h_require ok).

(** [target_policy::authorize] under the target's deadline. *)
Definition authorize_target (policy : TargetPolicy.TargetPolicy) (peer remote : str) (deadline : Z)
    : io (list SocketAddr) :=
  t ← await (Some deadline);
  of_hs (map_err (λ _, Raised ()) (TargetPolicy.authorize_with_resolver (env.(resolves) t) policy peer remote)).

End env.
End conn.
End Conn.
