(* ===== verification/TlsIdentity.v ===== *)
(** * The TLS identity of a node ([werewolfd/src/tls_identity.rs])

    [Module TlsIdentity]: the certificate a node makes of its Pelt, the TLS
    configurations of both ends, and what a client answers rustls. The pin
    itself is in Conn. [Module TlsIdentitySpec]: a node has such a certificate
    exactly when its Pelt is valid, and the clients that accept it are those
    that selected the node's key.

    Parameters: PKCS#8, rcgen and the checks of rustls ([Rcgen]). *)

From S2P Require Export Conn.

(** [KeyPair] is rcgen's. [self_signed] is of parameters without a name. *)
Class Rcgen : Type := {
  KeyPair : Type;
  to_pkcs8_der : array 32 → option (list byte);
  key_pair_from_pkcs8 : list byte → option KeyPair;
  public_key_der : KeyPair → list byte;
  self_signed : KeyPair → option (list byte);
  (** rustls: whether the provider has what TLS 1.3 needs, and whether it
      takes a certificate with a private key. *)
  tls13_supported : bool;
  single_cert : list byte → list byte → bool
}.

(** A key that was exported is imported again; a certificate is of its key. *)
Class RcgenLaws `{Crypto, Tls, Rcgen} : Prop := {
  pkcs8_back : ∀ sk, ∃ der pair, to_pkcs8_der sk = Some der ∧ key_pair_from_pkcs8 der = Some pair ∧
    public_key_der pair = spki_der (sk_public sk);
  self_signed_of : ∀ pair, ∃ cert, self_signed pair = Some cert ∧ cert_spki cert = Some (public_key_der pair);
  tls13_there : tls13_supported = true
}.

Module TlsIdentity.
Import Pelt TlsPin.
Import StateValidation (PeerRecord, pr_public_key_b64).

Definition error_text (e : TlsIdentityError) : str :=
  match e with
  | MissingPeerPublicKey => lit "selected peer has no full public key"
  | InvalidPeerPublicKey => lit "selected peer public key is invalid"
  | InvalidPeltIdentity => lit "local Pelt identity is invalid"
  | CertificateGeneration => lit "runtime TLS certificate generation failed"
  | PeltCertificateInvariantMismatch => lit "runtime certificate does not contain the local Pelt key"
  | MalformedCertificate => lit "peer certificate is malformed"
  | SpkiMismatch => lit "peer certificate SPKI does not match the selected peer"
  | TlsConfiguration => lit "hardened TLS configuration failed"
  end.

Record RuntimeTlsIdentity : Type := mkRuntimeTls { certificate : list byte; private_key : list byte }.

Section tls.
Context `{Crypto} `{Base64} `{Tls} `{Rcgen}.

(** A key field of the identity, as 32 bytes. *)
Definition key_bytes (text : str) : result TlsIdentityError (array 32) :=
  decoded ← ok_or (b64_decode text) InvalidPeltIdentity;
  ok_or (to_array 32 decoded) InvalidPeltIdentity.

Definition from_pelt (i : PeltIdentity) : result TlsIdentityError RuntimeTlsIdentity :=
  _ ← map_err (λ _, InvalidPeltIdentity) (StateValidation.identity i);
  secret ← key_bytes i.(secret_key_b64);
  public ← key_bytes i.(public_key_b64);
  _ ← require (bool_decide (sk_public secret = public)) InvalidPeltIdentity;
  expected_spki ← canonical_spki public;
  pkcs8 ← ok_or (to_pkcs8_der secret) CertificateGeneration;
  key_pair ← ok_or (key_pair_from_pkcs8 pkcs8) CertificateGeneration;
  _ ← require (bool_decide (public_key_der key_pair = expected_spki)) PeltCertificateInvariantMismatch;
  cert ← ok_or (self_signed key_pair) CertificateGeneration;
  actual_spki ← leaf_spki cert;
  _ ← require (bool_decide (actual_spki = expected_spki)) PeltCertificateInvariantMismatch;
  Ok (mkRuntimeTls cert pkcs8).

(** ** The client *)

Inductive TlsVersion : Type := TLS12 | TLS13.
Inductive SignatureScheme : Type := ED25519.
Inductive RustlsError : Type := BadEncoding | ApplicationVerificationFailure | General.

Record ClientConfig : Type := mkClientConfig {
  c_versions : list TlsVersion;
  expected_spki : list byte;
  c_client_auth : bool;
  resumption : bool;
  enable_early_data : bool;
  c_alpn : list str
}.

Definition client_config_for_spki (expected : list byte) : result TlsIdentityError ClientConfig :=
  _ ← require tls13_supported TlsConfiguration;
  Ok (mkClientConfig [TLS13] expected false false false []).
Definition client_config_for_key (public_key_b64 : option str) : result TlsIdentityError ClientConfig :=
  expected ← client_config_for_selected_peer_key public_key_b64;
  client_config_for_spki expected.
Definition client_config_for_peer (peer : PeerRecord) : result TlsIdentityError ClientConfig :=
  client_config_for_key (pr_public_key_b64 peer).

(** What the verifier of a configuration answers rustls. *)
Definition server_cert_verdict (config : ClientConfig) (end_entity : list byte) : result RustlsError () :=
  match require_leaf_spki end_entity config.(expected_spki) with
  | Ok _ => Ok ()
  | Err MalformedCertificate => Err BadEncoding
  | Err SpkiMismatch => Err ApplicationVerificationFailure
  | Err _ => Err General
  end.
Definition verify_tls12_signature (message certificate signature : list byte) : result RustlsError () := Err General.
Definition supported_verify_schemes : list SignatureScheme := [ED25519].

(** ** The server *)

Record ServerConfig : Type := mkServerConfig {
  s_versions : list TlsVersion;
  s_client_auth : bool;
  s_certificates : list (list byte);
  s_key : list byte;
  session_storage : bool;
  send_tls13_tickets : nat;
  max_early_data_size : nat;
  s_alpn : list str
}.
Definition server_config (identity : RuntimeTlsIdentity) : result TlsIdentityError ServerConfig :=
  _ ← require tls13_supported TlsConfiguration;
  _ ← require (single_cert identity.(certificate) identity.(private_key)) TlsConfiguration;
  Ok (mkServerConfig [TLS13] false [identity.(certificate)] identity.(private_key) false 0 0 []).

End tls.
End TlsIdentity.

Module TlsIdentitySpec.
Import Pelt TlsPin TlsIdentity.
Import StateValidation (PeerRecord, pr_public_key_b64).

Section spec.
Context `{Crypto, !CryptoLaws} `{Base64, !Base64Laws} `{Tls, !TlsLaws} `{!Rcgen}.

(** What a certificate that was made is of. *)
Lemma from_pelt_spki i r : from_pelt i = Ok r → ∃ public,
  i.(public_key_b64) = b64_encode (array_bytes public) ∧ key_valid public = true ∧
  cert_spki r.(certificate) = Some (spki_der public).
Proof.
  unfold from_pelt. intros (u & Hi%map_err_Ok & Hr)%bind_Ok. destruct u.
  apply StateValidationSpec.identity_exact in Hi as [sk ->]. cbn [public_key_b64 secret_key_b64 generate_identity] in *.
  unfold key_bytes in Hr. rewrite !b64_decode_encode in Hr. cbn in Hr. rewrite !to_array_bytes in Hr. cbn in Hr.
  rewrite bool_decide_eq_true_2 in Hr by done. cbn in Hr.
  exists (sk_public sk). split; [done|]. split; [apply sk_public_valid|].
  unfold canonical_spki in Hr. rewrite sk_public_valid in Hr. cbn in Hr. unfold leaf_spki in Hr.
  ww_inv. bool_simpl. by subst.
Qed.

Lemma pin_of public : key_valid public = true →
  client_config_for_selected_peer_key (Some (b64_encode (array_bytes public))) = Ok (spki_der public).
Proof.
  intros Hv. unfold client_config_for_selected_peer_key, canonical_spki_from_public_key_b64, canonical_spki. cbn.
  rewrite b64_decode_encode. cbn. rewrite to_array_bytes. cbn. by rewrite bool_decide_eq_true_2, Hv.
Qed.

(** A pin is of one key, in its one spelling. *)
Lemma pin_inv text spki : client_config_for_selected_peer_key text = Ok spki →
  ∃ public, text = Some (b64_encode (array_bytes public)) ∧ spki = spki_der public.
Proof.
  unfold client_config_for_selected_peer_key, canonical_spki_from_public_key_b64, canonical_spki. intros Hp. ww_inv.
  bool_simpl. subst. eauto.
Qed.

Lemma verdict_ok config cert : server_cert_verdict config cert = Ok () ↔ cert_spki cert = Some config.(expected_spki).
Proof.
  unfold server_cert_verdict, require_leaf_spki, leaf_spki. destruct (cert_spki cert) as [spki|]; cbn; [|done].
  case_bool_decide as E; [by rewrite E|]. split; [done|]. by intros [= ?].
Qed.

Lemma from_pelt_valid `{!RcgenLaws} i : is_ok (from_pelt i) = true ↔ StateValidation.identity i = Ok ().
Proof.
  split.
  - unfold from_pelt. destruct (StateValidation.identity i) as [[]|]; cbn; done.
  - intros Hi. apply StateValidationSpec.identity_exact in Hi as [sk ->]. unfold from_pelt.
    rewrite (proj2 (StateValidationSpec.identity_exact _)) by eauto. cbn [map_err mbind result_bind].
    unfold key_bytes. cbn [public_key_b64 secret_key_b64 generate_identity]. rewrite !b64_decode_encode. cbn.
    rewrite !to_array_bytes. cbn. rewrite bool_decide_eq_true_2 by done. cbn.
    unfold canonical_spki. rewrite sk_public_valid. cbn. destruct (pkcs8_back sk) as (der & pair & -> & Hk & Hpub). cbn.
    rewrite Hk. cbn. rewrite Hpub, bool_decide_eq_true_2 by done. cbn.
    destruct (self_signed_of pair) as (cert & -> & Hc). cbn. unfold leaf_spki. rewrite Hc, Hpub. cbn.
    by rewrite bool_decide_eq_true_2.
Qed.

(** A certificate speaks for one Pelt. A node gets a TLS identity exactly
    when its Pelt is one that the node could have generated, whatever the
    libraries return in between; and a peer accepts the certificate, under the
    configuration it makes of its Pack entry for whom it selected, exactly
    when that entry has the node's public key. *)
Theorem certificate_pins_pelt `{!RcgenLaws} i :
  (is_ok (from_pelt i) = true ↔ StateValidation.identity i = Ok ()) ∧
  ∀ r peer, from_pelt i = Ok r →
    (∃ config, client_config_for_peer peer = Ok config ∧ server_cert_verdict config r.(certificate) = Ok ()) ↔
    pr_public_key_b64 peer = Some i.(public_key_b64).
Proof.
  split; [apply from_pelt_valid|]. intros r peer (public & Hpub & Hv & Hc)%from_pelt_spki.
  unfold client_config_for_peer, client_config_for_key, client_config_for_spki. rewrite tls13_there. split.
  - intros (config & Hcfg & Hok%verdict_ok). apply bind_Ok in Hcfg as (spki & (k & -> & ->)%pin_inv & [= <-]).
    rewrite Hc in Hok. cbn in Hok. injection Hok as Hk%spki_der_inj. by rewrite Hpub, Hk.
  - intros ->. rewrite Hpub, pin_of by done. eexists. split; [done|]. by apply verdict_ok.
Qed.

End spec.
End TlsIdentitySpec.

Module TlsIdentityDemo.
Import Toy Pelt TlsIdentity TlsIdentitySpec.
Import StateValidation (PeerRecord, mkPeerRecord, Packmate).

(** A certificate that is its key, and a key pair that is its secret. *)
#[local] Instance demo_tls : Tls := {| spki_der k := array_bytes k; cert_spki c := Some c |}.
#[local] Instance demo_tls_laws : TlsLaws.
Proof. split. intros a b. apply array_eq. Qed.
#[local] Instance demo_rcgen : Rcgen := {|
  KeyPair := list byte;
  to_pkcs8_der sk := Some (array_bytes sk);
  key_pair_from_pkcs8 der := Some der;
  public_key_der der := der;
  self_signed der := Some der;
  tls13_supported := true;
  single_cert _ _ := true
|}.
#[local] Instance demo_rcgen_laws : RcgenLaws.
Proof. split; [|by eauto|done]. intros sk. by exists (array_bytes sk), (array_bytes sk). Qed.

Definition own : PeltIdentity := generate_identity (key_of 7).
Definition runtime : RuntimeTlsIdentity := mkRuntimeTls (array_bytes (key_of 7)) (array_bytes (key_of 7)).
Definition member (k : Z) : PeerRecord :=
  mkPeerRecord (lit "wolf") own.(fingerprint) (lit "quic://198.51.100.7:4433") Packmate
    (Some (generate_identity (key_of k)).(public_key_b64)).

Lemma certificate_pins_pelt_witness : from_pelt own = Ok runtime ∧
  (∃ config, client_config_for_peer (member 7) = Ok config ∧ server_cert_verdict config runtime.(certificate) = Ok ()) ∧
  ¬ (∃ config, client_config_for_peer (member 8) = Ok config ∧ server_cert_verdict config runtime.(certificate) = Ok ()).
Proof.
  destruct (certificate_pins_pelt own) as [_ K]. split; [vm_compute; reflexivity|]. split.
  - apply (K runtime (member 7)); vm_compute; reflexivity.
  - intros Hx. apply (K runtime (member 8)) in Hx; [discriminate Hx|vm_compute; reflexivity].
Defined.
End TlsIdentityDemo.
