(* ===== verification/Session.v ===== *)
(** * Sessions: the handshakes of both ends and the RPCs
      ([werewolfd/src/transport/tcp_encrypted.rs], [transport/quic.rs],
      [quic_fang.rs], [discovery.rs])

    [Module Server]: what the receiver does with a connection, from its
    admission to the ACK or the answer of an RPC, over the encrypted TCP
    stream and over one QUIC stream. [Module Client]: the initiator's
    handshakes, the one retry of the TCP setup, and the requester of an RPC.
    Both are tasks of [Conn]. The copying that follows the ACK is in
    [SessionEnd]; a target is known by the endpoints its connect was given. *)

From stdpp Require Import gmap.
From S2P Require Export Conn.
From S2P Require Export OpenFang.

Local Open Scope Z_scope.

(** ** The session key *)

Module SessionKey.
Import Handshake.

Section key.
Context `{Crypto} `{Base64} `{X25519}.

(** A shared point of zeros comes from a low-order peer point. *)
Definition derive_shared_key (secret : array 32) (peer_public_b64 : str) : hs (array 32) :=
  peer_bytes ← h_some (b64_decode peer_public_b64);
  peer ← h_some (to_array 32 peer_bytes);
  let shared := x_shared secret peer in
  _ ← h_require (negb (bool_decide (shared = array_fill 32 x00)));
  Ok (blake3 (array_bytes shared)).

End key.
End SessionKey.

Module Server.
Import Pelt Handshake Rpc Admission State Conn SessionKey.
Import StateValidation (PeerRecord, pr_fingerprint, pr_public_key_b64).

Section server.
Context `{Crypto} `{Base64} `{HandshakeJson} `{X25519} `{Semaphore} `{Den D} (sha256 : list byte → array 32).
Notation Task := (Task (D := D)).
Notation io A := (conn (D := D) (fault ()) A).
Variable env : Env (D := D).

Definition TARGET_WINDOW : Z := 5 * SECOND.

(** ** Answering an RPC ([discovery.rs]) *)

Record Responder : Type := mkResponder {
  re_receiver : PeltIdentity;
  re_contacts : Discovery.Contacts;
  re_pack : list Key;
  re_published : list Published.PublishedService;
  re_policy : TargetPolicy.TargetPolicy;
  re_locked : bool;
  re_governance : option Gov.Head;
  re_den : bool
}.

Definition responder (unix : Z) (st : DaemonState) : hs (Responder * DaemonState) :=
  receiver ← h_some st.(l_pelt);
  let contacts := Discovery.refresh_own sha256 st.(l_contacts) receiver unix in
  Ok (mkResponder receiver contacts (Discovery.pack_keys st.(l_peers)) st.(l_published) st.(l_policy)
        (Authority.is_locked st.(l_authority)) st.(l_governance) st.(l_den), set_contacts contacts st).

(** The answer, [build] signing the records. The archive is read outside
    the lock, from the Den that was open under it. *)
Definition rpc_result {T} `{Serde T} (r : Responder) (build : ∀ R, RpcEntry R → list R → hs T)
    (request : RpcRequest) (requester : hs Key) (fp : str) : io T :=
  match request with
  | Governance head k =>
      _ ← await env None;
      d ← get (λ c : Task, c.(t_node).(n_world).(disk));
      of_hs (build Gov.Statement _
        (Discovery.governance_records r.(re_governance) (if r.(re_den) then Some d else None) head k))
  | Services =>
      t ← turn env;
      of_hs (build Published.PublishedService _
        (Discovery.visible_services (env.(resolves) t) r.(re_published) r.(re_policy) fp))
  | Ping | FindNode _ _ =>
      key ← of_hs requester;
      t ← unix_now env;
      of_hs (Discovery.fit RESULT_LIMIT (build Contact.ContactRecord _) (λ x, (length (to_vec x) + 1)%nat)
        (Discovery.answer sha256 r.(re_contacts) request key r.(re_pack) t))
  end.

(** The key of the first Pack entry with the fingerprint. *)
Definition pack_key (st : DaemonState) (fp : str) : hs str :=
  h_some match list_find (λ p, pr_fingerprint p = fp) st.(l_peers) with
         | Some (_, p) => pr_public_key_b64 p
         | None => None
         end.

Definition answer_quic (rpc : QuicRpc) (binding : array 32) (started : Z) : io () :=
  retained ← of_hs (quic_rpc_transcript rpc binding);
  u ← unix_now env;
  '(sender_key, r) ← lock_state env (λ st,
    key ← pack_key st rpc.(qr_sender_fingerprint);
    '(r, st') ← responder u st;
    Ok ((key, r), st'));
  _ ← of_hs (h_require (negb r.(re_locked)));
  _ ← of_hs (h_require (bool_decide (rpc.(qr_receiver_fingerprint) = r.(re_receiver).(fingerprint))));
  _ ← of_hs (verify sender_key retained rpc.(qr_signature));
  t ← now env;
  _ ← of_hs (h_require (t <? started + READ_WINDOW));
  _ ← permit_authenticated env rpc.(qr_sender_fingerprint);
  _ ← on_replay env (λ q, replay_reserve q rpc.(qr_sender_fingerprint) rpc.(qr_nonce));
  _ ← limiter_allow env rpc.(qr_sender_fingerprint);
  request ← of_hs (quic_request rpc);
  result ← rpc_result r (λ R _ l, quic_result_new rpc retained r.(re_receiver) l) request
    (binary 32 sender_key) rpc.(qr_sender_fingerprint);
  hs_write env result RESULT_LIMIT (started + SERVER_WINDOW).

(** The claimed key must be the Pack's, not only match the fingerprint. *)
Definition pack_has_key (st : DaemonState) (fp key : str) : bool :=
  existsb (λ p, bool_decide (pr_fingerprint p = fp) && bool_decide (pr_public_key_b64 p = Some key))
    st.(l_peers).

Definition answer_tcp (rpc : TcpRpc) (context : TcpChallengeContext) (started : Z) : io () :=
  retained ← of_hs (tcp_rpc_transcript rpc);
  requester ← of_hs (tcp_sender_key rpc);
  u ← unix_now env;
  r ← lock_state env (λ st,
    _ ← h_require (pack_has_key st rpc.(tr_sender_fingerprint) rpc.(tr_sender_pubkey));
    responder u st);
  _ ← of_hs (h_require (negb r.(re_locked)));
  t ← now env;
  _ ← of_hs (check_binding context t rpc.(tr_challenge) rpc.(tr_receiver_fingerprint));
  _ ← of_hs (verify rpc.(tr_sender_pubkey) retained rpc.(tr_signature));
  _ ← permit_authenticated env rpc.(tr_sender_fingerprint);
  t ← now env;
  _ ← of_hs (consume_binding context t rpc.(tr_challenge) rpc.(tr_receiver_fingerprint));
  _ ← limiter_allow env rpc.(tr_sender_fingerprint);
  request ← of_hs (tcp_request rpc);
  result ← rpc_result r (λ R _ l, tcp_result_new rpc retained context.(receiver) l) request
    (Ok requester) rpc.(tr_sender_fingerprint);
  hs_write env result RESULT_LIMIT (started + SERVER_WINDOW).

(** ** From the lease to the ACK

    Both transports: the target is authorized and dialled under the gate,
    the lease published, and the ACK, which [ack] signs, written through it. *)

Definition dial_target (id : Z) (policy : TargetPolicy.TargetPolicy) (sender remote : str) : io (list SocketAddr) :=
  t ← now env;
  let deadline := t + TARGET_WINDOW in
  targets ← authorize_target env policy sender remote deadline;
  _ ← connect_poll env id targets deadline;
  _ ← syscall env;
  _ ← on_authority env (Authority.locking (Authority.publish id));
  mret targets.

(** ** Encrypted TCP ([transport/tcp_encrypted.rs]) *)

Definition in_pack (fp : str) (st : DaemonState) : bool :=
  existsb (λ p, bool_decide (pr_fingerprint p = fp)) st.(l_peers).

(** The part that an authenticated OPEN reaches. *)
Definition tcp_session (open : TcpOpen) (retained : list byte) (receiver : PeltIdentity) (started : Z)
    : io (list SocketAddr * array 32 * Z) :=
  ticket ← on_authority env (Authority.ticket_text open.(to_sender_fingerprint));
  id ← on_authority env (Authority.locking (Authority.reserve ticket Authority.Tcp));
  _ ← authorize_stream id;
  watching id (
    server_secret ← draw env 32;
    key ← of_hs (derive_shared_key server_secret open.(to_client_x25519));
    policy ← read_state env (λ st, Ok st.(l_policy));
    targets ← dial_target id policy open.(to_sender_fingerprint) open.(to_remote);
    ack ← of_hs (tcp_ack_new open retained receiver (x_public server_secret));
    _ ← hs_write env ack MESSAGE_LIMIT (started + SERVER_WINDOW);
    mret (targets, key, id)).

Definition tcp_open (open : TcpOpen) (context : TcpChallengeContext) (started : Z)
    : io (list SocketAddr * array 32 * Z) :=
  retained ← of_hs (tcp_open_transcript open);
  _ ← read_state env (λ st, h_require (in_pack open.(to_sender_fingerprint) st));
  t ← now env;
  _ ← of_hs (context_check context t open);
  _ ← of_hs (verify open.(to_sender_pubkey) retained open.(to_signature));
  _ ← permit_authenticated env open.(to_sender_fingerprint);
  t ← now env;
  _ ← of_hs (context_consume context t open);
  work ← permit_target env open.(to_sender_fingerprint);
  finally (drop_target_work env work) (tcp_session open retained context.(receiver) started).

Definition tcp_server_handshake (started : Z) : io (option (list SocketAddr * array 32 * Z)) :=
  receiver ← read_state env (λ st, h_some st.(l_pelt));
  random ← draw env 32;
  t ← now env;
  context ← of_hs (context_new receiver random t);
  let context := mkContext context.(message) context.(Handshake.receiver)
    (Z.min context.(deadline) (started + READ_WINDOW)) context.(consumed) in
  _ ← hs_write env context.(message) CHALLENGE_LIMIT context.(deadline);
  line ← read_line env false MESSAGE_LIMIT context.(deadline);
  cmd ← of_hs (command line);
  if bool_decide (cmd = TCP_RPC) then
    rpc ← of_hs (parse line);
    _ ← answer_tcp rpc context started;
    mret None
  else
    open ← of_hs (parse line);
    session ← tcp_open open context started;
    mret (Some session).

(** The lease of a stream that is dropped goes with it. *)
Definition drop_stream (c : Task) : Task :=
  match c.(t_lease) with
  | Some id => set_lease None (drop_lease env id c)
  | None => c
  end.

(** [handle_fang_pipe] up to the copying, which takes the session. *)
Definition handle_fang_pipe (started : Z) : io (option (list SocketAddr * array 32 * Z)) := λ c,
  match finally (drop_permit env) (tcp_server_handshake started) c with
  | (Ok (Some session), c') => (Ok (Some session), c')
  | (Ok None, c') => let '(r, c'') := await env None c' in ((λ _, None) <$> r, drop_stream c'')
  | (Err e, c') => (Err e, drop_stream c')
  end.

(** ** The listener's admission of a connection, and TLS *)

(** The permit is taken between the two looks at the lock; the second one
    drops it. *)
Definition accept_tcp : io Z :=
  _ ← turn env;
  _ ← ensure (λ c : Task, negb (Authority.is_locked (authority c)));
  _ ← syscall env;
  started ← now env;
  permit ← on_admission env (λ a, match handshake a with Ok (a', p) => (a', Ok p) | Err e => (a, Err e) end);
  _ ← upd (set_permit permit);
  _ ← turn env;
  act (λ c, if Authority.is_locked (authority c) then (rejected, drop_permit env c) else (Ok started, c)).

(** The spawned task: the TLS accept, then the handshake. *)
Definition serve_tcp (started : Z) : io (option (list SocketAddr * array 32 * Z)) := λ c,
  match await env (Some (started + READ_WINDOW)) c with
  | (Ok _, c') => handle_fang_pipe started c'
  | (Err e, c') => (Err e, drop_permit env c')
  end.

(** ** QUIC ([transport/quic.rs]) *)

Definition quic_session (open : QuicOpen) (retained : list byte) (receiver : PeltIdentity)
    (policy : TargetPolicy.TargetPolicy) (started id : Z) : io (list SocketAddr * Z) :=
  watching id (
    targets ← dial_target id policy open.(qo_sender_fingerprint) open.(qo_remote);
    ack ← of_hs (quic_ack_new open retained receiver);
    _ ← authority_writer id;
    _ ← hs_write env ack MESSAGE_LIMIT (started + SERVER_WINDOW);
    mret (targets, id)).

(** The lease is dropped when what follows it fails. *)
Definition or_drop_lease {A} (id : Z) (m : io A) : io A := λ c,
  match m c with
  | (Ok a, c') => (Ok a, c')
  | (Err e, c') => (Err e, drop_lease env id c')
  end.

Definition quic_lease (open : QuicOpen) (retained : list byte) (receiver : PeltIdentity)
    (policy : TargetPolicy.TargetPolicy) (started connection : Z) : io (list SocketAddr * Z) :=
  ticket ← on_authority env (Authority.ticket_text open.(qo_sender_fingerprint));
  _ ← on_replay env (λ q, replay_reserve q open.(qo_sender_fingerprint) open.(qo_nonce));
  id ← on_authority env (Authority.locking (Authority.reserve ticket (Authority.Quic connection)));
  or_drop_lease id (quic_session open retained receiver policy started id).

Definition quic_open (open : QuicOpen) (binding : array 32) (started connection : Z)
    : io (list SocketAddr * Z) :=
  retained ← of_hs (quic_open_transcript open binding);
  '(sender_key, receiver, policy) ← read_state env (λ st,
    key ← pack_key st open.(qo_sender_fingerprint);
    receiver ← h_some st.(l_pelt);
    Ok (key, receiver, st.(l_policy)));
  _ ← of_hs (h_require (bool_decide (open.(qo_receiver_fingerprint) = receiver.(fingerprint))));
  _ ← of_hs (verify sender_key retained open.(qo_signature));
  t ← now env;
  _ ← of_hs (h_require (t <? started + READ_WINDOW));
  _ ← permit_authenticated env open.(qo_sender_fingerprint);
  work ← permit_target env open.(qo_sender_fingerprint);
  finally (drop_target_work env work) (quic_lease open retained receiver policy started connection).

Definition quic_server_handshake (binding : array 32) (started connection : Z)
    : io (option (list SocketAddr * Z)) :=
  line ← read_line env false MESSAGE_LIMIT (started + READ_WINDOW);
  cmd ← of_hs (command line);
  if bool_decide (cmd = QUIC_RPC) then
    rpc ← of_hs (parse line);
    _ ← answer_quic rpc binding started;
    mret None
  else
    open ← of_hs (parse line);
    session ← quic_open open binding started connection;
    mret (Some session).

(** A stream of a connection: the handshake permit and one of the
    connection's OPEN permits are held until the handshake ends. *)
Definition release_open (c : Task) : Task :=
  let c := others_step env c in
  let q := c.(t_node).(n_replay) in
  set_node (node_replay (mkReplay (release q.(opens)) q.(reservations) q.(limit)) c.(t_node)) c.

Definition take_open : io () :=
  on_replay env (λ q, s ← h_some (try_acquire q.(opens)); Ok (mkReplay s q.(reservations) q.(limit))).

Definition quic_stream (binding : array 32) (connection : Z) : io (option (list SocketAddr * Z)) :=
  started ← now env;
  permit ← on_admission env (λ a, match handshake a with Ok (a', p) => (a', Ok p) | Err e => (a, Err e) end);
  _ ← upd (set_permit permit);
  act (λ c, match take_open c with
       | (Ok _, c') =>
           finally release_open (finally (drop_permit env) (quic_server_handshake binding started connection)) c'
       | (Err e, c') => (Err e, drop_permit env c')
       end).

End server.
End Server.

Module Client.
Import Pelt Handshake Rpc State Conn SessionKey.
Import OpenFang (ExpectedPeerIdentity, ex_fingerprint, ex_public_key_b64).

Section client.
Context `{Crypto} `{Base64} `{HandshakeJson} `{X25519} `{Tls} `{Semaphore} {D : Type}.
Notation Task := (Task (D := D)).
Notation io A := (conn (D := D) (fault ()) A).
Variable env : Env (D := D).

(** ** TCP and TLS to the selected peer *)

(** [Retry]: nothing of the receiver's challenge had arrived. *)
Inductive Setup : Type := Retry (e : fault ()) | Final (e : fault ()).
Definition into_error (s : Setup) : fault () := match s with Retry e | Final e => e end.
(** [map_err(Setup::Retry)]; a dropped task ends. *)
Definition retry (e : fault ()) : Setup := match e with Raised _ => Retry e | Panicked => Final e end.

(** A connector is the key it pins. *)
Definition selected_peer_connector (expected : ExpectedPeerIdentity) : hs (list byte) :=
  map_err (λ _, Raised ()) (TlsPin.client_config_for_selected_peer_key expected.(ex_public_key_b64)).

Definition open_tcp : io () :=
  t ← now env; _ ← await env (Some (t + 5 * SECOND)); syscall env.

(** The TLS handshake; its stream starts with nothing read. *)
Definition tls_up (spki : list byte) : conn Setup () :=
  t ← failing retry (t ← now env; await env (Some (t + READ_WINDOW)));
  match env.(tls) t with
  | TlsUp certificate input =>
      if TlsPin.verify_server_cert spki certificate then upd (set_stream input 0)
      else of_hs (Err (Final (Raised ())))
  | TlsAlert => of_hs (Err (Final (Raised ())))
  | TlsBroken => of_hs (Err (Retry (Raised ())))
  end.

Definition tls_connect (spki : list byte) : io () := failing into_error (tls_up spki).

(** Over a stream that something else carries, such as a relay. *)
Definition connect_authenticated_over (expected : ExpectedPeerIdentity) : io () :=
  spki ← of_hs (selected_peer_connector expected); tls_connect spki.

Definition connect_authenticated_tcp (expected : ExpectedPeerIdentity) : io () :=
  spki ← of_hs (selected_peer_connector expected);
  _ ← open_tcp;
  _ ← syscall env;
  tls_connect spki.

(** ** The encrypted TCP session *)

Definition client_open (challenge : TcpChallenge) (remote : str) (identity : PeltIdentity)
    (expected : ExpectedPeerIdentity) : io (array 32 * TcpOpen) :=
  _ ← of_hs (challenge_validate challenge);
  _ ← of_hs (h_require (bool_decide (challenge.(tc_receiver_fingerprint) = expected.(ex_fingerprint))));
  client_secret ← draw env 32;
  nonce ← draw env 16;
  open ← of_hs (tcp_open_new identity challenge remote (x_public client_secret) nonce);
  mret (client_secret, open).

(** The ACK that answers the OPEN, and the key. *)
Definition accept_ack (ack : TcpAck) (open : TcpOpen) (retained : list byte) (client_secret : array 32)
    (expected : ExpectedPeerIdentity) : hs (array 32) :=
  _ ← h_require (bool_decide (ack.(ta_receiver_fingerprint) = expected.(ex_fingerprint)));
  t ← tcp_ack_transcript ack open retained;
  _ ← verify ack.(ta_receiver_pubkey) t ack.(ta_signature);
  derive_shared_key client_secret ack.(ta_server_x25519).

Definition client_handshake_counted (remote : str) (identity : PeltIdentity) (expected : ExpectedPeerIdentity)
    : io (array 32) :=
  t ← now env;
  let deadline := t + CLIENT_WINDOW in
  t ← now env;
  challenge ← hs_read env true CHALLENGE_LIMIT (Z.min (t + READ_WINDOW) deadline);
  '(client_secret, open) ← client_open challenge remote identity expected;
  retained ← of_hs (tcp_open_transcript open);
  _ ← hs_write env open MESSAGE_LIMIT deadline;
  ack ← hs_read env false MESSAGE_LIMIT deadline;
  of_hs (accept_ack ack open retained client_secret expected).

Definition client_handshake (remote : str) (identity : PeltIdentity) (expected : ExpectedPeerIdentity)
    : io (array 32) := client_handshake_counted remote identity expected.

(** A failed handshake is retried when no byte of the challenge was read. *)
Definition counted {A} (m : io A) : conn Setup A := λ c,
  match m c with
  | (Ok a, c') => (Ok a, c')
  | (Err e, c') => (Err (if (c'.(t_count) =? 0)%nat then retry e else Final e), c')
  end.

Definition tcp_session_attempt (remote : str) (identity : PeltIdentity) (expected : ExpectedPeerIdentity)
    : conn Setup (array 32) :=
  spki ← failing Final (of_hs (selected_peer_connector expected));
  _ ← failing retry open_tcp;
  _ ← failing retry (syscall env);
  _ ← tls_up spki;
  counted (client_handshake_counted remote identity expected).

Definition connect_tcp_session (remote : str) (identity : PeltIdentity) (expected : ExpectedPeerIdentity)
    : io (array 32) := λ c,
  match tcp_session_attempt remote identity expected c with
  | (Err (Retry _), c') => failing into_error (tcp_session_attempt remote identity expected) c'
  | (r, c') => (map_err into_error r, c')
  end.

(** ** The QUIC session ([quic_fang.rs])

    A new connection and its one stream; the binding is of that connection. *)

Definition quic_connect (spki : list byte) : io () :=
  _ ← syscall env; tls_connect spki.

(** The poll of the frame counter, the binding and the stream. *)
Definition quic_confirmed (deadline : Z) : io (array 32) :=
  _ ← await env (Some deadline);
  t ← await env (Some deadline);
  mret (quic_binding (env.(exporter) t)).

Definition accept_quic_ack (ack : QuicAck) (open : QuicOpen) (retained : list byte)
    (expected : ExpectedPeerIdentity) : hs () :=
  _ ← h_require (bool_decide (ack.(qa_receiver_fingerprint) = expected.(ex_fingerprint)));
  t ← quic_ack_transcript ack open retained;
  verify ack.(qa_receiver_pubkey) t ack.(qa_signature).

Definition connect_v3_on (spki : list byte) (remote : str) (identity : PeltIdentity)
    (expected : ExpectedPeerIdentity) : io () :=
  _ ← quic_connect spki;
  t ← now env;
  let deadline := t + CLIENT_WINDOW in
  binding ← quic_confirmed deadline;
  nonce ← draw env 16;
  open ← of_hs (quic_open_new identity expected.(ex_fingerprint) remote binding nonce);
  retained ← of_hs (quic_open_transcript open binding);
  _ ← hs_write env open MESSAGE_LIMIT deadline;
  ack ← hs_read env false MESSAGE_LIMIT deadline;
  of_hs (accept_quic_ack ack open retained expected).

Definition connect_v3 (remote : str) (identity : PeltIdentity) (expected : ExpectedPeerIdentity) : io () :=
  spki ← of_hs (selected_peer_connector expected);
  _ ← syscall env;
  connect_v3_on spki remote identity expected.

(** ** The requester of an RPC ([discovery.rs]) *)

Definition rpc_on {T} (identity : PeltIdentity) (expected : ExpectedPeerIdentity) (request : RpcRequest)
    (check : TcpRpcResult → TcpRpc → list byte → io T) : io T :=
  t ← now env;
  let deadline := t + CLIENT_WINDOW in
  challenge ← hs_read env false CHALLENGE_LIMIT deadline;
  _ ← of_hs (challenge_validate challenge);
  _ ← of_hs (h_require (bool_decide (challenge.(tc_receiver_fingerprint) = expected.(ex_fingerprint))));
  nonce ← draw env 16;
  rpc ← of_hs (tcp_rpc_new identity challenge request nonce);
  retained ← of_hs (tcp_rpc_transcript rpc);
  _ ← hs_write env rpc MESSAGE_LIMIT deadline;
  result ← hs_read env false RESULT_LIMIT deadline;
  check result rpc retained.

Definition rpc_tcp {T} (identity : PeltIdentity) (expected : ExpectedPeerIdentity) (request : RpcRequest)
    (check : TcpRpcResult → TcpRpc → list byte → io T) : io T :=
  _ ← connect_authenticated_tcp expected; rpc_on identity expected request check.

(** The same over a carried stream. *)
Definition rpc_over {T} (identity : PeltIdentity) (expected : ExpectedPeerIdentity) (request : RpcRequest)
    (check : TcpRpcResult → TcpRpc → list byte → io T) : io T :=
  _ ← connect_authenticated_over expected; rpc_on identity expected request check.

Definition rpc_quic {T} (identity : PeltIdentity) (expected : ExpectedPeerIdentity) (request : RpcRequest)
    (check : QuicRpcResult → QuicRpc → list byte → io T) : io T :=
  spki ← of_hs (selected_peer_connector expected);
  _ ← syscall env;
  _ ← quic_connect spki;
  t ← now env;
  let deadline := t + CLIENT_WINDOW in
  binding ← quic_confirmed deadline;
  nonce ← draw env 16;
  rpc ← of_hs (quic_rpc_new identity expected.(ex_fingerprint) request binding nonce);
  retained ← of_hs (quic_rpc_transcript rpc binding);
  _ ← hs_write env rpc MESSAGE_LIMIT deadline;
  result ← hs_read env false RESULT_LIMIT deadline;
  check result rpc retained.

(** The queries, each with its check of the result. *)
Definition checked {R P T} (f : R → P → list byte → hs T) (s : R) (rpc : P) (retained : list byte) : io T :=
  of_hs (f s rpc retained).
Definition query_tcp sha256 identity expected request : io (list Contact.ContactRecord) :=
  rpc_tcp identity expected request (λ s rpc retained,
    t ← unix_now env; of_hs (tcp_verify sha256 s rpc retained t)).
Definition query_quic sha256 identity expected request : io (list Contact.ContactRecord) :=
  rpc_quic identity expected request (λ s rpc retained,
    t ← unix_now env; of_hs (quic_verify sha256 s rpc retained t)).
Definition query_services_tcp identity expected : io (list Published.PublishedService) :=
  rpc_tcp identity expected Services (checked tcp_verify_services).
Definition query_services_quic identity expected : io (list Published.PublishedService) :=
  rpc_quic identity expected Services (checked quic_verify_services).
Definition query_governance_tcp identity expected head : io (list Gov.Statement) :=
  rpc_tcp identity expected (Governance head (byte_of MAX_GOVERNANCE_K)) (checked tcp_verify_governance).
Definition query_governance_quic identity expected head : io (list Gov.Statement) :=
  rpc_quic identity expected (Governance head (byte_of MAX_GOVERNANCE_K)) (checked quic_verify_governance).

(** To a routed peer. *)
Definition query_tcp_over sha256 identity expected request : io (list Contact.ContactRecord) :=
  rpc_over identity expected request (λ s rpc retained,
    t ← unix_now env; of_hs (tcp_verify sha256 s rpc retained t)).
Definition query_services_tcp_over identity expected : io (list Published.PublishedService) :=
  rpc_over identity expected Services (checked tcp_verify_services).
Definition query_governance_tcp_over identity expected head : io (list Gov.Statement) :=
  rpc_over identity expected (Governance head (byte_of MAX_GOVERNANCE_K)) (checked tcp_verify_governance).

End client.
End Client.
