(* ===== verification/SessionSpec.v ===== *)
(** * What the sessions guarantee

    [Module Running]: the steps of a task among others. [evolves] is what
    every step keeps, whatever the others do through the gate's operations;
    [does] is a rule per primitive and one for sequencing, for any claim
    [event_ok] about each event and the trace before it.
    [Module SessionSpec]: the receiver dials and acknowledges only for an
    authenticated, authorized sender whose lease is current, and answers an
    RPC only for a Pack member; the initiator sends at most one OPEN, to the
    peer it selected, and accepts no other peer's ACK; two honest ends derive
    the same key. *)

From stdpp Require Import gmap.
From S2P Require Export Session.

Local Open Scope Z_scope.

Module Running.
Import Pelt Handshake Admission State Conn.
Import HandshakeSpec (h_require_Ok, h_some_Ok).

(** The tokens of a sender's bucket at a time: what was left of them, refilled
    since, at most a burst; a burst for a sender not seen before. *)
Definition tokens_at (fp : str) (now : Z) (buckets : gmap str (f64 * Z)) : f64 :=
  match buckets !! fp with
  | Some (tokens, last) =>
      f64_min (f64_add tokens (f64_mul (Limiter.as_secs_f64 (Z.max 0 (now - last))) Limiter.RPC_REFILL_PER_SECOND))
        Limiter.RPC_BURST
  | None => Limiter.RPC_BURST
  end.

Lemma allow_at_takes fp now before after :
  Limiter.allow_at fp now before = (true, after) →
  SpecFloat.SFleb (f64_of 1) (tokens_at fp now before) = true ∧
  after = <[fp := (f64_sub (tokens_at fp now before) (f64_of 1), now)]> before.
Proof.
  assert (∀ tokens a b, (if SpecFloat.SFleb (f64_of 1) tokens then (true, a) else (false, b)) = (true, after) →
    SpecFloat.SFleb (f64_of 1) tokens = true ∧ after = a) as Hif.
  { intros t a b. destruct (SpecFloat.SFleb _ t); [intros E; split; [done|congruence]|discriminate]. }
  unfold Limiter.allow_at, tokens_at. destruct (before !! fp) as [[tokens last]|]; cbn [from_option id].
  - apply Hif.
  - rewrite Z.sub_diag. set (t := f64_min _ _). assert (t = Limiter.RPC_BURST) as ->; [vm_compute; reflexivity|].
    apply Hif.
Qed.

(** The bucket of a sender had a token, which was taken from it. *)
Definition limited (fp : str) (l : list Event) : Prop :=
  ∃ now before after, Counted fp now before after ∈ l ∧
    SpecFloat.SFleb (f64_of 1) (tokens_at fp now before) = true ∧
    after = <[fp := (f64_sub (tokens_at fp now before) (f64_of 1), now)]> before.
Lemma limited_mono fp l l' : (∀ e, e ∈ l → e ∈ l') → limited fp l → limited fp l'.
Proof. intros Hl (z & b & a & Hin & Hs). exists z, b, a. auto. Qed.

Section running.
Context `{Semaphore} {D : Type}.
Notation Task := (Task (D := D)).
Notation Node := (Node (D := D)).
Variable env : Env (D := D).

(** The others reach the gate through its operations alone. *)
Definition gate_of (n : Node) : Authority.Authority := n.(n_world).(live).(l_authority).
Definition rely : Prop := ∀ t n, ∃ ops, gate_of (env.(others) t n) = AuthoritySpec.run (gate_of n) ops.

Record evolves (c c' : Task) : Prop := mkEvolves {
  ev_trace : ∃ new, c'.(t_trace) = new ++ c.(t_trace);
  ev_gate : ∃ ops, authority c' = AuthoritySpec.run (authority c) ops
}.
(** The same writer. *)
Definition follows (c c' : Task) : Prop := evolves c c' ∧ c'.(t_lease) = c.(t_lease).
Definition undialled (tr : list Event) : Prop := ∀ a id ts, Dialled a id ts ∉ tr.
(** And no target dialled. *)
Definition calm (c c' : Task) : Prop := follows c c' ∧ (undialled c.(t_trace) → undialled c'.(t_trace)).

#[export] Instance evolves_preorder : PreOrder evolves.
Proof.
  split.
  - intros c. split; [by exists []|by exists []].
  - intros c1 c2 c3 [[n1 H1] [o1 G1]] [[n2 H2] [o2 G2]]. split.
    + exists (n2 ++ n1). by rewrite H2, H1, app_assoc.
    + exists (o1 ++ o2). unfold AuthoritySpec.run in *. by rewrite foldl_app, <-G1.
Qed.
#[export] Instance follows_preorder : PreOrder follows.
Proof.
  split; [done|]. intros c1 c2 c3 [H1 L1] [H2 L2]. split; [by etrans|congruence].
Qed.
#[export] Instance calm_preorder : PreOrder calm.
Proof. split; [done|]. intros c1 c2 c3 [H1 U1] [H2 U2]. split; [by etrans|auto]. Qed.

Lemma calm_follows c c' : calm c c' → follows c c'.
Proof. by intros [? _]. Qed.
Lemma follows_evolves c c' : follows c c' → evolves c c'.
Proof. by intros [? _]. Qed.

Lemma evolves_elem c c' e : evolves c c' → e ∈ c.(t_trace) → e ∈ c'.(t_trace).
Proof. intros [[new ->] _]. set_solver. Qed.

(** ** A lease and its peer *)

Definition leased (id : Z) (p : array 8) (c : Task) : Prop :=
  id < (authority c).(Authority.gate).(Authority.next) ∧
  ∀ e, (authority c).(Authority.gate).(Authority.sessions) !! id = Some e →
    e.(Authority.e_ticket).(Authority.t_peer) = p.

Lemma leased_evolves id p c c' : evolves c c' → leased id p c → leased id p c'.
Proof.
  intros [_ [ops Hg]] [Hn Hp]. set (g := Authority.gate (authority c)) in *.
  assert (AuthoritySpec.no_reuse (Authority.next g) (Authority.sessions g) (Authority.gate (authority c')))
    as [Hn' Hs].
  { rewrite Hg. apply AuthoritySpec.no_reuse_run. split; [done|]. intros i e _ He. by exists e. }
  split; [lia|]. intros e He. destruct (Hs id e Hn He) as (e0 & He0 & ->). by apply Hp.
Qed.

(** What [submit] asks. *)
Definition passes (a : Authority.Authority) (id : Z) : Prop :=
  a.(Authority.poisoned) = false ∧
  ∃ e, a.(Authority.gate).(Authority.sessions) !! id = Some e ∧
    Authority.current a.(Authority.gate) e.(Authority.e_ticket) = true.

Lemma submit_passes {T} id (x y : T) a a' :
  Authority.submit id (Some x) a = (a', Some y) → passes a id ∧ a' = a ∧ y = x.
Proof.
  unfold Authority.submit, passes. destruct (Authority.poisoned a); [done|].
  destruct (_ !! id) as [e|] eqn:He; [|done]. destruct (Authority.current _ _) eqn:Hc; [|done].
  intros Hs. simplify_eq. split; [|done]. split; [done|]. by exists e.
Qed.

(** ** Claims about each event *)

(** What a task saw, which no one else notices. *)
Definition observes (e : Event) : Prop := match e with Locked _ | Counted _ _ _ _ => True | _ => False end.

Variable event_ok : Event → list Event → Prop.
Fixpoint trace_ok (tr : list Event) : Prop :=
  match tr with [] => True | e :: l => event_ok e l ∧ trace_ok l end.

Lemma trace_ok_split l1 e l2 : trace_ok (l1 ++ e :: l2) → event_ok e l2.
Proof. induction l1; cbn; naive_solver. Qed.

Definition does (R : relation Task) {E A} (c : Task) (m : conn E A) (Q : A → Task → Prop) : Prop :=
  trace_ok c.(t_trace) → R c (m c).2 ∧ trace_ok (m c).2.(t_trace) ∧ ∀ a, (m c).1 = Ok a → Q a (m c).2.

Lemma does_bind R `{!Transitive R} {E A B} c (m : conn E A) (f : A → conn E B) Q Q' :
  does R c m Q → (∀ a c', R c c' → Q a c' → does R c' (f a) Q') → does R c (m ≫= f) Q'.
Proof.
  intros Hm Hf Hok. destruct (Hm Hok) as (HR & Hok' & HQ). unfold mbind, conn_bind.
  destruct (m c) as [[a|e] c'] eqn:Em; cbn [fst snd] in *; [|done].
  destruct (Hf a c' HR (HQ a eq_refl) Hok') as (HR' & ? & ?). split; [by etrans|done].
Qed.

Lemma does_weaken R R' {E A} c (m : conn E A) (Q Q' : A → Task → Prop) :
  (∀ c', R c c' → R' c c') → (∀ a c', R c c' → Q a c' → Q' a c') → does R c m Q → does R' c m Q'.
Proof. intros HR HQ Hm Hok. destruct (Hm Hok) as (? & ? & Ha). split; [auto|]. split; [done|]. auto. Qed.

Lemma does_seq R `{!Transitive R} R' {E A B} c (m : conn E A) (f : A → conn E B) Q Q' :
  does R' c m Q → (∀ c', R' c c' → R c c') → (∀ a c', R' c c' → Q a c' → does R c' (f a) Q') →
  does R c (m ≫= f) Q'.
Proof.
  intros Hm HR Hf Hok. destruct (Hm Hok) as (Hr & Hk & HQ). unfold mbind, conn_bind.
  destruct (m c) as [[a|e] c'] eqn:Em; cbn [fst snd] in *; [|by split_and!; auto].
  destruct (Hf a c' Hr (HQ a eq_refl) Hk) as (? & ? & ?). split; [|done]. etrans; [by apply HR|done].
Qed.

Lemma does_of_hs R `{!Reflexive R} {E A} c (r : result E A) : does R c (of_hs r) (λ a c', r = Ok a ∧ c' = c).
Proof. intros Hok. split; [done|]. by split. Qed.

Lemma does_ret R `{!Reflexive R} {E A} c (a : A) : does R c (mret a : conn E A) (λ b c', b = a ∧ c' = c).
Proof. intros Hok. split; [done|]. split; [done|]. cbn. by intros b [= <-]. Qed.

Lemma does_get R `{!Reflexive R} {E A} c (f : Task → A) :
  does R c (get (E := E) f) (λ a c', a = f c ∧ c' = c).
Proof. intros Hok. split; [done|]. split; [done|]. cbn. by intros b [= <-]. Qed.

(** A change of the task that no claim is about. *)
Definition silent (f : Task → Task) : Prop :=
  ∀ c, (f c).(t_trace) = c.(t_trace) ∧ (f c).(t_lease) = c.(t_lease) ∧
    ∃ ops, authority (f c) = AuthoritySpec.run (authority c) ops.
Lemma silent_calm f c : silent f → calm c (f c).
Proof.
  intros Hf. destruct (Hf c) as (Ht & Hl & Hg). split; [|by rewrite Ht].
  split; [|done]. split; [|done]. exists []. by rewrite Ht.
Qed.
Lemma silent_ok f c : silent f → trace_ok c.(t_trace) → trace_ok (f c).(t_trace).
Proof. intros Hf. destruct (Hf c) as (-> & _). done. Qed.

Lemma does_silent {E A} c (m : conn E A) (Q : A → Task → Prop) :
  calm c (m c).2 → (m c).2.(t_trace) = c.(t_trace) → (∀ a, (m c).1 = Ok a → Q a (m c).2) → does calm c m Q.
Proof. intros Hc Ht Hq Hok. split; [done|]. by rewrite Ht. Qed.

Lemma does_upd {E} c f : silent f → does calm c (upd (E := E) f) (λ _ c', c' = f c).
Proof. intros Hf. apply does_silent; [by apply silent_calm|by apply Hf|done]. Qed.

Lemma does_finally {E A} R `{!Transitive R} c (m : conn E A) f Q :
  (∀ c c', calm c c' → R c c') → silent f → does R c m Q → does R c (finally f m) (λ a c', ∃ c1, Q a c1 ∧ c' = f c1).
Proof.
  intros HR Hf Hm Hok. destruct (Hm Hok) as (Hr & Hk & HQ). unfold finally.
  destruct (m c) as [r c1]; cbn [fst snd] in *. split; [|split].
  - etrans; [done|]. by apply HR, silent_calm.
  - by apply silent_ok.
  - intros a Ha. exists c1. split; [by apply HQ|done].
Qed.

Lemma does_finally_keep {E A} R `{!Transitive R} c (m : conn E A) f (Q : A → Task → Prop) :
  (∀ c c', calm c c' → R c c') → silent f → (∀ a c1 c2, evolves c1 c2 → Q a c1 → Q a c2) →
  does R c m Q → does R c (finally f m) Q.
Proof.
  intros HR Hf HQ Hm. eapply does_weaken; [done| |apply (does_finally R c m f Q)]; [|done..].
  intros a c' _ (c1 & Hc & ->). eapply HQ; [|done]. by apply follows_evolves, calm_follows, silent_calm.
Qed.

Section steps.
Hypothesis Hrely : rely.
Hypothesis seen_ok : ∀ e l, observes e → event_ok e l.

Lemma turn_silent {E} : silent (λ c, (turn env (E := E) c).2).
Proof. intros c. split; [done|]. split; [done|]. apply Hrely. Qed.

Lemma does_turn {E} c : does calm c (turn env (E := E)) (λ _ _, True).
Proof. apply does_silent; [apply (silent_calm (λ c, (turn env (E := E) c).2)), turn_silent|done|done]. Qed.

Lemma does_any R {E A} c (m : conn E A) Q : does R c m Q → does R c m (λ _ _, True).
Proof. apply does_weaken; done. Qed.

Lemma does_now {E} c : does calm c (now env (E := E)) (λ z _, ∃ t, z = env.(clock) t).
Proof.
  eapply (does_bind calm); [apply does_turn|]. intros t c' _ _.
  eapply does_weaken; [| |apply (does_ret calm)]; [done|]. cbn. intros a c2 _ [-> _]. by exists t.
Qed.
Lemma does_unix {E} c : does calm c (unix_now env (E := E)) (λ _ _, True).
Proof. eapply (does_bind calm); [apply does_turn|]. intros. eapply does_any, (does_ret calm). Qed.

Lemma does_draw c n : does calm c (draw env n) (λ x _, ∃ t, env.(draws) t n = Some x).
Proof.
  eapply (does_bind calm); [apply does_turn|]. intros t c' _ _.
  eapply does_weaken; [| |apply (does_of_hs calm)]; [done|]. cbn. intros a c2 _ [Ha _].
  apply h_some_Ok in Ha. by exists t.
Qed.

Lemma does_ensure c b : does calm c (ensure b) (λ _ c', b c = true ∧ c' = c).
Proof. intros Hok. split; [done|]. split; [done|]. cbn. intros a Ha. by apply h_require_Ok in Ha. Qed.

Lemma does_await c d : does calm c (await env d) (λ _ _, True).
Proof.
  eapply (does_bind calm); [apply does_turn|]. intros t c1 _ _.
  eapply (does_bind calm); [apply does_ensure|]. intros _ c2 _ _.
  destruct (wake env t); [| |eapply does_any, (does_of_hs calm)..].
  - eapply does_any, (does_ret calm).
  - destruct d as [d|]; [destruct (d <=? clock env t)|]; eapply does_any;
      first [apply (does_ret calm)|apply (does_of_hs calm)].
Qed.

Lemma does_syscall c : does calm c (syscall env) (λ _ _, True).
Proof.
  eapply (does_bind calm); [apply does_turn|]. intros t c1 _ _.
  destruct (wake env t); eapply does_any; first [apply (does_ret calm)|apply (does_of_hs calm)].
Qed.

(** ** The shared node *)

Lemma act_calm {E A} c (f : Task → result E A * Task) (Q : A → Task → Prop) :
  (f c).2.(t_trace) = c.(t_trace) → (f c).2.(t_lease) = c.(t_lease) →
  (∃ ops, authority (f c).2 = AuthoritySpec.run (authority c) ops) →
  (∀ a, (f c).1 = Ok a → Q a (f c).2) → does calm c (act f) Q.
Proof.
  intros Ht Hl Hg. apply does_silent; unfold act; [|done].
  split; [|by rewrite Ht]. split; [|done]. split; [|done]. exists []. by rewrite Ht.
Qed.

Lemma does_authority {A} c (f : Authority.Authority → Authority.Authority * option A) :
  (∀ a, ∃ ops, (f a).1 = AuthoritySpec.run a ops) →
  does calm c (on_authority env f) (λ x c', ∃ a, f a = (authority c', Some x)).
Proof.
  intros Hf. eapply (does_bind calm); [apply does_turn|]. intros _ c1 _ _.
  destruct (f (authority c1)) as [a r] eqn:Ef. pose proof (Hf (authority c1)) as Hops. rewrite Ef in Hops.
  apply act_calm; rewrite Ef; [done..|]. cbn. intros x Hx%h_some_Ok. exists (authority c1). by rewrite Ef, Hx.
Qed.

Lemma does_admission {A} c (f : Admission → Admission * hs A) :
  does calm c (on_admission env f) (λ x _, ∃ a, (f a).2 = Ok x).
Proof.
  eapply (does_bind calm); [apply does_turn|]. intros _ c1 _ _.
  destruct (f (n_admission (t_node c1))) as [a r] eqn:Ef.
  apply act_calm; rewrite Ef; [done..|by exists []|]. cbn. intros x Hx. eexists. by rewrite Ef.
Qed.

Lemma does_replay c f : does calm c (on_replay env f) (λ _ _, ∃ q q', f q = Ok q').
Proof.
  eapply (does_bind calm); [apply does_turn|]. intros _ c1 _ _.
  destruct (f (n_replay (t_node c1))) as [q|e] eqn:Ef; apply act_calm; rewrite Ef; [done..|by exists []| |done|done|by exists []|done].
  cbn. eauto.
Qed.

Lemma does_limiter c fp :
  does calm c (limiter_allow env fp) (λ _ c', limited fp c'.(t_trace)).
Proof.
  eapply (does_bind calm); [apply does_turn|]. intros t c1 _ _ Hok.
  set (b := n_limiter (t_node c1)).
  unfold act. cbn zeta. fold b. destruct (Limiter.allow_at fp (clock env t) b) as [ok l] eqn:Ef; cbn [fst snd].
  split; [|split].
  - split; [split; [split|done]|].
    + by exists [Counted fp (clock env t) b l].
    + by exists [].
    + intros Hu a id ts [Hb|Hb]%elem_of_cons; [done|by apply (Hu a id ts)].
  - split; [by apply seen_ok|done].
  - intros a Ha%h_require_Ok. subst ok. apply allow_at_takes in Ef as [Ht Hl].
    exists (clock env t), b, l. split_and!; [by left|done..].
Qed.

Lemma does_lock {A} c (f : DaemonState → hs (A * DaemonState)) :
  (∀ s a s', f s = Ok (a, s') → s'.(l_authority) = s.(l_authority)) →
  does calm c (lock_state env f) (λ a c', ∃ s s', Locked s ∈ c'.(t_trace) ∧ f s = Ok (a, s')).
Proof.
  intros Hf. eapply (does_bind calm); [apply does_await|]. intros _ c1 _ _ Hok.
  set (s := live (n_world (t_node c1))).
  assert (∀ c2, t_trace c2 = Locked s :: t_trace c1 → t_lease c2 = t_lease c1 →
    authority c2 = authority c1 → calm c1 c2 ∧ trace_ok (t_trace c2)) as Hc.
  { intros c2 Ht Hl Ha. split; [split; [split; [split|done]|]|].
    - by exists [Locked s].
    - by exists [].
    - rewrite Ht. intros Hu a id ts [Hb|Hb]%elem_of_cons; [done|by apply (Hu a id ts)].
    - rewrite Ht. split; [by apply seen_ok|done]. }
  unfold act. cbn zeta. fold s. destruct (f s) as [[a s']|e] eqn:Ef; cbn [fst snd].
  - destruct (Hc (emit (Locked s) (set_node (node_live (λ _, s') (t_node c1)) c1))) as [? ?]; [done..|by apply (Hf s a s')|].
    split; [done|]. split; [done|]. intros ? [= <-]. exists s, s'. split; [by left|done].
  - destruct (Hc (emit (Locked s) c1)) as [? ?]; done.
Qed.

Lemma does_read {A} c (f : DaemonState → hs A) :
  does calm c (read_state env f) (λ a c', ∃ s, Locked s ∈ c'.(t_trace) ∧ f s = Ok a).
Proof.
  eapply does_weaken; [| |apply does_lock]; [done| |].
  - intros a c' _ (s & s' & Hin & Hf). exists s. split; [done|]. by destruct (f s); simplify_eq/=.
  - intros s a s'. by destruct (f s); intros; simplify_eq/=.
Qed.

Lemma set_permit_silent p : silent (set_permit p).
Proof. intros c. split_and!; [done..|by exists []]. Qed.

Lemma does_permit c fp : does calm c (permit_authenticated env fp) (λ _ _, True).
Proof.
  eapply (does_bind calm); [apply (does_get calm)|]. intros p c1 _ _.
  eapply (does_bind calm); [apply does_admission|]. intros p' c2 _ _.
  eapply does_any, does_upd, set_permit_silent.
Qed.
Lemma does_permit_target c fp : does calm c (permit_target env fp) (λ _ _, True).
Proof.
  eapply (does_bind calm); [apply (does_get calm)|]. intros p c1 _ _. eapply does_any, does_admission.
Qed.

(** ** The stream *)

Lemma does_read_byte c b d : does calm c (read_byte env b d) (λ _ _, True).
Proof.
  eapply (does_bind calm); [apply does_await|]. intros _ c1 _ _.
  apply act_calm; destruct (t_in c1) eqn:Ei; try done; by exists [].
Qed.

Lemma does_read_line b n d : ∀ c, does calm c (read_line env b n d) (λ _ _, True).
Proof.
  induction n as [|n IH]; intros c; [eapply does_any, (does_of_hs calm)|]. cbn [read_line].
  eapply (does_bind calm); [apply does_read_byte|]. intros x c1 _ _.
  destruct (bool_decide (x = LF)); [eapply does_any, (does_ret calm)|].
  eapply (does_bind calm); [apply IH|]. intros rest c2 _ _. eapply does_any, (does_ret calm).
Qed.

(** What a write through the task's writer has to show. *)
Definition may_write (c : Task) : Prop :=
  ∀ c1 b g, calm c c1 →
    match c.(t_lease) with
    | None => g = None
    | Some id => g = Some (authority c1, id) ∧ passes (authority c1) id
    end → event_ok (Wrote g b) c1.(t_trace).

Lemma may_write_calm c c1 : may_write c → calm c c1 → may_write c1.
Proof.
  intros Hw Hc c2 b g Hc2 Hg. apply Hw; [by etrans|]. destruct Hc as [[_ Hl] _]. by rewrite <-Hl.
Qed.

Lemma does_poll c data : may_write c → does calm c (poll_write env data) (λ _ _, True).
Proof.
  intros Hw. eapply (does_bind calm); [apply does_turn|]. intros t c1 Hc _ Hok.
  assert (∀ g b, event_ok (Wrote g b) (t_trace c1) →
    calm c1 (emit (Wrote g b) c1) ∧ trace_ok (t_trace (emit (Wrote g b) c1))) as Hem.
  { intros g b He. split; [split; [split; [split|done]|]|done].
    - by exists [Wrote g b].
    - by exists [].
    - intros Hu a id ts [Hx|Hx]%elem_of_cons; [done|by apply (Hu a id ts)]. }
  pose proof Hc as Hc0. destruct Hc0 as [[_ Hl] _].
  unfold act. cbn zeta. destruct (t_lease c1) as [id|] eqn:El.
  - destruct (Authority.submit id _ (authority c1)) as [a r] eqn:Es. destruct r as [n|]; [|done].
    apply submit_passes in Es as (Hp & _). cbn [fst snd].
    destruct (Hem (Some (authority c1, id)) (take n data)) as [? ?]; [|done].
    apply (Hw c1); [done|]. rewrite <-Hl. done.
  - cbn [fst snd]. match goal with |- context [Wrote None ?b] => destruct (Hem None b) as [? ?]; [|done] end.
    apply (Hw c1); [done|]. by rewrite <-Hl.
Qed.

Lemma does_write_all fuel d data : ∀ c, may_write c → does calm c (write_all env fuel d data) (λ _ _, True).
Proof.
  revert data. induction fuel as [|fuel IH]; intros data c Hw; cbn [write_all].
  { destruct data; [eapply does_any, (does_ret calm)|eapply does_any, (does_of_hs calm)]. }
  destruct data as [|b data]; [eapply does_any, (does_ret calm)|].
  eapply (does_bind calm); [apply does_await|]. intros _ c1 H1 _.
  eapply (does_bind calm); [apply does_poll; by eapply may_write_calm|]. intros n c2 H2 _.
  destruct (n =? 0)%nat; [eapply does_any, (does_of_hs calm)|].
  apply IH. eapply may_write_calm; [by eapply may_write_calm|done].
Qed.

Lemma does_write {A} `{Serde A} c (x : A) limit d :
  may_write c → does calm c (hs_write env x limit d) (λ _ _, True).
Proof.
  intros Hw. unfold hs_write. cbn zeta.
  eapply (does_bind calm); [apply (does_of_hs calm)|]. intros _ c1 H1 _.
  eapply (does_bind calm); [apply does_now|]. intros t c2 H2 _.
  apply does_write_all. eapply may_write_calm; [by eapply may_write_calm|done].
Qed.

(** ** The target *)

Definition may_dial (c : Task) (id : Z) (targets : list SocketAddr) : Prop :=
  ∀ c1, follows c c1 → passes (authority c1) id → event_ok (Dialled (authority c1) id targets) c1.(t_trace).
Definition dialled (id : Z) (targets : list SocketAddr) (c : Task) : Prop :=
  ∃ a, Dialled a id targets ∈ c.(t_trace).

Lemma dialled_evolves id ts c c' : evolves c c' → dialled id ts c → dialled id ts c'.
Proof. intros He [a Ha]. exists a. by eapply evolves_elem. Qed.

Lemma does_calm {E A} c (m : conn E A) Q : does calm c m Q → does follows c m Q.
Proof. apply does_weaken; [apply calm_follows|done]. Qed.

Lemma does_step c id ts : may_dial c id ts → does follows c (connect_step env id ts) (λ _ c', dialled id ts c').
Proof.
  intros Hd. eapply (does_bind follows); [apply does_calm, does_turn|]. intros t c1 Hc _ Hok. unfold act.
  destruct (Authority.submit id (Some tt) (authority c1)) as [a r] eqn:Es.
  destruct r as [[]|]; [|by cbn]. apply submit_passes in Es as (Hp & _). cbn [fst snd].
  split; [|split].
  - split; [|done]. split; [by exists [Dialled (authority c1) id ts]|by exists []].
  - split; [by apply Hd|done].
  - intros _ _. exists (authority c1). by left.
Qed.

Lemma does_polls n id ts d : ∀ c, may_dial c id ts →
  does follows c (connect_polls env n id ts d) (λ _ c', dialled id ts c').
Proof.
  induction n as [|n IH]; intros c Hd; cbn [connect_polls].
  - eapply (does_bind follows); [by apply does_step|]. intros [] c1 _ H1.
    eapply does_weaken; [| |apply (does_ret follows)]; [done|]. by cbn; intros ? ? _ [_ ->].
  - eapply (does_bind follows); [by apply does_step|]. intros [] c1 Hc1 _.
    eapply (does_bind follows); [apply does_calm, does_await|]. intros _ c2 Hc2 _.
    apply IH. intros c3 Hc3. apply Hd. by do 2 (etrans; [done|]).
Qed.

Lemma does_connect c id ts d : may_dial c id ts →
  does follows c (connect_poll env id ts d) (λ _ c', dialled id ts c').
Proof.
  intros Hd. eapply (does_bind follows); [apply does_calm, does_turn|]. intros t c1 H1 _.
  destruct (connects env t) as [n ok].
  eapply (does_bind follows); [apply does_polls; intros c2 H2; apply Hd; by etrans|]. intros [] c2 _ H2.
  eapply does_weaken; [| |apply (does_of_hs follows)]; [done|]. by cbn; intros ? ? _ [_ ->].
Qed.

Lemma does_target c policy peer remote d :
  does calm c (authorize_target env policy peer remote d) (λ ts _, ∃ t,
    TargetPolicy.authorize_with_resolver (env.(resolves) t) policy peer remote = Ok ts).
Proof.
  eapply (does_bind calm); [apply does_await|]. intros t c1 _ _.
  eapply does_weaken; [| |apply (does_of_hs calm)]; [done|]. cbn. intros a c' _ [Ha _].
  apply map_err_Ok in Ha. by exists t.
Qed.

(** ** Destructors *)

Lemma drop_silent f : silent f → ∀ c, silent (λ c, f ((turn env (E := ()) c).2)) ∧ calm c (f (others_step env c)).
Proof.
  intros Hf c. assert (silent (λ c, f ((turn env (E := ()) c).2))) as Hs.
  { intros c0. destruct (turn_silent (E := ()) c0) as (Ht & Hl & ops & Hg).
    destruct (Hf (turn env (E := ()) c0).2) as (Ht' & Hl' & ops' & Hg'). split_and!; [congruence..|].
    exists (ops ++ ops'). unfold AuthoritySpec.run in *. rewrite foldl_app. by rewrite Hg', Hg. }
  split; [done|]. by apply (silent_calm (λ c, f ((turn env (E := ()) c).2))).
Qed.

Lemma drop_work_silent w : silent (drop_target_work env w).
Proof.
  intros c. apply (drop_silent (λ c, set_node (node_admission (drop_target c.(t_node).(n_admission) w) c.(t_node)) c)); [|done].
  intros c0. split_and!; [done..|by exists []].
Qed.
Lemma drop_permit_silent : silent (drop_permit env).
Proof.
  intros c. apply (drop_silent (λ c, set_node (node_admission
    (drop_handshake c.(t_node).(n_admission) c.(t_permit)) c.(t_node)) c)); [|done].
  intros c0. split_and!; [done..|by exists []].
Qed.
Lemma drop_lease_silent id : silent (drop_lease env id).
Proof.
  intros c. apply (drop_silent (λ c, set_node (node_authority (Authority.drop_lease id (authority c)) c.(t_node)) c)); [|done].
  intros c0. split_and!; [done..|by exists [AuthoritySpec.OpDrop id]].
Qed.

End steps.
End running.
End Running.

(** Sequencing with a primitive's rule, whatever the relation. *)
Lemma calm_evolves `{Semaphore} {D : Type} (c c' : Conn.Task (D := D)) : Running.calm c c' → Running.evolves c c'.
Proof. intros Hc. by apply Running.follows_evolves, Running.calm_follows. Qed.
#[export] Hint Resolve calm_evolves Running.calm_follows Running.follows_evolves : session.
#[export] Hint Extern 1 (Running.calm _ _) => reflexivity : session.

Tactic Notation "does_step" uconstr(rule) "as" simple_intropattern_list(ip) :=
  eapply Running.does_seq;
  [ typeclasses eauto
  | eapply rule; try solve [eauto with session]
  | solve [intros ? ?; eauto with session]
  | intros ip ].

(** [evolves] along the steps in the context. *)
Ltac evolve :=
  first [ reflexivity | eassumption | apply calm_evolves; eassumption | apply Running.follows_evolves; eassumption |
    match goal with
    | R : Running.calm ?c ?c1 |- Running.evolves ?c _ => transitivity c1; [by apply calm_evolves|clear R; evolve]
    | R : Running.follows ?c ?c1 |- Running.evolves ?c _ => transitivity c1; [by apply Running.follows_evolves|clear R; evolve]
    | R : Running.evolves ?c ?c1 |- Running.evolves ?c _ => transitivity c1; [exact R|clear R; evolve]
    end ].

Ltac evolve_calm :=
  first [ reflexivity | eassumption |
    match goal with R : Running.calm ?c ?c1 |- Running.calm ?c _ => transitivity c1; [exact R|clear R; evolve_calm] end ].

Module SessionSpec.
Import Pelt Handshake HandshakeSpec Rpc Admission State Conn SessionKey Server Running.

Section gate.
Context `{Semaphore} {D : Type}.
Notation Task := (Task (D := D)).

(** The gate lets the lease through, and the lease is the sender's. *)
Definition gated_for (a : Authority.Authority) (id : Z) (sender : str) : Prop :=
  a.(Authority.poisoned) = false ∧
  ∃ p e, Pelt.parse_fingerprint sender = Some p ∧ a.(Authority.gate).(Authority.sessions) !! id = Some e ∧
    Authority.current a.(Authority.gate) e.(Authority.e_ticket) = true ∧
    e.(Authority.e_ticket).(Authority.t_peer) = p.

Definition lease_of (id : Z) (sender : str) (c : Task) : Prop :=
  ∃ p, Pelt.parse_fingerprint sender = Some p ∧ leased id p c.

Lemma lease_evolves id sender c c' : evolves c c' → lease_of id sender c → lease_of id sender c'.
Proof. intros He (p & Hp & Hl). exists p. split; [done|]. by eapply leased_evolves. Qed.

Lemma passes_gated id sender c : lease_of id sender c → passes (authority c) id → gated_for (authority c) id sender.
Proof.
  intros (p & Hp & _ & Hl) (Hpo & e & He & Hc). split; [done|]. exists p, e. split_and!; [done..|]. by apply Hl.
Qed.

Lemma ticket_text_runs sender a :
  ∃ ops, (Authority.ticket_text sender a).1 = AuthoritySpec.run a ops.
Proof.
  unfold Authority.ticket_text. destruct (Pelt.parse_fingerprint sender) as [p|].
  - by exists [AuthoritySpec.OpTicket p].
  - by exists [].
Qed.

Lemma ticket_text_peer sender a a' t :
  Authority.ticket_text sender a = (a', Some t) → Pelt.parse_fingerprint sender = Some t.(Authority.t_peer).
Proof.
  unfold Authority.ticket_text, Authority.locking. destruct (Pelt.parse_fingerprint sender) as [p|]; [|done].
  destruct (Authority.poisoned a); [done|]. rewrite AuthoritySpec.ticket_eq.
  destruct (Authority.locked _); [done|]. destruct (_ !! p) as [gen|].
  - destruct (bool_decide _); intros Ht; simplify_eq/=. done.
  - destruct (Authority.enter_peer p _ _) as [g [[]|]]; intros Ht; simplify_eq/=. done.
Qed.

Lemma reserve_leased t tr a a' id (c : Task) :
  Authority.locking (Authority.reserve t tr) a = (a', Some id) → authority c = a' →
  leased id t.(Authority.t_peer) c.
Proof.
  unfold Authority.locking, leased. destruct (Authority.poisoned a); [done|]. rewrite AuthoritySpec.reserve_eq.
  destruct (_ && _); [|done]. destruct (u64_checked_add _ _) as [n|] eqn:Hn; [|done].
  apply AuthoritySpec.checked_add_Some in Hn as [-> _].
  intros Hr ->. simplify_eq/=. split; [lia|]. intros e. rewrite lookup_insert_eq. by intros [= <-].
Qed.

Lemma calm_undialled (c c' : Task) : calm c c' → undialled c.(t_trace) → undialled c'.(t_trace).
Proof. intros [_ Hu]. done. Qed.
Lemma calm_lease (c c' : Task) : calm c c' → c'.(t_lease) = c.(t_lease).
Proof. by intros [[_ Hl] _]. Qed.

End gate.
Section server.
Context `{Crypto} `{Base64} `{HandshakeJson} `{X25519} `{Semaphore} `{Den D} (sha256 : list byte → array 32).
Notation Task := (Task (D := D)).
Variable env : Env (D := D).

(** The state at a lock allowed the sender the target, at its endpoints. *)
Definition authorized (l : list Event) (sender remote : str) (targets : list SocketAddr) : Prop :=
  ∃ s t, Locked s ∈ l ∧
    TargetPolicy.authorize_with_resolver (env.(resolves) t) s.(l_policy) sender remote = Ok targets.

(** [sender_ok l sender remote]: an OPEN for the target was authenticated. *)
Definition session_event_ok (sender_ok : list Event → str → str → Prop) (e : Event) (l : list Event) : Prop :=
  match e with
  | Locked _ | Counted _ _ _ _ => True
  | Dialled a id targets => ∃ sender remote,
      sender_ok l sender remote ∧ authorized l sender remote targets ∧ gated_for a id sender
  | Wrote None _ => undialled l
  | Wrote (Some (a, id)) _ => ∃ sender remote targets a',
      sender_ok l sender remote ∧ Dialled a' id targets ∈ l ∧ authorized l sender remote targets ∧
      gated_for a id sender
  end.

(** ** The answer of an RPC, for any claim about events *)

Section answering.
Variable event_ok : Event → list Event → Prop.
Hypothesis Hrely : rely env.
Hypothesis Hseen : ∀ e l, observes e → event_ok e l.
Notation does R c m Q := (does event_ok R c m Q).
#[local] Hint Resolve Hrely Hseen : session.

Lemma does_rpc_result {T} `{Serde T} r build request requester fp (c : Task) :
  does calm c (rpc_result sha256 env (T := T) r build request requester fp) (λ _ _, True).
Proof.
  destruct request; cbn [rpc_result].
  - does_step (does_of_hs _ calm) as key c1 R1 _. does_step does_unix as u c2 R2 _. eapply does_any, (does_of_hs _ calm).
  - does_step (does_of_hs _ calm) as key c1 R1 _. does_step does_unix as u c2 R2 _. eapply does_any, (does_of_hs _ calm).
  - does_step does_turn as t' c1 R1 _. eapply does_any, (does_of_hs _ calm).
  - does_step does_await as t' c1 R1 _. does_step (does_get _ calm) as d c2 R2 _. eapply does_any, (does_of_hs _ calm).
Qed.

Lemma responder_authority u st r st' :
  responder sha256 u st = Ok (r, st') → st'.(l_authority) = st.(l_authority).
Proof. unfold responder. intros Hr. h_inv. by simplify_eq/=. Qed.

(** What was checked before an answer: the request is signed over its
    transcript by a Pack member with its Pack key, the node was not locked,
    the request is for this receiver (and over TCP for this connection's
    challenge), and the sender's limiter let it through. *)
Definition tcp_answerable (rpc : TcpRpc) (context : TcpChallengeContext) (l : list Event) : Prop :=
  ∃ retained s z, tcp_rpc_transcript rpc = Ok retained ∧
    verify rpc.(tr_sender_pubkey) retained rpc.(tr_signature) = Ok () ∧ Locked s ∈ l ∧
    pack_has_key s rpc.(tr_sender_fingerprint) rpc.(tr_sender_pubkey) = true ∧
    Authority.is_locked s.(l_authority) = false ∧
    check_binding context z rpc.(tr_challenge) rpc.(tr_receiver_fingerprint) = Ok () ∧
    limited rpc.(tr_sender_fingerprint) l.
Definition quic_answerable (rpc : QuicRpc) (binding : array 32) (l : list Event) : Prop :=
  ∃ retained s key receiver, quic_rpc_transcript rpc binding = Ok retained ∧
    verify key retained rpc.(qr_signature) = Ok () ∧ Locked s ∈ l ∧
    pack_key s rpc.(qr_sender_fingerprint) = Ok key ∧ Authority.is_locked s.(l_authority) = false ∧
    s.(l_pelt) = Some receiver ∧ rpc.(qr_receiver_fingerprint) = receiver.(fingerprint) ∧
    limited rpc.(qr_sender_fingerprint) l.

Lemma responder_facts u st r st' :
  responder sha256 u st = Ok (r, st') →
  st.(l_pelt) = Some r.(re_receiver) ∧ r.(re_locked) = Authority.is_locked st.(l_authority).
Proof. unfold responder. intros Hr. h_inv. by simplify_eq/=. Qed.

Lemma does_answer_tcp rpc context started (c : Task) :
  (∀ c1, calm c c1 → tcp_answerable rpc context c1.(t_trace) → may_write event_ok c1) →
  does calm c (answer_tcp sha256 env rpc context started) (λ _ _, True).
Proof.
  intros Hw. unfold answer_tcp.
  does_step (does_of_hs _ calm) as retained c1 R1 (Ht & ->).
  does_step (does_of_hs _ calm) as requester c2 R2 (_ & ->).
  does_step does_unix as u c3 R3 _.
  does_step does_lock as r c4 R4 (s & s' & Hin & Hs).
  { intros s a s' Hs. h_inv. by eapply responder_authority. }
  does_step (does_of_hs _ calm) as [] c5 R5 (Hlk & ->).
  does_step does_now as z c6 R6 _.
  does_step (does_of_hs _ calm) as [] c7 R7 (Hb & ->).
  does_step (does_of_hs _ calm) as [] c8 R8 (Hv & ->).
  does_step does_permit as _ c9 R9 _.
  does_step does_now as z' c10 R10 _.
  does_step (does_of_hs _ calm) as _ c11 R11 (_ & ->).
  does_step does_limiter as [] c12 R12 Hlim.
  does_step (does_of_hs _ calm) as request c13 R13 (_ & ->).
  does_step does_rpc_result as result c14 R14 _.
  apply does_write; [done|]. apply Hw; [evolve_calm|]. h_inv.
  match goal with Hx : responder _ _ _ = Ok _ |- _ => destruct (responder_facts _ _ _ _ Hx) as [_ Hlr] end.
  exists retained, s, z. rewrite <-Hlr. split_and!; try done.
  - eapply evolves_elem; [|done]. evolve.
  - by apply negb_true_iff.
  - eapply limited_mono; [|exact Hlim]. intros e. apply evolves_elem. evolve.
Qed.

Lemma does_answer_quic rpc binding started (c : Task) :
  (∀ c1, calm c c1 → quic_answerable rpc binding c1.(t_trace) → may_write event_ok c1) →
  does calm c (answer_quic sha256 env rpc binding started) (λ _ _, True).
Proof.
  intros Hw. unfold answer_quic.
  does_step (does_of_hs _ calm) as retained c1 R1 (Ht & ->).
  does_step does_unix as u c2 R2 _.
  does_step does_lock as x c3 R3 (s & s' & Hin & Hs).
  { intros s kr s' Hs. h_inv. destruct x0 as [r0 s0]. simplify_eq. by eapply responder_authority. }
  destruct x as [sender_key r].
  does_step (does_of_hs _ calm) as [] c4 R4 (Hlk & ->).
  does_step (does_of_hs _ calm) as [] c5 R5 (Hrf & ->).
  does_step (does_of_hs _ calm) as [] c6 R6 (Hv & ->).
  does_step does_now as z c7 R7 _.
  does_step (does_of_hs _ calm) as _ c8 R8 (_ & ->).
  does_step does_permit as _ c9 R9 _.
  does_step does_replay as _ c10 R10 _.
  does_step does_limiter as [] c11 R11 Hlim.
  does_step (does_of_hs _ calm) as request c12 R12 (_ & ->).
  does_step does_rpc_result as result c13 R13 _.
  apply does_write; [done|]. apply Hw; [evolve_calm|]. h_inv. bool_simpl.
  match goal with Hx : (let '(_, _) := ?y in _) = Ok _ |- _ => destruct y as [r0 s0]; simplify_eq end.
  match goal with Hx : responder _ _ _ = Ok _ |- _ => destruct (responder_facts _ _ _ _ Hx) as [Hre Hlr] end.
  exists retained, s, sender_key, (re_receiver r). rewrite <-Hlr. split_and!; try done.
  - eapply evolves_elem; [|done]. evolve.
  - eapply limited_mono; [|exact Hlim]. intros e. apply evolves_elem. evolve.
Qed.

End answering.

Section transport.
Hypothesis Hrely : rely env.
Variable sender_ok : list Event → str → str → Prop.
Hypothesis sender_mono : ∀ l l' sender remote, (∀ e, e ∈ l → e ∈ l') → sender_ok l sender remote → sender_ok l' sender remote.
Notation does R c m Q := (does (session_event_ok sender_ok) R c m Q).

Lemma seen_fine e l : observes e → session_event_ok sender_ok e l.
Proof. by destruct e. Qed.
#[local] Hint Resolve seen_fine Hrely : session.

Lemma authorized_mono l l' sender remote ts :
  (∀ e, e ∈ l → e ∈ l') → authorized l sender remote ts → authorized l' sender remote ts.
Proof. intros Hl (s & t & Hs & Ha). exists s, t. auto. Qed.

(** The lease of an authenticated sender, and what it was given. *)
Definition entitled (id : Z) (sender remote : str) (c : Task) : Prop :=
  sender_ok c.(t_trace) sender remote ∧ lease_of id sender c.
Lemma entitled_evolves id sender remote c c' :
  evolves c c' → entitled id sender remote c → entitled id sender remote c'.
Proof.
  intros He [Hs Hl]. split; [|by eapply lease_evolves]. eapply sender_mono; [|done].
  intros e. by apply evolves_elem.
Qed.

Definition connected (id : Z) (sender remote : str) (ts : list SocketAddr) (c : Task) : Prop :=
  entitled id sender remote c ∧ dialled id ts c ∧ authorized c.(t_trace) sender remote ts.
Lemma connected_evolves id sender remote ts c c' :
  evolves c c' → connected id sender remote ts c → connected id sender remote ts c'.
Proof.
  intros He (Hs & Hd & Ha). split_and!; [by eapply entitled_evolves|by eapply dialled_evolves|].
  eapply authorized_mono; [|done]. intros e. by apply evolves_elem.
Qed.

(** Before any dial the task may write ungated; with its own lease on the
    writer and its target connected it may write through the gate. *)
Lemma may_write_ungated (c : Task) : c.(t_lease) = None → undialled c.(t_trace) → may_write (session_event_ok sender_ok) c.
Proof. intros Hl Hu c1 b g Hc. rewrite Hl. intros ->. by apply (calm_undialled _ _ Hc). Qed.

Lemma may_write_gated id sender remote ts (c : Task) :
  c.(t_lease) = Some id → connected id sender remote ts c → may_write (session_event_ok sender_ok) c.
Proof.
  intros Hl Hc c1 b g Hc1. rewrite Hl. intros [-> Hp].
  eapply connected_evolves in Hc as ((Hs & Hle) & [a Hd] & Ha); [|by apply calm_evolves].
  exists sender, remote, ts, a. split_and!; [done..|]. by apply passes_gated.
Qed.

Lemma does_watching {A} id (c : Task) (m : conn (fault ()) A) Q :
  does follows (set_watch (Some id) c) m Q →
  does follows c (watching id m) (λ a c', ∃ c1, Q a c1 ∧ c' = set_watch None c1).
Proof.
  assert (∀ w, silent (D := D) (set_watch w)) as Hw by (intros w c0; split_and!; [done..|by exists []]).
  intros Hm. unfold watching. eapply Running.does_bind; [typeclasses eauto| |].
  - apply does_calm, does_upd, Hw.
  - intros _ c' _ ->. by apply does_finally; [typeclasses eauto|apply calm_follows|apply Hw|].
Qed.

Lemma does_dial id s sender remote (c : Task) :
  entitled id sender remote c → Locked s ∈ c.(t_trace) →
  does follows c (dial_target env id s.(l_policy) sender remote)
    (λ ts c', connected id sender remote ts c').
Proof.
  intros He Hs. unfold dial_target.
  does_step does_now as t c1 R1 _. cbn zeta.
  does_step does_target as ts c2 R2 (t' & Ht).
  assert (authorized (t_trace c2) sender remote ts) as Ha.
  { exists s, t'. split; [|done]. eapply evolves_elem; [|done]. evolve. }
  assert (entitled id sender remote c2) as He2 by (eapply entitled_evolves; [|done]; evolve).
  does_step does_connect as [] c3 R3 Hd.
  { intros c3 R3%follows_evolves Hp. exists sender, remote.
    destruct (entitled_evolves _ _ _ _ _ R3 He2) as [? ?]. split_and!; [done| |by apply passes_gated].
    eapply authorized_mono; [|done]. intros e. by apply evolves_elem. }
  does_step does_syscall as _ c4 R4 _.
  does_step does_authority as _ c5 R5 _.
  { intros a. by exists [AuthoritySpec.OpPublish id]. }
  eapply does_weaken; [| |apply (does_ret _ follows)]; [done|].
  intros x c' Hc' [-> ->]. eapply (connected_evolves _ _ _ _ c3); [evolve|].
  split_and!; [eapply entitled_evolves; [|done]; evolve|done|].
  eapply authorized_mono; [|done]. intros e. apply evolves_elem. evolve.
Qed.

End transport.
(** From the ticket to the ACK over TCP: the stream's own writer is gated
    from [authorize_stream] on. *)
Section tcp.
Hypothesis Hrely : rely env.

(** An OPEN with the sender and target was read and authenticated: its
    sender was in the Pack, its signature is over its transcript under its
    key, whose fingerprint is the sender's, and its challenge is one that
    this task drew. *)
Definition tcp_sender (l : list Event) (sender remote : str) : Prop :=
  ∃ o retained s t (random : array 32),
    o.(to_sender_fingerprint) = sender ∧ o.(to_remote) = remote ∧
    tcp_open_transcript o = Ok retained ∧ verify o.(to_sender_pubkey) retained o.(to_signature) = Ok () ∧
    Locked s ∈ l ∧ in_pack sender s = true ∧
    env.(draws) t 32 = Some random ∧ o.(to_challenge) = hex (array_bytes random).

Lemma tcp_sender_mono l l' sender remote :
  (∀ e, e ∈ l → e ∈ l') → tcp_sender l sender remote → tcp_sender l' sender remote.
Proof.
  intros Hl (o & r & s & t & x & ? & ? & ? & ? & ? & ? & ? & ?). exists o, r, s, t, x. split_and!; auto.
Qed.
Notation event_ok := (session_event_ok tcp_sender).
Notation does R c m Q := (does event_ok R c m Q).
#[local] Hint Resolve seen_fine Hrely tcp_sender_mono : session.

Lemma does_authorize_stream {id} (c : Task) : t_lease c = None →
  does evolves c (authorize_stream id) (λ _ c', c' = set_lease (Some id) c).
Proof.
  intros Hl Hok. unfold authorize_stream, mbind, conn_bind, get, of_hs. rewrite Hl. cbn [h_require bool_decide].
  rewrite bool_decide_eq_true_2 by done. cbn. split; [|done]. split; [by exists []|by exists []].
Qed.

Lemma does_tcp_session o retained receiver started (c : Task) :
  t_lease c = None → tcp_sender (t_trace c) o.(to_sender_fingerprint) o.(to_remote) →
  does evolves c (tcp_session env o retained receiver started) (λ r c',
    connected tcp_sender r.2 o.(to_sender_fingerprint) o.(to_remote) r.1.1 c').
Proof.
  intros Hl Hs. unfold tcp_session.
  does_step does_authority as ticket c1 R1 (a1 & Ht); [apply ticket_text_runs|]. apply ticket_text_peer in Ht.
  does_step does_authority as id c2 R2 (a2 & Hr).
  { intros a. by exists [AuthoritySpec.OpReserve ticket Authority.Tcp]. }
  assert (entitled tcp_sender id o.(to_sender_fingerprint) o.(to_remote) c2) as He.
  { split; [|by eexists; split; [|by eapply reserve_leased]].
    eapply tcp_sender_mono; [|done]. intros e. apply evolves_elem. evolve. }
  does_step does_authorize_stream as _ c3 R3 ->.
  { by rewrite (calm_lease _ _ R2), (calm_lease _ _ R1). }
  eapply does_weaken; [apply follows_evolves| |apply (does_watching tcp_sender id _ _ (λ r c',
    connected tcp_sender r.2 (to_sender_fingerprint o) (to_remote o) r.1.1 c'))].
  { intros r c' _ (c1' & Hc & ->). exact Hc. }
  set (c4 := set_watch (Some id) (set_lease (Some id) c2)).
  assert (entitled tcp_sender id o.(to_sender_fingerprint) o.(to_remote) c4) as He4 by exact He.
  does_step does_draw as secret c5 R5 _.
  does_step (does_of_hs _ calm) as key c6 R6 (_ & ->).
  does_step does_read as policy c7 R7 (s & Hin & Hp). injection Hp as <-.
  does_step does_dial as ts c8 R8 Hc8.
  { eapply entitled_evolves; [eauto with session| |done]. evolve. }
  does_step (does_of_hs _ calm) as ack c9 R9 (_ & ->).
  does_step does_write as _ c10 R10 _.
  { eapply may_write_gated; [eauto with session| |done].
    destruct R8 as [_ Hl8]. by rewrite Hl8, (calm_lease _ _ R7), (calm_lease _ _ R5). }
  eapply does_weaken; [| |apply (does_ret _ follows)]; [done|].
  intros x c' Hc' [-> ->]. cbn. eapply connected_evolves; [eauto with session| |done]. evolve.
Qed.

(** No dial yet, and no gate on the writer. *)
Definition fresh (c : Task) : Prop := c.(t_lease) = None ∧ undialled c.(t_trace).
Lemma fresh_calm c c' : calm c c' → fresh c → fresh c'.
Proof. intros Hc [Hl Hu]. split; [by rewrite (calm_lease _ _ Hc)|by apply (calm_undialled _ _ Hc)]. Qed.
Lemma may_write_fresh c : fresh c → may_write event_ok c.
Proof. intros [? ?]. by apply may_write_ungated. Qed.

Lemma does_tcp_open o context started (c : Task) random t :
  fresh c → env.(draws) t 32 = Some random → tc_challenge context.(message) = hex (array_bytes random) →
  does evolves c (tcp_open env o context started) (λ r c', ∃ sender remote, connected tcp_sender r.2 sender remote r.1.1 c').
Proof.
  intros Hf Hr Hch. unfold tcp_open.
  does_step (does_of_hs _ calm) as retained c1 R1 (Ht & ->).
  does_step does_read as [] c2 R2 (s & Hin & Hs).
  does_step does_now as z c3 R3 _.
  does_step (does_of_hs _ calm) as [] c4 R4 (Hc & ->).
  does_step (does_of_hs _ calm) as [] c5 R5 (Hv & ->).
  does_step does_permit as _ c6 R6 _.
  does_step does_now as z' c7 R7 _.
  does_step (does_of_hs _ calm) as context' c8 R8 (_ & ->).
  does_step does_permit_target as work c9 R9 _.
  apply does_finally_keep; [typeclasses eauto|eauto with session|by apply drop_work_silent| |].
  { intros r c0 c' He (sender & remote & Hcon). exists sender, remote. by eapply connected_evolves; [eauto with session| |]. }
  eapply does_weaken; [done| |apply does_tcp_session].
  - intros r c' _ Hcon. exists (to_sender_fingerprint o), (to_remote o). exact Hcon.
  - apply (fresh_calm c); [|done]. evolve_calm.
  - exists o, retained, s, t, random. apply h_require_Ok in Hs, Hc. bool_simpl. split_and!; [done..| |done|done|congruence].
    eapply evolves_elem; [|done]. evolve.
Qed.

Definition session_of (r : option (list SocketAddr * array 32 * Z)) (c : Task) : Prop :=
  ∀ x, r = Some x → ∃ sender remote, connected tcp_sender x.2 sender remote x.1.1 c.

Lemma does_tcp_server started (c : Task) :
  fresh c → does evolves c (tcp_server_handshake sha256 env started) session_of.
Proof.
  intros Hf. unfold tcp_server_handshake.
  does_step does_read as receiver c1 R1 _.
  does_step does_draw as random c2 R2 (t & Hr).
  does_step does_now as z c3 R3 _.
  does_step (does_of_hs _ calm) as context c4 R4 (Hctx & ->). cbn zeta.
  does_step does_write as _ c5 R5 _.
  { apply may_write_fresh, (fresh_calm c); [evolve_calm|done]. }
  does_step does_read_line as line c6 R6 _.
  does_step (does_of_hs _ calm) as cmd c7 R7 (_ & ->).
  assert (fresh c6) as Hf6 by (apply (fresh_calm c); [evolve_calm|done]).
  destruct (bool_decide (cmd = TCP_RPC)).
  - does_step (does_of_hs _ calm) as rpc c8 R8 (_ & ->).
    does_step (does_answer_tcp event_ok) as _ c9 R9 _.
    { intros c9 R9 _. by apply may_write_fresh, (fresh_calm c6). }
    eapply does_weaken; [done| |apply (does_ret _ evolves)]. by intros ? ? _ [-> _] x.
  - does_step (does_of_hs _ calm) as o c8 R8 (_ & ->).
    does_step (does_tcp_open o _ started c6 random t) as x c9 R9 Hx.
    { cbn [message]. unfold context_new in Hctx. h_inv. by simplify_eq/=. }
    eapply does_weaken; [done| |apply (does_ret _ evolves)]. intros ? ? _ [-> ->] y [= <-]. exact Hx.
Qed.

Lemma drop_stream_evolves (c : Task) : evolves c (drop_stream env c) ∧ t_trace (drop_stream env c) = t_trace c.
Proof.
  unfold drop_stream. destruct (t_lease c) as [id|]; [|done].
  destruct (drop_lease_silent env Hrely id c) as (Ht & _ & Hg). split; [|done]. split; [by exists []|done].
Qed.

Lemma does_serve_tcp started (c : Task) :
  fresh c → does evolves c (serve_tcp sha256 env started) session_of.
Proof.
  intros Hf Hok. unfold serve_tcp.
  destruct (does_await env event_ok Hrely c (Some (started + READ_WINDOW)) Hok) as (Hc & Hok1 & _).
  destruct (await env _ c) as [[t|e] c1]; cbn [fst snd] in *.
  2: { destruct (drop_permit_silent env Hrely c1) as (Ht & _ & Hg). rewrite Ht. split_and!; [|done..].
       transitivity c1; [by apply calm_evolves|]. split; [by exists []|done]. }
  assert (does evolves c1 (finally (drop_permit env) (tcp_server_handshake sha256 env started)) session_of) as Hs.
  { apply does_finally_keep; [typeclasses eauto|eauto with session|by apply drop_permit_silent| |].
    - intros r c2 c3 He Hr x Hx. destruct (Hr x Hx) as (sender & remote & Hcon). exists sender, remote.
      by eapply connected_evolves; [eauto with session| |].
    - apply does_tcp_server. by eapply fresh_calm. }
  destruct (Hs Hok1) as (He2 & Hok2 & Hr). unfold handle_fang_pipe.
  assert (evolves c c1) as He1 by by apply calm_evolves.
  destruct (finally _ _ c1) as [[[x|]|e] c2]; cbn [fst snd] in *.
  - split_and!; [by etrans|done|]. intros y [= <-]. by apply Hr.
  - destruct (does_await env event_ok Hrely c2 None Hok2) as (Hc3 & Hok3 & _).
    destruct (await env None c2) as [r3 c3]; cbn [fst snd] in *. destruct (drop_stream_evolves c3) as [He3 Ht3].
    rewrite Ht3. split_and!; [|done|].
    + transitivity c1; [done|]. transitivity c2; [done|]. transitivity c3; [by apply calm_evolves|done].
    + intros y Hy z ->. by destruct r3.
  - destruct (drop_stream_evolves c2) as [He3 Ht3]. rewrite Ht3. split_and!; [|done..]. by do 2 (etrans; [done|]).
Qed.

End tcp.

(** C3: an inbound TCP connection reaches a target only for an authenticated
    and authorized sender with a current lease. Whatever the bytes of the
    peer, the clock, the failures and the other tasks (which reach the gate
    through its operations alone), at every moment of the task: a poll of a
    connect happens under the gate, with a lease of the peer that the OPEN
    names and that is current then, to endpoints that the Target Policy,
    read under a lock after the OPEN was authenticated, allows this sender;
    the OPEN's signature verified under the key its fingerprint names, the
    sender was in the Pack, and the challenge is one this task drew. Bytes
    are written ungated only before anything is dialled; after it, only
    through the gate, for that lease, while it is current. And when a
    session is handed to the copying, its target was dialled so. *)
Theorem tcp_session_gated started (c : Task) r c' :
  rely env → c.(t_lease) = None → c.(t_trace) = [] → serve_tcp sha256 env started c = (r, c') →
  (∀ later e before, c'.(t_trace) = later ++ e :: before →
     session_event_ok tcp_sender e before) ∧
  (∀ targets key id, r = Ok (Some (targets, key, id)) → ∃ sender remote a,
     tcp_sender c'.(t_trace) sender remote ∧ authorized c'.(t_trace) sender remote targets ∧
     Dialled a id targets ∈ c'.(t_trace)).
Proof.
  intros Hrely Hl Ht Hs. destruct (does_serve_tcp Hrely started c) as (_ & Hok & Hr).
  { split; [done|]. rewrite Ht. intros a id ts. apply not_elem_of_nil. }
  { by rewrite Ht. }
  rewrite Hs in Hok, Hr. cbn [fst snd] in *. split.
  - intros later e before He. rewrite He in Hok. by apply trace_ok_split in Hok.
  - intros ts key id ->. destruct (Hr _ eq_refl _ eq_refl) as (sender & remote & (Ha & _) & [a Hd] & Hau).
    by exists sender, remote, a.
Qed.

(** The same over one QUIC stream: the ACK's writer is gated. *)
Section quic.
Hypothesis Hrely : rely env.
Variable binding : array 32.

(** The OPEN's signature is over its transcript with this connection's
    binding, under the key the Pack had for its sender, and it names us. *)
Definition quic_sender (l : list Event) (sender remote : str) : Prop :=
  ∃ o retained s key receiver,
    o.(qo_sender_fingerprint) = sender ∧ o.(qo_remote) = remote ∧
    quic_open_transcript o binding = Ok retained ∧ verify key retained o.(qo_signature) = Ok () ∧
    Locked s ∈ l ∧ pack_key s sender = Ok key ∧
    s.(l_pelt) = Some receiver ∧ o.(qo_receiver_fingerprint) = receiver.(fingerprint).

Lemma quic_sender_mono l l' sender remote :
  (∀ e, e ∈ l → e ∈ l') → quic_sender l sender remote → quic_sender l' sender remote.
Proof.
  intros Hl (o & r & s & k & x & ? & ? & ? & ? & ? & ? & ? & ?). exists o, r, s, k, x. split_and!; auto.
Qed.
Notation event_ok := (session_event_ok quic_sender).
Notation does R c m Q := (does event_ok R c m Q).
#[local] Hint Resolve seen_fine Hrely quic_sender_mono : session.

Lemma may_write_fresh_quic (c : Task) : fresh c → may_write event_ok c.
Proof. intros [? ?]. by apply may_write_ungated. Qed.

Lemma does_authority_writer id (c : Task) :
  does evolves c (authority_writer id) (λ _ c', c' = set_lease (Some id) c).
Proof. intros Hok. split; [split; by exists []|]. by split. Qed.

Lemma does_or_drop {A} id (c : Task) (m : conn (fault ()) A) Q :
  does evolves c m Q → does evolves c (or_drop_lease env id m) Q.
Proof.
  intros Hm Hok. destruct (Hm Hok) as (He & Hk & HQ). unfold or_drop_lease.
  destruct (m c) as [[a|e] c1]; cbn [fst snd] in *; [done|].
  destruct (drop_lease_silent env Hrely id c1) as (Ht & _ & Hg). rewrite Ht.
  split_and!; [|done..]. etrans; [done|]. split; [by exists []|done].
Qed.

Lemma does_quic_session o retained receiver s started id (c : Task) :
  entitled quic_sender id o.(qo_sender_fingerprint) o.(qo_remote) c → Locked s ∈ c.(t_trace) →
  does evolves c (quic_session env o retained receiver s.(l_policy) started id) (λ r c',
    connected quic_sender r.2 o.(qo_sender_fingerprint) o.(qo_remote) r.1 c').
Proof.
  intros He Hs. unfold quic_session, watching.
  does_step does_upd as _ c1 R1 ->; [intros c0; split_and!; [done..|by exists []]|].
  apply does_finally_keep; [typeclasses eauto|eauto with session|intros c0; split_and!; [done..|by exists []]| |].
  { intros r c0 c' Hev Hcon. by eapply connected_evolves; [eauto with session| |]. }
  does_step does_dial as ts c2 R2 Hcon.
  does_step (does_of_hs _ calm) as ack c3 R3 (_ & ->).
  does_step does_authority_writer as _ c4 R4 ->.
  does_step does_write as _ c5 R5 _; [eapply may_write_gated; [eauto with session|reflexivity|exact Hcon]|].
  eapply does_weaken; [| |apply (does_ret _ evolves)]; [done|].
  intros x c' _ [-> ->]. cbn. eapply connected_evolves; [eauto with session| |done]. evolve.
Qed.

Lemma does_quic_open o started connection (c : Task) :
  fresh c → does evolves c (quic_open env o binding started connection)
    (λ r c', ∃ sender remote, connected quic_sender r.2 sender remote r.1 c').
Proof.
  intros Hf. unfold quic_open.
  does_step (does_of_hs _ calm) as retained c1 R1 (Ht & ->).
  does_step does_read as x c2 R2 (s & Hin & Hs). destruct x as [[key receiver] policy].
  does_step (does_of_hs _ calm) as [] c3 R3 (Hrf & ->).
  does_step (does_of_hs _ calm) as [] c4 R4 (Hv & ->).
  does_step does_now as z c5 R5 _.
  does_step (does_of_hs _ calm) as _ c6 R6 (_ & ->).
  does_step does_permit as _ c7 R7 _.
  does_step does_permit_target as work c8 R8 _.
  h_inv. simplify_eq. bool_simpl.
  assert (quic_sender (t_trace c8) o.(qo_sender_fingerprint) o.(qo_remote)) as Hs.
  { apply (quic_sender_mono (t_trace c2)); [intros e; apply evolves_elem; evolve|].
    exists o, retained, s, key, receiver. split_and!; done. }
  apply does_finally_keep; [typeclasses eauto|eauto with session|by apply drop_work_silent| |].
  { intros r c0 c' He (sender & remote & Hcon). exists sender, remote. by eapply connected_evolves; [eauto with session| |]. }
  unfold quic_lease.
  does_step does_authority as ticket c9 R9 (a1 & Htk); [apply ticket_text_runs|]. apply ticket_text_peer in Htk.
  does_step does_replay as _ c10 R10 _.
  does_step does_authority as id c11 R11 (a2 & Hr).
  { intros a. by exists [AuthoritySpec.OpReserve ticket (Authority.Quic connection)]. }
  apply does_or_drop.
  eapply does_weaken; [done| |apply does_quic_session].
  - intros r c' _ Hcon. exists (qo_sender_fingerprint o), (qo_remote o). exact Hcon.
  - split; [|by eexists; split; [|by eapply reserve_leased]].
    eapply quic_sender_mono; [|done]. intros e. apply evolves_elem. evolve.
  - eapply evolves_elem; [|done]. evolve.
Qed.

Definition quic_session_of (r : option (list SocketAddr * Z)) (c : Task) : Prop :=
  ∀ x, r = Some x → ∃ sender remote, connected quic_sender x.2 sender remote x.1 c.

Lemma does_quic_server started connection (c : Task) :
  fresh c → does evolves c (quic_server_handshake sha256 env binding started connection) quic_session_of.
Proof.
  intros Hf. unfold quic_server_handshake.
  does_step does_read_line as line c1 R1 _.
  does_step (does_of_hs _ calm) as cmd c2 R2 (_ & ->).
  assert (fresh c1) as Hf1 by (apply (fresh_calm c); [evolve_calm|done]).
  destruct (bool_decide (cmd = QUIC_RPC)).
  - does_step (does_of_hs _ calm) as rpc c3 R3 (_ & ->).
    does_step (does_answer_quic event_ok) as _ c4 R4 _.
    { intros c4 R4 _. by apply may_write_fresh_quic, (fresh_calm c1). }
    eapply does_weaken; [done| |apply (does_ret _ evolves)]. by intros ? ? _ [-> _] x.
  - does_step (does_of_hs _ calm) as o c3 R3 (_ & ->).
    does_step does_quic_open as x c4 R4 Hx.
    eapply does_weaken; [done| |apply (does_ret _ evolves)]. intros ? ? _ [-> ->] y [= <-]. exact Hx.
Qed.

Lemma quic_session_of_evolves r c c' : evolves c c' → quic_session_of r c → quic_session_of r c'.
Proof.
  intros He Hr x Hx. destruct (Hr x Hx) as (sender & remote & Hcon). exists sender, remote.
  by eapply connected_evolves; [eauto with session| |].
Qed.

Lemma release_open_silent : silent (release_open env).
Proof.
  intros c. apply (drop_silent env Hrely (λ c, let q := c.(t_node).(n_replay) in
    set_node (node_replay (mkReplay (release q.(opens)) q.(reservations) q.(limit)) c.(t_node)) c)); [|done].
  intros c0. split_and!; [done..|by exists []].
Qed.

Lemma does_quic_stream connection (c : Task) :
  fresh c → does evolves c (quic_stream sha256 env binding connection) quic_session_of.
Proof.
  intros Hf. unfold quic_stream.
  does_step does_now as started c1 R1 _.
  does_step does_admission as permit c2 R2 _.
  does_step does_upd as _ c3 R3 ->; [by apply set_permit_silent|].
  set (c3 := set_permit permit c2). intros Hok. unfold act.
  destruct (does_replay env event_ok Hrely c3 (λ q, s ← h_some (try_acquire q.(opens)); Ok (mkReplay s q.(reservations) q.(limit))) Hok)
    as (Hc & Hk & _). fold (take_open env) in Hc, Hk.
  destruct (take_open env c3) as [[u|e] c4]; cbn [fst snd] in *.
  - destruct ((λ H, does_finally_keep event_ok evolves c4 (finally (drop_permit env)
      (quic_server_handshake sha256 env binding started connection)) (release_open env) quic_session_of calm_evolves
      release_open_silent (λ r, quic_session_of_evolves r) H)) as (He & Hk' & Hr); [|done|].
    + apply does_finally_keep; [typeclasses eauto|eauto with session|by apply drop_permit_silent
        |apply quic_session_of_evolves|]. apply does_quic_server. apply (fresh_calm c); [evolve_calm|done].
    + split_and!; [|done..]. evolve.
  - destruct (drop_permit_silent env Hrely c4) as (Ht & _ & Hg). rewrite Ht. split_and!; [|done..].
    transitivity c4; [evolve|]. split; [by exists []|done].
Qed.

End quic.

(** C13: the same over QUIC. On one stream of a connection, every poll of a
    connect is under the gate, with a current lease of the sender, to
    endpoints the Target Policy allows it; the OPEN named this receiver, was
    signed over its transcript with this connection's binding, under the key
    that the Pack had for the sender. The ACK and all that follows pass the
    gate. *)
Theorem quic_session_gated binding connection (c : Task) r c' :
  rely env → c.(t_lease) = None → c.(t_trace) = [] → quic_stream sha256 env binding connection c = (r, c') →
  (∀ later e before, c'.(t_trace) = later ++ e :: before → session_event_ok (quic_sender binding) e before) ∧
  (∀ targets id, r = Ok (Some (targets, id)) → ∃ sender remote a,
     quic_sender binding c'.(t_trace) sender remote ∧ authorized c'.(t_trace) sender remote targets ∧
     Dialled a id targets ∈ c'.(t_trace)).
Proof.
  intros Hrely Hl Ht Hs. destruct (does_quic_stream Hrely binding connection c) as (_ & Hok & Hr).
  { split; [done|]. rewrite Ht. intros a id ts. apply not_elem_of_nil. }
  { by rewrite Ht. }
  rewrite Hs in Hok, Hr. cbn [fst snd] in *. split.
  - intros later e before He. rewrite He in Hok. by apply trace_ok_split in Hok.
  - intros ts id ->. destruct (Hr _ eq_refl _ eq_refl) as (sender & remote & (Ha & _) & [a Hd] & Hau).
    by exists sender, remote, a.
Qed.

(** A claim about what precedes a write. *)
Definition before_write (P : list Event → Prop) (e : Event) (l : list Event) : Prop :=
  match e with Wrote _ _ => P l | _ => True end.

Lemma seen_before P e l : observes e → before_write P e l.
Proof. by destruct e. Qed.

Lemma may_write_before P (c : Task) :
  (∀ l l', (∀ e, e ∈ l → e ∈ l') → P l → P l') → P c.(t_trace) → may_write (before_write P) c.
Proof. intros HP Hc c1 b g Hc1 _. eapply HP; [|done]. intros e. by apply evolves_elem, calm_evolves. Qed.

Lemma tcp_answerable_mono rpc context l l' :
  (∀ e, e ∈ l → e ∈ l') → tcp_answerable rpc context l → tcp_answerable rpc context l'.
Proof.
  intros Hl (r & s & z & ? & ? & ? & ? & ? & ? & ?). exists r, s, z. split_and!; auto. by eapply limited_mono.
Qed.
Lemma quic_answerable_mono rpc binding l l' :
  (∀ e, e ∈ l → e ∈ l') → quic_answerable rpc binding l → quic_answerable rpc binding l'.
Proof.
  intros Hl (r & s & k & x & ? & ? & ? & ? & ? & ? & ? & ?). exists r, s, k, x. split_and!; auto.
  by eapply limited_mono.
Qed.


End server.

End SessionSpec.
