(* ===== verification/ClientSpec.v ===== *)
(** * What an initiator sends and accepts

    One session of the encrypted TCP initiator, its retry included, as the
    bytes it writes: [written] is what its trace wrote, in order. *)

From stdpp Require Import gmap.
From S2P Require Export SessionSpec.

Local Open Scope Z_scope.

Module ClientSpec.
Import Pelt Handshake HandshakeSpec Rpc Admission State Conn SessionKey Client.
Import OpenFang (ExpectedPeerIdentity, ex_fingerprint, ex_public_key_b64).

(** The bytes written, in order; the trace has its newest event first. *)
Fixpoint written (tr : list Event) : list byte :=
  match tr with
  | [] => []
  | Wrote _ b :: l => written l ++ b
  | _ :: l => written l
  end.

Section client.
Context `{Crypto} `{Base64} `{HandshakeJson} `{X25519} `{Tls} `{Semaphore} {D : Type}.
Notation Task := (Task (D := D)).
Variable env : Env (D := D).

(** ** Steps that write nothing *)

Definition still (c c' : Task) : Prop := c'.(t_trace) = c.(t_trace) ∧ c'.(t_count) = c.(t_count).
#[local] Instance still_preorder : PreOrder still.
Proof. split; [done|]. intros c1 c2 c3 [T1 N1] [T2 N2]. split; congruence. Qed.

Lemma conn_bind_run {E A B} (m : conn (D := D) E A) (f : A → conn E B) c :
  (m ≫= f) c = match m c with (Ok a, c1) => f a c1 | (Err e, c1) => (Err e, c1) end.
Proof. done. Qed.

Definition keeps {E A} (m : conn (D := D) E A) : Prop := ∀ c, still c (m c).2.

Lemma keeps_bind {E A B} (m : conn E A) (f : A → conn E B) :
  keeps m → (∀ a, keeps (f a)) → keeps (m ≫= f).
Proof.
  intros Hm Hf c. specialize (Hm c). unfold mbind, conn_bind.
  destruct (m c) as [[a|e] c1]; cbn [snd] in *; [|done]. etrans; [done|apply Hf].
Qed.
Lemma keeps_of_hs {E A} (r : result E A) : keeps (of_hs r).
Proof. done. Qed.
Lemma keeps_turn {E} : keeps (turn env (E := E)).
Proof. done. Qed.
Lemma keeps_ensure b : keeps (ensure b).
Proof. done. Qed.
Lemma keeps_ret {E A} (a : A) : keeps (mret a : conn E A).
Proof. done. Qed.
Lemma keeps_failing {E F A} (f : E → F) (m : conn E A) : keeps m → keeps (failing f m).
Proof. intros Hm c. specialize (Hm c). unfold failing. by destruct (m c). Qed.
#[local] Hint Resolve keeps_bind keeps_of_hs keeps_turn keeps_ensure keeps_ret keeps_failing : keeps.
Ltac keep := repeat (intros; first [ apply keeps_bind | apply keeps_failing | done | solve [eauto with keeps] |
  match goal with |- keeps (match ?x with _ => _ end) => destruct x end ]).

Lemma keeps_now {E} : keeps (now env (E := E)).
Proof. unfold now. keep. Qed.
Lemma keeps_draw n : keeps (draw env n).
Proof. unfold draw. keep. Qed.
Lemma keeps_await d : keeps (await env d).
Proof. unfold await. keep. Qed.
Lemma keeps_syscall : keeps (syscall env).
Proof. unfold syscall. keep. Qed.
#[local] Hint Resolve keeps_now keeps_draw keeps_await keeps_syscall : keeps.

Lemma keeps_read_byte d : keeps (read_byte env false d).
Proof.
  unfold read_byte. apply keeps_bind; [eauto with keeps|]. intros _ c. unfold act. by destruct (t_in c).
Qed.
Lemma keeps_read_line n d : keeps (read_line env false n d).
Proof.
  induction n as [|n IH]; cbn [read_line]; [done|]. apply keeps_bind; [apply keeps_read_byte|]. intros b.
  destruct (bool_decide (b = LF)); [done|]. by apply keeps_bind.
Qed.

(** A counted read writes nothing, and counts what it read. *)
Definition counts (c c' : Task) : Prop := c'.(t_trace) = c.(t_trace) ∧ (c.(t_count) ≤ c'.(t_count))%nat.
Lemma counted_byte d c :
  counts c (read_byte env true d c).2 ∧
  ∀ b, (read_byte env true d c).1 = Ok b → (c.(t_count) < (read_byte env true d c).2.(t_count))%nat.
Proof.
  unfold read_byte. rewrite !conn_bind_run. destruct (keeps_await (Some d) c) as [Ht Hn].
  destruct (await env (Some d) c) as [[t|e] c1]; cbn [fst snd] in *; [|by split; [split; [|lia]|]].
  unfold act. destruct (t_in c1); cbn; (split; [split; [done|cbn; lia]|]); [done|]. intros _ _. lia.
Qed.
Lemma counted_line n d : ∀ c,
  counts c (read_line env true n d c).2 ∧
  ∀ l, (read_line env true n d c).1 = Ok l → (c.(t_count) < (read_line env true n d c).2.(t_count))%nat.
Proof.
  induction n as [|n IH]; intros c; cbn [read_line]; [by split; [split|]|].
  rewrite !conn_bind_run. destruct (counted_byte d c) as [[Ht Hn] Hok].
  destruct (read_byte env true d c) as [[b|e] c1]; cbn [fst snd] in *; [|done].
  specialize (Hok b eq_refl). destruct (bool_decide (b = LF)); [by split; [split|]|].
  rewrite !conn_bind_run. destruct (IH c1) as [[Ht' Hn'] _].
  destruct (read_line env true n d c1) as [[l|e] c2]; cbn [fst snd] in *;
    unfold mret, conn_ret; cbn [fst snd]; (split; [split; [congruence|lia]|]); [|done]. intros _ _. lia.
Qed.

(** ** A write puts out a prefix of its line *)

Lemma poll_written data c :
  ∃ w, written (poll_write env data c).2.(t_trace) = written c.(t_trace) ++ w ∧
    (poll_write env data c).2.(t_count) = c.(t_count) ∧
    match (poll_write env data c).1 with
    | Ok n => w = take n data
    | Err _ => w = []
    end.
Proof.
  unfold poll_write. rewrite !conn_bind_run. unfold turn, act. cbn [t_lease].
  destruct (t_lease c) as [id|].
  - destruct (Authority.submit _ _ _) as [a [n|]] eqn:Es; cbn.
    + apply Running.submit_passes in Es as (_ & _ & ->). by eexists.
    + exists []. by rewrite app_nil_r.
  - cbn. by eexists.
Qed.

Lemma write_all_written fuel d : ∀ data c,
  ∃ w, written (write_all env fuel d data c).2.(t_trace) = written c.(t_trace) ++ w ∧
    (write_all env fuel d data c).2.(t_count) = c.(t_count) ∧ w `prefix_of` data ∧
    ((write_all env fuel d data c).1 = Ok () → w = data).
Proof.
  induction fuel as [|fuel IH]; intros data c.
  { destruct data; exists []; rewrite app_nil_r; split_and!; try done; apply prefix_nil. }
  destruct data as [|b data]; [exists []; rewrite app_nil_r; by split_and!|].
  cbn [write_all]. set (all := b :: data). rewrite !conn_bind_run.
  destruct (keeps_await (Some d) c) as [Ht Hn]. destruct (await env (Some d) c) as [[t|e] c1]; cbn [fst snd] in *.
  2: { exists []. rewrite app_nil_r, Ht. split_and!; [done|done|apply prefix_nil|done]. }
  rewrite !conn_bind_run. destruct (poll_written all c1) as (w1 & Hw1 & Hn1 & Hr).
  destruct (poll_write env all c1) as [[n|e] c2]; cbn [fst snd] in *.
  2: { subst w1. exists []. rewrite Hw1, Ht, !app_nil_r. split_and!; [done|congruence|apply prefix_nil|done]. }
  destruct (n =? 0)%nat eqn:En; cbn [fst snd of_hs].
  { exists w1. rewrite Hw1, Ht, Hn1. split_and!; [done|done|subst w1; by exists (drop n all); rewrite take_drop|done]. }
  destruct (IH (drop n all) c2) as (w2 & Hw2 & Hn2 & [k Hk] & Hall). exists (w1 ++ w2).
  rewrite Hw2, Hw1, Ht, Hn2, Hn1, app_assoc. split_and!; [done|done| |].
  - exists k. by rewrite <-app_assoc, <-Hk, Hr, take_drop.
  - intros Hok. by rewrite (Hall Hok), Hr, take_drop.
Qed.

Lemma hs_write_written {A} `{Serde A} (x : A) limit d c :
  ∃ w, written (hs_write env x limit d c).2.(t_trace) = written c.(t_trace) ++ w ∧
    (hs_write env x limit d c).2.(t_count) = c.(t_count) ∧ w `prefix_of` to_vec x ++ [LF] ∧
    ((hs_write env x limit d c).1 = Ok () → w = to_vec x ++ [LF]).
Proof.
  unfold hs_write. cbn zeta. rewrite !conn_bind_run. unfold of_hs.
  destruct (h_require _) as [[]|e]; cbn [fst snd].
  2: { exists []. rewrite app_nil_r. split_and!; [done|done|apply prefix_nil|done]. }
  rewrite !conn_bind_run. unfold now. rewrite !conn_bind_run. cbn [turn mret conn_ret].
  match goal with |- context [write_all env ?f ?d ?x ?c1] => destruct (write_all_written f d x c1) as (w & Hw) end.
  by exists w.
Qed.

(** ** One handshake *)

Section handshake.
Variables (remote : str) (identity : PeltIdentity) (expected : ExpectedPeerIdentity).

(** The OPEN was made for a challenge in the name of the expected peer. *)
Definition opened (secret : array 32) (o : TcpOpen) : Prop :=
  ∃ challenge nonce, challenge_validate challenge = Ok () ∧
    tc_receiver_fingerprint challenge = ex_fingerprint expected ∧
    tcp_open_new identity challenge remote (x_public secret) nonce = Ok o.
Definition line_of (o : TcpOpen) : list byte := to_vec o ++ [LF].

(** [w] is what one attempt wrote, and [r] its end. *)
Definition one_open {E} (w : list byte) (r : result E (array 32)) : Prop :=
  (w = [] ∨ ∃ secret o, opened secret o ∧ w `prefix_of` line_of o) ∧
  ∀ key, r = Ok key → ∃ secret o retained ack, opened secret o ∧ w = line_of o ∧
    tcp_open_transcript o = Ok retained ∧ accept_ack ack o retained secret expected = Ok key.

Lemma one_open_fail {E} (e : E) : one_open [] (Err e).
Proof. split; [by left|done]. Qed.

Lemma counted_read d c :
  counts c (hs_read env (A := TcpChallenge) true CHALLENGE_LIMIT d c).2 ∧
  ∀ x, (hs_read env (A := TcpChallenge) true CHALLENGE_LIMIT d c).1 = Ok x →
    (c.(t_count) < (hs_read env (A := TcpChallenge) true CHALLENGE_LIMIT d c).2.(t_count))%nat.
Proof.
  unfold hs_read. rewrite !conn_bind_run. destruct (counted_line CHALLENGE_LIMIT d c) as [Hc Hok].
  destruct (read_line env true CHALLENGE_LIMIT d c) as [[l|e] c1]; cbn [fst snd] in *; [|done].
  split; [done|]. intros _ _. by eapply Hok.
Qed.

Lemma keeps_read {A} `{Serde A} n d : keeps (hs_read env (A := A) false n d).
Proof. unfold hs_read. apply keeps_bind; [apply keeps_read_line|done]. Qed.

Lemma client_open_run challenge c :
  still c (client_open env challenge remote identity expected c).2 ∧
  ∀ secret o, (client_open env challenge remote identity expected c).1 = Ok (secret, o) → opened secret o.
Proof.
  split.
  - revert c. unfold client_open. keep.
  - unfold client_open. intros secret o. rewrite conn_bind_run. unfold of_hs at 1.
    destruct (challenge_validate challenge) as [[]|] eqn:Hv; [|done]. rewrite conn_bind_run. unfold of_hs at 1.
    destruct (h_require _) as [[]|] eqn:Hr; [|done]. apply h_require_Ok, bool_decide_eq_true_1 in Hr.
    rewrite conn_bind_run. destruct (draw env 32 c) as [[x|] c1]; [|done].
    rewrite conn_bind_run. destruct (draw env 16 c1) as [[n|] c2]; [|done].
    rewrite conn_bind_run. unfold of_hs. destruct (tcp_open_new _ _ _ _ _) as [o'|] eqn:Ho; [|done].
    unfold mret, conn_ret. cbn. intros Hx. simplify_eq. by exists challenge, n.
Qed.

Lemma handshake_sends c :
  let '(r, c') := client_handshake_counted env remote identity expected c in
  ∃ w, written c'.(t_trace) = written c.(t_trace) ++ w ∧ one_open w r ∧
    (c'.(t_count) = O → w = [] ∧ ∃ e, r = Err e).
Proof.
  unfold client_handshake_counted. rewrite conn_bind_run. destruct (keeps_now (E := fault ()) c) as [T0 N0].
  destruct (now env c) as [[t|e] c0] eqn:E0; [|by vm_compute in E0]. cbn [snd] in *. cbn zeta.
  rewrite conn_bind_run. destruct (keeps_now (E := fault ()) c0) as [T1 N1].
  destruct (now env c0) as [[t1|e] c1] eqn:E1; [|by vm_compute in E1]. cbn [snd] in *.
  rewrite conn_bind_run.
  match goal with |- context [hs_read env true CHALLENGE_LIMIT ?d c1] =>
    destruct (counted_read d c1) as [[T2 N2] Hok]; destruct (hs_read env true CHALLENGE_LIMIT d c1) as [[ch|e] c2] end;
    cbn [fst snd] in *.
  2: { exists []. rewrite app_nil_r, T2, T1, T0. split_and!; [done|apply one_open_fail|eauto]. }
  specialize (Hok ch eq_refl). rewrite conn_bind_run. destruct (client_open_run ch c2) as [[T3 N3] Ho].
  destruct (client_open env ch remote identity expected c2) as [[[secret o]|e] c3]; cbn [fst snd] in *.
  2: { exists []. rewrite app_nil_r, T3, T2, T1, T0. split_and!; [done|apply one_open_fail|lia]. }
  specialize (Ho secret o eq_refl). rewrite conn_bind_run. unfold of_hs at 1.
  destruct (tcp_open_transcript o) as [retained|] eqn:Ht.
  2: { exists []. rewrite app_nil_r, T3, T2, T1, T0. split_and!; [done|apply one_open_fail|lia]. }
  rewrite conn_bind_run.
  match goal with |- context [hs_write env o ?l ?d c3] =>
    destruct (hs_write_written o l d c3) as (w & Hw & N4 & Hp & Hall); destruct (hs_write env o l d c3) as [[[]|e] c4] end;
    cbn [fst snd] in *.
  2: { exists w. rewrite Hw, T3, T2, T1, T0. split_and!; [done| |lia]. split; [right; eauto|done]. }
  rewrite (Hall eq_refl) in *. rewrite conn_bind_run.
  match goal with |- context [hs_read env false ?l ?d c4] =>
    destruct (keeps_read (A := TcpAck) l d c4) as [T5 N5]; destruct (hs_read env false l d c4) as [[ack|e] c5] end;
    cbn [fst snd] in *; exists (to_vec o ++ [LF]); rewrite ?T5, Hw, T3, T2, T1, T0.
  - split_and!; [done| |lia]. split; [right; exists secret, o; by split|]. intros key Hk.
    exists secret, o, retained, ack. done.
  - split_and!; [done| |lia]. split; [right; exists secret, o; by split|done].
Qed.

(** ** The attempt and its retry *)

(** The TLS connection that was up showed the certificate of the key the
    Pack has for the peer. *)
Definition pinned : Prop :=
  ∃ spki t certificate input, selected_peer_connector expected = Ok spki ∧
    env.(tls) t = TlsUp certificate input ∧ TlsPin.verify_server_cert spki certificate = true.

Lemma tls_up_run spki c :
  (tls_up env spki c).2.(t_trace) = c.(t_trace) ∧
  ((tls_up env spki c).1 = Ok () → (tls_up env spki c).2.(t_count) = O ∧
    ∃ t certificate input, env.(tls) t = TlsUp certificate input ∧
      TlsPin.verify_server_cert spki certificate = true).
Proof.
  unfold tls_up. rewrite conn_bind_run.
  match goal with |- context [failing retry ?m c] =>
    assert (keeps (failing retry m)) as Hk by keep; destruct (Hk c) as [T N];
    destruct (failing retry m c) as [[t|e] c1] end; cbn [fst snd] in *; [|done].
  destruct (tls env t) as [certificate input| |] eqn:Et; [|done..].
  destruct (TlsPin.verify_server_cert spki certificate) eqn:Ev; [|done].
  split; [done|]. intros _. split; [done|]. by exists t, certificate, input.
Qed.

Lemma attempt_sends c :
  let '(r, c') := tcp_session_attempt env remote identity expected c in
  ∃ w, written c'.(t_trace) = written c.(t_trace) ++ w ∧ one_open w r ∧
    (w ≠ [] → pinned) ∧ (∀ e, r = Err (Retry e) → w = []) ∧ (∀ key, r = Ok key → pinned).
Proof.
  unfold tcp_session_attempt. rewrite conn_bind_run. unfold failing at 1, of_hs at 1.
  destruct (selected_peer_connector expected) as [spki|e] eqn:Esp; cbn [map_err].
  2: { exists []. rewrite app_nil_r. split_and!; [done|apply one_open_fail|done..]. }
  rewrite conn_bind_run. assert (keeps (failing retry (open_tcp env))) as Hk by (unfold open_tcp; keep).
  destruct (Hk c) as [T1 _]. destruct (failing retry (open_tcp env) c) as [[[]|e] c1]; cbn [snd] in *.
  2: { exists []. rewrite app_nil_r, T1. split_and!; [done|apply one_open_fail|done..]. }
  rewrite conn_bind_run. assert (keeps (failing retry (syscall env))) as Hk2 by keep.
  destruct (Hk2 c1) as [T2 _]. destruct (failing retry (syscall env) c1) as [[[]|e] c2]; cbn [snd] in *.
  2: { exists []. rewrite app_nil_r, T2, T1. split_and!; [done|apply one_open_fail|done..]. }
  rewrite conn_bind_run. destruct (tls_up_run spki c2) as [T3 Hup].
  destruct (tls_up env spki c2) as [[[]|e] c3]; cbn [fst snd] in *.
  2: { exists []. rewrite app_nil_r, T3, T2, T1. split_and!; [done|apply one_open_fail|done..]. }
  destruct (Hup eq_refl) as (N3 & t & certificate & input & Htls & Hver).
  assert pinned as Hpin by by exists spki, t, certificate, input.
  unfold counted. pose proof (handshake_sends c3) as Hh.
  destruct (client_handshake_counted env remote identity expected c3) as [[key|e] c4];
    destruct Hh as (w & Hw & Hone & Hz); exists w; rewrite Hw, T3, T2, T1; split_and!; try done.
  - split; [apply Hone|]. intros key' Hk'. apply Hone. by simplify_eq.
  - split; [apply Hone|done].
  - intros e' Hr. destruct (t_count c4 =? 0)%nat eqn:En; [|done]. apply Hz. by apply Nat.eqb_eq.
Qed.

(** The session, its retry included. *)
Lemma connect_sends c :
  let '(r, c') := connect_tcp_session env remote identity expected c in
  ∃ w, written c'.(t_trace) = written c.(t_trace) ++ w ∧ one_open w r ∧ (w ≠ [] → pinned) ∧ (∀ key, r = Ok key → pinned).
Proof.
  unfold connect_tcp_session. pose proof (attempt_sends c) as Ha.
  destruct (tcp_session_attempt env remote identity expected c) as [r1 c1].
  destruct Ha as (w1 & Hw1 & Ho1 & Hp1 & Hr1 & Hk1).
  assert (∀ w (r2 : result Setup (array 32)), one_open w r2 → one_open w (map_err into_error r2)) as Hmap.
  { intros w r2 [Hl Hk]. split; [done|]. intros key Hm. apply Hk. destruct r2; simplify_eq/=; done. }
  destruct r1 as [key|[e|e]].
  - exists w1. split_and!; [done|exact (Hmap _ (Ok key) Ho1)|done|intros; by eapply Hk1].
  - pose proof (attempt_sends c1) as Ha. unfold failing.
    destruct (tcp_session_attempt env remote identity expected c1) as [r2 c2].
    destruct Ha as (w2 & Hw2 & Ho2 & Hp2 & _ & Hk2). rewrite Hw1, (Hr1 e eq_refl), app_nil_r in Hw2.
    exists w2. split_and!; [done|by apply Hmap|done|].
    intros key Hm. apply (Hk2 key). by destruct r2; simplify_eq/=.
  - exists w1. split_and!; [done|exact (Hmap _ (Err (Final e)) Ho1)|done|done].
Qed.

(** What [accept_ack] checked. *)
Lemma accept_ack_facts ack o retained secret key : accept_ack ack o retained secret expected = Ok key →
  ta_receiver_fingerprint ack = ex_fingerprint expected ∧ ∃ t, tcp_ack_transcript ack o retained = Ok t ∧
  verify (ta_receiver_pubkey ack) t (ta_signature ack) = Ok () ∧ derive_shared_key secret (ta_server_x25519 ack) = Ok key.
Proof. unfold accept_ack. intros Ha. h_inv. bool_simpl. split; [done|]. eexists. split_and!; [done| |done]. by destruct x1. Qed.

(** C9: an initiator's TCP session, its retry included, sends at most one
    OPEN and accepts only the peer it selected. Whatever the network and the
    peer do, all the bytes it writes are a prefix of the line of one OPEN,
    made for a challenge in the expected peer's name, over a TLS connection
    whose certificate carries the key the Pack has for that peer; so a retry
    follows only an attempt that wrote nothing. When the session is up, the
    whole OPEN was written once, and the key comes from an ACK in the
    expected peer's name, whose signature verifies over the transcript that
    binds this OPEN. *)
Theorem client_sends_one_open c r c' :
  written c.(t_trace) = [] → connect_tcp_session env remote identity expected c = (r, c') →
  (written c'.(t_trace) = [] ∨ pinned ∧ ∃ secret o, opened secret o ∧ written c'.(t_trace) `prefix_of` line_of o) ∧
  ∀ key, r = Ok key → pinned ∧ ∃ secret o retained ack t,
    opened secret o ∧ written c'.(t_trace) = line_of o ∧ tcp_open_transcript o = Ok retained ∧
    ta_receiver_fingerprint ack = ex_fingerprint expected ∧ tcp_ack_transcript ack o retained = Ok t ∧
    verify (ta_receiver_pubkey ack) t (ta_signature ack) = Ok () ∧
    derive_shared_key secret (ta_server_x25519 ack) = Ok key.
Proof.
  intros Hc Hrun. pose proof (connect_sends c) as Hs. rewrite Hrun, Hc in Hs.
  destruct Hs as (w & -> & [Hw Hone] & Hpin & Hpk). cbn [app]. split.
  - destruct Hw as [->|Hw]; [by left|]. destruct w as [|b w]; [by left|right]. split; [by apply Hpin|done].
  - intros key Hr. split; [by eapply Hpk|]. destruct (Hone key Hr) as (secret & o & retained & ack & Ho & Hl & Ht & Ha).
    destruct (accept_ack_facts _ _ _ _ _ Ha) as (Hf & t & Htr & Hv & Hd). by exists secret, o, retained, ack, t.
Qed.

End handshake.
End client.
End ClientSpec.
