(* ===== verification/Forward.v ===== *)
(** * Sessions through a relay, and the choice of a provider
      ([werewolfd/src/transport/relay.rs], [transport/failover.rs],
      [transport/tcp_encrypted.rs], [quic_fang.rs])

    [Module Forward]: what a Fang does for one connection of the local
    application: an ordinary session to the peer; a session to the peer inside
    a session to its relay; or the providers of a service in turn. Each
    connection is a task of Conn of its own, with its own world: of a routed
    session the outer one is to the relay, and what the inner one reads and
    whether it is cut off is the relay's choice. Of the copying that follows
    a session's set-up, what it reads from the application and how it ends
    are arguments: SessionEnd is about that.

    [Module ForwardSpec]: a relay can neither speak for the destination nor
    learn its session, and a connection is served by one provider. *)

From stdpp Require Import gmap.
From S2P Require Export ClientSpec.

Local Open Scope Z_scope.

Module Forward.
Import Pelt Handshake Rpc Conn SessionKey Client.
Import OpenFang (ExpectedPeerIdentity, ex_fingerprint, ex_public_key_b64, Routed, rt_hop, rt_relay, relay_address,
  destination, Provider, pv_remote, pv_expected, pv_path, Path, PQuic, PTcp, PRouted).

Section forward.
Context `{Crypto} `{Base64} `{HandshakeJson} `{X25519} `{Tls} `{Semaphore} {D : Type}.
Notation Task := (Task (D := D)).
Notation Env := (Env (D := D)).
Notation io A := (conn (D := D) (fault ()) A).

(** A new connection. *)
Record Link : Type := mkLink { l_env : Env; l_task : Task }.
Definition on_link {A} (l : Link) (m : Env → io A) : result (fault ()) A * list Event :=
  let '(r, c) := m l.(l_env) l.(l_task) in (r, c.(t_trace)).

(** What the world does with one attempt: the connections, whether the pump
    of an outer TCP session failed when an inner set-up was cut off, the
    bytes the copying read from the application, and whether it and its
    carrier (the upload's acknowledgement, the pump) ended well. *)
Record World1 : Type := mkWorld1 {
  w_outer : Link;
  w_inner : Link;
  pump_failed : bool;
  read_locally : list byte;
  copied : bool;
  carried : bool
}.

(** What one attempt did. *)
Record Tried : Type := mkTried {
  sent_outer : list Event;
  sent_inner : list Event;
  established : bool;
  local : list byte;
  ended : result (fault ()) ()
}.
Definition failed_attempt (outer inner : list Event) (e : fault ()) : Tried := mkTried outer inner false [] (Err e).
(** [established] fires before the first read of the application. *)
Definition served (outer inner : list Event) (w : World1) (ok : bool) : Tried :=
  mkTried outer inner true w.(read_locally) (h_require ok).

(** ** To the peer itself *)

Definition pipe_one_fang_connection (w : World1) (remote : str) (identity : PeltIdentity)
    (expected : ExpectedPeerIdentity) : Tried :=
  match on_link w.(w_outer) (λ env, connect_tcp_session env remote identity expected) with
  | (Err e, outer) => failed_attempt outer [] e
  | (Ok _, outer) => served outer [] w w.(copied)
  end.

(** Over QUIC; [proxy_streams] ends well once the upload is acknowledged. *)
Definition direct_quic (w : World1) (spki : list byte) (remote : str) (identity : PeltIdentity)
    (expected : ExpectedPeerIdentity) : Tried :=
  match on_link w.(w_outer) (λ env, connect_v3_on env spki remote identity expected) with
  | (Err e, outer) => failed_attempt outer [] e
  | (Ok _, outer) => served outer [] w (w.(copied) && w.(carried))
  end.

(** A connection of [open_quic_fang]. *)
Definition quic_fang_connection (w : World1) (spki : list byte) (quic_server remote : str) (identity : PeltIdentity)
    (expected : ExpectedPeerIdentity) : Tried :=
  match parse_socket_addr quic_server with
  | None => failed_attempt [] [] (Raised ())
  | Some _ => direct_quic w spki remote identity expected
  end.

(** ** Through a relay *)

(** The set-up of an outer session; [endpoint] is the key a QUIC endpoint
    pins, made when the Fang opened. *)
Definition outer_session (routed : Routed) (endpoint : option (list byte)) (identity : PeltIdentity) (env : Env) : io () :=
  let target := show_socket_addr routed.(destination) in
  match routed.(rt_hop), endpoint with
  | Route.Quic, Some spki =>
      _ ← of_hs (h_some (parse_socket_addr routed.(relay_address)));
      connect_v3_on env spki target identity routed.(rt_relay)
  | Route.Tcp, _ =>
      _ ← connect_authenticated_tcp env routed.(rt_relay);
      _ ← client_handshake env target identity routed.(rt_relay);
      mret ()
  | Route.Quic, None => of_hs rejected
  end.

(** [inner_session] up to [established]. *)
Definition inner_session (remote : str) (identity : PeltIdentity) (expected : ExpectedPeerIdentity) (env : Env) : io (array 32) :=
  _ ← connect_authenticated_over env expected; client_handshake env remote identity expected.

(** An inner set-up is cut off by its owner, or by the pump of an outer TCP
    session, whose failure is the session's. *)
Definition cut_off (routed : Routed) (w : World1) (e : fault ()) : fault () :=
  match e, routed.(rt_hop) with
  | Panicked, Route.Tcp => if w.(pump_failed) then Raised () else Panicked
  | _, _ => e
  end.

Definition routed_session (w : World1) (routed : Routed) (endpoint : option (list byte)) (remote : str)
    (identity : PeltIdentity) (expected : ExpectedPeerIdentity) : Tried :=
  match on_link w.(w_outer) (outer_session routed endpoint identity) with
  | (Err e, outer) => failed_attempt outer [] e
  | (Ok _, outer) =>
      match on_link w.(w_inner) (inner_session remote identity expected) with
      | (Err e, inner) => failed_attempt outer inner (cut_off routed w e)
      | (Ok _, inner) => served outer inner w (w.(copied) && w.(carried))
      end
  end.

(** One exchange with the destination, such as an RPC. *)
Definition over_relay {T} (w : World1) (routed : Routed) (identity : PeltIdentity) (exchange : Env → io T)
    : result (fault ()) T * list Event * list Event :=
  match (match routed.(rt_hop) with
         | Route.Quic => _ ← h_some (parse_socket_addr routed.(relay_address));
                            Some <$> selected_peer_connector routed.(rt_relay)
         | Route.Tcp => Ok None
         end) with
  | Err e => (Err e, [], [])
  | Ok endpoint =>
      match on_link w.(w_outer) (outer_session routed endpoint identity) with
      | (Err e, outer) => (Err e, outer, [])
      | (Ok _, outer) =>
          let '(r, inner) := on_link w.(w_inner) exchange in
          (map_err (cut_off routed w) r, outer, inner)
      end
  end.

(** ** The providers of a service *)

(** The key that the provider's QUIC endpoint pins. *)
Definition endpoint_of (p : Provider) : hs (option (list byte)) :=
  match p.(pv_path) with
  | PQuic _ => Some <$> selected_peer_connector p.(pv_expected)
  | PRouted r => match r.(rt_hop) with
                 | Route.Quic => Some <$> selected_peer_connector r.(rt_relay)
                 | Route.Tcp => Ok None
                 end
  | PTcp _ => Ok None
  end.
Definition prepare (ps : list Provider) : hs (list (Provider * option (list byte))) :=
  try_map (λ p, e ← endpoint_of p; Ok (p, e)) ps.

Definition attempt (w : World1) (ready : Provider * option (list byte)) (identity : PeltIdentity) : Tried :=
  let '(p, endpoint) := ready in
  match p.(pv_path), endpoint with
  | PTcp _, _ => pipe_one_fang_connection w p.(pv_remote) identity p.(pv_expected)
  | PQuic _, Some spki => direct_quic w spki p.(pv_remote) identity p.(pv_expected)
  | PRouted routed, endpoint => routed_session w routed endpoint p.(pv_remote) identity p.(pv_expected)
  | PQuic _, None => failed_attempt [] [] (Raised ())
  end.

(** The providers in order, one world for each; whether the session ended
    cleanly, and what was tried. An attempt that is dropped (the deadline,
    the Fang's end) is the last, and so is one that was established. *)
Fixpoint select_and_serve (ready : list (Provider * option (list byte))) (ws : list World1) (identity : PeltIdentity)
    : bool * list Tried :=
  match ready, ws with
  | p :: ready, w :: ws =>
      let t := attempt w p identity in
      match t.(ended) with
      | Ok _ => (true, [t])
      | Err Panicked => (false, [t])
      | Err (Raised _) =>
          if t.(established) then (false, [t])
          else let '(ok, ts) := select_and_serve ready ws identity in (ok, t :: ts)
      end
  | _, _ => (false, [])
  end.

End forward.
End Forward.

Module ForwardSpec.
Import Pelt Handshake HandshakeSpec Rpc Conn SessionKey Client ClientSpec Forward.
Import OpenFang (ExpectedPeerIdentity, ex_fingerprint, ex_public_key_b64, Routed, rt_hop, rt_relay, relay_address,
  destination, Provider, pv_remote, pv_expected, pv_path, Path, PQuic, PTcp, PRouted).

Section spec.
Context `{Crypto} `{Base64} `{HandshakeJson} `{X25519} `{Tls} `{Semaphore} {D : Type}.
Notation Task := (Task (D := D)).
Notation Env := (Env (D := D)).
Notation Link := (Link (D := D)).
Notation World1 := (World1 (D := D)).
Notation Tried := Forward.Tried.
#[local] Hint Resolve keeps_bind keeps_of_hs keeps_turn keeps_ensure keeps_ret keeps_failing keeps_now keeps_draw
  keeps_await keeps_syscall keeps_read keeps_read_line : keeps.
Ltac keep := repeat (intros; first [ apply keeps_bind | apply keeps_failing | done | solve [eauto with keeps] |
  match goal with |- keeps (match ?x with _ => _ end) => destruct x end ]).

(** ** One set-up, on one connection *)

Section link.
Variable env : Env.
Variables (remote : str) (identity : PeltIdentity) (expected : ExpectedPeerIdentity).

(** All that was written is part of one OPEN, over TLS pinned to the expected
    peer's Pack key; when the session is up, that OPEN is complete and the
    expected peer signed an ACK that answers it. *)
Definition tcp_speaks (w : list byte) (up : Prop) : Prop :=
  (w = [] ∨ pinned env expected ∧ ∃ secret o, opened remote identity expected secret o ∧ w `prefix_of` line_of o) ∧
  (up → pinned env expected ∧ ∃ secret o retained ack key, opened remote identity expected secret o ∧ w = line_of o ∧
     tcp_open_transcript o = Ok retained ∧ accept_ack ack o retained secret expected = Ok key).

(** Over QUIC the OPEN is bound to the connection. *)
Definition quic_opened (o : QuicOpen) (binding : array 32) : Prop :=
  ∃ t nonce, binding = quic_binding (env.(exporter) t) ∧
    quic_open_new identity (ex_fingerprint expected) remote binding nonce = Ok o.
Definition quic_speaks (w : list byte) (up : Prop) : Prop :=
  (w = [] ∨ pinned env expected ∧ ∃ o binding, quic_opened o binding ∧ w `prefix_of` to_vec o ++ [LF]) ∧
  (up → pinned env expected ∧ ∃ o binding retained ack, quic_opened o binding ∧ w = to_vec o ++ [LF] ∧
     quic_open_transcript o binding = Ok retained ∧ accept_quic_ack ack o retained expected = Ok ()).

Lemma tcp_speaks_intro {E} w (r : result E (array 32)) (up : Prop) :
  one_open remote identity expected w r → (w ≠ [] → pinned env expected) → (up → ∃ key, r = Ok key ∧ pinned env expected) →
  tcp_speaks w up.
Proof.
  intros [Hw Hone] Hpin Hup. split.
  - destruct Hw as [->|Hw]; [by left|]. destruct w; [by left|right]. split; [by apply Hpin|done].
  - intros [key [Hk Hp]]%Hup. split; [done|]. destruct (Hone key Hk) as (s & o & re & a & ?). by exists s, o, re, a, key.
Qed.

(** A step that writes nothing, after which the connection is pinned. *)
Definition connects (m : conn (D := D) (fault ()) ()) : Prop := ∀ c,
  let '(r, c') := m c in c'.(t_trace) = c.(t_trace) ∧ (r = Ok () → pinned env expected).

Lemma connects_after {A} (k : conn (fault ()) A) f : keeps k → (∀ a, connects (f a)) → connects (k ≫= f).
Proof.
  intros Hk Hf c. rewrite conn_bind_run. destruct (Hk c) as [Ht _].
  destruct (k c) as [[a|e] c1]; cbn [snd] in *; [|done].
  specialize (Hf a c1). destruct (f a c1) as [r c2]. rewrite <-Ht. exact Hf.
Qed.

Lemma connects_tls spki : selected_peer_connector expected = Ok spki → connects (tls_connect env spki).
Proof.
  intros Hs c. unfold tls_connect, failing. destruct (tls_up_run env spki c) as [Ht Hup].
  destruct (tls_up env spki c) as [[[]|e] c']; cbn [fst snd map_err] in *; (split; [done|]); [|done].
  intros _. destruct (Hup eq_refl) as (_ & t & cert & input & ? & ?). by exists spki, t, cert, input.
Qed.

Lemma connects_of_connector f :
  (∀ spki, selected_peer_connector expected = Ok spki → connects (f spki)) →
  connects (spki ← of_hs (selected_peer_connector expected); f spki).
Proof.
  intros Hf c. rewrite conn_bind_run. unfold of_hs. destruct (selected_peer_connector expected) as [spki|]; [|done].
  by apply Hf.
Qed.

Lemma connects_over : connects (connect_authenticated_over env expected).
Proof. apply connects_of_connector, connects_tls. Qed.
Lemma connects_tcp : connects (connect_authenticated_tcp env expected).
Proof.
  apply connects_of_connector. intros spki Hs. apply connects_after; [unfold open_tcp; keep|]. intros _.
  apply connects_after; [keep|]. intros _. by apply connects_tls.
Qed.

(** The set-up of encrypted TCP over any stream. *)
Definition speaking (S : list byte → Prop → Prop) {A} (m : conn (D := D) (fault ()) A) : Prop := ∀ c,
  let '(r, c') := m c in ∃ w, written c'.(t_trace) = written c.(t_trace) ++ w ∧ S w (is_ok r = true).

Lemma speaking_handshake m : connects m → speaking tcp_speaks (_ ← m; client_handshake env remote identity expected).
Proof.
  intros Hm c. rewrite conn_bind_run. specialize (Hm c). destruct (m c) as [[[]|e] c1]; destruct Hm as [Ht Hp].
  - unfold client_handshake. pose proof (handshake_sends env remote identity expected c1) as Hs.
    destruct (client_handshake_counted env remote identity expected c1) as [r c2].
    destruct Hs as (w & Hw & Hone & _). exists w. rewrite Hw, Ht. split; [done|].
    eapply tcp_speaks_intro; [done|by intros _; apply Hp|]. destruct r as [key|]; [|done]. intros _. exists key. auto.
  - exists []. rewrite app_nil_r, Ht. split; [done|]. split; [by left|done].
Qed.

Lemma speaking_inner : speaking tcp_speaks (inner_session remote identity expected env).
Proof. apply speaking_handshake, connects_over. Qed.

Lemma speaking_outer_tcp : speaking tcp_speaks (_ ← connect_authenticated_tcp env expected;
  _ ← client_handshake env remote identity expected; mret ()).
Proof.
  intros c. pose proof (speaking_handshake _ connects_tcp c) as Hs. rewrite conn_bind_run in Hs. rewrite conn_bind_run.
  destruct (connect_authenticated_tcp env expected c) as [[[]|e] c1]; [|exact Hs].
  rewrite conn_bind_run. destruct (client_handshake env remote identity expected c1) as [[key|e] c2]; exact Hs.
Qed.

Lemma speaking_direct_tcp : speaking tcp_speaks (connect_tcp_session env remote identity expected).
Proof.
  intros c. pose proof (connect_sends env remote identity expected c) as Hs.
  destruct (connect_tcp_session env remote identity expected c) as [r c']. destruct Hs as (w & Hw & Hone & Hp & Hk).
  exists w. split; [done|]. eapply tcp_speaks_intro; [exact Hone|exact Hp|]. destruct r as [key|]; [|done]. eauto.
Qed.

(** The set-up of QUIC on an endpoint that pins the expected peer's key. *)
Lemma speaking_quic spki : selected_peer_connector expected = Ok spki →
  speaking quic_speaks (connect_v3_on env spki remote identity expected).
Proof.
  intros Hs c. unfold connect_v3_on. rewrite conn_bind_run.
  assert (connects (quic_connect env spki)) as Hc.
  { apply connects_after; [keep|]. intros _. by apply connects_tls. }
  specialize (Hc c). destruct (quic_connect env spki c) as [[[]|e] c1]; destruct Hc as [T1 Hp].
  2: { exists []. rewrite app_nil_r, T1. split; [done|]. split; [by left|done]. }
  specialize (Hp eq_refl).
  assert (∀ e (c2 : Task), t_trace c2 = t_trace c → let '(r, c') := (Err e : result (fault ()) (), c2) in
    ∃ w, written c'.(t_trace) = written c.(t_trace) ++ w ∧ quic_speaks w (is_ok r = true)) as Hfail.
  { intros e c2 T. exists []. rewrite app_nil_r, T. split; [done|]. split; [by left|done]. }
  rewrite conn_bind_run. destruct (keeps_now env (E := fault ()) c1) as [T2 _].
  destruct (now env c1) as [[t|e] c2]; cbn [snd] in T2; [|apply Hfail; congruence]. cbn zeta.
  rewrite conn_bind_run. unfold quic_confirmed. rewrite conn_bind_run.
  destruct (keeps_await env (Some (t + CLIENT_WINDOW)) c2) as [T3 _].
  destruct (await env (Some (t + CLIENT_WINDOW)) c2) as [[t3|e] c3]; cbn [snd] in T3; [|apply Hfail; congruence].
  rewrite conn_bind_run. destruct (keeps_await env (Some (t + CLIENT_WINDOW)) c3) as [T4 _].
  destruct (await env (Some (t + CLIENT_WINDOW)) c3) as [[t4|e] c4]; cbn [snd] in T4; [|apply Hfail; congruence].
  unfold mret, conn_ret. rewrite conn_bind_run. destruct (keeps_draw env 16 c4) as [T5 _].
  destruct (draw env 16 c4) as [[nonce|e] c5]; cbn [snd] in T5; [|apply Hfail; congruence].
  rewrite conn_bind_run. unfold of_hs at 1.
  destruct (quic_open_new _ _ _ _ _) as [o|e] eqn:Ho; [|apply Hfail; congruence].
  assert (quic_opened o (quic_binding (env.(exporter) t4))) as Hop by by exists t4, nonce.
  rewrite conn_bind_run. unfold of_hs at 1.
  destruct (quic_open_transcript o _) as [retained|e] eqn:Htr; [|apply Hfail; congruence].
  rewrite conn_bind_run.
  match goal with |- context [hs_write env o ?l ?d c5] =>
    destruct (hs_write_written env o l d c5) as (w & Hw & _ & Hpre & Hall); destruct (hs_write env o l d c5) as [[[]|e] c6] end;
    cbn [fst snd] in *; replace (t_trace c5) with (t_trace c) in Hw by congruence.
  2: { exists w. split; [done|]. split; [right; split; [done|eauto]|done]. }
  rewrite (Hall eq_refl) in *. rewrite conn_bind_run.
  match goal with |- context [hs_read env false ?l ?d c6] =>
    destruct (keeps_read env (A := QuicAck) l d c6) as [T7 _]; destruct (hs_read env false l d c6) as [[ack|e] c7] end;
    cbn [fst snd] in *; exists (to_vec o ++ [LF]); unfold of_hs; rewrite T7, Hw; (split; [done|]);
    (split; [right; split; [done|]; by exists o, (quic_binding (env.(exporter) t4))|]); [|done].
  destruct (accept_quic_ack ack o retained expected) as [[]|e] eqn:Ha; [|done]. intros _. split; [done|].
  by exists o, (quic_binding (env.(exporter) t4)), retained, ack.
Qed.

End link.

(** ** Attempts *)

Definition fresh_world (w : World1) : Prop :=
  written w.(w_outer).(l_task).(t_trace) = [] ∧ written w.(w_inner).(l_task).(t_trace) = [].

Lemma on_link_speaks {A} (S : list byte → Prop → Prop) (l : Link) (m : Env → conn (fault ()) A) :
  written l.(l_task).(t_trace) = [] → speaking S (m l.(l_env)) →
  S (written (on_link l m).2) (is_ok (on_link l m).1 = true).
Proof.
  intros Hl Hm. unfold on_link. specialize (Hm l.(l_task)). destruct (m (l_env l) (l_task l)) as [r c].
  destruct Hm as (w & Hw & Hs). cbn [fst snd]. by rewrite Hw, Hl.
Qed.

Lemma tcp_speaks_weaken env remote identity expected w (up up' : Prop) :
  (up' → up) → tcp_speaks env remote identity expected w up → tcp_speaks env remote identity expected w up'.
Proof. intros Hu [? Hup]. split; auto. Qed.
Lemma quic_speaks_weaken env remote identity expected w (up up' : Prop) :
  (up' → up) → quic_speaks env remote identity expected w up → quic_speaks env remote identity expected w up'.
Proof. intros Hu [? Hup]. split; auto. Qed.
Lemma tcp_speaks_nil env remote identity expected (up : Prop) : ¬ up → tcp_speaks env remote identity expected [] up.
Proof. intros Hu. split; [by left|done]. Qed.

(** What an attempt says to the relay: its OPEN is for the destination's
    listener, and nothing of the real target. *)
Definition relay_hears (w : World1) (routed : Routed) (identity : PeltIdentity) (bytes : list byte) (up : Prop) : Prop :=
  let target := show_socket_addr routed.(destination) in
  match routed.(rt_hop) with
  | Route.Tcp => tcp_speaks w.(w_outer).(l_env) target identity routed.(rt_relay) bytes up
  | Route.Quic => quic_speaks w.(w_outer).(l_env) target identity routed.(rt_relay) bytes up
  end.

Lemma outer_speaks w routed endpoint identity : fresh_world w →
  (∀ spki, endpoint = Some spki → selected_peer_connector routed.(rt_relay) = Ok spki) →
  relay_hears w routed identity (written (on_link w.(w_outer) (outer_session routed endpoint identity)).2)
    (is_ok (on_link w.(w_outer) (outer_session routed endpoint identity)).1 = true).
Proof.
  intros [Hf _] He. unfold relay_hears, outer_session. destruct (rt_hop routed); [|by apply on_link_speaks, speaking_outer_tcp].
  set (target := show_socket_addr _). apply (on_link_speaks (quic_speaks _ target identity _)); [done|].
  destruct endpoint as [spki|]; cbn zeta.
  - intros c. rewrite conn_bind_run. unfold of_hs. destruct (h_some _) as [a|e]; [by apply speaking_quic, He|].
    exists []. rewrite app_nil_r. split; [done|]. split; [by left|done].
  - intros c. exists []. rewrite app_nil_r. split; [done|]. split; [by left|done].
Qed.

(** What the parts of an attempt say and read. *)
Definition routed_speaks (w : World1) (routed : Routed) remote identity expected (t : Tried) : Prop :=
  relay_hears w routed identity (written t.(sent_outer)) (written t.(sent_inner) ≠ [] ∨ t.(established) = true) ∧
  tcp_speaks w.(w_inner).(l_env) remote identity expected (written t.(sent_inner)) (t.(established) = true).

Lemma relay_hears_weaken w routed identity bytes (up up' : Prop) :
  (up' → up) → relay_hears w routed identity bytes up → relay_hears w routed identity bytes up'.
Proof.
  unfold relay_hears. destruct (rt_hop routed); [apply quic_speaks_weaken|apply tcp_speaks_weaken].
Qed.

Lemma routed_session_speaks w routed endpoint remote identity expected : fresh_world w →
  (∀ spki, endpoint = Some spki → selected_peer_connector routed.(rt_relay) = Ok spki) →
  routed_speaks w routed remote identity expected (routed_session w routed endpoint remote identity expected).
Proof.
  intros Hf He. pose proof (outer_speaks w routed endpoint identity Hf He) as Ho. unfold routed_session.
  destruct (on_link (w_outer w) _) as [[[]|e] outer]; cbn [fst snd] in Ho.
  2: { split; cbn; [eapply relay_hears_weaken; [|exact Ho]; by intros [|]|by apply tcp_speaks_nil]. }
  pose proof (on_link_speaks _ (w_inner w) (inner_session remote identity expected) (proj2 Hf)
    (speaking_inner _ remote identity expected)) as Hi.
  destruct (on_link (w_inner w) _) as [[key|e] inner]; cbn [fst snd] in Hi; (split; cbn;
    [eapply relay_hears_weaken; [|exact Ho]; done|eapply tcp_speaks_weaken; [|exact Hi]; done]).
Qed.

Definition attempt_speaks (w : World1) (p : Provider) identity (t : Tried) : Prop :=
  match p.(pv_path) with
  | PTcp _ => tcp_speaks w.(w_outer).(l_env) p.(pv_remote) identity p.(pv_expected) (written t.(sent_outer)) (t.(established) = true)
  | PQuic _ => quic_speaks w.(w_outer).(l_env) p.(pv_remote) identity p.(pv_expected) (written t.(sent_outer)) (t.(established) = true)
  | PRouted routed => routed_speaks w routed p.(pv_remote) identity p.(pv_expected) t
  end.

Lemma attempt_speaks_ok w p endpoint identity : fresh_world w → endpoint_of p = Ok endpoint →
  attempt_speaks w p identity (attempt w (p, endpoint) identity).
Proof.
  intros Hf He. unfold attempt_speaks, attempt, pipe_one_fang_connection, direct_quic, endpoint_of in *. destruct (pv_path p) as [a|a|routed].
  - destruct (selected_peer_connector _) as [spki|] eqn:Hs; [|done]. injection He as <-.
    pose proof (on_link_speaks _ (w_outer w) (λ env, connect_v3_on env spki _ identity _) (proj1 Hf)
      (speaking_quic _ (pv_remote p) identity _ spki Hs)) as Hq.
    destruct (on_link _ _) as [[[]|e] outer]; cbn [fst snd] in Hq; cbn; (eapply quic_speaks_weaken; [|exact Hq]); done.
  - pose proof (on_link_speaks _ (w_outer w) (λ env, connect_tcp_session env _ identity _) (proj1 Hf)
      (speaking_direct_tcp _ (pv_remote p) identity (pv_expected p))) as Hq.
    destruct (on_link _ _) as [[key|e] outer]; cbn [fst snd] in Hq; cbn; (eapply tcp_speaks_weaken; [|exact Hq]); done.
  - apply routed_session_speaks; [done|]. intros spki ->. destruct (rt_hop routed); [|done].
    by destruct (selected_peer_connector _); simplify_eq/=.
Qed.

(** The application's bytes are read by an established session only, and a
    session ends well only if it was established. *)
Lemma attempt_commits (w : World1) ready identity : let t := attempt w ready identity in
  (t.(established) = false → t.(local) = []) ∧ (t.(ended) = Ok () → t.(established) = true).
Proof.
  destruct ready as [p endpoint]. unfold attempt, pipe_one_fang_connection, direct_quic, routed_session.
  repeat match goal with |- context [match ?x with _ => _ end] => destruct x end; done.
Qed.

(** ** What is guaranteed *)

(** C15: a relay carries a session and is no part of it. Whatever the relay
    and the networks do on both connections: to the relay a routed session
    writes at most one OPEN, for the destination's listener, on a connection
    pinned to the relay's key, and nothing goes inside before the relay
    signed its ACK; inside, it writes at most one OPEN for the real target,
    under TLS pinned to the destination's key; and it is established, and
    the application read, only once the destination, not the relay, has
    signed an ACK that answers it. *)
Theorem relay_cannot_impersonate (w : World1) routed endpoint remote identity expected t :
  fresh_world w → (∀ spki, endpoint = Some spki → selected_peer_connector routed.(rt_relay) = Ok spki) →
  routed_session w routed endpoint remote identity expected = t →
  relay_hears w routed identity (written t.(sent_outer)) (written t.(sent_inner) ≠ [] ∨ t.(established) = true) ∧
  tcp_speaks w.(w_inner).(l_env) remote identity expected (written t.(sent_inner)) (t.(established) = true) ∧
  (t.(established) = false → t.(local) = []).
Proof.
  intros Hf He <-. destruct (routed_session_speaks w routed endpoint remote identity expected Hf He). split_and!; [done..|].
  unfold routed_session. repeat match goal with |- context [match ?x with _ => _ end] => destruct x end; done.
Qed.

(** The last attempt of a selection. *)
Lemma last_attempt (w : World1) (ws : list World1) p ps e identity (ok : bool) :
  let t := attempt w (p, e) identity in
  attempt_speaks w p identity t → (ok = true ↔ t.(ended) = Ok ()) →
  (∀ i u, [t] !! i = Some u → ∃ q v, (p :: ps) !! i = Some q ∧ (w :: ws) !! i = Some v ∧ attempt_speaks v q identity u ∧
     (u.(local) ≠ [] → u.(established) = true) ∧ (u.(established) = true → S i = 1%nat)) ∧
  (ok = true ↔ ∃ u, Some t = Some u ∧ u.(established) = true ∧ u.(ended) = Ok ()).
Proof.
  intros t Hsp Hok. destruct (attempt_commits w (p, e) identity) as [Hl He]. fold t in Hl, He. split.
  - intros [|i] u Hu; [|done]. injection Hu as <-. exists p, w. split_and!; [done..| |done].
    intros Hne. destruct (established t); [done|]. by destruct Hne; apply Hl.
  - rewrite Hok. split; [by eauto|by intros (? & [= <-] & ? & ?)].
Qed.

(** C16: one provider serves a connection. The providers of a service are
    tried in their order, each with an ordinary session that says only what
    is for that provider; the application's bytes are read by an established
    session, which its provider signed for, and it is the last tried: no
    other provider sees them, before or after. The connection ends cleanly
    exactly if the last session was established and ended well. *)
Theorem one_provider_serves ps ready (ws : list World1) identity ok ts :
  prepare ps = Ok ready → Forall fresh_world ws → select_and_serve ready ws identity = (ok, ts) →
  (∀ i t, ts !! i = Some t → ∃ p w, ps !! i = Some p ∧ ws !! i = Some w ∧ attempt_speaks w p identity t ∧
     (t.(local) ≠ [] → t.(established) = true) ∧ (t.(established) = true → S i = length ts)) ∧
  (ok = true ↔ ∃ t, last ts = Some t ∧ t.(established) = true ∧ t.(ended) = Ok ()).
Proof.
  revert ready ws ok ts. induction ps as [|p ps IH]; intros ready ws ok ts Hp Hf Hs.
  { injection Hp as <-. destruct ws; cbn in Hs; simplify_eq; (split; [done|]); (split; [done|by intros (? & ? & _)]). }
  unfold prepare in Hp. cbn [try_map] in Hp. h_inv. destruct Hf as [|w ws Hw Hf]; cbn [select_and_serve] in Hs.
  { injection Hs as <- <-. split; [done|]. split; [done|by intros (? & ? & _)]. }
  match goal with Hx : endpoint_of p = Ok ?e |- _ => pose proof (attempt_speaks_ok w p e identity Hw Hx) as Hsp;
    destruct (attempt_commits w (p, e) identity) as [Hl He]; pose proof (last_attempt w ws p ps e identity) as Hlast;
    set (t := attempt w (p, e) identity) in *; clearbody t end.
  destruct (ended t) as [[]|[[]|]] eqn:Het.
  - injection Hs as <- <-. apply Hlast; [done|rewrite Het; by split].
  - destruct (established t) eqn:Hes; [injection Hs as <- <-; apply Hlast; [done|rewrite Het; by split]|].
    destruct (select_and_serve _ ws identity) as [ok' ts'] eqn:Hrec. injection Hs as <- <-.
    destruct (IH _ _ _ _ ltac:(done) Hf Hrec) as [Hall Hok]. split.
    + intros [|i] u Hu; [injection Hu as <-|apply Hall in Hu as (q & v & ? & ? & ? & ? & Hi); exists q, v; split_and!; [done..|]; intros Hest; cbn; f_equal; by apply Hi].
      exists p, w. split_and!; [done..| |congruence]. intros Hne. by destruct Hne; apply Hl.
    + rewrite Hok. destruct ts' as [|u ts']; cbn; [|done].
      split; [by intros (? & ? & _)|]. intros (v & Hv & Hve & _). assert (v = t) as -> by congruence. congruence.
  - injection Hs as <- <-. apply Hlast; [done|rewrite Het; by split].
Qed.

End spec.
End ForwardSpec.
