(* ===== verification/SessionHonest.v ===== *)
(** * Two honest ends agree on the key

    The receiver and the initiator, each undisturbed, run against each
    other's bytes. [succeeds] is total correctness for one task. *)

From stdpp Require Import gmap.
From S2P Require Export ClientSpec.

Local Open Scope Z_scope.

Module Honest.
Import Pelt Handshake HandshakeSpec Admission State Conn SessionKey Running.
Import ClientSpec (written).

Section quiet.
Context `{Semaphore} {D : Type}.
Notation Task := (Task (D := D)).
Variable env : Env (D := D).

(** Nothing else runs, every await ends, every write takes something, and
    the system gives random bytes and connects. *)
Record quiet : Prop := mkQuiet {
  q_others : ∀ t n, env.(others) t n = n;
  q_wake : ∀ t, env.(wake) t = Done;
  q_takes : ∀ t, (0 < env.(takes) t)%nat;
  q_draws : ∀ t n, ∃ x, env.(draws) t n = Some x;
  q_connects : ∀ t, (env.(connects) t).2 = true
}.
Hypothesis Hq : quiet.

(** Equal but for the turn, the count and the locks in the trace. *)
Record same (c c' : Task) : Prop := mkSame {
  sm_node : c'.(t_node) = c.(t_node);
  sm_lease : c'.(t_lease) = c.(t_lease);
  sm_watch : c'.(t_watch) = c.(t_watch);
  sm_permit : c'.(t_permit) = c.(t_permit);
  sm_in : c'.(t_in) = c.(t_in);
  sm_written : written c'.(t_trace) = written c.(t_trace)
}.
#[export] Instance same_preorder : PreOrder same.
Proof. split; [done|]. intros c1 c2 c3 [] []. split; congruence. Qed.

Definition succeeds {E A} (m : conn E A) (c : Task) (Q : A → Task → Prop) : Prop :=
  ∃ a c', m c = (Ok a, c') ∧ Q a c'.

Lemma succ_bind {E A B} (m : conn E A) (f : A → conn E B) c Q Q' :
  succeeds m c Q → (∀ a c', Q a c' → succeeds (f a) c' Q') → succeeds (m ≫= f) c Q'.
Proof. intros (a & c1 & Hm & HQ) Hf. unfold succeeds, mbind, conn_bind. rewrite Hm. by apply Hf. Qed.
Lemma succ_of_hs {E A} c (r : result E A) a : r = Ok a → succeeds (of_hs r) c (λ x c', x = a ∧ c' = c).
Proof. intros ->. by exists a, c. Qed.
Lemma succ_ret {E A} c (a : A) : succeeds (mret a : conn E A) c (λ x c', x = a ∧ c' = c).
Proof. by exists a, c. Qed.
Lemma succ_weaken {E A} (m : conn E A) c (Q Q' : A → Task → Prop) :
  (∀ a c', Q a c' → Q' a c') → succeeds m c Q → succeeds m c Q'.
Proof. intros HQ (a & c' & ? & ?). exists a, c'. auto. Qed.

(** One turn. *)
Definition ticked (c c' : Task) : Prop := same c c' ∧ c'.(t_turn) = S c.(t_turn).

Lemma succ_turn {E} c : succeeds (turn env (E := E)) c (λ t c', t = c.(t_turn) ∧ ticked c c').
Proof. eexists _, _. split; [reflexivity|]. split; [done|]. split; [|done]. split; try done. apply (q_others Hq). Qed.

Lemma succ_now {E} c : succeeds (now env (E := E)) c (λ z c', (∃ t, z = env.(clock) t) ∧ ticked c c').
Proof.
  eapply succ_bind; [apply succ_turn|]. cbn. intros t c1 [-> Ht].
  eapply succ_weaken; [|apply succ_ret]. cbn. intros ? ? [-> ->]. eauto.
Qed.

Lemma succ_draw n c :
  succeeds (draw env n) c (λ x c', env.(draws) c.(t_turn) n = Some x ∧ ticked c c').
Proof.
  eapply succ_bind; [apply succ_turn|]. cbn. intros t c1 [-> Ht]. destruct (q_draws Hq (t_turn c) n) as [x Hx].
  exists x, c1. rewrite Hx. done.
Qed.

Lemma watched_same c c' : same c c' → watched_stop c' = watched_stop c.
Proof. intros [Hn _ Hw _ _ _]. unfold watched_stop, authority. by rewrite Hn, Hw. Qed.

Lemma succ_await d c :
  watched_stop c = false → succeeds (await env d) c (λ t c', t = c.(t_turn) ∧ ticked c c').
Proof.
  intros Hw. eapply succ_bind; [apply succ_turn|]. cbn. intros t c1 [-> [Hs Ht]].
  exists (t_turn c), c1. unfold mbind, conn_bind, ensure. rewrite (watched_same _ _ Hs), Hw. cbn. by rewrite (q_wake Hq).
Qed.

Lemma succ_syscall c : succeeds (syscall env) c (λ _ c', ticked c c').
Proof.
  eapply succ_bind; [apply succ_turn|]. cbn. intros t c1 [-> Ht]. exists (), c1. rewrite (q_wake Hq). done.
Qed.

Lemma succ_read {A} (f : DaemonState → hs A) a c :
  watched_stop c = false → f c.(t_node).(n_world).(live) = Ok a →
  succeeds (read_state env f) c (λ x c', x = a ∧ ticked c c').
Proof.
  intros Hw Hf. eapply succ_bind; [by apply succ_await|]. cbn. intros t c1 [-> [Hs Ht]].
  eexists _, _. unfold act. rewrite (sm_node _ _ Hs), Hf. cbn. split; [reflexivity|]. split; [done|].
  split; [|done]. destruct Hs as [Hn ? ? ? ? ?]. split; try done. cbn. unfold node_live, on_live.
  by destruct (t_node c) as [[]].
Qed.

Lemma succ_authority {A} (f : Authority.Authority → Authority.Authority * option A) a x c :
  f (authority c) = (a, Some x) →
  succeeds (on_authority env f) c (λ y c', y = x ∧ same (set_node (node_authority a c.(t_node)) c) c').
Proof.
  intros Hf. eapply succ_bind; [apply succ_turn|]. cbn. intros t c1 [-> [Hs Ht]].
  eexists _, _. unfold act, authority. rewrite (sm_node _ _ Hs). fold (authority c). rewrite Hf. cbn.
  split; [reflexivity|]. split; [done|]. destruct Hs. by split.
Qed.

Lemma succ_admission {A} (f : Admission → Admission * hs A) a x c :
  f c.(t_node).(n_admission) = (a, Ok x) →
  succeeds (on_admission env f) c (λ y c', y = x ∧ same (set_node (node_admission a c.(t_node)) c) c').
Proof.
  intros Hf. eapply succ_bind; [apply succ_turn|]. cbn. intros t c1 [-> [Hs Ht]].
  eexists _, _. unfold act. rewrite (sm_node _ _ Hs), Hf. cbn. split; [reflexivity|]. split; [done|]. destruct Hs. by split.
Qed.

Lemma succ_byte cnt d b rest c :
  watched_stop c = false → c.(t_in) = b :: rest →
  succeeds (read_byte env cnt d) c (λ x c', x = b ∧ same (set_stream rest 0 c) c' ∧ c'.(t_turn) = S c.(t_turn)).
Proof.
  intros Hw Hi. eapply succ_bind; [by apply succ_await|]. cbn. intros t c1 [-> [Hs Ht]].
  eexists _, _. unfold act. rewrite (sm_in _ _ Hs), Hi. split; [reflexivity|]. split; [done|].
  split; [|done]. destruct Hs. by split.
Qed.

Lemma succ_line cnt d l rest : ∀ n c,
  watched_stop c = false → c.(t_in) = l ++ LF :: rest → LF ∉ l → (length l < n)%nat →
  succeeds (read_line env cnt n d) c (λ x c', x = l ++ [LF] ∧ same (set_stream rest 0 c) c' ∧
    c'.(t_turn) = (c.(t_turn) + S (length l))%nat).
Proof.
  induction l as [|b l IH]; intros n c Hw Hi Hl Hn; (destruct n as [|n]; [cbn in Hn; lia|]); cbn [read_line].
  - eapply succ_bind; [by apply succ_byte|]. cbn. intros x c1 (-> & Hs & Ht).
    rewrite bool_decide_eq_true_2 by done. eapply succ_weaken; [|apply succ_ret]. cbn. intros ? ? [-> ->].
    split_and!; [done|done|lia].
  - apply not_elem_of_cons in Hl as [Hb Hl]. eapply succ_bind; [by apply succ_byte|]. cbn. intros x c1 (-> & Hs & Ht).
    rewrite bool_decide_eq_false_2 by done. eapply succ_bind.
    + apply (IH n c1); [|by rewrite (sm_in _ _ Hs)|done|cbn in Hn; lia].
      rewrite (watched_same _ _ Hs). done.
    + cbn. intros y c2 (-> & Hs2 & Ht2). eapply succ_weaken; [|apply succ_ret]. cbn. intros ? ? [-> ->].
      split_and!; [done| |lia]. destruct Hs, Hs2. by split; cbn in *; congruence.
Qed.

(** The writer lets the task write. *)
Definition open_writer (c : Task) : Prop :=
  match c.(t_lease) with Some id => passes (authority c) id | None => True end.
Lemma open_writer_same c c' : same c c' → open_writer c → open_writer c'.
Proof. intros [Hn Hl _ _ _ _]. unfold open_writer, authority. by rewrite Hl, Hn. Qed.

(** The task has written [data] more. *)
Definition wrote (data : list byte) (c c' : Task) : Prop :=
  c'.(t_node) = c.(t_node) ∧ c'.(t_lease) = c.(t_lease) ∧ c'.(t_watch) = c.(t_watch) ∧
  c'.(t_permit) = c.(t_permit) ∧ c'.(t_in) = c.(t_in) ∧ written c'.(t_trace) = written c.(t_trace) ++ data.

Lemma submit_through {T} id (x : T) a : passes a id → Authority.submit id (Some x) a = (a, Some x).
Proof. intros (Hp & e & He & Hc). unfold Authority.submit. by rewrite Hp, He, Hc. Qed.

Lemma succ_poll data c :
  open_writer c → data ≠ [] → succeeds (poll_write env data) c (λ n c', (0 < n)%nat ∧ wrote (take n data) c c').
Proof.
  intros Ho Hd. eapply succ_bind; [apply succ_turn|]. cbn. intros t c1 [-> [Hs Ht]].
  pose proof (open_writer_same _ _ Hs Ho) as Ho1. unfold open_writer in Ho1.
  assert (0 < Nat.min (env.(takes) (t_turn c)) (length data))%nat as Hn.
  { pose proof (q_takes Hq (t_turn c)). destruct data; [done|]. cbn [length]. lia. }
  unfold act, succeeds. cbn zeta. destruct Hs. destruct (t_lease c1) as [id|] eqn:El.
  - rewrite submit_through by done. eexists _, _. split; [reflexivity|]. split; [done|].
    split_and!; cbn; congruence.
  - eexists _, _. split; [reflexivity|]. split; [done|]. split_and!; cbn; congruence.
Qed.

Lemma wrote_watched data c c' : wrote data c c' → watched_stop c' = watched_stop c.
Proof. intros (Hn & _ & Hw & _). unfold watched_stop, authority. by rewrite Hn, Hw. Qed.
Lemma wrote_open data c c' : wrote data c c' → open_writer c → open_writer c'.
Proof. intros (Hn & Hl & _). unfold open_writer, authority. by rewrite Hn, Hl. Qed.

Lemma succ_write_all d : ∀ fuel data c,
  (length data ≤ fuel)%nat → watched_stop c = false → open_writer c →
  succeeds (write_all env fuel d data) c (λ _ c', wrote data c c').
Proof.
  induction fuel as [|fuel IH]; intros data c Hf Hw Ho; (destruct data as [|b data]; [|try (cbn in Hf; lia)]).
  1,2: eexists (), c; split; [done|]; split_and!; try done; by rewrite app_nil_r.
  cbn [write_all]. set (all := b :: data) in *. eapply succ_bind; [by apply succ_await|]. cbn. intros t c1 [-> [Hs Ht]].
  eapply succ_bind; [apply succ_poll; [by eapply open_writer_same|done]|]. cbn. intros n c2 [Hn Hw2].
  destruct (Nat.eqb_spec n 0) as [|_]; [lia|]. eapply succ_weaken; [|apply IH].
  - cbn. intros _ c3 (Hn3 & Hl3 & Hwt3 & Hp3 & Hi3 & Hw3). destruct Hw2 as (Hn2 & Hl2 & Hwt2 & Hp2 & Hi2 & Hw2).
    destruct Hs. split_and!; try congruence. rewrite Hw3, Hw2, sm_written0, <-app_assoc. by rewrite take_drop.
  - rewrite length_drop. lia.
  - rewrite (wrote_watched _ _ _ Hw2), (watched_same _ _ Hs). done.
  - by eapply wrote_open, open_writer_same.
Qed.

Lemma succ_write {A} `{Serde A} (x : A) limit d c :
  (length (to_vec x) < limit)%nat → watched_stop c = false → open_writer c →
  succeeds (hs_write env x limit d) c (λ _ c', wrote (to_vec x ++ [LF]) c c').
Proof.
  intros Hl Hw Ho. unfold hs_write. cbn zeta. eapply succ_bind; [apply (succ_of_hs _ _ ())|].
  { rewrite length_app. cbn [length]. by rewrite (proj2 (Nat.leb_le _ _)) by lia. }
  cbn. intros _ c0 [_ ->]. eapply succ_bind; [apply succ_now|]. cbn. intros z c1 [_ [Hs Ht]].
  eapply succ_weaken; [|apply succ_write_all]; [|done|by rewrite (watched_same _ _ Hs)|by eapply open_writer_same].
  cbn. intros _ c2 (Hn & Hle & Hwt & Hp & Hi & Hwr). destruct Hs. split_and!; congruence.
Qed.

(** ** The gate after a reservation *)

Definition live_lease (id : Z) (a : Authority.Authority) : Prop :=
  passes a id ∧ Authority.cancelled id a = false.

Lemma reserved_live t tr a a' id :
  Authority.locking (Authority.reserve t tr) a = (a', Some id) → live_lease id a'.
Proof.
  unfold Authority.locking. destruct (Authority.poisoned a) eqn:Hp; [done|]. rewrite AuthoritySpec.reserve_eq.
  destruct (_ && _) eqn:Hc; [|done]. apply andb_true_iff in Hc as [Hc _].
  destruct (u64_checked_add _ _) as [n|] eqn:Hn; [|done]. intros Hr. simplify_eq.
  unfold live_lease, passes, Authority.cancelled. cbn. rewrite lookup_insert_eq. split; [|done].
  split; [done|]. eexists. split; [done|]. cbn. rewrite <-Hc. done.
Qed.

Lemma publish_live id a :
  live_lease id a → ∃ a', Authority.locking (Authority.publish id) a = (a', Some ()) ∧ live_lease id a'.
Proof.
  intros ((Hp & e & He & Hc) & Hn). unfold Authority.cancelled in Hn. rewrite Hp, He in Hn.
  unfold Authority.locking, Authority.publish, mbind, Authority.gated_bind. rewrite Hp.
  cbn [Authority.g_get Authority.g_some Authority.g_require Authority.g_put]. rewrite He, Hc.
  eexists. split; [reflexivity|]. unfold live_lease, passes, Authority.cancelled. cbn. rewrite lookup_insert_eq. cbn.
  split; [|done]. split; [done|]. eexists. split; [done|]. cbn. rewrite <-Hc. done.
Qed.

Lemma succ_finally {E A} drop (m : conn E A) c Q Q' :
  succeeds m c Q → (∀ a c', Q a c' → Q' a (drop c')) → succeeds (finally drop m) c Q'.
Proof. intros (a & c' & Hm & HQ) Hd. exists a, (drop c'). unfold finally. rewrite Hm. split; [done|]. by apply Hd. Qed.

(** ** The target *)

Lemma succ_polls id targets d : ∀ n c,
  watched_stop c = false → passes (authority c) id →
  succeeds (connect_polls env n id targets d) c (λ _ c', same c c').
Proof.
  assert (∀ c, passes (authority c) id → succeeds (connect_step env id targets) c (λ _ c', same c c')) as Hstep.
  { intros c Hp. eapply succ_bind; [apply succ_turn|]. cbn. intros t c1 [-> [Hs Ht]]. unfold act, succeeds.
    assert (passes (authority c1) id) as Hp1 by (unfold authority; by rewrite (sm_node _ _ Hs)).
    rewrite submit_through by done. eexists _, _. split; [reflexivity|]. destruct Hs. by split. }
  induction n as [|n IH]; intros c Hw Hp; cbn [connect_polls].
  - eapply succ_bind; [by apply Hstep|]. cbn. intros [] c1 Hs. eapply succ_weaken; [|apply succ_ret]. by intros ? ? [-> ->].
  - eapply succ_bind; [by apply Hstep|]. cbn. intros [] c1 Hs.
    eapply succ_bind; [apply succ_await; by rewrite (watched_same _ _ Hs)|]. cbn. intros t c2 [-> [Hs2 _]].
    eapply succ_weaken; [|apply IH].
    + cbn. intros _ c3 Hs3. by do 2 (etrans; [done|]).
    + rewrite (watched_same _ _ Hs2), (watched_same _ _ Hs). done.
    + unfold authority. by rewrite (sm_node _ _ Hs2), (sm_node _ _ Hs).
Qed.

(** The task's node with another gate. *)
Definition with_gate (a : Authority.Authority) (c : Task) : Task := set_node (node_authority a c.(t_node)) c.

Lemma succ_dial id policy sender remote targets c :
  watched_stop c = false → c.(t_watch) = Some id → live_lease id (authority c) →
  (∀ t, TargetPolicy.authorize_with_resolver (env.(resolves) t) policy sender remote = Ok targets) →
  succeeds (Server.dial_target env id policy sender remote) c (λ ts c', ts = targets ∧
    ∃ a, live_lease id a ∧ same (with_gate a c) c').
Proof.
  intros Hw Hwt Hl Ht. unfold Server.dial_target.
  eapply succ_bind; [apply succ_now|]. cbn. intros z c1 [_ [Hs1 _]].
  assert (watched_stop c1 = false) as Hw1 by by rewrite (watched_same _ _ Hs1).
  eapply (succ_bind _ _ _ (λ ts c', ts = targets ∧ same c c')).
  { unfold authorize_target. eapply succ_bind; [by apply succ_await|]. cbn. intros t c2 [-> [Hs2 _]].
    eapply succ_weaken; [|apply (succ_of_hs _ _ targets)]; [|by rewrite Ht]. cbn. intros ? ? [-> ->].
    split; [done|]. by etrans. }
  cbn. intros ts c2 [-> Hs2]. assert (watched_stop c2 = false) as Hw2 by by rewrite (watched_same _ _ Hs2).
  eapply (succ_bind _ _ _ (λ _ c', same c c')).
  { unfold connect_poll. eapply succ_bind; [apply succ_turn|]. cbn. intros t c3 [-> [Hs3 _]].
    pose proof (q_connects Hq (t_turn c2)) as Hco. destruct (connects env (t_turn c2)) as [n ok]. cbn in Hco. subst ok.
    assert (same c c3) as Hs03 by by etrans.
    eapply succ_bind; [apply succ_polls|].
    - by rewrite (watched_same _ _ Hs03).
    - unfold authority. rewrite (sm_node _ _ Hs03). apply Hl.
    - cbn. intros [] c4 Hs4. eapply succ_weaken; [|by apply (succ_of_hs _ _ ())]. cbn. intros ? ? [-> ->]. by etrans. }
  cbn. intros [] c3 Hs3. eapply succ_bind; [apply succ_syscall|]. cbn. intros [] c4 [Hs4 _].
  assert (same c c4) as Hs04 by by etrans.
  destruct (publish_live id (authority c) Hl) as (a & Ha & Hla).
  assert (authority c4 = authority c) as Hac by (unfold authority; by rewrite (sm_node _ _ Hs04)).
  eapply succ_bind; [apply (succ_authority _ a ()); by rewrite Hac|]. cbn. intros [] c5 [_ Hs5].
  eapply succ_weaken; [|apply succ_ret]. cbn. intros ? ? [-> ->]. split; [done|]. exists a. split; [done|].
  destruct Hs04, Hs5. split; cbn in *; congruence.
Qed.

End quiet.

Section agree.
Context `{Crypto, !CryptoLaws, Base64, !Base64Laws, HandshakeJson, !HandshakeJsonLaws, X25519, !X25519Laws}.
Context `{Semaphore} `{Den D} (sha256 : list byte → array 32).
Notation Task := (Task (D := D)).
Variables (ssk rsk : array 32) (remote : str) (targets : list SocketAddr).
Hypothesis sender_strong : key_weak (sk_public ssk) = false.
Hypothesis receiver_strong : key_weak (sk_public rsk) = false.
Hypothesis remote_ok : Handshake.remote remote = Ok ().

Definition fp_of (sk : array 32) : str := fingerprint_of_bytes (array_bytes (sk_public sk)).

(** The receiver's node has room for the sender, its authority and its
    permission to the target. *)
Record admitted (env : Env (D := D)) (c : Task) : Prop := mkAdmitted {
  ad_pelt : c.(t_node).(n_world).(live).(l_pelt) = Some (generate_identity rsk);
  ad_pack : Server.in_pack (fp_of ssk) c.(t_node).(n_world).(live) = true;
  ad_permit : ∃ a1 p1 a2 w, authenticated c.(t_node).(n_admission) c.(t_permit) (fp_of ssk) = Ok (a1, p1) ∧
    permit_target_work a1 p1 (fp_of ssk) = (a2, Ok w);
  ad_gate : ∃ a1 ticket a2 id, Authority.ticket_text (fp_of ssk) (authority c) = (a1, Some ticket) ∧
    Authority.locking (Authority.reserve ticket Authority.Tcp) a1 = (a2, Some id);
  ad_target : ∀ t, TargetPolicy.authorize_with_resolver (env.(resolves) t)
    c.(t_node).(n_world).(live).(l_policy) (fp_of ssk) remote = Ok targets;
  ad_lease : c.(t_lease) = None;
  ad_watch : c.(t_watch) = None
}.

Lemma derive_own a b :
  derive_shared_key a (b64_encode (array_bytes (x_public b))) = Ok (blake3 (array_bytes (x_shared a (x_public b)))).
Proof.
  unfold derive_shared_key. rewrite b64_decode_encode. cbn. rewrite to_array_bytes. cbn.
  rewrite bool_decide_eq_false_2 by apply x_nonzero. done.
Qed.

Lemma ack_new_fields o r id k ack :
  tcp_ack_new o r id k = Ok ack →
  ta_receiver_fingerprint ack = id.(fingerprint) ∧ ta_server_x25519 ack = b64_encode (array_bytes k).
Proof. unfold tcp_ack_new. intros Ha. cbv zeta in Ha. h_inv. done. Qed.

Lemma ack_signature o r k ack :
  tcp_ack_new o r (generate_identity rsk) k = Ok ack → length (ta_signature ack) = 88%nat.
Proof.
  unfold tcp_ack_new. intros Ha. cbv zeta in Ha. h_inv. cbn [ta_signature].
  match goal with Hsg : sign _ _ = Ok _ |- _ => rewrite sign_own in Hsg; injection Hsg as <- end.
  by rewrite b64_length, length_array.
Qed.

(** An OPEN of the sender for the receiver. *)
Record open_of (secret : array 32) (random : array 32) (o : TcpOpen) (r : list byte) : Prop := mkOpenOf {
  oo_transcript : tcp_open_transcript o = Ok r;
  oo_length : (length r ≤ 1000)%nat;
  oo_challenge : to_challenge o = hex (array_bytes random);
  oo_receiver : to_receiver_fingerprint o = fp_of rsk;
  oo_sender : to_sender_fingerprint o = fp_of ssk;
  oo_remote : to_remote o = remote;
  oo_client : to_client_x25519 o = b64_encode (array_bytes (x_public secret));
  oo_cmd : to_cmd o = lit "fang.pipe";
  oo_verify : verify (to_sender_pubkey o) r (to_signature o) = Ok ();
  oo_signature : length (to_signature o) = 88%nat
}.

Section server.
Variable env : Env (D := D).
Hypothesis Hq : quiet env.

Lemma succ_tcp_session o r secret random started c :
  open_of secret random o r → c.(t_lease) = None → c.(t_watch) = None →
  (∃ a1 ticket a2 id, Authority.ticket_text (fp_of ssk) (authority c) = (a1, Some ticket) ∧
    Authority.locking (Authority.reserve ticket Authority.Tcp) a1 = (a2, Some id)) →
  (∀ t, TargetPolicy.authorize_with_resolver (env.(resolves) t)
    c.(t_node).(n_world).(live).(l_policy) (fp_of ssk) remote = Ok targets) →
  succeeds (Server.tcp_session env o r (generate_identity rsk) started) c (λ x c', ∃ server ack,
    tcp_ack_new o r (generate_identity rsk) (x_public server) = Ok ack ∧
    x.1.1 = targets ∧ x.1.2 = blake3 (array_bytes (x_shared server (x_public secret))) ∧
    written c'.(t_trace) = written c.(t_trace) ++ to_vec ack ++ [LF]).
Proof.
  intros Ho Hl Hw (a1 & ticket & a2 & id & Htk & Hre) Ht. unfold Server.tcp_session.
  eapply succ_bind; [apply (succ_authority env Hq _ a1 ticket); by rewrite (oo_sender _ _ _ _ Ho)|]. cbn. intros ? c1 [-> Hs1].
  eapply succ_bind; [apply (succ_authority env Hq _ a2 id)|].
  { assert (authority c1 = a1) as -> by (unfold authority; by rewrite (sm_node _ _ Hs1)). done. }
  cbn. intros ? c2 [-> Hs2].
  assert (t_node c2 = node_authority a2 (t_node c)) as Hn2 by (rewrite (sm_node _ _ Hs2); cbn; by rewrite (sm_node _ _ Hs1)).
  assert (live_lease id (authority c2)) as Hlive.
  { unfold authority. rewrite Hn2. cbn. by eapply reserved_live. }
  eapply (succ_bind _ _ _ (λ _ c', c' = set_lease (Some id) c2)).
  { exists (), (set_lease (Some id) c2). split; [|done]. unfold authorize_stream, mbind, conn_bind, get, of_hs.
    assert (t_lease c2 = None) as -> by (rewrite (sm_lease _ _ Hs2); cbn; by rewrite (sm_lease _ _ Hs1)). done. }
  intros _ c3 ->. unfold watching.
  eapply (succ_bind _ _ _ (λ _ c', c' = set_watch (Some id) (set_lease (Some id) c2))); [by eexists _, _|].
  intros _ c4 ->. eapply (succ_finally _ _ _ (λ x c', ∃ server ack,
    tcp_ack_new o r (generate_identity rsk) (x_public server) = Ok ack ∧
    x.1.1 = targets ∧ x.1.2 = blake3 (array_bytes (x_shared server (x_public secret))) ∧
    written c'.(t_trace) = written c.(t_trace) ++ to_vec ack ++ [LF])); [|done].
  set (c4 := set_watch (Some id) (set_lease (Some id) c2)).
  assert (watched_stop c4 = false) as Hw4 by apply Hlive.
  eapply succ_bind; [by apply succ_draw|]. cbn. intros server c5 [_ [Hs5 _]].
  eapply succ_bind; [apply succ_of_hs; rewrite (oo_client _ _ _ _ Ho); apply derive_own|]. cbn. intros key c6 [-> ->].
  eapply succ_bind; [apply (succ_read env Hq _ (l_policy (live (n_world (t_node c5))))); [by rewrite (watched_same _ _ Hs5)|done]|].
  cbn. intros policy c7 [-> [Hs7 _]].
  assert (same c4 c7) as Hs47 by by etrans.
  eapply succ_bind; [apply (succ_dial env Hq id _ _ _ targets)|].
  - by rewrite (watched_same _ _ Hs47).
  - by rewrite (sm_watch _ _ Hs47).
  - unfold authority. rewrite (sm_node _ _ Hs47). exact Hlive.
  - intros t. rewrite (sm_node _ _ Hs5), (oo_sender _ _ _ _ Ho), (oo_remote _ _ _ _ Ho). cbn. rewrite Hn2. apply Ht.
  - cbn. intros ts c8 [-> (a & Hla & Hs8)].
    destruct (tcp_ack_new_own o r rsk (x_public server)) as (ack & t & Hack & Htr & Hv); [done|apply Ho|apply Ho|].
    eapply succ_bind; [by apply succ_of_hs|]. cbn. intros ? c9 [-> ->].
    assert (authority c8 = a) as Hac8 by (unfold authority; by rewrite (sm_node _ _ Hs8)).
    eapply succ_bind; [apply (succ_write env Hq)|].
    + apply Nat2Z.inj_lt. unfold MESSAGE_LIMIT. rewrite Z2Nat.id by lia.
      eapply hj_ack_fits; [apply Ho|done|by eapply ack_signature].
    + unfold watched_stop. rewrite (sm_watch _ _ Hs8), Hac8. cbn. rewrite (sm_watch _ _ Hs47). apply Hla.
    + unfold open_writer. rewrite (sm_lease _ _ Hs8), Hac8. cbn. rewrite (sm_lease _ _ Hs47). apply Hla.
    + cbn. intros _ c10 (_ & _ & _ & _ & _ & Hwr). eapply succ_weaken; [|apply succ_ret]. cbn. intros ? ? [-> ->].
      exists server, ack. split_and!; [done..|]. rewrite Hwr, (sm_written _ _ Hs8). cbn.
      rewrite (sm_written _ _ Hs47). cbn. rewrite (sm_written _ _ Hs2). cbn. by rewrite (sm_written _ _ Hs1).
Qed.

Definition challenge_of (random : array 32) : TcpChallenge :=
  mkTcpChallenge (lit "fang.tcp.challenge") TCP (fp_of rsk) (hex (array_bytes random)).
Lemma challenge_valid random : challenge_validate (challenge_of random) = Ok ().
Proof.
  unfold challenge_validate, challenge_of. cbn [tc_cmd tc_protocol tc_receiver_fingerprint tc_challenge].
  destruct (h_fingerprint_own (array_bytes (sk_public rsk))) as [a Ha]. unfold fp_of. rewrite Ha.
  rewrite h_unhex_own. done.
Qed.
Lemma context_own random now :
  context_new (generate_identity rsk) random now =
    Ok (mkContext (challenge_of random) (generate_identity rsk) (now + READ_WINDOW) false).
Proof.
  unfold context_new. cbn [generate_identity fingerprint public_key_b64]. cbv zeta. fold (fp_of rsk).
  fold (challenge_of random). rewrite challenge_valid. cbn [mbind result_bind].
  unfold fp_of. by rewrite public_matches_own.
Qed.

Lemma succ_tcp_open o r secret random d started c :
  open_of secret random o r → admitted env c → (∀ t, env.(clock) t < d) →
  succeeds (Server.tcp_open env o (mkContext (challenge_of random) (generate_identity rsk) d false) started) c
    (λ x c', ∃ server ack,
    tcp_ack_new o r (generate_identity rsk) (x_public server) = Ok ack ∧
    x.1.1 = targets ∧ x.1.2 = blake3 (array_bytes (x_shared server (x_public secret))) ∧
    written c'.(t_trace) = written c.(t_trace) ++ to_vec ack ++ [LF]).
Proof.
  intros Ho [Hpelt Hpack (a1 & p1 & a2 & w & Hau & Htw) Hgate Htgt Hl Hw] Hd. unfold Server.tcp_open.
  assert (watched_stop c = false) as Hws by (unfold watched_stop; by rewrite Hw).
  assert (∀ t, check_binding (mkContext (challenge_of random) (generate_identity rsk) d false) (clock env t)
    (to_challenge o) (to_receiver_fingerprint o) = Ok ()) as Hchk.
  { intros t. unfold check_binding. cbn [consumed deadline message receiver challenge_of tc_challenge].
    rewrite (oo_challenge _ _ _ _ Ho), (oo_receiver _ _ _ _ Ho).
    rewrite (proj2 (Z.ltb_lt _ _) (Hd t)), !bool_decide_eq_true_2 by done. done. }
  eapply succ_bind; [apply succ_of_hs; apply Ho|]. cbn. intros ? c0 [-> ->].
  eapply succ_bind; [apply (succ_read env Hq _ ()); [done|]; by rewrite (oo_sender _ _ _ _ Ho), Hpack|]. cbn. intros [] c1 [_ [Hs1 _]].
  eapply succ_bind; [by apply succ_now|]. cbn. intros z c2 [[t ->] [Hs2 _]].
  eapply succ_bind; [apply (succ_of_hs _ _ ()), Hchk|]. cbn. intros [] c3 [_ ->].
  eapply succ_bind; [apply (succ_of_hs _ _ ()), Ho|]. cbn. intros [] c4 [_ ->].
  assert (same c c2) as Hs by by etrans.
  eapply (succ_bind _ _ _ (λ _ c', same (set_permit p1 (set_node (node_admission a1 c.(t_node)) c)) c')).
  { unfold permit_authenticated, get. unfold mbind at 1, conn_bind at 1.
    eapply succ_bind; [apply (succ_admission env Hq _ a1 p1)|].
    - rewrite (sm_permit _ _ Hs), (oo_sender _ _ _ _ Ho), (sm_node _ _ Hs), Hau. done.
    - cbn. intros p c5 [-> Hs5]. eexists _, _. split; [reflexivity|]. destruct Hs, Hs5. split; cbn in *; congruence. }
  cbn. intros [] c5 Hs5. eapply succ_bind; [by apply succ_now|]. cbn. intros z c6 [[t' ->] [Hs6 _]].
  assert (same (set_permit p1 (set_node (node_admission a1 (t_node c)) c)) c6) as Hs06 by by etrans.
  eapply succ_bind.
  { apply succ_of_hs. unfold context_consume, consume_binding. rewrite Hchk. reflexivity. }
  cbn. intros ? c7 [-> ->].
  eapply (succ_bind _ _ _ (λ y c', y = w ∧
    same (set_permit p1 (set_node (node_admission a2 c.(t_node)) c)) c')).
  { unfold permit_target, get. unfold mbind at 1, conn_bind at 1.
    eapply succ_weaken; [|apply (succ_admission env Hq _ a2 w)].
    - cbn. intros y c8 [-> Hs8]. split; [done|]. destruct Hs06, Hs8. split; cbn in *; try congruence.
      rewrite sm_node1, sm_node0. done.
    - rewrite (sm_permit _ _ Hs06), (oo_sender _ _ _ _ Ho), (sm_node _ _ Hs06). done. }
  cbn. intros ? c8 [-> Hs8].
  eapply succ_finally; [apply (succ_tcp_session o r secret random); [done|..]|].
  - rewrite (sm_lease _ _ Hs8). done.
  - rewrite (sm_watch _ _ Hs8). done.
  - unfold authority. rewrite (sm_node _ _ Hs8). done.
  - rewrite (sm_node _ _ Hs8). done.
  - cbn. intros x c9 (server & ack & ? & ? & ? & Hwr). exists server, ack. split_and!; [done..|].
    etrans; [exact Hwr|]. by rewrite (sm_written _ _ Hs8).
Qed.

(** The receiver's side: it writes its challenge, reads the OPEN and writes
    the ACK. *)
Lemma succ_serve_tcp o r secret random started c :
  open_of secret random o r → admitted env c → env.(draws) (c.(t_turn) + 2)%nat 32%nat = Some random →
  (∀ t, started ≤ env.(clock) t < started + READ_WINDOW) →
  c.(t_in) = to_vec o ++ [LF] →
  succeeds (Server.serve_tcp sha256 env started) c (λ x c', ∃ server ack y,
    tcp_ack_new o r (generate_identity rsk) (x_public server) = Ok ack ∧
    x = Some y ∧ y.1.1 = targets ∧ y.1.2 = blake3 (array_bytes (x_shared server (x_public secret))) ∧
    written c'.(t_trace) = written c.(t_trace) ++ (to_vec (challenge_of random) ++ [LF]) ++ to_vec ack ++ [LF]).
Proof.
  intros Ho Had Hr Hclk Hin. unfold Server.serve_tcp, succeeds.
  assert (watched_stop c = false) as Hws by (unfold watched_stop; by rewrite (ad_watch _ _ Had)).
  destruct (succ_await env Hq (Some (started + READ_WINDOW)) c Hws) as (t0 & c1 & -> & _ & [Hs1 Ht1]).
  unfold Server.handle_fang_pipe.
  assert (succeeds (Server.tcp_server_handshake sha256 env started) c1 (λ x c', ∃ server ack y,
    tcp_ack_new o r (generate_identity rsk) (x_public server) = Ok ack ∧
    x = Some y ∧ y.1.1 = targets ∧ y.1.2 = blake3 (array_bytes (x_shared server (x_public secret))) ∧
    written c'.(t_trace) = written c.(t_trace) ++ (to_vec (challenge_of random) ++ [LF]) ++ to_vec ack ++ [LF])) as Hrun.
  2: { destruct Hrun as (x & c' & Hrun & server & ack & y & Ha & -> & Hrest). unfold finally. rewrite Hrun.
       eexists _, _. split; [reflexivity|]. by exists server, ack, y. }
  unfold Server.tcp_server_handshake.
  eapply succ_bind; [apply (succ_read env Hq _ (generate_identity rsk)); [by rewrite (watched_same _ _ Hs1)|]|].
  { rewrite (sm_node _ _ Hs1), (ad_pelt _ _ Had). done. }
  cbn. intros ? c2 [-> [Hs2 Ht2]].
  eapply succ_bind; [by apply succ_draw|]. cbn. intros x c3 [Hx [Hs3 _]].
  replace (t_turn c2) with (t_turn c + 2)%nat in Hx by lia. assert (x = random) as -> by congruence.
  eapply succ_bind; [by apply succ_now|]. cbn. intros z c4 [[t ->] [Hs4 _]].
  eapply succ_bind; [apply succ_of_hs, context_own|]. cbn. intros ? c5 [-> ->]. cbv zeta.
  cbn [message Handshake.receiver deadline consumed].
  assert (same c c4) as Hs by by do 3 (etrans; [done|]).
  assert (open_writer c4) as How by (unfold open_writer; by rewrite (sm_lease _ _ Hs), (ad_lease _ _ Had)).
  eapply succ_bind; [apply (succ_write env Hq); [|by rewrite (watched_same _ _ Hs)|done]|].
  { unfold CHALLENGE_LIMIT. apply hj_challenge_fits, challenge_valid. }
  cbn. intros _ c6 (Hn6 & Hl6 & Hw6 & Hp6 & Hi6 & Hwr6).
  assert (t_in c6 = to_vec o ++ LF :: []) as Hin6 by by rewrite Hi6, (sm_in _ _ Hs).
  assert (watched_stop c6 = false) as Hws6 by (unfold watched_stop; by rewrite Hw6, (sm_watch _ _ Hs), (ad_watch _ _ Had)).
  eapply succ_bind; [apply (succ_line env Hq _ _ (to_vec o) []); [done|exact Hin6|apply hj_open_line|]|].
  { apply Nat2Z.inj_lt. unfold MESSAGE_LIMIT. rewrite Z2Nat.id by lia. eapply hj_open_fits; apply Ho. }
  cbn. intros ? c7 (-> & Hs7 & _).
  eapply succ_bind; [apply succ_of_hs; unfold command; by rewrite hj_open_cmd|]. cbn. intros ? c8 [-> ->].
  rewrite (oo_cmd _ _ _ _ Ho), bool_decide_eq_false_2 by (vm_compute; done).
  eapply succ_bind; [apply succ_of_hs; unfold parse; by rewrite hj_open_back|]. cbn. intros ? c9 [-> ->].
  eapply succ_bind; [apply (succ_tcp_open o r secret random); [done| |]|].
  - assert (t_node c7 = t_node c) as Hn by (rewrite (sm_node _ _ Hs7); cbn; by rewrite Hn6, (sm_node _ _ Hs)).
    assert (t_permit c7 = t_permit c) as Hp by (rewrite (sm_permit _ _ Hs7); cbn; by rewrite Hp6, (sm_permit _ _ Hs)).
    destruct Had. split; unfold authority; rewrite ?Hn, ?Hp; try done.
    + rewrite (sm_lease _ _ Hs7). cbn. by rewrite Hl6, (sm_lease _ _ Hs).
    + rewrite (sm_watch _ _ Hs7). cbn. by rewrite Hw6, (sm_watch _ _ Hs).
  - intros t'. pose proof (Hclk t). pose proof (Hclk t'). lia.
  - cbn. intros y c10 (server & ack & Hack & Hy1 & Hy2 & Hwr). eapply succ_weaken; [|apply succ_ret].
    cbn. intros ? ? [-> ->]. exists server, ack, y. split_and!; [done..|].
    rewrite Hwr, (sm_written _ _ Hs7). cbn. by rewrite Hwr6, (sm_written _ _ Hs), <-app_assoc.
Qed.

End server.
Lemma open_own secret random nonce :
  ∃ o r, tcp_open_new (generate_identity ssk) (challenge_of random) remote (x_public secret) nonce = Ok o ∧
    open_of secret random o r.
Proof.
  destruct (tcp_open_new_own ssk (array_bytes (sk_public rsk)) (challenge_of random) random nonce (x_public secret) remote)
    as (o & r & Ho & Ht & Hl & Hch & Hre & Hv); [done|apply challenge_valid|done..|].
  exists o, r. split; [done|]. unfold tcp_open_new in Ho. cbv zeta in Ho. h_inv. cbn in *.
  match goal with Hsg : sign _ _ = Ok _ |- _ => rewrite sign_own in Hsg; injection Hsg as <- end.
  split; try done. cbn. by rewrite b64_length, length_array.
Qed.

Section client.
Context `{Tls, !TlsLaws}.
Variable env : Env (D := D).
Hypothesis Hq : quiet env.

Definition expected : OpenFang.ExpectedPeerIdentity :=
  OpenFang.mkExpected (fp_of rsk) (Some (b64_encode (array_bytes (sk_public rsk)))).

Lemma connector_own : Client.selected_peer_connector expected = Ok (spki_der (sk_public rsk)).
Proof.
  unfold Client.selected_peer_connector, expected. cbn [OpenFang.ex_public_key_b64].
  unfold TlsPin.client_config_for_selected_peer_key, TlsPin.canonical_spki_from_public_key_b64. cbn.
  rewrite b64_decode_encode. cbn. rewrite to_array_bytes. cbn. rewrite bool_decide_eq_true_2 by done.
  unfold TlsPin.canonical_spki. by rewrite sk_public_valid.
Qed.

Lemma succ_failing {E F A} (f : E → F) (m : conn (D := D) E A) c Q :
  succeeds m c Q → succeeds (failing f m) c Q.
Proof. intros (a & c' & Hm & HQ). exists a, c'. unfold failing. by rewrite Hm. Qed.

(** So many turns later. *)
Definition later (k : nat) (c c' : Task) : Prop := same c c' ∧ c'.(t_turn) = (c.(t_turn) + k)%nat.
Lemma later_tick k c c1 c2 : later k c c1 → ticked c1 c2 → later (S k) c c2.
Proof. intros [K1 T1] [K2 T2]. split; [by etrans|lia]. Qed.

Lemma succ_attempt_start {A} certificate input c (k : conn Client.Setup A) Q :
  c.(t_watch) = None → (∀ t, env.(tls) t = TlsUp certificate input) →
  cert_spki certificate = Some (spki_der (sk_public rsk)) →
  (∀ c', same (set_stream input 0 c) c' → c'.(t_turn) = (c.(t_turn) + 6)%nat → c'.(t_count) = O → succeeds k c' Q) →
  succeeds (_ ← failing Client.retry (Client.open_tcp env); _ ← failing Client.retry (syscall env);
    _ ← Client.tls_up env (spki_der (sk_public rsk)); k) c Q.
Proof.
  intros Hw Htls Hcert Hk.
  assert (∀ c', same c c' → watched_stop c' = false) as Hws.
  { intros c' Hs. unfold watched_stop. by rewrite (sm_watch _ _ Hs), Hw. }
  eapply (succ_bind _ _ _ (λ _ c', later 3 c c')).
  { apply succ_failing. unfold Client.open_tcp. eapply succ_bind; [by apply succ_now|]. cbn. intros z c1 [_ K1].
    assert (later 1 c c1) as L1 by (split; [apply K1|destruct K1; lia]).
    eapply succ_bind; [apply (succ_await env Hq), Hws, L1|]. cbn. intros t c2 [_ K2].
    eapply succ_weaken; [|by apply succ_syscall]. cbn. intros _ c3 K3. by do 2 (eapply later_tick; [|done]). }
  cbn. intros [] c3 L3. eapply (succ_bind _ _ _ (λ _ c', later 4 c c')).
  { apply succ_failing. eapply succ_weaken; [|by apply succ_syscall]. cbn. intros _ c4 K4. by eapply later_tick. }
  cbn. intros [] c4 L4. eapply (succ_bind _ _ _ (λ _ c',
    same (set_stream input 0 c) c' ∧ c'.(t_turn) = (c.(t_turn) + 6)%nat ∧ c'.(t_count) = O)).
  2: { intros _ c7 (Hs & Ht & Hn). by apply Hk. }
  unfold Client.tls_up. eapply (succ_bind _ _ _ (λ _ c', later 6 c c')).
  { apply succ_failing. eapply succ_bind; [by apply succ_now|]. cbn. intros z c5 [_ K5].
    assert (later 5 c c5) as L5 by by eapply later_tick.
    eapply succ_weaken; [|apply (succ_await env Hq), Hws, L5]. cbn. intros t c6 [_ K6]. by eapply later_tick. }
  cbn. intros t c6 [Hs6 Ht6]. rewrite Htls. unfold TlsPin.verify_server_cert, TlsPin.require_leaf_spki, TlsPin.leaf_spki.
  rewrite Hcert. cbn. rewrite bool_decide_eq_true_2 by done. cbn. eexists _, _. split; [reflexivity|].
  split; [|done]. destruct Hs6. by split.
Qed.

(** The initiator's side, when the receiver sends its challenge and an ACK
    for the OPEN that this challenge makes it send. *)
Lemma succ_connect certificate o r ack random secret nonce server c :
  c.(t_lease) = None → c.(t_watch) = None →
  cert_spki certificate = Some (spki_der (sk_public rsk)) →
  (∀ t, env.(tls) t = TlsUp certificate
     ((to_vec (challenge_of random) ++ [LF]) ++ to_vec ack ++ [LF])) →
  env.(draws) (c.(t_turn) + (8 + S (length (to_vec (challenge_of random)))))%nat 32%nat = Some secret →
  env.(draws) (c.(t_turn) + (9 + S (length (to_vec (challenge_of random)))))%nat 16%nat = Some nonce →
  tcp_open_new (generate_identity ssk) (challenge_of random) remote (x_public secret) nonce = Ok o →
  open_of secret random o r →
  tcp_ack_new o r (generate_identity rsk) (x_public server) = Ok ack →
  succeeds (Client.connect_tcp_session env remote (generate_identity ssk) expected) c (λ key c',
    key = blake3 (array_bytes (x_shared secret (x_public server))) ∧
    written c'.(t_trace) = written c.(t_trace) ++ to_vec o ++ [LF]).
Proof.
  intros Hl Hw Hcert Htls Hsec Hnon Ho Hoo Hack. set (m := challenge_of random) in *.
  set (key := blake3 (array_bytes (x_shared secret (x_public server)))).
  assert (succeeds (Client.tcp_session_attempt env remote (generate_identity ssk) expected) c (λ k c',
    k = key ∧ written c'.(t_trace) = written c.(t_trace) ++ to_vec o ++ [LF])) as (k & c' & Hrun & Hk).
  2: { exists k, c'. unfold Client.connect_tcp_session. by rewrite Hrun. }
  unfold Client.tcp_session_attempt.
  eapply succ_bind; [apply succ_failing, succ_of_hs, connector_own|]. cbn. intros ? c0 [-> ->].
  eapply succ_attempt_start; [done|exact Htls|done|]. intros c1 Hs1 Ht1 _.
  assert (∀ c' : Task, t_watch c' = None → watched_stop c' = false) as Hws by (intros c' Hc; unfold watched_stop; by rewrite Hc).
  assert (succeeds (Client.client_handshake_counted env remote (generate_identity ssk) expected) c1 (λ k c',
    k = key ∧ written c'.(t_trace) = written c.(t_trace) ++ to_vec o ++ [LF])) as (k & c' & Hrun & Hk).
  2: { exists k, c'. unfold Client.counted. by rewrite Hrun. }
  unfold Client.client_handshake_counted.
  eapply succ_bind; [by apply succ_now|]. cbn. intros z c2 [_ [Hs2 Ht2]].
  eapply succ_bind; [by apply succ_now|]. cbn. intros z' c3 [_ [Hs3 Ht3]].
  assert (same (set_stream ((to_vec m ++ [LF]) ++ to_vec ack ++ [LF]) 0 c) c3) as Hs by by do 2 (etrans; [done|]).
  unfold hs_read at 1.
  eapply (succ_bind _ _ _ (λ x c', x = m ∧ same (set_stream (to_vec ack ++ [LF]) 0 c3) c' ∧
    c'.(t_turn) = (c3.(t_turn) + S (length (to_vec m)))%nat)).
  { eapply succ_bind; [apply (succ_line env Hq true _ (to_vec m) (to_vec ack ++ [LF]))|].
    - apply Hws. rewrite (sm_watch _ _ Hs). done.
    - rewrite (sm_in _ _ Hs). cbn. by rewrite <-app_assoc.
    - apply hj_challenge_line.
    - unfold CHALLENGE_LIMIT. apply hj_challenge_fits, challenge_valid.
    - cbn. intros ? c4 (-> & Hs4 & Ht4). eapply succ_weaken; [|apply succ_of_hs; unfold parse; by rewrite hj_challenge_back].
      cbn. intros ? ? [-> ->]. done. }
  intros ? c4 (-> & Hs4 & Ht4).
  eapply (succ_bind _ _ _ (λ x c', x = (secret, o) ∧ same c4 c')).
  { unfold Client.client_open. eapply succ_bind; [apply (succ_of_hs _ _ ()), challenge_valid|]. cbn. intros [] ? [_ ->].
    eapply succ_bind; [apply (succ_of_hs _ _ ()); by rewrite bool_decide_eq_true_2|]. cbn. intros [] ? [_ ->].
    eapply succ_bind; [by apply succ_draw|]. cbn. intros x c5 [Hx [Hs5 Ht5]].
    replace (t_turn c4) with (t_turn c + (8 + S (length (to_vec m))))%nat in Hx by lia. assert (x = secret) as -> by congruence.
    eapply succ_bind; [by apply succ_draw|]. cbn. intros x c6 [Hx6 [Hs6 _]].
    replace (t_turn c5) with (t_turn c + (9 + S (length (to_vec m))))%nat in Hx6 by lia. assert (x = nonce) as -> by congruence.
    eapply succ_bind; [by apply succ_of_hs|]. cbn. intros ? ? [-> ->].
    eapply succ_weaken; [|apply succ_ret]. cbn. intros ? ? [-> ->]. split; [done|by etrans]. }
  cbn. intros [secret' o'] c5 [Hx Hs5]. injection Hx as -> ->.
  eapply succ_bind; [apply succ_of_hs, Hoo|]. cbn. intros ? ? [-> ->].
  assert (same (set_stream (to_vec ack ++ [LF]) 0 c) c5) as Hs05.
  { etrans; [|exact Hs5]. etrans; [|exact Hs4]. destruct Hs. by split. }
  eapply succ_bind; [apply (succ_write env Hq)|].
  { apply Nat2Z.inj_lt. unfold MESSAGE_LIMIT. rewrite Z2Nat.id by lia. eapply hj_open_fits; apply Hoo. }
  { apply Hws. rewrite (sm_watch _ _ Hs05). done. }
  { unfold open_writer. rewrite (sm_lease _ _ Hs05). cbn. by rewrite Hl. }
  cbn. intros _ c6 (Hn6 & Hl6 & Hw6 & Hp6 & Hi6 & Hwr6).
  destruct (ack_new_fields _ _ _ _ _ Hack) as [Hfp Hsx].
  destruct (tcp_ack_new_own o r rsk (x_public server)) as (ack' & t & Hack' & Htr & Hv); [done|apply Hoo|apply Hoo|].
  assert (ack' = ack) as -> by congruence.
  unfold hs_read. eapply (succ_bind _ _ _ (λ x c', x = ack ∧ written c'.(t_trace) = written c6.(t_trace))).
  { eapply succ_bind; [apply (succ_line env Hq false _ (to_vec ack) [])|].
    - apply Hws. by rewrite Hw6, (sm_watch _ _ Hs05).
    - rewrite Hi6, (sm_in _ _ Hs05). done.
    - apply hj_ack_line.
    - apply Nat2Z.inj_lt. unfold MESSAGE_LIMIT. rewrite Z2Nat.id by lia. eapply hj_ack_fits; [apply Hoo|done|by eapply ack_signature].
    - cbn. intros ? c7 (-> & Hs7 & _). eapply succ_weaken; [|apply succ_of_hs; unfold parse; by rewrite hj_ack_back].
      cbn. intros ? ? [-> ->]. split; [done|]. by rewrite (sm_written _ _ Hs7). }
  cbn. intros ? c7 [-> Hw7]. eapply succ_weaken; [|apply (succ_of_hs _ _ key)].
  - cbn. intros ? ? [-> ->]. split; [done|]. by rewrite Hw7, Hwr6, (sm_written _ _ Hs05).
  - unfold Client.accept_ack. rewrite Hfp. cbn [OpenFang.ex_fingerprint expected generate_identity fingerprint].
    rewrite bool_decide_eq_true_2 by done. cbn [h_require mbind result_bind]. rewrite Htr. cbn [mbind result_bind].
    rewrite Hv. cbn [mbind result_bind]. rewrite Hsx. apply derive_own.
Qed.

End client.

(** C17: two honest ends agree on the key. The receiver is undisturbed, has
    the sender in its Pack, room for it and a permission for the target, and
    its clock stays in the setup window; the initiator, undisturbed, selected
    the receiver, whose certificate carries the Pack's key. Then there are
    bytes [to_client] and [to_server] such that the receiver, given
    [to_server], serves the session and writes [to_client], and the
    initiator, given [to_client], opens the session and writes [to_server];
    the receiver's target is the authorized one, and the two session keys
    are equal. *)
Theorem handshake_agrees `{Tls, !TlsLaws} (es : Env (D := D)) (ec : list byte → Env (D := D)) certificate
    started (cs cc : Task) :
  (∀ input, quiet (ec input)) → quiet es → admitted es cs → (∀ t, started ≤ es.(clock) t < started + READ_WINDOW) →
  cc.(t_lease) = None → cc.(t_watch) = None →
  written cs.(t_trace) = [] → written cc.(t_trace) = [] →
  cert_spki certificate = Some (spki_der (sk_public rsk)) →
  (∀ input t, (ec input).(tls) t = TlsUp certificate input) →
  (∀ input input' t n, (ec input).(draws) t n = (ec input').(draws) t n) →
  ∃ to_client to_server key id cs' cc',
    Server.serve_tcp sha256 es started (set_stream to_server 0 cs) = (Ok (Some (targets, key, id)), cs') ∧
    written cs'.(t_trace) = to_client ∧
    Client.connect_tcp_session (ec to_client) remote (generate_identity ssk) expected cc = (Ok key, cc') ∧
    written cc'.(t_trace) = to_server.
Proof.
  intros Hqc Hqs Had Hclk Hl Hw Hws Hwc Hcert Htls Hdr.
  destruct (q_draws _ Hqs (t_turn cs + 2) 32) as [random Hrandom].
  set (n := S (length (to_vec (challenge_of random)))).
  destruct (q_draws _ (Hqc []) (t_turn cc + (8 + n)) 32) as [secret Hsecret].
  destruct (q_draws _ (Hqc []) (t_turn cc + (9 + n)) 16) as [nonce Hnonce].
  destruct (open_own secret random nonce) as (o & r & Ho & Hoo).
  destruct (succ_serve_tcp es Hqs o r secret random started (set_stream (to_vec o ++ [LF]) 0 cs))
    as (x & cs' & Hrun & server & ack & [[ts key] id] & Hack & -> & Hts & Hkey & Hwr); [done| |done|done|done|].
  { by destruct Had. }
  cbn in Hts, Hkey. subst ts. cbn in Hwr. rewrite Hws in Hwr. cbn in Hwr.
  destruct (succ_connect (ec (written (t_trace cs'))) (Hqc _) certificate o r ack random secret nonce server cc)
    as (key' & cc' & Hrun' & Hkey' & Hwr'); try done.
  { intros t. by rewrite Htls, Hwr. }
  { by rewrite (Hdr _ []). }
  { by rewrite (Hdr _ []). }
  rewrite Hwc in Hwr'. exists (written (t_trace cs')), (to_vec o ++ [LF]), key, id, cs', cc'.
  split_and!; [done|done| |done]. rewrite Hrun', Hkey', Hkey. by rewrite x_agree.
Qed.

End agree.
End Honest.
