(* ===== verification/SessionDemo.v ===== *)
(** * A JSON for the handshake, and two nodes

    A toy serde_json, x25519 and rustls that satisfy their laws, a receiver
    with one Pack member, and the witnesses of SessionSpec, ClientSpec and
    SessionHonest. *)

From stdpp Require Import gmap.
From S2P Require Export SessionHonest.
From S2P Require Export Persistence.

Local Open Scope Z_scope.

Module SessionJson.
Import Pelt Handshake HandshakeSpec Rpc ToySerde Toy Conn.

(** ** JSON: the fields in hexadecimal *)

Definition strip (l : list byte) : list byte := filter (λ b, b ≠ LF) l.
Definition hex_serde {A} (n : nat) (to : A → list str) (back : list (option str) → option A) : Serde A := {|
  to_vec a := hex (fields_bytes (Some <$> to a));
  from_slice l := bs ← unhex_loop (strip l); fs ← take_fields n bs; back fs
|}.

Lemma hex_plain l : LF ∉ hex l.
Proof.
  assert (∀ b, LF ∉ hex02 false b) as Hb.
  { intros b. assert (bool_decide (LF ∉ hex02 false b) = true) as Hx; [|by apply bool_decide_eq_true in Hx].
    revert b. apply (all_bytes (λ b, bool_decide (LF ∉ hex02 false b))). vm_compute. reflexivity. }
  induction l as [|b l IH]; [apply not_elem_of_nil|]. change (hex (b :: l)) with (hex02 false b ++ hex l).
  rewrite not_elem_of_app. split; [apply Hb|done].
Qed.
Lemma strip_hex l : strip (hex l ++ [LF]) = hex l.
Proof.
  unfold strip. rewrite filter_app. cbn. rewrite decide_False, app_nil_r by congruence.
  pose proof (hex_plain l) as Hp. induction (hex l) as [|b r IH]; [done|]. apply not_elem_of_cons in Hp as [Hb Hr].
  rewrite filter_cons_True by congruence. by rewrite IH.
Qed.

Lemma hex_back {A} n (to : A → list str) back a :
  length (to a) = n → back (Some <$> to a) = Some a →
  from_slice (Serde := hex_serde n to back) (to_vec (Serde := hex_serde n to back) a ++ [LF]) = Some a.
Proof.
  intros Hn Hb. cbn. rewrite strip_hex, unhex_loop_hex. cbn.
  rewrite <-Hn, <-(length_fmap Some), take_fields_bytes. done.
Qed.
Lemma hex_length {A} n (to : A → list str) back a :
  length (to_vec (Serde := hex_serde n to back) a) = (4 * sum_list_with length (to a) + 4 * length (to a))%nat.
Proof.
  cbn. rewrite length_hex, ProtectedStateDemo.length_fields_bytes.
  induction (to a) as [|s l IH]; [done|]. cbn [fmap list_fmap sum_list_with length] in *. lia.
Qed.

Definition flag (b : bool) : str := if b then [x01] else [x00].
Definition of_flag (s : str) : bool := match s with [x01] => true | _ => false end.
Definition of_byte (s : str) : byte := match s with [b] => b | _ => x00 end.
Definition many (s : str) : list str := default [] (many_back s).

#[export] Instance session_json : HandshakeJson := {|
  hj_challenge := hex_serde 4 (λ c, [tc_cmd c; tc_protocol c; tc_receiver_fingerprint c; tc_challenge c])
    (λ l, match l with [Some a; Some b; Some c; Some d] => Some (mkTcpChallenge a b c d) | _ => None end);
  hj_tcp_open := hex_serde 10 (λ o, [to_cmd o; to_protocol o; to_sender_pubkey o; to_sender_fingerprint o;
      to_receiver_fingerprint o; to_challenge o; to_nonce o; to_client_x25519 o; to_remote o; to_signature o])
    (λ l, match l with
          | [Some a; Some b; Some c; Some d; Some e; Some f; Some g; Some h; Some i; Some j] =>
              Some (mkTcpOpen a b c d e f g h i j)
          | _ => None end);
  hj_tcp_ack := hex_serde 13 (λ a, [ta_cmd a; flag (ta_ok a); ta_protocol a; ta_session a; ta_receiver_pubkey a;
      ta_receiver_fingerprint a; ta_sender_fingerprint a; ta_challenge a; ta_nonce a; ta_client_x25519 a;
      ta_server_x25519 a; ta_remote a; ta_signature a])
    (λ l, match l with
          | [Some a; Some b; Some c; Some d; Some e; Some f; Some g; Some h; Some i; Some j; Some k; Some m; Some n] =>
              Some (mkTcpAck a (of_flag b) c d e f g h i j k m n)
          | _ => None end);
  hj_quic_open := hex_serde 7 (λ o, [qo_cmd o; qo_protocol o; qo_sender_fingerprint o; qo_receiver_fingerprint o;
      qo_nonce o; qo_remote o; qo_signature o])
    (λ l, match l with
          | [Some a; Some b; Some c; Some d; Some e; Some f; Some g] => Some (mkQuicOpen a b c d e f g)
          | _ => None end);
  hj_quic_ack := hex_serde 9 (λ a, [qa_cmd a; flag (qa_ok a); qa_protocol a; qa_receiver_pubkey a;
      qa_receiver_fingerprint a; qa_sender_fingerprint a; qa_nonce a; qa_remote a; qa_signature a])
    (λ l, match l with
          | [Some a; Some b; Some c; Some d; Some e; Some f; Some g; Some h; Some i] =>
              Some (mkQuicAck a (of_flag b) c d e f g h i)
          | _ => None end);
  hj_tcp_rpc := hex_serde 11 (λ r, [tr_cmd r; tr_protocol r; tr_sender_pubkey r; tr_sender_fingerprint r;
      tr_receiver_fingerprint r; tr_challenge r; tr_nonce r; tr_op r; tr_target r; [tr_k r]; tr_signature r])
    (λ l, match l with
          | [Some a; Some b; Some c; Some d; Some e; Some f; Some g; Some h; Some i; Some j; Some k] =>
              Some (mkTcpRpc a b c d e f g h i (of_byte j) k)
          | _ => None end);
  hj_quic_rpc := hex_serde 9 (λ r, [qr_cmd r; qr_protocol r; qr_sender_fingerprint r; qr_receiver_fingerprint r;
      qr_nonce r; qr_op r; qr_target r; [qr_k r]; qr_signature r])
    (λ l, match l with
          | [Some a; Some b; Some c; Some d; Some e; Some f; Some g; Some h; Some i] =>
              Some (mkQuicRpc a b c d e f g (of_byte h) i)
          | _ => None end);
  hj_tcp_result := hex_serde 11 (λ s, [ts_cmd s; flag (ts_ok s); ts_protocol s; ts_receiver_pubkey s;
      ts_receiver_fingerprint s; ts_sender_fingerprint s; ts_challenge s; ts_nonce s; ts_op s;
      many_bytes (ts_records s); ts_signature s])
    (λ l, match l with
          | [Some a; Some b; Some c; Some d; Some e; Some f; Some g; Some h; Some i; Some j; Some k] =>
              Some (mkTcpRpcResult a (of_flag b) c d e f g h i (many j) k)
          | _ => None end);
  hj_quic_result := hex_serde 10 (λ s, [qs_cmd s; flag (qs_ok s); qs_protocol s; qs_receiver_pubkey s;
      qs_receiver_fingerprint s; qs_sender_fingerprint s; qs_nonce s; qs_op s; many_bytes (qs_records s); qs_signature s])
    (λ l, match l with
          | [Some a; Some b; Some c; Some d; Some e; Some f; Some g; Some h; Some i; Some j] =>
              Some (mkQuicRpcResult a (of_flag b) c d e f g h (many i) j)
          | _ => None end);
  json_cmd l := bs ← unhex_loop (strip l); match bs with x01 :: r => fst <$> take_field r | _ => None end
|}.

(** The lengths that a transcript fixes. *)
Lemma fingerprint_length fp a : h_fingerprint fp = Ok a → length fp = 28%nat.
Proof.
  unfold h_fingerprint. intros Hf%h_some_Ok. apply parse_fingerprint_exact in Hf as ->.
  destruct a as [l Hl]. revert Hl. unfold show_fingerprint. cbn.
  intros Hl. apply Is_true_true, Nat.eqb_eq in Hl. do 8 (destruct l as [|? l]; [done|]). by destruct l.
Qed.
Lemma unhex_length n s a : unhex n s = Ok a → length s = (2 * n)%nat.
Proof. intros ->%h_unhex_exact. by rewrite length_hex, length_array. Qed.
Lemma binary_length n s a : binary n s = Ok a → length s = ((n + 2) / 3 * 4)%nat.
Proof. unfold binary. intros Hb. h_inv. by apply Nat.eqb_eq. Qed.
Lemma matches_length p fp a : public_matches p fp = Ok a → length p = 44%nat.
Proof. unfold public_matches. intros Hb. h_inv. by eapply (binary_length 32). Qed.
Lemma remote_len r u : remote r = Ok u → (length r ≤ 512)%nat.
Proof. destruct u. apply remote_length. Qed.

Ltac lengths :=
  repeat match goal with
  | Hx : h_fingerprint _ = Ok _ |- _ => apply fingerprint_length in Hx
  | Hx : unhex _ _ = Ok _ |- _ => apply unhex_length in Hx
  | Hx : public_matches _ _ = Ok _ |- _ => apply matches_length in Hx
  | Hx : binary 32 _ = Ok _ |- _ => apply (binary_length 32) in Hx; change ((32 + 2) / 3 * 4)%nat with 44%nat in Hx
  | Hx : Handshake.remote _ = Ok _ |- _ => apply remote_len in Hx
  | Hx : _ = lit ?s |- _ => apply (f_equal length) in Hx; change (length (lit s)) with (String.length s) in Hx; cbn [String.length] in Hx
  | Hx : _ = TCP |- _ => apply (f_equal length) in Hx; change (length TCP) with 11%nat in Hx
  | Hx : _ = SESSION |- _ => apply (f_equal length) in Hx; change (length SESSION) with 14%nat in Hx
  end.

#[export] Instance session_json_laws : HandshakeJsonLaws.
Proof.
  split.
  - intros []. by apply hex_back.
  - intros []. by apply hex_back.
  - intros [? ok]. apply hex_back; [done|]. cbn. by destruct ok.
  - intros m. apply hex_plain.
  - intros m. apply hex_plain.
  - intros m. apply hex_plain.
  - intros o. cbn [json_cmd session_json]. cbn [to_vec hj_tcp_open session_json hex_serde].
    rewrite strip_hex, unhex_loop_hex. cbn [mbind option_bind fmap list_fmap fields_bytes].
    by rewrite take_field_bytes.
  - intros m Hm. unfold challenge_validate in Hm. h_inv. bool_simpl. destruct_and?.
    cbn [hj_challenge session_json]. rewrite hex_length. cbn [length sum_list_with].
    lengths. lia.
  - intros o t Ho Hs. unfold tcp_open_transcript in Ho. h_inv. bool_simpl. destruct_and?.
    cbn [hj_tcp_open session_json]. rewrite hex_length. cbn [length sum_list_with]. lengths. lia.
  - intros a o r t Ho Ha Hs. unfold tcp_open_transcript in Ho. unfold tcp_ack_transcript in Ha. h_inv. bool_simpl.
    destruct_and?. cbn [hj_tcp_ack session_json]. rewrite hex_length. cbn [length sum_list_with]. lengths.
    repeat match goal with Hx : _ a = _ o |- _ => rewrite Hx end.
    assert (length (flag (ta_ok a)) = 1%nat) by by destruct (ta_ok a). lia.
Qed.

End SessionJson.

(** ** x25519 and certificates *)

Module SessionToy.
Import Toy.

Definition byte_xor (a b : byte) : byte := byte_of (Z.lxor (byte_val a) (byte_val b)).
Definition toy_shared (a b : array 32) : array 32 :=
  toy_array 32 (x01 :: zip_with byte_xor (array_bytes a) (array_bytes b)).

#[export] Instance toy_x25519 : X25519 := {| x_public a := a; x_shared := toy_shared |}.
#[export] Instance toy_x25519_laws : X25519Laws.
Proof.
  split.
  - intros a b. cbn. unfold toy_shared. do 2 f_equal.
    generalize (array_bytes a) (array_bytes b). intros l. induction l as [|x l IH]; intros [|y k]; [done..|].
    cbn. unfold byte_xor at 1 3. by rewrite Z.lxor_comm, IH.
  - intros a b Heq. apply (f_equal array_bytes) in Heq. discriminate Heq.
Qed.

(** A certificate is its key. *)
#[export] Instance toy_tls : Tls := {| spki_der k := array_bytes k; cert_spki c := Some c |}.
#[export] Instance toy_tls_laws : TlsLaws.
Proof. split. intros a b. apply array_eq. Qed.

End SessionToy.

(** ** A receiver, its Pack and an initiator *)

Module SessionDemo.
Import Pelt Handshake HandshakeSpec Rpc Admission State Conn Running SessionSpec ClientSpec Honest.
Import Toy ToyDen SessionJson SessionToy HandshakeDemo.
Import OpenFang (mkExpected).

Notation Den0 := (str → option (list byte)).
Definition sender_fp : str := fp_of sender_key.
Definition demo_target : SocketAddr := mkSocketAddr (V4 [127; 0; 0; 1]) 80 0.

Definition demo_state : DaemonState :=
  set_pelt (Some (generate_identity receiver_key))
    (set_peers [StateValidation.mkPeerRecord (lit "wolf") sender_fp (lit "tcp://127.0.0.1:1") StateValidation.Packmate
                  (Some (b64_encode (array_bytes sender_key)))]
      (set_policy (TargetPolicy.Grants {[ sender_fp := {[ demo_target ]} ]})
        (set_authority (Authority.initial false) Persistence.daemon_default))).
Definition demo_node : Node (D := Den0) :=
  mkNode (mkWorld demo_state (λ _, None)) admission_default replay_default ∅.
Definition task_on (n : Node (D := Den0)) (p : HandshakePermit) (input : list byte) : Task (D := Den0) :=
  mkTask n 0 None None p input 0 [].
Definition demo_task : list byte → Task (D := Den0) := task_on demo_node (mkHandshakePermit None).

(** Alone, at one instant, with random bytes that differ from turn to turn. *)
Definition demo_env (peer : TlsEnd) : Env (D := Den0) :=
  mkEnv (λ _ n, n) (λ _, 1) (λ _, 100) (λ _, Done) (λ _, 1000%nat)
    (λ t n, Some (toy_array n (be_bytes 4 (Z.of_nat t + 1)))) (λ _ _ _, None) (λ _, (1%nat, true)) (λ _, peer)
    (λ _, key_of 5).
Definition server_env : Env (D := Den0) := demo_env TlsAlert.
Definition client_env (input : list byte) : Env (D := Den0) := demo_env (TlsUp (array_bytes receiver_key) input).

Lemma demo_quiet peer : quiet (demo_env peer).
Proof. split; try done. - intros t. cbn. lia. - intros t n. by eexists. Qed.
Lemma demo_rely peer : rely (demo_env peer).
Proof. intros t n. by exists []. Qed.

Lemma permit_found a p fp :
  match authenticated a p fp with Ok (a1, p1) => is_ok (permit_target_work a1 p1 fp).2 | Err _ => false end = true →
  ∃ a1 p1 a2 w, authenticated a p fp = Ok (a1, p1) ∧ permit_target_work a1 p1 fp = (a2, Ok w).
Proof.
  destruct (authenticated a p fp) as [[a1 p1]|]; [|done].
  destruct (permit_target_work a1 p1 fp) as [a2 [w|]] eqn:Hw; [|done]. intros _. by exists a1, p1, a2, w.
Qed.
Lemma gate_found fp a :
  match Authority.ticket_text fp a with
  | (a1, Some t) => match (Authority.locking (Authority.reserve t Authority.Tcp) a1).2 with Some _ => true | None => false end
  | _ => false
  end = true →
  ∃ a1 ticket a2 id, Authority.ticket_text fp a = (a1, Some ticket) ∧
    Authority.locking (Authority.reserve ticket Authority.Tcp) a1 = (a2, Some id).
Proof.
  destruct (Authority.ticket_text fp a) as [a1 [t|]]; [|done].
  destruct (Authority.locking _ a1) as [a2 [id|]] eqn:Er; [|done]. intros _. by exists a1, t, a2, id.
Qed.

Lemma demo_admitted : admitted sender_key receiver_key demo_remote [demo_target] server_env (demo_task []).
Proof.
  split; try reflexivity.
  - apply permit_found. vm_compute. reflexivity.
  - apply gate_found. vm_compute. reflexivity.
Qed.

Lemma handshake_agrees_witness : ∃ to_client to_server key id cs' cc',
    Server.serve_tcp toy_hash server_env 1 (set_stream to_server 0 (demo_task [])) = (Ok (Some ([demo_target], key, id)), cs') ∧
    written cs'.(t_trace) = to_client ∧
    Client.connect_tcp_session (client_env to_client) demo_remote (generate_identity sender_key) (expected receiver_key) (demo_task [])
      = (Ok key, cc') ∧
    written cc'.(t_trace) = to_server.
Proof.
  pose proof (eq_refl : key_weak sender_key = false) as Hs.
  pose proof (eq_refl : key_weak receiver_key = false) as Hr.
  pose proof (eq_refl : Handshake.remote demo_remote = Ok ()) as Hrem.
  apply (handshake_agrees toy_hash sender_key receiver_key demo_remote [demo_target] Hs Hr Hrem
    server_env client_env (array_bytes receiver_key)); try reflexivity.
  - intros input. apply demo_quiet.
  - apply demo_quiet.
  - apply demo_admitted.
  - intros t. unfold READ_WINDOW, SECOND. cbn. lia.
Defined.

(** ** One session of each transport *)

(** The challenge is made of the bytes of the task's third turn. *)
Definition demo_open : hs TcpOpen :=
  ctx ← context_new (generate_identity receiver_key) (toy_array 32 (be_bytes 4 3)) 1;
  tcp_open_new (generate_identity sender_key) ctx.(message) demo_remote (key_of 3) (toy_array 16 (lit "nonce")).
Definition demo_binding : array 32 := key_of 5.
Definition demo_quic_open : hs QuicOpen :=
  quic_open_new (generate_identity sender_key) (fp_of receiver_key) demo_remote demo_binding (toy_array 16 (lit "nonce")).
Definition sent {T} `{Serde T} (m : hs T) : list byte :=
  match m with Ok o => to_vec o ++ [LF] | Err _ => [] end.

Notation demo_tcp := (Server.serve_tcp toy_hash server_env 1 (demo_task (sent demo_open))).
Notation demo_quic := (Server.quic_stream toy_hash server_env demo_binding 3 (demo_task (sent demo_quic_open))).
Definition is_session {A} (r : result (fault ()) (option A)) : bool :=
  match r with Ok (Some _) => true | _ => false end.

Lemma demo_tcp_ok : is_session demo_tcp.1 = true.
Proof. vm_compute. reflexivity. Qed.
Lemma demo_quic_ok : is_session demo_quic.1 = true.
Proof. vm_compute. reflexivity. Qed.

Lemma tcp_session_gated_witness : ∃ targets key id c',
    demo_tcp = (Ok (Some (targets, key, id)), c') ∧ ∃ sender remote a,
      tcp_sender server_env c'.(t_trace) sender remote ∧ authorized server_env c'.(t_trace) sender remote targets ∧
      Dialled a id targets ∈ c'.(t_trace).
Proof.
  pose proof demo_tcp_ok as Hok. destruct demo_tcp as [r c'] eqn:Hrun.
  destruct (tcp_session_gated toy_hash server_env 1 (demo_task (sent demo_open)) r c' (demo_rely _) eq_refl eq_refl Hrun) as [_ Hend].
  destruct r as [[[[targets key] id]|]|e]; [|discriminate Hok..].
  exists targets, key, id, c'. split; [reflexivity|]. exact (Hend _ _ _ eq_refl).
Defined.

Lemma quic_session_gated_witness : ∃ targets id c',
    demo_quic = (Ok (Some (targets, id)), c') ∧ ∃ sender remote a,
      quic_sender demo_binding c'.(t_trace) sender remote ∧ authorized server_env c'.(t_trace) sender remote targets ∧
      Dialled a id targets ∈ c'.(t_trace).
Proof.
  pose proof demo_quic_ok as Hok. destruct demo_quic as [r c'] eqn:Hrun.
  destruct (quic_session_gated toy_hash server_env demo_binding 3 (demo_task (sent demo_quic_open)) r c'
    (demo_rely _) eq_refl eq_refl Hrun) as [_ Hend].
  destruct r as [[[targets id]|]|e]; [|discriminate Hok..].
  exists targets, id, c'. split; [reflexivity|]. exact (Hend _ _ eq_refl).
Defined.

(** ** An initiator's session with the receiver *)

Notation demo_client input :=
  (Client.connect_tcp_session (client_env input) demo_remote (generate_identity sender_key) (expected receiver_key)
    (demo_task [])).
(** It writes its OPEN once it has read the challenge, and the receiver
    answers that OPEN. *)
Definition demo_to_server : list byte :=
  written (demo_client (written (Server.serve_tcp toy_hash server_env 1 (demo_task [])).2.(t_trace))).2.(t_trace).
Definition demo_to_client : list byte :=
  written (Server.serve_tcp toy_hash server_env 1 (demo_task demo_to_server)).2.(t_trace).

Lemma demo_client_ok : is_ok (demo_client demo_to_client).1 = true.
Proof. vm_compute. reflexivity. Qed.

Lemma client_sends_one_open_witness : ∃ key c', demo_client demo_to_client = (Ok key, c') ∧
  ∃ secret o, opened demo_remote (generate_identity sender_key) (expected receiver_key) secret o ∧
    written c'.(t_trace) = line_of o.
Proof.
  pose proof demo_client_ok as Hok. destruct (demo_client demo_to_client) as [r c'] eqn:Hrun.
  destruct (client_sends_one_open (client_env demo_to_client) demo_remote (generate_identity sender_key)
    (expected receiver_key) (demo_task []) r c' eq_refl Hrun) as [_ Hkey].
  destruct r as [key|e]; [|discriminate Hok]. exists key, c'. split; [reflexivity|].
  destruct (Hkey key eq_refl) as (_ & secret & o & _ & _ & _ & Ho & Hw & _).
  exists secret, o. exact (conj Ho Hw).
Defined.

(** ** An RPC over each transport *)

Definition demo_context : hs TcpChallengeContext := context_new (generate_identity receiver_key) (key_of 5) 1.
Definition demo_tcp_rpc : hs (TcpRpc * TcpChallengeContext) :=
  ctx ← demo_context;
  rpc ← tcp_rpc_new (generate_identity sender_key) ctx.(message) Ping (toy_array 16 (lit "nonce"));
  Ok (rpc, ctx).
Definition demo_quic_rpc : hs QuicRpc :=
  quic_rpc_new (generate_identity sender_key) (fp_of receiver_key) Ping demo_binding (toy_array 16 (lit "nonce")).

(** The claim about what precedes the newest event, a write. *)
Definition wrote_last (P : list Event → Prop) (l : list Event) : Prop :=
  match l with Wrote _ _ :: before => P before | _ => False end.
Definition writes_last (l : list Event) : bool := match l with Wrote _ _ :: _ => true | _ => false end.

Lemma demo_rpc_ok :
  match demo_tcp_rpc, demo_quic_rpc with
  | Ok (rpc, ctx), Ok rpc' =>
      writes_last (Server.answer_tcp toy_hash server_env rpc ctx 1 (demo_task [])).2.(t_trace) &&
      writes_last (Server.answer_quic toy_hash server_env rpc' demo_binding 1 (demo_task [])).2.(t_trace)
  | _, _ => false
  end = true.
Proof. vm_compute. reflexivity. Qed.


End SessionDemo.
