(* ===== verification/ForwardDemo.v ===== *)
(** * A route, and a service with a fallback

    The receiver of SessionDemo as a relay and as the end of a route, and as
    the second of two providers, the first of which does not answer; with the
    witnesses of Forward. *)

From stdpp Require Import gmap.
From S2P Require Export SessionDemo.
From S2P Require Export Forward.

Local Open Scope Z_scope.

Module ForwardDemo.
Import Pelt Handshake Conn ClientSpec Honest Forward ForwardSpec.
Import Toy ToyDen SessionJson SessionToy HandshakeDemo SessionDemo.
Import OpenFang (mkRouted, mkProvider, Provider, PTcp, Routed).

Notation sender := (generate_identity sender_key).
Notation to_receiver := (expected receiver_key).

(** A connection whose other end sends [input], and one that never comes up. *)
Definition link_to (input : list byte) : Link := mkLink (client_env input) (demo_task []).
Definition dead_link : Link := mkLink (demo_env TlsBroken) (demo_task []).

(** The inner set-up of a route, given what the destination sends. *)
Definition demo_inner (input : list byte) : result (fault ()) (array 32) * list Event :=
  on_link (link_to input) (inner_session demo_remote sender to_receiver).
Definition inner_to_server : list byte :=
  written (demo_inner (written (Server.serve_tcp toy_hash server_env 1 (demo_task [])).2.(t_trace))).2.
Definition inner_to_client : list byte :=
  written (Server.serve_tcp toy_hash server_env 1 (demo_task inner_to_server)).2.(t_trace).

Definition demo_routed : Routed := mkRouted (lit "wolf") Route.Tcp (lit "127.0.0.1:1") to_receiver demo_target.
Definition demo_world : World1 := mkWorld1 (link_to demo_to_client) (link_to inner_to_client) false (lit "GET /") true true.
Notation demo_route := (routed_session demo_world demo_routed None demo_remote sender to_receiver).

Lemma demo_route_ok : demo_route.(established) && negb (bool_decide (written demo_route.(sent_inner) = [])) = true.
Proof. vm_compute. reflexivity. Qed.

Lemma relay_cannot_impersonate_witness : demo_route.(established) = true ∧
  tcp_speaks (client_env inner_to_client) demo_remote sender to_receiver (written demo_route.(sent_inner)) (true = true).
Proof.
  pose proof demo_route_ok as Hok. apply andb_prop in Hok as [He _]. split; [exact He|].
  destruct (relay_cannot_impersonate demo_world demo_routed None demo_remote sender to_receiver _
    (conj eq_refl eq_refl) (λ spki H, match H with end) eq_refl) as (_ & Hi & _).
  rewrite He in Hi. exact Hi.
Defined.

(** The first provider does not answer; the second serves. *)
Definition demo_providers : list Provider :=
  [mkProvider (lit "wolf-a") demo_remote to_receiver (PTcp (lit "127.0.0.1:2"));
   mkProvider (lit "wolf-b") demo_remote to_receiver (PTcp (lit "127.0.0.1:1"))].
Definition dead_world : World1 := mkWorld1 dead_link dead_link false [] false false.
Notation demo_select ready := (select_and_serve ready [dead_world; demo_world] sender).

Lemma demo_select_ok :
  match prepare demo_providers with
  | Ok ready => (demo_select ready).1 && (length (demo_select ready).2 =? 2)%nat
  | Err _ => false
  end = true.
Proof. vm_compute. reflexivity. Qed.

Lemma one_provider_serves_witness : ∃ ready t0 t1, prepare demo_providers = Ok ready ∧
  demo_select ready = (true, [t0; t1]) ∧ t1.(established) = true ∧ t0.(local) = [].
Proof.
  pose proof demo_select_ok as Hok. destruct (prepare demo_providers) as [ready|] eqn:Hp; [|discriminate Hok].
  destruct (demo_select ready) as [ok ts] eqn:Hs. cbn [fst snd] in Hok. apply andb_prop in Hok as [-> Hl].
  destruct ts as [|t0 [|t1 [|]]]; [discriminate Hl..| |discriminate Hl]. exists ready, t0, t1.
  assert (Forall fresh_world [dead_world; demo_world]) as Hf by (repeat constructor).
  destruct (one_provider_serves demo_providers ready [dead_world; demo_world] sender true [t0; t1] Hp Hf Hs)
    as [Hall [Hend _]].
  destruct (Hend eq_refl) as (t & [= <-] & He & _). destruct (Hall 0%nat t0 eq_refl) as (_ & _ & _ & _ & _ & Hle & Hlast).
  split; [reflexivity|]. split; [exact Hs|]. split; [exact He|]. destruct (local t0); [reflexivity|].
  discriminate (Hlast (Hle ltac:(discriminate))).
Defined.

End ForwardDemo.
