(* ===== verification/Operator.v ===== *)
(** * The operator side of discovery ([werewolfd/src/discovery/operator.rs])

    [Module Operator]: the [discover.*] commands, the network phase of
    [governance.sync] and of [service.add_from], and the iterative lookup.
    What the network does is an argument: which task of a join set ends
    next, with what answer, and how many end before the deadline. A query is
    a function of the seed and of what its exchange would give; between the
    network phase and what follows, other tasks may change the node.

    Parameters: SHA-256, the clock, the name resolver's answer, and the
    answers of the peers, which are arbitrary. *)

From stdpp Require Import gmap.
From S2P Require Export OpenFang.
From S2P Require Export AutoSync.
From S2P Require Export Persistence.

Local Open Scope Z_scope.

Module Operator.
Import LocalFs State Pelt Contact Rpc Discovery Mutation OpenFang.
Import StateValidation (PeerRecord, pr_name, pr_fingerprint, pr_address, pr_public_key_b64).

Definition ALPHA : nat := 3.
Definition MAX_HOPS : nat := 8.
Definition MAX_QUERIES : nat := 24.
Definition ROUNDS : nat := 16.

(** [control::dying_refusal]. *)
Definition dying_refusal (req : ControlRequest) (s : DaemonState) : option ControlResponse :=
  if s.(l_dying) && negb (one_of req [lit "status"; lit "governance.status"])
  then Some (response_err req.(rq_id) (lit "LIFECYCLE_DYING") (lit "the node is dying: only status is answered"))
  else None.

Definition handles (cmd : str) : bool :=
  bool_decide (cmd ∈ [lit "discover.show"; lit "discover.contacts"; lit "discover.refresh"; lit "discover.find";
                      lit "discover.services"]).

(** ** Seeds *)

Inductive Path : Type :=
| Direct
| Relay (routed : Routed)
| BadRoute.

Record Seed : Type := mkSeed {
  se_name : str;
  se_key : array 32;
  se_address : str;
  se_expected : ExpectedPeerIdentity;
  se_path : Path
}.

(** What a seed's exchange is made with. *)
Inductive Dial : Type :=
| DialRelay (routed : Routed)
| DialQuic (address : SocketAddr)
| DialTcp (address : str).

(** [io::ErrorKind] of a failed exchange. *)
Inductive NetError : Type :=
| ConnectionRefused | HostUnreachable | NetworkUnreachable | AddrNotAvailable | TimedOut | OtherError.
Definition failure_status (e : NetError) : str :=
  match e with OtherError => lit "rejected" | _ => lit "unreachable" end.

(** How a spawned query ends: with what the resolver and the exchange gave,
    at its own time limit, or by a panic. *)
Inductive Ended (R : Type) : Type :=
| Replied (host : option SocketAddr) (reply : result NetError R)
| Late
| Panicked.
Arguments Replied {R} host reply.
Arguments Late {R}.
Arguments Panicked {R}.

(** The tasks that end, each by its position in the join set. *)
Notation schedule R := (list (nat * Ended R)).

(** Where each query is dialled; a bad route is not dialled at all. *)
Definition dial (host : option SocketAddr) (seed : Seed) (transport : str) : result str Dial :=
  match seed.(se_path) with
  | BadRoute => Err (lit "bad_route")
  | Relay routed => Ok (DialRelay routed)
  | Direct =>
      match Policy.select_peer_transport transport seed.(se_address) with
      | Ok (Policy.Quic _) => a ← ok_or host (lit "bad_address"); Ok (DialQuic a)
      | Ok (Policy.Tcp a) => Ok (DialTcp a)
      | Err _ => Err (lit "bad_address")
      end
  end.

(** [query], [query_services] and [query_governance]. *)
Definition query {R} (seed : Seed) (transport : str) (host : option SocketAddr) (reply : result NetError R)
    : result str R :=
  _ ← dial host seed transport; map_err failure_status reply.

(** ** Join sets *)

(** Position [i] of a join set that is not empty. *)
Definition pick {A} (i : nat) (l : list A) : option (A * list A) :=
  let j := (i mod length l)%nat in
  a ← l !! j; Some (a, delete j l).

(** At most [ALPHA] queries at a time: the loop ends when the set is empty
    or at the deadline, where the schedule ends. *)
Fixpoint pool {A R} (on_spawn : Seed → A → A) (on_join : Seed → Ended R → A → A) (events : schedule R)
    (running pending : list Seed) (acc : A) : A :=
  let n := (ALPHA - length running)%nat in
  let acc1 := foldl (λ acc seed, on_spawn seed acc) acc (take n pending) in
  match events with
  | [] => acc1
  | (i, e) :: rest =>
      match pick i (running ++ take n pending) with
      | None => acc1
      | Some (seed, running') => pool on_spawn on_join rest running' (drop n pending) (on_join seed e acc1)
      end
  end.

(** A batch in which every query has its own time limit: those the schedule
    does not name end at theirs. *)
Fixpoint join_batch {A R} (on_join : Seed → Ended R → A → A) (events : schedule R) (running : list Seed) (acc : A) : A :=
  match events with
  | [] => foldl (λ acc seed, on_join seed Late acc) acc running
  | (i, e) :: rest =>
      match pick i running with
      | None => acc
      | Some (seed, running') => join_batch on_join rest running' (on_join seed e acc)
      end
  end.

(** [set_status]: the first entry of that name. *)
Fixpoint set_status (statuses : list (str * Json)) (name : str) (status : Json) : list (str * Json) :=
  match statuses with
  | [] => []
  | (peer, old) :: rest =>
      if bool_decide (peer = name) then (peer, status) :: rest else (peer, old) :: set_status rest name status
  end.

Definition peer_status (name status : str) : Json :=
  JObj [(lit "peer", JStr name); (lit "status", JStr status)].
Definition not_queried (seeds : list Seed) : list (str * Json) :=
  (λ s, (s.(se_name), peer_status s.(se_name) (lit "not_queried"))) <$> seeds.

Section operator.
Context `{Crypto} `{Base64} `{MutationJson} `{DenWipe D} (sha256 : list byte → array 32).

Definition from_peer (peer : PeerRecord) (routes : list Route.Route) (peers : list PeerRecord) : option Seed :=
  public_key ← pr_public_key_b64 peer;
  let path := match list_find (λ r, r.(Route.r_peer) = pr_name peer) routes with
              | None => Direct
              | Some (_, route) =>
                  match relay_resolve route peer peers (lit "tcp") with Ok routed => Relay routed | Err _ => BadRoute end
              end in
  key ← match Handshake.binary 32 public_key with Ok k => Some k | Err _ => None end;
  Some (mkSeed (pr_name peer) key (pr_address peer) (mkExpected (pr_fingerprint peer) (Some public_key)) path).

Definition from_record (record : ContactRecord) (name transport : str) : option Seed :=
  x ← list_find (λ a, starts_with a (transport ++ lit "://") = true) record.(addresses);
  let public_key_b64 := b64_encode (array_bytes record.(public_key)) in
  fp ← match fingerprint_from_public_key_b64 public_key_b64 with Ok f => Some f | Err _ => None end;
  Some (mkSeed name record.(public_key) x.2 (mkExpected fp (Some public_key_b64)) Direct).

Definition hs_key (identity : PeltIdentity) : array 32 :=
  match Handshake.binary 32 identity.(public_key_b64) with Ok k => k | Err _ => array_fill 32 x00 end.

(** The Pack member with the record's key. *)
Definition pack_name (record : ContactRecord) (peers : list PeerRecord) : option str :=
  (λ x, pr_name x.2) <$>
  list_find (λ p, pr_public_key_b64 p = Some (b64_encode (array_bytes record.(public_key)))) peers.

Definition label (record : ContactRecord) (peers : list PeerRecord) : str :=
  default (lit "node:" ++ take 16 (Overlay.Kademlia.to_hex (node_id sha256 record))) (pack_name record peers).

Definition view (record : ContactRecord) (peers : list PeerRecord) : Json :=
  let public_key_b64 := b64_encode (array_bytes record.(public_key)) in
  JObj [(lit "node_id", JStr (Overlay.Kademlia.to_hex (node_id sha256 record)));
    (lit "public_key_b64", JStr public_key_b64);
    (lit "fingerprint", AutoSync.opt_json JStr
       match fingerprint_from_public_key_b64 public_key_b64 with Ok f => Some f | Err _ => None end);
    (lit "addresses", JArr (JStr <$> record.(addresses))); (lit "seq", JNum record.(seq));
    (lit "expires_at", JNum record.(expires_at)); (lit "pack_name", AutoSync.opt_json JStr (pack_name record peers))].

Definition parse_target (text : str) : option (array 32) :=
  let id := if bool_decide (length text = 64%nat)
            then match Overlay.Kademlia.from_hex text with Ok id => Some id | Err _ => None end else None in
  match id with
  | Some id => Some id
  | None => match Handshake.binary 32 text with
            | Ok key => Some (Overlay.Kademlia.from_public_key sha256 key)
            | Err _ => None
            end
  end.

(** ** Refresh: every seed is asked for its own record *)

Definition run_joined (transport : str) (seed : Seed) (e : Ended (list ContactRecord))
    (acc : list (str * Json) * list ContactRecord) : list (str * Json) * list ContactRecord :=
  let '(statuses, learned) := acc in
  let name := seed.(se_name) in
  match e with
  | Replied host reply =>
      match query seed transport host reply with
      | Ok records => (set_status statuses name (JObj [(lit "peer", JStr name); (lit "status", JStr (lit "ok"));
                         (lit "records", num (length records))]), learned ++ records)
      | Err reason => (set_status statuses name (peer_status name reason), learned)
      end
  | Late | Panicked => acc
  end.
Definition run_queries (seeds : list Seed) (transport : str) (events : schedule (list ContactRecord))
    : list Json * list ContactRecord :=
  let spawned seed (acc : list (str * Json) * list ContactRecord) :=
    (set_status acc.1 seed.(se_name) (peer_status seed.(se_name) (lit "timeout")), acc.2) in
  let '(statuses, learned) := pool spawned (run_joined transport) events [] seeds (not_queried seeds, []) in
  (statuses.*2, learned).

(** ** Find: the iterative lookup *)

Record Lookup : Type := mkLookup {
  shortlist : list Seed;
  asked : list (array 32);
  lk_statuses : list Json;
  lk_learned : list ContactRecord
}.

(** One hop's clock and answers. *)
Record Hop : Type := mkHop { expired : bool; hop_events : schedule (list ContactRecord) }.

Definition learn_record (own : array 32) (peers : list PeerRecord) (transport : str) (l : Lookup) (r : ContactRecord)
    : Lookup :=
  let known := bool_decide (r.(public_key) = own) || existsb (λ s, bool_decide (s.(se_key) = r.(public_key))) l.(shortlist) in
  mkLookup (if known then l.(shortlist)
            else l.(shortlist) ++ option_list (from_record r (label r peers) transport))
    l.(asked) l.(lk_statuses) (l.(lk_learned) ++ [r]).

Definition push_status (l : Lookup) (j : Json) : Lookup :=
  mkLookup l.(shortlist) l.(asked) (l.(lk_statuses) ++ [j]) l.(lk_learned).

Definition lookup_joined (own : array 32) (peers : list PeerRecord) (transport : str) (hop : nat) (seed : Seed)
    (e : Ended (list ContactRecord)) (l : Lookup) : Lookup :=
  let failed reason := push_status l (JObj [(lit "peer", JStr seed.(se_name)); (lit "hop", num hop); (lit "status", JStr reason)]) in
  match e with
  | Replied host reply =>
      match query seed transport host reply with
      | Ok records =>
          push_status (foldl (learn_record own peers transport) l records)
            (JObj [(lit "peer", JStr seed.(se_name)); (lit "hop", num hop); (lit "status", JStr (lit "ok"));
                   (lit "records", num (length records))])
      | Err reason => failed reason
      end
  | Late => failed (lit "timeout")
  | Panicked => l
  end.

Section lookup.
Variables (peers : list PeerRecord) (own : array 32) (transport : str) (target : array 32) (hops : nat → Hop).

Definition distance (s : Seed) : array 32 :=
  Overlay.Kademlia.xor_distance target (Overlay.Kademlia.from_public_key sha256 s.(se_key)).

(** The subtraction is [usize]'s; [asked] never holds more than [MAX_QUERIES]. *)
Definition next_batch (l : Lookup) : list Seed :=
  take (Nat.min ALPHA (MAX_QUERIES - length l.(asked)))
    (filter (λ s, s.(se_key) ∉ l.(asked)) (take Overlay.Kademlia.MAX_K l.(shortlist))).

Fixpoint lookup_hops (hops_left hop : nat) (l : Lookup) : Lookup :=
  match hops_left with
  | O => l
  | S hops_left =>
      let l1 := mkLookup (sort_by_key distance l.(shortlist)) l.(asked) l.(lk_statuses) l.(lk_learned) in
      let batch := next_batch l1 in
      if bool_decide (batch = []) || (hops hop).(expired) then l1
      else
        let l2 := mkLookup l1.(shortlist) (l1.(asked) ++ (se_key <$> batch)) l1.(lk_statuses) l1.(lk_learned) in
        let l3 := join_batch (lookup_joined own peers transport hop) (hops hop).(hop_events) batch l2 in
        if existsb (λ r, bool_decide (node_id sha256 r = target)) l3.(lk_learned) then l3
        else lookup_hops hops_left (S hop) l3
  end.
Definition lookup (seeds : list Seed) : Lookup := lookup_hops MAX_HOPS 1 (mkLookup seeds [] [] []).
End lookup.

(** ** Services *)

Definition kind_json (k : Service.ServiceKind) : Json :=
  JStr match k with
       | Service.Tcp => lit "tcp"
       | Service.Http => lit "http"
       | Service.Https => lit "https"
       | Service.Ssh => lit "ssh"
       end.
Definition published_json (e : Published.PublishedService) : Json :=
  JObj [(lit "name", JStr e.(Published.ps_name)); (lit "kind", kind_json e.(Published.kind));
    (lit "target", JStr e.(Published.target))].

Definition services_joined (transport : str) (seed : Seed) (e : Ended (list Published.PublishedService))
    (statuses : list (str * Json)) : list (str * Json) :=
  let name := seed.(se_name) in
  match e with
  | Replied host reply =>
      set_status statuses name
        match query seed transport host reply with
        | Ok entries => JObj [(lit "peer", JStr name); (lit "status", JStr (lit "ok"));
                              (lit "services", JArr (published_json <$> entries))]
        | Err reason => peer_status name reason
        end
  | Late | Panicked => statuses
  end.

Definition transport_arg (req : ControlRequest) : result ControlResponse str :=
  let t := default (lit "quic") (as_str (j_get req.(rq_args) (lit "transport"))) in
  if bool_decide (t = lit "quic") then Ok (lit "quic")
  else if bool_decide (t = lit "tcp") then Ok (lit "tcp")
  else Err (response_err req.(rq_id) (lit "DISCOVER_INVALID") (lit "transport must be quic or tcp")).

Definition silver_refusal (id : str) : ControlResponse :=
  response_err id (lit "SILVER_ACTIVE") (lit "Silver mode is active. Discovery rejected.").
Definition no_pelt (id : str) : ControlResponse :=
  response_err id (lit "NO_PELT") (lit "No local Pelt identity exists").
Definition not_a_member (id : str) : ControlResponse :=
  response_err id (lit "DISCOVER_INVALID") (lit "peer is not a Pack member").
Definition is_silver (s : DaemonState) : bool := match s.(l_status).(mode) with Silver => true | _ => false end.

Definition prepare (id : str) (s : DaemonState) : result ControlResponse PeltIdentity :=
  if is_silver s then Err (silver_refusal id)
  else if NodeGovernance.unadmitted s.(l_governance) s.(l_pelt)
  then Err (response_err id (lit "GOVERNANCE_UNADMITTED") (lit "this node is not admitted to its activated network"))
  else ok_or s.(l_pelt) (no_pelt id).

(** The members that are asked: all, or the one named. *)
Definition seeds_for (only : str) (s : DaemonState) : list Seed :=
  omap (λ p, from_peer p s.(l_routes) s.(l_peers)) (filter (λ p, only = [] ∨ pr_name p = only) s.(l_peers)).
Definition unknown_member (only : str) (s : DaemonState) : bool :=
  negb (bool_decide (only = [])) && negb (existsb (λ p, bool_decide (pr_name p = only)) s.(l_peers)).

Definition services (req : ControlRequest) (events : schedule (list Published.PublishedService)) (s : DaemonState)
    : result ControlResponse ControlResponse :=
  transport ← transport_arg req;
  _ ← prepare req.(rq_id) s;
  let only := arg req (lit "peer") in
  if unknown_member only s then Err (not_a_member req.(rq_id))
  else
    let seeds := seeds_for only s in
    let spawned seed (statuses : list (str * Json)) :=
      set_status statuses seed.(se_name) (peer_status seed.(se_name) (lit "timeout")) in
    let statuses := pool spawned (services_joined transport) events [] seeds (not_queried seeds) in
    Ok (response_ok req.(rq_id) (JObj [(lit "transport", JStr transport); (lit "queried", JArr statuses.*2)])).

(** ** The discovery lock *)

(** What an operator finds: the lock free or held, the scheduler's record,
    and whether a cancelled run lets go in time. *)
Record LockEnv : Type := mkLockEnv {
  lk_free : bool;
  lk_sync : AutoSync.Runtime;
  lk_released : bool
}.
(** Whether the lock is taken, and the scheduler's record after that. *)
Definition take_discovery (operator : bool) (e : LockEnv) : bool * AutoSync.Runtime :=
  if e.(lk_free) then (true, e.(lk_sync))
  else if operator then
    let '(preempted, _, r) := AutoSync.preempt e.(lk_sync) in (preempted && e.(lk_released), r)
  else (false, e.(lk_sync)).

Definition busy (id : str) : ControlResponse :=
  response_err id (lit "DISCOVER_BUSY") (lit "another discovery is running").

(** ** Governance sync: the network phase *)

Definition same_core (a b : Gov.Statement) : bool :=
  bool_decide (Gov.core_hash a.(Gov.core) = Gov.core_hash b.(Gov.core)).

(** [offer[..position]] agrees with the last [position] chosen statements;
    the slices are in range, since the offer has a statement there and as
    many were chosen in this round. *)
Definition agrees (chosen : list Gov.Statement) (position : nat) (offer : list Gov.Statement) : bool :=
  forallb (λ '(a, b), same_core a b) (zip (take position offer) (drop (length chosen - position) chosen)).

Definition add_candidate (chosen : list Gov.Statement) (position : nat) (candidates : list Gov.Statement)
    (offer : list Gov.Statement) : list Gov.Statement :=
  match offer !! position with
  | Some s => if agrees chosen position offer && negb (existsb (λ c, same_core c s) candidates)
              then candidates ++ [s] else candidates
  | None => candidates
  end.
Definition candidates_at (offers : list (list Gov.Statement)) (chosen : list Gov.Statement) (position : nat)
    : list Gov.Statement :=
  foldl (add_candidate chosen position) [] offers.

Definition successor (head : Gov.Head) (s : Gov.Statement) : option Gov.Head :=
  match Gov.apply (Some head) s None with Ok (Gov.Applied next) => Some next | _ => None end.
Definition valid_at (simulated : Gov.Head) (candidates : list Gov.Statement) : list (Gov.Statement * Gov.Head) :=
  omap (λ s, (λ next, (s, next)) <$> successor simulated s) candidates.

Record Walk : Type := mkWalk {
  wk_simulated : Gov.Head;
  wk_chosen : list Gov.Statement;
  wk_progressed : bool;
  wk_conflict : option (Gov.Statement * Gov.Statement)
}.

(** One round's walk over the offers. Every turn moves one position on, and
    past the longest offer there is no candidate. *)
Fixpoint walk (fuel : nat) (offers : list (list Gov.Statement)) (position : nat) (x : Walk) : Walk :=
  match fuel with
  | O => x
  | S fuel =>
      match valid_at x.(wk_simulated) (candidates_at offers x.(wk_chosen) position) with
      | [] => x
      | [(statement, next)] =>
          walk fuel offers (S position) (mkWalk next (x.(wk_chosen) ++ [statement]) true x.(wk_conflict))
      | (a, _) :: (b, _) :: _ => mkWalk x.(wk_simulated) x.(wk_chosen) x.(wk_progressed) (Some (a, b))
      end
  end.
Definition walk_fuel (offers : list (list Gov.Statement)) : nat := S (max_list (length <$> offers)).

(** What one answer does to the peers' statuses and to the offers. *)
Definition sync_joined (transport : str) (seed : Seed) (e : Ended (list Gov.Statement))
    (acc : list (str * Json) * list (list Gov.Statement)) : list (str * Json) * list (list Gov.Statement) :=
  let '(statuses, offers) := acc in
  let name := seed.(se_name) in
  let rounds := default [] (x ← list_find (λ x, x.1 = name) statuses; as_array (j_get x.2.2 (lit "offered"))) in
  let reported status rounds := set_status statuses name
    (JObj [(lit "peer", JStr name); (lit "status", JStr status); (lit "offered", JArr rounds)]) in
  match e with
  | Replied host reply =>
      match query seed transport host reply with
      | Ok statements => (reported (lit "ok") (rounds ++ [num (length statements)]),
                          if bool_decide (statements = []) then offers else offers ++ [statements])
      | Err reason => (reported reason rounds, offers)
      end
  | Late | Panicked => acc
  end.

(** The rounds; the answers of a round are its schedule. *)
Fixpoint sync_rounds (rounds_left : nat) (rounds : nat → schedule (list Gov.Statement)) (round : nat) (seeds : list Seed)
    (transport : str) (statuses : list (str * Json)) (simulated : Gov.Head) (chosen : list Gov.Statement)
    : list (str * Json) * list Gov.Statement * option (Gov.Statement * Gov.Statement) :=
  match rounds_left with
  | O => (statuses, chosen, None)
  | S rounds_left =>
      let '(statuses1, offers) := pool (λ _ acc, acc) (sync_joined transport) (rounds round) [] seeds (statuses, []) in
      let full_offer := existsb (λ o, (length o =? Z.to_nat MAX_GOVERNANCE_K)%nat) offers in
      let x := walk (walk_fuel offers) offers 0 (mkWalk simulated chosen false None) in
      match x.(wk_conflict) with
      | Some two => (statuses1, x.(wk_chosen), Some two)
      | None =>
          if negb x.(wk_progressed) || negb full_offer then (statuses1, x.(wk_chosen), None)
          else sync_rounds rounds_left rounds (S round) seeds transport statuses1 x.(wk_simulated) x.(wk_chosen)
      end
  end.

Definition b64_statement (s : Gov.Statement) : Json := JStr (b64_encode (Gov.statement_encode s)).
Definition sync_request (id : str) (statuses : list (str * Json)) (chosen : list Gov.Statement)
    (conflict : option (Gov.Statement * Gov.Statement)) : ControlRequest :=
  mkRequest id (lit "governance.sync_apply")
    (JObj [(lit "statements", JArr (b64_statement <$> chosen));
           (lit "conflict", AutoSync.opt_json (λ x, JArr [b64_statement x.1; b64_statement x.2]) conflict);
           (lit "peers", JArr statuses.*2)]).

Definition resolve_sync (operator : bool) (lock : LockEnv) (rounds : nat → schedule (list Gov.Statement))
    (req : ControlRequest) (s : DaemonState) : result ControlResponse ControlRequest :=
  match dying_refusal req s with
  | Some refusal => Err refusal
  | None =>
      transport ← transport_arg req;
      if is_silver s then Err (silver_refusal req.(rq_id))
      else
        _ ← ok_or s.(l_pelt) (no_pelt req.(rq_id));
        head ← ok_or s.(l_governance) (response_err req.(rq_id) (lit "GOVERNANCE_NO_GENESIS")
                 (lit "no governance head: apply the genesis from a file with --expect-hash"));
        if head.(Gov.forked)
        then Err (response_err req.(rq_id) (lit "GOVERNANCE_FORKED") (lit "governance is fenced after a fork"))
        else if negb (take_discovery operator lock).1 then Err (busy req.(rq_id))
        else
          let only := arg req (lit "peer") in
          if unknown_member only s then Err (not_a_member req.(rq_id))
          else
            let seeds := seeds_for only s in
            let '(statuses, chosen, conflict) := sync_rounds ROUNDS rounds 0 seeds transport (not_queried seeds) head [] in
            Ok (sync_request req.(rq_id) statuses chosen conflict)
  end.

(** ** Adding a service a peer offers *)

(** How the one query ends: within the budget, or not. *)
Definition resolve_add_from (e : Ended (list Published.PublishedService)) (req : ControlRequest) (s : DaemonState)
    : result ControlResponse ControlRequest :=
  match dying_refusal req s with
  | Some refusal => Err refusal
  | None =>
      transport ← transport_arg req;
      let name := default [] (as_str (j_get req.(rq_args) (lit "name"))) in
      let peer_name := arg req (lit "peer") in
      if bool_decide (name = []) || bool_decide (peer_name = [])
      then Err (response_err req.(rq_id) (lit "SERVICE_INVALID") (lit "name and peer are required"))
      else
        _ ← prepare req.(rq_id) s;
        seed ← ok_or (x ← list_find (λ p, pr_name p = peer_name) s.(l_peers); from_peer x.2 s.(l_routes) s.(l_peers))
                 (not_a_member req.(rq_id));
        let failed reason := response_err req.(rq_id) (lit "DISCOVER_FAILED") (peer_name ++ lit ": " ++ reason) in
        entries ← match e with
                  | Replied host reply => map_err failed (query seed transport host reply)
                  | Late | Panicked => Err (failed (lit "timeout"))
                  end;
        entry ← ok_or (list_find (λ x, x.(Published.ps_name) = name) entries)
                  (response_err req.(rq_id) (lit "SERVICE_NOT_FOUND")
                    (peer_name ++ lit " offers no service " ++ name ++ lit " to this node"));
        Ok (mkRequest req.(rq_id)
              (if is_cmd req (lit "service.provider.add_from") then lit "service.provider.add" else lit "service.add")
              (JObj [(lit "name", JStr entry.2.(Published.ps_name)); (lit "peer", JStr peer_name);
                     (lit "target", JStr entry.2.(Published.target)); (lit "kind", kind_json entry.2.(Published.kind))]))
  end.

(** ** The commands *)

(** What the network and the clock give one command, and what the rest of
    the node does during the network phase. *)
Record NetEnv : Type := mkNetEnv {
  ne_lock : LockEnv;
  ne_refresh : schedule (list ContactRecord);
  ne_hops : nat → Hop;
  ne_services : schedule (list Published.PublishedService);
  ne_now : Z;
  ne_later : Z;
  ne_meanwhile : World D → World D
}.

Definition remember (identity : PeltIdentity) (learned : list ContactRecord) (now : Z) (w : World D) : bool * World D :=
  let c := w.(live).(l_contacts) in
  let candidate := learn sha256 c learned (hs_key identity) (pack_keys w.(live).(l_peers)) now in
  if bool_decide (candidate = c.(known)) then (true, w)
  else if w.(live).(l_degraded) then (false, w)
  else match persist_discovery_cache (Persistence.cache_file candidate) w with
       | (Err _, w') => (false, w')
       | (Ok _, w') =>
           (true, on_live (λ s, set_contacts (mkContacts s.(l_contacts).(advertised) s.(l_contacts).(own) candidate) s) w')
       end.

Definition find_json (identity : PeltIdentity) (target : array 32) (learned : list ContactRecord) (now : Z)
    (peers : list PeerRecord) : list (str * Json) :=
  let nearest := take Overlay.Kademlia.MAX_K
    (sort_by_key (λ r, Overlay.Kademlia.xor_distance target (node_id sha256 r))
       (learn sha256 contacts_default learned (hs_key identity) [] now)) in
  let found := snd <$> list_find (λ r, node_id sha256 r = target) nearest in
  [(lit "target", JStr (Overlay.Kademlia.to_hex target));
   (lit "found", AutoSync.opt_json (λ r, view r peers) found);
   (lit "nearest", JArr ((λ r, view r peers) <$> nearest))].

Definition find_target (req : ControlRequest) : result ControlResponse (option (array 32)) :=
  if is_cmd req (lit "discover.find")
  then t ← ok_or (parse_target (arg req (lit "target")))
             (response_err req.(rq_id) (lit "DISCOVER_INVALID")
               (lit "target must be a public key (base64) or a node ID (64 hex digits)"));
       Ok (Some t)
  else Ok None.

Definition network (e : NetEnv) (req : ControlRequest) (w : World D) : ControlResponse * World D :=
  let s := w.(live) in
  match (transport ← transport_arg req; target ← find_target req; identity ← prepare req.(rq_id) s;
         Ok (transport, target, identity)) with
  | Err refusal => (refusal, w)
  | Ok (transport, target, identity) =>
      if negb (take_discovery true e.(ne_lock)).1 then (busy req.(rq_id), w)
      else
        let seeds := seeds_for [] s in
        let '(outcomes, learned) :=
          match target with
          | Some t => let l := lookup s.(l_peers) (hs_key identity) transport t e.(ne_hops) seeds in
                      (l.(lk_statuses), l.(lk_learned))
          | None => run_queries seeds transport e.(ne_refresh)
          end in
        let '(cached, w2) := remember identity learned e.(ne_now) (e.(ne_meanwhile) w) in
        (response_ok req.(rq_id) (JObj ([(lit "transport", JStr transport); (lit "queried", JArr outcomes);
           (lit "cached", JBool cached)]
           ++ match target with
              | Some t => find_json identity t learned e.(ne_later) w2.(live).(l_peers)
              | None => []
              end)), w2)
  end.

Definition show_own (now : Z) (req : ControlRequest) (w : World D) : ControlResponse * World D :=
  match w.(live).(l_pelt) with
  | None => (no_pelt req.(rq_id), w)
  | Some pelt =>
      let c := refresh_own sha256 w.(live).(l_contacts) pelt now in
      (response_ok req.(rq_id) (JObj [
         (lit "node_id", JStr (Overlay.Kademlia.to_hex (Overlay.Kademlia.from_public_key sha256 (hs_key pelt))));
         (lit "advertised", JArr (JStr <$> c.(advertised)));
         (lit "record", AutoSync.opt_json (λ r, view r w.(live).(l_peers)) c.(own))]),
       on_live (set_contacts c) w)
  end.

Definition handle (e : NetEnv) (req : ControlRequest) (w : World D) : ControlResponse * World D :=
  if is_cmd req (lit "discover.show") then show_own e.(ne_now) req w
  else if is_cmd req (lit "discover.contacts") then
    (response_ok req.(rq_id) (JArr ((λ r, view r w.(live).(l_peers)) <$>
       filter (λ r, verified sha256 e.(ne_now) r = true) w.(live).(l_contacts).(known))), w)
  else if is_cmd req (lit "discover.services") then
    (match services req e.(ne_services) w.(live) with Ok r | Err r => r end, w)
  else network e req w.

End operator.
End Operator.
