(* ===== verification/OperatorSpec.v ===== *)
(** * What discovery guarantees ([werewolfd/src/discovery/operator.rs])

    [Module OperatorSpec]: the network phase of a sync chooses only
    statements that apply in order and reports a fork the offers show, on
    the condition that no offered copy of a statement is worse than another;
    a lookup asks a bounded number of nodes, each once; the commands change
    nothing of the node but the contact cache and the own record. *)

From stdpp Require Import gmap.
From S2P Require Export Operator.
From S2P Require Export MutationSpec.

Local Open Scope Z_scope.

Module OperatorSpec.
Import LocalFs State Pelt Contact Rpc Discovery Mutation OpenFang Operator.
Import StateValidation (PeerRecord, pr_name).

(** ** Join sets *)

Lemma take_in {A} n (l : list A) x : x ∈ take n l → x ∈ l.
Proof. intros Hx. rewrite <- (take_drop n l). apply elem_of_app. by left. Qed.
Lemma drop_in {A} n (l : list A) x : x ∈ drop n l → x ∈ l.
Proof. intros Hx. rewrite <- (take_drop n l). apply elem_of_app. by right. Qed.

Section join.
Context {A R : Type}.

Lemma pick_in {B} i (l : list B) x l' : pick i l = Some (x, l') → x ∈ l ∧ l' ⊆ l.
Proof.
  unfold pick. set (j := (i mod length l)%nat). destruct (l !! j) as [y|] eqn:Hy; [|done]. cbn.
  intros [= <- <-]. split; [by eapply list_elem_of_lookup_2|]. intros z Hz.
  rewrite delete_take_drop, elem_of_app in Hz. destruct Hz as [Hz|Hz]; [by eapply take_in|by eapply drop_in].
Qed.

Lemma foldl_ind {B} (P : A → Prop) (f : A → B → A) l acc :
  (∀ x acc, x ∈ l → P acc → P (f acc x)) → P acc → P (foldl f acc l).
Proof.
  revert acc. induction l as [|x l IH]; intros acc Hf Ha; [done|]. cbn. apply IH.
  - intros y b Hy. apply Hf. by right.
  - apply Hf; [by left|done].
Qed.

Lemma join_batch_ind (P : A → Prop) on_join (events : schedule R) running acc :
  (∀ s e acc, s ∈ running → P acc → P (on_join s e acc)) → P acc →
  P (join_batch on_join events running acc).
Proof.
  revert running acc. induction events as [|[i e] events IH]; intros running acc Hj Ha; cbn [join_batch].
  - apply foldl_ind; [|done]. intros s b Hs. by apply Hj.
  - destruct (pick i running) as [[s running']|] eqn:Hp; [|done]. apply pick_in in Hp as [Hs Hr].
    apply IH; [|by apply Hj]. intros s' e' b Hs'. apply Hj. by apply Hr.
Qed.

Lemma pool_ind (P : A → Prop) on_spawn on_join (events : schedule R) running pending acc :
  (∀ s acc, s ∈ pending → P acc → P (on_spawn s acc)) →
  (∀ i s e acc, (i, e) ∈ events → s ∈ running ++ pending → P acc → P (on_join s e acc)) →
  P acc → P (pool on_spawn on_join events running pending acc).
Proof.
  revert running pending acc. induction events as [|[i e] events IH]; intros running pending acc Hs Hj Ha; cbn [pool];
    set (n := (ALPHA - length running)%nat).
  - apply foldl_ind; [|done]. intros s b ?%take_in. by apply Hs.
  - assert (P (foldl (λ acc seed, on_spawn seed acc) acc (take n pending))) as Ha1.
    { apply foldl_ind; [|done]. intros s b ?%take_in. by apply Hs. }
    destruct (pick i _) as [[s running']|] eqn:Hp; [|done]. apply pick_in in Hp as [Hin Hr].
    assert (running ++ take n pending ⊆ running ++ pending) as Hsub.
    { intros x. rewrite !elem_of_app. intros [?|?%take_in]; auto. }
    apply IH.
    + intros s' b ?%drop_in. by apply Hs.
    + intros i' s' e' b He' Hs'. apply (Hj i'); [by right|]. apply elem_of_app in Hs' as [Hs'|?%drop_in];
        [by apply Hsub, Hr|by apply elem_of_app; right].
    + apply (Hj i); [by left|by apply Hsub|done].
Qed.
End join.

Lemma set_status_names statuses name j : (set_status statuses name j).*1 = statuses.*1.
Proof. induction statuses as [|[p o] l IH]; [done|]. cbn. case_bool_decide; cbn; [done|by rewrite IH]. Qed.

(** ** The network phase of a sync *)

Section sync.
Context `{Crypto}.

(** The head after the statements, each of which must apply. *)
Fixpoint applies (h : Gov.Head) (l : list Gov.Statement) : option Gov.Head :=
  match l with
  | [] => Some h
  | s :: l => h' ← successor h s; applies h' l
  end.

Lemma applies_app h l1 l2 : applies h (l1 ++ l2) = (h' ← applies h l1; applies h' l2).
Proof. revert h. induction l1 as [|s l1 IH]; intros h; [done|]. cbn. destruct (successor h s); [apply IH|done]. Qed.
Lemma applies_snoc h l s h' : applies h l = Some h' → applies h (l ++ [s]) = successor h' s.
Proof. intros Hl. rewrite applies_app, Hl. cbn. by destruct (successor h' s). Qed.

Lemma valid_at_elem h cs s n : (s, n) ∈ valid_at h cs ↔ s ∈ cs ∧ successor h s = Some n.
Proof.
  unfold valid_at. rewrite list_elem_of_omap. split.
  - intros (x & Hx & Hs). destruct (successor h x) as [y|] eqn:E; [|done]. by injection Hs as <- <-.
  - intros [Hs Hn]. exists s. split; [done|]. by rewrite Hn.
Qed.

Notation hash_of := (λ s, Gov.core_hash s.(Gov.core)).

Lemma same_core_true a b : same_core a b = true ↔ hash_of a = hash_of b.
Proof. apply bool_decide_eq_true. Qed.

Lemma existsb_same cs s : existsb (λ c, same_core c s) cs = true ↔ hash_of s ∈ hash_of <$> cs.
Proof.
  rewrite existsb_exists, list_elem_of_fmap. split.
  - intros (c & Hc%list_elem_of_In & He%same_core_true). exists c. split; [done|done].
  - intros (c & He & Hc). exists c. split; [by apply list_elem_of_In|]. by apply same_core_true.
Qed.

Lemma candidates_nodup offers chosen p : NoDup (hash_of <$> candidates_at offers chosen p).
Proof.
  unfold candidates_at. apply foldl_ind; [|constructor]. intros o cs _ Hn. unfold add_candidate.
  destruct (o !! p) as [s|]; [|done]. destruct (agrees _ _ _); [|done]. destruct (existsb _ cs) eqn:He; [done|]. cbn.
  rewrite fmap_app. apply NoDup_app. split; [done|]. split; [|apply NoDup_singleton]. cbn.
  intros x Hx Hs%list_elem_of_singleton. subst x. apply existsb_same in Hx. congruence.
Qed.

Lemma valid_nodup h cs : NoDup (hash_of <$> cs) → NoDup (hash_of <$> (valid_at h cs).*1).
Proof.
  unfold valid_at. induction cs as [|c cs IH]; [done|]. cbn. intros [Hc Hn]%NoDup_cons.
  destruct (successor h c) as [n|]; cbn; [|by apply IH]. constructor; [|by apply IH].
  intros (x & Hx & ([y m] & -> & Hy)%list_elem_of_fmap)%list_elem_of_fmap. cbn in Hx.
  apply valid_at_elem in Hy as [Hy _]. apply Hc. apply list_elem_of_fmap. by exists y.
Qed.

(** A conflict is one: two statements that apply to the same head. *)
Definition real_conflict (h : Gov.Head) (a b : Gov.Statement) : Prop :=
  hash_of a ≠ hash_of b ∧ is_Some (successor h a) ∧ is_Some (successor h b).

Lemma walk_conflict offers fuel : ∀ position sim chosen prog a b,
  let x := walk fuel offers position (mkWalk sim chosen prog None) in
  x.(wk_conflict) = Some (a, b) → real_conflict x.(wk_simulated) a b.
Proof.
  induction fuel as [|fuel IH]; intros position sim chosen prog a b; [done|].
  cbn [walk wk_simulated wk_chosen wk_progressed wk_conflict].
  pose proof (valid_nodup sim _ (candidates_nodup offers chosen position)) as Hn.
  pose proof (valid_at_elem sim (candidates_at offers chosen position)) as He.
  destruct (valid_at sim _) as [|[s n] [|[s2 n2] v]]; [done|apply IH|]. intros [= <- <-]. split_and!.
  - cbn in Hn. apply NoDup_cons in Hn as [Hn _]. intros Heq. apply Hn. rewrite Heq. by left.
  - exists n. apply (He s n). by left.
  - exists n2. apply (He s2 n2). by right; left.
Qed.

Lemma walk_applies h offers fuel : ∀ position x, applies h x.(wk_chosen) = Some x.(wk_simulated) →
  let y := walk fuel offers position x in applies h y.(wk_chosen) = Some y.(wk_simulated).
Proof.
  induction fuel as [|fuel IH]; intros position x Hx; [done|]. cbn [walk].
  pose proof (valid_at_elem x.(wk_simulated) (candidates_at offers x.(wk_chosen) position)) as He.
  destruct (valid_at _ _) as [|[s n] [|[s2 n2] v]]; [done| |done]. apply IH. cbn [wk_chosen wk_simulated].
  rewrite (applies_snoc _ _ _ x.(wk_simulated)) by done. apply (He s n). by left.
Qed.

(** *** The loop ends *)

Lemma no_candidates offers chosen p : (max_list (length <$> offers) ≤ p)%nat → candidates_at offers chosen p = [].
Proof.
  intros Hp. unfold candidates_at. apply foldl_ind; [|done]. intros o cs Ho ->. unfold add_candidate.
  assert (length o ≤ max_list (length <$> offers))%nat as Hl by (apply max_list_elem_of_le, list_elem_of_fmap; by exists o).
  by rewrite (lookup_ge_None_2 o p) by lia.
Qed.

Lemma walk_enough offers fuel k : ∀ position x, (walk_fuel offers ≤ position + fuel)%nat →
  walk (fuel + k) offers position x = walk fuel offers position x.
Proof.
  unfold walk_fuel. induction fuel as [|fuel IH]; intros position x Hf.
  - destruct k as [|k]; [done|]. cbn [plus walk]. rewrite no_candidates by lia. done.
  - cbn [plus walk]. destruct (valid_at _ _) as [|[s n] [|]]; [done| |done]. apply IH. lia.
Qed.

(** *** A fork that is offered is reported *)

(** No copy of an offered statement is worse than another. *)
Definition no_worse_copy (offers : list (list Gov.Statement)) : Prop :=
  ∀ x y a b h, x ∈ offers → y ∈ offers → a ∈ x → b ∈ y → hash_of a = hash_of b → successor h a = successor h b.

Lemma candidates_offered offers chosen p c : c ∈ candidates_at offers chosen p → ∃ o, o ∈ offers ∧ c ∈ o.
Proof.
  unfold candidates_at.
  apply (foldl_ind (λ cs, c ∈ cs → ∃ o, o ∈ offers ∧ c ∈ o)); [|by intros ?%not_elem_of_nil].
  intros o cs Ho IH. unfold add_candidate. destruct (o !! p) as [s|] eqn:Hs; [|done].
  destruct (_ && _); [|done]. intros [?|Hc%list_elem_of_singleton]%elem_of_app; [auto|subst c].
  exists o. split; [done|]. by eapply list_elem_of_lookup_2.
Qed.

Lemma add_candidate_mono chosen p cs o h : h ∈ hash_of <$> cs → h ∈ hash_of <$> add_candidate chosen p cs o.
Proof.
  unfold add_candidate. destruct (o !! p); [|done]. destruct (_ && _); [|done]. rewrite fmap_app, elem_of_app. by left.
Qed.

(** An offer that agrees so far has its statement among the candidates. *)
Lemma candidate_of offers chosen p o s : o ∈ offers → o !! p = Some s → agrees chosen p o = true →
  ∃ c, c ∈ candidates_at offers chosen p ∧ hash_of c = hash_of s.
Proof.
  intros Ho Hs Ha. cut (hash_of s ∈ hash_of <$> candidates_at offers chosen p).
  { intros (c & Hc & ?)%list_elem_of_fmap. by exists c. }
  unfold candidates_at. generalize (@nil Gov.Statement). revert Ho.
  induction offers as [|o' l IH]; [by intros ?%not_elem_of_nil|]. intros Ho cs. cbn [foldl].
  apply elem_of_cons in Ho as [<-|Ho]; [|by apply IH].
  assert (hash_of s ∈ hash_of <$> add_candidate chosen p cs o) as Hin.
  { unfold add_candidate. rewrite Hs, Ha. cbn. destruct (existsb _ cs) eqn:He; cbn.
    - by apply existsb_same.
    - rewrite fmap_app, elem_of_app. right. by left. }
  revert Hin. generalize (add_candidate chosen p cs o). clear. induction l as [|o' l IH]; [done|].
  intros cs Hin. cbn. apply IH. by apply add_candidate_mono.
Qed.

Definition same_cores (l1 l2 : list Gov.Statement) : Prop := hash_of <$> l1 = hash_of <$> l2.

Lemma agrees_tail prior ext o : same_cores ext (take (length ext) o) →
  agrees (prior ++ ext) (length ext) o = true.
Proof.
  intros He. unfold agrees. rewrite length_app.
  replace (length prior + length ext - length ext)%nat with (length prior) by lia. rewrite drop_app_length.
  revert He. generalize (take (length ext) o) as l. unfold same_cores. induction ext as [|a ext IH]; intros [|b l]; try done.
  cbn. intros [= He Hr]. rewrite IH by done. rewrite andb_true_r. apply same_core_true. by symmetry.
Qed.

Lemma take_S_same ext o s c : same_cores ext (take (length ext) o) → o !! length ext = Some s → hash_of c = hash_of s →
  same_cores (ext ++ [c]) (take (length (ext ++ [c])) o).
Proof.
  intros He Hs Hc. rewrite length_app. cbn. rewrite Nat.add_1_r, (take_S_r _ _ s) by done. unfold same_cores.
  rewrite !fmap_app. cbn. by rewrite He, Hc.
Qed.

Lemma valid_copy offers chosen p o s sim n :
  no_worse_copy offers → o ∈ offers → o !! p = Some s → agrees chosen p o = true → successor sim s = Some n →
  ∃ c, (c, n) ∈ valid_at sim (candidates_at offers chosen p) ∧ hash_of c = hash_of s.
Proof.
  intros Hw Ho Hs Ha Hn. destruct (candidate_of _ _ _ _ _ Ho Hs Ha) as (c & Hc & Hh). exists c. split; [|done].
  apply valid_at_elem. split; [done|]. destruct (candidates_offered _ _ _ _ Hc) as (y & Hy & Hcy).
  rewrite <- Hn. eapply Hw; [exact Hy|exact Ho|done|by eapply list_elem_of_lookup_2|done].
Qed.

Lemma fuel_left offers o p s fuel : o ∈ offers → o !! p = Some s → (walk_fuel offers ≤ p + fuel)%nat →
  ∃ fuel', fuel = S fuel' ∧ (walk_fuel offers ≤ S p + fuel')%nat.
Proof.
  intros Ho Hs Hf. apply lookup_lt_Some in Hs.
  assert (length o ≤ max_list (length <$> offers))%nat by (apply max_list_elem_of_le, list_elem_of_fmap; by exists o).
  unfold walk_fuel in *. destruct fuel as [|fuel]; [lia|]. exists fuel. split; [done|lia].
Qed.

Section fork.
Context (offers : list (list Gov.Statement)) (o1 o2 : list Gov.Statement) (s1 s2 : Gov.Statement) (k : nat)
  (prior : list Gov.Statement) (hk : Gov.Head).
Context (Hcopies : no_worse_copy offers) (Ho1 : o1 ∈ offers) (Ho2 : o2 ∈ offers)
  (Hs1 : o1 !! k = Some s1) (Hs2 : o2 !! k = Some s2) (Hsame : same_cores (take k o1) (take k o2))
  (Hne : hash_of s1 ≠ hash_of s2) (Hv1 : is_Some (successor hk s1)) (Hv2 : is_Some (successor hk s2)).

Lemma walk_at_fork ext fuel prog : length ext = k → same_cores ext (take k o1) → (walk_fuel offers ≤ k + fuel)%nat →
  is_Some (walk fuel offers k (mkWalk hk (prior ++ ext) prog None)).(wk_conflict).
Proof.
  intros Hk Hext Hf. destruct (fuel_left _ _ _ _ _ Ho1 Hs1 Hf) as (fuel' & -> & _).
  cbn [walk wk_simulated wk_chosen wk_progressed].
  destruct Hv1 as [n1 Hn1], Hv2 as [n2 Hn2].
  destruct (valid_copy offers (prior ++ ext) k o1 s1 hk n1) as (c1 & Hc1 & Hh1); [done..| |done|].
  { rewrite <- Hk. apply agrees_tail. by rewrite Hk. }
  destruct (valid_copy offers (prior ++ ext) k o2 s2 hk n2) as (c2 & Hc2 & Hh2); [done..| |done|].
  { rewrite <- Hk. apply agrees_tail. rewrite Hk. unfold same_cores in *. congruence. }
  destruct (valid_at hk _) as [|[a na] [|[b nb] v]]; [by apply not_elem_of_nil in Hc1| |by eexists].
  apply list_elem_of_singleton in Hc1, Hc2. congruence.
Qed.

Lemma walk_finds_fork d : ∀ ext fuel sim prog, (length ext + d = k)%nat → same_cores ext (take (length ext) o1) →
  applies sim (drop (length ext) (take k o1)) = Some hk → (walk_fuel offers ≤ length ext + fuel)%nat →
  is_Some (walk fuel offers (length ext) (mkWalk sim (prior ++ ext) prog None)).(wk_conflict).
Proof.
  induction d as [|d IH]; intros ext fuel sim prog Hd Hext Hap Hf.
  - rewrite Nat.add_0_r in Hd. rewrite Hd in *. rewrite drop_ge in Hap by (rewrite length_take; lia).
    injection Hap as ->. by apply walk_at_fork.
  - destruct (lookup_lt_is_Some_2 o1 (length ext)) as [t Ht]; [apply lookup_lt_Some in Hs1; lia|].
    rewrite (drop_S _ t) in Hap by (rewrite lookup_take_lt by lia; done). cbn [applies] in Hap.
    destruct (successor sim t) as [n|] eqn:Hn; [|done]. cbn in Hap.
    destruct (fuel_left _ _ _ _ _ Ho1 Ht Hf) as (fuel' & -> & Hf'). cbn [walk wk_simulated wk_chosen wk_progressed wk_conflict].
    destruct (valid_copy offers (prior ++ ext) (length ext) o1 t sim n) as (c & Hc & Hh); [done..|by apply agrees_tail|done|].
    destruct (valid_at sim _) as [|[a na] [|[b nb] v]]; [by apply not_elem_of_nil in Hc| |by eexists].
    apply list_elem_of_singleton in Hc. injection Hc as <- <-. rewrite <- (assoc_L app).
    replace (S (length ext)) with (length (ext ++ [c])) in * by (rewrite length_app; cbn; lia).
    apply IH; [rewrite length_app; cbn; lia|by eapply take_S_same|done|done].
Qed.
End fork.

(** A fork that the offers show is reported. Take any round of a sync:
    if two of the peers' offers agree on their first [k] statements, these
    apply in order to the simulated head, and the two then hold different
    statements that both apply to the head reached, the walk ends with a
    conflict, two different statements that apply to the head it reached:
    provided that no offered copy of a statement fails where another copy of
    it applies. *)
Theorem offered_fork_reported offers o1 o2 k s1 s2 h hk chosen :
  no_worse_copy offers → o1 ∈ offers → o2 ∈ offers → o1 !! k = Some s1 → o2 !! k = Some s2 →
  same_cores (take k o1) (take k o2) → applies h (take k o1) = Some hk →
  real_conflict hk s1 s2 →
  let x := walk (walk_fuel offers) offers 0 (mkWalk h chosen false None) in
  ∃ a b, x.(wk_conflict) = Some (a, b) ∧ real_conflict x.(wk_simulated) a b.
Proof.
  intros Hc Ho1 Ho2 Hs1 Hs2 Hsame Hap (Hne & Hv1 & Hv2) x.
  destruct (walk_finds_fork offers o1 o2 s1 s2 k chosen hk Hc Ho1 Ho2 Hs1 Hs2 Hsame Hne Hv1 Hv2 k []
    (walk_fuel offers) h false) as [[a b] Hx]; [done|done|by rewrite drop_0|done|].
  rewrite app_nil_r in Hx. exists a, b. split; [done|]. by apply walk_conflict.
Qed.

(** *** A copy without its signatures hides the others *)

(** C39: one bad copy hides a statement, and a fork. The candidates of a
    sequence number are told apart by the hash of their core, which does not
    cover the signatures, before any is verified. So if the first peer that
    answers offers a statement with signatures that do not verify, a valid
    copy of it from another peer is not considered: alone it would be
    chosen, now nothing is. And of two valid successors, which must be
    recorded as a fork, the other one is chosen without a conflict. *)
Theorem bad_copy_hides h bad good rival n n' :
  same_core bad good = true → same_core good rival = false →
  successor h bad = None → successor h good = Some n → successor h rival = Some n' →
  let round offers := walk (walk_fuel offers) offers 0 (mkWalk h [] false None) in
  round [[good]] = mkWalk n [good] true None
  ∧ round [[bad]; [good]] = mkWalk h [] false None
  ∧ round [[good]; [rival]] = mkWalk h [] false (Some (good, rival))
  ∧ round [[bad]; [good]; [rival]] = mkWalk n' [rival] true None.
Proof.
  intros Hbg Hgr Hb Hg Hr round.
  assert (same_core bad rival = false) as Hbr.
  { apply not_true_iff_false. intros Hx%same_core_true. apply not_true_iff_false in Hgr. apply Hgr, same_core_true.
    apply same_core_true in Hbg. congruence. }
  unfold round, walk_fuel. cbn. unfold candidates_at, add_candidate. cbn.
  rewrite ?Hbg, ?Hgr, ?Hbr. cbn. rewrite ?Hbr. cbn. unfold valid_at. cbn. rewrite ?Hb, ?Hg, ?Hr. cbn. done.
Qed.

(** *** All rounds *)

Context `{Base64}.
Import GovCodec (statement_ok).

(** A statement of some peer's answer in some round. *)
Definition offered (rounds : nat → schedule (list Gov.Statement)) (s : Gov.Statement) : Prop :=
  ∃ r i host l, (i, Replied host (Ok l)) ∈ rounds r ∧ s ∈ l.
(** The answers are lists of decoded statements, as [verify_governance]
    returns them. *)
Definition decoded_replies (rounds : nat → schedule (list Gov.Statement)) : Prop :=
  ∀ s, offered rounds s → statement_ok s.

Section from.
Variable from : Gov.Statement → Prop.

Lemma sync_offers transport events seeds statuses :
  (∀ i host l, (i, Replied host (Ok l)) ∈ events → Forall from l) →
  let x := pool (λ _ acc, acc) (sync_joined transport) events [] seeds (statuses, []) in
  x.1.*1 = statuses.*1 ∧ Forall (Forall from) x.2.
Proof.
  intros He. cbn zeta. apply pool_ind; [done| |by split]. intros i s e [st offers] Hin _ [Hn Ho]. cbn [fst snd] in *.
  unfold sync_joined. destruct e as [host reply| |]; [|done|done].
  unfold query. destruct (dial host s transport) as [d|reason]; cbn [mbind result_bind].
  2: { cbn [fst snd]. by rewrite set_status_names. }
  destruct reply as [l|e]; cbn [map_err fst snd]; rewrite set_status_names; (split; [done|]); [|done].
  case_bool_decide; [done|]. apply Forall_app. split; [done|]. apply Forall_singleton. by eapply He.
Qed.

Lemma walk_from offers fuel : ∀ position x, Forall (Forall from) offers → Forall from x.(wk_chosen) →
  x.(wk_conflict) = None →
  let y := walk fuel offers position x in
  Forall from y.(wk_chosen) ∧ ∀ a b, y.(wk_conflict) = Some (a, b) → from a ∧ from b.
Proof.
  induction fuel as [|fuel IH]; intros position x Ho Hx Hc; cbn zeta; [cbn; split; [done|intros; congruence]|]. cbn [walk].
  assert (∀ s n, (s, n) ∈ valid_at x.(wk_simulated) (candidates_at offers x.(wk_chosen) position) → from s) as Hv.
  { intros s n [(o & Hin & Hs)%candidates_offered _]%valid_at_elem. rewrite Forall_forall in Ho. specialize (Ho o Hin).
    rewrite Forall_forall in Ho. by apply Ho. }
  destruct (valid_at _ _) as [|[s n] [|[s2 n2] v]].
  - split; [done|intros; congruence].
  - apply IH; [done| |done]. cbn [wk_chosen]. apply Forall_app. split; [done|]. apply Forall_singleton. apply (Hv s n). by left.
  - cbn [wk_chosen wk_conflict]. split; [done|]. intros a b [= <- <-].
    split; [apply (Hv s n); by left|apply (Hv s2 n2); by right; left].
Qed.

(** What the rounds choose. *)
Definition sync_choice (h : Gov.Head) (chosen : list Gov.Statement) (conflict : option (Gov.Statement * Gov.Statement)) : Prop :=
  Forall from chosen ∧ ∃ sim, applies h chosen = Some sim ∧
    ∀ a b, conflict = Some (a, b) → real_conflict sim a b ∧ from a ∧ from b.

Lemma sync_rounds_choice h rounds seeds transport n :
  (∀ r i host l, (i, Replied host (Ok l)) ∈ rounds r → Forall from l) → ∀ round statuses sim chosen,
  applies h chosen = Some sim → Forall from chosen →
  let '(st, ch, cf) := sync_rounds n rounds round seeds transport statuses sim chosen in
  st.*1 = statuses.*1 ∧ sync_choice h ch cf.
Proof.
  intros Hd. induction n as [|n IH]; intros round statuses sim chosen Ha Hok; cbn [sync_rounds].
  { split; [done|]. split; [done|]. by exists sim. }
  pose proof (sync_offers transport (rounds round) seeds statuses (Hd round)) as Hp.
  destruct (pool _ _ _ _ _ _) as [st offers]. cbn [fst snd] in Hp. destruct Hp as [Hst Hof]. cbn zeta.
  set (x := walk _ _ _ _).
  pose proof (walk_applies h offers (walk_fuel offers) 0 (mkWalk sim chosen false None) Ha) as Hwa.
  pose proof (walk_from offers (walk_fuel offers) 0 (mkWalk sim chosen false None) Hof Hok eq_refl) as [Hwo Hwc].
  pose proof (walk_conflict offers (walk_fuel offers) 0 sim chosen false) as Hwr. cbn zeta in *. fold x in Hwa, Hwo, Hwc, Hwr.
  destruct (wk_conflict x) as [[a b]|].
  - split; [done|]. split; [done|]. exists (wk_simulated x). split; [done|]. intros a' b' [= <- <-].
    split; [by apply Hwr|by apply Hwc].
  - destruct (_ || _); [split; [done|]; split; [done|]; by exists (wk_simulated x)|].
    specialize (IH (S round) st (wk_simulated x) (wk_chosen x) Hwa Hwo).
    destruct (sync_rounds _ _ _ _ _ _ _ _) as [[st' ch] cf]. destruct IH as [IH ?]. split; [congruence|done].
Qed.
End from.
End sync.

(** ** The sync as a whole *)

Section apply.
Context `{!Crypto} `{!Base64} `{!Base64Laws} `{!MutationJson} `{!Serde Tombstone.Document} `{!Den D} `{!DenWipe D}.
Context (cleanup_ok : str → bool).
Import MutationSpec Triple.

Lemma sync_decode_b64 s : GovCodec.statement_ok s → sync_decode (b64_statement s) = Some s.
Proof. intros Hs. unfold sync_decode, b64_statement. cbn. rewrite b64_decode_encode. cbn. by rewrite GovCodec.decode_encode. Qed.

Lemma sync_decodes l : Forall GovCodec.statement_ok l → mapM sync_decode (b64_statement <$> l) = Some l.
Proof.
  intros Hl. apply mapM_Some. induction Hl as [|s l Hs _ IH]; constructor; [by apply sync_decode_b64|done].
Qed.

Section head.
Context (head next : Gov.Head).
Notation at_head h := (λ w : World D, w.(live).(l_governance) = Some h).
Notation reached := (λ w : World D, w.(live).(l_governance) = Some head ∨ w.(live).(l_governance) = Some next).
Notation ok := (Triple.ok reached).

Lemma g_run {E A} h (m : World D → A * World D) : (∀ w, pair_of (m w).2.(live) = pair_of w.(live)) →
  ok (at_head h) (run m : em D E A) (λ _, at_head h).
Proof.
  intros K. apply ok_run with (Q := λ _, at_head h). intros w Hw. specialize (K w). unfold pair_of in K. injection K as _ K. congruence.
Qed.
Lemma g_saved {E} h m (r : E) : (h = head ∨ h = next) → (∀ w : World D, pair_of (m w).2.(live) = pair_of w.(live)) →
  ok (at_head h) (saved m r) (λ _, at_head h).
Proof.
  intros Hh K. apply ok_saved. intros w Hw. specialize (K w). unfold pair_of in K. injection K as _ K.
  destruct (m w) as [[]]; cbn in *; [congruence|]. destruct Hh as [->| ->]; [left|right]; congruence.
Qed.
Lemma head_leave_if {E} h b (r : E) : (h = head ∨ h = next) → ok (at_head h) (leave_if b r) (λ _, at_head h).
Proof.
  intros Hh. eapply ok_weaken; [apply (ok_leave_if (at_head h))|done|by intros ? w [? _]].
  intros w Hw. destruct Hh as [->| ->]; auto.
Qed.
Lemma head_or {E A} h (o : option A) (r : E) : (h = head ∨ h = next) → ok (at_head h) (or_leave o r) (λ _, at_head h).
Proof.
  intros Hh. eapply ok_weaken; [apply (ok_some (at_head h))|done|by intros ? w [? _]].
  intros w Hw. destruct Hh as [->| ->]; auto.
Qed.
Lemma head_get {E A} h (f : DaemonState → A) : ok (at_head h) (get f : em D E A) (λ _, at_head h).
Proof. by intros w Hw. Qed.

(** A statement that applies is published, or the head stays. *)
Lemma apply_statement_head s : successor head s = Some next →
  ok (at_head head) (apply_statement cleanup_ok s None) (λ _, at_head next).
Proof.
  intros Hs. unfold apply_statement.
  apply (ok_bind _ _ (λ h w, at_head head w ∧ h = Some head)); [by intros w Hw|]. intros h.
  apply ok_pure. intros ->. unfold successor in Hs.
  apply (ok_bind _ _ (λ _, at_head head)); [apply head_get|]. intros gen.
  apply (ok_bind _ _ (λ _, at_head head)); [apply head_get|]. intros peers.
  apply (ok_bind _ _ (λ _, at_head head)); [apply head_or; by left|]. intros g.
  destruct (Gov.apply (Some head) s None) as [[next'| |]|]; try done. injection Hs as ->.
  apply (ok_bind _ _ (λ _, at_head head)); [apply g_run, pair_archive|]. intros archived.
  apply (ok_bind _ _ (λ _, at_head head)); [apply head_leave_if; by left|]. intros _. cbn zeta.
  apply (ok_bind _ _ (λ _, at_head head)); [apply head_get|]. intros own.
  apply (ok_bind _ _ (λ _, at_head head)).
  { apply g_run. intros w. match goal with |- context [deny_step ?b ?r ?l] => pose proof (core_deny_step b r l) as C end.
    destruct (deny_step _ _ _) as [o l]. by apply pair_core. }
  intros denied. apply (ok_bind _ _ (λ _, at_head head)); [apply head_or; by left|]. intros [closed reopen].
  apply (ok_bind _ _ (λ _, at_head head)); [apply g_saved; [by left|intros w; apply pair_commit]|]. intros _.
  apply (ok_bind _ _ (λ _, at_head next)); [by apply ok_upd|]. intros _.
  apply (ok_bind _ _ (λ _, at_head next)).
  { apply g_run. intros w. match goal with |- context [remove_all ?r ?l] => pose proof (pair_remove_all r l) as K end.
    by destruct (remove_all _ _). }
  intros published. apply (ok_bind _ _ (λ _, at_head next)); [apply head_leave_if; by right|]. intros _.
  apply (ok_bind _ _ (λ _, at_head next)); [apply head_leave_if; by right|]. intros _.
  case_bool_decide; [apply g_run, pair_die|].
  apply (ok_bind _ _ (λ _, at_head next)); [|intros _; by apply ok_ret].
  destruct (_ && _); [|by apply ok_ret]. apply ok_upd. intros w Hw. cbn. by destruct (silver_active _), reopen.
Qed.
End head.

(** The loop follows the statements, and stops at one that is refused in the
    state it is applied to. *)
Lemma sync_loop_head l : ∀ head h' applied (w : World D), applies head l = Some h' → w.(live).(l_governance) = Some head →
  let '((_, stop), w') := sync_loop cleanup_ok l applied w in
  match stop with
  | None => w'.(live).(l_governance) = Some h'
  | Some e => ∃ q s rest h1 (w1 : World D), l = q ++ s :: rest ∧ applies head q = Some h1 ∧
      w1.(live).(l_governance) = Some h1 ∧ apply_statement cleanup_ok s None w1 = (Err e, w') ∧
      (w'.(live).(l_governance) = Some h1 ∨ w'.(live).(l_governance) = successor h1 s)
  end.
Proof.
  induction l as [|s l IH]; intros head h' applied w Ha Hw; cbn [sync_loop]; [by injection Ha as <-|].
  cbn [applies] in Ha. destruct (successor head s) as [next|] eqn:Hs; [|done]. cbn in Ha.
  pose proof (apply_statement_head head next s Hs w Hw) as K.
  destruct (apply_statement cleanup_ok s None w) as [[r|stop] w'] eqn:He.
  - specialize (IH next h' (applied ++ [r]) w' Ha K). destruct (sync_loop _ _ _ _) as [[ap [stop|]] w2]; [|done].
    destruct IH as (q & t & rest & h1 & w1 & -> & Hq & Hw1 & Hf & Hg). exists (s :: q), t, rest, h1, w1.
    split_and!; try done. cbn. by rewrite Hs.
  - exists [], s, l, head, w. rewrite Hs. by split_and!.
Qed.

Lemma resolve_sync_inv operator lock rounds req s req' :
  resolve_sync operator lock rounds req s = Ok req' →
  is_silver s = false ∧ dying_refusal req s = None ∧ ∃ head statuses chosen conflict, s.(l_governance) = Some head ∧ head.(Gov.forked) = false ∧
    sync_choice (offered rounds) head chosen conflict ∧ req' = sync_request req.(rq_id) statuses chosen conflict.
Proof.
  unfold resolve_sync. destruct (dying_refusal req s); [done|].
  destruct (transport_arg req) as [transport|]; cbn [mbind result_bind]; [|done].
  destruct (is_silver s) eqn:Hsilver; [done|]. destruct (l_pelt s); cbn [ok_or mbind result_bind]; [|done].
  destruct (l_governance s) as [head|]; cbn [ok_or mbind result_bind]; [|done].
  destruct (Gov.forked head) eqn:Hf; [done|]. destruct (negb _); [done|]. cbn zeta.
  destruct (unknown_member _ _); [done|].
  assert (∀ r i host l, (i, Replied host (Ok l)) ∈ rounds r → Forall (offered rounds) l) as Hd.
  { intros r i host l Hin. apply Forall_forall. intros x Hx. by exists r, i, host, l. }
  pose proof (sync_rounds_choice (offered rounds) head rounds (seeds_for (arg req (lit "peer")) s) transport ROUNDS Hd 0
    (not_queried (seeds_for (arg req (lit "peer")) s)) head [] eq_refl (List.Forall_nil _)) as Hc.
  destruct (sync_rounds _ _ _ _ _ _ _ _) as [[st ch] cf]. intros [= <-]. split; [done|]. split; [done|].
  exists head, st, ch, cf. by destruct Hc.
Qed.

(** Two statements that apply to the head, with different cores. *)
Lemma record_conflict_head a b h (w : World D) : w.(live).(l_governance) = Some h → real_conflict h a b →
  let '((code, _), w') := record_conflict [a; b] w in
  (w'.(live).(l_governance) = Some h ∨ w'.(live).(l_governance) = Some (Gov.set_forked h)) ∧
  (is_Some w'.(live).(l_generation) → code = lit "GOVERNANCE_FORK").
Proof.
  intros Hw (Hne & [na Ha] & [nb Hb]). unfold record_conflict. rewrite Hw.
  destruct (l_generation (live w)) as [g|] eqn:Hg; [|split; [by left|]; rewrite Hg; by intros []].
  unfold successor in Ha, Hb. rewrite bool_decide_eq_false_2 by done.
  destruct (Gov.apply (Some h) a None) as [[| |]|]; try done. destruct (Gov.apply (Some h) b None) as [[| |]|]; try done.
  cbn [orb negb]. split; [|done]. unfold fence.
  match goal with |- context [commit_protected g ?c w] => pose proof (pair_commit g c w) as E;
    destruct (commit_protected g c w) as [[] w'] end; cbn in *; [by right|]. unfold pair_of in E. injection E as _ E. left. congruence.
Qed.

(** The code an answer of [governance.sync_apply] reports as stopping it. *)
Definition stop_of (r : ControlResponse) : option str :=
  v ← r.(rs_result); as_str (j_get (j_get v (lit "stopped")) (lit "code")).

End apply.

(** ** The lookup *)

Section lookup.
Context `{!Crypto} `{!Base64} (sha256 : list byte → array 32).
Context (peers : list PeerRecord) (own : array 32) (transport : str) (target : array 32) (hops : nat → Hop) (seeds : list Seed).
Context (Hseeds : NoDup (se_key <$> seeds)).

(** Where a seed of the shortlist comes from. *)
Definition sourced (learned : list ContactRecord) (s : Seed) : Prop :=
  s ∈ seeds ∨ ∃ r, r ∈ learned ∧ r.(public_key) ≠ own ∧ s.(se_key) = r.(public_key) ∧
    from_record r (label sha256 r peers) transport = Some s.

Record bounded (l : Lookup) : Prop := mkBounded {
  bo_keys : NoDup (se_key <$> l.(shortlist));
  bo_sources : Forall (sourced l.(lk_learned)) l.(shortlist);
  bo_asked : NoDup l.(asked);
  bo_known : l.(asked) ⊆ (se_key <$> l.(shortlist))
}.

Lemma sourced_mono m m' s : m ⊆ m' → sourced m s → sourced m' s.
Proof. intros Hm [?|(r & Hr & ?)]; [by left|]. right. exists r. split; [by apply Hm|done]. Qed.

Lemma from_record_key r name s : from_record r name transport = Some s → s.(se_key) = r.(public_key).
Proof.
  unfold from_record. destruct (list_find _ _) as [[i a]|]; cbn; [|done].
  destruct (fingerprint_from_public_key_b64 _); cbn; [|done]. by intros [= <-].
Qed.

Lemma learn_record_bounded l r : bounded l → bounded (learn_record sha256 own peers transport l r).
Proof.
  intros [Hk Hs Ha Hn]. unfold learn_record.
  assert (Forall (sourced (lk_learned l ++ [r])) l.(shortlist)) as Hs'.
  { eapply Forall_impl; [done|]. intros s. apply sourced_mono. set_solver. }
  destruct (bool_decide (public_key r = own) || _) eqn:E; [by split|].
  apply orb_false_iff in E as [Eo Ek]. apply bool_decide_eq_false in Eo.
  destruct (from_record r (label sha256 r peers) transport) as [s|] eqn:Hr; [|by rewrite app_nil_r; split].
  pose proof (from_record_key _ _ _ Hr) as Hkey. split; cbn [shortlist lk_learned asked option_list].
  - rewrite fmap_app. apply NoDup_app. split; [done|]. split; [|apply NoDup_singleton]. cbn.
    intros x (s' & -> & Hs1)%list_elem_of_fmap Hx%list_elem_of_singleton. apply not_true_iff_false in Ek. apply Ek.
    apply existsb_exists. exists s'. split; [by apply list_elem_of_In|]. apply bool_decide_eq_true. congruence.
  - apply Forall_app. split; [done|]. apply Forall_singleton. right. exists r. split_and!; [set_solver|done..].
  - done.
  - rewrite fmap_app. set_solver.
Qed.

Lemma learn_record_asked l r : (learn_record sha256 own peers transport l r).(asked) = l.(asked).
Proof. done. Qed.

Lemma joined_bounded hop s e l : bounded l → bounded (lookup_joined sha256 own peers transport hop s e l)
  ∧ (lookup_joined sha256 own peers transport hop s e l).(asked) = l.(asked).
Proof.
  intros Hl. unfold lookup_joined. destruct e as [host reply| |]; [|by destruct Hl|done].
  destruct (query s transport host reply) as [records|reason]; [|by destruct Hl].
  pose proof (foldl_ind (λ x, bounded x ∧ x.(asked) = l.(asked)) (learn_record sha256 own peers transport) records l) as K.
  destruct K as [K1 K2]; [|done|].
  - intros r x _ [Hx <-]. split; [by apply learn_record_bounded|done].
  - destruct K1. split; [by split|done].
Qed.

Lemma NoDup_take_filter_keys (P : Seed → Prop) `{!∀ s, Decision (P s)} n m l :
  NoDup (se_key <$> l) → NoDup (se_key <$> take n (filter P (take m l))).
Proof.
  intros Hl. eapply sublist_NoDup; [exact Hl|]. apply fmap_sublist.
  etrans; [apply sublist_take|]. etrans; [apply sublist_filter|]. apply sublist_take.
Qed.

Lemma next_batch_fresh l : bounded l → (length l.(asked) ≤ MAX_QUERIES)%nat →
  let l2 := mkLookup l.(shortlist) (l.(asked) ++ (se_key <$> next_batch l)) l.(lk_statuses) l.(lk_learned) in
  bounded l2 ∧ (length l2.(asked) ≤ MAX_QUERIES)%nat ∧ (length (next_batch l) ≤ ALPHA)%nat.
Proof.
  intros [Hk Hs Ha Hn] Hq. cbn zeta. cbn [asked].
  assert (length (next_batch l) ≤ Nat.min ALPHA (MAX_QUERIES - length (asked l)))%nat as Hb.
  { unfold next_batch. rewrite length_take. apply Nat.le_min_l. }
  assert (∀ s, s ∈ next_batch l → s ∈ l.(shortlist) ∧ s.(se_key) ∉ l.(asked)) as Hin.
  { unfold next_batch. intros s Hs1%take_in. apply list_elem_of_filter in Hs1 as [? ?%take_in]. done. }
  split; [|split; [rewrite length_app, length_fmap; unfold MAX_QUERIES, ALPHA in *; lia|lia]].
  split; cbn [shortlist asked lk_learned]; [done|done| |].
  - apply NoDup_app. split; [done|]. split; [|by apply NoDup_take_filter_keys].
    intros x Hx (s & -> & Hs1)%list_elem_of_fmap. by apply Hin in Hs1 as [_ ?].
  - intros x [?|(s & -> & Hs1)%list_elem_of_fmap]%elem_of_app; [by apply Hn|]. apply list_elem_of_fmap.
    exists s. split; [done|]. by apply Hin in Hs1 as [? _].
Qed.

Lemma sort_bounded l : bounded l → bounded (mkLookup (sort_by_key (distance sha256 target) l.(shortlist)) l.(asked) l.(lk_statuses) l.(lk_learned)).
Proof.
  intros [Hk Hs Ha Hn]. pose proof (sort_by_key_perm (distance sha256 target) (shortlist l)) as Hp.
  split; cbn [shortlist asked lk_learned]; [by rewrite Hp|by rewrite Hp|done|]. intros x Hx%Hn. by rewrite Hp.
Qed.

Lemma hops_bounded n : ∀ hop l, bounded l → (length l.(asked) ≤ MAX_QUERIES)%nat →
  let l' := lookup_hops sha256 peers own transport target hops n hop l in
  bounded l' ∧ (length l'.(asked) ≤ MAX_QUERIES)%nat ∧ (length l'.(asked) ≤ length l.(asked) + n * ALPHA)%nat.
Proof.
  induction n as [|n IH]; intros hop l Hl Hq; cbn zeta; [split_and!; [done|done|apply Nat.le_add_r]|]. cbn [lookup_hops].
  set (l1 := mkLookup (sort_by_key _ _) _ _ _). assert (bounded l1) as Hl1 by (by apply sort_bounded).
  destruct (_ || _); [split_and!; [done|done|cbn; lia]|].
  destruct (next_batch_fresh l1 Hl1 Hq) as (Hl2 & Hq2 & Hb). set (l2 := mkLookup _ (_ ++ _) _ _) in *.
  pose proof (join_batch_ind (λ x, bounded x ∧ x.(asked) = l2.(asked)) (lookup_joined sha256 own peers transport hop)
    (hops hop).(hop_events) (next_batch l1) l2) as K.
  destruct K as [Hl3 Ha3].
  { intros s e x _ [Hx <-]. by apply joined_bounded. }
  { done. }
  set (l3 := join_batch _ _ _ _) in *.
  assert (length (asked l3) ≤ length (asked l) + ALPHA)%nat as Hlen.
  { rewrite Ha3. unfold l2. cbn [asked]. rewrite length_app, length_fmap. change (asked l1) with (asked l). lia. }
  destruct (existsb _ _); [split_and!; [done|by rewrite Ha3|lia]|].
  destruct (IH (S hop) l3 Hl3) as (? & ? & ?); [by rewrite Ha3|]. split_and!; [done|done|lia].
Qed.

(** A lookup is bounded, whatever the nodes it asks answer. It asks at
    most [MAX_QUERIES] nodes, no node twice, at most three in a hop; it
    never dials its own key unless the Pack lists it; and every node that
    is not a Pack member is dialled at an address its signed record
    advertises for the chosen transport and pinned to that record's key. *)
Theorem lookup_bounded : let l := lookup sha256 peers own transport target hops seeds in
  NoDup l.(asked) ∧ (length l.(asked) ≤ MAX_QUERIES)%nat ∧
  ∀ key, key ∈ l.(asked) → ∃ s, s.(se_key) = key ∧
    (s ∈ seeds ∨ key ≠ own ∧ ∃ r, r ∈ l.(lk_learned) ∧ r.(public_key) = key ∧ s.(se_address) ∈ r.(addresses) ∧
       starts_with s.(se_address) (transport ++ lit "://") = true ∧ s.(se_path) = Direct ∧
       s.(se_expected).(ex_public_key_b64) = Some (b64_encode (array_bytes key))).
Proof.
  intros l. assert (bounded l ∧ (length l.(asked) ≤ MAX_QUERIES)%nat) as [[Hk Hs Ha Hn] Hq].
  { unfold l, lookup. pose proof (hops_bounded MAX_HOPS 1 (mkLookup seeds [] [] [])) as K. cbn zeta in K.
    destruct K as (K1 & K2 & _); [|cbn; lia|exact (conj K1 K2)].
    split; cbn [shortlist asked lk_learned]; [done| |constructor|by intros ? ?%not_elem_of_nil]. apply Forall_forall. by left. }
  clearbody l. split_and!; [done|done|]. intros key (s & -> & Hin)%Hn%list_elem_of_fmap. exists s. split; [done|].
  rewrite Forall_forall in Hs. destruct (Hs s Hin) as [?|(r & Hr & Ho & Hkey & Hf)]; [by left|]. right.
  rewrite Hkey. split; [done|]. exists r. split; [done|]. split; [done|]. revert Hf. unfold from_record.
  destruct (list_find _ _) as [[i a]|] eqn:Hl; cbn; [|done]. apply list_find_Some in Hl as (Hl & Hp & _).
  destruct (fingerprint_from_public_key_b64 _); cbn; [|done]. intros [= <-]. cbn.
  split_and!; [by eapply list_elem_of_lookup_2|done..].
Qed.
End lookup.
End OperatorSpec.
