(* ===== verification/Control.v ===== *)
(** * The control server ([werewolfd/src/control.rs])

    [Module Control]: the dispatch of a request after admission, every
    command of the control socket included, and what the client loop does
    with a request before that. The commands that change the node are those
    of Mutation, the ones that open a Fang those of OpenFang.

    What one request finds beside the state is its [Env]: the arguments of
    the modules it calls, what the network answers, the name resolver, the
    clock, the scheduler's record, the den paths. *)

From stdpp Require Import gmap.
From S2P Require Export Operator.
From S2P Require Export ControlLimits.

Local Open Scope Z_scope.

Module Control.
Import LocalFs State Pelt Mutation OpenFang.
Import StateValidation (PeerRecord, pr_name, pr_fingerprint, pr_address, trust, TrustLevel, pr_public_key_b64,
  FangProfile, fp_name, fp_peer).
#[local] Existing Instance Authority.peer_authority_eq_dec.

(** ** JSON of the data that is listed ([#[derive(Serialize)]]) *)

Definition mode_json (m : WolfMode) : Json :=
  JStr match m with Human => lit "Human" | Wolf => lit "Wolf" | Silver => lit "Silver" end.
Definition trust_json (t : TrustLevel) : Json :=
  JStr match t with
       | StateValidation.Stranger => lit "Stranger"
       | StateValidation.Known => lit "Known"
       | StateValidation.Packmate => lit "Packmate"
       | StateValidation.Alpha => lit "Alpha"
       end.
Definition fang_state_json (f : Fangs.FangState) : Json :=
  JStr match f with Fangs.Opening => lit "Opening" | Fangs.Active => lit "Active" | Fangs.Closed => lit "Closed" end.
Definition peer_json (p : PeerRecord) : Json :=
  JObj [(lit "name", JStr (pr_name p)); (lit "fingerprint", JStr (pr_fingerprint p));
    (lit "address", JStr (pr_address p)); (lit "trust", trust_json (trust p));
    (lit "public_key_b64", AutoSync.opt_json JStr (pr_public_key_b64 p))].
Definition profile_json (p : FangProfile) : Json :=
  JObj [(lit "name", JStr (fp_name p)); (lit "peer", JStr (fp_peer p)); (lit "local", JStr (StateValidation.local p));
    (lit "remote", JStr (StateValidation.remote p)); (lit "transport", JStr (StateValidation.transport p))].
Definition service_json (s : Service.ServiceDefinition) : Json :=
  JObj ([(lit "name", JStr s.(Service.sd_name)); (lit "peer", JStr s.(Service.sd_peer));
    (lit "target", JStr s.(Service.sd_target)); (lit "kind", Operator.kind_json s.(Service.sd_kind))]
    ++ if bool_decide (s.(Service.fallbacks) = []) then []
       else [(lit "fallbacks", JArr ((λ p, JObj [(lit "peer", JStr p.(Service.sp_peer));
               (lit "target", JStr p.(Service.sp_target))]) <$> s.(Service.fallbacks)))]).
Definition route_json (r : Route.Route) : Json :=
  JObj [(lit "peer", JStr r.(Route.r_peer)); (lit "via", JStr r.(Route.via));
    (lit "hop", JStr (Route.as_str r.(Route.hop)))].

(** [Authority::summary]. *)
Definition summary (a : Authority.Authority) : Json :=
  if a.(Authority.poisoned) then JObj [(lit "healthy", JBool false); (lit "locked", JBool true)]
  else
    let g := a.(Authority.gate) in
    let pending := filter (λ x : array 8 * Authority.Generation,
      x.2.(Authority.state) = Authority.RuntimeDeniedPendingDurability) (map_to_list g.(Authority.peers)) in
    JObj [(lit "healthy", JBool true); (lit "locked", JBool g.(Authority.locked));
      (lit "epoch", JNum g.(Authority.epoch));
      (lit "establishing", num (Authority.count_sessions (λ e, negb e.(Authority.active)) g.(Authority.sessions)));
      (lit "active", num (Authority.count_sessions Authority.active g.(Authority.sessions)));
      (lit "pending_durability", JArr (JStr <$> sort_by_key id (show_fingerprint <$> pending.*1)))].

Record Config : Type := mkConfig {
  den_socket : str;
  den_home : str;
  den_listen : str;
  den_quic_listen : str
}.

(** What one request finds beside the state: the arguments of a mutation,
    those of an open, the resolver, the monotonic clock in milliseconds, the
    scheduler's record. *)
Record Env (D : Type) : Type := mkEnv {
  e_secret : array 32;
  e_tls_ok : PeltIdentity → bool;
  e_sha256 : list byte → array 32;
  e_now : Z;
  e_cleanup_ok : str → bool;
  e_opening : Opening;
  e_net : Operator.NetEnv (D := D);
  e_rounds : nat → Operator.schedule (list Gov.Statement);
  e_offered : Operator.Ended (list Published.PublishedService);
  e_resolver : str → Z → option (list SocketAddr);
  e_instant : Z;
  e_sync : AutoSync.Runtime;
  e_config : Config
}.
Arguments e_secret {D} _.
Arguments e_tls_ok {D} _.
Arguments e_sha256 {D} _.
Arguments e_now {D} _.
Arguments e_cleanup_ok {D} _.
Arguments e_opening {D} _.
Arguments e_net {D} _.
Arguments e_rounds {D} _.
Arguments e_offered {D} _.
Arguments e_resolver {D} _.
Arguments e_instant {D} _.
Arguments e_sync {D} _.
Arguments e_config {D} _.

Section control.
Context `{Crypto} `{Base64} `{MutationJson} `{Serde Tombstone.Document} `{DenWipe D}.
Notation Env := (Env D).

Definition raw_arg (req : ControlRequest) (field : str) : str := default [] (as_str (j_get req.(rq_args) field)).

(** ** Queries *)

Definition den_info (env : Env) (s : DaemonState) : Json :=
  let c := env.(e_config) in
  JObj [(lit "socket", JStr c.(den_socket)); (lit "home", JStr c.(den_home)); (lit "listen", JStr c.(den_listen));
    (lit "quic_listen", JStr c.(den_quic_listen)); (lit "storage_degraded", JBool s.(l_degraded));
    (lit "inbound_authority", summary s.(l_authority)); (lit "mode", mode_json s.(l_status).(mode));
    (lit "pelt_ready", JBool s.(l_status).(pelt_ready)); (lit "packmates", num (length s.(l_peers)));
    (lit "fang_profiles", num (length s.(l_profiles))); (lit "active_fangs", num (Fangs.len s.(l_registry)));
    (lit "silver", JStr s.(l_status).(silver)); (lit "hide", JStr s.(l_status).(hide))].

Definition set_packmates (n : nat) (s : DaemonState) : DaemonState :=
  let t := s.(l_status) in
  set_status (mkStatus t.(mode) t.(pelt_ready) n t.(active_fangs) t.(silver) t.(hide)) s.

Definition status_json (env : Env) (s : DaemonState) : Json :=
  let c := env.(e_config) in
  let lifecycle := if s.(l_dying) then lit "DYING"
                   else match s.(l_status).(mode) with Silver => lit "LOCKED" | _ => lit "READY" end in
  let listener := JStr (if s.(l_status).(pelt_ready) then lit "configured" else lit "waiting_for_pelt") in
  JObj [(lit "lifecycle", JStr lifecycle); (lit "storage_degraded", JBool s.(l_degraded));
    (lit "inbound_authority", summary s.(l_authority)); (lit "mode", mode_json s.(l_status).(mode));
    (lit "pelt_ready", JBool s.(l_status).(pelt_ready));
    (lit "fingerprint", AutoSync.opt_json (λ p, JStr p.(fingerprint)) s.(l_pelt));
    (lit "protected_state_generation", AutoSync.opt_json JNum s.(l_generation));
    (lit "packmates", num (length s.(l_peers))); (lit "fang_profiles", num (length s.(l_profiles)));
    (lit "active_fangs", num (Fangs.len s.(l_registry))); (lit "silver", JStr s.(l_status).(silver));
    (lit "hide", JStr s.(l_status).(hide)); (lit "listen", JStr c.(den_listen));
    (lit "quic_listen", JStr c.(den_quic_listen)); (lit "tcp_listener_state", listener);
    (lit "quic_listener_state", listener)].

(** [head.keys()]; a loaded head has a key epoch, and [apply] keeps it so. *)
Definition current_keys (head : Gov.Head) : list Key :=
  match Gov.keys (E := ()) head with Ok l => l | Err _ => [] end.

Definition governance_json (env : Env) (s : DaemonState) : Json :=
  let tail := [(lit "lifecycle", Terminal.lifecycle s); (lit "auto_sync", AutoSync.status s env.(e_sync) env.(e_instant))] in
  let keys l := JArr ((λ k, JStr (b64_encode (array_bytes k))) <$> l) in
  match s.(l_governance) with
  | None => JObj ((lit "genesis", JBool false) :: tail)
  | Some head =>
      JObj ([(lit "genesis", JBool true); (lit "network_id", JStr (hex (array_bytes head.(Gov.h_network_id))));
        (lit "sequence", JNum head.(Gov.h_sequence)); (lit "hash", JStr (hex (array_bytes head.(Gov.h_hash))));
        (lit "threshold", JNum (byte_val head.(Gov.h_threshold))); (lit "keys", keys (current_keys head));
        (lit "revoked", keys head.(Gov.revoked)); (lit "forked", JBool head.(Gov.forked));
        (lit "roster", keys head.(Gov.roster)); (lit "activated_at", AutoSync.opt_json JNum head.(Gov.activated_at));
        (lit "admitted", JBool (negb (NodeGovernance.unadmitted s.(l_governance) s.(l_pelt))));
        (lit "dead_at", AutoSync.opt_json JNum head.(Gov.dead_at))] ++ tail)
  end.

(** [target_policy::authorize]. *)
Definition visible_to (env : Env) (s : DaemonState) (target : str) : list str :=
  pr_name <$> filter (λ p, is_ok (TargetPolicy.authorize_with_resolver env.(e_resolver) s.(l_policy)
                                    (pr_fingerprint p) target) = true) s.(l_peers).

Definition service_published (env : Env) (s : DaemonState) : Json :=
  JArr ((λ x, JObj [(lit "name", JStr x.(Published.ps_name)); (lit "kind", Operator.kind_json x.(Published.kind));
    (lit "target", JStr x.(Published.target)); (lit "visible_to", JArr (JStr <$> visible_to env s x.(Published.target)))])
    <$> s.(l_published)).

Definition target_list (s : DaemonState) : Json :=
  JArr ((λ x, JObj [(lit "peer_fingerprint", JStr x.1); (lit "targets", JArr ((λ t, JStr (show_socket_addr t)) <$> x.2))])
    <$> TargetPolicy.grants_for_display s.(l_policy)).

Definition find_service (name : str) (s : DaemonState) : option Service.ServiceDefinition :=
  snd <$> list_find (λ x, x.(Service.sd_name) = name) s.(l_services).

Definition service_not_found (id name : str) : ControlResponse :=
  response_err id (lit "SERVICE_NOT_FOUND") (lit "Service not found: " ++ name).

(** [finished_ids] and [remove_finished], as [fang.cleanup] and [fang.list]
    begin. *)
Definition sweep (s : DaemonState) : nat * DaemonState :=
  let dead := Fangs.finished_ids (s.(l_registry), s.(l_runtime)) in
  let g := Fangs.remove_finished dead s.(l_registry) in
  (length dead, set_active_fangs (Fangs.len g) (set_registry g s)).

Definition fang_json (env : Env) (s : DaemonState) (f : Fangs.FangRecord) : Json :=
  let id := f.(Fangs.f_id) in
  JObj [(lit "id", JStr id); (lit "peer", JStr f.(Fangs.f_peer)); (lit "local", JStr f.(Fangs.f_local));
    (lit "remote", JStr f.(Fangs.f_remote)); (lit "state", fang_state_json f.(Fangs.f_state));
    (lit "transport", JStr (default (lit "unknown") (Fangs.transport_of s.(l_registry) id)));
    (lit "uptime_seconds", JNum match Fangs.started_at s.(l_registry) id with
                                | Some t => AutoSync.since env.(e_instant) t / 1000
                                | None => 0
                                end)].

(** ** Fangs *)

(** The Fang is one of a profile. *)
Definition of_profile (f : Fangs.FangRecord) (p : FangProfile) : bool :=
  bool_decide (fp_peer p = f.(Fangs.f_peer)) && bool_decide (StateValidation.local p = f.(Fangs.f_local))
  && bool_decide (StateValidation.remote p = f.(Fangs.f_remote)).

Definition deactivate_profile (req : ControlRequest) : hm D ControlResponse :=
  let name := arg req (lit "name") in
  _ ← leave_if (bool_decide (name = []))
        (response_err req.(rq_id) (lit "FANG_PROFILE_INVALID") (lit "name is required"));
  active ← get l_active;
  _ ← leave_if (negb (bool_decide (name ∈ active)))
        (response_err req.(rq_id) (lit "FANG_PROFILE_NOT_ACTIVE") (lit "Fang profile is not active"));
  _ ← saved (persist_active (filter (λ p, p ≠ name) active))
        (response_err req.(rq_id) (lit "ACTIVE_SAVE_FAILED") (lit "activation change rejected"));
  s ← get (λ s : DaemonState, s);
  let ids := Fangs.f_id <$> filter (λ f, existsb (λ p, bool_decide (fp_name p = name) && of_profile f p) s.(l_profiles) = true)
               s.(l_registry).(Fangs.fangs) in
  _ ← upd (λ s,
    let '(_, (g, r)) := Fangs.terminate_ids ids (s.(l_registry), s.(l_runtime)) in
    let s1 := set_active_fangs (Fangs.len g) (set_runtime r (set_registry g s)) in
    if Fangs.is_empty g && match s1.(l_status).(mode) with Silver => false | _ => true end then set_mode Human s1 else s1);
  mret (response_ok req.(rq_id) (JObj [(lit "status", JStr (lit "profile_deactivated")); (lit "name", JStr name);
    (lit "closed_fangs", num (length ids))])).

Definition close_entries (id : str) (s : DaemonState) : DaemonState :=
  let g := Fangs.retain_records (λ f, negb (bool_decide (f.(Fangs.f_id) = id))) s.(l_registry) in
  let '(task, g1) := Fangs.remove_task id g in
  let r1 := match task with Some t => Fangs.abort t s.(l_runtime) | None => s.(l_runtime) end in
  let '(cancellation, g2) := Fangs.remove_cancellation id g1 in
  let r2 := match cancellation with Some c => Fangs.abort_children c r1 | None => r1 end in
  let g3 := Fangs.remove_started id g2 in
  let s1 := set_active_fangs (Fangs.len g3) (set_runtime r2 (set_registry g3 s)) in
  if Fangs.is_empty g3 then set_mode Human s1 else s1.

Definition close_fang (req : ControlRequest) : hm D ControlResponse :=
  let id := arg req (lit "fang_id") in
  s ← get (λ s : DaemonState, s);
  _ ← leave_if (bool_decide (id = [])) (response_err req.(rq_id) (lit "FANG_INVALID") (lit "fang_id is required"));
  fang ← or_leave (Fangs.find_id s.(l_registry) id)
           (response_err req.(rq_id) (lit "FANG_NOT_FOUND") (lit "Fang not found"));
  let candidate := filter (λ name, existsb (λ p, bool_decide (fp_name p = name) && of_profile fang p) s.(l_profiles) = false)
                     s.(l_active) in
  _ ← (if bool_decide (candidate = s.(l_active)) then mret ()
       else saved (persist_active candidate)
              (response_err req.(rq_id) (lit "ACTIVE_SAVE_FAILED") (lit "close rejected")));
  _ ← upd (close_entries id);
  n ← get (λ s, Fangs.len s.(l_registry));
  mret (response_ok req.(rq_id) (JObj [(lit "status", JStr (lit "closed")); (lit "active_fangs", num n)])).

(** ** Silver *)

Definition silver_error (req : ControlRequest) (code : str) : ControlResponse :=
  response_err req.(rq_id) code (lit "local state mutation rejected").

(** Everything a running node has open is closed. *)
Definition enter_silver (s : DaemonState) : DaemonState :=
  let '(g, r) := Fangs.abort_all (s.(l_registry), s.(l_runtime)) in
  set_silver (lit "active") (set_mode Silver (set_active_fangs 0
    (set_runtime r (set_registry (Fangs.clear_records (Fangs.clear_started g)) s)))).

Definition silver_trigger (req : ControlRequest) : hm D ControlResponse :=
  epoch ← run (λ w, let '(a, e) := Authority.lock w.(live).(l_authority) in (e, on_live (set_authority a) w));
  _ ← or_leave epoch (silver_error req (lit "SILVER_FAILED"));
  _ ← saved (persist_silver true) (silver_error req (lit "SILVER_SAVE_FAILED"));
  _ ← upd enter_silver;
  mret (response_ok req.(rq_id) (JObj [(lit "status", JStr (lit "silver_active"));
    (lit "message", JStr (lit "Silver mode active. New Fangs rejected."))])).

(** An unadmitted node stays fenced. *)
Definition reopen (fenced : bool) (expected : Z) (w : World D) : option () * World D :=
  if fenced then (Some (), w)
  else let '(a, r) := Authority.locking (Authority.open_after_durable expected) w.(live).(l_authority) in
       (r, on_live (set_authority a) w).

Definition silver_reset (req : ControlRequest) : hm D ControlResponse :=
  epoch ← get (λ s, (Authority.locking Authority.epoch_of s.(l_authority)).2);
  let expected := default 0 epoch in
  _ ← saved (persist_silver false) (silver_error req (lit "SILVER_SAVE_FAILED"));
  fenced ← get (λ s, NodeGovernance.unadmitted s.(l_governance) s.(l_pelt));
  opened ← run (reopen fenced expected);
  _ ← or_leave opened (silver_error req (lit "SILVER_SUPERSEDED"));
  _ ← upd (λ s, set_silver (lit "armed") (set_mode Human s));
  mret (response_ok req.(rq_id) (JObj [(lit "status", JStr (lit "silver_reset"));
    (lit "message", JStr (lit "Silver reset. Wolf returned to Human mode."))])).

(** ** Opening *)

Definition service_connect (env : Env) (req : ControlRequest) : hm D ControlResponse :=
  let name := raw_arg req (lit "name") in
  _ ← leave_if (bool_decide (name = [])) (response_err req.(rq_id) (lit "SERVICE_INVALID") (lit "name is required"));
  found ← get (find_service name);
  service ← or_leave found (service_not_found req.(rq_id) name);
  let local := arg req (lit "local") in
  let transport := Policy.requested_transport (as_str (j_get req.(rq_args) (lit "transport"))) in
  if bool_decide (service.(Service.fallbacks) = [])
  then open_fang_from_parts env.(e_opening) req.(rq_id) service.(Service.sd_peer) local service.(Service.sd_target) transport
  else open_provider_fang env.(e_opening) req.(rq_id) service local transport.

Definition open_profile (env : Env) (req : ControlRequest) : hm D ControlResponse :=
  let name := arg req (lit "name") in
  _ ← leave_if (bool_decide (name = []))
        (response_err req.(rq_id) (lit "FANG_PROFILE_INVALID") (lit "name is required"));
  found ← get (λ s, snd <$> list_find (λ p, fp_name p = name) s.(l_profiles));
  p ← or_leave found (response_err req.(rq_id) (lit "FANG_PROFILE_NOT_FOUND") (lit "Fang profile not found: " ++ name));
  open_fang_with_profile env.(e_opening) req.(rq_id) (fp_peer p) (StateValidation.local p) (StateValidation.remote p)
    (StateValidation.transport p) (Some name).

(** ** The dispatch *)

Definition answers (req : ControlRequest) (f : DaemonState → Json) : hm D ControlResponse :=
  s ← get (λ s : DaemonState, s); mret (response_ok req.(rq_id) (f s)).

(** The commands of [control.rs] itself. *)
Definition own_command (env : Env) (req : ControlRequest) : hm D ControlResponse :=
  if is_cmd req (lit "den.info") then answers req (den_info env)
  else if is_cmd req (lit "status") then
    _ ← upd (λ s, set_active_fangs (Fangs.len s.(l_registry)) (set_packmates (length s.(l_peers)) s));
    answers req (status_json env)
  else if is_cmd req (lit "pelt.fingerprint") then
    pelt ← get l_pelt;
    p ← or_leave pelt (response_err req.(rq_id) (lit "NO_PELT") (lit "No identity exists. Run pelt.init first."));
    mret (response_ok req.(rq_id) (JObj [(lit "fingerprint", JStr p.(fingerprint)); (lit "public_key_b64", JStr p.(public_key_b64))]))
  else if is_cmd req (lit "service.list") then answers req (λ s, JArr (service_json <$> s.(l_services)))
  else if is_cmd req (lit "route.list") then answers req (λ s, JArr (route_json <$> s.(l_routes)))
  else if is_cmd req (lit "governance.status") then answers req (governance_json env)
  else if is_cmd req (lit "service.published") then answers req (service_published env)
  else if is_cmd req (lit "service.show") then
    let name := raw_arg req (lit "name") in
    _ ← leave_if (bool_decide (name = [])) (response_err req.(rq_id) (lit "SERVICE_INVALID") (lit "name is required"));
    found ← get (find_service name);
    service ← or_leave found (service_not_found req.(rq_id) name);
    mret (response_ok req.(rq_id) (service_json service))
  else if is_cmd req (lit "service.connect") then service_connect env req
  else if is_cmd req (lit "pack.list") then answers req (λ s, JArr (peer_json <$> s.(l_peers)))
  else if is_cmd req (lit "target.list") then answers req target_list
  else if is_cmd req (lit "fang.open") then
    open_fang_from_parts env.(e_opening) req.(rq_id) (arg req (lit "peer")) (arg req (lit "local")) (arg req (lit "remote"))
      (Policy.requested_transport (as_str (j_get req.(rq_args) (lit "transport"))))
  else if is_cmd req (lit "fang.profile.list") then answers req (λ s, JArr (profile_json <$> s.(l_profiles)))
  else if is_cmd req (lit "fang.open_profile") then open_profile env req
  else if is_cmd req (lit "fang.deactivate_profile") then deactivate_profile req
  else if is_cmd req (lit "silver.trigger") then silver_trigger req
  else if is_cmd req (lit "silver.reset") then silver_reset req
  else if is_cmd req (lit "fang.cleanup") then
    removed ← run (λ w, let '(n, s) := sweep w.(live) in (n, mkWorld s w.(disk)));
    n ← get (λ s, Fangs.len s.(l_registry));
    mret (response_ok req.(rq_id) (JObj [(lit "status", JStr (lit "cleanup_done")); (lit "removed", num removed);
      (lit "active_fangs", num n)]))
  else if is_cmd req (lit "fang.list") then
    _ ← upd (λ s, (sweep s).2);
    answers req (λ s, JArr (fang_json env s <$> s.(l_registry).(Fangs.fangs)))
  else if is_cmd req (lit "fang.close") then close_fang req
  else leave (response_err req.(rq_id) (lit "UNKNOWN_CMD") (lit "Unknown command: " ++ req.(rq_cmd))).

Definition dispatch_request (env : Env) (req : ControlRequest) (w : World D) : ControlResponse * World D :=
  match Operator.dying_refusal req w.(live) with
  | Some refusal => (refusal, w)
  | None =>
      if ControlLimits.mutates req.(rq_cmd) && w.(live).(l_degraded)
      then (response_err req.(rq_id) (lit "STORAGE_DEGRADED") (lit "operator intervention required"), w)
      else if Mutation.handles req.(rq_cmd)
      then handle env.(e_secret) env.(e_tls_ok) env.(e_config).(den_home) env.(e_sha256) env.(e_now) env.(e_cleanup_ok) req w
      else if Operator.handles req.(rq_cmd) then Operator.handle env.(e_sha256) env.(e_net) req w
      else answer (own_command env req) w
  end.

(** ** The client loop *)

(** The commands that ask peers before they are admitted: the request to
    admit, or the answer. Meanwhile the node goes on. *)
Definition resolve_first (env : Env) (req : ControlRequest) (w : World D)
    : result ControlResponse ControlRequest * World D :=
  let after x := (x, env.(e_net).(Operator.ne_meanwhile) w) in
  if is_cmd req (lit "governance.sync")
  then after (Operator.resolve_sync true env.(e_net).(Operator.ne_lock) env.(e_rounds) req w.(live))
  else if one_of req [lit "service.add_from"; lit "service.provider.add_from"]
  then after (Operator.resolve_add_from env.(e_offered) req w.(live))
  else (Ok req, w).

(** One request of a client, from its line: the answer, and whether the
    connection goes on. *)
Definition client_line (json_tree : list byte → option Json) (env : Env) (line : list byte) (w : World D)
    : ControlResponse * bool * World D :=
  match ControlLimits.parse json_tree line with
  | Err _ => (response_err (lit "unknown") (lit "BAD_REQUEST") (lit "invalid control request"), false, w)
  | Ok req =>
      if is_cmd req (lit "governance.sync_apply")
      then (response_err req.(rq_id) (lit "BAD_REQUEST") (lit "invalid control request"), true, w)
      else
        match resolve_first env req w with
        | (Err response, w1) => (response, true, w1)
        | (Ok req1, w1) =>
            let '(response, w2) := dispatch_request env req1 w1 in
            (response, negb w2.(live).(l_exit_requested), w2)
        end
  end.

End control.
End Control.
