(* ===== verification/ControlSpec.v ===== *)
(** * What the control server guarantees ([werewolfd/src/control.rs])

    [Module ControlSpec]: every request is a sequence of the administrative
    steps of MutationSpec, so what those keep holds of a node under any
    sequence of client requests; what is refused and what a success has done
    to the node and the disk; a Fang is opened only through the gates. *)

From stdpp Require Import gmap.
From S2P Require Export Control.
From S2P Require Export OperatorSpec.

Local Open Scope Z_scope.

Module ControlSpec.
Import LocalFs State Pelt Mutation OpenFang Control.
Import MutationSpec Triple.
Import StateValidation (PeerRecord, pr_name, FangProfile, fp_name, fp_peer).

Section served.
Context `{!Crypto} `{!Base64} `{!MutationJson} `{!Serde Tombstone.Document} `{!Den D} `{!DenWipe D}.

(** ** Requests as administrative steps *)

Section steps.
Context (tls_ok : PeltIdentity → bool) (sha256 : list byte → array 32) (w0 : World D).
Notation reach := (rtc (admin tls_ok sha256) w0).
Notation keeps := (Triple.keeps reach).

Lemma a_step w w' : admin tls_ok sha256 w w' → reach w → reach w'.
Proof. intros Hs Hw. by eapply rtc_r. Qed.
Lemma a_other w s : persistent s = persistent w.(live) → reach w → reach (mkWorld s w.(disk)).
Proof. intros Hp. apply a_step. by constructor. Qed.
Lemma a_upd {E} f : (∀ s, persistent (f s) = persistent s) → keeps (upd f : em D E ()).
Proof. intros Hf. apply k_upd. intros w Hw. apply (a_other w); [apply Hf|done]. Qed.
Lemma a_run {E A} (m : World D → A * World D) :
  (∀ w, ∃ s, (m w).2 = mkWorld s w.(disk) ∧ persistent s = persistent w.(live)) → keeps (run m : em D E A).
Proof. intros Hm. apply k_run. intros w Hw. destruct (Hm w) as (s & -> & Hs). by apply (a_other w). Qed.

Lemma gates_steps id : keeps (open_gates id).
Proof. unfold open_gates. repeat keep_step. Qed.
Lemma local_free_steps id local : keeps (local_free id local).
Proof. unfold local_free. repeat keep_step. Qed.

Lemma abort_steps {E} t : keeps (run (λ w, ((), abort_listener t w)) : em D E ()).
Proof. apply a_run. intros w. eexists. by split. Qed.

Lemma listen_steps id o : keeps (listen id o).
Proof.
  unfold listen. apply k_bind; [apply a_run; intros w; eexists; by split|]. intros t.
  destruct (o_ready o); repeat first [apply abort_steps|keep_step].
Qed.

Lemma activate_steps id o act t fang tr uses : keeps (activate id o act t fang tr uses).
Proof.
  unfold activate. apply k_bind.
  { apply k_run. intros w Hw. unfold persist_activation. destruct act as [name|]; [|done].
    eapply a_step; [apply A_active|done]. }
  intros saved. apply k_bind; [destruct saved; repeat first [apply abort_steps|keep_step]|]. intros _.
  apply k_bind; [by apply a_upd|]. intros _. unfold release. destruct (o_released o); [apply k_ret|].
  apply k_bind; [apply k_upd; intros w; apply a_step; constructor|]. intros _. apply k_leave.
Qed.

Ltac open_step := first [apply listen_steps|apply activate_steps|apply gates_steps|apply local_free_steps|keep_step].

Lemma open_steps o id peer local remote tr act : keeps (open_fang_with_profile o id peer local remote tr act).
Proof. unfold open_fang_with_profile. repeat open_step. Qed.
Lemma open_provider_steps o id service local tr : keeps (open_provider_fang o id service local tr).
Proof. unfold open_provider_fang. repeat open_step. Qed.

Lemma sweep_persistent s : persistent (sweep s).2 = persistent s.
Proof. done. Qed.

Lemma close_entries_persistent id s : persistent (close_entries id s) = persistent s.
Proof.
  unfold close_entries. cbn zeta. destruct (Fangs.remove_task _ _) as [t g1]. destruct (Fangs.remove_cancellation _ _) as [c g2].
  by destruct (Fangs.is_empty _).
Qed.

Lemma enter_silver_persistent s : persistent (enter_silver s) = persistent s.
Proof. unfold enter_silver. by destruct (Fangs.abort_all _). Qed.

Lemma saved_active_steps {E} candidate (r : E) : keeps (saved (persist_active candidate) r).
Proof. apply k_saved. intros w. apply a_step, A_active. Qed.
Lemma saved_silver_steps {E} locked (r : E) : keeps (saved (persist_silver locked) r).
Proof. apply k_saved. intros w. apply a_step, A_silver. Qed.

Lemma own_command_steps env req : keeps (own_command env req).
Proof.
  unfold own_command, answers, service_connect, open_profile, deactivate_profile, close_fang, silver_trigger, silver_reset,
    open_fang_from_parts. cbn zeta.
  repeat first [ apply open_steps | apply open_provider_steps | apply saved_active_steps | apply saved_silver_steps | keep_step ];
    try (apply a_upd; intros s; first [done | apply close_entries_persistent | apply enter_silver_persistent]).
  - apply a_upd. intros s. destruct (Fangs.terminate_ids _ _) as [n [g r]]. by destruct (_ && _).
  - apply a_run. intros w. destruct (Authority.lock _) as [a e]. eexists. by split.
  - apply a_run. intros w. unfold reopen. match goal with |- context [if ?b then _ else _] => destruct b end;
      [by exists w.(live); destruct w|].
    destruct (Authority.locking _ _) as [au r]. eexists. by split.
  - apply a_run. intros w. eexists. by split.
Qed.

(** *** Discovery *)

Lemma remember_steps identity learned now w : reach w → reach (Operator.remember sha256 identity learned now w).2.
Proof.
  intros Hw. unfold Operator.remember. cbn zeta. case_bool_decide; [done|]. destruct (l_degraded _); [done|].
  match goal with |- context [persist_discovery_cache ?c w] =>
    pose proof (A_cache tls_ok sha256 c w) as K; destruct (persist_discovery_cache c w) as [[] w'] end; cbn [snd] in *.
  - apply (a_other w'); [done|]. by eapply a_step.
  - by eapply a_step.
Qed.

Lemma refresh_own_advertised c pelt now : (Discovery.refresh_own sha256 c pelt now).(Discovery.advertised) = c.(Discovery.advertised).
Proof. unfold Discovery.refresh_own. case_bool_decide; [done|]. by destruct (Discovery.is_current _ _ _). Qed.

Lemma operator_steps e req w : (∀ w, reach w → reach (e.(Operator.ne_meanwhile) w)) → reach w →
  reach (Operator.handle sha256 e req w).2.
Proof.
  intros Hm Hw. unfold Operator.handle. destruct (is_cmd _ _).
  { unfold Operator.show_own. destruct (l_pelt _) as [pelt|]; [|done]. cbn [snd]. apply (a_other w); [|done].
    unfold persistent. cbn. by rewrite refresh_own_advertised. }
  destruct (is_cmd _ _); [done|]. destruct (is_cmd _ _); [done|]. unfold Operator.network. cbn zeta.
  match goal with |- context [match ?x with Ok _ => _ | Err _ => _ end] => destruct x as [[[tr target] identity]|] end; [|done].
  destruct (negb _); [done|]. match goal with |- context [let '(_, _) := ?x in _] => destruct x as [outcomes learned] end.
  pose proof (remember_steps identity learned e.(Operator.ne_now) _ (Hm w Hw)) as K.
  by destruct (Operator.remember _ _ _ _ _) as [cached w2].
Qed.
End steps.

(** What the rest of the node does while a request asks the network: other
    administrative steps. *)
Definition administered (env : Env D) : Prop :=
  ∀ w, rtc (admin env.(e_tls_ok) env.(e_sha256)) w (env.(e_net).(Operator.ne_meanwhile) w).

Lemma dispatch_steps env req w : administered env →
  rtc (admin env.(e_tls_ok) env.(e_sha256)) w (dispatch_request env req w).2.
Proof.
  intros Hm. unfold dispatch_request. destruct (Operator.dying_refusal _ _); [done|]. destruct (_ && _); [done|].
  destruct (Mutation.handles _); [apply rtc_once; constructor|]. destruct (Operator.handles _).
  - apply operator_steps; [|done]. intros w' Hw'. etrans; [exact Hw'|apply Hm].
  - unfold answer. pose proof (own_command_steps env.(e_tls_ok) env.(e_sha256) w env req w (rtc_refl _ _)) as K.
    by destruct (own_command env req w) as [[]].
Qed.

Lemma client_line_steps tree env line w : administered env →
  rtc (admin env.(e_tls_ok) env.(e_sha256)) w (client_line tree env line w).2.
Proof.
  intros Hm. unfold client_line. destruct (ControlLimits.parse _ _) as [req|]; [|done]. destruct (is_cmd _ _); [done|].
  assert (rtc (admin env.(e_tls_ok) env.(e_sha256)) w (resolve_first env req w).2) as K.
  { unfold resolve_first. cbn zeta. destruct (is_cmd _ _); [apply Hm|]. by destruct (one_of _ _); [apply Hm|]. }
  destruct (resolve_first env req w) as [[req1|r] w1]; [|done]. pose proof (dispatch_steps env req1 w1 Hm) as K2.
  destruct (dispatch_request env req1 w1) as [resp w2]. cbn [snd] in *. by etrans.
Qed.

(** ** What may change without admission *)

(** Everything but the counters of the status and the records of Fangs that
    have ended. *)
Definition kept (s : DaemonState) :=
  (persistent s, s.(l_authority), s.(l_runtime), s.(l_contacts), (s.(l_tls), s.(l_tls_ready), s.(l_dying)),
   (s.(l_status).(mode), s.(l_status).(pelt_ready), s.(l_status).(silver), s.(l_status).(hide))).

Definition read_only (w w' : World D) : Prop :=
  w'.(disk) = w.(disk) ∧ kept w'.(live) = kept w.(live) ∧
  (w'.(live).(l_registry) = w.(live).(l_registry) ∨
   w'.(live).(l_registry) =
     Fangs.remove_finished (Fangs.finished_ids (w.(live).(l_registry), w.(live).(l_runtime))) w.(live).(l_registry)).

Lemma read_only_refl w : read_only w w.
Proof. split_and!; [done|done|by left]. Qed.

Lemma handled_mutates cmd : Mutation.handles cmd = true → ControlLimits.mutates cmd = true.
Proof.
  unfold Mutation.handles, ControlLimits.mutates. rewrite !bool_decide_eq_true. revert cmd.
  assert (Forall (λ c, c ∈ ControlLimits.mutating) Mutation.handled) as K by (apply (bool_decide_unpack _); by vm_compute).
  by rewrite Forall_forall in K.
Qed.

Lemma cmd_mutates req c : is_cmd req c = true → ControlLimits.mutates c = true → ControlLimits.mutates req.(rq_cmd) = true.
Proof. unfold is_cmd. rewrite bool_decide_eq_true. by intros ->. Qed.

(** The commands of [control.rs] that are not in the table only look. *)
Lemma own_command_reads env req w : ControlLimits.mutates req.(rq_cmd) = false →
  read_only w (answer (own_command env req) w).2.
Proof.
  intros Hm. unfold answer, own_command.
  repeat match goal with |- context [if is_cmd req ?c then _ else _] =>
    let E := fresh in destruct (is_cmd req c) eqn:E;
      [first [exfalso; apply (cmd_mutates _ _) in E; [congruence|by vm_compute] | clear E]|clear E] end.
  all: cbn zeta; unfold answers, mbind, em_bind, get, upd, run, leave_if, or_leave, mret, em_ret, Mutation.leave.
  all: repeat case_match; simplify_eq; try apply read_only_refl.
  - split_and!; [done|done|by left].
  - split_and!; [done|done|by right].
Qed.

(** A request that may not change the node does not. A command that is
    not in the table of mutations (so that it is neither serialized nor
    refused on degraded storage), any command on a node that reports degraded
    storage, and any command on a dying node leave the Den and the state as
    they were, but for the counters of the status and the records of Fangs
    that have ended. The discovery commands are apart: they may write the
    contact cache. *)
Theorem read_only_requests env req (w : World D) :
  Operator.handles req.(rq_cmd) = false →
  ControlLimits.mutates req.(rq_cmd) = false ∨ w.(live).(l_degraded) = true ∨ w.(live).(l_dying) = true →
  read_only w (dispatch_request env req w).2.
Proof.
  intros Ho Hc. unfold dispatch_request. destruct (Operator.dying_refusal req w.(live)) eqn:Hd; [apply read_only_refl|].
  assert (ControlLimits.mutates req.(rq_cmd) = false ∨ w.(live).(l_degraded) = true) as [Hm|Hg].
  { destruct Hc as [Hm|[Hg|Hy]]; [by left|by right|left]. unfold Operator.dying_refusal in Hd. rewrite Hy in Hd. cbn [andb] in Hd.
    destruct (one_of req _) eqn:E; [|done]. unfold one_of in E. rewrite bool_decide_eq_true in E.
    apply elem_of_cons in E as [->|[->|[]%elem_of_nil]%elem_of_cons]; by vm_compute. }
  2: destruct (ControlLimits.mutates req.(rq_cmd)) eqn:Hm; [rewrite Hg; apply read_only_refl|].
  all: rewrite ?Hm; cbn [andb]; destruct (Mutation.handles req.(rq_cmd)) eqn:Hh; [by apply handled_mutates in Hh; congruence|].
  all: rewrite Ho; by apply own_command_reads.
Qed.
(** ** Opening a Fang *)

(** The gates and the lookups of an open. *)
Definition may_open (local : str) (s : DaemonState) : Prop :=
  s.(l_status).(mode) ≠ Silver ∧ NodeGovernance.unadmitted s.(l_governance) s.(l_pelt) = false ∧
  Fangs.has_active_local s.(l_registry) local = false ∧ is_Some s.(l_pelt).

(** The record and its entries, published together. *)
Definition opened (o : Opening) (fang : Fangs.FangRecord) (transport : str) (uses : list str) (activation : option str)
    (w w' : World D) : Prop :=
  ∃ t, w'.(live).(l_registry) =
    Fangs.insert_started fang.(Fangs.f_id) o.(o_instant) transport uses
      (Fangs.insert_cancellation fang.(Fangs.f_id) o.(o_tracker)
        (Fangs.insert_task fang.(Fangs.f_id) t (Fangs.push fang w.(live).(l_registry)))) ∧
  w'.(live).(l_status).(mode) = Wolf ∧ o.(o_ready) = Listening ∧
  ∀ name, activation = Some name → name ∈ w'.(live).(l_active).

(** An open that fails leaves the Fangs alone, unless publication itself was
    lost, which is reported as degraded storage. *)
Definition unopened (w w' : World D) : Prop :=
  w'.(live).(l_registry) = w.(live).(l_registry) ∨ w'.(live).(l_degraded) = true.

Lemma persist_activation_live act (w : World D) :
  (persist_activation act w).2.(live).(l_registry) = w.(live).(l_registry) ∧
  ((persist_activation act w).1 = Ok () → ∀ name, act = Some name → name ∈ (persist_activation act w).2.(live).(l_active)).
Proof.
  unfold persist_activation. destruct act as [name|]; [|done]. unfold persist_active.
  set (candidate := if bool_decide _ then _ else _).
  assert (name ∈ candidate) as Hin.
  { unfold candidate. case_bool_decide; [done|]. apply elem_of_app. right. by left. }
  clearbody candidate. destruct (l_degraded _); [done|]. destruct (StateValidation.active _ _); [|done].
  unfold persist_protected_or_legacy, unit_of, durable, durable_bytes, commit_protected.
  destruct (l_generation _); destruct (l_den _); try done.
  - destruct (ProtectedState.commit _ _ _) as [[] d]; try done. split; [done|]. intros _ n [= <-]. exact Hin.
  - destruct (den_replace _ _ _ _) as [[] d]; try done. split; [done|]. intros _ n [= <-]. exact Hin.
Qed.

(** From the listener on: every open ends like this. *)
Lemma start_opens id o act fang tr uses (reply : ControlResponse) (w : World D) :
  match (t ← listen id o; _ ← activate id o act t fang tr uses; mret reply) w with
  | (Ok _, w') => opened o fang tr uses act w w'
  | (Err _, w') => unopened w w'
  end.
Proof.
  unfold listen, mbind, em_bind, run. destruct (spawn_listener w) as [t w1] eqn:Hs.
  assert (l_registry w1.(live) = l_registry w.(live)) as Hr by (by injection Hs as _ <-).
  destruct (o_ready o) as [|m|] eqn:Ho; [|by left|by left]. cbn [mret em_ret].
  unfold activate, mbind, em_bind, run.
  pose proof (persist_activation_live act w1) as [Hreg Hact]. destruct (persist_activation act w1) as [[[]|e] w2]; cbn [fst snd] in *.
  2: { left. cbn. congruence. }
  cbn [mret em_ret upd]. unfold release. destruct (o_released o); [|by right]. cbn.
  exists t. split_and!; [cbn; congruence|done|done|]. intros name Hn. by apply Hact.
Qed.

Lemma found_member (name : str) (l : list PeerRecord) r :
  snd <$> list_find (λ p, pr_name p = name) l = Some r → name ∈ pr_name <$> l.
Proof.
  intros Hf. apply fmap_Some in Hf as ([i p] & (Hi & <- & _)%list_find_Some & _). apply list_elem_of_fmap_2.
  by eapply list_elem_of_lookup_2.
Qed.

Lemma relay_is_member route dest peers requested r :
  relay_resolve route dest peers requested = Ok r → r.(rt_via) ∈ pr_name <$> peers.
Proof.
  unfold relay_resolve. destruct (Policy.is_plain_tcp requested); [done|].
  destruct (snd <$> list_find _ peers) as [relay|] eqn:Hf; [|done]. cbn [ok_or mbind result_bind]. intros Hr. ww_inv.
  all: by eapply found_member.
Qed.

Lemma provider_is_member peers routes requested x p : resolve_provider peers routes requested x = Ok p →
  p.(pv_peer) = x.1 ∧ p.(pv_peer) ∈ pr_name <$> peers ∧ Forall (λ u, u ∈ pr_name <$> peers) (provider_uses p).
Proof.
  unfold resolve_provider. destruct x as [peer remote].
  destruct (snd <$> list_find _ peers) as [record|] eqn:Hf; [|done]. cbn [ok_or mbind result_bind]. apply found_member in Hf.
  intros (path & Hpath & [= <-])%bind_Ok. cbn. split; [done|]. split; [done|].
  unfold provider_uses. cbn [pv_path pv_peer]. destruct path as [a|a|r]; [by repeat constructor..|]. constructor; [done|].
  constructor; [|constructor]. destruct (snd <$> list_find _ routes) as [route|].
  - apply bind_Ok in Hpath as (r' & Hr & [= ->]). by eapply relay_is_member.
  - destruct (Policy.select_peer_transport _ _) as [[a|a]|]; try done. by apply bind_Ok in Hpath as (? & _ & [=]).
Qed.

(** What an open that succeeded did. *)
Definition opens_to_pack (o : Opening) (local : str) (act : option str) (w w' : World D) : Prop :=
  may_open local w.(live) ∧ ∃ fang transport uses, opened o fang transport uses act w w' ∧
    fang.(Fangs.f_local) = local ∧ fang.(Fangs.f_state) = Fangs.Active ∧
    fang.(Fangs.f_peer) ∈ pr_name <$> w.(live).(l_peers) ∧ Forall (λ u, u ∈ pr_name <$> w.(live).(l_peers)) uses.

Section opening.
Context (o : Opening) (id : str) (w : World D).
Notation ok := (Triple.ok (unopened w)).
(** Nothing has happened yet, and [φ] holds. *)
Notation here φ := (λ w', w' = w ∧ φ).

Lemma here_unopened (φ : Prop) w' : w' = w ∧ φ → unopened w w'.
Proof. intros [-> _]. by left. Qed.

Lemma open_gates_ok : ok (here True) (open_gates id)
  (λ _, here (w.(live).(l_status).(mode) ≠ Silver ∧ NodeGovernance.unadmitted w.(live).(l_governance) w.(live).(l_pelt) = false)).
Proof.
  intros w' [-> _]. unfold open_gates, mbind, em_bind, get, leave_if. destruct (mode _) eqn:Hm; cbn; try by left.
  all: destruct (NodeGovernance.unadmitted _ _); cbn; [by left|]; by split_and!.
Qed.

Lemma local_free_ok φ local : ok (here φ) (local_free id local)
  (λ _, here (φ ∧ Fangs.has_active_local w.(live).(l_registry) local = false)).
Proof.
  intros w' [-> Hφ]. unfold local_free, mbind, em_bind, get, leave_if.
  destruct (Fangs.has_active_local _ _); cbn; [by left|]. by split_and!.
Qed.

Lemma start_ok φ act fang tr uses (reply : ControlResponse) Q : (∀ w', φ → opened o fang tr uses act w w' → Q w') →
  ok (here φ) (t ← listen id o; _ ← activate id o act t fang tr uses; mret reply : hm D ControlResponse) (λ _, Q).
Proof.
  intros HQ w' [-> Hφ]. pose proof (start_opens id o act fang tr uses reply w) as K.
  destruct ((t ← listen id o; _ ← activate id o act t fang tr uses; mret reply) w) as [[] ?]; auto.
Qed.

Lemma open_ok peer local remote tr act :
  ok (here True) (open_fang_with_profile o id peer local remote tr act) (λ _ w', opens_to_pack o local act w w').
Proof.
  unfold open_fang_with_profile.
  set (G := w.(live).(l_status).(mode) ≠ Silver ∧ NodeGovernance.unadmitted w.(live).(l_governance) w.(live).(l_pelt) = false).
  apply (ok_bind _ _ (λ _, here G)); [apply open_gates_ok|]. intros [].
  apply (ok_bind _ _ (λ _, here G)).
  { eapply ok_weaken; [apply (ok_leave_if (here G)), here_unopened|done|by intros ? w' [? _]]. }
  intros []. apply (ok_bind _ _ (λ _, here (G ∧ Fangs.has_active_local w.(live).(l_registry) local = false)));
    [apply local_free_ok|]. intros [].
  set (φ := _ ∧ _). apply (ok_bind _ _ (λ s, here (φ ∧ s = w.(live)))); [by intros w' [-> ?]|]. intros s.
  apply (ok_bind _ _ (λ record, here ((φ ∧ s = w.(live)) ∧ peer ∈ pr_name <$> w.(live).(l_peers)))).
  { intros w' [-> [Hφ ->]]. unfold or_leave. destruct (snd <$> _) as [record|] eqn:Hf; [|by left].
    split; [done|]. split; [done|]. by eapply found_member. }
  intros record. apply (ok_bind _ _ (λ _, here (may_open local w.(live) ∧ s = w.(live) ∧ peer ∈ pr_name <$> w.(live).(l_peers)))).
  { intros w' [-> [(((? & ?) & ?) & ->) ?]]. unfold or_leave. destruct (l_pelt w.(live)) eqn:Hp; [|by left]. split; [done|].
    split; [|done]. split_and!; [done|by rewrite Hp|done|by eexists]. }
  intros _. set (ψ := _ ∧ _ ∧ _).
  apply (ok_bind _ _ (λ routed, here (ψ ∧ ∀ r, routed = Some r → r.(rt_via) ∈ pr_name <$> w.(live).(l_peers)))).
  { intros w' [-> Hψ]. destruct (snd <$> list_find _ (l_routes s)) as [route|]; [|by split].
    destruct (relay_resolve route record (l_peers s) tr) as [r|[c m]] eqn:Hr; [|by left]. split; [done|]. split; [done|].
    intros r' [= <-]. destruct Hψ as (_ & -> & _). by eapply relay_is_member. }
  intros routed. cbn zeta.
  assert (∀ fang tr' uses w', fang.(Fangs.f_local) = local → fang.(Fangs.f_state) = Fangs.Active → fang.(Fangs.f_peer) = peer →
    (∀ u, u ∈ uses → ∃ r, routed = Some r ∧ u = r.(rt_via)) →
    (ψ ∧ ∀ r, routed = Some r → r.(rt_via) ∈ pr_name <$> w.(live).(l_peers)) →
    opened o fang tr' uses act w w' → opens_to_pack o local act w w') as Fin.
  { intros fang tr' uses w' Hl Hst Hp Hu [(Hm & _ & Hin) Hvia] Hop. split; [done|]. exists fang, tr', uses.
    split_and!; try done; [by rewrite Hp|]. apply Forall_forall. intros u (r & Hr & ->)%Hu. by apply Hvia. }
  destruct routed as [r|].
  - apply start_ok. intros w' K. eapply Fin; [done|done|done| |done]. intros u ->%list_elem_of_singleton. by exists r.
  - destruct (Policy.select_peer_transport tr _) as [[a|a]|[]]; try (apply ok_leave, here_unopened);
      (apply start_ok; intros w' K; eapply Fin; [done|done|done| |done]; by intros u ?%not_elem_of_nil).
Qed.

Lemma providers_are_members service peers routes tr l : failover_resolve service peers routes tr = Ok l →
  service.(Service.sd_peer) ∈ pr_name <$> peers ∧ Forall (λ u, u ∈ pr_name <$> peers) (mjoin (provider_uses <$> l)).
Proof.
  unfold failover_resolve. destruct (Policy.is_plain_tcp tr); [done|]. intros Hl%try_map_Ok.
  assert (Forall2 (λ x p, p.(pv_peer) = x.1 ∧ p.(pv_peer) ∈ pr_name <$> peers ∧ Forall (λ u, u ∈ pr_name <$> peers) (provider_uses p))
    (Service.providers service) l) as Hf by (eapply Forall2_impl; [done|]; intros ? ?; apply provider_is_member). clear Hl.
  split.
  - unfold Service.providers in Hf. inversion Hf as [|? ? ? ? (E & Hin & _) _]; subst. cbn in E. by rewrite <- E.
  - apply Forall_forall. intros u (us & Hu & (p & -> & Hp)%list_elem_of_fmap)%list_elem_of_join.
    apply list_elem_of_lookup in Hp as [i Hp]. destruct (Forall2_lookup_r _ _ _ _ _ Hf Hp) as (x & _ & _ & _ & Hall).
    rewrite Forall_forall in Hall. by apply Hall.
Qed.

Lemma open_provider_ok service local tr :
  ok (here True) (open_provider_fang o id service local tr) (λ _ w', opens_to_pack o local None w w').
Proof.
  unfold open_provider_fang.
  set (G := w.(live).(l_status).(mode) ≠ Silver ∧ NodeGovernance.unadmitted w.(live).(l_governance) w.(live).(l_pelt) = false).
  apply (ok_bind _ _ (λ _, here G)); [apply open_gates_ok|]. intros [].
  apply (ok_bind _ _ (λ _, here G)).
  { eapply ok_weaken; [apply (ok_leave_if (here G)), here_unopened|done|by intros ? w' [? _]]. }
  intros []. apply (ok_bind _ _ (λ _, here (G ∧ Fangs.has_active_local w.(live).(l_registry) local = false)));
    [apply local_free_ok|]. intros [].
  set (φ := _ ∧ _). apply (ok_bind _ _ (λ s, here (φ ∧ s = w.(live)))); [by intros w' [-> ?]|]. intros s.
  apply (ok_bind _ _ (λ _, here (may_open local w.(live) ∧ s = w.(live)))).
  { intros w' [-> (((? & ?) & ?) & ->)]. unfold or_leave. destruct (l_pelt w.(live)) eqn:Hp; [|by left]. split; [done|].
    split; [|done]. split_and!; [done|by rewrite Hp|done|by eexists]. }
  intros _. apply (ok_bind _ _ (λ l, here (may_open local w.(live) ∧ service.(Service.sd_peer) ∈ pr_name <$> w.(live).(l_peers) ∧
    Forall (λ u, u ∈ pr_name <$> w.(live).(l_peers)) (mjoin (provider_uses <$> l))))).
  { intros w' [-> [Hm ->]]. destruct (failover_resolve _ _ _ _) as [l|[c m]] eqn:Hl; [|by left]. split; [done|]. split; [done|].
    by eapply providers_are_members. }
  intros l. cbn zeta. apply start_ok. intros w' (Hm & Hp & Hu) K. split; [done|]. eexists _, _, _. split; [exact K|]. by split_and!.
Qed.
End opening.

(** C35: a Fang is opened only through the gates, to the Pack, and in one
    step with its entries. Every way to open a Fang, from parts, from a
    profile and over a service's providers: when it succeeds, the node was
    not in Silver, was admitted to its network and had a Pelt, no active
    Fang had the local address, the listener was ready, the peer and every
    member the Fang also depends on (relays, other providers) were in the
    Pack, the record and its entries were added together, and a profile's
    name was saved as active before; when it fails, the Fangs are as before,
    or the node reports degraded storage. *)
Theorem open_is_gated o id (w : World D) :
  (∀ peer local remote tr act, match open_fang_with_profile o id peer local remote tr act w with
     | (Ok _, w') => opens_to_pack o local act w w'
     | (Err _, w') => unopened w w'
     end) ∧
  (∀ service local tr, match open_provider_fang o id service local tr w with
     | (Ok _, w') => opens_to_pack o local None w w'
     | (Err _, w') => unopened w w'
     end).
Proof.
  split; intros.
  - by apply (open_ok o id w).
  - by apply (open_provider_ok o id w).
Qed.

(** ** What a request is answered *)

(** The commands that ask peers before they are admitted. *)
Definition asks_first (cmd : str) : bool :=
  bool_decide (cmd ∈ [lit "governance.sync"; lit "service.add_from"; lit "service.provider.add_from"]).
(** The state a request is admitted in. *)
Definition admitted_in (env : Env D) (req : ControlRequest) (w : World D) : World D :=
  if asks_first req.(rq_cmd) then env.(e_net).(Operator.ne_meanwhile) w else w.

Definition refused (r : ControlResponse) (w w' : World D) : Prop := r.(rs_ok) = false ∧ w' = w.

(** A Fang is closed: it is out of the registry, its listener and children
    are told to stop and none is spawned any more, and no profile that opens
    it is active. *)
Definition closed (id : str) (w w' : World D) : Prop :=
  ∃ f, Fangs.find_id w.(live).(l_registry) id = Some f ∧
    w'.(live).(l_registry).(Fangs.fangs) = filter (λ f, f.(Fangs.f_id) ≠ id) w.(live).(l_registry).(Fangs.fangs) ∧
    (∀ t, w.(live).(l_registry).(Fangs.tasks) !! id = Some t → Fangs.status_of w'.(live).(l_runtime) t ≠ Fangs.Running) ∧
    (∀ c, w.(live).(l_registry).(Fangs.cancellations) !! id = Some c →
       Fangs.spawn c w'.(live).(l_runtime) = (false, w'.(live).(l_runtime)) ∧
       ∀ t, t ∈ (Fangs.tracker w.(live).(l_runtime) c).(Fangs.handles) →
         Fangs.status_of w'.(live).(l_runtime) t ≠ Fangs.Running) ∧
    ∀ p, p ∈ w'.(live).(l_profiles) → of_profile f p = true → fp_name p ∉ w'.(live).(l_active).

Record answered (req : ControlRequest) (r : ControlResponse) (w w' : World D) : Prop := {
  an_internal : req.(rq_cmd) = lit "governance.sync_apply" → refused r w w';
  an_dying : w.(live).(l_dying) = true → req.(rq_cmd) ∉ [lit "status"; lit "governance.status"] → refused r w w';
  an_degraded : w.(live).(l_degraded) = true → ControlLimits.mutates req.(rq_cmd) || asks_first req.(rq_cmd) = true →
    refused r w w';
  an_reads : ControlLimits.mutates req.(rq_cmd) || asks_first req.(rq_cmd) || Operator.handles req.(rq_cmd) = false →
    read_only w w';
  an_close : req.(rq_cmd) = lit "fang.close" → r.(rs_ok) = true → closed (arg req (lit "fang_id")) w w';
  an_deactivate : req.(rq_cmd) = lit "fang.deactivate_profile" → r.(rs_ok) = true →
    arg req (lit "name") ∉ w'.(live).(l_active) ∧
    ∀ f p, f ∈ w'.(live).(l_registry).(Fangs.fangs) → p ∈ w.(live).(l_profiles) →
      fp_name p = arg req (lit "name") → of_profile f p = false;
  an_reset : req.(rq_cmd) = lit "silver.reset" → r.(rs_ok) = true →
    w'.(live).(l_status).(mode) = Human ∧
    (NodeGovernance.unadmitted w.(live).(l_governance) w.(live).(l_pelt) = false →
     Authority.is_locked w'.(live).(l_authority) = false)
}.

Lemma response_fails {A} (x : result ControlResponse A) r : x = Err r → (∀ r', x = Err r' → r'.(rs_ok) = false) → r.(rs_ok) = false.
Proof. intros ->. auto. Qed.

Lemma transport_fails req r : Operator.transport_arg req = Err r → r.(rs_ok) = false.
Proof. unfold Operator.transport_arg. do 2 (case_bool_decide; [done|]). by intros [= <-]. Qed.

Lemma bind_fails {A B} (m : result ControlResponse A) (f : A → result ControlResponse B) r :
  (∀ r, m = Err r → r.(rs_ok) = false) → (∀ a r, f a = Err r → r.(rs_ok) = false) →
  m ≫= f = Err r → r.(rs_ok) = false.
Proof. intros Hm Hf. destruct m as [a|e]; [apply Hf|]. intros [= <-]. by apply Hm. Qed.
Lemma ok_or_fails {A} (o : option A) e r : e.(rs_ok) = false → ok_or o e = Err r → r.(rs_ok) = false.
Proof. intros He. destruct o; [done|]. by intros [= <-]. Qed.

Lemma dying_fails req s r : Operator.dying_refusal req s = Some r → r.(rs_ok) = false.
Proof. unfold Operator.dying_refusal. destruct (_ && _); [|done]. by intros [= <-]. Qed.

(** The network phase answers with a failure or asks for a change. *)
Lemma resolve_first_cases env req (w : World D) :
  match resolve_first env req w with
  | (Err r, w1) => r.(rs_ok) = false ∧ w1 = admitted_in env req w ∧ asks_first req.(rq_cmd) = true
  | (Ok req1, w1) => w1 = admitted_in env req w ∧
      (asks_first req.(rq_cmd) = false ∧ req1 = req ∨
       asks_first req.(rq_cmd) = true ∧
       req1.(rq_cmd) ∈ [lit "governance.sync_apply"; lit "service.add"; lit "service.provider.add"])
  end.
Proof.
  unfold resolve_first, admitted_in, asks_first, is_cmd, one_of. cbn zeta. case_bool_decide as Hc.
  { rewrite (bool_decide_eq_true_2 (_ ∈ _)) by (rewrite Hc; by left).
    destruct (Operator.resolve_sync _ _ _ _ _) as [req1|r] eqn:E.
    - split; [done|]. right. split; [done|]. revert E. unfold Operator.resolve_sync. destruct (Operator.dying_refusal _ _); [done|].
      intros (tr & _ & E)%bind_Ok. destruct (Operator.is_silver _); [done|]. apply bind_Ok in E as (p & _ & E).
      apply bind_Ok in E as (h & _ & E). destruct (Gov.forked h); [done|]. destruct (negb _); [done|]. cbn zeta in E.
      destruct (Operator.unknown_member _ _); [done|]. destruct (Operator.sync_rounds _ _ _ _ _ _ _ _) as [[? ?] ?].
      injection E as <-. by left.
    - split; [|done]. revert E. unfold Operator.resolve_sync. destruct (Operator.dying_refusal _ _) eqn:Hd.
      { intros [= <-]. by eapply dying_fails. }
      apply bind_fails; [apply transport_fails|]. intros tr r1. destruct (Operator.is_silver _); [by intros [= <-]|].
      apply bind_fails; [intros r2; by apply ok_or_fails|]. intros p r2. apply bind_fails; [intros r3; by apply ok_or_fails|].
      intros h r3. destruct (Gov.forked h); [by intros [= <-]|]. destruct (negb _); [by intros [= <-]|]. cbn zeta.
      destruct (Operator.unknown_member _ _); [by intros [= <-]|]. by destruct (Operator.sync_rounds _ _ _ _ _ _ _ _) as [[? ?] ?]. }
  case_bool_decide as Ha.
  2: { split; [|left]; rewrite bool_decide_eq_false_2; try done; intros [?|?]%elem_of_cons; done. }
  rewrite (bool_decide_eq_true_2 (_ ∈ lit "governance.sync" :: _)) by (by right).
  destruct (Operator.resolve_add_from _ _ _) as [req1|r] eqn:E.
  - split; [done|]. right. split; [done|]. revert E. unfold Operator.resolve_add_from. destruct (Operator.dying_refusal _ _); [done|].
    intros E. ww_inv. cbn [rq_cmd]. destruct (is_cmd _ _); [by do 2 right; left|by right; left].
  - split; [|done]. revert E. unfold Operator.resolve_add_from. destruct (Operator.dying_refusal _ _) eqn:Hd.
    { intros [= <-]. by eapply dying_fails. }
    apply bind_fails; [apply transport_fails|]. intros tr r1. cbn zeta. destruct (_ || _); [by intros [= <-]|].
    apply bind_fails.
    { intros r2. unfold Operator.prepare. destruct (Operator.is_silver _); [by intros [= <-]|].
      destruct (NodeGovernance.unadmitted _ _); [by intros [= <-]|]. by apply ok_or_fails. }
    intros p r2. apply bind_fails; [intros r3; by apply ok_or_fails|]. intros seed r3. apply bind_fails.
    { intros r4. destruct (e_offered env); [|by intros [= <-]|by intros [= <-]]. destruct (Operator.query _ _ _ _); [done|].
      by intros [= <-]. }
    intros l r4. apply bind_fails; [intros r5; by apply ok_or_fails|done].
Qed.

(** A dying node, and one whose storage is degraded. *)
Lemma dispatch_dying env req (w : World D) :
  w.(live).(l_dying) = true → req.(rq_cmd) ∉ [lit "status"; lit "governance.status"] →
  refused (dispatch_request env req w).1 w (dispatch_request env req w).2.
Proof.
  intros Hd Hn. unfold dispatch_request, Operator.dying_refusal, one_of. rewrite Hd, bool_decide_eq_false_2 by done. by split.
Qed.
Lemma dispatch_degraded env req (w : World D) :
  w.(live).(l_degraded) = true → ControlLimits.mutates req.(rq_cmd) = true →
  refused (dispatch_request env req w).1 w (dispatch_request env req w).2.
Proof.
  intros Hd Hm. unfold dispatch_request. destruct (Operator.dying_refusal _ _) eqn:E; [split; [by eapply dying_fails|done]|].
  rewrite Hm, Hd. by split.
Qed.

Lemma persist_active_ok candidate (w w' : World D) : persist_active candidate w = (Ok (), w') →
  w'.(live).(l_active) = candidate ∧ w'.(live).(l_registry) = w.(live).(l_registry) ∧
  w'.(live).(l_runtime) = w.(live).(l_runtime) ∧ w'.(live).(l_profiles) = w.(live).(l_profiles).
Proof.
  unfold persist_active. destruct (l_degraded _); [done|]. destruct (StateValidation.active _ _); [|done].
  unfold persist_protected_or_legacy, unit_of, durable, durable_bytes, commit_protected.
  destruct (l_generation _); destruct (l_den _); try done.
  - destruct (ProtectedState.commit _ _ _) as [[] d]; try done. by intros [= <-].
  - destruct (den_replace _ _ _ _) as [[] d]; try done. by intros [= <-].
Qed.

Lemma close_entries_spec id s :
  let s' := close_entries id s in
  s'.(l_registry).(Fangs.fangs) = filter (λ f, f.(Fangs.f_id) ≠ id) s.(l_registry).(Fangs.fangs) ∧
  (∀ t, s.(l_registry).(Fangs.tasks) !! id = Some t → Fangs.status_of s'.(l_runtime) t ≠ Fangs.Running) ∧
  (∀ c, s.(l_registry).(Fangs.cancellations) !! id = Some c →
     Fangs.spawn c s'.(l_runtime) = (false, s'.(l_runtime)) ∧
     ∀ t, t ∈ (Fangs.tracker s.(l_runtime) c).(Fangs.handles) → Fangs.status_of s'.(l_runtime) t ≠ Fangs.Running) ∧
  s'.(l_profiles) = s.(l_profiles) ∧ s'.(l_active) = s.(l_active).
Proof.
  unfold close_entries, Fangs.remove_task, Fangs.remove_cancellation, Fangs.retain_records. cbn [Fangs.tasks Fangs.cancellations]. cbn zeta.
  set (r1 := match Fangs.tasks (l_registry s) !! id with Some t => Fangs.abort t (l_runtime s) | None => l_runtime s end).
  set (r2 := match Fangs.cancellations (l_registry s) !! id with Some c => Fangs.abort_children c r1 | None => r1 end).
  match goal with |- context [if ?b then set_mode Human ?x else ?x] => set (x1 := x); assert (∀ A (f : DaemonState → A),
    (∀ m y, f (set_mode m y) = f y) → f (if b then set_mode Human x1 else x1) = f x1) as K by (intros A f Hf; destruct b; auto) end.
  rewrite (K _ l_registry), (K _ l_runtime), (K _ l_profiles), (K _ l_active) by done. clear K. cbn.
  assert (Fangs.trackers r1 = Fangs.trackers (l_runtime s)) as Htr.
  { unfold r1. destruct (_ !! id); [|done]. apply FangsSpec.abort_frame. }
  split_and!; [| | |done|done].
  - apply list_filter_iff. intros f. by rewrite negb_true_iff, bool_decide_eq_false.
  - intros t Ht. assert (Fangs.status_of r1 t ≠ Fangs.Running) as Hs.
    { unfold r1. rewrite Ht, FangsSpec.abort_cancels, decide_True by by left. apply FangsSpec.cancelled_stops. }
    unfold r2. destruct (Fangs.cancellations _ !! id) as [c|]; [|done].
    eapply FangsSpec.cancels_quiet; [apply FangsSpec.abort_children_spec|done].
  - intros c Hc. unfold r2. rewrite Hc. destruct (FangsSpec.abort_children_spec c r1) as (C & T & _). split.
    + apply FangsSpec.spawn_closed. by rewrite T, decide_True.
    + intros t Ht. rewrite C, decide_True; [apply FangsSpec.cancelled_stops|]. by rewrite (FangsSpec.tracker_same _ _ _ Htr).
Qed.

Lemma close_fang_closes req (w : World D) :
  let '(r, w') := answer (close_fang req) w in r.(rs_ok) = true → closed (arg req (lit "fang_id")) w w'.
Proof.
  unfold answer, close_fang, mbind, em_bind, get, leave_if, or_leave, saved, upd. cbn zeta. set (id := arg req _).
  case_bool_decide; [done|]. cbn [mret em_ret]. destruct (Fangs.find_id _ id) as [f|] eqn:Hf; [|done]. cbn [mret em_ret].
  set (candidate := filter _ _).
  assert (∀ w1, w1.(live).(l_active) = candidate → w1.(live).(l_registry) = w.(live).(l_registry) →
    w1.(live).(l_runtime) = w.(live).(l_runtime) → w1.(live).(l_profiles) = w.(live).(l_profiles) →
    closed id w (on_live (close_entries id) w1)) as K.
  { intros w1 Ha Hg Hr Hp. pose proof (close_entries_spec id (live w1)) as S. cbn zeta in S. rewrite Ha, Hg, Hr, Hp in S.
    destruct S as (S1 & S2 & S3 & S4 & S5). exists f. split_and!; [done..|]. intros p. cbn [live on_live]. rewrite S4, S5.
    intros Hin Hof Hn. unfold candidate in Hn. apply list_elem_of_filter in Hn as [Hn _]. apply not_true_iff_false in Hn. apply Hn.
    apply existsb_exists. exists p. split; [by apply list_elem_of_In|]. by rewrite Hof, bool_decide_eq_true_2. }
  case_bool_decide as Hc; cbn [mret em_ret].
  - intros _. by apply K.
  - destruct (persist_active candidate w) as [[[]|e] w1] eqn:Hp; [|done]. intros _.
    apply persist_active_ok in Hp as (? & ? & ? & ?). by apply K.
Qed.

Lemma deactivate_closes req (w : World D) :
  let '(r, w') := answer (deactivate_profile req) w in r.(rs_ok) = true →
  arg req (lit "name") ∉ w'.(live).(l_active) ∧
  ∀ f p, f ∈ w'.(live).(l_registry).(Fangs.fangs) → p ∈ w.(live).(l_profiles) →
    fp_name p = arg req (lit "name") → of_profile f p = false.
Proof.
  unfold answer, deactivate_profile, mbind, em_bind, get, leave_if, saved, upd. cbn zeta. set (name := arg req _).
  case_bool_decide; [done|]. cbn [mret em_ret]. case_bool_decide; [|done]. cbn [negb mret em_ret].
  destruct (persist_active _ w) as [[[]|e] w1] eqn:Hp; [|done]. apply persist_active_ok in Hp as (Ha & Hg & Hr & Hpr). intros _.
  cbn [live on_live]. set (ids := Fangs.f_id <$> _). unfold Fangs.terminate_ids.
  pose proof (FangsSpec.terminate_fold_spec ids (l_registry w1.(live)) (l_runtime w1.(live))) as (F & _).
  destruct (foldl _ _ _) as [g r]. cbn [fst] in F. cbn zeta.
  match goal with |- context [if ?b then set_mode Human ?x else ?x] => assert (∀ A (f : DaemonState → A),
    (∀ m y, f (set_mode m y) = f y) → f (if b then set_mode Human x else x) = f x) as K by (intros A f Hf; destruct b; auto) end.
  rewrite (K _ l_active), (K _ l_registry) by done. clear K. cbn. rewrite Ha. split.
  { intros [Hn _]%list_elem_of_filter. by apply Hn. }
  intros f p [Hid Hin]%list_elem_of_filter Hpin Hname. apply not_true_iff_false. intros Hof. apply Hid. rewrite F in Hin.
  unfold ids. apply list_elem_of_fmap. exists f. split; [done|]. apply list_elem_of_filter. split; [|done].
  apply existsb_exists. exists p. rewrite Hpr. split; [by apply list_elem_of_In|]. by rewrite Hof, bool_decide_eq_true_2.
Qed.

Lemma persist_silver_gov b (w : World D) : (persist_silver b w).2.(live).(l_governance) = w.(live).(l_governance) ∧
  (persist_silver b w).2.(live).(l_pelt) = w.(live).(l_pelt).
Proof.
  unfold persist_silver, unit_of, durable_bytes, commit_protected. destruct (l_generation _); destruct (l_den _); try done.
  - by destruct (ProtectedState.commit _ _ _) as [[] d].
  - by destruct (den_replace _ _ _ _) as [[] d].
Qed.

Lemma open_gate_opens e a a' : Authority.locking (Authority.open_after_durable e) a = (a', Some ()) →
  Authority.is_locked a' = false.
Proof.
  unfold Authority.is_locked, Authority.locking. destruct a as [g p v]. cbn [Authority.poisoned Authority.gate Authority.silver].
  destruct p; [done|]. unfold Authority.open_after_durable, mbind, Authority.gated_bind. cbn [Authority.g_get Authority.g_require].
  destruct (_ =? e); [|done]. destruct (u64_checked_add _ _); [|done]. by intros [= <-].
Qed.

Lemma silver_reset_opens req (w : World D) :
  let '(r, w') := answer (silver_reset req) w in
  r.(rs_ok) = true →
  (∃ w1, persist_silver false w = (Ok (), w1) ∧ persistent w'.(live) = persistent w1.(live) ∧ w'.(disk) = w1.(disk)) ∧
  w'.(live).(l_status).(mode) = Human ∧
  (NodeGovernance.unadmitted w.(live).(l_governance) w.(live).(l_pelt) = false →
   Authority.is_locked w'.(live).(l_authority) = false).
Proof.
  unfold answer, silver_reset, mbind, em_bind, get, run, or_leave, saved, upd, reopen. cbn zeta.
  destruct (persist_silver_gov false w) as [Eg Ep]. destruct (persist_silver false w) as [[[]|e] w1]; [|done]. cbn [snd] in Eg, Ep.
  rewrite Eg, Ep. destruct (NodeGovernance.unadmitted _ _).
  - intros _. split; [by exists w1|]. by split.
  - destruct (Authority.locking _ _) as [a [[]|]] eqn:Ho in |- *; [|done]. cbn. intros _. split; [by exists w1|]. split; [done|].
    intros _. by eapply open_gate_opens.
Qed.

Lemma silver_trigger_saves req (w : World D) :
  let '(r, w') := answer (silver_trigger req) w in
  r.(rs_ok) = true → ∃ a w1, persist_silver true (on_live (set_authority a) w) = (Ok (), w1) ∧
    persistent w'.(live) = persistent w1.(live) ∧ w'.(disk) = w1.(disk).
Proof.
  unfold answer, silver_trigger, mbind, em_bind, run, or_leave, saved, upd.
  destruct (Authority.lock _) as [a [e|]]; [|done]. cbn [mret em_ret].
  destruct (persist_silver true _) as [[[]|x] w1] eqn:Hp; [|done]. intros _. exists a, w1. split; [done|].
  split; [apply enter_silver_persistent|done].
Qed.

(** The commands of [control.rs] whose answers are described. *)
Lemma dispatch_own env req (w : World D) m :
  Mutation.handles req.(rq_cmd) = false → Operator.handles req.(rq_cmd) = false → own_command env req = m →
  (dispatch_request env req w).1.(rs_ok) = true → dispatch_request env req w = answer m w.
Proof.
  intros Hh Ho <-. unfold dispatch_request. destruct (Operator.dying_refusal _ _) eqn:E.
  { cbn. intros K. apply dying_fails in E. congruence. }
  destruct (_ && _); [done|]. by rewrite Hh, Ho.
Qed.

Ltac find_command Hc :=
  unfold own_command, is_cmd; rewrite Hc; repeat (rewrite bool_decide_eq_false_2 by (by vm_compute));
  by rewrite bool_decide_eq_true_2.

Lemma dispatch_close env req (w : World D) : req.(rq_cmd) = lit "fang.close" →
  let '(r, w') := dispatch_request env req w in r.(rs_ok) = true → closed (arg req (lit "fang_id")) w w'.
Proof.
  intros Hc. destruct (dispatch_request env req w) as [r w'] eqn:E. intros Hr. pose proof (close_fang_closes req w) as K.
  rewrite <- (dispatch_own env req w (close_fang req)), E in K; [by apply K|by rewrite Hc; vm_compute|by rewrite Hc; vm_compute|find_command Hc|by rewrite E].
Qed.
Lemma dispatch_deactivate env req (w : World D) : req.(rq_cmd) = lit "fang.deactivate_profile" →
  let '(r, w') := dispatch_request env req w in r.(rs_ok) = true →
  arg req (lit "name") ∉ w'.(live).(l_active) ∧
  ∀ f p, f ∈ w'.(live).(l_registry).(Fangs.fangs) → p ∈ w.(live).(l_profiles) →
    fp_name p = arg req (lit "name") → of_profile f p = false.
Proof.
  intros Hc. destruct (dispatch_request env req w) as [r w'] eqn:E. intros Hr. pose proof (deactivate_closes req w) as K.
  rewrite <- (dispatch_own env req w (deactivate_profile req)), E in K; [by apply K|by rewrite Hc; vm_compute|by rewrite Hc; vm_compute|find_command Hc|by rewrite E].
Qed.
Lemma dispatch_trigger env req (w : World D) : req.(rq_cmd) = lit "silver.trigger" →
  let '(r, w') := dispatch_request env req w in r.(rs_ok) = true →
  ∃ a w1, persist_silver true (on_live (set_authority a) w) = (Ok (), w1) ∧
    persistent w'.(live) = persistent w1.(live) ∧ w'.(disk) = w1.(disk).
Proof.
  intros Hc. destruct (dispatch_request env req w) as [r w'] eqn:E. intros Hr. pose proof (silver_trigger_saves req w) as K.
  rewrite <- (dispatch_own env req w (silver_trigger req)), E in K; [by apply K|by rewrite Hc; vm_compute|by rewrite Hc; vm_compute|find_command Hc|by rewrite E].
Qed.
Lemma dispatch_reset env req (w : World D) : req.(rq_cmd) = lit "silver.reset" →
  let '(r, w') := dispatch_request env req w in r.(rs_ok) = true →
  (∃ w1, persist_silver false w = (Ok (), w1) ∧ persistent w'.(live) = persistent w1.(live) ∧ w'.(disk) = w1.(disk)) ∧
  w'.(live).(l_status).(mode) = Human ∧
  (NodeGovernance.unadmitted w.(live).(l_governance) w.(live).(l_pelt) = false →
   Authority.is_locked w'.(live).(l_authority) = false).
Proof.
  intros Hc. destruct (dispatch_request env req w) as [r w'] eqn:E. intros Hr. pose proof (silver_reset_opens req w) as K.
  rewrite <- (dispatch_own env req w (silver_reset req)), E in K; [by apply K|by rewrite Hc; vm_compute|by rewrite Hc; vm_compute|find_command Hc|by rewrite E].
Qed.

(** The line of a client: a dispatch in the state it is admitted in, or a
    refusal there. *)
Lemma client_line_cases tree env line req (w : World D) : ControlLimits.parse tree line = Ok req →
  let w1 := admitted_in env req w in let '(r, _, w2) := client_line tree env line w in
  refused r w1 w2 ∧ (req.(rq_cmd) = lit "governance.sync_apply" ∨ asks_first req.(rq_cmd) = true) ∨
  req.(rq_cmd) ≠ lit "governance.sync_apply" ∧ ∃ req1, (r, w2) = dispatch_request env req1 w1 ∧
    (asks_first req.(rq_cmd) = false ∧ req1 = req ∨
     asks_first req.(rq_cmd) = true ∧
     req1.(rq_cmd) ∈ [lit "governance.sync_apply"; lit "service.add"; lit "service.provider.add"]).
Proof.
  intros Hp. cbn zeta. unfold client_line. rewrite Hp. unfold is_cmd. case_bool_decide as Hi.
  { left. split; [split; [done|]|by left]. unfold admitted_in. by rewrite Hi. }
  pose proof (resolve_first_cases env req w) as K. destruct (resolve_first env req w) as [[req1|r] w1].
  - destruct K as [-> K]. destruct (dispatch_request env req1 _) as [r w2] eqn:E. right. split; [done|]. by exists req1.
  - destruct K as (Hr & -> & Ha). left. split; [by split|by right].
Qed.

Lemma client_answered tree env line req (w : World D) : ControlLimits.parse tree line = Ok req →
  let '(r, _, w2) := client_line tree env line w in answered req r (admitted_in env req w) w2.
Proof.
  intros Hp. pose proof (client_line_cases tree env line req w Hp) as K. cbn zeta in K.
  destruct (client_line tree env line w) as [[r go] w2]. destruct K as [[Href Hc]|(Hni & req1 & Hd & Hc)].
  { split; try done; try (destruct Href; congruence).
    intros Hf. destruct Hc as [Hc|Hc]; [rewrite Hc in Hf; discriminate Hf|]. rewrite Hc, orb_true_r in Hf. discriminate Hf. }
  pose proof (f_equal fst Hd) as Er. pose proof (f_equal snd Hd) as Ew. cbn [fst snd] in Er, Ew.
  split.
  - done.
  - intros Hy Hn. rewrite Er, Ew. apply dispatch_dying; [done|]. destruct Hc as [[_ ->]|[_ Hc]]; [done|].
    intros Hs. revert Hc. apply elem_of_cons in Hs as [->|Hs]; [|apply list_elem_of_singleton in Hs as ->];
      intros Hc; apply (bool_decide_eq_true_2 _) in Hc; vm_compute in Hc; discriminate Hc.
  - intros Hg Hm. rewrite Er, Ew. apply dispatch_degraded; [done|]. destruct Hc as [[Ha ->]|[_ Hc]].
    { by rewrite Ha, orb_false_r in Hm. }
    apply elem_of_cons in Hc as [->|Hc]; [done|]. apply elem_of_cons in Hc as [->|Hc]; [done|].
    by apply list_elem_of_singleton in Hc as ->.
  - intros Hf. apply orb_false_iff in Hf as [[Hm Ha]%orb_false_iff Ho]. destruct Hc as [[_ ->]|[Ha' _]]; [|congruence].
    rewrite Ew. apply read_only_requests; [done|by left].
  - intros Hcl Hr. destruct Hc as [[_ ->]|[Ha _]]; [|rewrite Hcl in Ha; discriminate Ha].
    pose proof (dispatch_close env req (admitted_in env req w) Hcl) as K. rewrite <- Hd in K. by apply K.
  - intros Hcl Hr. destruct Hc as [[_ ->]|[Ha _]]; [|rewrite Hcl in Ha; discriminate Ha].
    pose proof (dispatch_deactivate env req (admitted_in env req w) Hcl) as K. rewrite <- Hd in K. by apply K.
  - intros Hcl Hr. destruct Hc as [[_ ->]|[Ha _]]; [|rewrite Hcl in Ha; discriminate Ha].
    pose proof (dispatch_reset env req (admitted_in env req w) Hcl) as K. rewrite <- Hd in K. by apply K.
Qed.

(** Requests one after the other, each with its environment. *)
Definition serve (tree : list byte → option Json) (steps : list (Env D * list byte)) (w : World D) : World D :=
  foldl (λ w x, (client_line tree x.1 x.2 w).2) w steps.

End served.

Section refinement.
Context `{!Crypto} `{!Base64} `{!Base64Laws} `{!MutationJson} `{!ProtectedStateSpec.ProtectedJsonLaws} `{!Serde Tombstone.Document}.
Context `{DL : DenLaws D} `{!DenWipe D}.

(** The Den holds a protected state with this flag of Silver. *)
Definition saved_silver (locked : bool) (w : World D) : Prop :=
  ∃ g p, durable_gen g p w.(disk) ∧ p.(ProtectedState.silver_locked) = locked.
(** And with the active profiles of the node. *)
Definition saved_active (w : World D) : Prop :=
  ∃ g p, durable_gen g p w.(disk) ∧ ∀ name, name ∈ p.(ProtectedState.active_profiles) ↔ name ∈ w.(live).(l_active).

(** What a success has on the disk. *)
Record on_disk_after (req : ControlRequest) (w : World D) : Prop := {
  od_trigger : req.(rq_cmd) = lit "silver.trigger" → saved_silver true w;
  od_reset : req.(rq_cmd) = lit "silver.reset" → saved_silver false w;
  od_active : saved_active w
}.

Lemma tracks_active (w : World D) : tracks w → ¬ stopped w.(live) → saved_active w.
Proof.
  intros [?|(_ & g & b & _ & Hd)] Hs; [done|]. exists g, (ProtectedStateSpec.stored (with_silver b (protected_from_live w.(live)))).
  split; [done|]. intros name. change (name ∈ sort_by_key id w.(live).(l_active) ↔ name ∈ w.(live).(l_active)). by rewrite sort_by_key_perm.
Qed.

Lemma persist_silver_saved b (w w1 w' : World D) : tracks w → persist_silver b w = (Ok (), w1) →
  persistent w'.(live) = persistent w1.(live) → w'.(disk) = w1.(disk) → ¬ stopped w'.(live) → saved_silver b w'.
Proof.
  intros Ht Hp Hpe Hd Hs. destruct (persist_silver_durable b w w1 Ht) as (g & _ & K); [|done|].
  - intros Hst. apply Hs. revert Hst. unfold stopped. injection Hpe as E1 E2. by rewrite E1, E2.
  - eexists _, _. rewrite Hd. split; [exact K|done].
Qed.

Lemma client_saves tree env line req (w : World D) : ControlLimits.parse tree line = Ok req → administered env → tracks w →
  let '(r, _, w2) := client_line tree env line w in
  r.(rs_ok) = true → ¬ stopped w2.(live) → on_disk_after req w2.
Proof.
  intros Hp Ha Ht. pose proof (client_line_cases tree env line req w Hp) as K. cbn zeta in K.
  pose proof (client_line_steps tree env line w Ha) as Hsteps.
  destruct (client_line tree env line w) as [[r go] w2]. cbn [snd] in Hsteps. intros Hr Hs.
  assert (tracks w2) as Ht2 by (by eapply admin_tracks).
  assert (tracks (admitted_in env req w)) as Ht1.
  { unfold admitted_in. destruct (asks_first _); [|done]. eapply admin_tracks; [apply Ha|done]. }
  destruct K as [[[Hno _] _]|(_ & req1 & Hd & Hc)]; [congruence|].
  split; [| |by apply tracks_active]; intros Hcmd.
  - destruct Hc as [[_ ->]|[Has _]]; [|rewrite Hcmd in Has; discriminate Has].
    pose proof (dispatch_trigger env req (admitted_in env req w) Hcmd) as K. rewrite <- Hd in K.
    destruct (K Hr) as (a & w1 & Hps & Hpe & Hdi). eapply persist_silver_saved; [|exact Hps|done..]. by apply tracks_core.
  - destruct Hc as [[_ ->]|[Has _]]; [|rewrite Hcmd in Has; discriminate Has].
    pose proof (dispatch_reset env req (admitted_in env req w) Hcmd) as K. rewrite <- Hd in K.
    destruct (K Hr) as [(w1 & Hps & Hpe & Hdi) _]. by eapply persist_silver_saved.
Qed.

End refinement.
End ControlSpec.
