(* ===== verification/SilverSpec.v ===== *)
(** * Silver under the control interface ([werewolfd/src/control.rs],
      [control/mutation.rs])

    [Module SilverSpec]: [silver.trigger] closes a node and saves that; while
    Silver is active the node has no Fang, opens none, and its gate is locked,
    and only [silver.reset] changes that: no mutation, no governance statement
    and no failed retirement reopens it. *)

From stdpp Require Import gmap.
From S2P Require Export ControlSpec.

Local Open Scope Z_scope.

Module SilverSpec.
Import LocalFs State Pelt Mutation OpenFang Control.
Import MutationSpec Triple.
Import StateValidation (PeerRecord, pr_name, pr_fingerprint).

(** ** The gate *)

Lemma is_locked_eq a : Authority.is_locked a = a.(Authority.poisoned) || a.(Authority.gate).(Authority.locked).
Proof. unfold Authority.is_locked, Authority.locking. destruct (Authority.poisoned a); [done|]. by destruct (Authority.gate a). Qed.

(** An operation that never opens the gate. *)
Definition stays_locked {A} (m : Authority.gated A) : Prop :=
  ∀ g, g.(Authority.locked) = true → (m g).1.(Authority.locked) = true.

Lemma locking_stays {A} (m : Authority.gated A) a : stays_locked m → Authority.is_locked a = true →
  Authority.is_locked (Authority.locking m a).1 = true.
Proof.
  intros Hm. rewrite !is_locked_eq. unfold Authority.locking. destruct (Authority.poisoned a) eqn:Hp; [cbn; by rewrite ?Hp|].
  specialize (Hm (Authority.gate a)). destruct (m (Authority.gate a)) as [g r]. cbn in *. auto.
Qed.
Lemma deny_stays p : stays_locked (Authority.deny_peer p).
Proof.
  intros g Hg. unfold Authority.deny_peer, mbind, Authority.gated_bind, Authority.g_get, Authority.g_put.
  destruct (Authority.peers g !! p) as [x|]; [done|].
  unfold Authority.enter_peer, Authority.allocate, mbind, Authority.gated_bind, Authority.g_get, Authority.g_put, Authority.g_some,
    Authority.g_require.
  destruct (_ <? _)%nat; [|done]. cbn [u64_checked_add]. destruct (u64_checked_add (Authority.next g) 1); done.
Qed.
Lemma removed_stays p : stays_locked (Authority.removed p).
Proof.
  intros g Hg. unfold Authority.removed, mbind, Authority.gated_bind, Authority.g_get, Authority.g_require, Authority.g_put.
  by destruct (match Authority.peers g !! p with Some _ => _ | None => _ end).
Qed.
Lemma deny_text_stays fp a : Authority.is_locked a = true → Authority.is_locked (Authority.deny_peer_text fp a).1 = true.
Proof. unfold Authority.deny_peer_text. destruct (parse_fingerprint fp); [apply locking_stays, deny_stays|done]. Qed.
Lemma removed_text_stays fp a : Authority.is_locked a = true → Authority.is_locked (Authority.removed_text fp a).1 = true.
Proof. unfold Authority.removed_text. destruct (parse_fingerprint fp); [apply locking_stays, removed_stays|done]. Qed.
Lemma epoch_of_stays a : Authority.is_locked a = true → Authority.is_locked (Authority.locking Authority.epoch_of a).1 = true.
Proof. apply locking_stays. intros g Hg. exact Hg. Qed.
Lemma lock_locks a : Authority.is_locked (Authority.lock a).1 = true.
Proof.
  rewrite is_locked_eq. unfold Authority.lock. destruct (Authority.poisoned a) eqn:Hp; [cbn; by rewrite ?Hp|].
  unfold Authority.lock_gate, mbind, Authority.gated_bind, Authority.g_get, Authority.g_put, Authority.g_require.
  by case_bool_decide.
Qed.

(** ** What every command keeps *)

Definition silver_on (s : DaemonState) : Prop :=
  s.(l_status).(silver) = lit "active" ∧ s.(l_status).(mode) = Silver ∧ s.(l_registry).(Fangs.fangs) = [] ∧
  Authority.is_locked s.(l_authority) = true.

Section silver.
Context `{!Crypto} `{!Base64} `{!MutationJson} `{!Serde Tombstone.Document} `{!Den D} `{!DenWipe D}.
Notation held := (λ w : World D, silver_on w.(live)).
Notation keeps := (Triple.keeps held).

(** What a save leaves alone. *)
Definition frame_of (s : DaemonState) := (s.(l_status), s.(l_registry), s.(l_authority), s.(l_runtime)).

Lemma silver_frame s s' : frame_of s' = frame_of s → silver_on s → silver_on s'.
Proof. unfold frame_of, silver_on. by intros [= -> -> -> _]. Qed.

Lemma frame_durable_bytes nm bytes c (w : World D) : frame_of (durable_bytes nm bytes c w).2.(live) = frame_of w.(live).
Proof. unfold durable_bytes. destruct (l_den _); [|done]. by destruct (den_replace _ _ _ _) as [[] d]. Qed.
Lemma frame_durable {T} `{Serde T} nm (x : T) c (w : World D) : frame_of (durable nm x c w).2.(live) = frame_of w.(live).
Proof. apply frame_durable_bytes. Qed.
Lemma frame_commit g c (w : World D) : frame_of (commit_protected g c w).2.(live) = frame_of w.(live).
Proof. unfold commit_protected. destruct (l_den _); [|done]. by destruct (ProtectedState.commit _ _ _) as [[]]. Qed.
Lemma frame_save gen c legacy (w : World D) : frame_of (legacy w).2.(live) = frame_of w.(live) →
  frame_of (match gen with Some g => unit_of (commit_protected g c w) | None => legacy w end).2.(live) = frame_of w.(live).
Proof. intros K. destruct gen; [apply frame_commit|done]. Qed.

Lemma v_upd {E} f : (∀ s, silver_on s → silver_on (f s)) → keeps (upd f : em D E ()).
Proof. intros K. apply k_upd. intros w. apply K. Qed.
Lemma v_same {E} f : (∀ s, frame_of (f s) = frame_of s) → keeps (upd f : em D E ()).
Proof. intros K. apply v_upd. intros s. by apply silver_frame. Qed.
Lemma v_saved {E} m (r : E) : (∀ w : World D, frame_of (m w).2.(live) = frame_of w.(live)) → keeps (saved m r).
Proof. intros K. apply k_saved. intros w. by apply silver_frame. Qed.
Lemma v_run {E A} (m : World D → A * World D) : (∀ w, frame_of (m w).2.(live) = frame_of w.(live)) → keeps (run m : em D E A).
Proof. intros K. apply k_run. intros w. by apply silver_frame. Qed.

Ltac silver_step := first
  [ keep_step | apply v_same; by intros [] | apply v_saved; intros; apply frame_durable
  | apply v_saved; intros; apply frame_durable_bytes
  | apply v_saved; intros; apply frame_save, frame_durable_bytes | apply v_saved; intros; apply frame_save, frame_durable ].

Lemma plain_silver secret tls_ok home sha256 now req :
  keeps (auto_sync_cmd (D := D) req) ∧ keeps (service_cmd (D := D) req) ∧ keeps (publish_cmd (D := D) req) ∧
  keeps (provider_cmd (D := D) req) ∧ keeps (route_cmd (D := D) req) ∧ keeps (manifest_migrate (D := D) req) ∧
  keeps (target_cmd (D := D) req) ∧ keeps (profile_cmd (D := D) req) ∧ keeps (advertise_cmd (D := D) sha256 now req) ∧
  keeps (pelt_init (D := D) secret tls_ok home req).
Proof.
  unfold auto_sync_cmd, service_cmd, publish_cmd, provider_cmd, route_cmd, manifest_migrate, target_cmd, target_candidate,
    profile_cmd, advertise_cmd, pelt_init. cbn zeta.
  split_and!; repeat silver_step; try (apply v_run; intros w; by destruct (ProtectedState.migrate (disk w)));
    try (by apply v_run).
  - intros w Hw. by destruct (provider_change req _) as [[]|].
  - apply v_same. intros s. by destruct (l_pelt s).
  - by apply v_upd.
Qed.

(** *** Fangs of an empty registry *)

Lemma drop_records_none ids g : g.(Fangs.fangs) = [] → (Fangs.drop_records ids g).(Fangs.fangs) = [].
Proof. unfold Fangs.drop_records, Fangs.retain_records. cbn. by intros ->. Qed.

Lemma terminate_fold_fangs ids : ∀ w, (foldl Fangs.terminate_one w ids).1.(Fangs.fangs) = w.1.(Fangs.fangs).
Proof.
  induction ids as [|id ids IH]; intros w; [done|]. cbn [foldl]. rewrite IH. destruct w as [g r].
  unfold Fangs.terminate_one. repeat case_match; by simplify_eq.
Qed.
Lemma terminate_peer_fangs name w : w.1.(Fangs.fangs) = [] → (Fangs.terminate_peer name w).2.1.(Fangs.fangs) = [].
Proof.
  intros Hw. unfold Fangs.terminate_peer, Fangs.terminate_ids. pose proof (terminate_fold_fangs (Fangs.ids_using_peer w.1 name) w) as K.
  destruct (foldl _ _ _) as [g r]. cbn in *. rewrite Hw in K. by apply drop_records_none.
Qed.
Lemma detach_fold_none ids : ∀ t w, w.1.(Fangs.fangs) = [] →
  let x := foldl Fangs.detach_one (t, w) ids in x.2.1.(Fangs.fangs) = [] ∧ x.1.(Fangs.closed) = t.(Fangs.closed).
Proof.
  induction ids as [|id ids IH]; intros t [g r] Hw; [done|]. cbn [foldl].
  destruct (Fangs.detach_one (t, (g, r)) id) as [t' [g' r']] eqn:E.
  assert (g'.(Fangs.fangs) = [] ∧ t'.(Fangs.closed) = t.(Fangs.closed)) as [Hg Ht].
  { revert E. cbn [fst] in Hw. unfold Fangs.detach_one. rewrite Hw. cbn [existsb]. repeat case_match; intros; by simplify_eq. }
  destruct (IH t' (g', r') Hg) as [K1 K2]. split; [done|]. by rewrite K2.
Qed.

Lemma invalidate_silver act ids (w : World D) : silver_on w.(live) → silver_on (invalidate act ids w).2.(live).
Proof.
  intros (Hs & Hm & Hf & Hl). unfold invalidate, publish_invalidated_runtime. cbn zeta. unfold Fangs.detach_ids.
  pose proof (detach_fold_none ids (Fangs.mkTermination [] [] 0) (l_registry (live w), l_runtime (live w)) Hf) as [Hg Hc].
  cbn [l_registry l_runtime set_active]. destruct (foldl _ _ _) as [t [g r]]. cbn [fst snd] in *. rewrite Hc. cbn.
  split_and!; [done|done| |done]. by apply drop_records_none.
Qed.

(** *** Members *)

Lemma deny_member_silver name fp s : silver_on s → silver_on (deny_member name fp s).2.
Proof.
  intros (Hs & Hm & Hf & Hl). unfold deny_member. destruct fp as [peer|]; [|done].
  pose proof (deny_text_stays peer _ Hl) as Hl'. destruct (Authority.deny_peer_text peer (l_authority s)) as [a [[]|]]; cbn [fst] in Hl'.
  2: { by split_and!. }
  cbn zeta. pose proof (terminate_peer_fangs name (l_registry s, l_runtime s) Hf) as Hg. cbn [l_registry l_runtime set_authority].
  destruct (Fangs.terminate_peer _ _) as [n [g r]]. by split_and!.
Qed.
Lemma deny_all_silver l : ∀ n s, silver_on s → silver_on (deny_all l n s).2.
Proof.
  induction l as [|p l IH]; intros n s Hon; [done|]. cbn [deny_all]. destruct Hon as (Hs & Hm & Hf & Hl).
  pose proof (deny_text_stays (pr_fingerprint p) _ Hl) as Hl'.
  destruct (Authority.deny_peer_text _ (l_authority s)) as [a [[]|]]; cbn [fst] in Hl'; [|by split_and!]. cbn zeta.
  pose proof (terminate_peer_fangs (pr_name p) (l_registry s, l_runtime s) Hf) as Hg. cbn [l_registry l_runtime set_authority].
  destruct (Fangs.terminate_peer _ _) as [m [g r]]. apply IH. by split_and!.
Qed.
Lemma remove_all_silver l : ∀ s, silver_on s → silver_on (remove_all l s).2.
Proof.
  induction l as [|p l IH]; intros s Hon; [done|]. cbn [remove_all]. destruct Hon as (Hs & Hm & Hf & Hl).
  pose proof (removed_text_stays (pr_fingerprint p) _ Hl) as Hl'.
  destruct (Authority.removed_text _ (l_authority s)) as [a [[]|]]; cbn [fst] in Hl'; [apply IH|]; by split_and!.
Qed.

Lemma address_change_silver peer candidate changed gen (w : World D) : silver_on w.(live) →
  silver_on (apply_pack_address_change peer candidate changed gen w).2.(live).
Proof.
  intros Hw. unfold apply_pack_address_change. cbn zeta. set (act := if changed then _ else _). set (ids := if changed then _ else _).
  assert (∀ w1 : World D, silver_on w1.(live) → silver_on (if_degraded (λ w, (invalidate act ids w).2) w1).(live)) as Deg.
  { intros w1 K1. unfold if_degraded. destruct (l_degraded _); [by apply invalidate_silver|done]. }
  assert (∀ w1 : World D, silver_on w1.(live) →
    silver_on (let '(n, w') := invalidate act ids (on_live (set_peers candidate) w1) in (Ok n : result IoError nat, w')).2.(live)) as Pub.
  { intros w1 K1. pose proof (invalidate_silver act ids (on_live (set_peers candidate) w1) K1) as K. by destruct (invalidate _ _ _). }
  destruct (StateValidation.active act _); [|done]. destruct gen as [g|].
  - match goal with |- context [commit_protected g ?c w] => pose proof (frame_commit g c w) as E;
      destruct (commit_protected g c w) as [[] w1] end; cbn [snd] in *; eapply silver_frame in E; [|done|..|done]; auto.
  - destruct (if bool_decide (act = _) then _ else _) as [first w1] eqn:E1.
    assert (silver_on w1.(live)) as K1.
    { revert E1. case_bool_decide; [by intros [= _ <-]|]. intros E1.
      pose proof (frame_durable (lit "active_fangs.json") act false w) as K. rewrite E1 in K. by eapply silver_frame. }
    destruct first; [|by apply Deg].
    pose proof (silver_frame _ _ (frame_durable (lit "pack.json") candidate false w1) K1) as K2.
    destruct (durable _ candidate false w1) as [[] w2]; cbn [snd] in *; [by apply Pub|]. destruct (l_degraded _); [by apply invalidate_silver|].
    pose proof (silver_frame _ _ (frame_durable (lit "active_fangs.json") (l_active (live w)) false w2) K2) as K3.
    destruct (durable _ _ false w2) as [[] w3]; cbn [snd] in *; [done|by apply invalidate_silver].
Qed.

Lemma pack_silver cleanup_ok req : keeps (pack_cmd (D := D) cleanup_ok req).
Proof.
  unfold pack_cmd, pack_candidate. cbn zeta. repeat silver_step.
  - apply k_run. intros w. apply address_change_silver.
  - apply k_run. intros w Hw. match goal with |- context [deny_member ?n ?r ?l] => pose proof (deny_member_silver n r l Hw) as K end.
    by destruct (deny_member _ _ _).
  - apply k_run. intros w (Hs & Hm & Hf & Hl). match goal with |- context [match ?r with Some _ => _ | None => _ end] => destruct r as [peer|] end;
      [|by split_and!].
    pose proof (removed_text_stays peer _ Hl) as Hl'. by destruct (Authority.removed_text peer _) as [au [[]|]]; split_and!.
Qed.

(** *** Governance and the end of a node *)

Lemma fence_node_silver s : silver_on s → silver_on (fence_node s).2.
Proof.
  intros (Hs & Hm & Hf & Hl). unfold fence_node. pose proof (lock_locks (l_authority s)) as Hl'.
  destruct (Authority.lock (l_authority s)) as [a [e|]]; cbn [fst] in Hl'; [|by split_and!]. cbn zeta.
  destruct (Fangs.abort_all _) as [g r]. by split_and!.
Qed.

Lemma deny_step_silver fences revoked s : silver_on s → silver_on (deny_step fences revoked s).2.
Proof.
  intros Hon. unfold deny_step. destruct (if fences then fence_node s else (Some 0%nat, s)) as [o s1] eqn:E.
  assert (silver_on s1) as K1.
  { destruct fences; [|by injection E as _ <-]. pose proof (fence_node_silver s Hon) as K. by rewrite E in K. }
  destruct o as [n|]; [|done]. pose proof (deny_all_silver revoked n s1 K1) as K2.
  destruct (deny_all revoked n s1) as [[closed|] s2]; [|done]. cbn [snd] in K2. destruct K2 as (Hs & Hm & Hf & Hl). cbn zeta.
  pose proof (epoch_of_stays _ Hl) as Hl'. cbn [l_authority set_active_fangs set_status].
  destruct (Authority.locking _ _) as [a e]. by split_and!.
Qed.

Lemma lock_node_silver s : silver_on s → silver_on (Terminal.lock_node s).
Proof.
  intros (Hs & Hm & Hf & Hl). unfold Terminal.lock_node. cbn zeta. destruct (Fangs.abort_all _) as [g r].
  split_and!; [done|done|done|apply lock_locks].
Qed.
Lemma die_silver s (w : World D) : silver_on w.(live) → silver_on (Terminal.die s w).2.(live).
Proof.
  intros Hw%lock_node_silver. unfold Terminal.die. cbn zeta. cbn [live on_live].
  destruct (l_den _); [|done]. destruct (Tombstone.death _ _ _) as [t|]; [|done]. by destruct (Terminal.bury _ _).
Qed.
Lemma retire_silver confirm (w : World D) : silver_on w.(live) → silver_on (Terminal.retire confirm w).2.(live).
Proof.
  intros Hw. unfold Terminal.retire. destruct (l_pelt _) as [pelt|]; [|done]. destruct (negb (bool_decide _)); [done|].
  destruct (negb (l_den _)); [done|]. cbn zeta. set (w1 := on_live _ w).
  assert (silver_on w1.(live)) as K1.
  { destruct Hw as (Hs & Hm & Hf & Hl). split_and!; [done|done|done|apply lock_locks]. }
  clearbody w1. destruct (Tombstone.retirement _ _) as [t|]; [|done].
  destruct (Terminal.write t _) as [[e| |e] d]; [| |done].
  - cbn [snd on_live on_disk live]. unfold Terminal.unlock_after_failure. cbn zeta.
    assert (silver_active (set_dying false (live w1)) = true) as -> by (apply bool_decide_eq_true; apply K1). done.
  - pose proof (lock_node_silver _ K1) as K2. destruct (Terminal.finish _ _) as [x d2]. exact K2.
Qed.

Lemma fence_silver g h : keeps (fence g h : em D (str * str) ()).
Proof.
  intros w Hw. unfold fence. match goal with |- context [commit_protected g ?c w] => pose proof (silver_frame _ _ (frame_commit g c w) Hw) as K;
    by destruct (commit_protected g c w) as [[] w'] end.
Qed.

Lemma apply_statement_silver cleanup_ok s e : keeps (apply_statement (D := D) cleanup_ok s e).
Proof.
  unfold apply_statement. cbn zeta. repeat first [apply fence_silver|silver_step].
  all: try (apply v_saved; intros w; apply frame_commit).
  - apply v_run. intros w. unfold archive_statement. destruct (l_den _); [|done]. by destruct (den_replace _ _ _ _).
  - apply k_run. intros w Hw. match goal with |- context [deny_step ?b ?r ?l] => pose proof (deny_step_silver b r l Hw) as K end.
    by destruct (deny_step _ _ _).
  - apply k_run. intros w Hw. match goal with |- context [remove_all ?r ?l] => pose proof (remove_all_silver r l Hw) as K end.
    by destruct (remove_all _ _).
  - apply k_run. intros w. apply die_silver.
  - apply v_upd. intros l Hl. assert (silver_active l = true) as -> by (apply bool_decide_eq_true; apply Hl). done.
Qed.

Lemma apply_governance_silver cleanup_ok req : keeps (apply_governance (D := D) cleanup_ok req).
Proof.
  unfold apply_governance. cbn zeta. repeat silver_step. intros w Hw. unfold rejecting.
  match goal with |- context [apply_statement cleanup_ok ?s ?e w] =>
    pose proof (apply_statement_silver cleanup_ok s e w Hw) as K; by destruct (apply_statement cleanup_ok s e w) as [[?|[? ?]] ?] end.
Qed.
Lemma sync_loop_silver cleanup_ok l : ∀ applied (w : World D), silver_on w.(live) → silver_on (sync_loop cleanup_ok l applied w).2.(live).
Proof.
  induction l as [|s l IH]; intros applied w Hw; [done|]. cbn [sync_loop].
  pose proof (apply_statement_silver cleanup_ok s None w Hw) as K.
  destruct (apply_statement _ _ _ w) as [[r|stop] w']; [by apply IH|done].
Qed.
Lemma record_conflict_silver two (w : World D) : silver_on w.(live) → silver_on (record_conflict two w).2.(live).
Proof.
  intros Hw. unfold record_conflict. cbn zeta. destruct (l_governance _) as [h|]; [|done].
  destruct (l_generation (live w)) as [g|]; [|done]. destruct two as [|a [|b [|]]]; try done. destruct (_ || _ || _); [done|].
  cbn [snd]. pose proof (fence_silver g (Gov.set_forked h) w Hw) as K. by destruct (fence _ _ w) as [[] w'].
Qed.

Lemma mutation_silver secret tls_ok home sha256 now cleanup_ok req (w : World D) :
  silver_on w.(live) → silver_on (handle secret tls_ok home sha256 now cleanup_ok req w).2.(live).
Proof.
  intros Hw. unfold handle, answer.
  enough (keeps (dispatch (D := D) secret tls_ok home sha256 now cleanup_ok req)) as K.
  { specialize (K w Hw). by destruct (dispatch _ _ _ _ _ _ _ w) as [[]]. }
  destruct (plain_silver secret tls_ok home sha256 now req) as (A & B & C & E & F & G & I & J & L & M). unfold dispatch.
  repeat match goal with |- Triple.keeps _ (if ?b then _ else _) => destruct b end;
    eauto using apply_governance_silver, pack_silver.
  - clear w Hw. intros w Hw. unfold retire_cmd.
    pose proof (retire_silver (default [] (as_str (j_get req.(rq_args) (lit "confirm")))) w Hw) as K.
    by destruct (Terminal.retire _ w) as [[r|[c m]] w'].
  - unfold apply_sync. cbn zeta. repeat silver_step; apply k_run; [apply sync_loop_silver|apply record_conflict_silver].
Qed.

(** *** The other commands *)

Lemma gates_refuse id {A} (f : () → hm D A) : keeps (open_gates id ≫= f).
Proof. intros w Hw. unfold open_gates, mbind, em_bind, get, leave_if. cbn [Mutation.leave]. by rewrite (proj1 (proj2 Hw)). Qed.

Lemma active_silver {E} candidate (r : E) : keeps (saved (persist_active candidate) r).
Proof.
  apply k_saved. intros w Hw. unfold persist_active. destruct (l_degraded _); [done|]. destruct (StateValidation.active _ _); [|done].
  pose proof (silver_frame _ _ (frame_save (l_generation (live w)) (with_active candidate (protected_from_live w.(live)))
    (durable (lit "active_fangs.json") candidate false) w (frame_durable _ _ _ _)) Hw) as K.
  unfold persist_protected_or_legacy. by destruct (match l_generation (live w) with Some _ => _ | None => _ end) as [[] w'].
Qed.

Lemma forget_fold_fangs dead : ∀ g, (foldl (λ g id, Fangs.forget id g) g dead).(Fangs.fangs) = g.(Fangs.fangs).
Proof. induction dead as [|id l IH]; intros g; [done|]. cbn [foldl]. by rewrite IH. Qed.
Lemma sweep_silver s : silver_on s → silver_on (sweep s).2.
Proof.
  intros (Hs & Hm & Hf & Hl). unfold sweep. cbn zeta. split_and!; [done|done| |done]. cbn. unfold Fangs.remove_finished.
  apply drop_records_none. by rewrite forget_fold_fangs.
Qed.

Lemma close_fang_silver req : keeps (close_fang (D := D) req).
Proof.
  unfold close_fang. cbn zeta. apply (ok_bind _ _ (λ s w, silver_on w.(live) ∧ s.(l_registry).(Fangs.fangs) = [])).
  { intros w Hw. split; [done|apply Hw]. }
  intros s. eapply ok_bind; [apply ok_leave_if; by intros w [? _]|]. intros u. cbn beta.
  intros w [[Hw Hf] _]. unfold mbind, em_bind, or_leave, Fangs.find_id. rewrite Hf. done.
Qed.

Lemma open_refused o id peer local remote tr act : keeps (open_fang_with_profile (D := D) o id peer local remote tr act).
Proof. apply gates_refuse. Qed.
Lemma open_provider_refused o id service local tr : keeps (open_provider_fang (D := D) o id service local tr).
Proof. apply gates_refuse. Qed.

Lemma deactivate_silver req : keeps (deactivate_profile (D := D) req).
Proof.
  unfold deactivate_profile. cbn zeta. do 3 (apply k_bind; [keep_step|intros ?]). apply k_bind; [apply active_silver|intros ?].
  apply k_bind; [keep_step|intros st]. apply k_bind; [|intros; apply k_ret]. apply v_upd. intros s (Hs & Hm & Hf & Hl).
  set (ids := Fangs.f_id <$> _). clearbody ids. unfold Fangs.terminate_ids.
  pose proof (terminate_fold_fangs ids (l_registry s, l_runtime s)) as K. destruct (foldl _ _ _) as [g r]. cbn [fst] in K.
  cbn [l_status set_active_fangs set_status set_runtime set_registry mode]. rewrite Hm, andb_false_r.
  split_and!; [done|done| |done]. apply drop_records_none. by rewrite K.
Qed.

Lemma silver_trigger_silver req : keeps (silver_trigger (D := D) req).
Proof.
  unfold silver_trigger. apply k_bind.
  { apply k_run. intros w (Hs & Hm & Hf & Hl). pose proof (lock_locks (l_authority (live w))) as K.
    destruct (Authority.lock _) as [a e]. by split_and!. }
  intros epoch. apply k_bind; [keep_step|intros ?]. apply k_bind.
  { apply v_saved. intros w. apply frame_save, frame_durable_bytes. }
  intros ?. apply k_bind; [|intros; apply k_ret]. apply v_upd. intros s (Hs & Hm & Hf & Hl). unfold enter_silver.
  destruct (Fangs.abort_all _) as [g r]. by split_and!.
Qed.

Ltac own_step := lazymatch goal with
  | |- Triple.keeps _ (open_fang_with_profile _ _ _ _ _ _ _) => apply open_refused
  | |- Triple.keeps _ (open_fang_from_parts _ _ _ _ _ _) => apply open_refused
  | |- Triple.keeps _ (open_provider_fang _ _ _ _ _) => apply open_provider_refused
  | |- Triple.keeps _ (deactivate_profile _) => apply deactivate_silver
  | |- Triple.keeps _ (silver_trigger _) => apply silver_trigger_silver
  | |- Triple.keeps _ (close_fang _) => apply close_fang_silver
  | |- Triple.keeps _ (service_connect _ _) => unfold service_connect; cbn zeta
  | |- Triple.keeps _ (open_profile _ _) => unfold open_profile; cbn zeta
  | |- Triple.keeps _ (answers _ _) => unfold answers
  | |- Triple.keeps _ (upd (λ s, (sweep s).2)) => apply v_upd, sweep_silver
  | |- Triple.keeps _ (upd _) => by apply v_upd
  | |- _ => keep_step
  end.

Lemma own_command_silver env req : req.(rq_cmd) ≠ lit "silver.reset" → keeps (own_command (D := D) env req).
Proof.
  intros Hr. assert (is_cmd req (lit "silver.reset") = false) as E by (by apply bool_decide_eq_false).
  unfold own_command. rewrite E. clear E Hr. cbn zeta. repeat own_step.
  apply k_run. intros w Hw. pose proof (sweep_silver _ Hw) as K. by destruct (sweep (live w)).
Qed.

(** *** The control interface *)

Lemma operator_silver sha256 e req (w : World D) :
  (∀ w, silver_on w.(live) → silver_on (e.(Operator.ne_meanwhile) w).(live)) → silver_on w.(live) →
  silver_on (Operator.handle sha256 e req w).2.(live).
Proof.
  intros Hm Hw. unfold Operator.handle. destruct (is_cmd _ _).
  { unfold Operator.show_own. by destruct (l_pelt _). }
  destruct (is_cmd _ _); [done|]. destruct (is_cmd _ _); [done|]. unfold Operator.network, Operator.prepare. cbn zeta.
  assert (Operator.is_silver w.(live) = true) as -> by (unfold Operator.is_silver; by rewrite (proj1 (proj2 Hw))).
  destruct (Operator.transport_arg req); [|done]. cbn [mbind result_bind]. by destruct (Operator.find_target sha256 req).
Qed.

(** What the node does while a command waits keeps Silver, as this theorem
    says of the other commands. *)
Definition calm (env : Env D) : Prop :=
  ∀ w, silver_on w.(live) → silver_on (env.(e_net).(Operator.ne_meanwhile) w).(live).

Lemma dispatch_silver env req (w : World D) : calm env → req.(rq_cmd) ≠ lit "silver.reset" →
  silver_on w.(live) → silver_on (dispatch_request env req w).2.(live).
Proof.
  intros Hc Hr Hw. unfold dispatch_request. destruct (Operator.dying_refusal _ _); [done|]. destruct (_ && _); [done|].
  destruct (Mutation.handles _); [by apply mutation_silver|]. destruct (Operator.handles _); [by apply operator_silver|].
  unfold answer. pose proof (own_command_silver env req Hr w Hw) as K. by destruct (own_command env req w) as [[]].
Qed.

(** The requests the network phase makes. *)
Lemma resolve_first_cmd env req (w : World D) req1 w1 : req.(rq_cmd) ≠ lit "silver.reset" →
  resolve_first env req w = (Ok req1, w1) → req1.(rq_cmd) ≠ lit "silver.reset".
Proof.
  intros Hr. unfold resolve_first. cbn zeta. destruct (is_cmd _ _).
  { intros [= Hs _]. revert Hs. unfold Operator.resolve_sync. destruct (Operator.dying_refusal _ _); [done|].
    destruct (Operator.transport_arg req) as [tr|]; cbn [mbind result_bind]; [|done]. destruct (Operator.is_silver _); [done|].
    destruct (l_pelt _); cbn [ok_or mbind result_bind]; [|done]. destruct (l_governance _) as [h|]; cbn [ok_or mbind result_bind]; [|done].
    destruct (Gov.forked h); [done|]. destruct (negb _); [done|]. cbn zeta. destruct (Operator.unknown_member _ _); [done|].
    destruct (Operator.sync_rounds _ _ _ _ _ _ _ _) as [[st ch] cf]. by intros [= <-]. }
  destruct (one_of _ _); [|by intros [= <- _]]. intros [= Hs _]. revert Hs. unfold Operator.resolve_add_from.
  destruct (Operator.dying_refusal _ _); [done|]. intros Hs. ww_inv. by destruct (is_cmd _ _).
Qed.

(** A line that is not a request to reset Silver. *)
Definition not_reset (tree : list byte → option Json) (line : list byte) : Prop :=
  ∀ req, ControlLimits.parse tree line = Ok req → req.(rq_cmd) ≠ lit "silver.reset".

Lemma serve_silver tree steps (w : World D) :
  silver_on w.(live) → Forall (λ x, calm x.1 ∧ not_reset tree x.2) steps → silver_on (ControlSpec.serve tree steps w).(live).
Proof.
  intros Hw Hf. revert w Hw. induction Hf as [|[env line] steps [Hc Hn] _ IH]; intros w Hw; [done|].
  cbn [ControlSpec.serve foldl]. apply IH. cbn [fst snd] in *. unfold client_line, not_reset in *.
  destruct (ControlLimits.parse tree line) as [req|]; [|done]. specialize (Hn req eq_refl). destruct (is_cmd _ _); [done|].
  assert (silver_on (resolve_first env req w).2.(live)) as K.
  { unfold resolve_first. cbn zeta. destruct (is_cmd _ _); [by apply Hc|]. by destruct (one_of _ _); [apply Hc|]. }
  destruct (resolve_first env req w) as [[req1|r] w1] eqn:Er; [|done]. cbn [snd] in K.
  pose proof (dispatch_silver env req1 w1 Hc (resolve_first_cmd _ _ _ _ _ Hn Er) K) as K2.
  by destruct (dispatch_request env req1 w1).
Qed.

(** *** Opens in Silver *)

Definition silver_refusal (id : str) : ControlResponse :=
  response_err id (lit "SILVER_ACTIVE") (lit "Silver mode is active. Fang open rejected.").
Definition opens_refused (w : World D) : Prop :=
  (∀ o id peer local remote tr act,
     open_fang_with_profile o id peer local remote tr act w = (Err (silver_refusal id), w)) ∧
  (∀ o id service local tr, open_provider_fang o id service local tr w = (Err (silver_refusal id), w)).
Lemma silver_refuses (w : World D) : silver_on w.(live) → opens_refused w.
Proof.
  intros (_ & Hm & _). assert (∀ id A (f : () → hm D A), (open_gates id ≫= f) w = (Err (silver_refusal id), w)) as K.
  { intros id A f. unfold open_gates, mbind, em_bind, get, leave_if. cbn [Mutation.leave]. by rewrite Hm. }
  split; intros; [apply (K id)|apply (K id)].
Qed.

(** *** Silver is entered *)

(** What was running has been told to stop: every session for good, every
    listener and every tracked child of a Fang, and nothing is spawned for
    them any more. *)
Definition stopped_all (s s' : DaemonState) : Prop :=
  (∀ id, is_Some (s.(l_authority).(Authority.gate).(Authority.sessions) !! id) →
     Authority.cancelled id s'.(l_authority) = true ∧
     ∀ ops, AuthoritySpec.fenced id (AuthoritySpec.run s'.(l_authority) ops)) ∧
  (∀ f t, s.(l_registry).(Fangs.tasks) !! f = Some t → Fangs.status_of s'.(l_runtime) t ≠ Fangs.Running) ∧
  (∀ f c, s.(l_registry).(Fangs.cancellations) !! f = Some c →
     Fangs.spawn c s'.(l_runtime) = (false, s'.(l_runtime)) ∧
     ∀ t, t ∈ (Fangs.tracker s.(l_runtime) c).(Fangs.handles) → Fangs.status_of s'.(l_runtime) t ≠ Fangs.Running).

Lemma enter_silver_stops s0 s : AuthoritySpec.gate_inv s0.(l_authority).(Authority.gate) →
  (∃ e, Authority.lock s0.(l_authority) = (s.(l_authority), Some e)) →
  s.(l_registry) = s0.(l_registry) → s.(l_runtime) = s0.(l_runtime) →
  silver_on (enter_silver s) ∧ stopped_all s0 (enter_silver s).
Proof.
  intros Hi [e Hl] Hg Hr. unfold enter_silver. rewrite Hg, Hr.
  pose proof (FangsSpec.shutdown_stops_all (l_registry s0) (l_runtime s0)) as K.
  pose proof (lock_locks (l_authority s0)) as Hlk. rewrite Hl in Hlk. cbn [fst] in Hlk.
  assert (Authority.poisoned (l_authority s0) = false) as Hp.
  { unfold Authority.lock in Hl. by destruct (Authority.poisoned (l_authority s0)). }
  destruct (AuthoritySpec.lock_cuts _ _ _ Hi Hp Hl) as [Hcut _].
  destruct (Fangs.abort_all _) as [g r]. destruct K as (_ & Kt & Kc). split; [by split_and!|]. by split_and!.
Qed.

Lemma enter_silver_stopped s : stopped s → stopped (enter_silver s).
Proof. unfold enter_silver. by destruct (Fangs.abort_all (l_registry s, l_runtime s)). Qed.

Lemma frame_persist_silver b (w : World D) : frame_of (persist_silver b w).2.(live) = frame_of w.(live).
Proof. unfold persist_silver. apply frame_save, frame_durable_bytes. Qed.

(** What the trigger leads to: the save comes between the lock and the rest. *)
Lemma trigger_spec req (w : World D) : AuthoritySpec.gate_inv w.(live).(l_authority).(Authority.gate) →
  let '(r, w') := answer (silver_trigger req) w in
  Authority.is_locked w'.(live).(l_authority) = true ∧
  (r.(rs_ok) = true → ∃ a w2, persist_silver true (on_live (set_authority a) w) = (Ok (), w2) ∧ w' = on_live enter_silver w2 ∧
     silver_on w'.(live) ∧ stopped_all w.(live) w'.(live)).
Proof.
  intros Hi. unfold answer, silver_trigger, mbind, em_bind, run, or_leave, saved.
  pose proof (lock_locks (l_authority (live w))) as Hl.
  destruct (Authority.lock _) as [a [e|]] eqn:Ha; cbn [fst] in Hl; [|by cbn]. cbn [mret em_ret].
  set (w1 := on_live (set_authority a) w). pose proof (frame_persist_silver true w1) as F.
  destruct (persist_silver true w1) as [[[]|x] w2] eqn:Hps; cbn [snd] in F; injection F as _ Fg Fa Fr.
  - cbn [upd]. destruct (enter_silver_stops (live w) (live w2) Hi) as [Hon Hst].
    { exists e. by rewrite Fa. } { done. } { done. }
    split; [apply Hon|]. intros _. by exists a, w2.
  - cbn. split; [by rewrite Fa|done].
Qed.

Lemma own_command_trigger env req : req.(rq_cmd) = lit "silver.trigger" →
  own_command (D := D) env req = silver_trigger req.
Proof.
  intros Hc. unfold own_command, is_cmd. rewrite Hc.
  repeat (rewrite bool_decide_eq_false_2 by (by vm_compute)). by rewrite bool_decide_eq_true_2.
Qed.

(** A client's trigger, on a node that does not refuse it. *)
Lemma client_trigger tree env line req (w : World D) :
  ControlLimits.parse tree line = Ok req → req.(rq_cmd) = lit "silver.trigger" →
  (∃ r go, client_line tree env line w = (r, go, w) ∧ r.(rs_ok) = false ∧
     (w.(live).(l_dying) = true ∨ w.(live).(l_degraded) = true)) ∨
  (client_line tree env line w).1.1 = (answer (silver_trigger req) w).1 ∧
  (client_line tree env line w).2 = (answer (silver_trigger req) w).2.
Proof.
  intros Hp Hc. unfold client_line. rewrite Hp.
  assert (∀ c, lit "silver.trigger" ≠ c → is_cmd req c = false) as Hno.
  { intros c Hn. apply bool_decide_eq_false. by rewrite Hc. }
  rewrite Hno by (by vm_compute). unfold resolve_first. cbn zeta. rewrite Hno by (by vm_compute).
  assert (one_of req [lit "service.add_from"; lit "service.provider.add_from"] = false) as ->.
  { unfold one_of. rewrite Hc. by vm_compute. }
  unfold dispatch_request. destruct (Operator.dying_refusal req (live w)) as [r|] eqn:Hd.
  { left. unfold Operator.dying_refusal in Hd. destruct (l_dying (live w)) eqn:Hy; [|done]. cbn [andb] in Hd.
    destruct (one_of _ _) in Hd; [done|]. injection Hd as <-. eexists _, _. split; [done|]. split; [done|by left]. }
  rewrite Hc. change (ControlLimits.mutates (lit "silver.trigger")) with true. cbn [andb].
  destruct (l_degraded (live w)) eqn:Hg; [left; eexists _, _; split; [done|split; [done|by right]]|right].
  change (Mutation.handles (lit "silver.trigger")) with false. change (Operator.handles (lit "silver.trigger")) with false.
  cbn iota. rewrite own_command_trigger by done. by destruct (answer _ _).
Qed.
End silver.

(** ** What a restart makes of the fence *)

Section unadmitted.
Context `{!Crypto} `{!Base64} `{!Base64Laws} `{!MutationJson} `{!ProtectedStateSpec.ProtectedJsonLaws} `{!Serde Tombstone.Document}.
Context `{DL : DenLaws D} `{!DenWipe D}.
Context (cleanup_ok : str → bool).

Lemma deny_all_locked l : ∀ n s, Authority.is_locked s.(l_authority) = true → Authority.is_locked (deny_all l n s).2.(l_authority) = true.
Proof.
  induction l as [|p l IH]; intros n s Hl; [done|]. cbn [deny_all]. pose proof (deny_text_stays (pr_fingerprint p) _ Hl) as Hl'.
  destruct (Authority.deny_peer_text _ _) as [a [[]|]]; cbn [fst] in Hl'; [|done]. cbn zeta.
  destruct (Fangs.terminate_peer _ _) as [m [g r]]. by apply IH.
Qed.
Lemma fence_locks revoked s : Authority.is_locked (deny_step true revoked s).2.(l_authority) = true.
Proof.
  unfold deny_step, fence_node. pose proof (lock_locks (l_authority s)) as Hl.
  destruct (Authority.lock _) as [a [e|]]; cbn [fst] in Hl; [|done]. cbn zeta. destruct (Fangs.abort_all _) as [g r].
  match goal with |- context [deny_all revoked ?n ?x] => pose proof (deny_all_locked revoked n x Hl) as K;
    destruct (deny_all revoked n x) as [[closed|] s2] end; [|done]. cbn [snd] in K. cbn zeta.
  pose proof (epoch_of_stays _ K) as K2. cbn [l_authority set_active_fangs set_status]. by destruct (Authority.locking _ _).
Qed.

Notation sound g := (λ w : World D, tracks w ∧ ¬ stopped w.(live) ∧ w.(live).(l_generation) = Some g).
Notation ok := (Triple.ok (λ _ : World D, True)).

Lemma sound_core g (w : World D) s : core s = core w.(live) → sound g w → sound g (mkWorld s w.(disk)).
Proof.
  intros Hc (Ht & Hs & Hg). split; [by apply tracks_core|]. injection Hc as Ed Ee _ Eg _ _ _ _ _. unfold stopped in *. cbn. split; congruence.
Qed.

Lemma commit_saves_silver g c w w' n : sound g w → Authority.is_locked w.(live).(l_authority) = true →
  c.(ProtectedState.silver_locked) = true → c.(ProtectedState.target_policy) = w.(live).(l_policy) →
  commit_protected g c w = (Ok n, w') → ControlSpec.saved_silver true w'.
Proof.
  intros ([?|(Hw & gen & b & Hg & Hd)] & Hs & Hgen) Hl Hc Hp; [done|]. rewrite Hg in Hgen. injection Hgen as <-.
  unfold commit_protected. destruct (l_den _); [|done]. destruct (ProtectedState.commit _ _ _) as [tx d'] eqn:Ec.
  pose proof (durable_gen_commit _ _ _ _ _ _ Hd ltac:(by rewrite Hp) Ec) as K. destruct tx as [g'|e|e]; [|done|done].
  destruct K as [-> K]. intros [= _ <-]. eexists _, _. split; [exact K|done].
Qed.


(** Silver itself is not touched. *)
Notation flag s := (s.(l_status).(silver)).
Lemma flag_deny_all l : ∀ n s, flag (deny_all l n s).2 = flag s.
Proof.
  induction l as [|p l IH]; intros n s; [done|]. cbn [deny_all]. destruct (Authority.deny_peer_text _ _) as [a [[]|]]; [|done].
  cbn zeta. destruct (Fangs.terminate_peer _ _) as [m [g r]]. by rewrite IH.
Qed.
Lemma flag_deny_step b revoked s : flag (deny_step b revoked s).2 = flag s.
Proof.
  unfold deny_step. destruct (if b then fence_node s else (Some 0%nat, s)) as [o s1] eqn:E.
  assert (flag s1 = flag s) as Hf.
  { destruct b; [|by injection E as _ <-]. revert E. unfold fence_node. destruct (Authority.lock _) as [a [x|]]; [|by intros [= _ <-]].
    cbn zeta. destruct (Fangs.abort_all _) as [g r]. by intros [= _ <-]. }
  destruct o as [n|]; [|done]. pose proof (flag_deny_all revoked n s1) as K. destruct (deny_all revoked n s1) as [[closed|] s2];
    cbn [snd] in *; [|congruence]. cbn zeta. destruct (Authority.locking _ _) as [a x]. cbn. congruence.
Qed.
Lemma flag_remove_all l : ∀ s, flag (remove_all l s).2 = flag s.
Proof. induction l as [|p l IH]; intros s; [done|]. cbn [remove_all]. destruct (Authority.removed_text _ _) as [a [[]|]]; [by rewrite IH|done]. Qed.

Section statement.
Context (stmt : Gov.Statement) (e : option Hash) (head next : Gov.Head) (x : str) (own : option Key).
Context (Hseq : 0 ≤ stmt.(Gov.core).(Gov.sequence)) (Happ : Gov.apply (Some head) stmt e = Ok (Gov.Applied next))
  (Halive : next.(Gov.dead_at) = None) (Hwas : admits_own own head = true) (Hnow : admits_own own next = false).

Notation before g := (λ w : World D, sound g w ∧ flag w.(live) = x ∧ NodeGovernance.own_key w.(live).(l_pelt) = own).
Notation after := (λ w : World D, ControlSpec.saved_silver true w ∧ flag w.(live) = x).

Lemma unadmission_saves :
  ok (λ w, tracks w ∧ ¬ stopped w.(live) ∧ w.(live).(l_governance) = Some head ∧ flag w.(live) = x ∧
           NodeGovernance.own_key w.(live).(l_pelt) = own)
    (apply_statement (D := D) cleanup_ok stmt e) (λ _, after).
Proof.
  unfold apply_statement. apply (ok_bind _ _ (λ h w, (tracks w ∧ ¬ stopped w.(live) ∧ flag w.(live) = x ∧
    NodeGovernance.own_key w.(live).(l_pelt) = own) ∧ h = Some head)); [by intros w (? & ? & ? & ? & ?)|].
  intros h. apply ok_pure. intros ->.
  apply (ok_bind _ _ (λ gen w, (tracks w ∧ ¬ stopped w.(live) ∧ flag w.(live) = x ∧
    NodeGovernance.own_key w.(live).(l_pelt) = own) ∧ gen = w.(live).(l_generation))); [by intros w Hw|]. intros gen.
  apply (ok_bind _ _ (λ _ w, (tracks w ∧ ¬ stopped w.(live) ∧ flag w.(live) = x ∧
    NodeGovernance.own_key w.(live).(l_pelt) = own) ∧ gen = w.(live).(l_generation))); [by intros w Hw|]. intros peers.
  apply (ok_bind _ _ (λ g, before g)).
  { intros w [(Ht & Hs & Hf & Ho) Hg]. unfold or_leave. destruct gen as [g|]; [|done]. by split_and!. }
  intros g. rewrite Happ.
  apply (ok_bind _ _ (λ _, before g)).
  { apply ok_run with (Q := λ _, before g). intros w ((Ht & Hs & Hg) & Hf & Ho).
    pose proof (archive_statement_tracks next.(Gov.h_sequence) stmt w) as K. rewrite archive_statement_live. split_and!; try done.
    apply K; [|done]. by eapply applied_sequence. }
  intros archived. apply (ok_bind _ _ (λ _, before g)).
  { eapply ok_weaken; [by apply (ok_leave_if (before g))|done|by intros ? w [? _]]. }
  intros _. cbn zeta. set (revoked := filter _ peers). set (candidate := filter _ peers).
  apply (ok_bind _ _ (λ o w, before g w ∧ o = own)); [by intros w (Hs & Hf & Ho)|].
  intros o. apply ok_pure. intros ->. rewrite Hwas, Hnow. cbn [andb negb].
  set (locked := λ w : World D, sound g w ∧ flag w.(live) = x ∧ Authority.is_locked w.(live).(l_authority) = true).
  apply (ok_bind _ _ (λ _, locked)).
  { apply ok_run with (Q := λ _, locked). intros w (Hs & Hf & Ho).
    pose proof (core_deny_step true revoked w.(live)) as C. pose proof (flag_deny_step true revoked w.(live)) as F.
    pose proof (fence_locks revoked w.(live)) as L. destruct (deny_step _ _ _) as [o l]. cbn [snd] in *.
    split; [by apply (sound_core g w)|]. split; [cbn; congruence|done]. }
  intros denied. apply (ok_bind _ _ (λ _, locked)).
  { eapply ok_weaken; [by apply (ok_some locked)|done|by intros ? w [? _]]. }
  intros [closed reopen]. apply (ok_bind _ _ (λ _, after)).
  { apply ok_saved. intros w (Hs & Hf & Hl). unfold unit_of.
    match goal with |- context [commit_protected g ?c w] => pose proof (commit_saves_silver g c w) as K;
      pose proof (frame_commit g c w) as F; destruct (commit_protected g c w) as [[n|] w'] end; cbn [fst snd] in *; [|done].
    split; [by apply (K _ n Hs)|]. unfold frame_of in F. injection F as F _ _ _. congruence. }
  intros _. apply (ok_bind _ _ (λ _, after)); [by apply ok_upd|]. intros _.
  apply (ok_bind _ _ (λ _, after)).
  { apply ok_run with (Q := λ _, after). intros w [Hs Hf]. pose proof (flag_remove_all revoked w.(live)) as F.
    destruct (remove_all _ _) as [b l]. split; [done|]. cbn in *. congruence. }
  intros published. do 2 (apply (ok_bind _ _ (λ _, after));
    [eapply ok_weaken; [by apply (ok_leave_if after)|done|by intros ? w [? _]]|intros _]).
  rewrite Halive, bool_decide_eq_false_2 by (by intros []). apply (ok_bind _ _ (λ _, after)); [by apply ok_ret|]. intros _. by apply ok_ret.
Qed.
End statement.

(** C40: a node the network stops admitting restarts in Silver. The flag that
    the protected state calls Silver is read from the authority's lock, and
    the lock also fences a node that is not admitted. So a statement that
    un-admits this node saves Silver as locked in the commit of the new
    head, although Silver itself is untouched; the next start then sets
    Silver active, and no later statement, one that admits the node again
    included, reopens the gate. *)
Theorem unadmission_restarts_silver stmt e head next (w w' : World D) j d2 :
  tracks w → ¬ stopped w.(live) → w.(live).(l_governance) = Some head → 0 ≤ stmt.(Gov.core).(Gov.sequence) →
  Gov.apply (Some head) stmt e = Ok (Gov.Applied next) → next.(Gov.dead_at) = None →
  admits_own (NodeGovernance.own_key w.(live).(l_pelt)) head = true →
  admits_own (NodeGovernance.own_key w.(live).(l_pelt)) next = false →
  apply_statement cleanup_ok stmt e w = (Ok j, w') → ProtectedStateSpec.reopens w'.(disk) d2 → den_quiet d2 →
  flag w'.(live) = flag w.(live) ∧
  ∃ g p, ProtectedState.load d2 = Ok (ProtectedState.Loaded g p) ∧
    ∀ s0, s0.(l_registry).(Fangs.fangs) = [] →
      let s2 := Persistence.apply_protected_state s0 p (Some g.(ProtectedState.number)) in
      silver_on s2 ∧
      ∀ stmt' e' d3, silver_on (apply_statement cleanup_ok stmt' e' (mkWorld s2 d3)).2.(live).
Proof.
  intros Ht Hs Hg Hseq Ha Halive Hwas Hnow Hrun Hre Hq.
  pose proof (unadmission_saves stmt e head next (flag w.(live)) _ Hseq Ha Halive Hwas Hnow w) as K.
  rewrite Hrun in K. destruct K as [(g & p & Hd & Hp) Hf]; [done|]. split; [done|].
  exists g, p. split; [by eapply durable_gen_load|]. intros s0 Hempty.
  assert (silver_on (Persistence.apply_protected_state s0 p (Some g.(ProtectedState.number)))) as Hon.
  { unfold Persistence.apply_protected_state. rewrite Hp. by split_and!. }
  split; [exact Hon|]. intros stmt' e' d3.
  pose proof (apply_statement_silver cleanup_ok stmt' e'
    (mkWorld (Persistence.apply_protected_state s0 p (Some g.(ProtectedState.number))) d3) Hon) as K.
  unfold ok in K. match type of K with context [apply_statement ?a ?b ?c ?d] => set (r := apply_statement a b c d) in * end.
  by destruct r as [[] ?].
Qed.
End unadmitted.
End SilverSpec.
