(* ===== verification/ControlDemo.v ===== *)
(** * Concrete requests for the theorems on the control interface

    A sync among three peers, one of which offers a bad copy; a lookup; the
    scheduler; a node in Silver; a node that its network stops admitting. *)

From stdpp Require Import gmap.
From S2P Require Export SilverSpec.
From S2P Require Import AdminDemo GovernanceDemo.

Local Open Scope Z_scope.

(** ** Discovery *)

Module OperatorDemo.
Import Operator OperatorSpec GovDemo.
Import Toy ToyWipe AdminJson TombstoneDemo.

Definition bare (c : Gov.Core) : Gov.Statement := Gov.mkStatement c [].
Definition good : Gov.Statement := signed demo_admission.
Definition rival : Gov.Statement := signed demo_rival.

Definition succeeds (h : Gov.Head) (s : Gov.Statement) : bool :=
  match successor h s with Some _ => true | None => false end.
Lemma succeeds_is h s : succeeds h s = true → ∃ n, successor h s = Some n.
Proof. unfold succeeds. destruct (successor h s) as [n|]; [by exists n|done]. Qed.

Lemma bad_copy_hides_witness :
  ∃ n', walk (walk_fuel [[bare demo_admission]; [good]; [rival]]) [[bare demo_admission]; [good]; [rival]] 0
    (mkWalk demo_h0 [] false None) = mkWalk n' [rival] true None.
Proof.
  destruct (succeeds_is demo_h0 good) as [n Hn]; [vm_compute; reflexivity|].
  destruct (succeeds_is demo_h0 rival) as [n' Hn']; [vm_compute; reflexivity|].
  exists n'. apply (bad_copy_hides demo_h0 (bare demo_admission) good rival n n').
  - vm_compute. reflexivity.
  - vm_compute. reflexivity.
  - vm_compute. reflexivity.
  - exact Hn.
  - exact Hn'.
Defined.

Lemma two_copies (s1 s2 : Gov.Statement) :
  Gov.core_hash s1.(Gov.core) ≠ Gov.core_hash s2.(Gov.core) → no_worse_copy [[s1]; [s2]].
Proof.
  intros Hne x y a b h Hx Hy Ha Hb He.
  assert (∀ z c, z ∈ [[s1]; [s2]] → c ∈ z → c = s1 ∨ c = s2) as K.
  { intros z c Hz Hc. apply elem_of_cons in Hz as [->|Hz]; [|apply list_elem_of_singleton in Hz as ->];
      apply list_elem_of_singleton in Hc; auto. }
  destruct (K x a Hx Ha) as [->| ->], (K y b Hy Hb) as [->| ->]; try done; by symmetry in He.
Qed.

Lemma demo_hashes : Gov.core_hash good.(Gov.core) ≠ Gov.core_hash rival.(Gov.core).
Proof. apply (bool_decide_unpack (_ ≠ _)). vm_compute. exact I. Qed.

Lemma offered_fork_reported_witness :
  ∃ a b, (walk (walk_fuel [[good]; [rival]]) [[good]; [rival]] 0 (mkWalk demo_h0 [] false None)).(wk_conflict) = Some (a, b).
Proof.
  destruct (succeeds_is demo_h0 good) as [n Hn]; [vm_compute; reflexivity|].
  destruct (succeeds_is demo_h0 rival) as [n' Hn']; [vm_compute; reflexivity|].
  destruct (offered_fork_reported [[good]; [rival]] [good] [rival] 0 good rival demo_h0 demo_h0 []) as (a & b & Hc & _).
  - exact (two_copies good rival demo_hashes).
  - left.
  - right. left.
  - reflexivity.
  - reflexivity.
  - reflexivity.
  - reflexivity.
  - split; [exact demo_hashes|]. split; [exists n; exact Hn|exists n'; exact Hn'].
  - exists a, b. exact Hc.
Defined.

(** A member that answers a sync with the next statement. *)
Definition peer_key : Key := Toy.key_of 7.
Definition fenrir : StateValidation.PeerRecord :=
  StateValidation.mkPeerRecord (lit "fenrir") (Pelt.fingerprint_of_bytes (array_bytes peer_key)) (lit "tcp://10.0.0.7:4433")
    StateValidation.Packmate (Some (b64_encode (array_bytes peer_key))).
Definition own_pelt : Pelt.PeltIdentity := Pelt.generate_identity (array_fill 32 x01).
Definition sync_node : State.World ToyDisk :=
  State.mkWorld (State.set_pelt (Some own_pelt) (State.set_governance (Some demo_h0) (State.set_peers [fenrir] (State.set_mode State.Human AdminDemo.demo_live))))
    AdminDemo.demo_den.
Definition sync_req : State.ControlRequest :=
  State.mkRequest (lit "1") (lit "governance.sync") (JObj [(lit "transport", JStr (lit "tcp"))]).
Definition l_governance_of (w : State.World ToyDisk) : option Gov.Head := State.l_governance (State.live w).
Definition sync_answers (round : nat) : schedule (list Gov.Statement) :=
  match round with O => [(O, Replied None (Ok [good]))] | _ => [] end.
Definition free_lock : LockEnv := mkLockEnv true AutoSync.runtime_default true.
Definition sync_apply : State.ControlRequest :=
  match resolve_sync true free_lock sync_answers sync_req (State.live sync_node) with Ok r => r | Err _ => sync_req end.

Lemma sync_resolves : resolve_sync true free_lock sync_answers sync_req (State.live sync_node) = Ok sync_apply.
Proof.
  assert (is_ok (resolve_sync true free_lock sync_answers sync_req (State.live sync_node)) = true) as Hok by (vm_compute; reflexivity).
  unfold sync_apply. destruct (resolve_sync _ _ _ _ _); [reflexivity|discriminate Hok].
Qed.

Lemma good_ok : GovCodec.statement_ok good.
Proof.
  split_and!; [split; vm_compute; congruence|vm_compute; reflexivity|split; vm_compute; congruence|
    apply Nat.ltb_lt; vm_compute; reflexivity|apply Nat.leb_le; vm_compute; reflexivity].
Qed.

Lemma answers_decoded : decoded_replies sync_answers.
Proof.
  intros s ([|r] & i & host & l & Hin & Hs); [|by apply not_elem_of_nil in Hin]. apply list_elem_of_singleton in Hin.
  injection Hin as _ _ ->. apply list_elem_of_singleton in Hs as ->. exact good_ok.
Qed.

Definition synced : State.ControlResponse * State.World ToyDisk :=
  Mutation.answer (Mutation.apply_sync (D := ToyDisk) (λ _, true) sync_apply) sync_node.
Lemma synced_moves : stop_of synced.1 = None ∧ bool_decide (Gov.h_sequence <$> l_governance_of synced.2 = Gov.h_sequence <$> l_governance_of sync_node) = false.
Proof. vm_compute. split; reflexivity. Qed.


Definition demo_seed : Seed :=
  mkSeed (lit "fenrir") peer_key (lit "tcp://10.0.0.7:4433") (OpenFang.mkExpected (lit "f") None) Direct.
Lemma lookup_bounded_witness :
  NoDup (asked (lookup AdminDemo.demo_sha [] (Toy.key_of 1) (lit "tcp") (Toy.key_of 2) (λ _, mkHop false []) [demo_seed])).
Proof.
  refine (proj1 (lookup_bounded AdminDemo.demo_sha [] (Toy.key_of 1) (lit "tcp") (Toy.key_of 2) (λ _, mkHop false []) [demo_seed] _)).
  apply NoDup_singleton.
Defined.
End OperatorDemo.

(** ** Automatic sync *)

Module AutoSyncDemo.
Import State AutoSync AutoSyncSpec OperatorDemo Toy.

Definition active_head : Gov.Head :=
  Gov.mkHead (Toy.key_of 1) 2 (Toy.key_of 2) x07 [] [] [Toy.key_of 2] false
    (option_list (NodeGovernance.own_key (Some own_pelt))) (Some 1) None.
Definition eligible_node : DaemonState :=
  set_pelt_ready true (set_pelt (Some own_pelt) (set_governance (Some active_head) Persistence.daemon_default)).
Definition waiting : Sched := evaluate 0 0 (sched_start eligible_node).
Definition resolving_run : Sched := fire 6000 1 waiting.

Lemma sync_run_guarded_witness :
  ineligible_reason resolving_run.(sc_state) = None ∧ resolving_run.(sc_runtime).(cancelled) = false.
Proof.
  destruct (sync_run_guarded eligible_node waiting None resolving_run) as [Hs _].
  - apply rtc_once. exists None. apply (st_evaluate 0 0). reflexivity.
  - apply (st_fire 6000 5000 1). + vm_compute. reflexivity. + lia.
  - apply (Hs 6000); vm_compute; [reflexivity|discriminate].
Defined.
End AutoSyncDemo.

(** ** Requests *)

Module ControlDemo.
Import LocalFs State Mutation Control ControlSpec SilverSpec MutationSpec AdminDemo OperatorDemo.
Import Toy ToyWipe AdminJson TombstoneDemo.

Definition demo_net : Operator.NetEnv (D := ToyDisk) :=
  Operator.mkNetEnv free_lock [] (λ _, Operator.mkHop false []) [] 0 0 (λ w, w).
Definition demo_env : Env ToyDisk :=
  mkEnv ToyDisk (array_fill 32 x01) demo_tls demo_sha 0 (λ _, true)
    (OpenFang.mkOpening 0 (array_fill 16 x00) 0 0 OpenFang.Listening true) demo_net sync_answers Operator.Late (λ _ _, None) 0
    AutoSync.runtime_default (mkConfig (lit "s") (lit "h") (lit "l") (lit "q")).

Lemma demo_administered : administered demo_env.
Proof. intros w. apply rtc_refl. Qed.

(** A closing Fang on a node that reports degraded storage. *)
Definition close_req : ControlRequest := mkRequest (lit "1") (lit "fang.close") (JObj [(lit "fang_id", JStr (lit "f"))]).
Lemma read_only_requests_witness :
  read_only (mkWorld (set_degraded true Persistence.daemon_default) demo_den)
    (dispatch_request demo_env close_req (mkWorld (set_degraded true Persistence.daemon_default) demo_den)).2.
Proof. apply read_only_requests; [reflexivity|right; left; reflexivity]. Defined.

(** A node with a session and a Fang (a listener and a child) is told to go
    into Silver; then a client asks it to open a Fang. *)
Definition silver_tree (line : list byte) : option Json :=
  if bool_decide (line = lit "t")
  then Some (JObj [(lit "id", JStr (lit "1")); (lit "cmd", JStr (lit "silver.trigger")); (lit "args", JObj [])])
  else Some (JObj [(lit "id", JStr (lit "2")); (lit "cmd", JStr (lit "fang.open"));
                   (lit "args", JObj [(lit "peer", JStr (lit "wolf"))])]).
Definition trigger_req : ControlRequest := mkRequest (lit "1") (lit "silver.trigger") (JObj []).
Definition busy_world : World ToyDisk :=
  mkWorld (set_authority wolf_gate (set_runtime FangsDemo.demo_steps.2 (set_registry FangsDemo.demo_steps.1 demo_live))) demo_den.
Definition triggered : ControlResponse * bool * World ToyDisk := client_line silver_tree demo_env (lit "t") busy_world.

Lemma trigger_parses : ControlLimits.parse silver_tree (lit "t") = Ok trigger_req.
Proof. vm_compute. reflexivity. Qed.
Lemma triggered_ok :
  triggered.1.1.(rs_ok) = true ∧ triggered.2.(live).(l_degraded) = false ∧ triggered.2.(live).(l_exit_requested) = false.
Proof. vm_compute. split_and!; reflexivity. Qed.
Lemma demo_tracks : tracks (mkWorld demo_live demo_den).
Proof.
  assert (is_Some (l_generation demo_live)) as Hg by (vm_compute; eexists; reflexivity).
  by destruct (Restart.started_ok demo_tls demo_sha 0 demo_den demo_live demo_den demo_start Hg (toy_settled demo_den)).
Qed.
Lemma busy_tracks : tracks busy_world.
Proof. exact (tracks_core (mkWorld demo_live demo_den) busy_world.(live) eq_refl demo_tracks). Qed.
Lemma open_is_no_reset : not_reset silver_tree (lit "o").
Proof.
  intros req Hp. assert (∃ req0, ControlLimits.parse silver_tree (lit "o") = Ok req0 ∧ req0.(rq_cmd) = lit "fang.open") as (r0 & E & Hc)
    by (eexists; split; [vm_compute; reflexivity|reflexivity]).
  rewrite E in Hp. injection Hp as <-. rewrite Hc. discriminate.
Qed.


(** The Fang of the same node is closed, Silver is triggered, and a client
    tries the command that only the node itself makes. *)
Definition object (cmd : str) (args : list (str * Json)) : option Json :=
  Some (JObj [(lit "id", JStr (lit "1")); (lit "cmd", JStr cmd); (lit "args", JObj args)]).
Definition control_tree (line : list byte) : option Json :=
  if bool_decide (line = lit "c") then object (lit "fang.close") [(lit "fang_id", JStr (lit "a"))]
  else if bool_decide (line = lit "t") then object (lit "silver.trigger") []
  else object (lit "governance.sync_apply") [].
Definition close_a : ControlRequest :=
  mkRequest (lit "1") (lit "fang.close") (JObj [(lit "fang_id", JStr (lit "a"))]).
Definition inject_req : ControlRequest := mkRequest (lit "1") (lit "governance.sync_apply") (JObj []).
Definition control_steps : list (Env ToyDisk * list byte) := [(demo_env, lit "c"); (demo_env, lit "t"); (demo_env, lit "s")].
Definition after_close : ControlResponse * bool * World ToyDisk := client_line control_tree demo_env (lit "c") busy_world.
Definition after_trigger : ControlResponse * bool * World ToyDisk := client_line control_tree demo_env (lit "t") after_close.2.

Lemma control_parses :
  ControlLimits.parse control_tree (lit "c") = Ok close_a ∧ ControlLimits.parse control_tree (lit "t") = Ok trigger_req ∧
  ControlLimits.parse control_tree (lit "s") = Ok inject_req.
Proof. vm_compute. split_and!; reflexivity. Qed.
Lemma control_ok : after_close.1.1.(rs_ok) = true ∧ after_trigger.1.1.(rs_ok) = true ∧
  after_trigger.2.(live).(l_degraded) = false ∧ after_trigger.2.(live).(l_exit_requested) = false.
Proof. vm_compute. split_and!; reflexivity. Qed.


(** A node of a network without it: the genesis is applied, then the
    activation with an empty roster. *)
Definition joined : World ToyDisk :=
  mkWorld (set_pelt (Some own_pelt) demo_live) demo_den.
Definition at_genesis : World ToyDisk :=
  (apply_statement (λ _, true) (GovDemo.signed GovDemo.demo_genesis) GovDemo.demo_pin joined).2.
Definition shut_out : Gov.Statement := GovDemo.signed (GovDemo.demo_next GovDemo.demo_genesis Gov.Activation).
Definition shut_out_run : result (str * str) Json * World ToyDisk := apply_statement (λ _, true) shut_out None at_genesis.

Lemma shut_out_facts :
  is_ok shut_out_run.1 = true ∧ l_degraded at_genesis.(live) = false ∧ l_exit_requested at_genesis.(live) = false ∧
  is_Some (l_generation demo_live).
Proof. vm_compute. split_and!; try reflexivity. by eexists. Qed.

Definition genesis_head : Gov.Head := default GovDemo.demo_start (l_governance at_genesis.(live)).
Definition closed_head : Gov.Head :=
  match Gov.apply (Some genesis_head) shut_out None with Ok (Gov.Applied n) => n | _ => GovDemo.demo_start end.
Definition alive_next (o : result (fault Gov.GovError) Gov.Outcome) : bool :=
  match o with Ok (Gov.Applied n) => bool_decide (n.(Gov.dead_at) = None) | _ => false end.
Lemma shut_out_heads :
  admits_own (NodeGovernance.own_key (l_pelt at_genesis.(live))) genesis_head = true ∧
  admits_own (NodeGovernance.own_key (l_pelt at_genesis.(live))) closed_head = false ∧
  alive_next (Gov.apply (Some genesis_head) shut_out None) = true ∧ is_Some (l_governance at_genesis.(live)).
Proof. vm_compute. do 3 (split; [reflexivity|]). by eexists. Qed.

(** What an applied statement leads to. *)
Lemma alive_next_inv o : alive_next o = true → ∃ n, o = Ok (Gov.Applied n) ∧ n.(Gov.dead_at) = None.
Proof. destruct o as [[n| |]|]; try done. intros Hn. apply bool_decide_eq_true in Hn. by exists n. Qed.
Lemma closed_is n : Gov.apply (Some genesis_head) shut_out None = Ok (Gov.Applied n) → closed_head = n.
Proof. unfold closed_head. by intros ->. Qed.
Lemma ok_inv {E A} (r : result E A * World ToyDisk) : is_ok r.1 = true → ∃ a, r = (Ok a, r.2).
Proof. destruct r as [[a|] w]; [by exists a|done]. Qed.
Lemma genesis_is h : l_governance at_genesis.(live) = Some h → genesis_head = h.
Proof. unfold genesis_head. by intros ->. Qed.

Lemma joined_tracks s (d : ToyDisk) : tracks (mkWorld s d) → tracks (mkWorld (set_pelt (Some own_pelt) s) d).
Proof. intros Ht. apply (tracks_core (mkWorld s d)); [reflexivity|exact Ht]. Qed.
(** A step of the chain. *)
Lemma statement_tracks stmt e (w : World ToyDisk) :
  0 ≤ stmt.(Gov.core).(Gov.sequence) → tracks w → tracks (apply_statement (λ _, true) stmt e w).2.
Proof.
  intros Hs Hw. pose proof (apply_statement_keeps (λ _, true) stmt e Hs w Hw) as K.
  destruct (apply_statement _ _ _ w) as [[] w']; exact K.
Qed.

Lemma at_genesis_tracks : tracks at_genesis.
Proof.
  pose proof (joined_tracks _ _ demo_tracks : tracks joined) as Hj.
  assert (0 ≤ (GovDemo.signed GovDemo.demo_genesis).(Gov.core).(Gov.sequence)) as Hs by (vm_compute; congruence).
  exact (statement_tracks (GovDemo.signed GovDemo.demo_genesis) GovDemo.demo_pin joined Hs Hj).
Qed.

Lemma unadmission_restarts_silver_witness :
  ∃ g p, ProtectedState.load shut_out_run.2.(disk) = Ok (ProtectedState.Loaded g p) ∧
    silver_on (Persistence.apply_protected_state Persistence.daemon_default p (Some g.(ProtectedState.number))).
Proof.
  destruct shut_out_facts as (Hok & Hd & He & _), shut_out_heads as (Hwas & Hnow & Hap & [h Hg]).
  apply alive_next_inv in Hap as (next & Ha & Hap). rewrite (closed_is _ Ha) in Hnow.
  pose proof (genesis_is _ Hg) as Eh. apply ok_inv in Hok as [j Hrun].
  destruct (unadmission_restarts_silver (λ _, true) shut_out None genesis_head next at_genesis shut_out_run.2 j shut_out_run.2.(disk))
    as (_ & g & p & Hl & Hs).
  - exact at_genesis_tracks.
  - unfold stopped. rewrite Hd, He. intros []; discriminate.
  - rewrite Eh. exact Hg.
  - vm_compute. congruence.
  - exact Ha.
  - exact Hap.
  - exact Hwas.
  - exact Hnow.
  - exact Hrun.
  - left. reflexivity.
  - exact I.
  - exists g, p. split; [exact Hl|]. apply (Hs Persistence.daemon_default). reflexivity.
Defined.
End ControlDemo.
