(* ===== verification/Ctl.v ===== *)
(** * The command-line client
      ([werewolfctl/src/main.rs], [werewolfctl/src/governance.rs])

    [Module Ctl]: the commands as [clap] gives them, the request each makes of
    the daemon, the offline governance commands on files, the offline
    commands on a Den, and what is printed or fails with which exit class.
    The texts of errors that other crates make are not modelled: an error is
    kept as a value. [clap] and the socket's system calls are not modelled:
    the exchange with the daemon is an argument. What the daemon makes of a
    request is in CtlSpec. *)

From stdpp Require Import gmap.
From S2P Require Export GovernanceTools.
From S2P Require Export Endpoint.
From S2P Require Export Control.

Local Open Scope Z_scope.

(** ** JSON text

    [serde_json]'s reader and compact writer, on the grammar of RFC 8259. *)

Class JsonText : Type := {
  json_text : Json → list byte;
  json_pretty : Json → list byte;
  json_tree : list byte → option Json
}.

(** Between the quotes of a string: bytes other than a quote, a backslash and
    a control byte, and a backslash with what it escapes. *)
Inductive string_body : list byte → Prop :=
| body_nil : string_body []
| body_plain b l : b ≠ x22 → b ≠ x5c → 0x20 ≤ byte_val b → string_body l → string_body (b :: l)
| body_escape b l : 0x20 ≤ byte_val b → string_body l → string_body (x5c :: b :: l).

Definition is_plain (b : byte) : bool :=
  in_range 0x20 0x7e (byte_val b) && negb (bool_decide (b = x22)) && negb (bool_decide (b = x5c)).

(** A value of objects and of strings that are UTF-8, as a [String] is. *)
Fixpoint texts_only (v : Json) : bool :=
  match v with
  | JStr s => utf8_valid s
  | JObj l => forallb (λ kv, utf8_valid kv.1 && texts_only kv.2) l
  | JNull | JBool _ | JNum _ | JArr _ => false
  end.

Class JsonTextLaws `{JsonText} : Prop := {
  jt_str s : ∃ body, json_text (JStr s) = x22 :: body ++ [x22] ∧ string_body body;
  jt_obj l : json_text (JObj l) =
    x7b :: join [x2c] ((λ kv : str * Json, json_text (JStr kv.1) ++ x3a :: json_text kv.2) <$> l) ++ [x7d];
  (** Printable ASCII other than a quote and a backslash stands for itself. *)
  jt_plain s : forallb is_plain s = true → json_text (JStr s) = x22 :: s ++ [x22];
  (** White space after a text means nothing. *)
  jt_tree v : texts_only v = true → json_tree (json_text v ++ [x0a]) = Some v
}.

Module Ctl.
Import Gov.

(** ** Commands *)

Inductive ProviderCommands : Type :=
| ProviderAdd (name : str) (peer target from transport : option str)
| ProviderRemove (name peer : str).
Inductive RouteCommands : Type := RouteSet (peer via hop : str) | RouteList | RouteRemove (peer : str).
Inductive DenCommands : Type := DenInit | DenInfo | DenRetire (confirm : str).
Inductive StateCommands : Type := ManifestMigrate | BackupInfo | SetTargetPolicy (document : str).
Inductive SilverCommands : Type := SilverStatus | SilverOn | SilverOff | SilverTrigger | SilverReset.
Inductive PeltCommands : Type := PeltInit | PeltShow | PeltFingerprint.
Inductive PackCommands : Type :=
| PackAdd (name public_key_b64 address : str) | PackList | PackRemove (name : str) | PackRevoke (name : str)
| PackSetAddress (name address : str).
Inductive TargetCommands : Type := TargetAllow (peer target : str) | TargetList | TargetRemove (peer target : str).
Inductive FangCommands : Type :=
| FangCreate (name peer local remote transport : str) | FangList | FangActive | FangActivate (name : str)
| FangDeactivate (name : str) | FangRemove (name : str) | FangOpen (peer local remote : str)
| FangOpenProfile (name : str) | FangClose (fang_id : str) | FangCleanup.
Inductive ServiceCommands : Type :=
| ServiceAdd (name : str) (peer target kind from transport : option str) | ServicePublish (name target kind : str)
| ServiceUnpublish (name : str) | ServicePublished | ServiceList | ServiceShow (name : str) | ServiceRemove (name : str)
| ServiceProvider (command : ProviderCommands) | ServiceConnect (name : str) (local_port : Z) (bind transport : str).
Inductive DiscoverCommands : Type :=
| DiscoverAdvertise (addresses : list str) | DiscoverWithdraw | DiscoverShow | DiscoverContacts
| DiscoverRefresh (transport : str) | DiscoverFind (node transport : str) | DiscoverServices (peer : option str) (transport : str).

Inductive CheckAction : Type :=
| CheckNew (chain : list str) (expect_genesis : option str) (out : str)
| CheckSign (challenge key : str) (index : byte) (out : str)
| CheckVerify (challenge : str) (answers chain : list str) (expect_genesis : option str).
Inductive DraftKind : Type :=
| DraftGenesis (keys : list str) (network_id : option str) (out : str)
| DraftRotate (after : str) (sets : list str) (out : str)
| DraftAdmit (after : str) (members : list str) (out : str)
| DraftActivate (after out : str)
| DraftDeath (after out : str)
| DraftRevoke (after : str) (members : list str) (out : str).
Inductive GovernanceCommands : Type :=
| GovApply (file : str) (expect_hash : option str)
| GovStatus
| GovSync (peer : option str) (transport : str)
| GovAutoSync (state : str)
| GovKeygen (out : str)
| GovDraft (kind : DraftKind)
| GovSign (draft key : str) (index : byte) (out : str)
| GovCombine (draft : str) (parts : list str) (out : str)
| GovInspect (file : str) (chain : list str) (expect_genesis : option str)
| GovCheck (action : CheckAction).

Inductive Commands : Type :=
| Version | Status | Health | Diagnose | Doctor
| Den (command : DenCommands) | OnState (command : StateCommands) | Silver (command : SilverCommands)
| Pelt (command : PeltCommands) | Pack (command : PackCommands) | Target (command : TargetCommands)
| Fang (command : FangCommands) | Service (command : ServiceCommands) | Discover (command : DiscoverCommands)
| Governance (command : GovernanceCommands) | Route (command : RouteCommands).

(** ** Errors *)

Inductive ExitClass : Type := Usage | State | Conflict | DaemonUnavailable | Rejected.
Definition exit_status (c : ExitClass) : Z :=
  match c with Usage => 64 | State => 65 | Conflict => 66 | DaemonUnavailable => 69 | Rejected => 70 end.

Inductive Message : Type :=
| Says (s : str)
| OfTool (e : GovTool.ToolError)
| OfCheck (e : KeyCheck.CheckError)
| OfFs (e : FsError)
| OfIo (e : LocalFs.IoError)
| Failed (prefix : str) (m : Message).
Record CliError : Type := mkCliError { class : ExitClass; message : Message }.
Notation cli A := (result (fault CliError) A).

Definition cli_err {A} (c : ExitClass) (m : Message) : cli A := raise (mkCliError c m).
(** [governance.rs]: [fail], [usage]. *)
Definition fail (e : GovTool.ToolError) : CliError := mkCliError Rejected (OfTool e).
Definition usage (message : str) : CliError := mkCliError Usage (Says message).
Definition rejected_by {E A} (f : E → Message) (r : result E A) : cli A :=
  map_err (λ e, Raised (mkCliError Rejected (f e))) r.
Definition rejected_by_fault {E A} (f : E → Message) (r : result (fault E) A) : cli A :=
  map_err (λ e, match e with Raised e => Raised (mkCliError Rejected (f e)) | Panicked => Panicked end) r.

(** [json!] of an object: a [BTreeMap]. *)
Definition json_object (l : list (str * Json)) : Json := JObj (sort_by_key fst l).
Definition jtext (k : string) (s : str) : str * Json := (lit k, JStr s).

(** ** Requests of the daemon *)

Definition transport_without_from : CliError := usage (lit "--transport applies only with --from").

Definition quic_by_default (transport : option str) : str := default (lit "quic") transport.

Definition provider_request (c : ProviderCommands) : cli (str * Json) :=
  match c with
  | ProviderAdd name peer target (Some from) transport =>
      Ok (lit "service.provider.add_from",
          json_object [jtext "name" name; jtext "peer" from; jtext "transport" (quic_by_default transport)])
  | ProviderAdd name peer target None (Some _) => raise transport_without_from
  | ProviderAdd name peer target None None =>
      Ok (lit "service.provider.add",
          json_object [jtext "name" name; jtext "peer" (default [] peer); jtext "target" (default [] target)])
  | ProviderRemove name peer => Ok (lit "service.provider.remove", json_object [jtext "name" name; jtext "peer" peer])
  end.

Section requests.
Context `{Crypto} `{Base64}.

Definition pack_request (c : PackCommands) : cli (str * Json) :=
  match c with
  | PackAdd name public_key_b64 address =>
      fingerprint ← map_err (λ _, Raised (usage (lit "public_key_b64 is not a valid public Ed25519 key")))
                      (Pelt.fingerprint_from_public_key_b64 public_key_b64);
      Ok (lit "pack.add", json_object [jtext "name" name; jtext "fingerprint" fingerprint;
                                       jtext "public_key_b64" public_key_b64; jtext "address" address])
  | PackList => Ok (lit "pack.list", json_object [])
  | PackRemove name => Ok (lit "pack.remove", json_object [jtext "name" name])
  | PackRevoke name => Ok (lit "pack.revoke", json_object [jtext "name" name])
  | PackSetAddress name address => Ok (lit "pack.set_address", json_object [jtext "name" name; jtext "address" address])
  end.

Definition fang_request (c : FangCommands) : cli (str * Json) :=
  match c with
  | FangCreate name peer local remote transport =>
      Ok (lit "fang.profile.add", json_object [jtext "name" name; jtext "peer" peer; jtext "local" local;
                                               jtext "remote" remote; jtext "transport" transport])
  | FangList => Ok (lit "fang.profile.list", json_object [])
  | FangActive => Ok (lit "fang.list", json_object [])
  | FangActivate name | FangOpenProfile name => Ok (lit "fang.open_profile", json_object [jtext "name" name])
  | FangDeactivate name => Ok (lit "fang.deactivate_profile", json_object [jtext "name" name])
  | FangRemove name => Ok (lit "fang.profile.remove", json_object [jtext "name" name])
  | FangOpen peer local remote =>
      Ok (lit "fang.open", json_object [jtext "peer" peer; jtext "local" local; jtext "remote" remote])
  | FangClose fang_id => Ok (lit "fang.close", json_object [jtext "fang_id" fang_id])
  | FangCleanup => Ok (lit "fang.cleanup", json_object [])
  end.

Definition service_request (c : ServiceCommands) : cli (str * Json) :=
  match c with
  | ServiceProvider command => provider_request command
  | ServiceAdd name peer target kind (Some from) transport =>
      Ok (lit "service.add_from",
          json_object [jtext "name" name; jtext "peer" from; jtext "transport" (quic_by_default transport)])
  | ServiceAdd name peer target kind None (Some _) => raise transport_without_from
  | ServiceAdd name peer target kind None None =>
      Ok (lit "service.add", json_object [jtext "name" name; jtext "peer" (default [] peer);
                                          jtext "target" (default [] target); jtext "kind" (default [] kind)])
  | ServicePublish name target kind =>
      Ok (lit "service.publish", json_object [jtext "name" name; jtext "target" target; jtext "kind" kind])
  | ServiceUnpublish name => Ok (lit "service.unpublish", json_object [jtext "name" name])
  | ServicePublished => Ok (lit "service.published", json_object [])
  | ServiceList => Ok (lit "service.list", json_object [])
  | ServiceShow name => Ok (lit "service.show", json_object [jtext "name" name])
  | ServiceRemove name => Ok (lit "service.remove", json_object [jtext "name" name])
  | ServiceConnect name local_port bind transport =>
      Ok (lit "service.connect", json_object [jtext "name" name; jtext "local" (bind ++ lit ":" ++ show 10 local_port);
                                              jtext "transport" transport])
  end.

Definition discover_request (c : DiscoverCommands) : cli (str * Json) :=
  match c with
  | DiscoverAdvertise addresses => Ok (lit "discover.advertise", json_object [jtext "addresses" (join (lit ",") addresses)])
  | DiscoverWithdraw => Ok (lit "discover.advertise", json_object [jtext "addresses" []])
  | DiscoverShow => Ok (lit "discover.show", json_object [])
  | DiscoverContacts => Ok (lit "discover.contacts", json_object [])
  | DiscoverRefresh transport => Ok (lit "discover.refresh", json_object [jtext "transport" transport])
  | DiscoverFind node transport =>
      Ok (lit "discover.find", json_object [jtext "target" node; jtext "transport" transport])
  | DiscoverServices peer transport =>
      Ok (lit "discover.services", json_object [jtext "peer" (default [] peer); jtext "transport" transport])
  end.

(** [unreachable!] for the commands that [run] handles itself. *)
Definition request_for (c : Commands) : cli (str * Json) :=
  match c with
  | Status | Health | Diagnose | Silver SilverStatus => Ok (lit "status", json_object [])
  | Den DenInfo => Ok (lit "den.info", json_object [])
  | Den (DenRetire confirm) => Ok (lit "den.retire", json_object [jtext "confirm" confirm])
  | OnState ManifestMigrate => Ok (lit "state.manifest.migrate", json_object [])
  | OnState (SetTargetPolicy document) => Ok (lit "target.policy.set", json_object [jtext "document" document])
  | Silver (SilverOn | SilverTrigger) => Ok (lit "silver.trigger", json_object [])
  | Silver (SilverOff | SilverReset) => Ok (lit "silver.reset", json_object [])
  | Pelt PeltInit => Ok (lit "pelt.init", json_object [])
  | Pelt (PeltShow | PeltFingerprint) => Ok (lit "pelt.fingerprint", json_object [])
  | Pack command => pack_request command
  | Target (TargetAllow peer target) => Ok (lit "target.allow", json_object [jtext "peer" peer; jtext "target" target])
  | Target TargetList => Ok (lit "target.list", json_object [])
  | Target (TargetRemove peer target) => Ok (lit "target.remove", json_object [jtext "peer" peer; jtext "target" target])
  | Route (RouteSet peer via hop) =>
      Ok (lit "route.set", json_object [jtext "peer" peer; jtext "via" via; jtext "hop" hop])
  | Route RouteList => Ok (lit "route.list", json_object [])
  | Route (RouteRemove peer) => Ok (lit "route.remove", json_object [jtext "peer" peer])
  | Fang command => fang_request command
  | Service command => service_request command
  | Discover command => discover_request command
  | Version | Doctor | Governance _ | Den DenInit | OnState BackupInfo => Err Panicked
  end.

End requests.

(** ** Printing *)

(** The lines of [println!]. *)
Definition Output : Type := list str.

Section printing.
Context `{JsonText}.

Definition print_local (json_output : bool) (command : str) (result : Json) : Output :=
  if json_output
  then [json_text (json_object [(lit "ok", JBool true); jtext "command" command; (lit "result", result)])]
  else [command; json_pretty result].

Definition print_response (json_output : bool) (command : str) (response : State.ControlResponse) : cli Output :=
  if negb response.(State.rs_ok)
  then cli_err Rejected (Says (match response.(State.rs_error) with
                               | Some error => error.(State.ce_message)
                               | None => lit "operation rejected"
                               end))
  else Ok (print_local json_output command (default (JObj []) response.(State.rs_result))).

End printing.

(** ** Offline governance: [governance.rs], [tool.rs], [check.rs] *)

(** A computation on the files of the working directory. *)
Definition on_files (A : Type) : Type := Fs → cli A * Fs.
#[export] Instance on_files_ret : MRet on_files := λ A a fs, (Ok a, fs).
#[export] Instance on_files_bind : MBind on_files := λ A B f m fs,
  match m fs with
  | (Ok a, fs') => f a fs'
  | (Err e, fs') => (Err e, fs')
  end.
Definition pure {A} (r : cli A) : on_files A := λ fs, (r, fs).
Definition reads {A} (f : Fs → cli A) : on_files A := λ fs, (f fs, fs).
Definition writes {A} (f : Fs → cli (Fs * A)) : on_files A := λ fs,
  match f fs with Ok (fs', a) => (Ok a, fs') | Err e => (Err e, fs) end.

(** [str::split_once] of an ASCII character. *)
Definition split_once (c : byte) (s : str) : option (str * str) :=
  match list_find (λ b, b = c) s with
  | Some (i, _) => Some (take i s, drop (S i) s)
  | None => None
  end.

Definition parse_u8 (s : str) : option byte := byte_of <$> from_str_radix 10 255 s.

Definition jnum (k : string) (z : Z) : str * Json := (lit k, JNum z).
Definition jbyte (b : byte) : Json := JNum (byte_val b).

(** A [PathBuf] in [json!], which panics when it is not UTF-8. *)
Definition path_value (path : str) : cli Json := if utf8_valid path then Ok (JStr path) else Err Panicked.

Section governance.
Context `{Crypto} `{Base64} `{JsonText} `{Serde GovTool.KeyFile} `{Serde GovTool.Part}
  `{Serde KeyCheck.Challenge} `{Serde KeyCheck.Answer}.
(** The process's umask, the key that [SigningKey::generate] makes and the
    bytes that [OsRng] fills in. *)
Variable umask : Z.
Variable generated random : array 32.

Notation tool := (rejected_by OfTool).
Notation checked := (rejected_by OfCheck).
Notation found := (rejected_by OfFs).

(** [tool::describe]. *)
Definition describe_body (b : Body) : Json :=
  let b64 (k : Key) := JStr (b64_encode (array_bytes k)) in
  match b with
  | Genesis threshold keys =>
      json_object [jtext "kind" (lit "genesis"); (lit "threshold", jbyte threshold); (lit "keys", JArr (b64 <$> keys))]
  | Rotation entries =>
      json_object [jtext "kind" (lit "rotation");
        (lit "replace", JArr ((λ e : byte * Key, json_object [(lit "index", jbyte e.1); (lit "key", b64 e.2)]) <$> entries))]
  | Revocation keys => json_object [jtext "kind" (lit "revocation"); (lit "members", JArr (b64 <$> keys))]
  | Admission keys => json_object [jtext "kind" (lit "admission"); (lit "members", JArr (b64 <$> keys))]
  | Activation => json_object [jtext "kind" (lit "activation")]
  | Death => json_object [jtext "kind" (lit "death")]
  end.
Definition describe (s : Statement) : Json :=
  json_object [jtext "network_id" (hex (array_bytes s.(core).(network_id))); jnum "sequence" s.(core).(sequence);
               jtext "previous" (hex (array_bytes s.(core).(previous)));
               jtext "hash" (hex (array_bytes (core_hash s.(core))));
               (lit "body", describe_body s.(core).(body));
               (lit "signed_by", JArr (jbyte <$> s.(signatures).*1))].

(** [governance.rs]: [keys]. *)
Definition keys (texts : list str) : cli (list Key) := try_map (λ t, tool (GovTool.public_key t)) texts.

Definition read_statement (path : str) : on_files Statement := reads (λ fs, tool (GovTool.read_statement fs path)).
Definition write_statement (path : str) (s : Statement) : on_files () :=
  writes (λ fs, tool (fs' ← GovTool.write_statement umask fs path s; Ok (fs', ()))).
Definition read_all (paths : list str) : on_files (list Statement) :=
  reads (λ fs, try_map (λ p, tool (GovTool.read_statement fs p)) paths).

(** One [--set]. *)
Definition set_entry (entry : str) : cli (byte * Key) :=
  '(index, key) ← ok_or (split_once x3d entry) (Raised (usage (lit "--set takes INDEX=PUBLIC_KEY_B64")));
  index ← ok_or (parse_u8 index) (Raised (usage (lit "--set index must be 0 to 9")));
  key ← tool (GovTool.public_key key);
  Ok (index, key).

Definition draft_out (k : DraftKind) : str :=
  match k with
  | DraftGenesis _ _ out | DraftRotate _ _ out | DraftAdmit _ _ out | DraftActivate _ out | DraftDeath _ out
  | DraftRevoke _ _ out => out
  end.

Definition draft_statement (k : DraftKind) : on_files Statement :=
  match k with
  | DraftGenesis texts network_id _ =>
      pure (if negb (length texts =? KEY_COUNT)%nat then raise (usage (lit "genesis needs exactly 10 --key values"))
            else
              network_id ← match network_id with
                           | Some id => Some <$> tool (GovTool.unhex 32 id)
                           | None => Ok None
                           end;
              ks ← keys texts;
              Ok (GovTool.draft_genesis ks network_id random))
  | DraftRotate after sets _ =>
      previous ← read_statement after;
      entries ← pure (try_map set_entry sets);
      mret (GovTool.draft_after previous (Rotation entries))
  | DraftAdmit after members _ =>
      previous ← read_statement after;
      ks ← pure (keys members);
      mret (GovTool.draft_after previous (Admission ks))
  | DraftActivate after _ =>
      previous ← read_statement after;
      mret (GovTool.draft_after previous Activation)
  | DraftDeath after _ =>
      previous ← read_statement after;
      mret (GovTool.draft_after previous Death)
  | DraftRevoke after members _ =>
      previous ← read_statement after;
      ks ← pure (keys members);
      mret (GovTool.draft_after previous (Revocation ks))
  end.

(** [chain_head]; indexing an empty chain panics. *)
Definition genesis_pin (statements : list Statement) (expect_genesis : option str) : cli (array 32) :=
  match expect_genesis with
  | Some hex => tool (GovTool.unhex 32 hex)
  | None => first ← index statements 0; Ok (core_hash first.(core))
  end.
Definition chain_head (chain : list str) (expect_genesis : option str) : on_files Head :=
  statements ← read_all chain;
  genesis_hash ← pure (genesis_pin statements expect_genesis);
  pure (rejected_by_fault OfTool (GovTool.replay statements genesis_hash)).

(** [check::write] and [check::sign_file]. *)
Definition check_write `{Serde T} (path : str) (value : T) : on_files () :=
  writes (λ fs, tool (fs' ← GovTool.create umask fs path (to_vec value) GovTool.MODE_PUBLIC; Ok (fs', ()))).
Definition sign_file (challenge key : str) (i : byte) : on_files KeyCheck.Answer :=
  reads (λ fs,
    file ← found (read_file fs challenge);
    challenge ← checked (KeyCheck.challenge_parse file.(f_bytes));
    key ← tool (GovTool.read_key fs key);
    checked (KeyCheck.answer challenge key i)).

Definition run_check (json_output : bool) (action : CheckAction) : on_files Output :=
  match action with
  | CheckNew chain expect_genesis out =>
      head ← chain_head chain expect_genesis;
      let challenge := KeyCheck.challenge_new head random in
      _ ← check_write out challenge;
      path ← pure (path_value out);
      mret (print_local json_output (lit "governance.check.new")
              (json_object [(lit "challenge", path); jtext "network_id" challenge.(KeyCheck.c_network_id)]))
  | CheckSign challenge key i out =>
      answer ← sign_file challenge key i;
      _ ← check_write out answer;
      path ← pure (path_value out);
      mret (print_local json_output (lit "governance.check.sign")
              (json_object [(lit "answer", path); (lit "index", jbyte i)]))
  | CheckVerify challenge answers chain expect_genesis =>
      head ← chain_head chain expect_genesis;
      challenge ← reads (λ fs, file ← found (read_file fs challenge); checked (KeyCheck.challenge_parse file.(f_bytes)));
      answers ← reads (λ fs,
        try_map (λ p, file ← found (read_file fs p); checked (KeyCheck.answer_parse file.(f_bytes))) answers);
      '(indices, verdict) ← pure (rejected_by_fault OfCheck (KeyCheck.verify challenge head answers));
      mret (print_local json_output (lit "governance.check.verify")
              (json_object [(lit "valid_indices", JArr (jbyte <$> indices)); jnum "count" (Z.of_nat (length indices));
                            jtext "verdict" (KeyCheck.label verdict)]))
  end.

(** [result["verified"]] of [inspect]. *)
Definition verified (genesis_hash : array 32) (head : Head) : Json :=
  json_object [jtext "genesis_hash" (hex (array_bytes genesis_hash)); jnum "head_sequence" head.(h_sequence);
               jtext "head_hash" (hex (array_bytes head.(h_hash)));
               jnum "revoked" (Z.of_nat (length head.(revoked)));
               (lit "dead_at", match head.(dead_at) with Some n => JNum n | None => JNull end)].

Definition run_local (json_output : bool) (command : GovernanceCommands) : on_files Output :=
  match command with
  | GovApply _ _ | GovStatus | GovSync _ _ | GovAutoSync _ => pure (Err Panicked)
  | GovKeygen out =>
      public ← writes (λ fs, tool (GovTool.keygen umask generated fs out));
      path ← pure (path_value out);
      mret (print_local json_output (lit "governance.keygen")
              (json_object [(lit "key_file", path); jtext "public_key_b64" public]))
  | GovDraft kind =>
      draft ← draft_statement kind;
      _ ← write_statement (draft_out kind) draft;
      path ← pure (path_value (draft_out kind));
      mret (print_local json_output (lit "governance.draft")
              (json_object [(lit "draft", path); (lit "statement", describe draft)]))
  | GovSign draft key i out =>
      draft_statement ← read_statement draft;
      part ← reads (λ fs, tool (GovTool.sign_part draft_statement fs key i));
      _ ← writes (λ fs, tool (fs' ← GovTool.write_part umask fs out part; Ok (fs', ())));
      path ← pure (path_value out);
      mret (print_local json_output (lit "governance.sign")
              (json_object [(lit "part", path); (lit "index", jbyte i); jtext "hash" part.(GovTool.p_hash)]))
  | GovCombine draft parts out =>
      draft ← read_statement draft;
      parts ← reads (λ fs, try_map (λ p, tool (GovTool.read_part fs p)) parts);
      statement ← pure (tool (GovTool.combine draft parts));
      _ ← write_statement out statement;
      path ← pure (path_value out);
      mret (print_local json_output (lit "governance.combine")
              (json_object [(lit "statement", path); (lit "summary", describe statement)]))
  | GovInspect file chain expect_genesis =>
      statement ← read_statement file;
      verification ←
        (if negb (bool_decide (chain = [])) || bool_decide (is_Some expect_genesis) then
           statements ← read_all chain;
           let statements := statements ++ [statement] in
           genesis_hash ← pure (genesis_pin statements expect_genesis);
           head ← pure (rejected_by_fault OfTool (GovTool.replay statements genesis_hash));
           mret [(lit "verified", verified genesis_hash head)]
         else mret []);
      mret (print_local json_output (lit "governance.inspect")
              (json_object ((lit "statement", describe statement) :: verification)))
  | GovCheck action => run_check json_output action
  end.

(** The request of the daemon, or what a local command printed. *)
Definition governance_run (json_output : bool) (command : GovernanceCommands) : on_files (str * Json + Output) :=
  match command with
  | GovApply file expect_hash =>
      statement ← read_statement file;
      mret (inl (lit "governance.apply",
                 json_object (jtext "statement" (GovTool.encode_b64 (statement_encode statement))
                              :: match expect_hash with Some hash => [jtext "expect_hash" hash] | None => [] end)))
  | GovStatus => mret (inl (lit "governance.status", json_object []))
  | GovSync peer transport =>
      mret (inl (lit "governance.sync", json_object [jtext "peer" (default [] peer); jtext "transport" transport]))
  | GovAutoSync state => mret (inl (lit "governance.auto_sync", json_object [jtext "state" state]))
  | local => output ← run_local json_output local; mret (inr output)
  end.

End governance.
(** ** The daemon and the Den: [main.rs] *)

Definition LF : byte := x0a.

Section local.
Context `{Crypto} `{Base64} `{JsonText} `{Serde GovTool.KeyFile} `{Serde GovTool.Part}
  `{Serde KeyCheck.Challenge} `{Serde KeyCheck.Answer} `{Serde Pelt.PeltIdentity} `{Serde State.ControlResponse}.

(** The process: its credentials, [HOME] and [XDG_RUNTIME_DIR] (when they are
    UTF-8), the version and the commit of the build, the umask and the random
    source; the daemon at the other end of a socket, which is given what is
    written and answers with what is read until it closes, if the
    connection, the writing and the reading succeed. *)
Record Process : Type := mkProcess {
  creds : DirOpen.Creds;
  home_dir : option str;
  runtime_dir : option str;
  release_version : option str;
  commit : option str;
  umask : Z;
  generated : array 32;
  random : array 32;
  exchange : str → list byte → option (list byte)
}.
Variable process : Process.

(** What the commands work on: the files of the governance commands, the
    directories, what is in each, and which Dens are locked by another. *)
Record Machine : Type := mkMachine {
  files : Fs;
  tree : DirOpen.Tree;
  disks : list str → LocalFs.Disk;
  locked : list str → bool
}.

Definition VERSION : str := default (lit "v0.1.0-rc1") process.(release_version).

Definition expand_home (input : str) : str :=
  let home := default (lit ".") process.(home_dir) in
  if bool_decide (input = lit "~") then home
  else match strip_prefix (lit "~/") input with
       | Some rest => DirOpen.path_join home rest
       | None => input
       end.

Definition socket_path (m : Machine) (socket : str) : cli str :=
  if bool_decide (socket = []) then
    match DirOpen.default_control_socket process.(creds) m.(tree) process.(runtime_dir) with
    | Ok path => if utf8_valid path then Ok path else cli_err Usage (Says (lit "control socket path is not UTF-8"))
    | Err e => cli_err DaemonUnavailable (OfIo e)
    end
  else Ok socket.

(** [send_request]. *)
Definition request_line (cmd : str) (args : Json) : list byte :=
  json_text (JObj [jtext "id" (lit "werewolfctl"); jtext "cmd" cmd; (lit "args", args)]) ++ [LF].
Definition read_line (text : list byte) : list byte :=
  match list_find (λ b, b = LF) text with Some (i, _) => take (S i) text | None => text end.
Definition send_request (socket cmd : str) (args : Json) : result LocalFs.IoError State.ControlResponse :=
  text ← ok_or (process.(exchange) socket (request_line cmd args)) LocalFs.SystemCall;
  let line := read_line text in
  _ ← require (utf8_valid line) LocalFs.InvalidData;
  ok_or (from_slice line) LocalFs.InvalidData.

Definition backup_info (home : Json) : Json :=
  json_object [(lit "home", home); (lit "requires_daemon_stopped", JBool true);
    (lit "include", JArr (JStr <$> [lit "pelt.json"; lit "security_state_manifest_mode.json";
       lit "security_state_current.json"; lit "security_state_a_*"; lit "security_state_b_*"]));
    (lit "exclude", JArr (JStr <$> [lit ".den.lock"; lit "control.sock"; lit "runtime"]));
    jtext "warning" (lit "A complete historical Den remains acceptable without an external freshness anchor.")].

(** [PrivateDirectory::open] and what the process finds in the directory. *)
Definition open_den (m : Machine) (home : str) (create_leaf : bool)
    : result LocalFs.IoError (LocalFs.PrivateDirectory * list str) * Machine :=
  let '(r, tree') := DirOpen.open process.(creds) m.(tree) home create_leaf in
  (r, mkMachine m.(files) tree' m.(disks) m.(locked)).
Definition with_disk (m : Machine) (path : list str) (d : LocalFs.Disk) : Machine :=
  mkMachine m.(files) m.(tree) (λ p, if decide (p = path) then d else m.(disks) p) m.(locked).

Definition den_init (json_output : bool) (home : str) (m : Machine) : cli Output * Machine :=
  let '(opened, m) := open_den m home true in
  match opened with
  | Err e => (cli_err State (OfIo e), m)
  | Ok (den, path) =>
      let '(locked, d) := DirOpen.lock den (m.(locked) path) (lit ".den.lock") (m.(disks) path) in
      let m := with_disk m path d in
      (match locked with
       | Err e => cli_err Conflict (OfIo e)
       | Ok _ =>
           match LocalFs.read den d Terminal.FILE_NAME (Tombstone.MAX_LEN + 1) with
           | Ok None =>
               home ← path_value home;
               Ok (print_local json_output (lit "den.init")
                     (json_object [(lit "home", home); jtext "status" (lit "ready_for_pelt_init");
                                   (lit "pelt_created", JBool false)]))
           | _ => cli_err Rejected
                    (Says (lit "LIFECYCLE_TOMBSTONE: this Den holds a Tombstone and is never initialized again"))
           end
       end, m)
  end.

(** One entry of [checks]. *)
Definition check_entry (name level detail : string) (more : list (str * Json)) : Json :=
  json_object ([jtext "name" (lit name); jtext "level" (lit level); jtext "detail" (lit detail)] ++ more).

Definition doctor_manifest (mode current : option (list byte)) : cli Json :=
  match mode, current with
  | Some mode, Some current =>
      if bool_decide (is_Some (json_tree mode)) && bool_decide (is_Some (json_tree current))
      then Ok (check_entry "manifest-selector" "OK" "manifest mode and selector present" [])
      else cli_err State (Says (lit "ERROR: incomplete or malformed Stage15B manifest selector"))
  | None, None =>
      Ok (check_entry "manifest-selector" "WARNING" "legacy Den; run state manifest-migrate while daemon is running" [])
  | _, _ => cli_err State (Says (lit "ERROR: incomplete or malformed Stage15B manifest selector"))
  end.

Definition doctor_pelt (pelt : option (list byte)) : cli Json :=
  match pelt with
  | None => Ok (check_entry "pelt" "WARNING" "Pelt is not initialized" [])
  | Some bytes =>
      pelt ← ok_or (from_slice bytes) (Raised (mkCliError State (Says (lit "ERROR: Pelt is malformed"))));
      _ ← map_err (λ _, Raised (mkCliError State (Says (lit "ERROR: Pelt validation failed")))) (StateValidation.identity pelt);
      Ok (check_entry "pelt" "OK" "Pelt public identity validates" [jtext "fingerprint" pelt.(Pelt.fingerprint)])
  end.

Definition doctor (json_output : bool) (home : str) (m : Machine) : cli Output :=
  let state {A} (r : result LocalFs.IoError A) : cli A := map_err (λ e, Raised (mkCliError State (OfIo e))) r in
  '(den, path) ← map_err (λ e, Raised (mkCliError State (Failed (lit "ERROR: Den validation failed: ") (OfIo e))))
                   (open_den m home false).1;
  let read nm := state (LocalFs.read den (m.(disks) path) nm 4096) in
  mode ← read (lit "security_state_manifest_mode.json");
  current ← read (lit "security_state_current.json");
  manifest ← doctor_manifest mode current;
  pelt ← read (lit "pelt.json");
  pelt ← doctor_pelt pelt;
  home ← path_value home;
  Ok (print_local json_output (lit "doctor")
        (json_object [(lit "home", home);
           (lit "checks", JArr [check_entry "den" "OK" "secure Den path validated" []; manifest; pelt]);
           jtext "result" (lit "OK_OR_WARNING")])).

(** [run]. *)
Record Cli : Type := mkCli { socket : str; home : str; json : bool; command : Commands }.

Definition ask_daemon (c : Cli) (m : Machine) (request : str * Json) : cli Output :=
  socket ← socket_path m c.(socket);
  response ← map_err (λ e, Raised (mkCliError DaemonUnavailable (OfIo e))) (send_request socket request.1 request.2);
  print_response c.(json) request.1 response.

Definition run (c : Cli) (m : Machine) : cli Output * Machine :=
  let home := expand_home c.(home) in
  match c.(command) with
  | Version =>
      (Ok (print_local c.(json) (lit "version")
             (json_object [jtext "version" VERSION; jtext "commit" (default (lit "unknown") process.(commit))])), m)
  | Den DenInit => den_init c.(json) home m
  | OnState BackupInfo => (home ← path_value home; Ok (print_local c.(json) (lit "state.backup-info") (backup_info home)), m)
  | Doctor => (doctor c.(json) home m, m)
  | Governance command =>
      let '(r, fs) := governance_run process.(umask) process.(generated) process.(random) c.(json) command m.(files) in
      let m := mkMachine fs m.(tree) m.(disks) m.(locked) in
      (match r with
       | Ok (inr output) => Ok output
       | Ok (inl request) => ask_daemon c m request
       | Err e => Err e
       end, m)
  | other => (request ← request_for other; ask_daemon c m request, m)
  end.

(** [main]: the exit status, what is printed and what goes to the standard
    error; [display] gives the texts of errors that are kept as values. *)
Definition main (display : Message → str) (c : Cli) (m : Machine) : Z * Output * Output :=
  match (run c m).1 with
  | Ok output => (0, output, [])
  | Err (Raised error) =>
      let message := display error.(message) in
      (exit_status error.(class),
       if c.(json)
       then [json_text (json_object [(lit "ok", JBool false); jtext "error" message;
                                     jnum "exit_class" (exit_status error.(class))])]
       else [],
       [lit "werewolfctl: " ++ message])
  | Err Panicked => (101, [], [])
  end.

End local.
End Ctl.
