(* ===== verification/CtlSpec.v ===== *)
(** * What the command-line client asks of the daemon

    [Module CtlSpec]: the daemon reads every request of the client as the
    command meant it, exactly when the arguments are within the limits. *)

From stdpp Require Import gmap.
From S2P Require Export Ctl.

Local Open Scope Z_scope.

Module CtlSpec.
Import Ctl.
Import ControlLimits (NEWLINE, scan_byte, Scan, mkScan, scan_start, unique, visit_map, allowed, limit, check_arg,
  REQUEST_BYTES, MAX_DEPTH, read_request, rejected).

Notation len l := (Z.of_nat (length l)).

(** ** The requests of the client *)

(** The arguments of a request are strings under distinct keys that the
    command takes. *)
Definition shaped (cmd : str) (args : Json) : bool :=
  match args with
  | JObj l =>
      bool_decide (NoDup l.*1) && forallb (λ kv, bool_decide (kv.1 ∈ allowed cmd)) l
      && forallb (λ kv, match kv.2 with JStr _ => true | _ => false end) l
      && negb (bool_decide (cmd = [])) && (len cmd <=? 64) && is_ascii cmd && utf8_valid cmd
  | _ => false
  end.

Section requests.
Context `{Crypto} `{Base64}.

Lemma request_shaped c : match request_for c with Ok r => shaped r.1 r.2 = true | Err _ => True end.
Proof.
  destruct c as [| | | | |[]|[]|[]|[]|[]|[]|[]|[n p t k [f|] [tr|]| | | | | | |[n p t [f|] [tr|]|]|]|[]| |[]].
  all: lazymatch goal with |- context [PackAdd] => idtac | _ => vm_compute; exact I || reflexivity end.
  unfold request_for, pack_request. destruct (map_err _ _); [|exact I]. vm_compute. reflexivity.
Qed.

(** A local command ends with output, not with a request. *)
Lemma local_prints (m : on_files Output) fs x :
  (((output ← m; mret (inr output)) : on_files (str * Json + Output)) fs).1 ≠ Ok (inl x).
Proof. unfold mbind, on_files_bind. destruct (m fs) as [[o|e] fs']; cbn; congruence. Qed.

Lemma governance_shaped `{JsonText} `{Serde GovTool.KeyFile} `{Serde GovTool.Part}
    `{Serde KeyCheck.Challenge} `{Serde KeyCheck.Answer} umask generated random json c fs cmd args :
  (governance_run umask generated random json c fs).1 = Ok (inl (cmd, args)) → shaped cmd args = true.
Proof.
  destruct c as [file h| |peer tr|state| | | | | |]; unfold governance_run.
  5-10: by intros E%local_prints.
  2-4: cbn; intros [= <- <-]; vm_compute; reflexivity.
  unfold mbind, on_files_bind. destruct (read_statement file fs) as [[s|] fs']; [|done].
  destruct h; cbn; intros [= <- <-]; vm_compute; reflexivity.
Qed.
End requests.

(** ** The text of a request *)

Section text.
Context `{JsonTextLaws}.

(** A text that the scan passes over at depth [d]. *)
Definition neutral (d : nat) (text : list byte) : Prop :=
  ∀ rest, try_fold scan_byte (mkScan d false false) (text ++ rest) = try_fold scan_byte (mkScan d false false) rest.

Lemma neutral_app d t u : neutral d t → neutral d u → neutral d (t ++ u).
Proof. intros Ht Hu rest. by rewrite <- app_assoc, Ht, Hu. Qed.

Lemma scan_body body : string_body body → ∀ d rest,
  try_fold scan_byte (mkScan d true false) (body ++ x22 :: rest) = try_fold scan_byte (mkScan d false false) rest.
Proof.
  induction 1 as [|b l Hq He _ _ IH|b l _ _ IH]; intros d rest; [done| |]; cbn [app try_fold].
  - assert (scan_byte (mkScan d true false) b = Ok (mkScan d true false)) as ->.
    { unfold scan_byte. cbn. by rewrite (bool_decide_eq_false_2 (b = x5c)), (bool_decide_eq_false_2 (b = x22)). }
    cbn [mbind result_bind]. apply IH.
  - change (scan_byte (mkScan d true false) x5c) with (@Ok ControlLimits.Rejected _ (mkScan d true true)). cbn [mbind result_bind].
    change (scan_byte (mkScan d true true) b) with (@Ok ControlLimits.Rejected _ (mkScan d true false)). cbn [mbind result_bind]. apply IH.
Qed.

Lemma neutral_str d s : neutral d (json_text (JStr s)).
Proof.
  destruct (jt_str s) as (body & -> & Hb). intros rest. cbn [app try_fold].
  change (scan_byte (mkScan d false false) x22) with (@Ok ControlLimits.Rejected _ (mkScan d true false)). cbn [mbind result_bind].
  rewrite <- app_assoc. apply (scan_body _ Hb).
Qed.

Lemma neutral_join d l : Forall (neutral d) l → neutral d (join [x2c] l).
Proof.
  induction 1 as [|t l Ht _ IH]; [done|]. destruct l as [|u l]; [exact Ht|].
  change (join [x2c] (t :: u :: l)) with (t ++ [x2c] ++ join [x2c] (u :: l)). by repeat apply neutral_app.
Qed.

Lemma neutral_obj d l : (S d ≤ MAX_DEPTH)%nat → (∀ kv, kv ∈ l → neutral (S d) (json_text kv.2)) → neutral d (json_text (JObj l)).
Proof.
  intros Hd Hl. rewrite jt_obj. intros rest. cbn [app try_fold].
  assert (scan_byte (mkScan d false false) x7b = Ok (mkScan (S d) false false)) as ->.
  { unfold scan_byte. cbn -[MAX_DEPTH Nat.ltb]. by rewrite (proj2 (Nat.ltb_ge MAX_DEPTH (S d)) Hd). }
  cbn [mbind result_bind]. rewrite <- app_assoc. rewrite (neutral_join (S d)); [done|].
  apply Forall_fmap, Forall_forall. intros kv Hkv. cbn. apply neutral_app; [apply neutral_str|].
  change (x3a :: ?t) with ([x3a] ++ t). apply neutral_app; [done|by apply Hl].
Qed.

(** No text has a line feed. *)
Lemma body_no_lf body : string_body body → LF ∉ body.
Proof.
  assert (∀ b, 0x20 ≤ byte_val b → b ≠ LF) as Hb by (intros b Hb ->; done).
  induction 1 as [|b l _ _ H1 _ IH|b l H1 _ IH]; [set_solver| |]; apply Hb in H1; set_solver.
Qed.
Lemma str_no_lf s : LF ∉ json_text (JStr s).
Proof. destruct (jt_str s) as (body & -> & Hb%body_no_lf). set_solver. Qed.
Lemma obj_no_lf l : (∀ kv, kv ∈ l → LF ∉ json_text kv.2) → LF ∉ json_text (JObj l).
Proof.
  intros Hl. rewrite jt_obj. assert (Forall (λ t, LF ∉ t) ((λ kv : str * Json, json_text (JStr kv.1) ++ x3a :: json_text kv.2) <$> l)) as Hf.
  { apply Forall_fmap, Forall_forall. intros kv Hkv. cbn. pose proof (str_no_lf kv.1). specialize (Hl kv Hkv). set_solver. }
  assert (LF ∉ join [x2c] ((λ kv : str * Json, json_text (JStr kv.1) ++ x3a :: json_text kv.2) <$> l)) as Hj; [|set_solver].
  induction Hf as [|t k Ht _ IH]; [set_solver|]. destruct k as [|u k]; [exact Ht|].
  change (join [x2c] (t :: u :: k)) with (t ++ [x2c] ++ join [x2c] (u :: k)). set_solver.
Qed.

End text.

(** ** What the daemon reads *)

Definition is_string (v : Json) : Prop := ∃ s, v = JStr s.

Lemma unique_same l : NoDup l.*1 → (∀ kv, kv ∈ l → unique kv.2 = Some kv.2) → unique (JObj l) = Some (JObj l).
Proof.
  intros Hn Hl. cbn [unique].
  cut (∀ out, NoDup (out ++ l).*1 → visit_map unique out l = Some (out ++ l)); [intros Hv; by rewrite (Hv [])|].
  clear Hn. induction l as [|[k x] l IH]; intros out Hn; cbn [visit_map]; [by rewrite app_nil_r|].
  rewrite bool_decide_eq_false_2.
  2: { rewrite fmap_app in Hn. apply NoDup_app in Hn as (_ & Hd & _). intros Hk. by apply (Hd k Hk); left. }
  pose proof (Hl (k, x) ltac:(by left)) as Hx. cbn in Hx. rewrite Hx.
  rewrite IH; [by rewrite <- app_assoc|intros kv Hkv; apply Hl; by right|by rewrite <- app_assoc].
Qed.

(** The arguments and the line are within what the daemon takes. *)
Definition fits (args : Json) (line : list byte) : bool :=
  (len line <=? REQUEST_BYTES) &&
  match args with
  | JObj l => forallb (λ kv, match as_str kv.2 with Some value => len value <=? limit kv.1 | None => false end) l
  | _ => false
  end.

(** A request as the daemon gets it from a socket. *)
Definition daemon_reads `{JsonText} (reader : list (list byte)) : option State.ControlRequest :=
  match (read_request reader).1 with
  | Ok (Some line) => match ControlLimits.parse json_tree line with Ok request => Some request | Err _ => None end
  | _ => None
  end.

Lemma shaped_facts cmd args : shaped cmd args = true →
  cmd ≠ [] ∧ len cmd ≤ 64 ∧ is_ascii cmd = true ∧ utf8_valid cmd = true ∧
  ∃ l, args = JObj l ∧ NoDup l.*1 ∧ (∀ kv, kv ∈ l → is_string kv.2) ∧ ∀ kv, kv ∈ l → kv.1 ∈ allowed cmd.
Proof.
  unfold shaped. destruct args as [| | | | |l]; try done. intros Hs. bool_simpl.
  split_and!; try done. exists l. split; [done|]. split; [done|].
  match goal with Ha : forallb (λ kv, bool_decide _) l = true, Hb : forallb _ l = true |- _ =>
    rewrite forallb_forall in Ha; rewrite forallb_forall in Hb; split end.
  - intros [k x] Hk%list_elem_of_In. cbn. 
    match goal with Hb : ∀ x, In x l → match _ with _ => _ end = true |- _ => specialize (Hb _ Hk); cbn in Hb; destruct x; try done; by eexists end.
  - intros kv Hk%list_elem_of_In.
    match goal with Ha : ∀ x, In x l → bool_decide _ = true |- _ => specialize (Ha _ Hk); by bool_simpl end.
Qed.

Section accepted.
Context `{JsonTextLaws}.

Lemma parse_request cmd args : shaped cmd args = true → texts_only args = true →
  ControlLimits.parse json_tree (request_line cmd args) =
    if fits args (request_line cmd args) then Ok (State.mkRequest (lit "werewolfctl") cmd args) else Err rejected.
Proof.
  intros (Hc & H64 & Ha & Hv & l & -> & Hn & Hs & Hal)%shaped_facts Ht.
  set (tree := JObj [jtext "id" (lit "werewolfctl"); jtext "cmd" cmd; (lit "args", JObj l)]).
  assert (json_tree (request_line cmd (JObj l)) = Some tree) as Htree.
  { apply jt_tree. change (texts_only tree) with
      (utf8_valid (lit "id") && utf8_valid (lit "werewolfctl") &&
       (utf8_valid (lit "cmd") && utf8_valid cmd && (utf8_valid (lit "args") && texts_only (JObj l) && true))).
    rewrite Hv, Ht. vm_compute. reflexivity. }
  assert (∀ kv, kv ∈ [jtext "id" (lit "werewolfctl"); jtext "cmd" cmd; (lit "args", JObj l)] →
    (∃ s, kv.2 = JStr s) ∨ kv.2 = JObj l) as Hkv.
  { intros kv Hin. repeat (apply elem_of_cons in Hin as [->|Hin]); [left; eexists; reflexivity|left; eexists; reflexivity|by right|by apply elem_of_nil in Hin]. }
  assert (neutral 0 (json_text tree)) as Hne.
  { apply neutral_obj; [cbv; lia|]. intros kv [[s ->]| ->]%Hkv; [apply neutral_str|]. apply neutral_obj; [cbv; lia|].
    intros kv' Hk'. destruct (Hs kv' Hk') as [s ->]. apply neutral_str. }
  assert (try_fold scan_byte scan_start (request_line cmd (JObj l)) = Ok scan_start) as Hscan by apply Hne.
  assert (unique tree = Some tree) as Hu.
  { apply unique_same; [by apply (bool_decide_unpack _)|]. intros kv [[s ->]| ->]%Hkv; [done|]. apply unique_same; [done|].
    intros kv' Hk'. by destruct (Hs kv' Hk') as [s ->]. }
  assert (ControlLimits.request_of [jtext "id" (lit "werewolfctl"); jtext "cmd" cmd; (lit "args", JObj l)] =
    Some (State.mkRequest (lit "werewolfctl") cmd (JObj l))) as Hreq by reflexivity.
  assert (forallb (check_arg cmd) l =
    forallb (λ kv, match as_str kv.2 with Some value => len value <=? limit kv.1 | None => false end) l) as Hchk.
  { clear -Hal. induction l as [|kv l IH]; [done|]. cbn [forallb]. rewrite IH by (intros ? ?; apply Hal; by right).
    f_equal. unfold check_arg. rewrite bool_decide_eq_true_2; [done|]. apply Hal. by left. }
  unfold ControlLimits.parse. rewrite Htree, Hscan. cbn [mbind result_bind ok_or]. rewrite Hu. cbn [ok_or].
  unfold fits. rewrite <- Hchk. destruct (len (request_line cmd (JObj l)) <=? REQUEST_BYTES); [|done].
  cbn [require mbind result_bind andb ControlLimits.as_object tree ok_or].
  match goal with |- context [require (forallb ?f (fst <$> ?x)) _] => change (forallb f (fst <$> x)) with true end.
  match goal with |- context [list_find ?P ?x] => change (list_find P x) with (Some (2%nat, (lit "args", JObj l))) end.
  rewrite Hreq. cbn [require mbind result_bind ok_or State.rq_args State.rq_id State.rq_cmd ControlLimits.as_object fst snd].
  rewrite (bool_decide_eq_false_2 (cmd = [])), Ha, (proj2 (Z.ltb_ge 64 (len cmd)) H64) by done.
  change (128 <? len (lit "werewolfctl")) with false. rewrite bool_decide_eq_true_2 by by eexists.
  cbn [require mbind result_bind ok_or negb orb]. by destruct (forallb _ l).
Qed.

Lemma request_first_line cmd args : shaped cmd args = true →
  ControlLimitsSpec.first_line (request_line cmd args) =
    if len (request_line cmd args) <=? REQUEST_BYTES then Some (request_line cmd args, []) else None.
Proof.
  intros (_ & _ & _ & _ & l & -> & _ & Hs & _)%shaped_facts. unfold request_line. set (tree := JObj [_; _; _]).
  assert (LF ∉ json_text tree) as Hn.
  { apply obj_no_lf. intros kv Hin.
    repeat (apply elem_of_cons in Hin as [->|Hin]); [apply str_no_lf|apply str_no_lf| |by apply elem_of_nil in Hin].
    apply obj_no_lf. intros kv Hk. destruct (Hs kv Hk) as [s ->]. apply str_no_lf. }
  unfold ControlLimitsSpec.first_line. rewrite (ControlLimitsSpec.find_app_r _ _ Hn). cbn [list_find].
  rewrite decide_True by done. cbn [fmap option_fmap option_map prod_map fst snd].
  rewrite length_app, Nat.add_0_r. cbn [length]. rewrite Nat.add_1_r. destruct (_ <=? _); [|done].
  rewrite take_ge, drop_ge by (rewrite length_app; cbn; lia). done.
Qed.

Lemma shaped_read cmd args reader : shaped cmd args = true → texts_only args = true →
  Forall (λ l, l ≠ []) reader → mjoin reader = request_line cmd args →
  daemon_reads reader =
    if fits args (request_line cmd args) then Some (State.mkRequest (lit "werewolfctl") cmd args) else None.
Proof.
  intros Hs Ht Hne Hr.
  pose proof (ControlLimitsSpec.read_before_spec reader [] ltac:(set_solver) eq_refl Hne) as Hread. cbn zeta in Hread.
  rewrite app_nil_l, Hr, (request_first_line _ _ Hs) in Hread. unfold daemon_reads, read_request, fits.
  pose proof (parse_request _ _ Hs Ht) as Hp. unfold fits in Hp. destruct (_ <=? _) eqn:Hlen.
  - destruct Hread as [-> _]. rewrite Hp. by destruct (_ && _).
  - rewrite Hread. by case_bool_decide.
Qed.

(** C38: what the client asks is what the daemon reads. For every request
    that a command makes, of the daemon's commands or of [governance]:
    however the bytes of its line are cut into reads, the daemon gets the
    same command with the same arguments when the line is at most 16 KiB and
    each argument within the limit of its key, and nothing otherwise. *)
Theorem client_request_accepted `{Crypto} `{Base64} `{Serde GovTool.KeyFile} `{Serde GovTool.Part}
    `{Serde KeyCheck.Challenge} `{Serde KeyCheck.Answer} cmd args reader :
  (∃ c, request_for c = Ok (cmd, args)) ∨
  (∃ umask generated random json c fs, (governance_run umask generated random json c fs).1 = Ok (inl (cmd, args))) →
  texts_only args = true → Forall (λ l, l ≠ []) reader → mjoin reader = request_line cmd args →
  daemon_reads reader =
    if fits args (request_line cmd args) then Some (State.mkRequest (lit "werewolfctl") cmd args) else None.
Proof.
  intros Hc Ht Hne Hr.
  apply shaped_read; [|done..].
  destruct Hc as [(c & Hc)|(u & g & r & j & c & fs & Hc)]; [|by eapply governance_shaped].
  pose proof (request_shaped c) as Hs. by rewrite Hc in Hs.
Qed.
End accepted.
End CtlSpec.
