(* ===== verification/CeremonySpec.v ===== *)
(** * A decision of the key holders, from a draft to the node

    [Module CeremonySpec]: the offline commands [draft], [sign] and [combine]
    on files, then [apply]: the request that the daemon reads carries a
    statement that the head of the chain accepts. *)

From stdpp Require Import gmap.
From S2P Require Export CtlSpec.

Local Open Scope Z_scope.

Module CeremonySpec.
Import Gov GovCodec GovChain Ctl CtlSpec.

Notation len l := (Z.of_nat (length l)).

(** ** Plain texts *)

(** The alphabet of base64. *)
Definition is_base64 (b : byte) : bool :=
  is_ascii_hexdigit b || in_range 0x41 0x5a (byte_val b) || in_range 0x61 0x7a (byte_val b)
  || bool_decide (b ∈ lit "+/=").

Lemma base64_plain b : is_base64 b = true → is_plain b = true ∧ (byte_val b <? 128) = true ∧ is_whitespace (byte_val b) = false.
Proof. destruct b; vm_compute; intros H; try discriminate H; done. Qed.

Lemma utf8_ascii s : is_ascii s = true → ∀ n, (length s ≤ n)%nat → utf8_chars n s = Some ((λ b, (byte_val b, [b])) <$> s).
Proof.
  induction s as [|b s IH]; intros Ha n Hn; [by destruct n|]. cbn in Ha. apply andb_true_iff in Ha as [Hb Ha].
  destruct n as [|n]; [cbn in Hn; lia|]. cbn [utf8_chars]. unfold utf8_char. rewrite Hb. cbn [mbind option_bind].
  by rewrite (IH Ha n) by (cbn in Hn; lia).
Qed.
Lemma ascii_valid s : is_ascii s = true → utf8_valid s = true.
Proof. intros Ha. unfold utf8_valid. rewrite (utf8_ascii s Ha) by done. by apply bool_decide_eq_true_2. Qed.

Lemma drop_while_none {A} (p : A → bool) l : Forall (λ x, p x = false) l → drop_while p l = l.
Proof. destruct 1 as [|x l Hx _]; [done|]. cbn. by rewrite Hx. Qed.
Lemma trim_ascii s : is_ascii s = true → Forall (λ b, is_whitespace (byte_val b) = false) s → trim s = s.
Proof.
  intros Ha Hw. unfold trim, char_list. rewrite (utf8_ascii s Ha) by done. cbn [default from_option id].
  assert (Forall (λ c : Z * list byte, is_whitespace c.1 = false) ((λ b, (byte_val b, [b])) <$> s)) as Hf by by apply Forall_fmap.
  rewrite (drop_while_none _ _ Hf), drop_while_none, rev_involutive.
  - clear. induction s as [|b s IH]; [done|]. cbn in *. by f_equal.
  - by apply Forall_rev.
Qed.

(** ** Statements that apply are small *)

Section small.
Context `{Crypto}.

Lemma length_concat {A B} (f : A → list B) n l : (∀ x, length (f x) = n) → length (mjoin (f <$> l)) = (n * length l)%nat.
Proof.
  intros Hf. induction l as [|x l IH]; [cbn; lia|]. change (mjoin (f <$> x :: l)) with (f x ++ mjoin (f <$> l)).
  rewrite length_app, Hf, IH. cbn. lia.
Qed.

Lemma body_small h c next : apply_body h c = Ok next →
  body_ok c.(body) ∧ (length (body_encode c.(body)) ≤ 2050)%nat.
Proof.
  unfold apply_body, body_ok, body_encode. destruct h, c.(body) as [t ks|es|ks|ks| |] eqn:Hb; cbn [body_encode length].
  - done.
  - intros Hr. apply bind_Ok in Hr as (cur & _ & Hr). apply bind_Ok in Hr as (ks & Hr & _).
    unfold rotated in Hr. destruct (_ || _) eqn:Hg; [done|]. bool_simpl. unfold KEY_COUNT in *.
    rewrite (length_concat _ 33); [lia|]. intros [i k]. cbn. by rewrite length_array.
  - intros Hr. apply bind_Ok in Hr as ([] & Hr%lift_Ok & _). unfold check_revocation in Hr.
    destruct (_ || _) eqn:Hg; [done|]. bool_simpl. unfold MAX_REVOKED_PER_STATEMENT in *.
    rewrite length_app, length_be_bytes, (length_concat _ 32) by apply length_array. lia.
  - intros Hr. apply bind_Ok in Hr as ([] & Hr%lift_Ok & _). unfold check_admission in Hr.
    destruct (_ || _) eqn:Hg; [done|]. bool_simpl. unfold MAX_ADMITTED_PER_STATEMENT in *.
    rewrite length_app, length_be_bytes, (length_concat _ 32) by apply length_array. lia.
  - intros _. cbn. lia.
  - intros _. cbn. lia.
Qed.

Lemma length_statement s :
  length (statement_encode s) = (77 + length (body_encode s.(core).(body)) + 65 * length s.(signatures))%nat.
Proof.
  unfold statement_encode, core_encode. rewrite !length_app, !length_array, !length_be_bytes, (length_concat _ 65).
  - cbn [length]. lia.
  - intros [i sig]. cbn. by rewrite length_array.
Qed.

Lemma checked_count s ks t : check_signatures s ks t = Ok () → (length s.(signatures) ≤ length ks)%nat.
Proof. unfold check_signatures. destruct (_ || _) eqn:Hg; [done|]. bool_simpl. done. Qed.

(** A statement with a body that its head allows and at most ten signatures
    has an encoding, and is under 3 KiB. *)
Lemma statement_small h s next : apply_body h s.(core) = Ok next → u64_range s.(core).(sequence) →
  (length s.(signatures) ≤ KEY_COUNT)%nat → statement_ok s ∧ (length (statement_encode s) < 3 * 1024)%nat.
Proof.
  intros [Hb Hl]%body_small Hs Hn. unfold KEY_COUNT in Hn. pose proof (length_statement s) as E.
  split; [|lia]. split; [done|]. split; [done|]. unfold u16_range, MAX_STATEMENT_LEN. lia.
Qed.

Lemma applied_fits h s e h' : gov_reach (Some h) → u64_range s.(core).(sequence) →
  apply (Some h) s e = Ok (Applied h') → statement_ok s ∧ (length (statement_encode s) < 3 * 1024)%nat.
Proof.
  intros Hw%gov_reach_wf Hs Ha. apply apply_Applied in Ha as (_ & _ & _ & _ & Hnext).
  unfold apply_next in Hnext. destruct (negb _); [done|]. destruct (negb _); [done|].
  apply bind_Ok in Hnext as (ks & Hks & Hnext). apply bind_Ok in Hnext as ([] & Hc%checked_count & Hnext).
  apply bind_Ok in Hnext as (next & Hb & _). destruct (keys_wf h Hw) as (ks' & Hks' & (Hlen & _) & _).
  assert (ks' = ks) as -> by congruence. eapply statement_small; [done|done|lia].
Qed.

(** Whatever a node applies after its genesis is under 3 KiB, as
    [control/limits.rs] says of every valid statement. *)
Theorem applied_under_3k h s e h' : gov_reach (Some h) → u64_range s.(core).(sequence) →
  apply (Some h) s e = Ok (Applied h') → (length (statement_encode s) < 3 * 1024)%nat.
Proof. intros Hw Hs Ha. by eapply applied_fits. Qed.
End small.

(** ** The request of [apply] *)

Class Base64Alphabet `{Base64} : Prop := {
  b64_alphabet : ∀ l, forallb is_base64 (b64_encode l) = true
}.

Section request.
Context `{JsonTextLaws} `{!Base64} `{!Base64Laws} `{!Base64Alphabet}.

Definition apply_args (bytes : list byte) : Json := JObj [jtext "statement" (b64_encode bytes)].

Lemma b64_texts l : is_ascii (b64_encode l) = true ∧ forallb is_plain (b64_encode l) = true ∧
  Forall (λ b, is_whitespace (byte_val b) = false) (b64_encode l).
Proof.
  pose proof (b64_alphabet l) as Ha. rewrite forallb_forall in Ha.
  split; [|split]; [apply forallb_forall|apply forallb_forall|apply Forall_forall].
  - intros b Hb. by apply (base64_plain b), Ha.
  - intros b Hb. by apply (base64_plain b), Ha.
  - intros b Hb%list_elem_of_In. by apply (base64_plain b), Ha.
Qed.

Lemma plain_length s : forallb is_plain s = true → length (json_text (JStr s)) = (2 + length s)%nat.
Proof. intros Hs. rewrite jt_plain by done. cbn. rewrite length_app. cbn. lia. Qed.

Lemma apply_fits bytes : (length bytes < 3 * 1024)%nat →
  texts_only (apply_args bytes) = true ∧ fits (apply_args bytes) (request_line (lit "governance.apply") (apply_args bytes)) = true.
Proof.
  intros Hl. destruct (b64_texts bytes) as (Ha & Hp & _). pose proof (b64_length bytes) as Hb.
  assert (length (b64_encode bytes) ≤ 4096)%nat as Hmax.
  { rewrite Hb. pose proof (Nat.Div0.div_le_mono (length bytes + 2) 3073 3 ltac:(lia)) as Hd. change (3073 / 3)%nat with 1024%nat in Hd. lia. }
  split.
  - unfold apply_args. cbn [texts_only forallb fst snd jtext]. rewrite (ascii_valid _ Ha). vm_compute. reflexivity.
  - unfold fits. apply andb_true_iff. split.
    + apply Z.leb_le. unfold request_line, apply_args, ControlLimits.REQUEST_BYTES. rewrite length_app, jt_obj.
      cbn [fmap list_fmap join fst snd jtext]. rewrite jt_obj. cbn [fmap list_fmap join fst snd jtext].
      repeat (rewrite ?length_app, ?length_cons). rewrite !plain_length by (done || vm_compute; reflexivity).
      cbn [length]. repeat match goal with |- context [length (lit ?s)] =>
        let n := eval vm_compute in (length (lit s)) in change (length (lit s)) with n end. lia.
    + cbn [apply_args forallb fst snd jtext as_str]. rewrite andb_true_r. apply Z.leb_le.
      change (ControlLimits.limit (lit "statement")) with 12288. lia.
Qed.

(** The daemon reads the request, and its handler the statement's bytes. *)
Lemma apply_request_read bytes reader : (length bytes < 3 * 1024)%nat → Forall (λ l, l ≠ []) reader →
  mjoin reader = request_line (lit "governance.apply") (apply_args bytes) →
  ∃ req, daemon_reads reader = Some req ∧ req.(State.rq_cmd) = lit "governance.apply" ∧
    b64_decode (Mutation.arg req (lit "statement")) = Some bytes.
Proof.
  intros Hl Hne Hr. destruct (apply_fits bytes Hl) as [Ht Hf].
  exists (State.mkRequest (lit "werewolfctl") (lit "governance.apply") (apply_args bytes)). split; [|split; [reflexivity|]].
  - rewrite (shaped_read (lit "governance.apply") (apply_args bytes) reader), Hf; done.
  - unfold Mutation.arg. change (as_str _) with (Some (b64_encode bytes)). cbn [default from_option id].
    destruct (b64_texts bytes) as (Ha & _ & Hw). rewrite trim_ascii by done. apply b64_decode_encode.
Qed.

End request.

(** ** The commands on files *)

(** One signature: the key file, the index of the holder, the part. *)
Record Signer : Type := mkSigner { key_path : str; holder : byte; part_path : str }.

(** The statement a draft follows, but for a genesis. *)
Definition draft_after_path (k : DraftKind) : option str :=
  match k with
  | DraftGenesis _ _ _ => None
  | DraftRotate after _ _ | DraftAdmit after _ _ | DraftActivate after _ | DraftDeath after _ | DraftRevoke after _ _ => Some after
  end.

Section ceremony.
Context `{CryptoLaws} `{!Base64} `{!Base64Laws} `{!Base64Alphabet} `{JsonTextLaws} `{SerdeLaws GovTool.KeyFile} `{SerdeLaws GovTool.Part}
  `{Serde KeyCheck.Challenge} `{Serde KeyCheck.Answer}.
Context (umask : Z) (generated random : array 32) (json : bool).

Notation gov c := (governance_run umask generated random json c).

Fixpoint run_commands (l : list GovernanceCommands) : on_files (list (str * Json + Output)) :=
  match l with
  | [] => mret []
  | c :: l => r ← gov c; rs ← run_commands l; mret (r :: rs)
  end.

Definition public_file (bytes : list byte) : File := mkFile (Z.land GovTool.MODE_PUBLIC (Z.lnot umask)) bytes.

Lemma on_files_bind_Ok {A B} (m : on_files A) (f : A → on_files B) fs a fs' :
  m fs = (Ok a, fs') → (m ≫= f) fs = f a fs'.
Proof. unfold mbind, on_files_bind. by intros ->. Qed.

Lemma run_commands_app l l' fs rs fs' : run_commands l fs = (Ok rs, fs') →
  run_commands (l ++ l') fs = (match (run_commands l' fs').1 with Ok rs' => Ok (rs ++ rs') | Err e => Err e end, (run_commands l' fs').2).
Proof.
  revert fs rs. induction l as [|c l IH]; intros fs rs; cbn [app run_commands].
  - intros [= <- <-]. by destruct (run_commands l' _) as [[|] ?].
  - unfold mbind, on_files_bind. destruct (gov c fs) as [[r|e] fs1]; [|done].
    destruct (run_commands l fs1) as [[rs1|e] fs2] eqn:E; [|done]. cbn. intros [= <- <-].
    rewrite (IH _ _ E). by destruct (run_commands l' fs2) as [[|] ?].
Qed.

(** A new file in the working directory. *)
Lemma writes_new (fs : Fs) (path : str) (bytes : list byte) (r : result GovTool.ToolError Fs) :
  r = GovTool.create umask fs path bytes GovTool.MODE_PUBLIC → fs !! path = None →
  writes (λ _, rejected_by OfTool (fs' ← r; Ok (fs', ()))) fs = (Ok (), <[path := public_file bytes]> fs).
Proof. intros -> Hp. unfold writes, GovTool.create, create_new. by rewrite Hp. Qed.

Lemma write_new_statement fs path s : fs !! path = None →
  write_statement umask path s fs = (Ok (), <[path := public_file (statement_encode s)]> fs).
Proof. intros Hp. unfold write_statement, GovTool.write_statement. by apply (writes_new fs path (statement_encode s)). Qed.

Lemma write_new_part (fs : Fs) path part : fs !! path = None →
  writes (λ fs, rejected_by OfTool (fs' ← GovTool.write_part umask fs path part; Ok (fs', ()))) fs =
    (Ok (), <[path := public_file (to_vec part)]> fs).
Proof. intros Hp. by apply (writes_new fs path (to_vec part) (GovTool.write_part umask fs path part)). Qed.

Lemma read_statement_at fs path s m : statement_ok s → fs !! path = Some (mkFile m (statement_encode s)) →
  read_statement path fs = (Ok s, fs).
Proof.
  intros Hs Hp. unfold read_statement, reads, GovTool.read_statement, read_file. rewrite Hp. cbn.
  by rewrite decode_encode.
Qed.

Lemma path_value_Ok p : utf8_valid p = true → path_value p = Ok (JStr p).
Proof. unfold path_value. by intros ->. Qed.

(** [draft] makes a statement after the one of its file. *)
Lemma draft_follows k after fs draft fs' : draft_after_path k = Some after → draft_statement random k fs = (Ok draft, fs') →
  fs' = fs ∧ ∃ prev b, GovTool.read_statement fs after = Ok prev ∧ draft = GovTool.draft_after prev b.
Proof.
  destruct k; cbn [draft_after_path draft_statement]; [done|..]; intros [= <-];
    unfold mbind, on_files_bind, read_statement, reads, pure, mret, on_files_ret;
    destruct (GovTool.read_statement fs _) as [prev|]; cbn; try done;
    repeat (match goal with |- context [match ?x with Ok _ => _ | Err _ => _ end] => destruct x; try done end);
    intros [= <- <-]; eauto 10.
Qed.

Lemma run_draft k fs draft : draft_statement random k fs = (Ok draft, fs) → fs !! draft_out k = None →
  utf8_valid (draft_out k) = true →
  ∃ o, gov (GovDraft k) fs = (Ok (inr o), <[draft_out k := public_file (statement_encode draft)]> fs).
Proof.
  intros Hd Hf Hu. eexists. cbn [governance_run run_local]. unfold mbind, on_files_bind.
  rewrite Hd, (write_new_statement _ _ _ Hf). unfold pure. by rewrite (path_value_Ok _ Hu).
Qed.

Definition part_of (draft : Statement) (sk : array 32) (i : byte) : GovTool.Part :=
  GovTool.mkPart x01 (hex (array_bytes (core_hash draft.(core)))) i (hex (array_bytes (sign draft.(core) sk))).

Lemma read_key_mono fs fs' path sk : fs ⊆ fs' → GovTool.read_key fs path = Ok sk → GovTool.read_key fs' path = Ok sk.
Proof.
  unfold GovTool.read_key, read_file. intros Hs. destruct (fs !! path) as [f|] eqn:Hf; [|done].
  by rewrite (lookup_weaken _ _ _ _ Hf Hs).
Qed.

Lemma run_sign draft_path (x : Signer) fs draft sk m :
  fs !! draft_path = Some (mkFile m (statement_encode draft)) → statement_ok draft →
  (byte_nat x.(holder) < KEY_COUNT)%nat → GovTool.read_key fs x.(key_path) = Ok sk →
  fs !! x.(part_path) = None → utf8_valid x.(part_path) = true →
  ∃ o, gov (GovSign draft_path x.(key_path) x.(holder) x.(part_path)) fs =
    (Ok (inr o), <[x.(part_path) := public_file (to_vec (part_of draft sk x.(holder)))]> fs).
Proof.
  intros Hd Hok Hi Hk Hf Hu. eexists. cbn [governance_run run_local].
  unfold mbind at 1 2, on_files_bind. rewrite (read_statement_at _ _ _ _ Hok Hd). unfold mbind at 1, on_files_bind, reads.
  unfold GovTool.sign_part. rewrite (proj2 (Nat.leb_gt KEY_COUNT (byte_nat x.(holder))) Hi), Hk.
  cbn [mbind result_bind rejected_by map_err]. unfold mbind at 1, on_files_bind.
  rewrite (write_new_part _ _ _ Hf). unfold pure, mbind, on_files_bind. by rewrite (path_value_Ok _ Hu).
Qed.

(** The holders sign one after the other. *)
Lemma run_signs draft_path draft m (sks : list (array 32)) fs0 signers : statement_ok draft →
  ∀ fs, fs0 ⊆ fs → fs !! draft_path = Some (mkFile m (statement_encode draft)) →
  Forall (λ x, (byte_nat x.(holder) < KEY_COUNT)%nat ∧ utf8_valid x.(part_path) = true ∧
    ∃ sk, GovTool.read_key fs0 x.(key_path) = Ok sk ∧ sks !! byte_nat x.(holder) = Some sk) signers →
  Forall (λ x, fs !! x.(part_path) = None) signers → NoDup (part_path <$> signers) →
  ∃ rs fs', run_commands ((λ x, GovSign draft_path x.(key_path) x.(holder) x.(part_path)) <$> signers) fs = (Ok rs, fs') ∧
    fs ⊆ fs' ∧ (∀ p, p ∉ part_path <$> signers → fs' !! p = fs !! p) ∧
    Forall (λ x, ∃ sk, GovTool.read_key fs0 x.(key_path) = Ok sk ∧ sks !! byte_nat x.(holder) = Some sk ∧
      fs' !! x.(part_path) = Some (public_file (to_vec (part_of draft sk x.(holder))))) signers.
Proof.
  intros Hok. induction signers as [|x l IH]; intros fs Hsub Hd Hall Hfree Hnd.
  { eexists _, _. split; [reflexivity|]. by split; [|split]. }
  apply Forall_cons in Hall as [(Hi & Hu & sk & Hk & Hsk) Hall]. apply Forall_cons in Hfree as [Hx Hfree].
  apply NoDup_cons in Hnd as [Hnx Hnd].
  destruct (run_sign draft_path x fs draft sk m) as [o Ho]; try done; [by eapply read_key_mono|].
  set (fs1 := <[x.(part_path) := _]> fs) in Ho.
  assert (fs ⊆ fs1) as Hs1 by by apply insert_subseteq.
  destruct (IH fs1) as (rs & fs' & Hr & Hs' & Ho' & Hp'); [by etrans|by eapply lookup_weaken|done| |done|].
  { apply Forall_forall. intros y Hy. unfold fs1. rewrite lookup_insert_ne.
    - by eapply Forall_forall in Hfree.
    - intros E. apply Hnx. rewrite E. by apply list_elem_of_fmap_2. }
  eexists _, fs'. split.
  { cbn [run_commands fmap list_fmap]. rewrite (on_files_bind_Ok _ _ _ _ _ Ho), (on_files_bind_Ok _ _ _ _ _ Hr). reflexivity. }
  split; [by etrans|]. split.
  - intros p Hp. apply not_elem_of_cons in Hp as [Hne Hp]. rewrite (Ho' p Hp).
    unfold fs1. by rewrite lookup_insert_ne.
  - apply Forall_cons. split; [|done]. exists sk. split; [done|]. split; [done|]. rewrite (Ho' _ Hnx). apply lookup_insert_eq.
Qed.

Lemma run_combine draft_path parts_paths out fs draft parts s m :
  fs !! draft_path = Some (mkFile m (statement_encode draft)) → statement_ok draft →
  Forall2 (λ p part, fs !! p = Some (public_file (to_vec part))) parts_paths parts →
  GovTool.combine draft parts = Ok s → fs !! out = None → utf8_valid out = true →
  ∃ o, gov (GovCombine draft_path parts_paths out) fs = (Ok (inr o), <[out := public_file (statement_encode s)]> fs).
Proof.
  intros Hd Hok Hp Hc Hf Hu. eexists. cbn [governance_run run_local].
  unfold mbind at 1 2, on_files_bind. rewrite (read_statement_at _ _ _ _ Hok Hd). unfold mbind at 1, on_files_bind, reads.
  assert (try_map (λ p, rejected_by OfTool (GovTool.read_part fs p)) parts_paths = Ok parts) as ->.
  { clear Hc. induction Hp as [|p part ps l Hpp _ IH]; [done|]. cbn [try_map].
    assert (GovTool.read_part fs p = Ok part) as ->; [|cbn; by rewrite IH].
    unfold GovTool.read_part, read_file. rewrite Hpp. cbn. by rewrite from_to_vec. }
  unfold mbind at 1, on_files_bind, pure. rewrite Hc. cbn [rejected_by map_err]. unfold mbind at 1, on_files_bind.
  rewrite (write_new_statement _ _ _ Hf). unfold pure, mbind, on_files_bind. by rewrite (path_value_Ok _ Hu).
Qed.


(** C32: a decision of the key holders reaches the node. Take any node whose
    head is alive and unforked; a draft of any kind but a genesis, made from
    the file of the head's statement, whose body the rules allow; and seven
    or more holders of keys in force with their key files. Then the commands
    [draft], one [sign] per holder and [combine] all succeed on free paths,
    in one directory and in that order; [apply] of their result is a request
    that the daemon reads, however its bytes arrive; and its argument is a
    statement of that draft, which the head accepts. *)
Theorem decision_reaches_node h prev k after fs draft next (sks : list (array 32)) signers out :
  gov_reach (Some h) → h.(dead_at) = None → h.(forked) = false → h.(h_sequence) < U64_MAX →
  core_hash prev.(core) = h.(h_hash) → prev.(core).(sequence) = h.(h_sequence) →
  prev.(core).(network_id) = h.(h_network_id) → Gov.keys (E:=GovError) h = Ok (sk_public <$> sks) →
  draft_after_path k = Some after → GovTool.read_statement fs after = Ok prev →
  (draft_statement random k fs).1 = Ok draft → apply_body h draft.(core) = Ok next →
  Forall (λ x, (byte_nat x.(holder) < KEY_COUNT)%nat ∧
    ∃ sk, GovTool.read_key fs x.(key_path) = Ok sk ∧ sks !! byte_nat x.(holder) = Some sk) signers →
  NoDup (holder <$> signers) → (THRESHOLD ≤ length signers)%nat →
  NoDup (draft_out k :: out :: (part_path <$> signers)) →
  Forall (λ p, fs !! p = None ∧ utf8_valid p = true) (draft_out k :: out :: (part_path <$> signers)) →
  ∃ results fs' args,
    run_commands (GovDraft k :: ((λ x, GovSign (draft_out k) x.(key_path) x.(holder) x.(part_path)) <$> signers)
                  ++ [GovCombine (draft_out k) (part_path <$> signers) out]) fs = (Ok results, fs') ∧
    gov (GovApply out None) fs' = (Ok (inl (lit "governance.apply", args)), fs') ∧
    ∀ reader, Forall (λ l, l ≠ []) reader → mjoin reader = request_line (lit "governance.apply") args →
      ∃ request bytes s, daemon_reads reader = Some request ∧ request.(State.rq_cmd) = lit "governance.apply" ∧
        b64_decode (Mutation.arg request (lit "statement")) = Some bytes ∧ statement_decode bytes = Ok s ∧
        s.(core) = draft.(core) ∧ apply (Some h) s None = Ok (Applied (seal next draft.(core))).
Proof.
  intros Hg Hdead Hfork Hmax Hhash Hseq Hnet Hkeys Hafter Hprev Hdraft Hbody Hsig Hnd Hmin Hpaths Hfree.
  destruct (draft_statement random k fs) as [r fs0] eqn:Ed. cbn in Hdraft. subst r.
  destruct (draft_follows _ _ _ _ _ Hafter Ed) as (-> & prev' & b & Hprev' & ->).
  assert (prev' = prev) as -> by congruence. clear Hprev'. set (draft := GovTool.draft_after prev b) in *.
  assert (u64_range draft.(core).(sequence)) as Hrange.
  { cbn. unfold u64_range, u64_add. apply Z.mod_pos_bound. lia. }
  destruct (statement_small h draft next Hbody Hrange) as [Hok _]; [cbn; lia|].
  apply NoDup_cons in Hpaths as [Hdp Hpaths]. apply NoDup_cons in Hpaths as [Hop Hpaths].
  apply Forall_cons in Hfree as [[Hdf Hdu] Hfree]. apply Forall_cons in Hfree as [[Hof Hou] Hfree].
  rewrite Forall_fmap in Hfree.
  destruct (run_draft k fs draft Ed Hdf Hdu) as [o0 Hdr]. set (fs1 := <[draft_out k := _]> fs) in Hdr.
  destruct (run_signs (draft_out k) draft (Z.land GovTool.MODE_PUBLIC (Z.lnot umask)) sks fs signers Hok fs1) as
    (rs & fs2 & Hrs & Hsub & Hother & Hparts).
  { by apply insert_subseteq. } { apply lookup_insert_eq. }
  { apply Forall_forall. intros x Hx. rewrite Forall_forall in Hsig, Hfree. destruct (Hsig x Hx) as [? ?], (Hfree x Hx) as [? ?]. done. }
  { apply Forall_forall. intros x Hx. unfold fs1. rewrite lookup_insert_ne.
    - rewrite Forall_forall in Hfree. by destruct (Hfree x Hx).
    - intros E. apply Hdp. right. rewrite E. by apply list_elem_of_fmap_2. }
  { done. }
  destruct (Forall2_choice (λ x part, ∃ sk, GovTool.read_key fs x.(key_path) = Ok sk ∧ sks !! byte_nat x.(holder) = Some sk ∧
    part = part_of draft sk x.(holder) ∧ fs2 !! x.(part_path) = Some (public_file (to_vec part))) signers) as [parts Hp].
  { intros x Hx. rewrite Forall_forall in Hparts. destruct (Hparts x Hx) as (sk & ? & ? & ?). eauto 10. }
  destruct (GovToolSpec.honest_quorum_accepted h prev b sks parts None Hg Hdead Hfork Hmax Hhash Hseq Hnet Hkeys) as (s & Hc & Hcore & Ha).
  { intros part Hin. destruct (Forall2_elem_r _ _ _ _ Hp Hin) as (x & Hx & sk & Hk & Hsk & -> & _).
    exists fs, x.(key_path), sk. split; [done|]. split; [done|]. unfold GovTool.sign_part. cbn [GovTool.p_index part_of].
    rewrite Forall_forall in Hsig. rewrite (proj2 (Nat.leb_gt _ _) (proj1 (Hsig x Hx))), Hk. done. }
  { replace (GovTool.p_index <$> parts) with (holder <$> signers); [done|].
    clear -Hp. induction Hp as [|x part l l' (sk & _ & _ & -> & _) _ IH]; [done|]. cbn. by f_equal. }
  { by rewrite <- (Forall2_length _ _ _ Hp). }
  fold draft in Hc, Hcore, Ha. rewrite Hbody in Ha. cbn [mbind result_bind] in Ha.
  assert (u64_range s.(core).(sequence)) as Hr' by by rewrite Hcore.
  destruct (applied_fits h s None _ Hg Hr' Ha) as [Hs_ok Hs_len].
  destruct (run_combine (draft_out k) (part_path <$> signers) out fs2 draft parts s
    (Z.land GovTool.MODE_PUBLIC (Z.lnot umask))) as [oc Hcomb]; try done.
  { eapply lookup_weaken; [|exact Hsub]. apply lookup_insert_eq. }
  { clear -Hp. induction Hp as [|x part l l' (sk & _ & _ & _ & Hf) _ IH]; [constructor|]. cbn. by constructor. }
  { rewrite (Hother out Hop). unfold fs1. rewrite lookup_insert_ne; [done|]. intros E. apply Hdp. rewrite E. by left. }
  set (fs3 := <[out := _]> fs2) in Hcomb.
  exists (inr o0 :: rs ++ [inr oc]), fs3, (apply_args (statement_encode s)). split; [|split].
  - change (run_commands (?c :: ?l)) with (r ← gov c; rs ← run_commands l; mret (r :: rs)).
    rewrite (on_files_bind_Ok _ _ _ _ _ Hdr). erewrite on_files_bind_Ok; [reflexivity|].
    rewrite (run_commands_app _ _ _ _ _ Hrs). cbn [run_commands]. rewrite (on_files_bind_Ok _ _ _ _ _ Hcomb). done.
  - cbn [governance_run]. erewrite on_files_bind_Ok; [|exact (read_statement_at fs3 out s _ Hs_ok (lookup_insert_eq _ _ _))]. done.
  - intros reader Hne Hrd. destruct (apply_request_read _ _ Hs_len Hne Hrd) as (req & Hreq & Hcmd & Harg).
    exists req, (statement_encode s), s. split_and!; try done; [by apply decode_encode].
Qed.

End ceremony.
End CeremonySpec.
