(* ===== verification/CtlDemo.v ===== *)
(** * The client and the ceremony on concrete inputs

    [Module Base64Demo], [Module JsonDemo]: base64 and a JSON text for
    objects of strings, which satisfy the laws assumed of the libraries.
    [Module CtlDemo]: the witnesses. *)

From stdpp Require Import gmap.
From S2P Require Export CeremonySpec.
From S2P Require Import GovernanceDemo.

Local Open Scope Z_scope.

Module Base64Demo.
Import CeremonySpec.

Definition alphabet : list byte := lit "ABCDEFGHIJKLMNOPQRSTUVWXYZabcdefghijklmnopqrstuvwxyz0123456789+/".
Definition digit (d : Z) : byte := default x00 (alphabet !! Z.to_nat d).
Definition value (b : byte) : Z := match list_find (λ c, c = b) alphabet with Some (i, _) => Z.of_nat i | None => 64 end.
Definition PAD : byte := x3d.

Fixpoint encode (l : list byte) : list byte :=
  match l with
  | a :: b :: c :: r =>
      let '(a, b, c) := (byte_val a, byte_val b, byte_val c) in
      [digit (a / 4); digit (a `mod` 4 * 16 + b / 16); digit (b `mod` 16 * 4 + c / 64); digit (c `mod` 64)] ++ encode r
  | [a; b] =>
      let '(a, b) := (byte_val a, byte_val b) in
      [digit (a / 4); digit (a `mod` 4 * 16 + b / 16); digit (b `mod` 16 * 4); PAD]
  | [a] => [digit (byte_val a / 4); digit (byte_val a `mod` 4 * 16); PAD; PAD]
  | [] => []
  end.

Fixpoint decode (l : list byte) : option (list byte) :=
  match l with
  | [] => Some []
  | w :: x :: y :: z :: r =>
      let '(v, i, j, k) := (value w, value x, value y, value z) in
      let first := byte_of (v * 4 + i / 16) in
      let second := byte_of (i `mod` 16 * 16 + j / 4) in
      if decide (y = PAD) then Some [first]
      else if decide (z = PAD) then Some [first; second]
      else rest ← decode r; Some (first :: second :: byte_of (j `mod` 4 * 64 + k) :: rest)
  | _ => None
  end.

Lemma digit_all d : 0 ≤ d < 64 → value (digit d) = d ∧ digit d ≠ PAD ∧ is_base64 (digit d) = true.
Proof.
  intros Hd. assert (Forall (λ d, value (digit d) = d ∧ digit d ≠ PAD ∧ is_base64 (digit d) = true) (seqZ 0 64)) as H.
  { apply (bool_decide_eq_true_1 _). vm_compute. reflexivity. }
  rewrite Forall_forall in H. apply H, elem_of_seqZ. lia.
Qed.

Lemma byte_of_val_at b z : z = byte_val b → byte_of z = b.
Proof. intros ->. apply byte_of_val. Qed.

Lemma three_ind (P : list byte → Prop) : P [] → (∀ a, P [a]) → (∀ a b, P [a; b]) →
  (∀ a b c r, P r → P (a :: b :: c :: r)) → ∀ l, P l.
Proof.
  intros H0 H1 H2 H3. fix IH 1. intros [|a [|b [|c r]]]; [exact H0|apply H1|apply H2|apply H3, IH].
Qed.

Ltac in_64 := repeat match goal with |- context [byte_val ?b] =>
  lazymatch goal with H : 0 ≤ byte_val b < 256 |- _ => fail | _ => pose proof (byte_val_range b) end end;
  Z.to_euclidean_division_equations; lia.
Ltac digits := repeat match goal with |- context [value (digit ?d)] => rewrite (proj1 (digit_all d ltac:(in_64))) end.
Ltac no_pad := match goal with |- context [decide (digit ?d = PAD)] =>
  rewrite (decide_False (P := digit d = PAD)) by exact (proj1 (proj2 (digit_all d ltac:(in_64)))) end.

Lemma decode_encode_base64 l : decode (encode l) = Some l.
Proof.
  induction l as [|a|a b|a b c r IH] using three_ind; [done| | |]; cbn [encode app decode].
  - rewrite decide_True by done. digits. do 2 f_equal. apply byte_of_val_at. in_64.
  - no_pad. rewrite decide_True by done. digits. f_equal. f_equal; [|f_equal]; apply byte_of_val_at; in_64.
  - no_pad. no_pad. rewrite IH. cbn [mbind option_bind]. digits. f_equal. f_equal; [|f_equal; [|f_equal]]; apply byte_of_val_at; in_64.
Qed.

Lemma length_encode_base64 l : length (encode l) = ((length l + 2) / 3 * 4)%nat.
Proof.
  induction l as [|a|a b|a b c r IH] using three_ind; try done. cbn [encode app length]. rewrite IH.
  replace (S (S (S (length r))) + 2)%nat with (1 * 3 + (length r + 2))%nat by lia. rewrite Nat.div_add_l by lia. lia.
Qed.

Lemma alphabet_base64 l : forallb is_base64 (encode l) = true.
Proof.
  induction l as [|a|a b|a b c r IH] using three_ind; try done; cbn [encode app forallb];
    rewrite ?IH; repeat match goal with |- context [is_base64 (digit ?d)] => rewrite (proj2 (proj2 (digit_all d ltac:(in_64)))) end; done.
Qed.

#[export] Instance rfc_base64 : Base64 := {| b64_encode := encode; b64_decode := decode |}.
#[export] Instance rfc_base64_laws : Base64Laws.
Proof. split; [apply decode_encode_base64|apply length_encode_base64]. Qed.
#[export] Instance rfc_base64_alphabet : Base64Alphabet.
Proof. split. apply alphabet_base64. Qed.

End Base64Demo.

Module JsonDemo.
Import CtlSpec.

(** A byte between quotes; others than printable ones are escaped. *)
Definition raw (b : byte) : bool := (0x20 <=? byte_val b) && negb (bool_decide (b = x22)) && negb (bool_decide (b = x5c)).
Definition nibble (d : Z) : byte := byte_of (0x61 + d).
Definition escaped (b : byte) : list byte :=
  if raw b then [b] else [x5c; x75; nibble (byte_val b / 16); nibble (byte_val b `mod` 16)].
Definition string_text (s : str) : list byte := x22 :: mjoin (escaped <$> s) ++ [x22].

Fixpoint text (v : Json) : list byte :=
  match v with
  | JStr s => string_text s
  | JObj l => x7b :: join [x2c] (map (λ kv, string_text kv.1 ++ x3a :: text kv.2) l) ++ [x7d]
  | _ => lit "null"
  end.

(** What is before the closing quote, and what follows it. *)
Fixpoint read_string (l : list byte) : option (str * list byte) :=
  match l with
  | [] => None
  | b :: r =>
      if decide (b = x22) then Some ([], r)
      else if decide (b = x5c) then
        match r with
        | x75 :: h :: d :: r =>
            '(s, r) ← read_string r;
            Some (byte_of ((byte_val h - 0x61) * 16 + (byte_val d - 0x61)) :: s, r)
        | _ => None
        end
      else '(s, r) ← read_string r; Some (b :: s, r)
  end.

Fixpoint read_value (n : nat) (l : list byte) : option (Json * list byte) :=
  match n, l with
  | S n, x22 :: r => '(s, r) ← read_string r; Some (JStr s, r)
  | S n, x7b :: x7d :: r => Some (JObj [], r)
  | S n, x7b :: r => '(m, r) ← read_members n r; Some (JObj m, r)
  | _, _ => None
  end
with read_members (n : nat) (l : list byte) : option (list (str * Json) * list byte) :=
  match n, l with
  | S n, x22 :: r =>
      '(k, r) ← read_string r;
      match r with
      | x3a :: r =>
          '(v, r) ← read_value n r;
          match r with
          | x2c :: r => '(m, r) ← read_members n r; Some ((k, v) :: m, r)
          | x7d :: r => Some ([(k, v)], r)
          | _ => None
          end
      | _ => None
      end
  | _, _ => None
  end.

Definition read_text (l : list byte) : option Json :=
  match read_value (length l) l with Some (v, ([] | [x0a])) => Some v | _ => None end.

Lemma read_string_text s rest : read_string (mjoin (escaped <$> s) ++ x22 :: rest) = Some (s, rest).
Proof.
  induction s as [|b s IH]; [done|]. change (mjoin (escaped <$> b :: s)) with (escaped b ++ mjoin (escaped <$> s)).
  rewrite <- app_assoc. unfold escaped at 1. destruct (raw b) eqn:Hb; cbn [app read_string].
  - unfold raw in Hb. bool_simpl. rewrite decide_False, decide_False by done. by rewrite IH.
  - rewrite decide_False, decide_True by done. rewrite IH. cbn [mbind option_bind]. do 3 f_equal.
    unfold nibble. rewrite !byte_val_of. pose proof (byte_val_range b).
    rewrite !Z.mod_small by (Z.to_euclidean_division_equations; lia).
    replace ((97 + byte_val b `div` 16 - 97) * 16 + (97 + byte_val b `mod` 16 - 97)) with (byte_val b);
      [apply byte_of_val|Z.to_euclidean_division_equations; lia].
Qed.

(** The members of an object, up to and with the closing brace. *)
Definition members (l : list (str * Json)) : list byte :=
  join [x2c] (map (λ kv, string_text kv.1 ++ x3a :: text kv.2) l) ++ [x7d].
Lemma members_cons k v l : members ((k, v) :: l) =
  x22 :: mjoin (escaped <$> k) ++ x22 :: x3a :: text v ++ match l with [] => [x7d] | _ => x2c :: members l end.
Proof.
  unfold members. destruct l as [|kv l]; cbn [map join fst snd]; unfold string_text; cbn [app];
    rewrite <- ?app_assoc; cbn [app]; by rewrite <- ?app_assoc.
Qed.

Lemma read_both n :
  (∀ v rest, texts_only v = true → (length (text v) ≤ n)%nat → read_value n (text v ++ rest) = Some (v, rest)) ∧
  (∀ l rest, l ≠ [] → texts_only (JObj l) = true → (length (members l) ≤ n)%nat →
     read_members n (members l ++ rest) = Some (l, rest)).
Proof.
  induction n as [|n [IHv IHm]].
  { split; [intros v rest Hv Hl|intros [|[k v] l] rest Hne Hv Hl; [done|rewrite members_cons in Hl; cbn in Hl; lia]].
    destruct v as [| | |s| |l]; try done; cbn in Hl; lia. }
  split.
  - intros v rest Hv Hl. destruct v as [| | |s| |[|[k v] l]]; try done.
    + cbn [text string_text app read_value]. rewrite <- app_assoc. cbn [app]. by rewrite read_string_text.
    + assert (text (JObj ((k, v) :: l)) = x7b :: members ((k, v) :: l)) as E by done. rewrite E in Hl |- *.
      cbn [length] in Hl. specialize (IHm ((k, v) :: l) rest ltac:(done) Hv ltac:(lia)).
      rewrite members_cons in IHm |- *. cbn [app read_value] in IHm |- *. rewrite IHm. done.
  - intros [|[k v] l] rest Hne Hv Hl; [done|]. cbn [texts_only forallb fst snd] in Hv. bool_simpl.
    rewrite members_cons in Hl |- *. cbn [app read_members length] in *. rewrite <- app_assoc. cbn [app]. rewrite read_string_text.
    cbn [mbind option_bind]. repeat (rewrite ?length_app in Hl; cbn [length] in Hl). rewrite <- app_assoc. rewrite IHv by (done || lia).
    destruct l as [|kv l]; cbn [app mbind option_bind]; [done|]. rewrite IHm; [done|done|done|]. cbn [length] in Hl. lia.
Qed.

(** The instance; white space is not indented here. *)
#[export] Instance demo_json : JsonText := {| json_text := text; json_pretty := text; json_tree := read_text |}.

Lemma string_text_body s : ∃ body, string_text s = x22 :: body ++ [x22] ∧ string_body body.
Proof.
  exists (mjoin (escaped <$> s)). split; [done|].
  assert (∀ z, 0 ≤ z < 16 → nibble z ≠ x22 ∧ nibble z ≠ x5c ∧ 0x20 ≤ byte_val (nibble z)) as Hn.
  { intros z Hz. assert (byte_val (nibble z) = 0x61 + z) as E.
    { unfold nibble. rewrite byte_val_of. apply Z.mod_small. lia. }
    split; [|split]; [intros H; rewrite H in E; change (byte_val x22) with 34 in E; change (byte_val x5c) with 92 in E; lia..|lia]. }
  induction s as [|b s IH]; [constructor|]. change (mjoin (escaped <$> b :: s)) with (escaped b ++ mjoin (escaped <$> s)).
  pose proof (byte_val_range b). unfold escaped at 1. destruct (raw b) eqn:Hb; cbn [app].
  - unfold raw in Hb. bool_simpl. by constructor.
  - apply body_escape; [done|]. apply body_plain; try apply Hn; try (Z.to_euclidean_division_equations; lia).
    apply body_plain; try apply Hn; try (Z.to_euclidean_division_equations; lia). exact IH.
Qed.

Lemma string_text_plain s : forallb is_plain s = true → string_text s = x22 :: s ++ [x22].
Proof.
  intros Hs. unfold string_text. do 2 f_equal. induction s as [|b s IH]; [done|].
  cbn [forallb] in Hs. apply andb_true_iff in Hs as [Hb Hs].
  change (mjoin (escaped <$> b :: s)) with (escaped b ++ mjoin (escaped <$> s)). rewrite (IH Hs).
  unfold escaped. assert (raw b = true) as ->; [|done]. unfold is_plain, in_range in Hb. unfold raw. bool_simpl.
  rewrite (bool_decide_eq_false_2 (b = x22)), (bool_decide_eq_false_2 (b = x5c)) by done.
  by rewrite (proj2 (Z.leb_le _ _)).
Qed.

#[export] Instance demo_json_laws : JsonTextLaws.
Proof.
  split; [exact string_text_body|done|exact string_text_plain|]. intros v Hv. cbn. unfold read_text.
  rewrite (proj1 (read_both (length (text v ++ [x0a]))) v [x0a] Hv); [done|]. rewrite length_app. lia.
Qed.

End JsonDemo.

Module CtlDemo.
Import ToySerde Toy Base64Demo JsonDemo Ctl CtlSpec CeremonySpec.
#[export] Existing Instances GovTool.key_file_eq_dec GovTool.key_file_countable GovTool.part_eq_dec GovTool.part_countable.

#[export] Instance challenge_eq_dec : EqDecision KeyCheck.Challenge.
Proof. solve_decision. Defined.
#[export] Instance challenge_countable : Countable KeyCheck.Challenge.
Proof.
  apply (inj_countable' (λ c, (KeyCheck.c_format c, KeyCheck.c_version c, KeyCheck.c_network_id c, KeyCheck.c_challenge c))
    (λ '(f, v, n, c), KeyCheck.mkChallenge f v n c)). by intros [].
Defined.
#[export] Instance answer_eq_dec : EqDecision KeyCheck.Answer.
Proof. solve_decision. Defined.
#[export] Instance answer_countable : Countable KeyCheck.Answer.
Proof.
  apply (inj_countable' (λ a, (KeyCheck.a_format a, KeyCheck.a_version a, KeyCheck.a_network_id a, KeyCheck.a_challenge a,
      KeyCheck.a_index a, KeyCheck.a_signature a))
    (λ '(f, v, n, c, i, s), KeyCheck.mkAnswer f v n c i s)). by intros [].
Defined.

Definition demo_args : Json := json_object [jtext "name" (lit "web"); jtext "peer" (lit "wolf-b"); jtext "transport" (lit "quic")].
Definition demo_line : list byte := request_line (lit "service.add_from") demo_args.

(** [werewolfctl service add web --from wolf-b], in two reads. *)
Lemma client_request_accepted_witness :
  daemon_reads [take 20 demo_line; drop 20 demo_line] =
    Some (State.mkRequest (lit "werewolfctl") (lit "service.add_from") demo_args).
Proof.
  rewrite (client_request_accepted (lit "service.add_from") demo_args [take 20 demo_line; drop 20 demo_line]).
  - vm_compute. reflexivity.
  - left. exists (Service (ServiceAdd (lit "web") None None None (Some (lit "wolf-b")) None)). vm_compute. reflexivity.
  - vm_compute. reflexivity.
  - repeat constructor; vm_compute; discriminate.
  - vm_compute. reflexivity.
Defined.

(** Seven holders with key files, and the file of the last statement. *)
Import Gov GovDemo.
Definition key_name (i : Z) : str := lit "holder" ++ show 10 i ++ lit ".json".
Definition part_name (i : Z) : str := lit "part" ++ show 10 i ++ lit ".json".
Definition demo_indices : list Z := [6; 0; 3; 2; 9; 8; 5].
Definition key_file_of (sk : array 32) : File :=
  mkFile GovTool.MODE_PRIVATE (to_vec (GovTool.mkKeyFile x01 GovTool.KEY_TYPE
    (b64_encode (array_bytes (sk_public sk))) (b64_encode (array_bytes sk)))).
Definition demo_files : Fs :=
  <[lit "last.wwgov" := mkFile GovTool.MODE_PUBLIC (statement_encode (signed demo_admission))]>
    (list_to_map ((λ i, (key_name i, key_file_of (key_of (i + 1)))) <$> demo_indices)).
Definition demo_signers : list Signer := (λ i, mkSigner (key_name i) (byte_of i) (part_name i)) <$> demo_indices.
Definition demo_kind : DraftKind := DraftActivate (lit "last.wwgov") (lit "draft.wwgov").

Definition demo_next_head : Head := match apply_body demo_h1 demo_draft.(core) with Ok n => n | Err _ => demo_h1 end.

Lemma demo_index i : i ∈ demo_indices → 0 ≤ i < 10.
Proof. intros Hi. apply (bool_decide_eq_true_1 (0 ≤ i < 10)). revert i Hi. apply Forall_forall. repeat constructor. Qed.

Lemma demo_key i : i ∈ demo_indices → GovTool.read_key demo_files (key_name i) = Ok (key_of (i + 1)).
Proof.
  intros Hi. apply (GovToolSpec.read_key_file _ _ GovTool.MODE_PRIVATE); [|reflexivity]. unfold demo_files. rewrite lookup_insert_ne.
  - apply elem_of_list_to_map.
    + rewrite <- list_fmap_compose. apply (bool_decide_eq_true_1 (NoDup (key_name <$> demo_indices))). vm_compute. reflexivity.
    + apply list_elem_of_fmap. by exists i.
  - intros E. discriminate E.
Qed.

Lemma demo_free p : p ∈ lit "draft.wwgov" :: lit "signed.wwgov" :: (part_name <$> demo_indices) → demo_files !! p = None.
Proof.
  intros Hp. unfold demo_files. rewrite lookup_insert_ne.
  - apply not_elem_of_list_to_map. rewrite <- list_fmap_compose. intros Hk. 
    assert (Forall (λ p, p ∉ key_name <$> demo_indices) (lit "draft.wwgov" :: lit "signed.wwgov" :: (part_name <$> demo_indices))) as H.
    { apply (bool_decide_eq_true_1 _). vm_compute. reflexivity. }
    rewrite Forall_forall in H. by apply (H p Hp).
  - intros <-. revert Hp. apply (bool_decide_eq_true_1 (¬ _)). vm_compute. reflexivity.
Qed.

Lemma demo_last : GovTool.read_statement demo_files (lit "last.wwgov") = Ok (signed demo_admission).
Proof.
  unfold GovTool.read_statement, read_file, demo_files. rewrite lookup_insert_eq. cbn [ok_or map_err mbind result_bind f_bytes].
  rewrite GovCodec.decode_encode; [done|]. unfold GovCodec.statement_ok, u64_range, u16_range.
  repeat split; first [apply Nat.ltb_lt|apply Nat.leb_le|idtac]; vm_compute; reflexivity || discriminate.
Qed.

Lemma decision_reaches_node_witness :
  ∃ results fs' args,
    run_commands 18 (key_of 7) (key_of 8) false
      (GovDraft demo_kind :: ((λ x, GovSign (draft_out demo_kind) x.(key_path) x.(holder) x.(part_path)) <$> demo_signers)
       ++ [GovCombine (draft_out demo_kind) (part_path <$> demo_signers) (lit "signed.wwgov")]) demo_files = (Ok results, fs') ∧
    governance_run 18 (key_of 7) (key_of 8) false (GovApply (lit "signed.wwgov") None) fs' =
      (Ok (inl (lit "governance.apply", args)), fs').
Proof.
  destruct (decision_reaches_node 18 (key_of 7) (key_of 8) false demo_h1 (signed demo_admission) demo_kind (lit "last.wwgov")
    demo_files demo_draft demo_next_head demo_keys demo_signers (lit "signed.wwgov") demo_reach1) as (rs & fs' & args & H1 & H2 & _).
  1-7: vm_compute; reflexivity.
  - reflexivity.
  - exact demo_last.
  - cbn [demo_kind draft_statement]. unfold mbind, on_files_bind, read_statement, reads. by rewrite demo_last.
  - vm_compute. reflexivity.
  - apply Forall_fmap, Forall_forall. intros i Hi. pose proof (demo_index i Hi). cbn [holder key_path compose].
    assert (byte_nat (byte_of i) = Z.to_nat i) as ->.
    { rewrite <-(Z2Nat.id i) at 1 by lia. apply byte_nat_of. lia. }
    split; [unfold KEY_COUNT; lia|]. exists (key_of (i + 1)). split; [by apply demo_key|].
    unfold demo_keys. rewrite list_lookup_fmap, lookup_seqZ_lt by lia. cbn. do 2 f_equal. lia.
  - apply (bool_decide_eq_true_1 _). vm_compute. reflexivity.
  - vm_compute. lia.
  - apply (bool_decide_eq_true_1 _). vm_compute. reflexivity.
  - apply Forall_forall. intros p Hp. split; [apply demo_free; exact Hp|].
    revert p Hp. apply Forall_forall. apply (bool_decide_eq_true_1 _). vm_compute. reflexivity.
  - exists rs, fs', args. exact (conj H1 H2).
Defined.

End CtlDemo.
